(* ===== verification/_CoqProject ===== *)
-Q . S2P
Prelude.v
I128.v
NumTh.v
Divisors.v
Bvdom.v
Bvbounds.v
Aig.v
Bitblast.v
AigCnf.v
Alloc.v
Spool.v
Components.v
Vars.v
Ctx.v
Queue.v
DynStack.v
Trail.v
GuardIx.v
Wake.v
Store.v
Wide.v
Tighten.v
Propagate.v
Probe.v
Unassigned.v
Shave.v
Luby.v
Search.v
Explore.v
Solve.v
Rand.v
Holes.v
Choose.v
Build.v
Compare32.v
Arith32.v
Reify32.v
Compare64.v
Arith64.v
Reify64.v
Choice64.v
Window.v
Masks.v
Aigsim.v
Mul32.v
Mul64.v
Bits64.v
Shift64.v
Templates.v
Constructors.v
Solver.v
Session.v
Answers.v
