(* ===== verification/Prelude.v ===== *)
(** * A verification development for dv-solve

    dv-solve (src/src/c) is a constraint solver for constrained-random
    stimulus: a SystemVerilog-like problem is compiled either to a finite-domain
    engine (bounded integer variables, propagators, search) or to a bit-blasting
    engine (words to an and-inverter graph, to clauses, to a SAT solver).  This
    library models the finite-domain engine from its memory up to the search
    and its answer, and the word-level and gate-level parts of the bit-blasting
    engine down to the clauses.

    ** The parts, and how they call each other

    - Memory.  [Alloc]: the block allocator with its free list
      (dvs_block_alloc.c) and the bump stack over it (dvs_stack.c).  [DynStack]
      states, as the classes [DynStack] (operations) and [DynStackLaws] (laws),
      what the search asks of a dynamic stack, and discharges it with the bump
      stack; [Probe.DynStackServes] adds that every record is served, which the
      bump stack over large enough blocks does ([DynStack.wide_served]).
      [Spool]: the segmented pool (dvs_spool.c), blocks named by 32-bit offsets
      over memory that comes in pieces, with marks and releases.
    - Variables.  [Vars]: [Variable] with its two tiers of stored bounds, the
      accessors of dvs_ctx.h, the initialisers of dvs_compile.c.  A stored bound
      is a bit pattern; [bval] is the number it denotes.
    - The context.  [Ctx]: the fields of [dvs_ctx_t] the engine works on, one
      record [ctx T M S], parametric in the propagators' data [T] and the
      dynamic stack [S] with its marks [M].
    - The queue, the trail, the guard index, the wake-ups.  [Queue], [Trail],
      [GuardIx], [Wake]: dvs_trail.c and the first half of dvs_propagate.c.
    - Tightening.  [Tighten]: [ctx_tighten_lb32] .. [ctx_tighten_ub64].  [Store]
      is the interface the templates are written against: the class [Store]
      (read a bound, tighten a bound), its laws [StoreLaws], and a small program
      logic for templates; [Tighten] discharges the laws for the context.
      [Wide] carries the logic over to 64-bit patterns, and [Window] restates its
      rules for templates whose patterns are their values.
    - The templates (dvs_prop_templates.c).  [Compare32], [Arith32], [Reify32],
      [Compare64], [Arith64], [Reify64], [Choice64], [Mul32], [Mul64], [Bits64],
      [Shift64]: one definition per [_fire_*] function, over any [Store]
      ([Masks]: the searches for a value between two masks that the disjunction
      uses).  [Templates] makes them one family
      ([templ], [fire_template]); [Constructors] has the [prop_add_*]
      functions, over [Build] ([_alloc_prop] and the growth of its tables).
    - The loop.  [Propagate]: [dvs_solver_propagate], over any family that keeps
      the contract of the class [FiresLaws]; [Solver] instantiates it.  [Probe]: a
      propagation above an open level is a run of trail and queue operations
      that the backtrack undoes.  [Unassigned]: the mask of variables still to
      be decided.  [Shave]: [bounds_shave].  [Session]: posting, propagating and
      shaving in a row, on the bump stack.
    - The search (dvs_search.c).  [Search]: [_solver_solve_core] as a step
      function, a step for the body of the decision loop and one for that of the
      conflict loop, over the class [Chooser] of the choices it makes.  [Explore]
      has the laws of the choices ([ChooserLaws]) and the invariant of the steps,
      [Solve] the function's answers.  [Choose] discharges the laws with the
      engine's own choices, over [Rand] (the random numbers), [Holes] (the
      values excluded from a variable) and [Divisors]; [Luby] is the restart
      sequence.  [Answers] composes everything, from constructor calls to the
      answer.
    - The bit-blasting engine.  [Bvdom]: known-bits domains (dvs_bvdom.c).
      [Bvbounds]: unsigned ranges and split signed bounds (dvs_bvbounds.c).
      [Aig]: the hash-consed and-inverter graph and its rewriting (dvs_aig.c).
      [Bitblast]: the vector operations (dvs_bitblast.c), programs over [Aig].
      [AigCnf]: the clause encoder (dvs_aig_cnf.c).  [Aigsim]: the simulation of
      a graph's assertions, 512 assignments at a time (dvs_aigsim.c).
    - Integers.  [I128]: the portable half of dvs_i128.h.  [NumTh] and [Divisors]:
      dvs_numth.c, roots, the primality test, factorisation and the cached list of
      the divisors of a product.
    - [Components]: the union-find forest and the numbering of the disconnected
      parts of a problem (dvs_components.c).

    ** What the theorems show

    - Engine.  [Solver.session_correct]: from searchable variables and any
      constructor calls, each ready for its variables in the sense of
      [Templates.template_ready] (right widths, a guard that is 0 or 1, no set
      with the largest number of its width, no overflow), propagation ends and
      refines the posted constraints.
      [propagate_sound], [propagate_complete], [propagate_total],
      [propagate_types], [propagate_answers] state its sides one by one for any
      context that satisfies the invariant; [Shave.shave_exact] and
      [Session.shaved_session] carry them through shaving; [shave_exact] also
      says which trials and exclusions the run was made of, and that it ends
      with a whole round of trials that all pass, or at its limit.
    - Search.  [Answers.search_answers]: from searchable variables and such
      constructor calls, on well-formed tables, with fewer than 2^31 - 1
      restarts, in a solve that does not sample ([Choose.unsampled]), the search
      ends with an answer: values that satisfy the constraints, a refutation, or
      a timeout.
      [Choose.mrv_exact], [Holes.holes_avoided], [Holes.exclude_exact],
      [Rand.rand_distinct] and [Luby.luby_exact] say what the choices are.
    - Templates.  [Solver.templates_implement]: each fire function, fired where
      it is ready, loses no satisfying assignment, reports only real conflicts and entailments, and
      decides its constraint once its variables are fixed; the states it may be
      fired in are spelled out by [Templates.template_ready] ([mul_ready_32] and
      the like where arithmetic could overflow).
      [Solver.tighten_exact] gives the meaning of a tightening in the variable's
      order, [Solver.promotions_post] the equivalence of the 32- and 64-bit forms.
    - State.  [Queue.queue_refines] (the intrusive lists are sixteen queues),
      [Trail.backtrack_restores] (whatever happened since the push),
      [GuardIx.guard_index_exact], [Wake.wake_exact], [Solver.alloc_prop_exact],
      [Solver.set_guard_exact], [Vars.initialisers_exact].
    - Memory.  [Alloc.block_alloc_safe], [stack_cells_safe],
      [stack_pop_restores], [stack_alloc_served]; [Spool.pool_safe] (blocks in
      use never overlap, nothing leaks) and [Spool.release_restores].
    - Words and gates.  [Bvdom.bvdom_transfer_best] and its neighbours: each
      transfer function is the best abstraction of its operation, where it is
      defined (the arithmetic shift of 64 bits by 0 is not); the bit-blaster
      computes the word operations ([Bitblast.bb_arith_correct], ...) under every
      input assignment; [AigCnf.cnf_correct]: the clauses have exactly the
      graph's models; [Aigsim.aigsim_exact]: a sweep decides the assertions.
    - Integers.  [I128.portable_exact]: the portable path and the compiler's
      builtins agree.  [NumTh.roots_exact], [NumTh.is_prime_exact],
      [Divisors.divisors_exact].
    - [Components.components_exact]: equal numbers exactly for connected variables,
      and a refusal exactly when one of the three allocations fails.

    ** Conventions

    A machine word is a [Z] with its wrap-around written out ([u32], [u64],
    [s32], [s64]); arrays are lists, with [get]/[put] as in bounds; the pool is a
    finite map from offsets to blocks.  A loop that is not structural takes fuel,
    and a theorem shows that the fuel it needs is bounded and gives the result:
    a propagation needs at most (sum of the domain sizes) * (propagators + 1) +
    queue length turns ([propagate_total]), shaving one more than the sum of
    the domain sizes of rounds ([shave_exact]), the search some
    number of steps ([search_answers], where every greater number gives the same
    answer: each conflict shrinks what is left to explore, and there are at most
    as many restarts as the options allow), a graph traversal and a table
    growth the bounds in [AigCnf] and [Aig].  The loops over a 64-bit word carry
    their own bound (64 turns, 34 for a root, 128 for Euclid).  Fuel that the
    code does not have is not visible in a result: such a theorem says that the
    result exists.  The exception is Pollard's rho, whose end nobody has proved:
    [divisors_exact] has the result exist where rho is not called.

    ** Parameters

    [Env] (GuardIx): whether the context may grow, the answers of the allocator
    for the guard index, the clock's answer.  [BuildEnv] (Build): the answers of
    the allocator for the tables and of the pool for a propagator's block, with
    the law that a block handed out is not one in use.  [Alloc], [Spool]: [malloc] with the
    contract of the C library.  [AigCnf]: the SAT layer is a list of clauses.
    [Search]: whether the clock is past the deadline at each tick, whether the
    level arrays may grow and are served.  [Choose]: the tables the compiler
    fills (solve order, distributions, links of remainders and products, copies),
    the rounds of the factoring, whether its array is served, the environment's
    switches.

    ** Not modelled

    - Clause learning ([ctx->lcg], dvs_lcg.c, dvs_clause_prop.c, dvs_conflict.c,
      dvs_explain.c): the contexts modelled have [lcg == NULL], where the
      notifications return at once.
    - In the search, the tiers that sample solutions uniformly in a seeded
      [fair_pick] solve: drawing from the box of the domains, listing the
      solutions, weighing values by what they leave, rejecting roots of squares.
      They change which solution is found; [search_answers] is about the solves
      without them ([Choose.unsampled]).  The functions around the search
      (relaxing assumptions, pins, reset, the memory of earlier failures).
    - Templates that are not in the family: bit slices, counts and logarithms,
      the modular bit-vector templates, disjunctions, all-different and the
      counting sums, most of which have allocated side tables.  The complement
      ([Bits64.bnot_64_fulfils]) is outside the family because its constraint
      depends on the width of its result.  The constructors of the remainders
      also note a hint for the search, in a table the context record does not
      have; they post through [alloc_prop] here.
    - The compiler from problem images (dvs_compile.c) beyond the variable
      initialisers, the problem builder, the bit-blasting driver
      (dvs_bbsolver.c) and the SMT-LIB and SystemVerilog front ends: they
      translate between large data formats and rest on the parts modelled here.
    - The third-party SAT solver under sat/kissat, the bindings, threads,
      processes and I/O. *)

From Stdlib Require Import ZArith Lia Bool Btauto List.
Import ListNotations.
Open Scope Z_scope.

(** ** Machine words

    A [uint64_t] is a [Z] in [0, 2^64); operations that can leave that range
    wrap explicitly. *)

Definition u64 (z : Z) : Z := z mod 2 ^ 64.
Definition u32 (z : Z) : Z := z mod 2 ^ 32.
Definition u8 (z : Z) : Z := z mod 2 ^ 8.

(** The conversions to [int32_t] and [int64_t]: two's-complement wrap-around. *)
Definition s32 (z : Z) : Z := (z + 2 ^ 31) mod 2 ^ 32 - 2 ^ 31.
Definition s64 (z : Z) : Z := (z + 2 ^ 63) mod 2 ^ 64 - 2 ^ 63.
Definition int32 (z : Z) : Prop := - 2 ^ 31 <= z < 2 ^ 31.
Definition int64 (z : Z) : Prop := - 2 ^ 63 <= z < 2 ^ 63.

Lemma s32_small z : int32 z -> s32 z = z.
Proof. unfold int32, s32. intros H. rewrite Z.mod_small; lia. Qed.

Lemma s64_small z : int64 z -> s64 z = z.
Proof. unfold int64, s64. intros H. rewrite Z.mod_small; lia. Qed.

Lemma int32_s32 z : int32 (s32 z).
Proof. unfold int32, s32. pose proof (Z.mod_pos_bound (z + 2 ^ 31) (2 ^ 32)). lia. Qed.

Lemma int64_s64 z : int64 (s64 z).
Proof. unfold int64, s64. pose proof (Z.mod_pos_bound (z + 2 ^ 63) (2 ^ 64)). lia. Qed.

Lemma int32_64 z : int32 z -> int64 z.
Proof. unfold int32, int64. lia. Qed.

Declare Scope word_scope.
Delimit Scope word_scope with w.
Notation "a &w b" := (Z.land a b) (at level 40, left associativity) : word_scope.
Notation "a |w b" := (Z.lor a b) (at level 50, left associativity) : word_scope.
Notation "a ^w b" := (Z.lxor a b) (at level 45, left associativity) : word_scope.
Notation "~w a" := (u64 (Z.lnot a)) (at level 35, right associativity) : word_scope.
Notation "a <<w n" := (u64 (Z.shiftl a n)) (at level 49, left associativity) : word_scope.
Notation "a >>w n" := (Z.shiftr a n) (at level 49, left associativity) : word_scope.
Notation "a +w b" := (u64 (a + b)) (at level 50, left associativity) : word_scope.
Notation "a -w b" := (u64 (a - b)) (at level 50, left associativity) : word_scope.
Notation "a *w b" := (u64 (a * b)) (at level 40, left associativity) : word_scope.
(** A loop that ran out of fuel ends the computation. *)
Notation "'let*' x := a 'in' b" := (match a with Some x => b | None => None end)
  (at level 10, x pattern, b at level 200) : word_scope.

(** [0 <= v < 2^w]: [v] is a [w]-bit unsigned value. *)
Definition fits (w v : Z) : Prop := 0 <= v < 2 ^ w.

(** The two's-complement reading of a [w]-bit pattern. *)
Definition signed (w v : Z) : Z := if Z.testbit v (w - 1) then v - 2 ^ w else v.

(** ** Bit reasoning *)

Lemma u64_spec z i : 0 <= i -> Z.testbit (u64 z) i = (i <? 64) && Z.testbit z i.
Proof. intros. unfold u64. apply Z.testbit_mod_pow2. lia. Qed.

Lemma ones_spec n i : 0 <= n -> Z.testbit (Z.ones n) i = (0 <=? i) && (i <? n).
Proof. apply Z.testbit_ones. Qed.

Lemma one_spec i : Z.testbit 1 i = (i =? 0).
Proof.
  destruct (Z.ltb_spec i 0).
  - rewrite Z.testbit_neg_r by lia. symmetry. apply Z.eqb_neq. lia.
  - change 1 with (2 ^ 0). rewrite Z.pow2_bits_eqb by lia. apply Z.eqb_sym.
Qed.

Lemma pow2_spec n i : 0 <= n -> Z.testbit (2 ^ n) i = (i =? n).
Proof. intros. rewrite Z.pow2_bits_eqb by lia. apply Z.eqb_sym. Qed.

Lemma fits_high w v i : fits w v -> w <= i -> Z.testbit v i = false.
Proof.
  intros [H0 H1] Hi.
  destruct (Z.leb_spec 0 w) as [Hw | Hw].
  - rewrite <- (Z.mod_small v (2 ^ w)) by lia. apply Z.mod_pow2_bits_high. lia.
  - rewrite Z.pow_neg_r in H1 by lia. lia.
Qed.

Lemma fits_intro w v :
  0 <= w -> (forall i, w <= i -> Z.testbit v i = false) -> fits w v.
Proof.
  intros Hw H.
  assert (E : v = v mod 2 ^ w).
  { apply Z.bits_inj'. intros i Hi. rewrite Z.testbit_mod_pow2 by lia.
    destruct (Z.ltb_spec i w); cbn; [reflexivity | apply H; lia]. }
  unfold fits. rewrite E. apply Z.mod_pos_bound. lia.
Qed.

Lemma fits_mono w w' v : fits w v -> 0 <= w <= w' -> fits w' v.
Proof.
  unfold fits. intros [? ?] [? ?].
  pose proof (Z.pow_le_mono_r 2 w w'). lia.
Qed.

Lemma u64_small z : fits 64 z -> u64 z = z.
Proof. intros [? ?]. apply Z.mod_small. lia. Qed.

Lemma fits_u64 z : fits 64 (u64 z).
Proof. apply Z.mod_pos_bound. lia. Qed.

Lemma fits_inj w a b :
  0 <= w -> fits w a -> fits w b ->
  (forall i, 0 <= i < w -> Z.testbit a i = Z.testbit b i) -> a = b.
Proof.
  intros Hw Ha Hb H. apply Z.bits_inj'. intros i Hi.
  destruct (Z.ltb_spec i w); [apply H; lia |].
  rewrite (fits_high w a), (fits_high w b) by (auto; lia). reflexivity.
Qed.

Create HintDb words.
Create Rewrite HintDb words.
#[export] Hint Rewrite Z.land_spec Z.lor_spec Z.lxor_spec Z.bits_0 one_spec : words.
#[export] Hint Rewrite Z.lnot_spec Z.shiftl_spec Z.shiftr_spec u64_spec ones_spec
  pow2_spec Z.testbit_mod_pow2 Z.div_pow2_bits using lia : words.
#[export] Hint Resolve fits_u64 : words.

Ltac wordbits := autorewrite with words.
Ltac wordbits_in H := autorewrite with words in H.

(** Case analysis on the comparisons left by [wordbits]. *)
Ltac split_cmp :=
  repeat match goal with
  | |- context [?a <? ?b] => destruct (Z.ltb_spec a b); try (exfalso; lia)
  | |- context [?a <=? ?b] => destruct (Z.leb_spec a b); try (exfalso; lia)
  | |- context [?a =? ?b] => destruct (Z.eqb_spec a b); try (exfalso; lia)
  end.

(** Equality of words by bits. *)
Ltac word_eq :=
  apply Z.bits_inj'; let i := fresh "i" in let Hi := fresh "Hi" in
  intros i Hi; wordbits; split_cmp; cbn; try btauto; auto.

Lemma mul_pow2_spec a n i :
  0 <= n -> 0 <= i -> Z.testbit (a * 2 ^ n) i = (n <=? i) && Z.testbit a (i - n).
Proof.
  intros. rewrite <- Z.shiftl_mul_pow2, Z.shiftl_spec by lia.
  destruct (Z.leb_spec n i); cbn; [reflexivity | apply Z.testbit_neg_r; lia].
Qed.

Lemma testbit_sub_pow2 v w i :
  0 <= i -> i < w -> Z.testbit (v - 2 ^ w) i = Z.testbit v i.
Proof.
  intros.
  assert (E : (v - 2 ^ w) mod 2 ^ w = v mod 2 ^ w).
  { rewrite <- (Z.mod_add (v - 2 ^ w) 1 (2 ^ w)) by lia. f_equal. lia. }
  apply (f_equal (fun z => Z.testbit z i)) in E.
  rewrite !Z.testbit_mod_pow2 in E by lia.
  destruct (Z.ltb_spec i w); cbn in E; [exact E | lia].
Qed.

Lemma testbit_neg_high x w i : - 2 ^ w <= x < 0 -> 0 <= w <= i -> Z.testbit x i = true.
Proof.
  intros Hx Hi. rewrite Z.testbit_odd, Z.shiftr_div_pow2 by lia.
  pose proof (Z.pow_le_mono_r 2 w i).
  replace (x / 2 ^ i) with (-1); [reflexivity |].
  apply Z.div_unique with (2 ^ i + x); lia.
Qed.

Lemma testbit_top w v : 1 <= w -> fits w v -> Z.testbit v (w - 1) = (2 ^ (w - 1) <=? v).
Proof.
  intros Hw [H0 H1].
  replace (2 ^ w) with (2 * 2 ^ (w - 1)) in H1
    by (rewrite <- Z.pow_succ_r by lia; f_equal; lia).
  rewrite Z.testbit_odd, Z.shiftr_div_pow2 by lia.
  destruct (Z.leb_spec (2 ^ (w - 1)) v).
  - replace (v / 2 ^ (w - 1)) with 1; [reflexivity |].
    apply Z.div_unique with (v - 2 ^ (w - 1)); lia.
  - rewrite Z.div_small by lia. reflexivity.
Qed.

(** Sign extension, bit by bit. *)
Lemma signed_spec w v i :
  1 <= w -> fits w v -> 0 <= i ->
  Z.testbit (signed w v) i = Z.testbit v (Z.min i (w - 1)).
Proof.
  intros Hw Hv Hi. unfold signed.
  destruct (Z.testbit v (w - 1)) eqn:E.
  - destruct (Z.ltb_spec i w).
    + rewrite testbit_sub_pow2 by lia. f_equal. lia.
    + rewrite Z.min_r, E by lia. apply testbit_neg_high with w; [| lia].
      destruct Hv. lia.
  - destruct (Z.ltb_spec i w); [f_equal; lia |].
    rewrite Z.min_r, E by lia. apply (fits_high w); auto; lia.
Qed.

Lemma signed_range w v : 1 <= w -> fits w v -> - 2 ^ (w - 1) <= signed w v < 2 ^ (w - 1).
Proof.
  intros Hw Hv. unfold signed. rewrite testbit_top by auto.
  destruct Hv. assert (2 ^ w = 2 * 2 ^ (w - 1))
    by (rewrite <- Z.pow_succ_r by lia; f_equal; lia).
  destruct (Z.leb_spec (2 ^ (w - 1)) v); lia.
Qed.

Lemma signed_mod w v : 1 <= w -> fits w v -> signed w v mod 2 ^ w = v.
Proof.
  intros Hw [H0 H1]. unfold signed. destruct (Z.testbit v (w - 1)).
  - rewrite <- (Z.mod_add _ 1) by lia. rewrite Z.mod_small; lia.
  - apply Z.mod_small. lia.
Qed.

(** [a * 2^n + b] for an [n]-bit [b]: concatenation. *)
Lemma lor_concat a b n : 0 <= n -> fits n b -> Z.lor (Z.shiftl a n) b = a * 2 ^ n + b.
Proof.
  intros Hn Hb. assert (D : Z.land (Z.shiftl a n) b = 0).
  { apply Z.bits_inj'. intros j Hj. rewrite Z.land_spec, Z.shiftl_spec, Z.bits_0 by lia.
    destruct (Z.ltb_spec j n).
    - rewrite (Z.testbit_neg_r a) by lia. reflexivity.
    - rewrite (fits_high n b) by (auto; lia). apply andb_false_r. }
  rewrite <- Z.lxor_lor, <- Z.add_nocarry_lxor, Z.shiftl_mul_pow2 by (auto; lia). reflexivity.
Qed.
Lemma concat_spec a b n i :
  0 <= n -> fits n b -> 0 <= i ->
  Z.testbit (a * 2 ^ n + b) i = if i <? n then Z.testbit b i else Z.testbit a (i - n).
Proof.
  intros Hn Hb Hi. rewrite <- lor_concat, Z.lor_spec, Z.shiftl_spec by (auto; lia). split_cmp.
  - rewrite (Z.testbit_neg_r a) by lia. reflexivity.
  - rewrite (fits_high n b) by (auto; lia). apply orb_false_r.
Qed.

Lemma fits_concat n m a b :
  0 <= n -> 0 <= m -> fits n a -> fits m b -> fits (n + m) (a * 2 ^ m + b).
Proof.
  unfold fits. intros Hn Hm [? ?] [? ?]. rewrite Z.pow_add_r by lia. nia.
Qed.

Lemma mod_pow2_succ z n :
  0 <= n -> z mod 2 ^ (n + 1) = Z.b2z (Z.testbit z n) * 2 ^ n + z mod 2 ^ n.
Proof.
  intros Hn. apply Z.bits_inj'. intros i Hi.
  rewrite concat_spec by (auto; apply Z.mod_pos_bound; lia).
  rewrite !Z.testbit_mod_pow2 by lia. split_cmp; cbn; auto.
  - replace (i - n) with 0 by lia. rewrite Z.b2z_bit0. f_equal. lia.
  - destruct (Z.testbit z n); cbn [Z.b2z]; [| rewrite Z.bits_0; reflexivity].
    rewrite one_spec. split_cmp. reflexivity.
Qed.

(** Testing a flag bit. *)
Lemma flag_bit (f k : Z) : 0 <= k -> negb (Z.land f (2 ^ k) =? 0) = Z.testbit f k.
Proof.
  intros Hk. destruct (Z.testbit f k) eqn:E.
  - destruct (Z.eqb_spec (Z.land f (2 ^ k)) 0) as [Z0 | _]; [| reflexivity].
    apply (f_equal (fun z => Z.testbit z k)) in Z0.
    rewrite Z.land_spec, Z.pow2_bits_true, Z.bits_0, E in Z0 by lia. discriminate.
  - destruct (Z.eqb_spec (Z.land f (2 ^ k)) 0) as [_ | Ne]; [reflexivity |].
    destruct Ne. apply Z.bits_inj'. intros i Hi.
    rewrite Z.land_spec, pow2_spec, Z.bits_0 by lia.
    destruct (Z.eqb_spec i k) as [-> | _]; [rewrite E; reflexivity | apply andb_false_r].
Qed.
