(* ===== verification/I128.v ===== *)
(** * I128: wide and overflow-checked integers (src/src/c/dvs_i128.h)

    The header has two paths: compiler builtins and 128-bit integers where the
    compiler has them, and plain 64-bit code elsewhere.  The definitions model
    the plain path, and the theorems show that it computes what the other one
    does: the overflow answer and wrapped result of the builtins, the exact
    128-bit product, the product modulo [m], and the order of 128-bit values. *)

From Stdlib Require Import ZArith Lia ZifyBool Bool.
From S2P Require Import Prelude.
Open Scope Z_scope.
Open Scope word_scope.

Module I128.

(** ** Overflow checks *)

(** [__builtin_*_overflow] on the exact result [v]: the answer and [*r]. *)
Definition builtin_ovf (v : Z) : bool * Z := (negb ((- 2 ^ 63 <=? v) && (v <? 2 ^ 63)), s64 v).

Definition INT64_MAX := 2 ^ 63 - 1.
Definition INT64_MIN := - 2 ^ 63.

Definition add_i64_ovf (a b : Z) : bool * Z :=
  ((b >? 0) && (a >? INT64_MAX - b) || (b <? 0) && (a <? INT64_MIN - b), s64 (u64 a +w u64 b)).
Definition sub_i64_ovf (a b : Z) : bool * Z :=
  ((b <? 0) && (a >? INT64_MAX + b) || (b >? 0) && (a <? INT64_MIN + b), s64 (u64 a -w u64 b)).
Definition add_u64_ovf (a b : Z) : bool * Z := let r := a +w b in (r <? a, r).

(** The product as [(hi, lo)]. *)
Definition mul_u64_wide (a b : Z) : Z * Z :=
  let low x := x &w 0xFFFFFFFF in
  let al := low a in let ah := a >>w 32 in
  let bl := low b in let bh := b >>w 32 in
  let ll := al *w bl in let lh := al *w bh in let hl := ah *w bl in let hh := ah *w bh in
  let mid := ll >>w 32 +w low lh +w low hl in
  (hh +w lh >>w 32 +w hl >>w 32 +w mid >>w 32, (mid <<w 32) |w low ll).
Definition mul_u64_ovf (a b : Z) : bool * Z :=
  let '(hi, lo) := mul_u64_wide a b in (negb (hi =? 0), lo).
Definition mul_i64_ovf (a b : Z) : bool * Z :=
  let mag x := if x <? 0 then 0 -w u64 x else u64 x in
  let '(hi, lo) := mul_u64_wide (mag a) (mag b) in
  let neg := xorb (a <? 0) (b <? 0) in
  let r := s64 (if neg then 0 -w lo else lo) in
  (if negb (hi =? 0) then true else if neg then lo >? 2 ^ 63 else lo >? INT64_MAX, r).
Definition shl_i64_ovf (v s : Z) : bool * Z :=
  if s <=? 0 then (false, v)
  else if s >=? 63 then (negb ((v =? 0) || (v =? -1)), if v =? -1 then INT64_MIN else 0)
  else mul_i64_ovf v (Z.shiftl 1 s).

Lemma s64_mod z : s64 (u64 z) = s64 z.
Proof. unfold s64, u64. rewrite Zplus_mod_idemp_l. reflexivity. Qed.
Lemma u64_mod_l x y : u64 (u64 x + y) = u64 (x + y).
Proof. unfold u64. apply Zplus_mod_idemp_l. Qed.
Lemma u64_mod_r x y : u64 (x + u64 y) = u64 (x + y).
Proof. unfold u64. apply Zplus_mod_idemp_r. Qed.
Lemma u64_sub x y : u64 (u64 x - u64 y) = u64 (x - y).
Proof. unfold u64. rewrite Zminus_mod_idemp_l, Zminus_mod_idemp_r. reflexivity. Qed.

Lemma add_i64_builtin a b : int64 a -> int64 b -> add_i64_ovf a b = builtin_ovf (a + b).
Proof.
  unfold int64, add_i64_ovf, builtin_ovf, INT64_MAX, INT64_MIN. intros Ha Hb. f_equal; [lia |].
  rewrite s64_mod, <- (s64_mod (a + b)), <- u64_mod_l, <- u64_mod_r, s64_mod. reflexivity.
Qed.
Lemma sub_i64_builtin a b : int64 a -> int64 b -> sub_i64_ovf a b = builtin_ovf (a - b).
Proof.
  unfold int64, sub_i64_ovf, builtin_ovf, INT64_MAX, INT64_MIN. intros Ha Hb. f_equal; [lia |].
  rewrite u64_sub, s64_mod. reflexivity.
Qed.
Lemma add_u64_exact a b : fits 64 a -> fits 64 b -> add_u64_ovf a b = (2 ^ 64 <=? a + b, u64 (a + b)).
Proof.
  unfold fits, add_u64_ovf. intros Ha Hb. f_equal. destruct (Z.leb_spec (2 ^ 64) (a + b)).
  - replace (u64 (a + b)) with (a + b - 2 ^ 64); [lia |]. unfold u64. apply (Z.mod_unique _ _ 1); lia.
  - rewrite u64_small by (unfold fits; lia). lia.
Qed.

(** ** The product *)

Lemma low_mod x : x &w 0xFFFFFFFF = x mod 2 ^ 32.
Proof. change 0xFFFFFFFF with (Z.ones 32). apply Z.land_ones. lia. Qed.
Lemma high_div x : x >>w 32 = x / 2 ^ 32.
Proof. apply Z.shiftr_div_pow2. lia. Qed.
Lemma mul_half x y : fits 32 x -> fits 32 y -> x * y <= (2 ^ 32 - 1) * (2 ^ 32 - 1) /\ 0 <= x * y.
Proof.
  unfold fits. intros Hx Hy. split; [| apply Z.mul_nonneg_nonneg; lia]. apply Z.mul_le_mono_nonneg; lia.
Qed.
(** Arithmetic with quotients and remainders by constants. *)
Ltac div_lia := Z.div_mod_to_equations; lia.
Lemma word_halves x : fits 64 x -> fits 32 (x mod 2 ^ 32) /\ fits 32 (x / 2 ^ 32).
Proof. unfold fits. intros Hx. split; [apply Z.mod_pos_bound; lia |]. div_lia. Qed.

Lemma parts x : x = 2 ^ 32 * (x / 2 ^ 32) + x mod 2 ^ 32 /\ 0 <= x mod 2 ^ 32 < 2 ^ 32.
Proof. split; [apply Z.div_mod; lia | apply Z.mod_pos_bound; lia]. Qed.

Lemma mul_wide_exact a b : fits 64 a -> fits 64 b ->
  let '(hi, lo) := mul_u64_wide a b in fits 64 hi /\ fits 64 lo /\ hi * 2 ^ 64 + lo = a * b.
Proof.
  intros Ha Hb. destruct (word_halves a Ha) as [Al Ah], (word_halves b Hb) as [Bl Bh].
  unfold mul_u64_wide. rewrite !low_mod, !high_div.
  set (al := a mod 2 ^ 32) in *. set (ah := a / 2 ^ 32) in *. set (bl := b mod 2 ^ 32) in *. set (bh := b / 2 ^ 32) in *.
  assert (E : a * b = al * bl + (al * bh + ah * bl) * 2 ^ 32 + ah * bh * 2 ^ 64).
  { rewrite (Z.div_mod a (2 ^ 32)), (Z.div_mod b (2 ^ 32)) by lia. fold al ah bl bh. ring. }
  pose proof (mul_half al bl Al Bl). pose proof (mul_half al bh Al Bh).
  pose proof (mul_half ah bl Ah Bl). pose proof (mul_half ah bh Ah Bh).
  set (ll := al * bl) in *. set (lh := al * bh) in *. set (hl := ah * bl) in *. set (hh := ah * bh) in *.
  clearbody ll lh hl hh. rewrite E. clear - H H0 H1 H2.
  rewrite !(u64_small ll), !(u64_small lh), !(u64_small hl), !(u64_small hh) by (unfold fits; lia).
  pose proof (parts ll). pose proof (parts lh). pose proof (parts hl).
  set (mid := ll / 2 ^ 32 + lh mod 2 ^ 32 + hl mod 2 ^ 32).
  assert (M : u64 (u64 (ll / 2 ^ 32 + lh mod 2 ^ 32) + hl mod 2 ^ 32) = mid)
    by (rewrite !u64_small; unfold fits; rewrite ?u64_small; unfold fits; lia).
  rewrite M. pose proof (parts mid). rewrite (Z.shiftl_mul_pow2 mid) by lia.
  assert (Um : u64 (mid * 2 ^ 32) = (mid mod 2 ^ 32) * 2 ^ 32)
    by (unfold u64; change (2 ^ 64) with (2 ^ 32 * 2 ^ 32); rewrite Z.mul_mod_distr_r; lia).
  rewrite Um. replace (Z.lor _ _) with (mid mod 2 ^ 32 * 2 ^ 32 + ll mod 2 ^ 32).
  2: { rewrite <- (Z.shiftl_mul_pow2 _ 32) by lia. symmetry. rewrite lor_concat;
    [rewrite Z.shiftl_mul_pow2 by lia; reflexivity | lia | apply Z.mod_pos_bound; lia]. }
  rewrite !u64_small; unfold fits; rewrite ?u64_small; unfold fits; rewrite ?u64_small; unfold fits; lia.
Qed.
Lemma mul_u64_exact a b : fits 64 a -> fits 64 b -> mul_u64_ovf a b = (2 ^ 64 <=? a * b, u64 (a * b)).
Proof.
  intros Ha Hb. unfold mul_u64_ovf. pose proof (mul_wide_exact a b Ha Hb) as M. destruct (mul_u64_wide a b) as [hi lo].
  destruct M as (Fh & Fl & <-). unfold fits in *. f_equal; [lia |]. unfold u64. apply (Z.mod_unique _ _ hi); lia.
Qed.

Lemma magnitude x : int64 x -> (if x <? 0 then 0 -w u64 x else u64 x) = Z.abs x /\ Z.abs x <= 2 ^ 63.
Proof.
  unfold int64. intros Hx. split; [| lia]. destruct (Z.ltb_spec x 0); [| rewrite u64_small; unfold fits; lia].
  replace (0 - u64 x) with (u64 0 - u64 x) by reflexivity. rewrite u64_sub, u64_small; unfold fits; lia.
Qed.
Lemma mul_i64_builtin a b : int64 a -> int64 b -> mul_i64_ovf a b = builtin_ovf (a * b).
Proof.
  intros Ha Hb. unfold mul_i64_ovf, builtin_ovf. destruct (magnitude a Ha) as [-> Ma], (magnitude b Hb) as [-> Mb].
  pose proof (mul_wide_exact (Z.abs a) (Z.abs b) ltac:(unfold fits; lia) ltac:(unfold fits; lia)) as M.
  destruct (mul_u64_wide (Z.abs a) (Z.abs b)) as [hi lo]. destruct M as (Fh & Fl & E). unfold fits, INT64_MAX in *.
  assert (Sg : a * b = if xorb (a <? 0) (b <? 0) then - (hi * 2 ^ 64 + lo) else hi * 2 ^ 64 + lo).
  { rewrite E, <- Z.abs_mul. destruct (Z.ltb_spec a 0), (Z.ltb_spec b 0); cbn [xorb]; nia. }
  clear E Ma Mb Ha Hb. destruct (xorb _ _); rewrite Sg; f_equal.
  - destruct (Z.eqb_spec hi 0); cbn [negb]; lia.
  - rewrite s64_mod. unfold s64. replace (- (hi * 2 ^ 64 + lo) + 2 ^ 63) with (0 - lo + 2 ^ 63 + (- hi) * 2 ^ 64) by lia.
    rewrite Z.mod_add by lia. reflexivity.
  - destruct (Z.eqb_spec hi 0); cbn [negb]; lia.
  - unfold s64. replace (hi * 2 ^ 64 + lo + 2 ^ 63) with (lo + 2 ^ 63 + hi * 2 ^ 64) by lia.
    rewrite Z.mod_add by lia. reflexivity.
Qed.

(** [v * 2^s], for an amount the code passes. *)
Lemma shl_i64_exact v s : int64 v -> 0 <= s <= 63 -> shl_i64_ovf v s =
  (negb ((- 2 ^ 63 <=? v * 2 ^ s) && (v * 2 ^ s <? 2 ^ 63)), s64 (v * 2 ^ s)) \/ s = 63.
Proof.
  intros Hv Hs. unfold shl_i64_ovf. destruct (Z.leb_spec s 0).
  - left. replace s with 0 by lia. rewrite Z.mul_1_r, s64_small by exact Hv. unfold int64 in Hv. f_equal. lia.
  - destruct (Z.geb_spec s 63); [right; lia |]. left. rewrite Z.shiftl_mul_pow2, Z.mul_1_l by lia.
    apply mul_i64_builtin; [exact Hv |]. pose proof (Z.pow_lt_mono_r 2 s 63). pose proof (Z.pow_pos_nonneg 2 s).
    unfold int64. lia.
Qed.
(** The answer is right at every amount, and the result where there is no overflow. *)
Lemma shl_i64_spec v s : int64 v -> 0 <= s <= 63 ->
  if fst (shl_i64_ovf v s) then ~ int64 (v * 2 ^ s) else snd (shl_i64_ovf v s) = v * 2 ^ s /\ int64 (v * 2 ^ s).
Proof.
  intros Hv Hs. destruct (shl_i64_exact v s Hv Hs) as [-> | ->].
  - cbn [fst snd]. destruct (negb _) eqn:E; [unfold int64; lia |].
    assert (int64 (v * 2 ^ s)) by (unfold int64; lia). split; [apply s64_small |]; assumption.
  - unfold shl_i64_ovf, int64, INT64_MIN in *. cbn [fst snd Z.leb Z.geb Z.compare Pos.compare Pos.compare_cont].
    destruct (Z.eqb_spec v 0) as [-> |]; [cbn; lia |]. destruct (Z.eqb_spec v (-1)) as [-> |]; [cbn; lia |]. cbn [orb negb]. lia.
Qed.

(** ** The product modulo [m] *)

(** [x + y] modulo [m], for [x], [y] below it: [x >= m - y ? x - (m - y) : x + y]. *)
Definition addmod (x y m : Z) : Z := if x >=? (m -w y) then x -w (m -w y) else x +w y.
(** [while (b)]; [None] when [fuel] runs out. *)
Fixpoint mulmod_loop (fuel : nat) (r a b m : Z) : option Z :=
  if b =? 0 then Some r else
  match fuel with
  | O => None
  | S n => mulmod_loop n (if Z.odd b then addmod r a m else r) (addmod a a m) (b >>w 1) m
  end.
Definition mulmod_u64 (a b m : Z) : option Z := mulmod_loop 64 0 (a mod m) b m.

Lemma addmod_exact x y m : fits 64 m -> 0 <= x < m -> 0 <= y < m -> addmod x y m = (x + y) mod m.
Proof.
  unfold fits. intros Hm Hx Hy. unfold addmod. rewrite (u64_small (m - y)) by (unfold fits; lia).
  destruct (Z.geb_spec x (m - y)).
  - rewrite u64_small by (unfold fits; lia). apply (Z.mod_unique _ _ 1); lia.
  - rewrite u64_small by (unfold fits; lia). symmetry. apply Z.mod_small. lia.
Qed.
Lemma mulmod_loop_exact fuel : forall r a b m, fits 64 m -> 0 <= r < m -> 0 <= a < m ->
  0 <= b < 2 ^ Z.of_nat fuel -> mulmod_loop fuel r a b m = Some ((r + a * b) mod m).
Proof.
  induction fuel as [| n IH]; intros r a b m Hm Hr Ha Hb; cbn [mulmod_loop].
  - replace b with 0 by (cbn in Hb; lia). rewrite Z.eqb_refl, Z.mul_0_r, Z.add_0_r, Z.mod_small by lia. reflexivity.
  - destruct (Z.eqb_spec b 0) as [-> | Nb]; [rewrite Z.mul_0_r, Z.add_0_r, Z.mod_small by lia; reflexivity |].
    rewrite Nat2Z.inj_succ, Z.pow_succ_r in Hb by lia.
    assert (M : forall z, 0 <= z mod m < m) by (intros z; apply Z.mod_pos_bound; lia).
    rewrite Z.shiftr_div_pow2, Z.pow_1_r by lia. rewrite (addmod_exact a a), (addmod_exact r a) by assumption.
    rewrite IH; [| assumption | destruct (Z.odd b); auto | auto | div_lia].
    f_equal. pose proof (Z.div_mod b 2 ltac:(lia)) as Eb. rewrite Zmod_odd in Eb.
    rewrite <- Z.add_mod_idemp_r, Z.mul_mod_idemp_l, Z.add_mod_idemp_r by lia.
    destruct (Z.odd b); [rewrite Z.add_mod_idemp_l by lia |]; f_equal; lia.
Qed.
Lemma mulmod_exact a b m : fits 64 m -> 0 < m -> fits 64 b -> mulmod_u64 a b m = Some ((a * b) mod m).
Proof.
  intros Hm Pm Hb. unfold mulmod_u64. rewrite mulmod_loop_exact; try assumption; try lia.
  - rewrite Z.add_0_l, Z.mul_mod_idemp_l by lia. reflexivity.
  - apply Z.mod_pos_bound, Pm.
Qed.

(** ** 128-bit values *)

Record i128 := { i_hi : Z; i_lo : Z }.
Definition i128_from_i64 (v : Z) : i128 := {| i_hi := if v <? 0 then -1 else 0; i_lo := u64 v |}.
Definition i128_from_u64 (v : Z) : i128 := {| i_hi := 0; i_lo := v |}.
Definition i128_lt (a b : i128) : bool := if negb (i_hi a =? i_hi b) then i_hi a <? i_hi b else i_lo a <? i_lo b.
Definition i128_le (a b : i128) : bool := negb (i128_lt b a).

Definition i128_ok (a : i128) : Prop := int64 (i_hi a) /\ fits 64 (i_lo a).
Definition i128_val (a : i128) : Z := i_hi a * 2 ^ 64 + i_lo a.
Lemma from_i64_val v : int64 v -> i128_ok (i128_from_i64 v) /\ i128_val (i128_from_i64 v) = v.
Proof.
  unfold int64, i128_ok, i128_val, i128_from_i64. cbn [i_hi i_lo]. intros Hv. split; [split; [| apply fits_u64] |].
  - unfold int64. destruct (_ <? _); lia.
  - destruct (Z.ltb_spec v 0); [| rewrite u64_small; unfold fits; lia].
    replace (u64 v) with (v + 2 ^ 64); [lia |]. unfold u64. apply (Z.mod_unique _ _ (-1)); lia.
Qed.
Lemma from_u64_val v : fits 64 v -> i128_ok (i128_from_u64 v) /\ i128_val (i128_from_u64 v) = v.
Proof. unfold i128_ok, i128_val, int64, i128_from_u64, fits. cbn [i_hi i_lo]. lia. Qed.
Lemma i128_order a b : i128_ok a -> i128_ok b ->
  i128_lt a b = (i128_val a <? i128_val b) /\ i128_le a b = (i128_val a <=? i128_val b).
Proof.
  intros [Ha1 Ha2] [Hb1 Hb2]. unfold i128_le, i128_lt, i128_val, fits in *.
  split; destruct (Z.eqb_spec (i_hi a) (i_hi b)), (Z.eqb_spec (i_hi b) (i_hi a)); cbn [negb]; lia.
Qed.

(** ** The property *)

(** C21: The portable path computes what the builtins and the 128-bit integers
    of the other path do: the overflow answers and wrapped results of signed and
    unsigned sums, differences and products, the exact 128-bit product, the
    product modulo [m] within 64 turns, the order of 128-bit values, and shifts
    by 0..63 whose answer is right and whose result is exact without overflow. *)
Theorem portable_exact a b : int64 a -> int64 b ->
  let u := u64 a in let v := u64 b in
  add_i64_ovf a b = builtin_ovf (a + b) /\ sub_i64_ovf a b = builtin_ovf (a - b) /\
  mul_i64_ovf a b = builtin_ovf (a * b) /\
  add_u64_ovf u v = (2 ^ 64 <=? u + v, u64 (u + v)) /\ mul_u64_ovf u v = (2 ^ 64 <=? u * v, u64 (u * v)) /\
  (let '(hi, lo) := mul_u64_wide u v in fits 64 hi /\ fits 64 lo /\ hi * 2 ^ 64 + lo = u * v) /\
  (forall m, 0 < m -> fits 64 m -> mulmod_u64 u v m = Some ((u * v) mod m)) /\
  i128_lt (i128_from_i64 a) (i128_from_u64 v) = (a <? v) /\ i128_le (i128_from_u64 v) (i128_from_i64 a) = (v <=? a) /\
  forall s, 0 <= s <= 63 ->
    if fst (shl_i64_ovf a s) then ~ int64 (a * 2 ^ s) else snd (shl_i64_ovf a s) = a * 2 ^ s /\ int64 (a * 2 ^ s).
Proof.
  intros Ha Hb. cbv zeta. pose proof (fits_u64 a) as Fa. pose proof (fits_u64 b) as Fb.
  destruct (from_i64_val a Ha) as [Oa Va], (from_u64_val (u64 b) Fb) as [Ob Vb].
  destruct (i128_order _ _ Oa Ob) as [Lt _], (i128_order _ _ Ob Oa) as [_ Le]. rewrite Va, Vb in *.
  split; [apply add_i64_builtin; assumption |]. split; [apply sub_i64_builtin; assumption |].
  split; [apply mul_i64_builtin; assumption |]. split; [apply add_u64_exact; assumption |].
  split; [apply mul_u64_exact; assumption |]. split; [apply mul_wide_exact; assumption |].
  split; [intros m Pm Fm; apply mulmod_exact; assumption |]. split; [exact Lt |]. split; [exact Le |].
  intros s Hs. apply shl_i64_spec; assumption.
Qed.
Lemma portable_exact_witness : mul_i64_ovf (- 2 ^ 63) (-1) = builtin_ovf (2 ^ 63) /\
  mulmod_u64 (u64 (-1)) (u64 (-1)) (2 ^ 61 - 1) = Some 49.
Proof.
  destruct (portable_exact (- 2 ^ 63) (-1)) as (_ & _ & M & _); [unfold int64; lia | unfold int64; lia |].
  split; [exact M |].
  destruct (portable_exact (-1) (-1)) as (_ & _ & _ & _ & _ & _ & P & _); [unfold int64; lia | unfold int64; lia |].
  rewrite P; [vm_compute; reflexivity | lia | unfold fits; lia].
Defined.

End I128.
