(* ===== verification/NumTh.v ===== *)
(** * NumTh: roots, residues, powers and primes (src/src/c/dvs_numth.c)

    The number theory behind the rules for a product with a fixed value: integer
    square roots by Newton's method, squares modulo a power of two, the greatest
    common divisor, powers modulo [n] and the Miller-Rabin test.  The loops have
    fuel for their worst case on 64-bit words. *)

From Stdlib Require Import ZArith Znumtheory Zdivisibility ZmodInv Lia ZifyBool Bool List.
From S2P Require Import Prelude I128.
Import ListNotations I128.
Open Scope Z_scope.
Open Scope word_scope.

Module NumTh.

(** ** Square roots *)

(** [for (;;)] of Newton's method; [None] when [fuel] runs out. *)
Fixpoint newton (fuel : nat) (n x : Z) : option Z :=
  match fuel with
  | O => None
  | S k => let y := (x +w n / x) >>w 1 in if y >=? x then Some x else newton k n y
  end.
(** [64 - __builtin_clzll(n)] is the number of bits of [n]. *)
Definition isqrt_u64 (n : Z) : option Z :=
  if n <? 2 then Some n
  else let bits := Z.log2 n + 1 in newton 34 n (1 <<w ((bits + 1) / 2)).
Definition isqrt_ceil_u64 (n : Z) : option Z :=
  match isqrt_u64 n with
  | None => None
  | Some s => Some (if s *w s =? n then s else s +w 1)
  end.

(** A step stays above the root, and halves the distance to it. *)
Lemma newton_step n x : 0 < n < 2 ^ 64 -> Z.sqrt n <= x <= 2 ^ 32 -> let y := (x +w n / x) >>w 1 in
  Z.sqrt n <= y /\ (Z.sqrt n < x -> y - Z.sqrt n <= (x - Z.sqrt n) / 2).
Proof.
  intros Hn Hx. cbv zeta. pose proof (Z.sqrt_spec n ltac:(lia)) as [L U]. pose proof (Z.sqrt_nonneg n) as Sp.
  assert (P : 0 < Z.sqrt n) by (apply Z.sqrt_pos; lia). set (s := Z.sqrt n) in *.
  assert (Q : 0 <= n / x <= 2 ^ 63).
  { split; [apply Z.div_pos; lia |]. destruct (Z.eq_dec x 1) as [-> |].
    - assert (s = 1) by lia. rewrite Z.div_1_r. nia.
    - apply Z.div_le_upper_bound; nia. }
  rewrite u64_small, Z.shiftr_div_pow2 by (unfold fits; lia). change (2 ^ 1) with 2.
  pose proof (Z.div_mod n x ltac:(lia)) as Dm. pose proof (Z.mod_pos_bound n x ltac:(lia)) as Mb. set (q := n / x) in *.
  assert (Lo : 2 * s <= x + q).
  { destruct (Z.le_gt_cases (2 * s) (x + q)) as [| Gt]; [assumption | exfalso]. nia. }
  split; [apply Z.div_le_lower_bound; lia |]. intros Hs.
  assert (q <= s) by nia. 
  replace (x - s) with (x + s + (- s) * 2) by lia. rewrite Z.div_add by lia.
  pose proof (Z.div_le_mono (x + q) (x + s) 2). lia.
Qed.
Lemma newton_S k n x : newton (S k) n x =
  let y := (x +w n / x) >>w 1 in if y >=? x then Some x else newton k n y.
Proof. reflexivity. Qed.
Lemma newton_exact k : forall n x, 0 < n < 2 ^ 64 -> Z.sqrt n <= x <= 2 ^ 32 -> x - Z.sqrt n < 2 ^ Z.of_nat k ->
  newton (S k) n x = Some (Z.sqrt n).
Proof.
  induction k as [| k IH]; intros n x Hn Hx Hk; destruct (newton_step n x Hn Hx) as [Ly Dy];
    rewrite newton_S; cbv zeta; destruct (Z.geb_spec ((x +w n / x) >>w 1) x) as [G | G].
  - f_equal. cbn in Hk. lia.
  - exfalso. cbn in Hk. lia.
  - f_equal. destruct (Z.eq_dec (Z.sqrt n) x); [lia | exfalso]. specialize (Dy ltac:(lia)). 
    pose proof (Z.div_lt (x - Z.sqrt n) 2). lia.
  - apply IH; [assumption | lia |]. rewrite Nat2Z.inj_succ, Z.pow_succ_r in Hk by lia.
    destruct (Z.eq_dec (Z.sqrt n) x); [lia |]. specialize (Dy ltac:(lia)).
    pose proof (Z.div_lt_upper_bound (x - Z.sqrt n) 2 (2 ^ Z.of_nat k)). lia.
Qed.

Lemma isqrt_correct n : fits 64 n -> isqrt_u64 n = Some (Z.sqrt n).
Proof.
  unfold fits, isqrt_u64. intros Hn. destruct (Z.ltb_spec n 2) as [Lt | Ge].
  - f_equal. assert (n = 0 \/ n = 1) as [-> | ->] by lia; reflexivity.
  - pose proof (Z.log2_spec n ltac:(lia)) as [Lb Ub]. pose proof (Z.log2_lt_pow2 n 64 ltac:(lia)) as Lg.
    assert (L0 : 0 < Z.log2 n) by (apply Z.log2_pos; lia). set (l := Z.log2 n) in *.
    set (h := (l + 1 + 1) / 2). assert (Hh : l + 1 <= 2 * h <= l + 2) by (unfold h; Z.div_mod_to_equations; lia).
    assert (H32 : 2 ^ h <= 2 ^ 32) by (apply Z.pow_le_mono_r; lia). assert (Ph : 0 < 2 ^ h) by (apply Z.pow_pos_nonneg; lia).
    rewrite Z.shiftl_mul_pow2, Z.mul_1_l, u64_small by (unfold fits; lia).
    assert (Sq : Z.sqrt n < 2 ^ h).
    { apply Z.sqrt_lt_square; [lia | lia |]. rewrite <- Z.pow_add_r by lia.
      pose proof (Z.pow_le_mono_r 2 (Z.succ l) (h + h)). lia. }
    pose proof (Z.sqrt_nonneg n). apply newton_exact; [lia | lia |]. change (2 ^ Z.of_nat 33) with (2 ^ 33). lia.
Qed.

Lemma isqrt_ceil_correct n : fits 64 n -> isqrt_ceil_u64 n = Some (Z.sqrt_up n).
Proof.
  intros Hn. unfold isqrt_ceil_u64. rewrite (isqrt_correct n Hn). f_equal. unfold fits in Hn.
  pose proof (Z.sqrt_spec n ltac:(lia)) as [L U]. pose proof (Z.sqrt_nonneg n).
  assert (B : Z.sqrt n < 2 ^ 32) by (apply Z.sqrt_lt_square; lia).
  rewrite !u64_small by (unfold fits; nia).
  destruct (Z.eqb_spec (Z.sqrt n * Z.sqrt n) n) as [E | N].
  - rewrite <- E at 2. symmetry. apply Z.sqrt_up_square. assumption.
  - symmetry. apply Z.sqrt_up_unique; lia.
Qed.

(** ** Squares modulo a power of two *)

(** [__builtin_ctzll] of a number that is not 0. *)
Fixpoint ctz_pos (p : positive) : Z := match p with xO q => 1 + ctz_pos q | _ => 0 end.
Definition ctz (n : Z) : Z := match n with Zpos p => ctz_pos p | _ => 0 end.

Definition is_square_residue (n w : Z) : bool :=
  let mask := if w >=? 64 then 2 ^ 64 - 1 else (1 <<w w) -w 1 in
  let n := n &w mask in
  if n =? 0 then true
  else
    let t := ctz n in
    if Z.odd t then false
    else
      let left := w - t in
      let o := n >>w t in
      if left >=? 3 then o &w 7 =? 1
      else if left =? 2 then o &w 3 =? 1
      else true.

(** [n] is a power of two times an odd number. *)
Lemma ctz_split n : 0 < n -> 0 <= ctz n /\ exists o, n = 2 ^ ctz n * o /\ Z.odd o = true /\ 0 < o.
Proof.
  destruct n as [| p |]; try lia. intros _. cbn [ctz]. induction p as [p _ | p IH |]; cbn [ctz_pos].
  - split; [lia |]. exists (Zpos p~1). rewrite Z.pow_0_r, Z.mul_1_l. auto with zarith.
  - destruct IH as [N (o & E & O & P)]. split; [lia |]. exists o. rewrite Z.pow_add_r by lia.
    split; [| auto]. rewrite Pos2Z.inj_xO, E at 1. ring.
  - split; [lia |]. exists 1. auto with zarith.
Qed.

(** An odd square is 1 modulo 8. *)
Lemma odd_square y : Z.odd y = true -> (y * y) mod 8 = 1.
Proof.
  intros O. apply Z.odd_spec in O as [k ->]. pose proof (Zeven_odd_dec k) as [Ev | Od].
  - apply Zeven_ex in Ev as [j ->]. replace ((2 * (2 * j) + 1) * _) with (1 + (2 * j * j + j) * 8) by ring.
    rewrite Z.mod_add by lia. reflexivity.
  - apply Zodd_ex in Od as [j ->]. replace ((2 * (2 * j + 1) + 1) * _) with (1 + (2 * j * j + 3 * j + 1) * 8) by ring.
    rewrite Z.mod_add by lia. reflexivity.
Qed.

(** Roots modulo 8 lift to every power of two. *)
Lemma lift_root o k : o mod 8 = 1 -> exists x, Z.odd x = true /\ exists q, x * x - o = q * 2 ^ (3 + Z.of_nat k).
Proof.
  intros E. induction k as [| k (x & O & q & Ex)].
  - exists 1. split; [reflexivity |]. exists ((1 - o) / 8). change (2 ^ (3 + Z.of_nat 0)) with 8.
    Z.div_mod_to_equations. lia.
  - replace (3 + Z.of_nat (S k)) with (1 + (3 + Z.of_nat k)) by lia. set (m := 3 + Z.of_nat k) in *.
    rewrite Z.pow_add_r by lia. change (2 ^ 1) with 2.
    destruct (Zeven_odd_dec q) as [Ev | Od].
    + apply Zeven_ex in Ev as [j ->]. exists x. split; [exact O |]. exists j. rewrite Ex. ring.
    + exists (x + 2 ^ (m - 1)). pose proof O as [i Ei]%Z.odd_spec. apply Zodd_ex in Od as [j ->].
      assert (M : 2 ^ m = 2 * 2 ^ (m - 1)) by (rewrite <- Z.pow_succ_r by lia; f_equal; lia).
      assert (M2 : 2 ^ (m - 1) = 2 * 2 ^ (m - 2)) by (rewrite <- Z.pow_succ_r by lia; f_equal; lia).
      assert (M3 : 2 ^ (m - 1) * 2 ^ (m - 1) = 2 ^ (m - 2) * 2 ^ m) by (rewrite <- !Z.pow_add_r by lia; f_equal; lia).
      split; [rewrite M2, Z.odd_add, Z.odd_mul, O; reflexivity |].
      exists (j + 1 + i + 2 ^ (m - 3)).
      assert (M4 : 2 ^ (m - 2) = 2 * 2 ^ (m - 3)) by (rewrite <- Z.pow_succ_r by lia; f_equal; lia).
      replace ((x + 2 ^ (m - 1)) * (x + 2 ^ (m - 1)) - o)
        with (x * x - o + x * (2 * 2 ^ (m - 1)) + 2 ^ (m - 1) * 2 ^ (m - 1)) by ring.
      rewrite Ex, M3, <- M, M4, Ei. ring.
Qed.

Lemma valuation_unique a b p q : 0 <= a -> 0 <= b -> Z.odd p = true -> Z.odd q = true ->
  2 ^ a * p = 2 ^ b * q -> a = b /\ p = q.
Proof.
  assert (W : forall a b p q, 0 <= a <= b -> Z.odd p = true -> 2 ^ a * p = 2 ^ b * q -> a = b /\ p = q).
  { intros a' b' p' q' Hab Hp E. replace b' with (a' + (b' - a')) in E by lia. rewrite Z.pow_add_r in E by lia.
    pose proof (Z.pow_pos_nonneg 2 a'). assert (E2 : p' = 2 ^ (b' - a') * q') by nia.
    assert (D : b' - a' = 0).
    { destruct (Z.eq_dec (b' - a') 0) as [| N]; [assumption | exfalso]. replace (b' - a') with (Z.succ (b' - a' - 1)) in E2 by lia.
      rewrite Z.pow_succ_r in E2 by lia. rewrite E2, !Z.odd_mul in Hp. discriminate. }
    rewrite D in E2. lia. }
  intros Ha Hb Hp Hq E. destruct (Z.le_ge_cases a b).
  - apply W; auto.
  - destruct (W b a q p) as [-> ->]; auto.
Qed.

(** The test on the odd part [o] with [left] bits fixed. *)
Definition odd_residue (o left : Z) : bool :=
  if left >=? 3 then o &w 7 =? 1 else if left =? 2 then o &w 3 =? 1 else true.
Lemma odd_residue_root o left : Z.odd o = true -> 1 <= left ->
  odd_residue o left = true <-> exists y q, Z.odd y = true /\ y * y - o = q * 2 ^ left.
Proof.
  intros O Hl. unfold odd_residue. change 3 with (Z.ones 2) at 2. change 7 with (Z.ones 3). rewrite !Z.land_ones by lia.
  change (2 ^ 3) with 8. change (2 ^ 2) with 4. destruct (Z.geb_spec left 3); [| destruct (Z.eqb_spec left 2) as [-> |]].
  - split.
    + intros E. destruct (lift_root o (Z.to_nat (left - 3))) as (y & Oy & q & E2); [lia |].
      replace (3 + Z.of_nat (Z.to_nat (left - 3))) with left in E2 by lia. eauto.
    + intros (y & q & Oy & E). apply odd_square in Oy.
      replace (2 ^ left) with (2 ^ (left - 3) * 8) in E by (change 8 with (2 ^ 3); rewrite <- Z.pow_add_r by lia; f_equal; lia).
      replace o with (y * y + (- (q * 2 ^ (left - 3))) * 8) by lia. rewrite Z.mod_add by lia. lia.
  - split.
    + intros E. exists 1, ((1 - o) / 4). split; [reflexivity |]. Z.div_mod_to_equations. lia.
    + intros (y & q & Oy & E). apply odd_square in Oy. change (2 ^ 2) with 4 in E. Z.div_mod_to_equations. lia.
  - split; [intros _ | reflexivity]. exists 1, ((1 - o) / 2). split; [reflexivity |].
    replace left with 1 by lia. change (2 ^ 1) with 2. apply Z.odd_spec in O as [k ->].
    replace (1 - (2 * k + 1)) with ((- k) * 2) by ring. rewrite Z.div_mul by lia. ring.
Qed.

Lemma square_residue_correct n w : fits 64 n -> 1 <= w <= 64 ->
  is_square_residue n w = true <-> exists x, (x * x) mod 2 ^ w = n mod 2 ^ w.
Proof.
  intros Hn Hw. unfold is_square_residue. assert (P : 0 < 2 ^ w) by (apply Z.pow_pos_nonneg; lia).
  assert (M : (if w >=? 64 then 2 ^ 64 - 1 else (1 <<w w) -w 1) = Z.ones w).
  { rewrite Z.ones_equiv. destruct (Z.geb_spec w 64); [replace w with 64 by lia; reflexivity |].
    pose proof (Z.pow_lt_mono_r 2 w 64). rewrite Z.shiftl_mul_pow2, Z.mul_1_l by lia.
    rewrite !u64_small; unfold fits; rewrite ?u64_small; unfold fits; lia. }
  rewrite M, Z.land_ones by lia. pose proof (Z.mod_pos_bound n (2 ^ w) P) as Rg. set (N := n mod 2 ^ w) in *. cbv zeta.
  destruct (Z.eqb_spec N 0) as [-> | Nz].
  { split; [intros _; exists 0; reflexivity | reflexivity]. }
  destruct (ctz_split N ltac:(lia)) as [Ht (o & E & O & Po)]. set (t := ctz N) in *.
  pose proof (Z.pow_pos_nonneg 2 t ltac:(lia) Ht) as Pt.
  assert (Lt : t < w) by (apply (Z.pow_lt_mono_r_iff 2); [lia | lia |]; nia).
  assert (Sh : N >>w t = o) by (rewrite Z.shiftr_div_pow2, E, Z.mul_comm, Z.div_mul by lia; reflexivity).
  rewrite Sh. fold (odd_residue o (w - t)).
  assert (Pw : 2 ^ w = 2 ^ t * 2 ^ (w - t)) by (rewrite <- Z.pow_add_r by lia; f_equal; lia).
  split.
  - destruct (Z.odd t) eqn:Ot; [discriminate |]. intros R. apply odd_residue_root in R as (y & q & Oy & Ey); [| assumption | lia].
    rewrite <- Z.negb_even, negb_false_iff in Ot. apply Z.even_spec in Ot as [u Eu].
    exists (2 ^ u * y). replace (2 ^ u * y * (2 ^ u * y)) with (2 ^ t * (y * y))
      by (rewrite Eu; replace (2 * u) with (u + u) by lia; rewrite Z.pow_add_r by lia; ring).
    replace (y * y) with (o + q * 2 ^ (w - t)) by lia.
    replace (2 ^ t * (o + q * 2 ^ (w - t))) with (N + q * 2 ^ w) by (rewrite Pw; rewrite E at 1; ring).
    rewrite Z.mod_add by lia. apply Z.mod_small. lia.
  - intros [x Ex]. pose proof (Z.div_mod (x * x) (2 ^ w) ltac:(lia)) as Dm. rewrite Ex in Dm. set (q := x * x / 2 ^ w) in *.
    assert (X : Z.abs x * Z.abs x = x * x) by (destruct (Z.abs_spec x) as [[_ ->] | [_ ->]]; ring).
    assert (Px : 0 < Z.abs x) by (destruct (Z.eq_dec x 0) as [-> |]; [| lia]; exfalso; rewrite Z.mul_0_l, Z.mod_0_l in Ex by lia; lia).
    destruct (ctz_split (Z.abs x) Px) as [Hu (y & Ey & Oy & Py)]. set (u := ctz (Z.abs x)) in *.
    destruct (valuation_unique (2 * u) t (y * y) (o + q * 2 ^ (w - t))) as [Eu Ev]; try lia.
    + rewrite Z.odd_mul, Oy. reflexivity.
    + replace (w - t) with (Z.succ (w - t - 1)) by lia. rewrite Z.pow_succ_r by lia.
      rewrite Z.odd_add, !Z.odd_mul, O. cbn. rewrite andb_false_r. reflexivity.
    + replace (2 * u) with (u + u) by lia. rewrite Z.pow_add_r by lia.
      replace (2 ^ u * 2 ^ u * (y * y)) with (2 ^ u * y * (2 ^ u * y)) by ring. rewrite <- Ey, X, Dm, Pw. rewrite E at 1. ring.
    + rewrite <- Eu at 1. rewrite Z.odd_mul. cbn [Z.odd andb]. cbv iota.
      apply odd_residue_root; [assumption | lia |]. exists y, q. split; [assumption | lia].
Qed.

(** ** Powers and the greatest common divisor *)

Fixpoint powmod_loop (fuel : nat) (r b e m : Z) : option Z :=
  if e =? 0 then Some r else
  match fuel with
  | O => None
  | S k =>
      let* r' := (if Z.odd e then mulmod_u64 r b m else Some r) in
      let* b' := mulmod_u64 b b m in
      powmod_loop k r' b' (e >>w 1) m
  end.
Definition powmod (b e m : Z) : option Z := powmod_loop 64 (1 mod m) (b mod m) e m.

Fixpoint gcd_loop (fuel : nat) (a b : Z) : option Z :=
  if b =? 0 then Some a else
  match fuel with O => None | S k => gcd_loop k b (a mod b) end.
Definition gcd (a b : Z) : option Z := gcd_loop 128 a b.

Lemma powmod_loop_exact fuel : forall r b e m, 0 < m < 2 ^ 64 -> 0 <= r < m -> 0 <= b < m ->
  0 <= e < 2 ^ Z.of_nat fuel -> powmod_loop fuel r b e m = Some ((r * b ^ e) mod m).
Proof.
  induction fuel as [| k IH]; intros r b e m Hm Hr Hb He; cbn [powmod_loop].
  - replace e with 0 by (cbn in He; lia). rewrite Z.eqb_refl, Z.pow_0_r, Z.mul_1_r, Z.mod_small by lia. reflexivity.
  - destruct (Z.eqb_spec e 0) as [-> | Ne]; [rewrite Z.pow_0_r, Z.mul_1_r, Z.mod_small by lia; reflexivity |].
    rewrite Nat2Z.inj_succ, Z.pow_succ_r in He by lia.
    pose proof (fun x y => mulmod_exact x y m ltac:(unfold fits; lia) ltac:(lia)) as Mm.
    assert (M : forall z, 0 <= z mod m < m) by (intros z; apply Z.mod_pos_bound; lia).
    assert (R : (if Z.odd e then mulmod_u64 r b m else Some r) = Some (if Z.odd e then (r * b) mod m else r))
      by (destruct (Z.odd e); [apply Mm; unfold fits; lia | reflexivity]).
    rewrite R, Mm by (unfold fits; lia). cbv iota. rewrite Z.shiftr_div_pow2, Z.pow_1_r by lia.
    rewrite IH; [| lia | destruct (Z.odd e); auto | auto | div_lia]. f_equal.
    pose proof (Z.div_mod e 2 ltac:(lia)) as Ee. rewrite Zmod_odd in Ee.
    rewrite <- Z.mul_mod_idemp_r, Z.mod_pow_l, Z.mul_mod_idemp_r by lia.
    replace (b * b) with (b ^ 2) by ring. rewrite <- Z.pow_mul_r by div_lia.
    destruct (Z.odd e).
    + rewrite Z.mul_mod_idemp_l by lia. f_equal. rewrite <- Z.mul_assoc. f_equal.
      rewrite <- Z.pow_succ_r by div_lia. f_equal. lia.
    + do 2 f_equal. f_equal. lia.
Qed.
Lemma powmod_exact b e m : 0 < m < 2 ^ 64 -> fits 64 e -> powmod b e m = Some (b ^ e mod m).
Proof.
  intros Hm He. unfold powmod. pose proof (Z.mod_pos_bound 1 m). pose proof (Z.mod_pos_bound b m).
  rewrite powmod_loop_exact by (auto; lia). f_equal.
  rewrite Z.mul_mod_idemp_l, Z.mul_1_l, Z.mod_pow_l by lia. reflexivity.
Qed.

Lemma gcd_loop_exact j : forall a b, 0 <= a -> 0 <= b < 2 ^ Z.of_nat j -> gcd_loop (2 * j) a b = Some (Z.gcd a b).
Proof.
  induction j as [| j IH]; intros a b Ha Hb.
  - cbn. replace b with 0 by (cbn in Hb; lia). rewrite Z.gcd_0_r, Z.abs_eq by lia. reflexivity.
  - rewrite Nat2Z.inj_succ, Z.pow_succ_r in Hb by lia. replace (2 * S j)%nat with (S (S (2 * j))) by lia. cbn [gcd_loop].
    destruct (Z.eqb_spec b 0) as [-> | Nb]; [rewrite Z.gcd_0_r, Z.abs_eq by lia; reflexivity |].
    pose proof (Z.mod_pos_bound a b ltac:(lia)) as Rb.
    assert (E1 : Z.gcd a b = Z.gcd b (a mod b)) by (rewrite (Z.gcd_comm b), Z.gcd_mod, Z.gcd_comm by lia; reflexivity).
    rewrite E1. destruct (Z.eqb_spec (a mod b) 0) as [-> | Nr]; [rewrite Z.gcd_0_r, Z.abs_eq by lia; reflexivity |].
    set (r := a mod b) in *. pose proof (Z.mod_pos_bound b r ltac:(lia)) as Rr.
    rewrite IH; [rewrite (Z.gcd_comm r), Z.gcd_mod, Z.gcd_comm by lia; reflexivity | lia |].
    split; [lia |]. pose proof (Z.div_mod b r ltac:(lia)). assert (0 < b / r) by (apply Z.div_str_pos; lia). nia.
Qed.
Lemma gcd_exact a b : fits 64 a -> fits 64 b -> gcd a b = Some (Z.gcd a b).
Proof. intros Ha Hb. apply (gcd_loop_exact 64); [apply Ha | apply Hb]. Qed.

(** ** Primes *)

(** The twelve bases, and the trial division by them. *)
Definition bases : list Z := [2; 3; 5; 7; 11; 13; 17; 19; 23; 29; 31; 37].
Fixpoint try_small (l : list Z) (n : Z) : option bool :=
  match l with
  | [] => None
  | p :: l => if n mod p =? 0 then Some (n =? p) else try_small l n
  end.
(** [while (!(d & 1)) { d >>= 1; s++; }] *)
Fixpoint strip (fuel : nat) (d s : Z) : option (Z * Z) :=
  if Z.odd d then Some (d, s) else
  match fuel with O => None | S k => strip k (d >>w 1) (s + 1) end.
(** [for (r = 1; r < s; r++)]: whether the loop was left by [break]. *)
Fixpoint squares (fuel : nat) (r s x n : Z) : option bool :=
  if r <? s then
    match fuel with
    | O => None
    | S k => let* y := mulmod_u64 x x n in if y =? n -w 1 then Some true else squares k (r + 1) s y n
    end
  else Some false.
(** One base: whether [n] passes. *)
Definition passes (a d s n : Z) : option bool :=
  let* x := powmod a d n in
  if (x =? 1) || (x =? n -w 1) then Some true else squares 64 1 s x n.
Fixpoint passes_all (l : list Z) (d s n : Z) : option bool :=
  match l with
  | [] => Some true
  | a :: l => let* b := passes a d s n in if b then passes_all l d s n else Some false
  end.
Definition is_prime (n : Z) : option bool :=
  if n <? 2 then Some false
  else match try_small bases n with
  | Some b => Some b
  | None => let* (d, s) := strip 64 (n -w 1) 0 in passes_all bases d s n
  end.

Lemma strip_exact fuel : forall d s, 0 < d < 2 ^ Z.of_nat fuel -> 0 <= s ->
  exists d' t, strip fuel d s = Some (d', s + t) /\ 0 <= t /\ d = 2 ^ t * d' /\ Z.odd d' = true.
Proof.
  induction fuel as [| k IH]; intros d s Hd Hs; cbn [strip]; [cbn in Hd; lia |].
  destruct (Z.odd d) eqn:O; [exists d, 0; rewrite Z.add_0_r, Z.pow_0_r, Z.mul_1_l; auto with zarith |].
  rewrite Nat2Z.inj_succ, Z.pow_succ_r in Hd by lia. rewrite <- Z.negb_even, negb_false_iff in O.
  apply Z.even_spec in O as [h ->]. rewrite Z.shiftr_div_pow2, Z.pow_1_r, Z.mul_comm, Z.div_mul by lia.
  destruct (IH h (s + 1)) as (d' & t & E & Ht & -> & O'); [lia | lia |]. exists d', (1 + t). rewrite Z.pow_add_r by lia.
  split; [rewrite E; do 2 f_equal; lia |]. split; [lia |]. split; [ring | exact O'].
Qed.

Lemma squares_total fuel : forall r s x n, 0 < n < 2 ^ 64 -> 0 <= x < n -> s - r <= Z.of_nat fuel ->
  exists b, squares fuel r s x n = Some b /\
    (b = false -> forall i, 0 < i < s - r + 1 -> x ^ (2 ^ i) mod n <> (n - 1) mod n).
Proof.
  induction fuel as [| k IH]; intros r s x n Hn Hx Hf; cbn [squares]; destruct (Z.ltb_spec r s); try lia;
    try (exists false; split; [reflexivity | intros _ i Hi; lia]).
  rewrite mulmod_exact by (unfold fits; lia). rewrite u64_small by (unfold fits; lia).
  pose proof (Z.mod_pos_bound (x * x) n ltac:(lia)) as Mb.
  destruct (Z.eqb_spec ((x * x) mod n) (n - 1)) as [E | N]; [exists true; split; [reflexivity | discriminate] |].
  destruct (IH (r + 1) s ((x * x) mod n) n) as (b & E & Sp); [lia | lia | lia |]. exists b. split; [exact E |].
  intros Eb i Hi. destruct (Z.eq_dec i 1) as [-> | Ni].
  - change (2 ^ 1) with 2. rewrite Z.pow_2_r, (Z.mod_small (n - 1)) by lia. exact N.
  - specialize (Sp Eb (i - 1) ltac:(lia)). rewrite Z.mod_pow_l in Sp.
    replace ((x * x) ^ 2 ^ (i - 1)) with (x ^ 2 ^ i) in Sp; [exact Sp |].
    replace (x * x) with (x ^ 2) by ring. rewrite <- Z.pow_mul_r by (try apply Z.pow_nonneg; lia).
    rewrite <- Z.pow_succ_r by lia. do 2 f_equal. lia.
Qed.

Lemma passes_total a d s n : 1 < n < 2 ^ 64 -> fits 64 d -> 0 <= s <= 64 ->
  exists b, passes a d s n = Some b /\
    (b = false -> a ^ d mod n <> 1 /\ forall i, 0 <= i < s \/ i = 0 -> (a ^ (2 ^ i * d)) mod n <> n - 1).
Proof.
  intros Hn Hd Hs. unfold passes. rewrite powmod_exact by (auto; lia). cbv iota. rewrite u64_small by (unfold fits; lia).
  pose proof (Z.mod_pos_bound (a ^ d) n ltac:(lia)) as Mb. set (x := a ^ d mod n) in *.
  destruct (Z.eqb_spec x 1) as [E1 | N1]; [exists true; split; [reflexivity | discriminate] |].
  destruct (Z.eqb_spec x (n - 1)) as [E2 | N2]; [exists true; split; [reflexivity | discriminate] |]. cbn [orb].
  destruct (squares_total 64 1 s x n) as (b & E & Sp); [lia | lia | lia |]. exists b. split; [exact E |].
  intros Eb. split; [exact N1 |]. intros i Hi. destruct (Z.eq_dec i 0) as [-> | Ni]; [rewrite Z.pow_0_r, Z.mul_1_l; exact N2 |].
  specialize (Sp Eb i ltac:(lia)). unfold x in Sp. rewrite Z.mod_pow_l, <- Z.pow_mul_r, Z.mul_comm in Sp
    by (try apply Z.pow_nonneg; unfold fits in *; lia).
  rewrite (Z.mod_small (n - 1)) in Sp by lia. exact Sp.
Qed.

(** The square roots of 1 modulo a prime. *)
Lemma root_of_one p y : Z.prime p -> (y * y) mod p = 1 -> y mod p = 1 \/ y mod p = p - 1.
Proof.
  intros Hp E. pose proof (Z.prime_ge_2 _ Hp) as P2. assert (D : (p | (y - 1) * (y + 1))).
  { replace ((y - 1) * (y + 1)) with (y * y - 1) by ring. apply Zmod_divide_minus; lia. }
  apply Z.divide_prime_mul in D as [[k Ek] | [k Ek]]; [left | right | exact Hp].
  - replace y with (1 + k * p) by lia. rewrite Z.mod_add, Z.mod_small by lia. reflexivity.
  - replace y with (p - 1 + (k - 1) * p) by lia. rewrite Z.mod_add, Z.mod_small by lia. reflexivity.
Qed.

(** Every base a prime does not divide lets it pass. *)
Lemma prime_passes a d s n : Z.prime n -> 1 < n < 2 ^ 64 -> fits 64 d -> 0 <= s <= 64 -> n - 1 = 2 ^ s * d ->
  a mod n <> 0 -> passes a d s n = Some true.
Proof.
  intros Hp Hn Hd Hs E Ha. destruct (passes_total a d s n Hn Hd Hs) as (b & Eb & Sp). rewrite Eb.
  destruct b; [reflexivity | exfalso]. destruct (Sp eq_refl) as [N1 Nm].
  assert (Down : forall k : nat, Z.of_nat k <= s -> a ^ (2 ^ (s - Z.of_nat k) * d) mod n = 1).
  { induction k as [| k IH]; intros Hk.
    - rewrite Z.sub_0_r, <- E. apply Z.fermat_nz; assumption.
    - specialize (IH ltac:(lia)). set (i := s - Z.of_nat (S k)) in *.
      replace (s - Z.of_nat k) with (Z.succ i) in IH by lia. rewrite Z.pow_succ_r in IH by lia.
      replace (2 * 2 ^ i * d) with (2 ^ i * d + 2 ^ i * d) in IH by ring.
      assert (0 <= 2 ^ i * d) by (apply Z.mul_nonneg_nonneg; [apply Z.pow_nonneg; lia | apply Hd]).
      rewrite Z.pow_add_r in IH by assumption.
      destruct (root_of_one n _ Hp IH) as [R | R]; [exact R | exfalso; apply (Nm i); [lia | exact R]]. }
  specialize (Down (Z.to_nat s) ltac:(lia)). replace (s - Z.of_nat (Z.to_nat s)) with 0 in Down by lia.
  rewrite Z.pow_0_r, Z.mul_1_l in Down. contradiction.
Qed.

Lemma passes_all_total l d s n : 1 < n < 2 ^ 64 -> fits 64 d -> 0 <= s <= 64 -> exists b, passes_all l d s n = Some b.
Proof.
  intros Hn Hd Hs. induction l as [| a l [b IH]]; cbn [passes_all]; [eauto |].
  destruct (passes_total a d s n Hn Hd Hs) as (c & -> & _). destruct c; eauto.
Qed.
Lemma passes_all_prime l d s n : Z.prime n -> 1 < n < 2 ^ 64 -> fits 64 d -> 0 <= s <= 64 -> n - 1 = 2 ^ s * d ->
  (forall a, In a l -> a mod n <> 0) -> passes_all l d s n = Some true.
Proof.
  intros Hp Hn Hd Hs E. induction l as [| a l IH]; intros Ha; [reflexivity |]. cbn [passes_all].
  rewrite (prime_passes a d s n) by (auto; apply Ha; left; reflexivity). apply IH. intros b Hb. apply Ha. right. exact Hb.
Qed.

Lemma try_small_spec l n : match try_small l n with
  | Some b => exists p, In p l /\ (p | n) /\ b = (n =? p) \/ In 0 l
  | None => forall p, In p l -> n mod p <> 0
  end.
Proof.
  induction l as [| p l IH]; cbn [try_small]; [intros p [] |].
  destruct (Z.eqb_spec (n mod p) 0) as [E | N].
  - destruct (Z.eq_dec p 0) as [-> | Np]; [exists 0; right; left; reflexivity |].
    exists p. left. split; [left; reflexivity |]. split; [apply Z.mod_divide; assumption | reflexivity].
  - destruct (try_small l n) as [b |].
    + destruct IH as [q [(Hq & Dq & Eb) | Z0]]; exists q; [left; split; [right; exact Hq | auto] | right; right; exact Z0].
    + intros q [<- | Hq]; auto.
Qed.
(** Primality by trial division. *)
Definition prime_check (p : Z) : bool :=
  (1 <? p) && forallb (fun k => negb (p mod Z.of_nat k =? 0)) (seq 2 (Z.to_nat (p - 2))).
Lemma prime_check_spec p : prime_check p = true -> Z.prime p.
Proof.
  unfold prime_check. intros E. apply andb_true_iff in E as [P F]. split; [lia |]. intros k Hk D.
  rewrite forallb_forall in F. specialize (F (Z.to_nat k)). rewrite in_seq, Z2Nat.id in F by lia.
  apply Z.mod_divide in D; [| lia]. rewrite D in F. specialize (F ltac:(lia)). discriminate.
Qed.
Lemma bases_prime : Forall Z.prime bases.
Proof. repeat (constructor; [apply prime_check_spec; reflexivity |]). constructor. Qed.
Lemma bases_range p : In p bases -> 2 <= p <= 37.
Proof. cbn. intros H. repeat destruct H as [<- | H]; lia. Qed.

(** What [n] splits into for the test. *)
Lemma split_pred n : 2 <= n < 2 ^ 64 -> exists d s, strip 64 (n -w 1) 0 = Some (d, s) /\
  fits 64 d /\ 0 <= s <= 64 /\ n - 1 = 2 ^ s * d.
Proof.
  intros Hn. rewrite u64_small by (unfold fits; lia).
  destruct (strip_exact 64 (n - 1) 0) as (d & t & -> & Ht & E & O); [lia | lia |].
  pose proof (Z.pow_pos_nonneg 2 t ltac:(lia) Ht) as Pt. assert (0 < d) by nia. rewrite Z.add_0_l. exists d, t.
  split; [reflexivity |]. split; [unfold fits; nia |]. split; [| exact E].
  split; [exact Ht |]. apply Z.lt_le_incl, (Z.pow_lt_mono_r_iff 2); [lia | lia |]. nia.
Qed.

(** The test answers for every word, and never rejects a prime. *)
Lemma is_prime_total n : fits 64 n -> exists b, is_prime n = Some b.
Proof.
  intros Hn. unfold is_prime, fits in *. destruct (Z.ltb_spec n 2); [eauto |].
  destruct (try_small bases n); [eauto |]. destruct (split_pred n ltac:(lia)) as (d & s & -> & Fd & Hs & _).
  apply passes_all_total; [lia | assumption | assumption].
Qed.
Lemma is_prime_accepts n : fits 64 n -> Z.prime n -> is_prime n = Some true.
Proof.
  intros Hn Hp. pose proof (Z.prime_ge_2 _ Hp) as P2. unfold is_prime, fits in *. destruct (Z.ltb_spec n 2); [lia |].
  pose proof (try_small_spec bases n) as T. destruct (try_small bases n) as [b |].
  - destruct T as [p [(Hq & D & ->) | Z0]]; [| apply bases_range in Z0; lia]. apply bases_range in Hq.
    apply Z.divide_prime_r in D; [| exact Hp]. f_equal. lia.
  - destruct (split_pred n ltac:(lia)) as (d & s & -> & Fd & Hs & E). apply passes_all_prime; try assumption; [lia |].
    intros a Ha Z0. pose proof (bases_range a Ha). specialize (T a Ha). apply T. clear T.
    pose proof (proj1 (Forall_forall _ _) bases_prime a Ha) as Pa. apply Z.mod_divide in Z0; [| lia].
    apply Z.divide_prime_prime in Z0; [| assumption | assumption]. subst a. apply Z.mod_same. lia.
Qed.
(** Below 1681 it accepts nothing else. *)
Lemma is_prime_rejects n : n < 41 * 41 -> is_prime n = Some true -> Z.prime n.
Proof.
  intros Hn. unfold is_prime. destruct (Z.ltb_spec n 2); [discriminate |]. pose proof (try_small_spec bases n) as T.
  destruct (try_small bases n) as [b |].
  - intros [= ->]. destruct T as [p [(Hq & _ & E) | Z0]]; [| apply bases_range in Z0; lia].
    replace n with p by lia. apply (proj1 (Forall_forall _ _) bases_prime p Hq).
  - intros _. split; [lia |].
    assert (S : forall k, 1 < k <= 40 -> ~ (k | n)).
    { intros k Hk D. assert (F : forallb (fun k => existsb (fun p => Z.of_nat k mod p =? 0) bases) (seq 2 39) = true)
        by (vm_compute; reflexivity).
      rewrite forallb_forall in F. specialize (F (Z.to_nat k)). rewrite in_seq, Z2Nat.id in F by lia.
      specialize (F ltac:(lia)). apply existsb_exists in F as (p & Hp & Ep). pose proof (bases_range p Hp).
      apply (T p Hp). apply Z.mod_divide; [lia |]. apply (Z.divide_trans _ k); [apply Z.mod_divide; lia | exact D]. }
    intros k Hk [j Ej]. destruct (Z.le_gt_cases k 40) as [L | G]; [apply (S k); [lia | exists j; exact Ej] |].
    apply (S j); [nia | exists k; lia].
Qed.

(** ** The properties *)

(** C19: Roots and residues are exact.  For every word, [dvs_isqrt_u64] ends within
    34 steps with the root rounded down, [dvs_isqrt_ceil_u64] with the root
    rounded up, and [dvs_is_square_residue] holds exactly of the residues modulo
    [2^w] that are squares modulo [2^w]. *)
Theorem roots_exact n w : fits 64 n -> 1 <= w <= 64 ->
  isqrt_u64 n = Some (Z.sqrt n) /\ isqrt_ceil_u64 n = Some (Z.sqrt_up n) /\
  (is_square_residue n w = true <-> exists x, (x * x) mod 2 ^ w = n mod 2 ^ w).
Proof.
  intros Hn Hw. split; [apply isqrt_correct, Hn |]. split; [apply isqrt_ceil_correct, Hn |].
  apply square_residue_correct; assumption.
Qed.
(** 17 has a root modulo [2^64], 2^64 - 1 has none. *)
Lemma roots_exact_witness : isqrt_u64 (2 ^ 64 - 1) = Some (2 ^ 32 - 1) /\ (exists x, (x * x) mod 2 ^ 64 = 17 mod 2 ^ 64) /\
  ~ exists x, (x * x) mod 2 ^ 64 = (2 ^ 64 - 1) mod 2 ^ 64.
Proof.
  destruct (roots_exact (2 ^ 64 - 1) 64) as (R & _ & S); [unfold fits; lia | lia |].
  destruct (roots_exact 17 64) as (_ & _ & S17); [unfold fits; lia | lia |].
  split; [rewrite R; reflexivity |]. split; [apply S17; reflexivity |]. intros X. apply S in X. discriminate.
Defined.

(** C20: The primality test answers for every word, never rejects a prime, and
    below 1681 accepts nothing else; the powers and the greatest common divisors
    it and the factorisation use are exact. *)
Theorem is_prime_exact n : fits 64 n ->
  (exists b, is_prime n = Some b) /\ (Z.prime n -> is_prime n = Some true) /\
  (n < 41 * 41 -> is_prime n = Some true -> Z.prime n) /\
  (forall b e, 0 < n -> fits 64 e -> powmod b e n = Some (b ^ e mod n)) /\
  (forall a, fits 64 a -> gcd a n = Some (Z.gcd a n)).
Proof.
  intros Hn. split; [apply is_prime_total, Hn |]. split; [apply is_prime_accepts, Hn |].
  split; [apply is_prime_rejects |]. split; [intros b e P; apply powmod_exact; unfold fits in Hn; lia |].
  intros a Ha. apply gcd_exact; assumption.
Qed.
(** 561 = 3 * 11 * 17 is a Carmichael number. *)
Lemma is_prime_exact_witness : Z.prime 1009 /\ is_prime 561 = Some false /\ gcd 561 1009 = Some 1.
Proof.
  destruct (is_prime_exact 1009) as (_ & _ & R & _ & G); [unfold fits; lia |].
  split; [apply R; [lia | vm_compute; reflexivity] |]. split; [vm_compute; reflexivity |].
  rewrite (G 561) by (unfold fits; lia). vm_compute. reflexivity.
Defined.

End NumTh.
