(* ===== verification/Divisors.v ===== *)
(** * Divisors: the divisors of a fixed product (src/src/c/dvs_numth.c)

    Factorisation by trial division and Pollard's rho, the expansion of the
    prime powers into the list of divisors, the cache of the last number
    factored, and the searches in the list.  Loops whose length the code does not
    bound (those of rho) take fuel. *)

From Stdlib Require Import ZArith Znumtheory Zdivisibility Lia ZifyBool Bool List Permutation Sorted FinFun.
From S2P Require Import Prelude I128 NumTh.
Import ListNotations I128 NumTh.
Open Scope Z_scope.
Open Scope word_scope.

Module Divisors.

(** ** Pollard's rho *)

Definition rho_step (y c n : Z) : option Z := let* t := mulmod_u64 y y n in Some (addmod t c n).
Definition dist (x y : Z) : Z := if x >? y then x -w y else y -w x.
(** [for (i = 0; i < r; i++) y = _rho_step(y, c, n)] *)
Fixpoint rho_walk (steps : nat) (y c n : Z) : option Z :=
  match steps with O => Some y | S k => let* y := rho_step y c n in rho_walk k y c n end.
(** One batch of at most 128 steps, with the product of the distances. *)
Fixpoint rho_batch (steps : nat) (x y q c n : Z) : option (Z * Z) :=
  match steps with
  | O => Some (y, q)
  | S k => let* y := rho_step y c n in let* q := mulmod_u64 q (dist x y) n in rho_batch k x y q c n
  end.
(** [for (k = 0; k < r && g == 1; k += 128)]: [y], [q], [g] and [ys] after it. *)
Fixpoint rho_batches (fuel : nat) (k r x y q g ys c n : Z) : option (Z * Z * Z * Z) :=
  if (k <? r) && (g =? 1) then
    match fuel with
    | O => None
    | S j =>
        let lim := if r -w k <? 128 then r -w k else 128 in
        let* (y', q') := rho_batch (Z.to_nat lim) x y q c n in
        let* g' := gcd q' n in
        rho_batches j (k +w 128) r x y' q' g' y c n
    end
  else Some (y, q, g, ys).
(** [while (g == 1)]: the last [x], [g] and [ys]. *)
Fixpoint rho_search (fuel : nat) (r x y q g ys c n : Z) : option (Z * Z * Z) :=
  if g =? 1 then
    match fuel with
    | O => None
    | S j =>
        let* y1 := rho_walk (Z.to_nat r) y c n in
        let* (y2, q2, g2, ys2) := rho_batches fuel 0 r y y1 q g ys c n in
        rho_search j (r <<w 1) y y2 q2 g2 ys2 c n
    end
  else Some (x, g, ys).
(** [do .. while (g == 1)] after a batch that gave [n] itself. *)
Fixpoint rho_back (fuel : nat) (x ys c n : Z) : option Z :=
  match fuel with
  | O => None
  | S j =>
      let* ys := rho_step ys c n in
      let* g := gcd (dist x ys) n in
      if g =? 1 then rho_back j x ys c n else Some g
  end.
Fixpoint rho_from (fuel : nat) (c n : Z) : option Z :=
  match fuel with
  | O => None
  | S j =>
      let* (x, g, ys) := rho_search fuel 1 2 2 1 1 2 c n in
      let* g := (if g =? n then rho_back fuel x ys c n else Some g) in
      if negb (g =? n) then Some g else rho_from j (c +w 1) n
  end.
Definition rho (fuel : nat) (n : Z) : option Z := rho_from fuel 1 n.

(** ** Factorisation *)

(** [while (nt)]: [todo], last first, and the factors found. *)
Fixpoint factor_loop (fuel : nat) (todo f : list Z) : option (list Z) :=
  match todo with
  | [] => Some f
  | m :: todo =>
      match fuel with
      | O => None
      | S j =>
          let* b := is_prime m in
          if b then factor_loop j todo (f ++ [m])
          else let* d := rho fuel m in factor_loop j (m / d :: d :: todo) f
      end
  end.
Definition factor (fuel : nat) (n : Z) (f : list Z) : option (list Z) :=
  factor_loop fuel (if n >? 1 then [n] else []) f.

Definition small_primes : list Z := [2; 3; 5; 7; 11; 13; 17; 19; 23; 29; 31; 37; 41; 43; 47].
(** [while (m % p == 0)] *)
Fixpoint divide_out (fuel : nat) (p m : Z) (f : list Z) : option (Z * list Z) :=
  if m mod p =? 0 then
    match fuel with O => None | S j => divide_out j p (m / p) (f ++ [p]) end
  else Some (m, f).
Fixpoint trial (l : list Z) (m : Z) (f : list Z) : option (Z * list Z) :=
  match l with
  | [] => Some (m, f)
  | p :: l => let* (m', f') := divide_out 64 p m f in trial l m' f'
  end.

(** ** The list of divisors *)

(** [qsort] with [_cmp_u64]. *)
Fixpoint insert (x : Z) (l : list Z) : list Z :=
  match l with [] => [x] | y :: l' => if x <=? y then x :: l else y :: insert x l' end.
Definition qsort (l : list Z) : list Z := fold_right insert [] l.

(** [while (j < nf && f\[j\] == f\[i\]) j++]: how many more, and what follows. *)
Fixpoint run_of (p : Z) (l : list Z) : nat * list Z :=
  match l with
  | q :: l' => if q =? p then let '(k, r) := run_of p l' in (S k, r) else (O, l)
  | [] => (O, [])
  end.
(** The runs of equal factors that both loops over [f] walk. *)
Fixpoint runs (fuel : nat) (l : list Z) : list (Z * nat) :=
  match fuel, l with
  | S j, p :: l' => let '(k, r) := run_of p l' in (p, S k) :: runs j r
  | _, _ => []
  end.
Definition count_divisors (rs : list (Z * nat)) : Z :=
  fold_left (fun count r => count *w (Z.of_nat (snd r) + 1)) rs 1.
(** [for (e = 0; e < j - i; e++)] over the first [base] divisors. *)
Fixpoint expand_run (k : nat) (p pk : Z) (base divs : list Z) : list Z :=
  match k with
  | O => divs
  | S k => let pk := pk *w p in expand_run k p pk base (divs ++ map (fun d => d *w pk) base)
  end.
Definition expand (rs : list (Z * nat)) : list Z :=
  fold_left (fun divs r => expand_run (snd r) (fst r) 1 divs divs) rs [1].

(** [DvsDivisors]: [divs] is the part of the array that is in use. *)
Record divisors := mk_divisors { d_n : Z; d_divs : list Z; d_cap : Z }.
Definition n_divs (d : divisors) : Z := Z.of_nat (length (d_divs d)).

(** [dvs_divisors]: the count and the new cache; [room bytes] is whether the
    allocator serves the resize. *)
Definition dvs_divisors (fuel : nat) (room : Z -> bool) (d : divisors) (n max : Z) : option (Z * divisors) :=
  if n =? 0 then Some (0, d)
  else if (d_n d =? n) && negb (n_divs d =? 0) then Some (n_divs d, d)
  else
    let d := mk_divisors 0 [] (d_cap d) in
    let* (m, f) := trial small_primes n [] in
    let* f := factor fuel m f in
    let f := qsort f in
    let rs := runs (length f) f in
    let count := count_divisors rs in
    if count >? max then Some (0, d)
    else if (count >? d_cap d) && negb (room (count * 8)) then Some (0, d)
    else
      let cap := if count >? d_cap d then u32 count else d_cap d in
      let divs := expand rs in
      let d := mk_divisors n (qsort divs) cap in
      Some (n_divs d, d).

Definition dvs_divisors_free (d : divisors) : divisors := mk_divisors 0 [] 0.

(** The two searches, by halving [lo..hi]. *)
Fixpoint bisect (fuel : nat) (below : Z -> bool) (divs : list Z) (lo hi : Z) : option Z :=
  if lo <? hi then
    match fuel with
    | O => None
    | S j =>
        let mid := lo + (hi - lo) / 2 in
        if below (nth (Z.to_nat mid) divs 0) then bisect j below divs (mid + 1) hi else bisect j below divs lo mid
    end
  else Some lo.
Definition dvs_divisors_lower (d : divisors) (x : Z) : option Z :=
  bisect 32 (fun v => v <? x) (d_divs d) 0 (n_divs d).
Definition dvs_divisors_upper (d : divisors) (x : Z) : option Z :=
  bisect 32 (fun v => v <=? x) (d_divs d) 0 (n_divs d).

(** ** What rho gives is a factor *)

Section Rho.
Context (n : Z) (Hn : 1 < n < 2 ^ 64).

Lemma mulmod_word a b : fits 64 b -> exists z, mulmod_u64 a b n = Some z /\ 0 <= z < n.
Proof.
  intros Hb. rewrite mulmod_exact by (unfold fits in *; lia). eexists. split; [reflexivity |]. apply Z.mod_pos_bound. lia.
Qed.
Lemma dist_word x y : fits 64 (dist x y).
Proof. unfold dist. destruct (_ >? _); apply fits_u64. Qed.
Lemma rho_batch_word steps : forall x y q c y' q', fits 64 q -> rho_batch steps x y q c n = Some (y', q') -> fits 64 q'.
Proof.
  induction steps as [| k IH]; cbn [rho_batch]; intros x y q c y' q' Hq E; [congruence |].
  destruct (rho_step y c n) as [y1 |]; [| discriminate]. destruct (mulmod_word q (dist x y1) (dist_word _ _)) as (z & Ez & Hz).
  rewrite Ez in E. apply IH in E; [exact E | unfold fits; lia].
Qed.

(** A divisor of [n], not yet known to be proper. *)
Definition divisor (g : Z) : Prop := (g | n) /\ 0 < g.
Lemma gcd_divisor q g : fits 64 q -> gcd q n = Some g -> divisor g.
Proof.
  intros Hq. rewrite gcd_exact by (unfold fits in *; lia). intros [= <-]. split; [apply Z.gcd_divide_r |].
  pose proof (Z.gcd_nonneg q n). pose proof (Z.gcd_eq_0_r q n). lia.
Qed.
Lemma rho_batches_divisor fuel : forall k r x y q g ys c y' q' g' ys', fits 64 q -> divisor g ->
  rho_batches fuel k r x y q g ys c n = Some (y', q', g', ys') -> fits 64 q' /\ divisor g'.
Proof.
  induction fuel as [| j IH]; cbn [rho_batches]; intros k r x y q g ys c y' q' g' ys' Hq Hg E;
    destruct (_ && _); try discriminate; try (injection E as <- <- <- <-; auto).
  destruct (rho_batch _ x y q c n) as [[y1 q1] |] eqn:E1; [| discriminate]. apply rho_batch_word in E1; [| exact Hq].
  destruct (gcd q1 n) as [g1 |] eqn:E2; [| discriminate]. apply gcd_divisor in E2; [| exact E1]. eapply IH; eassumption.
Qed.
Lemma rho_search_divisor fuel : forall r x y q g ys c x' g' ys', fits 64 q -> divisor g ->
  rho_search fuel r x y q g ys c n = Some (x', g', ys') -> divisor g' /\ g' <> 1.
Proof.
  induction fuel as [| j IH]; intros r x y q g ys c x' g' ys' Hq Hg E; cbn [rho_search] in E.
  - destruct (Z.eqb_spec g 1); [discriminate |]. injection E as <- <- <-. auto.
  - destruct (Z.eqb_spec g 1); [| injection E as <- <- <-; auto].
    destruct (rho_walk _ y c n) as [y1 |]; [| discriminate].
    destruct (rho_batches (S j) 0 r y y1 q g ys c n) as [[[[y2 q2] g2] ys2] |] eqn:Eb; [| discriminate].
    apply rho_batches_divisor in Eb as [Hq2 Hg2]; [| assumption | assumption]. eapply IH; eassumption.
Qed.
Lemma rho_back_divisor fuel : forall x ys c g, rho_back fuel x ys c n = Some g -> divisor g /\ g <> 1.
Proof.
  induction fuel as [| j IH]; cbn [rho_back]; intros x ys c g E; [discriminate |].
  destruct (rho_step ys c n) as [y1 |]; [| discriminate].
  destruct (gcd (dist x y1) n) as [g1 |] eqn:Eg; [| discriminate]. apply gcd_divisor in Eg; [| apply dist_word].
  destruct (Z.eqb_spec g1 1); [eapply IH; eassumption |]. injection E as <-. auto.
Qed.
Lemma rho_factor fuel g : rho fuel n = Some g -> (g | n) /\ 1 < g < n.
Proof.
  unfold rho. generalize 1 at 1. induction fuel as [| j IH]; cbn [rho_from]; intros c E; [discriminate |].
  destruct (rho_search (S j) 1 2 2 1 1 2 c n) as [[[x g1] ys] |] eqn:Es; [| discriminate].
  apply rho_search_divisor in Es as [D1 N1]; [| unfold fits; lia | split; [apply Z.divide_1_l | lia]].
  assert (B : forall g2, (if g1 =? n then rho_back (S j) x ys c n else Some g1) = Some g2 -> divisor g2 /\ g2 <> 1).
  { intros g2. destruct (g1 =? n); [apply rho_back_divisor | intros [= <-]; auto]. }
  destruct (if g1 =? n then _ else _) as [g2 |]; [| discriminate]. destruct (B g2 eq_refl) as [[D2 P2] N2].
  destruct (Z.eqb_spec g2 n); cbn [negb] in E; [apply (IH _ E) |]. injection E as <-.
  split; [exact D2 |]. apply Z.divide_pos_le in D2; lia.
Qed.
End Rho.

(** ** Factorisation *)

Fixpoint prod (l : list Z) : Z := match l with [] => 1 | x :: l => x * prod l end.
Lemma prod_app l l' : prod (l ++ l') = prod l * prod l'.
Proof. induction l as [| x l IH]; cbn [app prod]; [ring | rewrite IH; ring]. Qed.
Lemma prod_perm l l' : Permutation l l' -> prod l = prod l'.
Proof. induction 1; cbn [prod]; try congruence; ring. Qed.
Lemma prod_divide x l : In x l -> (x | prod l).
Proof. intros Hx. apply in_split in Hx as (l1 & l2 & ->). rewrite prod_app. cbn [prod]. exists (prod l1 * prod l2). ring. Qed.

(** Factors of at least 2 are fewer than their product has bits. *)
Lemma prod_length l : Forall (fun x => 2 <= x) l -> 2 ^ Z.of_nat (length l) <= prod l.
Proof.
  induction 1 as [| x l Hx _ IH]; cbn [prod length]; [lia |].
  rewrite Nat2Z.inj_succ, Z.pow_succ_r by lia. pose proof (Z.pow_pos_nonneg 2 (Z.of_nat (length l))). nia.
Qed.

Lemma factor_loop_sound fuel : forall todo f f', Forall (fun m => 2 <= m < 2 ^ 64) todo ->
  factor_loop fuel todo f = Some f' -> exists g, f' = f ++ g /\ prod g = prod todo /\
    Forall (fun p => 2 <= p /\ is_prime p = Some true) g.
Proof.
  induction fuel as [| j IH]; intros todo f f' W E; destruct todo as [| m todo]; cbn [factor_loop] in E;
    try (injection E as <-; exists []; rewrite app_nil_r; auto); try discriminate.
  inversion W as [| ? ? Hm W']; subst. destruct (is_prime m) as [[] |] eqn:Ep; [| | discriminate].
  - apply IH in E as (g & -> & Pg & Fg); [| exact W']. exists (m :: g). rewrite <- app_assoc.
    split; [reflexivity |]. split; [cbn [prod]; rewrite Pg; reflexivity |]. constructor; [split; [lia | exact Ep] | exact Fg].
  - destruct (rho (S j) m) as [d |] eqn:Er; [| discriminate]. apply rho_factor in Er as [[q Eq] Hd]; [| lia].
    assert (Md : m / d = q) by (rewrite Eq; apply Z.div_mul; lia). rewrite Md in E. assert (2 <= q) by nia.
    apply IH in E as (g & -> & Pg & Fg).
    + exists g. split; [reflexivity |]. split; [| exact Fg]. rewrite Pg. cbn [prod]. rewrite Eq. ring.
    + constructor; [nia |]. constructor; [lia | exact W'].
Qed.

Lemma divide_out_exact fuel : forall p m f, 2 <= p -> 0 < m < 2 ^ Z.of_nat fuel ->
  exists m' k, divide_out fuel p m f = Some (m', f ++ repeat p k) /\ m = m' * prod (repeat p k) /\ 0 < m' /\ ~ (p | m').
Proof.
  induction fuel as [| j IH]; intros p m f Hp Hm; [cbn in Hm; lia |]. cbn [divide_out].
  destruct (Z.eqb_spec (m mod p) 0) as [E | N].
  - apply Z.mod_divide in E as [q ->]; [| lia]. rewrite Z.div_mul by lia. rewrite Nat2Z.inj_succ, Z.pow_succ_r in Hm by lia.
    destruct (IH p q (f ++ [p]) Hp) as (m' & k & -> & -> & Pm & Nd); [nia |]. exists m', (S k). cbn [repeat prod].
    rewrite <- app_assoc. split; [reflexivity |]. split; [ring |]. auto.
  - exists m, O. cbn [repeat prod]. rewrite app_nil_r. split; [reflexivity |]. split; [ring |]. split; [lia |].
    intros D. apply N, Z.mod_divide; [lia | exact D].
Qed.
Lemma trial_exact l : forall m f, Forall (fun p => 2 <= p) l -> 0 < m < 2 ^ 64 ->
  exists m' g, trial l m f = Some (m', f ++ g) /\ m = m' * prod g /\ 0 < m' /\ Forall (fun p => In p l) g /\
    forall p, In p l -> ~ (p | m').
Proof.
  induction l as [| p l IH]; intros m f Fl Hm.
  - exists m, []. cbn [trial prod]. rewrite app_nil_r. split; [reflexivity |]. split; [ring |]. split; [lia |]. split; [constructor | intros p []].
  - inversion Fl as [| ? ? Hp Fl']; subst. destruct (divide_out_exact 64 p m f Hp Hm) as (m1 & k & E1 & Em & P1 & N1).
    cbn [trial]. rewrite E1. cbv iota.
    assert (M1 : 0 < m1 < 2 ^ 64).
    { split; [exact P1 |]. assert (1 <= prod (repeat p k)); [| nia]. clear - Hp. induction k; cbn [repeat prod]; nia. }
    destruct (IH m1 (f ++ repeat p k) Fl' M1) as (m' & g & -> & Eg & P' & Fg & N').
    exists m', (repeat p k ++ g). rewrite <- app_assoc. split; [reflexivity |].
    rewrite prod_app. split; [rewrite Em, Eg; ring |]. split; [exact P' |]. split.
    + apply Forall_app. split; [| revert Fg; apply Forall_impl; intros q Hq; right; exact Hq].
      apply Forall_forall. intros q Hq. apply repeat_spec in Hq. left. auto.
    + intros q [<- | Hq]; [| apply N', Hq]. intros D. apply N1. apply (Z.divide_trans _ m'); [exact D |].
      exists (prod g). rewrite Eg. ring.
Qed.

(** ** Sorting and runs *)

Lemma insert_perm x l : Permutation (insert x l) (x :: l).
Proof.
  induction l as [| y l IH]; cbn [insert]; [reflexivity |]. destruct (_ <=? _); [reflexivity |].
  rewrite IH. apply perm_swap.
Qed.
Lemma qsort_perm l : Permutation (qsort l) l.
Proof. induction l as [| x l IH]; cbn; [reflexivity |]. rewrite insert_perm. constructor. exact IH. Qed.
Lemma insert_sorted x l : StronglySorted Z.le l -> StronglySorted Z.le (insert x l).
Proof.
  induction 1 as [| y l Sl IH Fy]; cbn [insert]; [repeat constructor |]. destruct (Z.leb_spec x y).
  - constructor; [constructor; assumption |]. constructor; [assumption |]. revert Fy. apply Forall_impl. lia.
  - constructor; [exact IH |]. rewrite insert_perm. constructor; [lia | exact Fy].
Qed.
Lemma qsort_sorted l : StronglySorted Z.le (qsort l).
Proof. induction l as [| x l IH]; cbn; [constructor |]. apply insert_sorted, IH. Qed.

(** The factors with their multiplicities. *)
Fixpoint unrun (rs : list (Z * nat)) : list Z :=
  match rs with [] => [] | (p, k) :: rs => repeat p k ++ unrun rs end.
Lemma run_of_spec p l : StronglySorted Z.le l -> Forall (Z.le p) l ->
  let '(k, r) := run_of p l in l = repeat p k ++ r /\ StronglySorted Z.le r /\ Forall (Z.lt p) r /\ (length r <= length l)%nat.
Proof.
  induction l as [| q l IH]; intros Sl Fl; cbn [run_of]; [auto |]. inversion Sl as [| ? ? Sl' Fq]; inversion Fl as [| ? ? Hq Fl']; subst.
  destruct (Z.eqb_spec q p) as [-> | N].
  - destruct (run_of p l) as [k r]. destruct (IH Sl' Fl') as (-> & Sr & Fr & Lr). cbn [repeat app length].
    split; [reflexivity |]. split; [exact Sr |]. split; [exact Fr |]. lia.
  - cbn [repeat app]. split; [reflexivity |]. split; [exact Sl |]. split; [| lia].
    constructor; [lia |]. revert Fq. apply Forall_impl. lia.
Qed.
Lemma runs_spec fuel : forall l, (length l <= fuel)%nat -> StronglySorted Z.le l ->
  unrun (runs fuel l) = l /\ NoDup (map fst (runs fuel l)) /\ forall p, In p (map fst (runs fuel l)) -> In p l.
Proof.
  induction fuel as [| j IH]; intros [| p l] Hl Sl; cbn [runs]; try (cbn in Hl; lia);
    try (split; [reflexivity |]; split; [constructor | intros q []]).
  inversion Sl as [| ? ? Sl' Fp]; subst. pose proof (run_of_spec p l Sl' Fp) as R. destruct (run_of p l) as [k r].
  destruct R as (-> & Sr & Fr & Lr). cbn in Hl. destruct (IH r ltac:(lia) Sr) as (U & N & I).
  cbn [unrun map fst repeat app]. rewrite U. split; [reflexivity |]. split.
  - constructor; [| exact N]. intros Hp. apply I in Hp. rewrite Forall_forall in Fr. specialize (Fr p Hp). lia.
  - intros q [<- | Hq]; [left; reflexivity |]. right. apply in_or_app. right. apply I, Hq.
Qed.

(** ** The expansion *)

(** [l] lists each positive divisor of [N] once. *)
Definition lists_divisors (N : Z) (l : list Z) : Prop := NoDup l /\ forall x, In x l <-> 0 < x /\ (x | N).

Lemma lists_length N l : 0 < N -> lists_divisors N l -> 0 < Z.of_nat (length l) <= N.
Proof.
  intros HN [Nd I]. split.
  - assert (In 1 l) by (apply I; split; [lia | apply Z.divide_1_l]). destruct l; [contradiction | cbn; lia].
  - assert (L : (length l <= length (map Z.of_nat (seq 1 (Z.to_nat N))))%nat).
    { apply NoDup_incl_length; [exact Nd |]. intros x Hx. apply I in Hx as [Px Dx]. apply Z.divide_pos_le in Dx; [| lia].
      apply in_map_iff. exists (Z.to_nat x). split; [lia |]. apply in_seq. lia. }
    rewrite length_map, length_seq in L. lia.
Qed.

(** A divisor of [N * p^(i+1)] that does not divide [N * p^i] has the whole power. *)
Lemma full_power p N i : Z.prime p -> 0 < N -> forall x, (x | N * p ^ Z.of_nat (S i)) -> ~ (x | N * p ^ Z.of_nat i) ->
  exists d, x = d * p ^ Z.of_nat (S i) /\ (d | N).
Proof.
  intros Hp HN. pose proof (Z.prime_ge_2 _ Hp) as P2. induction i as [| i IH]; intros x D Nd.
  - change (Z.of_nat 1) with 1 in *. change (Z.of_nat 0) with 0 in Nd. rewrite Z.pow_1_r in *. rewrite Z.pow_0_r, Z.mul_1_r in Nd.
    destruct (Z.BoolSpec_divide p x) as [[d ->] | Np].
    + exists d. split; [reflexivity |]. destruct D as [q Eq]. exists q. nia.
    + exfalso. apply Nd. rewrite Z.mul_comm in D. apply Z.gauss in D; [exact D |].
      rewrite Z.gcd_comm. apply Z.coprime_prime_l; assumption.
  - destruct (Z.BoolSpec_divide p x) as [[y ->] | Np].
    + assert (C : forall j, N * p ^ Z.of_nat (S j) = N * p ^ Z.of_nat j * p)
        by (intros j; rewrite Nat2Z.inj_succ, Z.pow_succ_r by lia; ring).
      rewrite C in D. apply Z.mul_divide_cancel_r in D; [| lia].
      destruct (IH y D) as (d & -> & Dd).
      * intros Dy. apply Nd. rewrite C. apply Z.mul_divide_cancel_r; [lia | exact Dy].
      * exists d. split; [| exact Dd]. rewrite (Nat2Z.inj_succ (S i)), Z.pow_succ_r by lia. ring.
    + exfalso. apply Nd. rewrite Nat2Z.inj_succ, Z.pow_succ_r, Z.mul_assoc, (Z.mul_comm N p), <- Z.mul_assoc in D by lia.
      apply Z.gauss in D; [exact D |]. rewrite Z.gcd_comm. apply Z.coprime_prime_l; assumption.
Qed.

Lemma divide_pow_bound x N p i : 0 < N -> 0 < p -> (x | N) -> 0 < x -> 0 < x * p ^ Z.of_nat i <= N * p ^ Z.of_nat i.
Proof.
  intros HN Hp D Px. apply Z.divide_pos_le in D; [| exact HN]. pose proof (Z.pow_pos_nonneg p (Z.of_nat i) Hp). nia.
Qed.

(** One more power of [p]. *)
Lemma expand_power p N i base acc : Z.prime p -> 0 < N -> ~ (p | N) -> lists_divisors N base ->
  lists_divisors (N * p ^ Z.of_nat i) acc ->
  lists_divisors (N * p ^ Z.of_nat (S i)) (acc ++ map (fun d => d * p ^ Z.of_nat (S i)) base).
Proof.
  intros Hp HN Np [Nb Ib] [Na Ia]. pose proof (Z.prime_ge_2 _ Hp) as P2.
  pose proof (Z.pow_pos_nonneg p (Z.of_nat (S i)) ltac:(lia) ltac:(lia)) as Pp.
  assert (St : (N * p ^ Z.of_nat i | N * p ^ Z.of_nat (S i)))
    by (rewrite Nat2Z.inj_succ, Z.pow_succ_r by lia; exists p; ring).
  split.
  - apply NoDup_app; [exact Na | apply Injective_map_NoDup; [intros x y E; nia | exact Nb] |].
    intros x Hx Hm. apply in_map_iff in Hm as (d & <- & Hd). apply Ia in Hx as [_ D]. apply Np.
    rewrite Nat2Z.inj_succ, Z.pow_succ_r, Z.mul_assoc in D by lia.
    apply Z.mul_divide_cancel_r in D; [| pose proof (Z.pow_pos_nonneg p (Z.of_nat i)); lia].
    apply (Z.divide_trans _ (d * p)); [exists d; reflexivity | exact D].
  - intros x. rewrite in_app_iff, in_map_iff, Ia. split.
    + intros [[Px D] | (d & <- & Hd)].
      * split; [exact Px | apply (Z.divide_trans _ _ _ D St)].
      * apply Ib in Hd as [Pd Dd]. split; [nia | apply Z.mul_divide_mono_r, Dd].
    + intros [Px D]. destruct (Z.BoolSpec_divide x (N * p ^ Z.of_nat i)) as [| Nx]; [left; auto | right].
      destruct (full_power p N i Hp HN x D Nx) as (d & -> & Dd). exists d. split; [reflexivity |]. apply Ib. split; [nia | exact Dd].
Qed.

Lemma expand_run_exact k : forall p N i base acc, Z.prime p -> 0 < N -> ~ (p | N) -> N * p ^ Z.of_nat (i + k) < 2 ^ 64 ->
  lists_divisors N base -> lists_divisors (N * p ^ Z.of_nat i) acc ->
  let l := expand_run k p (p ^ Z.of_nat i) base acc in
  lists_divisors (N * p ^ Z.of_nat (i + k)) l /\ length l = (length acc + k * length base)%nat.
Proof.
  induction k as [| k IH]; intros p N i base acc Hp HN Np Lt Lb La; cbn [expand_run].
  - rewrite Nat.add_0_r. split; [exact La | lia].
  - pose proof (Z.prime_ge_2 _ Hp) as P2. rewrite Nat.add_succ_r, <- Nat.add_succ_l in *.
    assert (Up : N * p ^ Z.of_nat (S i) < 2 ^ 64).
    { eapply Z.le_lt_trans; [| exact Lt]. apply Z.mul_le_mono_nonneg_l; [lia |]. apply Z.pow_le_mono_r; lia. }
    pose proof (Z.pow_pos_nonneg p (Z.of_nat (S i)) ltac:(lia) ltac:(lia)) as Pp.
    assert (Pk : p ^ Z.of_nat i *w p = p ^ Z.of_nat (S i)).
    { rewrite u64_small; [rewrite Nat2Z.inj_succ, Z.pow_succ_r by lia; ring |].
      rewrite Z.mul_comm, <- Z.pow_succ_r, <- Nat2Z.inj_succ by lia. unfold fits. nia. }
    rewrite Pk.
    assert (Mp : map (fun d => d *w p ^ Z.of_nat (S i)) base = map (fun d => d * p ^ Z.of_nat (S i)) base).
    { apply map_ext_in. intros d Hd. apply Lb in Hd as [Pd Dd]. apply u64_small.
      pose proof (divide_pow_bound d N p (S i) HN ltac:(lia) Dd Pd). unfold fits. lia. }
    rewrite Mp. destruct (IH p N (S i) base (acc ++ map (fun d => d * p ^ Z.of_nat (S i)) base) Hp HN Np Lt Lb
      (expand_power p N i base acc Hp HN Np Lb La)) as [E L].
    split; [exact E |]. rewrite L, length_app, length_map. lia.
Qed.

Lemma prod_repeat p k : prod (repeat p k) = p ^ Z.of_nat k.
Proof.
  induction k as [| k IH]; [reflexivity |]. cbn [repeat prod]. rewrite IH, Nat2Z.inj_succ, Z.pow_succ_r by lia. reflexivity.
Qed.
Lemma prod_pos l : Forall (fun x => 0 < x) l -> 0 < prod l.
Proof. induction 1; cbn [prod]; nia. Qed.

Lemma expand_exact rs : forall N acc count, 0 < N -> lists_divisors N acc -> count = Z.of_nat (length acc) ->
  Forall Z.prime (map fst rs) -> NoDup (map fst rs) -> (forall p, In p (map fst rs) -> ~ (p | N)) ->
  N * prod (unrun rs) < 2 ^ 64 ->
  let l := fold_left (fun divs r => expand_run (snd r) (fst r) 1 divs divs) rs acc in
  lists_divisors (N * prod (unrun rs)) l /\
  fold_left (fun count r => count *w (Z.of_nat (snd r) + 1)) rs count = Z.of_nat (length l).
Proof.
  induction rs as [| [p k] rs IH]; intros N acc count HN La Ec Fp Nd Co Lt; cbn [fold_left unrun prod map fst snd] in *.
  - rewrite Z.mul_1_r. auto.
  - inversion Fp as [| ? ? Hp Fp']; inversion Nd as [| ? ? Ni Nd']; subst count. pose proof (Z.prime_ge_2 _ Hp) as P2.
    assert (Pu : 0 < prod (unrun rs)).
    { apply prod_pos. clear - Fp'. induction rs as [| [q j] rs IH]; cbn [unrun map fst] in *; [constructor |].
      inversion Fp' as [| ? ? Hq Fq]; subst. apply Forall_app. split; [| apply IH, Fq].
      apply Forall_forall. intros z Hz. apply repeat_spec in Hz. subst z. pose proof (Z.prime_ge_2 _ Hq). lia. }
    rewrite prod_app, prod_repeat in *. pose proof (Z.pow_pos_nonneg p (Z.of_nat k) ltac:(lia) ltac:(lia)) as Pk.
    assert (Lk : N * p ^ Z.of_nat k < 2 ^ 64) by nia.
    destruct (expand_run_exact k p N 0 acc acc Hp HN (Co p (or_introl eq_refl)) Lk La) as [Le Ll].
    { cbn. rewrite Z.mul_1_r. exact La. }
    change (p ^ Z.of_nat 0) with 1 in *. cbn [Nat.add] in Le, Ll. set (l1 := expand_run k p 1 acc acc) in *.
    rewrite Z.mul_assoc. apply IH; try assumption; try nia.
    + assert (Len : Z.of_nat (length acc) * (Z.of_nat k + 1) = Z.of_nat (length l1)) by nia.
      rewrite Len. apply u64_small. pose proof (lists_length _ _ (Z.mul_pos_pos _ _ HN Pk) Le). unfold fits. lia.
    + intros q Hq D. pose proof (proj1 (Forall_forall _ _) Fp' q Hq) as Pq. apply Z.divide_prime_mul in D as [D | D]; [| | exact Pq].
      * apply (Co q); [right; exact Hq | exact D].
      * apply Z.divide_prime_pp in D; [subst q; contradiction | assumption | assumption | lia].
Qed.

(** Sorted prime factors give all the divisors, and the count. *)
Lemma expand_factors l : Forall Z.prime l -> StronglySorted Z.le l -> prod l < 2 ^ 64 ->
  let rs := runs (length l) l in
  lists_divisors (prod l) (expand rs) /\ count_divisors rs = Z.of_nat (length (expand rs)).
Proof.
  intros Fp Sl Lt. destruct (runs_spec (length l) l ltac:(lia) Sl) as (U & Nd & I). cbv zeta.
  rewrite <- U at 1. rewrite <- (Z.mul_1_l (prod (unrun _))). apply expand_exact; try reflexivity; try assumption; try lia.
  - split; [repeat constructor; intros [] |]. intros x. cbn. split.
    + intros [<- | []]. split; [lia | apply Z.divide_1_l].
    + intros [Px D]. apply Z.divide_1_r_nonneg in D; lia.
  - apply Forall_forall. intros p Hp. rewrite Forall_forall in Fp. apply Fp, I, Hp.
  - intros p Hp D. pose proof (Z.prime_ge_2 p (proj1 (Forall_forall _ _) Fp p (I p Hp))). apply Z.divide_pos_le in D; lia.
  - rewrite U. lia.
Qed.

Lemma sorted_distinct l : StronglySorted Z.le l -> NoDup l -> StronglySorted Z.lt l.
Proof.
  induction 1 as [| x l Sl IH Fx]; intros Nd; [constructor |]. inversion Nd as [| ? ? Nx Nd']; subst.
  constructor; [apply IH, Nd' |]. apply Forall_forall. intros y Hy. rewrite Forall_forall in Fx. specialize (Fx y Hy).
  assert (x <> y) by (intros ->; contradiction). lia.
Qed.
Lemma lists_perm N l l' : Permutation l l' -> lists_divisors N l -> lists_divisors N l'.
Proof.
  intros P [Nd I]. split; [apply (Permutation_NoDup P Nd) |]. intros x. rewrite <- I.
  split; apply Permutation_in; [symmetry |]; exact P.
Qed.

(** ** [dvs_divisors] *)

(** The cache holds the divisors of its number, ascending. *)
Definition cache_ok (d : divisors) : Prop :=
  d_divs d <> [] -> 0 < d_n d < 2 ^ 64 /\ lists_divisors (d_n d) (d_divs d) /\ StronglySorted Z.lt (d_divs d) /\
    n_divs d <= d_cap d.
(** The prime factors of [n] but at most one are among the small primes. *)
Definition nearly_smooth (n : Z) : Prop :=
  exists l p, Forall (fun q => In q small_primes) l /\ n = prod l * p /\ (p = 1 \/ Z.prime p).
(** The bases of the test suffice for the divisors of [n]. *)
Definition bases_suffice (n : Z) : Prop := forall q, (q | n) -> is_prime q = Some true -> Z.prime q.

Lemma small_primes_prime : Forall Z.prime small_primes.
Proof. repeat (constructor; [apply prime_check_spec; reflexivity |]). constructor. Qed.
Lemma small_primes_ge : Forall (fun p => 2 <= p) small_primes.
Proof. repeat (constructor; [lia |]). constructor. Qed.

(** What trial division leaves of such a number is 1 or a prime. *)
Lemma smooth_rest n m g : nearly_smooth n -> n = m * prod g -> 0 < m -> (forall p, In p small_primes -> ~ (p | m)) ->
  m = 1 \/ Z.prime m.
Proof.
  intros (l & p & Fl & En & Hp) Em Pm Nd. assert (D : (m | p)).
  { assert (D : (m | prod l * p)) by (exists (prod g); lia). clear En Em g. induction l as [| q l IH]; cbn [prod] in D.
    - rewrite Z.mul_1_l in D. exact D.
    - inversion Fl as [| ? ? Hq Fl']; subst. apply (IH Fl'). rewrite <- Z.mul_assoc in D. apply Z.gauss in D; [exact D |].
      rewrite Z.gcd_comm. apply Z.coprime_prime_l; [| apply Nd, Hq].
      apply (proj1 (Forall_forall _ _) small_primes_prime q Hq). }
  destruct Hp as [-> | Hp]; [left; apply Z.divide_1_r_nonneg in D; lia |].
  apply Z.divide_prime_r in D; [| exact Hp]. pose proof (Z.prime_ge_2 _ Hp).
  destruct D as [-> | [-> | [-> | ->]]]; auto; lia.
Qed.

Lemma small_prime_ge q : In q small_primes -> 2 <= q.
Proof. intros Hq. exact (proj1 (Forall_forall _ _) small_primes_ge q Hq). Qed.
Lemma small_prod_pos f : Forall (fun q => In q small_primes) f -> 0 < prod f.
Proof. intros Ff. apply prod_pos. revert Ff. apply Forall_impl. intros q Hq. apply small_prime_ge in Hq. lia. Qed.

(** The factors the code finds. *)
Lemma factors_found fuel n m f g : 0 < n < 2 ^ 64 -> trial small_primes n [] = Some (m, f) -> factor fuel m f = Some g ->
  nearly_smooth n \/ bases_suffice n -> prod g = n /\ Forall Z.prime g.
Proof.
  intros Hn Et Ef Hyp. destruct (trial_exact small_primes n [] small_primes_ge Hn) as (m' & f' & Et' & En & Pm & Ff & Nd).
  rewrite Et' in Et. injection Et as -> <-. cbn [app] in Ef. unfold factor in Ef.
  apply factor_loop_sound in Ef as (h & -> & Ph & Fh).
  2: { destruct (Z.gtb_spec m 1); [| constructor]. constructor; [| constructor].
    pose proof (small_prod_pos f' Ff). nia. }
  assert (Pm1 : prod h = m) by (rewrite Ph; destruct (Z.gtb_spec m 1); cbn [prod]; lia).
  rewrite prod_app. split; [rewrite Pm1, En; ring |]. apply Forall_app. split.
  { revert Ff. apply Forall_impl. intros q Hq. apply (proj1 (Forall_forall _ _) small_primes_prime q Hq). }
  apply Forall_forall. intros q Hq. pose proof (proj1 (Forall_forall _ _) Fh q Hq) as [Q2 Qp].
  assert (Dm : (q | m)) by (rewrite <- Pm1; apply prod_divide, Hq). destruct Hyp as [Sm | Bs].
  - destruct (smooth_rest n m f' Sm En Pm Nd) as [-> | Hp].
    + exfalso. apply Z.divide_1_r_nonneg in Dm; lia.
    + apply Z.divide_prime_r in Dm; [| exact Hp]. pose proof (Z.prime_ge_2 _ Hp).
      destruct Dm as [-> | [-> | [-> | ->]]]; try lia. exact Hp.
  - apply Bs; [| exact Qp]. apply (Z.divide_trans _ m); [exact Dm |]. exists (prod f'). rewrite En. ring.
Qed.

(** One call: a refusal, with its reason, or the divisors. *)
Definition divisors_result (room : Z -> bool) (n max r : Z) (d' : divisors) : Prop :=
  exists l, lists_divisors n l /\ StronglySorted Z.lt l /\
    if r =? 0 then d_divs d' = [] /\ (max < Z.of_nat (length l) \/ room (Z.of_nat (length l) * 8) = false)
    else d_n d' = n /\ d_divs d' = l /\ r = Z.of_nat (length l).

Lemma divisors_call fuel room d n max r d' : cache_ok d -> 0 < n < 2 ^ 64 -> fits 32 max ->
  nearly_smooth n \/ bases_suffice n -> dvs_divisors fuel room d n max = Some (r, d') ->
  cache_ok d' /\ divisors_result room n max r d'.
Proof.
  intros Ok Hn Hm Hyp. unfold dvs_divisors. destruct (Z.eqb_spec n 0); [lia |].
  destruct ((d_n d =? n) && negb (n_divs d =? 0)) eqn:Ec.
  - intros [= <- <-]. split; [exact Ok |]. assert (N0 : d_divs d <> []) by (intros E; unfold n_divs in Ec; rewrite E in Ec; cbn in Ec; lia).
    destruct (Ok N0) as (_ & L & So & _). replace (d_n d) with n in L by lia. exists (d_divs d).
    split; [exact L |]. split; [exact So |]. replace (n_divs d =? 0) with false by lia. split; [lia | auto].
  - destruct (trial small_primes n []) as [[m f] |] eqn:Et; [| discriminate].
    destruct (factor fuel m f) as [g |] eqn:Ef; [| discriminate].
    destruct (factors_found fuel n m f g Hn Et Ef Hyp) as [Pg Fg]. cbv zeta. cbn [d_cap].
    pose proof (qsort_perm g) as Pq. pose proof (prod_perm _ _ Pq) as Pp.
    destruct (expand_factors (qsort g)) as [L Cn]; [rewrite Pq; exact Fg | apply qsort_sorted | lia |]. cbv zeta in L, Cn.
    rewrite Pp, Pg in L. set (rs := runs _ (qsort g)) in *. rewrite Cn.
    pose proof (lists_perm _ _ _ (Permutation_sym (qsort_perm (expand rs))) L) as L'.
    assert (So : StronglySorted Z.lt (qsort (expand rs))) by (apply sorted_distinct; [apply qsort_sorted | apply L']).
    assert (Ln : length (qsort (expand rs)) = length (expand rs)) by (apply Permutation_length, qsort_perm).
    pose proof (lists_length n _ ltac:(lia) L) as Lp. set (k := Z.of_nat (length (expand rs))) in *.
    assert (Rf : forall d0, d_divs d0 = [] -> (max < k \/ room (k * 8) = false) -> cache_ok d0 /\ divisors_result room n max 0 d0).
    { intros d0 E0 Why. split; [intros X; contradiction |]. exists (qsort (expand rs)).
      split; [exact L' |]. split; [exact So |]. rewrite Z.eqb_refl, Ln. fold k. auto. }
    destruct (Z.gtb_spec k max); [intros [= <- <-]; apply Rf; [reflexivity | left; lia] |].
    destruct ((k >? d_cap d) && negb (room (k * 8))) eqn:Er.
    { intros [= <- <-]. apply Rf; [reflexivity |]. right. destruct (room _); [lia | reflexivity]. }
    intros [= <- <-]. unfold n_divs. cbn [d_divs]. rewrite Ln. fold k. split.
    + intros _. cbn [d_n d_divs d_cap]. split; [exact Hn |]. split; [exact L' |]. split; [exact So |].
      unfold n_divs. cbn [d_divs]. rewrite Ln. fold k. destruct (Z.gtb_spec k (d_cap d)); [| lia].
      unfold fits in Hm. unfold u32. rewrite Z.mod_small; lia.
    + exists (qsort (expand rs)). split; [exact L' |]. split; [exact So |]. replace (k =? 0) with false by lia.
      cbn [d_n d_divs]. rewrite Ln. auto.
Qed.

(** It answers where rho has nothing to do. *)
Lemma divisors_answers fuel room d n max : 0 < n < 2 ^ 64 -> nearly_smooth n -> (1 <= fuel)%nat ->
  exists r d', dvs_divisors fuel room d n max = Some (r, d').
Proof.
  intros Hn Sm Hf. unfold dvs_divisors. destruct (n =? 0); [eauto |]. destruct (_ && _); [eauto |].
  destruct (trial_exact small_primes n [] small_primes_ge Hn) as (m & f & -> & En & Pm & Ff & Nd). cbn [app].
  pose proof (small_prod_pos f Ff). assert (Mn : m <= n) by nia.
  assert (E : exists g, factor fuel m f = Some g).
  { unfold factor. destruct fuel as [| j]; [lia |]. destruct (smooth_rest n m f Sm En Pm Nd) as [-> | Hp]; [cbn; eauto |].
    pose proof (Z.prime_ge_2 _ Hp). replace (m >? 1) with true by lia. cbn [factor_loop].
    rewrite (is_prime_accepts m) by (unfold fits; auto; lia). destruct j; cbn; eauto. }
  destruct E as [g ->]. cbv zeta. destruct (_ >? max); [eauto |]. destruct (_ && _); eauto.
Qed.

(** A cached number is answered whatever the limit, though the header has the
    call answer 0 above it. *)
Lemma cache_ignores_limit :
  exists d, dvs_divisors 1 (fun _ => true) (mk_divisors 0 [] 0) 360 1000 = Some (24, d) /\
    option_map fst (dvs_divisors 1 (fun _ => true) d 360 10) = Some 24.
Proof. eexists. split; vm_compute; reflexivity. Qed.

(** ** The searches *)

(** [below] holds of a prefix of the list, of this length. *)
Definition prefix_length (below : Z -> bool) (l : list Z) : Z := Z.of_nat (length (filter below l)).
Definition downward (below : Z -> bool) : Prop := forall x y, x <= y -> below y = true -> below x = true.

Lemma prefix_nth below l : downward below -> StronglySorted Z.lt l -> forall i, (i < length l)%nat ->
  below (nth i l 0) = (Z.of_nat i <? prefix_length below l).
Proof.
  intros Dw Sl. unfold prefix_length. induction Sl as [| x l Sl IH Fx]; intros i Hi; cbn [length] in Hi; [lia |].
  cbn [filter]. destruct (below x) eqn:Bx.
  - cbn [length]. destruct i as [| i]; cbn [nth]; [rewrite Bx; lia |]. rewrite IH by lia. lia.
  - assert (E : filter below l = []).
    { clear IH Sl Hi. induction Fx as [| y l Hy _ IH]; [reflexivity |]. cbn [filter]. destruct (below y) eqn:By; [| exact IH].
      rewrite (Dw x y) in Bx; [discriminate | lia | exact By]. }
    rewrite E. cbn [length]. destruct i as [| i]; cbn [nth]; [rewrite Bx; lia |].
    rewrite Forall_forall in Fx. assert (Li : (i < length l)%nat) by lia. specialize (Fx _ (nth_In l 0 Li)).
    destruct (below (nth i l 0)) eqn:By; [| lia]. rewrite (Dw x (nth i l 0)) in Bx; [discriminate | lia | exact By].
Qed.

Lemma bisect_exact fuel below l : downward below -> StronglySorted Z.lt l -> forall lo hi,
  0 <= lo <= prefix_length below l -> prefix_length below l <= hi <= Z.of_nat (length l) -> hi - lo < 2 ^ Z.of_nat fuel ->
  bisect fuel below l lo hi = Some (prefix_length below l).
Proof.
  intros Dw Sl. induction fuel as [| j IH]; intros lo hi Hlo Hhi Hf; cbn [bisect]; destruct (Z.ltb_spec lo hi);
    try (f_equal; lia).
  rewrite Nat2Z.inj_succ, Z.pow_succ_r in Hf by lia. set (mid := lo + (hi - lo) / 2).
    assert (M : lo <= mid < hi /\ mid - lo < 2 ^ Z.of_nat j /\ hi - (mid + 1) < 2 ^ Z.of_nat j)
      by (unfold mid; Z.div_mod_to_equations; lia).
    rewrite (prefix_nth below l Dw Sl) by lia. rewrite Z2Nat.id by lia.
    destruct (Z.ltb_spec mid (prefix_length below l)); apply IH; lia.
Qed.
Lemma prefix_bound below l : 0 <= prefix_length below l <= Z.of_nat (length l).
Proof. unfold prefix_length. pose proof (filter_length_le below l). lia. Qed.

(** ** The properties *)

(** C18: The divisor list is right.  For a number whose prime factors above 47
    are at most one, or for whose divisors the twelve Miller-Rabin bases suffice,
    a call of [dvs_divisors] that answers keeps the cache right and either
    refuses, because there are more divisors than the limit or no memory for
    them, or gives all of them, each once and ascending, within the capacity of
    the array; for a number of the first kind it always answers. *)
Theorem divisors_exact fuel room d n max : cache_ok d -> 0 < n < 2 ^ 64 -> fits 32 max ->
  (nearly_smooth n \/ bases_suffice n ->
    forall r d', dvs_divisors fuel room d n max = Some (r, d') -> cache_ok d' /\ divisors_result room n max r d') /\
  (nearly_smooth n -> (1 <= fuel)%nat -> exists r d', dvs_divisors fuel room d n max = Some (r, d')).
Proof.
  intros Ok Hn Hm. split; [intros Hyp r d'; apply divisors_call; assumption | apply divisors_answers; assumption].
Qed.

(** 360 * 53: 24 times 2 divisors, refused for a limit of 10. *)
Lemma divisors_exact_witness :
  (exists d, dvs_divisors 1 (fun _ => true) (mk_divisors 0 [] 0) (360 * 53) 1000 = Some (48, d) /\ lists_divisors (360 * 53) (d_divs d)) /\
  option_map fst (dvs_divisors 1 (fun _ => true) (mk_divisors 0 [] 0) (360 * 53) 10) = Some 0.
Proof.
  assert (Sm : nearly_smooth (360 * 53)).
  { exists [2; 2; 2; 3; 3; 5], 53. split; [repeat constructor; cbn; tauto |]. split; [reflexivity |]. right.
    apply prime_check_spec. reflexivity. }
  split; [| vm_compute; reflexivity].
  destruct (divisors_exact 1 (fun _ => true) (mk_divisors 0 [] 0) (360 * 53) 1000) as [X A];
    [intros N; contradiction | lia | unfold fits; lia |].
  destruct (A Sm (le_n 1)) as (r & d' & E). destruct (X (or_introl Sm) r d' E) as (_ & l & L & _ & R).
  assert (F : option_map fst (dvs_divisors 1 (fun _ => true) (mk_divisors 0 [] 0) (360 * 53) 1000) = Some 48)
    by (vm_compute; reflexivity).
  rewrite E in F. injection F as F. cbn [fst] in F. subst r. exists d'. split; [exact E |].
  destruct R as (_ & -> & _). exact L.
Defined.

(** In an ascending list of divisors the searches find the positions: the
    number of divisors below [x], and of those at most [x]. *)
Lemma divisor_search_exact d x : StronglySorted Z.lt (d_divs d) -> n_divs d < 2 ^ 32 ->
  dvs_divisors_lower d x = Some (Z.of_nat (length (filter (fun v => v <? x) (d_divs d)))) /\
  dvs_divisors_upper d x = Some (Z.of_nat (length (filter (fun v => v <=? x) (d_divs d)))).
Proof.
  intros So Ln. unfold dvs_divisors_lower, dvs_divisors_upper, n_divs in *.
  split; apply bisect_exact; try assumption; try (intros y z; lia);
    match goal with |- context [prefix_length ?b ?l] => pose proof (prefix_bound b l); lia | |- _ => cbn; lia end.
Qed.

End Divisors.
