(* ===== verification/Bvdom.v ===== *)
(** * Bvdom: the three-valued bit-vector domain (src/src/c/dvs_bvdom.c) *)

From Stdlib Require Import ZArith Lia Bool Btauto List Ascii.
From S2P Require Import Prelude.
Import ListNotations.
Open Scope Z_scope.
Open Scope word_scope.

Module Dom.

(** [dvs_bvdom_t]: a bit set in [lo] is fixed to 1, a bit clear in [hi] is
    fixed to 0. *)
Record bvdom := mk_bvdom { lo : Z; hi : Z; width : Z }.

Definition bvdom_mask (width : Z) : Z :=
  if width >=? 64 then ~w 0 else (1 <<w width) -w 1.

(** ** Initialisation *)

Definition init_unknown (w : Z) : bvdom := mk_bvdom 0 (bvdom_mask w) w.

Definition init_value (w v : Z) : bvdom :=
  let m := bvdom_mask w in mk_bvdom (v &w m) (v &w m) w.

Definition init_lohi (w lo hi : Z) : bvdom :=
  let m := bvdom_mask w in mk_bvdom (lo &w m) (hi &w m) w.

(** The scan of [init_from_range_u] for the highest set bit of [diff], from
    bit [n - 1] down; -1 when there is none. *)
Fixpoint first_diff_scan (diff : Z) (n : nat) : Z :=
  match n with
  | O => -1
  | S i => if negb (diff &w (1 <<w Z.of_nat i) =? 0) then Z.of_nat i
           else first_diff_scan diff i
  end.

(** Returns the status code with the domain. *)
Definition init_from_range_u (w lo_val hi_val : Z) : Z * bvdom :=
  let m := bvdom_mask w in
  let lo_val := lo_val &w m in
  let hi_val := hi_val &w m in
  if lo_val >? hi_val then (-1, init_unknown w) else
  let diff := lo_val ^w hi_val in
  let first_diff := first_diff_scan diff (Z.to_nat w) in
  if first_diff <? 0 then (0, init_value w lo_val) else
  let below_mask := (1 <<w first_diff) |w ((1 <<w first_diff) -w 1) in
  let fixed_mask := m &w ~w below_mask in
  let fixed_val := lo_val &w fixed_mask in
  (0, mk_bvdom fixed_val (fixed_val |w below_mask) w).

(** ** Predicates *)

Definition is_valid (d : bvdom) : bool :=
  let m := bvdom_mask (width d) in (lo d &w ~w hi d) &w m =? 0.

Definition is_fixed (d : bvdom) : bool :=
  let m := bvdom_mask (width d) in (lo d &w m) =? (hi d &w m).

Definition has_fixed_bits (d : bvdom) : bool :=
  let m := bvdom_mask (width d) in
  let fixed := ~w (lo d ^w hi d) &w m in negb (fixed =? 0).

Definition has_fixed_bits_true (d : bvdom) : bool :=
  let m := bvdom_mask (width d) in negb ((lo d &w hi d) &w m =? 0).

Definition has_fixed_bits_false (d : bvdom) : bool :=
  let m := bvdom_mask (width d) in negb ((~w lo d &w ~w hi d) &w m =? 0).

(** [(x & b) != 0] *)
Definition bit_on (x b : Z) : bool := negb (x &w b =? 0).

Definition is_fixed_bit (d : bvdom) (idx : Z) : bool :=
  if idx >=? width d then false else
  let b := 1 <<w idx in Bool.eqb (bit_on (lo d) b) (bit_on (hi d) b).

Definition is_fixed_bit_true (d : bvdom) (idx : Z) : bool :=
  if idx >=? width d then false else
  let b := 1 <<w idx in bit_on (lo d) b && bit_on (hi d) b.

Definition is_fixed_bit_false (d : bvdom) (idx : Z) : bool :=
  if idx >=? width d then false else
  let b := 1 <<w idx in negb (bit_on (lo d) b) && negb (bit_on (hi d) b).

Definition fix_bit (d : bvdom) (idx : Z) (v : bool) : bvdom :=
  if idx >=? width d then d else
  let b := 1 <<w idx in
  if v then mk_bvdom (lo d |w b) (hi d |w b) (width d)
  else mk_bvdom (lo d &w ~w b) (hi d &w ~w b) (width d).

Definition fix_value (d : bvdom) (v : Z) : bvdom :=
  let m := bvdom_mask (width d) in mk_bvdom (v &w m) (v &w m) (width d).

Definition matches (d : bvdom) (v : Z) : bool :=
  let m := bvdom_mask (width d) in
  let fixed := ~w (lo d ^w hi d) &w m in
  (fixed &w lo d) =? (fixed &w v &w m).

Definition copy_with_fixed_bits (d : bvdom) (v : Z) : Z :=
  let m := bvdom_mask (width d) in
  let fixed := ~w (lo d ^w hi d) &w m in
  ((v &w ~w fixed) |w (lo d &w fixed)) &w m.

Definition bvdom_eq (a b : bvdom) : bool :=
  if negb (width a =? width b) then false else
  let m := bvdom_mask (width a) in
  ((lo a &w m) =? (lo b &w m)) && ((hi a &w m) =? (hi b &w m)).

Definition meet (a b : bvdom) : bvdom :=
  let m := bvdom_mask (width a) in
  mk_bvdom ((lo a |w lo b) &w m) ((hi a &w hi b) &w m) (width a).

(** ** Transfer functions *)

Definition bvnot (a : bvdom) : bvdom :=
  let m := bvdom_mask (width a) in
  mk_bvdom (~w hi a &w m) (~w lo a &w m) (width a).

Definition bvand (a b : bvdom) : bvdom :=
  let m := bvdom_mask (width a) in
  mk_bvdom ((lo a &w lo b) &w m) ((hi a &w hi b) &w m) (width a).

Definition bvor (a b : bvdom) : bvdom :=
  let m := bvdom_mask (width a) in
  mk_bvdom ((lo a |w lo b) &w m) ((hi a |w hi b) &w m) (width a).

Definition bvxor (a b : bvdom) : bvdom :=
  let m := bvdom_mask (width a) in
  let fa := ~w (lo a ^w hi a) &w m in
  let fb := ~w (lo b ^w hi b) &w m in
  let fr := fa &w fb in
  let val := (lo a ^w lo b) &w m in
  mk_bvdom (val &w fr) ((val &w fr) |w (~w fr &w m)) (width a).

Definition bvshl_const (a : bvdom) (n : Z) : bvdom :=
  let m := bvdom_mask (width a) in
  if n >=? width a then mk_bvdom 0 0 (width a)
  else mk_bvdom ((lo a <<w n) &w m) ((hi a <<w n) &w m) (width a).

Definition bvshr_const (a : bvdom) (n : Z) : bvdom :=
  let m := bvdom_mask (width a) in
  if n >=? width a then mk_bvdom 0 0 (width a)
  else mk_bvdom ((lo a &w m) >>w n) ((hi a &w m) >>w n) (width a).

(** [None]: undefined, the shift [m << (a->width - n)] is by 64. *)
Definition bvashr_const (a : bvdom) (n : Z) : option bvdom :=
  let m := bvdom_mask (width a) in
  if width a =? 0 then Some (mk_bvdom 0 0 (width a)) else
  let msb := u8 (width a - 1) in
  let mb := 1 <<w msb in
  let msb_lo := bit_on (lo a) mb in
  let msb_hi := bit_on (hi a) mb in
  if n >=? width a then
    Some (if Bool.eqb msb_lo msb_hi
          then mk_bvdom (if msb_lo then m else 0) (if msb_lo then m else 0) (width a)
          else mk_bvdom 0 m (width a))
  else if width a - n >=? 64 then None else
  let lo_shifted := (lo a &w m) >>w n in
  let hi_shifted := (hi a &w m) >>w n in
  let top_mask := (m <<w (width a - n)) &w m in
  Some (if msb_lo && msb_hi then
    mk_bvdom ((lo_shifted |w top_mask) &w m) ((hi_shifted |w top_mask) &w m) (width a)
  else if negb msb_lo && negb msb_hi then
    mk_bvdom lo_shifted hi_shifted (width a)
  else mk_bvdom (lo_shifted &w ~w top_mask) (hi_shifted |w top_mask) (width a)).

Definition bvconcat (a b : bvdom) : bvdom :=
  let w := u8 (width a + width b) in
  let mb := bvdom_mask (width b) in
  mk_bvdom (((lo a &w bvdom_mask (width a)) <<w width b) |w (lo b &w mb))
           (((hi a &w bvdom_mask (width a)) <<w width b) |w (hi b &w mb)) w.

Definition bvextract (a : bvdom) (hi_bit lo_bit : Z) : bvdom :=
  let w := u8 (hi_bit - lo_bit + 1) in
  let m := bvdom_mask w in
  mk_bvdom ((lo a >>w lo_bit) &w m) ((hi a >>w lo_bit) &w m) w.

Definition zero_ext (a : bvdom) (n : Z) : bvdom :=
  let w := u8 (width a + n) in
  let am := bvdom_mask (width a) in
  mk_bvdom (lo a &w am) (hi a &w am) w.

Definition sign_ext (a : bvdom) (n : Z) : bvdom :=
  let w := u8 (width a + n) in
  let am := bvdom_mask (width a) in
  if n =? 0 then mk_bvdom (lo a &w am) (hi a &w am) w else
  let msb := u8 (width a - 1) in
  let mb := 1 <<w msb in
  let msb_lo := bit_on (lo a) mb in
  let msb_hi := bit_on (hi a) mb in
  let top_mask := bvdom_mask w &w ~w am in
  if msb_lo && msb_hi then
    mk_bvdom ((lo a &w am) |w top_mask) ((hi a &w am) |w top_mask) w
  else if negb msb_lo && negb msb_hi then mk_bvdom (lo a &w am) (hi a &w am) w
  else mk_bvdom (lo a &w am) ((hi a &w am) |w top_mask) w.

(** [dvs_bvdom_to_str]: the characters written before the terminator, at most
    [cap - 1] of them, MSB first.  [None] when [cap] is 0 (nothing is written,
    not even the terminator). *)
Definition bit_char (d : bvdom) (i : Z) : ascii :=
  let b := 1 <<w i in
  let l := bit_on (lo d) b in
  let h := bit_on (hi d) b in
  (if l && negb h then "i" else if l && h then "1"
   else if negb l && h then "x" else "0")%char.

Fixpoint to_str_loop (d : bvdom) (n room : nat) : list ascii :=
  match n, room with
  | S i, S r => bit_char d (Z.of_nat i) :: to_str_loop d i r
  | _, _ => []
  end.

Definition to_str (d : bvdom) (cap : nat) : option (list ascii) :=
  match cap with
  | O => None
  | S room => Some (to_str_loop d (Z.to_nat (width d)) room)
  end.

(** ** Concretisation *)

(** The values a domain allows. *)
Definition mem (v : Z) (d : bvdom) : Prop :=
  fits (width d) v /\
  forall i, 0 <= i < width d ->
    (Z.testbit (lo d) i = true -> Z.testbit v i = true) /\
    (Z.testbit v i = true -> Z.testbit (hi d) i = true).

(** The header's invariant: width 1..64, nothing above the width. *)
Definition wf (d : bvdom) : Prop :=
  1 <= width d <= 64 /\ fits (width d) (lo d) /\ fits (width d) (hi d).

(** [wf] and no bit fixed both ways. *)
Definition ok (d : bvdom) : Prop := wf d /\ is_valid d = true.

(** ** Masks and bits *)

Lemma mask_ones w : 0 <= w <= 64 -> bvdom_mask w = Z.ones w.
Proof.
  intros Hw. unfold bvdom_mask.
  destruct (Z.geb_spec w 64).
  - replace w with 64 by lia. reflexivity.
  - rewrite Z.ones_equiv, <- Z.sub_1_r, Z.shiftl_1_l.
    pose proof (Z.pow_pos_nonneg 2 w). pose proof (Z.pow_lt_mono_r 2 w 64).
    rewrite (u64_small (2 ^ w)) by (unfold fits; lia).
    apply u64_small. unfold fits. lia.
Qed.

Lemma bit_on_spec x i : 0 <= i < 64 -> bit_on x (1 <<w i) = Z.testbit x i.
Proof.
  intros Hi. unfold bit_on.
  destruct (Z.testbit x i) eqn:E; destruct (Z.eqb_spec (x &w (1 <<w i)) 0) as [H | H];
    auto.
  - apply (f_equal (fun z => Z.testbit z i)) in H. revert H. wordbits.
    rewrite E. split_cmp. discriminate.
  - destruct H. apply Z.bits_inj'. intros j Hj. wordbits.
    destruct (Z.eq_dec j i); [subst; rewrite E | ]; split_cmp; cbn; btauto.
Qed.

Lemma is_valid_spec d : 
  0 <= width d <= 64 ->
  is_valid d = true <->
  forall i, 0 <= i < width d -> Z.testbit (lo d) i = true -> Z.testbit (hi d) i = true.
Proof.
  intros Hw. unfold is_valid. rewrite mask_ones, Z.eqb_eq by lia. split.
  - intros H i Hi Hl. apply (f_equal (fun z => Z.testbit z i)) in H. revert H.
    wordbits. rewrite Hl. split_cmp. cbn. destruct (Z.testbit (hi d) i); auto.
  - intros H. apply Z.bits_inj'. intros i Hi. wordbits. specialize (H i).
    split_cmp; cbn; try btauto.
    destruct (Z.testbit (lo d) i), (Z.testbit (hi d) i); cbn; intuition congruence.
Qed.

(** ** Membership *)

Lemma mem_intro d v :
  0 <= width d -> fits (width d) v ->
  (forall i, 0 <= i < width d -> Z.testbit (lo d) i = true -> Z.testbit v i = true) ->
  (forall i, 0 <= i < width d -> Z.testbit v i = true -> Z.testbit (hi d) i = true) ->
  mem v d.
Proof. intros. split; [| split]; auto. Qed.

Lemma ok_lo d : ok d -> mem (lo d) d.
Proof.
  intros [[Hw [Hl Hh]] V]. rewrite is_valid_spec in V by lia.
  apply mem_intro; auto; lia.
Qed.

Lemma ok_hi d : ok d -> mem (hi d) d.
Proof.
  intros [[Hw [Hl Hh]] V]. rewrite is_valid_spec in V by lia.
  apply mem_intro; auto; lia.
Qed.

Lemma mem_valid d v : 0 <= width d <= 64 -> mem v d -> is_valid d = true.
Proof.
  intros Hw [_ H]. apply is_valid_spec; [lia |]. intros i Hi Hl.
  apply H; [lia |]. apply H; [lia | exact Hl].
Qed.

(** [f] maps every member of [a] into [r], and no domain of [r]'s width that
    does so is smaller than [r]: [r] is the best abstraction of the image. *)
Definition best1 (f : Z -> Z) (a r : bvdom) : Prop :=
  ok r /\
  (forall v, mem v a -> mem (f v) r) /\
  (forall d, width d = width r -> (forall v, mem v a -> mem (f v) d) ->
     forall x, mem x r -> mem x d).

Definition best2 (f : Z -> Z -> Z) (a b r : bvdom) : Prop :=
  ok r /\
  (forall v u, mem v a -> mem u b -> mem (f v u) r) /\
  (forall d, width d = width r -> (forall v u, mem v a -> mem u b -> mem (f v u) d) ->
     forall x, mem x r -> mem x d).

(** A set of values hits both values of every bit [r] leaves open, and the
    value of every bit [r] fixes: then [r] is below every domain that holds
    the set. *)
Lemma smallest (P : Z -> Prop) r d :
  wf r -> width d = width r -> (forall v, P v -> mem v d) ->
  (forall i, 0 <= i < width r -> Z.testbit (lo r) i = false ->
     exists v, P v /\ Z.testbit v i = false) ->
  (forall i, 0 <= i < width r -> Z.testbit (hi r) i = true ->
     exists v, P v /\ Z.testbit v i = true) ->
  forall x, mem x r -> mem x d.
Proof.
  intros Hr Hw Hd H0 H1 x [Hx Hm]. destruct Hr as [Hwr _].
  apply mem_intro; rewrite Hw; auto; [lia | |]; intros i Hi E.
  - destruct (Z.testbit (lo r) i) eqn:L; [apply Hm; auto |].
    destruct (H0 i Hi L) as [v [Pv Ev]]. destruct (Hd v Pv) as [_ Hv].
    rewrite Hw in Hv. apply Hv in E; [congruence | auto].
  - destruct (H1 i Hi) as [v [Pv Ev]]; [apply Hm; auto |].
    destruct (Hd v Pv) as [_ Hv]. rewrite Hw in Hv. apply Hv; auto.
Qed.

(** For an operation whose image of [lo a] is [lo r] and of [hi a] is [hi r]
    (or crosswise) soundness is enough. *)
Lemma best1_intro f a r :
  ok a -> wf r -> (forall v, mem v a -> mem (f v) r) ->
  (f (lo a) = lo r /\ f (hi a) = hi r) \/ (f (lo a) = hi r /\ f (hi a) = lo r) ->
  best1 f a r.
Proof.
  intros Ha Hr Hs E. pose proof (ok_lo a Ha) as Hl. pose proof (ok_hi a Ha) as Hh.
  split; [| split; [exact Hs |]].
  - split; [exact Hr |]. apply (mem_valid _ (f (lo a))); auto. destruct Hr. lia.
  - intros d Hd Hm. apply (smallest (fun y => exists v, mem v a /\ y = f v)); auto.
    + intros y [v [Hv ->]]. auto.
    + intros i Hi L. destruct E as [[E1 E2] | [E1 E2]].
      * exists (f (lo a)). rewrite E1. eauto.
      * exists (f (hi a)). rewrite E2. eauto.
    + intros i Hi L. destruct E as [[E1 E2] | [E1 E2]].
      * exists (f (hi a)). rewrite E2. eauto.
      * exists (f (lo a)). rewrite E1. eauto.
Qed.

Lemma best2_intro f a b r :
  ok a -> ok b -> wf r -> (forall v u, mem v a -> mem u b -> mem (f v u) r) ->
  f (lo a) (lo b) = lo r -> f (hi a) (hi b) = hi r -> best2 f a b r.
Proof.
  intros Ha Hb Hr Hs E1 E2.
  pose proof (ok_lo a Ha). pose proof (ok_hi a Ha).
  pose proof (ok_lo b Hb). pose proof (ok_hi b Hb).
  split; [| split; [exact Hs |]].
  - split; [exact Hr |]. apply (mem_valid _ (f (lo a) (lo b))); auto. destruct Hr. lia.
  - intros d Hd Hm.
    apply (smallest (fun y => exists v u, mem v a /\ mem u b /\ y = f v u)); auto.
    + intros y (v & u & Hv & Hu & ->). auto.
    + intros i Hi L. exists (f (lo a) (lo b)). rewrite E1. split; [| exact L].
      rewrite <- E1. eauto 6.
    + intros i Hi L. exists (f (hi a) (hi b)). rewrite E2. split; [| exact L].
      rewrite <- E2. eauto 6.
Qed.

(** ** Bitwise transfer functions *)

Lemma fits_bits w v : 0 <= w -> (forall i, w <= i -> Z.testbit v i = false) -> fits w v.
Proof. apply fits_intro. Qed.

(** The bits of every operand at index [i], then case analysis. *)
Ltac bits_at i :=
  repeat match goal with
  | H : forall j, 0 <= j < _ -> _ /\ _ |- _ =>
      let H' := fresh in
      assert (H' := fun p => H i p); clear H;
      first [specialize (H' ltac:(lia)); destruct H' | clear H']
  end;
  repeat match goal with
  | |- context [Z.testbit ?x ?j] => is_var x; destruct (Z.testbit x j) eqn:?
  | |- context [Z.testbit (?p ?x) ?j] =>
      is_var x; destruct (Z.testbit (p x) j) eqn:?
  end; cbn in *; intuition congruence.

Ltac fits_tac :=
  apply fits_bits; [lia |]; let i := fresh "i" in intros i ?; wordbits; split_cmp;
  cbn; rewrite ?andb_false_r, ?orb_false_r; auto.

Ltac dom_start :=
  repeat match goal with
  | H : ok ?a |- _ => let H' := fresh "W" in
      pose proof (proj1 H) as H'; destruct H' as [? [? ?]];
      let V := fresh "V" in pose proof (proj2 H) as V; rewrite is_valid_spec in V by lia;
      revert H
  end; intros.

(** [fits] of a bitwise term from the [fits] of its leaves. *)
Ltac fits_leaf :=
  repeat match goal with
  | H : fits ?w ?x |- context [Z.testbit ?x ?i] => rewrite (fits_high w x i) by (auto; lia)
  end; cbn; auto.

Lemma bvnot_best a :
  ok a -> best1 (fun v => 2 ^ width a - 1 - v) a (bvnot a).
Proof.
  intros Ha. dom_start.
  assert (N : forall v, fits (width a) v ->
            2 ^ width a - 1 - v = Z.lnot v &w Z.ones (width a)).
  { intros v Hv. rewrite Z.land_ones by lia. destruct Hv.
    apply Z.mod_unique with (-1); [lia |]. unfold Z.lnot. lia. }
  unfold bvnot. rewrite mask_ones by lia.
  assert (forall v, ~w v &w Z.ones (width a) = Z.lnot v &w Z.ones (width a)) as U
    by (intros; word_eq).
  rewrite !U. apply best1_intro; auto; cbn.
  - split; [cbn; lia |]. split; cbn; fits_tac.
  - intros v [Hv Hb]. rewrite N by auto. apply mem_intro; cbn; [lia | fits_tac | |];
      intros i Hi; wordbits; bits_at i.
Qed.

Lemma bvand_best a b :
  ok a -> ok b -> width a = width b -> best2 Z.land a b (bvand a b).
Proof.
  intros Ha Hb E. dom_start. rewrite <- E in *.
  unfold bvand. rewrite mask_ones by lia. apply best2_intro; auto; cbn.
  - split; [cbn; lia |]. split; cbn; fits_tac.
  - intros v u [Hv Hvb] [Hu Hub]. rewrite <- E in *.
    apply mem_intro; cbn; [lia | fits_tac; fits_leaf | |];
      intros i Hi; wordbits; split_cmp; bits_at i.
  - word_eq. fits_leaf.
  - word_eq. fits_leaf.
Qed.

Lemma bvor_best a b :
  ok a -> ok b -> width a = width b -> best2 Z.lor a b (bvor a b).
Proof.
  intros Ha Hb E. dom_start. rewrite <- E in *.
  unfold bvor. rewrite mask_ones by lia. apply best2_intro; auto; cbn.
  - split; [cbn; lia |]. split; cbn; fits_tac.
  - intros v u [Hv Hvb] [Hu Hub]. rewrite <- E in *.
    apply mem_intro; cbn; [lia | fits_tac; fits_leaf | |];
      intros i Hi; wordbits; split_cmp; bits_at i.
  - word_eq. fits_leaf.
  - word_eq. fits_leaf.
Qed.

(** The result bit of [bvxor] is fixed exactly where both operands are. *)
Lemma bvxor_best a b :
  ok a -> ok b -> width a = width b -> best2 Z.lxor a b (bvxor a b).
Proof.
  intros Ha Hb E. pose proof (ok_lo a Ha). pose proof (ok_hi a Ha).
  pose proof (ok_lo b Hb). pose proof (ok_hi b Hb).
  dom_start. rewrite <- E in *.
  assert (W : wf (bvxor a b)).
  { unfold bvxor. rewrite mask_ones by lia. split; [cbn; lia |]. split; cbn; fits_tac. }
  assert (S : forall v u, mem v a -> mem u b -> mem (Z.lxor v u) (bvxor a b)).
  { intros v u [Hv Hvb] [Hu Hub]. rewrite <- E in *. unfold bvxor.
    rewrite mask_ones by lia.
    apply mem_intro; cbn; [lia | fits_tac; fits_leaf | |];
      intros i Hi; wordbits; split_cmp; bits_at i. }
  split; [| split; [exact S |]].
  - split; [exact W |]. apply (mem_valid _ (Z.lxor (lo a) (lo b))); auto.
    cbn. lia.
  - intros d Hd Hm.
    assert (Q : forall i c,
      (xorb (Z.testbit (lo a) i) (Z.testbit (lo b) i) = c \/
       xorb (Z.testbit (hi a) i) (Z.testbit (lo b) i) = c \/
       xorb (Z.testbit (lo a) i) (Z.testbit (hi b) i) = c) ->
      exists y, (exists v u, mem v a /\ mem u b /\ y = Z.lxor v u) /\ Z.testbit y i = c).
    { intros i c [Q | [Q | Q]]; rewrite <- Z.lxor_spec in Q; eauto 8. }
    apply (smallest (fun y => exists v u, mem v a /\ mem u b /\ y = Z.lxor v u)); auto.
    + intros y (v & u & Hv & Hu & ->). auto.
    + unfold bvxor. rewrite mask_ones by lia. cbn. intros i Hi. wordbits. split_cmp.
      intros L. apply Q. revert L. pose proof (V i Hi). pose proof (V0 i Hi). bits_at i.
    + unfold bvxor. rewrite mask_ones by lia. cbn. intros i Hi. wordbits. split_cmp.
      intros L. apply Q. revert L. pose proof (V i Hi). pose proof (V0 i Hi). bits_at i.
Qed.

(** ** Rewirings: shifts, extensions, extraction

    Each result bit is a fixed operand bit or the constant 0. *)

Definition rewired (src : Z -> option Z) (v : Z) (i : Z) : bool :=
  match src i with Some j => Z.testbit v j | None => false end.

Lemma best1_rewire f a r src :
  ok a -> 1 <= width r <= 64 ->
  (forall i j, 0 <= i < width r -> src i = Some j -> 0 <= j < width a) ->
  (forall v, fits (width a) v -> fits (width r) (f v)) ->
  fits (width r) (lo r) -> fits (width r) (hi r) ->
  (forall v i, fits (width a) v -> 0 <= i < width r ->
     Z.testbit (f v) i = rewired src v i) ->
  (forall i, 0 <= i < width r -> Z.testbit (lo r) i = rewired src (lo a) i) ->
  (forall i, 0 <= i < width r -> Z.testbit (hi r) i = rewired src (hi a) i) ->
  best1 f a r.
Proof.
  intros Ha Hr Hs Hf Fl Fh Bf Bl Bh. dom_start. apply best1_intro; auto.
  - split; auto.
  - intros v [Hv Hb]. apply mem_intro; [lia | auto | |]; intros i Hi;
      rewrite Bf, ?Bl, ?Bh by auto; unfold rewired;
      destruct (src i) as [j |] eqn:E; auto; apply Hb; eauto.
  - left. split; apply (fits_inj (width r)); auto; try lia; intros i Hi;
      rewrite Bf, ?Bl, ?Bh by auto; reflexivity.
Qed.

(** Solves the side conditions of [best1_rewire] left by a concrete wiring. *)
Ltac rewire :=
  unfold rewired; intros; wordbits; rewrite ?mul_pow2_spec by lia; split_cmp; cbn;
  rewrite ?andb_true_r, ?andb_false_r, ?orb_false_r, ?orb_true_r; auto;
  try (f_equal; lia); try discriminate; try congruence;
  try (apply Z.testbit_neg_r; lia);
  try (match goal with F : fits ?w ?v |- Z.testbit ?v _ = false =>
         apply (fits_high w v); [exact F | lia] end); try (rewrite Z.testbit_neg_r by lia; reflexivity).

Ltac rewire_src :=
  let E := fresh "E" in
  intros ? ? ? E; revert E; split_cmp; cbn; intros E;
  first [discriminate E | injection E as E; subst; lia].

Lemma fits_mod w z : 0 <= w -> fits w (z mod 2 ^ w).
Proof. intros. apply Z.mod_pos_bound. lia. Qed.

Ltac rewire_all :=
  cbn; auto; try lia; try rewire_src; try (intros; apply fits_mod; lia);
  try fits_tac; try (unfold fits; lia); try (solve [rewire]).

Lemma bvshl_best a n :
  ok a -> 0 <= n -> best1 (fun v => (v * 2 ^ n) mod 2 ^ width a) a (bvshl_const a n).
Proof.
  intros Ha Hn. dom_start. unfold bvshl_const. rewrite mask_ones by lia.
  destruct (Z.geb_spec n (width a));
    apply (best1_rewire _ _ _ (fun i => if (n <=? i) && (i <? width a)
                                      then Some (i - n) else None)); rewire_all.
Qed.

Lemma bvshr_best a n :
  ok a -> 0 <= n -> best1 (fun v => v / 2 ^ n) a (bvshr_const a n).
Proof.
  intros Ha Hn. dom_start. unfold bvshr_const. rewrite mask_ones by lia.
  assert (forall v, fits (width a) v -> fits (width a) (v / 2 ^ n)).
  { intros v Hv. apply fits_bits; [lia |]. intros i Hi. wordbits.
    apply (fits_high (width a)); auto; lia. }
  destruct (Z.geb_spec n (width a));
    apply (best1_rewire _ _ _ (fun i => if i + n <? width a
                                      then Some (i + n) else None)); rewire_all.
Qed.

Lemma fits_ashr w v n : 1 <= w -> fits w v -> 0 <= n ->
  forall i, 0 <= i < w ->
  Z.testbit ((signed w v / 2 ^ n) mod 2 ^ w) i = Z.testbit v (Z.min (i + n) (w - 1)).
Proof.
  intros Hw Hv Hn i Hi. wordbits. rewrite signed_spec by (auto; lia). split_cmp. reflexivity.
Qed.

Lemma u8_small z : 0 <= z < 256 -> u8 z = z.
Proof. intros. apply Z.mod_small. lia. Qed.

(** The sign bit of a domain decides among three fillings. *)
Lemma msb_cases a :
  ok a ->
  bit_on (lo a) (1 <<w u8 (width a - 1)) = Z.testbit (lo a) (width a - 1) /\
  bit_on (hi a) (1 <<w u8 (width a - 1)) = Z.testbit (hi a) (width a - 1) /\
  (Z.testbit (lo a) (width a - 1) = true -> Z.testbit (hi a) (width a - 1) = true).
Proof.
  intros Ha. dom_start. rewrite u8_small by lia.
  rewrite !bit_on_spec by lia. split; [| split]; auto. apply V. lia.
Qed.

Lemma fits_sext w v n : 1 <= w -> fits w v -> 0 <= n ->
  forall i, 0 <= i < w + n ->
  Z.testbit (signed w v mod 2 ^ (w + n)) i = Z.testbit v (Z.min i (w - 1)).
Proof.
  intros Hw Hv Hn i Hi. wordbits. rewrite signed_spec by (auto; lia). split_cmp. reflexivity.
Qed.

(** Bits taken from the sign position or below it. *)
Ltac sign_fill :=
  intros;
  try (match goal with |- Z.testbit (_ mod _) _ = _ =>
         first [apply fits_ashr; auto; lia | apply fits_sext; auto; lia] end);
  match goal with |- context [Z.min ?x ?y] =>
    destruct (Z.min_spec x y) as [[? ->] | [? ->]] end;
  repeat match goal with L : Z.testbit _ _ = _ |- _ => rewrite ?L; revert L end; intros;
  rewire;
  try (match goal with L : Z.testbit ?x ?k = _ |- Z.testbit ?x ?j = _ =>
         replace j with k by lia; exact L end).

Lemma bvashr_best a n :
  ok a -> 0 <= n -> 0 < n \/ width a < 64 ->
  exists r, bvashr_const a n = Some r /\ best1 (fun v => (signed (width a) v / 2 ^ n) mod 2 ^ width a) a r.
Proof.
  intros Ha Hn Hd. destruct (msb_cases a Ha) as (Ml & Mh & Mlh). dom_start.
  unfold bvashr_const. rewrite Ml, Mh, mask_ones by lia.
  destruct (Z.eqb_spec (width a) 0); [lia |].
  destruct (Z.testbit (lo a) (width a - 1)) eqn:L;
  destruct (Z.testbit (hi a) (width a - 1)) eqn:Hh; try (discriminate (Mlh eq_refl));
  destruct (Z.geb_spec n (width a)); try (destruct (Z.geb_spec (width a - n) 64); [lia |]); cbn [andb negb Bool.eqb];
    (eexists; split; [reflexivity |]); apply (best1_rewire _ _ _ (fun i => Some (Z.min (i + n) (width a - 1)))); rewire_all.
  all: sign_fill.
Qed.

Lemma bvashr_undefined a : width a = 64 -> bvashr_const a 0 = None.
Proof. intros E. unfold bvashr_const. rewrite E. reflexivity. Qed.

(** ** Structural operations *)

Lemma bvextract_best a h l :
  ok a -> 0 <= l <= h -> h < width a ->
  best1 (fun v => (v / 2 ^ l) mod 2 ^ (h - l + 1)) a (bvextract a h l).
Proof.
  intros Ha Hl Hh. dom_start. unfold bvextract.
  rewrite u8_small, mask_ones by lia.
  apply (best1_rewire _ _ _ (fun i => Some (i + l))); rewire_all.
Qed.

Lemma zero_ext_best a n :
  ok a -> 0 <= n -> width a + n <= 64 -> best1 (fun v => v) a (zero_ext a n).
Proof.
  intros Ha Hn Hw. dom_start. unfold zero_ext. rewrite u8_small, mask_ones by lia.
  apply (best1_rewire _ _ _ (fun i => if i <? width a then Some i else None)); rewire_all.
  intros v Hv. apply (fits_mono (width a)); auto; lia.
Qed.

Lemma sign_ext_best a n :
  ok a -> 0 <= n -> width a + n <= 64 ->
  best1 (fun v => signed (width a) v mod 2 ^ (width a + n)) a (sign_ext a n).
Proof.
  intros Ha Hn Hw. destruct (msb_cases a Ha) as (Ml & Mh & Mlh). dom_start.
  unfold sign_ext. rewrite Ml, Mh, (u8_small (width a + n)), !mask_ones by lia.
  destruct (Z.eqb_spec n 0);
  destruct (Z.testbit (lo a) (width a - 1)) eqn:L;
  destruct (Z.testbit (hi a) (width a - 1)) eqn:Hh; try (discriminate (Mlh eq_refl));
    cbn [andb negb];
    apply (best1_rewire _ _ _ (fun i => Some (Z.min i (width a - 1)))); rewire_all.
  all: sign_fill.
Qed.

Lemma bvconcat_best a b :
  ok a -> ok b -> width a + width b <= 64 ->
  best2 (fun v u => v * 2 ^ width b + u) a b (bvconcat a b).
Proof.
  intros Ha Hb Hw. dom_start. unfold bvconcat. rewrite u8_small, !mask_ones by lia.
  assert (C : forall v u, fits (width a) v -> fits (width b) u ->
    ((v &w Z.ones (width a)) <<w width b) |w (u &w Z.ones (width b)) =
    v * 2 ^ width b + u).
  { intros v u Hv Hu. apply Z.bits_inj'. intros i Hi. rewrite concat_spec by (auto; lia).
    wordbits. split_cmp; cbn; rewrite ?andb_true_r, ?andb_false_r; auto.
    all: try rewrite (Z.testbit_neg_r v) by lia.
    all: try rewrite (fits_high (width a) v) by (auto; lia).
    all: try rewrite (fits_high (width b) u) by (auto; lia).
    all: btauto. }
  rewrite !C by auto.
  apply best2_intro; auto; cbn.
  - split; [cbn; lia |]. split; cbn; apply fits_concat; auto; lia.
  - intros v u [Hv Hvb] [Hu Hub].
    apply mem_intro; cbn; [lia | apply fits_concat; auto; lia | |];
      intros i Hi; rewrite !concat_spec by (auto; lia); split_cmp;
      first [apply Hvb; lia | apply Hub; lia].
Qed.

(** ** Meet, ranges, fixed bits *)

Lemma meet_mem a b v :
  wf a -> wf b -> width a = width b -> mem v (meet a b) <-> mem v a /\ mem v b.
Proof.
  intros (Hw & Hla & Hha) (_ & Hlb & Hhb) E. unfold meet. rewrite mask_ones by lia.
  unfold mem. cbn. rewrite <- E in *.
  split.
  - intros [Hv Hm]. split; (split; [auto |]); intros i Hi;
      destruct (Hm i Hi) as [H0 H1]; revert H0 H1; wordbits; split_cmp;
      destruct (Z.testbit (lo a) i), (Z.testbit (lo b) i), (Z.testbit (hi a) i),
        (Z.testbit (hi b) i); cbn; intuition congruence.
  - intros [[Hv H0] [_ H1]]. split; [auto |]. intros i Hi.
    specialize (H0 i Hi). specialize (H1 i Hi). wordbits. split_cmp.
    destruct (Z.testbit (lo a) i), (Z.testbit (lo b) i), (Z.testbit (hi a) i),
        (Z.testbit (hi b) i); cbn; intuition congruence.
Qed.

Lemma wf_meet a b : wf a -> wf b -> width a = width b -> wf (meet a b).
Proof.
  intros (Hw & Hla & Hha) (_ & Hlb & Hhb) E. unfold meet. rewrite mask_ones by lia.
  split; [cbn; lia |]. split; cbn; fits_tac.
Qed.

Lemma fixed_spec d i :
  wf d -> 0 <= i ->
  Z.testbit (~w (lo d ^w hi d) &w bvdom_mask (width d)) i =
  (i <? width d) && Bool.eqb (Z.testbit (lo d) i) (Z.testbit (hi d) i).
Proof.
  intros (Hw & _) Hi. rewrite mask_ones by lia. wordbits. split_cmp; cbn; try btauto.
  destruct (Z.testbit (lo d) i), (Z.testbit (hi d) i); reflexivity.
Qed.

(** Names the fixed-bit mask and replaces it by its bits. *)
Ltac name_fixed d :=
  let F := fresh "F" in
  pose proof (fixed_spec d) as F;
  set (fx := ~w (lo d ^w hi d) &w bvdom_mask (width d)) in *; clearbody fx.

Lemma matches_mem d v : ok d -> matches d v = true <-> mem (v mod 2 ^ width d) d.
Proof.
  intros Hd. dom_start. assert (W : wf d) by (split; auto).
  unfold matches. name_fixed d. rewrite Z.eqb_eq, mask_ones, <- Z.land_assoc by lia.
  split.
  - intros E. apply mem_intro; [lia | apply fits_mod; lia | |]; intros i Hi;
      apply (f_equal (fun z => Z.testbit z i)) in E;
      rewrite !Z.land_spec, F in E by (auto; lia);
      revert E; wordbits; specialize (V i Hi); split_cmp; bits_at i.
  - intros [_ M]. apply Z.bits_inj'. intros i Hi.
    rewrite !Z.land_spec, F by (auto; lia). wordbits.
    specialize (M i). revert M. wordbits. split_cmp; cbn; auto; intros M.
    specialize (M ltac:(lia)). specialize (V i ltac:(lia)).
    destruct (Z.testbit (lo d) i), (Z.testbit (hi d) i), (Z.testbit v i); cbn in *;
      intuition congruence.
Qed.

(** [copy_with_fixed_bits] lands in the domain, moves only fixed bits, and is
    the identity on members. *)
Lemma copy_spec d v i :
  wf d -> 0 <= i ->
  Z.testbit (copy_with_fixed_bits d v) i =
  (i <? width d) && if Bool.eqb (Z.testbit (lo d) i) (Z.testbit (hi d) i)
                    then Z.testbit (lo d) i else Z.testbit v i.
Proof.
  intros W Hi. unfold copy_with_fixed_bits. pose proof (proj1 W). name_fixed d.
  rewrite mask_ones by lia. wordbits. rewrite F by (auto; lia).
  split_cmp; cbn; try btauto;
  destruct (Z.testbit (lo d) i), (Z.testbit (hi d) i); cbn; btauto.
Qed.

Lemma copy_mem d v : ok d -> mem (copy_with_fixed_bits d v) d.
Proof.
  intros Hd. dom_start. assert (W : wf d) by (split; auto).
  apply mem_intro; [lia | | |].
  - apply fits_bits; [lia |]. intros i Hi. rewrite copy_spec by (auto; lia). split_cmp. auto.
  - intros i Hi L. rewrite copy_spec by (auto; lia). specialize (V i Hi L).
    rewrite L, V. split_cmp. reflexivity.
  - intros i Hi. rewrite copy_spec by (auto; lia). specialize (V i Hi). split_cmp. bits_at i.
Qed.

(** ** Ranges *)

Lemma first_diff_scan_spec diff n :
  (n <= 64)%nat ->
  let f := first_diff_scan diff n in
  -1 <= f < Z.of_nat n /\
  (0 <= f -> Z.testbit diff f = true) /\
  (forall i, f < i < Z.of_nat n -> Z.testbit diff i = false).
Proof.
  induction n as [| n IH]; cbn zeta in *; intros Hn.
  - cbn. split; [lia |]. split; intros; lia.
  - cbn [first_diff_scan]. change (negb (diff &w (1 <<w Z.of_nat n) =? 0))
      with (bit_on diff (1 <<w Z.of_nat n)).
    rewrite bit_on_spec by lia. destruct (IH ltac:(lia)) as (B & T & U).
    destruct (Z.testbit diff (Z.of_nat n)) eqn:E.
    + split; [lia |]. split; [auto |]. intros. lia.
    + split; [lia |]. split; [auto |]. intros i Hi.
      destruct (Z.eq_dec i (Z.of_nat n)) as [-> | ?]; [exact E | apply U; lia].
Qed.

(** Two values that agree above bit [f] and differ at [f]. *)
Lemma split_at w a b f :
  fits w a -> fits w b -> a <= b -> 0 <= f < w ->
  (forall i, f < i -> Z.testbit a i = Z.testbit b i) ->
  Z.testbit a f <> Z.testbit b f ->
  exists p, 0 <= p /\ p * 2 ^ (f + 1) <= a < p * 2 ^ (f + 1) + 2 ^ f /\
            p * 2 ^ (f + 1) + 2 ^ f <= b < (p + 1) * 2 ^ (f + 1) /\
            forall i, f < i -> Z.testbit a i = Z.testbit p (i - (f + 1)).
Proof.
  intros Ha Hb Hle Hf Hhi Hne.
  assert (E : a / 2 ^ (f + 1) = b / 2 ^ (f + 1)).
  { apply Z.bits_inj'. intros i Hi. wordbits. apply Hhi. lia. }
  pose proof (Z.pow_pos_nonneg 2 f). destruct Ha, Hb.
  pose proof (Z.div_mod a (2 ^ (f + 1))) as Da.
  pose proof (Z.div_mod b (2 ^ (f + 1))) as Db.
  assert (P2 : 2 ^ (f + 1) = 2 * 2 ^ f) by (rewrite Z.pow_add_r by lia; lia).
  pose proof (Z.mod_pos_bound a (2 ^ (f + 1))). pose proof (Z.mod_pos_bound b (2 ^ (f + 1))).
  assert (Ta : Z.testbit (a mod 2 ^ (f + 1)) f = (2 ^ f <=? a mod 2 ^ (f + 1))).
  { replace f with (f + 1 - 1) at 2 3 by lia. apply testbit_top; [lia | apply fits_mod; lia]. }
  assert (Tb : Z.testbit (b mod 2 ^ (f + 1)) f = (2 ^ f <=? b mod 2 ^ (f + 1))).
  { replace f with (f + 1 - 1) at 2 3 by lia. apply testbit_top; [lia | apply fits_mod; lia]. }
  revert Ta Tb. rewrite !Z.testbit_mod_pow2 by lia.
  replace (f <? f + 1) with true by (symmetry; apply Z.ltb_lt; lia). cbn [andb].
  intros Ta Tb. rewrite Ta, Tb in Hne.
  exists (a / 2 ^ (f + 1)). split; [apply Z.div_pos; lia |].
  rewrite <- E in Db. split; [| split].
  - revert Hne. split_cmp; try congruence; intros _; nia.
  - revert Hne. split_cmp; try congruence; intros _; nia.
  - intros i Hi. wordbits. f_equal. lia.
Qed.

(** Above the split, a value of the range has the bits of the lower end. *)
Lemma between_high a b v f p :
  0 <= f -> p * 2 ^ (f + 1) <= a -> b < (p + 1) * 2 ^ (f + 1) -> a <= v <= b ->
  forall i, f < i -> Z.testbit v i = Z.testbit p (i - (f + 1)).
Proof.
  intros Hf Ha Hb Hv i Hi.
  assert (P : 0 < 2 ^ (f + 1)) by (apply Z.pow_pos_nonneg; lia).
  assert (E : v / 2 ^ (f + 1) = p).
  { symmetry. apply Z.div_unique with (v - p * 2 ^ (f + 1)); nia. }
  rewrite <- E. wordbits. f_equal. lia.
Qed.

(** The domain [init_from_range_u] builds around the split bit [f]. *)
Lemma range_dom_bits w a f :
  1 <= w <= 64 -> 0 <= f < w ->
  let below := (1 <<w f) |w ((1 <<w f) -w 1) in
  let fv := a &w (Z.ones w &w ~w below) in
  (forall i, 0 <= i -> Z.testbit fv i = (f <? i) && (i <? w) && Z.testbit a i) /\
  (forall i, 0 <= i -> Z.testbit (fv |w below) i =
     (i <=? f) || ((f <? i) && (i <? w) && Z.testbit a i)).
Proof.
  intros Hw Hf below fv.
  assert (B : forall i, 0 <= i -> Z.testbit below i = (i <=? f)).
  { intros i Hi. unfold below. rewrite Z.shiftl_1_l.
    pose proof (Z.pow_lt_mono_r 2 f 64). pose proof (Z.pow_pos_nonneg 2 f).
    rewrite (u64_small (2 ^ f)), u64_small by (unfold fits; lia).
    rewrite Z.sub_1_r, <- Z.ones_equiv. wordbits. split_cmp; reflexivity. }
  assert (F : forall i, 0 <= i -> Z.testbit fv i = (f <? i) && (i <? w) && Z.testbit a i).
  { intros i Hi. unfold fv. wordbits. rewrite B by lia. split_cmp; cbn; btauto. }
  split; [exact F |]. intros i Hi. rewrite Z.lor_spec, F, B by lia. btauto.
Qed.

(** What the analysis of a variable's bounds relies on: the domain of a
    non-empty range holds the range, and it is the smallest one that does. *)
Definition range_best (w l h : Z) (d : bvdom) : Prop :=
  ok d /\ width d = w /\
  (forall v, l <= v <= h -> mem v d) /\
  (forall d', width d' = w -> (forall v, l <= v <= h -> mem v d') ->
     forall x, mem x d -> mem x d').

Lemma range_value_best w l :
  1 <= w <= 64 -> fits w l -> range_best w l l (init_value w l).
Proof.
  intros Hw Hl. unfold init_value. rewrite mask_ones by lia.
  rewrite Z.land_ones, Z.mod_small by (unfold fits in Hl; lia).
  assert (O : ok (mk_bvdom l l w)).
  { split; [split; [cbn; lia | split; auto] |]. apply is_valid_spec; cbn; auto; lia. }
  split; [exact O |]. split; [reflexivity |]. split.
  - intros v Hv. replace v with l by lia. apply (ok_lo _ O).
  - intros d' Hd' H. apply (smallest (fun v => v = l)); auto; [apply O | | |].
    + intros v ->. apply H. lia.
    + intros i Hi L. eauto.
    + intros i Hi L. eauto.
Qed.

Lemma range_split_best w l h f :
  1 <= w <= 64 -> fits w l -> fits w h -> l <= h -> 0 <= f < w ->
  (forall i, f < i -> Z.testbit l i = Z.testbit h i) ->
  Z.testbit l f <> Z.testbit h f ->
  let below := (1 <<w f) |w ((1 <<w f) -w 1) in
  let fv := l &w (Z.ones w &w ~w below) in
  range_best w l h (mk_bvdom fv (fv |w below) w).
Proof.
  intros Hw Hl Hh Hlh Hf Hhi Hne below fv.
  destruct (split_at w l h f) as (p & Hp & Hpl & Hph & Hpb); auto.
  destruct (range_dom_bits w l f Hw Hf) as [Bl Bh]. fold below fv in Bl, Bh.
  pose proof (Z.pow_pos_nonneg 2 f). pose proof (Z.pow_pos_nonneg 2 (f + 1)).
  assert (P2 : 2 ^ (f + 1) = 2 * 2 ^ f) by (rewrite Z.pow_add_r by lia; lia).
  assert (W : wf (mk_bvdom fv (fv |w below) w)).
  { split; [cbn; lia |]. split; cbn; apply fits_bits; try lia; intros i Hi;
      rewrite ?Bl, ?Bh by lia; split_cmp; reflexivity. }
  assert (M : forall v, l <= v <= h -> mem v (mk_bvdom fv (fv |w below) w)).
  { intros v Hv. pose proof (between_high l h v f p).
    apply mem_intro; cbn; [lia | unfold fits in *; lia | |]; intros i Hi;
      rewrite ?Bl, ?Bh by lia; split_cmp; cbn; try discriminate; auto;
      rewrite Hpb, H1 by lia; auto. }
  split; [| split; [reflexivity | split; [exact M |]]].
  { split; [exact W |]. apply (mem_valid _ l); [cbn; lia | apply M; lia]. }
  intros d' Hd' Hm. apply (smallest (fun v => l <= v <= h)); cbn; auto.
  - intros i Hi. rewrite Bl by lia. split_cmp; cbn.
    + intros E. exists l. split; [lia | exact E].
    + intros _. destruct (Z.eq_dec i f) as [-> | ?].
      * exists l. split; [lia |].
        replace l with (p * 2 ^ (f + 1) + (l - p * 2 ^ (f + 1))) by lia.
        rewrite concat_spec by (unfold fits; lia). split_cmp.
        apply (fits_high f); [unfold fits |]; lia.
      * exists (p * 2 ^ (f + 1) + 2 ^ f). split; [lia |].
        rewrite concat_spec by (unfold fits; lia). wordbits. split_cmp. reflexivity.
  - intros i Hi. rewrite Bh by lia. split_cmp; cbn.
    + intros E. exists l. split; [lia | exact E].
    + intros _. destruct (Z.eq_dec i f) as [-> | ?].
      * exists h. split; [lia |]. destruct (Z.testbit h f) eqn:E; auto.
        destruct Hne. replace l with (p * 2 ^ (f + 1) + (l - p * 2 ^ (f + 1))) by lia.
        rewrite concat_spec by (unfold fits; lia). split_cmp.
        apply (fits_high f); [unfold fits |]; lia.
      * exists (p * 2 ^ (f + 1) + Z.ones f). rewrite Z.ones_equiv. split; [lia |].
        rewrite concat_spec, <- Z.ones_equiv by (unfold fits; lia). wordbits.
        split_cmp. reflexivity.
Qed.

Lemma init_from_range_best w l h :
  1 <= w <= 64 -> fits w l -> fits w h -> l <= h ->
  exists d, init_from_range_u w l h = (0, d) /\ range_best w l h d.
Proof.
  intros Hw Hl Hh Hle. unfold init_from_range_u. rewrite mask_ones by lia.
  assert (Il : l &w Z.ones w = l) by (rewrite Z.land_ones, Z.mod_small; unfold fits in *; lia).
  assert (Ih : h &w Z.ones w = h) by (rewrite Z.land_ones, Z.mod_small; unfold fits in *; lia).
  rewrite Il, Ih. destruct (Z.gtb_spec l h); [lia |].
  destruct (first_diff_scan_spec (l ^w h) (Z.to_nat w)) as (B & T & U); [lia |].
  set (f := first_diff_scan (l ^w h) (Z.to_nat w)) in *.
  rewrite Z2Nat.id in * by lia.
  assert (Q : forall i, f < i < w -> Z.testbit l i = Z.testbit h i).
  { intros i Hi. specialize (U i Hi). rewrite Z.lxor_spec in U.
    apply xorb_eq. exact U. }
  destruct (Z.ltb_spec f 0).
  - assert (l = h) as <- by (apply (fits_inj w); auto; [lia |]; intros i Hi; apply Q; lia).
    eexists. split; [reflexivity |]. apply range_value_best; auto.
  - eexists. split; [reflexivity |]. apply range_split_best; auto; try lia.
    + intros i Hi. destruct (Z.ltb_spec i w); [apply Q; lia |].
      rewrite !(fits_high w) by (auto; lia). reflexivity.
    + specialize (T ltac:(lia)). rewrite Z.lxor_spec in T.
      destruct (Z.testbit l f), (Z.testbit h f); cbn in T; congruence.
Qed.

Lemma init_from_range_empty w l h :
  1 <= w <= 64 -> fits w l -> fits w h -> h < l ->
  init_from_range_u w l h = (-1, init_unknown w) /\
  forall v, mem v (init_unknown w) <-> fits w v.
Proof.
  intros Hw Hl Hh Hlt. unfold init_from_range_u. rewrite mask_ones by lia.
  rewrite !Z.land_ones, !Z.mod_small by (unfold fits in *; lia).
  destruct (Z.gtb_spec l h); [| lia]. split; [reflexivity |].
  intros v. unfold init_unknown. rewrite mask_ones by lia. unfold mem. cbn.
  split; [tauto |]. intros Hv. split; [exact Hv |]. intros i Hi. wordbits. split_cmp.
  split; [discriminate | reflexivity].
Qed.

(** ** Queries *)

(** Every member has bit [i] equal to [c]. *)
Definition all_bit (d : bvdom) (i : Z) (c : bool) : Prop :=
  forall v, mem v d -> Z.testbit v i = c.

Lemma all_bit_true d i :
  ok d -> 0 <= i < width d -> all_bit d i true <-> Z.testbit (lo d) i = true.
Proof.
  intros Hd Hi. split.
  - intros H. apply H, ok_lo, Hd.
  - intros L v [_ Hv]. apply Hv; auto.
Qed.

Lemma all_bit_false d i :
  ok d -> 0 <= i < width d -> all_bit d i false <-> Z.testbit (hi d) i = false.
Proof.
  intros Hd Hi. split.
  - intros H. apply H, ok_hi, Hd.
  - intros L v [_ Hv]. destruct (Z.testbit v i) eqn:E; auto.
    apply Hv in E; auto. congruence.
Qed.

Lemma nonzero_bit x w :
  0 <= w -> fits w x -> negb (x =? 0) = true <-> exists i, 0 <= i < w /\ Z.testbit x i = true.
Proof.
  intros Hw Hx. rewrite negb_true_iff, Z.eqb_neq. split.
  - intros N. exists (Z.log2 x). assert (0 < x) by (destruct Hx; lia).
    split; [| apply Z.bit_log2; lia]. split; [apply Z.log2_nonneg |].
    apply Z.log2_lt_pow2; [lia |]. apply Hx.
  - intros (i & Hi & E) ->. rewrite Z.bits_0 in E. discriminate.
Qed.

Lemma has_bit_spec d x (P : Z -> Prop) :
  wf d -> (forall i, 0 <= i -> Z.testbit (x &w bvdom_mask (width d)) i = true <->
                     i < width d /\ P i) ->
  negb (x &w bvdom_mask (width d) =? 0) = true <-> exists i, 0 <= i < width d /\ P i.
Proof.
  intros Hd H. pose proof (proj1 Hd). rewrite (nonzero_bit _ (width d)).
  - split; intros (i & Hi & E); exists i.
    + apply H in E; [tauto | lia].
    + split; [exact Hi |]. apply H; [lia |]. tauto.
  - lia.
  - apply fits_bits; [lia |]. intros i Hi.
    destruct (Z.testbit _ i) eqn:E; [apply H in E; lia | reflexivity].
Qed.

Definition queries_exact (d : bvdom) : Prop :=
  (is_fixed d = true <-> forall v u, mem v d -> mem u d -> v = u) /\
  (has_fixed_bits d = true <-> exists i, 0 <= i < width d /\ exists c, all_bit d i c) /\
  (has_fixed_bits_true d = true <-> exists i, 0 <= i < width d /\ all_bit d i true) /\
  (has_fixed_bits_false d = true <-> exists i, 0 <= i < width d /\ all_bit d i false) /\
  forall i, 0 <= i < 256 ->
    (is_fixed_bit d i = true <-> i < width d /\ exists c, all_bit d i c) /\
    (is_fixed_bit_true d i = true <-> i < width d /\ all_bit d i true) /\
    (is_fixed_bit_false d i = true <-> i < width d /\ all_bit d i false).

Lemma some_bit d i :
  ok d -> 0 <= i < width d ->
  (exists c, all_bit d i c) <-> Z.testbit (lo d) i = Z.testbit (hi d) i.
Proof.
  intros Hd Hi. split.
  - intros [c H]. rewrite (H (lo d)), (H (hi d)) by auto using ok_lo, ok_hi. reflexivity.
  - intros E. destruct (Z.testbit (lo d) i) eqn:L.
    + exists true. apply all_bit_true; auto.
    + exists false. apply all_bit_false; auto.
Qed.

Lemma is_fixed_spec d :
  ok d -> is_fixed d = true <-> forall v u, mem v d -> mem u d -> v = u.
Proof.
  intros Hd. pose proof (ok_lo d Hd). pose proof (ok_hi d Hd). dom_start.
  unfold is_fixed. rewrite mask_ones, !Z.land_ones, !Z.mod_small by (unfold fits in *; lia).
  rewrite Z.eqb_eq. split; [| auto]. intros E v u [Fv Hv] [Fu Hu].
  apply (fits_inj (width d)); auto; [lia |]. intros i Hi.
  specialize (Hv i Hi). specialize (Hu i Hi). rewrite <- E in *.
  destruct (Z.testbit v i), (Z.testbit u i), (Z.testbit (lo d) i); intuition congruence.
Qed.

Lemma queries_spec d : ok d -> queries_exact d.
Proof.
  intros Hd. assert (W : wf d) by apply Hd. pose proof (proj1 W) as Hw.
  split; [apply is_fixed_spec; auto |].
  unfold has_fixed_bits, has_fixed_bits_true, has_fixed_bits_false.
  split; [| split; [| split]].
  - apply has_bit_spec; auto. intros i Hi. rewrite fixed_spec by auto.
    rewrite andb_true_iff, Z.ltb_lt, eqb_true_iff.
    split; intros [A B]; (split; [exact A |]); apply some_bit; auto.
  - apply has_bit_spec; auto. intros i Hi. rewrite mask_ones by lia. wordbits.
    replace (0 <=? i) with true by (symmetry; apply Z.leb_le; lia).
    rewrite !andb_true_iff, Z.ltb_lt. split.
    + intros [[A B] [_ C]]. split; [exact C |]. apply all_bit_true; auto.
    + intros [C A]. split; [split |]; auto; apply A; auto using ok_lo, ok_hi.
  - apply has_bit_spec; auto. intros i Hi. rewrite mask_ones by lia. wordbits.
    replace (0 <=? i) with true by (symmetry; apply Z.leb_le; lia).
    rewrite !andb_true_iff, !negb_true_iff, !Z.ltb_lt. split.
    + intros [[A B] [_ C]]. split; [exact C |]. apply all_bit_false; auto. apply B.
    + intros [C A]. repeat split; auto; try lia; apply A; auto using ok_lo, ok_hi.
  - intros i Hi. unfold is_fixed_bit, is_fixed_bit_true, is_fixed_bit_false.
    destruct (Z.geb_spec i (width d)); [intuition (discriminate || lia) |].
    rewrite !bit_on_spec, eqb_true_iff, !andb_true_iff, !negb_true_iff by lia.
    rewrite some_bit, all_bit_true, all_bit_false by (auto; lia).
    assert (V : Z.testbit (lo d) i = true -> Z.testbit (hi d) i = true)
      by (apply is_valid_spec; [lia | apply Hd | lia]).
    destruct (Z.testbit (lo d) i), (Z.testbit (hi d) i); intuition (lia || congruence).
Qed.

(** Fixing a bit keeps every other bit free as it was. *)
Lemma fix_bit_mem d i c v :
  ok d -> 0 <= i < width d ->
  mem v (fix_bit d i c) <->
  fits (width d) v /\ Z.testbit v i = c /\
  exists u, mem u d /\ forall j, 0 <= j -> j <> i -> Z.testbit u j = Z.testbit v j.
Proof.
  intros Hd Hi. dom_start. unfold fix_bit. destruct (Z.geb_spec i (width d)); [lia |].
  set (d' := if c then _ else _).
  assert (Wd : width d' = width d) by (destruct c; reflexivity).
  assert (Bl : forall j, 0 <= j < width d ->
      Z.testbit (lo d') j = if j =? i then c else Z.testbit (lo d) j).
  { intros j Hj. destruct c; cbn; wordbits; split_cmp; cbn; try btauto. }
  assert (Bh : forall j, 0 <= j < width d ->
      Z.testbit (hi d') j = if j =? i then c else Z.testbit (hi d) j).
  { intros j Hj. destruct c; cbn; wordbits; split_cmp; cbn; try btauto. }
  unfold mem. rewrite Wd. split.
  - intros [Hv Hm]. split; [exact Hv |]. split.
    + destruct (Hm i ltac:(lia)) as [A B]. rewrite Bl, Bh, Z.eqb_refl in * by lia.
      destruct c, (Z.testbit v i); intuition congruence.
    + exists (if Z.testbit (lo d) i then Z.setbit v i else Z.clearbit v i).
      assert (B : forall j, 0 <= j -> Z.testbit (if Z.testbit (lo d) i
            then Z.setbit v i else Z.clearbit v i) j =
          if j =? i then Z.testbit (lo d) i else Z.testbit v j).
      { intros j Hj. destruct (Z.testbit (lo d) i);
          rewrite ?Z.setbit_eqb, ?Z.clearbit_eqb by lia; rewrite (Z.eqb_sym i j);
          destruct (Z.eqb_spec j i); cbn; btauto. }
      split.
      * split.
        -- apply fits_bits; [lia |]. intros j Hj. rewrite B by lia. split_cmp.
           apply (fits_high (width d)); auto; lia.
        -- intros j Hj. rewrite B by lia. specialize (Hm j Hj).
           rewrite Bl, Bh in Hm by lia. specialize (V j Hj). split_cmp; subst; tauto.
      * intros j Hj N. rewrite B by lia. split_cmp. reflexivity.
  - intros (Hv & E & u & [_ Hu] & Huv). split; [exact Hv |]. intros j Hj.
    rewrite Bl, Bh by lia. specialize (Hu j Hj). split_cmp.
    + subst. destruct (Z.testbit v i); auto.
    + rewrite <- Huv by lia. tauto.
Qed.

Lemma bvdom_eq_mem a b :
  ok a -> ok b ->
  bvdom_eq a b = true <-> width a = width b /\ forall v, mem v a <-> mem v b.
Proof.
  intros Ha Hb. pose proof (ok_lo a Ha) as La. pose proof (ok_hi a Ha) as Ua.
  pose proof (ok_lo b Hb) as Lb. pose proof (ok_hi b Hb) as Ub. dom_start.
  unfold bvdom_eq. destruct (Z.eqb_spec (width a) (width b)) as [E | E]; cbn [negb];
    [| split; [discriminate | tauto]].
  rewrite <- E in *.
  rewrite mask_ones, !Z.land_ones, !Z.mod_small by (unfold fits in *; lia).
  rewrite andb_true_iff, !Z.eqb_eq. split.
  - intros [El Eh]. split; [reflexivity |]. unfold mem. rewrite E, El, Eh. tauto.
  - intros [_ M]. apply M in La. apply M in Ua. apply M in Lb. apply M in Ub.
    split; apply (fits_inj (width a)); auto; try lia; intros i Hi;
      destruct La as [_ La], Ua as [_ Ua], Lb as [_ Lb], Ub as [_ Ub]; rewrite <- E in *;
      specialize (La i Hi); specialize (Ua i Hi); specialize (Lb i Hi); specialize (Ub i Hi);
      specialize (V i Hi); specialize (V0 i Hi);
      destruct (Z.testbit (lo a) i), (Z.testbit (hi a) i), (Z.testbit (lo b) i),
        (Z.testbit (hi b) i); intuition congruence.
Qed.

(** ** Printing *)

(** The reader of the printed form: a [lo] and a [hi] digit per character. *)
Definition char_lo (c : ascii) : Z := if Ascii.eqb c "1" || Ascii.eqb c "i" then 1 else 0.
Definition char_hi (c : ascii) : Z := if Ascii.eqb c "1" || Ascii.eqb c "x" then 1 else 0.

Definition read_digits (digit : ascii -> Z) (s : list ascii) (acc : Z) : Z :=
  fold_left (fun a c => 2 * a + digit c) s acc.

Lemma bit_char_digits d i :
  0 <= i < 64 ->
  char_lo (bit_char d i) = Z.b2z (Z.testbit (lo d) i) /\
  char_hi (bit_char d i) = Z.b2z (Z.testbit (hi d) i).
Proof.
  intros Hi. unfold bit_char. rewrite !bit_on_spec by lia.
  destruct (Z.testbit (lo d) i), (Z.testbit (hi d) i); split; reflexivity.
Qed.

Lemma read_loop digit field d n acc :
  (forall i, 0 <= i < 64 -> digit (bit_char d i) = Z.b2z (Z.testbit field i)) ->
  (n <= 64)%nat ->
  read_digits digit (to_str_loop d n n) acc =
  acc * 2 ^ Z.of_nat n + field mod 2 ^ Z.of_nat n.
Proof.
  intros Hd. revert acc. induction n as [| n IH]; intros acc Hn.
  - cbn. rewrite Z.mod_1_r. lia.
  - change (read_digits digit (to_str_loop d n n) (2 * acc + digit (bit_char d (Z.of_nat n)))
      = acc * 2 ^ Z.of_nat (S n) + field mod 2 ^ Z.of_nat (S n)).
    rewrite (IH (2 * acc + digit (bit_char d (Z.of_nat n)))) by lia.
    rewrite Hd by lia. replace (Z.of_nat (S n)) with (Z.of_nat n + 1) by lia.
    rewrite mod_pow2_succ, Z.pow_add_r by lia. lia.
Qed.

Lemma to_str_loop_firstn d n r :
  to_str_loop d n r = firstn r (to_str_loop d n n).
Proof.
  revert r. induction n as [| n IH]; intros [| r]; cbn; auto. f_equal. apply IH.
Qed.

Lemma to_str_loop_length d n : length (to_str_loop d n n) = n.
Proof. induction n; cbn; auto. Qed.

(** * Properties *)

(** C30: every transfer function of the domain computes the best abstraction of
    the bit-vector operation it stands for: complement, and/or/xor, constant
    shifts (logical and arithmetic), concatenation, extraction and the two
    extensions.  The result is well formed and valid, contains the operation's
    value for all members of the operands, and no smaller domain does.  The one
    exception is the arithmetic shift of a 64-bit domain by 0, which is undefined. *)
Theorem bvdom_transfer_best a b :
  ok a -> ok b ->
  best1 (fun v => 2 ^ width a - 1 - v) a (bvnot a) /\
  (width a = width b ->
     best2 Z.land a b (bvand a b) /\ best2 Z.lor a b (bvor a b) /\
     best2 Z.lxor a b (bvxor a b)) /\
  (forall n, 0 <= n ->
     best1 (fun v => (v * 2 ^ n) mod 2 ^ width a) a (bvshl_const a n) /\
     best1 (fun v => v / 2 ^ n) a (bvshr_const a n) /\
     (0 < n \/ width a < 64 ->
       exists r, bvashr_const a n = Some r /\ best1 (fun v => (signed (width a) v / 2 ^ n) mod 2 ^ width a) a r) /\
     (n = 0 -> width a = 64 -> bvashr_const a n = None)) /\
  (width a + width b <= 64 -> best2 (fun v u => v * 2 ^ width b + u) a b (bvconcat a b)) /\
  (forall h l, 0 <= l <= h -> h < width a ->
     best1 (fun v => (v / 2 ^ l) mod 2 ^ (h - l + 1)) a (bvextract a h l)) /\
  (forall n, 0 <= n -> width a + n <= 64 ->
     best1 (fun v => v) a (zero_ext a n) /\
     best1 (fun v => signed (width a) v mod 2 ^ (width a + n)) a (sign_ext a n)).
Proof.
  intros Ha Hb. refine (conj (bvnot_best a Ha) (conj _ (conj _ (conj _ (conj _ _))))).
  - intros E. refine (conj _ (conj _ _));
      auto using bvand_best, bvor_best, bvxor_best.
  - intros n Hn. refine (conj _ (conj _ (conj _ _)));
      auto using bvshl_best, bvshr_best, bvashr_best. intros -> E. apply bvashr_undefined, E.
  - auto using bvconcat_best.
  - auto using bvextract_best.
  - intros n Hn Hw. split; auto using zero_ext_best, sign_ext_best.
Qed.

(** A 4-bit domain [1x0x] for the witnesses. *)
Definition d1x0x : bvdom := mk_bvdom 8 13 4.

Lemma d1x0x_ok : ok d1x0x.
Proof. split; [| reflexivity]. unfold wf, fits; cbn. lia. Qed.

Lemma bvdom_transfer_best_witness : best1 (fun v => 2 ^ 4 - 1 - v) d1x0x (mk_bvdom 2 7 4).
Proof.
  exact (proj1 (bvdom_transfer_best d1x0x d1x0x d1x0x_ok d1x0x_ok)).
Defined.

(** [init_from_range_u] turns a non-empty range of [w]-bit values into the
    smallest domain that holds it; an empty range (bounds crossed) is reported
    with status -1 and the domain of all [w]-bit values. *)
Theorem init_from_range_spec w l h :
  1 <= w <= 64 -> fits w l -> fits w h ->
  (l <= h -> exists d, init_from_range_u w l h = (0, d) /\ range_best w l h d) /\
  (h < l -> init_from_range_u w l h = (-1, init_unknown w) /\
            forall v, mem v (init_unknown w) <-> fits w v).
Proof. split; intros; auto using init_from_range_best, init_from_range_empty. Qed.

Lemma init_from_range_spec_witness :
  exists d, init_from_range_u 8 0 5 = (0, d) /\ range_best 8 0 5 d.
Proof.
  apply (proj1 (init_from_range_spec 8 0 5 ltac:(lia) ltac:(unfold fits; lia)
                  ltac:(unfold fits; lia))). lia.
Defined.

(** The queries answer exactly what the members of a valid domain answer,
    [matches] is membership, [copy_with_fixed_bits] projects any value into
    the domain (and keeps members), [fix_bit] constrains exactly one bit, and
    two domains are [bvdom_eq] when they have the same width and members. *)
Theorem bvdom_queries_exact d e v :
  ok d -> ok e ->
  queries_exact d /\
  (matches d v = true <-> mem (v mod 2 ^ width d) d) /\
  (mem (copy_with_fixed_bits d v) d /\ (mem v d -> copy_with_fixed_bits d v = v)) /\
  (forall i c x, 0 <= i < width d ->
     mem x (fix_bit d i c) <-> fits (width d) x /\ Z.testbit x i = c /\
     exists u, mem u d /\ forall j, 0 <= j -> j <> i -> Z.testbit u j = Z.testbit x j) /\
  (bvdom_eq d e = true <-> width d = width e /\ forall x, mem x d <-> mem x e).
Proof.
  intros Hd He. split; [apply queries_spec; auto |].
  split; [apply matches_mem; auto |]. split; [| split].
  - split; [apply copy_mem; auto |]. intros [Hv Hm].
    destruct (copy_mem d v Hd) as [Fc _]. pose proof (proj1 (proj1 Hd)).
    apply (fits_inj (width d)); auto; [lia |]. intros i Hi.
    rewrite copy_spec by (auto; apply Hd || lia). specialize (Hm i Hi).
    split_cmp. cbn. destruct (Z.testbit (lo d) i), (Z.testbit (hi d) i),
      (Z.testbit v i); cbn; intuition congruence.
  - intros i c x Hi. apply fix_bit_mem; auto.
  - apply bvdom_eq_mem; auto.
Qed.

Lemma bvdom_queries_exact_witness : matches d1x0x 12 = true <-> mem (12 mod 2 ^ 4) d1x0x.
Proof.
  exact (proj1 (proj2 (bvdom_queries_exact d1x0x d1x0x 12 d1x0x_ok d1x0x_ok))).
Defined.

(** The meet of two domains of one width has exactly the common members,
    and it is invalid exactly when there is none. *)
Theorem meet_exact a b :
  wf a -> wf b -> width a = width b ->
  wf (meet a b) /\
  (forall v, mem v (meet a b) <-> mem v a /\ mem v b) /\
  (is_valid (meet a b) = true <-> exists v, mem v a /\ mem v b).
Proof.
  intros Ha Hb E. pose proof (wf_meet a b Ha Hb E) as W.
  split; [exact W |]. split; [intros v; apply meet_mem; auto |]. split.
  - intros V. exists (lo (meet a b)). apply meet_mem; auto. apply ok_lo. split; auto.
  - intros (v & Hv). apply (mem_valid _ v); [destruct W; lia |]. apply meet_mem; auto.
Qed.

Lemma meet_exact_witness : wf (meet d1x0x d1x0x).
Proof.
  exact (proj1 (meet_exact d1x0x d1x0x (proj1 d1x0x_ok) (proj1 d1x0x_ok) eq_refl)).
Defined.

(** With room for the whole string, [to_str] prints one character per bit
    and the string reads back as the domain's [lo] and [hi]; with less room it
    prints a prefix of that string, and nothing at all for a zero capacity. *)
Theorem to_str_roundtrip d cap :
  wf d ->
  let full := to_str_loop d (Z.to_nat (width d)) (Z.to_nat (width d)) in
  length full = Z.to_nat (width d) /\
  read_digits char_lo full 0 = lo d /\ read_digits char_hi full 0 = hi d /\
  to_str d cap = match cap with O => None | S room => Some (firstn room full) end.
Proof.
  intros (Hw & Hl & Hh) full. subst full. split; [apply to_str_loop_length |].
  rewrite (read_loop char_lo (lo d)), (read_loop char_hi (hi d)) by
    (try lia; intros; apply bit_char_digits; auto).
  rewrite Z2Nat.id, !Z.mod_small by (unfold fits in *; lia).
  split; [reflexivity |]. split; [reflexivity |].
  destruct cap; [reflexivity |]. cbn. rewrite to_str_loop_firstn. reflexivity.
Qed.

Lemma to_str_roundtrip_witness : length (to_str_loop d1x0x 4 4) = 4%nat.
Proof.
  exact (proj1 (to_str_roundtrip d1x0x 9 (proj1 d1x0x_ok))).
Defined.

Example to_str_ex : to_str d1x0x 9 = Some ["1"; "x"; "0"; "x"]%char.
Proof. reflexivity. Qed.

End Dom.
