(* ===== verification/Bvbounds.v ===== *)
(** * Bvbounds: ranges and sign-split bounds (src/src/c/dvs_bvbounds.c)

    A range is one interval of unsigned [w]-bit patterns; bounds are a pair of
    ranges, one per value of the sign bit, so that each half is an interval
    both as unsigned and as signed numbers.  The theorems say that the pair
    built from a range holds exactly that range, that intersection is set
    intersection and keeps the invariant, and that the bounds of a bit-vector
    domain hold its members. *)

From Stdlib Require Import ZArith Lia Bool Btauto.
From S2P Require Import Prelude Bvdom.
Open Scope Z_scope.
Open Scope word_scope.

Module Bnd.

(** [dvs_bvrange_t] *)
Record bvrange := mk_bvrange { min : Z; max : Z; r_width : Z; empty : bool }.

(** [dvs_bvbounds_t] *)
Record bvbounds := mk_bvbounds { b_lo : bvrange; b_hi : bvrange; b_width : Z }.

Definition mask_of (w : Z) : Z := if w >=? 64 then ~w 0 else (1 <<w w) -w 1.

Definition has_msb (v w : Z) : bool :=
  if w =? 0 then false else negb ((v >>w (w - 1)) &w 1 =? 0).

Definition signed_cmp (a b w : Z) : Z :=
  let sa := has_msb a w in
  let sb := has_msb b w in
  if negb (Bool.eqb sa sb) then (if sa then -1 else 1) else
  let am := a &w mask_of w in
  let bm := b &w mask_of w in
  if am <? bm then -1 else if am >? bm then 1 else 0.

Definition range_init (width min max : Z) : bvrange :=
  mk_bvrange (min &w mask_of width) (max &w mask_of width) width false.

Definition range_init_from_domain (d : Dom.bvdom) : bvrange :=
  range_init (Dom.width d) (Dom.lo d) (Dom.hi d).

Definition range_init_empty (width : Z) : bvrange := mk_bvrange 0 0 width true.

Definition range_is_valid (r : bvrange) : bool :=
  if empty r then true else
  let m := mask_of (r_width r) in
  let mn := min r &w m in
  let mx := max r &w m in
  (mn <=? mx) || (signed_cmp mn mx (r_width r) <=? 0).

Definition contains_u (r : bvrange) (v : Z) : bool :=
  if empty r then false else
  let m := mask_of (r_width r) in
  let vm := v &w m in
  (vm >=? (min r &w m)) && (vm <=? (max r &w m)).

Definition range_intersect (a b : bvrange) : bvrange :=
  if empty a || empty b then range_init_empty (r_width a) else
  let m := mask_of (r_width a) in
  let lo := if (min a &w m) >? (min b &w m) then min a &w m else min b &w m in
  let hi := if (max a &w m) <? (max b &w m) then max a &w m else max b &w m in
  if lo >? hi then range_init_empty (r_width a) else range_init (r_width a) lo hi.

Definition bounds_init_empty (width : Z) : bvbounds :=
  mk_bvbounds (range_init_empty width) (range_init_empty width) width.

Definition bounds_init_range (width min max : Z) : bvbounds :=
  let m := mask_of width in
  let min := min &w m in
  let max := max &w m in
  if min >? max
  then mk_bvbounds (range_init_empty width) (range_init_empty width) width
  else
  let max_pos := if width >=? 64 then 2 ^ 63 - 1 else (1 <<w (width - 1)) -w 1 in
  let min_neg := if width =? 0 then 0 else 1 <<w (width - 1) in
  if max <=? max_pos then
    mk_bvbounds (range_init width min max) (range_init_empty width) width
  else if min >=? min_neg then
    mk_bvbounds (range_init_empty width) (range_init width min max) width
  else
    mk_bvbounds (range_init width min max_pos) (range_init width min_neg max) width.

Definition bounds_init_from_domain (d : Dom.bvdom) : bvbounds :=
  bounds_init_range (Dom.width d) (Dom.lo d) (Dom.hi d).

Definition has_lo (b : bvbounds) : bool := negb (empty (b_lo b)).
Definition has_hi (b : bvbounds) : bool := negb (empty (b_hi b)).
Definition bounds_empty (b : bvbounds) : bool := negb (has_lo b) && negb (has_hi b).

Definition bounds_is_valid (b : bvbounds) : bool :=
  (if has_lo b then
     range_is_valid (b_lo b) && negb (has_msb (min (b_lo b)) (b_width b))
       && negb (has_msb (max (b_lo b)) (b_width b))
   else true) &&
  (if has_hi b then
     range_is_valid (b_hi b) && has_msb (min (b_hi b)) (b_width b)
       && has_msb (max (b_hi b)) (b_width b)
   else true).

Definition bounds_contains (b : bvbounds) (v : Z) : bool :=
  contains_u (b_lo b) v || contains_u (b_hi b) v.

Definition bounds_intersect (a b : bvbounds) : bvbounds :=
  mk_bvbounds (range_intersect (b_lo a) (b_lo b)) (range_intersect (b_hi a) (b_hi b))
    (b_width a).

(** ** Helpers *)

Lemma mask_of_ones w : 0 <= w <= 64 -> mask_of w = Z.ones w.
Proof. exact (Dom.mask_ones w). Qed.

Lemma masked w v : 0 <= w <= 64 -> v &w mask_of w = v mod 2 ^ w.
Proof. intros. rewrite mask_of_ones by lia. apply Z.land_ones. lia. Qed.

Lemma masked_fits w v : 1 <= w <= 64 -> fits w v -> v &w mask_of w = v.
Proof. intros Hw [? ?]. rewrite masked by lia. apply Z.mod_small. lia. Qed.

Lemma has_msb_spec v w : 1 <= w -> has_msb v w = Z.testbit v (w - 1).
Proof.
  intros Hw. unfold has_msb. destruct (Z.eqb_spec w 0); [lia |].
  change 1 with (Z.ones 1) at 2. rewrite Z.land_ones, Z.testbit_odd by lia.
  rewrite Zmod_odd. destruct (Z.odd _); reflexivity.
Qed.

Lemma has_msb_le v w : 1 <= w -> fits w v -> has_msb v w = (2 ^ (w - 1) <=? v).
Proof. intros. rewrite has_msb_spec by lia. apply testbit_top; auto. Qed.

(** [signed_cmp] is three-way comparison of the two's-complement readings. *)
Lemma signed_cmp_spec a b w :
  1 <= w <= 64 -> fits w a -> fits w b ->
  signed_cmp a b w = match Z.compare (signed w a) (signed w b) with
                     | Lt => -1 | Eq => 0 | Gt => 1 end.
Proof.
  intros Hw Ha Hb. unfold signed_cmp, signed.
  rewrite !masked_fits, !has_msb_le, !testbit_top by (auto; lia).
  assert (2 ^ w = 2 * 2 ^ (w - 1)) by (rewrite <- Z.pow_succ_r by lia; f_equal; lia).
  unfold fits in *. split_cmp; cbn [Bool.eqb negb];
    repeat match goal with |- context [?x <? ?y] => destruct (Z.ltb_spec x y)
           | |- context [?x >? ?y] => destruct (Z.gtb_spec x y) end;
    match goal with |- context [?x ?= ?y] => destruct (Z.compare_spec x y) end; lia.
Qed.

(** A range in the shape the constructors produce: width 1..64, bounds within
    the width, ordered unless empty. *)
Definition range_wf (w : Z) (r : bvrange) : Prop :=
  r_width r = w /\ (empty r = false -> fits w (min r) /\ fits w (max r) /\ min r <= max r).

Definition bounds_wf (b : bvbounds) : Prop :=
  1 <= b_width b <= 64 /\ range_wf (b_width b) (b_lo b) /\ range_wf (b_width b) (b_hi b) /\
  bounds_is_valid b = true.

Lemma contains_u_spec w r v :
  1 <= w <= 64 -> range_wf w r -> fits w v ->
  contains_u r v = true <-> empty r = false /\ min r <= v <= max r.
Proof.
  intros Hw [Er Hr] Hv. unfold contains_u. rewrite Er.
  destruct (empty r); [intuition discriminate |].
  destruct (Hr eq_refl) as (? & ? & ?). rewrite !masked_fits by auto.
  rewrite andb_true_iff, Z.geb_le, Z.leb_le. intuition lia.
Qed.

Lemma range_init_wf w l h : 1 <= w <= 64 -> fits w l -> fits w h -> l <= h ->
  range_wf w (range_init w l h).
Proof.
  intros. unfold range_init. rewrite !masked_fits by auto. split; cbn; auto.
Qed.

Lemma range_valid_wf w r : 1 <= w <= 64 -> range_wf w r -> range_is_valid r = true.
Proof.
  intros Hw [Er Hr]. unfold range_is_valid. rewrite Er.
  destruct (empty r); [reflexivity |]. destruct (Hr eq_refl) as (? & ? & ?).
  rewrite !masked_fits by auto. apply orb_true_iff. left. apply Z.leb_le. lia.
Qed.

Lemma range_intersect_wf w a b :
  1 <= w <= 64 -> range_wf w a -> range_wf w b -> range_wf w (range_intersect a b).
Proof.
  intros Hw [Ea Ha] [Eb Hb]. unfold range_intersect. rewrite Ea.
  destruct (empty a), (empty b); cbn [orb]; try (split; cbn; [auto | discriminate]).
  destruct (Ha eq_refl) as (? & ? & ?), (Hb eq_refl) as (? & ? & ?).
  rewrite !masked_fits by auto.
  destruct (Z.gtb_spec (min a) (min b)), (Z.ltb_spec (max a) (max b));
    match goal with |- context [?x >? ?y] => destruct (Z.gtb_spec x y) end;
    try (split; cbn; [auto | discriminate]); apply range_init_wf; auto.
Qed.

Lemma range_intersect_contains w a b v :
  1 <= w <= 64 -> range_wf w a -> range_wf w b -> fits w v ->
  contains_u (range_intersect a b) v = true <->
  contains_u a v = true /\ contains_u b v = true.
Proof.
  intros Hw Ha Hb Hv. pose proof (range_intersect_wf w a b Hw Ha Hb) as Hr.
  rewrite !(contains_u_spec w) by auto. destruct Ha as [Ea Ha], Hb as [Eb Hb].
  revert Hr. unfold range_intersect. rewrite Ea.
  destruct (empty a), (empty b); cbn [orb]; try (cbn; intuition discriminate).
  destruct (Ha eq_refl) as (? & ? & ?), (Hb eq_refl) as (? & ? & ?).
  unfold range_init. rewrite !masked_fits by auto. intros _.
  destruct (Z.gtb_spec (min a) (min b)), (Z.ltb_spec (max a) (max b));
    match goal with |- context [?x >? ?y] => destruct (Z.gtb_spec x y) end;
    cbn; rewrite ?masked_fits by auto; intuition (discriminate || lia).
Qed.

(** The half of a pair that is non-empty has its declared sign. *)
Lemma bounds_valid_iff b :
  1 <= b_width b <= 64 -> range_wf (b_width b) (b_lo b) -> range_wf (b_width b) (b_hi b) ->
  bounds_is_valid b = true <->
  (empty (b_lo b) = false -> max (b_lo b) < 2 ^ (b_width b - 1)) /\
  (empty (b_hi b) = false -> 2 ^ (b_width b - 1) <= min (b_hi b)).
Proof.
  intros Hw Hl Hh. unfold bounds_is_valid, has_lo, has_hi.
  rewrite !(range_valid_wf (b_width b)) by auto. destruct Hl as [_ Hl], Hh as [_ Hh].
  destruct (empty (b_lo b)), (empty (b_hi b)); cbn [negb andb];
    repeat match goal with H : false = false -> _ |- _ =>
      destruct (H eq_refl) as (? & ? & ?); clear H end;
    rewrite ?has_msb_le by (auto; lia);
    split_cmp; cbn; intuition (discriminate || lia).
Qed.

(** * Properties *)

(** The bounds built from [min..max] (patterns of width 1..64) are well
    formed — each half an interval of one sign — and contain exactly the
    patterns of that range; crossed bounds give the empty pair. *)
Theorem bounds_init_range_exact w l h :
  1 <= w <= 64 -> fits w l -> fits w h ->
  bounds_wf (bounds_init_range w l h) /\
  (forall v, fits w v ->
     bounds_contains (bounds_init_range w l h) v = true <-> l <= v <= h) /\
  (bounds_empty (bounds_init_range w l h) = true <-> h < l).
Proof.
  intros Hw Hl Hh. unfold bounds_init_range. rewrite !masked_fits by auto.
  assert (P : 2 ^ w = 2 * 2 ^ (w - 1)) by (rewrite <- Z.pow_succ_r by lia; f_equal; lia).
  assert (0 < 2 ^ (w - 1) <= 2 ^ 63)
    by (split; [apply Z.pow_pos_nonneg | apply Z.pow_le_mono_r]; lia).
  assert (Mp : (if w >=? 64 then 2 ^ 63 - 1 else (1 <<w (w - 1)) -w 1) = 2 ^ (w - 1) - 1).
  { destruct (Z.geb_spec w 64); [replace w with 64 by lia; reflexivity |].
    rewrite Z.shiftl_1_l, (u64_small (2 ^ _)), u64_small by (unfold fits; lia). reflexivity. }
  assert (Mn : (if w =? 0 then 0 else 1 <<w (w - 1)) = 2 ^ (w - 1)).
  { destruct (Z.eqb_spec w 0); [lia |].
    rewrite Z.shiftl_1_l. apply u64_small. unfold fits. lia. }
  rewrite Mp, Mn. unfold fits in Hl, Hh.
  assert (Ew : forall w', range_wf w' (range_init_empty w'))
    by (intros; split; cbn; [auto | discriminate]).
  destruct (Z.gtb_spec l h); [| destruct (Z.leb_spec h (2 ^ (w - 1) - 1));
    [| destruct (Z.geb_spec l (2 ^ (w - 1)))]]; (split; [| split]).
  all: try (unfold bounds_empty, has_lo, has_hi; cbn; intuition (discriminate || lia)).
  all: try (split; [cbn; lia |]; split; [| split]; cbn [b_lo b_hi b_width];
    try apply Ew; try (apply range_init_wf; unfold fits; lia);
    apply bounds_valid_iff; cbn [b_lo b_hi b_width]; auto;
    try (apply range_init_wf; unfold fits; lia);
    unfold range_init; rewrite ?masked_fits by (unfold fits; lia); cbn;
    split; intros; try discriminate; lia).
  all: intros v Hv; unfold bounds_contains; cbn [b_lo b_hi];
    rewrite orb_true_iff, !(contains_u_spec w) by
      (auto; apply range_init_wf; unfold fits; lia);
    unfold range_init; rewrite ?masked_fits by (unfold fits; lia); cbn;
    unfold fits in Hv; intuition (discriminate || lia).
Qed.

Lemma bounds_init_range_exact_witness : bounds_wf (bounds_init_range 8 100 200).
Proof.
  apply (bounds_init_range_exact 8 100 200); unfold fits; lia.
Defined.

(** Intersecting two well-formed bounds of one width gives well-formed
    bounds that contain exactly the common patterns. *)
Theorem bounds_intersect_exact a b :
  bounds_wf a -> bounds_wf b -> b_width a = b_width b ->
  bounds_wf (bounds_intersect a b) /\
  forall v, fits (b_width a) v ->
    bounds_contains (bounds_intersect a b) v = true <->
    bounds_contains a v = true /\ bounds_contains b v = true.
Proof.
  intros (Hw & Hla & Hha & Va) (_ & Hlb & Hhb & Vb) E.
  pose proof (proj1 (bounds_valid_iff a Hw Hla Hha) Va) as [Sla Sha].
  rewrite <- E in Hlb, Hhb.
  pose proof (proj1 (bounds_valid_iff b ltac:(lia) ltac:(rewrite <- E; auto)
                       ltac:(rewrite <- E; auto)) Vb) as [Slb Shb].
  rewrite <- E in Slb, Shb.
  pose proof (range_intersect_wf _ _ _ Hw Hla Hlb) as Wl.
  pose proof (range_intersect_wf _ _ _ Hw Hha Hhb) as Wh.
  split.
  - split; [exact Hw |]. split; [exact Wl |]. split; [exact Wh |].
    apply bounds_valid_iff; auto. cbn [bounds_intersect b_lo b_hi b_width]. split; intros N.
    + assert (C : contains_u (range_intersect (b_lo a) (b_lo b))
                    (max (range_intersect (b_lo a) (b_lo b))) = true).
      { destruct Wl as [? Wl]. destruct (Wl N) as (? & ? & ?).
        apply (contains_u_spec (b_width a)); [lia | split; auto | auto | split; [exact N | lia]]. }
      destruct Wl as [? Wl]. destruct (Wl N) as (? & ? & ?).
      apply (range_intersect_contains (b_width a)) in C; auto. destruct C as [C _].
      apply (contains_u_spec (b_width a)) in C; auto. destruct C as [C ?].
      specialize (Sla C). lia.
    + assert (C : contains_u (range_intersect (b_hi a) (b_hi b))
                    (min (range_intersect (b_hi a) (b_hi b))) = true).
      { destruct Wh as [? Wh]. destruct (Wh N) as (? & ? & ?).
        apply (contains_u_spec (b_width a)); [lia | split; auto | auto | split; [exact N | lia]]. }
      destruct Wh as [? Wh]. destruct (Wh N) as (? & ? & ?).
      apply (range_intersect_contains (b_width a)) in C; auto. destruct C as [C _].
      apply (contains_u_spec (b_width a)) in C; auto. destruct C as [C ?].
      specialize (Sha C). lia.
  - intros v Hv. unfold bounds_contains. cbn [bounds_intersect b_lo b_hi].
    rewrite !orb_true_iff, !(range_intersect_contains (b_width a)) by auto.
    rewrite !(contains_u_spec (b_width a)) by auto.
    destruct Hla as [_ Hla], Hha as [_ Hha], Hlb as [_ Hlb], Hhb as [_ Hhb].
    intuition (try lia).
    all: exfalso; intuition lia.
Qed.

(** Bounds of width 8 that straddle the sign boundary. *)
Definition b100_200 : bvbounds := bounds_init_range 8 100 200.

Lemma bounds_intersect_exact_witness :
  bounds_wf (bounds_intersect b100_200 b100_200).
Proof.
  assert (W : bounds_wf b100_200).
  { split; [cbn; lia |]. split; [| split; [| reflexivity]];
      (split; [reflexivity |]; intros _; unfold fits; cbn; lia). }
  exact (proj1 (bounds_intersect_exact _ _ W W eq_refl)).
Defined.

(** The bounds of a valid bit-vector domain contain every member of the
    domain, and both ends of the range they start from are members; the
    three-way [signed_cmp] of two patterns compares their two's-complement
    values. *)
Theorem bounds_of_domain d :
  Dom.ok d ->
  (forall v, Dom.mem v d -> bounds_contains (bounds_init_from_domain d) v = true) /\
  Dom.mem (Dom.lo d) d /\ Dom.mem (Dom.hi d) d /\
  (forall a b, fits (Dom.width d) a -> fits (Dom.width d) b ->
     signed_cmp a b (Dom.width d) =
     match Z.compare (signed (Dom.width d) a) (signed (Dom.width d) b) with
     | Lt => -1 | Eq => 0 | Gt => 1 end).
Proof.
  intros Hd. pose proof (Dom.ok_lo d Hd) as Ml. pose proof (Dom.ok_hi d Hd) as Mh.
  destruct Hd as [(Hw & Hl & Hh) V].
  split; [| split; [auto | split; [auto |]]].
  - intros v [Hv Hb]. apply bounds_init_range_exact; auto.
    assert (L : forall a b, fits (Dom.width d) a -> fits (Dom.width d) b ->
      (forall i, 0 <= i < Dom.width d -> Z.testbit a i = true -> Z.testbit b i = true) ->
      a <= b).
    { intros a b [? ?] [? ?] HB. apply Z.ldiff_le; [lia |].
      apply Z.bits_inj'. intros i Hi. rewrite Z.ldiff_spec, Z.bits_0.
      destruct (Z.ltb_spec i (Dom.width d)).
      - specialize (HB i ltac:(lia)). destruct (Z.testbit a i), (Z.testbit b i); cbn; auto.
        discriminate HB; auto.
      - rewrite (fits_high (Dom.width d) a) by (unfold fits; lia). reflexivity. }
    split; apply L; auto; intros i Hi; apply Hb; auto.
  - intros a b Ha Hb. apply signed_cmp_spec; auto.
Qed.

Lemma bounds_of_domain_witness : Dom.mem 8 Dom.d1x0x.
Proof. exact (proj1 (proj2 (bounds_of_domain Dom.d1x0x Dom.d1x0x_ok))). Defined.

End Bnd.
