(* ===== verification/Aig.v ===== *)
(** * Aig: the And-Inverter Graph manager (src/src/c/dvs_aig.c, dvs_aig.h)

    The manager's arena, its hash-consing table with the bucket chains threaded
    through the nodes, the two-level rewriting rules of [rewrite_and], and the
    gate constructors.  Node ids are signed: [-n] is the negation of [n], 1 is
    TRUE, 0 is NULL.  Ids, sizes and capacities are unbounded [Z] here, which is
    exact below 2^31 nodes; hashes wrap at 32 bits as in C. *)

From Stdlib Require Import ZArith Lia Bool Btauto.
From stdpp Require Import base list numbers.
From S2P Require Import Prelude.
Open Scope Z_scope.

Module Aig.

Definition NULL : Z := 0.
Definition TRUE : Z := 1.
Definition FALSE : Z := -1.

(** [dvs_aig_data_t] *)
Record data := mk_data { left : Z; right : Z; next_in_bucket : Z; parents : Z }.

(** [struct dvs_aig_s].  [alloc] is the allocator: whether a request of so many
    bytes is granted.  [nodes] holds the [nodes_size] used cells of the arena;
    the length of [buckets] is [buckets_mask + 1]. *)
Record aig := mk_aig {
  alloc : Z -> bool;
  nodes : list data;
  nodes_cap : Z;
  buckets : list Z;
  num_in_table : Z;
  num_inputs : Z;
  num_ands : Z;
  num_shared : Z }.

Definition nodes_size (m : aig) : Z := Z.of_nat (length (nodes m)).
Definition buckets_mask (m : aig) : Z := Z.of_nat (length (buckets m)) - 1.

Definition null_data : data := mk_data 0 0 0 0.

(** [m->nodes[i - 1]] and [buckets[h]]; the code never reads out of range (the
    defaults are not reached from a well-formed manager). *)
Definition node_at (ns : list data) (i : Z) : data := nth (Z.to_nat (i - 1)) ns null_data.
Definition bucket_at (bs : list Z) (h : Z) : Z := nth (Z.to_nat h) bs 0.

Definition set_node (ns : list data) (i : Z) (d : data) : list data :=
  <[Z.to_nat (i - 1) := d]> ns.
Definition set_bucket (bs : list Z) (h v : Z) : list Z := <[Z.to_nat h := v]> bs.

Definition set_next (d : data) (nx : Z) : data :=
  mk_data (left d) (right d) nx (parents d).
Definition bump_parents (d : data) : data :=
  mk_data (left d) (right d) (next_in_bucket d) (u32 (parents d + 1)).

(** [dvs_aig_not] *)
Definition aig_not (a : Z) : Z := - a.

(** ** Arena and unique table *)

Definition sizeof_data : Z := 16.

(** [while (cap < want) cap *= 2] *)
Fixpoint grow_cap (fuel : nat) (cap want : Z) : Z :=
  match fuel with
  | O => cap
  | S f => if cap <? want then grow_cap f (cap * 2) want else cap
  end.

(** Returns the status code with the manager. *)
Definition ensure_nodes_cap (m : aig) (want : Z) : Z * aig :=
  if want <=? nodes_cap m then (0, m) else
  let cap := if nodes_cap m =? 0 then 64 else nodes_cap m in
  let cap := grow_cap (Z.to_nat want) cap want in
  if alloc m (cap * sizeof_data)
  then (0, mk_aig (alloc m) (nodes m) cap (buckets m) (num_in_table m) (num_inputs m)
             (num_ands m) (num_shared m))
  else (-1, m).

Definition bucket_hash (l r mask : Z) : Z :=
  let lhs := u32 (Z.abs l) in
  let rhs := u32 (Z.abs r) in
  Z.land (u32 (547789289 * lhs + 786695309 * rhs)) mask.

(** One old chain re-threaded into the new buckets. *)
Fixpoint rethread (fuel : nat) (ns : list data) (bs : list Z) (mask idx : Z)
    : list data * list Z :=
  match fuel with
  | O => (ns, bs)
  | S f =>
      if idx =? 0 then (ns, bs) else
      let d := node_at ns idx in
      let next := next_in_bucket d in
      let h := bucket_hash (left d) (right d) mask in
      rethread f (set_node ns idx (set_next d (bucket_at bs h))) (set_bucket bs h idx)
        mask next
  end.

Definition buckets_resize (m : aig) : aig :=
  let old := buckets m in
  let new_cap := (length old * 2)%nat in
  let mask := Z.of_nat new_cap - 1 in
  let '(ns, bs) :=
    fold_left (fun '(ns, bs) idx => rethread (length ns) ns bs mask idx) old
      (nodes m, replicate new_cap 0) in
  mk_aig (alloc m) ns (nodes_cap m) bs (num_in_table m) (num_inputs m) (num_ands m)
    (num_shared m).

(** The bucket search of [intern_and]: the index found, or 0. *)
Fixpoint find_chain (fuel : nat) (ns : list data) (idx l r : Z) : Z :=
  match fuel with
  | O => 0
  | S f =>
      if idx =? 0 then 0 else
      let d := node_at ns idx in
      if (left d =? l) && (right d =? r) then idx
      else find_chain f ns (next_in_bucket d) l r
  end.

Definition bump_at (ns : list data) (i : Z) : list data :=
  set_node ns i (bump_parents (node_at ns i)).

Definition intern_and (m : aig) (l r : Z) : Z * aig :=
  let h := bucket_hash l r (buckets_mask m) in
  let idx := find_chain (length (nodes m)) (nodes m) (bucket_at (buckets m) h) l r in
  if negb (idx =? 0) then
    (idx, mk_aig (alloc m) (nodes m) (nodes_cap m) (buckets m) (num_in_table m)
            (num_inputs m) (num_ands m) (num_shared m + 1))
  else
  let m1 := if num_in_table m >=? buckets_mask m + 1 then buckets_resize m else m in
  let h := if num_in_table m >=? buckets_mask m + 1
           then bucket_hash l r (buckets_mask m1) else h in
  let '(st, m2) := ensure_nodes_cap m1 (nodes_size m1 + 1) in
  if negb (st =? 0) then (NULL, m2) else
  let new_idx := nodes_size m2 + 1 in
  let ns := nodes m2 ++ [mk_data l r (bucket_at (buckets m2) h) 0] in
  let bs := set_bucket (buckets m2) h new_idx in
  let ns := bump_at (bump_at ns (Z.abs l)) (Z.abs r) in
  (new_idx, mk_aig (alloc m2) ns (nodes_cap m2) bs (num_in_table m2 + 1) (num_inputs m2)
              (num_ands m2 + 1) (num_shared m2)).

(** ** Public operations *)

(** [dvs_aig_new]: the first allocation is the manager itself (72 bytes), then
    the arena; [None] when one of them is refused. *)
Definition aig_new (al : Z -> bool) : option aig :=
  if negb (al 72) then None else
  let m := mk_aig al [] 0 [] 0 0 0 0 in
  let '(st, m) := ensure_nodes_cap m 64 in
  if negb (st =? 0) then None else
  Some (mk_aig al [null_data] (nodes_cap m) (replicate 64 0) 0 0 0 0).

Definition mk_input (m : aig) : Z * aig :=
  let '(st, m) := ensure_nodes_cap m (nodes_size m + 1) in
  if negb (st =? 0) then (NULL, m) else
  (nodes_size m + 1,
   mk_aig (alloc m) (nodes m ++ [null_data]) (nodes_cap m) (buckets m) (num_in_table m)
     (num_inputs m + 1) (num_ands m) (num_shared m)).

Definition aig_parents (m : aig) (n : Z) : Z :=
  if (n =? 0) || (n =? TRUE) || (n =? FALSE) then 0 else
  if Z.abs n >? nodes_size m then 0 else parents (node_at (nodes m) (Z.abs n)).

Definition is_and_id (m : aig) (id : Z) : bool :=
  if (id =? 0) || (id =? TRUE) || (id =? FALSE) then false else
  if Z.abs id >? nodes_size m then false
  else negb (left (node_at (nodes m) (Z.abs id)) =? 0).

Definition is_input (m : aig) (n : Z) : bool :=
  if (n =? 0) || (n =? TRUE) || (n =? FALSE) then false else
  if Z.abs n >? nodes_size m then false
  else left (node_at (nodes m) (Z.abs n)) =? 0.

Definition children_of (m : aig) (id : Z) : Z * Z :=
  let d := node_at (nodes m) (Z.abs id) in (left d, right d).

(** The loop of [rewrite_and].  The result is (returned id, *out_l, *out_r);
    the id is NULL when the caller must create the AND of the two outputs.
    [None]: out of fuel (never, by [rewrite_loop_sound]). *)
Fixpoint rewrite_loop (fuel : nat) (m : aig) (left right : Z) : option (Z * Z * Z) :=
  match fuel with
  | O => None
  | S f =>
  let ret x := Some (x, 0, 0) in
  (* Level 1 *)
  if (left =? TRUE) || (left =? right) then ret right else
  if right =? TRUE then ret left else
  if (left =? FALSE) || (right =? FALSE) || (left =? - right) then ret FALSE else
  let left_is_and := is_and_id m left in
  let right_is_and := is_and_id m right in
  let '(a, b) := if left_is_and then children_of m left else (0, 0) in
  let '(c, d) := if right_is_and then children_of m right else (0, 0) in
  let left_is_neg := left <? 0 in
  let right_is_neg := right <? 0 in
  (* Level 2: contradiction *)
  if negb left_is_neg && left_is_and && ((a =? - right) || (b =? - right)) then ret FALSE else
  if negb right_is_neg && right_is_and && ((c =? - left) || (d =? - left)) then ret FALSE else
  if negb left_is_neg && negb right_is_neg && left_is_and && right_is_and &&
     ((a =? - c) || (a =? - d) || (b =? - c) || (b =? - d)) then ret FALSE else
  (* subsumption *)
  if left_is_neg && left_is_and && ((a =? - right) || (b =? - right)) then ret right else
  if right_is_neg && right_is_and && ((c =? - left) || (d =? - left)) then ret left else
  if left_is_neg && negb right_is_neg && left_is_and && right_is_and &&
     ((a =? - c) || (a =? - d) || (b =? - c) || (b =? - d)) then ret right else
  if right_is_neg && negb left_is_neg && right_is_and && left_is_and &&
     ((c =? - a) || (c =? - b) || (d =? - a) || (d =? - b)) then ret left else
  (* idempotence *)
  if negb left_is_neg && left_is_and && ((a =? right) || (b =? right)) then ret left else
  if negb right_is_neg && right_is_and && ((c =? left) || (d =? left)) then ret right else
  (* resolution *)
  if left_is_neg && right_is_neg && left_is_and && right_is_and &&
     (((a =? c) && (b =? - d)) || ((a =? d) && (b =? - c))) then ret (- a) else
  if left_is_neg && right_is_neg && left_is_and && right_is_and &&
     (((d =? b) && (c =? - a)) || ((d =? a) && (c =? - b))) then ret (- d) else
  (* Level 3: substitution, asymmetric *)
  if left_is_neg && left_is_and && (a =? right) then rewrite_loop f m (- b) right else
  if left_is_neg && left_is_and && (b =? right) then rewrite_loop f m (- a) right else
  if right_is_neg && right_is_and && (c =? left) then rewrite_loop f m left (- d) else
  if right_is_neg && right_is_and && (d =? left) then rewrite_loop f m left (- c) else
  (* substitution, symmetric *)
  if left_is_neg && negb right_is_neg && left_is_and && right_is_and &&
     ((a =? c) || (a =? d)) then rewrite_loop f m (- b) right else
  if left_is_neg && negb right_is_neg && left_is_and && right_is_and &&
     ((b =? c) || (b =? d)) then rewrite_loop f m (- a) right else
  if right_is_neg && negb left_is_neg && right_is_and && left_is_and &&
     ((c =? a) || (c =? b)) then rewrite_loop f m left (- d) else
  if right_is_neg && negb left_is_neg && right_is_and && left_is_and &&
     ((d =? a) || (d =? b)) then rewrite_loop f m left (- c) else
  (* Level 4: idempotence *)
  if negb left_is_neg && negb right_is_neg && left_is_and && right_is_and &&
     ((a =? c) || (b =? c)) then rewrite_loop f m left d else
  if negb left_is_neg && negb right_is_neg && left_is_and && right_is_and &&
     ((a =? d) || (b =? d)) then rewrite_loop f m left c else
  (* normalise *)
  if Z.abs left >? Z.abs right then Some (NULL, right, left) else Some (NULL, left, right)
  end.

Definition rewrite_and (m : aig) (l r : Z) : Z * Z * Z :=
  match rewrite_loop (S (Z.to_nat (Z.abs l + Z.abs r))) m l r with
  | Some x => x
  | None => (NULL, 0, 0)
  end.

Definition mk_and (m : aig) (a b : Z) : Z * aig :=
  let '(res, nl, nr) := rewrite_and m a b in
  if negb (res =? NULL) then (res, m) else intern_and m nl nr.

Definition mk_or (m : aig) (a b : Z) : Z * aig :=
  let '(r, m) := mk_and m (- a) (- b) in (- r, m).

Definition mk_xor (m : aig) (a b : Z) : Z * aig :=
  let '(l, m) := mk_and m a (- b) in
  let '(r, m) := mk_and m (- a) b in
  mk_or m l r.

Definition mk_iff (m : aig) (a b : Z) : Z * aig :=
  let '(r, m) := mk_xor m a b in (- r, m).

Definition mk_ite (m : aig) (c t e : Z) : Z * aig :=
  if c =? TRUE then (t, m) else
  if c =? FALSE then (e, m) else
  if t =? e then (t, m) else
  let '(lhs, m) := mk_and m c t in
  let '(rhs, m) := mk_and m (- c) e in
  mk_or m lhs rhs.

(** ** Meaning *)

(** The gates of a manager: what its nodes compute, without the table. *)
Definition gate (d : data) : Z * Z := (left d, right d).
Definition gates (m : aig) : list (Z * Z) := map gate (nodes m).

(** The literal [id] over the values of the nodes. *)
Definition lit (vals : list bool) (id : Z) : bool :=
  let v := nth (Z.to_nat (Z.abs id - 1)) vals false in
  if id <? 0 then negb v else v.

(** The value of the next node, given those before it: node 1 is TRUE, a node
    without children is an input, any other is an AND. *)
Definition node_val (env : Z -> bool) (vals : list bool) (g : Z * Z) : bool :=
  if fst g =? 0 then
    if Nat.eqb (length vals) 0 then true else env (Z.of_nat (length vals) + 1)
  else lit vals (fst g) && lit vals (snd g).

Definition values (env : Z -> bool) (gs : list (Z * Z)) : list bool :=
  fold_left (fun vals g => vals ++ [node_val env vals g]) gs [].

(** The value of literal [id] when the inputs have the values [env]. *)
Definition eval (m : aig) (env : Z -> bool) (id : Z) : bool :=
  lit (values env (gates m)) id.

Definition valid (m : aig) (id : Z) : Prop := 1 <= Z.abs id <= nodes_size m.

(** ** Values *)

Lemma values_app env gs hs :
  exists ws, values env (gs ++ hs) = values env gs ++ ws /\ length ws = length hs.
Proof.
  unfold values. rewrite fold_left_app. generalize (fold_left
    (fun vals g => vals ++ [node_val env vals g]) gs []) as vs.
  induction hs as [| h hs IH]; intros vs; cbn.
  - exists []. rewrite app_nil_r. auto.
  - destruct (IH (vs ++ [node_val env vs h])) as (ws & -> & L).
    exists (node_val env vs h :: ws). rewrite <- app_assoc. cbn. auto.
Qed.

Lemma values_snoc env gs g :
  values env (gs ++ [g]) = values env gs ++ [node_val env (values env gs) g].
Proof. unfold values. rewrite fold_left_app. reflexivity. Qed.

Lemma values_length env gs : length (values env gs) = length gs.
Proof.
  induction gs as [| g gs IH] using rev_ind; [reflexivity |].
  rewrite values_snoc, !length_app, IH. reflexivity.
Qed.

Lemma lit_app vs ws id :
  1 <= Z.abs id <= Z.of_nat (length vs) -> lit (vs ++ ws) id = lit vs id.
Proof. intros H. unfold lit. rewrite app_nth1 by lia. reflexivity. Qed.

Lemma lit_neg vs id : id <> 0 -> lit vs (- id) = negb (lit vs id).
Proof.
  intros H. unfold lit. rewrite Z.abs_opp.
  destruct (Z.ltb_spec (- id) 0), (Z.ltb_spec id 0); try lia;
    rewrite ?negb_involutive; reflexivity.
Qed.

(** Children precede their gate and are never constants. *)
Definition topo (gs : list (Z * Z)) : Prop :=
  forall i l r, gs !! i = Some (l, r) -> l <> 0 ->
    2 <= Z.abs l <= Z.of_nat i /\ 2 <= Z.abs r <= Z.of_nat i.

Lemma values_lookup env gs i g :
  gs !! i = Some g ->
  nth i (values env gs) false = node_val env (values env (take i gs)) g.
Proof.
  intros H. pose proof (take_S_r _ _ _ H) as T.
  assert (gs = take (S i) gs ++ drop (S i) gs) as E by (symmetry; apply take_drop).
  rewrite T in E. destruct (values_app env (take i gs ++ [g]) (drop (S i) gs)) as (ws & V & _).
  rewrite <- E in V. rewrite V, values_snoc, <- app_assoc.
  assert (length (values env (take i gs)) = i).
  { rewrite values_length, length_take. apply lookup_lt_Some in H. lia. }
  rewrite app_nth2 by lia. rewrite H0, Nat.sub_diag. reflexivity.
Qed.

Lemma lit_take env gs i id :
  1 <= Z.abs id <= Z.of_nat i -> (i <= length gs)%nat ->
  lit (values env (take i gs)) id = lit (values env gs) id.
Proof.
  intros H Hi. rewrite <- (take_drop i gs) at 2.
  destruct (values_app env (take i gs) (drop i gs)) as (ws & -> & _).
  rewrite lit_app; [reflexivity |]. rewrite values_length, length_take. lia.
Qed.

Lemma lit_gate env gs i l r :
  topo gs -> gs !! i = Some (l, r) -> l <> 0 ->
  lit (values env gs) (Z.of_nat i + 1) =
  lit (values env gs) l && lit (values env gs) r.
Proof.
  intros T H N. destruct (T i l r H N) as [Hl Hr]. pose proof (lookup_lt_Some _ _ _ H).
  unfold lit at 1. destruct (Z.ltb_spec (Z.of_nat i + 1) 0); [lia |].
  replace (Z.to_nat (Z.abs (Z.of_nat i + 1) - 1)) with i by lia.
  rewrite (values_lookup env gs i (l, r) H). unfold node_val. cbn.
  destruct (Z.eqb_spec l 0); [lia |]. rewrite !lit_take by lia. reflexivity.
Qed.

(** ** Chains *)

(** [chain ns idx c]: the [next_in_bucket] links from [idx] visit [c] and end
    in 0. *)
Inductive chain (ns : list data) : Z -> list Z -> Prop :=
| chain_nil : chain ns 0 []
| chain_cons idx c :
    1 <= idx <= Z.of_nat (length ns) -> chain ns (next_in_bucket (node_at ns idx)) c ->
    chain ns idx (idx :: c).

Lemma chain_frame ns ns' idx c :
  chain ns idx c -> (length ns <= length ns')%nat ->
  (forall i, i ∈ c -> next_in_bucket (node_at ns' i) = next_in_bucket (node_at ns i)) ->
  chain ns' idx c.
Proof.
  intros H L. induction H as [| idx c Hi Hc IH]; intros F; constructor; [lia |].
  rewrite F by (left). apply IH. intros i Hin. apply F. right. exact Hin.
Qed.

Lemma chain_range ns idx c : chain ns idx c -> forall i, i ∈ c -> 1 <= i <= Z.of_nat (length ns).
Proof.
  induction 1 as [| idx c Hi Hc IH]; intros i Hin; [inversion Hin |].
  apply elem_of_cons in Hin as [-> | Hin]; auto.
Qed.

(** Distinct indices within [1..n] number at most [n]. *)
Lemma distinct_bound (n : nat) (c : list Z) :
  NoDup c -> (forall i, i ∈ c -> 1 <= i <= Z.of_nat n) -> (length c <= n)%nat.
Proof.
  intros N H. assert (S : c ⊆+ seqZ 1 (Z.of_nat n)).
  { apply NoDup_submseteq; [exact N |]. intros i Hi. apply elem_of_seqZ.
    specialize (H i Hi). lia. }
  apply submseteq_length in S. rewrite length_seqZ in S. lia.
Qed.

Lemma node_at_set ns i j d :
  1 <= i <= Z.of_nat (length ns) -> 1 <= j ->
  node_at (set_node ns i d) j = if j =? i then d else node_at ns j.
Proof.
  intros Hi Hj. unfold node_at, set_node. rewrite !nth_lookup.
  destruct (Z.eqb_spec j i) as [-> | N].
  - rewrite list_lookup_insert_eq by lia. reflexivity.
  - rewrite list_lookup_insert_ne by lia. reflexivity.
Qed.

Lemma length_set_node ns i d : length (set_node ns i d) = length ns.
Proof. apply length_insert. Qed.

Lemma node_at_app ns x i :
  1 <= i <= Z.of_nat (length ns) + 1 ->
  node_at (ns ++ [x]) i = if i =? Z.of_nat (length ns) + 1 then x else node_at ns i.
Proof.
  intros Hi. unfold node_at. destruct (Z.eqb_spec i (Z.of_nat (length ns) + 1)) as [-> | N].
  - rewrite app_nth2 by lia. replace (_ - _)%nat with 0%nat by lia. reflexivity.
  - rewrite app_nth1 by lia. reflexivity.
Qed.

(** ** The unique table *)

Definition node_hash (ns : list data) (mask i : Z) : Z :=
  bucket_hash (left (node_at ns i)) (right (node_at ns i)) mask.

(** [bs] holds, in the chains threaded through [ns], exactly the indices
    satisfying [P], each in the bucket of its hash, none twice. *)
Definition table (ns : list data) (bs : list Z) (P : Z -> Prop) : Prop :=
  exists chs,
    Forall2 (chain ns) bs chs /\ NoDup (concat chs) /\
    (forall i, i ∈ concat chs <-> P i) /\
    (forall h c i, chs !! h = Some c -> i ∈ c ->
       node_hash ns (Z.of_nat (length bs) - 1) i = Z.of_nat h).

Lemma bucket_hash_range l r n : (0 < n)%nat -> 0 <= bucket_hash l r (Z.of_nat n - 1) < Z.of_nat n.
Proof.
  intros Hn. unfold bucket_hash. set (x := u32 _).
  assert (0 <= x) by (apply Z.mod_pos_bound; lia).
  assert (A : 0 <= Z.land x (Z.of_nat n - 1)) by (apply Z.land_nonneg; lia).
  split; [exact A |].
  assert (Z.land x (Z.of_nat n - 1) <= Z.of_nat n - 1); [| lia].
  apply Z.ldiff_le; [lia |]. apply Z.bits_inj'. intros i Hi.
  rewrite Z.ldiff_spec, Z.land_spec, Z.bits_0. btauto.
Qed.

Lemma concat_insert {A} (chs : list (list A)) h c x :
  chs !! h = Some c -> concat (<[h := x :: c]> chs) ≡ₚ x :: concat chs.
Proof.
  revert h. induction chs as [| d chs IH]; intros [| h] H; cbn in *; try discriminate.
  - injection H as ->. reflexivity.
  - rewrite (IH h H). apply Permutation_sym, Permutation_middle.
Qed.

Lemma elem_of_concat_lookup {A} (chs : list (list A)) h c x :
  chs !! h = Some c -> x ∈ c -> x ∈ concat chs.
Proof.
  intros H Hx. apply list_elem_of_In, in_concat. exists c. split.
  - apply list_elem_of_In, list_elem_of_lookup. eauto.
  - apply list_elem_of_In, Hx.
Qed.

(** Pushing index [x] on the bucket of its hash. *)
Lemma table_push ns bs P x :
  (0 < length bs)%nat -> 1 <= x <= Z.of_nat (length ns) -> ~ P x -> table ns bs P ->
  let h := node_hash ns (Z.of_nat (length bs) - 1) x in
  table (set_node ns x (set_next (node_at ns x) (bucket_at bs h))) (set_bucket bs h x)
    (fun i => P i \/ i = x).
Proof.
  intros Hbs Hx HP (chs & HF & HN & Hin & Hh) h.
  assert (Hr : 0 <= h < Z.of_nat (length bs)) by (apply bucket_hash_range; auto).
  set (ns' := set_node _ _ _).
  assert (Lb : exists b, bs !! Z.to_nat h = Some b) by (apply lookup_lt_is_Some_2; lia).
  destruct Lb as [b Hb]. destruct (Forall2_lookup_l _ _ _ _ _ HF Hb) as (c & Hc & Cc).
  assert (Eb : bucket_at bs h = b).
  { unfold bucket_at. apply nth_lookup_Some with (d := 0) in Hb. exact Hb. }
  assert (Fr : forall idx c', chain ns idx c' -> (forall i, i ∈ c' -> P i) -> chain ns' idx c').
  { intros idx c' C Hc'. apply (chain_frame ns); auto; [unfold ns'; rewrite length_set_node; lia |].
    intros i Hi. pose proof (chain_range _ _ _ C i Hi). unfold ns'.
    rewrite node_at_set by lia. destruct (Z.eqb_spec i x) as [-> | ?]; [| reflexivity].
    destruct HP. auto. }
  assert (PP : forall k c', chs !! k = Some c' -> forall i, i ∈ c' -> P i).
  { intros k c' Hk i Hi. apply Hin. eapply elem_of_concat_lookup; eauto. }
  assert (Hs : forall i, 1 <= i -> node_hash ns' (Z.of_nat (length bs) - 1) i =
                          node_hash ns (Z.of_nat (length bs) - 1) i).
  { intros i Hi. unfold node_hash, ns'. rewrite node_at_set by lia.
    destruct (Z.eqb_spec i x) as [-> | ?]; reflexivity. }
  exists (<[Z.to_nat h := x :: c]> chs). split; [| split; [| split]].
  - unfold set_bucket. apply Forall2_insert.
    + apply Forall2_same_length_lookup_2; [eapply Forall2_length; eauto |].
      intros k b' c' Hk Hk'. apply Fr; [| eauto].
      eapply Forall2_lookup_lr in HF; eauto.
    + constructor; [unfold ns'; rewrite length_set_node; lia |].
      unfold ns' at 2. rewrite node_at_set, Z.eqb_refl by lia. cbn. rewrite Eb.
      apply Fr; eauto.
  - rewrite concat_insert by exact Hc. constructor; [| exact HN].
    rewrite Hin. exact HP.
  - intros i. rewrite concat_insert by exact Hc. rewrite elem_of_cons, Hin. tauto.
  - unfold set_bucket. rewrite length_insert. intros k c' i Hk Hi.
    destruct (decide (k = Z.to_nat h)) as [-> | N].
    + rewrite list_lookup_insert_eq in Hk by (apply lookup_lt_Some in Hc; lia).
      injection Hk as <-. apply elem_of_cons in Hi as [-> | Hi].
      * rewrite Hs by lia. unfold h. lia.
      * assert (Ci : 1 <= i) by (eapply chain_range; eauto). rewrite Hs by lia.
        eapply Hh; eauto.
    + rewrite list_lookup_insert_ne in Hk by auto.
      destruct (Forall2_lookup_r _ _ _ _ _ HF Hk) as (b' & _ & Cb).
      pose proof (chain_range _ _ _ Cb i Hi). rewrite Hs by lia. eapply Hh; eauto.
Qed.

Lemma table_iff ns bs P Q : (forall i, P i <-> Q i) -> table ns bs P -> table ns bs Q.
Proof.
  intros E (chs & HF & HN & Hin & Hh). exists chs. split; [exact HF |].
  split; [exact HN |]. split; [| exact Hh]. intros i. rewrite Hin. apply E.
Qed.

(** Facts about cells that only differ in their links. *)
Definition same_gates (ns ns' : list data) : Prop :=
  length ns' = length ns /\
  forall i, 1 <= i <= Z.of_nat (length ns) ->
    gate (node_at ns' i) = gate (node_at ns i) /\ parents (node_at ns' i) = parents (node_at ns i).

Lemma rethread_spec fuel ns bs mask idx c P :
  (0 < length bs)%nat -> mask = Z.of_nat (length bs) - 1 ->
  chain ns idx c -> NoDup c -> (length c <= fuel)%nat ->
  (forall i, i ∈ c -> ~ P i) -> table ns bs P ->
  let '(ns', bs') := rethread fuel ns bs mask idx in
  table ns' bs' (fun i => P i \/ i ∈ c) /\ same_gates ns ns' /\ length bs' = length bs /\
  (forall i, 1 <= i <= Z.of_nat (length ns) -> i ∉ c -> node_at ns' i = node_at ns i).
Proof.
  intros Hbs -> Hc. revert bs fuel P Hbs.
  induction c as [| x c IH] in ns, idx, Hc |- *; intros bs fuel P Hbs HN Hf HP HT.
  - inversion Hc; subst.
    replace (rethread fuel ns bs (Z.of_nat (length bs) - 1) 0) with (ns, bs)
      by (destruct fuel; reflexivity).
    split; [| split; [split; auto | auto]].
    revert HT. apply table_iff. intros i. rewrite elem_of_nil. tauto.
  - inversion Hc as [| ? ? Hx Hc']; subst. destruct fuel as [| fuel]; [cbn in Hf; lia |]. cbn.
    destruct (Z.eqb_spec x 0); [lia |].
    apply list.NoDup_cons in HN as [Hnx HN].
    fold (node_hash ns (Z.of_nat (length bs) - 1) x).
    pose proof (table_push ns bs P x Hbs Hx (HP x ltac:(left)) HT) as HT'. cbn in HT'.
    set (h := node_hash ns (Z.of_nat (length bs) - 1) x) in *.
    set (ns1 := set_node ns x _) in *. set (bs1 := set_bucket bs h x) in *.
    assert (L1 : length ns1 = length ns) by apply length_set_node.
    assert (B1 : length bs1 = length bs) by apply length_insert.
    assert (C1 : chain ns1 (next_in_bucket (node_at ns x)) c).
    { apply (chain_frame ns); auto; [lia |]. intros i Hi.
      pose proof (chain_range _ _ _ Hc' i Hi). unfold ns1. rewrite node_at_set by lia.
      destruct (Z.eqb_spec i x) as [-> | ?]; [contradiction | reflexivity]. }
    specialize (IH ns1 _ C1 bs1 fuel (fun i => P i \/ i = x)).
    rewrite B1 in IH. specialize (IH Hbs HN ltac:(cbn in Hf; lia)).
    destruct (rethread _ _ _ _ _) as [ns' bs'].
    destruct IH as (T & [SL SG] & BL & Fr).
    { intros i Hi [Hp | ->]; [| contradiction]. apply (HP i); [right; exact Hi | exact Hp]. }
    { exact HT'. }
    split; [| split; [| split]].
    + revert T. apply table_iff. intros i. rewrite elem_of_cons. tauto.
    + split; [lia |]. intros i Hi. destruct (SG i ltac:(lia)) as [-> ->].
      unfold ns1. rewrite node_at_set by lia. destruct (Z.eqb_spec i x) as [-> | ?]; auto.
    + lia.
    + intros i Hi Hn. rewrite elem_of_cons in Hn. rewrite Fr by (lia || tauto).
      unfold ns1. rewrite node_at_set by lia. destruct (Z.eqb_spec i x); tauto.
Qed.

Lemma same_gates_trans a b c : same_gates a b -> same_gates b c -> same_gates a c.
Proof.
  intros [La Ga] [Lb Gb]. split; [lia |]. intros i Hi.
  destruct (Ga i Hi) as [<- <-]. apply Gb. lia.
Qed.

Lemma map_gate_eq ns ns' :
  length ns' = length ns ->
  (forall i, 1 <= i <= Z.of_nat (length ns) -> gate (node_at ns' i) = gate (node_at ns i)) ->
  map gate ns' = map gate ns.
Proof.
  intros L G. apply list_eq. intros i. rewrite !list_lookup_fmap.
  destruct (decide (i < length ns)%nat) as [Hi | Hi].
  - pose proof (G (Z.of_nat i + 1) ltac:(lia)) as E. revert E. unfold node_at.
    replace (Z.to_nat (Z.of_nat i + 1 - 1)) with i by lia. rewrite !nth_lookup.
    destruct (lookup_lt_is_Some_2 ns i Hi) as [d Hd].
    destruct (lookup_lt_is_Some_2 ns' i ltac:(lia)) as [d' Hd'].
    rewrite Hd, Hd'. cbn. congruence.
  - rewrite !lookup_ge_None_2 by lia. reflexivity.
Qed.

Lemma same_gates_map ns ns' : same_gates ns ns' -> map gate ns' = map gate ns.
Proof. intros [L G]. apply map_gate_eq; [exact L |]. intros i Hi. apply G, Hi. Qed.

Lemma rethread_all mask old cs : forall ns bs P,
  (0 < length bs)%nat -> mask = Z.of_nat (length bs) - 1 ->
  Forall2 (chain ns) old cs -> NoDup (concat cs) ->
  (forall i, i ∈ concat cs -> ~ P i) -> table ns bs P ->
  let '(ns', bs') :=
    fold_left (fun '(ns, bs) idx => rethread (length ns) ns bs mask idx) old (ns, bs) in
  table ns' bs' (fun i => P i \/ i ∈ concat cs) /\ same_gates ns ns' /\
  length bs' = length bs.
Proof.
  revert cs. induction old as [| idx old IH]; intros cs ns bs P Hbs Hm HF HN HP HT.
  - inversion HF; subst. cbn. split; [| split; [split; auto | reflexivity]].
    revert HT. apply table_iff. intros i. rewrite elem_of_nil. tauto.
  - inversion HF as [| ? c ? cs' Hc HF']; subst. cbn [fold_left concat] in *.
    apply list.NoDup_app in HN as (HNc & HD & HN').
    assert (Lc : (length c <= length ns)%nat).
    { apply distinct_bound; [exact HNc |]. apply (chain_range _ _ _ Hc). }
    pose proof (rethread_spec (length ns) ns bs _ idx c P Hbs eq_refl Hc HNc Lc) as R.
    destruct (rethread _ _ _ _ _) as [ns1 bs1].
    destruct R as (T1 & G1 & B1 & Fr); [| exact HT |].
    { intros i Hi. apply HP. apply elem_of_app. auto. }
    specialize (IH cs' ns1 bs1 (fun i => P i \/ i ∈ c)). rewrite B1 in IH.
    specialize (IH Hbs eq_refl).
    destruct (fold_left _ _ _) as [ns2 bs2]. destruct IH as (T2 & G2 & B2); auto.
    + apply Forall2_same_length_lookup_2; [eapply Forall2_length; eauto |].
      intros k b' c' Hk Hk'. pose proof (Forall2_lookup_lr _ _ _ _ _ _ HF' Hk Hk') as C.
      apply (chain_frame ns); [exact C | destruct G1; lia |].
      intros i Hi. rewrite Fr; [reflexivity | eapply chain_range; eauto |].
      intros Hic. apply (HD i Hic). eapply elem_of_concat_lookup; eauto.
    + intros i Hi [Hp | Hic]; [| eapply HD; eauto].
      apply (HP i); [| exact Hp]. apply elem_of_app. auto.
    + split; [| split; [eapply same_gates_trans; eauto | congruence]].
      revert T2. apply table_iff. intros i. rewrite elem_of_app. tauto.
Qed.

(** Index [i] is an AND gate. *)
Definition and_at (ns : list data) (i : Z) : Prop :=
  1 <= i <= Z.of_nat (length ns) /\ left (node_at ns i) <> 0.

Lemma and_at_same ns ns' i : same_gates ns ns' -> and_at ns' i <-> and_at ns i.
Proof.
  intros [L G]. unfold and_at. rewrite L. split; intros [Hi N]; (split; [exact Hi |]);
    destruct (G i Hi) as [E _]; injection E; congruence.
Qed.

Lemma concat_replicate_nil {A} n : concat (replicate n (@nil A)) = [].
Proof. induction n; auto. Qed.

Lemma table_empty ns n : table ns (replicate n 0) (fun _ => False).
Proof.
  exists (replicate n []). rewrite concat_replicate_nil. split; [| split; [| split]].
  - apply Forall2_replicate. constructor.
  - constructor.
  - intros i. rewrite elem_of_nil. tauto.
  - intros h c i H Hi. apply lookup_replicate in H as [-> _]. inversion Hi.
Qed.

(** ** The manager's invariant *)

Record inv (m : aig) : Prop := {
  inv_alloc : forall n, alloc m n = true;
  inv_first : gates m !! 0%nat = Some (0, 0);
  inv_topo : topo (gates m);
  inv_cap : nodes_size m <= nodes_cap m;
  inv_buckets : (0 < length (buckets m))%nat;
  inv_table : table (nodes m) (buckets m) (and_at (nodes m)) }.

(** [m'] has at least the gates of [m]. *)
Definition ext (m m' : aig) : Prop := gates m `prefix_of` gates m'.

#[export] Instance ext_preorder : PreOrder ext.
Proof.
  split; [intros m; exists []; rewrite app_nil_r; reflexivity |].
  intros a b c. unfold ext. apply transitivity.
Qed.

Lemma ext_eq m m' : gates m' = gates m -> ext m m'.
Proof. intros E. unfold ext. rewrite E. reflexivity. Qed.

Lemma ext_snoc m m' g : gates m' = gates m ++ [g] -> ext m m'.
Proof. intros E. exists [g]. exact E. Qed.

Lemma buckets_resize_spec m :
  inv m ->
  let m' := buckets_resize m in
  inv m' /\ gates m' = gates m /\ nodes_cap m' = nodes_cap m /\
  num_in_table m' = num_in_table m /\
  length (buckets m') = (length (buckets m) * 2)%nat.
Proof.
  intros [Ha Hf Ht Hc Hb (chs & HF & HN & Hin & Hh)]. unfold buckets_resize.
  set (n := (length (buckets m) * 2)%nat).
  pose proof (rethread_all (Z.of_nat n - 1) (buckets m) chs (nodes m) (replicate n 0)
    (fun _ => False)) as R.
  rewrite length_replicate in R. specialize (R ltac:(lia) eq_refl HF HN
    ltac:(tauto) (table_empty _ _)).
  destruct (fold_left _ _ _) as [ns bs]. destruct R as (T & G & L).
  pose proof (same_gates_map _ _ G) as E. cbn.
  split; [| unfold gates; cbn; rewrite L; auto].
  constructor; cbn; unfold gates, nodes_size in *; cbn; rewrite ?E; auto; try lia.
  - destruct G as [-> _]. exact Hc.
  - revert T. apply table_iff. intros i. rewrite (and_at_same _ _ i G), Hin. tauto.
Qed.

(** ** Interning *)

Lemma find_chain_spec ns l r c : forall fuel idx,
  chain ns idx c -> (length c <= fuel)%nat ->
  (find_chain fuel ns idx l r = 0 /\ forall i, i ∈ c -> gate (node_at ns i) <> (l, r)) \/
  (find_chain fuel ns idx l r ∈ c /\ gate (node_at ns (find_chain fuel ns idx l r)) = (l, r)).
Proof.
  induction c as [| x c IH]; intros fuel idx Hc Hf; inversion Hc as [| ? ? Hx Hc']; subst.
  - left. split; [destruct fuel; reflexivity |]. intros i Hi. inversion Hi.
  - destruct fuel as [| fuel]; [cbn in Hf; lia |]. cbn [find_chain].
    destruct (Z.eqb_spec x 0); [lia |].
    destruct (Z.eqb_spec (left (node_at ns x)) l) as [El | Nl];
    destruct (Z.eqb_spec (right (node_at ns x)) r) as [Er | Nr]; cbn [andb].
    1: { right. split; [left |]. unfold gate. congruence. }
    all: assert (Ng : gate (node_at ns x) <> (l, r)) by (unfold gate; congruence);
      destruct (IH fuel _ Hc' ltac:(cbn in Hf; lia)) as [[E H] | [H E]].
    all: first [ left; split; [exact E |]; intros i Hi; apply elem_of_cons in Hi as [-> | Hi];
                 [exact Ng | apply H, Hi]
               | right; split; [right; exact H | exact E] ].
Qed.

Lemma table_frame ns ns' bs P :
  (length ns <= length ns')%nat ->
  (forall i, 1 <= i <= Z.of_nat (length ns) ->
     gate (node_at ns' i) = gate (node_at ns i) /\
     next_in_bucket (node_at ns' i) = next_in_bucket (node_at ns i)) ->
  table ns bs P -> table ns' bs P.
Proof.
  intros L F (chs & HF & HN & Hin & Hh). exists chs.
  split; [| split; [exact HN | split; [exact Hin |]]].
  - apply Forall2_same_length_lookup_2; [eapply Forall2_length; eauto |].
    intros k b c Hk Hk'. pose proof (Forall2_lookup_lr _ _ _ _ _ _ HF Hk Hk') as C.
    apply (chain_frame ns); [exact C | lia |]. intros i Hi. apply F.
    eapply chain_range; eauto.
  - intros h c i Hc Hi. destruct (Forall2_lookup_r _ _ _ _ _ HF Hc) as (b & _ & C).
    pose proof (chain_range _ _ _ C i Hi) as R. destruct (F i R) as [G _].
    rewrite <- (Hh h c i Hc Hi). unfold node_hash. unfold gate in G.
    injection G as -> ->. reflexivity.
Qed.

Lemma bump_at_spec ns i :
  1 <= i <= Z.of_nat (length ns) ->
  length (bump_at ns i) = length ns /\
  forall j, 1 <= j ->
    gate (node_at (bump_at ns i) j) = gate (node_at ns j) /\
    next_in_bucket (node_at (bump_at ns i) j) = next_in_bucket (node_at ns j).
Proof.
  intros Hi. unfold bump_at. split; [apply length_set_node |]. intros j Hj.
  rewrite node_at_set by lia. destruct (Z.eqb_spec j i) as [-> | ?]; auto.
Qed.

Lemma grow_cap_spec fuel cap want :
  0 < cap -> (Z.to_nat (want - cap) <= fuel)%nat -> want <= grow_cap fuel cap want.
Proof.
  revert cap. induction fuel as [| f IH]; intros cap Hc Hf; cbn.
  - lia.
  - destruct (Z.ltb_spec cap want); [apply IH; lia | lia].
Qed.

Lemma ensure_nodes_cap_ok m want :
  (forall n, alloc m n = true) -> 0 <= nodes_cap m ->
  exists cap, want <= cap /\ nodes_cap m <= cap /\
    ensure_nodes_cap m want = (0, mk_aig (alloc m) (nodes m) cap (buckets m)
      (num_in_table m) (num_inputs m) (num_ands m) (num_shared m)).
Proof.
  intros Ha Hc. unfold ensure_nodes_cap. destruct (Z.leb_spec want (nodes_cap m)).
  - exists (nodes_cap m). destruct m; cbn in *. split; [lia | split; [lia | reflexivity]].
  - rewrite Ha. eexists. split; [| split; [| reflexivity]].
    + destruct (Z.eqb_spec (nodes_cap m) 0); apply grow_cap_spec; lia.
    + destruct (Z.eqb_spec (nodes_cap m) 0);
        eapply Z.le_trans with want; try lia; apply grow_cap_spec; lia.
Qed.

(** No two AND gates of the arena have the same operands. *)
Definition unique_gates (m : aig) : Prop :=
  forall i j g, gates m !! i = Some g -> gates m !! j = Some g -> fst g <> 0 -> i = j.

Lemma gates_node_at m i :
  1 <= i <= nodes_size m -> gates m !! Z.to_nat (i - 1) = Some (gate (node_at (nodes m) i)).
Proof.
  intros Hi. unfold nodes_size in Hi. unfold gates, node_at.
  rewrite list_lookup_fmap, nth_lookup.
  destruct (lookup_lt_is_Some_2 (nodes m) (Z.to_nat (i - 1)) ltac:(lia)) as [d ->].
  reflexivity.
Qed.

Lemma gates_length m : length (gates m) = length (nodes m).
Proof. apply length_map. Qed.

(** The arena after a new gate [(l, r)] is appended, linked and counted. *)
Lemma append_spec ns bs l r :
  let n := Z.of_nat (length ns) in
  let h := bucket_hash l r (Z.of_nat (length bs) - 1) in
  let ns1 := ns ++ [mk_data l r (bucket_at bs h) 0] in
  let ns2 := bump_at (bump_at ns1 (Z.abs l)) (Z.abs r) in
  (0 < length bs)%nat -> table ns bs (and_at ns) -> 1 <= Z.abs l <= n -> 1 <= Z.abs r <= n ->
  l <> 0 ->
  map gate ns2 = map gate ns ++ [(l, r)] /\ length ns2 = S (length ns) /\
  table ns2 (set_bucket bs h (n + 1)) (and_at ns2).
Proof.
  intros n h ns1 ns2 Hbs HT Hl Hr Nl.
  assert (L1 : length ns1 = S (length ns)) by (unfold ns1; rewrite length_app; cbn; lia).
  destruct (bump_at_spec ns1 (Z.abs l) ltac:(lia)) as [La Fa].
  destruct (bump_at_spec (bump_at ns1 (Z.abs l)) (Z.abs r) ltac:(lia)) as [Lb Fb].
  fold ns2 in Lb, Fb.
  assert (F : forall j, 1 <= j -> gate (node_at ns2 j) = gate (node_at ns1 j) /\
            next_in_bucket (node_at ns2 j) = next_in_bucket (node_at ns1 j)).
  { intros j Hj. destruct (Fa j Hj) as [<- <-]. apply Fb, Hj. }
  assert (A1 : forall i, and_at ns1 i <-> and_at ns i \/ i = n + 1).
  { intros i. unfold and_at. rewrite L1. unfold ns1. split.
    - intros [Hi N]. rewrite node_at_app in N by lia. fold n in N.
      destruct (Z.eqb_spec i (n + 1)); [auto | left; split; [lia | exact N]].
    - intros [[Hi N] | ->]; (split; [lia |]); rewrite node_at_app by lia; fold n.
      + destruct (Z.eqb_spec i (n + 1)); [exact Nl | exact N].
      + rewrite Z.eqb_refl. exact Nl. }
  split; [| split; [lia |]].
  - transitivity (map gate ns1); [| unfold ns1; rewrite map_app; reflexivity].
    apply map_gate_eq; [lia |]. intros i Hi. apply F. lia.
  - apply (table_iff _ _ (and_at ns1)).
    { intros i. unfold and_at. rewrite Lb, La. split; intros [Hi N]; (split; [exact Hi |]);
        destruct (F i ltac:(lia)) as [G _]; injection G; congruence. }
    apply (table_frame ns1); [lia | intros i Hi; apply F; lia |].
    apply (table_iff _ _ (fun i => and_at ns i \/ i = n + 1)); [intros i; symmetry; apply A1 |].
    set (ns0 := ns ++ [mk_data l r 0 0]).
    assert (T0 : table ns0 bs (and_at ns)).
    { apply (table_frame ns); [unfold ns0; rewrite length_app; cbn; lia | | exact HT].
      intros i Hi. unfold ns0. rewrite node_at_app by lia.
      destruct (Z.eqb_spec i (Z.of_nat (length ns) + 1)); [lia | auto]. }
    assert (L0 : length ns0 = S (length ns)) by (unfold ns0; rewrite length_app; cbn; lia).
    assert (N0 : node_at ns0 (n + 1) = mk_data l r 0 0).
    { unfold ns0. rewrite node_at_app by lia. fold n. rewrite Z.eqb_refl. reflexivity. }
    assert (~ and_at ns (n + 1)) as Hna by (intros [? _]; lia).
    pose proof (table_push ns0 bs (and_at ns) (n + 1) Hbs ltac:(lia) Hna T0) as T1.
    unfold node_hash in T1. rewrite N0 in T1. cbn in T1. fold h in T1.
    replace (set_node ns0 (n + 1) _) with ns1 in T1; [exact T1 |].
    unfold set_node, ns0, ns1, set_next. cbn.
    replace (Z.to_nat (n + 1 - 1)) with (length ns + 0)%nat by lia.
    rewrite insert_app_r. reflexivity.
Qed.

(** What a constructor establishes: the manager only grew, its invariant and
    the absence of duplicate gates are kept. *)
Definition grown (m m' : aig) : Prop :=
  inv m' /\ ext m m' /\ (unique_gates m -> unique_gates m').

Lemma unique_snoc m m' g :
  gates m' = gates m ++ [g] -> (forall i, gates m !! i <> Some g) ->
  unique_gates m -> unique_gates m'.
Proof.
  intros E N U i j x Hi Hj Hx. rewrite E in Hi, Hj.
  apply lookup_app_Some in Hi as [Hi | [Gi Hi]], Hj as [Hj | [Gj Hj]].
  - eapply U; eauto.
  - apply list_lookup_singleton_Some in Hj as [_ <-]. destruct (N i Hi).
  - apply list_lookup_singleton_Some in Hi as [_ <-]. destruct (N j Hj).
  - apply list_lookup_singleton_Some in Hi as [Zi _], Hj as [Zj _]. lia.
Qed.

Lemma intern_and_spec m l r :
  inv m -> 2 <= Z.abs l <= nodes_size m -> 2 <= Z.abs r <= nodes_size m ->
  let '(x, m') := intern_and m l r in
  grown m m' /\ 0 < x <= nodes_size m' /\ gates m' !! Z.to_nat (x - 1) = Some (l, r) /\
  (gates m' = gates m \/ gates m' = gates m ++ [(l, r)] /\ forall i, gates m !! i <> Some (l, r)).
Proof.
  intros I Hl Hr. unfold intern_and. set (h := bucket_hash l r (buckets_mask m)).
  destruct (inv_table m I) as (chs & HF & HN & Hin & Hh).
  pose proof (inv_buckets m I) as Hb.
  assert (Rh : 0 <= h < Z.of_nat (length (buckets m))) by (apply bucket_hash_range; auto).
  destruct (lookup_lt_is_Some_2 (buckets m) (Z.to_nat h) ltac:(lia)) as [b Eb].
  destruct (Forall2_lookup_l _ _ _ _ _ HF Eb) as (c & Ec & Cc).
  assert (Bb : bucket_at (buckets m) h = b).
  { unfold bucket_at. apply nth_lookup_Some with (d := 0) in Eb. exact Eb. }
  rewrite Bb.
  assert (NDc : NoDup c).
  { apply (list_elem_of_split_length chs) in Ec as (p & q & -> & _).
    rewrite concat_app in HN. apply list.NoDup_app in HN as (_ & _ & HN).
    cbn in HN. apply list.NoDup_app in HN. tauto. }
  assert (Lc : (length c <= length (nodes m))%nat)
    by (apply distinct_bound; [exact NDc | apply (chain_range _ _ _ Cc)]).
  destruct (find_chain_spec (nodes m) l r c _ _ Cc Lc) as [[E Miss] | [Hit Eg]].
  2: { set (x := find_chain _ _ _ _ _) in *. pose proof (chain_range _ _ _ Cc x Hit) as Rx.
       destruct (Z.eqb_spec x 0); [lia |]. cbn [negb].
       split; [split; [constructor; cbn; apply I | split; [apply ext_eq; reflexivity | auto]] |].
       split; [unfold nodes_size; cbn; lia |]. split; [| left; reflexivity].
       change (gates m !! Z.to_nat (x - 1) = Some (l, r)). rewrite gates_node_at by (unfold nodes_size; lia).
       rewrite Eg. reflexivity. }
  rewrite E. cbn [negb Z.eqb].
  assert (New : forall i, gates m !! i <> Some (l, r)).
  { intros i Hi. pose proof (lookup_lt_Some _ _ _ Hi) as Li. rewrite gates_length in Li.
    assert (Ei : gate (node_at (nodes m) (Z.of_nat i + 1)) = (l, r)).
    { pose proof (gates_node_at m (Z.of_nat i + 1) ltac:(unfold nodes_size; lia)) as G.
      replace (Z.to_nat (Z.of_nat i + 1 - 1)) with i in G by lia. congruence. }
    assert (Ai : and_at (nodes m) (Z.of_nat i + 1)).
    { split; [lia |]. injection Ei. lia. }
    apply Hin in Ai. apply list_elem_of_In, in_concat in Ai as (c' & Hc' & Hi').
    apply list_elem_of_In, list_elem_of_lookup in Hc' as [k Hk].
    apply list_elem_of_In in Hi'. pose proof (Hh _ _ _ Hk Hi') as Hk'.
    unfold node_hash in Hk'. injection Ei as El Er. rewrite El, Er in Hk'.
    assert (k = Z.to_nat h) as -> by (unfold h, buckets_mask; lia).
    rewrite Ec in Hk. injection Hk as <-. apply (Miss _ Hi'). unfold gate. congruence. }
  set (m1 := if num_in_table m >=? buckets_mask m + 1 then buckets_resize m else m).
  assert (I1 : inv m1 /\ gates m1 = gates m).
  { unfold m1. destruct (_ >=? _); [| auto].
    destruct (buckets_resize_spec m I) as (? & ? & _). auto. }
  destruct I1 as [I1 G1].
  replace (if num_in_table m >=? buckets_mask m + 1
           then bucket_hash l r (buckets_mask m1) else h)
    with (bucket_hash l r (buckets_mask m1)).
  2: { unfold m1, h. destruct (_ >=? _); reflexivity. }
  clearbody m1.
  assert (S1 : nodes_size m1 = nodes_size m).
  { unfold nodes_size. rewrite <- !gates_length, G1. reflexivity. }
  destruct (ensure_nodes_cap_ok m1 (nodes_size m1 + 1)) as (cap & Hw & _ & ->);
    [apply I1 | pose proof (inv_cap m1 I1); unfold nodes_size in *; lia |].
  cbn [negb Z.eqb nodes buckets].
  unfold buckets_mask, nodes_size in *. cbn [nodes].
  destruct (append_spec (nodes m1) (buckets m1) l r) as (Ga & La & Ta);
    [apply I1 | apply I1 | lia | lia | lia |].
  set (ns2 := bump_at _ _) in *. set (bs2 := set_bucket _ _ _) in *.
  match goal with |- grown m ?M /\ _ => set (m' := M) end.
  assert (G' : gates m' = gates m ++ [(l, r)]) by (rewrite <- G1; exact Ga).
  split; [split; [| split] |].
  - constructor.
    + apply I1.
    + rewrite G'. rewrite lookup_app_l by (pose proof (lookup_lt_Some _ _ _ (inv_first m I)); lia).
      apply I.
    + rewrite G'. intros i l' r' Hi Nl. apply lookup_app_Some in Hi as [Hi | [Gi Hi]].
      * exact (inv_topo m I i l' r' Hi Nl).
      * apply list_lookup_singleton_Some in Hi as [? Hi]. injection Hi as <- <-.
        rewrite gates_length in *. lia.
    + unfold nodes_size. cbn. rewrite La. lia.
    + cbn. unfold bs2, set_bucket. rewrite length_insert. apply I1.
    + exact Ta.
  - eapply ext_snoc, G'.
  - apply unique_snoc with (l, r); auto.
  - cbn [nodes]. split; [lia |]. split; [| right; auto].
    rewrite G'. replace (Z.to_nat _) with (length (gates m)) by (rewrite gates_length; lia).
    rewrite lookup_app_r, Nat.sub_diag by lia. reflexivity.
Qed.

(** ** Literals *)

Lemma eval_opp m env id : id <> 0 -> eval m env (- id) = negb (eval m env id).
Proof. apply lit_neg. Qed.

Lemma eval_true m env : inv m -> eval m env TRUE = true.
Proof.
  intros I. unfold eval, lit, TRUE. cbn [Z.ltb Z.compare].
  change (Z.to_nat (Z.abs 1 - 1)) with 0%nat.
  rewrite (values_lookup env _ _ _ (inv_first m I)). reflexivity.
Qed.

Lemma eval_false m env : inv m -> eval m env FALSE = false.
Proof.
  intros I. change FALSE with (- TRUE). rewrite eval_opp by discriminate.
  rewrite eval_true by auto. reflexivity.
Qed.

Lemma eval_ext m m' env id : ext m m' -> valid m id -> eval m' env id = eval m env id.
Proof.
  intros [ws E] [H1 H2]. unfold eval. rewrite E.
  destruct (values_app env (gates m) ws) as (vs & -> & _).
  apply lit_app. rewrite values_length, gates_length. unfold nodes_size in H2. lia.
Qed.

Lemma valid_ext m m' id : ext m m' -> valid m id -> valid m' id.
Proof.
  intros [ws E] [H1 H2]. unfold valid, nodes_size in *. rewrite <- gates_length in *.
  rewrite E, length_app. lia.
Qed.

Lemma valid_opp m id : valid m id -> valid m (- id).
Proof. unfold valid. rewrite Z.abs_opp. auto. Qed.

Lemma valid_true m : inv m -> valid m TRUE.
Proof.
  intros I. pose proof (lookup_lt_Some _ _ _ (inv_first m I)) as H.
  rewrite gates_length in H. unfold valid, nodes_size, TRUE. lia.
Qed.

(** The children of an AND literal, and its value from theirs. *)
Lemma children_spec m id a b :
  inv m -> is_and_id m id = true -> children_of m id = (a, b) ->
  Z.abs id <= nodes_size m /\ 2 <= Z.abs a < Z.abs id /\ 2 <= Z.abs b < Z.abs id /\
  forall env, eval m env id = xorb (id <? 0) (eval m env a && eval m env b).
Proof.
  intros I H C. unfold is_and_id in H. unfold children_of in C.
  destruct (Z.eqb_spec id 0); [discriminate |].
  destruct (Z.eqb_spec id TRUE); [discriminate |].
  destruct (Z.eqb_spec id FALSE); [discriminate |]. cbn [orb] in H.
  destruct (Z.gtb_spec (Z.abs id) (nodes_size m)); [discriminate |].
  injection C as <- <-. set (d := node_at (nodes m) (Z.abs id)) in *.
  apply negb_true_iff, Z.eqb_neq in H.
  pose proof (gates_node_at m (Z.abs id) ltac:(lia)) as G. fold d in G.
  change (gate d) with (left d, right d) in G.
  destruct (inv_topo m I _ _ _ G H). split; [lia |]. split; [lia |]. split; [lia |].
  intros env. pose proof (lit_gate env (gates m) _ _ _ (inv_topo m I) G H) as E.
  replace (Z.of_nat _ + 1) with (Z.abs id) in E by lia. fold (eval m env (Z.abs id)) in E.
  unfold eval at 2 3. rewrite <- E.
  destruct (Z.ltb_spec id 0).
  - replace id with (- Z.abs id) at 1 by lia. rewrite eval_opp by lia. reflexivity.
  - rewrite Z.abs_eq by lia. symmetry. apply xorb_false_l.
Qed.

(** ** The rewriting rules are sound and terminate *)

(** The outcome [o] of rewriting [l /\ r]: an existing literal with that value,
    or two non-constant operands, in order, whose conjunction it is. *)
Definition good (m : aig) (l r : Z) (o : option (Z * Z * Z)) : Prop :=
  match o with
  | None => False
  | Some (res, nl, nr) =>
      (valid m res /\ forall env, eval m env res = eval m env l && eval m env r) \/
      (res = NULL /\ 2 <= Z.abs nl <= Z.abs nr /\ Z.abs nr <= nodes_size m /\
       forall env, eval m env nl && eval m env nr = eval m env l && eval m env r)
  end.

Lemma good_step m l r l' r' o :
  (forall env, eval m env l' && eval m env r' = eval m env l && eval m env r) ->
  good m l' r' o -> good m l r o.
Proof.
  intros E. destruct o as [[[res nl] nr] |]; cbn; [| auto].
  intros [[V H] | (Z0 & B & B' & H)]; [left | right]; auto.
  - split; [exact V |]. intros env. rewrite H. apply E.
  - split; [exact Z0 |]. split; [exact B |]. split; [exact B' |].
    intros env. rewrite H. apply E.
Qed.

(** Turns a true condition of the C code into equations between ids. *)
Ltac split_cond :=
  repeat match goal with
  | H : (_ && _)%bool = true |- _ => apply andb_prop in H as [? ?]
  | H : (_ || _)%bool = true |- _ => apply orb_prop in H as [? | ?]
  | H : (_ =? _) = true |- _ => apply Z.eqb_eq in H
  | H : negb _ = true |- _ => apply negb_true_iff in H
  | H : (_ <? _) = true |- _ => apply Z.ltb_lt in H
  | H : (_ <? _) = false |- _ => apply Z.ltb_ge in H
  | H : (_ >? _) = true |- _ => apply Z.gtb_lt in H
  | H : (_ >? _) = false |- _ => rewrite Z.gtb_ltb in H; apply Z.ltb_ge in H
  end.

(** Closes a boolean goal about literals from the equations between ids. *)
Ltac eval_solve m env I :=
  repeat match goal with
  | E : _ = _ :> Z |- _ => apply (f_equal (eval m env)) in E;
      rewrite ?eval_opp, ?(eval_true m env I), ?(eval_false m env I) in E by lia
  | E : forall e, eval m e _ = _ |- _ => specialize (E env)
  end;
  rewrite ?eval_opp, ?(eval_false m env I), ?(eval_true m env I) by lia;
  repeat match goal with
  | H : context [eval m env ?x] |- _ => destruct (eval m env x)
  | |- context [eval m env ?x] => destruct (eval m env x)
  end; cbn in *; congruence.

(** Walks the chain of tests; each exit is one rule. *)
Ltac rewrite_cases :=
  repeat match goal with
  | |- good _ _ _ (if ?x >? ?y then _ else _) => destruct (x >? y) eqn:?
  | |- good _ _ _ (if ?k then _ else _) =>
      let K := fresh "K" in destruct k eqn:K; [| clear K]
  end;
  match goal with
  | |- good _ _ _ (Some (NULL, _, _)) =>
      right; split_cond; repeat split; try lia; intros env; btauto
  | I : inv ?m |- good ?m _ _ (Some _) =>
      left; split; [unfold valid in *; lia | intros env; split_cond; eval_solve m env I]
  | I : inv ?m |- good ?m _ _ (rewrite_loop _ _ _ _) =>
      eapply good_step;
      [| match goal with IH : _ |- _ => apply IH; unfold valid in *; lia end];
      intros env; split_cond; eval_solve m env I
  end.

Lemma rewrite_loop_sound m : inv m -> forall fuel l r,
  valid m l -> valid m r -> (Z.to_nat (Z.abs l + Z.abs r) < fuel)%nat ->
  good m l r (rewrite_loop fuel m l r).
Proof.
  intros I. induction fuel as [| fuel IH]; intros l r Vl Vr Hf; [lia |].
  cbn [rewrite_loop].
  assert (VF : valid m FALSE) by (apply (valid_opp m TRUE), valid_true, I).
  pose proof Vl as [? ?]. pose proof Vr as [? ?].
  destruct ((l =? TRUE) || (l =? r)) eqn:C1.
  { left. split; [exact Vr |]. intros env. split_cond; subst; eval_solve m env I. }
  destruct (r =? TRUE) eqn:C2.
  { left. split; [exact Vl |]. intros env. split_cond. eval_solve m env I. }
  destruct ((l =? FALSE) || (r =? FALSE) || (l =? - r)) eqn:C3.
  { left. split; [exact VF |]. intros env. split_cond; eval_solve m env I. }
  assert (2 <= Z.abs l /\ 2 <= Z.abs r) as [Bl Br].
  { apply orb_false_iff in C1 as [C1 _]. apply Z.eqb_neq in C1, C2.
    rewrite !orb_false_iff, !Z.eqb_neq in C3. unfold TRUE, FALSE in *. lia. }
  clear C1 C2 C3.
  destruct (is_and_id m l) eqn:Al; [destruct (children_of m l) as [a b] eqn:Cl;
    destruct (children_spec m l a b I Al Cl) as (? & ? & ? & El) |];
  (destruct (is_and_id m r) eqn:Ar; [destruct (children_of m r) as [c d] eqn:Cr;
    destruct (children_spec m r c d I Ar Cr) as (? & ? & ? & Er) |]);
  destruct (l <? 0) eqn:Nl; destruct (r <? 0) eqn:Nr; cbn [negb andb orb].
  all: rewrite_cases.
Qed.

Lemma rewrite_and_good m l r :
  inv m -> valid m l -> valid m r ->
  let '(res, nl, nr) := rewrite_and m l r in good m l r (Some (res, nl, nr)).
Proof.
  intros I Vl Vr. unfold rewrite_and.
  pose proof (rewrite_loop_sound m I (S (Z.to_nat (Z.abs l + Z.abs r))) l r Vl Vr ltac:(lia)).
  destruct (rewrite_loop _ _ _ _) as [[[res nl] nr] |]; [assumption | contradiction].
Qed.

(** ** Gate constructors *)

(** [m'] grew from [m] and [x] is a literal of it with value [f]. *)
Definition computes (m : aig) (f : (Z -> bool) -> bool) (xm : Z * aig) : Prop :=
  let '(x, m') := xm in
  grown m m' /\ valid m' x /\ forall env, eval m' env x = f env.

Lemma grown_trans m1 m2 m3 : grown m1 m2 -> grown m2 m3 -> grown m1 m3.
Proof.
  intros (_ & E1 & U1) (I2 & E2 & U2). split; [exact I2 |]. split; [| auto].
  transitivity m2; auto.
Qed.

Lemma grown_refl m : inv m -> grown m m.
Proof. intros I. split; [exact I |]. split; [reflexivity | auto]. Qed.

Lemma mk_and_spec m a b :
  inv m -> valid m a -> valid m b ->
  computes m (fun env => eval m env a && eval m env b) (mk_and m a b).
Proof.
  intros I Va Vb. unfold mk_and. pose proof (rewrite_and_good m a b I Va Vb) as G.
  destruct (rewrite_and m a b) as [[res nl] nr].
  destruct G as [[V E] | (-> & B & B' & E)].
  - destruct (Z.eqb_spec res NULL) as [-> | ?]; [unfold valid, NULL in V; cbn in V; lia |].
    cbn. split; [apply grown_refl, I | auto].
  - cbn [negb Z.eqb NULL]. pose proof (intern_and_spec m nl nr I ltac:(lia) ltac:(lia)) as S.
    destruct (intern_and m nl nr) as [x m']. destruct S as (G & Hx & Lx & _).
    split; [exact G |]. split; [unfold valid; lia |]. intros env. rewrite <- E.
    destruct G as (I' & X & _).
    pose proof (lit_gate env (gates m') _ nl nr (inv_topo m' I') Lx ltac:(lia)) as L.
    replace (Z.of_nat _ + 1) with x in L by lia.
    change (eval m' env x = eval m' env nl && eval m' env nr) in L. rewrite L.
    rewrite !(eval_ext m m') by (auto; unfold valid; lia). reflexivity.
Qed.

Lemma grown_eval m m' env id : grown m m' -> valid m id -> eval m' env id = eval m env id.
Proof. intros (_ & X & _). apply eval_ext, X. Qed.

Lemma grown_valid m m' id : grown m m' -> valid m id -> valid m' id.
Proof. intros (_ & X & _). apply valid_ext, X. Qed.

Lemma grown_inv m m' : grown m m' -> inv m'.
Proof. intros (I & _). exact I. Qed.

(** Chains of growth steps. *)
Ltac grow :=
  first [eassumption | (apply grown_refl; eassumption)
        | (eapply grown_trans; [eassumption | grow])].

Lemma mk_or_spec m a b :
  inv m -> valid m a -> valid m b ->
  computes m (fun env => eval m env a || eval m env b) (mk_or m a b).
Proof.
  intros I Va Vb. unfold mk_or.
  pose proof (mk_and_spec m (- a) (- b) I (valid_opp _ _ Va) (valid_opp _ _ Vb)) as S.
  destruct (mk_and _ _ _) as [r m']. destruct S as (G & V & E).
  split; [exact G |]. split; [apply valid_opp, V |]. intros env.
  unfold valid in *. rewrite eval_opp, E, !eval_opp by lia.
  rewrite negb_andb, !negb_involutive. reflexivity.
Qed.

Lemma mk_xor_spec m a b :
  inv m -> valid m a -> valid m b ->
  computes m (fun env => xorb (eval m env a) (eval m env b)) (mk_xor m a b).
Proof.
  intros I Va Vb. unfold mk_xor.
  pose proof (mk_and_spec m a (- b) I Va (valid_opp _ _ Vb)) as S1.
  destruct (mk_and m a (- b)) as [l m1]. destruct S1 as (G1 & V1 & E1).
  pose proof (mk_and_spec m1 (- a) b (grown_inv _ _ G1)
    (valid_opp _ _ (grown_valid _ _ _ G1 Va)) (grown_valid _ _ _ G1 Vb)) as S2.
  destruct (mk_and m1 (- a) b) as [r m2]. destruct S2 as (G2 & V2 & E2).
  pose proof (mk_or_spec m2 l r (grown_inv _ _ G2) (grown_valid _ _ _ G2 V1) V2) as S3.
  destruct (mk_or m2 l r) as [x m3]. destruct S3 as (G3 & V3 & E3).
  split; [grow |]. split; [exact V3 |]. intros env.
  rewrite E3, (grown_eval m1 m2), E1, E2 by auto.
  assert (a <> 0 /\ b <> 0) as [Na Nb] by (unfold valid in *; lia).
  rewrite !eval_opp, !(grown_eval m m1) by auto.
  destruct (eval m env a), (eval m env b); reflexivity.
Qed.

Lemma mk_iff_spec m a b :
  inv m -> valid m a -> valid m b ->
  computes m (fun env => Bool.eqb (eval m env a) (eval m env b)) (mk_iff m a b).
Proof.
  intros I Va Vb. unfold mk_iff. pose proof (mk_xor_spec m a b I Va Vb) as S.
  destruct (mk_xor m a b) as [r m']. destruct S as (G & V & E).
  split; [exact G |]. split; [apply valid_opp, V |]. intros env.
  rewrite eval_opp, E by (unfold valid in V; lia).
  destruct (eval m env a), (eval m env b); reflexivity.
Qed.

Lemma mk_ite_spec m c t e :
  inv m -> valid m c -> valid m t -> valid m e ->
  computes m (fun env => if eval m env c then eval m env t else eval m env e) (mk_ite m c t e).
Proof.
  intros I Vc Vt Ve. unfold mk_ite.
  destruct (Z.eqb_spec c TRUE) as [-> | ?].
  { split; [grow |]. split; [exact Vt |]. intros env.
    rewrite eval_true by auto. reflexivity. }
  destruct (Z.eqb_spec c FALSE) as [-> | ?].
  { split; [grow |]. split; [exact Ve |]. intros env.
    rewrite eval_false by auto. reflexivity. }
  destruct (Z.eqb_spec t e) as [-> | ?].
  { split; [grow |]. split; [exact Ve |]. intros env.
    destruct (eval m env c); reflexivity. }
  pose proof (mk_and_spec m c t I Vc Vt) as S1.
  destruct (mk_and m c t) as [l m1]. destruct S1 as (G1 & V1 & E1).
  pose proof (mk_and_spec m1 (- c) e (grown_inv _ _ G1)
    (valid_opp _ _ (grown_valid _ _ _ G1 Vc)) (grown_valid _ _ _ G1 Ve)) as S2.
  destruct (mk_and m1 (- c) e) as [r m2]. destruct S2 as (G2 & V2 & E2).
  pose proof (mk_or_spec m2 l r (grown_inv _ _ G2) (grown_valid _ _ _ G2 V1) V2) as S3.
  destruct (mk_or m2 l r) as [x m3]. destruct S3 as (G3 & V3 & E3).
  split; [grow |]. split; [exact V3 |]. intros env.
  rewrite E3, (grown_eval m1 m2), E1, E2 by auto.
  rewrite eval_opp, !(grown_eval m m1) by (auto; unfold valid in *; lia).
  destruct (eval m env c), (eval m env t), (eval m env e); reflexivity.
Qed.

Lemma aig_new_spec al :
  (forall n, al n = true) ->
  exists m, aig_new al = Some m /\ inv m /\ unique_gates m /\ nodes_size m = 1.
Proof.
  intros Ha. unfold aig_new. rewrite Ha. cbn [negb].
  destruct (ensure_nodes_cap_ok (mk_aig al [] 0 [] 0 0 0 0) 64 Ha ltac:(cbn; lia))
    as (cap & Hw & _ & ->).
  cbn [negb Z.eqb alloc nodes_cap]. eexists. split; [reflexivity |].
  split; [| split; [| reflexivity]].
  - constructor; cbn; auto.
    + intros [| i] l r H; cbn in H; [| discriminate]. injection H as <- <-. congruence.
    + unfold nodes_size. cbn. lia.
    + lia.
    + apply (table_iff _ _ (fun _ => False)); [| exact (table_empty _ 64)].
      intros i. split; [tauto |]. intros [Hi N]. cbn in Hi.
      replace i with 1 in N by lia. apply N. reflexivity.
  - intros [| i] [| j] g Hi Hj Hg; cbn in *; try discriminate; auto.
Qed.

Lemma mk_input_spec m :
  inv m ->
  let '(x, m') := mk_input m in
  grown m m' /\ x = nodes_size m + 1 /\ nodes_size m' = x /\
  (forall env, eval m' env x = env x) /\ is_input m' x = true.
Proof.
  intros I. unfold mk_input.
  destruct (ensure_nodes_cap_ok m (nodes_size m + 1)) as (cap & Hw & Hc & ->);
    [apply I | pose proof (inv_cap m I); unfold nodes_size in *; lia |].
  cbn [negb Z.eqb]. set (m' := mk_aig _ _ _ _ _ _ _ _).
  assert (G : gates m' = gates m ++ [(0, 0)]) by (unfold m', gates; cbn; apply map_app).
  assert (Nm : nodes m' = nodes m ++ [null_data]) by reflexivity.
  assert (S : nodes_size m' = nodes_size m + 1).
  { unfold nodes_size. rewrite Nm, length_app. cbn [length]. lia. }
  pose proof (lookup_lt_Some _ _ _ (inv_first m I)) as L0.
  rewrite gates_length in L0.
  assert (NA : node_at (nodes m') (nodes_size m + 1) = null_data).
  { rewrite Nm, node_at_app by (unfold nodes_size; lia). unfold nodes_size.
    rewrite Z.eqb_refl. reflexivity. }
  split; [split; [| split] |].
  - constructor.
    + apply I.
    + rewrite G, lookup_app_l by (rewrite gates_length; lia). apply I.
    + rewrite G. intros i l r Hi Nl. apply lookup_app_Some in Hi as [Hi | [Gi Hi]].
      * exact (inv_topo m I i l r Hi Nl).
      * apply list_lookup_singleton_Some in Hi as [? Hi]. injection Hi as <- <-. congruence.
    + rewrite S. cbn. lia.
    + apply I.
    + pose proof (inv_table m I) as T.
      apply (table_iff _ _ (and_at (nodes m))).
      2:{ apply (table_frame (nodes m)); [rewrite Nm, length_app; lia | | exact T].
          intros i Hi. rewrite Nm, node_at_app by lia.
          destruct (Z.eqb_spec i (Z.of_nat (length (nodes m)) + 1)); [lia | auto]. }
      intros i. unfold and_at. rewrite Nm, length_app. cbn [length].
      split; intros [Hi N].
      * split; [lia |]. rewrite node_at_app by lia.
        destruct (Z.eqb_spec i (Z.of_nat (length (nodes m)) + 1)); [lia | exact N].
      * rewrite node_at_app in N by lia.
        destruct (Z.eqb_spec i (Z.of_nat (length (nodes m)) + 1)) as [-> | ?];
          [destruct N; reflexivity | split; [lia | exact N]].
  - eapply ext_snoc, G.
  - intros U i j g Hi Hj Hg. rewrite G in Hi, Hj.
    apply lookup_app_Some in Hi as [Hi | [_ Hi]], Hj as [Hj | [_ Hj]];
      try (apply list_lookup_singleton_Some in Hi as [_ <-]; destruct (Hg eq_refl));
      try (apply list_lookup_singleton_Some in Hj as [_ <-]; destruct (Hg eq_refl)).
    eapply U; eauto.
  - unfold nodes_size in *. cbn [nodes] in *. split; [reflexivity |]. split; [exact S |]. split.
    + intros env. unfold eval, lit.
      destruct (Z.ltb_spec (Z.of_nat (length (nodes m)) + 1) 0); [lia |].
      replace (Z.to_nat _) with (length (gates m)) by (rewrite gates_length; lia).
      rewrite (values_lookup env (gates m') _ (0, 0)).
      2: { rewrite G, lookup_app_r, Nat.sub_diag by lia. reflexivity. }
      rewrite G, take_app_length. unfold node_val. cbn.
      rewrite values_length, gates_length. destruct (Nat.eqb_spec (length (nodes m)) 0); [lia |].
      reflexivity.
    + unfold is_input. unfold TRUE, FALSE, nodes_size. rewrite S, Z.abs_eq, NA by lia.
      destruct (Z.eqb_spec (Z.of_nat (length (nodes m)) + 1) 0); [lia |].
      destruct (Z.eqb_spec (Z.of_nat (length (nodes m)) + 1) 1); [lia |].
      destruct (Z.eqb_spec (Z.of_nat (length (nodes m)) + 1) (-1)); [lia |]. cbn [orb].
      destruct (Z.gtb_spec (Z.of_nat (length (nodes m)) + 1) (Z.of_nat (length (nodes m)) + 1));
        [lia | reflexivity].
Qed.

(** ** Reachable managers *)

Inductive reachable : aig -> Prop :=
| reach_new al m :
    (forall n, al n = true) -> aig_new al = Some m -> reachable m
| reach_input m : reachable m -> reachable (snd (mk_input m))
| reach_and m a b :
    reachable m -> valid m a -> valid m b -> reachable (snd (mk_and m a b)).

Lemma reachable_inv m : reachable m -> inv m /\ unique_gates m.
Proof.
  induction 1 as [al m Ha E | m R [I U] | m a b R [I U] Va Vb].
  - destruct (aig_new_spec al Ha) as (m' & E' & ? & ? & _). rewrite E in E'.
    injection E' as ->. auto.
  - pose proof (mk_input_spec m I) as S. destruct (mk_input m) as [x m'].
    destruct S as ((I' & _ & U') & _). auto.
  - pose proof (mk_and_spec m a b I Va Vb) as S. destruct (mk_and m a b) as [x m'].
    destruct S as ((I' & _ & U') & _). auto.
Qed.

(** A manager with two inputs (ids 2 and 3) for the witnesses. *)
Definition all_mem : Z -> bool := fun _ => true.
Definition empty_aig : aig :=
  mk_aig all_mem [null_data] 64 (replicate 64 0) 0 0 0 0.
Definition two_inputs : aig := snd (mk_input (snd (mk_input empty_aig))).

Lemma two_inputs_reachable : reachable two_inputs.
Proof.
  apply reach_input, reach_input. apply (reach_new all_mem); reflexivity.
Qed.

Lemma two_inputs_inv : inv two_inputs.
Proof. apply reachable_inv, two_inputs_reachable. Qed.

(** * Properties *)

(** C31: the gate constructors compute their connectives.  On a well-formed
    manager and valid operands, each returns a valid literal of a grown
    manager whose value, under every assignment of the inputs, is the
    connective of the operands' values; growing keeps the invariant, every
    existing literal's value and the absence of duplicate gates. *)
Theorem constructors_correct m a b c :
  inv m -> valid m a -> valid m b -> valid m c ->
  computes m (fun env => eval m env a && eval m env b) (mk_and m a b) /\
  computes m (fun env => eval m env a || eval m env b) (mk_or m a b) /\
  computes m (fun env => xorb (eval m env a) (eval m env b)) (mk_xor m a b) /\
  computes m (fun env => Bool.eqb (eval m env a) (eval m env b)) (mk_iff m a b) /\
  computes m (fun env => if eval m env c then eval m env a else eval m env b) (mk_ite m c a b).
Proof.
  intros I Va Vb Vc.
  split; [apply mk_and_spec; auto |]. split; [apply mk_or_spec; auto |].
  split; [apply mk_xor_spec; auto |]. split; [apply mk_iff_spec; auto |].
  apply mk_ite_spec; auto.
Qed.

Lemma two_inputs_valid id : 1 <= Z.abs id <= 3 -> valid two_inputs id.
Proof. exact (fun H => H). Qed.

Lemma constructors_correct_witness :
  computes two_inputs (fun env => eval two_inputs env 2 && eval two_inputs env (-3))
    (mk_and two_inputs 2 (-3)).
Proof.
  exact (proj1 (constructors_correct two_inputs 2 (-3) 3 two_inputs_inv
    (two_inputs_valid 2 ltac:(lia)) (two_inputs_valid (-3) ltac:(lia))
    (two_inputs_valid 3 ltac:(lia)))).
Defined.

(** The rewriting loop of [rewrite_and] terminates: with more fuel than
    the sum of the operand ids it returns, and what it returns is sound: a
    literal equal to the conjunction, or a normalised pair of non-constant
    operands (smaller id first) with the same conjunction. *)
Theorem rewrite_and_total m l r fuel :
  inv m -> valid m l -> valid m r -> (Z.to_nat (Z.abs l + Z.abs r) < fuel)%nat ->
  exists res nl nr, rewrite_loop fuel m l r = Some (res, nl, nr) /\
  ((valid m res /\ forall env, eval m env res = eval m env l && eval m env r) \/
   (res = NULL /\ 2 <= Z.abs nl <= Z.abs nr /\ Z.abs nr <= nodes_size m /\
    forall env, eval m env nl && eval m env nr = eval m env l && eval m env r)).
Proof.
  intros I Vl Vr Hf. pose proof (rewrite_loop_sound m I fuel l r Vl Vr Hf) as G.
  destruct (rewrite_loop fuel m l r) as [[[res nl] nr] |]; [| contradiction].
  eauto 6.
Qed.

Lemma rewrite_and_total_witness :
  exists res nl nr, rewrite_loop 6 two_inputs 2 3 = Some (res, nl, nr).
Proof.
  destruct (rewrite_and_total two_inputs 2 3 6 two_inputs_inv
    (two_inputs_valid 2 ltac:(lia)) (two_inputs_valid 3 ltac:(lia)) ltac:(lia))
    as (res & nl & nr & E & _).
  exists res, nl, nr. exact E.
Defined.

(** C32: hash consing.  In every manager reachable from [aig_new] by
    [mk_input] and [mk_and], no two AND gates have the same operands; interning
    a pair returns the gate with those operands, appends at most that one gate,
    and interning it again in any manager grown from the result returns the
    same id and appends nothing. *)
Theorem hash_consing m l r :
  reachable m -> 2 <= Z.abs l <= nodes_size m -> 2 <= Z.abs r <= nodes_size m ->
  unique_gates m /\
  let '(x, m1) := intern_and m l r in
  gates m1 !! Z.to_nat (x - 1) = Some (l, r) /\
  (gates m1 = gates m \/ gates m1 = gates m ++ [(l, r)]) /\ unique_gates m1 /\
  forall m2, grown m1 m2 ->
    fst (intern_and m2 l r) = x /\ gates (snd (intern_and m2 l r)) = gates m2.
Proof.
  intros R Hl Hr. destruct (reachable_inv m R) as [I U]. split; [exact U |].
  pose proof (intern_and_spec m l r I Hl Hr) as S.
  destruct (intern_and m l r) as [x m1]. destruct S as (G & Hx & Lx & Cases).
  split; [exact Lx |]. split; [tauto |]. split; [apply G, U |].
  intros m2 G2. pose proof (grown_inv _ _ G2) as I2.
  assert (S2 : nodes_size m <= nodes_size m2).
  { destruct (grown_trans _ _ _ G G2) as (_ & [ws E] & _).
    unfold nodes_size. rewrite <- !gates_length, E, length_app. lia. }
  pose proof (intern_and_spec m2 l r I2 ltac:(lia) ltac:(lia)) as S.
  destruct (intern_and m2 l r) as [y m3]. destruct S as (G3 & Hy & Ly & Cases3). cbn.
  destruct G2 as (_ & [ws E2] & U2), G as (_ & _ & U1).
  assert (Lx2 : gates m2 !! Z.to_nat (x - 1) = Some (l, r)).
  { rewrite E2. apply lookup_app_l_Some, Lx. }
  destruct Cases3 as [E3 | [_ New]]; [| destruct (New _ Lx2)].
  split; [| exact E3]. rewrite E3 in Ly.
  assert (Z.to_nat (y - 1) = Z.to_nat (x - 1)); [| lia].
  apply (U2 (U1 U) _ _ _ Ly Lx2). cbn. lia.
Qed.

Lemma two_inputs_operand id : 2 <= Z.abs id <= 3 -> 2 <= Z.abs id <= nodes_size two_inputs.
Proof. exact (fun H => H). Qed.

Lemma hash_consing_witness : unique_gates two_inputs.
Proof.
  pose proof (hash_consing two_inputs 2 3 two_inputs_reachable
    (two_inputs_operand 2 ltac:(lia)) (two_inputs_operand 3 ltac:(lia))) as H.
  destruct H as [U _]. exact U.
Defined.

Example and_ids :
  let '(x, m) := mk_and two_inputs 2 3 in
  let '(y, m) := mk_and m 3 2 in (x, y, fst (mk_and m x (-2))) = (4, 4, -1).
Proof. reflexivity. Qed.

End Aig.
