(* ===== verification/Bitblast.v ===== *)
(** * Bitblast: word operations as circuits (src/src/c/dvs_bitblast.c, dvs_bitblast.h)

    Every operation of the bit-blaster as a program in a state monad over the
    AIG manager.  A vector is the list of its literals, index 0 the most
    significant bit, as in [dvs_bv_t]; an array the C code fills or updates in
    place is a list updated by index.  [spec] is a Hoare triple for such
    programs; [den] and [vec] say which function of the inputs a literal or a
    vector denotes, and both survive any growth of the manager, so the triples
    compose.  The chunked memory behind [bb_alloc] is not modelled: a vector is
    always fresh memory. *)

From Stdlib Require Import ZArith Lia Bool Btauto.
From stdpp Require Import base list numbers.
From S2P Require Import Prelude Aig.
Open Scope Z_scope.

Module BB.
Import Aig.

(** ** The monad *)

Definition M (A : Type) : Type := aig -> A * aig.
Definition ret {A} (x : A) : M A := fun m => (x, m).
Definition bind {A B} (c : M A) (k : A -> M B) : M B :=
  fun m => let '(x, m) := c m in k x m.

Declare Scope blast_scope.
Delimit Scope blast_scope with blast.
Notation "x <- c ;; k" := (bind c (fun x => k))
  (at level 20, c at level 99, k at level 200, only parsing) : blast_scope.
Notation "' p <- c ;; k" := (bind c (fun p => k))
  (at level 20, p pattern, c at level 99, k at level 200, only parsing) : blast_scope.
Open Scope blast_scope.

Definition and_ (a b : Z) : M Z := fun m => mk_and m a b.
Definition or_ (a b : Z) : M Z := fun m => mk_or m a b.
Definition xor_ (a b : Z) : M Z := fun m => mk_xor m a b.
Definition iff_ (a b : Z) : M Z := fun m => mk_iff m a b.
Definition ite_ (c t e : Z) : M Z := fun m => mk_ite m c t e.
Definition input_ : M Z := fun m => mk_input m.

(** [for (i = first; i < first + n; i++) s = body(i, s)] *)
Fixpoint for_ {A} (n first : nat) (body : nat -> A -> M A) (s : A) : M A :=
  match n with
  | O => ret s
  | S n => s <- body first s;; for_ n (S first) body s
  end.

(** [a.bits[i]] *)
Definition get (a : list Z) (i : nat) : Z := nth i a 0.

(** [bb_alloc]: the contents are written before they are read. *)
Definition bb_alloc (n : nat) : list Z := replicate n NULL.

(** ** Constants *)

Definition constant (size : nat) : M (list Z) :=
  for_ size 0 (fun i r => x <- input_;; ret (<[i := x]> r)) (bb_alloc size).

Definition constant_dom (size : nat) (fixed_value unknown_mask : Z) : M (list Z) :=
  for_ size 0 (fun i r =>
    let bitpos := Z.of_nat (size - 1 - i) in
    let bit := if bitpos <? 64 then (1 <<w bitpos)%w else 0 in
    if (bitpos >=? 64) || negb (Z.land unknown_mask bit =? 0)
    then x <- input_;; ret (<[i := x]> r)
    else ret (<[i := if negb (Z.land fixed_value bit =? 0) then TRUE else FALSE]> r))
  (bb_alloc size).

Definition value_u64 (size : nat) (value : Z) : M (list Z) :=
  for_ size 0 (fun i r =>
    let bit := Z.of_nat (size - 1 - i) in
    let v := if bit <? 64 then Z.land (Z.shiftr value bit) 1 else 0 in
    ret (<[i := if negb (v =? 0) then TRUE else FALSE]> r))
  (bb_alloc size).

(** [memcpy] into a fresh vector *)
Definition value_bits (size : nat) (src : list Z) : M (list Z) := ret (take size src).

(** ** Bitwise *)

Definition bb_not (a : list Z) : M (list Z) :=
  for_ (length a) 0 (fun i r => ret (<[i := aig_not (get a i)]> r)) (bb_alloc (length a)).

Definition bb_and (a b : list Z) : M (list Z) :=
  for_ (length a) 0 (fun i r => x <- and_ (get a i) (get b i);; ret (<[i := x]> r))
    (bb_alloc (length a)).

Definition bb_or (a b : list Z) : M (list Z) :=
  for_ (length a) 0 (fun i r => x <- or_ (get a i) (get b i);; ret (<[i := x]> r))
    (bb_alloc (length a)).

Definition bb_xor (a b : list Z) : M (list Z) :=
  for_ (length a) 0 (fun i r => x <- xor_ (get a i) (get b i);; ret (<[i := x]> r))
    (bb_alloc (length a)).

Definition bb_ite (cond : Z) (a b : list Z) : M (list Z) :=
  for_ (length a) 0 (fun i r => x <- ite_ cond (get a i) (get b i);; ret (<[i := x]> r))
    (bb_alloc (length a)).

(** ** Structural *)

Definition extract (a : list Z) (upper lower : nat) : M (list Z) :=
  let n := (upper - lower + 1)%nat in
  let start := (length a - 1 - upper)%nat in
  ret (take n (drop start a)).

Definition bb_concat (a b : list Z) : M (list Z) := ret (a ++ b).

Definition bb_zero_ext (a : list Z) (n : nat) : M (list Z) :=
  if Nat.eqb n 0 then value_bits (length a) a else ret (replicate n FALSE ++ a).

Definition bb_sign_ext (a : list Z) (n : nat) : M (list Z) :=
  if Nat.eqb n 0 then value_bits (length a) a else
  let sign := get a 0 in ret (replicate n sign ++ a).

(** ** Predicates: a one-bit vector *)

Definition bb_eq (a b : list Z) : M (list Z) :=
  res <- iff_ (get a 0) (get b 0);;
  res <- for_ (length a - 1) 1 (fun i res =>
           x <- iff_ (get a i) (get b i);; and_ res x) res;;
  ret [res].

Definition ult_helper (a b : list Z) : M Z :=
  let lsb := (length a - 1)%nat in
  res <- and_ (aig_not (get a lsb)) (get b lsb);;
  for_ (length a - 1) 1 (fun i res =>
    let j := (length a - 1 - i)%nat in
    lt <- and_ (aig_not (get a j)) (get b j);;
    gt <- and_ (get a j) (aig_not (get b j));;
    let not_gt := aig_not gt in
    carry <- and_ not_gt res;;
    or_ lt carry) res.

Definition bb_ult (a b : list Z) : M (list Z) := r <- ult_helper a b;; ret [r].

Definition bb_slt (a b : list Z) : M (list Z) :=
  let a_sign := get a 0 in
  let b_sign := get b 0 in
  strict_neg <- and_ a_sign (aig_not b_sign);;
  if Nat.eqb (length a) 1 then ret [strict_neg] else
  a_rem <- extract a (length a - 2) 0;;
  b_rem <- extract b (length b - 2) 0;;
  ult <- ult_helper a_rem b_rem;;
  strict_pos <- and_ (aig_not a_sign) b_sign;;
  eq_sign <- and_ (aig_not strict_neg) (aig_not strict_pos);;
  x <- and_ eq_sign ult;;
  res <- or_ strict_neg x;;
  ret [res].

(** ** Arithmetic *)

(** Returns (sum, carry out). *)
Definition half_adder (a b : Z) : M (Z * Z) :=
  a_and_b <- and_ a b;;
  a_or_b <- or_ a b;;
  sum <- and_ (aig_not a_and_b) a_or_b;;
  ret (sum, a_and_b).

Definition full_adder (a b cin : Z) : M (Z * Z) :=
  '(s1, c1) <- half_adder a b;;
  '(s2, c2) <- half_adder s1 cin;;
  cout <- or_ c1 c2;;
  ret (s2, cout).

Definition bb_add (a b : list Z) : M (list Z) :=
  let size := length a in
  '(s, cout) <- half_adder (get a (size - 1)) (get b (size - 1));;
  '(r, _) <- for_ (size - 1) 1 (fun i '(r, cout) =>
      let j := (size - 1 - i)%nat in
      '(s, cout) <- full_adder (get a j) (get b j) cout;;
      ret (<[j := s]> r, cout))
    (<[(size - 1)%nat := s]> (bb_alloc size), cout);;
  ret r.

Definition bb_neg (a : list Z) : M (list Z) :=
  na <- bb_not a;;
  one <- value_u64 (length a) 1;;
  bb_add na one.

Definition bb_sub (a b : list Z) : M (list Z) := nb <- bb_neg b;; bb_add a nb.

(** The ripple of one row of the multiplier: [j] runs over 1..ib, with
    [ir = ib - j] and [ia = size - 1 - j]; the break on [ir == 0] is the end of
    the loop. *)
Definition mul_row (a : list Z) (ib : nat) (b_bit : Z) (rc : list Z * Z) : M (list Z * Z) :=
  for_ ib 1 (fun j '(r, cout) =>
    let ir := (ib - j)%nat in
    let ia := (length a - 1 - j)%nat in
    if (get a ia =? FALSE) && (cout =? FALSE) then ret (r, cout) else
    p <- and_ (get a ia) b_bit;;
    '(s, cout) <- full_adder (get r ir) p cout;;
    ret (<[ir := s]> r, cout)) rc.

Definition bb_mul (a b : list Z) : M (list Z) :=
  let size := length a in
  r <- for_ size 0 (fun i r =>
         x <- and_ (get a i) (get b (size - 1));; ret (<[i := x]> r)) (bb_alloc size);;
  for_ (size - 1) 1 (fun i r =>
    let ib := (size - 1 - i)%nat in
    let b_bit := get b ib in
    if b_bit =? FALSE then ret r else
    p <- and_ (get a (size - 1)) b_bit;;
    '(s, cout) <- half_adder (get r ib) p;;
    '(r, _) <- mul_row a ib b_bit (<[ib := s]> r, cout);;
    ret r) r.

(** ** Shifts *)

(** [while (v < n) { v <<= 1; r++; }] *)
Fixpoint ceil_log2_loop (fuel n v r : nat) : nat :=
  match fuel with
  | O => r
  | S f => if Nat.ltb v n then ceil_log2_loop f n (v * 2) (S r) else r
  end.

Definition ceil_log2 (n : nat) : nat := ceil_log2_loop n n 1 0.

(** One stage of the barrel shifters, on the working copy. *)
Definition shl_stage (s : Z) (step : nat) (work : list Z) : M (list Z) :=
  let size := length work in
  work <- for_ (size - step) 0 (fun j work =>
            x <- ite_ s (get work (j + step)) (get work j);; ret (<[j := x]> work)) work;;
  let not_s := aig_not s in
  for_ step (size - step) (fun j work =>
    x <- and_ not_s (get work j);; ret (<[j := x]> work)) work.

(** The loop that moves bits right: [k = size - 1 - j]. *)
Definition shr_move (s : Z) (step : nat) (work : list Z) : M (list Z) :=
  let size := length work in
  for_ (size - step) 0 (fun j work =>
    let k := (size - 1 - j)%nat in
    x <- ite_ s (get work (k - step)) (get work k);; ret (<[k := x]> work)) work.

Definition shr_stage (s : Z) (step : nat) (work : list Z) : M (list Z) :=
  work <- shr_move s step work;;
  let not_s := aig_not s in
  for_ step 0 (fun j work =>
    x <- and_ not_s (get work j);; ret (<[j := x]> work)) work.

Definition ashr_stage (s : Z) (step : nat) (work : list Z) : M (list Z) :=
  work <- shr_move s step work;;
  for_ step 0 (fun j work =>
    x <- ite_ s (get work 0) (get work j);; ret (<[j := x]> work)) work.

Definition stages (stage : Z -> nat -> list Z -> M (list Z)) (b work : list Z) : M (list Z) :=
  let shift_size := ceil_log2 (length b) in
  let shift_size := if Nat.ltb (length b) shift_size then length b else shift_size in
  for_ shift_size 0 (fun i work =>
    stage (get b (length b - 1 - i)) (Nat.pow 2 i) work) work.

Definition do_shl_or_shr (a b : list Z) (is_shl : bool) : M (list Z) :=
  let size := length a in
  if Nat.eqb size 1 then x <- and_ (get a 0) (aig_not (get b 0));; ret [x] else
  work <- value_bits size a;;
  work <- stages (if is_shl then shl_stage else shr_stage) b work;;
  size_const <- value_u64 (length b) (Z.of_nat size);;
  in_range <- ult_helper b size_const;;
  zero <- value_u64 size 0;;
  bb_ite in_range work zero.

Definition bb_shl (a b : list Z) : M (list Z) := do_shl_or_shr a b true.
Definition bb_shr (a b : list Z) : M (list Z) := do_shl_or_shr a b false.

Definition bb_ashr (a b : list Z) : M (list Z) :=
  let size := length a in
  if Nat.eqb size 1 then value_bits 1 a else
  work <- value_bits size a;;
  work <- stages ashr_stage b work;;
  size_const <- value_u64 (length b) (Z.of_nat size);;
  in_range <- ult_helper b size_const;;
  for_ size 0 (fun i work =>
    x <- ite_ in_range (get work i) (get a 0);; ret (<[i := x]> work)) work.

(** ** Divider *)

Definition fa_div_carry (r d c : Z) : M Z :=
  x <- or_ d c;;
  x <- and_ x r;;
  y <- and_ d c;;
  or_ x y.

Definition fa_div_sum (r d c q : Z) : M Z :=
  dc <- xor_ d c;;
  dq <- and_ dc q;;
  xor_ dq r.

(** One quotient bit: [rem] has its new low bit in place. *)
Definition div_carries (size : nat) (d rem carry : list Z) : M (list Z) :=
  for_ size 0 (fun j carry =>
    x <- fa_div_carry (get rem j) (get d j) (get carry j);;
    ret (<[S j := x]> carry)) carry.

(** [prev_r] is the old [rem[j]]. *)
Definition div_sums (size : nat) (d carry : list Z) (qi : Z) (rem : list Z) : M (list Z) :=
  '(rem, _) <- for_ size 0 (fun j '(rem, prev_r) =>
      tmp <- fa_div_sum prev_r (get d j) (get carry j) qi;;
      ret (<[S j := tmp]> rem, get rem (S j))) (rem, get rem 0);;
  ret rem.

Definition div_step (a d : list Z) (i : nat) (st : list Z * list Z * list Z)
    : M (list Z * list Z * list Z) :=
  let '(q, rem, carry) := st in
  let size := length a in
  let rem := <[0%nat := get a i]> rem in
  let carry := <[0%nat := TRUE]> carry in
  carry <- div_carries size d rem carry;;
  let q := <[i := get carry size]> q in
  rem <- div_sums size d carry (get carry size) rem;;
  ret (q, rem, carry).

Definition udiv_urem_helper (a b : list Z) : M (list Z * list Z) :=
  let size := length a in
  d <- for_ size 0 (fun i d => ret (<[i := aig_not (get b (size - 1 - i))]> d)) (bb_alloc size);;
  '(q, rem, _) <- for_ size 0 (div_step a d)
      (bb_alloc size, replicate (S size) FALSE, bb_alloc (S size));;
  r <- for_ size 0 (fun i r => ret (<[i := get rem (size - i)]> r)) (bb_alloc size);;
  ret (q, r).

Definition bb_udiv (a b : list Z) : M (list Z) := '(q, _) <- udiv_urem_helper a b;; ret q.
Definition bb_urem (a b : list Z) : M (list Z) := '(_, r) <- udiv_urem_helper a b;; ret r.

(** A run of a blasted operation: the vector and the manager. *)
Definition run {A} (c : M A) (m : aig) : A * aig := c m.

Definition mgr8 : aig :=
  mk_aig (fun _ => true) [null_data] 64 (replicate 64 0) 0 0 0 0.

(** Two concrete 4-bit operands: all gates fold to constants. *)
Definition lits (size : nat) (v : Z) : list Z := fst (value_u64 size v mgr8).

Example concrete_ops :
  map (fun op : list Z -> list Z -> M (list Z) => fst (op (lits 4 13) (lits 4 3) mgr8))
    [bb_add; bb_sub; bb_mul; bb_udiv; bb_urem; bb_shl; bb_shr; bb_ashr; bb_ult; bb_slt; bb_eq]
  = [lits 4 0; lits 4 10; lits 4 7; lits 4 4; lits 4 1; lits 4 8; lits 4 1; lits 4 15;
     lits 1 0; lits 1 1; lits 1 0].
Proof. reflexivity. Qed.

(** ** Triples *)

(** From [m], [c] ends in a grown manager where [Q] holds of its result. *)
Definition spec {A} (c : M A) (m : aig) (Q : A -> aig -> Prop) : Prop :=
  inv m -> let '(x, m') := c m in grown m m' /\ Q x m'.

(** The literal denotes a function of the inputs. *)
Definition den (m : aig) (x : Z) (f : (Z -> bool) -> bool) : Prop :=
  valid m x /\ forall env, eval m env x = f env.

Lemma den_grown m m' x f : grown m m' -> den m x f -> den m' x f.
Proof.
  intros G [V E]. split; [exact (grown_valid _ _ _ G V) |].
  intros env. rewrite (grown_eval m m') by auto. apply E.
Qed.

Lemma den_ext m x f g : den m x f -> (forall env, f env = g env) -> den m x g.
Proof. intros [V E] H. split; [exact V |]. intros env. rewrite E. apply H. Qed.

Lemma den_true m : inv m -> den m TRUE (fun _ => true).
Proof. intros I. split; [apply valid_true, I | intros; apply eval_true, I]. Qed.

Lemma den_false m : inv m -> den m FALSE (fun _ => false).
Proof.
  intros I. split; [apply (valid_opp m TRUE), valid_true, I | intros; apply eval_false, I].
Qed.

Lemma den_not m x f : den m x f -> den m (aig_not x) (fun env => negb (f env)).
Proof.
  intros [V E]. split; [apply valid_opp, V |]. intros env. unfold aig_not.
  rewrite eval_opp, E by (unfold valid in V; lia). reflexivity.
Qed.

Lemma spec_ret {A} (x : A) m (Q : A -> aig -> Prop) : Q x m -> spec (ret x) m Q.
Proof. intros H I. cbn. split; [apply grown_refl, I | exact H]. Qed.

Lemma spec_bind {A B} (c : M A) (k : A -> M B) m (P : A -> aig -> Prop) (Q : B -> aig -> Prop) :
  spec c m P -> (forall x m', grown m m' -> P x m' -> spec (k x) m' Q) ->
  spec (bind c k) m Q.
Proof.
  intros Hc Hk I. specialize (Hc I). unfold bind. destruct (c m) as [x m1].
  destruct Hc as [G1 P1]. specialize (Hk x m1 G1 P1 (grown_inv _ _ G1)).
  destruct (k x m1) as [y m2]. destruct Hk as [G2 Q2]. split; [grow | exact Q2].
Qed.

Lemma spec_post {A} (c : M A) m (P Q : A -> aig -> Prop) :
  spec c m P -> (forall x m', grown m m' -> P x m' -> Q x m') -> spec c m Q.
Proof.
  intros H PQ I. specialize (H I). destruct (c m) as [x m']. destruct H as [G H]. auto.
Qed.

Lemma spec_assoc {A B C} (c : M A) (k : A -> M B) (h : B -> M C) m Q :
  spec (x <- (x <- c;; k x);; h x) m Q -> spec (x <- c;; y <- k x;; h y) m Q.
Proof. intros H I. specialize (H I). unfold bind in *. destruct (c m). exact H. Qed.

(** The invariant holds where a triple starts. *)
Lemma spec_inv {A} (c : M A) m Q : (inv m -> spec c m Q) -> spec c m Q.
Proof. intros H I. exact (H I I). Qed.

Lemma spec_for {A} n first (body : nat -> A -> M A) s m (I : nat -> A -> aig -> Prop) :
  I first s m ->
  (forall k s m1, (first <= k < first + n)%nat -> grown m m1 -> I k s m1 ->
    spec (body k s) m1 (I (S k))) ->
  spec (for_ n first body s) m (I (first + n)%nat).
Proof.
  revert first s m. induction n as [| n IH]; intros first s m H0 Hb; cbn [for_].
  - apply spec_ret. rewrite Nat.add_0_r. exact H0.
  - apply spec_inv; intros Im.
    apply spec_bind with (P := I (S first)).
    + apply Hb; [lia | apply grown_refl, Im | exact H0].
    + intros s1 m1 G1 H1. rewrite <- Nat.add_succ_comm. apply IH; [exact H1 |].
      intros k s2 m2 Hk G2 H2. apply Hb; [lia | grow | exact H2].
Qed.

(** *** Gates *)

Lemma spec_computes (c : M Z) m f : (inv m -> computes m f (c m)) -> spec c m (fun r m' => den m' r f).
Proof. intros H I. specialize (H I). unfold computes in H. destruct (c m). exact H. Qed.

Lemma computes_ext m f g xm : computes m f xm -> (forall env, f env = g env) -> computes m g xm.
Proof.
  unfold computes. destruct xm. intros (G & V & E) Efg. split; [exact G |].
  split; [exact V |]. intros. rewrite E. apply Efg.
Qed.

Ltac gate L :=
  match goal with |- spec (?op _ _) _ _ => unfold op | |- spec (?op _ _ _) _ _ => unfold op end;
  let Im := fresh in
  intros; apply spec_computes; intros Im;
  repeat match goal with H : den _ _ _ |- _ =>
    let E := fresh in pose proof H as [? E]; clear H end;
  eapply computes_ext; [apply L; assumption |]; cbn; intros env;
  repeat match goal with H : forall _, eval _ _ _ = _ |- _ => rewrite H end; reflexivity.

Section Gates.
Context (m : aig) (a b c : Z) (f g h : (Z -> bool) -> bool).
Context (Ha : den m a f) (Hb : den m b g) (Hc : den m c h).

Lemma spec_and : spec (and_ a b) m (fun r m' => den m' r (fun e => f e && g e)).
Proof. clear c h Hc. gate mk_and_spec. Qed.
Lemma spec_or : spec (or_ a b) m (fun r m' => den m' r (fun e => f e || g e)).
Proof. clear c h Hc. gate mk_or_spec. Qed.
Lemma spec_xor : spec (xor_ a b) m (fun r m' => den m' r (fun e => xorb (f e) (g e))).
Proof. clear c h Hc. gate mk_xor_spec. Qed.
Lemma spec_iff : spec (iff_ a b) m (fun r m' => den m' r (fun e => Bool.eqb (f e) (g e))).
Proof. clear c h Hc. gate mk_iff_spec. Qed.
Lemma spec_ite :
  spec (ite_ c a b) m (fun r m' => den m' r (fun e => if h e then f e else g e)).
Proof. gate mk_ite_spec. Qed.
End Gates.

(** *** Vectors *)

Lemma get_insert a i x j :
  get (<[i := x]> a) j = if Nat.eqb i j && Nat.ltb i (length a) then x else get a j.
Proof.
  unfold get. rewrite !nth_lookup. destruct (Nat.eqb_spec i j) as [-> | N]; cbn [andb].
  - destruct (Nat.ltb_spec j (length a)).
    + rewrite list_lookup_insert_eq by lia. reflexivity.
    + rewrite list_insert_ge by lia. reflexivity.
  - rewrite list_lookup_insert_ne by auto. reflexivity.
Qed.

Lemma get_app a b j :
  get (a ++ b) j = if Nat.ltb j (length a) then get a j else get b (j - length a).
Proof.
  unfold get. destruct (Nat.ltb_spec j (length a)); [apply app_nth1 | apply app_nth2]; lia.
Qed.

Lemma get_replicate n x j : (j < n)%nat -> get (replicate n x) j = x.
Proof. intros. unfold get. rewrite nth_lookup, lookup_replicate_2 by lia. reflexivity. Qed.

Lemma get_take n a j : (j < n)%nat -> get (take n a) j = get a j.
Proof. intros. unfold get. rewrite !nth_lookup, lookup_take_lt by lia. reflexivity. Qed.

Lemma get_drop n a j : get (drop n a) j = get a (n + j).
Proof. unfold get. rewrite !nth_lookup, lookup_drop. reflexivity. Qed.

(** An array of [n] cells whose cells selected by [D] denote [F]. *)
Definition arr (m : aig) (a : list Z) (n : nat) (D : nat -> Prop)
    (F : nat -> (Z -> bool) -> bool) : Prop :=
  length a = n /\ forall i, (i < n)%nat -> D i -> den m (get a i) (F i).

Lemma arr_grown m m' a n D F : grown m m' -> arr m a n D F -> arr m' a n D F.
Proof. intros G [L H]. split; [exact L |]. intros. eapply den_grown; eauto. Qed.

Lemma arr_weak m a n (D D' : nat -> Prop) F F' :
  arr m a n D F ->
  (forall i, (i < n)%nat -> D' i -> D i /\ forall env, F i env = F' i env) ->
  arr m a n D' F'.
Proof.
  intros [L H] W. split; [exact L |]. intros i Hi Di. destruct (W i Hi Di) as [Di' E].
  eapply den_ext; eauto.
Qed.

(** Writing cell [k]. *)
Lemma arr_insert m a n k x D (D' : nat -> Prop) F F' f :
  arr m a n D F -> den m x f ->
  (forall i, (i < n)%nat -> D' i -> i <> k -> D i /\ forall env, F i env = F' i env) ->
  (forall env, f env = F' k env) ->
  arr m (<[k := x]> a) n D' F'.
Proof.
  intros [L H] Hx W E. split; [rewrite length_insert; exact L |].
  intros i Hi Di. rewrite get_insert, L. destruct (Nat.eqb_spec k i) as [-> | N]; cbn [andb].
  - destruct (Nat.ltb_spec i n); [| lia]. eapply den_ext; eauto.
  - destruct (W i Hi Di ltac:(auto)). eapply den_ext; eauto.
Qed.

Lemma arr_get m a n D F i : arr m a n D F -> (i < n)%nat -> D i -> den m (get a i) (F i).
Proof. intros [_ H]. auto. Qed.

Definition all : nat -> Prop := fun _ => True.

(** The vector denotes an [n]-bit word; cell [i] is bit [n - 1 - i]. *)
Definition bit (n i : nat) (v : Z) : bool := Z.testbit v (Z.of_nat (n - 1 - i)).

Definition vec (m : aig) (a : list Z) (n : nat) (V : (Z -> bool) -> Z) : Prop :=
  arr m a n all (fun i env => bit n i (V env)) /\ forall env, fits (Z.of_nat n) (V env).

Lemma vec_grown m m' a n V : grown m m' -> vec m a n V -> vec m' a n V.
Proof. intros G [A H]. split; [eapply arr_grown; eauto | exact H]. Qed.

Lemma vec_length m a n V : vec m a n V -> length a = n.
Proof. intros [[L _] _]. exact L. Qed.

Lemma vec_fits m a n V env : vec m a n V -> fits (Z.of_nat n) (V env).
Proof. intros [_ F]. apply F. Qed.

Lemma vec_get m a n V i :
  vec m a n V -> (i < n)%nat -> den m (get a i) (fun env => bit n i (V env)).
Proof. intros [[_ H] _] Hi. apply H; [exact Hi | exact Logic.I]. Qed.

(** Cell of bit [k]. *)
Lemma vec_bit m a n V k :
  vec m a n V -> (k < n)%nat -> den m (get a (n - 1 - k)) (fun env => Z.testbit (V env) (Z.of_nat k)).
Proof.
  intros H Hk. eapply den_ext; [apply (vec_get m a n V); [exact H | lia] |].
  intros env. unfold bit. do 2 f_equal. lia.
Qed.

Lemma vec_ext m a n V W : vec m a n V -> (forall env, V env = W env) -> vec m a n W.
Proof.
  intros [A F] E. split; [| intros env; rewrite <- E; apply F].
  eapply arr_weak; [exact A |]. intros i Hi _. split; [exact Logic.I |].
  intros env. rewrite E. reflexivity.
Qed.

Lemma vec_of_arr m a n (D : nat -> Prop) F V :
  arr m a n D F -> (forall i, (i < n)%nat -> D i) ->
  (forall env, fits (Z.of_nat n) (V env)) ->
  (forall i env, (i < n)%nat -> F i env = bit n i (V env)) -> vec m a n V.
Proof.
  intros A HD HV E. split; [| exact HV]. eapply arr_weak; [exact A |]. auto.
Qed.

Lemma vec_one m x f : den m x f -> vec m [x] 1 (fun env => Z.b2z (f env)).
Proof.
  intros H. split; [split; [reflexivity |] |].
  - intros [| i] Hi _; [| lia]. eapply den_ext; [exact H |]. intros env. unfold bit. cbn.
    rewrite Z.b2z_bit0. reflexivity.
  - intros env. destruct (f env); unfold fits; cbn; lia.
Qed.

(** A loop that fills a fresh vector cell by cell. *)
Lemma spec_fill n (body : nat -> list Z -> M (list Z)) m a F :
  length a = n ->
  (forall i r m1, (i < n)%nat -> grown m m1 -> length r = n ->
    exists op, body i r = (x <- op;; ret (<[i := x]> r)) /\
    spec op m1 (fun x m' => den m' x (F i))) ->
  spec (for_ n 0 body a) m (fun r m' => arr m' r n all F).
Proof.
  intros La Hb.
  eapply spec_post; [apply (spec_for n 0 body a m (fun i r m' => arr m' r n (fun j => j < i)%nat F)) |].
  - split; [exact La |]. intros; lia.
  - intros k r m1 Hk G A. destruct (Hb k r m1 ltac:(lia) G (proj1 A)) as (op & -> & Hop).
    eapply spec_bind; [exact Hop |]. intros x m2 G2 Hx. apply spec_ret.
    eapply arr_insert; [eapply arr_grown; eauto | exact Hx | | reflexivity].
    intros i Hi Di N. split; [lia | reflexivity].
  - intros r m' G A. eapply arr_weak; [exact A |]. intros i Hi _. split; [lia | reflexivity].
Qed.

(** Facts about the context's manager move to the grown one. *)
Ltac advance G :=
  repeat match goal with
  | H : den ?m _ _ |- _ => match type of G with grown m ?m' =>
      apply (den_grown _ _ _ _ G) in H end
  | H : vec ?m _ _ _ |- _ => match type of G with grown m ?m' =>
      apply (vec_grown _ _ _ _ _ G) in H end
  | H : arr ?m _ _ _ _ |- _ => match type of G with grown m ?m' =>
      apply (arr_grown _ _ _ _ _ _ G) in H end
  end.

Ltac dens :=
  eauto using den_not, den_true, den_false; try (eapply vec_get; [eassumption | lia]);
  try (apply den_not; eapply vec_get; [eassumption | lia]).

(** One program step by the triple [L]. *)
Tactic Notation "step" uconstr(L) "as" ident(x) ident(m') ident(G) ident(H) :=
  eapply spec_bind; [eapply L; dens; try lia |]; intros x m' G H; cbv beta in H; advance G.

(** ** Bitwise operations *)

Lemma vec_fits_bits n v :
  (forall i, Z.of_nat n <= i -> Z.testbit v i = false) -> fits (Z.of_nat n) v.
Proof. apply fits_intro. lia. Qed.

Ltac high_bits :=
  apply vec_fits_bits; let i := fresh "i" in let Hi := fresh "Hi" in intros i Hi; wordbits;
  repeat match goal with H : vec _ _ ?n ?V |- context [Z.testbit (?V ?e) i] =>
    rewrite (fits_high (Z.of_nat n) (V e)) by (first [apply (vec_fits _ _ _ _ e H) | lia]) end;
  cbn; auto.

(** A vector filled cell by cell with the bits of [V]. *)
Lemma spec_fill_vec n (body : nat -> list Z -> M (list Z)) m a F V :
  length a = n ->
  (forall i r m1, (i < n)%nat -> grown m m1 -> length r = n ->
    exists op, body i r = (x <- op;; ret (<[i := x]> r)) /\
    spec op m1 (fun x m' => den m' x (F i))) ->
  (forall env, fits (Z.of_nat n) (V env)) ->
  (forall i env, (i < n)%nat -> F i env = bit n i (V env)) ->
  spec (for_ n 0 body a) m (fun r m' => vec m' r n V).
Proof.
  intros L B HF E. eapply spec_post; [apply (spec_fill _ _ _ _ F L B) |].
  intros r m' _ H.
  eapply vec_of_arr; [exact H | intros; exact Logic.I | exact HF | exact E].
Qed.

(** A loop whose cell [i] is one gate of cells [i], specified by [L]. *)
Ltac cellwise cells L :=
  apply spec_fill_vec with (F := cells);
  [ apply length_replicate
  | intros; eexists; split; [reflexivity | apply L; eapply den_grown; dens]
  | intros env
  | intros i env Hi; unfold bit ].

Section Bitwise.
Context (m : aig) (a b : list Z) (n : nat) (A B : (Z -> bool) -> Z).
Context (Ha : vec m a n A) (Hb : vec m b n B).

Lemma bb_and_spec :
  spec (bb_and a b) m (fun r m' => vec m' r n (fun env => Z.land (A env) (B env))).
Proof.
  unfold bb_and. rewrite (vec_length _ _ _ _ Ha).
  cellwise (fun i env => bit n i (A env) && bit n i (B env)) spec_and;
    [high_bits | rewrite Z.land_spec; reflexivity].
Qed.

Lemma bb_or_spec :
  spec (bb_or a b) m (fun r m' => vec m' r n (fun env => Z.lor (A env) (B env))).
Proof.
  unfold bb_or. rewrite (vec_length _ _ _ _ Ha).
  cellwise (fun i env => bit n i (A env) || bit n i (B env)) spec_or;
    [high_bits | rewrite Z.lor_spec; reflexivity].
Qed.

Lemma bb_xor_spec :
  spec (bb_xor a b) m (fun r m' => vec m' r n (fun env => Z.lxor (A env) (B env))).
Proof.
  unfold bb_xor. rewrite (vec_length _ _ _ _ Ha).
  cellwise (fun i env => xorb (bit n i (A env)) (bit n i (B env))) spec_xor;
    [high_bits | rewrite Z.lxor_spec; reflexivity].
Qed.

Lemma bb_ite_spec c f :
  den m c f ->
  spec (bb_ite c a b) m (fun r m' => vec m' r n (fun env => if f env then A env else B env)).
Proof.
  intros Hc. unfold bb_ite. rewrite (vec_length _ _ _ _ Ha).
  cellwise (fun i env => if f env then bit n i (A env) else bit n i (B env)) spec_ite;
    destruct (f env); try reflexivity; eapply vec_fits; eassumption.
Qed.

Lemma bb_not_spec :
  spec (bb_not a) m (fun r m' => vec m' r n (fun env => 2 ^ Z.of_nat n - 1 - A env)).
Proof.
  assert (E : forall env i, 0 <= i -> Z.testbit (2 ^ Z.of_nat n - 1 - A env) i
    = (i <? Z.of_nat n) && negb (Z.testbit (A env) i)).
  { intros env i Hi. pose proof (vec_fits _ _ _ _ env Ha) as F.
    replace (2 ^ Z.of_nat n - 1 - A env) with (Z.land (Z.lnot (A env)) (Z.ones (Z.of_nat n))).
    - rewrite Z.land_spec, Z.lnot_spec, ones_spec by lia. split_cmp; cbn; btauto.
    - rewrite Z.land_ones by lia. unfold Z.lnot, fits in *.
      rewrite <- (Z.mod_add _ 1) by lia. rewrite Z.mod_small; lia. }
  unfold bb_not. rewrite (vec_length _ _ _ _ Ha).
  apply spec_fill_vec with (F := fun i env => negb (bit n i (A env))).
  - apply length_replicate.
  - intros i r m1 Hi G L. exists (ret (aig_not (get a i))). split; [reflexivity |].
    apply spec_ret. eapply den_grown; dens.
  - intros env. apply vec_fits_bits. intros i Hi. rewrite E by lia. split_cmp. reflexivity.
  - intros i env Hi. unfold bit. rewrite E by lia. split_cmp. reflexivity.
Qed.
End Bitwise.

(** ** Constants *)

Lemma value_u64_spec m n v :
  fits 64 v ->
  spec (value_u64 n v) m (fun r m' => vec m' r n (fun _ => v mod 2 ^ Z.of_nat n)).
Proof.
  intros Hv. apply spec_inv; intros I0. unfold value_u64.
  apply spec_fill_vec with (F := fun i _ => bit n i v).
  - apply length_replicate.
  - intros i r m1 Hi G L. eexists (ret _). split; [reflexivity |]. apply spec_ret.
    replace (negb _) with (bit n i v).
    + destruct (bit n i v); [apply den_true | apply den_false]; exact (grown_inv _ _ G).
    + unfold bit. set (k := Z.of_nat (n - 1 - i)).
      destruct (Z.ltb_spec k 64).
      * rewrite (Z.land_ones _ 1), <- Z.bit0_mod, Z.shiftr_spec, Z.add_0_l by lia.
        destruct (Z.testbit v k); reflexivity.
      * rewrite (fits_high 64) by (auto; lia). reflexivity.
  - intros env. apply Z.mod_pos_bound. lia.
  - intros i env Hi. unfold bit. rewrite Z.testbit_mod_pow2 by lia. split_cmp. reflexivity.
Qed.

Lemma value_bits_spec m a n V :
  vec m a n V -> spec (value_bits n a) m (fun r m' => vec m' r n V).
Proof.
  intros H. apply spec_ret. rewrite firstn_all2; [exact H |].
  rewrite (vec_length _ _ _ _ H). lia.
Qed.

(** The number with given low bits. *)
Fixpoint num (n : nat) (f : nat -> bool) : Z :=
  match n with
  | O => 0
  | S k => Z.b2z (f k) * 2 ^ Z.of_nat k + num k f
  end.

Lemma num_fits n f : fits (Z.of_nat n) (num n f).
Proof.
  unfold fits. induction n as [| n IH]; cbn [num]; [lia |].
  rewrite Nat2Z.inj_succ, Z.pow_succ_r by lia. destruct (f n); cbn [Z.b2z]; lia.
Qed.

Lemma num_spec n f k : (k < n)%nat -> Z.testbit (num n f) (Z.of_nat k) = f k.
Proof.
  induction n as [| n IH]; intros Hk; [lia |]. cbn [num].
  rewrite concat_spec by (try apply num_fits; lia).
  destruct (Z.ltb_spec (Z.of_nat k) (Z.of_nat n)); [apply IH; lia |].
  replace k with n by lia. rewrite Z.sub_diag, Z.b2z_bit0. reflexivity.
Qed.

Lemma num_ext n f g : (forall k, (k < n)%nat -> f k = g k) -> num n f = num n g.
Proof.
  induction n as [| n IH]; intros H; cbn [num]; [reflexivity |].
  rewrite H, IH by auto with lia. reflexivity.
Qed.

Lemma vec_num m a n F :
  arr m a n all F -> vec m a n (fun env => num n (fun k => F (n - 1 - k)%nat env)).
Proof.
  intros H. eapply vec_of_arr; [exact H | intros; exact Logic.I | |].
  - intros env. apply num_fits.
  - intros i env Hi. unfold bit. rewrite num_spec by lia. f_equal. lia.
Qed.

(** ** Structural operations *)

Lemma extract_spec m a n A upper lower :
  vec m a n A -> (lower <= upper < n)%nat ->
  spec (extract a upper lower) m (fun r m' => vec m' r (upper - lower + 1) (fun env =>
    (A env / 2 ^ Z.of_nat lower) mod 2 ^ Z.of_nat (upper - lower + 1))).
Proof.
  intros Ha Hul. unfold extract. apply spec_ret.
  apply vec_of_arr with (D := all) (F := fun i env => bit n (n - 1 - upper + i) (A env)).
  - pose proof (vec_length _ _ _ _ Ha) as L. split.
    + rewrite length_take, length_drop. lia.
    + intros i Hi _. rewrite get_take, get_drop, L by lia. dens.
  - intros; exact Logic.I.
  - intros env. apply Z.mod_pos_bound. lia.
  - intros i env Hi. unfold bit. rewrite Z.testbit_mod_pow2, Z.div_pow2_bits by lia.
    split_cmp. cbn. f_equal. lia.
Qed.

Lemma vec_app m a b na nb A B :
  vec m a na A -> vec m b nb B ->
  vec m (a ++ b) (na + nb) (fun env => A env * 2 ^ Z.of_nat nb + B env).
Proof.
  intros Ha Hb. pose proof (vec_length _ _ _ _ Ha). pose proof (vec_length _ _ _ _ Hb).
  apply vec_of_arr with (D := all) (F := fun i env =>
    if Nat.ltb i na then bit na i (A env) else bit nb (i - na) (B env)).
  - split; [rewrite length_app; lia |]. intros i Hi _. rewrite get_app. subst na.
    destruct (Nat.ltb_spec i (length a)); dens.
  - intros; exact Logic.I.
  - intros env. rewrite Nat2Z.inj_add.
    apply fits_concat; try lia; eapply vec_fits; eassumption.
  - intros i env Hi. unfold bit.
    rewrite concat_spec by (try apply (vec_fits _ _ _ _ env Hb); lia).
    destruct (Nat.ltb_spec i na); split_cmp; f_equal; lia.
Qed.

Lemma vec_replicate m n x f :
  den m x f -> vec m (replicate n x) n (fun env => if f env then 2 ^ Z.of_nat n - 1 else 0).
Proof.
  intros Hx. apply vec_of_arr with (D := all) (F := fun _ => f).
  - split; [apply length_replicate |]. intros i Hi _. rewrite get_replicate by lia. exact Hx.
  - intros; exact Logic.I.
  - intros env. unfold fits. destruct (f env); lia.
  - intros i env Hi. unfold bit. destruct (f env); [| rewrite Z.bits_0; reflexivity].
    rewrite Z.sub_1_r, <- Z.ones_equiv, ones_spec by lia. split_cmp. reflexivity.
Qed.

Lemma bb_zero_ext_spec m a n A k :
  vec m a n A -> spec (bb_zero_ext a k) m (fun r m' => vec m' r (k + n) A).
Proof.
  intros Ha. apply spec_inv; intros Im. unfold bb_zero_ext.
  destruct (Nat.eqb_spec k 0) as [-> | ?].
  - rewrite (vec_length _ _ _ _ Ha). apply value_bits_spec, Ha.
  - apply spec_ret. eapply vec_ext; [apply vec_app; [apply vec_replicate, den_false, Im | exact Ha] |].
    intros env. reflexivity.
Qed.

Lemma bb_sign_ext_spec m a n A k :
  vec m a n A -> (1 <= n)%nat ->
  spec (bb_sign_ext a k) m (fun r m' => vec m' r (k + n) (fun env =>
    signed (Z.of_nat n) (A env) mod 2 ^ Z.of_nat (k + n))).
Proof.
  intros Ha Hn. unfold bb_sign_ext. destruct (Nat.eqb_spec k 0) as [-> | ?].
  - rewrite (vec_length _ _ _ _ Ha).
    eapply spec_post; [apply value_bits_spec, Ha |]. intros r m' _ H.
    eapply vec_ext; [exact H |]. intros env. cbn [Nat.add]. rewrite signed_mod; [reflexivity | lia |].
    eapply vec_fits, Ha.
  - apply spec_ret. eapply vec_ext; [apply vec_app; [apply vec_replicate; dens | exact Ha] |].
    intros env. cbv beta. pose proof (vec_fits _ _ _ _ env Ha) as F. unfold bit, signed.
    replace (Z.of_nat (n - 1 - 0)) with (Z.of_nat n - 1) by lia.
    rewrite Nat2Z.inj_add, Z.pow_add_r by lia. unfold fits in F.
    destruct (Z.testbit (A env) (Z.of_nat n - 1)).
    + rewrite <- (Z.mod_add _ 1), Z.mod_small by nia. nia.
    + rewrite Z.mod_small; nia.
Qed.

(** ** Predicates *)

Lemma div_pow2_step z k :
  0 <= k -> z / 2 ^ k = 2 * (z / 2 ^ (k + 1)) + Z.b2z (Z.testbit z k).
Proof.
  intros Hk. rewrite Z.testbit_spec' by lia.
  rewrite Z.pow_add_r, <- Z.div_div by lia. change (2 ^ 1) with 2.
  apply Z.div_mod. lia.
Qed.

Lemma bb_eq_spec m a b n A B :
  vec m a n A -> vec m b n B -> (1 <= n)%nat ->
  spec (bb_eq a b) m (fun r m' => vec m' r 1 (fun env => Z.b2z (A env =? B env))).
Proof.
  intros Ha Hb Hn. unfold bb_eq. rewrite (vec_length _ _ _ _ Ha).
  set (F := fun (i : nat) env =>
    (A env / 2 ^ (Z.of_nat (n - i)) =? B env / 2 ^ Z.of_nat (n - i))).
  assert (St : forall i env, (i < n)%nat ->
    F (S i) env = F i env && Bool.eqb (bit n i (A env)) (bit n i (B env))).
  { intros i env Hi. unfold F, bit.
    rewrite (div_pow2_step (A env) (Z.of_nat (n - S i))) by lia.
    rewrite (div_pow2_step (B env) (Z.of_nat (n - S i))) by lia.
    replace (Z.of_nat (n - S i) + 1) with (Z.of_nat (n - i)) by lia.
    replace (n - S i)%nat with (n - 1 - i)%nat by lia.
    destruct (Z.testbit (A env) _), (Z.testbit (B env) _); cbn [Z.b2z Bool.eqb];
      split_cmp; try reflexivity; lia. }
  step spec_iff as x m1 G1 Hx.
  eapply spec_bind.
  { eapply spec_post; [apply (spec_for _ _ _ _ _ (fun i x m => den m x (F i))) |].
    - eapply den_ext; [exact Hx |]. intros env. rewrite St by lia. unfold F at 1.
      rewrite Nat.sub_0_r, !Z.div_small by (eapply vec_fits; eassumption). reflexivity.
    - intros k y m2 Hk G2 Hy. advance G2.
      step spec_iff as z m3 G3 Hz.
      eapply spec_post; [apply spec_and; [exact Hy | exact Hz] |].
      intros w m4 _ Hw. eapply den_ext; [exact Hw |]. intros env. rewrite St by lia. reflexivity.
    - intros y m' _ Hy. exact Hy. }
  intros y m2 G2 Hy. apply spec_ret. eapply vec_ext; [apply vec_one, Hy |].
  intros env. cbv beta. unfold F. replace (n - (1 + (n - 1)))%nat with O by lia.
  rewrite !Z.div_1_r. reflexivity.
Qed.

Lemma ult_helper_spec m a b n A B :
  vec m a n A -> vec m b n B -> (1 <= n)%nat ->
  spec (ult_helper a b) m (fun r m' => den m' r (fun env => A env <? B env)).
Proof.
  intros Ha Hb Hn. unfold ult_helper. rewrite (vec_length _ _ _ _ Ha).
  set (F := fun (i : nat) env => A env mod 2 ^ Z.of_nat i <? B env mod 2 ^ Z.of_nat i).
  assert (St : forall i env, (i < n)%nat ->
    F (S i) env =
      let x := bit n (n - 1 - i) (A env) in let y := bit n (n - 1 - i) (B env) in
      (negb x && y) || (negb (x && negb y) && F i env)).
  { intros i env Hi. unfold F, bit. replace (Z.of_nat (S i)) with (Z.of_nat i + 1) by lia.
    rewrite !mod_pow2_succ by lia. replace (n - 1 - (n - 1 - i))%nat with i by lia.
    pose proof (Z.mod_pos_bound (A env) (2 ^ Z.of_nat i) ltac:(lia)).
    pose proof (Z.mod_pos_bound (B env) (2 ^ Z.of_nat i) ltac:(lia)).
    destruct (Z.testbit (A env) _), (Z.testbit (B env) _); cbn -[Z.mul Z.add Z.ltb Z.pow];
      split_cmp; try reflexivity; lia. }
  step spec_and as x m1 G1 Hx.
  eapply spec_post; [apply (spec_for _ _ _ _ _ (fun i x m => den m x (F i))) |].
  - eapply den_ext; [exact Hx |]. intros env. rewrite St by lia. unfold F at 1.
    rewrite !Z.mod_1_r, Z.ltb_irrefl, andb_false_r, orb_false_r, Nat.sub_0_r. reflexivity.
  - intros k y m2 Hk G2 Hy. advance G2.
    step spec_and as lt m3 G3 Hlt. step spec_and as gt m4 G4 Hgt.
    step spec_and as ca m5 G5 Hca.
    eapply spec_post; [apply spec_or; [exact Hlt | exact Hca] |].
    intros w m6 _ Hw. eapply den_ext; [exact Hw |]. intros env. rewrite St by lia. reflexivity.
  - intros y m' _ Hy. eapply den_ext; [exact Hy |]. intros env. unfold F.
    replace (1 + (n - 1))%nat with n by lia.
    rewrite !Z.mod_small by (eapply vec_fits; eassumption). reflexivity.
Qed.

Lemma bb_ult_spec m a b n A B :
  vec m a n A -> vec m b n B -> (1 <= n)%nat ->
  spec (bb_ult a b) m (fun r m' => vec m' r 1 (fun env => Z.b2z (A env <? B env))).
Proof.
  intros Ha Hb Hn. unfold bb_ult. step ult_helper_spec as x m1 G1 Hx.
  apply spec_ret. apply vec_one, Hx.
Qed.

(** A word of at least two bits from its sign bit and the rest. *)
Lemma sign_split n v :
  (2 <= n)%nat -> fits (Z.of_nat n) v ->
  signed (Z.of_nat n) v =
    v mod 2 ^ Z.of_nat (n - 1) - Z.b2z (bit n 0 v) * 2 ^ Z.of_nat (n - 1).
Proof.
  intros Hn [H0 H1]. unfold signed, bit. rewrite Nat.sub_0_r.
  replace (Z.of_nat n) with (Z.of_nat (n - 1) + 1) in * by lia.
  set (k := Z.of_nat (n - 1)) in *. replace (k + 1 - 1) with k by lia.
  pose proof (mod_pow2_succ v k ltac:(lia)) as E. rewrite Z.mod_small in E by lia.
  rewrite Z.pow_add_r in * by lia. destruct (Z.testbit v k); cbn [Z.b2z] in *; lia.
Qed.

Lemma bb_slt_spec m a b n A B :
  vec m a n A -> vec m b n B -> (1 <= n)%nat ->
  spec (bb_slt a b) m (fun r m' => vec m' r 1 (fun env =>
    Z.b2z (signed (Z.of_nat n) (A env) <? signed (Z.of_nat n) (B env)))).
Proof.
  intros Ha Hb Hn. unfold bb_slt.
  step spec_and as neg m1 G1 Hneg.
  rewrite (vec_length _ _ _ _ Ha), (vec_length _ _ _ _ Hb).
  destruct (Nat.eqb_spec n 1) as [-> | ?].
  { apply spec_ret. eapply vec_ext; [apply vec_one, Hneg |]. intros env. f_equal. unfold bit.
    pose proof (vec_fits _ _ _ _ env Ha) as FA. pose proof (vec_fits _ _ _ _ env Hb) as FB.
    unfold fits in FA, FB. cbn in FA, FB.
    assert (A env = 0 \/ A env = 1) as [-> | ->] by lia;
    assert (B env = 0 \/ B env = 1) as [-> | ->] by lia; reflexivity. }
  step extract_spec as ar m2 G2 Har.
  step extract_spec as br m3 G3 Hbr.
  step ult_helper_spec as ul m4 G4 Hul.
  step spec_and as pos m5 G5 Hpos.
  step spec_and as es m6 G6 Hes.
  step spec_and as x m7 G7 Hx.
  step spec_or as res m8 G8 Hres.
  apply spec_ret. eapply vec_ext; [apply vec_one, Hres |]. intros env. f_equal. cbv beta.
  rewrite !Z.div_1_r. replace (n - 2 - 0 + 1)%nat with (n - 1)%nat by lia.
  rewrite !sign_split by (try lia; eapply vec_fits; eassumption).
  set (k := Z.of_nat (n - 1)).
  pose proof (Z.mod_pos_bound (A env) (2 ^ k) ltac:(lia)).
  pose proof (Z.mod_pos_bound (B env) (2 ^ k) ltac:(lia)).
  destruct (bit n 0 (A env)), (bit n 0 (B env)); cbn [Z.b2z negb andb orb];
    split_cmp; reflexivity || lia.
Qed.

(** ** Adders *)

(** The carry into bit [i] of [a + b]. *)
Definition carry_in (i : nat) (a b : Z) : bool :=
  2 ^ Z.of_nat i <=? a mod 2 ^ Z.of_nat i + b mod 2 ^ Z.of_nat i.

Definition maj (x y c : bool) : bool := (x && y) || (xorb x y && c).

Lemma testbit_mod_leb z i : 0 <= i -> Z.testbit z i = (2 ^ i <=? z mod 2 ^ (i + 1)).
Proof.
  intros Hi. rewrite <- (Z.mod_pow2_bits_low z (i + 1)) by lia.
  pose proof (testbit_top (i + 1) (z mod 2 ^ (i + 1)) ltac:(lia)) as T.
  replace (i + 1 - 1) with i in T by lia. apply T, Z.mod_pos_bound. lia.
Qed.

Lemma add_bit i a b :
  let x := Z.testbit a (Z.of_nat i) in let y := Z.testbit b (Z.of_nat i) in
  Z.testbit (a + b) (Z.of_nat i) = xorb (xorb x y) (carry_in i a b) /\
  carry_in (S i) a b = maj x y (carry_in i a b).
Proof.
  cbn zeta. unfold carry_in, maj. rewrite testbit_mod_leb by lia.
  rewrite Nat2Z.inj_succ, <- Z.add_1_r. rewrite Z.add_mod by lia.
  rewrite (mod_pow2_succ a), (mod_pow2_succ b) by lia.
  rewrite Z.pow_add_r by lia. change (2 ^ 1) with 2. set (p := 2 ^ Z.of_nat i). assert (0 < p) by (unfold p; lia).
  pose proof (Z.mod_pos_bound a p ltac:(lia)). pose proof (Z.mod_pos_bound b p ltac:(lia)).
  set (a' := a mod p) in *. set (b' := b mod p) in *.
  assert (E : forall s q, 0 <= s - q * (p * 2) < p * 2 -> s mod (p * 2) = s - q * (p * 2)).
  { intros s q Hs. rewrite <- (Z.mod_add _ (- q)) by lia. rewrite Z.mod_small; lia. }
  destruct (Z.testbit a _), (Z.testbit b _); cbn [Z.b2z xorb andb orb negb];
    destruct (Z.leb_spec p (a' + b'));
    match goal with |- context [?s mod (p * 2)] =>
      first [rewrite (E s 0) by lia | rewrite (E s 1) by lia] end;
    split; split_cmp; reflexivity || lia.
Qed.

Lemma carry_in_0 a b : carry_in 0 a b = false.
Proof. unfold carry_in. cbn. rewrite !Z.mod_1_r. reflexivity. Qed.

Lemma half_adder_spec m a b f g :
  den m a f -> den m b g ->
  spec (half_adder a b) m (fun sc m' =>
    den m' (fst sc) (fun e => xorb (f e) (g e)) /\ den m' (snd sc) (fun e => f e && g e)).
Proof.
  intros Ha Hb. unfold half_adder.
  step spec_and as x m1 G1 Hx. step spec_or as y m2 G2 Hy. step spec_and as s m3 G3 Hs.
  apply spec_ret. split; [| exact Hx]. eapply den_ext; [exact Hs |].
  intros env. cbn. destruct (f env), (g env); reflexivity.
Qed.

Lemma full_adder_spec m a b c f g h :
  den m a f -> den m b g -> den m c h ->
  spec (full_adder a b c) m (fun sc m' =>
    den m' (fst sc) (fun e => xorb (xorb (f e) (g e)) (h e)) /\
    den m' (snd sc) (fun e => maj (f e) (g e) (h e))).
Proof.
  intros Ha Hb Hc. unfold full_adder.
  step half_adder_spec as sc m1 G1 H1. destruct sc as [s1 c1], H1 as [Hs1 Hc1].
  step half_adder_spec as sc m2 G2 H2. destruct sc as [s2 c2], H2 as [Hs2 Hc2].
  step spec_or as co m3 G3 Hco. apply spec_ret. auto.
Qed.

(** The ripple from bit [i] on: the array's bits below [i] are those of the
    sum [x + y], and the carry literal is the carry into bit [i]. *)
Definition rippled (n i : nat) (X Y : (Z -> bool) -> Z) (rc : list Z * Z) (m : aig) : Prop :=
  arr m (fst rc) n (fun c => n - 1 - c < i)%nat (fun c env => bit n c (X env + Y env)) /\
  den m (snd rc) (fun env => carry_in i (X env) (Y env)).

Lemma bb_add_spec m a b n A B :
  vec m a n A -> vec m b n B -> (1 <= n)%nat ->
  spec (bb_add a b) m (fun r m' =>
    vec m' r n (fun env => (A env + B env) mod 2 ^ Z.of_nat n)).
Proof.
  intros Ha Hb Hn. unfold bb_add. rewrite (vec_length _ _ _ _ Ha).
  step half_adder_spec as sc m1 G1 H1. destruct sc as [s c], H1 as [Hs Hc].
  cbn [fst snd] in Hs, Hc. unfold bit in Hs, Hc. replace (n - 1 - (n - 1))%nat with O in Hs, Hc by lia.
  eapply spec_bind; [apply (spec_for _ _ _ _ _ (fun i rc m => rippled n i A B rc m)) |].
  - split; cbn [fst snd].
    + apply (arr_insert _ _ _ _ _ (fun _ => False) _ (fun _ _ => false) _ _) with (2 := Hs).
      * split; [apply length_replicate | tauto].
      * cbv beta. intros i Hi ? ?. lia.
      * intros env. unfold bit. replace (n - 1 - (n - 1))%nat with O by lia.
        rewrite (proj1 (add_bit 0 (A env) (B env))), carry_in_0, xorb_false_r. reflexivity.
    + eapply den_ext; [exact Hc |]. intros env.
      rewrite (proj2 (add_bit 0 (A env) (B env))), carry_in_0. unfold maj. btauto.
  - intros k [r co] m2 Hk G2 [Hr Hco]. cbn [fst snd] in Hr, Hco. advance G2.
    step full_adder_spec as sc m3 G3 H3. destruct sc as [s' c'], H3 as [Hs' Hc'].
    cbn [fst snd] in Hs', Hc'. unfold bit in Hs', Hc'.
    replace (n - 1 - (n - 1 - k))%nat with k in Hs', Hc' by lia.
    apply spec_ret. split; cbn [fst snd].
    + eapply arr_insert; [exact Hr | exact Hs' | |].
      * cbv beta. intros i Hi ? ?. split; [lia | reflexivity].
      * intros env. unfold bit. replace (n - 1 - (n - 1 - k))%nat with k by lia.
        rewrite (proj1 (add_bit k (A env) (B env))). reflexivity.
    + eapply den_ext; [exact Hc' |]. intros env.
      rewrite (proj2 (add_bit k (A env) (B env))). reflexivity.
  - intros [r co] m2 G2 [Hr _]. apply spec_ret. eapply vec_of_arr; [exact Hr | | |].
    + intros i Hi. cbv beta. lia.
    + intros env. apply Z.mod_pos_bound. lia.
    + intros i env Hi. unfold bit. rewrite Z.testbit_mod_pow2 by lia. split_cmp. reflexivity.
Qed.

Lemma bb_neg_spec m a n A :
  vec m a n A -> (1 <= n)%nat ->
  spec (bb_neg a) m (fun r m' => vec m' r n (fun env => (- A env) mod 2 ^ Z.of_nat n)).
Proof.
  intros Ha Hn. unfold bb_neg. rewrite (vec_length _ _ _ _ Ha).
  step bb_not_spec as na m1 G1 Hna.
  assert (F1 : fits 64 1) by (unfold fits; lia).
  step value_u64_spec as one m2 G2 Hone.
  eapply spec_post; [apply (bb_add_spec _ _ _ _ _ _ Hna Hone Hn) |].
  intros r m' _ H. eapply vec_ext; [exact H |]. intros env. cbv beta.
  rewrite Z.add_mod_idemp_r by lia. rewrite <- (Z.mod_add (- A env) 1) by lia. f_equal. lia.
Qed.

Lemma bb_sub_spec m a b n A B :
  vec m a n A -> vec m b n B -> (1 <= n)%nat ->
  spec (bb_sub a b) m (fun r m' =>
    vec m' r n (fun env => (A env - B env) mod 2 ^ Z.of_nat n)).
Proof.
  intros Ha Hb Hn. unfold bb_sub. step bb_neg_spec as nb m1 G1 Hnb.
  eapply spec_post; [apply (bb_add_spec _ _ _ _ _ _ Ha Hnb Hn) |].
  intros r m' _ H. eapply vec_ext; [exact H |]. intros env. cbv beta.
  rewrite Z.add_mod_idemp_r by lia. f_equal.
Qed.

(** ** Multiplier *)

Lemma testbit_row R Y i p :
  Z.testbit (R + Y * 2 ^ Z.of_nat i) (Z.of_nat p) =
    if Nat.ltb p i then Z.testbit R (Z.of_nat p)
    else Z.testbit (R / 2 ^ Z.of_nat i + Y) (Z.of_nat (p - i)).
Proof.
  destruct (Nat.ltb_spec p i).
  - rewrite <- (Z.mod_pow2_bits_low _ (Z.of_nat i)) by lia.
    rewrite Z.mod_add, Z.mod_pow2_bits_low by lia. reflexivity.
  - rewrite <- Z.div_add, Z.div_pow2_bits by lia. f_equal. lia.
Qed.

Lemma den_const_false m f : inv m -> den m FALSE f -> forall env, f env = false.
Proof. intros Im [_ E] env. rewrite <- E. apply eval_false, Im. Qed.

Lemma mul_bit v c k : 0 <= k -> Z.testbit (v * Z.b2z c) k = Z.testbit v k && c.
Proof.
  intros. destruct c; cbn [Z.b2z].
  - rewrite Z.mul_1_r. btauto.
  - rewrite Z.mul_0_r, Z.bits_0. btauto.
Qed.

Lemma div_bit v i k :
  Z.testbit (v / 2 ^ Z.of_nat i) (Z.of_nat k) = Z.testbit v (Z.of_nat (i + k)).
Proof. rewrite Z.div_pow2_bits by lia. f_equal. lia. Qed.

Section Row.
Context (n i : nat) (A R Y : (Z -> bool) -> Z) (fb : (Z -> bool) -> bool).
Context (Hi : (i < n)%nat) (HY : forall env, Y env = A env * Z.b2z (fb env)).

Let X env := R env / 2 ^ Z.of_nat i.

(** Positions below [i + j] hold the sum, those above still hold [R]. *)
Definition rowed (j : nat) (rc : list Z * Z) (m : aig) : Prop :=
  arr m (fst rc) n all (fun c env =>
    let p := (n - 1 - c)%nat in
    if Nat.ltb p (i + j) then Z.testbit (R env + Y env * 2 ^ Z.of_nat i) (Z.of_nat p)
    else Z.testbit (R env) (Z.of_nat p)) /\
  den m (snd rc) (fun env => carry_in j (X env) (Y env)).

(** Position [i + j] gets the sum bit of [X + Y]. *)
Lemma rowed_write j r s c c' m f :
  rowed j (r, c) m -> (i + j < n)%nat -> den m s f ->
  (forall env, f env = Z.testbit (X env + Y env) (Z.of_nat j)) ->
  den m c' (fun env => carry_in (S j) (X env) (Y env)) ->
  rowed (S j) (<[(n - 1 - i - j)%nat := s]> r, c') m.
Proof.
  intros [Hr _] Hj Hs Ef Hc. split; cbn [fst snd] in *; [| exact Hc].
  eapply arr_insert; [exact Hr | exact Hs | |]; cbv beta zeta.
  - intros p Hp _ Np. split; [exact Logic.I |]. intros env.
    destruct (Nat.ltb_spec (n - 1 - p) (i + j)), (Nat.ltb_spec (n - 1 - p) (i + S j));
      try reflexivity; lia.
  - intros env. rewrite Ef.
    destruct (Nat.ltb_spec (n - 1 - (n - 1 - i - j)) (i + S j)); [| lia].
    rewrite testbit_row.
    destruct (Nat.ltb_spec (n - 1 - (n - 1 - i - j)) i); [lia |].
    f_equal. lia.
Qed.

Lemma rowed_start {T} m r a bbit (k : list Z * Z -> M T) Q :
  vec m a n A -> vec m r n R -> den m bbit fb ->
  (forall rc m', grown m m' -> rowed 1 rc m' -> spec (k rc) m' Q) ->
  spec (p <- and_ (get a (n - 1)) bbit;;
        '(s, cout) <- half_adder (get r (n - 1 - i)) p;;
        k (<[(n - 1 - i)%nat := s]> r, cout)) m Q.
Proof.
  intros Ha Hr Hb Hk. step spec_and as p m1 G1 Hp.
  step half_adder_spec as sc m2 G2 H2. destruct sc as [s c], H2 as [Hs Hc].
  cbn [fst snd] in Hs, Hc. apply Hk; [grow |].
  assert (Eb : forall env, bit n (n - 1 - i) (R env) = Z.testbit (X env) (Z.of_nat 0)).
  { intros env. unfold X, bit. rewrite div_bit. f_equal. lia. }
  assert (Ea : forall env, bit n (n - 1) (A env) && fb env = Z.testbit (Y env) (Z.of_nat 0)).
  { intros env. rewrite HY, mul_bit by lia. unfold bit. do 2 f_equal. lia. }
  replace (n - 1 - i)%nat with (n - 1 - i - 0)%nat by lia.
  eapply (rowed_write 0 r s FALSE); [| lia | exact Hs | |].
  - split; cbn [fst snd].
    + eapply arr_weak; [exact (proj1 Hr) |]. intros p0 Hp0 _. split; [exact Logic.I |].
      intros env. cbv zeta. rewrite Nat.add_0_r. rewrite testbit_row.
      destruct (Nat.ltb_spec (n - 1 - p0) i); reflexivity.
    + eapply den_ext; [apply den_false, (grown_inv _ _ G2) |].
      intros env. rewrite carry_in_0. reflexivity.
  - intros env. rewrite (proj1 (add_bit 0 (X env) (Y env))), carry_in_0, xorb_false_r.
    rewrite <- Eb, <- Ea. reflexivity.
  - eapply den_ext; [exact Hc |]. intros env.
    rewrite (proj2 (add_bit 0 (X env) (Y env))), carry_in_0, <- Eb, <- Ea. unfold maj. btauto.
Qed.
End Row.

Lemma mul_row_spec n i A R Y fb m a bbit rc :
  (i < n)%nat -> (forall env, Y env = A env * Z.b2z (fb env)) ->
  vec m a n A -> den m bbit fb -> rowed n i R Y 1 rc m ->
  spec (mul_row a (n - 1 - i) bbit rc) m (fun rc m' => rowed n i R Y (n - i) rc m').
Proof.
  intros Hi HY Ha Hb H1. unfold mul_row.
  eapply spec_post; [apply (spec_for _ _ _ _ _ (fun j rc m => rowed n i R Y j rc m)); [exact H1 |] |];
    [| intros ? ? _ ?; replace (n - i)%nat with (1 + (n - 1 - i))%nat by lia; assumption].
  intros j [r c] m1 Hj G1 H. advance G1. rewrite (vec_length _ _ _ _ Ha).
  pose proof H as [Hr Hc]. cbn [fst snd] in Hr, Hc.
  set (X := fun env => R env / 2 ^ Z.of_nat i) in *.
  assert (Eb : forall env, Z.testbit (R env) (Z.of_nat (i + j)) = Z.testbit (X env) (Z.of_nat j))
    by (intros; unfold X; rewrite div_bit; reflexivity).
  assert (Ea : forall env, bit n (n - 1 - j) (A env) && fb env = Z.testbit (Y env) (Z.of_nat j)).
  { intros env. rewrite HY, mul_bit by lia. unfold bit. do 2 f_equal. lia. }
  pose proof (vec_get _ _ _ _ (n - 1 - j) Ha ltac:(lia)) as Hai.
  pose proof (arr_get _ _ _ _ _ (n - 1 - i - j) Hr ltac:(lia) Logic.I) as Hri. cbv beta zeta in Hri.
  assert (Hri' : den m1 (get r (n - 1 - i - j)) (fun env => Z.testbit (X env) (Z.of_nat j))).
  { eapply den_ext; [exact Hri |]. intros env. cbv beta.
    replace (n - 1 - (n - 1 - i - j))%nat with (i + j)%nat by lia.
    destruct (Nat.ltb_spec (i + j) (i + j)); [lia |]. apply Eb. }
  assert (Full : spec (
      p <- and_ (get a (n - 1 - j)) bbit;;
      '(s, cout) <- full_adder (get r (n - 1 - i - j)) p c;;
      ret (<[(n - 1 - i - j)%nat := s]> r, cout)) m1 (rowed n i R Y (S j))).
  { clear Hri. step spec_and as p m2 G2 Hp. rename H into Hrow.
    step full_adder_spec as sc m3 G3 H3. destruct sc as [s c'], H3 as [Hs Hc'].
    cbn [fst snd] in Hs, Hc'. apply spec_ret.
    eapply (rowed_write n i R Y Hi j r s c); [| lia | exact Hs | |].
    + split; [exact Hr | exact Hc].
    + intros env. cbv beta. rewrite (proj1 (add_bit j _ (Y env))), Ea. reflexivity.
    + eapply den_ext; [exact Hc' |]. intros env.
      rewrite (proj2 (add_bit j _ (Y env))), Ea. reflexivity. }
  apply spec_inv; intros Im.
  destruct (Z.eqb_spec (get a (n - 1 - j)) FALSE) as [Fa |]; [destruct (Z.eqb_spec c FALSE) as [Fc |] |]; cbn [andb].
  - apply spec_ret. rewrite Fa in Hai. rewrite Fc in *.
    pose proof (den_const_false _ _ Im Hai) as Za. pose proof (den_const_false _ _ Im Hc) as Zc.
    cbv beta in Za, Zc.
    assert (Zy : forall env, Z.testbit (Y env) (Z.of_nat j) = false)
      by (intros; rewrite <- Ea, Za; reflexivity).
    split; cbn [fst snd].
    + eapply arr_weak; [exact Hr |]. cbv beta zeta. intros p Hp _. split; [exact Logic.I |].
      intros env. destruct (Nat.ltb_spec (n - 1 - p) (i + j)), (Nat.ltb_spec (n - 1 - p) (i + S j));
        try reflexivity; try lia.
      rewrite testbit_row. destruct (Nat.ltb_spec (n - 1 - p) i); [lia |].
      replace (n - 1 - p - i)%nat with j by lia. replace (n - 1 - p)%nat with (i + j)%nat by lia.
      rewrite (proj1 (add_bit j _ (Y env))), Zy, Zc, !xorb_false_r. apply Eb.
    + eapply den_ext; [exact Hc |]. intros env. rewrite (proj2 (add_bit j _ (Y env))), Zy, Zc.
      unfold maj. btauto.
  - exact Full.
  - exact Full.
Qed.

Lemma bb_mul_spec m a b n A B :
  vec m a n A -> vec m b n B -> (1 <= n)%nat ->
  spec (bb_mul a b) m (fun r m' =>
    vec m' r n (fun env => (A env * B env) mod 2 ^ Z.of_nat n)).
Proof.
  intros Ha Hb Hn. unfold bb_mul. rewrite (vec_length _ _ _ _ Ha).
  set (R := fun (i : nat) env => (A env * (B env mod 2 ^ Z.of_nat i)) mod 2 ^ Z.of_nat n).
  eapply spec_bind; [apply spec_fill_vec with (V := R 1%nat)
    (F := fun i env => bit n i (A env) && bit n (n - 1) (B env)) |].
  - apply length_replicate.
  - intros i r m1 Hi G L. eexists. split; [reflexivity |].
    apply spec_and; eapply den_grown; dens.
  - intros env. apply Z.mod_pos_bound. lia.
  - intros i env Hi. unfold R, bit. replace (n - 1 - (n - 1))%nat with O by lia.
    rewrite Z.testbit_mod_pow2 by lia. change (2 ^ Z.of_nat 1) with 2.
    rewrite <- Z.bit0_mod. change (Z.of_nat 0) with 0.
    destruct (Z.testbit (B env) 0); cbn [Z.b2z]; split_cmp; cbn [andb].
    + rewrite Z.mul_1_r. btauto.
    + rewrite Z.mul_0_r, Z.bits_0. btauto.
  - intros r m1 G1 Hr. advance G1.
    eapply spec_post; [apply (spec_for _ _ _ _ _ (fun i r m => vec m r n (R i))); [exact Hr |] |].
    + intros i r' m2 Hi G2 Hr'. advance G2. apply spec_inv; intros Im.
      set (Y := fun env => A env * Z.b2z (bit n (n - 1 - i) (B env))).
      assert (ER : forall env, R (S i) env = (R i env + Y env * 2 ^ Z.of_nat i) mod 2 ^ Z.of_nat n).
      { intros env. unfold R, Y, bit. replace (n - 1 - (n - 1 - i))%nat with i by lia.
        rewrite Z.add_mod_idemp_l by lia. rewrite Nat2Z.inj_succ, <- Z.add_1_r, mod_pow2_succ by lia.
        f_equal. lia. }
      pose proof (vec_get _ _ _ _ (n - 1 - i) Hb ltac:(lia)) as Hbi.
      destruct (Z.eqb_spec (get b (n - 1 - i)) FALSE) as [Fb |].
      * apply spec_ret. rewrite Fb in Hbi. eapply vec_ext; [exact Hr' |]. intros env.
        rewrite ER. unfold Y. rewrite (den_const_false _ _ Im Hbi env). cbn [Z.b2z].
        rewrite Z.mul_0_r, Z.add_0_r, Z.mod_small; [reflexivity |].
        eapply vec_fits, Hr'.
      * apply (rowed_start n i A (R i) Y _ ltac:(lia) ltac:(reflexivity) _ r' a _
          (fun rc => '(r, _) <- mul_row a (n - 1 - i) (get b (n - 1 - i)) rc;; ret r));
          [exact Ha | exact Hr' | exact Hbi |].
        intros rc m3 G3 H1. advance G3.
        eapply spec_bind; [eapply mul_row_spec; [lia | | exact Ha | exact Hbi | exact H1]; reflexivity |].
        intros [r2 c2] m4 G4 [H2 _]. apply spec_ret. cbn [fst] in H2.
        eapply vec_of_arr; [exact H2 | intros; exact Logic.I | |].
        { intros env. apply Z.mod_pos_bound. lia. }
        { intros k env Hk. cbv beta zeta. rewrite ER. unfold bit.
          destruct (Nat.ltb_spec (n - 1 - k) (i + (n - i))); [| lia].
          rewrite Z.testbit_mod_pow2 by lia. split_cmp. reflexivity. }
    + intros r' m' _ H. eapply vec_ext; [exact H |]. intros env. unfold R.
      replace (1 + (n - 1))%nat with n by lia. rewrite (Z.mod_small (B env)); [reflexivity |].
      eapply vec_fits, Hb.
Qed.

(** ** Shifters *)

Lemma ceil_log2_loop_spec fuel : forall n v r,
  v = (2 ^ r)%nat -> (n <= 2 ^ (r + fuel))%nat -> (forall i, (i < r)%nat -> (2 ^ i < n)%nat) ->
  let k := ceil_log2_loop fuel n v r in
  (n <= 2 ^ k)%nat /\ forall i, (i < k)%nat -> (2 ^ i < n)%nat.
Proof.
  induction fuel as [| f IH]; intros n v r -> Hn Hr; cbn [ceil_log2_loop].
  - rewrite Nat.add_0_r in Hn. auto.
  - destruct (Nat.ltb_spec (2 ^ r) n); [| auto]. apply IH.
    + cbn [Nat.pow]. lia.
    + rewrite Nat.add_succ_l, <- Nat.add_succ_r. exact Hn.
    + intros i Hi. destruct (Nat.eq_dec i r) as [-> | ?]; [assumption | apply Hr; lia].
Qed.

Lemma ceil_log2_spec n :
  (1 <= n)%nat ->
  (n <= 2 ^ ceil_log2 n)%nat /\ (ceil_log2 n <= n)%nat /\
  forall i, (i < ceil_log2 n)%nat -> (2 ^ i < n)%nat.
Proof.
  intros Hn. destruct (ceil_log2_loop_spec n n 1 0) as [H1 H2].
  - reflexivity.
  - pose proof (Nat.pow_gt_lin_r 2 n). cbn. lia.
  - lia.
  - split; [exact H1 |]. split; [| exact H2]. fold (ceil_log2 n) in *.
    destruct (Nat.le_gt_cases (ceil_log2 n) n) as [L | L]; [exact L |].
    specialize (H2 n L). pose proof (Nat.pow_gt_lin_r 2 n). lia.
Qed.

Section Stages.
Context (m : aig) (s : Z) (f : (Z -> bool) -> bool) (w : list Z) (n step : nat).
Context (W : (Z -> bool) -> Z) (Hs : den m s f) (Hw : vec m w n W) (Hstep : (step < n)%nat).

Lemma shl_stage_spec :
  spec (shl_stage s step w) m (fun r m' => vec m' r n (fun env =>
    if f env then (W env * 2 ^ Z.of_nat step) mod 2 ^ Z.of_nat n else W env)).
Proof.
  unfold shl_stage. rewrite (vec_length _ _ _ _ Hw).
  set (F := fun c env => if f env then bit n (c + step) (W env) else bit n c (W env)).
  eapply spec_bind; [apply (spec_for _ _ _ _ _ (fun j r m => arr m r n all (fun c env =>
    if Nat.ltb c j then F c env else bit n c (W env)))); [exact (proj1 Hw) |] |].
  - intros j r m1 Hj G H. pose proof (den_grown _ _ _ _ G Hs) as Hs'.
    pose proof (arr_get _ _ _ _ _ j H ltac:(lia) Logic.I) as H0.
    pose proof (arr_get _ _ _ _ _ (j + step) H ltac:(lia) Logic.I) as H1. cbv beta in H0, H1.
    eapply spec_bind; [apply (spec_ite _ _ _ _ _ _ _ H1 H0 Hs') |].
    intros x m2 G2 Hx. apply spec_ret.
    eapply arr_insert; [eapply arr_grown; eauto | exact Hx | |]; cbv beta.
    + intros c Hc _ Nc. split; [exact Logic.I |]. intros env.
      destruct (Nat.ltb_spec c j), (Nat.ltb_spec c (S j)); try reflexivity; lia.
    + intros env. destruct (Nat.ltb_spec j j), (Nat.ltb_spec (j + step) j),
        (Nat.ltb_spec j (S j)); try lia. reflexivity.
  - intros r m1 G1 H1. rewrite Nat.add_0_l in H1.
    eapply spec_post; [apply (spec_for _ _ _ _ _ (fun j r m => arr m r n all (fun c env =>
      if Nat.ltb c (n - step) then F c env
      else if Nat.ltb c j then negb (f env) && bit n c (W env) else bit n c (W env)))) |].
    + eapply arr_weak; [exact H1 |]. intros c Hc _. split; [exact Logic.I |]. cbv beta.
      intros env. destruct (Nat.ltb_spec c (n - step)); reflexivity.
    + intros j r' m2 Hj G H. pose proof (den_grown _ _ _ _ G (den_grown _ _ _ _ G1 Hs)) as Hs'.
      pose proof (arr_get _ _ _ _ _ j H ltac:(lia) Logic.I) as H0. cbv beta in H0.
      eapply spec_bind; [apply (spec_and _ _ _ _ _ (den_not _ _ _ Hs') H0) |].
      intros x m3 G3 Hx. apply spec_ret.
      eapply arr_insert; [eapply arr_grown; eauto | exact Hx | |]; cbv beta.
      * intros c Hc _ Nc. split; [exact Logic.I |]. intros env.
        destruct (Nat.ltb_spec c (n - step)); [reflexivity |].
        destruct (Nat.ltb_spec c j), (Nat.ltb_spec c (S j)); try reflexivity; lia.
      * intros env. destruct (Nat.ltb_spec j (n - step)), (Nat.ltb_spec j j),
          (Nat.ltb_spec j (S j)); try lia. reflexivity.
    + intros r' m' _ H. eapply vec_of_arr; [exact H | intros; exact Logic.I | |].
      * intros env. destruct (f env); [apply Z.mod_pos_bound; lia | eapply vec_fits, Hw].
      * intros c env Hc. cbv beta. unfold F, bit.
        destruct (Nat.ltb_spec c (n - step)), (Nat.ltb_spec c (n - step + step)); try lia;
          destruct (f env); try reflexivity;
          rewrite Z.testbit_mod_pow2, mul_pow2_spec by lia; split_cmp; cbn; [f_equal; lia | reflexivity].
Qed.

Lemma shr_move_spec :
  spec (shr_move s step w) m (fun r m' => arr m' r n all (fun c env =>
    if Nat.leb step c && f env then bit n (c - step) (W env) else bit n c (W env))).
Proof.
  unfold shr_move. rewrite (vec_length _ _ _ _ Hw).
  eapply spec_post; [apply (spec_for _ _ _ _ _ (fun j r m => arr m r n all (fun c env =>
    if Nat.leb (n - j) c && f env then bit n (c - step) (W env) else bit n c (W env)))) |].
  - eapply arr_weak; [exact (proj1 Hw) |]. intros c Hc _. split; [exact Logic.I |]. intros env.
    destruct (Nat.leb_spec (n - 0) c); [lia | reflexivity].
  - intros j r m1 Hj G H. pose proof (den_grown _ _ _ _ G Hs) as Hs'.
    pose proof (arr_get _ _ _ _ _ (n - 1 - j) H ltac:(lia) Logic.I) as H0.
    pose proof (arr_get _ _ _ _ _ (n - 1 - j - step) H ltac:(lia) Logic.I) as H1.
    cbv beta in H0, H1.
    eapply spec_bind; [apply (spec_ite _ _ _ _ _ _ _ H1 H0 Hs') |].
    intros x m2 G2 Hx. apply spec_ret.
    eapply arr_insert; [eapply arr_grown; eauto | exact Hx | |]; cbv beta.
    + intros c Hc _ Nc. split; [exact Logic.I |]. intros env.
      destruct (Nat.leb_spec (n - j) c), (Nat.leb_spec (n - S j) c); try reflexivity; lia.
    + intros env. destruct (Nat.leb_spec (n - j) (n - 1 - j)),
        (Nat.leb_spec (n - j) (n - 1 - j - step)), (Nat.leb_spec (n - S j) (n - 1 - j)); try lia.
      reflexivity.
  - intros r m' _ H. eapply arr_weak; [exact H |]. intros c Hc _. split; [exact Logic.I |].
    intros env. replace (n - (0 + (n - step)))%nat with step by lia. reflexivity.
Qed.

Lemma shr_stage_spec :
  spec (shr_stage s step w) m (fun r m' => vec m' r n (fun env =>
    if f env then W env / 2 ^ Z.of_nat step else W env)).
Proof.
  unfold shr_stage. eapply spec_bind; [apply shr_move_spec |].
  intros r m1 G1 H1.
  eapply spec_post; [apply (spec_for _ _ _ _ _ (fun j r m => arr m r n all (fun c env =>
    if Nat.leb step c && f env then bit n (c - step) (W env)
    else if Nat.ltb c step && Nat.ltb c j then negb (f env) && bit n c (W env)
    else bit n c (W env)))) |].
  - eapply arr_weak; [exact H1 |]. intros c Hc _. split; [exact Logic.I |]. intros env. cbv beta.
    destruct (Nat.ltb_spec c 0); [lia |]. rewrite andb_false_r. reflexivity.
  - intros j r' m2 Hj G H. pose proof (den_grown _ _ _ _ G (den_grown _ _ _ _ G1 Hs)) as Hs'.
    pose proof (arr_get _ _ _ _ _ j H ltac:(lia) Logic.I) as H0. cbv beta in H0.
    eapply spec_bind; [apply (spec_and _ _ _ _ _ (den_not _ _ _ Hs') H0) |].
    intros x m3 G3 Hx. apply spec_ret.
    eapply arr_insert; [eapply arr_grown; eauto | exact Hx | |]; cbv beta.
    + intros c Hc _ Nc. split; [exact Logic.I |]. intros env.
      destruct (Nat.leb_spec step c), (f env), (Nat.ltb_spec c step), (Nat.ltb_spec c j),
        (Nat.ltb_spec c (S j)); try reflexivity; lia.
    + intros env. destruct (Nat.leb_spec step j), (Nat.ltb_spec j step), (Nat.ltb_spec j j),
        (Nat.ltb_spec j (S j)); try lia. reflexivity.
  - intros r' m' _ H. eapply vec_of_arr; [exact H | intros; exact Logic.I | |].
    + intros env. pose proof (vec_fits _ _ _ _ env Hw) as [? ?].
      destruct (f env); [| split; assumption]. split; [apply Z.div_pos; lia |].
      apply Z.div_lt_upper_bound; nia.
    + intros c env Hc. cbv beta. unfold bit.
      destruct (f env); [rewrite Z.div_pow2_bits by lia |]; cbn [negb andb];
        destruct (Nat.leb_spec step c), (Nat.ltb_spec c step); try lia; cbn [andb].
      * f_equal. lia.
      * destruct (Nat.ltb_spec c (0 + step)); [| lia].
        symmetry. apply (fits_high (Z.of_nat n)); [eapply vec_fits, Hw | lia].
      * reflexivity.
      * destruct (Nat.ltb_spec c (0 + step)); reflexivity.
Qed.

Lemma ashr_stage_spec :
  (1 <= step)%nat ->
  spec (ashr_stage s step w) m (fun r m' => vec m' r n (fun env =>
    if f env then (signed (Z.of_nat n) (W env) / 2 ^ Z.of_nat step) mod 2 ^ Z.of_nat n
    else W env)).
Proof.
  intros S1. unfold ashr_stage. eapply spec_bind; [apply shr_move_spec |].
  intros r m1 G1 H1.
  eapply spec_post; [apply (spec_for _ _ _ _ _ (fun j r m => arr m r n all (fun c env =>
    if Nat.leb step c && f env then bit n (c - step) (W env)
    else if Nat.ltb c step && Nat.ltb c j && f env then bit n 0 (W env)
    else bit n c (W env)))) |].
  - eapply arr_weak; [exact H1 |]. intros c Hc _. split; [exact Logic.I |]. intros env. cbv beta.
    destruct (Nat.ltb_spec c 0); [lia |]. rewrite andb_false_r. reflexivity.
  - intros j r' m2 Hj G H. pose proof (den_grown _ _ _ _ G (den_grown _ _ _ _ G1 Hs)) as Hs'.
    pose proof (arr_get _ _ _ _ _ j H ltac:(lia) Logic.I) as H0.
    pose proof (arr_get _ _ _ _ _ 0 H ltac:(lia) Logic.I) as H2. cbv beta in H0, H2.
    eapply spec_bind; [apply (spec_ite _ _ _ _ _ _ _ H2 H0 Hs') |].
    intros x m3 G3 Hx. apply spec_ret.
    eapply arr_insert; [eapply arr_grown; eauto | exact Hx | |]; cbv beta.
    + intros c Hc _ Nc. split; [exact Logic.I |]. intros env.
      destruct (Nat.leb_spec step c), (f env), (Nat.ltb_spec c step), (Nat.ltb_spec c j),
        (Nat.ltb_spec c (S j)); try reflexivity; lia.
    + intros env. destruct (Nat.leb_spec step j), (Nat.leb_spec step 0), (Nat.ltb_spec j step),
        (Nat.ltb_spec j j), (Nat.ltb_spec j (S j)); try lia. cbn [andb].
      destruct (f env); cbn [andb]; [| reflexivity].
      destruct (Nat.ltb 0 step && Nat.ltb 0 j); reflexivity.
  - intros r' m' _ H. eapply vec_of_arr; [exact H | intros; exact Logic.I | |].
    + intros env. destruct (f env); [apply Z.mod_pos_bound; lia | eapply vec_fits, Hw].
    + intros c env Hc. cbv beta. unfold bit.
      destruct (f env); [| destruct (Nat.leb step c), (Nat.ltb c step), (Nat.ltb c (0 + step)); reflexivity].
      rewrite Z.testbit_mod_pow2, Z.div_pow2_bits, signed_spec
        by (try eapply vec_fits, Hw; lia).
      destruct (Nat.leb_spec step c), (Nat.ltb_spec c step), (Nat.ltb_spec c (0 + step));
        try lia; split_cmp; cbn [andb]; f_equal; lia.
Qed.
End Stages.

(** A barrel shifter whose stage shifts by [g]: [g] composes. *)
Lemma stages_spec stage (g : Z -> Z -> Z) m b w n B W :
  vec m b n B -> vec m w n W -> (1 <= n)%nat ->
  (forall m s f w step W, den m s f -> vec m w n W -> (1 <= step < n)%nat ->
    spec (stage s step w) m (fun r m' => vec m' r n (fun env =>
      if f env then g (Z.of_nat step) (W env) else W env))) ->
  (forall v, fits (Z.of_nat n) v -> g 0 v = v) ->
  (forall x y v, 0 <= x -> 0 <= y -> fits (Z.of_nat n) v -> g (x + y) v = g x (g y v)) ->
  spec (stages stage b w) m (fun r m' => vec m' r n (fun env =>
    g (B env mod 2 ^ Z.of_nat (ceil_log2 n)) (W env))).
Proof.
  intros Hb Hw Hn Hst G0 Gadd. destruct (ceil_log2_spec n Hn) as (_ & Kn & K2).
  unfold stages. rewrite (vec_length _ _ _ _ Hb).
  destruct (Nat.ltb_spec n (ceil_log2 n)); [lia |].
  eapply spec_post; [apply (spec_for _ _ _ _ _ (fun i r m => vec m r n (fun env =>
    g (B env mod 2 ^ Z.of_nat i) (W env)))) | intros r m' _ Hr; exact Hr].
  - eapply vec_ext; [exact Hw |]. intros env. rewrite Z.mod_1_r, G0; [reflexivity |].
    eapply vec_fits, Hw.
  - intros i r m1 Hi G Hr. pose proof (vec_grown _ _ _ _ _ G Hb) as Hb1.
    pose proof (vec_bit _ _ _ _ i Hb1 ltac:(lia)) as Hbit.
    eapply spec_post; [apply (Hst _ _ _ _ _ _ Hbit Hr); specialize (K2 i); cbn in K2;
      pose proof (Nat.pow_nonzero 2 i); lia |].
    intros r' m' _ Hr'. eapply vec_ext; [exact Hr' |]. intros env. cbv beta.
    rewrite Nat2Z.inj_succ, <- Z.add_1_r, mod_pow2_succ, Nat2Z.inj_pow by lia.
    change (Z.of_nat 2) with 2.
    destruct (Z.testbit (B env) (Z.of_nat i)); cbn [Z.b2z].
    + rewrite Z.mul_1_l, Gadd; [reflexivity | lia | apply Z.mod_pos_bound; lia |].
      eapply vec_fits, Hw.
    + rewrite Z.mul_0_l, Z.add_0_l. reflexivity.
Qed.

(** The guard [b < size] of the shifters. *)
Lemma in_range_spec m b n B :
  vec m b n B -> 1 <= Z.of_nat n < 2 ^ 32 ->
  spec (size_const <- value_u64 n (Z.of_nat n);; ult_helper b size_const) m
    (fun x m' => den m' x (fun env => B env <? Z.of_nat n)).
Proof.
  intros Hb Hn. assert (Hf : fits 64 (Z.of_nat n)) by (unfold fits; lia).
  step value_u64_spec as sc m1 G1 Hsc.
  eapply spec_post; [eapply ult_helper_spec; [exact Hb | exact Hsc | lia] |].
  intros x m' _ H. eapply den_ext; [exact H |]. intros env. cbv beta.
  rewrite Z.mod_small; [reflexivity |]. pose proof (Z.pow_gt_lin_r 2 (Z.of_nat n)). lia.
Qed.

Lemma lt_ceil_log2 n v :
  (1 <= n)%nat -> 0 <= v < Z.of_nat n -> v mod 2 ^ Z.of_nat (ceil_log2 n) = v.
Proof.
  intros Hn Hv. destruct (ceil_log2_spec n Hn) as (K & _). apply Z.mod_small.
  apply inj_le in K. rewrite Nat2Z.inj_pow in K. lia.
Qed.

Definition shifted (is_shl : bool) (n s v : Z) : Z :=
  if is_shl then (v * 2 ^ s) mod 2 ^ n else v / 2 ^ s.

Lemma shifted_out d n s v : 0 <= n <= s -> fits n v -> shifted d n s v = 0.
Proof.
  intros Hs [H0 H1]. unfold shifted. pose proof (Z.pow_le_mono_r 2 n s). destruct d.
  - replace s with (s - n + n) by lia. rewrite Z.pow_add_r, Z.mul_assoc, Z.mod_mul by lia.
    reflexivity.
  - apply Z.div_small. lia.
Qed.

Lemma do_shl_or_shr_spec m a b n A B d :
  vec m a n A -> vec m b n B -> 1 <= Z.of_nat n < 2 ^ 32 ->
  spec (do_shl_or_shr a b d) m (fun r m' => vec m' r n (fun env =>
    shifted d (Z.of_nat n) (B env) (A env))).
Proof.
  intros Ha Hb Hn. unfold do_shl_or_shr.
  rewrite (vec_length _ _ _ _ Ha), (vec_length _ _ _ _ Hb).
  destruct (Nat.eqb_spec n 1) as [-> | ?].
  { step spec_and as x m1 G1 Hx. apply spec_ret. eapply vec_ext; [apply vec_one, Hx |].
    intros env. cbv beta. unfold bit, shifted.
    pose proof (vec_fits _ _ _ _ env Ha) as FA. pose proof (vec_fits _ _ _ _ env Hb) as FB.
    unfold fits in FA, FB. cbn in FA, FB.
    assert (A env = 0 \/ A env = 1) as [-> | ->] by lia;
    assert (B env = 0 \/ B env = 1) as [-> | ->] by lia; destruct d; reflexivity. }
  step value_bits_spec as w m1 G1 Hw.
  eapply spec_bind; [apply (stages_spec _ (shifted d (Z.of_nat n)) _ _ _ _ _ _ Hb Hw); [lia | | |] |].
  - intros m2 s f w' step W Hs HW Hstep. destruct d; cbn [shifted];
      [apply shl_stage_spec | apply shr_stage_spec]; auto; lia.
  - intros v Hv. unfold shifted. rewrite Z.mul_1_r, Z.div_1_r, Z.mod_small by exact Hv.
    destruct d; reflexivity.
  - intros x y v Hx Hy Hv. unfold shifted. destruct d.
    + rewrite Z.mul_mod_idemp_l, Z.pow_add_r by lia. f_equal. lia.
    + rewrite Z.div_div, Z.pow_add_r by lia. f_equal. lia.
  - intros w2 m2 G2 Hw2. advance G2. cbv beta in Hw2.
    pose proof (in_range_spec m2 b n B Hb Hn) as IR.
    apply (spec_assoc (value_u64 n (Z.of_nat n)) (ult_helper b)).
    eapply spec_bind; [exact IR |]. intros ir m3 G3 Hir. cbv beta in Hir. advance G3.
    assert (F0 : fits 64 0) by (unfold fits; lia).
    step value_u64_spec as zz m4 G4 Hzz.
    eapply spec_post; [apply (bb_ite_spec _ _ _ _ _ _ Hw2 Hzz _ _ Hir) |].
    intros r m5 _ H. eapply vec_ext; [exact H |]. intros env. cbv beta.
    pose proof (vec_fits _ _ _ _ env Hb) as FB. unfold fits in FB.
    destruct (Z.ltb_spec (B env) (Z.of_nat n)).
    + rewrite lt_ceil_log2 by lia. reflexivity.
    + rewrite Z.mod_0_l, shifted_out by (try eapply vec_fits, Ha; lia). reflexivity.
Qed.

Lemma signed_mod_inv w x :
  1 <= w -> - 2 ^ (w - 1) <= x < 2 ^ (w - 1) -> signed w (x mod 2 ^ w) = x.
Proof.
  intros Hw Hx. assert (E : 2 ^ w = 2 * 2 ^ (w - 1))
    by (rewrite <- Z.pow_succ_r by lia; f_equal; lia).
  unfold signed. rewrite testbit_top by (try apply Z.mod_pos_bound; lia).
  destruct (Z.leb_spec 0 x).
  - rewrite Z.mod_small by lia. split_cmp. reflexivity.
  - rewrite <- (Z.mod_add x 1), Z.mod_small by lia. split_cmp. lia.
Qed.

(** The sign survives any shift. *)
Lemma signed_div_range w v s :
  1 <= w -> 0 <= s -> fits w v ->
  - 2 ^ (w - 1) <= signed w v / 2 ^ s < 2 ^ (w - 1).
Proof.
  intros Hw Hs Hv. pose proof (signed_range w v Hw Hv) as R.
  split; [apply Z.div_le_lower_bound | apply Z.div_lt_upper_bound]; nia.
Qed.

Lemma bb_ashr_spec m a b n A B :
  vec m a n A -> vec m b n B -> 1 <= Z.of_nat n < 2 ^ 32 ->
  spec (bb_ashr a b) m (fun r m' => vec m' r n (fun env =>
    (signed (Z.of_nat n) (A env) / 2 ^ B env) mod 2 ^ Z.of_nat n)).
Proof.
  intros Ha Hb Hn. unfold bb_ashr.
  rewrite (vec_length _ _ _ _ Ha), (vec_length _ _ _ _ Hb).
  destruct (Nat.eqb_spec n 1) as [-> | ?].
  { eapply spec_post; [apply value_bits_spec, Ha |]. intros r m' _ H.
    eapply vec_ext; [exact H |]. intros env.
    pose proof (vec_fits _ _ _ _ env Ha) as FA. pose proof (vec_fits _ _ _ _ env Hb) as FB.
    unfold fits in FA, FB. cbn in FA, FB.
    assert (A env = 0 \/ A env = 1) as [-> | ->] by lia;
    assert (B env = 0 \/ B env = 1) as [-> | ->] by lia; reflexivity. }
  set (g := fun s v => (signed (Z.of_nat n) v / 2 ^ s) mod 2 ^ Z.of_nat n).
  step value_bits_spec as w m1 G1 Hw.
  eapply spec_bind; [apply (stages_spec _ g _ _ _ _ _ _ Hb Hw); [lia | | |] |].
  - intros m2 s f w' step W Hs HW Hstep. apply ashr_stage_spec; auto; lia.
  - intros v Hv. unfold g. rewrite Z.div_1_r. apply signed_mod; [lia | exact Hv].
  - intros x y v Hx Hy Hv. unfold g.
    rewrite signed_mod_inv by (try apply signed_div_range; auto; lia).
    rewrite Z.div_div, Z.pow_add_r by lia. do 2 f_equal. lia.
  - intros w2 m2 G2 Hw2. advance G2. cbv beta in Hw2.
    apply (spec_assoc (value_u64 n (Z.of_nat n)) (ult_helper b)).
    eapply spec_bind; [apply (in_range_spec m2 b n B Hb Hn) |].
    intros ir m3 G3 Hir. cbv beta in Hir. advance G3.
    eapply spec_post; [apply (spec_for _ _ _ _ _ (fun i r m => arr m r n all (fun c env =>
      if Nat.ltb c i && negb (B env <? Z.of_nat n) then bit n 0 (A env)
      else bit n c (g (B env mod 2 ^ Z.of_nat (ceil_log2 n)) (A env))))) |].
    + exact (proj1 Hw2).
    + intros i r m4 Hi G4 Hr. advance G4.
      eapply spec_bind; [apply (spec_ite _ _ _ _ _ _ _ (arr_get _ _ _ _ _ i Hr ltac:(lia) Logic.I)
        (vec_get _ _ _ _ 0 Ha ltac:(lia)) Hir) |].
      intros x m5 G5 Hx. apply spec_ret.
      eapply arr_insert; [eapply arr_grown; eauto | exact Hx | |]; cbv beta.
      * intros c Hc _ Nc. split; [exact Logic.I |]. intros env.
        destruct (Nat.ltb_spec c i), (Nat.ltb_spec c (S i)); try reflexivity; lia.
      * intros env. destruct (Nat.ltb_spec i i), (Nat.ltb_spec i (S i)); try lia.
        destruct (B env <? Z.of_nat n); reflexivity.
    + intros r m4 _ H. eapply vec_of_arr; [exact H | intros; exact Logic.I | |].
      * intros env. apply Z.mod_pos_bound. lia.
      * intros c env Hc. cbv beta. pose proof (vec_fits _ _ _ _ env Hb) as FB.
        pose proof (vec_fits _ _ _ _ env Ha) as FA. unfold fits in FB.
        destruct (Nat.ltb_spec c (0 + n)); [| lia]. cbn [andb].
        destruct (Z.ltb_spec (B env) (Z.of_nat n)); cbn [negb].
        { rewrite lt_ceil_log2 by lia. reflexivity. }
        { unfold bit. rewrite Z.testbit_mod_pow2, Z.div_pow2_bits, signed_spec by (auto; lia).
          split_cmp. cbn [andb]. f_equal. lia. }
Qed.

(** ** Divider *)

(** SMT-LIB division: by zero the quotient is all ones, the remainder [a]. *)
Definition udiv (n a b : Z) : Z := if b =? 0 then 2 ^ n - 1 else a / b.
Definition urem (a b : Z) : Z := if b =? 0 then a else a mod b.

(** No borrow out of the low [j] bits of [x - b]. *)
Definition no_borrow (j : nat) (x b : Z) : bool :=
  b mod 2 ^ Z.of_nat j <=? x mod 2 ^ Z.of_nat j.

Lemma sub_bit j a b :
  let x := Z.testbit a (Z.of_nat j) in let y := negb (Z.testbit b (Z.of_nat j)) in
  let c := no_borrow j a b in
  Z.testbit (a - b) (Z.of_nat j) = xorb (xorb y c) x /\
  no_borrow (S j) a b = ((y || c) && x) || (y && c).
Proof.
  cbn zeta. unfold no_borrow. rewrite testbit_mod_leb by lia.
  rewrite Nat2Z.inj_succ, <- Z.add_1_r, Zminus_mod.
  rewrite (mod_pow2_succ a), (mod_pow2_succ b) by lia.
  rewrite Z.pow_add_r by lia. change (2 ^ 1) with 2. set (p := 2 ^ Z.of_nat j).
  assert (0 < p) by (unfold p; lia).
  pose proof (Z.mod_pos_bound a p ltac:(lia)). pose proof (Z.mod_pos_bound b p ltac:(lia)).
  set (a' := a mod p) in *. set (b' := b mod p) in *.
  assert (E : forall s q, 0 <= s - q * (p * 2) < p * 2 -> s mod (p * 2) = s - q * (p * 2)).
  { intros s q Hs. rewrite <- (Z.mod_add _ (- q)) by lia. rewrite Z.mod_small; lia. }
  destruct (Z.testbit a _), (Z.testbit b _); cbn [Z.b2z xorb andb orb negb];
    destruct (Z.leb_spec b' a');
    match goal with |- context [?s mod (p * 2)] =>
      first [rewrite (E s 0) by lia | rewrite (E s (-1)) by lia] end;
    split; split_cmp; reflexivity || lia.
Qed.

(** The partial remainder before quotient bit [i] (from the top), and the
    dividend of that bit. *)
Definition partial (n i : nat) (a b : Z) : Z := urem (a / 2 ^ Z.of_nat (n - i)) b.
Definition dividend (n i : nat) (a b : Z) : Z := 2 * partial n i a b + Z.b2z (bit n i a).

Lemma shift_in n i a :
  (i < n)%nat -> a / 2 ^ Z.of_nat (n - S i) = 2 * (a / 2 ^ Z.of_nat (n - i)) + Z.b2z (bit n i a).
Proof.
  intros Hi. rewrite (div_pow2_step a (Z.of_nat (n - S i))) by lia. unfold bit.
  replace (Z.of_nat (n - S i) + 1) with (Z.of_nat (n - i)) by lia.
  replace (n - S i)%nat with (n - 1 - i)%nat by lia. reflexivity.
Qed.

Lemma urem_le a b : 0 <= a -> 0 <= b -> 0 <= urem a b <= a.
Proof.
  intros Ha Hb. unfold urem. destruct (Z.eqb_spec b 0); [lia |].
  split; [apply Z.mod_pos_bound; lia | apply Z.mod_le; lia].
Qed.

Lemma dividend_fits n i a b :
  (i < n)%nat -> fits (Z.of_nat n) a -> 0 <= b -> fits (Z.of_nat n) (dividend n i a b).
Proof.
  intros Hi [H0 H1] Hb. unfold dividend, partial.
  assert (0 <= a / 2 ^ Z.of_nat (n - i) < 2 ^ Z.of_nat i).
  { split; [apply Z.div_pos; lia |]. apply Z.div_lt_upper_bound; [lia |].
    rewrite <- Z.pow_add_r by lia. replace (_ + _) with (Z.of_nat n) by lia. exact H1. }
  pose proof (urem_le (a / 2 ^ Z.of_nat (n - i)) b ltac:(lia) Hb).
  pose proof (Z.pow_le_mono_r 2 (Z.of_nat i + 1) (Z.of_nat n) ltac:(lia) ltac:(cbv beta; lia)) as L.
  rewrite Z.pow_add_r in L by lia. unfold fits. destruct (bit n i a); cbn [Z.b2z]; lia.
Qed.

Lemma dividend_bit n i a b k :
  (i < n)%nat ->
  Z.testbit (dividend n i a b) (Z.of_nat k) =
    match k with O => bit n i a | S k => Z.testbit (partial n i a b) (Z.of_nat k) end.
Proof.
  intros Hi. unfold dividend. destruct k as [| k].
  - rewrite Z.add_comm, Z.mul_comm. change 2 with (2 ^ 1). rewrite <- (Z.mod_pow2_bits_low _ 1) by lia.
    rewrite Z.mod_add, Z.mod_pow2_bits_low by lia. apply Z.b2z_bit0.
  - rewrite Nat2Z.inj_succ. destruct (bit n i a); cbn [Z.b2z];
      [apply Z.testbit_odd_succ | rewrite Z.add_0_r; apply Z.testbit_even_succ]; lia.
Qed.

(** One subtraction step of the restoring division. *)
Lemma partial_step n i a b :
  (i < n)%nat -> 0 <= a -> 0 <= b ->
  let x := dividend n i a b in
  partial n (S i) a b = (if b <=? x then x - b else x) /\
  bit n i (udiv (Z.of_nat n) a b) = (b <=? x).
Proof.
  intros Hi Ha Hb. cbn zeta. unfold dividend, partial. rewrite shift_in by lia.
  assert (Hp : 0 <= a / 2 ^ Z.of_nat (n - i)) by (apply Z.div_pos; lia).
  unfold udiv, urem. destruct (Z.eqb_spec b 0) as [-> | Nb].
  - destruct (Z.leb_spec 0 (2 * (a / 2 ^ Z.of_nat (n - i)) + Z.b2z (bit n i a)));
      [| destruct (bit n i a); cbn [Z.b2z] in *; lia].
    split; [lia |]. unfold bit. rewrite Z.sub_1_r, <- Z.ones_equiv, ones_spec by lia.
    split_cmp. reflexivity.
  - assert (Hx := shift_in n i a Hi).
    set (p := a / 2 ^ Z.of_nat (n - i)) in *. set (e := Z.b2z (bit n i a)) in *.
    assert (0 <= e <= 1) by (subst e; destruct (bit n i a); cbn; lia).
    pose proof (Z.mod_pos_bound p b ltac:(lia)). pose proof (Z.div_mod p b ltac:(lia)) as D.
    assert (E : forall v, 2 * p + e = b * (2 * (p / b) + v) + (2 * (p mod b) + e - v * b)) by nia.
    assert (Q : bit n i (a / b) = Z.odd ((2 * p + e) / b)).
    { unfold bit. rewrite Z.testbit_odd, Z.shiftr_div_pow2, Z.div_div by lia.
      rewrite (Z.mul_comm b), <- Z.div_div by lia.
      replace (n - 1 - i)%nat with (n - S i)%nat by lia. rewrite Hx. reflexivity. }
    rewrite Q. destruct (Z.leb_spec b (2 * (p mod b) + e)).
    + split; [symmetry; apply Z.mod_unique with (2 * (p / b) + 1); [lia |]; rewrite (E 1); lia |].
      rewrite <- (Z.div_unique _ b (2 * (p / b) + 1) (2 * (p mod b) + e - 1 * b));
        [| lia | apply (E 1)]. rewrite Z.add_comm, Z.odd_add_mul_2. reflexivity.
    + split; [symmetry; apply Z.mod_unique with (2 * (p / b) + 0); [lia |]; rewrite (E 0); lia |].
      rewrite <- (Z.div_unique _ b (2 * (p / b) + 0) (2 * (p mod b) + e - 0 * b));
        [| lia | apply (E 0)]. rewrite Z.add_comm, Z.odd_add_mul_2. reflexivity.
Qed.

Lemma fa_div_carry_spec m r d c f g h :
  den m r f -> den m d g -> den m c h ->
  spec (fa_div_carry r d c) m (fun x m' =>
    den m' x (fun e => ((g e || h e) && f e) || (g e && h e))).
Proof.
  intros Hr Hd Hc. unfold fa_div_carry.
  step spec_or as x m1 G1 Hx. step spec_and as x2 m2 G2 Hx2. step spec_and as y m3 G3 Hy.
  exact (spec_or _ _ _ _ _ Hx2 Hy).
Qed.

Lemma fa_div_sum_spec m r d c q f g h k :
  den m r f -> den m d g -> den m c h -> den m q k ->
  spec (fa_div_sum r d c q) m (fun x m' =>
    den m' x (fun e => xorb (xorb (g e) (h e) && k e) (f e))).
Proof.
  intros Hr Hd Hc Hq. unfold fa_div_sum.
  step (spec_xor _ _ _ _ _ Hd Hc) as x m1 G1 Hx.
  step (spec_and _ _ _ _ _ Hx Hq) as y m2 G2 Hy.
  exact (spec_xor _ _ _ _ _ Hy Hr).
Qed.

Section DivStep.
Context (n : nat) (X B : (Z -> bool) -> Z).

(** The reversed complement of the divisor. *)
Definition den_d (m : aig) (d : list Z) : Prop :=
  arr m d n all (fun j env => negb (Z.testbit (B env) (Z.of_nat j))).
Definition den_x (m : aig) (rem : list Z) : Prop :=
  arr m rem (S n) (fun j => j < n)%nat (fun j env => Z.testbit (X env) (Z.of_nat j)).
Definition den_carry (j : nat) (m : aig) (carry : list Z) : Prop :=
  arr m carry (S n) (fun c => c <= j)%nat (fun c env => no_borrow c (X env) (B env)).

Lemma div_carries_spec m d rem carry :
  den_d m d -> den_x m rem -> den_carry 0 m carry ->
  spec (div_carries n d rem carry) m (fun carry m' => den_carry n m' carry).
Proof.
  intros Hd Hx Hc. apply (spec_for _ _ _ _ _ (fun j carry m => den_carry j m carry) Hc).
  intros j c m1 Hj G H. unfold den_d, den_x, den_carry in *. advance G.
  eapply spec_bind; [apply fa_div_carry_spec |].
  - apply (arr_get _ _ _ _ _ j Hx); lia.
  - apply (arr_get _ _ _ _ _ j Hd); [lia | exact Logic.I].
  - apply (arr_get _ _ _ _ _ j H); lia.
  - intros x m2 G2 Hy. apply spec_ret.
    eapply arr_insert; [eapply arr_grown; eauto | exact Hy | |]; cbv beta.
    + intros c' Hc' ? ?. split; [lia | reflexivity].
    + intros env. rewrite (proj2 (sub_bit j (X env) (B env))). reflexivity.
Qed.

Lemma div_sums_spec m d carry q rem :
  den_d m d -> den_carry n m carry -> den_x m rem ->
  den m q (fun env => B env <=? X env) ->
  spec (div_sums n d carry q rem) m (fun rem m' =>
    arr m' rem (S n) (fun c => 1 <= c)%nat (fun c env =>
      Z.testbit (if B env <=? X env then X env - B env else X env) (Z.of_nat (c - 1)))).
Proof.
  intros Hd Hc Hx Hq. unfold div_sums.
  eapply spec_bind; [apply (spec_for _ _ _ _ _ (fun j rp m =>
    arr m (fst rp) (S n) (fun c => 1 <= c <= j \/ j < c < n)%nat (fun c env =>
      if Nat.leb c j
      then Z.testbit (if B env <=? X env then X env - B env else X env) (Z.of_nat (c - 1))
      else Z.testbit (X env) (Z.of_nat c)) /\
    ((j < n)%nat -> den m (snd rp) (fun env => Z.testbit (X env) (Z.of_nat j))))) |].
  - split; cbn [fst snd].
    + eapply arr_weak; [exact Hx |]. cbv beta. intros c Hc' [? | ?]; [lia |]. split; [lia |].
      intros env. destruct (Nat.leb_spec c 0); [lia | reflexivity].
    + intros Hn. exact (arr_get _ _ _ _ _ 0 Hx ltac:(lia) Hn).
  - intros j [r p] m1 Hj G [Hr Hp]. unfold den_d, den_x, den_carry in *. advance G.
    cbn [fst snd] in Hr, Hp. specialize (Hp ltac:(lia)).
    eapply spec_bind; [apply (fa_div_sum_spec _ _ _ _ _ _ _ _ _ Hp
      (arr_get _ _ _ _ _ j Hd ltac:(lia) Logic.I) (arr_get _ _ _ _ _ j Hc ltac:(lia) ltac:(cbv beta; lia)) Hq) |].
    intros x m2 G2 Hy. apply spec_ret. split; cbn [fst snd].
    + eapply arr_insert; [eapply arr_grown; eauto | exact Hy | |]; cbv beta.
      * intros c Hc' D N. split; [lia |]. intros env.
        destruct (Nat.leb_spec c j), (Nat.leb_spec c (S j)); try reflexivity; lia.
      * intros env. destruct (Nat.leb_spec (S j) (S j)); [| lia].
        replace (S j - 1)%nat with j by lia. destruct (B env <=? X env).
        { rewrite (proj1 (sub_bit j (X env) (B env))), andb_true_r. reflexivity. }
        { rewrite andb_false_r. apply xorb_false_l. }
    + intros Hn. eapply den_grown; [exact G2 |].
      eapply den_ext; [exact (arr_get _ _ _ _ _ (S j) Hr ltac:(lia) ltac:(cbv beta; lia)) |].
      intros env. cbv beta. destruct (Nat.leb_spec (S j) j); [lia | reflexivity].
  - intros [r p] m1 G [Hr _]. apply spec_ret. cbn [fst] in Hr.
    eapply arr_weak; [exact Hr |]. cbv beta. intros c Hc' ?. split; [lia |]. intros env.
    destruct (Nat.leb_spec c (0 + n)); [reflexivity | lia].
Qed.
End DivStep.

(** Before quotient bit [i]: the bits above are those of the quotient, and
    cells 1..n of [rem] hold the partial remainder. *)
Definition div_state (n i : nat) (A B : (Z -> bool) -> Z) (m : aig)
    (st : list Z * list Z * list Z) : Prop :=
  let '(q, rem, carry) := st in
  arr m q n (fun c => c < i)%nat (fun c env => bit n c (udiv (Z.of_nat n) (A env) (B env))) /\
  arr m rem (S n) (fun c => 1 <= c)%nat (fun c env =>
    Z.testbit (partial n i (A env) (B env)) (Z.of_nat (c - 1))) /\
  length carry = S n.

Lemma div_step_spec m a d n i A B st :
  vec m a n A -> den_d n B m d -> (forall env, fits (Z.of_nat n) (B env)) -> (i < n)%nat ->
  div_state n i A B m st ->
  spec (div_step a d i st) m (fun st m' => div_state n (S i) A B m' st).
Proof.
  intros Ha Hd FB Hi Hst. destruct st as [[q rem] carry]. destruct Hst as (Hq & Hr & Lc).
  apply spec_inv; intros Im. unfold div_step. rewrite (vec_length _ _ _ _ Ha).
  set (X := fun env => dividend n i (A env) (B env)).
  assert (FA : forall env, fits (Z.of_nat n) (A env)) by (intros; eapply vec_fits, Ha).
  assert (Hx : den_x n X m (<[0%nat := get a i]> rem)).
  { eapply arr_insert; [exact Hr | exact (vec_get _ _ _ _ i Ha Hi) | |]; cbv beta.
    - intros c Hc ? N. split; [lia |]. intros env. unfold X. rewrite dividend_bit by lia.
      destruct c as [| c]; [lia |]. do 2 f_equal. lia.
    - intros env. unfold X. rewrite dividend_bit by lia. reflexivity. }
  assert (Hc0 : den_carry n X B 0 m (<[0%nat := TRUE]> carry)).
  { eapply (arr_insert _ _ _ _ _ (fun _ => False) _ (fun _ _ => true));
      [split; [exact Lc | tauto] | apply den_true, Im | lia |].
    intros env. unfold no_borrow. rewrite !Z.mod_1_r. reflexivity. }
  eapply spec_bind; [exact (div_carries_spec n X B _ _ _ _ Hd Hx Hc0) |].
  intros c m1 G1 Hc. unfold den_d, den_x, den_carry in *. advance G1.
  assert (Hqi : den m1 (get c n) (fun env => B env <=? X env)).
  { eapply den_ext; [exact (arr_get _ _ _ _ _ n Hc ltac:(lia) ltac:(cbv beta; lia)) |].
    intros env. cbv beta. unfold no_borrow. rewrite (Z.mod_small (B env)) by apply FB.
    rewrite Z.mod_small by (apply dividend_fits; auto; apply FB). reflexivity. }
  eapply spec_bind; [exact (div_sums_spec n X B _ _ _ _ _ Hd Hc Hx Hqi) |].
  intros r2 m2 G2 Hr2. advance G2. apply spec_ret. split; [| split].
  - eapply arr_insert; [exact Hq | exact Hqi | |]; cbv beta.
    + intros k Hk ? ?. split; [lia | reflexivity].
    + intros env. symmetry. apply partial_step; [lia | apply FA | apply FB].
  - eapply arr_weak; [exact Hr2 |]. cbv beta. intros k Hk ?. split; [lia |]. intros env.
    rewrite (proj1 (partial_step n i (A env) (B env) Hi (proj1 (FA env)) (proj1 (FB env)))).
    reflexivity.
  - exact (proj1 Hc).
Qed.

Lemma udiv_urem_helper_spec m a b n A B :
  vec m a n A -> vec m b n B -> (1 <= n)%nat ->
  spec (udiv_urem_helper a b) m (fun qr m' =>
    vec m' (fst qr) n (fun env => udiv (Z.of_nat n) (A env) (B env)) /\
    vec m' (snd qr) n (fun env => urem (A env) (B env))).
Proof.
  intros Ha Hb Hn. unfold udiv_urem_helper. rewrite (vec_length _ _ _ _ Ha).
  assert (FA : forall env, fits (Z.of_nat n) (A env)) by (intros; eapply vec_fits, Ha).
  assert (FB : forall env, fits (Z.of_nat n) (B env)) by (intros; eapply vec_fits, Hb).
  eapply spec_bind; [apply (spec_fill _ _ _ _
    (fun j env => negb (Z.testbit (B env) (Z.of_nat j)))) |].
  - apply length_replicate.
  - intros i r m1 Hi G _. exists (ret (aig_not (get b (n - 1 - i)))). split; [reflexivity |].
    apply spec_ret, den_not. eapply den_grown; [exact G |]. apply vec_bit; auto.
  - intros d m1 G1 Hd. advance G1. apply spec_inv; intros Im.
    eapply spec_bind; [apply (spec_for _ _ _ _ _ (fun i st m => div_state n i A B m st)) |].
    + split; [| split].
      * split; [apply length_replicate |]. intros; lia.
      * split; [apply length_replicate |]. intros c Hc _. rewrite get_replicate by lia.
        eapply den_ext; [apply den_false, Im |]. intros env. unfold partial, urem.
        rewrite Nat.sub_0_r, Z.div_small by apply FA.
        destruct (Z.eqb_spec (B env) 0); rewrite ?Z.mod_0_l, Z.bits_0 by auto; reflexivity.
      * apply length_replicate.
    + intros i st m2 Hi G2 Hst. advance G2. apply div_step_spec; auto.
      * eapply arr_grown; eauto.
      * lia.
    + intros [[q rem] carry] m2 G2 (Hq & Hr & _). rewrite Nat.add_0_l in Hq, Hr.
      eapply spec_bind; [apply (spec_fill _ _ _ _ (fun i env => bit n i (urem (A env) (B env)))) |].
      * apply length_replicate.
      * intros i r m3 Hi G3 _. exists (ret (get rem (n - i))). split; [reflexivity |].
        apply spec_ret. eapply den_grown; [exact G3 |].
        eapply den_ext; [exact (arr_get _ _ _ _ _ (n - i) Hr ltac:(lia) ltac:(cbv beta; lia)) |].
        intros env. cbv beta. unfold partial, bit. rewrite Nat.sub_diag, Z.div_1_r.
        do 2 f_equal. lia.
      * intros r m3 G3 Hr3. advance G3. apply spec_ret. cbn [fst snd]. split.
        { eapply vec_of_arr; [exact Hq | cbv beta; intros; lia | | reflexivity].
          intros env. specialize (FA env). specialize (FB env). unfold udiv, fits in *.
          destruct (Z.eqb_spec (B env) 0); [lia |].
          split; [apply Z.div_pos; lia | apply Z.div_lt_upper_bound; nia]. }
        { eapply vec_of_arr; [exact Hr3 | intros; exact Logic.I | | reflexivity].
          intros env. pose proof (urem_le (A env) (B env) (proj1 (FA env)) (proj1 (FB env))).
          specialize (FA env). unfold fits in *. lia. }
Qed.

(** ** Fresh vectors *)

Lemma spec_input m :
  spec input_ m (fun x m' => den m' x (fun env => env x) /\ x = nodes_size m + 1 /\
    nodes_size m' = x).
Proof.
  intros I. unfold input_. pose proof (mk_input_spec m I) as S.
  destruct (mk_input m) as [x m']. destruct S as (G & Hx & Hn & E & _).
  split; [exact G |]. split; [split; [| exact E] | auto].
  unfold valid. unfold nodes_size in *. lia.
Qed.

Lemma grown_size m m' : grown m m' -> nodes_size m <= nodes_size m'.
Proof.
  intros (_ & [ws E] & _). unfold nodes_size. rewrite <- !gates_length, E, length_app. lia.
Qed.

(** Cell [i] is a fresh input where [unk i], else the constant [known i]. *)
Definition fresh_cell (unk known : nat -> bool) (i : nat) (r : list Z) : M (list Z) :=
  if unk i then x <- input_;; ret (<[i := x]> r)
  else ret (<[i := if known i then TRUE else FALSE]> r).

(** The words a fresh vector ranges over: all those [agree] admits, each
    under an assignment that differs only on inputs above [N]. *)
Definition ranges (N : Z) (n : nat) (V : (Z -> bool) -> Z) (agree : Z -> Prop) : Prop :=
  (forall env, agree (V env)) /\
  forall v env0, fits (Z.of_nat n) v -> agree v ->
    exists env, V env = v /\ forall id, id <= N -> env id = env0 id.

Section Fresh.
Context (n : nat) (unk known : nat -> bool).

Definition fresh_upto (N : Z) (i : nat) (r : list Z) (m : aig) : Prop :=
  exists ids : nat -> Z,
    (forall c, (c < i)%nat -> unk c = true -> N < ids c <= nodes_size m) /\
    (forall c c', (c < i)%nat -> (c' < i)%nat -> unk c = true -> unk c' = true ->
      ids c = ids c' -> c = c') /\
    arr m r n (fun c => c < i)%nat (fun c env => if unk c then env (ids c) else known c).

Lemma fresh_loop m :
  spec (for_ n 0 (fresh_cell unk known) (bb_alloc n)) m
    (fun r m' => fresh_upto (nodes_size m) n r m').
Proof.
  apply (spec_for n 0 _ _ _ (fun i r m' => fresh_upto (nodes_size m) i r m')).
  - exists (fun _ => 0). split; [lia |]. split; [lia |].
    split; [apply length_replicate | lia].
  - intros i r m1 Hi G (ids & R & Inj & Hr). apply spec_inv; intros Im. unfold fresh_cell.
    destruct (unk i) eqn:U.
    + eapply spec_bind; [apply spec_input |]. intros x m2 G2 (Hx & Ex & En).
      apply spec_ret. exists (fun c => if Nat.eqb c i then x else ids c).
      pose proof (grown_size _ _ G). split; [| split].
      * intros c Hc Uc. destruct (Nat.eqb_spec c i); [lia |].
        specialize (R c ltac:(lia) Uc). lia.
      * intros c c' Hc Hc' Uc Uc'.
        destruct (Nat.eqb_spec c i), (Nat.eqb_spec c' i); subst; auto.
        { intros E. specialize (R c' ltac:(lia) Uc'). lia. }
        { intros E. specialize (R c ltac:(lia) Uc). lia. }
        { apply Inj; auto; lia. }
      * eapply arr_insert; [eapply arr_grown; eauto | exact Hx | |]; cbv beta.
        { intros c Hc ? N. split; [lia |]. intros env.
          destruct (Nat.eqb_spec c i); [lia | reflexivity]. }
        { intros env. rewrite U, Nat.eqb_refl. reflexivity. }
    + apply spec_ret. exists ids. split; [| split].
      * intros c Hc Uc. apply R; [| exact Uc].
        destruct (Nat.eq_dec c i); [congruence | lia].
      * intros c c' Hc Hc' Uc Uc'. apply Inj; auto;
          [destruct (Nat.eq_dec c i) | destruct (Nat.eq_dec c' i)]; congruence || lia.
      * eapply (arr_insert _ _ _ _ _ _ _ _ _ (fun _ => known i)); [exact Hr | | |]; cbv beta.
        { destruct (known i); [apply den_true | apply den_false]; exact Im. }
        { intros c Hc ? N. split; [lia | reflexivity]. }
        { intros env. rewrite U. reflexivity. }
Qed.

Definition agrees (v : Z) : Prop :=
  forall c, (c < n)%nat -> unk c = false -> bit n c v = known c.

Lemma fresh_vec m N r :
  fresh_upto N n r m -> exists V, vec m r n V /\ ranges N n V agrees.
Proof.
  intros (ids & R & Inj & Hr).
  assert (Hall : arr m r n all (fun c env => if unk c then env (ids c) else known c))
    by (eapply arr_weak; [exact Hr |]; auto).
  pose proof (vec_num _ _ _ _ Hall) as Hv. cbv beta in Hv.
  eexists. split; [exact Hv |]. split.
  - intros env c Hc Uc. unfold bit. rewrite num_spec by lia.
    replace (n - 1 - (n - 1 - c))%nat with c by lia. rewrite Uc. reflexivity.
  - intros v env0 Fv Ag.
    exists (fun id => match find (fun c => unk c && (ids c =? id)) (seq 0 n) with
                      | Some c => bit n c v | None => env0 id end).
    split.
    + apply (fits_inj (Z.of_nat n)); [lia | apply num_fits | exact Fv |].
      intros i Hi. rewrite <- (Z2Nat.id i) by lia. rewrite num_spec by lia.
      set (c := (n - 1 - Z.to_nat i)%nat).
      assert (Ec : bit n c v = Z.testbit v (Z.of_nat (Z.to_nat i)))
        by (unfold bit, c; do 2 f_equal; lia).
      destruct (unk c) eqn:U; [| rewrite <- Ec; symmetry; apply Ag; [lia | exact U]].
      destruct (find _ _) as [c' |] eqn:Fd.
      * apply find_some in Fd as [Hin Hc']. apply in_seq in Hin.
        apply andb_true_iff in Hc' as [U' E']. apply Z.eqb_eq in E'.
        rewrite (Inj c' c ltac:(lia) ltac:(lia) U' U E'). exact Ec.
      * exfalso. pose proof (find_none _ _ Fd c ltac:(apply in_seq; lia)) as Fn. cbv beta in Fn.
        rewrite U, Z.eqb_refl in Fn. discriminate.
    + intros id Hid. destruct (find _ _) as [c' |] eqn:Fd; [| reflexivity].
      exfalso. apply find_some in Fd as [Hin Hc']. apply in_seq in Hin.
      apply andb_true_iff in Hc' as [U' E']. apply Z.eqb_eq in E'.
      specialize (R c' ltac:(lia) U'). lia.
Qed.
End Fresh.

Lemma for_ext {A} n first (f g : nat -> A -> M A) s m :
  (forall i x m', (first <= i < first + n)%nat -> f i x m' = g i x m') ->
  for_ n first f s m = for_ n first g s m.
Proof.
  revert first s m. induction n as [| n IH]; intros first s m H; cbn [for_]; [reflexivity |].
  unfold bind. rewrite H by lia. destruct (g first s m) as [x m'].
  apply IH. intros. apply H. lia.
Qed.

(** The value [v] has the known bits of the domain. *)
Definition in_domain (n : nat) (fixed_value unknown_mask v : Z) : Prop :=
  forall k, (k < n)%nat -> Z.of_nat k < 64 -> Z.testbit unknown_mask (Z.of_nat k) = false ->
    Z.testbit v (Z.of_nat k) = Z.testbit fixed_value (Z.of_nat k).

Lemma land_bit v k : 0 <= k < 64 -> negb (Z.land v (u64 (Z.shiftl 1 k)) =? 0) = Z.testbit v k.
Proof.
  intros Hk. rewrite Z.shiftl_1_l, u64_small
    by (unfold fits; pose proof (Z.pow_lt_mono_r 2 k 64); lia).
  destruct (Z.testbit v k) eqn:E.
  - destruct (Z.eqb_spec (Z.land v (2 ^ k)) 0) as [C |]; [| reflexivity].
    apply (f_equal (fun z => Z.testbit z k)) in C.
    rewrite Z.land_spec, pow2_spec, Z.bits_0, E, Z.eqb_refl in C by lia. discriminate.
  - replace (Z.land v (2 ^ k)) with 0; [reflexivity |]. symmetry. apply Z.bits_inj'. intros i Hi.
    rewrite Z.land_spec, pow2_spec, Z.bits_0 by lia.
    destruct (Z.eqb_spec i k) as [-> |]; [rewrite E; reflexivity | apply andb_false_r].
Qed.

Lemma constant_dom_loop n fv um m :
  constant_dom n fv um m =
  for_ n 0 (fresh_cell
    (fun c => (Z.of_nat (n - 1 - c) >=? 64) || Z.testbit um (Z.of_nat (n - 1 - c)))
    (fun c => Z.testbit fv (Z.of_nat (n - 1 - c)))) (bb_alloc n) m.
Proof.
  apply for_ext. intros i r m' Hi. cbv zeta. unfold fresh_cell.
  rewrite Z.geb_leb. destruct (Z.leb_spec 64 (Z.of_nat (n - 1 - i))); cbn [orb].
  - reflexivity.
  - destruct (Z.ltb_spec (Z.of_nat (n - 1 - i)) 64); [| lia].
    rewrite !land_bit by lia. reflexivity.
Qed.

Lemma constant_loop n m :
  constant n m = for_ n 0 (fresh_cell (fun _ => true) (fun _ => false)) (bb_alloc n) m.
Proof. reflexivity. Qed.

(** * Properties *)

(** C33: addition, negation, subtraction and multiplication.  On vectors that
    denote the [n]-bit words [A] and [B] of the inputs, each operation ends in
    a grown manager with a vector that denotes the result modulo [2^n], for
    every assignment, the constant-operand shortcuts of the multiplier
    included. *)
Theorem bb_arith_correct m a b n A B :
  vec m a n A -> vec m b n B -> (1 <= n)%nat ->
  spec (bb_add a b) m (fun r m' => vec m' r n (fun env => (A env + B env) mod 2 ^ Z.of_nat n)) /\
  spec (bb_sub a b) m (fun r m' => vec m' r n (fun env => (A env - B env) mod 2 ^ Z.of_nat n)) /\
  spec (bb_neg a) m (fun r m' => vec m' r n (fun env => (- A env) mod 2 ^ Z.of_nat n)) /\
  spec (bb_mul a b) m (fun r m' => vec m' r n (fun env => (A env * B env) mod 2 ^ Z.of_nat n)).
Proof.
  intros Ha Hb Hn. split; [apply bb_add_spec; auto |]. split; [apply bb_sub_spec; auto |].
  split; [apply bb_neg_spec; auto | apply bb_mul_spec; auto].
Qed.

(** Two 2-bit vectors over the inputs 2 and 3. *)
Lemma den_input i : i = 2 \/ i = 3 -> den two_inputs i (fun env => env i).
Proof.
  intros [-> | ->]; (split; [apply two_inputs_valid; lia | intros env; reflexivity]).
Qed.

Definition wV (x y : Z) (env : Z -> bool) : Z := Z.b2z (env x) * 2 ^ 1 + Z.b2z (env y).

Lemma vec_inputs x y :
  x = 2 \/ x = 3 -> y = 2 \/ y = 3 -> vec two_inputs [x; y] 2 (wV x y).
Proof.
  intros Hx Hy.
  exact (vec_app two_inputs [x] [y] 1 1 _ _ (vec_one _ _ _ (den_input x Hx))
    (vec_one _ _ _ (den_input y Hy))).
Qed.

Lemma bb_arith_correct_witness :
  spec (bb_mul [2; 3] [3; 2]) two_inputs (fun r m' =>
    vec m' r 2 (fun env => (wV 2 3 env * wV 3 2 env) mod 2 ^ Z.of_nat 2)).
Proof.
  pose proof (bb_arith_correct two_inputs [2; 3] [3; 2] 2 (wV 2 3) (wV 3 2)
    (vec_inputs 2 3 ltac:(auto) ltac:(auto)) (vec_inputs 3 2 ltac:(auto) ltac:(auto))
    ltac:(lia)) as H.
  destruct H as (_ & _ & _ & H). exact H.
Defined.

(** C34: unsigned division and remainder.  The restoring divider returns the
    quotient and the remainder of the two words, and on a zero divisor the
    SMT-LIB values: all ones and the dividend. *)
Theorem bb_div_correct m a b n A B :
  vec m a n A -> vec m b n B -> (1 <= n)%nat ->
  spec (bb_udiv a b) m (fun q m' => vec m' q n (fun env =>
    if B env =? 0 then 2 ^ Z.of_nat n - 1 else A env / B env)) /\
  spec (bb_urem a b) m (fun r m' => vec m' r n (fun env =>
    if B env =? 0 then A env else A env mod B env)).
Proof.
  intros Ha Hb Hn. unfold bb_udiv, bb_urem.
  split; (eapply spec_bind; [apply (udiv_urem_helper_spec _ _ _ _ _ _ Ha Hb Hn) |]);
    intros [q r] m1 G1 [Hq Hr]; apply spec_ret; assumption.
Qed.

Lemma bb_div_correct_witness :
  spec (bb_urem [2; 3] [3; 2]) two_inputs (fun r m' => vec m' r 2 (fun env =>
    if wV 3 2 env =? 0 then wV 2 3 env else wV 2 3 env mod wV 3 2 env)).
Proof.
  pose proof (bb_div_correct two_inputs [2; 3] [3; 2] 2 (wV 2 3) (wV 3 2)
    (vec_inputs 2 3 ltac:(auto) ltac:(auto)) (vec_inputs 3 2 ltac:(auto) ltac:(auto))
    ltac:(lia)) as H.
  destruct H as (_ & H). exact H.
Defined.

(** Shifts.  The barrel shifters compute the left, logical right and
    arithmetic right shift by the word [B], for amounts of the width and above
    too (zero, or the sign bit everywhere). *)
Theorem bb_shift_correct m a b n A B :
  vec m a n A -> vec m b n B -> 1 <= Z.of_nat n < 2 ^ 32 ->
  spec (bb_shl a b) m (fun r m' => vec m' r n (fun env =>
    (A env * 2 ^ B env) mod 2 ^ Z.of_nat n)) /\
  spec (bb_shr a b) m (fun r m' => vec m' r n (fun env => A env / 2 ^ B env)) /\
  spec (bb_ashr a b) m (fun r m' => vec m' r n (fun env =>
    (signed (Z.of_nat n) (A env) / 2 ^ B env) mod 2 ^ Z.of_nat n)).
Proof.
  intros Ha Hb Hn.
  split; [exact (do_shl_or_shr_spec _ _ _ _ _ _ true Ha Hb Hn) |].
  split; [exact (do_shl_or_shr_spec _ _ _ _ _ _ false Ha Hb Hn) | apply bb_ashr_spec; auto].
Qed.

Lemma bb_shift_correct_witness :
  spec (bb_shr [2; 3] [3; 2]) two_inputs (fun r m' =>
    vec m' r 2 (fun env => wV 2 3 env / 2 ^ wV 3 2 env)).
Proof.
  pose proof (bb_shift_correct two_inputs [2; 3] [3; 2] 2 (wV 2 3) (wV 3 2)
    (vec_inputs 2 3 ltac:(auto) ltac:(auto)) (vec_inputs 3 2 ltac:(auto) ltac:(auto))
    ltac:(lia)) as H.
  destruct H as (_ & H & _). exact H.
Defined.

(** Predicates.  Equality, unsigned and signed less-than return the
    one-bit word of the comparison. *)
Theorem bb_pred_correct m a b n A B :
  vec m a n A -> vec m b n B -> (1 <= n)%nat ->
  spec (bb_eq a b) m (fun r m' => vec m' r 1 (fun env => Z.b2z (A env =? B env))) /\
  spec (bb_ult a b) m (fun r m' => vec m' r 1 (fun env => Z.b2z (A env <? B env))) /\
  spec (bb_slt a b) m (fun r m' => vec m' r 1 (fun env =>
    Z.b2z (signed (Z.of_nat n) (A env) <? signed (Z.of_nat n) (B env)))).
Proof.
  intros Ha Hb Hn. split; [eapply bb_eq_spec; eauto |].
  split; [eapply bb_ult_spec; eauto | eapply bb_slt_spec; eauto].
Qed.

Lemma bb_pred_correct_witness :
  spec (bb_slt [2; 3] [3; 2]) two_inputs (fun r m' => vec m' r 1 (fun env =>
    Z.b2z (signed (Z.of_nat 2) (wV 2 3 env) <? signed (Z.of_nat 2) (wV 3 2 env)))).
Proof.
  pose proof (bb_pred_correct two_inputs [2; 3] [3; 2] 2 (wV 2 3) (wV 3 2)
    (vec_inputs 2 3 ltac:(auto) ltac:(auto)) (vec_inputs 3 2 ltac:(auto) ltac:(auto))
    ltac:(lia)) as H.
  destruct H as (_ & _ & H). exact H.
Defined.

(** Bitwise and structural operations: not, and, or, xor, ite, extract,
    concat, zero and sign extension. *)
Theorem bb_bits_correct m a b n A B c f up lo k :
  vec m a n A -> vec m b n B -> den m c f -> (lo <= up < n)%nat ->
  spec (bb_not a) m (fun r m' => vec m' r n (fun env => 2 ^ Z.of_nat n - 1 - A env)) /\
  spec (bb_and a b) m (fun r m' => vec m' r n (fun env => Z.land (A env) (B env))) /\
  spec (bb_or a b) m (fun r m' => vec m' r n (fun env => Z.lor (A env) (B env))) /\
  spec (bb_xor a b) m (fun r m' => vec m' r n (fun env => Z.lxor (A env) (B env))) /\
  spec (bb_ite c a b) m (fun r m' => vec m' r n (fun env => if f env then A env else B env)) /\
  spec (extract a up lo) m (fun r m' => vec m' r (up - lo + 1) (fun env =>
    (A env / 2 ^ Z.of_nat lo) mod 2 ^ Z.of_nat (up - lo + 1))) /\
  spec (bb_concat a b) m (fun r m' => vec m' r (n + n) (fun env =>
    A env * 2 ^ Z.of_nat n + B env)) /\
  spec (bb_zero_ext a k) m (fun r m' => vec m' r (k + n) A) /\
  spec (bb_sign_ext a k) m (fun r m' => vec m' r (k + n) (fun env =>
    signed (Z.of_nat n) (A env) mod 2 ^ Z.of_nat (k + n))).
Proof.
  intros Ha Hb Hc Hul.
  split; [apply bb_not_spec; auto |]. split; [apply bb_and_spec; auto |].
  split; [apply bb_or_spec; auto |]. split; [apply bb_xor_spec; auto |].
  split; [apply bb_ite_spec; auto |]. split; [eapply extract_spec; eauto |].
  split; [apply spec_ret; eapply vec_app; eauto |]. split; [eapply bb_zero_ext_spec; eauto |].
  eapply bb_sign_ext_spec; [eauto | lia].
Qed.

Lemma bb_bits_correct_witness :
  spec (bb_sign_ext [2; 3] 5) two_inputs (fun r m' => vec m' r 7 (fun env =>
    signed (Z.of_nat 2) (wV 2 3 env) mod 2 ^ Z.of_nat 7)).
Proof.
  pose proof (bb_bits_correct two_inputs [2; 3] [3; 2] 2 (wV 2 3) (wV 3 2) 2 _ 1 0 5
    (vec_inputs 2 3 ltac:(auto) ltac:(auto)) (vec_inputs 3 2 ltac:(auto) ltac:(auto))
    (den_input 2 ltac:(auto)) ltac:(lia)) as H.
  destruct H as (_ & _ & _ & _ & _ & _ & _ & _ & H). exact H.
Defined.

(** Symbolic constants.  A vector made by [constant] ranges over every
    [n]-bit word, one made by [constant_dom] over exactly the words that have
    the known bits of the domain, and each word is reached without changing
    an input that existed before; [value_u64] denotes its value. *)
Theorem constants_correct m n fixed_value unknown_mask v :
  fits 64 v ->
  spec (constant n) m (fun r m' => exists V,
    vec m' r n V /\ ranges (nodes_size m) n V (fun _ => True)) /\
  spec (constant_dom n fixed_value unknown_mask) m (fun r m' => exists V,
    vec m' r n V /\ ranges (nodes_size m) n V (in_domain n fixed_value unknown_mask)) /\
  spec (value_u64 n v) m (fun r m' => vec m' r n (fun _ => v mod 2 ^ Z.of_nat n)).
Proof.
  intros Hv. split; [| split; [| apply value_u64_spec, Hv]].
  - intros Im. rewrite constant_loop.
    pose proof (fresh_loop n (fun _ => true) (fun _ => false) m Im) as F.
    destruct (for_ _ _ _ _ m) as [r m']. destruct F as [G F]. split; [exact G |].
    destruct (fresh_vec _ _ _ _ _ _ F) as (V & HV & _ & R). exists V. split; [exact HV |].
    split; [auto |]. intros w env0 Hw _. apply R; [exact Hw |]. intros c Hc U. discriminate.
  - intros Im. rewrite constant_dom_loop.
    pose proof (fresh_loop n
      (fun c => (Z.of_nat (n - 1 - c) >=? 64) || Z.testbit unknown_mask (Z.of_nat (n - 1 - c)))
      (fun c => Z.testbit fixed_value (Z.of_nat (n - 1 - c))) m Im) as F.
    destruct (for_ _ _ _ _ m) as [r m']. destruct F as [G F]. split; [exact G |].
    destruct (fresh_vec _ _ _ _ _ _ F) as (V & HV & Ag & R). exists V. split; [exact HV |]. split.
    + intros env k Hk K64 Um. specialize (Ag env (n - 1 - k)%nat ltac:(lia)). cbv beta in Ag.
      unfold bit in Ag. replace (n - 1 - (n - 1 - k))%nat with k in Ag by lia.
      apply Ag. rewrite Um. rewrite Z.geb_leb. split_cmp. reflexivity.
    + intros w env0 Hw D. apply R; [exact Hw |]. intros c Hc U.
      apply orb_false_iff in U as [U1 U2]. rewrite Z.geb_leb in U1. apply Z.leb_gt in U1.
      apply D; [lia | exact U1 | exact U2].
Qed.

Lemma constants_correct_witness :
  spec (constant_dom 4 5 2) two_inputs (fun r m' => exists V,
    vec m' r 4 V /\ ranges (nodes_size two_inputs) 4 V (in_domain 4 5 2)).
Proof.
  assert (F : fits 64 9) by (unfold fits; lia).
  pose proof (constants_correct two_inputs 4 5 2 9 F) as H.
  destruct H as (_ & H & _). exact H.
Defined.

End BB.
