(* ===== verification/AigCnf.v ===== *)
(** * AigCnf: from the graph to clauses (src/src/c/dvs_aig_cnf.c)

    The Tseitin encoder: the per-node "encoded" bitmap, the explicit-stack
    traversal that emits a node's clauses once its children are encoded, the
    recognition of if-then-else gates, and the flattening of a top-level
    conjunction into unit clauses.  Node id [n] is SAT variable [n]; the SAT
    layer is the list of clauses it has been given.  The stack is a list with
    its top first; the growth of the stack and work buffers is not modelled,
    that of the bitmaps is (their length decides [is_node_encoded]). *)

From Stdlib Require Import ZArith Lia Bool Btauto.
From stdpp Require Import base list numbers.
From S2P Require Import Prelude Aig.
Open Scope Z_scope.

Module Cnf.
Import Aig.

(** [struct dvs_aig_cnf_s], with the clauses handed to [e->sat]. *)
Record enc := mk_enc {
  encoded : list Z;
  stack : list Z;
  visited : list Z;
  touched : list Z;
  leaves : list Z;
  num_vars : Z;
  num_clauses : Z;
  num_literals : Z;
  clauses : list (list Z) }.

Definition set_encoded (bm : list Z) (e : enc) : enc :=
  mk_enc bm (stack e) (visited e) (touched e) (leaves e) (num_vars e) (num_clauses e)
    (num_literals e) (clauses e).
Definition set_stack (s : list Z) (e : enc) : enc :=
  mk_enc (encoded e) s (visited e) (touched e) (leaves e) (num_vars e) (num_clauses e)
    (num_literals e) (clauses e).
Definition set_visit (bm t : list Z) (e : enc) : enc :=
  mk_enc (encoded e) (stack e) bm t (leaves e) (num_vars e) (num_clauses e)
    (num_literals e) (clauses e).
Definition set_leaves (l : list Z) (e : enc) : enc :=
  mk_enc (encoded e) (stack e) (visited e) (touched e) l (num_vars e) (num_clauses e)
    (num_literals e) (clauses e).

(** Clauses handed to the SAT layer, with the counters the caller bumps. *)
Definition add_clauses (cs : list (list Z)) (e : enc) : enc :=
  mk_enc (encoded e) (stack e) (visited e) (touched e) (leaves e) (num_vars e)
    (num_clauses e + Z.of_nat (length cs))
    (num_literals e + Z.of_nat (length (concat cs))) (clauses e ++ cs).

Definition cnf_new : enc := mk_enc [] [] [] [] [] 0 0 0 [].

(** ** Bitmaps *)

Definition ensure_bitmap (buf : list Z) (need_bits : Z) : list Z :=
  let need := (need_bits + 7) / 8 in
  let cap := Z.of_nat (length buf) in
  if need <=? cap then buf else
  let nc := grow_cap (Z.to_nat need) (if cap =? 0 then 64 else cap) need in
  buf ++ replicate (Z.to_nat (nc - cap)) 0.

Definition byte_of (bit : Z) : nat := Z.to_nat (Z.shiftr bit 3).

Definition bm_get (bm : list Z) (bit : Z) : bool :=
  negb (Z.land (Z.shiftr (nth (byte_of bit) bm 0) (Z.land bit 7)) 1 =? 0).
Definition bm_set (bm : list Z) (bit : Z) : list Z :=
  <[byte_of bit := Z.lor (nth (byte_of bit) bm 0) (u8 (Z.shiftl 1 (Z.land bit 7)))]> bm.
Definition bm_clear (bm : list Z) (bit : Z) : list Z :=
  <[byte_of bit := Z.land (nth (byte_of bit) bm 0) (u8 (Z.lnot (Z.shiftl 1 (Z.land bit 7))))]> bm.

Definition is_node_encoded (e : enc) (n : Z) : bool :=
  let i := Z.abs n in
  if i =? 0 then true else
  if Z.shiftr (i - 1) 3 >=? Z.of_nat (length (encoded e)) then false
  else bm_get (encoded e) (i - 1).

Definition mark_encoded (n : Z) (e : enc) : enc :=
  mk_enc (bm_set (encoded e) (Z.abs n - 1)) (stack e) (visited e) (touched e) (leaves e)
    (num_vars e + 1) (num_clauses e) (num_literals e) (clauses e).

(** ** If-then-else recognition: (c, not a, not b) *)

Definition detect_ite (m : aig) (cur : Z) : option (Z * Z * Z) :=
  if (cur <? 0) || negb (is_and_id m cur) then None else
  let '(l, r) := children_of m cur in
  if (l >=? 0) || (r >=? 0) then None else
  if negb (is_and_id m l) || negb (is_and_id m r) then None else
  if (aig_parents m l >? 1) || (aig_parents m r >? 1) then None else
  let '(ll, lr) := children_of m l in
  let '(rl, rr) := children_of m r in
  if - lr =? rl then Some (rl, rr, ll) else
  if - ll =? rl then Some (rl, rr, lr) else
  if - lr =? rr then Some (rr, rl, ll) else
  if - ll =? rr then Some (rr, rl, lr) else None.

(** ** Clause emission *)

Definition and_clauses (x a b : Z) : list (list Z) := [[- x; a]; [- x; b]; [x; - a; - b]].
Definition ite_clauses (x c a b : Z) : list (list Z) :=
  [[- x; - c; a]; [- x; c; b]; [x; - c; - a]; [x; c; - b]].

Definition emit_and_clauses (x a b : Z) (e : enc) : enc := add_clauses (and_clauses x a b) e.
Definition emit_ite_clauses (x c a b : Z) (e : enc) : enc := add_clauses (ite_clauses x c a b) e.

(** ** The subtree encoder *)

(** [ensure_bitmap] for each child, then the pushes. *)
Definition push_children (kids : list Z) (e : enc) : enc :=
  let e := fold_left (fun e k => set_encoded (ensure_bitmap (encoded e) (Z.abs k)) e) kids e in
  fold_left (fun e k => set_stack (k :: stack e) e) kids e.

(** One iteration of the loop of [encode_subtree]. *)
Definition encode_step (m : aig) (e : enc) : enc :=
  match stack e with
  | [] => e
  | cur :: rest =>
  let e := set_encoded (ensure_bitmap (encoded e) (Z.abs cur)) e in
  if is_node_encoded e cur then set_stack rest e else
  if (cur =? TRUE) || (cur =? FALSE) then
    add_clauses [[TRUE]] (mark_encoded cur (set_stack rest e)) else
  if is_input m cur then mark_encoded cur (set_stack rest e) else
  let '(l, r) := children_of m cur in
  let x := Z.abs cur in
  match detect_ite m cur with
  | Some (c_id, not_a, not_b) =>
      if is_node_encoded e c_id && is_node_encoded e not_a && is_node_encoded e not_b
      then emit_ite_clauses x c_id (- not_a) (- not_b) (mark_encoded x (set_stack rest e))
      else push_children [c_id; not_a; not_b] e
  | None =>
      if is_node_encoded e l && is_node_encoded e r
      then emit_and_clauses x l r (mark_encoded x (set_stack rest e))
      else push_children [l; r] e
  end
  end.

(** [while (e->stack_size > saved)]; [None]: out of fuel. *)
Fixpoint encode_loop (fuel : nat) (m : aig) (saved : nat) (e : enc) : option enc :=
  if Nat.leb (length (stack e)) saved then Some e else
  match fuel with
  | O => None
  | S f => encode_loop f m saved (encode_step m e)
  end.

(** Enough steps for any root: see [encode_subtree_total]. *)
Definition subtree_fuel (m : aig) : nat := (1 + 6 * length (nodes m))%nat.

Definition encode_subtree (m : aig) (root : Z) (e : enc) : option enc :=
  let saved := length (stack e) in
  encode_loop (subtree_fuel m) m saved (set_stack (root :: stack e) e).

(** ** Top level *)

Definition visit_bit (cur : Z) : Z := 2 * (Z.abs cur - 1) + (if cur <? 0 then 1 else 0).

(** One iteration of the flattening loop. *)
Definition flatten_step (m : aig) (e : enc) : enc :=
  match stack e with
  | [] => e
  | cur :: rest =>
  let bit_idx := visit_bit cur in
  let bm := ensure_bitmap (visited e) (bit_idx + 1) in
  let e := set_stack rest (set_visit bm (touched e) e) in
  if bm_get (visited e) bit_idx then e else
  let e := set_visit (bm_set (visited e) bit_idx) (touched e ++ [bit_idx]) e in
  if (0 <? cur) && is_and_id m cur then
    let '(l, r) := children_of m cur in set_stack (r :: l :: rest) e
  else set_leaves (leaves e ++ [cur]) e
  end.

Fixpoint flatten_loop (fuel : nat) (m : aig) (leaf_start : nat) (e : enc) : option enc :=
  if Nat.leb (length (stack e)) leaf_start then Some e else
  match fuel with
  | O => None
  | S f => flatten_loop f m leaf_start (flatten_step m e)
  end.

Definition flatten_fuel (m : aig) : nat := (1 + 4 * length (nodes m))%nat.

Definition clear_touched (e : enc) : enc :=
  set_visit (fold_left bm_clear (touched e) (visited e)) [] e.

(** Phase 2: encode each leaf and assert it. *)
Fixpoint assert_leaves (m : aig) (ls : list Z) (e : enc) : option enc :=
  match ls with
  | [] => Some e
  | leaf :: ls =>
      e ← encode_subtree m leaf e;
      assert_leaves m ls (add_clauses [[leaf]] e)
  end.

Definition cnf_encode (m : aig) (root : Z) (top_level : bool) (e : enc) : option enc :=
  if root =? 0 then Some e else
  if negb top_level then encode_subtree m root e else
  let leaf_start := length (stack e) in
  let e := set_leaves [] (set_stack (root :: stack e) e) in
  e ← flatten_loop (flatten_fuel m) m leaf_start e;
  let e := clear_touched e in
  assert_leaves m (leaves e) e.

(** Reading a node back; [sat_value] is the SAT layer's [dvs_sat_value]. *)
Definition cnf_value (sat_value : Z -> Z) (e : enc) (node : Z) : Z :=
  if node =? TRUE then 1 else
  if node =? FALSE then -1 else
  let i := Z.abs node in
  if negb (is_node_encoded e node) then 0 else
  let v := sat_value i in
  let val := if v >? 0 then 1 else -1 in
  if node <? 0 then - val else val.

Definition cnf_is_free (e : enc) (node : Z) : bool :=
  if (node =? TRUE) || (node =? FALSE) then false else negb (is_node_encoded e node).

(** The multiplexer of the inputs 2, 3 and -3 is the literal -6; reached
    positively, node 6 is recognised as an if-then-else. *)
Example mux_clauses :
  let '(r, m) := mk_ite two_inputs 2 3 (-3) in
  (r, option_map (fun e => (clauses e, num_vars e, num_clauses e, num_literals e))
        (cnf_encode m (- r) false cnf_new))
  = (-6, Some ([[-6; 2; 3]; [-6; -2; -3]; [6; 2; -3]; [6; -2; 3]], 3, 4, 12)).
Proof. vm_compute. reflexivity. Qed.

(** Reached negatively it is encoded as three ANDs. *)
Example mux_negated :
  let '(r, m) := mk_ite two_inputs 2 3 (-3) in
  option_map (fun e => (clauses e, num_vars e))
    (cnf_encode m r true cnf_new)
  = Some ([[-5; -2]; [-5; -3]; [5; 2; 3]; [-4; 2]; [-4; 3]; [4; -2; -3];
           [-6; -4]; [-6; -5]; [6; 4; 5]; [-6]], 5).
Proof. vm_compute. reflexivity. Qed.

(** ** Bitmaps *)

Lemma bm_get_testbit bm b :
  0 <= b -> bm_get bm b = Z.testbit (nth (byte_of b) bm 0) (b mod 8).
Proof.
  intros Hb. unfold bm_get. rewrite (Z.land_ones _ 1), (Z.land_ones _ 3) by lia.
  change (2 ^ 3) with 8. change (2 ^ 1) with 2. rewrite <- Z.bit0_mod.
  rewrite Z.shiftr_spec, Z.add_0_l by lia. destruct (Z.testbit _ _); reflexivity.
Qed.

Lemma bit_split b b' :
  0 <= b -> 0 <= b' -> byte_of b = byte_of b' -> b mod 8 = b' mod 8 -> b = b'.
Proof.
  unfold byte_of. rewrite !Z.shiftr_div_pow2 by lia. change (2 ^ 3) with 8.
  intros. pose proof (Z.div_mod b 8). pose proof (Z.div_mod b' 8).
  pose proof (Z.div_pos b 8). pose proof (Z.div_pos b' 8). lia.
Qed.

Lemma nth_insert_byte (bm : list Z) i j x :
  nth j (<[i := x]> bm) 0 = if Nat.eqb i j && Nat.ltb i (length bm) then x else nth j bm 0.
Proof.
  rewrite !nth_lookup. destruct (Nat.eqb_spec i j) as [-> | N]; cbn [andb].
  - destruct (Nat.ltb_spec j (length bm)).
    + rewrite list_lookup_insert_eq by lia. reflexivity.
    + rewrite list_insert_ge by lia. reflexivity.
  - rewrite list_lookup_insert_ne by auto. reflexivity.
Qed.

Lemma low_bit_spec k i : 0 <= k < 8 -> 0 <= i < 8 -> Z.testbit (u8 (Z.shiftl 1 k)) i = (k =? i).
Proof.
  intros Hk Hi. unfold u8. rewrite Z.shiftl_1_l, Z.testbit_mod_pow2, pow2_spec, Z.eqb_sym by lia.
  destruct (Z.ltb_spec i 8); [reflexivity | lia].
Qed.

Lemma not_low_bit_spec k i :
  0 <= k < 8 -> 0 <= i < 8 -> Z.testbit (u8 (Z.lnot (Z.shiftl 1 k))) i = negb (k =? i).
Proof.
  intros Hk Hi. unfold u8.
  rewrite Z.shiftl_1_l, Z.testbit_mod_pow2, Z.lnot_spec, pow2_spec, Z.eqb_sym by lia.
  destruct (Z.ltb_spec i 8); [reflexivity | lia].
Qed.

Section BitOps.
Context (bm : list Z) (b b' : Z) (Hb : 0 <= b) (Hb' : 0 <= b') (Hin : (byte_of b < length bm)%nat).

Lemma bm_get_set : bm_get (bm_set bm b) b' = (b =? b') || bm_get bm b'.
Proof.
  pose proof (Z.mod_pos_bound b 8 ltac:(lia)). pose proof (Z.mod_pos_bound b' 8 ltac:(lia)).
  rewrite !bm_get_testbit by lia. unfold bm_set. rewrite nth_insert_byte.
  rewrite (Z.land_ones _ 3) by lia. change (2 ^ 3) with 8.
  destruct (Nat.eqb_spec (byte_of b) (byte_of b')) as [E | N]; cbn [andb].
  - destruct (Nat.ltb_spec (byte_of b) (length bm)); [| lia].
    rewrite Z.lor_spec, low_bit_spec by lia. rewrite E.
    destruct (Z.eqb_spec b b') as [-> | Nb].
    + rewrite Z.eqb_refl. btauto.
    + destruct (Z.eqb_spec (b mod 8) (b' mod 8)) as [M |]; [| btauto].
      destruct Nb. apply bit_split; auto.
  - destruct (Z.eqb_spec b b') as [-> | ?]; [congruence | reflexivity].
Qed.

Lemma bm_get_clear : bm_get (bm_clear bm b) b' = negb (b =? b') && bm_get bm b'.
Proof.
  pose proof (Z.mod_pos_bound b 8 ltac:(lia)). pose proof (Z.mod_pos_bound b' 8 ltac:(lia)).
  rewrite !bm_get_testbit by lia. unfold bm_clear. rewrite nth_insert_byte.
  rewrite (Z.land_ones _ 3) by lia. change (2 ^ 3) with 8.
  destruct (Nat.eqb_spec (byte_of b) (byte_of b')) as [E | N]; cbn [andb].
  - destruct (Nat.ltb_spec (byte_of b) (length bm)); [| lia].
    rewrite Z.land_spec, not_low_bit_spec by lia. rewrite E.
    destruct (Z.eqb_spec b b') as [-> | Nb].
    + rewrite Z.eqb_refl. btauto.
    + destruct (Z.eqb_spec (b mod 8) (b' mod 8)) as [M |]; [| cbn; btauto].
      destruct Nb. apply bit_split; auto.
  - destruct (Z.eqb_spec b b') as [-> | ?]; [congruence | reflexivity].
Qed.
End BitOps.

Lemma bm_set_length bm b : length (bm_set bm b) = length bm.
Proof. apply length_insert. Qed.

Lemma bm_clear_length bm b : length (bm_clear bm b) = length bm.
Proof. apply length_insert. Qed.

(** [ensure_bitmap] only appends zero bytes, enough of them. *)
Lemma ensure_bitmap_spec bm need :
  (exists k, ensure_bitmap bm need = bm ++ replicate k 0) /\
  (need + 7) / 8 <= Z.of_nat (length (ensure_bitmap bm need)).
Proof.
  unfold ensure_bitmap. destruct (Z.leb_spec ((need + 7) / 8) (Z.of_nat (length bm))).
  - split; [exists 0%nat; rewrite app_nil_r; reflexivity | lia].
  - split; [eexists; reflexivity |]. rewrite length_app, length_replicate.
    set (cap := Z.of_nat (length bm)) in *. set (want := (need + 7) / 8) in *.
    pose proof (grow_cap_spec (Z.to_nat want) (if cap =? 0 then 64 else cap) want) as G.
    destruct (Z.eqb_spec cap 0); lia.
Qed.

Lemma ensure_get bm need b : bm_get (ensure_bitmap bm need) b = bm_get bm b.
Proof.
  destruct (ensure_bitmap_spec bm need) as [[k ->] _]. unfold bm_get.
  destruct (Nat.lt_ge_cases (byte_of b) (length bm)).
  - rewrite app_nth1 by lia. reflexivity.
  - rewrite app_nth2, (nth_overflow bm) by lia.
    replace (nth (byte_of b - length bm) (replicate k 0) 0) with 0; [reflexivity |].
    rewrite nth_lookup. destruct (Nat.lt_ge_cases (byte_of b - length bm) k).
    + rewrite lookup_replicate_2 by lia. reflexivity.
    + rewrite lookup_ge_None_2 by (rewrite length_replicate; lia). reflexivity.
Qed.

Lemma ensure_byte bm need b :
  0 <= b < need -> (byte_of b < length (ensure_bitmap bm need))%nat.
Proof.
  intros Hb. destruct (ensure_bitmap_spec bm need) as [_ L]. unfold byte_of.
  rewrite Z.shiftr_div_pow2 by lia. change (2 ^ 3) with 8.
  assert (b / 8 < (need + 7) / 8); [| pose proof (Z.div_pos b 8); lia].
  apply Z.div_lt_upper_bound; [lia |]. pose proof (Z.div_mod (need + 7) 8).
  pose proof (Z.mod_pos_bound (need + 7) 8). lia.
Qed.

Lemma ensure_byte_mono bm need b :
  (byte_of b < length bm)%nat -> (byte_of b < length (ensure_bitmap bm need))%nat.
Proof.
  intros. destruct (ensure_bitmap_spec bm need) as [[k ->] _]. rewrite length_app. lia.
Qed.

Lemma bm_get_range bm b : bm_get bm b = true -> (byte_of b < length bm)%nat.
Proof.
  intros H. destruct (Nat.lt_ge_cases (byte_of b) (length bm)) as [L | L]; [exact L |].
  unfold bm_get in H. rewrite (nth_overflow bm) in H by lia. rewrite Z.shiftr_0_l in H. discriminate.
Qed.

(** The range test of [is_node_encoded] is redundant with the zero bytes. *)
Lemma is_node_encoded_eq e n :
  n <> 0 -> is_node_encoded e n = bm_get (encoded e) (Z.abs n - 1).
Proof.
  intros Hn. unfold is_node_encoded. destruct (Z.eqb_spec (Z.abs n) 0); [lia |].
  rewrite Z.geb_leb. destruct (Z.leb_spec (Z.of_nat (length (encoded e))) (Z.shiftr (Z.abs n - 1) 3));
    [| reflexivity].
  symmetry. apply not_true_iff_false. intros B. apply bm_get_range in B. unfold byte_of in B.
  pose proof (Z.shiftr_nonneg (Z.abs n - 1) 3). lia.
Qed.

(** ** Clauses and gates *)

(** The value of a literal, and the clause sets an assignment satisfies. *)
Definition holds (s : Z -> bool) (l : Z) : bool := if l <? 0 then negb (s (- l)) else s l.
Definition sat_clause (s : Z -> bool) (c : list Z) : Prop := existsb (holds s) c = true.
Definition models (s : Z -> bool) (cs : list (list Z)) : Prop := Forall (sat_clause s) cs.

Lemma holds_opp s l : l <> 0 -> holds s (- l) = negb (holds s l).
Proof.
  intros. unfold holds. destruct (Z.ltb_spec (- l) 0), (Z.ltb_spec l 0); try lia;
    rewrite ?Z.opp_involutive, ?negb_involutive; reflexivity.
Qed.

Lemma holds_eval m env l : l <> 0 -> holds (eval m env) l = eval m env l.
Proof.
  intros. unfold holds. destruct (Z.ltb_spec l 0); [| reflexivity].
  rewrite eval_opp by lia. apply negb_involutive.
Qed.

Lemma holds_pos s l : 0 < l -> holds s l = s l.
Proof. intros. unfold holds. destruct (Z.ltb_spec l 0); [lia | reflexivity]. Qed.

(** The literal agrees with the graph when its variable does. *)
Lemma holds_agree m s l :
  l <> 0 -> s (Z.abs l) = eval m s (Z.abs l) -> holds s l = eval m s l.
Proof.
  intros Hl H. unfold holds. destruct (Z.ltb_spec l 0).
  - rewrite Z.abs_neq in H by lia. rewrite H, eval_opp by lia. apply negb_involutive.
  - rewrite Z.abs_eq in H by lia. exact H.
Qed.

Lemma and_clauses_models s x a b :
  0 < x -> a <> 0 -> b <> 0 ->
  models s (and_clauses x a b) <-> s x = holds s a && holds s b.
Proof.
  intros Hx Ha Hb. unfold models, and_clauses. rewrite !Forall_cons_iff, Forall_nil_iff.
  unfold sat_clause. cbn [existsb]. rewrite !holds_opp, (holds_pos s x) by lia.
  destruct (s x), (holds s a), (holds s b); cbn; intuition congruence.
Qed.

Lemma ite_clauses_models s x c a b :
  0 < x -> c <> 0 -> a <> 0 -> b <> 0 ->
  models s (ite_clauses x c a b) <-> s x = if holds s c then holds s a else holds s b.
Proof.
  intros Hx Hc Ha Hb. unfold models, ite_clauses. rewrite !Forall_cons_iff, Forall_nil_iff.
  unfold sat_clause. cbn [existsb]. rewrite !holds_opp, (holds_pos s x) by lia.
  destruct (s x), (holds s c), (holds s a), (holds s b); cbn; intuition congruence.
Qed.

Lemma is_input_eval m x env :
  inv m -> 0 < x -> is_input m x = true -> x <= nodes_size m /\ eval m env x = env x.
Proof.
  intros I Hx H. unfold is_input in H.
  destruct (Z.eqb_spec x 0); [discriminate |]. destruct (Z.eqb_spec x TRUE); [discriminate |].
  destruct (Z.eqb_spec x FALSE); [discriminate |]. cbn [orb] in H. rewrite Z.abs_eq in H by lia.
  destruct (Z.gtb_spec x (nodes_size m)); [discriminate |]. split; [lia |].
  apply Z.eqb_eq in H. unfold TRUE in *.
  pose proof (gates_node_at m x ltac:(lia)) as G.
  unfold eval, lit. destruct (Z.ltb_spec x 0); [lia |]. rewrite Z.abs_eq by lia.
  rewrite (values_lookup _ _ _ _ G). unfold node_val, gate. cbn [fst]. rewrite H, Z.eqb_refl.
  rewrite values_length, length_take. apply lookup_lt_Some in G. rewrite Nat.min_l by lia.
  destruct (Nat.eqb_spec (Z.to_nat (x - 1)) 0); [lia |]. f_equal. lia.
Qed.

(** A valid literal that is neither constant nor input is an AND. *)
Lemma not_input_and m x :
  valid m x -> x <> TRUE -> x <> FALSE -> is_input m x = false -> is_and_id m x = true.
Proof.
  unfold valid, is_input, is_and_id, TRUE, FALSE. intros V Nt Nf.
  destruct (Z.eqb_spec x 0); [lia |]. destruct (Z.eqb_spec x 1); [lia |].
  destruct (Z.eqb_spec x (-1)); [lia |]. cbn [orb].
  destruct (Z.gtb_spec (Z.abs x) (nodes_size m)); [lia |]. intros ->. reflexivity.
Qed.

(** A recognised gate is the if-then-else of its parts, all below it. *)
Lemma detect_ite_spec m cur c na nb :
  inv m -> detect_ite m cur = Some (c, na, nb) ->
  (2 <= Z.abs c < cur) /\ (2 <= Z.abs na < cur) /\ (2 <= Z.abs nb < cur) /\
  forall env, eval m env cur = if eval m env c then negb (eval m env na) else negb (eval m env nb).
Proof.
  intros I. unfold detect_ite.
  destruct (Z.ltb_spec cur 0); [discriminate |]. cbn [orb].
  destruct (is_and_id m cur) eqn:Ac; [| discriminate]. cbn [negb].
  destruct (children_of m cur) as [l r] eqn:Cc.
  destruct (children_spec m cur l r I Ac Cc) as (_ & Hl & Hr & E).
  rewrite !Z.geb_leb. destruct (Z.leb_spec 0 l); [discriminate |].
  destruct (Z.leb_spec 0 r); [discriminate |]. cbn [orb].
  destruct (is_and_id m l) eqn:Al; [| discriminate].
  destruct (is_and_id m r) eqn:Ar; [| discriminate]. cbn [negb orb].
  destruct ((aig_parents m l >? 1) || (aig_parents m r >? 1)); [discriminate |].
  destruct (children_of m l) as [ll lr] eqn:Cl. destruct (children_of m r) as [rl rr] eqn:Cr.
  destruct (children_spec m l ll lr I Al Cl) as (_ & Hll & Hlr & El).
  destruct (children_spec m r rl rr I Ar Cr) as (_ & Hrl & Hrr & Er).
  assert (Ecur : forall env, eval m env cur =
    negb (eval m env ll && eval m env lr) && negb (eval m env rl && eval m env rr)).
  { intros env. rewrite E, El, Er. destruct (Z.ltb_spec cur 0), (Z.ltb_spec l 0), (Z.ltb_spec r 0);
      try lia. rewrite !xorb_true_l. apply xorb_false_l. }
  assert (Op : forall x y env, - x = y -> x <> 0 -> eval m env y = negb (eval m env x))
    by (intros x y env <- Hx; apply eval_opp, Hx).
  destruct (Z.eqb_spec (- lr) rl) as [Q |]; [| destruct (Z.eqb_spec (- ll) rl) as [Q |];
    [| destruct (Z.eqb_spec (- lr) rr) as [Q |]; [| destruct (Z.eqb_spec (- ll) rr) as [Q |];
    [| discriminate]]]]; injection 1 as <- <- <-;
    (split; [lia |]; split; [lia |]; split; [lia |]; intros env; rewrite Ecur).
  - rewrite (Op _ _ env Q ltac:(lia)).
    destruct (eval m env ll), (eval m env lr), (eval m env rr); reflexivity.
  - rewrite (Op _ _ env Q ltac:(lia)).
    destruct (eval m env ll), (eval m env lr), (eval m env rr); reflexivity.
  - rewrite (Op _ _ env Q ltac:(lia)).
    destruct (eval m env ll), (eval m env lr), (eval m env rl); reflexivity.
  - rewrite (Op _ _ env Q ltac:(lia)).
    destruct (eval m env ll), (eval m env lr), (eval m env rl); reflexivity.
Qed.

(** ** The encoder's invariant *)

Definition on (e : enc) (i : Z) : Prop := is_node_encoded e i = true.

(** Why a node's variable agrees with the graph: the constant's unit clause,
    an input, or gate clauses over encoded nodes below it. *)
Inductive defined (m : aig) (e : enc) (i : Z) : Prop :=
| def_true : i = TRUE -> In [TRUE] (clauses e) -> defined m e i
| def_input : (forall env, eval m env i = env i) -> defined m e i
| def_and l r :
    0 < Z.abs l < i -> 0 < Z.abs r < i -> on e l -> on e r ->
    incl (and_clauses i l r) (clauses e) ->
    (forall env, eval m env i = eval m env l && eval m env r) -> defined m e i
| def_ite c a b :
    0 < Z.abs c < i -> 0 < Z.abs a < i -> 0 < Z.abs b < i -> on e c -> on e a -> on e b ->
    incl (ite_clauses i c a b) (clauses e) ->
    (forall env, eval m env i = if eval m env c then eval m env a else eval m env b) ->
    defined m e i.

(** The number of encoded nodes. *)
Definition cnt (m : aig) (e : enc) : nat :=
  length (List.filter (fun i => bm_get (encoded e) (Z.of_nat i)) (seq 0 (length (nodes m)))).

(** [R] lists the literals asserted so far. *)
Record Inv (m : aig) (R : list Z) (e : enc) : Prop := {
  iv_defined : forall i, i <> 0 -> on e i -> valid m i /\ defined m e (Z.abs i);
  iv_sound : forall env,
    models (eval m env) (clauses e) <-> Forall (fun r => eval m env r = true) R;
  iv_vars : num_vars e = Z.of_nat (cnt m e);
  iv_counts : num_clauses e = Z.of_nat (length (clauses e)) /\
    num_literals e = Z.of_nat (length (concat (clauses e)));
  iv_lits : Forall (Forall (fun l => l <> 0 /\ on e l)) (clauses e);
  iv_valid : Forall (valid m) R;
  iv_visited : forall b, 0 <= b -> bm_get (visited e) b = false;
  iv_touched : touched e = [] }.

(** [e'] encodes at least what [e] does. *)
Definition more (m : aig) (e e' : enc) : Prop :=
  (forall i, on e i -> on e' i) /\ incl (clauses e) (clauses e') /\ (cnt m e <= cnt m e')%nat.

#[export] Instance more_preorder m : PreOrder (more m).
Proof.
  split.
  - intros e. split; [auto |]. split; [apply incl_refl | lia].
  - intros a b c (? & ? & ?) (? & ? & ?). split; [auto |].
    split; [eapply incl_tran; eauto | lia].
Qed.

Lemma defined_more m e e' i :
  (forall i, on e i -> on e' i) -> incl (clauses e) (clauses e') ->
  defined m e i -> defined m e' i.
Proof.
  intros Ho Hc [? ? | ? | l r | c a b].
  - apply def_true; auto.
  - apply def_input; auto.
  - apply (def_and _ _ _ l r); auto. eapply incl_tran; eauto.
  - apply (def_ite _ _ _ c a b); auto. eapply incl_tran; eauto.
Qed.

Lemma on_opp e i : on e (- i) <-> on e i.
Proof. unfold on, is_node_encoded. rewrite Z.abs_opp. tauto. Qed.

Lemma on_abs e i : on e (Z.abs i) <-> on e i.
Proof. unfold on, is_node_encoded. rewrite Z.abs_idemp. tauto. Qed.

(** Every model of the clauses agrees with the graph on the encoded nodes. *)
Lemma model_agrees m R e s :
  inv m -> Inv m R e -> models s (clauses e) ->
  forall i, i <> 0 -> on e i -> holds s i = eval m s i.
Proof.
  intros Im I M. assert (P : forall n i, (Z.to_nat i < n)%nat -> 0 < i -> on e i -> s i = eval m s i).
  2:{ intros i Hi Oi. apply holds_agree; [exact Hi |].
      apply (P (S (Z.to_nat (Z.abs i)))); [lia | lia |]. apply on_abs, Oi. }
  assert (Sub : forall cs, incl cs (clauses e) -> models s cs).
  { intros cs Hcs. unfold models in *. rewrite List.Forall_forall in *. auto. }
  induction n as [| n IH]; intros i Hn Hi Oi; [lia |].
  assert (IHl : forall l, 0 < Z.abs l < i -> on e l -> holds s l = eval m s l).
  { intros l Hl Ol. apply holds_agree; [lia |]. apply IH; [lia | lia | apply on_abs, Ol]. }
  destruct (iv_defined _ _ _ I i ltac:(lia) Oi) as [V D]. rewrite Z.abs_eq in D by lia.
  destruct D as [-> Hc | E | l r Hl Hr Ol Or Hc E | c a b Hc' Ha Hb Oc Oa Ob Hc E].
  - pose proof (Sub [[TRUE]] ltac:(intros x [<- | []]; exact Hc)) as U.
    apply Forall_inv in U. unfold sat_clause in U. cbn in U. rewrite orb_false_r in U.
    rewrite U. symmetry. apply eval_true, Im.
  - symmetry. apply E.
  - apply Sub, and_clauses_models in Hc; try lia. rewrite Hc, E, !IHl by auto. reflexivity.
  - apply Sub, ite_clauses_models in Hc; try lia. rewrite Hc, E, !IHl by auto. reflexivity.
Qed.

Lemma on_spec e i : i <> 0 -> on e i <-> bm_get (encoded e) (Z.abs i - 1) = true.
Proof. intros. unfold on. rewrite is_node_encoded_eq by auto. tauto. Qed.

(** States that differ in the bitmap's length, the stack and the leaves only. *)
Definition alike (e e' : enc) : Prop :=
  (forall b, bm_get (encoded e') b = bm_get (encoded e) b) /\ clauses e' = clauses e /\
  num_vars e' = num_vars e /\ visited e' = visited e /\ touched e' = touched e /\
  num_clauses e' = num_clauses e /\ num_literals e' = num_literals e.

Lemma alike_on e e' i : alike e e' -> on e' i <-> on e i.
Proof.
  intros (B & _). destruct (Z.eq_dec i 0) as [-> | N].
  - unfold on, is_node_encoded. cbn. tauto.
  - rewrite !on_spec, B by auto. tauto.
Qed.

Lemma alike_cnt m e e' : alike e e' -> cnt m e' = cnt m e.
Proof.
  intros (B & _). unfold cnt. f_equal. apply List.filter_ext. intros i. apply B.
Qed.

Lemma alike_more m e e' : alike e e' -> more m e e'.
Proof.
  intros A. split; [intros i; apply alike_on, A |].
  rewrite (alike_cnt m _ _ A). split; [| lia]. destruct A as (_ & -> & _). apply incl_refl.
Qed.

Lemma alike_inv m R e e' : alike e e' -> Inv m R e -> Inv m R e'.
Proof.
  intros A I. pose proof (alike_cnt m _ _ A) as C. pose proof (alike_on e e') as O.
  destruct (alike_more m _ _ A) as (Mo & Mc & _).
  destruct A as (B & Ec & Ev & Evis & Et & Enc & Enl). constructor.
  - intros i Hi Oi. apply O in Oi; [| repeat split; auto].
    destruct (iv_defined _ _ _ I i Hi Oi) as [V D]. split; [exact V |].
    eapply defined_more; eauto.
  - rewrite Ec. apply I.
  - rewrite Ev, C. apply I.
  - rewrite Enc, Enl, Ec. apply I.
  - rewrite Ec. eapply List.Forall_impl; [| apply (iv_lits _ _ _ I)]. intros c Hc.
    eapply List.Forall_impl; [| exact Hc]. intros l [? ?]. auto.
  - apply (iv_valid _ _ _ I).
  - rewrite Evis. apply I.
  - rewrite Et. apply I.
Qed.

Lemma alike_trans a b c : alike a b -> alike b c -> alike a c.
Proof.
  intros (B1 & ? & ? & ? & ? & ? & ?) (B2 & ? & ? & ? & ? & ? & ?).
  split; [intros; rewrite B2; apply B1 |]. repeat split; congruence.
Qed.

Lemma alike_ensure e k : alike e (set_encoded (ensure_bitmap (encoded e) k) e).
Proof. repeat split. intros. apply ensure_get. Qed.

Lemma alike_stack e s : alike e (set_stack s e).
Proof. repeat split. Qed.

Lemma push_children_spec kids : forall e,
  alike e (push_children kids e) /\ stack (push_children kids e) = rev kids ++ stack e /\
  leaves (push_children kids e) = leaves e.
Proof.
  assert (P1 : forall ks e,
    let e' := fold_left (fun e k => set_encoded (ensure_bitmap (encoded e) (Z.abs k)) e) ks e in
    alike e e' /\ stack e' = stack e /\ leaves e' = leaves e).
  { induction ks as [| k ks IH]; intros e; cbn; [repeat split |].
    destruct (IH (set_encoded (ensure_bitmap (encoded e) (Z.abs k)) e)) as (A & S & L).
    split; [eapply alike_trans; [apply alike_ensure | exact A] | auto]. }
  assert (P2 : forall ks e,
    let e' := fold_left (fun e k => set_stack (k :: stack e) e) ks e in
    alike e e' /\ stack e' = rev ks ++ stack e /\ leaves e' = leaves e).
  { induction ks as [| k ks IH]; intros e; cbn; [repeat split |].
    destruct (IH (set_stack (k :: stack e) e)) as (A & S & L).
    split; [eapply alike_trans; [apply alike_stack | exact A] |].
    split; [rewrite S, <- app_assoc; reflexivity | exact L]. }
  intros e. unfold push_children. destruct (P1 kids e) as (A1 & S1 & L1).
  destruct (P2 kids (fold_left (fun e k => set_encoded (ensure_bitmap (encoded e) (Z.abs k)) e)
    kids e)) as (A2 & S2 & L2).
  split; [eapply alike_trans; eauto |]. split; [rewrite S2, S1; reflexivity | congruence].
Qed.

(** One more element satisfies the filter. *)
Lemma filter_add_one (f g : nat -> bool) a l :
  List.NoDup l -> In a l -> f a = false -> (forall x, g x = f x || Nat.eqb a x) ->
  length (List.filter g l) = S (length (List.filter f l)).
Proof.
  intros N Hin Fa G. induction N as [| x l Nx N IH]; [destruct Hin |]. cbn [List.filter].
  destruct Hin as [-> | Hin].
  - rewrite G, Fa, Nat.eqb_refl. cbn. f_equal. f_equal. apply List.filter_ext_in.
    intros y Hy. rewrite G. destruct (Nat.eqb_spec a y) as [-> | ?]; [contradiction | apply orb_false_r].
  - rewrite G. destruct (Nat.eqb_spec a x) as [-> | ?]; [contradiction |].
    rewrite orb_false_r. destruct (f x); cbn; rewrite IH by auto; reflexivity.
Qed.

Lemma cnt_bound m e : (cnt m e <= length (nodes m))%nat.
Proof.
  unfold cnt. etransitivity; [apply List.filter_length_le |]. rewrite length_seq. lia.
Qed.

(** Marking node [x] with clauses that define it and hold in the graph. *)
Lemma emit_inv m R e e' x cs :
  Inv m R e -> 1 <= x <= nodes_size m -> ~ on e x -> (byte_of (x - 1) < length (encoded e))%nat ->
  encoded e' = bm_set (encoded e) (x - 1) -> clauses e' = clauses e ++ cs ->
  num_vars e' = num_vars e + 1 -> visited e' = visited e -> touched e' = touched e ->
  num_clauses e' = num_clauses e + Z.of_nat (length cs) ->
  num_literals e' = num_literals e + Z.of_nat (length (concat cs)) ->
  Forall (Forall (fun l => l <> 0 /\ (on e l \/ Z.abs l = x))) cs ->
  (forall env, models (eval m env) cs) -> defined m e' x ->
  Inv m R e' /\ on e' x /\ more m e e' /\ cnt m e' = S (cnt m e).
Proof.
  intros I Hx Nx Hb Ee Ec Ev Evis Et Enc Enl Hl Hcs D.
  assert (O : forall i, i <> 0 -> on e' i <-> on e i \/ Z.abs i = x).
  { intros i Hi. rewrite !on_spec, Ee, bm_get_set by (auto; lia). rewrite orb_true_iff, Z.eqb_eq.
    intuition lia. }
  assert (Mo : forall i, on e i -> on e' i).
  { intros i Oi. destruct (Z.eq_dec i 0) as [-> | N]; [reflexivity | apply O; auto]. }
  assert (Mc : incl (clauses e) (clauses e')) by (rewrite Ec; apply incl_appl, incl_refl).
  assert (C : cnt m e' = S (cnt m e)).
  { unfold cnt. apply filter_add_one with (a := Z.to_nat (x - 1)).
    - apply seq_NoDup.
    - apply in_seq. unfold nodes_size in Hx. lia.
    - rewrite Z2Nat.id by lia. apply not_true_iff_false. intros B. apply Nx.
      apply on_spec; [lia |]. rewrite Z.abs_eq by lia. exact B.
    - intros i. rewrite Ee, bm_get_set by lia. rewrite orb_comm. f_equal.
      destruct (Z.eqb_spec (x - 1) (Z.of_nat i)), (Nat.eqb_spec (Z.to_nat (x - 1)) i); auto; lia. }
  split; [| split; [apply O; [lia | right; lia] | split; [split; [exact Mo | split; [exact Mc | lia]] | exact C]]].
  constructor.
  - intros i Hi Oi. apply O in Oi as [Oi | Ei]; [| | exact Hi].
    + destruct (iv_defined _ _ _ I i Hi Oi) as [V D']. split; [exact V |].
      eapply defined_more; eauto.
    + split; [unfold valid; lia | rewrite Ei; exact D].
  - intros env. rewrite Ec. unfold models in *. rewrite List.Forall_app.
    pose proof (iv_sound _ _ _ I env). unfold models in H. specialize (Hcs env). tauto.
  - rewrite Ev, C, (iv_vars _ _ _ I). lia.
  - destruct (iv_counts _ _ _ I) as [E1 E2].
    rewrite Enc, Enl, Ec, concat_app, !length_app, E1, E2. lia.
  - rewrite Ec. apply List.Forall_app. split.
    + eapply List.Forall_impl; [| apply (iv_lits _ _ _ I)]. intros c Hc.
      eapply List.Forall_impl; [| exact Hc]. intros l [? ?]. auto.
    + eapply List.Forall_impl; [| exact Hl]. intros c Hc.
      eapply List.Forall_impl; [| exact Hc]. intros l [? ?]. split; [auto |]. apply O; auto.
  - apply (iv_valid _ _ _ I).
  - rewrite Evis. apply I.
  - rewrite Et. apply I.
Qed.

Lemma filter_strict (f g : nat -> bool) a l :
  (forall x, f x = true -> g x = true) -> In a l -> f a = false -> g a = true ->
  (length (List.filter f l) < length (List.filter g l))%nat.
Proof.
  intros Sub Hin Fa Ga.
  assert (Le : forall l, (length (List.filter f l) <= length (List.filter g l))%nat).
  { induction l0 as [| x l0 IH]; cbn; [lia |].
    destruct (f x) eqn:F; [rewrite (Sub _ F); cbn; lia | destruct (g x); cbn; lia]. }
  induction l as [| x l IH]; [destruct Hin |]. cbn [List.filter]. specialize (Le l).
  destruct Hin as [-> | Hin].
  - rewrite Fa, Ga. cbn. lia.
  - specialize (IH Hin). destruct (f x) eqn:F; [rewrite (Sub _ F); cbn; lia | destruct (g x); cbn; lia].
Qed.

Lemma cnt_strict m e e' i :
  more m e e' -> valid m i -> ~ on e i -> on e' i -> (cnt m e < cnt m e')%nat.
Proof.
  intros (Mo & _) V N O. unfold valid, nodes_size in V.
  rewrite on_spec in N, O by lia. unfold cnt.
  apply filter_strict with (a := Z.to_nat (Z.abs i - 1)).
  - intros x B. specialize (Mo (Z.of_nat x + 1)). rewrite !on_spec in Mo by lia.
    replace (Z.abs (Z.of_nat x + 1) - 1) with (Z.of_nat x) in Mo by lia. auto.
  - apply in_seq. lia.
  - rewrite Z2Nat.id by lia. apply not_true_iff_false, N.
  - rewrite Z2Nat.id by lia. exact O.
Qed.

Lemma forallb_Forall {A} (f : A -> bool) l : forallb f l = true -> Forall (fun x => f x = true) l.
Proof. intros H. apply List.Forall_forall. apply forallb_forall, H. Qed.

Lemma filter_none {A} (f : A -> bool) l :
  (forall x, In x l -> f x = false) -> List.filter f l = [].
Proof.
  intros H. induction l as [| x l IH]; [reflexivity |]. cbn [List.filter].
  rewrite H by (left; reflexivity). apply IH. intros y Hy. apply H. right. exact Hy.
Qed.

(** ** The traversal *)

(** [k] iterations lead from [e] to [e']. *)
Definition runs (m : aig) (saved k : nat) (e e' : enc) : Prop :=
  forall fuel, encode_loop (k + fuel) m saved e = encode_loop fuel m saved e'.

Lemma runs_trans m saved j k a b c :
  runs m saved j a b -> runs m saved k b c -> runs m saved (j + k) a c.
Proof. intros H1 H2 fuel. rewrite <- Nat.add_assoc, H1. apply H2. Qed.

Lemma runs_step m saved e :
  (saved < length (stack e))%nat -> runs m saved 1 e (encode_step m e).
Proof.
  intros H fuel. cbn [Nat.add encode_loop].
  destruct (Nat.leb_spec (length (stack e)) saved); [lia | reflexivity].
Qed.

(** The state at the top of an iteration. *)
Definition entered (cur : Z) (e : enc) : enc :=
  set_encoded (ensure_bitmap (encoded e) (Z.abs cur)) e.

Lemma alike_entered e cur : alike e (entered cur e).
Proof. apply alike_ensure. Qed.

(** An AND node's operands and clauses. *)
Definition gate_of (m : aig) (cur : Z) : list Z * list (list Z) :=
  let '(l, r) := children_of m cur in
  match detect_ite m cur with
  | Some (c, na, nb) => ([c; na; nb], ite_clauses (Z.abs cur) c (- na) (- nb))
  | None => ([l; r], and_clauses (Z.abs cur) l r)
  end.

Section GateLits.
Context (Q : Z -> Prop) (Qopp : forall l, Q l -> Q (- l)).

Lemma and_clauses_lits x a b : Q x -> Q a -> Q b -> Forall (Forall Q) (and_clauses x a b).
Proof. intros. unfold and_clauses. rewrite !Forall_cons_iff, !Forall_nil_iff. auto 10. Qed.

Lemma ite_clauses_lits x c a b :
  Q x -> Q c -> Q a -> Q b -> Forall (Forall Q) (ite_clauses x c a b).
Proof. intros. unfold ite_clauses. rewrite !Forall_cons_iff, !Forall_nil_iff. auto 12. Qed.
End GateLits.

Lemma lit_ok_opp e x l :
  l <> 0 /\ (on e l \/ Z.abs l = x) -> - l <> 0 /\ (on e (- l) \/ Z.abs (- l) = x).
Proof. rewrite on_opp, Z.abs_opp. intros [? ?]. split; [lia | assumption]. Qed.

(** What an iteration does on it. *)
Lemma encode_step_and m cur rest e :
  inv m -> stack e = cur :: rest -> valid m cur -> ~ on e cur -> is_and_id m cur = true ->
  let kids := fst (gate_of m cur) in let cs := snd (gate_of m cur) in
    Forall (fun k => 0 < Z.abs k < Z.abs cur) kids /\ (length kids <= 3)%nat /\
    (forall e', Forall (on e') kids ->
      Forall (Forall (fun l => l <> 0 /\ (on e' l \/ Z.abs l = Z.abs cur))) cs) /\
    (forall env, models (eval m env) cs) /\
    (forall e', Forall (on e') kids -> incl cs (clauses e') -> defined m e' (Z.abs cur)) /\
    encode_step m e =
      if forallb (is_node_encoded (entered cur e)) kids
      then add_clauses cs (mark_encoded (Z.abs cur) (set_stack rest (entered cur e)))
      else push_children kids (entered cur e).
Proof.
  intros Im S V N A.
  assert (N0 : ~ on (entered cur e) cur) by (rewrite (alike_on e _ _ (alike_entered _ _)); exact N).
  assert (E0 : encode_step m e =
    let '(l, r) := children_of m cur in
    match detect_ite m cur with
    | Some (c_id, not_a, not_b) =>
        if is_node_encoded (entered cur e) c_id && is_node_encoded (entered cur e) not_a
           && is_node_encoded (entered cur e) not_b
        then add_clauses (ite_clauses (Z.abs cur) c_id (- not_a) (- not_b))
               (mark_encoded (Z.abs cur) (set_stack rest (entered cur e)))
        else push_children [c_id; not_a; not_b] (entered cur e)
    | None =>
        if is_node_encoded (entered cur e) l && is_node_encoded (entered cur e) r
        then add_clauses (and_clauses (Z.abs cur) l r)
               (mark_encoded (Z.abs cur) (set_stack rest (entered cur e)))
        else push_children [l; r] (entered cur e)
    end).
  { unfold encode_step. rewrite S. cbv zeta. fold (entered cur e).
    apply not_true_is_false in N0. rewrite N0.
    assert (I : is_input m cur = false).
    { revert A. unfold is_and_id, is_input. destruct (_ || _); [discriminate |].
      destruct (_ >? _); [reflexivity |]. intros A. apply negb_true_iff in A. exact A. }
    unfold is_and_id in A. destruct (Z.eqb_spec cur 0); [discriminate |].
    destruct (Z.eqb_spec cur TRUE); [discriminate |].
    destruct (Z.eqb_spec cur FALSE); [discriminate |]. cbn [orb]. rewrite I. reflexivity. }
  rewrite E0. clear E0 N0. unfold gate_of. destruct (children_of m cur) as [l r] eqn:C.
  destruct (children_spec m cur l r Im A C) as (_ & Hl & Hr & E).
  destruct (detect_ite m cur) as [[[c na] nb] |] eqn:Dt.
  - destruct (detect_ite_spec m cur c na nb Im Dt) as (Hc & Hna & Hnb & Ei).
    cbn [fst snd]. rewrite (Z.abs_eq cur) in * by lia.
    assert (Ei' : forall env, eval m env cur =
      if eval m env c then eval m env (- na) else eval m env (- nb))
      by (intros env; rewrite Ei, !eval_opp by lia; reflexivity).
    split; [repeat constructor; lia |]. split; [cbn; lia |]. split; [| split; [| split]].
    + intros e' Hk. rewrite !Forall_cons_iff in Hk. destruct Hk as (Oc & Oa & Ob & _).
      apply ite_clauses_lits; [intros l'; apply lit_ok_opp | | | |];
        try apply (lit_ok_opp e' cur); (split; [lia |]); auto; right; lia.
    + intros env. apply ite_clauses_models; try lia. rewrite !holds_eval by lia. apply Ei'.
    + intros e' Hk Hcs. rewrite !Forall_cons_iff in Hk. destruct Hk as (Oc & Oa & Ob & _).
      apply (def_ite _ _ _ c (- na) (- nb)); rewrite ?Z.abs_opp; auto; try lia;
        apply on_opp; assumption.
    + cbn [forallb]. rewrite andb_true_r, andb_assoc. reflexivity.
  - cbn [fst snd]. assert (Ea : forall env, eval m env (Z.abs cur) = eval m env l && eval m env r).
    { intros env. specialize (E env). destruct (Z.ltb_spec cur 0).
      - rewrite Z.abs_neq, eval_opp, E by lia.
        destruct (eval m env l), (eval m env r); reflexivity.
      - rewrite Z.abs_eq, E by lia. apply xorb_false_l. }
    split; [repeat constructor; lia |]. split; [cbn; lia |]. split; [| split; [| split]].
    + intros e' Hk. rewrite !Forall_cons_iff in Hk. destruct Hk as (Ol & Or & _).
      apply and_clauses_lits; [intros l'; apply lit_ok_opp | | |];
        (split; [lia |]); auto; right; lia.
    + intros env. apply and_clauses_models; try lia. rewrite !holds_eval by lia. apply Ea.
    + intros e' Hk Hcs. rewrite !Forall_cons_iff in Hk. destruct Hk as (Ol & Or & _).
      apply (def_and _ _ _ l r); auto; lia.
    + cbn [forallb]. rewrite andb_true_r. reflexivity.
Qed.

(** The outcome of dealing with the entries [done] on top of the stack; [cost]
    relates the iterations to the nodes encoded. *)
Definition dealt (m : aig) (R : list Z) (saved : nat) (cost : nat -> nat -> Prop)
    (done rest : list Z) (e : enc) : Prop :=
  exists k e', runs m saved k e e' /\ stack e' = rest /\ leaves e' = leaves e /\ Inv m R e' /\
    Forall (on e') done /\ more m e e' /\ cost k (cnt m e' - cnt m e)%nat /\
    forall i, i <> 0 -> on e' i -> on e i \/ Exists (fun d => Z.abs i <= Z.abs d) done.

Definition steps (bound k d : nat) : Prop := (k <= 6 * d + bound)%nat.
Definition marks (k d : nat) : Prop := k = 1%nat /\ d = 1%nat.

Lemma dealt_weaken m R saved (c c' : nat -> nat -> Prop) done rest e :
  (forall k d, c k d -> c' k d) -> dealt m R saved c done rest e -> dealt m R saved c' done rest e.
Proof.
  intros W (k & e' & H1 & H2 & H3 & H4 & H5 & H6 & H7 & H8). exists k, e'. auto 10.
Qed.

(** A marking iteration. *)
Lemma dealt_mark m R saved cur rest e cs :
  Inv m R e -> stack e = cur :: rest -> (saved <= length rest)%nat -> valid m cur -> ~ on e cur ->
  encode_step m e = add_clauses cs (mark_encoded (Z.abs cur) (set_stack rest (entered cur e))) ->
  Forall (Forall (fun l => l <> 0 /\ (on e l \/ Z.abs l = Z.abs cur))) cs ->
  (forall env, models (eval m env) cs) ->
  (forall e', (forall i, on e i -> on e' i) -> incl cs (clauses e') -> defined m e' (Z.abs cur)) ->
  dealt m R saved marks [cur] rest e.
Proof.
  intros I S Hs V N Es Hl Hcs D. unfold valid in V.
  pose proof (alike_entered e cur) as A.
  set (e' := add_clauses _ _) in Es. exists 1%nat, e'.
  destruct (emit_inv m R (entered cur e) e' (Z.abs cur) cs) as (I' & O & Mo & C); auto.
  - apply (alike_inv m R e); auto.
  - rewrite (alike_on e _ _ A), on_abs. exact N.
  - apply ensure_byte. lia.
  - unfold e', mark_encoded. cbn. rewrite Z.abs_idemp. reflexivity.
  - eapply List.Forall_impl; [| exact Hl]. intros c Hc. eapply List.Forall_impl; [| exact Hc].
    intros l [? ?]. rewrite (alike_on e _ _ A). auto.
  - apply D.
    + intros i Oi. unfold e'. destruct (Z.eq_dec i 0) as [-> | Ni]; [reflexivity |].
      apply on_spec; [exact Ni |]. cbn [encoded add_clauses mark_encoded set_stack].
      apply (alike_on e _ _ A), on_spec in Oi; [| exact Ni].
      rewrite bm_get_set, Oi by (try apply ensure_byte; lia). apply orb_true_r.
    + unfold e'. cbn. apply incl_appr, incl_refl.
  - assert (More : more m e e') by (etransitivity; [apply alike_more, A | exact Mo]).
    split; [rewrite <- Es; apply runs_step; rewrite S; cbn; lia |].
    split; [reflexivity |]. split; [reflexivity |]. split; [exact I' |].
    split; [constructor; [apply on_abs, O | constructor] |]. split; [exact More |].
    split; [rewrite (alike_cnt m _ _ A) in C; split; lia |].
    intros i Hi Oi. apply on_spec in Oi; [| exact Hi].
    unfold e' in Oi. cbn [encoded add_clauses mark_encoded set_stack] in Oi.
    rewrite bm_get_set in Oi by (try apply ensure_byte; lia).
    apply orb_true_iff in Oi as [Q | Oi].
    + apply Z.eqb_eq in Q. right. apply Exists_cons_hd. lia.
    + left. apply (alike_on e _ _ A), on_spec; auto.
Qed.

(** An iteration on an encoded node. *)
Lemma dealt_done m R saved cur rest e :
  Inv m R e -> stack e = cur :: rest -> (saved <= length rest)%nat -> on e cur ->
  dealt m R saved (steps 1) [cur] rest e.
Proof.
  intros I S Hs O. pose proof (alike_entered e cur) as A.
  assert (A' : alike e (set_stack rest (entered cur e)))
    by (eapply alike_trans; [exact A | apply alike_stack]).
  assert (Es : encode_step m e = set_stack rest (entered cur e)).
  { unfold encode_step. rewrite S. cbv zeta. fold (entered cur e).
    replace (is_node_encoded (entered cur e) cur) with true; [reflexivity |].
    symmetry. apply (alike_on e _ _ A), O. }
  exists 1%nat, (encode_step m e). split; [apply runs_step; rewrite S; cbn; lia |].
  rewrite Es. split; [reflexivity |]. split; [reflexivity |].
  split; [eapply alike_inv; eauto |].
  split; [constructor; [apply (alike_on e _ _ A'), O | constructor] |].
  split; [apply alike_more, A' |]. split; [unfold steps; lia |].
  intros i _ Oi. left. apply (alike_on e _ _ A'), Oi.
Qed.

Lemma dealt_kids m R saved n :
  (forall cur rest e, (Z.to_nat (Z.abs cur) < n)%nat -> valid m cur -> stack e = cur :: rest ->
    (saved <= length rest)%nat -> Inv m R e -> dealt m R saved (steps 1) [cur] rest e) ->
  forall kids rest e,
    Forall (fun k => valid m k /\ (Z.to_nat (Z.abs k) < n)%nat) kids ->
    stack e = kids ++ rest -> (saved <= length rest)%nat -> Inv m R e ->
    dealt m R saved (steps (length kids)) kids rest e.
Proof.
  intros IH kids. induction kids as [| k ks IHks]; intros rest e Hk S Hs I.
  - exists 0%nat, e. split; [intros fuel; reflexivity |]. split; [exact S |].
    split; [reflexivity |]. split; [exact I |]. split; [constructor |]. split; [reflexivity |].
    split; [unfold steps; cbn; lia | auto].
  - apply Forall_cons_iff in Hk as [[V Hn] Hk].
    destruct (IH k (ks ++ rest) e Hn V S ltac:(rewrite length_app; lia) I)
      as (j & e1 & R1 & S1 & L1 & I1 & O1 & M1 & B1 & F1).
    destruct (IHks rest e1 Hk S1 Hs I1) as (j2 & e2 & R2 & S2 & L2 & I2 & O2 & M2 & B2 & F2).
    exists (j + j2)%nat, e2. split; [eapply runs_trans; eauto |]. split; [exact S2 |].
    split; [congruence |]. split; [exact I2 |]. split.
    { constructor; [| exact O2]. apply M2. apply Forall_inv in O1. exact O1. }
    split; [etransitivity; eauto |].
    destruct M1 as (_ & _ & ?), M2 as (_ & _ & ?). unfold steps in *. cbn [length].
    split; [lia |]. intros i Hi Oi. destruct (F2 i Hi Oi) as [Oi1 |]; [| right; apply Exists_cons_tl; auto].
    destruct (F1 i Hi Oi1) as [| Ex]; [auto |].
    apply Exists_cons in Ex as [? | Ex]; [right; apply Exists_cons_hd; auto | inversion Ex].
Qed.

Lemma encode_top m R saved (Im : inv m) : forall n cur rest e,
  (Z.to_nat (Z.abs cur) < n)%nat -> valid m cur -> stack e = cur :: rest ->
  (saved <= length rest)%nat -> Inv m R e -> dealt m R saved (steps 1) [cur] rest e.
Proof.
  induction n as [| n IH]; intros cur rest e Hn V S Hs I; [lia |].
  assert (Mk : forall k d, marks k d -> steps 1 k d) by (unfold marks, steps; lia).
  pose proof (alike_entered e cur) as A.
  assert (Vc := V). unfold valid in Vc.
  destruct (is_node_encoded e cur) eqn:O; [apply dealt_done; auto |].
  assert (NO : ~ on e cur) by (unfold on; rewrite O; discriminate).
  assert (O0 : is_node_encoded (entered cur e) cur = false)
    by (apply not_true_is_false; intros Q; apply NO, (alike_on e _ _ A), Q).
  destruct (Z.eq_dec (Z.abs cur) TRUE) as [T | NT].
  { apply dealt_weaken with (c := marks); [exact Mk |].
    apply (dealt_mark m R saved cur rest e [[TRUE]]); auto.
    - unfold encode_step. rewrite S. cbv zeta. fold (entered cur e). rewrite O0.
      replace ((cur =? TRUE) || (cur =? FALSE)) with true
        by (symmetry; apply orb_true_iff; rewrite !Z.eqb_eq; unfold TRUE, FALSE in *; lia).
      unfold mark_encoded. rewrite Z.abs_idemp. reflexivity.
    - intros env. repeat constructor. unfold sat_clause. cbn [existsb].
      rewrite holds_pos, eval_true by (exact Im || reflexivity). reflexivity.
    - intros e' _ Hc. rewrite T. apply def_true; [reflexivity | apply Hc; left; reflexivity]. }
  assert (Nc : (cur =? TRUE) || (cur =? FALSE) = false)
    by (apply orb_false_iff; rewrite !Z.eqb_neq; unfold TRUE, FALSE in *; lia).
  destruct (is_input m cur) eqn:Inp.
  { apply dealt_weaken with (c := marks); [exact Mk |].
    apply (dealt_mark m R saved cur rest e []); auto.
    - unfold encode_step. rewrite S. cbv zeta. fold (entered cur e). rewrite O0, Nc, Inp.
      unfold add_clauses, mark_encoded. cbn. rewrite !Z.add_0_r, app_nil_r, Z.abs_idemp. reflexivity.
    - intros env. constructor.
    - intros e' _ _. apply def_input. intros env.
      apply is_input_eval; [exact Im | lia |]. revert Inp. unfold is_input, TRUE, FALSE in *.
      rewrite Z.abs_idemp. apply orb_false_iff in Nc as [N1 N2].
      rewrite N1, N2. destruct (Z.eqb_spec cur 0), (Z.eqb_spec (Z.abs cur) 0),
        (Z.eqb_spec (Z.abs cur) 1), (Z.eqb_spec (Z.abs cur) (-1)); try lia; auto. }
  assert (AN : is_and_id m cur = true).
  { apply not_input_and; auto; unfold TRUE, FALSE in *; intros ->; apply NT; reflexivity. }
  destruct (encode_step_and m cur rest e Im S V NO AN) as (Hk & Lk & Hl & Hcs & D & Es).
  pose proof (encode_step_and m cur rest) as Step.
  set (kids := fst (gate_of m cur)) in *. set (cs := snd (gate_of m cur)) in *.
  destruct (forallb (is_node_encoded (entered cur e)) kids) eqn:Rdy.
  { apply dealt_weaken with (c := marks); [exact Mk |].
    apply (dealt_mark m R saved cur rest e cs); auto.
    - apply Hl. apply forallb_Forall in Rdy.
      eapply List.Forall_impl; [| exact Rdy]. intros k Ok. apply (alike_on e _ _ A), Ok.
    - intros e' Mo Hc. apply D; [| exact Hc]. apply forallb_Forall in Rdy.
      eapply List.Forall_impl; [| exact Rdy]. intros k Ok. apply Mo, (alike_on e _ _ A), Ok. }
  destruct (push_children_spec kids (entered cur e)) as (A2 & S2 & L2).
  set (e1 := push_children kids (entered cur e)) in *.
  assert (A1 : alike e e1) by (eapply alike_trans; eauto).
  destruct (dealt_kids m R saved n (IH) (rev kids) (cur :: rest) e1) as
    (k & e2 & R2 & S3 & L3 & I3 & O3 & M3 & B3 & F3).
  { apply Forall_rev. eapply List.Forall_impl; [| exact Hk]. cbv beta. intros a Ha.
    unfold valid. split; lia. }
  { rewrite S2. change (stack (entered cur e)) with (stack e). rewrite S. reflexivity. }
  { cbn. lia. }
  { eapply alike_inv; eauto. }
  (* the node again, its children encoded *)
  apply List.Forall_rev in O3. rewrite rev_involutive in O3.
  assert (R1 : runs m saved 1 e e1).
  { rewrite <- Es. apply runs_step. rewrite S. cbn. lia. }
  assert (M13 : more m e e2) by (etransitivity; [apply alike_more, A1 | exact M3]).
  rewrite length_rev in B3. rewrite (alike_cnt m _ _ A1) in B3.
  assert (Below : forall d, Exists (fun k => Z.abs d <= Z.abs k) (rev kids) -> Z.abs d < Z.abs cur).
  { intros d Ex. apply List.Exists_exists in Ex as (k0 & Hin & Le). apply in_rev in Hin.
    rewrite List.Forall_forall in Hk. specialize (Hk k0 Hin). lia. }
  assert (NO2 : ~ on e2 cur).
  { intros O2. destruct (F3 cur ltac:(lia) O2) as [O1 | Ex];
      [apply NO, (alike_on e _ _ A1), O1 | specialize (Below _ Ex); lia]. }
  destruct (Step e2 Im S3 V NO2 AN) as (_ & _ & _ & _ & _ & Es2).
  pose proof (alike_entered e2 cur) as A3.
  replace (forallb (is_node_encoded (entered cur e2)) kids) with true in Es2.
  2:{ symmetry. apply forallb_forall. intros k0 Hin. apply (alike_on e2 _ _ A3).
      rewrite List.Forall_forall in O3. auto. }
  destruct (dealt_mark m R saved cur rest e2 cs)
    as (k' & e3 & R4 & S4 & L4 & I4 & O4 & M4 & B4 & F4); auto.
  { intros e' Mo Hc. apply D; [| exact Hc]. eapply List.Forall_impl; [| exact O3]. auto. }
  exists (1 + (k + k'))%nat, e3.
  split; [eapply runs_trans; [exact R1 | eapply runs_trans; eauto] |].
  split; [exact S4 |]. split; [rewrite L4, L3, L2; reflexivity |]. split; [exact I4 |].
  split; [exact O4 |]. split; [etransitivity; eauto |].
  split.
  - destruct M13 as (_ & _ & ?). unfold marks, steps in *. lia.
  - intros i Hi Oi. destruct (F4 i Hi Oi) as [Oi2 |]; [| auto].
    destruct (F3 i Hi Oi2) as [Oi1 | Ex]; [left; apply (alike_on e _ _ A1), Oi1 |].
    right. apply Exists_cons_hd. specialize (Below _ Ex). lia.
Qed.

Lemma Forall_one {A} (P : A -> Prop) x : P x -> Forall P [x].
Proof. intros H. constructor; [exact H | constructor]. Qed.

(** The subtree encoder ends, and encodes its root. *)
Lemma encode_subtree_spec m R root e :
  inv m -> Inv m R e -> valid m root ->
  exists e', encode_subtree m root e = Some e' /\ stack e' = stack e /\ leaves e' = leaves e /\
    Inv m R e' /\ on e' root /\ more m e e'.
Proof.
  intros Im I V. set (e1 := set_stack (root :: stack e) e).
  destruct (encode_top m R (length (stack e)) Im (S (Z.to_nat (Z.abs root))) root (stack e) e1)
    as (k & e' & Rn & S' & L' & I' & O' & M' & B' & _); auto.
  { apply (alike_inv m R e); [apply alike_stack | exact I]. }
  exists e'. unfold encode_subtree. fold e1.
  assert (Hk : (k <= subtree_fuel m)%nat).
  { unfold steps, subtree_fuel in *. pose proof (cnt_bound m e'). lia. }
  replace (subtree_fuel m) with (k + (subtree_fuel m - k))%nat by lia. rewrite Rn.
  split.
  { destruct (subtree_fuel m - k)%nat; cbn [encode_loop]; rewrite S', Nat.leb_refl; reflexivity. }
  split; [exact S' |]. split; [exact L' |]. split; [exact I' |].
  split; [apply Forall_inv in O'; exact O' |].
  etransitivity; [apply alike_more, (alike_stack e (root :: stack e)) | exact M'].
Qed.

(** Asserting an encoded literal. *)
Lemma assert_unit m R e l :
  Inv m R e -> valid m l -> on e l -> Inv m (R ++ [l]) (add_clauses [[l]] e).
Proof.
  intros I V O. assert (Hl : l <> 0) by (unfold valid in V; lia).
  constructor; cbn [encoded clauses num_vars num_clauses num_literals visited touched add_clauses].
  - intros i Hi Oi. destruct (iv_defined _ _ _ I i Hi Oi) as [Vi D]. split; [exact Vi |].
    eapply defined_more; [| | exact D]; [auto | apply incl_appl, incl_refl].
  - intros env. unfold models. rewrite !List.Forall_app.
    rewrite <- (iv_sound _ _ _ I env). rewrite !Forall_cons_iff, !Forall_nil_iff.
    unfold sat_clause at 2. cbn [existsb]. rewrite orb_false_r, holds_eval by exact Hl. tauto.
  - exact (iv_vars _ _ _ I).
  - destruct (iv_counts _ _ _ I) as [-> ->]. rewrite concat_app, !length_app. cbn. lia.
  - apply List.Forall_app. split; [apply (iv_lits _ _ _ I) |]. apply Forall_one, Forall_one. auto.
  - apply List.Forall_app. split; [apply (iv_valid _ _ _ I) | apply Forall_one; exact V].
  - apply I.
  - apply I.
Qed.

Lemma assert_leaves_spec m (Im : inv m) : forall ls R e,
  Inv m R e -> Forall (valid m) ls ->
  exists e', assert_leaves m ls e = Some e' /\ stack e' = stack e /\ Inv m (R ++ ls) e' /\
    Forall (on e') ls /\ more m e e'.
Proof.
  induction ls as [| l ls IH]; intros R e I V.
  - exists e. rewrite app_nil_r. split; [reflexivity |]. split; [reflexivity |].
    split; [exact I |]. split; [constructor | reflexivity].
  - apply Forall_cons_iff in V as [Vl V]. cbn [assert_leaves].
    destruct (encode_subtree_spec m R l e Im I Vl) as (e1 & -> & S1 & _ & I1 & O1 & M1).
    cbn [mbind option_bind].
    pose proof (assert_unit m R e1 l I1 Vl O1) as I2.
    destruct (IH (R ++ [l]) _ I2 V) as (e3 & E3 & S3 & I3 & O3 & M3).
    exists e3. split; [exact E3 |]. split; [rewrite S3; exact S1 |].
    rewrite <- app_assoc in I3. split; [exact I3 |].
    split; [constructor; [apply M3, O1 | exact O3] |].
    etransitivity; [exact M1 |]. etransitivity; [| exact M3].
    split; [auto |]. split; [apply incl_appl, incl_refl | reflexivity].
Qed.

(** ** Flattening *)

Definition seen (bm : list Z) (l : Z) : Prop := bm_get bm (visit_bit l) = true.

Lemma visit_bit_inj a b : a <> 0 -> b <> 0 -> visit_bit a = visit_bit b -> a = b.
Proof.
  unfold visit_bit. intros Ha Hb. destruct (Z.ltb_spec a 0), (Z.ltb_spec b 0); lia.
Qed.

Lemma visit_bit_range m l :
  valid m l -> 0 <= visit_bit l < 2 * nodes_size m.
Proof. unfold valid, visit_bit. destruct (l <? 0); lia. Qed.

(** The invariant of the flattening: [work] is what the stack holds above its
    base; every literal seen is a leaf or has both children seen or waiting. *)
Record Flat (m : aig) (root : Z) (base : list Z) (e0 : enc) (work : list Z) (e : enc) : Prop := {
  fl_stack : stack e = work ++ base;
  fl_work : Forall (valid m) work;
  fl_leaves : Forall (valid m) (leaves e);
  fl_bits : forall b, 0 <= b -> bm_get (visited e) b = true <-> In b (touched e);
  fl_touched : List.NoDup (touched e) /\ Forall (fun b => 0 <= b < 2 * nodes_size m) (touched e);
  fl_closed : forall l, valid m l -> seen (visited e) l ->
    In l (leaves e) \/
    (0 < l /\ is_and_id m l = true /\ let '(a, b) := children_of m l in
      (seen (visited e) a \/ In a work) /\ (seen (visited e) b \/ In b work));
  fl_root : seen (visited e) root \/ In root work;
  fl_true : forall env, eval m env root = true ->
    Forall (fun l => eval m env l = true) (work ++ leaves e);
  fl_rest : encoded e = encoded e0 /\ clauses e = clauses e0 /\ num_vars e = num_vars e0 /\
    num_clauses e = num_clauses e0 /\ num_literals e = num_literals e0 }.

(** The work left: what is waiting, and two for each literal not yet seen. *)
Definition flat_measure (m : aig) (work : list Z) (e : enc) : nat :=
  length work + 2 * (2 * length (nodes m) - length (touched e)).

Lemma touched_bound m root base e0 work e :
  Flat m root base e0 work e -> (length (touched e) <= 2 * length (nodes m))%nat.
Proof.
  intros F. destruct (fl_touched _ _ _ _ _ _ F) as [N R].
  replace (2 * length (nodes m))%nat with (length (map Z.of_nat (seq 0 (2 * length (nodes m)))))
    by (rewrite length_map, length_seq; reflexivity).
  apply List.NoDup_incl_length; [exact N |]. intros b Hb. rewrite List.Forall_forall in R.
  specialize (R b Hb). unfold nodes_size in R. apply in_map_iff.
  exists (Z.to_nat b). split; [lia |]. apply in_seq. lia.
Qed.

Lemma flatten_step_spec m root base e0 cur work e :
  inv m -> root <> 0 -> Flat m root base e0 (cur :: work) e ->
  exists work', Flat m root base e0 work' (flatten_step m e) /\
    (flat_measure m work' (flatten_step m e) < flat_measure m (cur :: work) e)%nat.
Proof.
  intros Im Nr F. pose proof (touched_bound _ _ _ _ _ _ F) as TB.
  destruct F as [S W L B [TN TR] C Rt Tr Rest].
  apply Forall_cons_iff in W as [Vc W]. pose proof (visit_bit_range m cur Vc) as VB.
  assert (Nc : cur <> 0) by (unfold valid in Vc; lia).
  unfold flatten_step. rewrite S. cbn [app]. cbv zeta.
  set (bm := ensure_bitmap (visited e) (visit_bit cur + 1)).
  assert (Bm : forall b, bm_get bm b = bm_get (visited e) b) by (intros; apply ensure_get).
  cbn [visited touched set_stack set_visit leaves stack].
  destruct (bm_get bm (visit_bit cur)) eqn:Seen.
  { exists work. assert (Sc : seen (visited e) cur) by (unfold seen; rewrite <- Bm; exact Seen).
    split; [| unfold flat_measure; cbn; lia].
    constructor; cbn [visited touched set_stack set_visit leaves stack encoded clauses num_vars
      num_clauses num_literals]; auto.
    - intros b Hb. rewrite Bm. auto.
    - intros l Vl Sl. unfold seen in *. rewrite Bm in Sl.
      destruct (C l Vl Sl) as [? | (Hp & A & K)]; [auto | right]. split; [exact Hp |].
      split; [exact A |]. destruct (children_of m l) as [a b]. rewrite !Bm.
      destruct K as [[? | [<- | ?]] [? | [<- | ?]]]; auto.
    - unfold seen in *. rewrite Bm. destruct Rt as [? | [<- | ?]]; auto.
    - intros env E. specialize (Tr env E). cbn [app] in Tr.
      apply Forall_cons_iff in Tr as [_ Tr]. exact Tr. }
  assert (Inb : (byte_of (visit_bit cur) < length bm)%nat) by (apply ensure_byte; lia).
  set (bm' := bm_set bm (visit_bit cur)).
  assert (Bm' : forall b, 0 <= b ->
    bm_get bm' b = (visit_bit cur =? b) || bm_get (visited e) b)
    by (intros b Hb; unfold bm'; rewrite bm_get_set, Bm by (auto; lia); reflexivity).
  assert (Sn : forall l, l <> 0 -> seen bm' l <-> seen (visited e) l \/ l = cur).
  { intros l Hl. unfold seen. rewrite Bm', orb_true_iff, Z.eqb_eq
      by (unfold visit_bit; destruct (l <? 0); lia).
    split; [intros [Q | ?]; [right; symmetry; apply visit_bit_inj; auto | auto]
           | intros [? | ->]; auto]. }
  assert (NT : ~ In (visit_bit cur) (touched e)).
  { intros Hin. apply B in Hin; [| lia]. rewrite <- Bm, Seen in Hin. discriminate. }
  assert (Bits : forall b, 0 <= b -> bm_get bm' b = true <-> In b (touched e ++ [visit_bit cur])).
  { intros b Hb. rewrite Bm', orb_true_iff, Z.eqb_eq, in_app_iff, B by lia. cbn. intuition. }
  assert (TN' : List.NoDup (touched e ++ [visit_bit cur])).
  { apply List.NoDup_app; auto; [repeat constructor; auto |]. intros a Ha [<- | []]. auto. }
  assert (TR' : Forall (fun b => 0 <= b < 2 * nodes_size m) (touched e ++ [visit_bit cur]))
    by (apply List.Forall_app; split; [exact TR | apply Forall_one; lia]).
  assert (TL : (length (touched e) < 2 * length (nodes m))%nat).
  { pose proof (List.NoDup_incl_length TN' (l' := map Z.of_nat (seq 0 (2 * length (nodes m))))) as X.
    rewrite length_map, length_seq, length_app in X. cbn [length] in X.
    enough (incl (touched e ++ [visit_bit cur]) (map Z.of_nat (seq 0 (2 * length (nodes m)))))
      by (specialize (X H); lia).
    intros b Hb. rewrite List.Forall_forall in TR'. specialize (TR' b Hb).
    unfold nodes_size in TR'. apply in_map_iff. exists (Z.to_nat b).
    split; [lia | apply in_seq; lia]. }
  destruct ((0 <? cur) && is_and_id m cur) eqn:And.
  - apply andb_true_iff in And as [Pc A]. apply Z.ltb_lt in Pc.
    destruct (children_of m cur) as [l r] eqn:Ch.
    destruct (children_spec m cur l r Im A Ch) as (Hs & Hl & Hr & E).
    exists (r :: l :: work). split.
    2:{ unfold flat_measure. cbn [touched set_stack set_visit length].
        rewrite length_app. cbn [length]. lia. }
    constructor; cbn [visited touched set_stack set_visit leaves stack encoded clauses num_vars
      num_clauses num_literals]; auto.
    + constructor; [unfold valid; lia |]. constructor; [unfold valid; lia | exact W].
    + intros x Vx Sx. assert (Nx : x <> 0) by (unfold valid in Vx; lia).
      apply Sn in Sx as [Sx | ->]; [| | exact Nx].
      * destruct (C x Vx Sx) as [? | (Hp & Ax & K)]; [auto | right].
        split; [exact Hp |]. split; [exact Ax |].
        destruct (children_of m x) as [a b] eqn:Cx.
        destruct (children_spec m x a b Im Ax Cx) as (_ & Ha & Hb & _).
        rewrite !Sn by lia.
        destruct K as [[? | [<- | ?]] [? | [<- | ?]]]; cbn [In]; auto 10.
      * right. split; [exact Pc |]. split; [exact A |]. rewrite Ch. cbn [In]. auto.
    + rewrite Sn by exact Nr. cbn [In]. destruct Rt as [? | [<- | ?]]; auto 6.
    + intros env Er. specialize (Tr env Er). cbn [app] in *. rewrite Forall_cons_iff in Tr.
      destruct Tr as [Tc Tr]. rewrite E in Tc. destruct (Z.ltb_spec cur 0); [lia |].
      rewrite xorb_false_l in Tc. apply andb_true_iff in Tc as [Tl Tr'].
      constructor; [exact Tr' |]. constructor; [exact Tl | exact Tr].
  - exists work. split.
    2:{ unfold flat_measure. cbn [touched set_stack set_visit set_leaves length].
        rewrite length_app. cbn [length]. lia. }
    constructor; cbn [visited touched set_stack set_visit set_leaves leaves stack encoded clauses
      num_vars num_clauses num_literals]; auto.
    + apply List.Forall_app. split; [exact L | apply Forall_one; exact Vc].
    + intros x Vx Sx. assert (Nx : x <> 0) by (unfold valid in Vx; lia). rewrite in_app_iff.
      apply Sn in Sx as [Sx | ->]; [| cbn; auto | exact Nx].
      destruct (C x Vx Sx) as [? | (Hp & Ax & K)]; [auto | right].
      split; [exact Hp |]. split; [exact Ax |].
      destruct (children_of m x) as [a b] eqn:Cx.
      destruct (children_spec m x a b Im Ax Cx) as (_ & Ha & Hb & _).
      rewrite !Sn by lia.
      destruct K as [[? | [<- | ?]] [? | [<- | ?]]]; auto.
    + rewrite Sn by exact Nr. destruct Rt as [? | [<- | ?]]; auto.
    + intros env Er. specialize (Tr env Er). cbn [app] in *. rewrite Forall_cons_iff in Tr.
      destruct Tr as [Tc Tr]. rewrite app_assoc. apply List.Forall_app.
      split; [exact Tr | apply Forall_one; exact Tc].
Qed.

Lemma flatten_loop_spec m root base e0 : inv m -> root <> 0 -> forall fuel work e,
  Flat m root base e0 work e -> (flat_measure m work e <= fuel)%nat ->
  exists e', flatten_loop fuel m (length base) e = Some e' /\ Flat m root base e0 [] e'.
Proof.
  intros Im Nr. induction fuel as [| f IH]; intros work e F Hf; cbn [flatten_loop];
    rewrite (fl_stack _ _ _ _ _ _ F), length_app; destruct work as [| cur work]; cbn [length].
  - rewrite Nat.leb_refl. eauto.
  - unfold flat_measure in Hf. cbn [length] in Hf. lia.
  - rewrite Nat.leb_refl. eauto.
  - destruct (Nat.leb_spec (S (length work) + length base) (length base)); [lia |].
    destruct (flatten_step_spec m root base e0 cur work e Im Nr F) as (work' & F' & Lt).
    apply (IH work'); [exact F' | lia].
Qed.

(** What has been collected is equivalent to the root. *)
Lemma flat_leaves m root base e0 e env :
  inv m -> valid m root -> Flat m root base e0 [] e ->
  eval m env root = true <-> Forall (fun l => eval m env l = true) (leaves e).
Proof.
  intros Im Vr F. split; [apply (fl_true _ _ _ _ _ _ F env) |]. intros L.
  assert (P : forall n l, (Z.to_nat (Z.abs l) < n)%nat -> valid m l -> seen (visited e) l ->
    eval m env l = true).
  { induction n as [| n IH]; intros l Hn Vl Sl; [lia |].
    destruct (fl_closed _ _ _ _ _ _ F l Vl Sl) as [Hin | (Hp & A & K)].
    - rewrite List.Forall_forall in L. auto.
    - destruct (children_of m l) as [a b] eqn:C.
      destruct (children_spec m l a b Im A C) as (_ & Ha & Hb & E). unfold valid in *.
      rewrite E. destruct (Z.ltb_spec l 0); [lia |]. rewrite xorb_false_l.
      destruct K as [[Sa | []] [Sb | []]].
      rewrite (IH a), (IH b) by (try assumption; lia). reflexivity. }
  destruct (fl_root _ _ _ _ _ _ F) as [Sr | []]. eapply P; eauto.
Qed.

Lemma fold_clear ts : forall bm b,
  Forall (fun t => 0 <= t /\ (byte_of t < length bm)%nat) ts -> 0 <= b ->
  bm_get (fold_left bm_clear ts bm) b = negb (existsb (Z.eqb b) ts) && bm_get bm b.
Proof.
  induction ts as [| t ts IH]; intros bm b H Hb; [reflexivity |].
  apply Forall_cons_iff in H as [[Ht Lt] H]. cbn [fold_left existsb].
  rewrite IH by (try rewrite bm_clear_length; auto). rewrite bm_get_clear, Z.eqb_sym by auto.
  btauto.
Qed.

Lemma clear_touched_spec m root base e0 e :
  Flat m root base e0 [] e -> forall b, 0 <= b -> bm_get (visited (clear_touched e)) b = false.
Proof.
  intros F b Hb. unfold clear_touched. cbn [visited set_visit].
  destruct (fl_touched _ _ _ _ _ _ F) as [_ TR]. rewrite fold_clear; [| | exact Hb].
  - destruct (bm_get (visited e) b) eqn:G; [| apply andb_false_r].
    apply (fl_bits _ _ _ _ _ _ F) in G; [| exact Hb].
    replace (existsb (Z.eqb b) (touched e)) with true; [reflexivity |].
    symmetry. apply existsb_exists. exists b. split; [exact G | apply Z.eqb_refl].
  - apply List.Forall_forall. intros t Ht. rewrite List.Forall_forall in TR.
    specialize (TR t Ht). split; [lia |]. apply bm_get_range.
    apply (fl_bits _ _ _ _ _ _ F); [lia | exact Ht].
Qed.

(** The literals asserted by an encoding. *)
Definition asserts (root : Z) (top_level : bool) : list Z :=
  if top_level && negb (root =? 0) then [root] else [].

Lemma cnf_encode_spec m R root top_level e :
  inv m -> Inv m R e -> root = 0 \/ valid m root ->
  exists e', cnf_encode m root top_level e = Some e' /\ stack e' = stack e /\
    Inv m (R ++ asserts root top_level) e' /\ more m e e'.
Proof.
  intros Im I V. unfold cnf_encode, asserts. destruct (Z.eqb_spec root 0) as [-> | Nr].
  { exists e. rewrite andb_false_r, app_nil_r. split; [reflexivity |]. split; [reflexivity |].
    split; [exact I | reflexivity]. }
  destruct V as [? | V]; [congruence |]. rewrite andb_true_r.
  destruct top_level; cbn [negb].
  2:{ destruct (encode_subtree_spec m R root e Im I V) as (e' & E & S & _ & I' & _ & M).
      exists e'. rewrite app_nil_r. auto. }
  set (e1 := set_leaves [] (set_stack (root :: stack e) e)).
  assert (F1 : Flat m root (stack e) e [root] e1).
  { constructor; unfold e1; cbn.
    - reflexivity.
    - apply Forall_one, V.
    - constructor.
    - intros b Hb. rewrite (iv_visited _ _ _ I), (iv_touched _ _ _ I) by exact Hb. split; [discriminate | intros []].
    - rewrite (iv_touched _ _ _ I). split; constructor.
    - intros l Vl Sl. unfold seen in Sl. rewrite (iv_visited _ _ _ I) in Sl; [discriminate |].
      pose proof (visit_bit_range m l Vl). lia.
    - auto.
    - intros env E. apply Forall_one, E.
    - repeat split. }
  destruct (flatten_loop_spec m root (stack e) e Im Nr (flatten_fuel m) [root] e1 F1) as (e2 & E2 & F2).
  { unfold flat_measure, flatten_fuel. cbn [length]. lia. }
  rewrite E2. cbn [mbind option_bind].
  pose proof (fl_rest _ _ _ _ _ _ F2) as (Re & Rc & Rv & Rnc & Rnl).
  assert (A : alike (set_visit (visited (clear_touched e2)) [] e) (clear_touched e2)).
  { unfold clear_touched, alike. cbn. rewrite Re. repeat split; auto. }
  assert (I2 : Inv m R (clear_touched e2)).
  { apply (alike_inv m R _ _ A). pose proof I as [D So Va Cn Li Rv' Vis To].
    constructor; [| exact So | exact Va | exact Cn | exact Li | exact Rv' | | reflexivity].
    - intros i Hi Oi. destruct (D i Hi Oi) as [Vi Di]. split; [exact Vi |].
      eapply defined_more; [| | exact Di]; [intros j Oj; exact Oj | apply incl_refl].
    - exact (clear_touched_spec m root (stack e) e e2 F2). }
  destruct (assert_leaves_spec m Im (leaves (clear_touched e2)) R (clear_touched e2) I2)
    as (e3 & E3 & S3 & I3 & _ & M3).
  { exact (fl_leaves _ _ _ _ _ _ F2). }
  exists e3. split; [exact E3 |].
  split; [rewrite S3; exact (fl_stack _ _ _ _ _ _ F2) |]. split.
  - pose proof I3 as [D So Va Cn Li Rv' Vis To]. constructor; auto.
    + intros env. rewrite So, !List.Forall_app.
      rewrite <- (flat_leaves m root (stack e) e e2 env Im V F2).
      rewrite Forall_cons_iff, Forall_nil_iff. tauto.
    + apply List.Forall_app in Rv' as [Rv' _]. apply List.Forall_app.
      split; [exact Rv' | apply Forall_one, V].
  - etransitivity; [| exact M3]. destruct (alike_more m _ _ A) as (Ao & Ac & An).
    split; [exact Ao |]. split; [exact Ac | exact An].
Qed.

(** ** Sessions: encodings interleaved with growth of the graph *)

Inductive session : aig -> list Z -> enc -> Prop :=
| ses_new m : inv m -> session m [] cnf_new
| ses_grow m m' R e : session m R e -> grown m m' -> session m' R e
| ses_encode m R e root top_level e' :
    session m R e -> root = 0 \/ valid m root -> cnf_encode m root top_level e = Some e' ->
    session m (R ++ asserts root top_level) e'.

Lemma inv_new m : Inv m [] cnf_new.
Proof.
  constructor; cbn.
  - intros i Hi O. apply on_spec in O; [| exact Hi]. unfold bm_get in O. cbn [encoded cnf_new] in O.
    rewrite nth_overflow, Z.shiftr_0_l in O by (cbn; lia). discriminate.
  - intros env. split; constructor.
  - unfold cnt. cbn [encoded cnf_new]. rewrite filter_none; [reflexivity |].
    intros i _. unfold bm_get. rewrite nth_overflow, Z.shiftr_0_l by (cbn; lia). reflexivity.
  - auto.
  - constructor.
  - constructor.
  - intros b _. unfold bm_get. rewrite nth_overflow, Z.shiftr_0_l by (cbn; lia). reflexivity.
  - reflexivity.
Qed.

Lemma inv_grown m m' R e : grown m m' -> Inv m R e -> Inv m' R e.
Proof.
  intros G I. pose proof I as [D So Va Cn Li Rv Vis To]. constructor; auto.
  - intros i Hi Oi. destruct (D i Hi Oi) as [V Df]. split; [eapply grown_valid; eauto |].
    assert (Ev : forall env l, 0 < Z.abs l <= Z.abs i -> eval m' env l = eval m env l)
      by (intros; apply grown_eval; unfold valid in *; auto; lia).
    unfold valid in V. destruct Df as [? ? | E | l r | c a b].
    + apply def_true; auto.
    + apply def_input. intros env. rewrite Ev by lia. apply E.
    + apply (def_and _ _ _ l r); auto. intros env. rewrite !Ev by lia. auto.
    + apply (def_ite _ _ _ c a b); auto. intros env. rewrite !Ev by lia. auto.
  - intros env. etransitivity; [| etransitivity; [apply (So env) |]].
    + unfold models. rewrite !List.Forall_forall. rewrite List.Forall_forall in Li.
      assert (Sc : forall c, In c (clauses e) ->
        sat_clause (eval m' env) c <-> sat_clause (eval m env) c).
      { intros c Hc. unfold sat_clause. specialize (Li c Hc). rewrite List.Forall_forall in Li.
        rewrite !existsb_exists. split; intros (l & Hin & Hl); exists l; (split; [exact Hin |]);
          destruct (Li l Hin) as [Nl Ol]; destruct (D l Nl Ol) as [Vl _];
          rewrite holds_eval in * by exact Nl; rewrite <- Hl;
          [symmetry |]; apply grown_eval; auto. }
      split; intros H c Hc; apply Sc; auto.
    + rewrite !List.Forall_forall. rewrite List.Forall_forall in Rv.
      split; intros H r Hr; rewrite <- (H r Hr); [| symmetry]; apply grown_eval; auto.
  - rewrite Va. f_equal. unfold cnt.
    destruct G as (_ & [ws E] & _).
    assert (Ln : length (nodes m') = (length (nodes m) + length ws)%nat)
      by (rewrite <- !gates_length, E, length_app; lia).
    rewrite Ln, seq_app, List.filter_app, length_app.
    rewrite (filter_none _ (seq _ (length ws))); [cbn; lia |].
    intros i Hi. apply in_seq in Hi. apply not_true_is_false. intros B.
    assert (O : on e (Z.of_nat i + 1)).
    { apply on_spec; [lia |]. replace (Z.abs (Z.of_nat i + 1) - 1) with (Z.of_nat i) by lia. exact B. }
    destruct (D (Z.of_nat i + 1) ltac:(lia) O) as [V _]. unfold valid, nodes_size in V. lia.
  - eapply List.Forall_impl; [| exact Rv]. intros r Hr. eapply grown_valid; eauto.
Qed.

Lemma session_inv m R e : session m R e -> inv m /\ Inv m R e.
Proof.
  induction 1 as [m Im | m m' R e S [Im I] G | m R e root tl e' S [Im I] V E].
  - split; [exact Im | apply inv_new].
  - split; [exact (grown_inv _ _ G) | eapply inv_grown; eauto].
  - split; [exact Im |]. destruct (cnf_encode_spec m R root tl e Im I V) as (e2 & E2 & _ & I2 & _).
    rewrite E in E2. injection E2 as <-. exact I2.
Qed.

(** One encoding of a negated input. *)
Lemma two_session : exists e, clauses e = [[-3]] /\ session two_inputs [-3] e.
Proof.
  assert (C : option_map clauses (cnf_encode two_inputs (-3) true cnf_new) = Some [[-3]])
    by (vm_compute; reflexivity).
  pose proof (ses_encode two_inputs [] cnf_new (-3) true) as E. revert C E.
  generalize (cnf_encode two_inputs (-3) true cnf_new). intros [e |] C E; [| discriminate C].
  exists e. split; [injection C as C; exact C |].
  apply (E e (ses_new _ two_inputs_inv)); [| reflexivity].
  right. apply (two_inputs_valid (-3)). lia.
Qed.

(** * Properties *)

(** C35: the encoding terminates and keeps its invariant.  On a well-formed
    graph, [cnf_encode] of NULL or of any valid literal, asserted or not,
    returns within its fuel; the stack and the visit map are as before, the
    counters equal the encoded nodes, clauses and literals, and nothing
    encoded before is lost. *)
Theorem cnf_encode_total m R root top_level e :
  inv m -> Inv m R e -> root = 0 \/ valid m root ->
  exists e', cnf_encode m root top_level e = Some e' /\ stack e' = stack e /\
    num_vars e' = Z.of_nat (cnt m e') /\
    num_clauses e' = Z.of_nat (length (clauses e')) /\
    num_literals e' = Z.of_nat (length (concat (clauses e'))) /\
    (forall b, 0 <= b -> bm_get (visited e') b = false) /\
    (forall i, on e i -> on e' i) /\ incl (clauses e) (clauses e') /\
    Inv m (R ++ asserts root top_level) e'.
Proof.
  intros Im I V. destruct (cnf_encode_spec m R root top_level e Im I V) as (e' & E & S & I' & Mo & Mc & _).
  exists e'. split; [exact E |]. split; [exact S |]. split; [apply (iv_vars _ _ _ I') |].
  split; [apply (iv_counts _ _ _ I') |]. split; [apply (iv_counts _ _ _ I') |].
  split; [apply (iv_visited _ _ _ I') |]. auto.
Qed.

Lemma cnf_encode_total_witness :
  exists e', cnf_encode two_inputs (-3) true cnf_new = Some e' /\ stack e' = [].
Proof.
  destruct (cnf_encode_total two_inputs [] (-3) true cnf_new two_inputs_inv
    (inv_new two_inputs) (or_intror (two_inputs_valid (-3) ltac:(lia)))) as (e' & E & S & _).
  exists e'. split; [exact E | exact S].
Defined.

(** C36: the encoding is correct.  After any session of encodings, interleaved
    with growth of the graph, every model of the clauses makes all asserted
    roots true in the graph under the inputs it assigns and agrees with the
    graph on every encoded literal, and every assignment of the inputs that
    makes the asserted roots true extends to a model: the node values. *)
Theorem cnf_correct m R e :
  session m R e ->
  (forall s, models s (clauses e) ->
    Forall (fun r => eval m s r = true) R /\
    forall i, i <> 0 -> on e i -> holds s i = eval m s i) /\
  (forall env, Forall (fun r => eval m env r = true) R -> models (eval m env) (clauses e)).
Proof.
  intros S. destruct (session_inv _ _ _ S) as [Im I]. split.
  - intros s M. pose proof (model_agrees m R e s Im I M) as Ag. split; [| exact Ag].
    apply (iv_sound _ _ _ I s). unfold models in *. rewrite List.Forall_forall in *.
    intros c Hc. specialize (M c Hc). unfold sat_clause in *. rewrite existsb_exists in *.
    destruct M as (l & Hin & Hl). exists l. split; [exact Hin |].
    pose proof (iv_lits _ _ _ I) as Li. rewrite List.Forall_forall in Li. specialize (Li c Hc).
    rewrite List.Forall_forall in Li. destruct (Li l Hin) as [Nl Ol].
    rewrite holds_eval, <- Ag; auto.
  - intros env. apply (iv_sound _ _ _ I env).
Qed.

Lemma cnf_correct_witness : models (eval two_inputs (fun v => v =? 2)) [[-3]].
Proof.
  destruct two_session as (e & <- & S). apply (proj2 (cnf_correct two_inputs [-3] e S)).
  constructor; [reflexivity | constructor].
Defined.

(** Reading a model back.  When the SAT layer's values are a model of the
    session's clauses, [cnf_value] of an encoded or constant literal is 1 or
    -1 as the literal is true or false in the graph under that model, and it
    is 0 exactly on the literals [cnf_is_free] reports. *)
Theorem cnf_value_correct m R e sat_value node :
  session m R e -> node <> 0 ->
  let s := fun v => sat_value v >? 0 in
  models s (clauses e) ->
  (cnf_value sat_value e node = 0 <-> cnf_is_free e node = true) /\
  (cnf_is_free e node = false ->
   cnf_value sat_value e node = if eval m s node then 1 else -1).
Proof.
  intros S Hn s M. destruct (session_inv _ _ _ S) as [Im I].
  pose proof (model_agrees m R e s Im I M) as Ag.
  unfold cnf_value, cnf_is_free.
  destruct (Z.eqb_spec node TRUE) as [-> | Nt].
  { cbn [orb]. rewrite eval_true by exact Im. split; [split; discriminate | reflexivity]. }
  destruct (Z.eqb_spec node FALSE) as [-> | Nf].
  { cbn [orb]. rewrite eval_false by exact Im. split; [split; discriminate | reflexivity]. }
  cbn [orb]. destruct (is_node_encoded e node) eqn:O; cbn [negb]; [| split; [tauto | discriminate]].
  specialize (Ag node Hn O). rewrite <- Ag. unfold holds, s. split.
  - split; [| discriminate]. destruct (sat_value (Z.abs node) >? 0), (node <? 0); discriminate.
  - intros _. destruct (Z.ltb_spec node 0).
    + rewrite Z.abs_neq by lia. destruct (sat_value (- node) >? 0); reflexivity.
    + rewrite Z.abs_eq by lia. reflexivity.
Qed.

Lemma cnf_value_correct_witness :
  cnf_value (fun _ => 1) cnf_new (-1) =
    if eval two_inputs (fun v => (fun _ => 1) v >? 0) (-1) then 1 else -1.
Proof.
  apply (cnf_value_correct two_inputs [] cnf_new (fun _ => 1) (-1) (ses_new _ two_inputs_inv)).
  - discriminate.
  - constructor.
  - reflexivity.
Defined.

End Cnf.
