(* ===== verification/Alloc.v ===== *)
(** * Alloc: block allocator and bump stack
    (src/src/c/dvs_block_alloc.c, dvs_stack.c, dvs_stack.h)

    The block allocator recycles equal-sized blocks of a backing allocator; the
    stack vends memory by bumping an offset in the newest block of a chain and
    gives whole blocks back on a pop.  The backing allocator is a parameter: a
    function from the live regions and a size to an address or a refusal, with
    the contract of [malloc] as the hypothesis.  Linked lists threaded through
    blocks and records are lists of addresses. *)

From Stdlib Require Import ZArith Lia Bool.
From stdpp Require Import base list numbers.
From S2P Require Import Prelude.
Open Scope Z_scope.

Module Mem.

(** A live region: address and size. *)
Definition region : Type := Z * Z.
Definition apart (r s : region) : Prop := fst r + snd r <= fst s \/ fst s + snd s <= fst r.

(** [dvs_alloc_t.release]: the region at an address is no longer live. *)
Fixpoint release (h : list region) (a : Z) : list region :=
  match h with
  | [] => []
  | r :: h => if fst r =? a then h else r :: release h a
  end.

(** [struct dvs_block_alloc_s] and the live regions of its backing allocator;
    a record of [all_list] is its own address and its block. *)
Record ba := mk_ba {
  self : Z;
  heap : list region;
  block_size : Z;
  free_list : list Z;
  free_count : Z;
  max_cached : Z;
  all_list : list (Z * Z) }.

Definition sizeof_ba : Z := 48.
Definition sizeof_rec : Z := 16.
Definition sizeof_free_node : Z := 8.

Section Backing.
(** [dvs_alloc_t.alloc] *)
Context (malloc : list region -> Z -> option Z).

Definition ba_create (h : list region) (block_size : Z) : option ba :=
  let block_size := if block_size =? 0 then 4096 else block_size in
  let block_size := if block_size <? sizeof_free_node then sizeof_free_node else block_size in
  match malloc h sizeof_ba with
  | None => None
  | Some a => Some (mk_ba a ((a, sizeof_ba) :: h) block_size [] 0 0 [])
  end.

Definition ba_get (m : ba) : option Z * ba :=
  match free_list m with
  | node :: fl =>
      (Some node, mk_ba (self m) (heap m) (block_size m) fl (free_count m - 1) (max_cached m)
                    (all_list m))
  | [] =>
      match malloc (heap m) (block_size m) with
      | None => (None, m)
      | Some block =>
          let h := (block, block_size m) :: heap m in
          match malloc h sizeof_rec with
          | None =>
              (None, mk_ba (self m) (release h block) (block_size m) (free_list m)
                       (free_count m) (max_cached m) (all_list m))
          | Some rec =>
              (Some block, mk_ba (self m) ((rec, sizeof_rec) :: h) (block_size m) (free_list m)
                             (free_count m) (max_cached m) ((rec, block) :: all_list m))
          end
      end
  end.

(** [_all_list_remove]: the heap and the records after dropping [block]'s. *)
Fixpoint all_list_remove (h : list region) (l : list (Z * Z)) (block : Z)
    : list region * list (Z * Z) :=
  match l with
  | [] => (h, [])
  | (rec, b) :: l =>
      if b =? block then (release h rec, l) else
      let '(h, l') := all_list_remove h l block in (h, (rec, b) :: l')
  end.

(** Drop a block's record and hand the block back to the system. *)
Definition drop_block (m : ba) (block : Z) : ba :=
  let '(h, l) := all_list_remove (heap m) (all_list m) block in
  mk_ba (self m) (release h block) (block_size m) (free_list m) (free_count m)
    (max_cached m) l.

Definition ba_put (m : ba) (block : Z) : ba :=
  if negb (max_cached m =? 0) && (free_count m >=? max_cached m) then drop_block m block
  else mk_ba (self m) (heap m) (block_size m) (block :: free_list m) (free_count m + 1)
         (max_cached m) (all_list m).

Definition set_max_cached (m : ba) (n : Z) : ba :=
  mk_ba (self m) (heap m) (block_size m) (free_list m) (free_count m) n (all_list m).

(** [while (free_count > target && free_list)]: one node per round. *)
Fixpoint trim_loop (fuel : nat) (m : ba) (target : Z) : ba :=
  match fuel, free_list m with
  | S f, node :: fl =>
      if free_count m >? target then
        trim_loop f (drop_block (mk_ba (self m) (heap m) (block_size m) fl (free_count m - 1)
                                   (max_cached m) (all_list m)) node) target
      else m
  | _, _ => m
  end.

Definition ba_trim (m : ba) (target : Z) : ba := trim_loop (length (free_list m)) m target.

(** What is still live once everything has been released. *)
Definition ba_destroy (m : ba) : list region :=
  release (fold_left (fun h r => release (release h (snd r)) (fst r)) (all_list m) (heap m))
    (self m).

(** ** The bump stack *)

(** [struct dvs_stack_s]; [chain] lists the blocks held, newest first. *)
Record stack := mk_stack { block_alloc : ba; chain : list Z; intra : Z; block_count : Z }.

Definition BLOCK_HDR_SZ : Z := 8.
Definition stack_create (m : ba) : stack := mk_stack m [] 0 0.
Definition block_capacity (s : stack) : Z := block_size (block_alloc s) - BLOCK_HDR_SZ.

Definition acquire_block (s : stack) : option Z * stack :=
  match ba_get (block_alloc s) with
  | (None, m) => (None, mk_stack m (chain s) (intra s) (block_count s))
  | (Some blk, m) => (Some blk, mk_stack m (blk :: chain s) 0 (block_count s + 1))
  end.

(** [(base + mask) & ~mask] on [size_t] *)
Definition align_up (base align : Z) : Z :=
  if align >? 1 then Z.land (u64 (base + (align - 1))) (u64 (Z.lnot (align - 1))) else base.

Definition stack_alloc (s : stack) (bytes align : Z) : option Z * stack :=
  let align := if align <? 1 then 1 else align in
  let fresh :=
    let needed := u64 (bytes + (align - 1)) in
    if u64 (needed + BLOCK_HDR_SZ) >? block_size (block_alloc s) then (None, s) else
    match acquire_block s with
    | (None, s) => (None, s)
    | (Some blk, s) =>
        let base :=
          if align >? 1 then
            let addr := blk + BLOCK_HDR_SZ in
            let mask := align - 1 in
            Z.land (align - Z.land addr mask) mask
          else 0 in
        (Some (blk + BLOCK_HDR_SZ + base),
         mk_stack (block_alloc s) (chain s) (u64 (base + bytes)) (block_count s))
    end in
  match chain s with
  | [] => fresh
  | cur_block :: _ =>
      let base := align_up (intra s) align in
      if u64 (base + bytes) <=? block_capacity s then
        (Some (cur_block + BLOCK_HDR_SZ + base),
         mk_stack (block_alloc s) (chain s) (u64 (base + bytes)) (block_count s))
      else fresh
  end.

(** [dvs_stack_mark_t]: the block current at the push and the offset, cut to
    32 bits. *)
Definition mark : Type := option Z * Z.
Definition stack_push (s : stack) : mark := (hd_error (chain s), u32 (intra s)).

Fixpoint pop_blocks (m : ba) (blocks : list Z) (count : Z) (stop : option Z)
    : ba * list Z * Z :=
  match blocks with
  | [] => (m, [], count)
  | blk :: prev =>
      if bool_decide (Some blk = stop) then (m, blocks, count)
      else pop_blocks (ba_put m blk) prev (count - 1) stop
  end.

Definition stack_pop (s : stack) (mk : mark) : stack :=
  let '(m, c, n) := pop_blocks (block_alloc s) (chain s) (block_count s) (fst mk) in
  mk_stack m c (snd mk) n.

(** [dvs_stack_destroy] *)
Definition stack_destroy (s : stack) : ba :=
  fold_left ba_put (chain s) (block_alloc s).
End Backing.

(** A bump allocator for the examples: above every live region, 16-aligned. *)
Definition bump_malloc (h : list region) (size : Z) : option Z :=
  Some (16 * (1 + fold_right (fun r acc => Z.max (fst r + snd r) acc) 0 h / 16)).

(** Two 24-byte cells fit a 64-byte block, the third opens a second block. *)
Example stack_cells :
  match ba_create bump_malloc [] 64 with
  | Some m =>
      let s := stack_create m in
      let '(p, s) := stack_alloc bump_malloc s 24 8 in
      let mk := stack_push s in
      let '(q, s) := stack_alloc bump_malloc s 24 8 in
      let '(r, s) := stack_alloc bump_malloc s 24 8 in
      let s' := stack_pop s mk in
      (p, q, r, chain s, chain s', intra s', free_list (block_alloc s'))
  | None => (None, None, None, [], [], 0, [])
  end = (Some 88, Some 112, Some 200, [192; 80], [80], 24, [192]).
Proof. vm_compute. reflexivity. Qed.

(** ** Regions *)

(** Live regions: non-empty, at distinct addresses, pairwise apart. *)
Definition regions_ok (h : list region) : Prop :=
  NoDup (map fst h) /\ Forall (fun r => 0 < snd r) h /\
  forall r s, r ∈ h -> s ∈ h -> r <> s -> apart r s.

Lemma regions_ok_perm h h' : h ≡ₚ h' -> regions_ok h -> regions_ok h'.
Proof.
  intros P (N & F & A). split; [rewrite <- P; exact N |]. split; [rewrite <- P; exact F |].
  intros r s Hr Hs. apply A; rewrite P; assumption.
Qed.

Lemma regions_ok_sub h h' : h ≡ₚ h' -> forall g k, h' = g ++ k -> regions_ok h -> regions_ok k.
Proof.
  intros P g k -> R. apply (regions_ok_perm _ _ P) in R as (N & F & A).
  rewrite map_app in N. apply list.NoDup_app in N as (_ & _ & N).
  apply Forall_app in F as [_ F]. split; [exact N |]. split; [exact F |].
  intros r s Hr Hs. apply A; apply elem_of_app; auto.
Qed.

Lemma release_perm h r : NoDup (map fst h) -> r ∈ h -> h ≡ₚ r :: release h (fst r).
Proof.
  induction h as [| q h IH]; intros N Hr; [inversion Hr |]. cbn [map release] in *.
  apply list.NoDup_cons in N as [Nq N]. apply elem_of_cons in Hr as [-> | Hr].
  - rewrite Z.eqb_refl. reflexivity.
  - destruct (Z.eqb_spec (fst q) (fst r)) as [E | _].
    + destruct Nq. rewrite E. apply list_elem_of_fmap_2, Hr.
    + rewrite (IH N Hr) at 1. constructor.
Qed.

Lemma release_spec h r h' : regions_ok h -> h ≡ₚ r :: h' -> release h (fst r) ≡ₚ h'.
Proof.
  intros (N & _) P. apply (Permutation_cons_inv (a := r)). rewrite <- P. symmetry.
  apply release_perm; [exact N |]. rewrite P. apply list_elem_of_here.
Qed.

(** The contract of [malloc]: a non-NULL, 16-aligned region apart from every
    live one. *)
Definition malloc_ok (malloc : list region -> Z -> option Z) : Prop :=
  forall h size a, malloc h size = Some a ->
    0 < a /\ a mod 16 = 0 /\ forall r, r ∈ h -> apart (a, size) r.

Lemma regions_ok_cons malloc h size a :
  malloc_ok malloc -> malloc h size = Some a -> 0 < size -> regions_ok h ->
  regions_ok ((a, size) :: h).
Proof.
  intros M E Hs (N & F & A). destruct (M h size a E) as (_ & _ & Ap).
  split; [| split].
  - cbn. constructor; [| exact N]. intros Hin. apply list_elem_of_fmap in Hin as (r & Er & Hr).
    specialize (Ap r Hr). rewrite list.Forall_forall in F. specialize (F r Hr).
    unfold apart in Ap. cbn in *. lia.
  - constructor; auto.
  - intros r s Hr Hs' Ne. apply elem_of_cons in Hr. apply elem_of_cons in Hs'.
    destruct Hr as [-> | Hr], Hs' as [-> | Hs']; [congruence | auto | | auto].
    specialize (Ap r Hr). unfold apart in *. cbn in *. tauto.
Qed.

(** ** The block allocator's ledger *)

(** [U]: the blocks the clients hold; [h0]: the regions live before. *)
Definition block_regions (m : ba) (bs : list Z) : list region :=
  map (fun b => (b, block_size m)) bs.
Definition rec_regions (m : ba) : list region :=
  map (fun r => (fst r, sizeof_rec)) (all_list m).

Record ledger (m : ba) (U : list Z) (h0 : list region) : Prop := {
  lg_blocks : map snd (all_list m) ≡ₚ free_list m ++ U;
  lg_heap : heap m ≡ₚ (self m, sizeof_ba) ::
    block_regions m (free_list m ++ U) ++ rec_regions m ++ h0;
  lg_ok : regions_ok (heap m);
  lg_count : free_count m = Z.of_nat (length (free_list m));
  lg_size : sizeof_free_node <= block_size m;
  lg_aligned : Forall (fun b => 0 < b /\ b mod 16 = 0) (free_list m ++ U) }.

Lemma ledger_nodup m U h0 : ledger m U h0 -> NoDup (free_list m ++ U).
Proof.
  intros L. destruct (lg_ok _ _ _ L) as (N & _). rewrite (lg_heap _ _ _ L) in N.
  cbn in N. apply list.NoDup_cons in N as [_ N]. rewrite map_app in N.
  apply list.NoDup_app in N as (N & _). unfold block_regions in N.
  rewrite map_map in N. cbn in N. rewrite map_id in N. exact N.
Qed.

Lemma ledger_perm m U U' h0 : U ≡ₚ U' -> ledger m U h0 -> ledger m U' h0.
Proof.
  intros P [B H O C S A]. constructor; auto.
  - rewrite <- P. exact B.
  - unfold block_regions in *. rewrite <- P. exact H.
  - rewrite <- P. exact A.
Qed.

(** Two blocks in hand never overlap. *)
Lemma ledger_apart m U h0 b c :
  ledger m U h0 -> b ∈ U -> c ∈ U -> b <> c -> apart (b, block_size m) (c, block_size m).
Proof.
  intros L Hb Hc Ne. destruct (lg_ok _ _ _ L) as (_ & _ & A).
  assert (In : forall x, x ∈ U -> (x, block_size m) ∈ heap m).
  { intros x Hx. rewrite (lg_heap _ _ _ L). apply list_elem_of_further, elem_of_app. left.
    unfold block_regions. rewrite map_app. apply elem_of_app. right.
    apply (list_elem_of_fmap_2 (fun b => (b, block_size m))), Hx. }
  apply A; auto. congruence.
Qed.

Section Ledger.
Context (malloc : list region -> Z -> option Z) (Hm : malloc_ok malloc).

Lemma ba_create_ledger h0 size m :
  regions_ok h0 -> ba_create malloc h0 size = Some m -> ledger m [] h0.
Proof.
  unfold ba_create. intros R. destruct (malloc h0 sizeof_ba) as [a |] eqn:E; [| discriminate].
  intros [= <-]. constructor; cbn.
  - constructor.
  - reflexivity.
  - eapply regions_ok_cons; eauto. reflexivity.
  - reflexivity.
  - destruct (if size =? 0 then 4096 else size) eqn:Q; cbn; try (unfold sizeof_free_node; lia);
      destruct (Z.ltb_spec (Z.pos p) sizeof_free_node); unfold sizeof_free_node in *; lia.
  - constructor.
Qed.

Lemma ba_get_ledger m U h0 :
  ledger m U h0 ->
  match ba_get malloc m with
  | (Some b, m') => ledger m' (b :: U) h0 /\ block_size m' = block_size m
  | (None, m') => ledger m' U h0 /\ block_size m' = block_size m
  end.
Proof.
  intros L. pose proof L as [B H O C S A]. unfold ba_get.
  destruct (free_list m) as [| node fl] eqn:Fl.
  2:{ split; [| reflexivity]. constructor; cbn.
      - rewrite B. cbn. apply Permutation_middle.
      - etrans; [exact H |]. unfold block_regions, rec_regions. cbn [block_size all_list].
        cbn [app]. rewrite <- Permutation_middle. reflexivity.
      - exact O.
      - rewrite C. cbn [length]. lia.
      - exact S.
      - rewrite <- Permutation_middle. exact A. }
  destruct (malloc (heap m) (block_size m)) as [b |] eqn:E1; [| auto].
  assert (O1 : regions_ok ((b, block_size m) :: heap m))
    by (eapply regions_ok_cons; eauto; unfold sizeof_free_node in S; lia).
  destruct (malloc ((b, block_size m) :: heap m) sizeof_rec) as [rec |] eqn:E2.
  - split; [| reflexivity]. constructor; cbn [all_list free_list heap block_size self].
    + cbn. rewrite B. cbn. reflexivity.
    + etrans; [do 2 apply Permutation_skip; exact H |].
      unfold block_regions, rec_regions. cbn. solve_Permutation.
    + eapply regions_ok_cons; eauto. reflexivity.
    + exact C.
    + exact S.
    + cbn. constructor; [| exact A]. destruct (Hm _ _ _ E1) as (? & ? & _). auto.
  - split; [| reflexivity]. cbn [release fst]. rewrite Z.eqb_refl, <- Fl.
    destruct m. exact L.
Qed.

Lemma all_list_remove_spec h l b :
  NoDup (map snd l) -> b ∈ map snd l ->
  exists rec l', all_list_remove h l b = (release h rec, l') /\ l ≡ₚ (rec, b) :: l'.
Proof.
  induction l as [| [r c] l IH]; intros N Hb; [inversion Hb |]. cbn [all_list_remove map snd] in *.
  destruct (Z.eqb_spec c b) as [-> | Ne].
  - exists r, l. split; reflexivity.
  - apply elem_of_cons in Hb as [-> | Hb]; [congruence |].
    apply list.NoDup_cons in N as [_ N]. destruct (IH N Hb) as (rec & l' & -> & P).
    exists rec, ((r, c) :: l'). split; [reflexivity |]. rewrite P. constructor.
Qed.

Lemma drop_block_ledger m U h0 b :
  ledger m (b :: U) h0 -> ledger (drop_block m b) U h0 /\
    free_list (drop_block m b) = free_list m /\ block_size (drop_block m b) = block_size m.
Proof.
  intros L. pose proof (ledger_nodup _ _ _ L) as ND. pose proof L as [B H O C S A].
  unfold drop_block. destruct (all_list_remove_spec (heap m) (all_list m) b) as (rec & l' & -> & P).
  { rewrite B. exact ND. }
  { rewrite B. apply elem_of_app. right. apply list_elem_of_here. }
  split; [| auto].
  assert (H1 : heap m ≡ₚ (rec, sizeof_rec) :: (b, block_size m) :: (self m, sizeof_ba) ::
    block_regions m (free_list m ++ U) ++ map (fun r => (fst r, sizeof_rec)) l' ++ h0).
  { etrans; [exact H |]. unfold rec_regions, block_regions.
    rewrite P, !map_app. cbn. solve_Permutation. }
  pose proof (release_spec _ _ _ O H1) as H2. cbn [fst] in H2.
  assert (O2 : regions_ok (release (heap m) rec)).
  { apply (regions_ok_perm _ _ (symmetry H2)).
    eapply (regions_ok_sub _ _ H1 [_]); [reflexivity | exact O]. }
  pose proof (release_spec _ _ _ O2 H2) as H3. cbn [fst] in H3.
  constructor; cbn.
  - apply (Permutation_cons_inv (a := b)).
    transitivity (map snd (all_list m)); [rewrite P; reflexivity |].
    rewrite B. symmetry. apply Permutation_middle.
  - rewrite H3. reflexivity.
  - apply (regions_ok_perm _ _ (symmetry H3)).
    eapply (regions_ok_sub _ _ H2 [_]); [reflexivity | exact O2].
  - exact C.
  - exact S.
  - rewrite <- Permutation_middle in A. apply Forall_inv_tail in A. exact A.
Qed.

Lemma ba_put_ledger m U h0 b :
  ledger m (b :: U) h0 -> ledger (ba_put m b) U h0 /\ block_size (ba_put m b) = block_size m.
Proof.
  intros L. unfold ba_put. destruct (_ && _).
  - destruct (drop_block_ledger m U h0 b L) as (L' & _ & E). auto.
  - split; [| reflexivity]. destruct L as [B H O C S A]. constructor; cbn.
    + rewrite B. symmetry. apply Permutation_middle.
    + etrans; [exact H |]. unfold block_regions, rec_regions. cbn.
      rewrite <- Permutation_middle. reflexivity.
    + exact O.
    + rewrite C. cbn [length]. lia.
    + exact S.
    + change (b :: free_list m ++ U) with ((b :: free_list m) ++ U).
      cbn. rewrite <- Permutation_middle in A. exact A.
Qed.

Lemma ba_trim_ledger m U h0 target :
  ledger m U h0 -> ledger (ba_trim m target) U h0 /\
  (0 <= target -> free_count (ba_trim m target) = Z.min (free_count m) target).
Proof.
  unfold ba_trim. intros L.
  assert (G : forall n m, n = length (free_list m) -> ledger m U h0 ->
    ledger (trim_loop n m target) U h0 /\
    (0 <= target -> free_count (trim_loop n m target) = Z.min (free_count m) target)).
  { clear m L. induction n as [| n IH]; intros m Hn L; cbn [trim_loop].
    - split; [exact L |]. intros Ht. rewrite (lg_count _ _ _ L), <- Hn. lia.
    - destruct (free_list m) as [| node fl] eqn:Fl; [discriminate |]. cbn in Hn.
      pose proof (lg_count _ _ _ L) as C. rewrite Fl in C. cbn [length] in C.
      destruct (Z.gtb_spec (free_count m) target); [| split; [exact L | lia]].
      set (m1 := mk_ba _ _ _ _ _ _ _).
      assert (L1 : ledger m1 (node :: U) h0).
      { pose proof (ba_get_ledger m U h0 L) as G. unfold ba_get in G. rewrite Fl in G.
        exact (proj1 G). }
      destruct (drop_block_ledger m1 U h0 node L1) as (L2 & F2 & _).
      destruct (IH (drop_block m1 node)) as (L3 & F3); [rewrite F2; cbn; lia | exact L2 |].
      split; [exact L3 |]. intros Ht. rewrite F3 by exact Ht.
      rewrite (lg_count _ _ _ L2), F2. cbn [free_list m1]. unfold m1. cbn. lia. }
  apply G; auto.
Qed.

Lemma ba_destroy_live m U h0 : ledger m U h0 -> ba_destroy m ≡ₚ h0.
Proof.
  intros [B H O C S A]. unfold ba_destroy.
  assert (G : forall l h k,
    h ≡ₚ map (fun b => (b, block_size m)) (map snd l) ++
         map (fun r => (fst r, sizeof_rec)) l ++ k -> regions_ok h ->
    let h' := fold_left (fun h r => release (release h (snd r)) (fst r)) l h in
    h' ≡ₚ k /\ regions_ok h').
  { induction l as [| [r b] l IH]; intros h k P R; [auto |]. cbn [fold_left fst snd].
    assert (P1 : h ≡ₚ (b, block_size m) :: (r, sizeof_rec) ::
      map (fun b => (b, block_size m)) (map snd l) ++ map (fun r => (fst r, sizeof_rec)) l ++ k)
      by (rewrite P; cbn; solve_Permutation).
    pose proof (release_spec _ _ _ R P1) as P2. cbn [fst] in P2.
    assert (R2 : regions_ok (release h b)).
    { apply (regions_ok_perm _ _ (symmetry P2)).
      eapply (regions_ok_sub _ _ P1 [_]); [reflexivity | exact R]. }
    pose proof (release_spec _ _ _ R2 P2) as P3. cbn [fst] in P3.
    apply IH; [exact P3 |]. apply (regions_ok_perm _ _ (symmetry P3)).
    eapply (regions_ok_sub _ _ P2 [_]); [reflexivity | exact R2]. }
  destruct (G (all_list m) (heap m) ((self m, sizeof_ba) :: h0)) as [P R]; [| exact O |].
  - etrans; [exact H |]. rewrite B. unfold block_regions, rec_regions. solve_Permutation.
  - exact (release_spec _ _ _ R P).
Qed.
End Ledger.

(** ** Sessions of the block allocator *)

(** One call by a client that holds [U] and returns only what it holds. *)
Inductive ba_step (malloc : list region -> Z -> option Z) :
    ba * list Z -> ba * list Z -> Prop :=
| step_get m U b m' : ba_get malloc m = (Some b, m') -> ba_step malloc (m, U) (m', b :: U)
| step_get_fail m U m' : ba_get malloc m = (None, m') -> ba_step malloc (m, U) (m', U)
| step_put m U b U' : U ≡ₚ b :: U' -> ba_step malloc (m, U) (ba_put m b, U')
| step_max m U n : ba_step malloc (m, U) (set_max_cached m n, U)
| step_trim m U n : ba_step malloc (m, U) (ba_trim m n, U).

Inductive ba_session (malloc : list region -> Z -> option Z) (m0 : ba) : ba * list Z -> Prop :=
| session_start : ba_session malloc m0 (m0, [])
| session_step c c' : ba_session malloc m0 c -> ba_step malloc c c' -> ba_session malloc m0 c'.

Lemma set_max_cached_ledger m U h0 n : ledger m U h0 -> ledger (set_max_cached m n) U h0.
Proof. intros [B H O C S A]. constructor; assumption. Qed.

Lemma ba_session_ledger malloc h0 size m0 c :
  malloc_ok malloc -> regions_ok h0 -> ba_create malloc h0 size = Some m0 ->
  ba_session malloc m0 c -> ledger (fst c) (snd c) h0.
Proof.
  intros M R E. pose proof (ba_create_ledger malloc M h0 size m0 R E) as L0.
  induction 1 as [| c c' _ IH St]; [exact L0 |].
  destruct St as [m U b m' G | m U m' G | m U b U' P | m U n | m U n]; cbn [fst snd] in *.
  - pose proof (ba_get_ledger malloc M m U h0 IH) as L. rewrite G in L. apply L.
  - pose proof (ba_get_ledger malloc M m U h0 IH) as L. rewrite G in L. apply L.
  - apply ba_put_ledger, (ledger_perm _ _ _ _ P IH).
  - apply set_max_cached_ledger, IH.
  - exact (proj1 (ba_trim_ledger malloc M m U h0 n IH)).
Qed.

(** C37: Whatever a client that returns only blocks it holds asks of the block
    allocator, in any order and with any caching limit, the blocks it holds are
    distinct from each other and from the cached ones, are 16-aligned, do not
    overlap one another, the counter equals the length of the free list, and
    destroying the allocator leaves live exactly the regions that were live
    before it was created. *)
Theorem block_alloc_safe malloc h0 size m0 m U :
  malloc_ok malloc -> regions_ok h0 -> ba_create malloc h0 size = Some m0 ->
  ba_session malloc m0 (m, U) ->
  NoDup (free_list m ++ U) /\
  (forall b, b ∈ U -> 0 < b /\ b mod 16 = 0) /\
  (forall b c, b ∈ U -> c ∈ U -> b <> c -> apart (b, block_size m) (c, block_size m)) /\
  free_count m = Z.of_nat (length (free_list m)) /\
  ba_destroy m ≡ₚ h0.
Proof.
  intros M R E Se. pose proof (ba_session_ledger malloc h0 size m0 _ M R E Se) as L.
  cbn [fst snd] in L. repeat split.
  - apply (ledger_nodup _ _ _ L).
  - pose proof (lg_aligned _ _ _ L) as A. rewrite list.Forall_forall in A.
    apply (A b). apply elem_of_app. auto.
  - pose proof (lg_aligned _ _ _ L) as A. rewrite list.Forall_forall in A.
    apply (A b). apply elem_of_app. auto.
  - intros b c. apply (ledger_apart _ _ _ _ _ L).
  - apply (lg_count _ _ _ L).
  - apply (ba_destroy_live _ _ _ L).
Qed.

(** The example allocator keeps the contract. *)
Lemma bump_malloc_ok : malloc_ok bump_malloc.
Proof.
  intros h size a [= <-].
  set (top := fold_right (fun r acc => Z.max (fst r + snd r) acc) 0 h).
  assert (T : 0 <= top /\ forall r, r ∈ h -> fst r + snd r <= top).
  { subst top. induction h as [| q h [T0 T]]; cbn.
    - split; [lia |]. intros r Hr. inversion Hr.
    - split; [lia |]. intros r Hr. apply elem_of_cons in Hr as [-> | Hr]; [lia |].
      specialize (T r Hr). lia. }
  destruct T as [T0 T]. pose proof (Z.div_mod top 16 ltac:(lia)).
  pose proof (Z.mod_pos_bound top 16 ltac:(lia)). split; [lia |]. split.
  - rewrite Z.mul_comm. apply Z.mod_mul. lia.
  - intros r Hr. right. specialize (T r Hr). cbn [fst]. lia.
Qed.

Lemma regions_ok_nil : regions_ok [].
Proof. split; [constructor | split; [constructor | intros r s' Hr; inversion Hr]]. Qed.

Lemma block_alloc_safe_witness :
  exists m0 m, ba_create bump_malloc [] 64 = Some m0 /\
    ba_session bump_malloc m0 (m, [80]) /\ free_list m = [] /\ ba_destroy m ≡ₚ [].
Proof.
  set (m0 := mk_ba 16 [(16, 48)] 64 [] 0 0 []).
  set (m1 := snd (ba_get bump_malloc m0)). set (m2 := snd (ba_get bump_malloc m1)).
  set (m3 := ba_put m2 192). set (m4 := ba_trim m3 0).
  pose proof (session_step _ _ _ _ (session_start bump_malloc m0)
    (step_get bump_malloc m0 [] 80 m1 eq_refl)) as S1.
  pose proof (session_step _ _ _ _ S1 (step_get bump_malloc m1 [80] 192 m2 eq_refl)) as S2.
  pose proof (session_step _ _ _ _ S2 (step_put bump_malloc m2 [192; 80] 192 [80] (reflexivity _))) as S3.
  pose proof (session_step _ _ _ _ S3 (step_trim bump_malloc m3 [80] 0)) as S4.
  exists m0, m4. split; [reflexivity |]. split; [exact S4 |]. split; [reflexivity |].
  apply (block_alloc_safe bump_malloc [] 64 m0 m4 [80] bump_malloc_ok regions_ok_nil eq_refl S4).
Defined.

(** ** Rounding up *)

Lemma land_le_r x m : 0 <= m -> Z.land x m <= m.
Proof.
  intros Hm. pose proof (Z.sub_land_same_l m x) as E.
  assert (0 <= Z.land m (Z.lnot x)) by (apply Z.land_nonneg; auto).
  rewrite (Z.land_comm x m). lia.
Qed.

(** On offsets without overflow, rounding up clears the mask's bits of
    [base + mask], whatever the mask. *)
Lemma align_up_ldiff base align :
  1 < align < 2 ^ 63 -> 0 <= base < 2 ^ 63 ->
  align_up base align = Z.ldiff (base + (align - 1)) (align - 1).
Proof.
  intros Ha Hb. unfold align_up. destruct (Z.gtb_spec align 1); [| lia].
  unfold u64. rewrite (Z.mod_small (base + (align - 1))) by lia.
  rewrite <- (Z.land_ones _ 64), Z.ldiff_land by lia.
  set (x := base + (align - 1)). rewrite (Z.land_comm (Z.lnot _)), Z.land_assoc.
  rewrite (Z.land_ones x 64), Z.mod_small by (subst x; lia). reflexivity.
Qed.

Lemma align_up_range base align :
  0 < align < 2 ^ 63 -> 0 <= base < 2 ^ 63 ->
  base <= align_up base align <= base + (align - 1).
Proof.
  intros Ha Hb. destruct (Z.eq_dec align 1) as [-> | Ne]; [cbn; lia |].
  rewrite align_up_ldiff by lia. rewrite Z.ldiff_land, <- Z.sub_land_same_l.
  pose proof (land_le_r (base + (align - 1)) (align - 1) ltac:(lia)).
  assert (0 <= Z.land (base + (align - 1)) (align - 1)) by (apply Z.land_nonneg; lia). lia.
Qed.

Lemma align_up_mod base k :
  0 <= k < 63 -> 0 <= base < 2 ^ 63 -> align_up base (2 ^ k) mod 2 ^ k = 0.
Proof.
  intros Hk Hb. pose proof (Z.pow_pos_nonneg 2 k ltac:(lia) ltac:(lia)).
  destruct (Z.eq_dec k 0) as [-> | Ne]; [apply Z.mod_1_r |].
  pose proof (Z.pow_lt_mono_r 2 0 k ltac:(lia) ltac:(lia) ltac:(lia)) as L1.
  pose proof (Z.pow_lt_mono_r 2 k 63 ltac:(lia) ltac:(lia) ltac:(lia)) as L2.
  rewrite align_up_ldiff by lia. replace (2 ^ k - 1) with (Z.ones k) by (rewrite Z.ones_equiv; lia).
  rewrite Z.ldiff_ones_r, Z.shiftl_mul_pow2 by lia. apply Z.mod_mul. lia.
Qed.

(** ** The stack's invariant *)

(** Where the used part of a held block ends. *)
Definition limit (s : stack) (b : Z) : Z :=
  if bool_decide (hd_error (chain s) = Some b) then b + BLOCK_HDR_SZ + intra s
  else b + block_size (block_alloc s).

(** A cell in use lies in a held block, past its header, below its limit. *)
Definition placed (s : stack) (c : region) : Prop :=
  0 <= snd c /\
  exists b, b ∈ chain s /\ b + BLOCK_HDR_SZ <= fst c /\ fst c + snd c <= limit s b.

Record sinv (s : stack) (V : list Z) (h0 : list region) (cells : list region) : Prop := {
  si_ledger : ledger (block_alloc s) (chain s ++ V) h0;
  si_intra : 0 <= intra s <= block_capacity s;
  si_size : block_size (block_alloc s) < 2 ^ 32;
  si_cells : Forall (placed s) cells;
  si_apart : ForallOrdPairs apart cells }.

(** The sizes a caller may ask for without wrapping [size_t]. *)
Definition request_ok (bytes align : Z) : Prop :=
  0 <= bytes < 2 ^ 62 /\ 0 <= align < 2 ^ 62.

Lemma limit_le s V h0 cells b :
  sinv s V h0 cells -> limit s b <= b + block_size (block_alloc s).
Proof.
  intros I. pose proof (si_intra _ _ _ _ I). unfold block_capacity in *. unfold limit.
  destruct (bool_decide _); lia.
Qed.

(** A new cell at or past the used part of the current block. *)
Lemma bump_cell s V h0 cells blk bs base bytes :
  sinv s V h0 cells -> chain s = blk :: bs ->
  intra s <= base -> 0 <= bytes -> base + bytes <= block_capacity s ->
  sinv (mk_stack (block_alloc s) (chain s) (base + bytes) (block_count s)) V h0
    ((blk + BLOCK_HDR_SZ + base, bytes) :: cells).
Proof.
  intros I Hc Hb Hn Hcap. pose proof (si_intra _ _ _ _ I) as Hi. pose proof I as [L _ S C A].
  pose proof (lg_size _ _ _ L) as Sz.
  assert (Lim : forall b, limit s b <=
    limit (mk_stack (block_alloc s) (chain s) (base + bytes) (block_count s)) b).
  { intros b. unfold limit. cbn [chain intra block_alloc]. destruct (bool_decide _); lia. }
  assert (Here : limit s blk = blk + BLOCK_HDR_SZ + intra s).
  { unfold limit. rewrite Hc. cbn. rewrite bool_decide_true by reflexivity. reflexivity. }
  constructor; cbn [block_alloc chain intra]; [exact L | unfold block_capacity in *; cbn in *; lia
    | exact S | |].
  - constructor.
    + split; [exact Hn |]. exists blk. cbn [fst snd chain]. split; [rewrite Hc; left |].
      split; [lia |]. unfold limit. cbn. rewrite Hc. cbn. rewrite bool_decide_true by reflexivity.
      lia.
    + eapply list.Forall_impl; [exact C |]. intros c (H0 & b & Hb' & H1 & H2). split; [exact H0 |].
      exists b. specialize (Lim b). cbn [chain]. repeat split; try assumption; lia.
  - constructor; [| exact A]. rewrite list.Forall_forall in *. intros c Hin.
    destruct (C c Hin) as (H0 & b & Hb' & H1 & H2). unfold apart. cbn [fst snd].
    destruct (Z.eq_dec b blk) as [-> | Ne]; [lia |].
    pose proof (limit_le s V h0 cells b I) as Lb.
    assert (Ap : apart (b, block_size (block_alloc s)) (blk, block_size (block_alloc s))).
    { apply (ledger_apart _ _ _ b blk L); [| | exact Ne]; apply elem_of_app; left; [exact Hb' |].
      rewrite Hc. left. }
    unfold apart, block_capacity in *. cbn [fst snd] in Ap. unfold BLOCK_HDR_SZ in *. lia.
Qed.

(** The state [acquire_block] leaves, on either outcome. *)
Lemma acquire_block_inv malloc s V h0 cells :
  malloc_ok malloc -> sinv s V h0 cells ->
  match acquire_block malloc s with
  | (Some blk, s') => sinv s' V h0 cells /\ chain s' = blk :: chain s /\ intra s' = 0 /\
      block_count s' = block_count s + 1 /\ blk mod 16 = 0 /\ 0 < blk /\
      block_size (block_alloc s') = block_size (block_alloc s)
  | (None, s') => sinv s' V h0 cells /\ chain s' = chain s /\ intra s' = intra s /\
      block_count s' = block_count s
  end.
Proof.
  intros M I. pose proof I as [L Hi S C A]. unfold acquire_block.
  pose proof (ba_get_ledger malloc M _ _ _ L) as G.
  destruct (ba_get malloc (block_alloc s)) as [[blk |] m]; destruct G as [L' E].
  - split.
    + constructor; cbn [block_alloc chain intra].
      * exact L'.
      * pose proof (lg_size _ _ _ L). unfold block_capacity, BLOCK_HDR_SZ, sizeof_free_node in *.
        cbn. rewrite E. lia.
      * rewrite E. exact S.
      * rewrite list.Forall_forall in *. intros c Hin.
        destruct (C c Hin) as (H0 & b & Hb & H1 & H2).
        split; [exact H0 |]. exists b. cbn [chain]. split; [right; exact Hb |].
        split; [exact H1 |]. pose proof (limit_le s V h0 cells b I).
        unfold limit at 1. cbn [chain block_alloc]. rewrite E.
        rewrite bool_decide_false; [lia |]. cbn. intros [= ->].
        pose proof (ledger_nodup _ _ _ L') as ND. apply list.NoDup_app in ND as (_ & _ & ND).
        cbn in ND. apply list.NoDup_cons in ND as [ND _]. apply ND, elem_of_app. left. exact Hb.
      * exact A.
    + pose proof (lg_aligned _ _ _ L') as Al. rewrite list.Forall_forall in Al.
      destruct (Al blk) as [P Q]; [apply elem_of_app; right; left |]. cbn. auto 10.
  - split; [| auto]. constructor; cbn [block_alloc chain intra]; try assumption.
    + unfold block_capacity in *. cbn. rewrite E. exact Hi.
    + rewrite E. exact S.
    + eapply list.Forall_impl; [exact C |]. intros c (H0 & b & H1). split; [exact H0 |].
      exists b. unfold limit in *. cbn [chain intra block_alloc]. rewrite E. exact H1.
Qed.

(** The offset [stack_alloc] chooses in a fresh block. *)
Lemma fresh_offset addr align :
  0 < align -> 0 <= Z.land (align - Z.land addr (align - 1)) (align - 1) <= align - 1.
Proof.
  intros H. split; [apply Z.land_nonneg; lia | apply land_le_r; lia].
Qed.

Lemma fresh_offset_mod addr k :
  0 <= k -> (addr + Z.land (2 ^ k - Z.land addr (2 ^ k - 1)) (2 ^ k - 1)) mod 2 ^ k = 0.
Proof.
  intros Hk. pose proof (Z.pow_pos_nonneg 2 k ltac:(lia) Hk).
  replace (2 ^ k - 1) with (Z.ones k) by (rewrite Z.ones_equiv; lia).
  rewrite !Z.land_ones by exact Hk.
  rewrite Z.add_mod_idemp_r by lia. pose proof (Z.div_mod addr (2 ^ k) ltac:(lia)).
  replace (addr + (2 ^ k - addr mod 2 ^ k)) with ((addr / 2 ^ k + 1) * 2 ^ k) by lia.
  apply Z.mod_mul. lia.
Qed.

(** What one allocation guarantees. *)
Definition alloc_post (s : stack) (V : list Z) (h0 cells : list region) (bytes align : Z)
    (r : option Z * stack) : Prop :=
  match r with
  | (Some p, s') => sinv s' V h0 ((p, bytes) :: cells) /\
      (forall k, 0 <= k <= 3 -> align = 2 ^ k -> p mod align = 0) /\
      exists new, chain s' = new ++ chain s /\
        block_count s' = block_count s + Z.of_nat (length new)
  | (None, s') => sinv s' V h0 cells /\ chain s' = chain s /\ intra s' = intra s /\
      block_count s' = block_count s
  end.

(** A 16-aligned block's payload starts 8-aligned. *)
Lemma payload_aligned blk off k :
  blk mod 16 = 0 -> 0 <= k <= 3 -> off mod 2 ^ k = 0 -> (blk + BLOCK_HDR_SZ + off) mod 2 ^ k = 0.
Proof.
  intros Hb Hk Ho. assert (P : 0 < 2 ^ k) by (apply Z.pow_pos_nonneg; lia).
  apply Z.mod_divide in Ho; [| lia]. apply Z.mod_divide; [lia |].
  apply Z.divide_add_r; [| exact Ho]. apply Z.mod_divide in Hb; [| lia].
  assert (D : (2 ^ k | 8)) by (exists (2 ^ (3 - k)); rewrite <- Z.pow_add_r by lia;
    replace (3 - k + k) with 3 by lia; reflexivity).
  apply Z.divide_add_r; [| exact D]. eapply Z.divide_trans; [exact D |].
  eapply Z.divide_trans; [| exact Hb]. exists 2. reflexivity.
Qed.

Lemma pow2_gtb k : 0 <= k -> (2 ^ k >? 1) = negb (k =? 0).
Proof.
  intros Hk. destruct (Z.eqb_spec k 0) as [-> | Ne]; [reflexivity |].
  pose proof (Z.pow_lt_mono_r 2 0 k ltac:(lia) ltac:(lia) ltac:(lia)).
  destruct (Z.gtb_spec (2 ^ k) 1); [reflexivity | cbn in *; lia].
Qed.

Lemma stack_alloc_post malloc s V h0 cells bytes align :
  malloc_ok malloc -> sinv s V h0 cells -> request_ok bytes align ->
  alloc_post s V h0 cells bytes align (stack_alloc malloc s bytes align).
Proof.
  intros M I [Hn Ha0]. unfold stack_alloc.
  set (al := if align <? 1 then 1 else align).
  assert (Hal : 1 <= al < 2 ^ 62) by (subst al; destruct (Z.ltb_spec align 1); lia).
  assert (Eal : forall k, 0 <= k <= 3 -> align = 2 ^ k -> al = align).
  { intros k Hk E. pose proof (Z.pow_pos_nonneg 2 k ltac:(lia) ltac:(lia)). subst al.
    destruct (Z.ltb_spec align 1); lia. }
  set (fresh := if u64 _ >? _ then _ else _).
  pose proof (si_intra _ _ _ _ I) as Hi. pose proof (si_size _ _ _ _ I) as Hs.
  assert (F : alloc_post s V h0 cells bytes align fresh).
  { subst fresh. unfold u64. rewrite (Z.mod_small (bytes + (al - 1))) by lia.
    rewrite (Z.mod_small (bytes + (al - 1) + BLOCK_HDR_SZ)) by (unfold BLOCK_HDR_SZ; lia).
    destruct (Z.gtb_spec (bytes + (al - 1) + BLOCK_HDR_SZ) (block_size (block_alloc s)));
      [cbn; auto |].
    pose proof (acquire_block_inv malloc s V h0 cells M I) as Q.
    destruct (acquire_block malloc s) as [[blk |] s1]; [| exact Q].
    destruct Q as (I1 & Hc & Hi1 & Hbc & H16 & Hp & Esz).
    set (base := if al >? 1 then _ else 0).
    assert (Hb : 0 <= base <= al - 1).
    { subst base. destruct (al >? 1); [apply fresh_offset |]; lia. }
    rewrite Z.mod_small by lia. split; [| split].
    - apply (bump_cell s1 V h0 cells blk (chain s) base bytes I1 Hc); [lia | lia |].
      unfold block_capacity. rewrite Esz. lia.
    - intros k Hk E. subst base. rewrite (Eal k Hk E), E, pow2_gtb by lia.
      destruct (Z.eqb_spec k 0) as [-> | Ne]; [apply Z.mod_1_r |]. apply fresh_offset_mod. lia.
    - exists [blk]. cbn. split; [exact Hc | lia]. }
  destruct (chain s) as [| blk bs] eqn:Hc; [exact F |].
  pose proof (align_up_range (intra s) al ltac:(lia)) as R.
  unfold block_capacity in *. specialize (R ltac:(unfold BLOCK_HDR_SZ in *; lia)).
  unfold u64. rewrite (Z.mod_small (align_up _ _ + bytes)) by (unfold BLOCK_HDR_SZ in *; lia).
  destruct (Z.leb_spec (align_up (intra s) al + bytes) (block_size (block_alloc s) - BLOCK_HDR_SZ));
    [| exact F]. rewrite <- Hc. split; [| split].
  - apply (bump_cell s V h0 cells blk bs _ bytes I Hc); [lia | lia | exact H].
  - intros k Hk E. rewrite (Eal k Hk E), E. apply payload_aligned; [| exact Hk |].
    + pose proof (lg_aligned _ _ _ (si_ledger _ _ _ _ I)) as Al.
      rewrite list.Forall_forall in Al. apply (Al blk).
      apply elem_of_app. right. apply elem_of_app. left. rewrite Hc. left.
    + apply align_up_mod; [lia |]. unfold BLOCK_HDR_SZ in *. lia.
  - exists []. cbn. split; [reflexivity | lia].
Qed.

(** ** Frames *)

Lemma pop_blocks_spec new base V h0 : forall m n stop,
  ledger m ((new ++ base) ++ V) h0 -> stop = hd_error base ->
  exists m', pop_blocks m (new ++ base) n stop = (m', base, n - Z.of_nat (length new)) /\
    ledger m' (base ++ V) h0 /\ block_size m' = block_size m.
Proof.
  induction new as [| b new IH]; intros m n stop L ->; cbn [app pop_blocks length].
  - exists m. split; [| auto]. destruct base as [| b base]; cbn; [f_equal; lia |].
    rewrite bool_decide_true by reflexivity. f_equal. lia.
  - rewrite bool_decide_false.
    + destruct (ba_put_ledger _ _ _ _ L) as [L' E].
      destruct (IH _ (n - 1) _ L' eq_refl) as (m' & -> & L2 & E2).
      exists m'. split; [f_equal; lia |]. split; [exact L2 | congruence].
    + intros Eq. destruct base as [| c base]; [discriminate |]. injection Eq as ->.
      pose proof (ledger_nodup _ _ _ L) as ND. apply list.NoDup_app in ND as (_ & _ & ND).
      cbn in ND. apply list.NoDup_cons in ND as [ND _]. apply ND.
      apply elem_of_app. left. apply elem_of_app. right. left.
Qed.

(** A run of the stack from [s]: the cells it handed out that are still in
    scope, newest first, and the state reached.  A frame is a push, a run, and
    the pop of that push's mark. *)
Inductive stack_run (malloc : list region -> Z -> option Z) (s : stack) :
    list region -> stack -> Prop :=
| run_start : stack_run malloc s [] s
| run_alloc cs s1 bytes align p s2 :
    stack_run malloc s cs s1 -> request_ok bytes align ->
    stack_alloc malloc s1 bytes align = (Some p, s2) ->
    stack_run malloc s ((p, bytes) :: cs) s2
| run_refused cs s1 bytes align s2 :
    stack_run malloc s cs s1 -> request_ok bytes align ->
    stack_alloc malloc s1 bytes align = (None, s2) -> stack_run malloc s cs s2
| run_frame cs s1 ds s2 :
    stack_run malloc s cs s1 -> stack_run malloc s1 ds s2 ->
    stack_run malloc s cs (stack_pop s2 (stack_push s1)).

(** A pop goes back to the push: everything but the block cache. *)
Lemma stack_pop_back s s' V h0 cells cells' new :
  sinv s V h0 cells -> sinv s' V h0 cells' -> chain s' = new ++ chain s ->
  block_count s' = block_count s + Z.of_nat (length new) ->
  block_size (block_alloc s') = block_size (block_alloc s) ->
  let s2 := stack_pop s' (stack_push s) in
  chain s2 = chain s /\ intra s2 = intra s /\ block_count s2 = block_count s /\
  block_size (block_alloc s2) = block_size (block_alloc s) /\ sinv s2 V h0 cells.
Proof.
  intros I I' Hc Hn Hs. pose proof (si_ledger _ _ _ _ I') as L. rewrite Hc in L.
  destruct (pop_blocks_spec new (chain s) V h0 _ (block_count s') _ L eq_refl)
    as (m & E & Lm & Sm).
  pose proof I as [Ls Hi Sz C A].
  assert (U : u32 (intra s) = intra s).
  { unfold u32. apply Z.mod_small. unfold block_capacity, BLOCK_HDR_SZ in Hi. lia. }
  unfold stack_pop, stack_push. cbn [fst snd]. rewrite Hc, E, U.
  cbn [chain intra block_count block_alloc].
  split; [reflexivity |]. split; [reflexivity |]. split; [lia |]. split; [congruence |].
  constructor; cbn [chain intra block_count block_alloc].
  - exact Lm.
  - unfold block_capacity in *. cbn. rewrite Sm, Hs. exact Hi.
  - rewrite Sm, Hs. exact Sz.
  - eapply list.Forall_impl; [exact C |]. intros c (H0 & b & H1). split; [exact H0 |].
    exists b. unfold limit in *. cbn [chain intra block_alloc]. rewrite Sm, Hs. exact H1.
  - exact A.
Qed.

Lemma stack_alloc_size malloc s bytes align :
  block_size (block_alloc (snd (stack_alloc malloc s bytes align))) = block_size (block_alloc s).
Proof.
  assert (G : forall m, block_size (snd (ba_get malloc m)) = block_size m).
  { intros m. unfold ba_get. destruct (free_list m); [| reflexivity].
    destruct (malloc (heap m) _); [| reflexivity]. destruct (malloc _ sizeof_rec); reflexivity. }
  unfold stack_alloc, acquire_block. specialize (G (block_alloc s)).
  destruct (ba_get malloc (block_alloc s)) as [[blk |] m]; cbn [snd] in G;
    destruct (chain s); repeat (destruct (_ <=? _) || destruct (_ >? block_size _));
    cbn; auto.
Qed.

Lemma stack_run_inv malloc s cs s' V h0 cells :
  malloc_ok malloc -> stack_run malloc s cs s' -> sinv s V h0 cells ->
  sinv s' V h0 (cs ++ cells) /\
  block_size (block_alloc s') = block_size (block_alloc s) /\
  exists new, chain s' = new ++ chain s /\
    block_count s' = block_count s + Z.of_nat (length new).
Proof.
  intros M R. revert cells. induction R as [s | s cs s1 bytes align p s2 R IH Q E
    | s cs s1 bytes align s2 R IH Q E | s cs s1 ds s2 R1 IH1 R2 IH2]; intros cells I.
  - split; [exact I |]. split; [reflexivity |]. exists []. cbn. split; [reflexivity | lia].
  - destruct (IH cells I) as (I1 & S1 & new & C1 & N1).
    pose proof (stack_alloc_post malloc s1 V h0 _ bytes align M I1 Q) as P.
    pose proof (stack_alloc_size malloc s1 bytes align) as Sz.
    rewrite E in P, Sz. destruct P as (I2 & _ & new2 & C2 & N2).
    split; [exact I2 |]. split; [cbn in Sz; congruence |]. exists (new2 ++ new).
    rewrite C2, C1, length_app, <- app_assoc. split; [reflexivity | lia].
  - destruct (IH cells I) as (I1 & S1 & new & C1 & N1).
    pose proof (stack_alloc_post malloc s1 V h0 _ bytes align M I1 Q) as P.
    pose proof (stack_alloc_size malloc s1 bytes align) as Sz.
    rewrite E in P, Sz. destruct P as (I2 & C2 & _ & N2).
    split; [exact I2 |]. split; [cbn in Sz; congruence |]. exists new. split; [congruence | lia].
  - destruct (IH1 cells I) as (I1 & S1 & new & C1 & N1).
    destruct (IH2 _ I1) as (I2 & S2 & new2 & C2 & N2).
    destruct (stack_pop_back s1 s2 V h0 _ _ new2 I1 I2 C2 N2 S2) as (Hc & Hi & Hn & Hs & I3).
    split; [exact I3 |]. split; [congruence |]. exists new. split; [congruence | lia].
Qed.

Lemma stack_create_inv malloc h0 size m :
  malloc_ok malloc -> regions_ok h0 -> ba_create malloc h0 size = Some m -> size < 2 ^ 32 ->
  sinv (stack_create m) [] h0 [].
Proof.
  intros M R E Hs. pose proof (ba_create_ledger malloc M h0 size m R E) as L.
  constructor; cbn; [exact L | | | constructor | constructor].
  - pose proof (lg_size _ _ _ L). unfold block_capacity, BLOCK_HDR_SZ, sizeof_free_node in *.
    cbn. lia.
  - unfold ba_create in E. destruct (malloc h0 sizeof_ba); [| discriminate].
    injection E as <-. cbn [block_size]. destruct (Z.eqb_spec size 0);
      match goal with |- context [?a <? ?b] => destruct (Z.ltb_spec a b) end;
      unfold sizeof_free_node; lia.
Qed.

Lemma stack_destroy_ledger s V h0 cells :
  sinv s V h0 cells -> ledger (stack_destroy s) V h0.
Proof.
  intros I. pose proof (si_ledger _ _ _ _ I) as L. unfold stack_destroy.
  generalize dependent (block_alloc s). clear I. induction (chain s) as [| b bs IH]; intros m L.
  - exact L.
  - cbn [fold_left]. apply IH. apply ba_put_ledger, L.
Qed.

(** In any run of allocations and nested push/pop frames on a new stack,
    the cells still in scope never overlap, each lies wholly inside one block
    that is live in the backing allocator and past the block's link word, and
    destroying the stack and then the block allocator leaves live exactly the
    regions that were live before. *)
Theorem stack_cells_safe malloc h0 size m cs s :
  malloc_ok malloc -> regions_ok h0 -> ba_create malloc h0 size = Some m -> size < 2 ^ 32 ->
  stack_run malloc (stack_create m) cs s ->
  ForallOrdPairs apart cs /\
  (forall c, c ∈ cs -> exists b, (b, block_size (block_alloc s)) ∈ heap (block_alloc s) /\
     b + 8 <= fst c /\ 0 <= snd c /\ fst c + snd c <= b + block_size (block_alloc s)) /\
  ba_destroy (stack_destroy s) ≡ₚ h0.
Proof.
  intros M R E Hs Run.
  destruct (stack_run_inv malloc _ cs s [] h0 [] M Run) as (I & _ & _).
  { apply (stack_create_inv malloc h0 size m M R E Hs). }
  rewrite app_nil_r in I. split; [apply (si_apart _ _ _ _ I) |]. split.
  - intros c Hc. pose proof (si_cells _ _ _ _ I) as C. rewrite list.Forall_forall in C.
    destruct (C c Hc) as (H0 & b & Hb & H1 & H2). exists b.
    pose proof (limit_le _ _ _ _ b I). split; [| unfold BLOCK_HDR_SZ in *; lia].
    rewrite (lg_heap _ _ _ (si_ledger _ _ _ _ I)). right. apply elem_of_app. left.
    apply (list_elem_of_fmap_2 (fun b => (b, block_size (block_alloc s)))).
    apply elem_of_app. right. apply elem_of_app. left. exact Hb.
  - apply (ba_destroy_live _ [] h0), (stack_destroy_ledger _ [] h0 _ I).
Qed.

(** The run of [stack_cells]: a cell, then a frame with two more. *)
Lemma stack_cells_safe_witness :
  exists m s, ba_create bump_malloc [] 64 = Some m /\
    stack_run bump_malloc (stack_create m) [(88, 24)] s /\
    intra s = 24 /\ chain s = [80] /\ ba_destroy (stack_destroy s) ≡ₚ [].
Proof.
  set (m := mk_ba 16 [(16, 48)] 64 [] 0 0 []). set (s0 := stack_create m).
  set (s1 := snd (stack_alloc bump_malloc s0 24 8)).
  set (s2 := snd (stack_alloc bump_malloc s1 24 8)).
  set (s3 := snd (stack_alloc bump_malloc s2 24 8)).
  assert (Q : request_ok 24 8) by (unfold request_ok; lia).
  pose proof (run_alloc bump_malloc s0 [] s0 24 8 88 s1 (run_start _ _) Q eq_refl) as R1.
  pose proof (run_alloc bump_malloc s1 [] s1 24 8 112 s2 (run_start _ _) Q eq_refl) as R2.
  pose proof (run_alloc bump_malloc s1 _ s2 24 8 200 s3 R2 Q eq_refl) as R3.
  pose proof (run_frame bump_malloc s0 _ s1 _ s3 R1 R3) as R4.
  eexists m, _. split; [reflexivity |]. split; [exact R4 |]. split; [reflexivity |].
  split; [reflexivity |].
  apply (stack_cells_safe bump_malloc [] 64 m _ _ bump_malloc_ok regions_ok_nil eq_refl
    ltac:(lia) R4).
Defined.

(** Popping the mark of a push restores the chain of blocks, the bump offset
    and the block count of that push, whatever was allocated, and whichever
    frames were opened and closed, in between. *)
Theorem stack_pop_restores malloc h0 size m cs ds s1 s2 :
  malloc_ok malloc -> regions_ok h0 -> ba_create malloc h0 size = Some m -> size < 2 ^ 32 ->
  stack_run malloc (stack_create m) cs s1 -> stack_run malloc s1 ds s2 ->
  let s3 := stack_pop s2 (stack_push s1) in
  chain s3 = chain s1 /\ intra s3 = intra s1 /\ block_count s3 = block_count s1 /\
  block_count s3 = Z.of_nat (length (chain s3)).
Proof.
  intros M R E Hs Run1 Run2 s3.
  destruct (stack_run_inv malloc _ cs s1 [] h0 [] M Run1) as (I1 & _ & new1 & C1 & N1).
  { apply (stack_create_inv malloc h0 size m M R E Hs). }
  destruct (stack_run_inv malloc _ ds s2 [] h0 _ M Run2 I1) as (I2 & S2 & new2 & C2 & N2).
  destruct (stack_pop_back s1 s2 [] h0 _ _ new2 I1 I2 C2 N2 S2) as (Hc & Hi & Hn & _).
  cbn [stack_create chain block_count] in C1, N1. rewrite app_nil_r in C1.
  split; [exact Hc |]. split; [exact Hi |]. split; [exact Hn |].
  subst s3. rewrite Hn, Hc, N1, C1. lia.
Qed.

Lemma stack_pop_restores_witness :
  exists s1 s2, intra s1 = 24 /\ chain s2 = [192; 80] /\
    chain (stack_pop s2 (stack_push s1)) = [80].
Proof.
  set (m := mk_ba 16 [(16, 48)] 64 [] 0 0 []). set (s0 := stack_create m).
  set (s1 := snd (stack_alloc bump_malloc s0 24 8)).
  set (s2 := snd (stack_alloc bump_malloc s1 40 8)).
  pose proof (run_alloc bump_malloc s0 [] s0 24 8 88 s1 (run_start _ _)
    ltac:(unfold request_ok; lia) eq_refl) as R1.
  pose proof (run_alloc bump_malloc s1 [] s1 40 8 200 s2 (run_start _ _)
    ltac:(unfold request_ok; lia) eq_refl) as R2.
  exists s1, s2. split; [reflexivity |]. split; [reflexivity |].
  pose proof (stack_pop_restores bump_malloc [] 64 m _ _ s1 s2 bump_malloc_ok regions_ok_nil
    eq_refl ltac:(lia) R1 R2) as (Hc & _). exact Hc.
Defined.

(** C38: On a stack in use, a request that fits one block with its worst-case
    padding is served whenever the backing allocator answers, at an address
    aligned as asked for the alignments 1, 2, 4 and 8; a request is refused
    only if it does not fit or the backing allocator refused, and then the
    stack's blocks and offset are as before. *)
Theorem stack_alloc_served malloc h0 size m cs s bytes align :
  malloc_ok malloc -> regions_ok h0 -> ba_create malloc h0 size = Some m -> size < 2 ^ 32 ->
  stack_run malloc (stack_create m) cs s -> request_ok bytes align -> 1 <= align ->
  match stack_alloc malloc s bytes align with
  | (Some p, _) => forall k, 0 <= k <= 3 -> align = 2 ^ k -> p mod align = 0
  | (None, s') =>
      (block_size (block_alloc s) < bytes + (align - 1) + 8 \/
       fst (ba_get malloc (block_alloc s)) = None) /\
      chain s' = chain s /\ intra s' = intra s
  end.
Proof.
  intros M R E Hs Run Q Ha.
  destruct (stack_run_inv malloc _ cs s [] h0 [] M Run) as (I & _ & _).
  { apply (stack_create_inv malloc h0 size m M R E Hs). }
  pose proof (stack_alloc_post malloc s [] h0 _ bytes align M I Q) as P.
  destruct (stack_alloc malloc s bytes align) as [[p |] s'] eqn:Es.
  - apply P.
  - destruct P as (_ & Hc & Hi & _). split; [| auto]. destruct Q as [Hn Hal].
    revert Es. unfold stack_alloc. destruct (Z.ltb_spec align 1); [lia |].
    unfold u64. rewrite (Z.mod_small (bytes + (align - 1))) by lia.
    rewrite (Z.mod_small (bytes + (align - 1) + BLOCK_HDR_SZ)) by (unfold BLOCK_HDR_SZ; lia).
    destruct (Z.gtb_spec (bytes + (align - 1) + BLOCK_HDR_SZ) (block_size (block_alloc s)))
      as [Big | _]; [left; unfold BLOCK_HDR_SZ in Big; lia |].
    unfold acquire_block. destruct (ba_get malloc (block_alloc s)) as [[b |] m']; [| auto].
    destruct (chain s); [discriminate |]. destruct (_ <=? _); discriminate.
Qed.

Lemma stack_alloc_served_witness :
  exists s p s', stack_alloc bump_malloc s 40 8 = (Some p, s') /\ p = 200 /\ p mod 8 = 0.
Proof.
  set (m := mk_ba 16 [(16, 48)] 64 [] 0 0 []). set (s0 := stack_create m).
  set (s1 := snd (stack_alloc bump_malloc s0 24 8)).
  pose proof (run_alloc bump_malloc s0 [] s0 24 8 88 s1 (run_start _ _)
    ltac:(unfold request_ok; lia) eq_refl) as R1.
  exists s1, 200. eexists. split; [reflexivity |]. split; [reflexivity |].
  pose proof (stack_alloc_served bump_malloc [] 64 m _ s1 40 8 bump_malloc_ok regions_ok_nil
    eq_refl ltac:(lia) R1 ltac:(unfold request_ok; lia) ltac:(lia)) as T.
  apply (T 3); [lia | reflexivity].
Defined.

(** An alignment above 8 is honoured only in a fresh block: a second 16-byte
    aligned request in the current block lands on an address that is 8 modulo
    16, because the offset is rounded relative to the payload. *)
Example align16_in_block :
  let m := mk_ba 16 [(16, 48)] 128 [] 0 0 [] in
  let '(p, s) := stack_alloc bump_malloc (stack_create m) 8 16 in
  let '(q, _) := stack_alloc bump_malloc s 8 16 in
  (option_map (fun a => a mod 16) p, option_map (fun a => a mod 16) q) = (Some 0, Some 8).
Proof. vm_compute. reflexivity. Qed.

End Mem.
