(* ===== verification/Spool.v ===== *)
(** * Spool: the segmented pool
    (src/src/c/dvs_spool.c, dvs_spool.h)

    The pool of a context hands out 32-bit offsets by bumping a counter; a table
    maps the slots of 64 KiB the offsets fall into to memory, which comes from
    the caller's buffer and then in backings from the allocator.  A mark and a
    release free what was allocated in between.  The file shows that the blocks
    in use never overlap, as offsets or in memory, that a block is contiguous
    across slots, that a release restores the pool, and that in the end every
    backing goes back to the allocator.

    As in [Alloc], the allocator is a function from the live regions and a size
    to an address or a refusal, with the contract of [malloc].  The memory of the
    two tables themselves is not represented; [granted] says whether an
    allocation of that many bytes for one of them is served. *)

From Stdlib Require Import ZArith Lia ZifyBool Bool.
From stdpp Require Import base gmap list numbers relations.
From S2P Require Import Prelude Alloc.
Import Mem.
Open Scope Z_scope.

Module Spool.

Definition DVS_SEG_SHIFT : Z := 16.
Definition DVS_SEG_SIZE : Z := 2 ^ 16.
Definition DVS_SEG_MASK : Z := DVS_SEG_SIZE - 1.
Definition SPOOL_FIRST : Z := 16.
Definition SPOOL_LIMIT : Z := 0xFFFF0000.
Definition DVS_SPOOL_SPARES : Z := 4.

(** [dvs_spool_backing_t] *)
Record backing := mk_backing { start : Z; size : Z; mem : Z }.

(** [dvs_spool_t]; [back] and [spare] have their newest entry first, [grows] is
    [p->alloc != NULL], and [heap] has the live regions of the allocator. *)
Record spool := mk_spool {
  seg : gmap Z Z;
  top : Z;
  end_ : Z;
  overflow : bool;
  seg_cap : Z;
  fixed : Z;
  fixed_end : Z;
  grows : bool;
  back : list backing;
  back_cap : Z;
  spare : list Z;
  heap : list region }.

(** [dvs_spool_mark_t] *)
Record mark := mk_mark { m_top : Z; m_end : Z; m_overflow : bool; m_n_back : Z }.

Definition n_back (p : spool) : Z := Z.of_nat (length (back p)).
Definition slots_for (bytes : Z) : Z := u32 (Z.shiftr (bytes + DVS_SEG_MASK) DVS_SEG_SHIFT).

(** [for (i = 0; i < k; i++) p->seg\[s + i\] = mem + i * DVS_SEG_SIZE;] and its
    undoing. *)
Definition set_slots (m : gmap Z Z) (s k a : Z) : gmap Z Z :=
  fold_left (fun m i => <[s + i := a + i * DVS_SEG_SIZE]> m) (seqZ 0 k) m.
Definition clear_slots (m : gmap Z Z) (s k : Z) : gmap Z Z :=
  fold_left (fun m i => delete (s + i) m) (seqZ 0 k) m.

Section Ops.
Context (malloc : list region -> Z -> option Z) (granted : Z -> bool).

(** [h]: the regions live before, the caller's buffer included. *)
Definition spool_init (h : list region) (buf bytes : Z) (grow : bool) : option spool :=
  let bytes := if buf =? 0 then 0 else bytes in
  let bytes := if bytes >? SPOOL_LIMIT then SPOOL_LIMIT else bytes in
  let n_fixed := slots_for bytes in
  let made data bytes n_fixed cap :=
    Some (mk_spool (set_slots ∅ 0 n_fixed data) SPOOL_FIRST bytes false cap data bytes grow [] 0 [] h) in
  if negb grow then
    let tb := Z.land (n_fixed * 8 + 15) (Z.lnot 15) in
    if tb >=? bytes then None
    else made (buf + tb) (bytes - tb) (slots_for (bytes - tb)) n_fixed
  else
    let cap := u32 (n_fixed + 16) in
    if granted (cap * 8) then made buf bytes n_fixed cap else None.

Definition full (p : spool) : option Z * spool :=
  (None, mk_spool (seg p) (top p) (end_ p) true (seg_cap p) (fixed p) (fixed_end p) (grows p) (back p) (back_cap p)
    (spare p) (heap p)).

(** The slot table and the table of backings, grown where they must be. *)
Definition room_seg (p : spool) (need : Z) : option spool :=
  if need >? seg_cap p then
    let cap := u32 (seg_cap p * 2) in
    let cap := if cap <? need then need + 16 else cap in
    if granted (cap * 8)
    then Some (mk_spool (seg p) (top p) (end_ p) (overflow p) cap (fixed p) (fixed_end p) (grows p) (back p)
      (back_cap p) (spare p) (heap p))
    else None
  else Some p.
Definition room_back (p : spool) : option spool :=
  if n_back p =? back_cap p then
    let cap := if back_cap p =? 0 then 16 else u32 (2 * back_cap p) in
    if granted (cap * 16)
    then Some (mk_spool (seg p) (top p) (end_ p) (overflow p) (seg_cap p) (fixed p) (fixed_end p) (grows p) (back p)
      cap (spare p) (heap p))
    else None
  else Some p.

(** A spare slot or new memory: the address, the spares and the live regions. *)
Definition take_mem (p : spool) (size : Z) : option (Z * list Z * list region) :=
  match (if size =? DVS_SEG_SIZE then spare p else []) with
  | a :: rest => Some (a, rest, heap p)
  | [] =>
      match malloc (heap p) size with
      | None => None
      | Some a => Some (a, spare p, (a, size) :: heap p)
      end
  end.

Definition spool_grow (p : spool) (bytes : Z) : option Z * spool :=
  if negb (grows p) then full p else
  let start := Z.land (end_ p + DVS_SEG_MASK) (Z.lnot DVS_SEG_MASK) in
  let start := if start <? SPOOL_FIRST then DVS_SEG_SIZE else start in
  let size := if bytes <=? DVS_SEG_SIZE then DVS_SEG_SIZE else bytes in
  if start + size >? SPOOL_LIMIT then full p else
  let s := Z.shiftr start DVS_SEG_SHIFT in
  let k := slots_for size in
  match room_seg p (s + k) with
  | None => full p
  | Some p =>
      match room_back p with
      | None => full p
      | Some p =>
          match take_mem p size with
          | None => full p
          | Some (a, spares, h) =>
              (Some start,
               mk_spool (set_slots (seg p) s k a) (start + bytes) (start + size) (overflow p) (seg_cap p) (fixed p)
                 (fixed_end p) (grows p) (mk_backing start size a :: back p) (back_cap p) spares h)
          end
      end
  end.

(** [None]: [EXPR_NULL] *)
Definition spool_alloc (p : spool) (bytes align : Z) : option Z * spool :=
  if overflow p then (None, p) else
  let bytes := if bytes =? 0 then 1 else bytes in
  let align := if align <? 1 then 1 else align in
  let base := align_up (top p) align in
  if base + bytes <=? end_ p then
    (Some base,
     mk_spool (seg p) (base + bytes) (end_ p) (overflow p) (seg_cap p) (fixed p) (fixed_end p) (grows p) (back p)
       (back_cap p) (spare p) (heap p))
  else spool_grow p bytes.
End Ops.

Definition spool_ptr (p : spool) (off : Z) : option Z :=
  match seg p !! Z.shiftr off DVS_SEG_SHIFT with
  | Some a => Some (a + Z.land off DVS_SEG_MASK)
  | None => None
  end.

Definition spool_mark (p : spool) : mark := mk_mark (top p) (end_ p) (overflow p) (n_back p).

(** One turn of [while (p->n_back > m.n_back)]. *)
Definition drop_backing (p : spool) : spool :=
  match back p with
  | [] => p
  | b :: rest =>
      let sg := clear_slots (seg p) (Z.shiftr (start b) DVS_SEG_SHIFT) (slots_for (size b)) in
      if (size b =? DVS_SEG_SIZE) && (Z.of_nat (length (spare p)) <? DVS_SPOOL_SPARES) then
        mk_spool sg (top p) (end_ p) (overflow p) (seg_cap p) (fixed p) (fixed_end p) (grows p) rest (back_cap p)
          (mem b :: spare p) (heap p)
      else
        mk_spool sg (top p) (end_ p) (overflow p) (seg_cap p) (fixed p) (fixed_end p) (grows p) rest (back_cap p)
          (spare p) (release (heap p) (mem b))
  end.
Fixpoint drop_backings (n : nat) (p : spool) : spool :=
  match n with O => p | S n => drop_backings n (drop_backing p) end.

Definition spool_release (p : spool) (m : mark) : spool :=
  if (m_n_back m >? n_back p) || ((m_n_back m =? n_back p) && (m_top m >=? top p)) then p else
  let p := drop_backings (Z.to_nat (n_back p - m_n_back m)) p in
  mk_spool (seg p) (m_top m) (m_end m) (m_overflow m) (seg_cap p) (fixed p) (fixed_end p) (grows p) (back p)
    (back_cap p) (spare p) (heap p).

(** The regions still live after [dvs_spool_destroy]. *)
Definition spool_destroy (p : spool) : list region :=
  if negb (grows p) then heap p else
  fold_left release (spare p) (fold_left release (map mem (back p)) (heap p)).

Definition spool_fixed_free (p : spool) : Z := if top p <? fixed_end p then fixed_end p - top p else 0.

(** A block over two slots, then a release that keeps one slot as a spare. *)
Example spool_runs :
  match spool_init (fun _ => true) [(4096, 100)] 4096 100 true with
  | Some p =>
      let al p n := spool_alloc bump_malloc (fun _ => true) p n 8 in
      let '(a, p) := al p 50 in
      let m := spool_mark p in
      let '(b, p) := al p 100 in
      let '(c, p) := al p 70000 in
      let q := spool_release p m in
      (a, b, c, (spool_ptr p (65536 + 5), spool_ptr p (131072 + 65540)), (top q, length (spare q), length (heap q)))
  | None => (None, None, None, (None, None), (0, O, O))
  end = (Some 16, Some 65536, Some 131072, (Some 4213, Some 135300), (66, 1%nat, 2%nat)).
Proof. vm_compute. reflexivity. Qed.

(** ** The slots *)

Lemma set_slots_lookup m s k a i : 0 <= k ->
  set_slots m s k a !! i = if (s <=? i) && (i <? s + k) then Some (a + (i - s) * DVS_SEG_SIZE) else m !! i.
Proof.
  intros Hk. unfold set_slots. pattern k. apply natlike_ind; [| | exact Hk]; clear k Hk.
  - cbn. destruct (Z.leb_spec s i), (Z.ltb_spec i (s + 0)); cbn; try reflexivity. lia.
  - intros k Hk IH. rewrite <- Z.add_1_r, seqZ_app, fold_left_app, Z.add_0_l by lia. cbn [seqZ]. change (seqZ k 1) with [k]. cbn [fold_left].
    destruct (Z.eq_dec (s + k) i) as [<- | Ne].
    + rewrite lookup_insert_eq. destruct (Z.leb_spec s (s + k)), (Z.ltb_spec (s + k) (s + (k + 1))); try lia. cbn. do 2 f_equal. lia.
    + rewrite lookup_insert_ne, IH by exact Ne.
      destruct (Z.leb_spec s i), (Z.ltb_spec i (s + k)), (Z.ltb_spec i (s + (k + 1))); cbn; try reflexivity; lia.
Qed.
Lemma clear_slots_lookup m s k i : 0 <= k ->
  clear_slots m s k !! i = if (s <=? i) && (i <? s + k) then None else m !! i.
Proof.
  intros Hk. unfold clear_slots. pattern k. apply natlike_ind; [| | exact Hk]; clear k Hk.
  - cbn. destruct (Z.leb_spec s i), (Z.ltb_spec i (s + 0)); cbn; try reflexivity. lia.
  - intros k Hk IH. rewrite <- Z.add_1_r, seqZ_app, fold_left_app, Z.add_0_l by lia. change (seqZ k 1) with [k]. cbn [fold_left].
    destruct (Z.eq_dec (s + k) i) as [<- | Ne].
    + rewrite lookup_delete_eq. destruct (Z.leb_spec s (s + k)), (Z.ltb_spec (s + k) (s + (k + 1))); try lia. reflexivity.
    + rewrite lookup_delete_ne, IH by exact Ne.
      destruct (Z.leb_spec s i), (Z.ltb_spec i (s + k)), (Z.ltb_spec i (s + (k + 1))); cbn; try reflexivity; lia.
Qed.
Lemma clear_set m s k a : 0 <= k -> (forall i, s <= i < s + k -> m !! i = None) -> clear_slots (set_slots m s k a) s k = m.
Proof.
  intros Hk N. apply map_eq. intros i. rewrite clear_slots_lookup, set_slots_lookup by exact Hk.
  destruct (Z.leb_spec s i), (Z.ltb_spec i (s + k)); cbn; auto. symmetry. apply N. lia.
Qed.

Definition slot (x : Z) : Z := Z.shiftr x DVS_SEG_SHIFT.
Lemma slot_div x : slot x = x / 2 ^ 16.
Proof. unfold slot, DVS_SEG_SHIFT. apply Z.shiftr_div_pow2. lia. Qed.
Lemma slots_for_div n : 0 <= n <= 2 ^ 32 -> slots_for n = (n + (2 ^ 16 - 1)) / 2 ^ 16.
Proof.
  intros Hn. unfold slots_for, DVS_SEG_MASK, DVS_SEG_SIZE, DVS_SEG_SHIFT, u32. rewrite Z.shiftr_div_pow2 by lia.
  apply Z.mod_small. pose proof (Z.div_le_mono (n + (2 ^ 16 - 1)) (2 ^ 33) (2 ^ 16) ltac:(lia) ltac:(lia)) as L.
  change (2 ^ 33 / 2 ^ 16) with (2 ^ 17) in L. assert (0 <= (n + (2 ^ 16 - 1)) / 2 ^ 16) by (apply Z.div_pos; lia). lia.
Qed.

(** ** The areas of the offset space *)

Definition area_end (b : backing) : Z := start b + size b.
Definition area_slots (b : backing) : Z := slots_for (size b).
Fixpoint map_areas (l : list backing) : gmap Z Z :=
  match l with [] => ∅ | b :: l => set_slots (map_areas l) (slot (start b)) (area_slots b) (mem b) end.

(** Newest first, down to the fixed region at 0: each starts at a slot of its
    own past the end of the one before. *)
Fixpoint ladder (l : list backing) : Prop :=
  match l with
  | [] => False
  | [f] => start f = 0 /\ 0 <= size f <= SPOOL_LIMIT
  | b :: (b' :: _) as l =>
      start b mod 2 ^ 16 = 0 /\ area_end b' <= start b /\ start b' < start b /\ 0 < size b /\ area_end b <= SPOOL_LIMIT /\ ladder l
  end.

Lemma ladder_head b l : ladder (b :: l) -> start b mod 2 ^ 16 = 0 /\ 0 <= start b /\ 0 <= size b /\ area_end b <= SPOOL_LIMIT.
Proof.
  revert b. induction l as [| b' l IH]; intros b; unfold area_end; cbn [ladder].
  - intros [-> Hs]. unfold SPOOL_LIMIT in *. rewrite Zmod_0_l. lia.
  - intros (Hm & He & Hl & Hs & HL & Ld). destruct (IH b' Ld) as (_ & Hb & _). unfold area_end in *. lia.
Qed.
Lemma ladder_size b l : ladder (b :: l) -> start b = 0 \/ 0 < size b.
Proof. destruct l; [intros [-> _]; auto | intros (_ & _ & _ & Hs & _); auto]. Qed.
Lemma ladder_cons b b' l : ladder (b' :: l) -> start b mod 2 ^ 16 = 0 -> area_end b' <= start b -> start b' < start b ->
  0 < size b -> area_end b <= SPOOL_LIMIT -> ladder (b :: b' :: l).
Proof. intros L H1 H2 H3 H4 H5. exact (conj H1 (conj H2 (conj H3 (conj H4 (conj H5 L))))). Qed.
Lemma ladder_tail b b' l : ladder (b :: b' :: l) -> ladder (b' :: l).
Proof. intros (_ & _ & _ & _ & _ & L). exact L. Qed.
Lemma ladder_suffix nb l : l <> [] -> ladder (nb ++ l) -> ladder l.
Proof.
  intros Ne. induction nb as [| b nb IH]; [auto |]. cbn [app]. intros L. apply IH.
  destruct (nb ++ l) as [| b' l'] eqn:E; [apply app_eq_nil in E; tauto | exact (ladder_tail _ _ _ L)].
Qed.

(** The slots of a head start past those of the rest. *)
Lemma slots_end b l : ladder (b :: l) -> slot (start b) + area_slots b = (area_end b + (2 ^ 16 - 1)) / 2 ^ 16.
Proof.
  intros L. destruct (ladder_head b l L) as (Hm & H0 & Hs & HL). unfold area_slots, area_end in *.
  rewrite slot_div, slots_for_div by (unfold SPOOL_LIMIT in HL; lia).
  apply Z.mod_divide in Hm as [q E]; [| lia]. rewrite E, Z.div_mul, <- Z.add_assoc, Z.div_add_l by lia. reflexivity.
Qed.
Lemma ladder_slots b b' l : ladder (b :: b' :: l) -> slot (start b') + area_slots b' <= slot (start b) /\ slot (start b') < slot (start b).
Proof.
  intros L. rewrite (slots_end b' l (ladder_tail _ _ _ L)). destruct (ladder_head b' l (ladder_tail _ _ _ L)) as (Hm' & _ & _ & _).
  destruct L as (Hm & He & Hl & _). rewrite !slot_div.
  apply Z.mod_divide in Hm as [q E]; [| lia]. apply Z.mod_divide in Hm' as [q' E']; [| lia]. rewrite E, E', !Z.div_mul in * by lia.
  split; [| lia]. apply Z.lt_succ_r, Z.div_lt_upper_bound; lia.
Qed.
Lemma ladder_length b l : ladder (b :: l) -> Z.of_nat (length l) <= slot (start b).
Proof.
  revert b. induction l as [| b' l IH]; intros b L.
  - rewrite slot_div. destruct (ladder_head b [] L) as (_ & H0 & _). apply Z.div_pos; lia.
  - destruct (ladder_slots b b' l L) as [_ Lt]. specialize (IH b' (ladder_tail _ _ _ L)). cbn [length]. lia.
Qed.

Lemma area_slots_pos b l : ladder (b :: l) -> 0 <= area_slots b.
Proof.
  intros L. destruct (ladder_head b l L) as (_ & H0 & Hs & HL). unfold area_slots, area_end, SPOOL_LIMIT in *.
  rewrite slots_for_div by lia. apply Z.div_pos; lia.
Qed.
Lemma map_areas_above b l i : ladder (b :: l) -> slot (start b) + area_slots b <= i -> map_areas (b :: l) !! i = None.
Proof.
  revert b. induction l as [| b' l IH]; intros b L Hi; cbn [map_areas]; rewrite set_slots_lookup by apply (area_slots_pos _ _ L);
    (replace (i <? _) with false by lia); rewrite andb_false_r; [apply lookup_empty |].
  apply (IH b' (ladder_tail _ _ _ L)). pose proof (ladder_slots b b' l L). pose proof (area_slots_pos _ _ L). lia.
Qed.

Lemma area_below b l c : ladder (b :: l) -> c ∈ l -> area_end c <= start b.
Proof.
  revert b. induction l as [| b' l IH]; intros b L Hc; [inversion Hc |].
  destruct (ladder_head b' l (ladder_tail _ _ _ L)) as (_ & _ & Hs & _). destruct L as (_ & He & _ & _ & _ & L).
  apply elem_of_cons in Hc as [-> | Hc]; [exact He |]. specialize (IH b' L Hc). unfold area_end in *. lia.
Qed.

(** The memory behind an offset of an area. *)
Lemma area_lookup l b off : ladder l -> b ∈ l -> start b <= off < area_end b ->
  map_areas l !! slot off = Some (mem b + (slot off - slot (start b)) * DVS_SEG_SIZE).
Proof.
  induction l as [| a l IH]; intros L Hb Ho; [inversion Hb |]. cbn [map_areas].
  rewrite set_slots_lookup by apply (area_slots_pos _ _ L). apply elem_of_cons in Hb as [-> | Hb].
  - rewrite (slots_end a l L), !slot_div. pose proof (Z.div_le_mono (start a) off (2 ^ 16) ltac:(lia) ltac:(lia)).
    assert (off / 2 ^ 16 < (area_end a + (2 ^ 16 - 1)) / 2 ^ 16).
    { apply Z.lt_le_trans with (off / 2 ^ 16 + 1); [lia |]. rewrite <- (Z.div_add off 1) by lia. apply Z.div_le_mono; lia. }
    replace (_ && _) with true by lia. reflexivity.
  - pose proof (area_below a l b L Hb). destruct (ladder_head a l L) as (Hm & _).
    assert (slot off < slot (start a)).
    { rewrite !slot_div. apply Z.mod_divide in Hm as [q E]; [| lia]. rewrite E, Z.div_mul by lia. apply Z.div_lt_upper_bound; lia. }
    replace (slot (start a) <=? slot off) with false by lia. cbn [andb].
    destruct l as [| b' l]; [inversion Hb | apply IH; [exact (ladder_tail _ _ _ L) | exact Hb | exact Ho]].
Qed.

(** ** The pool's invariant *)

Definition fixed_area (p : spool) : backing := mk_backing 0 (fixed_end p) (fixed p).
Definition areas (p : spool) : list backing := back p ++ [fixed_area p].
Definition newest (f : backing) (b : list backing) : backing := hd f b.

(** A block in use: its offset and its bytes. *)
Definition cell : Type := Z * Z.
Definition placed_in (l : list backing) (c : cell) : Prop :=
  SPOOL_FIRST <= fst c /\ 0 < snd c /\ exists b, b ∈ l /\ start b <= fst c /\ fst c + snd c <= area_end b.
(** Newest first, each below the one before. *)
Fixpoint stacked (t : Z) (l : list cell) : Prop :=
  match l with [] => True | c :: l => fst c + snd c <= t /\ stacked (fst c) l end.

(** What a counter, the backings and the blocks in use have to do with each
    other, now or at a mark. *)
Record view_ok (f : backing) (t : Z) (b : list backing) (l : list cell) : Prop := {
  vw_top : SPOOL_FIRST <= t /\ (b <> [] -> start (newest f b) <= t) /\
    (t <= area_end (newest f b) \/ t = SPOOL_FIRST /\ b = []);
  vw_cells : Forall (placed_in (b ++ [f])) l;
  vw_stacked : stacked t l }.

Definition backing_region (b : backing) : region := (mem b, size b).
Definition spare_region (a : Z) : region := (a, DVS_SEG_SIZE).

Record core_ok (p : spool) (h0 : list region) : Prop := {
  co_ladder : ladder (areas p);
  co_seg : seg p = map_areas (areas p);
  co_heap : heap p ≡ₚ map backing_region (back p) ++ map spare_region (spare p) ++ h0;
  co_regions : regions_ok (heap p);
  co_fixed : fixed_end p = 0 \/ exists r, r ∈ h0 /\ fst r <= fixed p /\ fixed p + fixed_end p <= fst r + snd r;
  co_caps : Forall (fun b => slot (start b) + area_slots b <= seg_cap p) (areas p) /\ n_back p <= back_cap p /\
    seg_cap p <= 2 ^ 18 /\ back_cap p <= 2 ^ 18;
  co_spares : Z.of_nat (length (spare p)) <= DVS_SPOOL_SPARES;
  co_grows : grows p = false -> back p = [] /\ spare p = [] }.

Record pool_ok (p : spool) (h0 : list region) (l : list cell) : Prop := {
  pk_core : core_ok p h0;
  pk_end : end_ p = area_end (newest (fixed_area p) (back p));
  pk_view : view_ok (fixed_area p) (top p) (back p) l }.

Lemma areas_newest p : exists l, areas p = newest (fixed_area p) (back p) :: l.
Proof. unfold areas, newest. destruct (back p); cbn; eauto. Qed.

Lemma stacked_le t t' l : t <= t' -> stacked t l -> stacked t' l.
Proof. destruct l; cbn; [auto | intros; intuition lia]. Qed.
Lemma stacked_below t l c : stacked t l -> Forall (fun c => 0 < snd c) l -> c ∈ l -> fst c + snd c <= t.
Proof.
  revert t. induction l as [| d l IH]; intros t S F Hc; [inversion Hc |]. cbn in S. destruct S as [S1 S2].
  rewrite list.Forall_cons in F. destruct F as [F1 F2]. apply elem_of_cons in Hc as [-> | Hc]; [exact S1 |].
  specialize (IH _ S2 F2 Hc). lia.
Qed.
(** Two blocks in use never share an offset. *)
Lemma stacked_apart t l c d : stacked t l -> Forall (fun c => 0 < snd c) l -> c ∈ l -> d ∈ l -> c <> d -> apart c d.
Proof.
  revert t. induction l as [| e l IH]; intros t S F Hc Hd Ne; [inversion Hc |]. cbn in S. destruct S as [S1 S2].
  rewrite list.Forall_cons in F. destruct F as [F1 F2]. apply elem_of_cons in Hc, Hd. unfold apart.
  destruct Hc as [-> | Hc], Hd as [-> | Hd]; [contradiction | | |].
  - right. apply (stacked_below _ _ _ S2 F2 Hd).
  - left. apply (stacked_below _ _ _ S2 F2 Hc).
  - apply (IH _ S2 F2 Hc Hd Ne).
Qed.

Lemma placed_mono l l' c : (forall b, b ∈ l -> b ∈ l') -> placed_in l c -> placed_in l' c.
Proof. intros I (H1 & H2 & b & Hb & R). split; [exact H1 |]. split; [exact H2 |]. exists b. auto. Qed.

(** *** Where the memory of a block is *)

Lemma area_ptr p h0 b off : core_ok p h0 -> b ∈ areas p -> start b <= off < area_end b ->
  spool_ptr p off = Some (mem b + (off - start b)).
Proof.
  intros C Hb Ho. unfold spool_ptr. rewrite (co_seg p h0 C). fold (slot off).
  rewrite (area_lookup (areas p) b off (co_ladder p h0 C) Hb Ho). f_equal. unfold DVS_SEG_MASK, DVS_SEG_SIZE.
  change (2 ^ 16 - 1) with (Z.ones 16). rewrite Z.land_ones, !slot_div by lia.
  assert (Hm : start b mod 2 ^ 16 = 0).
  { destruct (areas_newest p) as [l El]. pose proof (co_ladder p h0 C) as L. apply list_elem_of_split in Hb as (l1 & l2 & E).
    rewrite E in L. apply (ladder_suffix l1 (b :: l2)) in L; [| discriminate]. apply (ladder_head b l2 L). }
  pose proof (Z.div_mod off (2 ^ 16) ltac:(lia)). pose proof (Z.div_mod (start b) (2 ^ 16) ltac:(lia)). lia.
Qed.

(** Each area lies in a live region of its own. *)
Lemma area_region p h0 b : core_ok p h0 -> b ∈ areas p -> 0 < size b ->
  exists r, r ∈ heap p /\ fst r <= mem b /\ mem b + size b <= fst r + snd r /\
    ((b ∈ back p /\ r = backing_region b) \/ (b = fixed_area p /\ r ∈ h0)).
Proof.
  intros C Hb Hs. unfold areas in Hb. apply elem_of_app in Hb as [Hb | Hb].
  - exists (backing_region b). split; [| cbn; split; [lia |]; split; [lia | auto]].
    rewrite (co_heap p h0 C). apply elem_of_app. left. apply list_elem_of_fmap_2, Hb.
  - apply list_elem_of_singleton in Hb as ->. destruct (co_fixed p h0 C) as [Z0 | (r & Hr & R1 & R2)]; [cbn in Hs; lia |].
    exists r. split; [| auto]. rewrite (co_heap p h0 C). apply elem_of_app. right. apply elem_of_app. auto.
Qed.

Lemma heap_distinct p h0 b r : core_ok p h0 -> b ∈ back p -> r ∈ h0 -> backing_region b <> r.
Proof.
  intros C Hb Hr E. destruct (co_regions p h0 C) as (N & _). rewrite (co_heap p h0 C), map_app in N.
  apply list.NoDup_app in N as (_ & N & _). apply (N (fst r)).
  - rewrite <- E. apply list_elem_of_fmap_2, list_elem_of_fmap_2, Hb.
  - rewrite map_app. apply elem_of_app. right. apply list_elem_of_fmap_2, Hr.
Qed.
Lemma backs_distinct p h0 b c : core_ok p h0 -> b ∈ back p -> c ∈ back p -> backing_region b = backing_region c -> b = c.
Proof.
  intros C Hb Hc E. destruct (co_regions p h0 C) as (N & _). rewrite (co_heap p h0 C), map_app in N.
  apply list.NoDup_app in N as (N & _). rewrite map_map in N. apply list_elem_of_lookup in Hb as [i Hi], Hc as [j Hj].
  assert (i = j); [| congruence]. apply (NoDup_lookup _ i j (fst (backing_region b)) N); rewrite list_lookup_fmap.
  - rewrite Hi. reflexivity.
  - rewrite Hj, E. reflexivity.
Qed.

(** The memory of two blocks in use never overlaps. *)
Lemma cells_apart p h0 l c d : pool_ok p h0 l -> c ∈ l -> d ∈ l -> c <> d ->
  apart c d /\ exists a b, spool_ptr p (fst c) = Some a /\ spool_ptr p (fst d) = Some b /\ apart (a, snd c) (b, snd d).
Proof.
  intros [C E [_ Pl St]] Hc Hd Ne.
  assert (Po : Forall (fun c => 0 < snd c) l) by (apply (list.Forall_impl _ _ _ Pl); intros x X; apply X).
  pose proof (stacked_apart _ _ c d St Po Hc Hd Ne) as Ap. split; [exact Ap |].
  rewrite list.Forall_forall in Pl. destruct (Pl c Hc) as (_ & Pc & b & Hb & Bc). destruct (Pl d Hd) as (_ & Pd & b' & Hb' & Bd).
  exists (mem b + (fst c - start b)), (mem b' + (fst d - start b')).
  split; [apply (area_ptr p h0 b _ C Hb); lia |]. split; [apply (area_ptr p h0 b' _ C Hb'); lia |].
  unfold area_end, apart in *. cbn [fst snd] in *.
  assert (Dec : b = b' \/ b <> b') by (destruct b as [s n m], b' as [s' n' m']; destruct (Z.eq_dec s s'), (Z.eq_dec n n'), (Z.eq_dec m m'); (left; congruence) || (right; congruence)).
  destruct Dec as [<- | Nb]; [lia |].
  destruct (area_region p h0 b C Hb ltac:(lia)) as (r & Hr & R1 & R2 & K). destruct (area_region p h0 b' C Hb' ltac:(lia)) as (r' & Hr' & R1' & R2' & K').
  assert (Nr : r <> r').
  { intros <-. destruct K as [[B1 ->] | [-> B1]], K' as [[B1' X] | [X B1']].
    - apply Nb, (backs_distinct p h0 b b' C B1 B1' X).
    - apply (heap_distinct p h0 b _ C B1 B1' eq_refl).
    - subst r. apply (heap_distinct p h0 b' _ C B1' B1 eq_refl).
    - congruence. }
  destruct (co_regions p h0 C) as (_ & _ & A). specialize (A r r' Hr Hr' Nr). unfold apart in A. lia.
Qed.

(** ** Allocation keeps the invariant *)

(** [p] with larger tables, and perhaps the overflow flag. *)
Definition with_caps (p : spool) (o : bool) (sc bc : Z) : spool :=
  mk_spool (seg p) (top p) (end_ p) o sc (fixed p) (fixed_end p) (grows p) (back p) bc (spare p) (heap p).

Lemma with_caps_core p h0 o sc bc : core_ok p h0 -> seg_cap p <= sc <= 2 ^ 18 -> back_cap p <= bc <= 2 ^ 18 ->
  core_ok (with_caps p o sc bc) h0.
Proof.
  intros [L Sg Hp R Fx (Cs & Nb & S1 & B1) Sp Gr] Hs Hb. constructor; auto. unfold n_back in *. cbn in *.
  split; [| lia]. apply (list.Forall_impl _ _ _ Cs). intros b. cbn. lia.
Qed.
Lemma with_caps_ok p h0 l o sc bc : pool_ok p h0 l -> seg_cap p <= sc <= 2 ^ 18 -> back_cap p <= bc <= 2 ^ 18 ->
  pool_ok (with_caps p o sc bc) h0 l.
Proof. intros [C E V] Hs Hb. constructor; [apply with_caps_core; assumption | exact E | exact V]. Qed.

Lemma room_seg_spec granted p h0 need : core_ok p h0 -> 0 <= need < 2 ^ 16 ->
  match room_seg granted p need with
  | Some q => exists sc, q = with_caps p (overflow p) sc (back_cap p) /\ seg_cap p <= sc <= 2 ^ 18 /\ need <= sc
  | None => True
  end.
Proof.
  intros C Hn. destruct (co_caps p h0 C) as (_ & _ & Hc & _). unfold room_seg. rewrite Z.gtb_ltb.
  destruct (Z.ltb_spec (seg_cap p) need) as [Lt | Ge]; [| exists (seg_cap p); split; [destruct p; reflexivity | lia]].
  set (cap := if _ <? need then need + 16 else _). destruct (granted _); [| exact Logic.I]. exists cap. split; [reflexivity |].
  assert (0 <= seg_cap p).
  { destruct (areas_newest p) as [l E]. destruct (co_caps p h0 C) as (F & _). pose proof (co_ladder p h0 C) as L. rewrite E in *.
    rewrite list.Forall_cons in F. pose proof (area_slots_pos _ _ L). pose proof (ladder_length _ _ L). lia. }
  subst cap. unfold u32. rewrite Z.mod_small by lia. destruct (Z.ltb_spec (seg_cap p * 2) need); lia.
Qed.

Lemma room_back_spec granted p h0 : core_ok p h0 -> n_back p < 2 ^ 16 ->
  match room_back granted p with
  | Some q => exists bc, q = with_caps p (overflow p) (seg_cap p) bc /\ back_cap p <= bc <= 2 ^ 18 /\ n_back p + 1 <= bc
  | None => True
  end.
Proof.
  intros C Hn. destruct (co_caps p h0 C) as (_ & Nb & _ & Hc). unfold room_back.
  destruct (Z.eqb_spec (n_back p) (back_cap p)) as [E | Ne]; [| exists (back_cap p); split; [destruct p; reflexivity | lia]].
  assert (0 <= n_back p) by (unfold n_back; lia). destruct (granted _); [| exact Logic.I].
  eexists. split; [reflexivity |]. destruct (Z.eqb_spec (back_cap p) 0); [lia |]. unfold u32. rewrite Z.mod_small by lia. lia.
Qed.

Definition took (p q : spool) (h0 : list region) (size a : Z) (spares : list Z) (h : list region) : Prop :=
  h ≡ₚ (a, size) :: map backing_region (back p) ++ map spare_region spares ++ h0 /\ regions_ok h /\
  Z.of_nat (length spares) <= DVS_SPOOL_SPARES.

Lemma take_mem_spec malloc p h0 size : malloc_ok malloc -> core_ok p h0 -> 0 < size ->
  match take_mem malloc p size with
  | Some (a, spares, h) => took p p h0 size a spares h
  | None => True
  end.
Proof.
  intros M C Hs. unfold take_mem, took. pose proof (co_heap p h0 C) as Hp. pose proof (co_spares p h0 C) as Sp.
  assert (Fresh : forall a, malloc (heap p) size = Some a ->
    (a, size) :: heap p ≡ₚ (a, size) :: map backing_region (back p) ++ map spare_region (spare p) ++ h0 /\ regions_ok ((a, size) :: heap p)).
  { intros a Ea. split; [constructor; exact Hp | apply (regions_ok_cons malloc _ size a M Ea Hs), C]. }
  destruct (Z.eqb_spec size DVS_SEG_SIZE) as [-> | Ne].
  - destruct (spare p) as [| a rest] eqn:Es.
    + destruct (malloc (heap p) DVS_SEG_SIZE) as [a |] eqn:Ea; [| exact Logic.I]. destruct (Fresh a eq_refl). auto.
    + cbn [length] in Sp. split; [| split; [apply C | lia]]. rewrite Hp. cbn [map app]. fold (spare_region a).
      symmetry. apply Permutation_middle.
  - destruct (malloc (heap p) size) as [a |] eqn:Ea; [| exact Logic.I]. destruct (Fresh a eq_refl). auto.
Qed.

(** What a growth adds. *)
Record grew (p p' : spool) (h0 : list region) (l : list cell) (bytes o : Z) : Prop := {
  gw_ok : pool_ok p' h0 ((o, bytes) :: l);
  gw_fixed : fixed_area p' = fixed_area p;
  gw_back : exists b, back p' = b :: back p;
  gw_aligned : o mod 2 ^ 16 = 0;
  gw_above : top p <= o }.

Lemma new_start p h0 l : pool_ok p h0 l -> let e := end_ p in
  let s := Z.land (e + DVS_SEG_MASK) (Z.lnot DVS_SEG_MASK) in
  let start := if s <? SPOOL_FIRST then DVS_SEG_SIZE else s in
  start mod 2 ^ 16 = 0 /\ e <= start /\ top p <= start /\ 2 ^ 16 <= start /\
  start < e + 2 ^ 17.
Proof.
  intros K e. destruct (areas_newest p) as [rest En]. pose proof (co_ladder p h0 (pk_core p h0 l K)) as L. rewrite En in L.
  destruct (ladder_head _ _ L) as (_ & H0 & Hs & HL). pose proof (pk_end p h0 l K) as Ee. fold e in Ee.
  destruct (vw_top _ _ _ _ (pk_view p h0 l K)) as (T0 & _ & T1). rewrite <- Ee in T1. unfold area_end in *.
  assert (E0 : 0 <= e) by lia. cbv zeta.
  assert (El : Z.land (e + DVS_SEG_MASK) (Z.lnot DVS_SEG_MASK) = (e + (2 ^ 16 - 1)) / 2 ^ 16 * 2 ^ 16).
  { unfold DVS_SEG_MASK, DVS_SEG_SIZE. replace (2 ^ 16 - 1) with (Z.ones 16) at 2 by reflexivity.
    rewrite <- Z.ldiff_land, Z.ldiff_ones_r, Z.shiftr_div_pow2, Z.shiftl_mul_pow2 by lia. reflexivity. }
  rewrite El. set (q := (e + (2 ^ 16 - 1)) / 2 ^ 16).
  assert (Q1 : e <= q * 2 ^ 16 < e + 2 ^ 16).
  { pose proof (Z.div_mod (e + (2 ^ 16 - 1)) (2 ^ 16) ltac:(lia)). pose proof (Z.mod_pos_bound (e + (2 ^ 16 - 1)) (2 ^ 16) ltac:(lia)).
    unfold q. lia. }
  unfold SPOOL_FIRST, DVS_SEG_SIZE in *. destruct (Z.ltb_spec (q * 2 ^ 16) 16) as [Lt | Ge].
  - split; [reflexivity |]. lia.
  - split; [apply Z.mod_mul; lia |]. lia.
Qed.

Lemma grow_spec malloc granted p h0 l bytes : malloc_ok malloc -> pool_ok p h0 l -> 0 < bytes < 2 ^ 32 ->
  let '(r, p') := spool_grow malloc granted p bytes in
  match r with
  | Some o => grew p p' h0 l bytes o /\ overflow p' = overflow p
  | None => exists sc bc, p' = with_caps p true sc bc /\ pool_ok p' h0 l
  end.
Proof.
  intros M K Hb. pose proof (pk_core p h0 l K) as C. pose proof (co_caps p h0 C) as (Cs & Nb & S1 & B1).
  assert (Full : exists sc bc, snd (full p) = with_caps p true sc bc /\ pool_ok (snd (full p)) h0 l).
  { exists (seg_cap p), (back_cap p). split; [reflexivity |]. apply (with_caps_ok p h0 l true (seg_cap p) (back_cap p)); auto; lia. }
  unfold spool_grow. destruct (grows p) eqn:Eg; cbn [negb]; [| exact Full].
  destruct (new_start p h0 l K) as (Sm & Se & St & Sl & _). set (st := if _ <? SPOOL_FIRST then _ else _) in *.
  set (sz := if bytes <=? DVS_SEG_SIZE then DVS_SEG_SIZE else bytes).
  assert (Hz : bytes <= sz /\ 0 < sz) by (unfold sz, DVS_SEG_SIZE; destruct (Z.leb_spec bytes (2 ^ 16)); lia).
  rewrite Z.gtb_ltb. destruct (Z.ltb_spec SPOOL_LIMIT (st + sz)) as [| Lim]; [exact Full |].
  destruct (areas_newest p) as [rest En]. pose proof (co_ladder p h0 C) as L. rewrite En in L.
  assert (Ld : forall a, ladder (mk_backing st sz a :: areas p)).
  { intros a. rewrite En. destruct (ladder_head _ _ L) as (_ & H0 & Hs & _). pose proof (ladder_size _ _ L).
    pose proof (pk_end p h0 l K) as Ee. unfold area_end in Ee.
    apply ladder_cons; unfold area_end; cbn; auto; lia. }
  fold (slot st). set (k := slots_for sz).
  assert (Ek : slot st + k = (st + sz + (2 ^ 16 - 1)) / 2 ^ 16) by (exact (slots_end (mk_backing st sz 0) (areas p) (Ld 0))).
  assert (K16 : 0 <= slot st + k < 2 ^ 16).
  { rewrite Ek. unfold SPOOL_LIMIT in Lim. split; [apply Z.div_pos; lia | apply Z.div_lt_upper_bound; lia]. }
  assert (Nlt : n_back p < 2 ^ 16).
  { unfold n_back. pose proof (ladder_length _ _ (Ld 0)) as Le. unfold areas in Le. rewrite length_app in Le. cbn in Le.
    pose proof (area_slots_pos _ _ (Ld 0)). change (area_slots (mk_backing st sz 0)) with k in *. lia. }
  pose proof (room_seg_spec granted p h0 (slot st + k) C K16) as Rs. destruct (room_seg granted p (slot st + k)) as [q |]; [| exact Full].
  destruct Rs as (sc & -> & Hsc & Nsc).
  assert (Cq : core_ok (with_caps p (overflow p) sc (back_cap p)) h0) by (apply with_caps_core; auto; lia).
  pose proof (room_back_spec granted _ h0 Cq Nlt) as Rb. destruct (room_back granted _) as [q |].
  2: { exists sc, (back_cap p). split; [reflexivity | apply (with_caps_ok p h0 l true sc (back_cap p)); auto; lia]. }
  destruct Rb as (bc & -> & Hbc & Nbc). cbn in Hbc, Nbc.
  set (q := with_caps _ _ _ bc). change q with (with_caps p (overflow p) sc bc) in *. clear q.
  assert (Cq' : core_ok (with_caps p (overflow p) sc bc) h0) by (apply with_caps_core; auto; lia).
  pose proof (take_mem_spec malloc _ h0 sz M Cq' (proj2 Hz)) as Tk. destruct (take_mem malloc _ sz) as [[[a spares] h] |].
  2: { exists sc, bc. split; [reflexivity | apply (with_caps_ok p h0 l true sc bc); auto; lia]. }
  destruct Tk as (Th & Tr & Ts). cbn in Th. split; [| reflexivity]. cbn.
  constructor; [| reflexivity | eauto | exact Sm | exact St]. constructor; [| reflexivity |].
  - constructor; cbn; [exact (Ld a) | rewrite (co_seg p h0 C); reflexivity | exact Th | exact Tr | apply C | | exact Ts | congruence].
    unfold n_back in *. cbn in *. split; [| lia]. rewrite list.Forall_cons. split; [exact Nsc |].
    apply (list.Forall_impl _ _ _ Cs). intros b. lia.
  - destruct (pk_view p h0 l K) as [Tv Pv Sv]. constructor; cbn; unfold area_end, SPOOL_FIRST, placed_in; cbn.
    + split; [lia |]. split; [intros _; lia | left; lia].
    + rewrite list.Forall_cons. split.
      * cbn. unfold SPOOL_FIRST. split; [lia |]. split; [lia |]. exists (mk_backing st sz a). split; [left |]. unfold area_end. cbn. lia.
      * apply (list.Forall_impl _ _ _ Pv). intros c. apply placed_mono. intros b Hb'. right. exact Hb'.
    + split; [lia |]. apply (stacked_le (top p)); [exact St | exact Sv].
Qed.

(** [p] with another counter. *)
Lemma moved_core p h0 t e o : core_ok p h0 ->
  core_ok (mk_spool (seg p) t e o (seg_cap p) (fixed p) (fixed_end p) (grows p) (back p) (back_cap p) (spare p) (heap p)) h0.
Proof. intros []. constructor; assumption. Qed.

Lemma alloc_spec malloc granted p h0 l bytes align : malloc_ok malloc -> pool_ok p h0 l -> 0 <= bytes < 2 ^ 32 -> 0 <= align < 2 ^ 32 ->
  let n := if bytes =? 0 then 1 else bytes in
  let '(r, p') := spool_alloc malloc granted p bytes align in
  match r with
  | Some o => pool_ok p' h0 ((o, n) :: l) /\ fixed_area p' = fixed_area p /\ (exists nb, back p' = nb ++ back p) /\
      top p <= o /\ (forall k, align = 2 ^ k -> 0 <= k <= 16 -> o mod align = 0) /\ overflow p' = overflow p
  | None => pool_ok p' h0 l /\ fixed_area p' = fixed_area p /\ back p' = back p /\ top p' = top p /\ overflow p' = true
  end.
Proof.
  intros M K Hb Ha. cbv zeta. unfold spool_alloc.
  destruct (overflow p) eqn:Eo; [auto |]. set (n := if bytes =? 0 then 1 else bytes).
  assert (Hn : 0 < n < 2 ^ 32) by (unfold n; destruct (Z.eqb_spec bytes 0); lia).
  set (al := if align <? 1 then 1 else align). assert (Hal : 0 < al < 2 ^ 32) by (unfold al; destruct (Z.ltb_spec align 1); lia).
  pose proof (pk_core p h0 l K) as C. destruct (areas_newest p) as [rest En]. pose proof (co_ladder p h0 C) as L. rewrite En in L.
  destruct (ladder_head _ _ L) as (_ & H0 & Hs & HL). pose proof (pk_end p h0 l K) as Ee. destruct (pk_view p h0 l K) as [(T0 & T2 & T1) Pv Sv].
  rewrite <- Ee in *. unfold SPOOL_LIMIT, SPOOL_FIRST in *.
  destruct (align_up_range (top p) al ltac:(lia) ltac:(lia)) as [A1 A2].
  destruct (Z.leb_spec (align_up (top p) al + n) (end_ p)) as [Fit | No].
  - split; [| split; [reflexivity |]; split; [exists []; reflexivity |]; split; [exact A1 |]; split; [| reflexivity]].
    + constructor; [apply moved_core; exact C | exact Ee |].
      change (view_ok (fixed_area p) (align_up (top p) al + n) (back p) ((align_up (top p) al, n) :: l)).
      constructor; cbn [fst snd stacked]; unfold SPOOL_FIRST.
      * split; [lia |]. split; [intros X; specialize (T2 X); lia | left; rewrite <- Ee; exact Fit].
      * rewrite list.Forall_cons. split; [| exact Pv]. split; [cbn; unfold SPOOL_FIRST; lia |]. split; [cbn; lia |].
        exists (newest (fixed_area p) (back p)). split; [fold (areas p); rewrite En; left |]. cbn [fst snd].
        rewrite <- Ee. destruct (back p) as [| b bs] eqn:Eb; [cbn in *; lia |]. specialize (T2 ltac:(discriminate)). cbn in *. lia.
      * split; [lia |]. apply (stacked_le (top p)); assumption.
    + intros k -> Hk. replace al with (2 ^ k) by (unfold al; pose proof (Z.pow_pos_nonneg 2 k ltac:(lia) ltac:(lia)); destruct (Z.ltb_spec (2 ^ k) 1); lia).
      apply align_up_mod; lia.
  - pose proof (grow_spec malloc granted p h0 l n M K Hn) as G. destruct (spool_grow malloc granted p n) as [[o |] p'].
    + destruct G as [[Gk Gf [b Gb] Gm Ga] Go]. split; [exact Gk |]. split; [exact Gf |]. split; [exists [b]; exact Gb |].
      split; [exact Ga |]. split; [| congruence]. intros k -> Hk.
      apply Z.mod_divide in Gm as [q ->]; [| lia]. apply Z.mod_divide; [pose proof (Z.pow_pos_nonneg 2 k); lia |].
      exists (q * 2 ^ (16 - k)). rewrite <- Z.mul_assoc, <- Z.pow_add_r by lia. do 2 f_equal. lia.
    + destruct G as (sc & bc & -> & Gk). auto.
Qed.

(** ** A release *)

Lemma drop_core p h0 b rest : core_ok p h0 -> back p = b :: rest ->
  core_ok (drop_backing p) h0 /\ back (drop_backing p) = rest /\ fixed_area (drop_backing p) = fixed_area p.
Proof.
  intros [L Sg Hp R Fx (Cs & Nb & S1 & B1) Sp Gr] Eb. unfold drop_backing. rewrite Eb.
  assert (Sg' : clear_slots (seg p) (Z.shiftr (start b) DVS_SEG_SHIFT) (slots_for (size b)) = map_areas (rest ++ [fixed_area p])).
  { rewrite Sg. unfold areas in *. rewrite Eb in *. cbn [app map_areas]. fold (slot (start b)) (area_slots b). apply clear_set.
    - apply (area_slots_pos _ _ L).
    - intros i Hi. cbn [app] in L. destruct (rest ++ [fixed_area p]) as [| b' r] eqn:Er; [reflexivity |].
      apply (map_areas_above b' r i (ladder_tail _ _ _ L)). pose proof (ladder_slots b b' r L). lia. }
  assert (L' : ladder (rest ++ [fixed_area p])).
  { apply (ladder_suffix [b]); [destruct rest; discriminate |]. unfold areas in L. rewrite Eb in L. exact L. }
  assert (Cs' : Forall (fun b => slot (start b) + area_slots b <= seg_cap p) (rest ++ [fixed_area p])).
  { unfold areas in Cs. rewrite Eb in Cs. cbn [app] in Cs. rewrite list.Forall_cons in Cs. apply Cs. }
  assert (Nb' : Z.of_nat (length rest) <= back_cap p) by (unfold n_back in Nb; rewrite Eb in Nb; cbn [length] in Nb; lia).
  rewrite Eb in Hp. cbn [map app] in Hp.
  destruct ((size b =? DVS_SEG_SIZE) && _) eqn:E; (split; [| split; reflexivity]).
  - apply andb_prop in E as [Es El]. apply Z.eqb_eq in Es. constructor; cbn; auto; [| lia |].
    + rewrite Hp. unfold backing_region at 1. rewrite Es. fold (spare_region (mem b)). rewrite <- Permutation_middle. reflexivity.
    + intros G. destruct (Gr G) as [X _]. rewrite Eb in X. discriminate X.
  - constructor; cbn; auto.
    + apply (release_spec _ (backing_region b) _ R). exact Hp.
    + pose proof (release_spec _ (backing_region b) _ R Hp) as P. cbn [fst backing_region] in P.
      apply (regions_ok_perm _ _ (symmetry P)). apply (regions_ok_sub (heap p) _ Hp [backing_region b]); [reflexivity | exact R].
    + intros G. destruct (Gr G) as [X _]. rewrite Eb in X. discriminate X.
Qed.

Lemma drop_all h0 nb : forall p b, core_ok p h0 -> back p = nb ++ b ->
  let q := drop_backings (length nb) p in core_ok q h0 /\ back q = b /\ fixed_area q = fixed_area p.
Proof.
  induction nb as [| x nb IH]; intros p b C E; cbn [length drop_backings]; [auto |].
  destruct (drop_core p h0 x (nb ++ b) C E) as (C' & E' & F'). destruct (IH _ b C' E') as (C2 & E2 & F2).
  split; [exact C2 |]. split; [exact E2 | congruence].
Qed.

(** The client's note of a mark: the mark, and what was in use then. *)
Record snap := mk_snap { s_mark : mark; s_back : list backing; s_live : list cell }.

(** A snapshot of a view. *)
Definition snap_of (f : backing) (s : snap) : Prop :=
  view_ok f (m_top (s_mark s)) (s_back s) (s_live s) /\ m_n_back (s_mark s) = Z.of_nat (length (s_back s)) /\
  m_end (s_mark s) = area_end (newest f (s_back s)).
(** [s] was taken at or before the view. *)
Definition since (t : Z) (b : list backing) (l : list cell) (s : snap) : Prop :=
  exists nb nl, b = nb ++ s_back s /\ l = nl ++ s_live s /\ (nb = [] -> m_top (s_mark s) <= t).

Fixpoint snaps_ok (f : backing) (t : Z) (b : list backing) (l : list cell) (ms : list snap) : Prop :=
  match ms with
  | [] => True
  | s :: ms => snap_of f s /\ since t b l s /\ snaps_ok f (m_top (s_mark s)) (s_back s) (s_live s) ms
  end.

Lemma since_trans t b l s t' b' l' : since t b l s -> (exists nb nl, b' = nb ++ b /\ l' = nl ++ l /\ (nb = [] -> t <= t')) -> since t' b' l' s.
Proof.
  intros (nb & nl & -> & -> & T) (nb' & nl' & -> & -> & T'). exists (nb' ++ nb), (nl' ++ nl). rewrite <- !app_assoc.
  split; [reflexivity |]. split; [reflexivity |]. intros E. apply app_eq_nil in E as [E1 E2]. specialize (T E2). specialize (T' E1). lia.
Qed.
Lemma snaps_grow f t b l t' b' l' ms : snaps_ok f t b l ms ->
  (exists nb nl, b' = nb ++ b /\ l' = nl ++ l /\ (nb = [] -> t <= t')) -> snaps_ok f t' b' l' ms.
Proof. destruct ms as [| s ms]; [auto |]. intros (S & Si & R) G. split; [exact S |]. split; [| exact R]. apply (since_trans t b l); assumption. Qed.

(** An older snapshot, past the newer ones. *)
Lemma snaps_older f ms1 s ms2 : forall t b l, snaps_ok f t b l (ms1 ++ s :: ms2) ->
  snap_of f s /\ since t b l s /\ snaps_ok f (m_top (s_mark s)) (s_back s) (s_live s) ms2.
Proof.
  induction ms1 as [| s1 ms1 IH]; intros t b l; cbn [app snaps_ok]; [tauto |]. intros (S1 & (nb & nl & -> & -> & T) & R).
  destruct (IH _ _ _ R) as (S & Si & R2). split; [exact S |]. split; [| exact R2].
  apply (since_trans _ _ _ s _ _ _ Si). eauto.
Qed.

(** After a release the pool is the one of the mark, except that a release with
    nothing allocated since leaves the overflow flag. *)
Lemma release_spec_pool p h0 l s : pool_ok p h0 l -> snap_of (fixed_area p) s -> since (top p) (back p) l s ->
  let q := spool_release p (s_mark s) in
  pool_ok q h0 (s_live s) /\ fixed_area q = fixed_area p /\ back q = s_back s /\ top q = m_top (s_mark s) /\
  (overflow q = m_overflow (s_mark s) \/ back p = s_back s /\ top p = m_top (s_mark s) /\ q = p).
Proof.
  intros [C E V] (Vs & Ns & Es) (nb & nl & Eb & El & Tt). cbv zeta. unfold spool_release, n_back. rewrite Ns, Eb, length_app.
  destruct (Z.gtb_spec (Z.of_nat (length (s_back s))) (Z.of_nat (length nb + length (s_back s)))); [lia |]. cbn [orb].
  destruct ((Z.of_nat (length (s_back s)) =? _) && (m_top (s_mark s) >=? top p)) eqn:Ec.
  - apply andb_prop in Ec as [Ec1 Ec2]. destruct nb as [| b0 nb]; [| cbn [length] in Ec1; lia]. specialize (Tt eq_refl).
    cbn [app] in Eb. assert (top p = m_top (s_mark s)) as Et by lia.
    split; [constructor; [exact C | exact E | rewrite Et, Eb; exact Vs] |]. auto 8.
  - replace (Z.to_nat (Z.of_nat (length nb + length (s_back s)) - Z.of_nat (length (s_back s)))) with (length nb) by lia.
    destruct (drop_all h0 nb p (s_back s) C Eb) as (C' & Eb' & F'). set (q := drop_backings _ _) in *. cbn [back top fixed_area fixed fixed_end overflow].
    assert (Ff : mk_backing 0 (fixed_end q) (fixed q) = fixed_area p) by exact F'.
    split; [| split; [exact Ff |]; split; [exact Eb' |]; auto].
    constructor; cbn.
    + apply moved_core, C'.
    + unfold fixed_area at 1. cbn. rewrite Ff, Eb'. exact Es.
    + unfold fixed_area at 1. cbn. rewrite Ff, Eb'. exact Vs.
Qed.

(** ** Sessions *)

Lemma init_spec granted h0 buf bytes grow p : regions_ok h0 -> 0 <= bytes ->
  (buf <> 0 -> exists r, r ∈ h0 /\ fst r <= buf /\ buf + bytes <= fst r + snd r) ->
  spool_init granted h0 buf bytes grow = Some p -> pool_ok p h0 [].
Proof.
  intros R Hb Hr. unfold spool_init.
  set (n := if buf =? 0 then 0 else bytes). set (m := if n >? SPOOL_LIMIT then SPOOL_LIMIT else n).
  assert (Hm : 0 <= m <= SPOOL_LIMIT /\ (m = 0 \/ exists r, r ∈ h0 /\ fst r <= buf /\ buf + m <= fst r + snd r)).
  { unfold m, n. rewrite Z.gtb_ltb. unfold SPOOL_LIMIT. destruct (Z.eqb_spec buf 0) as [| Ne]; [cbn; lia |].
    destruct (Hr Ne) as (r & Hin & R1 & R2). destruct (Z.ltb_spec 0xFFFF0000 bytes); (split; [lia |]); right; exists r; repeat split; auto; lia. }
  clearbody m. clear n Hr Hb. destruct Hm as [Hm Hf].
  assert (Make : forall d sz cap, 0 <= sz <= m -> slots_for sz <= cap <= 2 ^ 18 ->
    (sz = 0 \/ exists r, r ∈ h0 /\ fst r <= d /\ d + sz <= fst r + snd r) ->
    pool_ok (mk_spool (set_slots ∅ 0 (slots_for sz) d) SPOOL_FIRST sz false cap d sz grow [] 0 [] h0) h0 []).
  { intros d sz cap Hs Hc Hd. constructor; [| reflexivity |].
    - constructor; cbn; [lia | reflexivity | reflexivity | exact R | exact Hd | | unfold DVS_SPOOL_SPARES; lia | auto].
      split; [| unfold n_back; cbn; lia]. repeat constructor. exact (proj1 Hc).
    - constructor; cbn; auto. unfold SPOOL_FIRST. split; [lia |]. split; [tauto | auto]. }
  assert (Sm : forall x, 0 <= x <= m -> 0 <= slots_for x /\ slots_for x <= slots_for m /\ slots_for m < 2 ^ 16).
  { intros x Hx. unfold SPOOL_LIMIT in Hm. rewrite !slots_for_div by lia. split; [apply Z.div_pos; lia |].
    split; [apply Z.div_le_mono; lia | apply Z.div_lt_upper_bound; lia]. }
  destruct grow; cbn [negb].
  - destruct (granted _); [| discriminate]. intros [= <-]. destruct (Sm m ltac:(lia)) as (S0 & _ & S2).
    apply Make; [lia | unfold u32; rewrite Z.mod_small by lia; lia | exact Hf].
  - set (tb := Z.land _ _). rewrite Z.geb_leb. destruct (Z.leb_spec m tb) as [| Lt]; [discriminate |]. intros [= <-].
    assert (T0 : 0 <= tb) by (apply Z.land_nonneg; left; destruct (Sm m ltac:(lia)); lia).
    destruct (Sm (m - tb) ltac:(lia)) as (S0 & S1 & S2). apply Make; [lia | lia |].
    right. destruct Hf as [-> | (r & Hr & R1 & R2)]; [lia |]. exists r. repeat split; auto; lia.
Qed.

(** A client: the pool, its blocks in use, and its marks, newest first.  It may
    release to any of its marks, which stays good. *)
Record client := mk_client { pool : spool; live : list cell; snaps : list snap }.

Inductive call (malloc : list region -> Z -> option Z) (granted : Z -> bool) : client -> client -> Prop :=
| call_alloc p l ms bytes align : 0 <= bytes < 2 ^ 32 -> 0 <= align < 2 ^ 32 ->
    call malloc granted (mk_client p l ms)
      (mk_client (snd (spool_alloc malloc granted p bytes align))
        (match fst (spool_alloc malloc granted p bytes align) with
         | Some o => (o, if bytes =? 0 then 1 else bytes) :: l
         | None => l
         end) ms)
| call_mark p l ms : call malloc granted (mk_client p l ms) (mk_client p l (mk_snap (spool_mark p) (back p) l :: ms))
| call_release p l ms1 s ms2 :
    call malloc granted (mk_client p l (ms1 ++ s :: ms2)) (mk_client (spool_release p (s_mark s)) (s_live s) (s :: ms2)).

Definition client_ok (f : backing) (h0 : list region) (c : client) : Prop :=
  pool_ok (pool c) h0 (live c) /\ fixed_area (pool c) = f /\ snaps_ok f (top (pool c)) (back (pool c)) (live c) (snaps c).

Lemma call_ok malloc granted f h0 c c' : malloc_ok malloc -> client_ok f h0 c -> call malloc granted c c' -> client_ok f h0 c'.
Proof.
  intros M (K & F & Sn) St. destruct St as [p l ms bytes align Hb Ha | p l ms | p l ms1 s ms2]; cbn in *.
  - pose proof (alloc_spec malloc granted p h0 l bytes align M K Hb Ha) as A. cbv zeta in A.
    destruct (spool_alloc malloc granted p bytes align) as [[o |] p']; cbn [fst snd] in *.
    + destruct A as (K' & F' & (nb & Eb) & Le & _). split; [exact K' |]. split; [cbn; congruence |]. cbn.
      apply (snaps_grow f (top p) (back p) l); [exact Sn |]. exists nb, [(o, if bytes =? 0 then 1 else bytes)].
      split; [exact Eb |]. split; [reflexivity |]. intros _.
      pose proof (vw_stacked _ _ _ _ (pk_view _ _ _ K')) as [St' _]. cbn in St'. destruct (Z.eqb_spec bytes 0); lia.
    + destruct A as (K' & F' & Eb & Et & _). split; [exact K' |]. split; [cbn; congruence |]. cbn. rewrite Eb, Et. exact Sn.
  - split; [exact K |]. split; [exact F |]. cbn. split; [| split; [exists [], []; cbn; repeat split; lia | exact Sn]].
    split; cbn; [rewrite <- F; apply K |]. split; [reflexivity |]. rewrite <- F. apply K.
  - destruct (snaps_older f ms1 s ms2 _ _ _ Sn) as (S & Si & R). rewrite <- F in S.
    destruct (release_spec_pool p h0 l s K S Si) as (K' & F' & Eb & Et & _).
    split; [exact K' |]. split; [cbn; congruence |]. cbn. rewrite Eb, Et, <- F. split; [exact S |].
    split; [exists [], []; cbn; repeat split; lia |]. rewrite F. exact R.
Qed.

Lemma calls_ok malloc granted f h0 c c' : malloc_ok malloc -> client_ok f h0 c -> rtc (call malloc granted) c c' -> client_ok f h0 c'.
Proof. intros M K R. induction R; [exact K |]. apply IHR. eapply call_ok; eauto. Qed.

Section Session.
Context (malloc : list region -> Z -> option Z) (granted : Z -> bool) (h0 : list region) (buf bytes : Z) (grow : bool) (p0 : spool).
Context (Hm : malloc_ok malloc) (H0 : regions_ok h0) (Hbytes : 0 <= bytes).
Context (Hbuf : buf <> 0 -> exists r, r ∈ h0 /\ fst r <= buf /\ buf + bytes <= fst r + snd r).
Context (Hinit : spool_init granted h0 buf bytes grow = Some p0).

Lemma session_ok c : rtc (call malloc granted) (mk_client p0 [] []) c -> client_ok (fixed_area p0) h0 c.
Proof.
  apply calls_ok; [exact Hm |]. split; [apply (init_spec granted h0 buf bytes grow p0 H0 Hbytes Hbuf Hinit) |]. split; [reflexivity | exact Logic.I].
Qed.

Lemma map_areas_cap cap l i a : ladder l -> Forall (fun b => slot (start b) + area_slots b <= cap) l -> map_areas l !! i = Some a -> 0 <= i < cap.
Proof.
  induction l as [| b l IH]; intros L F E; [destruct L |]. cbn [map_areas] in E.
  rewrite set_slots_lookup in E by apply (area_slots_pos _ _ L). rewrite list.Forall_cons in F. destruct F as [Fb F].
  pose proof (ladder_length _ _ L). destruct ((slot (start b) <=? i) && _) eqn:Ec; [lia |].
  destruct l as [| b' l]; [cbn in E; rewrite lookup_empty in E; discriminate |]. apply IH; [exact (ladder_tail _ _ _ L) | exact F | exact E].
Qed.

Lemma release_all {A} (reg : A -> region) xs : forall h k, h ≡ₚ map reg xs ++ k -> regions_ok h ->
  fold_left release (map (fun x => fst (reg x)) xs) h ≡ₚ k /\ regions_ok (fold_left release (map (fun x => fst (reg x)) xs) h).
Proof.
  induction xs as [| x xs IH]; intros h k P R; cbn [map fold_left]; [auto |]. cbn [map app] in P.
  pose proof (release_spec h (reg x) _ R P) as P'. apply IH; [exact P' |].
  apply (regions_ok_perm _ _ (symmetry P')), (regions_ok_sub h _ P [reg x]); [reflexivity | exact R].
Qed.

(** C28: The pool is safe.  In any session of allocations, marks and releases, every
    block in use is a range of offsets from 16 on and below the limit, its bytes
    are consecutive in memory, slots notwithstanding, and lie in one live region;
    two blocks overlap neither as offsets nor in memory; the tables hold every
    entry within their capacity; and destroying the pool leaves exactly the
    regions live before. *)
Theorem pool_safe c : rtc (call malloc granted) (mk_client p0 [] []) c ->
  let p := pool c in
  (forall x, x ∈ live c -> SPOOL_FIRST <= fst x /\ 0 < snd x /\ fst x + snd x <= SPOOL_LIMIT /\
    exists a r, (forall i, 0 <= i < snd x -> spool_ptr p (fst x + i) = Some (a + i)) /\
      r ∈ heap p /\ fst r <= a /\ a + snd x <= fst r + snd r) /\
  (forall x y, x ∈ live c -> y ∈ live c -> x <> y -> apart x y /\
    exists a b, spool_ptr p (fst x) = Some a /\ spool_ptr p (fst y) = Some b /\ apart (a, snd x) (b, snd y)) /\
  (forall i a, seg p !! i = Some a -> 0 <= i < seg_cap p) /\ n_back p <= back_cap p /\
  spool_destroy p ≡ₚ h0.
Proof.
  intros R p. destruct (session_ok c R) as (K & _ & _). fold p in K. pose proof (pk_core _ _ _ K) as C. split; [| split; [| split; [| split]]].
  - intros x Hx. pose proof (vw_cells _ _ _ _ (pk_view _ _ _ K)) as Pl. rewrite list.Forall_forall in Pl.
    destruct (Pl x Hx) as (P1 & P2 & b & Hb & B1 & B2). fold (areas p) in Hb. split; [exact P1 |]. split; [exact P2 |].
    assert (Sb : 0 < size b) by (unfold area_end in B2; lia). destruct (area_region p h0 b C Hb Sb) as (r & Hr & R1 & R2 & _).
    split.
    + pose proof (co_ladder _ _ C) as L. apply list_elem_of_split in Hb as (l1 & l2 & E). rewrite E in L.
      apply (ladder_suffix l1) in L; [| discriminate]. destruct (ladder_head _ _ L) as (_ & _ & _ & HL). lia.
    + exists (mem b + (fst x - start b)), r. split; [| split; [exact Hr |]; unfold area_end in B2; lia].
      intros i Hi. rewrite (area_ptr p h0 b _ C Hb) by lia. f_equal. lia.
  - intros x y Hx Hy Ne. apply (cells_apart p h0 (live c) x y K Hx Hy Ne).
  - intros i a E. rewrite (co_seg _ _ C) in E. apply (map_areas_cap _ (areas p) i a (co_ladder _ _ C)); [apply (co_caps _ _ C) | exact E].
  - apply (co_caps _ _ C).
  - unfold spool_destroy. pose proof (co_heap _ _ C) as Hp. destruct (grows p) eqn:G; cbn [negb].
    + destruct (release_all backing_region (back p) _ _ Hp (co_regions _ _ C)) as [P1 R1]. change (fun x => fst (backing_region x)) with mem in *.
      destruct (release_all spare_region (spare p) _ _ P1 R1) as [P2 _].
      change (fun x => fst (spare_region x)) with (fun x : Z => x) in P2. rewrite map_id in P2. exact P2.
    + destruct (co_grows _ _ C G) as [Eb Es]. rewrite Eb, Es in Hp. exact Hp.
Qed.

(** C29: A release undoes.  Whatever is allocated, marked and released after a mark,
    a release to it brings back the counter, the backings and the table, and with
    them the address of every block in use at the mark; the overflow flag is
    the mark's too, unless nothing was allocated since, when the pool is left as
    it is. *)
Theorem release_restores c1 c2 ms1 : rtc (call malloc granted) (mk_client p0 [] []) c1 ->
  rtc (call malloc granted) (mk_client (pool c1) (live c1) (mk_snap (spool_mark (pool c1)) (back (pool c1)) (live c1) :: snaps c1)) c2 ->
  snaps c2 = ms1 ++ mk_snap (spool_mark (pool c1)) (back (pool c1)) (live c1) :: snaps c1 ->
  let p := pool c1 in
  let q := spool_release (pool c2) (spool_mark p) in
  top q = top p /\ end_ q = end_ p /\ back q = back p /\ seg q = seg p /\ (forall off, spool_ptr q off = spool_ptr p off) /\
  (overflow q = overflow p \/ q = pool c2 /\ top (pool c2) = top p /\ back (pool c2) = back p).
Proof.
  intros R1 R2 E p q. destruct (session_ok c1 R1) as (K1 & F1 & Sn1).
  assert (K1' : client_ok (fixed_area p0) h0 (mk_client p (live c1) (mk_snap (spool_mark p) (back p) (live c1) :: snaps c1))).
  { apply (call_ok malloc granted _ h0 c1); [exact Hm | exact (conj K1 (conj F1 Sn1)) |]. destruct c1. constructor. }
  destruct (calls_ok malloc granted _ h0 _ c2 Hm K1' R2) as (K2 & F2 & Sn2). rewrite E in Sn2.
  destruct (snaps_older _ _ _ _ _ _ _ Sn2) as (S & Si & _). rewrite <- F2 in S.
  destruct (release_spec_pool (pool c2) h0 (live c2) _ K2 S Si) as (Kq & Fq & Eb & Et & Eo). cbn [s_mark s_back s_live] in *.
  fold p in Kq, Fq, Eb, Et, Eo. fold q in Kq, Fq, Eb, Et, Eo. cbn [spool_mark m_top m_overflow] in Et, Eo.
  assert (Ff : fixed_area q = fixed_area p) by (unfold p; congruence).
  assert (Es : seg q = seg p).
  { etransitivity; [apply (co_seg _ _ (pk_core _ _ _ Kq)) |]. symmetry. etransitivity; [apply (co_seg _ _ (pk_core _ _ _ K1)) |].
    unfold areas. fold p. rewrite Eb, Ff. reflexivity. }
  assert (Ee : end_ q = end_ p).
  { etransitivity; [apply (pk_end _ _ _ Kq) |]. symmetry. etransitivity; [apply (pk_end _ _ _ K1) |]. fold p. rewrite Eb, Ff. reflexivity. }
  split; [exact Et |]. split; [exact Ee |].
  split; [exact Eb |]. split; [exact Es |]. split; [intros off; unfold spool_ptr; rewrite Es; reflexivity |].
  destruct Eo as [? | (X1 & X2 & X3)]; auto.
Qed.
End Session.

(** The pool of the witnesses: a buffer of 100 bytes, and growth. *)
Definition demo_pool0 : spool :=
  default (mk_spool ∅ 0 0 false 0 0 0 false [] 0 [] []) (spool_init (fun _ => true) [(4096, 100)] 4096 100 true).
Definition demo_alloc (p : spool) (n : Z) : option Z * spool := spool_alloc bump_malloc (fun _ => true) p n 8.
Definition demo_pool1 : spool := snd (demo_alloc demo_pool0 50).
Definition demo_pool2 : spool := snd (demo_alloc demo_pool1 70000).
Definition demo_snap : snap := mk_snap (spool_mark demo_pool1) (back demo_pool1) [(16, 50)].

Lemma demo_regions : regions_ok [(4096, 100)].
Proof.
  split; [repeat constructor; intros X; inversion X |]. split; [repeat constructor |].
  intros r s Hr Hs Ne. apply list_elem_of_singleton in Hr as ->, Hs as ->. contradiction.
Qed.
Lemma demo_buffer : 4096 <> 0 -> exists r, r ∈ [(4096, 100)] /\ fst r <= 4096 /\ 4096 + 100 <= fst r + snd r.
Proof. intros _. exists (4096, 100). split; [left | cbn; lia]. Qed.

Lemma demo_calls1 : rtc (call bump_malloc (fun _ => true)) (mk_client demo_pool0 [] []) (mk_client demo_pool1 [(16, 50)] []).
Proof. apply rtc_once. exact (call_alloc bump_malloc (fun _ => true) demo_pool0 [] [] 50 8 ltac:(lia) ltac:(lia)). Qed.
Lemma demo_calls2 : rtc (call bump_malloc (fun _ => true)) (mk_client demo_pool1 [(16, 50)] [demo_snap])
  (mk_client demo_pool2 [(65536, 70000); (16, 50)] [demo_snap]).
Proof. apply rtc_once. exact (call_alloc bump_malloc (fun _ => true) demo_pool1 [(16, 50)] [demo_snap] 70000 8 ltac:(lia) ltac:(lia)). Qed.

Lemma pool_safe_witness : apart (65536, 70000) (16, 50) /\ spool_destroy demo_pool2 ≡ₚ [(4096, 100)] /\
  spool_ptr demo_pool2 (65536 + 69999) = Some (4208 + 69999).
Proof.
  assert (R : rtc (call bump_malloc (fun _ => true)) (mk_client demo_pool0 [] []) (mk_client demo_pool2 [(65536, 70000); (16, 50)] [demo_snap])).
  { etransitivity; [exact demo_calls1 |]. eapply rtc_l; [apply call_mark | exact demo_calls2]. }
  destruct (pool_safe bump_malloc (fun _ => true) [(4096, 100)] 4096 100 true demo_pool0 bump_malloc_ok demo_regions ltac:(lia)
    demo_buffer ltac:(vm_compute; reflexivity) _ R) as (_ & A & _ & _ & D). cbn [live pool] in *.
  split; [apply (A (65536, 70000) (16, 50)); [left | right; left | discriminate] |]. split; [exact D | vm_compute; reflexivity].
Defined.

Lemma release_restores_witness : let q := spool_release demo_pool2 (spool_mark demo_pool1) in
  top q = 66 /\ back q = [] /\ spool_ptr q 16 = Some 4112 /\ spool_ptr q 65536 = None /\ spool_ptr demo_pool2 65536 = Some 4208.
Proof.
  intros q. destruct (release_restores bump_malloc (fun _ => true) [(4096, 100)] 4096 100 true demo_pool0 bump_malloc_ok demo_regions
    ltac:(lia) demo_buffer ltac:(vm_compute; reflexivity) (mk_client demo_pool1 [(16, 50)] [])
    (mk_client demo_pool2 [(65536, 70000); (16, 50)] [demo_snap]) [] demo_calls1 demo_calls2 eq_refl) as (Et & _ & Eb & _ & Ep & _).
  cbn [pool] in *. fold q in Et, Eb, Ep. split; [rewrite Et; vm_compute; reflexivity |]. split; [rewrite Eb; vm_compute; reflexivity |].
  rewrite !Ep. split; [vm_compute; reflexivity |]. split; vm_compute; reflexivity.
Defined.

(** A fixed pool that overflowed with nothing served since the mark stays
    overflowed after the release, although it was not at the mark. *)
Lemma release_keeps_overflow :
  match spool_init (fun _ => true) [(4096, 100)] 4096 100 false with
  | Some p =>
      let m := spool_mark p in
      let q := spool_release (snd (demo_alloc p 200)) m in
      (m_overflow m, overflow q, fst (demo_alloc q 8)) = (false, true, None)
  | None => False
  end.
Proof. vm_compute. reflexivity. Qed.
End Spool.
