(* ===== verification/Components.v ===== *)
(** * Components: union-find and the numbering of components
    (src/src/c/dvs_components.c)

    A problem is split into parts that share no variable: the ids that one
    constraint reads are united, and the variables are numbered by their root.
    The file gives the forest with path compression, whose roots are the lowest
    ids, and shows that after any sequence of unions two ids have the same root
    exactly if the unions connect them, and that the numbering gives two
    variables the same component exactly then, in order of first appearance. *)

From Stdlib Require Import ZArith Lia ZifyBool Bool.
From stdpp Require Import base list numbers relations.
From S2P Require Import Prelude.
Open Scope Z_scope.

Module Components.

Definition UINT32_MAX : Z := 2 ^ 32 - 1.
(** [l\[i\]] and [l\[i\] = v] within the table. *)
Definition get (l : list Z) (i : Z) : Z := default 0 (l !! Z.to_nat i).
Definition put (l : list Z) (i v : Z) : list Z := <[Z.to_nat i := v]> l.

Record uf := mk_uf { parent : list Z; uf_n : Z }.

Record comps := mk_comps { var_comp : list Z; comp_vars : Z; n_comp : Z; largest : Z }.

Section Ops.
(** Whether the [i]-th allocation of a session, of so many bytes, is granted. *)
Context (malloc : nat -> Z -> bool).

Definition uf_init (n : Z) : option uf :=
  if malloc 0%nat ((if n =? 0 then 1 else n) * 4) then Some (mk_uf (seqZ 0 n) n) else None.

(** [while (uf->parent\[r\] != r) r = uf->parent\[r\];] *)
Fixpoint find_root (fuel : nat) (p : list Z) (r : Z) : option Z :=
  match fuel with
  | O => None
  | S fuel => if get p r =? r then Some r else find_root fuel p (get p r)
  end.
Fixpoint compress (fuel : nat) (p : list Z) (x r : Z) : option (list Z) :=
  match fuel with
  | O => None
  | S fuel => if get p x =? r then Some p else compress fuel (put p x r) (get p x) r
  end.
Definition uf_find (u : uf) (x : Z) : option (Z * uf) :=
  let fuel := S (length (parent u)) in
  match find_root fuel (parent u) x with
  | None => None
  | Some r =>
      match compress fuel (parent u) x r with
      | None => None
      | Some p => Some (r, mk_uf p (uf_n u))
      end
  end.

Definition uf_union (u : uf) (a b : Z) : option uf :=
  match uf_find u a with
  | None => None
  | Some (a, u) =>
      match uf_find u b with
      | None => None
      | Some (b, u) =>
          if a =? b then Some u else
          if a <? b then Some (mk_uf (put (parent u) b a) (uf_n u))
          else Some (mk_uf (put (parent u) a b) (uf_n u))
      end
  end.

(** The loop's state: the forest, [id_of], [size] and [*out]. *)
Record numbering := mk_num { nm_uf : uf; id_of : list Z; sizes : list Z; nm_out : comps }.

Definition number_step (used : Z -> bool) (s : numbering) (v : Z) : option numbering :=
  let o := nm_out s in
  if negb (used v) then
    Some (mk_num (nm_uf s) (id_of s) (sizes s)
      (mk_comps (put (var_comp o) v UINT32_MAX) (comp_vars o) (n_comp o) (largest o)))
  else
    match uf_find (nm_uf s) v with
    | None => None
    | Some (r, u) =>
        let '(ids, nc) :=
          if get (id_of s) r =? UINT32_MAX then (put (id_of s) r (n_comp o), u32 (n_comp o + 1))
          else (id_of s, n_comp o) in
        let c := get ids r in
        let sz := put (sizes s) c (u32 (get (sizes s) c + 1)) in
        Some (mk_num u ids sz
          (mk_comps (put (var_comp o) v c) (comp_vars o) nc
            (if get sz c >? largest o then get sz c else largest o)))
    end.

Fixpoint number_loop (used : Z -> bool) (s : numbering) (vs : list Z) : option numbering :=
  match vs with
  | [] => Some s
  | v :: vs => match number_step used s v with Some s => number_loop used s vs | None => None end
  end.

(** [None]: out of memory, the function returns 0.  The contents of fresh
    blocks of [malloc] are written before they are read. *)
Definition components_from_uf (u : uf) (used : Z -> bool) (n_vars : Z) : option (option (comps * uf)) :=
  let var_comp_ok := malloc 1%nat ((if n_vars =? 0 then 1 else n_vars) * 4) in
  let id_of_ok := malloc 2%nat ((if uf_n u =? 0 then 1 else uf_n u) * 4) in
  let size_ok := malloc 3%nat ((if n_vars =? 0 then 1 else n_vars) * 4) in
  if var_comp_ok && id_of_ok && size_ok then
    match number_loop used
      (mk_num u (replicate (Z.to_nat (uf_n u)) UINT32_MAX) (replicate (Z.to_nat n_vars) 0)
        (mk_comps (replicate (Z.to_nat n_vars) 0) n_vars 0 0)) (seqZ 0 n_vars) with
    | None => None
    | Some s => Some (Some (nm_out s, nm_uf s))
    end
  else Some None.
End Ops.

(** ** The forest *)

Lemma get_put l i j v : 0 <= i < Z.of_nat (length l) -> 0 <= j -> get (put l i v) j = if j =? i then v else get l j.
Proof.
  intros Hi Hj. unfold get, put. destruct (Z.eqb_spec j i) as [-> | Ne].
  - rewrite list_lookup_insert_eq by lia. reflexivity.
  - rewrite list_lookup_insert_ne by lia. reflexivity.
Qed.
Lemma length_put l i v : length (put l i v) = length l.
Proof. apply length_insert. Qed.

Section Forest.
Implicit Types p : list Z.

(** Every parent is at most its child: the roots are the lowest ids. *)
Definition wf_forest p : Prop := forall i, 0 <= i < Z.of_nat (length p) -> 0 <= get p i <= i.

(** The way up from an id to its root. *)
Inductive leads p : Z -> Z -> Prop :=
| leads_root x : get p x = x -> leads p x x
| leads_up x r : get p x <> x -> leads p (get p x) r -> leads p x r.

Lemma leads_fun p x r s : leads p x r -> leads p x s -> r = s.
Proof.
  intros L. revert s. induction L as [x E | x r N L IH]; intros s Ls; inversion Ls; subst; auto; congruence.
Qed.
Lemma leads_top p x r : leads p x r -> get p r = r.
Proof. induction 1; auto. Qed.
Lemma leads_le p x r : wf_forest p -> leads p x r -> 0 <= x < Z.of_nat (length p) -> 0 <= r <= x.
Proof.
  intros W. induction 1 as [x E | x r N L IH]; intros Hx; [lia |]. pose proof (W x Hx). lia.
Qed.

Lemma find_root_spec p fuel : forall x, wf_forest p -> 0 <= x < Z.of_nat (length p) -> x < Z.of_nat fuel ->
  exists r, find_root fuel p x = Some r /\ leads p x r.
Proof.
  induction fuel as [| fuel IH]; intros x W Hx Hf; [lia |]. cbn.
  destruct (Z.eqb_spec (get p x) x) as [E | N]; [exists x; split; [reflexivity | constructor; exact E] |].
  pose proof (W x Hx). destruct (IH (get p x) W ltac:(lia) ltac:(lia)) as (r & -> & L).
  exists r. split; [reflexivity | apply leads_up; assumption].
Qed.

(** Pointing an id at its root changes no root. *)
Lemma shortcut_leads p x r : 0 <= x < Z.of_nat (length p) -> wf_forest p -> leads p x r -> x <> r ->
  forall y s, 0 <= y < Z.of_nat (length p) -> leads p y s -> leads (put p x r) y s.
Proof.
  intros Hx W L Nx y s Hy Ly. pose proof (leads_le p x r W L Hx) as Hr. pose proof (leads_top _ _ _ L) as Et.
  induction Ly as [y E | y s N Ly IH].
  - constructor. rewrite get_put by lia. destruct (Z.eqb_spec y x) as [-> |]; [| exact E].
    inversion L; congruence.
  - pose proof (W y Hy) as By. destruct (Z.eq_dec y x) as [-> | Ne].
    + assert (s = r) as -> by (apply (leads_fun p x); [apply leads_up; assumption | exact L]).
      apply leads_up; rewrite get_put by lia; rewrite Z.eqb_refl; [congruence |].
      constructor. rewrite get_put by lia. destruct (Z.eqb_spec r x); congruence.
    + apply leads_up; rewrite get_put by lia; destruct (Z.eqb_spec y x); try contradiction; [exact N | apply IH; lia].
Qed.

Lemma shortcut_wf p x r : 0 <= x < Z.of_nat (length p) -> wf_forest p -> 0 <= r <= x -> wf_forest (put p x r).
Proof.
  intros Hx W Hr i Hi. rewrite length_put in Hi. rewrite get_put by lia. specialize (W i Hi).
  destruct (Z.eqb_spec i x); lia.
Qed.

(** The same roots. *)
Definition same_roots p p' : Prop := length p' = length p /\ wf_forest p' /\
  forall y s, 0 <= y < Z.of_nat (length p) -> leads p y s -> leads p' y s.

Lemma compress_spec fuel r : forall p x, wf_forest p -> 0 <= x < Z.of_nat (length p) -> x < Z.of_nat fuel ->
  leads p x r -> exists p', compress fuel p x r = Some p' /\ same_roots p p'.
Proof.
  induction fuel as [| fuel IH]; intros p x W Hx Hf L; [lia |]. cbn.
  destruct (Z.eqb_spec (get p x) r) as [E | N]; [exists p; split; [reflexivity | split; auto] |].
  pose proof (leads_le p x r W L Hx) as Hr. pose proof (W x Hx) as Bx.
  assert (Nx : x <> r) by (intros ->; apply N, (leads_top _ _ _ L)).
  assert (Nu : get p x <> x) by (intros E; apply Nx; inversion L; congruence).
  assert (Lu : leads p (get p x) r) by (inversion L; [congruence | assumption]).
  destruct (IH (put p x r) (get p x)) as (p' & E & Ln & W' & S').
  - apply shortcut_wf; assumption.
  - rewrite length_put. lia.
  - lia.
  - apply (shortcut_leads p x r); auto. lia.
  - exists p'. rewrite length_put in *. split; [exact E |]. split; [exact Ln |]. split; [exact W' |].
    intros y s Hy Ly. apply S'; [exact Hy | apply (shortcut_leads p x r); assumption].
Qed.
End Forest.

Definition wf_uf (u : uf) : Prop := wf_forest (parent u) /\ Z.of_nat (length (parent u)) = uf_n u.

Lemma uf_find_spec u x : wf_uf u -> 0 <= x < uf_n u ->
  exists r u', uf_find u x = Some (r, u') /\ leads (parent u) x r /\ uf_n u' = uf_n u /\
    wf_uf u' /\ same_roots (parent u) (parent u').
Proof.
  intros [W N] Hx. unfold uf_find. destruct (find_root_spec (parent u) (S (length (parent u))) x W) as (r & -> & L); [lia | lia |].
  destruct (compress_spec (S (length (parent u))) r (parent u) x W) as (p & -> & Sr); [lia | lia | exact L |].
  exists r, (mk_uf p (uf_n u)). split; [reflexivity |]. split; [exact L |]. split; [reflexivity |].
  split; [| exact Sr]. destruct Sr as (Ln & W' & _). split; [exact W' |]. cbn. lia.
Qed.

Lemma leads_total u x : wf_uf u -> 0 <= x < uf_n u -> exists r, leads (parent u) x r.
Proof. intros W Hx. destruct (uf_find_spec u x W Hx) as (r & _ & _ & L & _). eauto. Qed.

Lemma same_roots_iff u u' y s : wf_uf u -> same_roots (parent u) (parent u') -> 0 <= y < uf_n u ->
  leads (parent u') y s <-> leads (parent u) y s.
Proof.
  intros W (_ & _ & F) Hy. pose proof W as [_ N]. split; [| apply F; lia]. intros L.
  destruct (leads_total u y W Hy) as [r Lr]. pose proof (F y r ltac:(lia) Lr) as Lr'.
  rewrite (leads_fun _ _ _ _ L Lr'). exact Lr.
Qed.

(** Hanging the higher of two roots under the lower. *)
Lemma hang_leads p a b : wf_forest p -> 0 <= a < b -> b < Z.of_nat (length p) -> get p a = a -> get p b = b ->
  forall y s, 0 <= y < Z.of_nat (length p) -> leads p y s -> leads (put p b a) y (if s =? b then a else s).
Proof.
  intros W Hab Hb Ea Eb y s Hy L. induction L as [y E | y s N L IH].
  - destruct (Z.eqb_spec y b) as [-> | Ne].
    + apply leads_up; rewrite get_put by lia; rewrite Z.eqb_refl; [lia |]. constructor. rewrite get_put by lia.
      destruct (Z.eqb_spec a b); [lia | exact Ea].
    + constructor. rewrite get_put by lia. destruct (Z.eqb_spec y b); [contradiction | exact E].
  - pose proof (W y Hy). apply leads_up; rewrite get_put by lia;
      (destruct (Z.eqb_spec y b) as [-> |]; [congruence |]); [exact N | apply IH; lia].
Qed.

(** The higher of two different roots is hung under the lower. *)
Definition joined (u u' : uf) (a b : Z) : Prop :=
  wf_uf u' /\ uf_n u' = uf_n u /\ exists ra rb, leads (parent u) a ra /\ leads (parent u) b rb /\
    forall y s, 0 <= y < uf_n u -> leads (parent u) y s ->
      leads (parent u') y (if (s =? ra) || (s =? rb) then Z.min ra rb else s).

Lemma uf_union_spec u a b : wf_uf u -> 0 <= a < uf_n u -> 0 <= b < uf_n u ->
  exists u', uf_union u a b = Some u' /\ joined u u' a b.
Proof.
  intros W Ha Hb. unfold uf_union. destruct (uf_find_spec u a W Ha) as (ra & u1 & -> & La & N1 & W1 & S1).
  destruct (uf_find_spec u1 b W1 ltac:(lia)) as (rb & u2 & -> & Lb & N2 & W2 & S2).
  apply (same_roots_iff u u1) in Lb; [| exact W | exact S1 | lia].
  assert (Up : forall y s, 0 <= y < uf_n u -> leads (parent u) y s -> leads (parent u2) y s).
  { intros y s Hy L. apply (same_roots_iff u1 u2 y s W1 S2); [lia |]. apply (same_roots_iff u u1 y s W S1 Hy), L. }
  pose proof (leads_top _ _ _ (Up a ra Ha La)) as Ta. pose proof (leads_top _ _ _ (Up b rb Hb Lb)) as Tb.
  destruct W as [Wf Nn]. pose proof (leads_le _ _ _ Wf La ltac:(lia)). pose proof (leads_le _ _ _ Wf Lb ltac:(lia)).
  destruct W2 as [Wf2 Nn2].
  destruct (Z.eqb_spec ra rb) as [E | Ne].
  { exists u2. split; [reflexivity |]. split; [split; assumption |]. split; [lia |]. exists ra, rb. split; [exact La |]. split; [exact Lb |].
    intros y s Hy L. destruct (Z.eqb_spec s ra), (Z.eqb_spec s rb); cbn; try lia; [| apply Up; assumption].
    replace (Z.min ra rb) with s by lia. apply Up; assumption. }
  destruct (Z.ltb_spec ra rb) as [Lt | Ge]; eexists; (split; [reflexivity |]);
    (split; [split; [apply shortcut_wf; auto; lia | cbn; rewrite length_put; exact Nn2] |]);
    (split; [cbn; lia |]); exists ra, rb; (split; [exact La |]); (split; [exact Lb |]); cbn [parent]; intros y s Hy L.
  - pose proof (hang_leads _ ra rb Wf2 ltac:(lia) ltac:(lia) Ta Tb y s ltac:(lia) (Up y s Hy L)) as X.
    rewrite Z.min_l by lia. destruct (Z.eqb_spec s ra), (Z.eqb_spec s rb); cbn; subst; try lia; exact X.
  - pose proof (hang_leads _ rb ra Wf2 ltac:(lia) ltac:(lia) Tb Ta y s ltac:(lia) (Up y s Hy L)) as X.
    rewrite Z.min_r by lia. destruct (Z.eqb_spec s ra), (Z.eqb_spec s rb); cbn; subst; try lia; exact X.
Qed.

(** ** Sessions of unions *)

Fixpoint unions (u : uf) (l : list (Z * Z)) : option uf :=
  match l with
  | [] => Some u
  | (a, b) :: l => match uf_union u a b with Some u => unions u l | None => None end
  end.

(** What the unions connect. *)
Definition connected (l : list (Z * Z)) : relation Z := rtsc (fun x y => (x, y) ∈ l).

Lemma connected_refl l x : connected l x x.
Proof. apply rtc_refl. Qed.
Lemma connected_trans l x y z : connected l x y -> connected l y z -> connected l x z.
Proof. intros A B. unfold connected, rtsc in *. etrans; eassumption. Qed.
Lemma connected_sym l x y : connected l x y -> connected l y x.
Proof. apply rtsc_equivalence. Qed.
Lemma connected_sub l l' x y : (forall e, e ∈ l -> e ∈ l') -> connected l x y -> connected l' x y.
Proof. intros Sub. apply rtc_subrel. intros a b [E | E]; [left | right]; apply Sub, E. Qed.
Lemma connected_edge l x y : (x, y) ∈ l -> connected l x y.
Proof. intros E. apply rtc_once. left. exact E. Qed.

(** The forest after the unions [l]: roots and connections agree. *)
Record holds_for (l : list (Z * Z)) (u : uf) : Prop := {
  hf_wf : wf_uf u;
  hf_edge : forall a b r, (a, b) ∈ l -> leads (parent u) a r -> leads (parent u) b r;
  hf_root : forall x r, 0 <= x < uf_n u -> leads (parent u) x r -> connected l x r }.

Lemma holds_connected l u x y r s : holds_for l u -> (forall a b, (a, b) ∈ l -> 0 <= a < uf_n u /\ 0 <= b < uf_n u) ->
  0 <= x < uf_n u -> 0 <= y < uf_n u -> leads (parent u) x r -> leads (parent u) y s -> r = s <-> connected l x y.
Proof.
  intros Hf In Hx Hy Lx Ly. split.
  - intros <-. apply (connected_trans l x r y); [apply (hf_root _ _ Hf); assumption |].
    apply connected_sym, (hf_root _ _ Hf); assumption.
  - intros C. apply (leads_fun (parent u) y); [| exact Ly]. clear Ly s.
    induction C as [x | x z y E C IH]; [exact Lx |]. apply IH; [| exact Hy |].
    + destruct E as [E | E]; apply In in E; tauto.
    + destruct E as [E | E]; [apply (hf_edge _ _ Hf x z r E Lx) |].
      destruct (leads_total u z (hf_wf _ _ Hf)) as [q Lz]; [apply In in E; tauto |].
      rewrite (leads_fun _ _ _ _ Lx (hf_edge _ _ Hf z x q E Lz)). exact Lz.
Qed.

Lemma join_holds l u u' a b : holds_for l u -> (forall a b, (a, b) ∈ l -> 0 <= a < uf_n u /\ 0 <= b < uf_n u) ->
  0 <= a < uf_n u -> 0 <= b < uf_n u -> joined u u' a b -> holds_for (l ++ [(a, b)]) u'.
Proof.
  intros Hf In Ha Hb (W' & N' & ra & rb & La & Lb & F). pose proof (hf_wf _ _ Hf) as W.
  assert (Back : forall y r, 0 <= y < uf_n u -> leads (parent u') y r ->
    exists s, leads (parent u) y s /\ r = if (s =? ra) || (s =? rb) then Z.min ra rb else s).
  { intros y r Hy L. destruct (leads_total u y W Hy) as [s Ls]. exists s. split; [exact Ls |].
    apply (leads_fun _ _ _ _ L), F; assumption. }
  assert (Old : forall x y, connected l x y -> connected (l ++ [(a, b)]) x y).
  { intros x y. apply connected_sub. intros e He. apply elem_of_app. left. exact He. }
  assert (Cra : connected (l ++ [(a, b)]) a ra) by (apply Old, (hf_root _ _ Hf); assumption).
  assert (Crb : connected (l ++ [(a, b)]) b rb) by (apply Old, (hf_root _ _ Hf); assumption).
  assert (Cab : connected (l ++ [(a, b)]) a b) by (apply connected_edge, elem_of_app; right; left).
  constructor; [exact W' | |].
  - intros x y r E L. apply elem_of_app in E as [E | E].
    + destruct (In x y E) as [Hx Hy]. destruct (Back x r Hx L) as (s & Ls & ->).
      apply F; [exact Hy | apply (hf_edge _ _ Hf x y s E Ls)].
    + apply list_elem_of_singleton in E as [= -> ->]. destruct (Back a r Ha L) as (s & Ls & ->).
      rewrite (leads_fun _ _ _ _ Ls La), Z.eqb_refl. cbn. pose proof (F b rb Hb Lb) as Fb.
      rewrite Z.eqb_refl, orb_true_r in Fb. exact Fb.
  - intros x r Hx L. rewrite N' in Hx. destruct (Back x r Hx L) as (s & Ls & ->).
    pose proof (Old _ _ (hf_root _ _ Hf x s Hx Ls)) as Cs.
    assert (Cm : connected (l ++ [(a, b)]) a (Z.min ra rb)).
    { destruct (Z.min_spec ra rb) as [[_ ->] | [_ ->]]; [exact Cra | apply (connected_trans _ _ b); assumption]. }
    destruct (Z.eqb_spec s ra) as [E | Na]; cbn [orb].
    + rewrite E in Cs. apply (connected_trans _ _ ra); [exact Cs |]. apply (connected_trans _ _ a); [apply connected_sym, Cra | exact Cm].
    + destruct (Z.eqb_spec s rb) as [E | Nb]; [| exact Cs]. rewrite E in Cs.
      apply (connected_trans _ _ rb); [exact Cs |]. apply (connected_trans _ _ b); [apply connected_sym, Crb |].
      apply (connected_trans _ _ a); [apply connected_sym, Cab | exact Cm].
Qed.

Lemma init_holds malloc n u : 0 <= n -> uf_init malloc n = Some u -> holds_for [] u /\ uf_n u = n.
Proof.
  intros Hn. unfold uf_init. destruct (malloc _); [| discriminate]. intros [= <-]. split; [| reflexivity].
  assert (G : forall i, 0 <= i < n -> get (seqZ 0 n) i = i).
  { intros i Hi. unfold get. rewrite lookup_seqZ_lt by lia. cbn. lia. }
  constructor; cbn.
  - split; [| cbn; rewrite length_seqZ; lia]. intros i Hi. cbn in *. rewrite length_seqZ in Hi. rewrite G by lia. lia.
  - intros a b r X. inversion X.
  - intros x r Hx L. inversion L; subst; [apply connected_refl |]. rewrite G in * by lia. congruence.
Qed.

Lemma unions_holds n l : forall k u, holds_for k u -> uf_n u = n ->
  (forall a b, (a, b) ∈ k ++ l -> 0 <= a < n /\ 0 <= b < n) ->
  exists u', unions u l = Some u' /\ holds_for (k ++ l) u' /\ uf_n u' = n.
Proof.
  induction l as [| [a b] l IH]; intros k u Hf En In; cbn [unions].
  { exists u. rewrite app_nil_r. auto. }
  assert (Hab : 0 <= a < n /\ 0 <= b < n) by (apply In, elem_of_app; right; left). destruct Hab as [Ha Hb].
  destruct (uf_union_spec u a b (hf_wf _ _ Hf) ltac:(lia) ltac:(lia)) as (u1 & -> & J).
  assert (Ink : forall x y, (x, y) ∈ k -> 0 <= x < uf_n u /\ 0 <= y < uf_n u).
  { intros x y E. rewrite En. apply In, elem_of_app. left. exact E. }
  pose proof (join_holds k u u1 a b Hf Ink ltac:(lia) ltac:(lia) J) as Hf1.
  destruct J as (_ & N1 & _). destruct (IH (k ++ [(a, b)]) u1 Hf1 ltac:(lia)) as (u' & E & Hf' & En').
  - intros x y E. apply In. rewrite <- app_assoc in E. exact E.
  - exists u'. rewrite <- app_assoc in Hf'. auto.
Qed.

(** ** Numbering the components *)

Lemma filter_in (P Q : Z -> Prop) `{!forall x, Decision (P x), !forall x, Decision (Q x)} (l : list Z) :
  (forall x, x ∈ l -> P x <-> Q x) -> filter P l = filter Q l.
Proof.
  induction l as [| x l IH]; intros E; [reflexivity |]. rewrite !filter_cons, IH by (intros y Hy; apply E; right; exact Hy).
  destruct (decide (P x)), (decide (Q x)); try reflexivity; exfalso; specialize (E x ltac:(left)); tauto.
Qed.

Section Number.
Context (used : Z -> bool) (n_vars n : Z) (u0 : uf).
Context (Wu : wf_uf u0) (Nu : uf_n u0 = n) (Hv : 0 <= n_vars <= n) (Hn : n < 2 ^ 32).

Definition root_of (v r : Z) : Prop := leads (parent u0) v r.
Definition members (o : comps) (m c : Z) : list Z := filter (fun v => used v = true /\ get (var_comp o) v = c) (seqZ 0 m).

(** The loop's state after the variables below [m]. *)
Record numbered (m : Z) (s : numbering) : Prop := {
  nb_wf : wf_uf (nm_uf s) /\ uf_n (nm_uf s) = n /\ same_roots (parent u0) (parent (nm_uf s));
  nb_len : length (var_comp (nm_out s)) = Z.to_nat n_vars /\ length (sizes s) = Z.to_nat n_vars /\
    length (id_of s) = Z.to_nat n /\ comp_vars (nm_out s) = n_vars;
  nb_count : 0 <= n_comp (nm_out s) <= m;
  nb_unused : forall v, 0 <= v < m -> used v = false -> get (var_comp (nm_out s)) v = UINT32_MAX;
  nb_used : forall v r, 0 <= v < m -> used v = true -> root_of v r ->
    0 <= get (var_comp (nm_out s)) v < n_comp (nm_out s) /\ get (id_of s) r = get (var_comp (nm_out s)) v;
  nb_id : forall r, 0 <= r < n -> get (id_of s) r <> UINT32_MAX ->
    exists v, 0 <= v < m /\ used v = true /\ root_of v r;
  nb_inj : forall r q, 0 <= r < n -> 0 <= q < n -> get (id_of s) r <> UINT32_MAX -> get (id_of s) r = get (id_of s) q -> r = q;
  nb_first : forall c, 0 <= c < n_comp (nm_out s) -> exists v, 0 <= v < m /\ used v = true /\
    get (var_comp (nm_out s)) v = c /\ forall w, 0 <= w < v -> used w = true -> get (var_comp (nm_out s)) w < c;
  nb_size : forall c, 0 <= c < n_comp (nm_out s) -> get (sizes s) c = Z.of_nat (length (members (nm_out s) m c));
  nb_fresh : forall c, n_comp (nm_out s) <= c < n_vars -> get (sizes s) c = 0;
  nb_large : (forall c, 0 <= c < n_comp (nm_out s) -> get (sizes s) c <= largest (nm_out s)) /\
    (n_comp (nm_out s) = 0 /\ largest (nm_out s) = 0 \/
     exists c, 0 <= c < n_comp (nm_out s) /\ get (sizes s) c = largest (nm_out s)) }.

Lemma members_succ o o' m c : 0 <= m -> (forall v, 0 <= v < m -> get (var_comp o') v = get (var_comp o) v) ->
  members o' (m + 1) c = members o m c ++ (if decide (used m = true /\ get (var_comp o') m = c) then [m] else []).
Proof.
  intros Hm E. unfold members. rewrite seqZ_app by lia. rewrite filter_app. cbn [Z.add]. f_equal.
  apply filter_in. intros v Hx. apply elem_of_seqZ in Hx. rewrite E by lia. reflexivity.
Qed.

Lemma out_of_get l i : 0 <= i -> get l i <> 0 -> i < Z.of_nat (length l).
Proof.
  intros Hi N. unfold get in N. destruct (l !! Z.to_nat i) eqn:E; [| contradiction].
  apply lookup_lt_Some in E. lia.
Qed.

(** An unused variable. *)
Lemma number_unused m s : numbered m s -> 0 <= m < n_vars -> used m = false ->
  exists s', number_step used s m = Some s' /\ numbered (m + 1) s'.
Proof.
  intros [Wf (L1 & L2 & L3 & L4) Ct Un Us Id Ij Fi Sz Fr [La Lb]] Hm E. unfold number_step. rewrite E. cbn [negb].
  eexists. split; [reflexivity |].
  set (o' := mk_comps _ _ _ _).
  assert (G : forall v, 0 <= v < m -> get (var_comp o') v = get (var_comp (nm_out s)) v).
  { intros v Hx. cbn. rewrite get_put by lia. destruct (Z.eqb_spec v m); [lia | reflexivity]. }
  assert (Gm : get (var_comp o') m = UINT32_MAX) by (cbn; rewrite get_put by lia; rewrite Z.eqb_refl; reflexivity).
  constructor; cbn [nm_uf nm_out id_of sizes n_comp largest]; auto.
  - repeat split; try assumption. cbn. rewrite length_put. exact L1.
  - cbn. lia.
  - intros v Hx Ux. destruct (Z.eq_dec v m) as [-> | Ne]; [exact Gm |]. rewrite G by lia. apply Un; [lia | exact Ux].
  - intros v r Hx Ux Rv. destruct (Z.eq_dec v m) as [-> | Ne]; [congruence |]. rewrite G by lia. apply Us; [lia | assumption ..].
  - intros r Hr N. destruct (Id r Hr N) as (v & Hx & Y). exists v. split; [lia | exact Y].
  - intros c Hc. destruct (Fi c Hc) as (v & Hx & Uv & Ev & Fv). exists v. split; [lia |]. split; [exact Uv |].
    split; [rewrite G by lia; exact Ev |]. intros w Hw Uw. rewrite G by lia. apply Fv; assumption.
  - intros c Hc. rewrite Sz by exact Hc. rewrite (members_succ (nm_out s) o' m c) by (auto; lia).
    rewrite decide_False, app_nil_r by (intros [X _]; congruence). reflexivity.
Qed.

Lemma members_le o m c : 0 <= m -> Z.of_nat (length (members o m c)) <= m.
Proof.
  intros Hm. unfold members. pose proof (length_filter (fun v => used v = true /\ get (var_comp o) v = c) (seqZ 0 m)) as L.
  rewrite length_seqZ in L. lia.
Qed.

(** The number a used variable gets: its root's, a new one if it has none. *)
Record chosen (m : Z) (s : numbering) (r : Z) (ids : list Z) (nc c0 : Z) : Prop := {
  ch_len : length ids = Z.to_nat n;
  ch_range : 0 <= c0 < nc /\ nc <= m + 1;
  ch_new : nc = n_comp (nm_out s) \/ nc = n_comp (nm_out s) + 1 /\ c0 = n_comp (nm_out s);
  ch_root : get ids r = c0;
  ch_other : forall q, 0 <= q < n -> q <> r -> get ids q = get (id_of s) q /\ get (id_of s) q <> c0;
  ch_old : forall v rv, 0 <= v < m -> used v = true -> root_of v rv -> get ids rv = get (var_comp (nm_out s)) v;
  ch_size : get (sizes s) c0 = Z.of_nat (length (members (nm_out s) m c0)) }.

Lemma choose m s r : numbered m s -> 0 <= m < n_vars -> used m = true -> root_of m r -> 0 <= r <= m ->
  exists ids nc, (if get (id_of s) r =? UINT32_MAX then (put (id_of s) r (n_comp (nm_out s)), u32 (n_comp (nm_out s) + 1))
    else (id_of s, n_comp (nm_out s))) = (ids, nc) /\ chosen m s r ids nc (get ids r).
Proof.
  intros [_ (L1 & L2 & L3 & L4) Ct Un Us Id Ij Fi Sz Fr _] Hm Um Rm Hr.
  assert (Small : forall v rv, 0 <= v < m -> used v = true -> root_of v rv ->
    0 <= get (id_of s) rv < n_comp (nm_out s) /\ get (id_of s) rv = get (var_comp (nm_out s)) v).
  { intros v rv Hx Ux Rv. destruct (Us v rv Hx Ux Rv) as [B Ev]. lia. }
  unfold UINT32_MAX in *. destruct (Z.eqb_spec (get (id_of s) r) (2 ^ 32 - 1)) as [New | Old]; eexists _, _; (split; [reflexivity |]).
  - assert (Gr : get (put (id_of s) r (n_comp (nm_out s))) r = n_comp (nm_out s))
      by (rewrite get_put by lia; rewrite Z.eqb_refl; reflexivity).
    rewrite Gr. assert (Nc : u32 (n_comp (nm_out s) + 1) = n_comp (nm_out s) + 1) by (unfold u32; apply Z.mod_small; lia).
    rewrite Nc. constructor; auto; try lia.
    + rewrite length_put. exact L3.
    + intros q Hq Ne. rewrite get_put by lia. destruct (Z.eqb_spec q r); [contradiction |]. split; [reflexivity |].
      intros Eq. destruct (Id q Hq) as (v & Hx & Ux & Rv); [lia |]. destruct (Small v q Hx Ux Rv). lia.
    + intros v rv Hx Ux Rv. destruct (Small v rv Hx Ux Rv) as [B <-].
      assert (Hrv : 0 <= rv) by (destruct Wu as [W N]; apply (leads_le _ v rv W Rv); lia).
      rewrite get_put by lia. destruct (Z.eqb_spec rv r) as [-> |]; [lia | reflexivity].
    + rewrite Fr by lia. replace (members (nm_out s) m (n_comp (nm_out s))) with (@nil Z); [reflexivity |].
      unfold members. symmetry. rewrite (filter_in _ (fun _ => False)).
      * apply length_zero_iff_nil. induction (seqZ 0 m); [reflexivity |]. rewrite filter_cons, decide_False by tauto. assumption.
      * intros v Hx. apply elem_of_seqZ in Hx. split; [| tauto]. intros [Ux Ev].
        destruct (leads_total u0 v Wu ltac:(lia)) as [rv Rv]. destruct (Us v rv ltac:(lia) Ux Rv). lia.
  - destruct (Id r ltac:(lia) Old) as (v & Hx & Ux & Rv). destruct (Small v r Hx Ux Rv) as [B Ev].
    constructor; auto; try lia.
    + intros q Hq Ne. split; [reflexivity |]. intros Eq. apply Ne. symmetry. apply Ij; auto; lia.
    + intros w rw Hw Uw Rw. apply (Us w rw Hw Uw Rw).
Qed.

(** A used variable: its root's number, a new one if it has none. *)
Lemma number_used m s : numbered m s -> 0 <= m < n_vars -> used m = true ->
  exists s', number_step used s m = Some s' /\ numbered (m + 1) s'.
Proof.
  intros Nb Hm Um. pose proof Nb as [(Wf & Nf & Sr) (L1 & L2 & L3 & L4) Ct Un Us Id Ij Fi Sz Fr [La Lb]].
  unfold number_step. rewrite Um. cbn [negb].
  destruct (uf_find_spec (nm_uf s) m Wf ltac:(lia)) as (r & u' & -> & Lr & Nu' & Wu' & Su).
  assert (Rm : root_of m r) by (apply (same_roots_iff u0 (nm_uf s) m r Wu Sr); [lia | exact Lr]).
  assert (Hr : 0 <= r <= m) by (destruct Wf as [Wf Nn]; apply (leads_le (parent (nm_uf s)) m r Wf Lr); lia).
  destruct (choose m s r Nb Hm Um Rm Hr) as (ids & nc & -> & [Cl Cr Cn _ Co Cd Cs]).
  set (c0 := get ids r) in *. set (z := u32 (get (sizes s) c0 + 1)).
  assert (Ez : z = get (sizes s) c0 + 1).
  { unfold z, u32. apply Z.mod_small. rewrite Cs. pose proof (members_le (nm_out s) m c0 ltac:(lia)). lia. }
  eexists. split; [reflexivity |]. set (o' := mk_comps _ _ _ _).
  assert (G : forall v, 0 <= v < m -> get (var_comp o') v = get (var_comp (nm_out s)) v).
  { intros v Hx. cbn. rewrite get_put by lia. destruct (Z.eqb_spec v m); [lia | reflexivity]. }
  assert (Gm : get (var_comp o') m = c0) by (cbn; rewrite get_put by lia; rewrite Z.eqb_refl; reflexivity).
  assert (Gs : forall c, 0 <= c -> get (put (sizes s) c0 z) c = if c =? c0 then z else get (sizes s) c)
    by (intros c Hc; apply get_put; lia).
  assert (Mem : forall c, members o' (m + 1) c = members (nm_out s) m c ++ if decide (c0 = c) then [m] else []).
  { intros c. rewrite (members_succ (nm_out s) o' m c) by (auto; lia). rewrite Gm. f_equal.
    destruct (decide (c0 = c)); [rewrite decide_True by auto | rewrite decide_False by tauto]; reflexivity. }
  constructor; cbn [nm_uf nm_out id_of sizes n_comp largest]; auto.
  - split; [exact Wu' |]. split; [lia |]. destruct Sr as (A1 & A2 & A3), Su as (B1 & B2 & B3). split; [lia |]. split; [exact B2 |].
    intros y q Hy Lq. apply B3; [lia | apply A3; assumption].
  - cbn. rewrite !length_put. auto.
  - cbn. lia.
  - intros v Hx Ux. destruct (Z.eq_dec v m) as [-> | Ne]; [congruence |]. rewrite G by lia. apply Un; [lia | exact Ux].
  - intros v rv Hx Ux Rv. cbn [n_comp o']. destruct (Z.eq_dec v m) as [-> | Ne].
    + rewrite Gm, (leads_fun _ _ _ _ Rv Rm). split; [lia | reflexivity].
    + rewrite G by lia. destruct (Us v rv ltac:(lia) Ux Rv). split; [lia | apply Cd; auto; lia].
  - intros q Hq N. destruct (Z.eq_dec q r) as [-> | Ne]; [exists m; split; [lia | auto] |].
    destruct (Co q Hq Ne) as [Eq _]. rewrite Eq in N. destruct (Id q Hq N) as (v & Hx & Y). exists v. split; [lia | exact Y].
  - intros q1 q2 H1 H2 N Eq. destruct (Z.eq_dec q1 r) as [E1 | N1], (Z.eq_dec q2 r) as [E2 | N2]; try congruence.
    + subst q1. destruct (Co q2 H2 N2) as [X Y]. fold c0 in Eq. congruence.
    + subst q2. destruct (Co q1 H1 N1) as [X Y]. fold c0 in Eq. congruence.
    + destruct (Co q1 H1 N1) as [X1 _], (Co q2 H2 N2) as [X2 _]. apply Ij; congruence.
  - cbn [n_comp o']. intros c Hc. destruct (Z.ltb_spec c (n_comp (nm_out s))) as [Lt | Ge].
    + destruct (Fi c ltac:(lia)) as (v & Hx & Uv & Ev & Fv). exists v. split; [lia |]. split; [exact Uv |].
      split; [rewrite G by lia; exact Ev |]. intros w Hw Uw. rewrite G by lia. apply Fv; assumption.
    + exists m. split; [lia |]. split; [exact Um |]. split; [lia |]. intros w Hw Uw. rewrite G by lia.
      destruct (leads_total u0 w Wu ltac:(lia)) as [rw Rw]. destruct (Us w rw ltac:(lia) Uw Rw). lia.
  - cbn [n_comp o']. intros c Hc. rewrite Gs, Mem by lia. rewrite length_app.
    destruct (Z.eqb_spec c c0) as [-> | Ne]; [rewrite decide_True by reflexivity; cbn; lia |].
    rewrite decide_False by congruence. cbn. rewrite Sz by lia. lia.
  - cbn [n_comp o']. intros c Hc. rewrite Gs by lia. destruct (Z.eqb_spec c c0); [lia | apply Fr; lia].
  - cbn [n_comp largest o']. rewrite Gs, Z.eqb_refl by lia. split.
    + intros c Hc. rewrite Gs by lia. destruct (Z.eqb_spec c c0) as [-> | Ne]; [| specialize (La c ltac:(lia))];
        destruct (Z.gtb_spec z (largest (nm_out s))); lia.
    + right. destruct (Z.gtb_spec z (largest (nm_out s))) as [Gt | Le].
      * exists c0. rewrite Gs, Z.eqb_refl by lia. split; [lia | reflexivity].
      * destruct Lb as [[K0 L0] | (c & Hc & Ec)].
        -- pose proof (members_le (nm_out s) m c0). lia.
        -- exists c. split; [lia |]. rewrite Gs by lia. destruct (Z.eqb_spec c c0) as [-> | Ne]; [lia | exact Ec].
Qed.

Lemma number_loop_spec k : forall m s, numbered m s -> 0 <= m -> m + Z.of_nat k = n_vars ->
  exists s', number_loop used s (seqZ m (Z.of_nat k)) = Some s' /\ numbered n_vars s'.
Proof.
  induction k as [| k IH]; intros m s Nb Hm Em.
  { exists s. split; [reflexivity |]. replace n_vars with m by lia. exact Nb. }
  rewrite seqZ_cons by lia. cbn [number_loop].
  assert (St : exists s1, number_step used s m = Some s1 /\ numbered (m + 1) s1)
    by (destruct (used m) eqn:E; [apply number_used | apply number_unused]; auto; lia).
  destruct St as (s1 & -> & Nb1). destruct (IH (m + 1) s1 Nb1 ltac:(lia) ltac:(lia)) as (s' & E & Nb').
  exists s'. split; [| exact Nb']. rewrite <- E. f_equal. f_equal; lia.
Qed.

Lemma cells_replicate k v i : 0 <= i < Z.of_nat k -> get (replicate k v) i = v.
Proof. intros Hi. unfold get. rewrite lookup_replicate_2 by lia. reflexivity. Qed.

Lemma number_start : numbered 0 (mk_num u0 (replicate (Z.to_nat n) UINT32_MAX) (replicate (Z.to_nat n_vars) 0)
  (mk_comps (replicate (Z.to_nat n_vars) 0) n_vars 0 0)).
Proof.
  constructor; cbn [nm_uf nm_out id_of sizes n_comp largest var_comp comp_vars]; try (intros; lia).
  - split; [exact Wu |]. split; [exact Nu |]. split; [reflexivity |]. split; [apply Wu | auto].
  - rewrite !length_replicate. auto.
  - intros r Hr N. rewrite cells_replicate in N by lia. contradiction.
  - intros r q Hr Hq N. rewrite cells_replicate in N by lia. contradiction.
  - intros c Hc. apply cells_replicate. lia.
  - split; [intros; lia | left; auto].
Qed.
End Number.

(** C17: Components are what the constraints connect.  Start a union-find with [n]
    ids, unite any pairs of ids, and number the first [n_vars] of them: every
    union succeeds; the numbering is refused exactly when one of its three
    allocations is, for the numbers, the roots and the sizes; a variable no
    constraint reads gets UINT32_MAX; two others get the same number exactly if the unions connect
    them; the numbers are those below [n_comp], given in order of first
    appearance; [largest] is the size of the largest component. *)
Theorem components_exact malloc n u l (used : Z -> bool) n_vars : 0 <= n_vars <= n -> n < 2 ^ 32 ->
  uf_init malloc n = Some u -> (forall a b, (a, b) ∈ l -> 0 <= a < n /\ 0 <= b < n) ->
  exists u1, unions u l = Some u1 /\
  match components_from_uf malloc u1 used n_vars with
  | None => False
  | Some None => malloc 1%nat (Z.max 1 n_vars * 4) = false \/ malloc 2%nat (Z.max 1 n * 4) = false \/
      malloc 3%nat (Z.max 1 n_vars * 4) = false
  | Some (Some (o, u2)) =>
      let comp v := get (var_comp o) v in
      let count c := length (filter (fun v => used v = true /\ comp v = c) (seqZ 0 n_vars)) in
      (malloc 1%nat (Z.max 1 n_vars * 4) = true /\ malloc 2%nat (Z.max 1 n * 4) = true /\
        malloc 3%nat (Z.max 1 n_vars * 4) = true) /\
      (forall v, 0 <= v < n_vars -> if used v then 0 <= comp v < n_comp o else comp v = UINT32_MAX) /\
      (forall v w, 0 <= v < n_vars -> 0 <= w < n_vars -> used v = true -> used w = true ->
         comp v = comp w <-> connected l v w) /\
      (forall c, 0 <= c < n_comp o -> exists v, 0 <= v < n_vars /\ used v = true /\ comp v = c /\
         forall w, 0 <= w < v -> used w = true -> comp w < c) /\
      (forall c, 0 <= c < n_comp o -> Z.of_nat (count c) <= largest o) /\
      (n_comp o = 0 /\ largest o = 0 \/ exists c, 0 <= c < n_comp o /\ Z.of_nat (count c) = largest o)
  end.
Proof.
  intros Hv Hn Ei In. destruct (init_holds malloc n u ltac:(lia) Ei) as [H0 N0].
  destruct (unions_holds n l [] u H0 N0 In) as (u1 & E1 & H1 & N1). exists u1. split; [exact E1 |]. cbn in H1.
  unfold components_from_uf. rewrite N1.
  replace (if n_vars =? 0 then 1 else n_vars) with (Z.max 1 n_vars) by (destruct (Z.eqb_spec n_vars 0); lia).
  replace (if n =? 0 then 1 else n) with (Z.max 1 n) by (destruct (Z.eqb_spec n 0); lia).
  destruct (malloc 1%nat _) eqn:M1; [| cbn; auto]. destruct (malloc 2%nat _) eqn:M2; [| cbn; auto].
  destruct (malloc 3%nat _) eqn:M3; [| cbn; auto]. cbn [andb]. destruct (number_loop_spec used n_vars n u1 (hf_wf _ _ H1) N1 Hv Hn (Z.to_nat n_vars) 0 _
    (number_start used n_vars n u1 (hf_wf _ _ H1) N1) ltac:(lia) ltac:(lia)) as (s & E & Nb).
  rewrite Z2Nat.id in E by lia. rewrite E. destruct Nb as [_ _ Ct Un Us Id Ij Fi Sz Fr [La Lb]].
  assert (Root : forall v, 0 <= v < n_vars -> exists r, root_of u1 v r) by (intros v Hx; apply leads_total; [apply H1 | lia]).
  split; [auto |]. split; [| split; [| split; [exact Fi | split]]].
  - intros v Hx. destruct (used v) eqn:Uv; [| apply Un; assumption]. destruct (Root v Hx) as [r R]. apply (Us v r Hx Uv R).
  - intros v w Hx Hw Uv Uw. destruct (Root v Hx) as [r R], (Root w Hw) as [q Q].
    destruct (Us v r Hx Uv R) as [B1 E1'], (Us w q Hw Uw Q) as [B2 E2']. rewrite <- E1' in B1 |- *. rewrite <- E2' in B2 |- *.
    assert (Bd : forall x y, root_of u1 x y -> 0 <= x < n_vars -> 0 <= y < n).
    { intros x y L Hx'. destruct (hf_wf _ _ H1) as [W Nn]. pose proof (leads_le _ x y W L ltac:(rewrite Nn, N1; lia)). lia. }
    rewrite <- (holds_connected l u1 v w r q H1) by (auto; rewrite ?N1; auto; lia). split; [| intros ->; reflexivity].
    apply Ij; [apply (Bd v); assumption | apply (Bd w); assumption | unfold UINT32_MAX; lia].
  - intros c Hc. specialize (La c Hc). rewrite (Sz c Hc) in La. exact La.
  - destruct Lb as [L0 | (c & Hc & Ec)]; [left; exact L0 | right]. exists c. split; [exact Hc |]. rewrite (Sz c Hc) in Ec. exact Ec.
Qed.

Lemma components_exact_witness : exists u1 o u2, unions (mk_uf (seqZ 0 6) 6) [(4, 1); (5, 4); (2, 3)] = Some u1 /\
  components_from_uf (fun _ _ => true) u1 (fun v => negb (v =? 3)) 6 = Some (Some (o, u2)) /\
  (var_comp o, n_comp o, largest o) = ([0; 1; 2; UINT32_MAX; 1; 1], 3, 3) /\ connected [(4, 1); (5, 4); (2, 3)] 1 5.
Proof.
  destruct (components_exact (fun _ _ => true) 6 (mk_uf (seqZ 0 6) 6) [(4, 1); (5, 4); (2, 3)] (fun v => negb (v =? 3)) 6)
    as (u1 & E & X); [lia | lia | reflexivity | |].
  { intros a b E. rewrite !elem_of_cons in E. destruct E as [[= -> ->] | [[= -> ->] | [[= -> ->] | E]]]; [lia .. | inversion E]. }
  pose proof E as E'. vm_compute in E'. injection E' as <-. exists (mk_uf [0; 1; 2; 2; 1; 1] 6).
  destruct (components_from_uf (fun _ _ => true) (mk_uf [0; 1; 2; 2; 1; 1] 6) (fun v => negb (v =? 3)) 6) as [[[o u2] |] |] eqn:C;
    vm_compute in C; try discriminate.
  injection C as <- <-. eexists _, _. split; [reflexivity |]. split; [reflexivity |]. split; [reflexivity |].
  destruct X as (_ & _ & X & _). apply X; try lia; reflexivity.
Defined.
End Components.
