(* ===== verification/Vars.v ===== *)
(** * Vars: the solver's variables and their bounds
    (src/src/c/dvs_variable.h, the bound accessors of dvs_ctx.h, and the
    variable initialisers of dvs_compile.c)

    A variable keeps its bounds in one of two tiers: two [int32_t] fields, or a
    pair of [int64_t] behind a pool offset.  A stored bound is a bit pattern;
    for an unsigned variable of width 64 it denotes the unsigned number.  This
    file states which number a pattern denotes ([bval]), shows that the code's
    comparisons order the numbers, and that the initialisers make variables
    whose bounds are the ones asked for. *)

From Stdlib Require Import ZArith Lia Bool.
From stdpp Require Import base list numbers.
From S2P Require Import Prelude.
Open Scope Z_scope.

Module Vars.

Definition VAR_SIGNED : Z := 1.
Definition VAR_TIER1 : Z := 8.
Definition VAR_TIER2 : Z := 16.
Definition VAR_AUX : Z := 32.

(** [Variable]; a tier-1 variable's [WideBounds64], which no other variable
    shares, is part of the record instead of behind [holes_offset]. *)
Record variable := mk_var {
  lo : Z; hi : Z;
  wb_lo : Z; wb_hi : Z;
  width : Z;
  flags : Z }.

Definition var_is_tier0 (f : Z) : bool := Z.land f (Z.lor VAR_TIER1 VAR_TIER2) =? 0.
Definition var_is_tier1 (f : Z) : bool := negb (Z.land f VAR_TIER1 =? 0).
Definition var_is_tier2 (f : Z) : bool := negb (Z.land f VAR_TIER2 =? 0).
Definition is_signed (v : variable) : bool := negb (Z.land (flags v) VAR_SIGNED =? 0).
Definition is_aux (v : variable) : bool := negb (Z.land (flags v) VAR_AUX =? 0).

Definition var_lo64 (v : variable) : Z :=
  if var_is_tier0 (flags v) then if is_signed v then lo v else u32 (lo v) else wb_lo v.
Definition var_hi64 (v : variable) : Z :=
  if var_is_tier0 (flags v) then if is_signed v then hi v else u32 (hi v) else wb_hi v.

Definition var_b_lt (v : variable) (a b : Z) : bool :=
  if negb (is_signed v) && (64 <=? width v) then u64 a <? u64 b else a <? b.
Definition var_b_gt (v : variable) (a b : Z) : bool := var_b_lt v b a.
Definition var_b_min (v : variable) (a b : Z) : Z := if var_b_lt v a b then a else b.
Definition var_b_max (v : variable) (a b : Z) : Z := if var_b_lt v a b then b else a.

Definition INT32_MAX : Z := 2 ^ 31 - 1.
Definition INT32_MIN : Z := - 2 ^ 31.
Definition INT64_MAX : Z := 2 ^ 63 - 1.
Definition INT64_MIN : Z := - 2 ^ 63.

Definition var_repr_min (v : variable) : Z :=
  if is_signed v then if width v >=? 64 then INT64_MIN else - Z.shiftl 1 (width v - 1) else 0.
Definition var_repr_max (v : variable) : Z :=
  if is_signed v then
    if width v >=? 64 then INT64_MAX else Z.shiftl 1 (width v - 1) - 1
  else if width v =? 64 then s64 (2 ^ 64 - 1)
  else if width v >? 64 then INT64_MAX
  else s64 (u64 (u64 (Z.shiftl 1 (width v)) - 1)).

(** ** Initialisers (dvs_compile.c) *)

Definition init_tier0 (w f l h : Z) : variable :=
  mk_var (s32 l) (s32 h) 0 0 w (Z.land f (Z.lnot (Z.lor VAR_TIER1 VAR_TIER2))).

(** [room]: the pool had room for the [WideBounds64]. *)
Definition init_tier1 (room : bool) (w f l h : Z) : option variable :=
  if room then
    Some (mk_var 0 0 l h w (u8 (Z.lor (Z.land f (Z.lnot VAR_TIER2)) VAR_TIER1)))
  else None.

Definition init_const_singleton (room : bool) (cv f w : Z) : option variable :=
  let f := if cv <? 0 then Z.lor f VAR_SIGNED else f in
  if (w <=? 32) && (cv >=? INT32_MIN) && (cv <=? INT32_MAX) then Some (init_tier0 32 f cv cv)
  else
    let w := if (w <=? 32) || (w >? 64) then 64 else w in
    init_tier1 room w f cv cv.

Definition init_aux_tiered (room : bool) (w f l h : Z) : option variable :=
  if (w =? 0) || (w >? 64) then None else
  let signed := negb (Z.land f VAR_SIGNED =? 0) in
  let refused :=
    if w <? 64 then
      if signed then
        let smax := Z.shiftl 1 (w - 1) - 1 in (l <? - smax - 1) || (h >? smax)
      else
        let umax := s64 (u64 (u64 (Z.shiftl 1 w) - 1)) in (l <? 0) || (h >? umax)
    else false in
  if refused then None else
  if (w <? 32) || ((w =? 32) && signed) then Some (init_tier0 w f l h)
  else init_tier1 room w f l h.

Definition var_needs_wide (v : variable) : bool := negb (var_is_tier0 (flags v)).

(** ** The number a bound denotes *)

Definition beyond (v : variable) : bool := negb (is_signed v) && (64 <=? width v).
Definition bval (v : variable) (b : Z) : Z := if beyond v then u64 b else b.
Definition lo_of (v : variable) : Z := bval v (var_lo64 v).
Definition hi_of (v : variable) : Z := bval v (var_hi64 v).

(** The numbers a variable of this width and signedness can hold. *)
Definition vmin (v : variable) : Z := if is_signed v then - 2 ^ (width v - 1) else 0.
Definition vmax (v : variable) : Z :=
  if is_signed v then 2 ^ (width v - 1) - 1 else 2 ^ width v - 1.

(** The variables the engine searches: tier 0 with 31 value bits, or tier 1;
    with a non-empty domain the type can represent. *)
Record good (v : variable) : Prop := {
  gd_width : 1 <= width v <= 64;
  gd_tier : (var_is_tier0 (flags v) = true /\ width v <= 32 /\ int32 (lo v) /\ int32 (hi v) /\
               hi_of v <= INT32_MAX) \/
            (var_is_tier0 (flags v) = false /\ var_is_tier1 (flags v) = true /\
             var_is_tier2 (flags v) = false /\ int64 (wb_lo v) /\ int64 (wb_hi v));
  gd_lo : vmin v <= lo_of v;
  gd_ne : lo_of v <= hi_of v;
  gd_hi : hi_of v <= vmax v }.

Lemma u64_s64 z : u64 (s64 z) = u64 z.
Proof.
  unfold u64, s64. rewrite <- (Z.mod_add _ 1) by lia.
  replace ((z + 2 ^ 63) mod 2 ^ 64 - 2 ^ 63 + 1 * 2 ^ 64)
    with ((z + 2 ^ 63) mod 2 ^ 64 + 2 ^ 63) by lia.
  rewrite Z.add_mod_idemp_l by lia. rewrite <- (Z.mod_add z 1) by lia. f_equal. lia.
Qed.

Lemma var_b_lt_spec v a b : var_b_lt v a b = (bval v a <? bval v b).
Proof. unfold var_b_lt, bval, beyond. destruct (_ && _); reflexivity. Qed.

Lemma pow2_pos n : 0 <= n -> 0 < 2 ^ n.
Proof. intros. apply Z.pow_pos_nonneg; lia. Qed.

Lemma repr_min_spec v : 1 <= width v <= 64 -> bval v (var_repr_min v) = vmin v.
Proof.
  intros W. unfold bval, beyond, var_repr_min, vmin. destruct (is_signed v); cbn [negb andb].
  - destruct (Z.geb_spec (width v) 64).
    + replace (width v) with 64 by lia. reflexivity.
    + rewrite Z.shiftl_1_l. reflexivity.
  - destruct (64 <=? width v); reflexivity.
Qed.

Lemma repr_max_spec v : 1 <= width v <= 64 -> bval v (var_repr_max v) = vmax v.
Proof.
  intros W. unfold bval, beyond, var_repr_max, vmax. destruct (is_signed v); cbn [negb andb].
  - destruct (Z.geb_spec (width v) 64).
    + replace (width v) with 64 by lia. reflexivity.
    + rewrite Z.shiftl_1_l. reflexivity.
  - destruct (Z.eqb_spec (width v) 64) as [-> | Ne]; [reflexivity |].
    destruct (Z.leb_spec 64 (width v)); [lia |]. destruct (Z.gtb_spec (width v) 64); [lia |].
    rewrite Z.shiftl_1_l. pose proof (pow2_pos (width v) ltac:(lia)).
    pose proof (Z.pow_le_mono_r 2 (width v) 63 ltac:(lia) ltac:(lia)).
    unfold u64. rewrite (Z.mod_small (2 ^ width v)) by lia. rewrite Z.mod_small by lia.
    apply s64_small. unfold int64. lia.
Qed.

(** On a tier-0 variable the raw fields are the numbers. *)
Lemma good_tier0 v :
  good v -> var_is_tier0 (flags v) = true ->
  lo_of v = lo v /\ hi_of v = hi v /\ int32 (lo v) /\ int32 (hi v) /\ width v <= 32.
Proof.
  intros G T. destruct (gd_tier v G) as [(_ & W & L & H & M) | (F & _)]; [| congruence].
  pose proof (gd_lo v G). pose proof (gd_ne v G).
  assert (B : forall x, bval v x = x).
  { intros x. unfold bval, beyond. destruct (Z.leb_spec 64 (width v)); [lia |].
    rewrite andb_false_r. reflexivity. }
  unfold lo_of, hi_of, vmin in *. rewrite !B in *. unfold var_lo64, var_hi64 in *. rewrite T in *.
  destruct (is_signed v); [auto |].
  assert (E : forall x, int32 x -> u32 x <= INT32_MAX -> u32 x = x).
  { unfold int32, u32, INT32_MAX. intros x Hx Hu.
    destruct (Z.leb_spec 0 x); [apply Z.mod_small; lia |].
    rewrite <- (Z.mod_add x 1) in Hu by lia. rewrite Z.mod_small in Hu; lia. }
  rewrite !E by (auto; lia). auto.
Qed.

(** ** What the initialisers make *)

Lemma tier0_bits f : var_is_tier0 f = negb (Z.testbit f 3) && negb (Z.testbit f 4).
Proof.
  unfold var_is_tier0, VAR_TIER1, VAR_TIER2. change 8 with (2 ^ 3). change 16 with (2 ^ 4).
  rewrite Z.land_lor_distr_r, <- !flag_bit by lia. rewrite !negb_involutive.
  destruct (Z.eqb_spec (Z.land f (2 ^ 3)) 0) as [-> | N3];
    destruct (Z.eqb_spec (Z.land f (2 ^ 4)) 0) as [-> | N4]; cbn [andb]; try reflexivity;
    apply Z.eqb_neq; rewrite Z.lor_eq_0_iff; tauto.
Qed.

Lemma tier1_bit f : var_is_tier1 f = Z.testbit f 3.
Proof. apply (flag_bit f 3). lia. Qed.
Lemma tier2_bit f : var_is_tier2 f = Z.testbit f 4.
Proof. apply (flag_bit f 4). lia. Qed.
Lemma signed_bit v : is_signed v = Z.testbit (flags v) 0.
Proof. apply (flag_bit (flags v) 0). lia. Qed.

Lemma tier0_flags f i :
  0 <= i -> Z.testbit (Z.land f (Z.lnot (Z.lor VAR_TIER1 VAR_TIER2))) i =
    Z.testbit f i && negb ((i =? 3) || (i =? 4)).
Proof.
  intros Hi. rewrite Z.land_spec, Z.lnot_spec, Z.lor_spec by exact Hi.
  unfold VAR_TIER1, VAR_TIER2. change 8 with (2 ^ 3). change 16 with (2 ^ 4).
  rewrite !pow2_spec by lia. reflexivity.
Qed.

Lemma tier1_flags f i :
  0 <= i < 8 -> Z.testbit (u8 (Z.lor (Z.land f (Z.lnot VAR_TIER2)) VAR_TIER1)) i =
    (i =? 3) || (Z.testbit f i && negb (i =? 4)).
Proof.
  intros Hi. unfold u8. rewrite Z.testbit_mod_pow2, Z.lor_spec, Z.land_spec, Z.lnot_spec by lia.
  unfold VAR_TIER1, VAR_TIER2. change (Z.testbit 8 i) with (Z.testbit (2 ^ 3) i).
  change (Z.testbit 16 i) with (Z.testbit (2 ^ 4) i).
  rewrite !pow2_spec by lia. destruct (Z.ltb_spec i 8); [| lia]. cbn [andb]. apply orb_comm.
Qed.

(** The number a bound pattern denotes for this width and signedness. *)
Definition pattern (w : Z) (sgn : bool) (b : Z) : Z := if negb sgn && (64 <=? w) then u64 b else b.
Definition type_min (w : Z) (sgn : bool) : Z := if sgn then - 2 ^ (w - 1) else 0.
Definition type_max (w : Z) (sgn : bool) : Z := if sgn then 2 ^ (w - 1) - 1 else 2 ^ w - 1.

Lemma init_tier0_spec w f l h :
  1 <= w <= 32 -> h <= INT32_MAX ->
  type_min w (Z.testbit f 0) <= l -> h <= type_max w (Z.testbit f 0) -> l <= h ->
  let v := init_tier0 w f l h in
  good v /\ width v = w /\ is_signed v = Z.testbit f 0 /\ lo_of v = l /\ hi_of v = h.
Proof.
  intros W H31 L Hh Ne v. set (sgn := Z.testbit f 0) in *.
  assert (Sg : is_signed v = sgn).
  { rewrite signed_bit. subst v sgn. cbn [flags init_tier0]. rewrite tier0_flags by lia.
    apply andb_true_r. }
  assert (T0 : var_is_tier0 (flags v) = true).
  { rewrite tier0_bits. subst v. cbn [flags init_tier0]. rewrite !tier0_flags by lia.
    rewrite !andb_false_r. reflexivity. }
  pose proof (Z.pow_le_mono_r 2 (w - 1) 31 ltac:(lia) ltac:(lia)) as P1.
  assert (R : int32 l /\ int32 h /\ h <= INT32_MAX /\ (sgn = false -> 0 <= l)).
  { unfold int32, INT32_MAX, type_min, type_max in *.
    destruct sgn; [split; [lia | split; [lia | split; [lia | discriminate]]] | lia]. }
  destruct R as (R1 & R2 & R3 & R4).
  assert (B : forall x, bval v x = x).
  { intros x. unfold bval, beyond. subst v. cbn [width init_tier0].
    destruct (Z.leb_spec 64 w); [lia |]. rewrite andb_false_r. reflexivity. }
  assert (U : forall x, int32 x -> (sgn = false -> 0 <= x) -> (if sgn then x else u32 x) = x).
  { intros x Hx Hp. destruct sgn; [reflexivity |]. specialize (Hp eq_refl). apply Z.mod_small.
    unfold int32 in Hx. lia. }
  assert (Lo : lo_of v = l).
  { unfold lo_of. rewrite B. unfold var_lo64. rewrite T0, Sg. subst v. cbn [lo init_tier0].
    rewrite s32_small by exact R1. apply U; assumption. }
  assert (Hi : hi_of v = h).
  { unfold hi_of. rewrite B. unfold var_hi64. rewrite T0, Sg. subst v. cbn [hi init_tier0].
    rewrite s32_small by exact R2. apply U; [exact R2 | intros E; specialize (R4 E); lia]. }
  split; [| auto]. constructor.
  - subst v. cbn. lia.
  - left. rewrite Hi. subst v. cbn [width init_tier0 lo hi].
    rewrite !s32_small by assumption. repeat split; try assumption; lia || apply R1 || apply R2.
  - rewrite Lo. unfold vmin. rewrite Sg. exact L.
  - rewrite Lo, Hi. exact Ne.
  - rewrite Hi. unfold vmax. rewrite Sg. exact Hh.
Qed.

Lemma init_tier1_spec w f l h v :
  1 <= w <= 64 -> int64 l -> int64 h ->
  let sgn := Z.testbit f 0 in
  type_min w sgn <= pattern w sgn l -> pattern w sgn h <= type_max w sgn ->
  pattern w sgn l <= pattern w sgn h ->
  init_tier1 true w f l h = Some v ->
  good v /\ width v = w /\ is_signed v = sgn /\ lo_of v = pattern w sgn l /\
  hi_of v = pattern w sgn h.
Proof.
  intros W Il Ih sgn L Hh Ne [= <-]. set (v := mk_var _ _ _ _ _ _).
  assert (Sg : is_signed v = sgn).
  { rewrite signed_bit. subst v sgn. cbn [flags]. rewrite tier1_flags by lia. apply andb_true_r. }
  assert (T0 : var_is_tier0 (flags v) = false).
  { rewrite tier0_bits. subst v. cbn [flags]. rewrite tier1_flags by lia. reflexivity. }
  assert (T1 : var_is_tier1 (flags v) = true).
  { rewrite tier1_bit. subst v. cbn [flags]. rewrite tier1_flags by lia. reflexivity. }
  assert (T2 : var_is_tier2 (flags v) = false).
  { rewrite tier2_bit. subst v. cbn [flags]. rewrite tier1_flags by lia.
    rewrite andb_false_r. reflexivity. }
  assert (Lo : lo_of v = pattern w sgn l).
  { unfold lo_of, bval, beyond, var_lo64. rewrite T0, Sg. reflexivity. }
  assert (Hi : hi_of v = pattern w sgn h).
  { unfold hi_of, bval, beyond, var_hi64. rewrite T0, Sg. reflexivity. }
  split; [| auto]. constructor.
  - exact W.
  - right. subst v. auto.
  - rewrite Lo. unfold vmin. rewrite Sg. exact L.
  - rewrite Lo, Hi. exact Ne.
  - rewrite Hi. unfold vmax. rewrite Sg. exact Hh.
Qed.

(** A variable made for an auxiliary value has the width and signedness
    asked for, is one the engine can search, and its bounds denote the two
    numbers; it is refused only if the width is not 1 to 64, a bound does not
    fit the width, or it needs wide bounds and the pool has no room.  A variable
    made for a constant denotes exactly the constant, and is refused only for
    want of room. *)
Theorem initialisers_exact room w f l h :
  0 <= w -> int64 l -> int64 h ->
  let sgn := Z.testbit f 0 in
  pattern w sgn l <= pattern w sgn h ->
  match init_aux_tiered room w f l h with
  | Some v => good v /\ width v = w /\ is_signed v = sgn /\
      lo_of v = pattern w sgn l /\ hi_of v = pattern w sgn h
  | None => w < 1 \/ 64 < w \/ pattern w sgn l < type_min w sgn \/
      type_max w sgn < pattern w sgn h \/ (room = false /\ (32 < w \/ (w = 32 /\ sgn = false)))
  end /\
  let csgn := (l <? 0) || sgn in
  (32 < w <= 64 -> type_min w csgn <= l <= type_max w csgn) ->
  match init_const_singleton room l f w with
  | Some v => good v /\ lo_of v = l /\ hi_of v = l
  | None => room = false
  end.
Proof.
  intros W0 Il Ih sgn Ne. split.
  - unfold init_aux_tiered.
    destruct (Z.eqb_spec w 0); [left; lia |]. cbn [orb].
    destruct (Z.gtb_spec w 64); [right; left; lia |].
    assert (E : negb (Z.land f VAR_SIGNED =? 0) = sgn) by (apply (flag_bit f 0); lia).
    cbv zeta. rewrite E.
    set (refused := if w <? 64 then _ else false).
    assert (Rf : refused = (pattern w sgn l <? type_min w sgn) || (type_max w sgn <? pattern w sgn h)).
    { subst refused. unfold pattern, type_min, type_max. destruct (Z.ltb_spec w 64).
      - destruct (Z.leb_spec 64 w); [lia |]. rewrite andb_false_r. destruct sgn.
        + rewrite Z.shiftl_1_l, Z.gtb_ltb. f_equal. f_equal. lia.
        + rewrite Z.shiftl_1_l, Z.gtb_ltb. pose proof (pow2_pos w ltac:(lia)).
          pose proof (Z.pow_le_mono_r 2 w 63 ltac:(lia) ltac:(lia)).
          unfold u64. rewrite (Z.mod_small (2 ^ w)) by lia. rewrite Z.mod_small by lia.
          rewrite s64_small by (unfold int64; lia). reflexivity.
      - replace w with 64 in * by lia. unfold int64 in *. destruct sgn; cbn [negb andb Z.leb].
        + symmetry. apply orb_false_iff. split; apply Z.ltb_ge; cbn; lia.
        + change (64 <=? 64) with true. cbv iota. pose proof (fits_u64 l) as [? _].
          pose proof (fits_u64 h) as [_ ?]. symmetry.
          apply orb_false_iff. split; apply Z.ltb_ge; cbn in *; lia. }
    rewrite Rf. destruct (Z.ltb_spec (pattern w sgn l) (type_min w sgn)); [cbn [orb]; auto 6 |].
    cbn [orb]. destruct (Z.ltb_spec (type_max w sgn) (pattern w sgn h)); [auto 6 |].
    destruct ((w <? 32) || (w =? 32) && sgn) eqn:T.
    + assert (Ew : pattern w sgn l = l /\ pattern w sgn h = h).
      { assert (w <= 32) by (apply orb_true_iff in T as [T | T]; lia).
        unfold pattern. destruct (Z.leb_spec 64 w); [lia |]. rewrite andb_false_r. auto. }
      destruct Ew as [E1 E2]. rewrite E1, E2 in *.
      assert (W32 : w <= 32) by (apply orb_true_iff in T as [T | T]; lia).
      apply init_tier0_spec; auto; [lia |]. unfold INT32_MAX, type_max in *.
      destruct sgn.
      * pose proof (Z.pow_le_mono_r 2 (w - 1) 31 ltac:(lia) ltac:(lia)). lia.
      * rewrite andb_false_r, orb_false_r in T. apply Z.ltb_lt in T.
        pose proof (Z.pow_le_mono_r 2 w 31 ltac:(lia) ltac:(lia)). lia.
    + destruct room.
      * destruct (init_tier1 true w f l h) as [v |] eqn:Ev; [| discriminate].
        apply (init_tier1_spec w f l h v); auto; lia.
      * cbn [init_tier1]. right. right. right. right. split; [reflexivity |].
        apply orb_false_iff in T as [T1 T2]. apply Z.ltb_ge in T1.
        destruct sgn; [rewrite andb_true_r in T2; apply Z.eqb_neq in T2; left; lia |].
        destruct (Z.eq_dec w 32); [right; auto | left; lia].
  - intros csgn Fit. unfold init_const_singleton.
    set (f' := if l <? 0 then Z.lor f VAR_SIGNED else f).
    assert (Sg : Z.testbit f' 0 = csgn).
    { subst f' csgn sgn. destruct (l <? 0); [| reflexivity]. rewrite Z.lor_spec. apply orb_true_r. }
    assert (Cs : csgn = false -> 0 <= l).
    { subst csgn. destruct (Z.ltb_spec l 0); [discriminate | auto]. }
    destruct ((w <=? 32) && (l >=? INT32_MIN) && (l <=? INT32_MAX)) eqn:T.
    + unfold INT32_MIN, INT32_MAX in T.
      destruct (init_tier0_spec 32 f' l l ltac:(lia)) as (G & _ & _ & L1 & L2);
        rewrite ?Sg; unfold INT32_MAX, type_min, type_max; try lia;
        [destruct csgn; [cbn; lia | apply Cs; reflexivity] | destruct csgn; cbn; lia | auto].
    + set (w' := if (w <=? 32) || (w >? 64) then 64 else w).
      destruct room; [| reflexivity].
      destruct (init_tier1 true w' f' l l) as [v |] eqn:Ev; [| discriminate].
      assert (W' : 33 <= w' <= 64) by (subst w'; destruct (Z.leb_spec w 32), (Z.gtb_spec w 64); cbn; lia).
      assert (Pl : pattern w' csgn l = l).
      { unfold pattern. destruct csgn; cbn [negb andb]; [reflexivity |]. specialize (Cs eq_refl).
        destruct (64 <=? w'); [| reflexivity]. apply u64_small. unfold fits. unfold int64 in Il. lia. }
      assert (Rg : type_min w' csgn <= l <= type_max w' csgn).
      { subst w'. destruct (Z.leb_spec w 32) as [? | ?], (Z.gtb_spec w 64) as [? | ?]; cbn [orb];
          try (apply Fit; lia); unfold type_min, type_max, int64 in *;
          destruct csgn; cbn; try lia; specialize (Cs eq_refl); lia. }
      destruct (init_tier1_spec w' f' l l v) as (G & _ & _ & L1 & L2); rewrite ?Sg, ?Pl; auto; try lia.
      rewrite L1, L2, Sg, Pl. auto.
Qed.

Lemma initialisers_exact_witness :
  (exists v, init_aux_tiered true 64 0 0 (-1) = Some v /\ hi_of v = 2 ^ 64 - 1) /\
  init_aux_tiered true 8 0 0 256 = None /\
  (exists v, init_const_singleton true (-3) 0 8 = Some v /\ lo_of v = -3).
Proof.
  split; [| split; [reflexivity |]].
  - destruct (initialisers_exact true 64 0 0 (-1) ltac:(lia) ltac:(unfold int64; lia)
      ltac:(unfold int64; lia) ltac:(vm_compute; discriminate)) as [A _].
    eexists. split; [reflexivity |]. exact (proj2 (proj2 (proj2 (proj2 A)))).
  - destruct (initialisers_exact true 8 0 (-3) 5 ltac:(lia) ltac:(unfold int64; lia)
      ltac:(unfold int64; lia) ltac:(vm_compute; discriminate)) as [_ C].
    specialize (C ltac:(lia)). eexists. split; [reflexivity |]. exact (proj1 (proj2 C)).
Defined.

End Vars.
