(* ===== verification/Ctx.v ===== *)
(** * Ctx: the solver context
    (src/src/c/dvs_ctx.h, dvs_propagator.h, dvs_trail.h)

    The part of [dvs_ctx_t] the trail and the propagation loop work on.
    Objects in the pool are a finite map from pool offsets; arrays are lists;
    a chain through [prev] pointers is the list of its nodes with their
    addresses, newest first, so that the head's address is the top pointer.
    The context is parametric in the propagators' own data [T] (their [fire]
    pointer and constants) and in the dynamic stack [S] with its marks [M]. *)

From Stdlib Require Import ZArith Lia Bool.
From stdpp Require Import base gmap list numbers.
From S2P Require Import Prelude Vars.
Import Vars.
Open Scope Z_scope.

Module Ctx.

Definition EXPR_NULL : Z := 2 ^ 32 - 1.
Definition NULL : Z := 0.

Inductive prop_result := PROP_OK | PROP_CONFLICT | PROP_ENTAILED.
#[export] Instance prop_result_eq_dec : EqDecision prop_result.
Proof. solve_decision. Defined.

Definition PROP_FLAG_ENTAILED : Z := 1.
Definition PROP_FLAG_IN_QUEUE : Z := 2.
Definition PROP_FLAG_WIDE_WATCH : Z := 4.

(** [Propagator]; [watches] pairs each watched variable with the next
    propagator of that variable's watcher chain ([PropWatchSect], or the wide
    layout's two parallel arrays). *)
Record propagator (T : Type) := mk_prop {
  template : T;
  queue_next : Z;
  prop_id : Z;
  priority : Z;
  pflags : Z;
  watches : list (Z * Z) }.
Arguments mk_prop {T}.
Arguments template {T}.
Arguments queue_next {T}.
Arguments prop_id {T}.
Arguments priority {T}.
Arguments pflags {T}.
Arguments watches {T}.

(** Assignments [p->queue_next = n] and [p->flags = f]. *)
Definition set_next {T} (p : propagator T) (n : Z) : propagator T :=
  mk_prop (template p) n (prop_id p) (priority p) (pflags p) (watches p).
Definition set_pflags {T} (p : propagator T) (f : Z) : propagator T :=
  mk_prop (template p) (queue_next p) (prop_id p) (priority p) f (watches p).

(** [p->flags & bit], [p->flags |= bit], [p->flags &= (uint8_t)~bit] *)
Definition has_flag {T} (p : propagator T) (bit : Z) : bool := negb (Z.land (pflags p) bit =? 0).
Definition flag_on {T} (p : propagator T) (bit : Z) : propagator T :=
  set_pflags p (Z.lor (pflags p) bit).
Definition flag_off {T} (p : propagator T) (bit : Z) : propagator T :=
  set_pflags p (Z.land (pflags p) (u8 (Z.lnot bit))).

Record prop_queue := mk_queue { non_empty_mask : Z; heads : list Z; tails : list Z }.

Definition TRAIL_LB : Z := 0.
Definition TRAIL_UB : Z := 1.
Definition TRAIL_HOLE : Z := 2.
Definition TRAIL_VALUE_32 : Z := 0.
Definition TRAIL_VALUE_64 : Z := 1.

Record trail_entry := mk_entry {
  var_id : Z;
  kind : Z;
  value_size : Z;
  entry_level : Z;
  old_value : Z;
  prop_ref : Z;
  entry_flags : Z }.

Record level_mark (M : Type) := mk_mark {
  stack_mark : M;
  mark_trail_top : Z;
  mark_trail_count : Z;
  mark_entail_top : Z }.
Arguments mk_mark {M}.
Arguments stack_mark {M}.
Arguments mark_trail_top {M}.
Arguments mark_trail_count {M}.
Arguments mark_entail_top {M}.

(** The inverted guard table: [guard_ix] and [guard_ix_props] as lists, absent
    before the first build. *)
Record guard_index := mk_gix {
  gix : option (list Z * list Z);
  gix_nvars : Z;
  gix_nprops : Z;
  gix_bytes : Z;
  gix_dirty : bool }.

(** The counters that can stop a propagation. *)
Record work_budget := mk_budget {
  prop_fires : Z;
  prop_ticks : Z;
  thrash_limit : Z;
  thrash_hit : bool;
  work_limit : Z;
  work_hit : bool;
  conflict_count : Z;
  has_deadline : bool }.

Record ctx (T M S : Type) := mk_ctx {
  vars : list variable;
  decision_level : Z;
  level_marks : gmap Z (level_mark M);
  trail : list (Z * trail_entry);
  trail_count : Z;
  entail : list (Z * Z);
  dynamic : S;
  pool : gmap Z (propagator T);
  queue : prop_queue;
  watcher_heads : option (list Z);
  n_props : Z;
  prop_refs : option (list Z);
  n_prop_refs_capacity : Z;
  prop_guard_vars : option (list Z);
  guard_ix : guard_index;
  unassigned_mask : Z;
  current_prop_ref : Z;
  current_trail_flags : Z;
  conflict_prop_ref : Z;
  conflict_clause_idx : Z;
  prop_aborted : bool;
  budget : work_budget }.
Arguments mk_ctx {T M S}.
Arguments vars {T M S}.
Arguments decision_level {T M S}.
Arguments level_marks {T M S}.
Arguments trail {T M S}.
Arguments trail_count {T M S}.
Arguments entail {T M S}.
Arguments dynamic {T M S}.
Arguments pool {T M S}.
Arguments queue {T M S}.
Arguments watcher_heads {T M S}.
Arguments n_props {T M S}.
Arguments prop_refs {T M S}.
Arguments n_prop_refs_capacity {T M S}.
Arguments prop_guard_vars {T M S}.
Arguments guard_ix {T M S}.
Arguments unassigned_mask {T M S}.
Arguments current_prop_ref {T M S}.
Arguments current_trail_flags {T M S}.
Arguments conflict_prop_ref {T M S}.
Arguments conflict_clause_idx {T M S}.
Arguments prop_aborted {T M S}.
Arguments budget {T M S}.

Section Setters.
Context {T M S : Type}.
Implicit Types c : ctx T M S.

Definition set_vars c x : ctx T M S :=
  mk_ctx
    x (decision_level c) (level_marks c) (trail c) (trail_count c) (entail c) (dynamic c)
    (pool c) (queue c) (watcher_heads c) (n_props c) (prop_refs c) (n_prop_refs_capacity c)
    (prop_guard_vars c) (guard_ix c) (unassigned_mask c) (current_prop_ref c)
    (current_trail_flags c) (conflict_prop_ref c) (conflict_clause_idx c) (prop_aborted c)
    (budget c).
Definition set_decision_level c x : ctx T M S :=
  mk_ctx
    (vars c) x (level_marks c) (trail c) (trail_count c) (entail c) (dynamic c) (pool c)
    (queue c) (watcher_heads c) (n_props c) (prop_refs c) (n_prop_refs_capacity c)
    (prop_guard_vars c) (guard_ix c) (unassigned_mask c) (current_prop_ref c)
    (current_trail_flags c) (conflict_prop_ref c) (conflict_clause_idx c) (prop_aborted c)
    (budget c).
Definition set_level_marks c x : ctx T M S :=
  mk_ctx
    (vars c) (decision_level c) x (trail c) (trail_count c) (entail c) (dynamic c) (pool c)
    (queue c) (watcher_heads c) (n_props c) (prop_refs c) (n_prop_refs_capacity c)
    (prop_guard_vars c) (guard_ix c) (unassigned_mask c) (current_prop_ref c)
    (current_trail_flags c) (conflict_prop_ref c) (conflict_clause_idx c) (prop_aborted c)
    (budget c).
Definition set_trail c x : ctx T M S :=
  mk_ctx
    (vars c) (decision_level c) (level_marks c) x (trail_count c) (entail c) (dynamic c)
    (pool c) (queue c) (watcher_heads c) (n_props c) (prop_refs c) (n_prop_refs_capacity c)
    (prop_guard_vars c) (guard_ix c) (unassigned_mask c) (current_prop_ref c)
    (current_trail_flags c) (conflict_prop_ref c) (conflict_clause_idx c) (prop_aborted c)
    (budget c).
Definition set_trail_count c x : ctx T M S :=
  mk_ctx
    (vars c) (decision_level c) (level_marks c) (trail c) x (entail c) (dynamic c) (pool c)
    (queue c) (watcher_heads c) (n_props c) (prop_refs c) (n_prop_refs_capacity c)
    (prop_guard_vars c) (guard_ix c) (unassigned_mask c) (current_prop_ref c)
    (current_trail_flags c) (conflict_prop_ref c) (conflict_clause_idx c) (prop_aborted c)
    (budget c).
Definition set_entail c x : ctx T M S :=
  mk_ctx
    (vars c) (decision_level c) (level_marks c) (trail c) (trail_count c) x (dynamic c)
    (pool c) (queue c) (watcher_heads c) (n_props c) (prop_refs c) (n_prop_refs_capacity c)
    (prop_guard_vars c) (guard_ix c) (unassigned_mask c) (current_prop_ref c)
    (current_trail_flags c) (conflict_prop_ref c) (conflict_clause_idx c) (prop_aborted c)
    (budget c).
Definition set_dynamic c x : ctx T M S :=
  mk_ctx
    (vars c) (decision_level c) (level_marks c) (trail c) (trail_count c) (entail c) x (pool
    c) (queue c) (watcher_heads c) (n_props c) (prop_refs c) (n_prop_refs_capacity c)
    (prop_guard_vars c) (guard_ix c) (unassigned_mask c) (current_prop_ref c)
    (current_trail_flags c) (conflict_prop_ref c) (conflict_clause_idx c) (prop_aborted c)
    (budget c).
Definition set_pool c x : ctx T M S :=
  mk_ctx
    (vars c) (decision_level c) (level_marks c) (trail c) (trail_count c) (entail c)
    (dynamic c) x (queue c) (watcher_heads c) (n_props c) (prop_refs c)
    (n_prop_refs_capacity c) (prop_guard_vars c) (guard_ix c) (unassigned_mask c)
    (current_prop_ref c) (current_trail_flags c) (conflict_prop_ref c) (conflict_clause_idx
    c) (prop_aborted c) (budget c).
Definition set_queue c x : ctx T M S :=
  mk_ctx
    (vars c) (decision_level c) (level_marks c) (trail c) (trail_count c) (entail c)
    (dynamic c) (pool c) x (watcher_heads c) (n_props c) (prop_refs c) (n_prop_refs_capacity
    c) (prop_guard_vars c) (guard_ix c) (unassigned_mask c) (current_prop_ref c)
    (current_trail_flags c) (conflict_prop_ref c) (conflict_clause_idx c) (prop_aborted c)
    (budget c).
Definition set_watcher_heads c x : ctx T M S :=
  mk_ctx
    (vars c) (decision_level c) (level_marks c) (trail c) (trail_count c) (entail c)
    (dynamic c) (pool c) (queue c) x (n_props c) (prop_refs c) (n_prop_refs_capacity c)
    (prop_guard_vars c) (guard_ix c) (unassigned_mask c) (current_prop_ref c)
    (current_trail_flags c) (conflict_prop_ref c) (conflict_clause_idx c) (prop_aborted c)
    (budget c).
Definition set_n_props c x : ctx T M S :=
  mk_ctx
    (vars c) (decision_level c) (level_marks c) (trail c) (trail_count c) (entail c)
    (dynamic c) (pool c) (queue c) (watcher_heads c) x (prop_refs c) (n_prop_refs_capacity
    c) (prop_guard_vars c) (guard_ix c) (unassigned_mask c) (current_prop_ref c)
    (current_trail_flags c) (conflict_prop_ref c) (conflict_clause_idx c) (prop_aborted c)
    (budget c).
Definition set_prop_refs c x : ctx T M S :=
  mk_ctx
    (vars c) (decision_level c) (level_marks c) (trail c) (trail_count c) (entail c)
    (dynamic c) (pool c) (queue c) (watcher_heads c) (n_props c) x (n_prop_refs_capacity c)
    (prop_guard_vars c) (guard_ix c) (unassigned_mask c) (current_prop_ref c)
    (current_trail_flags c) (conflict_prop_ref c) (conflict_clause_idx c) (prop_aborted c)
    (budget c).
Definition set_n_prop_refs_capacity c x : ctx T M S :=
  mk_ctx
    (vars c) (decision_level c) (level_marks c) (trail c) (trail_count c) (entail c)
    (dynamic c) (pool c) (queue c) (watcher_heads c) (n_props c) (prop_refs c) x
    (prop_guard_vars c) (guard_ix c) (unassigned_mask c) (current_prop_ref c)
    (current_trail_flags c) (conflict_prop_ref c) (conflict_clause_idx c) (prop_aborted c)
    (budget c).
Definition set_prop_guard_vars c x : ctx T M S :=
  mk_ctx
    (vars c) (decision_level c) (level_marks c) (trail c) (trail_count c) (entail c)
    (dynamic c) (pool c) (queue c) (watcher_heads c) (n_props c) (prop_refs c)
    (n_prop_refs_capacity c) x (guard_ix c) (unassigned_mask c) (current_prop_ref c)
    (current_trail_flags c) (conflict_prop_ref c) (conflict_clause_idx c) (prop_aborted c)
    (budget c).
Definition set_guard_ix c x : ctx T M S :=
  mk_ctx
    (vars c) (decision_level c) (level_marks c) (trail c) (trail_count c) (entail c)
    (dynamic c) (pool c) (queue c) (watcher_heads c) (n_props c) (prop_refs c)
    (n_prop_refs_capacity c) (prop_guard_vars c) x (unassigned_mask c) (current_prop_ref c)
    (current_trail_flags c) (conflict_prop_ref c) (conflict_clause_idx c) (prop_aborted c)
    (budget c).
Definition set_unassigned_mask c x : ctx T M S :=
  mk_ctx
    (vars c) (decision_level c) (level_marks c) (trail c) (trail_count c) (entail c)
    (dynamic c) (pool c) (queue c) (watcher_heads c) (n_props c) (prop_refs c)
    (n_prop_refs_capacity c) (prop_guard_vars c) (guard_ix c) x (current_prop_ref c)
    (current_trail_flags c) (conflict_prop_ref c) (conflict_clause_idx c) (prop_aborted c)
    (budget c).
Definition set_current_prop_ref c x : ctx T M S :=
  mk_ctx
    (vars c) (decision_level c) (level_marks c) (trail c) (trail_count c) (entail c)
    (dynamic c) (pool c) (queue c) (watcher_heads c) (n_props c) (prop_refs c)
    (n_prop_refs_capacity c) (prop_guard_vars c) (guard_ix c) (unassigned_mask c) x
    (current_trail_flags c) (conflict_prop_ref c) (conflict_clause_idx c) (prop_aborted c)
    (budget c).
Definition set_current_trail_flags c x : ctx T M S :=
  mk_ctx
    (vars c) (decision_level c) (level_marks c) (trail c) (trail_count c) (entail c)
    (dynamic c) (pool c) (queue c) (watcher_heads c) (n_props c) (prop_refs c)
    (n_prop_refs_capacity c) (prop_guard_vars c) (guard_ix c) (unassigned_mask c)
    (current_prop_ref c) x (conflict_prop_ref c) (conflict_clause_idx c) (prop_aborted c)
    (budget c).
Definition set_conflict_prop_ref c x : ctx T M S :=
  mk_ctx
    (vars c) (decision_level c) (level_marks c) (trail c) (trail_count c) (entail c)
    (dynamic c) (pool c) (queue c) (watcher_heads c) (n_props c) (prop_refs c)
    (n_prop_refs_capacity c) (prop_guard_vars c) (guard_ix c) (unassigned_mask c)
    (current_prop_ref c) (current_trail_flags c) x (conflict_clause_idx c) (prop_aborted c)
    (budget c).
Definition set_conflict_clause_idx c x : ctx T M S :=
  mk_ctx
    (vars c) (decision_level c) (level_marks c) (trail c) (trail_count c) (entail c)
    (dynamic c) (pool c) (queue c) (watcher_heads c) (n_props c) (prop_refs c)
    (n_prop_refs_capacity c) (prop_guard_vars c) (guard_ix c) (unassigned_mask c)
    (current_prop_ref c) (current_trail_flags c) (conflict_prop_ref c) x (prop_aborted c)
    (budget c).
Definition set_prop_aborted c x : ctx T M S :=
  mk_ctx
    (vars c) (decision_level c) (level_marks c) (trail c) (trail_count c) (entail c)
    (dynamic c) (pool c) (queue c) (watcher_heads c) (n_props c) (prop_refs c)
    (n_prop_refs_capacity c) (prop_guard_vars c) (guard_ix c) (unassigned_mask c)
    (current_prop_ref c) (current_trail_flags c) (conflict_prop_ref c) (conflict_clause_idx
    c) x (budget c).
Definition set_budget c x : ctx T M S :=
  mk_ctx
    (vars c) (decision_level c) (level_marks c) (trail c) (trail_count c) (entail c)
    (dynamic c) (pool c) (queue c) (watcher_heads c) (n_props c) (prop_refs c)
    (n_prop_refs_capacity c) (prop_guard_vars c) (guard_ix c) (unassigned_mask c)
    (current_prop_ref c) (current_trail_flags c) (conflict_prop_ref c) (conflict_clause_idx
    c) (prop_aborted c) x.
End Setters.

(** [n_vars] is the number of variables the table holds. *)
Definition n_vars {T M S} (c : ctx T M S) : Z := Z.of_nat (length (vars c)).

Definition no_var : variable := mk_var 0 0 0 0 0 0.
(** [ctx->vars\[id\]] *)
Definition var {T M S} (c : ctx T M S) (id : Z) : variable :=
  default no_var (vars c !! Z.to_nat id).
Definition put_var {T M S} (c : ctx T M S) (id : Z) (v : variable) : ctx T M S :=
  set_vars c (<[Z.to_nat id := v]> (vars c)).

(** Assigning one bound of a variable. *)
Definition set_lo (v : variable) (x : Z) : variable :=
  mk_var x (hi v) (wb_lo v) (wb_hi v) (width v) (flags v).
Definition set_hi (v : variable) (x : Z) : variable :=
  mk_var (lo v) x (wb_lo v) (wb_hi v) (width v) (flags v).
Definition set_wb_lo (v : variable) (x : Z) : variable :=
  mk_var (lo v) (hi v) x (wb_hi v) (width v) (flags v).
Definition set_wb_hi (v : variable) (x : Z) : variable :=
  mk_var (lo v) (hi v) (wb_lo v) x (width v) (flags v).

(** ** Lemmas on flags and variables *)

Section Flags.
Context {T : Type}.
Implicit Types p : propagator T.

Lemma has_flag_on p k j :
  0 <= k -> 0 <= j -> has_flag (flag_on p (2 ^ k)) (2 ^ j) = (k =? j) || has_flag p (2 ^ j).
Proof.
  intros. unfold has_flag, flag_on. cbn [pflags set_pflags].
  rewrite !flag_bit, Z.lor_spec, pow2_spec, Z.eqb_sym by lia. apply orb_comm.
Qed.

Lemma has_flag_off p k j :
  0 <= k < 8 -> 0 <= j < 8 ->
  has_flag (flag_off p (2 ^ k)) (2 ^ j) = negb (k =? j) && has_flag p (2 ^ j).
Proof.
  intros. unfold has_flag, flag_off. cbn [pflags set_pflags].
  rewrite !flag_bit, Z.land_spec by lia. unfold u8.
  rewrite Z.testbit_mod_pow2, Z.lnot_spec, pow2_spec by lia.
  destruct (Z.ltb_spec j 8); [| lia]. cbn [andb]. rewrite (Z.eqb_sym j k). apply andb_comm.
Qed.

Lemma has_flag_next p n b : has_flag (set_next p n) b = has_flag p b.
Proof. reflexivity. Qed.
End Flags.

Section Vars.
Context {T M S : Type}.
Implicit Types c : ctx T M S.

Lemma var_put c i j v :
  0 <= i < n_vars c -> 0 <= j -> var (put_var c i v) j = if i =? j then v else var c j.
Proof.
  unfold var, put_var, n_vars. cbn [vars set_vars]. intros Hi Hj.
  destruct (Z.eqb_spec i j) as [-> | Ne].
  - rewrite list_lookup_insert_eq by lia. reflexivity.
  - rewrite list_lookup_insert_ne by lia. reflexivity.
Qed.

Lemma n_vars_put c i v : n_vars (put_var c i v) = n_vars c.
Proof. unfold n_vars, put_var. cbn. rewrite length_insert. reflexivity. Qed.
End Vars.

(** A context as it stands once memory is set up: no level, empty trail and
    queue, the given variables, propagators and stack. *)
Definition fresh_ctx {T M S} (vs : list variable) (ps : gmap Z (propagator T))
    (wh : option (list Z)) (s : S) : ctx T M S :=
  mk_ctx vs 0 ∅ [] 0 [] s ps (mk_queue 0 (replicate 16 EXPR_NULL) (replicate 16 EXPR_NULL)) wh
    0 None 0 None (mk_gix None 0 0 0 false) 0 EXPR_NULL 0 EXPR_NULL EXPR_NULL false
    (mk_budget 0 0 0 false 0 false 0 false).

End Ctx.
