(* ===== verification/Queue.v ===== *)
(** * Queue: the 16-level propagation queue
    (src/src/c/dvs_propagate.c, dvs_trail.c)

    A FIFO per priority level, threaded through the propagators' [queue_next]
    fields, with head and tail offsets and a bit mask of the non-empty levels.
    The file gives the operations on the intrusive lists, the abstract queue
    they implement (a list of offsets per level) and the refinement. *)

From Stdlib Require Import ZArith Lia Bool.
From stdpp Require Import base gmap list numbers.
From S2P Require Import Prelude Vars Ctx.
Import Ctx.
Open Scope Z_scope.

Module Queue.

Section Ops.
Context {T M S : Type}.
Implicit Types c : ctx T M S.

(** [*(Propagator* )dvs_spool_ptr(&ctx->pool, ref) = p] *)
Definition put_prop c (ref : Z) (p : propagator T) : ctx T M S :=
  set_pool c (<[ref := p]> (pool c)).
Definition update_prop c (ref : Z) (f : propagator T -> propagator T) : ctx T M S :=
  match pool c !! ref with Some p => put_prop c ref (f p) | None => c end.

Definition head_at c (lvl : Z) : Z := default EXPR_NULL (heads (queue c) !! Z.to_nat lvl).
Definition tail_at c (lvl : Z) : Z := default EXPR_NULL (tails (queue c) !! Z.to_nat lvl).
Definition put_head c (lvl ref : Z) : ctx T M S :=
  let q := queue c in
  set_queue c (mk_queue (non_empty_mask q) (<[Z.to_nat lvl := ref]> (heads q)) (tails q)).
Definition put_tail c (lvl ref : Z) : ctx T M S :=
  let q := queue c in
  set_queue c (mk_queue (non_empty_mask q) (heads q) (<[Z.to_nat lvl := ref]> (tails q))).
Definition put_mask c (m : Z) : ctx T M S :=
  set_queue c (mk_queue m (heads (queue c)) (tails (queue c))).

Definition u16 (z : Z) : Z := z mod 2 ^ 16.

Definition prop_enqueue c (ref : Z) : ctx T M S :=
  match pool c !! ref with
  | None => c
  | Some p =>
      if negb (Z.land (pflags p) (Z.lor PROP_FLAG_IN_QUEUE PROP_FLAG_ENTAILED) =? 0) then c else
      let c := put_prop c ref (set_next (flag_on p PROP_FLAG_IN_QUEUE) EXPR_NULL) in
      let lvl := priority p in
      if head_at c lvl =? EXPR_NULL then
        let c := put_tail (put_head c lvl ref) lvl ref in
        put_mask c (Z.lor (non_empty_mask (queue c)) (u16 (Z.shiftl 1 lvl)))
      else
        let c := update_prop c (tail_at c lvl) (fun t => set_next t ref) in
        put_tail c lvl ref
  end.

(** [__builtin_ctz] on a 16-bit mask *)
Fixpoint ctz_from (n : nat) (mask i : Z) : Z :=
  match n with
  | O => i
  | Datatypes.S n => if Z.testbit mask i then i else ctz_from n mask (i + 1)
  end.

(** The head of the loop body of [dvs_solver_propagate]: take the oldest
    propagator of the highest non-empty priority. *)
Definition dequeue c : option (Z * ctx T M S) :=
  let mask := non_empty_mask (queue c) in
  if mask =? 0 then None else
  let lvl := ctz_from 16 mask 0 in
  let ref := head_at c lvl in
  let next := match pool c !! ref with Some p => queue_next p | None => EXPR_NULL end in
  let c := put_head c lvl next in
  let c :=
    if next =? EXPR_NULL then
      let c := put_tail c lvl EXPR_NULL in
      put_mask c (Z.land (non_empty_mask (queue c)) (u16 (Z.lnot (Z.shiftl 1 lvl))))
    else c in
  Some (ref, update_prop c ref (fun p => flag_off (set_next p EXPR_NULL) PROP_FLAG_IN_QUEUE)).

(** The walk of one level's list in [trail_backtrack]. *)
Fixpoint clear_level (fuel : nat) c (ref : Z) : ctx T M S :=
  match fuel with
  | O => c
  | Datatypes.S f =>
      if ref =? EXPR_NULL then c else
      match pool c !! ref with
      | None => c
      | Some p =>
          let p' := set_next (flag_off (flag_off p PROP_FLAG_IN_QUEUE) PROP_FLAG_ENTAILED)
                      EXPR_NULL in
          clear_level f (put_prop c ref p') (queue_next p)
      end
  end.

Fixpoint clear_levels (n : nat) c (lvl : Z) : ctx T M S :=
  match n with
  | O => c
  | Datatypes.S n =>
      let c := clear_level (Datatypes.S (size (pool c))) c (head_at c lvl) in
      clear_levels n (put_tail (put_head c lvl EXPR_NULL) lvl EXPR_NULL) (lvl + 1)
  end.

Definition clear_queue c : ctx T M S := put_mask (clear_levels 16 c 0) 0.
End Ops.

(** ** The abstract queue *)

(** One list of propagator offsets per level, oldest first. *)
Definition aqueue : Type := Z -> list Z.
Definition upd (qs : aqueue) (lvl : Z) (l : list Z) : aqueue :=
  fun i => if i =? lvl then l else qs i.
Definition spec_enqueue (qs : aqueue) (lvl ref : Z) : aqueue := upd qs lvl (qs lvl ++ [ref]).
(** The first non-empty level from [i] on, its oldest offset, and the rest. *)
Fixpoint spec_dequeue (n : nat) (i : Z) (qs : aqueue) : option (Z * aqueue) :=
  match n with
  | O => None
  | Datatypes.S n =>
      match qs i with
      | ref :: l => Some (ref, upd qs i l)
      | [] => spec_dequeue n (i + 1) qs
      end
  end.

Section Refinement.
Context {T M S : Type}.
Implicit Types c : ctx T M S.

(** The list that starts at [first] in the pool. *)
Fixpoint linked (m : gmap Z (propagator T)) (first : Z) (l : list Z) : Prop :=
  match l with
  | [] => first = EXPR_NULL
  | r :: l => first = r /\ exists p, m !! r = Some p /\ linked m (queue_next p) l
  end.

Definition pool_ok (m : gmap Z (propagator T)) : Prop :=
  forall r p, m !! r = Some p -> r <> EXPR_NULL /\ 0 <= priority p < 16.

(** The concrete queue of [c] represents [qs]. *)
Record qrep c (qs : aqueue) : Prop := {
  qr_pool : pool_ok (pool c);
  qr_len : length (heads (queue c)) = 16%nat /\ length (tails (queue c)) = 16%nat;
  qr_linked : forall l, 0 <= l < 16 -> linked (pool c) (head_at c l) (qs l);
  qr_tail : forall l, 0 <= l < 16 -> tail_at c l = List.last (qs l) EXPR_NULL;
  qr_mask : fits 16 (non_empty_mask (queue c)) /\
    forall l, 0 <= l < 16 ->
      Z.testbit (non_empty_mask (queue c)) l = negb (bool_decide (qs l = []));
  qr_nodup : forall l, 0 <= l < 16 -> NoDup (qs l);
  qr_in : forall l r, 0 <= l < 16 -> r ∈ qs l ->
    exists p, pool c !! r = Some p /\ priority p = l /\ has_flag p PROP_FLAG_IN_QUEUE = true;
  qr_flag : forall r p, pool c !! r = Some p -> has_flag p PROP_FLAG_IN_QUEUE = true ->
    r ∈ qs (priority p) }.

(** What the queue operations leave alone in a propagator. *)
Definition core (p : propagator T) : T * Z * Z * list (Z * Z) * bool :=
  (template p, prop_id p, priority p, watches p, has_flag p PROP_FLAG_ENTAILED).

(** Everything but the pool and the queue is as before. *)
Definition framed c c' : Prop := c' = set_queue (set_pool c (pool c')) (queue c').

Lemma core_put (m : gmap Z (propagator T)) r p p' :
  m !! r = Some p -> core p' = core p -> core <$> <[r := p']> m = core <$> m.
Proof.
  intros H E. apply map_eq. intros i. rewrite !lookup_fmap.
  destruct (decide (r = i)) as [<- | Ne].
  - rewrite lookup_insert_eq, H. cbn. rewrite E. reflexivity.
  - rewrite lookup_insert_ne by exact Ne. reflexivity.
Qed.

Lemma linked_frame m m' f l :
  linked m f l ->
  (forall r p, r ∈ l -> m !! r = Some p ->
     exists p', m' !! r = Some p' /\ queue_next p' = queue_next p) ->
  linked m' f l.
Proof.
  revert f. induction l as [| r l IH]; intros f L H; [exact L |].
  destruct L as (-> & p & Hp & L). split; [reflexivity |].
  destruct (H r p) as (p' & Hp' & E); [left | exact Hp |]. exists p'. split; [exact Hp' |].
  rewrite E. apply IH; [exact L |]. intros r' q Hr. apply H. right. exact Hr.
Qed.

Lemma linked_put m f l r p p' :
  linked m f l -> m !! r = Some p -> queue_next p' = queue_next p ->
  linked (<[r := p']> m) f l.
Proof.
  intros L Hp E. apply (linked_frame m); [exact L |]. intros i q _ Hq.
  destruct (decide (r = i)) as [<- | Ne].
  - rewrite lookup_insert_eq. exists p'. split; [reflexivity | congruence].
  - rewrite lookup_insert_ne by exact Ne. eauto.
Qed.

Lemma linked_put_notin m f l r p' :
  linked m f l -> r ∉ l -> linked (<[r := p']> m) f l.
Proof.
  intros L N. apply (linked_frame m); [exact L |]. intros i q Hi Hq.
  rewrite lookup_insert_ne by (intros ->; contradiction). eauto.
Qed.

(** Appending: the old tail's link and the new node's null link. *)
Lemma linked_snoc m f l t pt ref pr :
  linked m f (l ++ [t]) -> NoDup (l ++ [t]) -> ref ∉ l ++ [t] ->
  m !! t = Some pt -> m !! ref = Some pr -> queue_next pr = EXPR_NULL ->
  linked (<[t := set_next pt ref]> m) f ((l ++ [t]) ++ [ref]).
Proof.
  intros L N Hr Ht Hf E. revert f L N Hr.
  induction l as [| r l IH]; intros f L N Hr; cbn [app] in *.
  - destruct L as (-> & p & Hp & _). split; [reflexivity |].
    exists (set_next pt ref). rewrite lookup_insert_eq. split; [reflexivity |].
    split; [reflexivity |]. exists pr.
    rewrite lookup_insert_ne by (intros ->; apply Hr; left). auto.
  - destruct L as (-> & p & Hp & L). apply list.NoDup_cons in N as [Nr N].
    split; [reflexivity |]. exists p. rewrite lookup_insert_ne.
    + split; [exact Hp |]. apply IH; [exact L | exact N |]. intros H. apply Hr. right. exact H.
    + intros ->. apply Nr, elem_of_app. right. left.
Qed.

Lemma linked_head m f l : linked m f l -> pool_ok m -> (f = EXPR_NULL <-> l = []).
Proof.
  intros L K. destruct l as [| r l]; [split; auto |]. destruct L as (-> & p & Hp & _).
  split; [| discriminate]. intros ->. apply K in Hp as [Ne _]. congruence.
Qed.

Lemma flags_or p :
  negb (Z.land (pflags p) (Z.lor PROP_FLAG_IN_QUEUE PROP_FLAG_ENTAILED) =? 0) =
  @has_flag T p PROP_FLAG_IN_QUEUE || has_flag p PROP_FLAG_ENTAILED.
Proof.
  unfold has_flag. change PROP_FLAG_IN_QUEUE with (2 ^ 1). change PROP_FLAG_ENTAILED with (2 ^ 0).
  rewrite !flag_bit by lia. rewrite Z.land_lor_distr_r.
  rewrite <- (flag_bit (pflags p) 1), <- (flag_bit (pflags p) 0) by lia.
  destruct (Z.eqb_spec (Z.land (pflags p) (2 ^ 1)) 0) as [-> | N1];
    destruct (Z.eqb_spec (Z.land (pflags p) (2 ^ 0)) 0) as [-> | N0]; try reflexivity;
    match goal with |- context [?x =? 0] => destruct (Z.eqb_spec x 0) as [E |]; [| reflexivity] end;
    apply Z.lor_eq_0_iff in E as [? ?]; contradiction.
Qed.

Lemma head_put_head c l r i :
  length (heads (queue c)) = 16%nat -> 0 <= l < 16 -> 0 <= i ->
  head_at (put_head c l r) i = if i =? l then r else head_at c i.
Proof.
  intros H Hl Hi. unfold head_at, put_head. cbn. destruct (Z.eqb_spec i l) as [-> | Ne].
  - rewrite list_lookup_insert_eq by lia. reflexivity.
  - rewrite list_lookup_insert_ne by lia. reflexivity.
Qed.

Lemma tail_put_tail c l r i :
  length (tails (queue c)) = 16%nat -> 0 <= l < 16 -> 0 <= i ->
  tail_at (put_tail c l r) i = if i =? l then r else tail_at c i.
Proof.
  intros H Hl Hi. unfold tail_at, put_tail. cbn. destruct (Z.eqb_spec i l) as [-> | Ne].
  - rewrite list_lookup_insert_eq by lia. reflexivity.
  - rewrite list_lookup_insert_ne by lia. reflexivity.
Qed.

Lemma u16_bit l i : 0 <= l < 16 -> 0 <= i -> Z.testbit (u16 (Z.shiftl 1 l)) i = (i =? l).
Proof.
  intros Hl Hi. unfold u16. rewrite Z.shiftl_1_l, Z.testbit_mod_pow2, pow2_spec by lia.
  destruct (Z.eqb_spec i l), (Z.ltb_spec i 16); auto; lia.
Qed.

Lemma in_queue_flag c qs l r p :
  qrep c qs -> 0 <= l < 16 -> r ∈ qs l -> pool c !! r = Some p ->
  has_flag p PROP_FLAG_IN_QUEUE = true /\ priority p = l.
Proof.
  intros Q Hl Hr Hp. destruct (qr_in _ _ Q l r Hl Hr) as (p' & E & Pr & F).
  rewrite Hp in E. injection E as <-. auto.
Qed.

Lemma pool_ok_put m r p p' :
  pool_ok m -> m !! r = Some p -> priority p' = priority p -> pool_ok (<[r := p']> m).
Proof.
  intros K Hp E i q Hi. destruct (decide (r = i)) as [<- | Ne].
  - rewrite lookup_insert_eq in Hi. injection Hi as <-. rewrite E. apply (K r p Hp).
  - rewrite lookup_insert_ne in Hi by exact Ne. apply (K i q Hi).
Qed.

Lemma list_snoc_case (l : list Z) : l = [] \/ exists l0 t, l = l0 ++ [t].
Proof. destruct l as [| x l _] using rev_ind; [auto |]. right. eauto. Qed.

Lemma last_snoc (l : list Z) (x d : Z) : List.last (l ++ [x]) d = x.
Proof. apply List.last_last. Qed.

(** The shared part of both branches: a pool that differs from the old one in
    links only, plus the new node. *)
Lemma enqueue_rep c c' qs ref p p1 :
  qrep c qs -> pool c !! ref = Some p -> has_flag p PROP_FLAG_IN_QUEUE = false ->
  let lvl := priority p in
  pool c' !! ref = Some p1 -> priority p1 = lvl -> has_flag p1 PROP_FLAG_IN_QUEUE = true ->
  (forall r q, r <> ref -> pool c !! r = Some q -> exists q', pool c' !! r = Some q' /\
     priority q' = priority q /\
     has_flag q' PROP_FLAG_IN_QUEUE = has_flag q PROP_FLAG_IN_QUEUE) ->
  (forall r, pool c !! r = None -> pool c' !! r = None) ->
  length (heads (queue c')) = 16%nat -> length (tails (queue c')) = 16%nat ->
  (forall l, 0 <= l < 16 -> linked (pool c') (head_at c' l) (spec_enqueue qs lvl ref l)) ->
  (forall l, 0 <= l < 16 -> tail_at c' l = if l =? lvl then ref else tail_at c l) ->
  fits 16 (non_empty_mask (queue c')) ->
  (forall l, 0 <= l < 16 -> Z.testbit (non_empty_mask (queue c')) l =
     (l =? lvl) || Z.testbit (non_empty_mask (queue c)) l) ->
  qrep c' (spec_enqueue qs lvl ref).
Proof.
  intros Q Hp Hf lvl Hp1 Pr1 Fl1 Old New L1 L2 Lk Tl F16 Bits.
  destruct (qr_pool _ _ Q ref p Hp) as [Nn Hlvl]. fold lvl in Hlvl.
  assert (Nin : forall l, 0 <= l < 16 -> ref ∉ qs l).
  { intros l Hl Hin. destruct (in_queue_flag c qs l ref p Q Hl Hin Hp). congruence. }
  assert (Inv : forall r q', pool c' !! r = Some q' -> r <> ref ->
    exists q, pool c !! r = Some q /\ priority q' = priority q /\
      has_flag q' PROP_FLAG_IN_QUEUE = has_flag q PROP_FLAG_IN_QUEUE).
  { intros r q' Hq Ne. destruct (pool c !! r) as [q |] eqn:E.
    - destruct (Old r q Ne E) as (q2 & E2 & P2 & F2). exists q. split; [reflexivity |].
      rewrite E2 in Hq. injection Hq as <-. auto.
    - rewrite (New r E) in Hq. discriminate. }
  constructor; auto.
  - intros r q' Hq. destruct (decide (r = ref)) as [-> | Ne].
    + rewrite Hp1 in Hq. injection Hq as <-. rewrite Pr1. auto.
    + destruct (Inv r q' Hq Ne) as (q & E & P & _). rewrite P. apply (qr_pool _ _ Q r q E).
  - intros l Hl. rewrite Tl by exact Hl. unfold spec_enqueue, upd.
    destruct (Z.eqb_spec l lvl) as [-> | Ne]; [rewrite last_snoc; reflexivity |].
    apply (qr_tail _ _ Q l Hl).
  - split; [exact F16 |]. intros l Hl. rewrite Bits by exact Hl. unfold spec_enqueue, upd.
    destruct (Z.eqb_spec l lvl) as [-> | Ne]; cbn [orb].
    + rewrite bool_decide_false by (destruct (qs lvl); discriminate). reflexivity.
    + apply (proj2 (qr_mask _ _ Q) l Hl).
  - intros l Hl. unfold spec_enqueue, upd. destruct (Z.eqb_spec l lvl) as [-> | Ne].
    + apply list.NoDup_app. split; [apply (qr_nodup _ _ Q lvl Hl) |]. split.
      * intros x Hx Hx'. apply list_elem_of_singleton in Hx'. subst. apply (Nin lvl Hl Hx).
      * apply NoDup_singleton.
    + apply (qr_nodup _ _ Q l Hl).
  - intros l r Hl Hr. unfold spec_enqueue, upd in Hr.
    assert (Hr' : r = ref /\ l = lvl \/ r ∈ qs l).
    { destruct (Z.eqb_spec l lvl) as [-> | Ne]; [| auto].
      apply elem_of_app in Hr as [Hr | Hr]; [auto |]. apply list_elem_of_singleton in Hr. auto. }
    destruct Hr' as [[-> ->] | Hr']; [exists p1; auto |].
    destruct (qr_in _ _ Q l r Hl Hr') as (q & Hq & Pq & Fq).
    destruct (Old r q) as (q' & E & P & F); [intros ->; apply (Nin l Hl Hr') | exact Hq |].
    exists q'. split; [exact E |]. split; congruence.
  - intros r q' Hq F. unfold spec_enqueue, upd. destruct (decide (r = ref)) as [-> | Ne].
    + rewrite Hp1 in Hq. injection Hq as <-. rewrite Pr1, Z.eqb_refl.
      apply elem_of_app. right. left.
    + destruct (Inv r q' Hq Ne) as (q & E & P & Ff). rewrite P.
      pose proof (qr_flag _ _ Q r q E ltac:(congruence)) as In.
      destruct (Z.eqb_spec (priority q) lvl) as [El | _]; [| exact In].
      rewrite El in In. apply elem_of_app. left. exact In.
Qed.

Lemma set_queue_pool c m q : pool (set_queue (set_pool c m) q) = m.
Proof. reflexivity. Qed.

(** [prop_enqueue] is the abstract enqueue, at the propagator's priority, of a
    propagator that is neither queued nor entailed; otherwise it is nothing. *)
Lemma enqueue_refines c qs ref p :
  qrep c qs -> pool c !! ref = Some p ->
  if has_flag p PROP_FLAG_IN_QUEUE || has_flag p PROP_FLAG_ENTAILED then prop_enqueue c ref = c
  else qrep (prop_enqueue c ref) (spec_enqueue qs (priority p) ref) /\
    core <$> pool (prop_enqueue c ref) = core <$> pool c /\ framed c (prop_enqueue c ref).
Proof.
  intros Q Hp. pose proof (flags_or p) as Fo. unfold prop_enqueue. rewrite Hp, Fo.
  destruct (has_flag p PROP_FLAG_IN_QUEUE) eqn:Fq; [reflexivity |].
  destruct (has_flag p PROP_FLAG_ENTAILED) eqn:Fe; [reflexivity |]. cbn [orb].
  destruct (qr_pool _ _ Q ref p Hp) as [Nn Hlvl]. set (lvl := priority p) in *.
  set (p1 := set_next (flag_on p PROP_FLAG_IN_QUEUE) EXPR_NULL).
  assert (P1q : has_flag p1 PROP_FLAG_IN_QUEUE = true).
  { subst p1. rewrite has_flag_next. change PROP_FLAG_IN_QUEUE with (2 ^ 1).
    rewrite has_flag_on by lia. reflexivity. }
  assert (P1e : core p1 = core p).
  { unfold core. subst p1. cbn [template prop_id priority watches set_next flag_on set_pflags].
    f_equal. rewrite has_flag_next. change PROP_FLAG_IN_QUEUE with (2 ^ 1).
    change PROP_FLAG_ENTAILED with (2 ^ 0). rewrite has_flag_on by lia. reflexivity. }
  set (c1 := put_prop c ref p1).
  assert (Nin : forall l, 0 <= l < 16 -> ref ∉ qs l).
  { intros l Hl Hin. destruct (in_queue_flag c qs l ref p Q Hl Hin Hp). congruence. }
  destruct (qr_len _ _ Q) as [Lh Lt].
  assert (H1 : head_at c1 lvl = head_at c lvl) by reflexivity. rewrite H1.
  pose proof (linked_head _ _ _ (qr_linked _ _ Q lvl Hlvl) (qr_pool _ _ Q)) as Hh.
  destruct (qr_mask _ _ Q) as [F16 Bits].
  destruct (Z.eqb_spec (head_at c lvl) EXPR_NULL) as [Hn | Hn].
  - apply Hh in Hn. split; [| split; [apply (core_put _ _ p); assumption | reflexivity]].
    apply (enqueue_rep c _ qs ref p p1); auto; cbn [pool set_pool put_prop].
    + apply lookup_insert_eq.
    + intros r q Ne E. exists q. cbn. rewrite lookup_insert_ne by auto. auto.
    + intros r E. cbn. rewrite lookup_insert_ne; [exact E |]. intros ->. congruence.
    + cbn. rewrite length_insert. exact Lh.
    + cbn. rewrite length_insert. exact Lt.
    + intros l Hl. change (head_at (put_mask ?c _) l) with (head_at c l).
      change (head_at (put_tail ?c _ _) l) with (head_at c l).
      rewrite head_put_head by (auto; lia). unfold spec_enqueue, upd; fold lvl.
      destruct (Z.eqb_spec l lvl) as [-> | Ne].
      * rewrite Hn. cbn. split; [reflexivity |]. exists p1. rewrite lookup_insert_eq. auto.
      * cbn. apply linked_put_notin; [apply (qr_linked _ _ Q l Hl) | apply Nin, Hl].
    + intros l Hl. change (tail_at (put_mask ?c _) l) with (tail_at c l).
      rewrite tail_put_tail by (auto; lia). reflexivity.
    + cbn. apply fits_intro; [lia |]. intros i Hi. unfold u16.
      rewrite Z.lor_spec, Z.testbit_mod_pow2 by lia. rewrite (fits_high 16) by (auto; lia).
      destruct (Z.ltb_spec i 16); [lia | reflexivity].
    + intros l Hl. cbn. rewrite Z.lor_spec, u16_bit by lia. apply orb_comm.
  - destruct (list_snoc_case (qs lvl)) as [Em | (l0 & t & El)].
    { apply Hh in Em. contradiction. }
    assert (Ht : tail_at c1 lvl = t).
    { change (tail_at c1 lvl) with (tail_at c lvl).
      rewrite (qr_tail _ _ Q lvl Hlvl), El. apply last_snoc. }
    rewrite Ht. destruct (qr_in _ _ Q lvl t Hlvl) as (pt & Hpt & _).
    { rewrite El. apply elem_of_app. right. left. }
    assert (Nt : ref <> t).
    { intros <-. apply (Nin lvl Hlvl). rewrite El. apply elem_of_app. right. left. }
    unfold update_prop. subst c1. cbn [pool set_pool put_prop].
    rewrite lookup_insert_ne by exact Nt. rewrite Hpt. cbn [option_map].
    assert (Same : core <$> <[t := set_next pt ref]> (<[ref := p1]> (pool c)) = core <$> pool c).
    { rewrite (core_put _ t pt); [apply (core_put _ _ p); assumption | | reflexivity].
      rewrite lookup_insert_ne by exact Nt. exact Hpt. }
    split; [| split; [exact Same | reflexivity]].
    apply (enqueue_rep c _ qs ref p p1); auto; cbn [pool set_pool put_prop put_tail set_queue].
    + rewrite lookup_insert_ne by auto. apply lookup_insert_eq.
    + intros r q Ne E. destruct (decide (r = t)) as [-> | Ne'].
      * exists (set_next pt ref). rewrite lookup_insert_eq. rewrite Hpt in E.
        injection E as <-. auto.
      * exists q. rewrite !lookup_insert_ne by auto. auto.
    + intros r E. rewrite !lookup_insert_ne; [exact E | |]; intros ->; congruence.
    + cbn. rewrite length_insert. exact Lt.
    + intros l Hl. unfold spec_enqueue, upd. fold lvl.
      change (head_at _ l) with (head_at c l). destruct (Z.eqb_spec l lvl) as [-> | Ne].
      * rewrite El. pose proof (Nin lvl Hlvl) as Nl. rewrite El in Nl.
        apply (linked_snoc _ _ _ t pt ref p1); auto.
        -- rewrite <- El. apply linked_put_notin; [apply (qr_linked _ _ Q lvl Hlvl) |].
           rewrite El. exact Nl.
        -- rewrite <- El. apply (qr_nodup _ _ Q lvl Hlvl).
        -- rewrite lookup_insert_ne by exact Nt. exact Hpt.
        -- apply lookup_insert_eq.
      * apply linked_put_notin; [apply linked_put_notin |];
          [apply (qr_linked _ _ Q l Hl) | apply Nin, Hl |].
        intros Hin. destruct (in_queue_flag c qs l t pt Q Hl Hin Hpt) as [_ P2].
        destruct (in_queue_flag c qs lvl t pt Q Hlvl) as [_ P3]; [| exact Hpt | congruence].
        rewrite El. apply elem_of_app. right. left.
    + intros l Hl. unfold tail_at. cbn. fold lvl. destruct (Z.eqb_spec l lvl) as [-> | Ne].
      * rewrite list_lookup_insert_eq by lia. reflexivity.
      * rewrite list_lookup_insert_ne by lia. reflexivity.
    + intros l Hl. cbn. fold lvl. destruct (Z.eqb_spec l lvl) as [-> | _]; [| reflexivity].
      rewrite Bits by exact Hlvl. rewrite bool_decide_false by (rewrite El; destruct l0; discriminate).
      reflexivity.
Qed.

(** *** Dequeue *)

Lemma spec_dequeue_ctz mask qs :
  (forall l, 0 <= l < 16 -> Z.testbit mask l = negb (bool_decide (qs l = []))) ->
  forall n i, 0 <= i -> i + Z.of_nat n = 16 ->
  let lvl := ctz_from n mask i in
  (spec_dequeue n i qs = None /\ forall j, i <= j < 16 -> qs j = []) \/
  (i <= lvl < 16 /\ exists ref l, qs lvl = ref :: l /\
     spec_dequeue n i qs = Some (ref, upd qs lvl l)).
Proof.
  intros B. induction n as [| n IH]; intros i Hi Hn; cbn [ctz_from spec_dequeue].
  - left. split; [reflexivity | lia].
  - rewrite B by lia. destruct (qs i) as [| ref l] eqn:E.
    + rewrite bool_decide_true by reflexivity. cbn [negb].
      destruct (IH (i + 1)) as [[H1 H2] | (H1 & H2)]; [lia | lia | |].
      * left. split; [exact H1 |]. intros j Hj. destruct (Z.eq_dec j i) as [-> | Ne]; [exact E |].
        apply H2. lia.
      * right. split; [lia | exact H2].
    + rewrite bool_decide_false by discriminate. cbn [negb]. right. split; [lia |].
      exists ref, l. auto.
Qed.

Lemma mask_zero c qs : qrep c qs -> non_empty_mask (queue c) = 0 <-> forall l, 0 <= l < 16 -> qs l = [].
Proof.
  intros Q. destruct (qr_mask _ _ Q) as [F B]. split.
  - intros E l Hl. specialize (B l Hl). rewrite E, Z.bits_0 in B.
    destruct (decide (qs l = [])) as [H | H]; [exact H |].
    rewrite bool_decide_false in B by exact H. discriminate.
  - intros E. apply Z.bits_inj'. intros i Hi. rewrite Z.bits_0.
    destruct (Z.ltb_spec i 16); [| apply (fits_high 16); auto].
    rewrite B by lia. rewrite bool_decide_true by (apply E; lia). reflexivity.
Qed.

(** Taking the head of a level out of the representation. *)
Lemma dequeue_rep c c' qs lvl ref l p p' :
  qrep c qs -> 0 <= lvl < 16 -> qs lvl = ref :: l -> pool c !! ref = Some p ->
  pool c' = <[ref := p']> (pool c) ->
  priority p' = priority p -> has_flag p' PROP_FLAG_IN_QUEUE = false ->
  length (heads (queue c')) = 16%nat -> length (tails (queue c')) = 16%nat ->
  (forall i, 0 <= i < 16 -> head_at c' i = if i =? lvl then queue_next p else head_at c i) ->
  (forall i, 0 <= i < 16 -> tail_at c' i =
     if i =? lvl then List.last l EXPR_NULL else tail_at c i) ->
  fits 16 (non_empty_mask (queue c')) ->
  (forall i, 0 <= i < 16 -> Z.testbit (non_empty_mask (queue c')) i =
     if i =? lvl then negb (bool_decide (l = [])) else Z.testbit (non_empty_mask (queue c)) i) ->
  qrep c' (upd qs lvl l).
Proof.
  intros Q Hl El Hp Hpool Pr Fl L1 L2 Hd Tl F16 Bits.
  pose proof (qr_linked _ _ Q lvl Hl) as Lk. rewrite El in Lk.
  destruct Lk as (_ & p2 & Hp2 & Lk). rewrite Hp in Hp2. injection Hp2 as <-.
  pose proof (qr_nodup _ _ Q lvl Hl) as N. rewrite El in N. apply list.NoDup_cons in N as [Nr N].
  destruct (in_queue_flag c qs lvl ref p Q Hl) as [_ Plvl]; [rewrite El; left | exact Hp |].
  assert (Nin : forall i, 0 <= i < 16 -> i <> lvl -> ref ∉ qs i).
  { intros i Hi Ne Hin. destruct (in_queue_flag c qs i ref p Q Hi Hin Hp). congruence. }
  assert (Nin' : forall i, 0 <= i < 16 -> ref ∉ upd qs lvl l i).
  { intros i Hi. unfold upd. destruct (Z.eqb_spec i lvl) as [-> | Ne]; auto. }
  constructor; auto.
  - rewrite Hpool. apply (pool_ok_put _ _ p); [apply (qr_pool _ _ Q) | exact Hp | exact Pr].
  - intros i Hi. rewrite Hd, Hpool by exact Hi. apply linked_put_notin; [| apply Nin', Hi].
    unfold upd. destruct (Z.eqb_spec i lvl) as [-> | Ne]; [exact Lk |].
    apply (qr_linked _ _ Q i Hi).
  - intros i Hi. rewrite Tl by exact Hi. unfold upd. destruct (i =? lvl); [reflexivity |].
    apply (qr_tail _ _ Q i Hi).
  - split; [exact F16 |]. intros i Hi. rewrite Bits by exact Hi. unfold upd.
    destruct (i =? lvl); [reflexivity |]. apply (proj2 (qr_mask _ _ Q) i Hi).
  - intros i Hi. unfold upd. destruct (Z.eqb_spec i lvl) as [-> | Ne]; [exact N |].
    apply (qr_nodup _ _ Q i Hi).
  - intros i r Hi Hr. assert (Nr' : r <> ref) by (intros ->; apply (Nin' i Hi Hr)).
    rewrite Hpool, lookup_insert_ne by auto. apply (qr_in _ _ Q i r Hi). unfold upd in Hr.
    destruct (Z.eqb_spec i lvl) as [-> | Ne]; [rewrite El; right; exact Hr | exact Hr].
  - intros r q Hq F. rewrite Hpool in Hq. destruct (decide (ref = r)) as [<- | Ne].
    + rewrite lookup_insert_eq in Hq. injection Hq as <-. congruence.
    + rewrite lookup_insert_ne in Hq by exact Ne. pose proof (qr_flag _ _ Q r q Hq F) as In.
      unfold upd. destruct (Z.eqb_spec (priority q) lvl) as [E | _]; [| exact In].
      rewrite E, El in In. apply elem_of_cons in In as [-> | In]; [contradiction | exact In].
Qed.

Lemma last_tail (r : Z) l d : l <> [] -> List.last (r :: l) d = List.last l d.
Proof. destruct l; [contradiction | reflexivity]. Qed.

Lemma mask_clear_bit mask l i :
  fits 16 mask -> 0 <= l < 16 -> 0 <= i ->
  Z.testbit (Z.land mask (u16 (Z.lnot (Z.shiftl 1 l)))) i = negb (i =? l) && Z.testbit mask i.
Proof.
  intros F Hl Hi. unfold u16. rewrite Z.land_spec, Z.testbit_mod_pow2, Z.lnot_spec by lia.
  rewrite Z.shiftl_1_l, pow2_spec by lia. destruct (Z.ltb_spec i 16); cbn [andb].
  - apply andb_comm.
  - rewrite (fits_high 16) by (auto; lia). symmetry. apply andb_false_r.
Qed.

(** [dequeue] takes the oldest propagator of the first non-empty level. *)
Lemma dequeue_refines c qs :
  qrep c qs ->
  match spec_dequeue 16 0 qs with
  | None => dequeue c = None
  | Some (ref, qs') => exists c', dequeue c = Some (ref, c') /\ qrep c' qs' /\
      core <$> pool c' = core <$> pool c /\ framed c c'
  end.
Proof.
  intros Q. destruct (qr_mask _ _ Q) as [F16 B]. unfold dequeue.
  destruct (spec_dequeue_ctz _ qs B 16 0 ltac:(lia) eq_refl) as [[E H] | (Hl & ref & l & El & E)];
    rewrite E.
  - rewrite (proj2 (mask_zero c qs Q)) by (intros; apply H; lia). reflexivity.
  - set (lvl := ctz_from 16 (non_empty_mask (queue c)) 0) in *. clearbody lvl.
    destruct (Z.eqb_spec (non_empty_mask (queue c)) 0) as [Z0 | _].
    { rewrite (proj1 (mask_zero c qs Q) Z0 lvl Hl) in El. discriminate. }
    pose proof (qr_linked _ _ Q lvl Hl) as Lk. rewrite El in Lk.
    destruct Lk as (Hh & p & Hp & Lk). rewrite Hh, Hp.
    pose proof (linked_head _ _ _ Lk (qr_pool _ _ Q)) as Hn.
    destruct (qr_len _ _ Q) as [Lh Lt].
    set (p' := flag_off (set_next p EXPR_NULL) PROP_FLAG_IN_QUEUE).
    assert (P1 : has_flag p' PROP_FLAG_IN_QUEUE = false).
    { subst p'. change PROP_FLAG_IN_QUEUE with (2 ^ 1). rewrite has_flag_off by lia. reflexivity. }
    assert (P2 : core p' = core p).
    { unfold core. subst p'. cbn [template prop_id priority watches set_next flag_off set_pflags].
      f_equal. change PROP_FLAG_IN_QUEUE with (2 ^ 1). change PROP_FLAG_ENTAILED with (2 ^ 0).
      rewrite has_flag_off by lia. reflexivity. }
    eexists. split; [reflexivity |]. unfold update_prop.
    destruct (Z.eqb_spec (queue_next p) EXPR_NULL) as [En | En];
      cbn [pool put_mask put_tail put_head set_queue]; rewrite Hp;
      (split; [| split; [apply (core_put _ _ p); assumption | reflexivity]]);
      apply (dequeue_rep c _ qs lvl ref l p p'); auto; cbn [queue put_prop set_pool set_queue];
      try (cbn; rewrite ?length_insert; assumption).
    + intros i Hi. apply (head_put_head c lvl (queue_next p) i Lh Hl). lia.
    + intros i Hi. unfold tail_at. cbn. apply Hn in En. subst l.
      destruct (Z.eqb_spec i lvl) as [-> | Ne].
      * rewrite list_lookup_insert_eq by lia. reflexivity.
      * rewrite list_lookup_insert_ne by lia. reflexivity.
    + cbn. apply fits_intro; [lia |]. intros i Hi. rewrite mask_clear_bit by (auto; lia).
      rewrite (fits_high 16) by (auto; lia). apply andb_false_r.
    + intros i Hi. cbn. rewrite mask_clear_bit by (auto; lia). apply Hn in En. subst l.
      destruct (i =? lvl); reflexivity.
    + intros i Hi. apply (head_put_head c lvl (queue_next p) i Lh Hl). lia.
    + intros i Hi. unfold tail_at. cbn. destruct (Z.eqb_spec i lvl) as [-> | Ne]; [| reflexivity].
      change (tail_at c lvl = List.last l EXPR_NULL). rewrite (qr_tail _ _ Q lvl Hl), El.
      apply last_tail. intros ->. apply En, Hn. reflexivity.
    + intros i Hi. cbn. destruct (Z.eqb_spec i lvl) as [-> | Ne]; [| reflexivity].
      rewrite B by exact Hl. rewrite El, bool_decide_false by discriminate.
      rewrite bool_decide_false; [reflexivity |]. intros ->. apply En, Hn. reflexivity.
Qed.

(** *** Clearing *)

(** What the backtrack's walk does to a queued propagator. *)
Definition wipe (p : propagator T) : propagator T :=
  set_next (flag_off (flag_off p PROP_FLAG_IN_QUEUE) PROP_FLAG_ENTAILED) EXPR_NULL.

Lemma wipe_flags p :
  has_flag (wipe p) PROP_FLAG_IN_QUEUE = false /\ has_flag (wipe p) PROP_FLAG_ENTAILED = false.
Proof.
  unfold wipe. rewrite !has_flag_next. change PROP_FLAG_IN_QUEUE with (2 ^ 1).
  change PROP_FLAG_ENTAILED with (2 ^ 0). rewrite !has_flag_off by lia. auto.
Qed.

Lemma clear_level_spec c f l fuel :
  linked (pool c) f l -> NoDup l -> pool_ok (pool c) -> (length l < fuel)%nat ->
  exists m', clear_level fuel c f = set_pool c m' /\
    forall i, m' !! i = if bool_decide (i ∈ l) then wipe <$> pool c !! i else pool c !! i.
Proof.
  revert c f fuel. induction l as [| r l IH]; intros c f fuel L N K Hf;
    (destruct fuel as [| fuel]; [cbn in Hf; lia |]); cbn [clear_level].
  - cbn in L. subst f. rewrite Z.eqb_refl. exists (pool c). split; [destruct c; reflexivity |].
    intros i. rewrite bool_decide_false; [reflexivity |]. intros H. inversion H.
  - destruct L as (-> & p & Hp & L). destruct (K r p Hp) as [Ne _].
    destruct (Z.eqb_spec r EXPR_NULL); [contradiction |]. rewrite Hp. fold (wipe p).
    apply list.NoDup_cons in N as [Nr N]. cbn in Hf.
    destruct (IH (put_prop c r (wipe p)) (queue_next p) fuel) as (m' & E & Hm).
    + cbn. apply linked_put_notin; assumption.
    + exact N.
    + apply (pool_ok_put _ _ p); auto.
    + lia.
    + exists m'. rewrite E. split; [reflexivity |]. intros i. rewrite Hm. cbn [pool put_prop set_pool].
      destruct (decide (i = r)) as [-> | Nir].
      * rewrite (bool_decide_false (r ∈ l)) by exact Nr.
        rewrite bool_decide_true by left. rewrite lookup_insert_eq, Hp. reflexivity.
      * rewrite lookup_insert_ne by auto.
        rewrite (bool_decide_ext (i ∈ r :: l) (i ∈ l)); [reflexivity |].
        rewrite elem_of_cons. tauto.
Qed.

Lemma keys_bound (m : gmap Z (propagator T)) (l : list Z) :
  NoDup l -> (forall r, r ∈ l -> is_Some (m !! r)) -> (length l <= size m)%nat.
Proof.
  intros N H. rewrite <- (size_dom m), <- (size_list_to_set (C := gset Z) l) by exact N.
  apply subseteq_size. intros r Hr. apply elem_of_list_to_set in Hr. apply elem_of_dom. auto.
Qed.

(** The pool once the levels below [n] are cleared. *)
Definition wiped (c0 : ctx T M S) (n : Z) (r : Z) : option (propagator T) :=
  (fun p => if has_flag p PROP_FLAG_IN_QUEUE && (priority p <? n) then wipe p else p)
    <$> pool c0 !! r.

Record clearing (c0 : ctx T M S) (n : Z) (c : ctx T M S) : Prop := {
  cl_frame : framed c0 c;
  cl_len : length (heads (queue c)) = 16%nat /\ length (tails (queue c)) = 16%nat;
  cl_head : forall i, 0 <= i < 16 -> head_at c i = if i <? n then EXPR_NULL else head_at c0 i;
  cl_tail : forall i, 0 <= i < n -> tail_at c i = EXPR_NULL;
  cl_pool : forall r, pool c !! r = wiped c0 n r }.

Lemma clear_one c0 qs n c :
  qrep c0 qs -> 0 <= n < 16 -> clearing c0 n c ->
  let c1 := clear_level (Datatypes.S (size (pool c))) c (head_at c n) in
  clearing c0 (n + 1) (put_tail (put_head c1 n EXPR_NULL) n EXPR_NULL).
Proof.
  intros Q Hn [Fr [L1 L2] Hd Tl Pl] c1.
  assert (Mem : forall r p, pool c0 !! r = Some p ->
    has_flag p PROP_FLAG_IN_QUEUE && (priority p =? n) = bool_decide (r ∈ qs n)).
  { intros r p Hp. destruct (bool_decide_reflect (r ∈ qs n)) as [In | Nin].
    - destruct (in_queue_flag c0 qs n r p Q Hn In Hp) as [-> ->]. rewrite Z.eqb_refl. reflexivity.
    - destruct (has_flag p PROP_FLAG_IN_QUEUE) eqn:F; [| reflexivity].
      destruct (Z.eqb_spec (priority p) n) as [<- |]; [| reflexivity].
      destruct Nin. apply (qr_flag _ _ Q r p Hp F). }
  assert (Keep : forall r, r ∈ qs n -> pool c !! r = pool c0 !! r).
  { intros r In. rewrite Pl. unfold wiped. destruct (qr_in _ _ Q n r Hn In) as (p & -> & <- & _).
    cbn. rewrite Z.ltb_irrefl, andb_false_r. reflexivity. }
  pose proof (qr_linked _ _ Q n Hn) as Lk.
  assert (Lk' : linked (pool c) (head_at c n) (qs n)).
  { rewrite Hd by exact Hn. rewrite Z.ltb_irrefl. apply (linked_frame _ _ _ _ Lk).
    intros r p Hr Hp. exists p. rewrite Keep by exact Hr. auto. }
  assert (Kc : pool_ok (pool c)).
  { intros r p Hp. rewrite Pl in Hp. unfold wiped in Hp.
    destruct (pool c0 !! r) as [p0 |] eqn:E; [| discriminate]. injection Hp as <-.
    pose proof (qr_pool _ _ Q r p0 E). destruct (_ && _); assumption. }
  destruct (clear_level_spec c (head_at c n) (qs n) (Datatypes.S (size (pool c))) Lk'
    (qr_nodup _ _ Q n Hn) Kc) as (m' & E & Hm).
  { apply Nat.lt_succ_r, keys_bound; [apply (qr_nodup _ _ Q n Hn) |].
    intros r Hr. rewrite Keep by exact Hr. destruct (qr_in _ _ Q n r Hn Hr) as (p & -> & _). eauto. }
  subst c1. rewrite E. constructor.
  - unfold framed in *. rewrite Fr. reflexivity.
  - cbn. rewrite !length_insert. auto.
  - intros i Hi. change (head_at (put_tail ?x _ _) i) with (head_at x i).
    rewrite head_put_head by (auto; lia). change (head_at (set_pool c m') i) with (head_at c i).
    rewrite Hd by exact Hi. destruct (Z.eqb_spec i n) as [-> | Ne].
    + destruct (Z.ltb_spec n (n + 1)); [reflexivity | lia].
    + destruct (Z.ltb_spec i n), (Z.ltb_spec i (n + 1)); try reflexivity; lia.
  - intros i Hi. rewrite tail_put_tail by (auto; lia). destruct (Z.eqb_spec i n); [reflexivity |].
    apply Tl. lia.
  - intros r. cbn. rewrite Hm, Pl. unfold wiped. destruct (pool c0 !! r) as [p |] eqn:Ep.
    + cbn. rewrite <- (Mem r p Ep). destruct (has_flag p PROP_FLAG_IN_QUEUE); cbn [andb]; [| reflexivity].
      destruct (Z.eqb_spec (priority p) n), (Z.ltb_spec (priority p) n),
        (Z.ltb_spec (priority p) (n + 1)); try reflexivity; lia.
    + cbn. destruct (bool_decide _); reflexivity.
Qed.

Lemma clear_levels_clearing c qs k n d :
  qrep c qs -> 0 <= n -> n + Z.of_nat k = 16 -> clearing c n d ->
  clearing c 16 (clear_levels k d n).
Proof.
  intros Q. revert n d. induction k as [| k IH]; intros n d Hn Hk C; cbn [clear_levels].
  - replace 16 with n by lia. exact C.
  - apply IH; [lia | lia |]. apply (clear_one c qs n d Q); [lia | exact C].
Qed.

Lemma clearing_start c qs : qrep c qs -> clearing c 0 c.
Proof.
  intros Q.
  constructor; [destruct c as [? ? ? ? ? ? ? ? [] ? ? ? ? ? ? ? ? ? ? ? ? ?]; reflexivity
    | apply (qr_len _ _ Q) | | lia |].
  - intros i Hi. destruct (Z.ltb_spec i 0); [lia | reflexivity].
  - intros r. unfold wiped. destruct (pool c !! r) as [p |] eqn:E; [| reflexivity]. cbn.
    destruct (Z.ltb_spec (priority p) 0); [| rewrite andb_false_r; reflexivity].
    destruct (qr_pool _ _ Q r p E). lia.
Qed.

Lemma clearing_done c qs d :
  qrep c qs -> clearing c 16 d ->
  qrep (put_mask d 0) (fun _ => []) /\
  pool (put_mask d 0) =
    (fun p => if has_flag p PROP_FLAG_IN_QUEUE then wipe p else p) <$> pool c /\
  framed c (put_mask d 0).
Proof.
  intros Q [Fr [L1 L2] Hd Tl Pl].
  assert (P : pool (put_mask d 0) =
    (fun p => if has_flag p PROP_FLAG_IN_QUEUE then wipe p else p) <$> pool c).
  { apply map_eq. intros r. cbn. rewrite Pl, lookup_fmap. unfold wiped.
    destruct (pool c !! r) as [p |] eqn:E; [| reflexivity]. cbn.
    destruct (qr_pool _ _ Q r p E) as [_ Hp]. destruct (Z.ltb_spec (priority p) 16); [| lia].
    rewrite andb_true_r. reflexivity. }
  split; [| split; [exact P | unfold framed in *; rewrite Fr; reflexivity]].
  constructor; cbn [queue put_mask set_queue non_empty_mask heads tails].
  + rewrite P. intros r p Hp. rewrite lookup_fmap in Hp.
    destruct (pool c !! r) as [p0 |] eqn:E; [| discriminate]. injection Hp as <-.
    pose proof (qr_pool _ _ Q r p0 E). destruct (has_flag _ _); assumption.
  + auto.
  + intros l Hl. cbn. change (head_at (put_mask d 0) l) with (head_at d l).
    rewrite Hd by exact Hl. destruct (Z.ltb_spec l 16); [reflexivity | lia].
  + intros l Hl. cbn. apply (Tl l Hl).
  + split; [unfold fits; lia |]. intros l Hl. rewrite Z.bits_0. reflexivity.
  + intros. constructor.
  + intros l r _ Hr. inversion Hr.
  + rewrite P. intros r p Hp F. rewrite lookup_fmap in Hp.
    destruct (pool c !! r) as [p0 |] eqn:E; [| discriminate]. injection Hp as <-.
    destruct (has_flag p0 PROP_FLAG_IN_QUEUE) eqn:F0; [| congruence].
    rewrite (proj1 (wipe_flags p0)) in F. discriminate.
Qed.

(** Clearing empties every level, and wipes exactly the queued propagators. *)
Lemma clear_queue_refines c qs :
  qrep c qs ->
  qrep (clear_queue c) (fun _ => []) /\
  pool (clear_queue c) = (fun p => if has_flag p PROP_FLAG_IN_QUEUE then wipe p else p) <$> pool c /\
  framed c (clear_queue c).
Proof.
  intros Q. apply (clearing_done c qs _ Q).
  apply (clear_levels_clearing c qs 16 0 c Q); [lia | reflexivity |].
  apply (clearing_start c qs Q).
Qed.

(** The queue depends on links, priorities and queue marks only. *)
Definition link (p : propagator T) : Z * Z * bool :=
  (queue_next p, priority p, has_flag p PROP_FLAG_IN_QUEUE).

Lemma qrep_links c c' qs :
  qrep c qs -> queue c' = queue c -> link <$> pool c' = link <$> pool c -> qrep c' qs.
Proof.
  intros Q Eq El.
  assert (Fw : forall r p, pool c !! r = Some p -> exists p', pool c' !! r = Some p' /\ link p' = link p).
  { intros r p Hp. apply (f_equal (lookup r)) in El. rewrite !lookup_fmap, Hp in El.
    destruct (pool c' !! r) as [p' |]; [| discriminate]. injection El as E1 E2 E3.
    exists p'. split; [reflexivity | unfold link; congruence]. }
  assert (Bw : forall r p', pool c' !! r = Some p' -> exists p, pool c !! r = Some p /\ link p' = link p).
  { intros r p' Hp. apply (f_equal (lookup r)) in El. rewrite !lookup_fmap, Hp in El.
    destruct (pool c !! r) as [p |]; [| discriminate]. injection El as E1 E2 E3.
    exists p. split; [reflexivity | unfold link; congruence]. }
  constructor; unfold head_at, tail_at in *; rewrite ?Eq.
  - intros r p' Hp. destruct (Bw r p' Hp) as (p & E & L). injection L as _ -> _.
    apply (qr_pool _ _ Q r p E).
  - apply (qr_len _ _ Q).
  - intros l Hl. apply (linked_frame (pool c)); [apply (qr_linked _ _ Q l Hl) |].
    intros r p _ Hp. destruct (Fw r p Hp) as (p' & E & L). injection L as L1 _ _. eauto.
  - intros l Hl. apply (qr_tail _ _ Q l Hl).
  - apply (qr_mask _ _ Q).
  - apply (qr_nodup _ _ Q).
  - intros l r Hl Hr. destruct (qr_in _ _ Q l r Hl Hr) as (p & Hp & Pr & F).
    destruct (Fw r p Hp) as (p' & E & L). injection L as _ L2 L3. exists p'.
    split; [exact E | split; congruence].
  - intros r p' Hp F. destruct (Bw r p' Hp) as (p & E & L). injection L as _ L2 L3.
    rewrite L2. apply (qr_flag _ _ Q r p E). congruence.
Qed.

(** What is left after a dequeue was queued before it. *)
Lemma spec_dequeue_sub n i qs ref qs' l r :
  spec_dequeue n i qs = Some (ref, qs') -> r ∈ qs' l -> r ∈ qs l.
Proof.
  revert i. induction n as [| n IH]; intros i; cbn [spec_dequeue]; [discriminate |].
  destruct (qs i) as [| x xs] eqn:E; [apply IH |]. intros [= <- <-]. unfold upd.
  destruct (Z.eqb_spec l i) as [-> | _]; [| auto]. rewrite E. intros H. right. exact H.
Qed.

Lemma spec_dequeue_split n : forall i qs ref qs',
  spec_dequeue n i qs = Some (ref, qs') ->
  exists lvl, i <= lvl < i + Z.of_nat n /\ qs lvl = ref :: qs' lvl /\
    forall l, l <> lvl -> qs' l = qs l.
Proof.
  induction n as [| n IH]; intros i qs ref qs'; cbn [spec_dequeue]; [discriminate |].
  destruct (qs i) as [| x xs] eqn:E.
  - intros H. destruct (IH _ _ _ _ H) as (lvl & B & R). exists lvl. split; [lia | exact R].
  - intros [= <- <-]. exists i. split; [lia |]. unfold upd. rewrite Z.eqb_refl. split; [exact E |].
    intros l Ne. destruct (Z.eqb_spec l i); [contradiction | reflexivity].
Qed.

Lemma empty_not_queued c r p :
  qrep c (fun _ => []) -> pool c !! r = Some p -> has_flag p PROP_FLAG_IN_QUEUE = false.
Proof.
  intros Q Hp. destruct (has_flag p PROP_FLAG_IN_QUEUE) eqn:F; [| reflexivity].
  pose proof (qr_flag _ _ Q r p Hp F) as In. inversion In.
Qed.

(** Being queued is being on the list of one's level. *)
Lemma queued_iff c qs r p : qrep c qs -> pool c !! r = Some p ->
  has_flag p PROP_FLAG_IN_QUEUE = true <-> r ∈ qs (priority p).
Proof.
  intros Q Hp. split; [apply (qr_flag _ _ Q r p Hp) |]. intros Hr.
  destruct (qr_pool _ _ Q r p Hp) as [_ Pl].
  apply (in_queue_flag c qs (priority p) r p Q Pl Hr Hp).
Qed.

Lemma fresh_qrep vs ps wh (s : S) :
  pool_ok ps -> (forall r p, ps !! r = Some p -> has_flag p PROP_FLAG_IN_QUEUE = false) ->
  qrep (fresh_ctx (M := M) vs ps wh s) (fun _ => []).
Proof.
  intros K F. constructor; cbn [fresh_ctx pool queue heads tails non_empty_mask].
  - exact K.
  - rewrite !length_replicate. auto.
  - intros l Hl. cbn. unfold head_at. cbn [fresh_ctx queue heads].
    rewrite lookup_replicate_2 by lia. reflexivity.
  - intros l Hl. unfold tail_at. cbn [fresh_ctx queue tails].
    rewrite lookup_replicate_2 by lia. reflexivity.
  - split; [unfold fits; lia |]. intros l _. rewrite Z.bits_0. reflexivity.
  - intros. constructor.
  - intros l r _ Hr. inversion Hr.
  - intros r p Hp E. rewrite (F r p Hp) in E. discriminate.
Qed.

(** C39: The intrusive queue refines sixteen FIFO lists.  Enqueueing appends the
    propagator to the list of its priority unless it is already queued or
    entailed, and then changes nothing; dequeueing yields the oldest member of
    the first non-empty level and removes it, and yields nothing exactly when
    all levels are empty; clearing empties every level and takes the queued and
    entailed marks off exactly the queued propagators.  The rest of the context
    is untouched, and enqueue and dequeue touch only links and queue marks. *)
Theorem queue_refines c qs :
  qrep c qs ->
  (forall ref p, pool c !! ref = Some p ->
     if has_flag p PROP_FLAG_IN_QUEUE || has_flag p PROP_FLAG_ENTAILED
     then prop_enqueue c ref = c
     else qrep (prop_enqueue c ref) (spec_enqueue qs (priority p) ref) /\
       core <$> pool (prop_enqueue c ref) = core <$> pool c /\ framed c (prop_enqueue c ref)) /\
  (match spec_dequeue 16 0 qs with
   | None => dequeue c = None
   | Some (ref, qs') => exists c', dequeue c = Some (ref, c') /\ qrep c' qs' /\
       core <$> pool c' = core <$> pool c /\ framed c c'
   end) /\
  qrep (clear_queue c) (fun _ => []) /\
  pool (clear_queue c) =
    (fun p => if has_flag p PROP_FLAG_IN_QUEUE then wipe p else p) <$> pool c /\
  framed c (clear_queue c).
Proof.
  intros Q. split; [intros ref p; apply (enqueue_refines c qs ref p Q) |].
  split; [apply (dequeue_refines c qs Q) | apply (clear_queue_refines c qs Q)].
Qed.

End Refinement.

(** Two propagators of priority 3 and one of priority 1, queued in the order
    10, 20, 30, leave in the order 30, 10, 20. *)
Definition sample_pool : gmap Z (propagator unit) :=
  <[10 := mk_prop tt EXPR_NULL 0 3 0 []]> (<[20 := mk_prop tt EXPR_NULL 1 3 0 []]>
    (<[30 := mk_prop tt EXPR_NULL 2 1 0 []]> ∅)).
Definition sample_ctx : ctx unit unit unit := fresh_ctx [] sample_pool None tt.

Example queue_order :
  let c := prop_enqueue (prop_enqueue (prop_enqueue sample_ctx 10) 20) 30 in
  let deq c := match dequeue c with Some (r, c) => (r, c) | None => (0, c) end in
  let '(a, c) := deq c in let '(b, c) := deq c in let '(d, c) := deq (prop_enqueue c 10) in
  (a, b, d, fst (deq c)) = (30, 10, 20, 10).
Proof. vm_compute. reflexivity. Qed.

Lemma sample_flags :
  map_Forall (fun r p => r <> EXPR_NULL /\ (0 <= priority p < 16) /\
    has_flag p PROP_FLAG_IN_QUEUE = false /\ has_flag p PROP_FLAG_ENTAILED = false) sample_pool.
Proof.
  unfold sample_pool. repeat apply map_Forall_insert_2; try apply map_Forall_empty;
    cbn; (split; [discriminate | split; [lia | split; reflexivity]]).
Qed.

Lemma sample_qrep : qrep sample_ctx (fun _ => []).
Proof.
  apply fresh_qrep.
  - intros r p Hp. destruct (sample_flags r p Hp) as (? & ? & _). auto.
  - intros r p Hp. apply (sample_flags r p Hp).
Qed.

Lemma queue_refines_witness :
  exists c1, c1 = prop_enqueue sample_ctx 10 /\
    qrep c1 (spec_enqueue (fun _ => []) 3 10) /\ dequeue sample_ctx = None.
Proof.
  destruct (queue_refines sample_ctx (fun _ => []) sample_qrep) as (E & D & _).
  eexists. split; [reflexivity |]. split; [| exact D].
  exact (proj1 (E 10 (mk_prop tt EXPR_NULL 0 3 0 []) eq_refl)).
Defined.

End Queue.
