(* ===== verification/DynStack.v ===== *)
(** * DynStack: what the search asks of its dynamic stack
    (the contract of src/src/c/dvs_stack.h as its clients use it)

    The trail allocates its records in a dynamic stack and relies on two facts:
    a cell handed out is none of the cells in scope, and popping the mark of a
    push brings the cells in scope at the push back.  The file states them as a
    class of operations and a class of laws, and discharges both for the bump
    stack over the block allocator. *)

From Stdlib Require Import ZArith Lia Bool.
From stdpp Require Import base list numbers.
From S2P Require Import Prelude Alloc.
Open Scope Z_scope.

Module DynStack.

Class DynStack (M S : Type) := {
  ds_alloc : S -> Z -> Z -> option Z * S;
  ds_push : S -> M;
  ds_pop : S -> M -> S }.

(** A request for a non-empty cell that cannot wrap [size_t]. *)
Definition ds_request (bytes align : Z) : Prop := 0 < bytes < 2 ^ 62 /\ 0 <= align < 2 ^ 62.

(** The cells handed out since [s] and still in scope, newest first. *)
Inductive ds_run {M S} `{DynStack M S} (s : S) : list Z -> S -> Prop :=
| ds_start : ds_run s [] s
| ds_alloc_ok cs s1 bytes align p s2 :
    ds_run s cs s1 -> ds_request bytes align -> ds_alloc s1 bytes align = (Some p, s2) ->
    ds_run s (p :: cs) s2
| ds_alloc_no cs s1 bytes align s2 :
    ds_run s cs s1 -> ds_request bytes align -> ds_alloc s1 bytes align = (None, s2) ->
    ds_run s cs s2
| ds_frame cs s1 ds s2 :
    ds_run s cs s1 -> ds_run s1 ds s2 -> ds_run s cs (ds_pop s2 (ds_push s1)).

Class DynStackLaws (M S : Type) `{DynStack M S} := {
  ds_live : S -> list Z -> Prop;
  ds_live_alloc s cs bytes align :
    ds_live s cs -> ds_request bytes align ->
    match ds_alloc s bytes align with
    | (Some p, s') => p <> 0 /\ (p ∉ cs) /\ ds_live s' (p :: cs)
    | (None, s') => ds_live s' cs
    end;
  ds_live_pop s cs ds s' :
    ds_live s cs -> ds_run s ds s' -> ds_live (ds_pop s' (ds_push s)) cs }.

Lemma ds_run_trans {M S} `{DynStack M S} (s s1 s2 : S) cs ds :
  ds_run s cs s1 -> ds_run s1 ds s2 -> ds_run s (ds ++ cs) s2.
Proof.
  intros R1. induction 1 as [| ds s3 bytes align p s4 R IH Q E | ds s3 bytes align s4 R IH Q E
    | ds s3 es s4 R IH R' IH']; cbn [app].
  - exact R1.
  - eapply ds_alloc_ok; eauto.
  - eapply ds_alloc_no; eauto.
  - eapply ds_frame; eauto.
Qed.

Lemma ds_run_live {M S} `{DynStackLaws M S} (s s' : S) cs ds :
  ds_live s cs -> ds_run s ds s' -> ds_live s' (ds ++ cs).
Proof.
  intros L R. revert cs L. induction R as [s | s ds s1 bytes align p s2 R IH Q E
    | s ds s1 bytes align s2 R IH Q E | s ds s1 es s2 R IH R' IH']; intros cs L; cbn [app].
  - exact L.
  - pose proof (ds_live_alloc s1 _ bytes align (IH cs L) Q) as A. rewrite E in A. apply A.
  - pose proof (ds_live_alloc s1 _ bytes align (IH cs L) Q) as A. rewrite E in A. apply A.
  - eapply ds_live_pop; eauto.
Qed.

(** ** The bump stack *)

Section Bump.
Context (malloc : list Mem.region -> Z -> option Z).

#[export] Instance bump_stack : DynStack Mem.mark Mem.stack := {
  ds_alloc := Mem.stack_alloc malloc;
  ds_push := Mem.stack_push;
  ds_pop := Mem.stack_pop }.

Definition pos_cells (cells : list Mem.region) : Prop := Forall (fun c => 0 < snd c) cells.

Definition bump_live (s : Mem.stack) (cs : list Z) : Prop :=
  exists V h0 cells, Mem.sinv s V h0 cells /\ pos_cells cells /\ map fst cells = cs.

Lemma request_bump bytes align : ds_request bytes align -> Mem.request_ok bytes align.
Proof. unfold ds_request, Mem.request_ok. lia. Qed.

(** A run through the interface is a run of the stack. *)
Lemma ds_run_stack s cs s' :
  ds_run s cs s' ->
  exists cells, Mem.stack_run malloc s cells s' /\ map fst cells = cs /\ pos_cells cells.
Proof.
  induction 1 as [s | s cs s1 bytes align p s2 R (cells & H1 & H2 & H3) Q E
    | s cs s1 bytes align s2 R (cells & H1 & H2 & H3) Q E
    | s cs s1 ds s2 R1 (cells & H1 & H2 & H3) R2 (cells' & H1' & _)].
  - exists []. repeat split; constructor.
  - exists ((p, bytes) :: cells). split.
    + eapply Mem.run_alloc; [exact H1 | apply request_bump, Q | exact E].
    + split; [cbn; congruence |]. constructor; [destruct Q; cbn; lia | exact H3].
  - exists cells. split; [| auto]. eapply Mem.run_refused; [exact H1 | apply request_bump, Q | exact E].
  - exists cells. split; [| auto]. eapply Mem.run_frame; eauto.
Qed.

Lemma cell_addr_fresh p n cells :
  0 < n -> ForallOrdPairs Mem.apart ((p, n) :: cells) -> pos_cells cells -> p ∉ map fst cells.
Proof.
  intros Hn F P Hin. inversion F as [| c l A _ Eq]; subst.
  apply list_elem_of_fmap in Hin as (c & E & Hc).
  unfold pos_cells in P. rewrite list.Forall_forall in A, P.
  specialize (A c Hc). specialize (P c Hc). unfold Mem.apart in A. cbn in *. lia.
Qed.

Lemma bump_live_alloc (M : Mem.malloc_ok malloc) s cs bytes align :
  bump_live s cs -> ds_request bytes align ->
  match ds_alloc s bytes align with
  | (Some p, s') => p <> 0 /\ (p ∉ cs) /\ bump_live s' (p :: cs)
  | (None, s') => bump_live s' cs
  end.
Proof.
  intros (V & h0 & cells & I & P & <-) Q. cbn [ds_alloc bump_stack].
  pose proof (Mem.stack_alloc_post malloc s V h0 cells bytes align M I (request_bump _ _ Q)) as A.
  destruct (Mem.stack_alloc malloc s bytes align) as [[p |] s'].
  - destruct A as (I' & _). split; [| split].
    + pose proof (Mem.si_cells _ _ _ _ I') as C. apply Forall_inv in C as (_ & b & Hb & H1 & _).
      pose proof (Mem.lg_aligned _ _ _ (Mem.si_ledger _ _ _ _ I')) as Al.
      rewrite list.Forall_forall in Al. destruct (Al b) as [Pb _].
      { apply elem_of_app. right. apply elem_of_app. left. exact Hb. }
      unfold Mem.BLOCK_HDR_SZ in H1. cbn in H1. lia.
    + apply (cell_addr_fresh p bytes); [destruct Q; lia | apply (Mem.si_apart _ _ _ _ I') | exact P].
    + exists V, h0, ((p, bytes) :: cells). split; [exact I' |].
      split; [constructor; [destruct Q; cbn; lia | exact P] | reflexivity].
  - exists V, h0, cells. split; [apply A | auto].
Qed.

Lemma bump_live_pop (M : Mem.malloc_ok malloc) s cs ds s' :
  bump_live s cs -> ds_run s ds s' -> bump_live (ds_pop s' (ds_push s)) cs.
Proof.
  intros (V & h0 & cells & I & P & <-) R. destruct (ds_run_stack s ds s' R) as (cells' & R' & _).
  destruct (Mem.stack_run_inv malloc s cells' s' V h0 cells M R' I) as (I' & Sz & new & Hc & Hn).
  destruct (Mem.stack_pop_back s s' V h0 cells _ new I I' Hc Hn Sz) as (_ & _ & _ & _ & I2).
  exists V, h0, cells. auto.
Qed.

#[export] Instance bump_laws (M : Mem.malloc_ok malloc) : DynStackLaws Mem.mark Mem.stack := {
  ds_live := bump_live;
  ds_live_alloc := bump_live_alloc M;
  ds_live_pop := bump_live_pop M }.

(** *** Blocks that hold any record

    On blocks of 47 bytes or more the stack refuses a record of at most 32 only
    when the backing allocator does. *)

Definition wide_live (s : Mem.stack) (cs : list Z) : Prop :=
  bump_live s cs /\ 47 <= Mem.block_size (Mem.block_alloc s).

Lemma ba_get_size m : Mem.block_size (snd (Mem.ba_get malloc m)) = Mem.block_size m.
Proof. unfold Mem.ba_get. repeat case_match; reflexivity. Qed.

Lemma acquire_size s : Mem.block_size (Mem.block_alloc (snd (Mem.acquire_block malloc s))) = Mem.block_size (Mem.block_alloc s).
Proof.
  unfold Mem.acquire_block. pose proof (ba_get_size (Mem.block_alloc s)) as E.
  destruct (Mem.ba_get malloc _) as [[b |] m]; exact E.
Qed.

Lemma alloc_size s bytes align :
  Mem.block_size (Mem.block_alloc (snd (Mem.stack_alloc malloc s bytes align))) = Mem.block_size (Mem.block_alloc s).
Proof.
  pose proof (acquire_size s) as A. unfold Mem.stack_alloc.
  destruct (Mem.acquire_block malloc s) as [[b |] s1]; repeat case_match; cbn in *; congruence.
Qed.

Lemma ba_put_size m b : Mem.block_size (Mem.ba_put m b) = Mem.block_size m.
Proof. unfold Mem.ba_put, Mem.drop_block. repeat case_match; reflexivity. Qed.

Lemma pop_size s mk : Mem.block_size (Mem.block_alloc (Mem.stack_pop s mk)) = Mem.block_size (Mem.block_alloc s).
Proof.
  unfold Mem.stack_pop. generalize (Mem.block_alloc s) (Mem.block_count s). induction (Mem.chain s) as [| b l IH]; intros m n; [reflexivity |].
  cbn. case_bool_decide; [reflexivity |]. rewrite IH. apply ba_put_size.
Qed.

Lemma run_size s cs s' : ds_run s cs s' -> Mem.block_size (Mem.block_alloc s') = Mem.block_size (Mem.block_alloc s).
Proof.
  intros R. induction R as [| s cs s1 bytes align p s2 _ IH _ E | s cs s1 bytes align s2 _ IH _ E | s cs s1 ds s2 _ IH1 _ IH2]; [reflexivity | | |].
  1, 2: rewrite <- IH; cbn in E; rewrite <- (alloc_size s1 bytes align), E; reflexivity.
  cbn. rewrite pop_size, IH2. exact IH1.
Qed.

Definition wide_laws (M : Mem.malloc_ok malloc) : DynStackLaws Mem.mark Mem.stack.
Proof.
  refine {| ds_live := wide_live |}.
  - intros s cs bytes align [L W] Q. pose proof (bump_live_alloc M s cs bytes align L Q) as A.
    cbn in *. pose proof (alloc_size s bytes align) as E. destruct (Mem.stack_alloc malloc s bytes align) as [[p |] s']; cbn in E.
    + destruct A as (? & ? & ?). unfold wide_live. rewrite E. auto.
    + unfold wide_live. rewrite E. auto.
  - intros s cs ds s' [L W] R. split; [apply (bump_live_pop M s cs ds s' L R) |]. cbn. rewrite pop_size.
    rewrite (run_size _ _ _ R). exact W.
Defined.

Lemma wide_served (Total : forall h n, malloc h n <> None) s cs bytes : wide_live s cs -> 0 < bytes <= 32 ->
  exists p s', Mem.stack_alloc malloc s bytes 8 = (Some p, s').
Proof.
  intros [_ W] B. unfold Mem.stack_alloc. cbn [Z.ltb Z.compare]. change (8 <? 1) with false. cbv iota zeta.
  assert (G : exists b s1, Mem.acquire_block malloc s = (Some b, s1)).
  { unfold Mem.acquire_block, Mem.ba_get. destruct (Mem.free_list _); [| eauto].
    destruct (malloc _ (Mem.block_size _)) as [blk |] eqn:E1; [| destruct (Total _ _ E1)].
    destruct (malloc _ Mem.sizeof_rec) as [rec |] eqn:E2; [| destruct (Total _ _ E2)]. eauto. }
  destruct G as (b & s1 & ->). unfold u64, Mem.BLOCK_HDR_SZ.
  rewrite (Z.mod_small (bytes + (8 - 1))) by lia. rewrite (Z.mod_small (bytes + (8 - 1) + 8)) by lia.
  destruct (Z.gtb_spec (bytes + (8 - 1) + 8) (Mem.block_size (Mem.block_alloc s))); [lia |].
  destruct (Mem.chain s); [eauto |]. destruct (_ <=? _); eauto.
Qed.
End Bump.

End DynStack.
