(* ===== verification/Trail.v ===== *)
(** * Trail: recording bound changes and backtracking
    (src/src/c/dvs_trail.c)

    Every bound change of a variable leaves a record in the dynamic stack, every
    propagator found entailed leaves one too, and each decision level keeps a
    mark.  A backtrack walks the records newer than the mark, undoes them, takes
    the entailed marks off, gives the memory back, rebuilds the mask of
    unassigned variables and empties the queue.  The stack is used through the
    interface of [DynStack]. *)

From Stdlib Require Import ZArith Lia Bool.
From stdpp Require Import base gmap list numbers.
From S2P Require Import Prelude Alloc Vars Ctx Queue DynStack.
Import Vars Ctx Queue DynStack.
Open Scope Z_scope.

Module Trail.

Definition sizeof_TrailEntry : Z := 32.
Definition sizeof_EntailEntry : Z := 16.
Definition pointer_align : Z := 8.

(** The pointer to a chain's newest node. *)
Definition top {A} (l : list (Z * A)) : Z := match l with [] => NULL | (a, _) :: _ => a end.
(** The chain a pointer into it leads to. *)
Fixpoint chain_from {A} (a : Z) (l : list (Z * A)) : list (Z * A) :=
  match l with
  | [] => []
  | (b, x) :: l' => if b =? a then l else chain_from a l'
  end.

Section Ops.
Context {T M S : Type} `{DynStack M S}.
Implicit Types c : ctx T M S.

Definition push_entry c (a : Z) (e : trail_entry) : ctx T M S :=
  set_trail_count (set_trail c ((a, e) :: trail c)) (u64 (trail_count c + 1)).

Definition trail_push_level c : ctx T M S :=
  let lvl := decision_level c in
  let mark := mk_mark (ds_push (dynamic c)) (top (trail c)) (trail_count c) (top (entail c)) in
  set_decision_level (set_level_marks c (<[lvl := mark]> (level_marks c))) (u32 (lvl + 1)).

(** The part the [trail_record_*] functions share: allocate, fill, push. *)
Definition record_entry c (id k vsize old : Z) : Z * ctx T M S :=
  match ds_alloc (dynamic c) sizeof_TrailEntry pointer_align with
  | (None, s) => (-1, set_dynamic c s)
  | (Some a, s) =>
      let c := set_dynamic c s in
      (0, push_entry c a
            (mk_entry id k vsize (u16 (decision_level c)) old (current_prop_ref c)
               (current_trail_flags c)))
  end.

Definition trail_record_lb c (id new_lb : Z) : Z * ctx T M S :=
  let v := var c id in
  if var_is_tier0 (flags v) then
    record_entry (put_var c id (set_lo v (s32 new_lb))) id TRAIL_LB TRAIL_VALUE_32 (lo v)
  else if var_is_tier1 (flags v) then
    record_entry (put_var c id (set_wb_lo v new_lb)) id TRAIL_LB TRAIL_VALUE_64 (wb_lo v)
  else (-1, c).

Definition trail_record_ub c (id new_ub : Z) : Z * ctx T M S :=
  let v := var c id in
  if var_is_tier0 (flags v) then
    record_entry (put_var c id (set_hi v (s32 new_ub))) id TRAIL_UB TRAIL_VALUE_32 (hi v)
  else if var_is_tier1 (flags v) then
    record_entry (put_var c id (set_wb_hi v new_ub)) id TRAIL_UB TRAIL_VALUE_64 (wb_hi v)
  else (-1, c).

Definition trail_record_hole c (id removed : Z) : Z * ctx T M S :=
  record_entry c id TRAIL_HOLE TRAIL_VALUE_32 removed.

Definition trail_mark_entailed c (ref : Z) : ctx T M S :=
  match ds_alloc (dynamic c) sizeof_EntailEntry pointer_align with
  | (None, s) => set_dynamic c s
  | (Some a, s) =>
      let c := update_prop (set_dynamic c s) ref (fun p => flag_on p PROP_FLAG_ENTAILED) in
      set_entail c ((a, ref) :: entail c)
  end.

(** One step of the undo walk, on the variable table. *)
Definition undo_entry (vs : list variable) (e : trail_entry) : list variable :=
  let i := Z.to_nat (var_id e) in
  match vs !! i with
  | None => vs
  | Some v =>
      if kind e =? TRAIL_LB then
        if var_is_tier0 (flags v) then <[i := set_lo v (s32 (old_value e))]> vs
        else if var_is_tier1 (flags v) then <[i := set_wb_lo v (old_value e)]> vs
        else vs
      else if kind e =? TRAIL_UB then
        if var_is_tier0 (flags v) then <[i := set_hi v (s32 (old_value e))]> vs
        else if var_is_tier1 (flags v) then <[i := set_wb_hi v (old_value e)]> vs
        else vs
      else vs
  end.

Fixpoint undo_walk (vs : list variable) (l : list (Z * trail_entry)) (stop : Z)
    : list variable :=
  match l with
  | [] => vs
  | (a, e) :: l => if a =? stop then vs else undo_walk (undo_entry vs e) l stop
  end.

(** [is_live]: the propagator is the one its id stands for. *)
Definition is_live c (ref : Z) (p : propagator T) : bool :=
  match prop_refs c with
  | Some refs =>
      if prop_id p <? n_prop_refs_capacity c then
        default EXPR_NULL (refs !! Z.to_nat (prop_id p)) =? ref
      else true
  | None => true
  end.

Fixpoint clear_entailed c (l : list (Z * Z)) (stop : Z) : ctx T M S :=
  match l with
  | [] => c
  | (a, ref) :: l =>
      if a =? stop then c else
      let c :=
        match pool c !! ref with
        | Some p => if is_live c ref p then put_prop c ref (flag_off p PROP_FLAG_ENTAILED) else c
        | None => c
        end in
      clear_entailed c l stop
  end.

Fixpoint mask_loop (vs : list variable) (i mask : Z) : Z :=
  match vs with
  | [] => mask
  | v :: vs =>
      let mask :=
        if is_aux v then mask
        else if negb (var_lo64 v =? var_hi64 v) then Z.lor mask (u64 (Z.shiftl 1 i))
        else mask in
      mask_loop vs (i + 1) mask
  end.

Definition rebuild_mask c : ctx T M S :=
  if n_vars c <=? 64 then set_unassigned_mask c (mask_loop (vars c) 0 0) else c.

Definition trail_backtrack c (target : Z) : ctx T M S :=
  match level_marks c !! target with
  | None => c
  | Some mark =>
      let c := set_vars c (undo_walk (vars c) (trail c) (mark_trail_top mark)) in
      let c := clear_entailed c (entail c) (mark_entail_top mark) in
      let c := set_entail c (chain_from (mark_entail_top mark) (entail c)) in
      let c := set_dynamic c (ds_pop (dynamic c) (stack_mark mark)) in
      let c := set_trail c (chain_from (mark_trail_top mark) (trail c)) in
      let c := set_trail_count c (mark_trail_count mark) in
      let c := set_decision_level c target in
      clear_queue (rebuild_mask c)
  end.
End Ops.

(** ** Chains *)

Section Chains.
Context {A : Type}.
Implicit Types l : list (Z * A).

(** The addresses of a chain: distinct and not null. *)
Definition addrs_ok l : Prop := NoDup (map fst l) /\ NULL ∉ map fst l.

Lemma newer_ne nt l0 a x : addrs_ok (nt ++ l0) -> (a, x) ∈ nt -> a <> top l0.
Proof.
  intros [N Z0] Hin. rewrite map_app in N, Z0. apply list.NoDup_app in N as (_ & D & _).
  assert (Ha : a ∈ map fst nt) by (apply (list_elem_of_fmap_2 fst nt (a, x)), Hin).
  destruct l0 as [| [b y] l0]; cbn [top].
  - intros ->. apply Z0, elem_of_app. left. exact Ha.
  - intros ->. apply (D b Ha). left.
Qed.

Lemma chain_from_top nt l0 : addrs_ok (nt ++ l0) -> chain_from (top l0) (nt ++ l0) = l0.
Proof.
  intros K. assert (H : forall a x, (a, x) ∈ nt -> a <> top l0) by (intros; eapply newer_ne; eauto).
  clear K. induction nt as [| [a x] nt IH]; cbn [app chain_from].
  - destruct l0 as [| [b y] l0]; cbn [chain_from top]; [reflexivity |].
    rewrite Z.eqb_refl. reflexivity.
  - destruct (Z.eqb_spec a (top l0)) as [E | _]; [destruct (H a x); [left | exact E] |].
    apply IH. intros b y Hb. apply (H b y). right. exact Hb.
Qed.
End Chains.

Section Undo.
Implicit Types vs : list variable.

Definition undo_all (nt : list (Z * trail_entry)) vs : list variable :=
  fold_left (fun vs ae => undo_entry vs (snd ae)) nt vs.

Lemma undo_walk_top nt l0 vs :
  addrs_ok (nt ++ l0) -> undo_walk vs (nt ++ l0) (top l0) = undo_all nt vs.
Proof.
  intros K. assert (H : forall a x, (a, x) ∈ nt -> a <> top l0) by (intros; eapply newer_ne; eauto).
  clear K. revert vs. induction nt as [| [a e] nt IH]; intros vs; cbn [app undo_walk].
  - destruct l0 as [| [b y] l0]; cbn; [reflexivity |]. rewrite Z.eqb_refl. reflexivity.
  - destruct (Z.eqb_spec a (top l0)) as [E | _]; [destruct (H a e); [left | exact E] |].
    apply IH. intros b y Hb. apply (H b y). right. exact Hb.
Qed.

(** A variable whose fields hold what they were declared to hold. *)
Definition stored (v : variable) : Prop := int32 (lo v) /\ int32 (hi v).

Lemma undo_insert vs i v v' e :
  vs !! Z.to_nat i = Some v -> var_id e = i ->
  (if kind e =? TRAIL_LB then
     if var_is_tier0 (flags v') then set_lo v' (s32 (old_value e))
     else if var_is_tier1 (flags v') then set_wb_lo v' (old_value e) else v'
   else if kind e =? TRAIL_UB then
     if var_is_tier0 (flags v') then set_hi v' (s32 (old_value e))
     else if var_is_tier1 (flags v') then set_wb_hi v' (old_value e) else v'
   else v') = v ->
  undo_entry (<[Z.to_nat i := v']> vs) e = vs.
Proof.
  intros Hv <- E. unfold undo_entry.
  rewrite list_lookup_insert_eq by (apply lookup_lt_is_Some; eauto).
  destruct (kind e =? TRAIL_LB), (kind e =? TRAIL_UB), (var_is_tier0 (flags v')),
    (var_is_tier1 (flags v')); subst v;
    rewrite ?list_insert_insert_eq; apply list_insert_id; exact Hv.
Qed.

Lemma length_undo_all nt vs : length (undo_all nt vs) = length vs.
Proof.
  revert vs. induction nt as [| [a e] nt IH]; intros vs; [reflexivity |]. cbn. rewrite IH.
  unfold undo_entry. destruct (vs !! _); [| reflexivity].
  repeat (destruct (_ : bool); try reflexivity); apply length_insert.
Qed.
End Undo.

(** ** The trail's invariant *)

Section Invariant.
Context {T M S : Type} `{DynStackLaws M S}.
Implicit Types c : ctx T M S.

(** Clearing the entailed marks of a list of records. *)
Definition unmark (b : bool) (p : propagator T) : propagator T :=
  if b then flag_off p PROP_FLAG_ENTAILED else p.

Lemma is_live_put c r p p' q : is_live (put_prop c r p') q p = is_live c q p.
Proof. reflexivity. Qed.

Lemma clear_entailed_spec nt l0 : forall c,
  addrs_ok (nt ++ l0) -> NoDup (map snd nt) ->
  exists m', clear_entailed c (nt ++ l0) (top l0) = set_pool c m' /\
    forall r, m' !! r =
      (fun p => unmark (bool_decide (r ∈ map snd nt) && is_live c r p) p) <$> pool c !! r.
Proof.
  intros c K. assert (H2 : forall a x, (a, x) ∈ nt -> a <> top l0) by (intros; eapply newer_ne; eauto).
  clear K. revert c H2. induction nt as [| [a ref] nt IH]; intros c H2 N; cbn [app clear_entailed map snd].
  - exists (pool c). split.
    + destruct l0 as [| [b y] l0]; cbn [clear_entailed top]; [| rewrite Z.eqb_refl];
        destruct c; reflexivity.
    + intros r. rewrite bool_decide_false by (intros X; inversion X). cbn.
      destruct (pool c !! r); reflexivity.
  - destruct (Z.eqb_spec a (top l0)) as [E | _]; [destruct (H2 a ref); [left | exact E] |].
    apply list.NoDup_cons in N as [Nr N].
    set (c1 := match pool c !! ref with Some _ => _ | None => _ end).
    assert (C1 : exists m1, c1 = set_pool c m1 /\ forall r, m1 !! r =
      (fun p => unmark (bool_decide (r = ref) && is_live c r p) p) <$> pool c !! r).
    { subst c1. destruct (pool c !! ref) as [p |] eqn:E.
      - destruct (is_live c ref p) eqn:Lv.
        + eexists. split; [reflexivity |]. intros r. destruct (decide (r = ref)) as [-> | Ne].
          * rewrite lookup_insert_eq, E. cbn. rewrite bool_decide_true, Lv by reflexivity. reflexivity.
          * rewrite lookup_insert_ne by auto. rewrite bool_decide_false by exact Ne.
            destruct (pool c !! r); reflexivity.
        + exists (pool c). split; [destruct c; reflexivity |]. intros r.
          destruct (decide (r = ref)) as [-> | Ne].
          * rewrite E. cbn. rewrite Lv, andb_false_r. reflexivity.
          * rewrite bool_decide_false by exact Ne. destruct (pool c !! r); reflexivity.
      - exists (pool c). split; [destruct c; reflexivity |]. intros r.
        destruct (decide (r = ref)) as [-> | Ne]; [rewrite E; reflexivity |].
        rewrite bool_decide_false by exact Ne. destruct (pool c !! r); reflexivity. }
    destruct C1 as (m1 & -> & E1).
    destruct (IH (set_pool c m1)) as (m' & E' & Hm); [intros b y Hb; apply (H2 b y); right; exact Hb | exact N |].
    exists m'. split; [exact E' |]. intros r. rewrite Hm. cbn [pool set_pool]. rewrite E1.
    destruct (pool c !! r) as [p |]; [| reflexivity]. cbn. f_equal.
    change (is_live (set_pool c m1) r ?q) with (is_live c r q).
    destruct (decide (r = ref)) as [-> | Ne].
    + rewrite (bool_decide_true (ref = ref)), (bool_decide_true (ref ∈ ref :: _)) by (auto; left).
      rewrite (bool_decide_false (ref ∈ _)) by exact Nr. reflexivity.
    + rewrite (bool_decide_false (r = ref)) by exact Ne. cbn [andb unmark].
      rewrite (bool_decide_ext (r ∈ ref :: map snd nt) (r ∈ map snd nt)); [reflexivity |].
      rewrite elem_of_cons. tauto.
Qed.

(** [b] extends [a]: its chains are longer, undoing the newer records gives
    [a]'s variables, and its stack is a run from [a]'s. *)
Definition ext (a b : ctx T M S) : Prop :=
  exists nt ne ds, trail b = nt ++ trail a /\ undo_all nt (vars b) = vars a /\
    entail b = ne ++ entail a /\ ds_run (dynamic a) ds (dynamic b).

Lemma ext_refl a : ext a a.
Proof. exists [], [], []. repeat split. constructor. Qed.

Lemma ext_trans a b c : ext a b -> ext b c -> ext a c.
Proof.
  intros (nt & ne & ds & H1 & H2 & H3 & H4) (nt' & ne' & ds' & G1 & G2 & G3 & G4).
  exists (nt' ++ nt), (ne' ++ ne), (ds' ++ ds). repeat split.
  - rewrite G1, H1. apply app_assoc.
  - unfold undo_all in *. rewrite fold_left_app, G2. exact H2.
  - rewrite G3, H3. apply app_assoc.
  - eapply ds_run_trans; eauto.
Qed.

(** The cells the records of [c] occupy are the cells in scope. *)
Definition cells_ok c : Prop :=
  exists cells, ds_live (dynamic c) cells /\ NoDup cells /\ (NULL ∉ cells) /\
    cells ≡ₚ map fst (trail c) ++ map fst (entail c).

Definition mark_of (a : ctx T M S) : level_mark M :=
  mk_mark (ds_push (dynamic a)) (top (trail a)) (trail_count a) (top (entail a)).

(** [snap k]: the context as it stood at the push of level [k]. *)
Record tinv c (snap : Z -> ctx T M S) : Prop := {
  ti_level : 0 <= decision_level c < 2 ^ 32;
  ti_cells : cells_ok c;
  ti_count : trail_count c = u64 (Z.of_nat (length (trail c)));
  ti_stored : Forall stored (vars c);
  ti_snap : forall k, 0 <= k < decision_level c ->
    decision_level (snap k) = k /\ level_marks c !! k = Some (mark_of (snap k)) /\
    ext (snap k) c /\ cells_ok (snap k) /\ Forall stored (vars (snap k)) /\
    trail_count (snap k) = u64 (Z.of_nat (length (trail (snap k))));
  ti_nest : forall j k, 0 <= j < k -> k < decision_level c -> ext (snap j) (snap k) }.

Record einv c (snap : Z -> ctx T M S) : Prop := {
  ei_queue : exists qs, qrep c qs;
  ei_flag : forall r p, pool c !! r = Some p -> is_live c r p = true ->
    (has_flag p PROP_FLAG_ENTAILED = true <-> r ∈ map snd (entail c));
  ei_nodup : NoDup (map snd (entail c));
  ei_mem : forall r, r ∈ map snd (entail c) -> exists p, pool c !! r = Some p /\ is_live c r p = true;
  ei_apart : forall k, 0 <= k < decision_level c -> forall r p, r ∈ map snd (entail (snap k)) ->
    pool c !! r = Some p -> has_flag p PROP_FLAG_IN_QUEUE = false }.

Lemma cells_addrs_trail c : cells_ok c -> addrs_ok (trail c).
Proof.
  intros (cells & _ & N & Z0 & P). rewrite P in N, Z0. apply list.NoDup_app in N as (N & _ & _).
  split; [exact N |]. intros Hin. apply Z0, elem_of_app. left. exact Hin.
Qed.

Lemma cells_addrs_entail c : cells_ok c -> addrs_ok (entail c).
Proof.
  intros (cells & _ & N & Z0 & P). rewrite P in N, Z0. apply list.NoDup_app in N as (_ & _ & N).
  split; [exact N |]. intros Hin. apply Z0, elem_of_app. right. exact Hin.
Qed.

(** After a pop the cells in scope are those of the push. *)
Lemma cells_pop a b c' :
  cells_ok a -> ext a b -> trail c' = trail a -> entail c' = entail a ->
  dynamic c' = ds_pop (dynamic b) (ds_push (dynamic a)) -> cells_ok c'.
Proof.
  intros (cells & L & N & Z0 & P) (nt & ne & ds & _ & _ & _ & R) E1 E2 E3.
  exists cells. rewrite E1, E2, E3. split; [apply (ds_live_pop _ _ ds); assumption | auto].
Qed.
(** *** The mask of unassigned variables *)

Definition unassigned (v : variable) : bool := negb (is_aux v) && negb (var_lo64 v =? var_hi64 v).

Lemma mask_loop_spec vs : forall i m j,
  0 <= i -> i + Z.of_nat (length vs) <= 64 -> 0 <= j ->
  Z.testbit (mask_loop vs i m) j =
    Z.testbit m j || ((i <=? j) && default false (unassigned <$> vs !! Z.to_nat (j - i))).
Proof.
  induction vs as [| v vs IH]; intros i m j Hi Hn Hj; cbn [mask_loop length] in *.
  - destruct (i <=? j); cbn; rewrite ?orb_false_r; reflexivity.
  - rewrite IH by lia.
    assert (Bit : Z.testbit (u64 (Z.shiftl 1 i)) j = (j =? i)).
    { rewrite u64_spec, Z.shiftl_1_l, pow2_spec by lia. destruct (Z.ltb_spec j 64); [reflexivity |].
      destruct (Z.eqb_spec j i); [lia | reflexivity]. }
    assert (E : Z.testbit (if is_aux v then m else if negb (var_lo64 v =? var_hi64 v)
                 then Z.lor m (u64 (Z.shiftl 1 i)) else m) j =
                Z.testbit m j || ((j =? i) && unassigned v)).
    { unfold unassigned. destruct (is_aux v), (var_lo64 v =? var_hi64 v); cbn [negb andb];
        rewrite ?andb_false_r, ?orb_false_r, ?andb_true_r; try reflexivity.
      rewrite Z.lor_spec, Bit. reflexivity. }
    rewrite E. destruct (Z.eqb_spec j i) as [-> | Ne].
    + replace (i - i) with 0 by lia. cbn [Z.to_nat lookup list_lookup]. cbn.
      destruct (Z.leb_spec (i + 1) i); [lia |]. destruct (Z.leb_spec i i); [| lia].
      cbn. rewrite orb_false_r. reflexivity.
    + cbn [andb]. rewrite orb_false_r. destruct (Z.leb_spec (i + 1) j), (Z.leb_spec i j); try lia;
        [| reflexivity]. cbn [andb]. f_equal. f_equal. f_equal.
      replace (Z.to_nat (j - i)) with (Datatypes.S (Z.to_nat (j - (i + 1)))) by lia. reflexivity.
Qed.

Lemma rebuild_mask_spec c j :
  n_vars c <= 64 -> 0 <= j ->
  Z.testbit (unassigned_mask (rebuild_mask c)) j =
    default false (unassigned <$> vars c !! Z.to_nat j).
Proof.
  intros Hn Hj. unfold rebuild_mask, n_vars in *. destruct (Z.leb_spec (Z.of_nat (length (vars c))) 64); [| lia].
  cbn. rewrite mask_loop_spec by lia. rewrite Z.bits_0, Z.sub_0_r.
  destruct (Z.leb_spec 0 j); [reflexivity | lia].
Qed.

(** *** The backtrack *)

Definition same_levels c c' : Prop :=
  decision_level c' = decision_level c /\ level_marks c' = level_marks c.

(** What a backtrack leaves, field by field. *)
Record backtracked (c : ctx T M S) (a : ctx T M S) (k : Z) (c' : ctx T M S) : Prop := {
  bt_vars : vars c' = vars a;
  bt_trail : trail c' = trail a;
  bt_count : trail_count c' = trail_count a;
  bt_entail : entail c' = entail a;
  bt_level : decision_level c' = k;
  bt_marks : level_marks c' = level_marks c;
  bt_dynamic : dynamic c' = ds_pop (dynamic c) (ds_push (dynamic a));
  bt_refs : prop_refs c' = prop_refs c /\ n_prop_refs_capacity c' = n_prop_refs_capacity c;
  bt_queue : qrep c' (fun _ => []);
  bt_mask : n_vars a <= 64 -> forall j, 0 <= j ->
    Z.testbit (unassigned_mask c') j = default false (unassigned <$> vars a !! Z.to_nat j);
  bt_pool : forall r, pool c' !! r =
    (fun p => if has_flag p PROP_FLAG_IN_QUEUE then wipe p else p) <$>
    ((fun p => unmark (bool_decide (r ∈ map snd (entail c)) &&
                       negb (bool_decide (r ∈ map snd (entail a))) && is_live c r p) p)
       <$> pool c !! r) }.

Lemma link_unmark b p : link (unmark b p) = @link T p.
Proof.
  destruct b; [| reflexivity]. unfold link, unmark. cbn [queue_next priority flag_off set_pflags].
  f_equal. change PROP_FLAG_IN_QUEUE with (2 ^ 1). change PROP_FLAG_ENTAILED with (2 ^ 0).
  rewrite has_flag_off by lia. reflexivity.
Qed.

Lemma trail_backtrack_spec c snap k :
  tinv c snap -> einv c snap -> 0 <= k < decision_level c ->
  backtracked c (snap k) k (trail_backtrack c k).
Proof.
  intros I J Hk. destruct (ti_snap c snap I k Hk) as (_ & Mk & X & _ & _ & _).
  destruct X as (nt & ne & ds & E1 & E2 & E3 & _).
  pose proof (cells_addrs_trail c (ti_cells c snap I)) as K1.
  pose proof (cells_addrs_entail c (ti_cells c snap I)) as K2. rewrite E1 in K1. rewrite E3 in K2.
  unfold trail_backtrack. rewrite Mk. cbn [mark_of mark_trail_top mark_entail_top stack_mark mark_trail_count].
  rewrite E1, undo_walk_top, E2 by exact K1.
  set (c1 := set_vars c (vars (snap k))).
  pose proof (ei_nodup c snap J) as N. rewrite E3, map_app in N.
  apply list.NoDup_app in N as (N & D & _).
  change (entail c1) with (entail c). rewrite E3.
  destruct (clear_entailed_spec ne (entail (snap k)) c1 K2 N) as (m2 & -> & Hm2).
  cbn [entail dynamic trail set_entail set_dynamic set_trail set_trail_count set_decision_level
       set_pool set_vars c1].
  rewrite E3, (chain_from_top ne) by exact K2. rewrite E1, (chain_from_top nt) by exact K1.
  set (c2 := set_decision_level _ k).
  assert (U : exists um, rebuild_mask c2 = set_unassigned_mask c2 um).
  { unfold rebuild_mask. destruct (_ <=? _); eexists; [reflexivity |].
    instantiate (1 := unassigned_mask c2). destruct c2; reflexivity. }
  pose proof (rebuild_mask_spec c2) as MS. destruct U as (um & U). rewrite U in *.
  destruct (ei_queue c snap J) as (qs & Q).
  assert (Q2 : qrep (set_unassigned_mask c2 um) qs).
  { apply (qrep_links c); [exact Q | reflexivity |]. apply map_eq. intros r.
    rewrite !lookup_fmap. subst c2. cbn [pool set_unassigned_mask set_decision_level set_trail_count
      set_trail set_dynamic set_entail set_pool]. rewrite Hm2. subst c1. cbn [pool set_vars].
    destruct (pool c !! r); [| reflexivity]. cbn. rewrite link_unmark. reflexivity. }
  destruct (clear_queue_refines _ qs Q2) as (Q3 & P3 & Fr).
  set (c3 := clear_queue _) in *. clearbody c3. unfold framed in Fr.
  constructor; try (rewrite Fr; reflexivity).
  - split; rewrite Fr; reflexivity.
  - exact Q3.
  - intros Hn j Hj. rewrite Fr. apply MS; assumption.
  - intros r. rewrite P3, lookup_fmap. f_equal. subst c2.
    cbn [pool set_unassigned_mask set_decision_level set_trail_count set_trail set_dynamic
      set_entail set_pool]. rewrite Hm2. subst c1. cbn [pool set_vars].
    destruct (pool c !! r) as [p |]; [| reflexivity]. cbn. f_equal. f_equal.
    change (is_live (set_vars c _) r p) with (is_live c r p). f_equal. rewrite E3, map_app.
    destruct (bool_decide_reflect (r ∈ map snd ne)) as [In | Nin].
    + rewrite bool_decide_true by (apply elem_of_app; auto).
      rewrite bool_decide_false by (apply D, In). reflexivity.
    + destruct (bool_decide_reflect (r ∈ map snd (entail (snap k)))) as [In' | Nin'].
      * rewrite andb_false_r. reflexivity.
      * rewrite bool_decide_false by (rewrite elem_of_app; tauto). reflexivity.
Qed.
Lemma is_live_refs c c' r p :
  prop_refs c' = prop_refs c -> n_prop_refs_capacity c' = n_prop_refs_capacity c ->
  is_live c' r p = is_live c r p.
Proof. intros E1 E2. unfold is_live. rewrite E1, E2. reflexivity. Qed.

Lemma is_live_id c r p p' : prop_id p' = prop_id p -> is_live c r p' = is_live c r p.
Proof. intros E. unfold is_live. rewrite E. reflexivity. Qed.

Lemma unmark_off b p :
  has_flag (unmark b p) PROP_FLAG_ENTAILED = negb b && has_flag p PROP_FLAG_ENTAILED.
Proof.
  destruct b; [| reflexivity]. cbn [unmark]. change PROP_FLAG_ENTAILED with (2 ^ 0).
  rewrite has_flag_off by lia. reflexivity.
Qed.

Lemma unmark_queued b p :
  has_flag (unmark b p) PROP_FLAG_IN_QUEUE = has_flag p PROP_FLAG_IN_QUEUE.
Proof.
  destruct b; [| reflexivity]. cbn [unmark]. change PROP_FLAG_ENTAILED with (2 ^ 0).
  change PROP_FLAG_IN_QUEUE with (2 ^ 1). rewrite has_flag_off by lia. reflexivity.
Qed.

Lemma unmark_id b p : prop_id (unmark b p) = prop_id p.
Proof. destruct b; reflexivity. Qed.

Lemma backtracked_tinv c snap k c' :
  tinv c snap -> 0 <= k < decision_level c -> backtracked c (snap k) k c' -> tinv c' snap.
Proof.
  intros I Hk B. destruct (ti_snap c snap I k Hk) as (Lk & _ & X & Ck & Sk & Nk).
  pose proof (ti_level c snap I) as HL.
  assert (Xb : forall j, 0 <= j < k -> ext (snap j) c').
  { intros j Hj. destruct (ti_nest c snap I j k Hj ltac:(lia)) as (nt & ne & ds & G1 & G2 & G3 & G4).
    exists nt, ne, ds. rewrite (bt_trail _ _ _ _ B), (bt_vars _ _ _ _ B), (bt_entail _ _ _ _ B),
      (bt_dynamic _ _ _ _ B). repeat split; try assumption.
    destruct X as (_ & _ & ds' & _ & _ & _ & R). eapply ds_frame; eauto. }
  constructor.
  - rewrite (bt_level _ _ _ _ B). lia.
  - apply (cells_pop (snap k) c); [exact Ck | exact X | apply B | apply B | apply B].
  - rewrite (bt_count _ _ _ _ B), (bt_trail _ _ _ _ B). exact Nk.
  - rewrite (bt_vars _ _ _ _ B). exact Sk.
  - intros j Hj. rewrite (bt_level _ _ _ _ B) in Hj. rewrite (bt_marks _ _ _ _ B).
    destruct (ti_snap c snap I j ltac:(lia)) as (H1 & H2 & _ & H4).
    split; [exact H1 |]. split; [exact H2 |]. split; [apply Xb; lia | exact H4].
  - intros i j Hi Hj. rewrite (bt_level _ _ _ _ B) in Hj. apply (ti_nest c snap I); lia.
Qed.

(** After a backtrack a live propagator is marked entailed exactly if it is on
    the entailment list of the push. *)
Lemma backtracked_flags c snap k c' r p' :
  einv c snap -> ext (snap k) c -> 0 <= k < decision_level c -> backtracked c (snap k) k c' ->
  pool c' !! r = Some p' -> is_live c' r p' = true ->
  (has_flag p' PROP_FLAG_ENTAILED = true <-> r ∈ map snd (entail (snap k))).
Proof.
  intros J (_ & ne & _ & _ & _ & E3 & _) Hk B Hp Lv.
  rewrite (bt_pool _ _ _ _ B) in Hp. destruct (pool c !! r) as [p |] eqn:E; [| discriminate].
  injection Hp as <-. destruct (bt_refs _ _ _ _ B) as [R1 R2].
  set (b := _ && _ && _). rewrite (is_live_refs c c') in Lv by assumption.
  assert (Lp : is_live c r p = true).
  { rewrite <- Lv. symmetry. apply is_live_id.
    destruct (has_flag _ _); [cbn; apply unmark_id | apply unmark_id]. }
  pose proof (ei_flag c snap J r p E Lp) as Fl.
  assert (Sub : r ∈ map snd (entail (snap k)) -> r ∈ map snd (entail c)).
  { intros In. rewrite E3, map_app. apply elem_of_app. auto. }
  rewrite unmark_queued. destruct (has_flag p PROP_FLAG_IN_QUEUE) eqn:Fq.
  - rewrite (proj2 (wipe_flags _)). split; [discriminate |]. intros In.
    rewrite (ei_apart c snap J k Hk r p In E) in Fq. discriminate.
  - rewrite unmark_off. subst b. rewrite Lp, andb_true_r.
    destruct (bool_decide_reflect (r ∈ map snd (entail c))) as [In | Nin].
    + rewrite (proj2 Fl In). destruct (bool_decide_reflect (r ∈ map snd (entail (snap k)))); cbn;
        split; auto; discriminate.
    + destruct (has_flag p PROP_FLAG_ENTAILED); [destruct Nin; apply Fl; reflexivity |].
      rewrite andb_false_r. split; [discriminate | intros In; destruct Nin; auto].
Qed.

Lemma backtracked_einv c snap k c' :
  tinv c snap -> einv c snap -> 0 <= k < decision_level c -> backtracked c (snap k) k c' ->
  einv c' snap.
Proof.
  intros I J Hk B. destruct (ti_snap c snap I k Hk) as (_ & _ & X & _ & _ & _).
  destruct (bt_refs _ _ _ _ B) as [R1 R2]. constructor.
  - exists (fun _ => []). apply (bt_queue _ _ _ _ B).
  - intros r p Hp Lv. rewrite (bt_entail _ _ _ _ B).
    apply (backtracked_flags c snap k c' r p J X Hk B Hp Lv).
  - rewrite (bt_entail _ _ _ _ B). destruct X as (_ & ne & _ & _ & _ & E3 & _).
    pose proof (ei_nodup c snap J) as N. rewrite E3, map_app in N.
    apply list.NoDup_app in N. apply N.
  - intros r In. rewrite (bt_entail _ _ _ _ B) in In.
    destruct X as (_ & ne & _ & _ & _ & E3 & _).
    destruct (ei_mem c snap J r) as (p & Hp & Lp).
    { rewrite E3, map_app. apply elem_of_app. auto. }
    rewrite (bt_pool _ _ _ _ B), Hp. eexists. split; [reflexivity |].
    rewrite (is_live_refs c c') by assumption. rewrite <- Lp. apply is_live_id.
    cbn. destruct (has_flag _ _); [cbn; apply unmark_id | apply unmark_id].
  - intros j Hj r p _ Hp. apply (empty_not_queued c' r p (bt_queue _ _ _ _ B) Hp).
Qed.

(** *** Growth *)

(** An operation that only adds records. *)
Record grows (c c' : ctx T M S) : Prop := {
  gr_level : decision_level c' = decision_level c;
  gr_marks : level_marks c' = level_marks c;
  gr_ext : exists nt ne ds, trail c' = nt ++ trail c /\ undo_all nt (vars c') = vars c /\
    entail c' = ne ++ entail c /\ ds_run (dynamic c) ds (dynamic c') /\
    ds ≡ₚ map fst nt ++ map fst ne;
  gr_count : trail_count c = u64 (Z.of_nat (length (trail c))) ->
    trail_count c' = u64 (Z.of_nat (length (trail c')));
  gr_stored : Forall stored (vars c) -> Forall stored (vars c') }.

Lemma grows_tinv c c' snap : tinv c snap -> grows c c' -> cells_ok c' -> tinv c' snap.
Proof.
  intros I G C'. pose proof G as [L Mk (nt & ne & ds & E1 & E2 & E3 & R & P) Cn St]. constructor.
  - rewrite L. apply (ti_level c snap I).
  - exact C'.
  - apply Cn, (ti_count c snap I).
  - apply St, (ti_stored c snap I).
  - rewrite L. intros k Hk. destruct (ti_snap c snap I k Hk) as (H1 & H2 & H3 & H4).
    rewrite Mk. split; [exact H1 |]. split; [exact H2 |]. split; [| exact H4].
    apply (ext_trans _ c); [exact H3 |]. exists nt, ne, ds. auto.
  - rewrite L. apply (ti_nest c snap I).
Qed.
Lemma entry_request : ds_request sizeof_TrailEntry pointer_align.
Proof. unfold ds_request, sizeof_TrailEntry, pointer_align. lia. Qed.
Lemma entail_request : ds_request sizeof_EntailEntry pointer_align.
Proof. unfold ds_request, sizeof_EntailEntry, pointer_align. lia. Qed.

Lemma u64_count n : u64 (u64 (Z.of_nat n) + 1) = u64 (Z.of_nat (Datatypes.S n)).
Proof. unfold u64. rewrite Z.add_mod_idemp_l by lia. f_equal. lia. Qed.

(** Recording one entry whose undoing gives the old variables. *)
Lemma record_entry_grows c0 c id k vs old c' :
  cells_ok c0 -> record_entry c id k vs old = (0, c') ->
  trail c = trail c0 -> entail c = entail c0 -> dynamic c = dynamic c0 ->
  decision_level c = decision_level c0 -> level_marks c = level_marks c0 ->
  trail_count c = trail_count c0 ->
  (forall lv pr fl, undo_entry (vars c) (mk_entry id k vs lv old pr fl) = vars c0) ->
  (Forall stored (vars c0) -> Forall stored (vars c)) ->
  grows c0 c' /\ cells_ok c'.
Proof.
  intros (cells & L & N & Z0 & P) E E1 E2 E3 E4 E5 E6 U St. unfold record_entry in E. rewrite E3 in E.
  pose proof (ds_live_alloc (dynamic c0) cells _ _ L entry_request) as A.
  destruct (ds_alloc (dynamic c0) sizeof_TrailEntry pointer_align) as [[a |] s] eqn:Ea; [| discriminate].
  injection E as <-. destruct A as (An & Af & Al). split.
  - constructor; cbn [decision_level level_marks trail vars entail dynamic trail_count push_entry
      set_trail_count set_trail set_dynamic].
    + exact E4.
    + exact E5.
    + eexists [(a, _)], [], [a]. rewrite E1, E2. split; [reflexivity |].
      split; [apply U |]. split; [reflexivity |]. split; [| reflexivity].
      eapply ds_alloc_ok; [constructor | apply entry_request | exact Ea].
    + intros Hc. cbn [length]. rewrite E6, E1, Hc. apply u64_count.
    + exact St.
  - exists (a :: cells). cbn [dynamic trail entail push_entry set_trail_count set_trail set_dynamic map fst app].
    rewrite E1, E2. split; [exact Al |]. split; [constructor; assumption |].
    split; [| constructor; exact P].
    rewrite not_elem_of_cons. split; [intros Q; apply An; symmetry; exact Q | exact Z0].
Qed.

Lemma var_lookup c id : 0 <= id < n_vars c -> vars c !! Z.to_nat id = Some (var c id).
Proof.
  unfold var, n_vars. intros H1. destruct (lookup_lt_is_Some_2 (vars c) (Z.to_nat id)) as [v E]; [lia |].
  rewrite E. reflexivity.
Qed.

Lemma stored_insert c id v : Forall stored (vars c) -> stored v -> Forall stored (vars (put_var c id v)).
Proof. intros F Sv. cbn. apply list.Forall_insert; assumption. Qed.

Lemma stored_var c id : Forall stored (vars c) -> stored (var c id).
Proof.
  intros F. unfold var. destruct (vars c !! Z.to_nat id) eqn:E.
  - apply (Forall_lookup_1 _ _ _ _ F E).
  - unfold stored, int32. cbn. lia.
Qed.

Lemma record_lb_grows c id b c' :
  cells_ok c -> Forall stored (vars c) -> 0 <= id < n_vars c ->
  trail_record_lb c id b = (0, c') -> grows c c' /\ cells_ok c'.
Proof.
  intros K St Hid. unfold trail_record_lb. pose proof (var_lookup c id Hid) as V.
  pose proof (stored_var c id St) as [S1 S2].
  destruct (var_is_tier0 (flags (var c id))) eqn:T0; [| destruct (var_is_tier1 (flags (var c id))) eqn:T1];
    [| | discriminate]; intros E;
    apply (record_entry_grows c _ _ _ _ _ _ K E); try reflexivity.
  - intros. apply (undo_insert _ _ (var c id)); [exact V | reflexivity |]. cbn.
    rewrite T0, (s32_small (lo (var c id))) by exact S1. destruct (var c id); reflexivity.
  - intros F. apply (stored_insert c id _ F). split; [apply int32_s32 | exact S2].
  - intros. apply (undo_insert _ _ (var c id)); [exact V | reflexivity |]. cbn.
    rewrite T0, T1. destruct (var c id); reflexivity.
  - intros F. apply (stored_insert c id _ F). split; assumption.
Qed.

Lemma record_ub_grows c id b c' :
  cells_ok c -> Forall stored (vars c) -> 0 <= id < n_vars c ->
  trail_record_ub c id b = (0, c') -> grows c c' /\ cells_ok c'.
Proof.
  intros K St Hid. unfold trail_record_ub. pose proof (var_lookup c id Hid) as V.
  pose proof (stored_var c id St) as [S1 S2].
  destruct (var_is_tier0 (flags (var c id))) eqn:T0; [| destruct (var_is_tier1 (flags (var c id))) eqn:T1];
    [| | discriminate]; intros E;
    apply (record_entry_grows c _ _ _ _ _ _ K E); try reflexivity.
  - intros. apply (undo_insert _ _ (var c id)); [exact V | reflexivity |]. cbn.
    rewrite T0, (s32_small (hi (var c id))) by exact S2. destruct (var c id); reflexivity.
  - intros F. apply (stored_insert c id _ F). split; [exact S1 | apply int32_s32].
  - intros. apply (undo_insert _ _ (var c id)); [exact V | reflexivity |]. cbn.
    rewrite T0, T1. destruct (var c id); reflexivity.
  - intros F. apply (stored_insert c id _ F). split; assumption.
Qed.

Lemma record_hole_grows c id x c' :
  cells_ok c -> trail_record_hole c id x = (0, c') -> grows c c' /\ cells_ok c'.
Proof.
  intros K E. apply (record_entry_grows c _ _ _ _ _ _ K E); try reflexivity; auto.
  intros. unfold undo_entry. cbn. destruct (vars c !! Z.to_nat id); reflexivity.
Qed.
(** *** The operations and their invariant *)

(** One call on the trail or the queue, as the search and the propagation
    make them.  A push finds no entailed propagator in the queue; a propagator
    is marked once. *)
Inductive trail_op (c : ctx T M S) : ctx T M S -> Prop :=
| op_lb id b c' : 0 <= id < n_vars c -> trail_record_lb c id b = (0, c') -> trail_op c c'
| op_ub id b c' : 0 <= id < n_vars c -> trail_record_ub c id b = (0, c') -> trail_op c c'
| op_hole id x c' : trail_record_hole c id x = (0, c') -> trail_op c c'
| op_mark r p : pool c !! r = Some p -> is_live c r p = true ->
    has_flag p PROP_FLAG_ENTAILED = false -> trail_op c (trail_mark_entailed c r)
| op_enqueue r p : pool c !! r = Some p -> trail_op c (prop_enqueue c r)
| op_dequeue r c' : dequeue c = Some (r, c') -> trail_op c c'
| op_push : decision_level c + 1 < 2 ^ 32 ->
    (forall r p, pool c !! r = Some p -> has_flag p PROP_FLAG_ENTAILED = true ->
       has_flag p PROP_FLAG_IN_QUEUE = false) -> trail_op c (trail_push_level c)
| op_backtrack k : 0 <= k < decision_level c -> trail_op c (trail_backtrack c k).

(** The fields the entailment invariant reads. *)
Record same_marks (c c' : ctx T M S) : Prop := {
  sm_pool : pool c' = pool c;
  sm_queue : queue c' = queue c;
  sm_refs : prop_refs c' = prop_refs c /\ n_prop_refs_capacity c' = n_prop_refs_capacity c;
  sm_entail : entail c' = entail c;
  sm_level : decision_level c' = decision_level c }.

Lemma same_marks_einv c c' snap : einv c snap -> same_marks c c' -> einv c' snap.
Proof.
  intros J [E1 E2 [E3 E4] E5 E6]. constructor; rewrite ?E1, ?E5, ?E6.
  - destruct (ei_queue c snap J) as (qs & Q). exists qs. apply (qrep_links c); [exact Q | exact E2 |].
    rewrite E1. reflexivity.
  - intros r p Hp Lv. rewrite (is_live_refs c c') in Lv by assumption.
    apply (ei_flag c snap J r p Hp Lv).
  - apply (ei_nodup c snap J).
  - intros r Hr. destruct (ei_mem c snap J r Hr) as (p & Hp & Lp). exists p.
    rewrite (is_live_refs c c') by assumption. auto.
  - apply (ei_apart c snap J).
Qed.

Lemma record_entry_marks c id k vs old r c' : record_entry c id k vs old = (r, c') -> same_marks c c'.
Proof.
  unfold record_entry. destruct (ds_alloc _ _ _) as [[a |] s]; intros [= <- <-]; constructor; auto.
Qed.

Lemma put_var_marks c id v c' : same_marks (put_var c id v) c' -> same_marks c c'.
Proof. intros [E1 E2 E3 E4 E5]. constructor; assumption. Qed.

Lemma record_lb_marks c id b r c' : trail_record_lb c id b = (r, c') -> same_marks c c'.
Proof.
  unfold trail_record_lb. destruct (var_is_tier0 _); [| destruct (var_is_tier1 _)]; intros E;
    try (apply record_entry_marks, put_var_marks in E; exact E).
  injection E as _ <-. constructor; auto.
Qed.

Lemma record_ub_marks c id b r c' : trail_record_ub c id b = (r, c') -> same_marks c c'.
Proof.
  unfold trail_record_ub. destruct (var_is_tier0 _); [| destruct (var_is_tier1 _)]; intros E;
    try (apply record_entry_marks, put_var_marks in E; exact E).
  injection E as _ <-. constructor; auto.
Qed.

Definition inv c (snap : Z -> ctx T M S) : Prop := tinv c snap /\ einv c snap.

Lemma inv_grows c c' snap :
  inv c snap -> grows c c' /\ cells_ok c' -> same_marks c c' -> inv c' snap.
Proof.
  intros [I J] [G K] Sm. split; [apply (grows_tinv c); assumption |].
  apply (same_marks_einv c); assumption.
Qed.

Lemma inv_mark c snap r p :
  inv c snap -> pool c !! r = Some p -> is_live c r p = true ->
  has_flag p PROP_FLAG_ENTAILED = false -> inv (trail_mark_entailed c r) snap.
Proof.
  intros [I J] Hp Lv Fe. pose proof (ti_cells c snap I) as (cells & L & N & Z0 & P).
  unfold trail_mark_entailed.
  pose proof (ds_live_alloc (dynamic c) cells _ _ L entail_request) as A.
  destruct (ds_alloc (dynamic c) sizeof_EntailEntry pointer_align) as [[a |] s] eqn:Ea.
  - destruct A as (An & Af & Al). unfold update_prop. cbn [pool set_dynamic]. rewrite Hp.
    set (c' := set_entail _ _). assert (Nr : r ∉ map snd (entail c)).
    { intros In. apply (ei_flag c snap J r p Hp Lv) in In. congruence. }
    assert (Q' : forall q, has_flag (flag_on p PROP_FLAG_ENTAILED) PROP_FLAG_IN_QUEUE = q <->
      has_flag p PROP_FLAG_IN_QUEUE = q).
    { intros q. change PROP_FLAG_ENTAILED with (2 ^ 0). change PROP_FLAG_IN_QUEUE with (2 ^ 1).
      rewrite has_flag_on by lia. reflexivity. }
    split.
    + apply (grows_tinv c); [exact I | |].
      * constructor; try reflexivity; auto.
        { exists [], [(a, r)], [a]. repeat split; try reflexivity.
          eapply ds_alloc_ok; [constructor | apply entail_request | exact Ea]. }
      * exists (a :: cells). subst c'. cbn [dynamic trail entail set_entail set_pool put_prop set_dynamic map fst].
        split; [exact Al |]. split; [constructor; assumption |].
        split; [rewrite not_elem_of_cons; split; [intros X; apply An; symmetry; exact X | exact Z0] |].
        rewrite P. apply Permutation_middle.
    + subst c'. constructor; cbn [pool entail decision_level set_entail put_prop set_pool set_dynamic map snd].
      * destruct (ei_queue c snap J) as (qs & Q). exists qs. apply (qrep_links c); [exact Q | reflexivity |].
        apply map_eq. intros i. cbn. rewrite !lookup_fmap. destruct (decide (r = i)) as [<- | Ne].
        { rewrite lookup_insert_eq, Hp. cbn. f_equal. unfold link.
          cbn [queue_next priority flag_on set_pflags]. f_equal. apply Q'. reflexivity. }
        { rewrite lookup_insert_ne by exact Ne. reflexivity. }
      * intros i q Hq Lq. destruct (decide (r = i)) as [<- | Ne].
        { rewrite lookup_insert_eq in Hq. injection Hq as <-. split; [intros _; left |]. intros _.
          change PROP_FLAG_ENTAILED with (2 ^ 0). rewrite has_flag_on by lia. reflexivity. }
        { rewrite lookup_insert_ne in Hq by exact Ne. rewrite elem_of_cons.
          rewrite (ei_flag c snap J i q Hq Lq). split; [auto |]. intros [X | X]; [congruence | exact X]. }
      * constructor; [exact Nr | apply (ei_nodup c snap J)].
      * intros i Hi. destruct (decide (r = i)) as [<- | Ne].
        { eexists. rewrite lookup_insert_eq. split; [reflexivity | exact Lv]. }
        { rewrite lookup_insert_ne by exact Ne. apply elem_of_cons in Hi as [X | Hi]; [congruence |].
          apply (ei_mem c snap J i Hi). }
      * intros k Hk i q Hi Hq. destruct (decide (r = i)) as [<- | Ne].
        { rewrite lookup_insert_eq in Hq. injection Hq as <-. apply Q'.
          apply (ei_apart c snap J k Hk r p Hi Hp). }
        { rewrite lookup_insert_ne in Hq by exact Ne. apply (ei_apart c snap J k Hk i q Hi Hq). }
  - apply (inv_grows c); [split; assumption | |]; [| constructor; auto]. split.
    + constructor; try reflexivity; auto.
      exists [], [], []. repeat split; try reflexivity.
      eapply ds_alloc_no; [constructor | apply entail_request | exact Ea].
    + exists cells. auto.
Qed.
(** Entailed marks and ids are in [core]. *)
Lemma core_back c c' r p' :
  core <$> pool c' = core <$> pool c -> pool c' !! r = Some p' ->
  exists p, pool c !! r = Some p /\ prop_id p' = prop_id p /\
    has_flag p' PROP_FLAG_ENTAILED = has_flag p PROP_FLAG_ENTAILED.
Proof.
  intros E Hp. apply (f_equal (lookup r)) in E. rewrite !lookup_fmap, Hp in E.
  destruct (pool c !! r) as [p |]; [| discriminate]. injection E as _ E2 _ _ E5. eauto.
Qed.

(** An operation on the queue that marks nobody on a snapshot's list. *)
Lemma inv_queue_op c c' snap qs' :
  inv c snap -> framed c c' -> core <$> pool c' = core <$> pool c -> qrep c' qs' ->
  (forall k, 0 <= k < decision_level c -> forall r p', r ∈ map snd (entail (snap k)) ->
     pool c' !! r = Some p' -> has_flag p' PROP_FLAG_IN_QUEUE = false) ->
  inv c' snap.
Proof.
  intros [I J] Fr Co Q' Ap. unfold framed in Fr.
  assert (E : vars c' = vars c /\ trail c' = trail c /\ entail c' = entail c /\
    dynamic c' = dynamic c /\ decision_level c' = decision_level c /\
    level_marks c' = level_marks c /\ trail_count c' = trail_count c /\
    prop_refs c' = prop_refs c /\ n_prop_refs_capacity c' = n_prop_refs_capacity c)
    by (rewrite Fr; cbn; auto 20).
  destruct E as (E1 & E2 & E3 & E4 & E5 & E6 & E7 & E8 & E9). split.
  - apply (grows_tinv c); [exact I | |].
    + constructor; [exact E5 | exact E6 | | rewrite E7, E2; auto | rewrite E1; auto].
      exists [], [], []. rewrite E1, E2, E3, E4. repeat split; constructor.
    + destruct (ti_cells c snap I) as (cells & K). exists cells. rewrite E2, E3, E4. exact K.
  - constructor.
    + eauto.
    + intros r p' Hp Lv. destruct (core_back c c' r p' Co Hp) as (p & Hp0 & Ei & Ef).
      rewrite (is_live_refs c c'), (is_live_id c r p p') in Lv by assumption.
      rewrite Ef, E3. apply (ei_flag c snap J r p Hp0 Lv).
    + rewrite E3. apply (ei_nodup c snap J).
    + intros r Hr. rewrite E3 in Hr. destruct (ei_mem c snap J r Hr) as (p & Hp & Lp).
      assert (Co' : core <$> pool c = core <$> pool c') by congruence.
      destruct (core_back c' c r p Co' Hp) as (p' & Hp' & Ei & _). exists p'.
      split; [exact Hp' |]. rewrite (is_live_refs c c'), (is_live_id c r p p') by (auto; congruence).
      exact Lp.
    + rewrite E5. exact Ap.
Qed.

Lemma inv_enqueue c snap r p : inv c snap -> pool c !! r = Some p -> inv (prop_enqueue c r) snap.
Proof.
  intros [I J] Hp. destruct (ei_queue c snap J) as (qs & Q).
  pose proof (enqueue_refines c qs r p Q Hp) as R.
  destruct (_ || _) eqn:F; [rewrite R; split; assumption |].
  apply orb_false_iff in F as [_ Fe]. destruct R as (Q' & Co & Fr).
  apply (inv_queue_op c _ snap _ (conj I J) Fr Co Q'). intros k Hk i p' Hi Hp'.
  destruct (has_flag p' PROP_FLAG_IN_QUEUE) eqn:Fq; [| reflexivity].
  destruct (ti_snap c snap I k Hk) as (_ & _ & (_ & ne & _ & _ & _ & E3 & _) & _).
  assert (Hi' : i ∈ map snd (entail c)) by (rewrite E3, map_app; apply elem_of_app; auto).
  destruct (ei_mem c snap J i Hi') as (p0 & Hp0 & Lp0).
  pose proof (qr_flag _ _ Q' i p' Hp' Fq) as In. unfold spec_enqueue, upd in In.
  assert (In' : i = r \/ exists l, 0 <= l < 16 /\ i ∈ qs l).
  { pose proof (qr_pool _ _ Q' i p' Hp') as [_ Pl].
    destruct (Z.eqb_spec (priority p') (priority p)) as [Ep | _]; [| eauto].
    apply elem_of_app in In as [In | In]; [rewrite <- Ep in In; eauto |].
    apply list_elem_of_singleton in In. auto. }
  destruct In' as [-> | (l & Hl & In')].
  - rewrite Hp in Hp0. injection Hp0 as <-. apply (ei_flag c snap J r p Hp Lp0) in Hi'. congruence.
  - destruct (in_queue_flag c qs l i p0 Q Hl In' Hp0) as [Fq0 _].
    rewrite (ei_apart c snap J k Hk i p0 Hi Hp0) in Fq0. discriminate.
Qed.

Lemma inv_dequeue c snap r c' : inv c snap -> dequeue c = Some (r, c') -> inv c' snap.
Proof.
  intros [I J] Hd. destruct (ei_queue c snap J) as (qs & Q).
  pose proof (dequeue_refines c qs Q) as R.
  destruct (spec_dequeue 16 0 qs) as [[r0 qs'] |] eqn:Es; [| congruence].
  destruct R as (c0 & E & Q' & Co & Fr). rewrite Hd in E. injection E as <- <-.
  apply (inv_queue_op c _ snap _ (conj I J) Fr Co Q'). intros k Hk i p' Hi Hp'.
  destruct (has_flag p' PROP_FLAG_IN_QUEUE) eqn:Fq; [| reflexivity].
  pose proof (qr_flag _ _ Q' i p' Hp' Fq) as In. apply (spec_dequeue_sub _ _ _ _ _ _ _ Es) in In.
  destruct (core_back c c' i p' Co Hp') as (p0 & Hp0 & _).
  pose proof (qr_pool _ _ Q' i p' Hp') as [_ Pl].
  destruct (in_queue_flag c qs _ i p0 Q Pl In Hp0) as [Fq0 _].
  rewrite (ei_apart c snap J k Hk i p0 Hi Hp0) in Fq0. discriminate.
Qed.

Lemma inv_push c snap :
  inv c snap -> decision_level c + 1 < 2 ^ 32 ->
  (forall r p, pool c !! r = Some p -> has_flag p PROP_FLAG_ENTAILED = true ->
     has_flag p PROP_FLAG_IN_QUEUE = false) ->
  inv (trail_push_level c) (fun j => if j =? decision_level c then c else snap j).
Proof.
  intros [I J] Hl Hq. pose proof (ti_level c snap I) as L0.
  assert (Lv : u32 (decision_level c + 1) = decision_level c + 1) by (apply Z.mod_small; lia).
  assert (Lt : forall k, 0 <= k < decision_level c + 1 -> k <> decision_level c ->
    0 <= k < decision_level c) by (intros; lia).
  unfold trail_push_level. split; constructor; cbn [decision_level level_marks trail entail dynamic vars
    trail_count set_decision_level set_level_marks pool]; rewrite ?Lv.
  - lia.
  - apply (ti_cells c snap I).
  - apply (ti_count c snap I).
  - apply (ti_stored c snap I).
  - intros k Hk. destruct (Z.eqb_spec k (decision_level c)) as [-> | Ne].
    + rewrite lookup_insert_eq. split; [reflexivity |]. split; [reflexivity |].
      split; [exists [], [], []; repeat split; constructor |].
      split; [apply (ti_cells c snap I) |]. split; [apply (ti_stored c snap I) | apply (ti_count c snap I)].
    + rewrite lookup_insert_ne by auto. apply (ti_snap c snap I k (Lt k Hk Ne)).
  - intros j k Hj Hk. destruct (Z.eqb_spec j (decision_level c)) as [-> | Nj]; [lia |].
    destruct (Z.eqb_spec k (decision_level c)) as [-> | Nk].
    + apply (ti_snap c snap I j). lia.
    + apply (ti_nest c snap I); lia.
  - destruct (ei_queue c snap J) as (qs & Q). exists qs.
    apply (qrep_links c); [exact Q | reflexivity | reflexivity].
  - intros r p Hp Lp. apply (ei_flag c snap J r p Hp Lp).
  - apply (ei_nodup c snap J).
  - intros r Hr. apply (ei_mem c snap J r Hr).
  - intros k Hk r p Hr Hp. destruct (Z.eqb_spec k (decision_level c)) as [-> | Ne].
    + destruct (ei_mem c snap J r Hr) as (p0 & Hp0 & Lp0). rewrite Hp in Hp0. injection Hp0 as <-.
      apply (Hq r p Hp), (ei_flag c snap J r p Hp Lp0), Hr.
    + apply (ei_apart c snap J k (Lt k Hk Ne) r p Hr Hp).
Qed.

(** Every operation keeps the invariant, for snapshots that differ at most at
    the level it opens. *)
Lemma inv_op c snap c' :
  inv c snap -> trail_op c c' ->
  exists snap', inv c' snap' /\ forall k, k < decision_level c -> snap' k = snap k.
Proof.
  intros I O. pose proof I as [It Ie]. pose proof (ti_cells c snap It) as K.
  pose proof (ti_stored c snap It) as St.
  destruct O as [id b c' Hid E | id b c' Hid E | id x c' E | r p Hp Lv Fe | r p Hp | r c' E | Hl Hq | k Hk].
  - exists snap. split; [| auto]. apply (inv_grows c); [exact I | apply (record_lb_grows c id b); assumption |].
    apply (record_lb_marks c id b 0 c' E).
  - exists snap. split; [| auto]. apply (inv_grows c); [exact I | apply (record_ub_grows c id b); assumption |].
    apply (record_ub_marks c id b 0 c' E).
  - exists snap. split; [| auto]. apply (inv_grows c); [exact I | apply (record_hole_grows c id x); assumption |].
    apply (record_entry_marks _ _ _ _ _ _ _ E).
  - exists snap. split; [| auto]. apply (inv_mark c snap r p); assumption.
  - exists snap. split; [| auto]. apply (inv_enqueue c snap r p); assumption.
  - exists snap. split; [| auto]. apply (inv_dequeue c snap r); assumption.
  - exists (fun j => if j =? decision_level c then c else snap j).
    split; [apply inv_push; assumption |]. intros k Hk. cbn.
    destruct (Z.eqb_spec k (decision_level c)); [lia | reflexivity].
  - exists snap. split; [| auto]. pose proof (trail_backtrack_spec c snap k It Ie Hk) as B.
    split; [apply (backtracked_tinv c snap k); assumption | apply (backtracked_einv c snap k); assumption].
Qed.
(** *** Sessions *)

(** A context whose search has not begun: level 0, no records. *)
Record untouched c : Prop := {
  un_level : decision_level c = 0;
  un_trail : trail c = [] /\ trail_count c = 0;
  un_entail : entail c = [];
  un_stack : ds_live (dynamic c) [];
  un_stored : Forall stored (vars c);
  un_queue : exists qs, qrep c qs;
  un_marks : forall r p, pool c !! r = Some p -> is_live c r p = true ->
    has_flag p PROP_FLAG_ENTAILED = false }.

Inductive reachable (c0 : ctx T M S) : ctx T M S -> Prop :=
| reach_start : reachable c0 c0
| reach_op c c' : reachable c0 c -> trail_op c c' -> reachable c0 c'.

(** What follows a push at [c], as long as the level it opened stays open. *)
Inductive opened c : ctx T M S -> Prop :=
| opened_push : opened c (trail_push_level c)
| opened_op d d' : opened c d -> trail_op d d' -> decision_level c < decision_level d' ->
    opened c d'.

Lemma untouched_inv c : untouched c -> inv c (fun _ => c).
Proof.
  intros U. destruct (un_trail c U) as [Tr Tc]. split; constructor.
  - rewrite (un_level c U). lia.
  - exists []. rewrite Tr, (un_entail c U). split; [apply (un_stack c U) |].
    split; [constructor |]. split; [intros X; inversion X | reflexivity].
  - rewrite Tc, Tr. reflexivity.
  - apply (un_stored c U).
  - rewrite (un_level c U). lia.
  - rewrite (un_level c U). lia.
  - apply (un_queue c U).
  - intros r p Hp Lv. rewrite (un_marks c U r p Hp Lv), (un_entail c U).
    split; [discriminate | intros X; inversion X].
  - rewrite (un_entail c U). constructor.
  - rewrite (un_entail c U). intros r X. inversion X.
  - rewrite (un_level c U). lia.
Qed.

Lemma trail_reachable_inv c0 c : untouched c0 -> reachable c0 c -> exists snap, inv c snap.
Proof.
  intros U. induction 1 as [| c c' _ (snap & I) O]; [eexists; apply (untouched_inv c0 U) |].
  destruct (inv_op c snap c' I O) as (snap' & I' & _). eauto.
Qed.

Lemma opened_inv c d snap :
  inv c snap -> decision_level c + 1 < 2 ^ 32 ->
  (forall r p, pool c !! r = Some p -> has_flag p PROP_FLAG_ENTAILED = true ->
     has_flag p PROP_FLAG_IN_QUEUE = false) ->
  opened c d ->
  decision_level c < decision_level d /\ exists snap', inv d snap' /\ snap' (decision_level c) = c.
Proof.
  intros I Hl Hq. induction 1 as [| d d' _ (Lt & snap' & I' & E) O Lt'].
  - split.
    + pose proof (ti_level c snap (proj1 I)). cbn. unfold u32. rewrite Z.mod_small; lia.
    + eexists. split; [apply (inv_push c snap I Hl Hq) |]. cbn. rewrite Z.eqb_refl. reflexivity.
  - split; [exact Lt' |]. destruct (inv_op d snap' d' I' O) as (snap2 & I2 & E2).
    exists snap2. split; [exact I2 |]. rewrite E2 by exact Lt. exact E.
Qed.

(** C40: Backtracking to a level restores the state of its push.  From any state
    the search can reach, after a push and any records, entailments, queue
    operations and inner pushes and backtracks, the backtrack to that level
    gives back every variable's bounds, the trail, its count, the entailment
    list and the level; the queue is empty; the mask holds exactly the
    non-auxiliary variables whose bounds differ; and a live propagator is marked
    entailed exactly if it was on the entailment list at the push. *)
Theorem backtrack_restores c0 c d :
  untouched c0 -> reachable c0 c -> decision_level c + 1 < 2 ^ 32 ->
  (forall r p, pool c !! r = Some p -> has_flag p PROP_FLAG_ENTAILED = true ->
     has_flag p PROP_FLAG_IN_QUEUE = false) ->
  opened c d ->
  let b := trail_backtrack d (decision_level c) in
  vars b = vars c /\ trail b = trail c /\ trail_count b = trail_count c /\
  entail b = entail c /\ decision_level b = decision_level c /\ qrep b (fun _ => []) /\
  (n_vars c <= 64 -> forall j, 0 <= j ->
     Z.testbit (unassigned_mask b) j = default false (unassigned <$> vars c !! Z.to_nat j)) /\
  (forall r p, pool b !! r = Some p -> is_live b r p = true ->
     (has_flag p PROP_FLAG_ENTAILED = true <-> r ∈ map snd (entail c))).
Proof.
  intros U R Hl Hq O. destruct (trail_reachable_inv c0 c U R) as (snap & I).
  destruct (opened_inv c d snap I Hl Hq O) as (Lt & snap' & [It Ie] & E).
  pose proof (ti_level c snap (proj1 I)) as L0.
  pose proof (trail_backtrack_spec d snap' (decision_level c) It Ie ltac:(lia)) as B.
  destruct (ti_snap d snap' It (decision_level c) ltac:(lia)) as (_ & _ & X & _).
  pose proof (fun r p => backtracked_flags d snap' _ _ r p Ie X ltac:(lia) B) as Fl.
  rewrite E in B, Fl. intros b. subst b.
  split; [apply B |]. split; [apply B |]. split; [apply B |]. split; [apply B |].
  split; [apply B |]. split; [apply B |]. split; [apply B | exact Fl].
Qed.
End Invariant.

(** ** A session on the bump stack *)

#[local] Instance demo_ds : DynStack Mem.mark Mem.stack := bump_stack Mem.bump_malloc.
#[local] Instance demo_laws : DynStackLaws Mem.mark Mem.stack :=
  bump_laws Mem.bump_malloc Mem.bump_malloc_ok.

Definition demo_ba : Mem.ba := Mem.mk_ba 16 [(16, 48)] 256 [] 0 0 [].
Definition demo0 : ctx unit Mem.mark Mem.stack :=
  fresh_ctx [mk_var 0 9 0 0 8 0; mk_var (-5) 5 0 0 8 1] sample_pool None (Mem.stack_create demo_ba).

Lemma demo_untouched : untouched demo0.
Proof.
  constructor; try reflexivity.
  - auto.
  - exists [], [], []. split; [| split; [constructor | reflexivity]].
    apply (Mem.stack_create_inv Mem.bump_malloc [] 256 demo_ba Mem.bump_malloc_ok Mem.regions_ok_nil);
      [reflexivity | lia].
  - repeat constructor; cbn; lia.
  - exists (fun _ => []). apply fresh_qrep; [apply (qr_pool _ _ sample_qrep) |].
    intros r p Hp. apply (empty_not_queued sample_ctx r p sample_qrep Hp).
  - intros r p Hp _. apply (sample_flags r p Hp).
Qed.

(** Push, raise a lower bound, queue one propagator, mark another entailed. *)
Definition demo1 := trail_push_level demo0.
Definition demo2 := snd (trail_record_lb demo1 0 4).
Definition demo3 := snd (trail_record_ub demo2 1 (-2)).
Definition demo4 := prop_enqueue demo3 10.
Definition demo5 := trail_mark_entailed demo4 20.

Example demo_changed :
  (map (fun v => (lo v, hi v)) (vars demo5), length (trail demo5), decision_level demo5) =
  ([(4, 9); (-5, -2)], 2%nat, 1).
Proof. vm_compute. reflexivity. Qed.

Lemma backtrack_restores_witness :
  map (fun v => (lo v, hi v)) (vars (trail_backtrack demo5 0)) = [(0, 9); (-5, 5)] /\
  trail (trail_backtrack demo5 0) = [] /\ qrep (trail_backtrack demo5 0) (fun _ => []).
Proof.
  assert (O : opened demo0 demo5).
  { assert (O2 : opened demo0 demo2).
    { apply (opened_op _ demo1); [apply opened_push | | reflexivity].
      apply (op_lb _ 0 4); [split; [lia | reflexivity] | vm_compute; reflexivity]. }
    assert (O3 : opened demo0 demo3).
    { apply (opened_op _ demo2); [exact O2 | | reflexivity].
      apply (op_ub _ 1 (-2)); [split; [lia | reflexivity] | vm_compute; reflexivity]. }
    assert (O4 : opened demo0 demo4).
    { apply (opened_op _ demo3); [exact O3 | | reflexivity].
      apply (op_enqueue _ 10 (mk_prop tt EXPR_NULL 0 3 0 [])). reflexivity. }
    apply (opened_op _ demo4); [exact O4 | | reflexivity].
    apply (op_mark _ 20 (mk_prop tt EXPR_NULL 1 3 0 [])); reflexivity. }
  pose proof (backtrack_restores demo0 demo0 demo5 demo_untouched (reach_start demo0)) as B.
  specialize (B eq_refl). specialize (B ltac:(intros r p Hp _; apply (sample_flags r p Hp))).
  specialize (B O). destruct B as (B1 & B2 & _ & _ & _ & B6 & _).
  change (decision_level demo0) with 0 in B1, B2, B6.
  split; [rewrite B1; reflexivity |]. split; [rewrite B2; reflexivity | exact B6].
Defined.

(** When the stack cannot serve the record, the bound has already changed: the
    call answers -1 and the backtrack cannot undo it. *)
Definition tiny0 : ctx unit Mem.mark Mem.stack :=
  fresh_ctx [mk_var 0 9 0 0 8 0] ∅ None
    (Mem.stack_create (Mem.mk_ba 16 [(16, 48)] 16 [] 0 0 [])).

Lemma record_lost :
  let d := snd (trail_record_lb (trail_push_level tiny0) 0 4) in
  fst (trail_record_lb (trail_push_level tiny0) 0 4) = -1 /\
  map lo (vars (trail_backtrack d 0)) = [4] /\ map lo (vars tiny0) = [0].
Proof. vm_compute. auto. Qed.

End Trail.
