(* ===== verification/GuardIx.v ===== *)
(** * GuardIx: the inverted guard table
    (src/src/c/dvs_propagate.c, [_guard_ix_build])

    A propagator may be gated by a guard variable; when that variable's bounds
    change, the propagators it guards must be woken.  The table lists them per
    variable, built by a counting sort over one buffer of offsets and ids.  The
    file gives the build as written and shows that each variable's slice is the
    list of the propagators it guards, in id order. *)

From Stdlib Require Import ZArith Lia ZifyBool Bool.
From stdpp Require Import base gmap list numbers.
From S2P Require Import Prelude Vars Ctx.
Import Ctx.
Open Scope Z_scope.

Module GuardIx.

(** What the context's memory and clock answer: whether the pool can grow
    ([pool.alloc] is set), whether a request of so many bytes succeeds, and
    whether the deadline has passed at a given tick. *)
Class Env := {
  growable : bool;
  gix_alloc : Z -> bool;
  past_deadline : Z -> bool }.

(** ** The four passes *)

Definition at_ (l : list Z) (i : Z) : Z := default 0 (l !! Z.to_nat i).
Definition put (l : list Z) (i x : Z) : list Z := <[Z.to_nat i := x]> l.
(** [g\[i\]] *)
Definition guard_var (g : list Z) (i : Z) : Z := default EXPR_NULL (g !! Z.to_nat i).

Definition count_guarded (g : list Z) (nv np : Z) : Z :=
  fold_left (fun n i => if guard_var g i <? nv then n + 1 else n) (seqZ 0 np) 0.
Definition count_step (g : list Z) (nv : Z) (off : list Z) (i : Z) : list Z :=
  if guard_var g i <? nv then put off (guard_var g i + 1) (at_ off (guard_var g i + 1) + 1)
  else off.
Definition prefix_step (off : list Z) (v : Z) : list Z :=
  put off (v + 1) (at_ off (v + 1) + at_ off v).
Definition place_step (g : list Z) (nv : Z) (s : list Z * list Z) (i : Z) : list Z * list Z :=
  let '(off, lst) := s in
  if guard_var g i <? nv then
    let k := at_ off (guard_var g i) in (put off (guard_var g i) (k + 1), put lst k i)
  else (off, lst).
Definition shift_step (off : list Z) (v : Z) : list Z := put off v (at_ off (v - 1)).

Definition build_ix (g : list Z) (nv np : Z) : list Z * list Z :=
  let off := replicate (Z.to_nat (nv + 1)) 0 in
  let off := fold_left (count_step g nv) (seqZ 0 np) off in
  let off := fold_left prefix_step (seqZ 0 nv) off in
  let '(off, lst) :=
    fold_left (place_step g nv) (seqZ 0 np)
      (off, replicate (Z.to_nat (count_guarded g nv np)) 0) in
  let off := fold_left (fun off k => shift_step off (nv - k)) (seqZ 0 nv) off in
  (put off 0 0, lst).

Section Build.
Context {T M S : Type} `{Env}.
Implicit Types c : ctx T M S.

(** [true]: the index is current; [false]: the caller must scan. *)
Definition guard_ix_build c (nv np : Z) : bool * ctx T M S :=
  let x := guard_ix c in
  let current :=
    match gix x with
    | Some _ => negb (gix_dirty x) && (gix_nvars x =? nv) && (gix_nprops x =? np)
    | None => false
    end in
  if current then (true, c) else
  if negb growable then (false, c) else
  let g := default [] (prop_guard_vars c) in
  let bytes := (nv + 1 + count_guarded g nv np) * 4 in
  let fill cap := (true, set_guard_ix c (mk_gix (Some (build_ix g nv np)) nv np cap false)) in
  if bytes >? gix_bytes x then
    let cap := if gix_bytes x * 2 >? bytes then gix_bytes x * 2 else bytes in
    if negb (gix_alloc cap) then (false, c) else fill cap
  else fill (gix_bytes x).

Definition guard_ix_free c : ctx T M S :=
  set_guard_ix c (mk_gix None 0 0 0 (gix_dirty (guard_ix c))).
End Build.

(** The ids [off\[v\] .. off\[v+1\]) of the list. *)
Definition slice (ix : list Z * list Z) (v : Z) : list Z :=
  map (at_ (snd ix)) (seqZ (at_ (fst ix) v) (at_ (fst ix) (v + 1) - at_ (fst ix) v)).

(** ** Arrays as functions *)

Definition repr (l : list Z) (n : Z) (f : Z -> Z) : Prop :=
  Z.of_nat (length l) = n /\ forall i, 0 <= i < n -> at_ l i = f i.

Lemma repr_replicate n x : 0 <= n -> repr (replicate (Z.to_nat n) x) n (fun _ => x).
Proof.
  intros Hn. split; [rewrite length_replicate; lia |]. intros i Hi. unfold at_.
  rewrite lookup_replicate_2 by lia. reflexivity.
Qed.

Lemma repr_put l n f i x :
  repr l n f -> 0 <= i < n -> repr (put l i x) n (fun j => if j =? i then x else f j).
Proof.
  intros [L F] Hi. unfold put. split; [rewrite length_insert; exact L |]. intros j Hj. unfold at_.
  destruct (Z.eqb_spec j i) as [-> | Ne].
  - rewrite list_lookup_insert_eq by lia. reflexivity.
  - rewrite list_lookup_insert_ne by lia. apply (F j Hj).
Qed.

Lemma repr_ext l n f f' : repr l n f -> (forall i, 0 <= i < n -> f i = f' i) -> repr l n f'.
Proof. intros [L F] E. split; [exact L |]. intros i Hi. rewrite F, E by exact Hi. reflexivity. Qed.

(** A loop over [0 .. n) keeps an invariant of the iterations done. *)
Lemma loop_inv {A} (step : A -> Z -> A) (I : Z -> A -> Prop) n a :
  0 <= n -> I 0 a -> (forall k b, 0 <= k < n -> I k b -> I (k + 1) (step b k)) ->
  I n (fold_left step (seqZ 0 n) a).
Proof.
  intros Hn I0 St. rewrite <- (Z2Nat.id n) at 1 by exact Hn.
  assert (G : forall m, (m <= Z.to_nat n)%nat -> I (Z.of_nat m) (fold_left step (seqZ 0 (Z.of_nat m)) a)).
  { induction m as [| m IH]; intros Hm; [exact I0 |].
    rewrite seqZ_S, fold_left_app, Z.add_0_l. cbn [fold_left].
    rewrite Nat2Z.inj_succ, <- Z.add_1_r. apply St; [lia | apply IH; lia]. }
  replace (seqZ 0 n) with (seqZ 0 (Z.of_nat (Z.to_nat n))) by (f_equal; lia). apply G. lia.
Qed.

(** ** What the passes compute *)

Section Passes.
Variables (g : list Z) (nv np : Z).
Hypothesis nv_pos : 0 <= nv.
Hypothesis np_pos : 0 <= np.
Hypothesis guards_pos : forall i, 0 <= guard_var g i.

(** The propagators below [k] that variable [v] guards, and how many of all are
    guarded by a variable below [v]. *)
Definition guarded (v k : Z) : list Z := filter (fun i => guard_var g i = v) (seqZ 0 k).
Definition cnt (v k : Z) : Z := Z.of_nat (length (guarded v k)).
Definition below (v k : Z) : Z := Z.of_nat (length (filter (fun i => guard_var g i < v) (seqZ 0 k))).

Lemma seqZ_one k : seqZ k 1 = [k].
Proof. rewrite seqZ_cons, seqZ_nil by lia. reflexivity. Qed.

Lemma guarded_next v k : 0 <= k ->
  guarded v (k + 1) = guarded v k ++ (if guard_var g k =? v then [k] else []).
Proof.
  intros Hk. unfold guarded. rewrite seqZ_app, list.filter_app by lia. f_equal.
  rewrite Z.add_0_l, seqZ_one, filter_cons, filter_nil.
  destruct (decide _), (Z.eqb_spec (guard_var g k) v); auto; contradiction.
Qed.

Lemma cnt_next v k : 0 <= k -> cnt v (k + 1) = cnt v k + (if guard_var g k =? v then 1 else 0).
Proof.
  intros Hk. unfold cnt. rewrite guarded_next, length_app by exact Hk.
  destruct (_ =? v); cbn [length]; lia.
Qed.

Lemma below_next v k : 0 <= k -> below v (k + 1) = below v k + (if guard_var g k <? v then 1 else 0).
Proof.
  intros Hk. unfold below. rewrite seqZ_app, list.filter_app, length_app, Nat2Z.inj_add by lia. f_equal.
  rewrite Z.add_0_l, seqZ_one, filter_cons, filter_nil.
  destruct (decide _), (Z.ltb_spec (guard_var g k) v); auto; lia.
Qed.

Lemma seqZ_ind (P : Z -> Prop) : P 0 -> (forall k, 0 <= k -> P k -> P (k + 1)) ->
  forall k, 0 <= k -> P k.
Proof. intros P0 PS k. apply natlike_ind; [exact P0 |]. intros j. rewrite <- Z.add_1_r. apply PS. Qed.

Lemma below_succ v k : 0 <= k -> below (v + 1) k = below v k + cnt v k.
Proof.
  intros Hk. pattern k. apply seqZ_ind; [reflexivity | | exact Hk]. clear k Hk. intros k Hk IH.
  rewrite !below_next, cnt_next, IH by exact Hk.
  destruct (Z.ltb_spec (guard_var g k) (v + 1)), (Z.ltb_spec (guard_var g k) v),
    (Z.eqb_spec (guard_var g k) v); lia.
Qed.

Lemma below_zero k : 0 <= k -> below 0 k = 0.
Proof.
  intros Hk. pattern k. apply seqZ_ind; [reflexivity | | exact Hk]. clear k Hk. intros k Hk IH.
  rewrite below_next, IH by exact Hk. specialize (guards_pos k).
  destruct (Z.ltb_spec (guard_var g k) 0); lia.
Qed.

Lemma cnt_nonneg v k : 0 <= cnt v k.
Proof. unfold cnt. lia. Qed.

Lemma cnt_mono v j k : 0 <= j -> j <= k -> cnt v j <= cnt v k.
Proof.
  intros Hj Hk. replace k with (j + (k - j)) by lia.
  apply (seqZ_ind (fun d => cnt v j <= cnt v (j + d))); [rewrite Z.add_0_r; lia | | lia]. intros d Hd IH.
  rewrite Z.add_assoc, cnt_next by lia. destruct (_ =? v); lia.
Qed.

Lemma below_mono u v k : 0 <= k -> u <= v -> below u k <= below v k.
Proof.
  intros Hk Huv. revert k Hk. apply (seqZ_ind (fun k => below u k <= below v k)); [reflexivity |].
  intros k Hk IH. rewrite !below_next by exact Hk.
  destruct (Z.ltb_spec (guard_var g k) u), (Z.ltb_spec (guard_var g k) v); lia.
Qed.

Lemma count_guarded_below : count_guarded g nv np = below nv np.
Proof.
  unfold count_guarded. apply (loop_inv _ (fun k n => n = below nv k)); [exact np_pos | reflexivity |].
  intros k b Hk ->. rewrite below_next by lia. destruct (_ <? nv); lia.
Qed.

Lemma count_pass :
  repr (fold_left (count_step g nv) (seqZ 0 np) (replicate (Z.to_nat (nv + 1)) 0)) (nv + 1)
    (fun j => if j =? 0 then 0 else cnt (j - 1) np).
Proof.
  apply (loop_inv _ (fun k off => repr off (nv + 1) (fun j => if j =? 0 then 0 else cnt (j - 1) k)));
    [exact np_pos | |].
  - eapply repr_ext; [apply repr_replicate; lia |]. intros i Hi. cbn. destruct (i =? 0); reflexivity.
  - intros k off Hk R. pose proof (guards_pos k) as G0. unfold count_step.
    destruct (Z.ltb_spec (guard_var g k) nv).
    + rewrite (proj2 R) by lia. eapply repr_ext; [apply repr_put; [exact R | lia] |].
      intros i Hi. cbn. rewrite cnt_next by lia.
      destruct (Z.eqb_spec i (guard_var g k + 1)) as [-> | Ne], (Z.eqb_spec (guard_var g k + 1) 0); try lia.
      * rewrite Z.add_simpl_r, Z.eqb_refl. reflexivity.
      * destruct (Z.eqb_spec i 0), (Z.eqb_spec (guard_var g k) (i - 1)); lia.
    + eapply repr_ext; [exact R |]. intros i Hi. cbn. rewrite cnt_next by lia.
      destruct (Z.eqb_spec i 0), (Z.eqb_spec (guard_var g k) (i - 1)); lia.
Qed.

Lemma prefix_pass off :
  repr off (nv + 1) (fun j => if j =? 0 then 0 else cnt (j - 1) np) ->
  repr (fold_left prefix_step (seqZ 0 nv) off) (nv + 1) (fun j => below j np).
Proof.
  intros R0.
  assert (L : repr (fold_left prefix_step (seqZ 0 nv) off) (nv + 1)
    (fun j => if j <=? nv then below j np else if j =? 0 then 0 else cnt (j - 1) np)).
  { apply (loop_inv _ (fun k off => repr off (nv + 1)
      (fun j => if j <=? k then below j np else if j =? 0 then 0 else cnt (j - 1) np))); [exact nv_pos | |].
    - eapply repr_ext; [exact R0 |]. intros i Hi. cbn.
      destruct (Z.eqb_spec i 0) as [E |], (Z.leb_spec i 0); try lia.
      rewrite E, below_zero by lia. reflexivity.
    - intros k o Hk R. unfold prefix_step. rewrite !(proj2 R) by lia.
      eapply repr_ext; [apply repr_put; [exact R | lia] |]. intros i Hi. cbn.
      destruct (Z.eqb_spec i (k + 1)) as [-> | Ne].
      + destruct (Z.leb_spec (k + 1) k); [lia |]. destruct (Z.eqb_spec (k + 1) 0); [lia |].
        rewrite !Z.leb_refl, Z.add_simpl_r, below_succ by lia. lia.
      + destruct (Z.leb_spec i k), (Z.leb_spec i (k + 1)); try lia; reflexivity. }
  eapply repr_ext; [exact L |]. intros i Hi. cbn. destruct (Z.leb_spec i nv); [reflexivity | lia].
Qed.

(** After the placement of the propagators below [k]. *)
Definition placed (k : Z) (s : list Z * list Z) : Prop :=
  repr (fst s) (nv + 1) (fun v => if v <? nv then below v np + cnt v k else below v np) /\
  Z.of_nat (length (snd s)) = below nv np /\
  forall v j i, 0 <= v < nv -> guarded v k !! j = Some i ->
    at_ (snd s) (below v np + Z.of_nat j) = i.

Lemma guarded_lt v k j i : guarded v k !! j = Some i -> Z.of_nat j < cnt v k.
Proof. intros E. apply lookup_lt_Some in E. unfold cnt. lia. Qed.

(** Slots of different variables are different. *)
Lemma slots_apart u v a b :
  0 <= u < nv -> 0 <= v < nv -> 0 <= a < cnt u np -> 0 <= b < cnt v np ->
  below u np + a = below v np + b -> u = v /\ a = b.
Proof.
  intros Hu Hv Ha Hb E. destruct (Z.lt_trichotomy u v) as [L | [-> | L]]; [exfalso | lia | exfalso].
  - pose proof (below_mono (u + 1) v np np_pos ltac:(lia)). rewrite below_succ in * by lia. lia.
  - pose proof (below_mono (v + 1) u np np_pos ltac:(lia)). rewrite below_succ in * by lia. lia.
Qed.

Lemma cnt_room v k : 0 <= k -> k < np -> 0 <= v < nv ->
  below v np + cnt v (k + 1) <= below nv np /\ cnt v (k + 1) <= cnt v np /\ 0 <= below v np.
Proof.
  intros Hk Hn Hv. pose proof (cnt_mono v (k + 1) np ltac:(lia) ltac:(lia)) as M.
  pose proof (below_mono (v + 1) nv np np_pos ltac:(lia)) as B. rewrite below_succ in B by lia.
  unfold below in *. lia.
Qed.

(** The slot written for [k] and the slots filled before. *)
Lemma place_slots k l v0 :
  0 <= k < np -> guard_var g k = v0 -> 0 <= v0 < nv -> Z.of_nat (length l) = below nv np ->
  (forall v j i, 0 <= v < nv -> guarded v k !! j = Some i ->
     at_ l (below v np + Z.of_nat j) = i) ->
  forall v j i, 0 <= v < nv -> guarded v (k + 1) !! j = Some i ->
    at_ (put l (below v0 np + cnt v0 k) k) (below v np + Z.of_nat j) = i.
Proof.
  intros Hk G0 H0 L P v j i Hv E. pose proof (guarded_lt _ _ _ _ E) as Lj.
  destruct (cnt_room v0 k) as (M0 & M1 & M2); [lia .. |].
  destruct (cnt_room v k) as (M3 & M4 & M5); [lia .. |].
  pose proof (cnt_nonneg v0 k) as Cp.
  assert (C0 : cnt v0 (k + 1) = cnt v0 k + 1) by (rewrite cnt_next, G0, Z.eqb_refl by lia; reflexivity).
  destruct (repr_put l (below nv np) (at_ l) (below v0 np + cnt v0 k) k
    (conj L (fun _ _ => eq_refl)) ltac:(lia)) as [_ ->]; [| lia].
  rewrite guarded_next, G0 in E by lia. pose proof Lj as Lk. rewrite cnt_next, G0 in Lk by lia.
  destruct (Z.eqb_spec (below v np + Z.of_nat j) (below v0 np + cnt v0 k)) as [Eq | Ne].
  - apply slots_apart in Eq as [-> Ej]; [| lia .. ]. rewrite Z.eqb_refl in E.
    rewrite lookup_app_r in E by (unfold cnt in Ej; lia).
    replace (j - length (guarded v0 k))%nat with 0%nat in E by (unfold cnt in Ej; lia).
    injection E as <-. reflexivity.
  - apply P; [exact Hv |]. revert E Lk. destruct (Z.eqb_spec v0 v) as [Ev | _]; intros E Lk.
    + rewrite <- Ev in *. rewrite lookup_app_l in E; [exact E | unfold cnt in *; lia].
    + rewrite app_nil_r in E. exact E.
Qed.

Lemma place_one k s : 0 <= k < np -> placed k s -> placed (k + 1) (place_step g nv s k).
Proof.
  destruct s as [o l]. intros Hk (R & L & P). cbn [fst snd] in *. pose proof (guards_pos k) as G0.
  unfold place_step. destruct (Z.ltb_spec (guard_var g k) nv) as [Lt | Ge].
  - rewrite (proj2 R) by lia. destruct (Z.ltb_spec (guard_var g k) nv); [| lia].
    split; [| split]; cbn [fst snd].
    + eapply repr_ext; [apply repr_put; [exact R | lia] |]. intros i Hi. cbn beta. rewrite cnt_next by lia.
      destruct (Z.eqb_spec i (guard_var g k)) as [-> | Ne].
      * destruct (Z.ltb_spec (guard_var g k) nv); [| lia]. rewrite Z.eqb_refl. lia.
      * destruct (Z.eqb_spec (guard_var g k) i); [congruence |]. destruct (_ <? _); lia.
    + unfold put. rewrite length_insert. exact L.
    + apply place_slots; auto.
  - split; [| split]; cbn [fst snd]; [| exact L |].
    + eapply repr_ext; [exact R |]. intros i Hi. cbn beta. rewrite cnt_next by lia.
      destruct (Z.ltb_spec i nv), (Z.eqb_spec (guard_var g k) i); lia.
    + intros v j i Hv E. apply P; [exact Hv |]. rewrite guarded_next in E by lia.
      destruct (Z.eqb_spec (guard_var g k) v); [lia |]. rewrite app_nil_r in E. exact E.
Qed.

Lemma place_pass off :
  repr off (nv + 1) (fun j => below j np) ->
  placed np (fold_left (place_step g nv) (seqZ 0 np)
    (off, replicate (Z.to_nat (count_guarded g nv np)) 0)).
Proof.
  intros R0. apply (loop_inv _ placed); [exact np_pos | | exact place_one].
  split; [| split]; cbn [fst snd].
  - eapply repr_ext; [exact R0 |]. intros i Hi. cbn beta.
    replace (cnt i 0) with 0 by reflexivity. destruct (_ <? _); lia.
  - rewrite length_replicate, count_guarded_below. unfold below. lia.
  - intros v j i _ E. discriminate E.
Qed.

(** The shift runs downwards, so each cell takes its neighbour's old value. *)
Lemma shift_pass off f :
  repr off (nv + 1) f ->
  repr (put (fold_left (fun off k => shift_step off (nv - k)) (seqZ 0 nv) off) 0 0) (nv + 1)
    (fun j => if j =? 0 then 0 else f (j - 1)).
Proof.
  intros R0.
  assert (L : repr (fold_left (fun off k => shift_step off (nv - k)) (seqZ 0 nv) off) (nv + 1)
    (fun j => if nv - nv <? j then f (j - 1) else f j)).
  { apply (loop_inv _ (fun k o => repr o (nv + 1) (fun j => if nv - k <? j then f (j - 1) else f j)));
      [exact nv_pos | |].
    - eapply repr_ext; [exact R0 |]. intros i Hi. cbn beta. destruct (Z.ltb_spec (nv - 0) i); [lia | reflexivity].
    - intros k o Hk R. unfold shift_step. rewrite (proj2 R) by lia.
      eapply repr_ext; [apply repr_put; [exact R | lia] |]. intros i Hi. cbn beta.
      destruct (Z.eqb_spec i (nv - k)) as [-> | Ne].
      + destruct (Z.ltb_spec (nv - (k + 1)) (nv - k)); [| lia].
        destruct (Z.ltb_spec (nv - k) (nv - k - 1)); [lia | reflexivity].
      + destruct (Z.ltb_spec (nv - k) i), (Z.ltb_spec (nv - (k + 1)) i); try lia; reflexivity. }
  eapply repr_ext; [apply repr_put; [exact L | lia] |]. intros i Hi. cbn beta.
  destruct (Z.eqb_spec i 0); [reflexivity |]. destruct (Z.ltb_spec (nv - nv) i); [reflexivity | lia].
Qed.

(** Every variable's slice lists the propagators it guards, in id order. *)
Lemma build_ix_spec v :
  0 <= v < nv ->
  at_ (fst (build_ix g nv np)) v <= at_ (fst (build_ix g nv np)) (v + 1) /\
  slice (build_ix g nv np) v = guarded v np.
Proof.
  intros Hv. unfold build_ix. pose proof (place_pass _ (prefix_pass _ count_pass)) as Pl.
  destruct (fold_left (place_step g nv) _ _) as [o l]. destruct Pl as (R & L & P). cbn [fst snd] in *.
  apply shift_pass in R. cbn beta in R. unfold slice. cbn [fst snd]. rewrite !(proj2 R) by lia.
  assert (E1 : (if v =? 0 then 0 else if v - 1 <? nv then below (v - 1) np + cnt (v - 1) np
                else below (v - 1) np) = below v np).
  { destruct (Z.eqb_spec v 0) as [-> |]; [rewrite below_zero by lia; reflexivity |].
    destruct (Z.ltb_spec (v - 1) nv); [| lia]. rewrite <- below_succ by lia. f_equal. lia. }
  assert (E2 : (if v + 1 =? 0 then 0 else if v + 1 - 1 <? nv then below (v + 1 - 1) np + cnt (v + 1 - 1) np
                else below (v + 1 - 1) np) = below v np + cnt v np).
  { destruct (Z.eqb_spec (v + 1) 0); [lia |]. rewrite Z.add_simpl_r.
    destruct (Z.ltb_spec v nv); [reflexivity | lia]. }
  rewrite E1, E2. pose proof (cnt_nonneg v np). split; [lia |].
  rewrite Z.add_simpl_l. apply list_eq. intros j. rewrite list_lookup_fmap.
  destruct (guarded v np !! j) as [i |] eqn:E.
  - pose proof (guarded_lt _ _ _ _ E). rewrite lookup_seqZ_lt by lia. cbn. f_equal. apply P; auto.
  - apply lookup_ge_None in E. rewrite lookup_seqZ_ge; [reflexivity |]. unfold cnt. lia.
Qed.
End Passes.

(** ** The index of a context *)

Section Index.
Context {T M S : Type} `{Env}.
Implicit Types c : ctx T M S.

Definition guards c : list Z := default [] (prop_guard_vars c).

(** An index that is not dirty lists what the guard table says. *)
Definition gix_lists (g : list Z) (x : guard_index) : Prop :=
  forall ix, gix x = Some ix -> gix_dirty x = false ->
  forall v, 0 <= v < gix_nvars x ->
    at_ (fst ix) v <= at_ (fst ix) (v + 1) /\ slice ix v = guarded g v (gix_nprops x).

Lemma guard_ix_build_spec c nv np :
  0 <= nv -> 0 <= np -> (forall i, 0 <= guard_var (guards c) i) ->
  gix_lists (guards c) (guard_ix c) ->
  let '(ok, c') := guard_ix_build c nv np in
  c' = set_guard_ix c (guard_ix c') /\ gix_lists (guards c) (guard_ix c') /\
  (ok = true -> gix_dirty (guard_ix c') = false /\ gix_nvars (guard_ix c') = nv /\
     gix_nprops (guard_ix c') = np /\ exists ix, gix (guard_ix c') = Some ix).
Proof.
  intros Hv Hp Hg K. unfold guard_ix_build.
  assert (Same : c = set_guard_ix c (guard_ix c)) by (destruct c; reflexivity).
  match goal with |- context [if ?b then (true, c) else _] => destruct b eqn:Cur end.
  - split; [exact Same |]. split; [exact K |]. intros _.
    destruct (gix (guard_ix c)) as [ix |]; [| discriminate].
    apply andb_true_iff in Cur as [Cur E3]. apply andb_true_iff in Cur as [E1 E2].
    apply negb_true_iff in E1. split; [exact E1 |]. split; [lia |]. split; [lia |]. eauto.
  - clear Cur. destruct growable; cbn [negb]; [| split; [exact Same | split; [exact K | discriminate]]].
    assert (New : forall cap, gix_lists (guards c)
      (mk_gix (Some (build_ix (guards c) nv np)) nv np cap false)).
    { intros cap ix [= <-] _ v Hlt. apply build_ix_spec; assumption. }
    cbv zeta. fold (guards c).
    destruct (_ >? gix_bytes (guard_ix c)).
    + destruct (gix_alloc _); cbn [negb]; [| split; [exact Same | split; [exact K | discriminate]]].
      split; [reflexivity |]. split; [apply New |]. intros _. cbn. eauto.
    + split; [reflexivity |]. split; [apply New |]. intros _. cbn. eauto.
Qed.

(** C14: The guard index lists the guards.  Building it either keeps or replaces
    it, and touches nothing else; when the build reports success, the index is
    clean, has the sizes asked for, and the slice of each variable is exactly the
    ids of the propagators it guards, in increasing order; when it is refused, an
    index that was right is still right. *)
Theorem guard_index_exact c nv np :
  0 <= nv -> 0 <= np -> (forall i, 0 <= guard_var (guards c) i) -> gix_lists (guards c) (guard_ix c) ->
  let '(ok, c') := guard_ix_build c nv np in
  c' = set_guard_ix c (guard_ix c') /\ gix_lists (guards c) (guard_ix c') /\
  (ok = true -> exists ix, gix (guard_ix c') = Some ix /\ gix_dirty (guard_ix c') = false /\
     forall v, 0 <= v < nv -> slice ix v = guarded (guards c) v np).
Proof.
  intros Hv Hp Hg K. pose proof (guard_ix_build_spec c nv np Hv Hp Hg K) as X.
  destruct (guard_ix_build c nv np) as [ok c']. destruct X as (E & L & F).
  split; [exact E |]. split; [exact L |]. intros T0. destruct (F T0) as (D & <- & <- & ix & Ix).
  exists ix. split; [exact Ix |]. split; [exact D |]. intros v Hvv. apply (L ix Ix D v Hvv).
Qed.
End Index.

(** Three variables and five propagators, of which 1 and 4 are guarded by
    variable 2 and 3 by variable 0. *)
#[local] Instance demo_env : Env := {
  growable := true; gix_alloc _ := true; past_deadline _ := false }.
Definition demo_guards : ctx unit unit unit :=
  set_prop_guard_vars (fresh_ctx [] ∅ None tt) (Some [EXPR_NULL; 2; EXPR_NULL; 0; 2]).

Lemma guard_index_exact_witness : exists ix,
  gix (guard_ix (snd (guard_ix_build demo_guards 3 5))) = Some ix /\ map (slice ix) [0; 1; 2] = [[3]; []; [1; 4]].
Proof.
  pose proof (guard_index_exact demo_guards 3 5 ltac:(lia) ltac:(lia)) as X.
  assert (P : forall i, 0 <= guard_var (guards demo_guards) i).
  { intros i. unfold guard_var, guards, demo_guards, EXPR_NULL. cbn [prop_guard_vars set_prop_guard_vars default].
    destruct (Z.to_nat i) as [| [| [| [| [| [| n]]]]]]; cbn; lia. }
  specialize (X P ltac:(discriminate)). destruct (guard_ix_build demo_guards 3 5) as [ok c'] eqn:E.
  destruct X as (_ & _ & X). cbn [snd].
  assert (Ok : ok = true) by (vm_compute in E; congruence). destruct (X Ok) as (ix & Ix & _ & Sl).
  exists ix. split; [exact Ix |]. cbn [map]. rewrite !Sl by lia. vm_compute. reflexivity.
Defined.

End GuardIx.
