(* ===== verification/Wake.v ===== *)
(** * Wake: waking the propagators of a variable
    (src/src/c/dvs_propagate.c, [_wake_var])

    When a variable's bounds change, the propagators on its watcher chain and
    the ones it guards are put on the queue.  The file gives the walk over the
    intrusive chains and the guard lookup, with the index and without it, the
    wiring the context must have for both to be complete, and the proof that
    every propagator concerned ends up queued or already entailed. *)

From Stdlib Require Import ZArith Lia ZifyBool Bool.
From stdpp Require Import base gmap list numbers.
From S2P Require Import Prelude Vars Ctx Queue GuardIx.
Import Ctx Queue GuardIx.
Open Scope Z_scope.

Module Wake.

Lemma fold_left_map {A B C} (f : A -> B) (g : C -> B -> C) (l : list A) : forall x,
  fold_left (fun y a => g y (f a)) l x = fold_left g (map f l) x.
Proof. induction l as [| a l IH]; intros x; [reflexivity | apply IH]. Qed.

Section Ops.
Context {T M S : Type} `{Env}.
Implicit Types c : ctx T M S.

(** The link of the first watch on [id]. *)
Fixpoint next_of (ws : list (Z * Z)) (id : Z) : Z :=
  match ws with
  | [] => EXPR_NULL
  | (v, next) :: ws => if v =? id then next else next_of ws id
  end.

Fixpoint wake_chain (fuel : nat) c (id ref : Z) : ctx T M S :=
  match fuel with
  | O => c
  | Datatypes.S fuel =>
      if ref =? EXPR_NULL then c else
      match pool c !! ref with
      | None => c
      | Some p => wake_chain fuel (prop_enqueue c ref) id (next_of (watches p) id)
      end
  end.

(** [if (ctx->prop_refs\[i\] != EXPR_NULL) prop_enqueue(...)] *)
Definition ref_at c (i : Z) : Z := default EXPR_NULL (default [] (prop_refs c) !! Z.to_nat i).
Definition enqueue_id c (i : Z) : ctx T M S :=
  if ref_at c i =? EXPR_NULL then c else prop_enqueue c (ref_at c i).

Definition wake_scan c (id lim : Z) : ctx T M S :=
  fold_left (fun c i => if guard_var (guards c) i =? id then enqueue_id c i else c) (seqZ 0 lim) c.
Definition wake_indexed c (id : Z) : ctx T M S :=
  if id >=? gix_nvars (guard_ix c) then c else
  match gix (guard_ix c) with
  | None => c
  | Some (off, lst) =>
      fold_left (fun c k => enqueue_id c (at_ lst k))
        (seqZ (at_ off id) (at_ off (id + 1) - at_ off id)) c
  end.

Definition id_limit c : Z :=
  if n_props c <? n_prop_refs_capacity c then n_props c else n_prop_refs_capacity c.

Definition wake_guarded c (id : Z) : ctx T M S :=
  match prop_guard_vars c, prop_refs c with
  | Some _, Some _ =>
      let lim := id_limit c in
      let '(ok, c) := guard_ix_build c (n_vars c) lim in
      if ok then wake_indexed c id else wake_scan c id lim
  | _, _ => c
  end.

Definition chain_head c (id : Z) : Z :=
  default EXPR_NULL (default [] (watcher_heads c) !! Z.to_nat id).

Definition wake_var c (id : Z) : ctx T M S :=
  wake_guarded (wake_chain (Datatypes.S (size (pool c))) c id (chain_head c id)) id.

Definition prop_set_guard c (ref guard : Z) : ctx T M S :=
  match pool c !! ref, prop_guard_vars c with
  | Some p, Some g =>
      if prop_id p <? n_prop_refs_capacity c then
        let c := set_prop_guard_vars c (Some (<[Z.to_nat (prop_id p) := guard]> g)) in
        let x := guard_ix c in
        set_guard_ix c (mk_gix (gix x) (gix_nvars x) (gix_nprops x) (gix_bytes x) true)
      else c
  | _, _ => c
  end.
End Ops.

(** ** What a run of enqueues does *)

Section Enqueues.
Context {T M S : Type} `{Env}.
Implicit Types c : ctx T M S.

Definition queued (p : propagator T) : Prop := has_flag p PROP_FLAG_IN_QUEUE = true.
Definition entailed (p : propagator T) : Prop := has_flag p PROP_FLAG_ENTAILED = true.
(** [ref] will run, or need not. *)
Definition awake c (ref : Z) : Prop :=
  forall p, pool c !! ref = Some p -> queued p \/ entailed p.

(** [c'] is [c] with more propagators queued. *)
Record more c c' : Prop := {
  mo_frame : c' = set_guard_ix (set_queue (set_pool c (pool c')) (queue c')) (guard_ix c');
  mo_core : core <$> pool c' = core <$> pool c;
  mo_queue : (exists qs, qrep c qs) -> exists qs, qrep c' qs;
  mo_mono : (exists qs, qrep c qs) -> forall r p p', pool c !! r = Some p -> pool c' !! r = Some p' ->
    queued p -> queued p';
  mo_gix : guard_ix c' = guard_ix c \/ gix_lists (guards c) (guard_ix c') }.

Lemma more_refl c : more c c.
Proof.
  constructor; auto; [destruct c; reflexivity |]. intros _ r p p' Hp Hp'. congruence.
Qed.

Lemma more_trans a b c : more a b -> more b c -> more a c.
Proof.
  intros [F1 C1 Q1 M1 G1] [F2 C2 Q2 M2 G2]. constructor.
  - rewrite F2 at 1. rewrite F1. destruct a; reflexivity.
  - congruence.
  - auto.
  - intros Q r p p'' Hp Hp'' Qp. destruct (pool b !! r) as [p' |] eqn:Hp'.
    + exact (M2 (Q1 Q) r p' p'' Hp' Hp'' (M1 Q r p p' Hp Hp' Qp)).
    + apply (f_equal (lookup r)) in C2. rewrite !lookup_fmap, Hp', Hp'' in C2. discriminate.
  - assert (E : guards b = guards a) by (unfold guards; rewrite F1; reflexivity).
    rewrite E in G2. destruct G2 as [-> | G2]; auto.
Qed.

Lemma core_lookup (m m' : gmap Z (propagator T)) r p :
  core <$> m' = core <$> m -> m !! r = Some p -> exists p', m' !! r = Some p' /\ core p' = core p.
Proof.
  intros E Hp. apply (f_equal (lookup r)) in E. rewrite !lookup_fmap, Hp in E.
  destruct (m' !! r) as [p' |]; [| discriminate]. exists p'. cbn [fmap option_fmap option_map] in E.
  split; [reflexivity | congruence].
Qed.

Lemma core_entailed (p p' : propagator T) : core p' = core p -> entailed p' <-> entailed p.
Proof. unfold core, entailed. intros [= _ _ _ _ E]. rewrite E. tauto. Qed.

Lemma core_watches (p p' : propagator T) : core p' = core p -> watches p' = watches p.
Proof. unfold core. intros [= _ _ _ E _]. exact E. Qed.

Lemma awake_more c c' r : (exists qs, qrep c qs) -> more c c' -> awake c r -> awake c' r.
Proof.
  intros Q Mo A p' Hp'.
  destruct (core_lookup (pool c') (pool c) r p' (eq_sym (mo_core _ _ Mo)) Hp') as (p & Hp & E).
  destruct (A p Hp) as [Qp | Ep].
  - left. apply (mo_mono _ _ Mo Q r p p'); assumption.
  - right. apply (core_entailed p' p); [exact E | exact Ep].
Qed.

Lemma flags_after_enqueue c qs qs' r p r' q q' :
  qrep c qs -> qrep (prop_enqueue c r) qs' -> qs' = spec_enqueue qs (priority p) r ->
  core <$> pool (prop_enqueue c r) = core <$> pool c ->
  pool c !! r' = Some q -> pool (prop_enqueue c r) !! r' = Some q' ->
  queued q \/ r' = r /\ q = p -> queued q'.
Proof.
  intros Q Q' -> Co Hq Hq' H0.
  destruct (core_lookup _ _ _ _ (eq_sym Co) Hq') as (q0 & Hq0 & E). rewrite Hq in Hq0. injection Hq0 as <-.
  assert (Pr : priority q' = priority q) by (unfold core in E; congruence).
  destruct (qr_pool _ _ Q' r' q' Hq') as [_ Pl].
  assert (In : r' ∈ spec_enqueue qs (priority p) r (priority q')).
  { unfold spec_enqueue, upd. destruct H0 as [Qq | [-> ->]].
    - pose proof (qr_flag _ _ Q r' q Hq Qq) as In. rewrite <- Pr in In.
      destruct (Z.eqb_spec (priority q') (priority p)) as [<- |]; [| exact In].
      apply elem_of_app. left. exact In.
    - rewrite Pr, Z.eqb_refl. apply elem_of_app. right. left. }
  destruct (qr_in _ _ Q' _ r' Pl In) as (q2 & E2 & _ & F). rewrite Hq' in E2. injection E2 as <-. exact F.
Qed.

Lemma enqueue_more c r : (exists qs, qrep c qs) -> more c (prop_enqueue c r) /\ awake (prop_enqueue c r) r.
Proof.
  intros [qs Q]. destruct (pool c !! r) as [p |] eqn:Hp.
  2:{ assert (E : prop_enqueue c r = c) by (unfold prop_enqueue; rewrite Hp; reflexivity).
      rewrite E. split; [apply more_refl | intros p Hp'; congruence]. }
  pose proof (enqueue_refines c qs r p Q Hp) as R. destruct (_ || _) eqn:F.
  { rewrite R. split; [apply more_refl |]. intros p' Hp'. rewrite Hp in Hp'. injection Hp' as <-.
    apply orb_true_iff in F. exact F. }
  destruct R as (Q' & Co & Fr). split.
  - constructor.
    + unfold framed in Fr. rewrite <- Fr. destruct (prop_enqueue c r); reflexivity.
    + exact Co.
    + eauto.
    + intros _ r' q q' Hq Hq' Qq. apply (flags_after_enqueue c qs _ r p r' q q' Q Q'); eauto.
    + left. unfold framed in Fr. rewrite Fr. reflexivity.
  - intros p' Hp'. left. apply (flags_after_enqueue c qs _ r p r p p' Q Q'); eauto.
Qed.

(** A loop of enqueues. *)
Lemma fold_more {A} (step : ctx T M S -> A -> ctx T M S) (l : list A) :
  (forall c a, (exists qs, qrep c qs) -> more c (step c a)) ->
  forall c, (exists qs, qrep c qs) ->
  more c (fold_left step l c) /\
  forall a r, a ∈ l ->
    (forall d, (exists qs, qrep d qs) -> more c d -> awake (step d a) r) -> awake (fold_left step l c) r.
Proof.
  intros St. induction l as [| x l IH]; intros c Q; cbn [fold_left].
  - split; [apply more_refl |]. intros a r X. inversion X.
  - pose proof (St c x Q) as M1. destruct (IH (step c x) (mo_queue _ _ M1 Q)) as [M2 A2].
    split; [eapply more_trans; eauto |]. intros a r Ha Aw. apply elem_of_cons in Ha as [-> | Ha].
    + apply (awake_more (step c x)); [apply (mo_queue _ _ M1 Q) | exact M2 |]. apply Aw; [exact Q | apply more_refl].
    + apply (A2 a r Ha). intros d Qd Md. apply Aw; [exact Qd | eapply more_trans; eauto].
Qed.

Lemma enqueue_id_more c i : (exists qs, qrep c qs) -> more c (enqueue_id c i).
Proof.
  intros Q. unfold enqueue_id. destruct (_ =? _); [apply more_refl | apply enqueue_more, Q].
Qed.

Lemma enqueue_id_awake c i r :
  (exists qs, qrep c qs) -> ref_at c i = r -> r <> EXPR_NULL -> awake (enqueue_id c i) r.
Proof.
  intros Q E Ne. unfold enqueue_id. rewrite E. destruct (Z.eqb_spec r EXPR_NULL); [contradiction |].
  apply enqueue_more, Q.
Qed.
End Enqueues.

(** ** Wiring *)

Section Wiring.
Context {T M S : Type} `{Env}.
Implicit Types c : ctx T M S.

(** The guard of a propagator, [EXPR_NULL] if it has none. *)
Definition guard_id c (p : propagator T) : Z :=
  match prop_guard_vars c with
  | Some g => if prop_id p <? n_prop_refs_capacity c then guard_var g (prop_id p) else EXPR_NULL
  | None => EXPR_NULL
  end.

Definition watched (p : propagator T) : list Z := map fst (watches p).

(** The watcher chain of [v] that starts at [first]. *)
Fixpoint chained (m : gmap Z (propagator T)) (v first : Z) (l : list Z) : Prop :=
  match l with
  | [] => first = EXPR_NULL
  | r :: l => first = r /\ r <> EXPR_NULL /\
      exists p, m !! r = Some p /\ chained m v (next_of (watches p) v) l
  end.

(** Every propagator is on the chains of the variables it watches, and the
    table of guards finds the propagators by their ids. *)
Record wired c : Prop := {
  wi_queue : exists qs, qrep c qs;
  wi_chain : forall v, 0 <= v < n_vars c -> exists l,
    chained (pool c) v (chain_head c v) l /\ NoDup l /\
    forall r p, pool c !! r = Some p -> v ∈ watched p -> r ∈ l;
  wi_heads : watcher_heads c <> None;
  wi_watch : forall r p v, pool c !! r = Some p -> v ∈ watched p -> 0 <= v < n_vars c;
  wi_pos : forall i, 0 <= guard_var (guards c) i;
  wi_guard : forall r p, pool c !! r = Some p -> guard_id c p <> EXPR_NULL ->
    0 <= guard_id c p < n_vars c /\ 0 <= prop_id p < n_props c /\ prop_refs c <> None /\
    ref_at c (prop_id p) = r /\ r <> EXPR_NULL;
  wi_gix : gix_lists (guards c) (guard_ix c);
  wi_size : n_vars c <= EXPR_NULL;
  wi_ids : 0 <= n_props c /\ 0 <= n_prop_refs_capacity c }.

(** What the wiring reads of a propagator. *)
Definition wires (p : propagator T) : list (Z * Z) * Z := (watches p, prop_id p).

Lemma chained_wires m m' v l : wires <$> m' = wires <$> m ->
  forall f, chained m v f l -> chained m' v f l.
Proof.
  intros E. induction l as [| r l IH]; intros f; cbn [chained]; [auto |].
  intros (-> & Ne & p & Hp & Ch). pose proof (f_equal (lookup r) E) as Er. rewrite !lookup_fmap, Hp in Er.
  destruct (m' !! r) as [p' |]; [| discriminate]. injection Er as Ew _.
  split; [reflexivity |]. split; [exact Ne |]. exists p'. split; [reflexivity |].
  rewrite Ew. apply IH, Ch.
Qed.

Lemma core_wires (m m' : gmap Z (propagator T)) : core <$> m' = core <$> m -> wires <$> m' = wires <$> m.
Proof.
  intros E. apply map_eq. intros r. apply (f_equal (lookup r)) in E. rewrite !lookup_fmap in *.
  destruct (m' !! r) as [p' |], (m !! r) as [p |]; try discriminate; [| reflexivity].
  injection E as _ E1 _ E2 _. cbn. unfold wires. congruence.
Qed.

Lemma chained_bound m v l : forall f, chained m v f l -> NoDup l -> (length l <= size m)%nat.
Proof.
  intros f Ch N. apply (keys_bound m l N). revert f Ch. clear N.
  induction l as [| x l IH]; intros f Ch r Hr; [inversion Hr |].
  destruct Ch as (-> & _ & p & Hp & Ch). apply elem_of_cons in Hr as [-> | Hr]; [rewrite Hp; eauto |].
  apply (IH _ Ch r Hr).
Qed.

Lemma enqueues_more (l : list Z) c : (exists qs, qrep c qs) ->
  more c (fold_left prop_enqueue l c) /\ forall r, r ∈ l -> awake (fold_left prop_enqueue l c) r.
Proof.
  intros Q. destruct (fold_more prop_enqueue l (fun c r Q => proj1 (enqueue_more c r Q)) c Q) as [M1 A].
  split; [exact M1 |]. intros r Hr. apply (A r r Hr). intros d Qd _. apply enqueue_more, Qd.
Qed.

(** The walk runs to the end of the chain. *)
Lemma wake_chain_spec id l : forall fuel c first,
  (exists qs, qrep c qs) -> chained (pool c) id first l -> (length l < fuel)%nat ->
  wake_chain fuel c id first = fold_left prop_enqueue l c.
Proof.
  induction l as [| r l IH]; intros [| fuel] c first Q Ch Hf; cbn [length] in Hf; try lia;
    cbn [wake_chain fold_left chained] in *.
  - rewrite Ch, Z.eqb_refl. reflexivity.
  - destruct Ch as (-> & Ne & p & Hp & Ch). destruct (Z.eqb_spec r EXPR_NULL); [contradiction |].
    rewrite Hp. destruct (enqueue_more c r Q) as [M1 _].
    apply IH; [apply (mo_queue _ _ M1 Q) | | lia].
    apply (chained_wires (pool c)); [apply core_wires, (mo_core _ _ M1) | exact Ch].
Qed.

Lemma enqueue_set_gix c x r : prop_enqueue (set_guard_ix c x) r = set_guard_ix (prop_enqueue c r) x.
Proof.
  unfold prop_enqueue. cbn [pool set_guard_ix]. destruct (pool c !! r) as [p |]; [| reflexivity].
  destruct (negb _); [reflexivity |].
  change (head_at (put_prop (set_guard_ix c x) r ?p') ?l) with (head_at (put_prop c r p') l).
  destruct (_ =? EXPR_NULL); [reflexivity |].
  change (tail_at (put_prop (set_guard_ix c x) r ?p') ?l) with (tail_at (put_prop c r p') l).
  unfold update_prop. cbn [pool set_guard_ix put_prop set_pool].
  destruct (_ !! _); reflexivity.
Qed.

Lemma enqueue_id_set_gix c x i : enqueue_id (set_guard_ix c x) i = set_guard_ix (enqueue_id c i) x.
Proof.
  unfold enqueue_id. change (ref_at (set_guard_ix c x) i) with (ref_at c i).
  destruct (_ =? _); [reflexivity | apply enqueue_set_gix].
Qed.

Lemma enqueue_fields c i : guards (enqueue_id c i) = guards c /\ prop_refs (enqueue_id c i) = prop_refs c.
Proof.
  unfold enqueue_id, prop_enqueue, update_prop. destruct (_ =? _); [auto |].
  destruct (pool c !! _) as [p |]; [| auto]. destruct (negb _); [auto |].
  destruct (_ =? _); [auto |]. cbn [pool put_prop set_pool]. destruct (_ !! _); auto.
Qed.

(** Scanning enqueues the guarded propagators, in id order; so does reading
    the index. *)
Lemma scan_filtered g id l : forall c, guards c = g ->
  fold_left (fun c i => if guard_var (guards c) i =? id then enqueue_id c i else c) l c =
  fold_left enqueue_id (filter (fun i => guard_var g i = id) l) c.
Proof.
  induction l as [| i l IH]; intros c E; [reflexivity |]. cbn [fold_left]. rewrite filter_cons, E.
  destruct (decide _), (Z.eqb_spec (guard_var g i) id); try contradiction; [| apply IH, E].
  cbn [fold_left]. apply IH. rewrite (proj1 (enqueue_fields c i)). exact E.
Qed.

Lemma wake_scan_list c id lim : wake_scan c id lim = fold_left enqueue_id (guarded (guards c) id lim) c.
Proof. apply scan_filtered. reflexivity. Qed.

Lemma wake_indexed_list c id :
  gix_lists (guards c) (guard_ix c) -> gix_dirty (guard_ix c) = false ->
  (exists ix, gix (guard_ix c) = Some ix) -> 0 <= id < gix_nvars (guard_ix c) ->
  wake_indexed c id = fold_left enqueue_id (guarded (guards c) id (gix_nprops (guard_ix c))) c.
Proof.
  intros L D [ix E] Hid. unfold wake_indexed. destruct (Z.geb_spec id (gix_nvars (guard_ix c))); [lia |].
  rewrite E. destruct (L ix E D id Hid) as [_ Sl]. destruct ix as [off lst].
  rewrite (fold_left_map (at_ lst) enqueue_id). unfold slice in Sl. cbn [fst snd] in Sl.
  rewrite Sl. reflexivity.
Qed.

Lemma fold_set_gix x l : forall c,
  fold_left enqueue_id l (set_guard_ix c x) = set_guard_ix (fold_left enqueue_id l c) x.
Proof.
  induction l as [| i l IH]; intros c; [reflexivity |]. cbn [fold_left].
  rewrite enqueue_id_set_gix. apply IH.
Qed.

Lemma wake_guarded_list c id :
  (forall i, 0 <= guard_var (guards c) i) -> gix_lists (guards c) (guard_ix c) ->
  0 <= n_props c -> 0 <= n_prop_refs_capacity c -> 0 <= id < n_vars c ->
  prop_guard_vars c <> None -> prop_refs c <> None ->
  exists x, (x = guard_ix c \/ gix_lists (guards c) x) /\
    wake_guarded c id =
    set_guard_ix (fold_left enqueue_id (guarded (guards c) id (id_limit c)) c) x.
Proof.
  intros Hg L Hp Hr Hid Ng Nr. unfold wake_guarded.
  destruct (prop_guard_vars c) as [g |] eqn:Eg; [| congruence].
  destruct (prop_refs c) as [refs |] eqn:Er; [| congruence]. cbv zeta.
  assert (Hl : 0 <= id_limit c) by (unfold id_limit; destruct (_ <? _); lia).
  pose proof (guard_ix_build_spec c (n_vars c) (id_limit c) ltac:(lia) Hl Hg L) as B.
  destruct (guard_ix_build c (n_vars c) (id_limit c)) as [ok c1].
  destruct B as (F & L1 & K). exists (guard_ix c1). split; [auto |].
  assert (E1 : guards c1 = guards c) by (rewrite F; reflexivity).
  rewrite <- fold_set_gix, <- F. destruct ok.
  - destruct (K eq_refl) as (D & E2 & E3 & Ix). rewrite <- E3, <- E1.
    apply wake_indexed_list; rewrite ?E1, ?E2; auto.
  - rewrite wake_scan_list, E1. reflexivity.
Qed.

(** *** The wiring survives enqueues *)

Lemma wires_back (m m' : gmap Z (propagator T)) r p' :
  wires <$> m' = wires <$> m -> m' !! r = Some p' ->
  exists p, m !! r = Some p /\ watched p = watched p' /\ prop_id p = prop_id p'.
Proof.
  intros E Hp'. apply (f_equal (lookup r)) in E. rewrite !lookup_fmap, Hp' in E.
  destruct (m !! r) as [p |]; [| discriminate]. injection E as E1 E2. exists p.
  split; [reflexivity |]. unfold watched. rewrite E1, E2. auto.
Qed.

(** The wiring depends on the tables and the propagators' watches and ids. *)
Lemma wired_frame c c' :
  wired c -> n_vars c' = n_vars c -> prop_guard_vars c' = prop_guard_vars c ->
  n_prop_refs_capacity c' = n_prop_refs_capacity c -> watcher_heads c' = watcher_heads c ->
  prop_refs c' = prop_refs c -> n_props c' = n_props c -> wires <$> pool c' = wires <$> pool c ->
  (exists qs, qrep c' qs) -> guard_ix c' = guard_ix c \/ gix_lists (guards c) (guard_ix c') ->
  wired c'.
Proof.
  intros W En E2 E3 E4 E5 E6 Ep Q Gx.
  assert (Eg : guards c' = guards c) by (unfold guards; rewrite E2; reflexivity).
  constructor.
  - exact Q.
  - intros v Hv. rewrite En in Hv. destruct (wi_chain _ W v Hv) as (l & Ch & N & In). exists l.
    unfold chain_head. rewrite E4. split; [apply (chained_wires (pool c)); assumption |].
    split; [exact N |]. intros r p' Hp' Hw. destruct (wires_back _ _ r p' Ep Hp') as (p & Hp & Ew & _).
    apply (In r p Hp). rewrite Ew. exact Hw.
  - rewrite E4. apply (wi_heads _ W).
  - intros r p' v Hp' Hw. destruct (wires_back _ _ r p' Ep Hp') as (p & Hp & Ew & _). rewrite En.
    apply (wi_watch _ W r p v Hp). rewrite Ew. exact Hw.
  - rewrite Eg. apply (wi_pos _ W).
  - intros r p' Hp' Hg. destruct (wires_back _ _ r p' Ep Hp') as (p & Hp & _ & Ei).
    assert (Gi : guard_id c' p' = guard_id c p) by (unfold guard_id; rewrite E2, E3, Ei; reflexivity).
    rewrite Gi in *. unfold ref_at. rewrite En, E5, E6, <- Ei. apply (wi_guard _ W r p Hp Hg).
  - rewrite Eg. destruct Gx as [-> | L]; [apply (wi_gix _ W) | exact L].
  - rewrite En. apply (wi_size _ W).
  - rewrite E3, E6. apply (wi_ids _ W).
Qed.

Lemma more_wired c c' : wired c -> more c c' -> wired c'.
Proof.
  intros W Mo.
  assert (E : vars c' = vars c /\ prop_guard_vars c' = prop_guard_vars c /\
    n_prop_refs_capacity c' = n_prop_refs_capacity c /\ watcher_heads c' = watcher_heads c /\
    prop_refs c' = prop_refs c /\ n_props c' = n_props c)
    by (rewrite (mo_frame _ _ Mo); cbn; auto 10).
  destruct E as (E1 & E2 & E3 & E4 & E5 & E6).
  apply (wired_frame c); auto; [unfold n_vars; rewrite E1; reflexivity | | |].
  - apply core_wires, (mo_core _ _ Mo).
  - apply (mo_queue _ _ Mo), (wi_queue _ W).
  - apply (mo_gix _ _ Mo).
Qed.

Lemma wake_guarded_more c id : wired c -> 0 <= id < n_vars c -> more c (wake_guarded c id).
Proof.
  intros W Hid. destruct (wi_ids _ W) as [Hp Hr]. destruct (prop_guard_vars c) as [g |] eqn:Eg.
  2:{ unfold wake_guarded. rewrite Eg. apply more_refl. }
  destruct (prop_refs c) as [refs |] eqn:Er.
  2:{ unfold wake_guarded. rewrite Eg, Er. apply more_refl. }
  destruct (wake_guarded_list c id (wi_pos _ W) (wi_gix _ W) Hp Hr Hid) as (x & Hx & ->); [congruence .. |].
  destruct (fold_more enqueue_id (guarded (guards c) id (id_limit c))
    (fun c i Q => enqueue_id_more c i Q) c (wi_queue _ W)) as [M1 _].
  set (d := fold_left enqueue_id _ c) in *. constructor.
  - rewrite (mo_frame _ _ M1) at 1. destruct d; reflexivity.
  - apply (mo_core _ _ M1).
  - intros Q. destruct (mo_queue _ _ M1 Q) as [qs Qd]. exists qs.
    apply (qrep_links d); [exact Qd | reflexivity | reflexivity].
  - apply (mo_mono _ _ M1).
  - destruct Hx as [-> | L]; auto.
Qed.

(** Everything that watches [id], or is guarded by it, is awake afterwards. *)
Lemma wake_var_spec c id :
  wired c -> 0 <= id < n_vars c ->
  more c (wake_var c id) /\
  forall r p, pool c !! r = Some p -> id ∈ watched p \/ guard_id c p = id -> awake (wake_var c id) r.
Proof.
  intros W Hid. destruct (wi_ids _ W) as [Hp Hr]. pose proof (wi_size _ W) as Ne. destruct (wi_chain _ W id Hid) as (l & Ch & N & In).
  pose proof (chained_bound _ _ _ _ Ch N) as Bl.
  unfold wake_var. rewrite (wake_chain_spec id l) by (first [apply (wi_queue _ W) | exact Ch | lia]).
  destruct (enqueues_more l c (wi_queue _ W)) as [M1 A1]. set (d := fold_left prop_enqueue l c) in *.
  pose proof (more_wired c d W M1) as Wd.
  assert (Ed : n_props d = n_props c /\ n_prop_refs_capacity d = n_prop_refs_capacity c /\
    n_vars d = n_vars c /\ prop_guard_vars d = prop_guard_vars c /\ prop_refs d = prop_refs c)
    by (rewrite (mo_frame _ _ M1); cbn; auto 10).
  destruct Ed as (E1 & E2 & E3 & E4 & E5).
  assert (M2 : more d (wake_guarded d id)) by (apply wake_guarded_more; congruence || lia).
  split; [eapply more_trans; eauto |]. intros r p Hrp [Hw | Hg].
  - apply (awake_more d); [apply (wi_queue _ Wd) | exact M2 |]. apply A1, (In r p Hrp Hw).
  - destruct (wi_guard _ W r p Hrp) as (_ & Ip & Nr & Rf & Rn); [lia |].
    unfold guard_id in Hg. destruct (prop_guard_vars c) as [g |] eqn:Eg; [| lia].
    destruct (Z.ltb_spec (prop_id p) (n_prop_refs_capacity c)) as [Lt |]; [| lia].
    destruct (wake_guarded_list d id (wi_pos _ Wd) (wi_gix _ Wd)) as (x & _ & ->); [lia || congruence .. |].
    destruct (fold_more enqueue_id (guarded (guards d) id (id_limit d))
      (fun c i Q => enqueue_id_more c i Q) d (wi_queue _ Wd)) as [_ A2].
    intros q Hq. apply (A2 (prop_id p) r); [| | exact Hq].
    + unfold guarded. rewrite list_elem_of_filter, elem_of_seqZ. unfold guards. rewrite E4. cbn [default].
      split; [exact Hg |]. unfold id_limit. rewrite E1, E2. destruct (_ <? _); lia.
    + intros e Qe Me. apply (enqueue_id_awake e (prop_id p) r Qe); [| exact Rn].
      unfold ref_at in *. rewrite (mo_frame _ _ Me). cbn [prop_refs set_guard_ix set_queue set_pool].
      rewrite E5. exact Rf.
Qed.

(** The guarded part enqueues the same propagators in the same order whether it
    reads the index or scans the table. *)
Lemma wake_guarded_eq c id : wired c -> 0 <= id < n_vars c ->
  exists x, (x = guard_ix c \/ gix_lists (guards c) x) /\
    wake_guarded c id = set_guard_ix (fold_left enqueue_id (guarded (guards c) id (id_limit c)) c) x.
Proof.
  intros W Hid. destruct (wi_ids _ W) as [Hp Hr]. pose proof (wi_size _ W) as Sz.
  assert (None_ : forall l, prop_guard_vars c = None \/ prop_refs c = None ->
    (prop_guard_vars c = None -> l = []) -> fold_left enqueue_id l c = c).
  { intros l [E | E] L; [rewrite (L E); reflexivity |]. clear L. induction l as [| i l IH]; [reflexivity |].
    cbn. replace (enqueue_id c i) with c; [exact IH |]. unfold enqueue_id, ref_at. rewrite E. cbn.
    rewrite lookup_nil. reflexivity. }
  assert (Nil : prop_guard_vars c = None -> guarded (guards c) id (id_limit c) = []).
  { intros E. unfold guarded, guards. rewrite E. cbn. generalize (seqZ 0 (id_limit c)). intros l.
    induction l as [| i l IH]; [reflexivity |]. rewrite filter_cons_False; [exact IH |].
    unfold guard_var. rewrite lookup_nil. cbn. unfold EXPR_NULL in *. lia. }
  destruct (prop_guard_vars c) as [g |] eqn:Eg.
  2:{ exists (guard_ix c). split; [auto |]. rewrite None_ by auto. unfold wake_guarded. rewrite Eg. destruct c; reflexivity. }
  destruct (prop_refs c) as [refs |] eqn:Er.
  2:{ exists (guard_ix c). split; [auto |]. rewrite None_ by auto. unfold wake_guarded. rewrite Eg, Er. destruct c; reflexivity. }
  destruct (wake_guarded_list c id (wi_pos _ W) (wi_gix _ W) Hp Hr Hid) as (x & Hx & E); [congruence .. |].
  exists x. auto.
Qed.

Lemma wake_var_eq c id : wired c -> 0 <= id < n_vars c ->
  exists l x, chained (pool c) id (chain_head c id) l /\ NoDup l /\
    (x = guard_ix c \/ gix_lists (guards c) x) /\
    wake_var c id = set_guard_ix
      (fold_left enqueue_id (guarded (guards c) id (id_limit c)) (fold_left prop_enqueue l c)) x.
Proof.
  intros W Hid. destruct (wi_chain _ W id Hid) as (l & Ch & N & In).
  pose proof (chained_bound _ _ _ _ Ch N) as Bl.
  assert (E : wake_var c id = wake_guarded (fold_left prop_enqueue l c) id).
  { unfold wake_var. rewrite (wake_chain_spec id l) by (first [apply (wi_queue _ W) | exact Ch | lia]). reflexivity. }
  destruct (enqueues_more l c (wi_queue _ W)) as [M1 _]. set (d := fold_left prop_enqueue l c) in *.
  assert (Ed : id_limit d = id_limit c /\ guards d = guards c /\ n_vars d = n_vars c)
    by (rewrite (mo_frame _ _ M1); cbn; auto).
  destruct Ed as (E1 & E2 & E3).
  destruct (wake_guarded_eq d id (more_wired c d W M1)) as (x & Hx & Ex); [lia |].
  exists l, x. split; [exact Ch |]. split; [exact N |].
  split; [| rewrite E, Ex, E1, E2; reflexivity].
  rewrite E2 in Hx. destruct Hx as [-> | Hx]; [apply (mo_gix _ _ M1) | auto].
Qed.

(** C10: Waking is exact.  On a wired context, [_wake_var] enqueues the watchers
    of the variable in the order of its chain and then the propagators it guards
    in id order, and changes nothing else but the index, whether the index is
    current, rebuilt or refused memory; afterwards every propagator that watches
    the variable or is guarded by it is queued or entailed. *)
Theorem wake_exact c id : wired c -> 0 <= id < n_vars c ->
  exists l x, chained (pool c) id (chain_head c id) l /\ NoDup l /\
    wake_var c id = set_guard_ix
      (fold_left enqueue_id (guarded (guards c) id (id_limit c)) (fold_left prop_enqueue l c)) x /\
    core <$> pool (wake_var c id) = core <$> pool c /\
    forall r p, pool c !! r = Some p -> id ∈ watched p \/ guard_id c p = id -> awake (wake_var c id) r.
Proof.
  intros W Hid. destruct (wake_var_eq c id W Hid) as (l & x & Ch & N & _ & E).
  destruct (wake_var_spec c id W Hid) as [Mr A].
  exists l, x. split; [exact Ch |]. split; [exact N |]. split; [exact E |]. split; [apply (mo_core _ _ Mr) | exact A].
Qed.
End Wiring.

End Wake.
