(* ===== verification/Store.v ===== *)
(** * Store: the interface between the propagator templates and the context

    A template reads bounds and calls the four [ctx_tighten_*] functions; the
    first result that is not [PROP_OK] is its own.  The file states what those
    functions promise as a class with laws, gives the combinators the templates
    are written in, and a small program logic: rules to show that a template
    loses no solution, that the entailments and conflicts it reports are real,
    and that it decides its constraint once the variables are fixed. *)

From Stdlib Require Import ZArith Lia ZifyBool Bool.
From stdpp Require Import base list numbers.
From S2P Require Import Prelude Vars Ctx.
Import Vars Ctx.
Open Scope Z_scope.

Module Store.

Class Store (C : Type) := {
  var_at : C -> Z -> variable;
  tighten_lb32 : C -> Z -> Z -> prop_result * C;
  tighten_ub32 : C -> Z -> Z -> prop_result * C;
  tighten_lb64 : C -> Z -> Z -> prop_result * C;
  tighten_ub64 : C -> Z -> Z -> prop_result * C;
  valid : C -> Z -> Prop }.

Section Domains.
Context {C : Type} `{Store C}.
Implicit Types c : C.

Definition lo_at c x : Z := lo_of (var_at c x).
Definition hi_at c x : Z := hi_of (var_at c x).
(** Every variable is one the engine can search. *)
Definition st_ok c : Prop := forall x, valid c x -> good (var_at c x).
Definition same_type (v w : variable) : Prop := flags v = flags w /\ width v = width w.

(** [c'] is [c] with the domain of [x] replaced by [l..h]. *)
Record narrowed c c' (x l h : Z) : Prop := {
  nr_ok : st_ok c';
  nr_valid : forall y, valid c' y <-> valid c y;
  nr_other : forall y, valid c y -> y <> x -> var_at c' y = var_at c y;
  nr_type : same_type (var_at c' x) (var_at c x);
  nr_lo : lo_at c' x = l;
  nr_hi : hi_at c' x = h }.

Definition raises_lb c x (n : Z) (r : prop_result * C) : Prop :=
  match r with
  | (PROP_OK, c') => n <= hi_at c x /\ narrowed c c' x (Z.max (lo_at c x) n) (hi_at c x)
  | (PROP_CONFLICT, _) => hi_at c x < n
  | (PROP_ENTAILED, _) => False
  end.
Definition lowers_ub c x (n : Z) (r : prop_result * C) : Prop :=
  match r with
  | (PROP_OK, c') => lo_at c x <= n /\ narrowed c c' x (lo_at c x) (Z.min (hi_at c x) n)
  | (PROP_CONFLICT, _) => n < lo_at c x
  | (PROP_ENTAILED, _) => False
  end.

(** [v->lo] and [v->hi], the raw fields *)
Definition vlo c x : Z := lo (var_at c x).
Definition vhi c x : Z := hi (var_at c x).

Definition tier0 c x : Prop := var_is_tier0 (flags (var_at c x)) = true.
End Domains.

(** What the four functions promise. *)
Class StoreLaws (C : Type) `{Store C} := {
  law_lb32 (c : C) x b : st_ok c -> valid c x -> tier0 c x -> int32 b ->
    raises_lb c x b (tighten_lb32 c x b);
  law_ub32 (c : C) x b : st_ok c -> valid c x -> tier0 c x -> int32 b ->
    lowers_ub c x b (tighten_ub32 c x b);
  law_lb64 (c : C) x b : st_ok c -> valid c x -> int64 b ->
    raises_lb c x (bval (var_at c x) b) (tighten_lb64 c x b);
  law_ub64 (c : C) x b : st_ok c -> valid c x -> int64 b ->
    lowers_ub c x (bval (var_at c x) b) (tighten_ub64 c x b) }.

Section Logic.
Context {C : Type} `{StoreLaws C}.
Implicit Types c : C.

(** ** Programs *)

Definition fire_t : Type := C -> prop_result * C.
Definition ret (r : prop_result) : fire_t := fun c => (r, c).
(** [if ((r = p) != PROP_OK) return r; q] *)
Definition andthen (p q : fire_t) : fire_t :=
  fun c => match p c with (PROP_OK, c') => q c' | rc => rc end.
(** Read the current bounds. *)
Definition here (k : C -> fire_t) : fire_t := fun c => k c c.
Definition lb32 (x b : Z) : fire_t := fun c => tighten_lb32 c x b.
Definition ub32 (x b : Z) : fire_t := fun c => tighten_ub32 c x b.
Definition lb64 (x b : Z) : fire_t := fun c => tighten_lb64 c x b.
Definition ub64 (x b : Z) : fire_t := fun c => tighten_ub64 c x b.

(** [c'] is reached from [c] by successful calls of the four functions, each
    within its contract. *)
Inductive steps : C -> C -> Prop :=
| steps_refl c : steps c c
| steps_lb32 c c1 c2 x b : steps c c1 -> st_ok c1 -> valid c1 x -> tier0 c1 x -> int32 b ->
    tighten_lb32 c1 x b = (PROP_OK, c2) -> steps c c2
| steps_ub32 c c1 c2 x b : steps c c1 -> st_ok c1 -> valid c1 x -> tier0 c1 x -> int32 b ->
    tighten_ub32 c1 x b = (PROP_OK, c2) -> steps c c2
| steps_lb64 c c1 c2 x b : steps c c1 -> st_ok c1 -> valid c1 x -> int64 b ->
    tighten_lb64 c1 x b = (PROP_OK, c2) -> steps c c2
| steps_ub64 c c1 c2 x b : steps c c1 -> st_ok c1 -> valid c1 x -> int64 b ->
    tighten_ub64 c1 x b = (PROP_OK, c2) -> steps c c2.

Lemma steps_trans a b c : steps a b -> steps b c -> steps a c.
Proof.
  intros S1 S2. revert S1. induction S2; intros S1; [exact S1 | | | |].
  - eapply steps_lb32; [apply IHS2, S1 | eassumption ..].
  - eapply steps_ub32; [apply IHS2, S1 | eassumption ..].
  - eapply steps_lb64; [apply IHS2, S1 | eassumption ..].
  - eapply steps_ub64; [apply IHS2, S1 | eassumption ..].
Qed.

(** One call within its contract, whatever it answers. *)
Inductive call c : prop_result -> C -> Prop :=
| call_lb32 x b r c' : st_ok c -> valid c x -> tier0 c x -> int32 b -> tighten_lb32 c x b = (r, c') -> call c r c'
| call_ub32 x b r c' : st_ok c -> valid c x -> tier0 c x -> int32 b -> tighten_ub32 c x b = (r, c') -> call c r c'
| call_lb64 x b r c' : st_ok c -> valid c x -> int64 b -> tighten_lb64 c x b = (r, c') -> call c r c'
| call_ub64 x b r c' : st_ok c -> valid c x -> int64 b -> tighten_ub64 c x b = (r, c') -> call c r c'.

Lemma call_steps c c' : call c PROP_OK c' -> steps c c'.
Proof. inversion 1; subst; eauto using steps. Qed.

(** Where a program that reports a conflict stops: after successful calls, at
    a test of its own or at a call that failed. *)
Definition halted c c' : Prop := steps c c' \/ exists c1, steps c c1 /\ call c1 PROP_CONFLICT c'.

Lemma halted_trans a b c : steps a b -> halted b c -> halted a c.
Proof.
  intros S1 [S2 | (c1 & S2 & K)]; [left | right; exists c1; split; [| exact K]]; eapply steps_trans; eauto.
Qed.

(** ** Assignments *)

Definition assignment : Type := Z -> Z.
Implicit Types s : assignment.
Definition in_dom c s : Prop := forall x, valid c x -> lo_at c x <= s x <= hi_at c x.

(** [c'] has smaller domains of the same types. *)
Record sub c' c : Prop := {
  sb_ok : st_ok c';
  sb_valid : forall x, valid c' x <-> valid c x;
  sb_type : forall x, valid c x -> same_type (var_at c' x) (var_at c x);
  sb_dom : forall x, valid c x -> lo_at c x <= lo_at c' x /\ hi_at c' x <= hi_at c x }.

Lemma sub_refl c : st_ok c -> sub c c.
Proof.
  intros K. constructor; [exact K | tauto | intros; split; reflexivity | intros; lia].
Qed.

Lemma sub_trans a b c : sub a b -> sub b c -> sub a c.
Proof.
  intros [K1 V1 T1 D1] [K2 V2 T2 D2]. constructor; [exact K1 | | |].
  - intros x. rewrite V1. apply V2.
  - intros x Hx. destruct (T1 x (proj2 (V2 x) Hx)), (T2 x Hx). split; congruence.
  - intros x Hx. specialize (D1 x (proj2 (V2 x) Hx)). specialize (D2 x Hx). lia.
Qed.

Lemma sub_tier0 c' c x : sub c' c -> valid c x -> tier0 c x -> tier0 c' x.
Proof. intros [_ _ T _] Hx. unfold tier0. destruct (T x Hx) as [-> _]. auto. Qed.

Lemma sub_bval c' c x b : sub c' c -> valid c x -> bval (var_at c' x) b = bval (var_at c x) b.
Proof.
  intros [_ _ T _] Hx. destruct (T x Hx) as [E1 E2]. unfold bval, beyond, is_signed.
  rewrite E1, E2. reflexivity.
Qed.

Lemma sub_in_dom c c' s : sub c' c -> in_dom c' s -> in_dom c s.
Proof.
  intros Sb D x Hx. specialize (D x (proj2 (sb_valid _ _ Sb x) Hx)).
  destruct (sb_dom _ _ Sb x Hx). lia.
Qed.

Lemma narrowed_sub c c' x l h :
  st_ok c -> valid c x -> narrowed c c' x l h -> lo_at c x <= l -> h <= hi_at c x -> sub c' c.
Proof.
  intros K Hx N L Hh. constructor.
  - apply (nr_ok _ _ _ _ _ N).
  - apply (nr_valid _ _ _ _ _ N).
  - intros y Hy. destruct (Z.eq_dec y x) as [-> | Ne]; [apply (nr_type _ _ _ _ _ N) |].
    rewrite (nr_other _ _ _ _ _ N y Hy Ne). split; reflexivity.
  - intros y Hy. destruct (Z.eq_dec y x) as [-> | Ne].
    + rewrite (nr_lo _ _ _ _ _ N), (nr_hi _ _ _ _ _ N). lia.
    + unfold lo_at, hi_at. rewrite (nr_other _ _ _ _ _ N y Hy Ne). lia.
Qed.

Lemma narrowed_dom c c' x l h s :
  narrowed c c' x l h -> in_dom c s -> l <= s x <= h -> in_dom c' s.
Proof.
  intros N D B y Hy. apply (nr_valid _ _ _ _ _ N) in Hy.
  destruct (Z.eq_dec y x) as [-> | Ne].
  - rewrite (nr_lo _ _ _ _ _ N), (nr_hi _ _ _ _ _ N). exact B.
  - specialize (D y Hy). unfold lo_at, hi_at in *.
    rewrite (nr_other _ _ _ _ _ N y Hy Ne). exact D.
Qed.

(** ** Soundness *)

(** From [c], the program keeps every solution of [R], reports a conflict only
    if there is none and entailment only if all assignments left satisfy [R];
    what it did was to tighten bounds. *)
Definition sound_from (R : assignment -> Prop) (p : fire_t) c : Prop :=
  let '(r, c') := p c in
  match r with
  | PROP_CONFLICT => halted c c' /\ forall s, in_dom c s -> ~ R s
  | PROP_OK => sub c' c /\ steps c c' /\ forall s, in_dom c s -> R s -> in_dom c' s
  | PROP_ENTAILED => sub c' c /\ steps c c' /\ (forall s, in_dom c s -> R s -> in_dom c' s) /\
      forall s, in_dom c' s -> R s
  end.

Lemma sound_ret R r c :
  st_ok c ->
  match r with
  | PROP_OK => True
  | PROP_CONFLICT => forall s, in_dom c s -> ~ R s
  | PROP_ENTAILED => forall s, in_dom c s -> R s
  end ->
  sound_from R (ret r) c.
Proof.
  intros K Hr. unfold sound_from, ret. pose proof (sub_refl c K). pose proof (steps_refl c).
  destruct r; auto. split; [left; assumption | exact Hr].
Qed.

Lemma sound_here R k c : sound_from R (k c) c -> sound_from R (here k) c.
Proof. auto. Qed.

(** The state after a sound step is as good a start. *)
Lemma sound_seq R p q c :
  sound_from R p c ->
  (forall c', sub c' c -> p c = (PROP_OK, c') -> sound_from R q c') ->
  sound_from R (andthen p q) c.
Proof.
  intros P Q. unfold sound_from, andthen in *. destruct (p c) as [[] c1]; [| exact P | exact P].
  destruct P as (S1 & T1 & K1). specialize (Q c1 S1 eq_refl).
  destruct (q c1) as [[] c2].
  - destruct Q as (S2 & T2 & K2). split; [eapply sub_trans; eauto |].
    split; [eapply steps_trans; eauto | auto].
  - destruct Q as [Hl Q]. split; [apply (halted_trans c c1); assumption |]. intros s D Rs. apply (Q s); auto.
  - destruct Q as (S2 & T2 & K2 & E). split; [eapply sub_trans; eauto |].
    split; [eapply steps_trans; eauto | auto].
Qed.

Lemma sound_raise R c x n p :
  st_ok c -> valid c x -> raises_lb c x n (p c) ->
  (forall r c', p c = (r, c') -> call c r c') ->
  (forall s, in_dom c s -> R s -> n <= s x) -> sound_from R p c.
Proof.
  intros K Hx Rz St Ob. unfold sound_from. destruct (p c) as [[] c']; cbn in Rz.
  - destruct Rz as [Le N]. split; [apply (narrowed_sub _ _ _ _ _ K Hx N); lia |].
    split; [apply call_steps, St; reflexivity |].
    intros s D Rs. apply (narrowed_dom _ _ _ _ _ s N D).
    specialize (Ob s D Rs). specialize (D x Hx). lia.
  - split; [right; exists c; split; [apply steps_refl | apply St; reflexivity] |].
    intros s D Rs. specialize (Ob s D Rs). specialize (D x Hx). lia.
  - contradiction.
Qed.

Lemma sound_lower R c x n p :
  st_ok c -> valid c x -> lowers_ub c x n (p c) ->
  (forall r c', p c = (r, c') -> call c r c') ->
  (forall s, in_dom c s -> R s -> s x <= n) -> sound_from R p c.
Proof.
  intros K Hx Rz St Ob. unfold sound_from. destruct (p c) as [[] c']; cbn in Rz.
  - destruct Rz as [Le N]. split; [apply (narrowed_sub _ _ _ _ _ K Hx N); lia |].
    split; [apply call_steps, St; reflexivity |].
    intros s D Rs. apply (narrowed_dom _ _ _ _ _ s N D).
    specialize (Ob s D Rs). specialize (D x Hx). lia.
  - split; [right; exists c; split; [apply steps_refl | apply St; reflexivity] |].
    intros s D Rs. specialize (Ob s D Rs). specialize (D x Hx). lia.
  - contradiction.
Qed.

Lemma sound_lb32 R c x b :
  st_ok c -> valid c x -> tier0 c x -> int32 b ->
  (forall s, in_dom c s -> R s -> b <= s x) -> sound_from R (lb32 x b) c.
Proof. intros. eapply sound_raise; eauto; [apply law_lb32; auto |].
  intros r c' E. eapply call_lb32; eauto.
Qed.
Lemma sound_ub32 R c x b :
  st_ok c -> valid c x -> tier0 c x -> int32 b ->
  (forall s, in_dom c s -> R s -> s x <= b) -> sound_from R (ub32 x b) c.
Proof. intros. eapply sound_lower; eauto; [apply law_ub32; auto |].
  intros r c' E. eapply call_ub32; eauto.
Qed.
Lemma sound_lb64 R c x b :
  st_ok c -> valid c x -> int64 b ->
  (forall s, in_dom c s -> R s -> bval (var_at c x) b <= s x) -> sound_from R (lb64 x b) c.
Proof. intros. eapply sound_raise; eauto; [apply law_lb64; auto |].
  intros r c' E. eapply call_lb64; eauto.
Qed.
Lemma sound_ub64 R c x b :
  st_ok c -> valid c x -> int64 b ->
  (forall s, in_dom c s -> R s -> s x <= bval (var_at c x) b) -> sound_from R (ub64 x b) c.
Proof. intros. eapply sound_lower; eauto; [apply law_ub64; auto |].
  intros r c' E. eapply call_ub64; eauto.
Qed.
(** A raise keeps every upper bound, a lowering every lower bound, whichever
    variables coincide. *)
Record raised c c' (x n : Z) : Prop := {
  ra_sub : sub c' c;
  ra_hi : forall y, valid c y -> hi_at c' y = hi_at c y;
  ra_lo : lo_at c' x = Z.max (lo_at c x) n;
  ra_other : forall y, valid c y -> y <> x -> lo_at c' y = lo_at c y }.
Record lowered c c' (x n : Z) : Prop := {
  lw_sub : sub c' c;
  lw_lo : forall y, valid c y -> lo_at c' y = lo_at c y;
  lw_hi : hi_at c' x = Z.min (hi_at c x) n;
  lw_other : forall y, valid c y -> y <> x -> hi_at c' y = hi_at c y }.

Lemma seq_raise R c x n p q :
  st_ok c -> valid c x -> raises_lb c x n (p c) ->
  (forall r c', p c = (r, c') -> call c r c') ->
  (forall s, in_dom c s -> R s -> n <= s x) ->
  (forall c', raised c c' x n -> sound_from R q c') -> sound_from R (andthen p q) c.
Proof.
  intros K Hx Rz St Ob Q. apply sound_seq; [apply (sound_raise R c x n p); assumption |].
  intros c' Sb E. apply Q. rewrite E in Rz. destruct Rz as [_ N].
  constructor; [exact Sb | | apply (nr_lo _ _ _ _ _ N) |]; intros y Hy.
  - destruct (Z.eq_dec y x) as [-> | Ne]; [apply (nr_hi _ _ _ _ _ N) |].
    unfold hi_at. rewrite (nr_other _ _ _ _ _ N y Hy Ne). reflexivity.
  - intros Ne. unfold lo_at. rewrite (nr_other _ _ _ _ _ N y Hy Ne). reflexivity.
Qed.

Lemma seq_lower R c x n p q :
  st_ok c -> valid c x -> lowers_ub c x n (p c) ->
  (forall r c', p c = (r, c') -> call c r c') ->
  (forall s, in_dom c s -> R s -> s x <= n) ->
  (forall c', lowered c c' x n -> sound_from R q c') -> sound_from R (andthen p q) c.
Proof.
  intros K Hx Rz St Ob Q. apply sound_seq; [apply (sound_lower R c x n p); assumption |].
  intros c' Sb E. apply Q. rewrite E in Rz. destruct Rz as [_ N].
  constructor; [exact Sb | | apply (nr_hi _ _ _ _ _ N) |]; intros y Hy.
  - destruct (Z.eq_dec y x) as [-> | Ne]; [apply (nr_lo _ _ _ _ _ N) |].
    unfold lo_at. rewrite (nr_other _ _ _ _ _ N y Hy Ne). reflexivity.
  - intros Ne. unfold hi_at. rewrite (nr_other _ _ _ _ _ N y Hy Ne). reflexivity.
Qed.

(** A bound pair applied to one variable. *)
Lemma raised_lowered c c1 c2 x n m : raised c c1 x n -> lowered c1 c2 x m -> valid c x ->
  lo_at c2 x = Z.max (lo_at c x) n /\ hi_at c2 x = Z.min (hi_at c x) m /\
  forall y, valid c y -> y <> x -> lo_at c2 y = lo_at c y /\ hi_at c2 y = hi_at c y.
Proof.
  intros S1 S2 V. pose proof (sb_valid _ _ (ra_sub _ _ _ _ S1)) as Vv.
  split; [rewrite (lw_lo _ _ _ _ S2 x), (ra_lo _ _ _ _ S1); [reflexivity | apply Vv, V] |].
  split; [rewrite (lw_hi _ _ _ _ S2), (ra_hi _ _ _ _ S1) by exact V; reflexivity |].
  intros y Vy Ne. pose proof (proj2 (Vv y) Vy) as V1.
  rewrite (lw_lo _ _ _ _ S2 y V1), (ra_other _ _ _ _ S1 y Vy Ne).
  rewrite (lw_other _ _ _ _ S2 y V1 Ne), (ra_hi _ _ _ _ S1 y Vy). auto.
Qed.

Lemma seq_lb32 R c x b q :
  st_ok c -> valid c x -> tier0 c x -> int32 b ->
  (forall s, in_dom c s -> R s -> b <= s x) ->
  (forall c', raised c c' x b -> sound_from R q c') -> sound_from R (andthen (lb32 x b) q) c.
Proof.
  intros. apply (seq_raise R c x b); auto; [apply law_lb32; auto |].
  intros r c' E. eapply call_lb32; eauto.
Qed.
Lemma seq_ub32 R c x b q :
  st_ok c -> valid c x -> tier0 c x -> int32 b ->
  (forall s, in_dom c s -> R s -> s x <= b) ->
  (forall c', lowered c c' x b -> sound_from R q c') -> sound_from R (andthen (ub32 x b) q) c.
Proof.
  intros. apply (seq_lower R c x b); auto; [apply law_ub32; auto |].
  intros r c' E. eapply call_ub32; eauto.
Qed.
Lemma seq_lb64 R c x b q :
  st_ok c -> valid c x -> int64 b ->
  (forall s, in_dom c s -> R s -> bval (var_at c x) b <= s x) ->
  (forall c', raised c c' x (bval (var_at c x) b) -> sound_from R q c') ->
  sound_from R (andthen (lb64 x b) q) c.
Proof.
  intros. eapply seq_raise; eauto; [apply law_lb64; auto |].
  intros r c' E. eapply call_lb64; eauto.
Qed.
Lemma seq_ub64 R c x b q :
  st_ok c -> valid c x -> int64 b ->
  (forall s, in_dom c s -> R s -> s x <= bval (var_at c x) b) ->
  (forall c', lowered c c' x (bval (var_at c x) b) -> sound_from R q c') ->
  sound_from R (andthen (ub64 x b) q) c.
Proof.
  intros. eapply seq_lower; eauto; [apply law_ub64; auto |].
  intros r c' E. eapply call_ub64; eauto.
Qed.

(** Statements that are blocks, skips or early returns. *)
Lemma sound_assoc R p q r c :
  sound_from R (andthen p (andthen q r)) c -> sound_from R (andthen (andthen p q) r) c.
Proof. unfold sound_from, andthen. destruct (p c) as [[] c1]; auto. Qed.
Lemma sound_skip R q c : sound_from R q c -> sound_from R (andthen (ret PROP_OK) q) c.
Proof. auto. Qed.
Lemma sound_early R q c :
  sound_from R (ret PROP_CONFLICT) c -> sound_from R (andthen (ret PROP_CONFLICT) q) c.
Proof. auto. Qed.
Lemma sound_seq_here R k q c :
  sound_from R (andthen (k c) q) c -> sound_from R (andthen (here k) q) c.
Proof. auto. Qed.

(** A statement that returns from the state it was given. *)
Lemma sound_pass R p q c :
  p c = (PROP_OK, c) -> sound_from R q c -> sound_from R (andthen p q) c.
Proof. unfold sound_from, andthen. intros ->. auto. Qed.
Lemma sound_fail R p q c :
  p c = (PROP_CONFLICT, c) -> (forall s, in_dom c s -> ~ R s) -> sound_from R (andthen p q) c.
Proof. unfold sound_from, andthen. intros ->. split; [left; apply steps_refl | assumption]. Qed.

(** ** Raw fields of tier-0 variables *)

Lemma tier0_lo c x : st_ok c -> valid c x -> tier0 c x -> vlo c x = lo_at c x.
Proof. intros K Hx T. symmetry. apply (good_tier0 _ (K x Hx) T). Qed.
Lemma tier0_hi c x : st_ok c -> valid c x -> tier0 c x -> vhi c x = hi_at c x.
Proof. intros K Hx T. symmetry. apply (good_tier0 _ (K x Hx) T). Qed.
Lemma tier0_bounds c x : st_ok c -> valid c x -> tier0 c x ->
  - 2 ^ 31 <= lo_at c x /\ lo_at c x <= hi_at c x /\ hi_at c x < 2 ^ 31.
Proof.
  intros K Hx T. pose proof (gd_ne _ (K x Hx)). destruct (good_tier0 _ (K x Hx) T) as (E1 & E2 & I1 & I2 & _).
  unfold lo_at, hi_at in *. unfold int32 in *. lia.
Qed.
Lemma dom_int32 c x s : st_ok c -> valid c x -> tier0 c x -> in_dom c s -> int32 (s x).
Proof.
  intros K Hx T D. pose proof (tier0_bounds c x K Hx T). specialize (D x Hx). unfold int32. lia.
Qed.
(** The representable range of a tier-0 variable, as numbers. *)
Definition vmin_at c x : Z := vmin (var_at c x).
Definition vmax_at c x : Z := vmax (var_at c x).

Lemma bval_narrow v b : width v <= 32 -> bval v b = b.
Proof.
  intros W. unfold bval, beyond. destruct (Z.leb_spec 64 (width v)); [lia |].
  rewrite andb_false_r. reflexivity.
Qed.

Lemma bval_pos v b : 0 <= b < 2 ^ 64 -> bval v b = b.
Proof. intros Hb. unfold bval, u64. destruct (beyond v); [apply Z.mod_small, Hb | reflexivity]. Qed.

Lemma tier0_repr c x : st_ok c -> valid c x -> tier0 c x ->
  var_repr_min (var_at c x) = vmin_at c x /\ var_repr_max (var_at c x) = vmax_at c x /\
  vmin_at c x <= lo_at c x /\ hi_at c x <= vmax_at c x /\ - 2 ^ 31 <= vmin_at c x.
Proof.
  intros K Hx T. pose proof (K x Hx) as G. destruct (good_tier0 _ G T) as (_ & _ & _ & _ & W).
  pose proof (gd_width _ G) as W1.
  pose proof (repr_min_spec _ W1) as E1. pose proof (repr_max_spec _ W1) as E2.
  rewrite bval_narrow in E1, E2 by exact W. unfold vmin_at, vmax_at.
  split; [exact E1 |]. split; [exact E2 |]. split; [apply (gd_lo _ G) |].
  split; [apply (gd_hi _ G) |]. unfold vmin. destruct (is_signed _); [| lia].
  pose proof (Z.pow_le_mono_r 2 (width (var_at c x) - 1) 31). lia.
Qed.

Lemma sub_vmax c' c x : sub c' c -> valid c x ->
  vmin_at c' x = vmin_at c x /\ vmax_at c' x = vmax_at c x.
Proof.
  intros Sb Hx. destruct (sb_type _ _ Sb x Hx) as [E1 E2].
  unfold vmin_at, vmax_at, vmin, vmax, is_signed. rewrite E1, E2. auto.
Qed.

Lemma dom_ne c x : st_ok c -> valid c x -> lo_at c x <= hi_at c x.
Proof. intros K Hx. apply (gd_ne _ (K x Hx)). Qed.

(** A 64-bit pattern of a good variable's own bound denotes the bound. *)
Lemma bval_lo c x : bval (var_at c x) (var_lo64 (var_at c x)) = lo_at c x.
Proof. reflexivity. Qed.
Lemma bval_hi c x : bval (var_at c x) (var_hi64 (var_at c x)) = hi_at c x.
Proof. reflexivity. Qed.

Lemma int64_lo c x : st_ok c -> valid c x -> int64 (var_lo64 (var_at c x)).
Proof.
  intros K Hx. unfold var_lo64. destruct (gd_tier _ (K x Hx)) as [(T & _ & I & _) | (T & _ & _ & I & _)].
  - rewrite T. unfold int64, int32, u32 in *. pose proof (Z.mod_pos_bound (lo (var_at c x)) (2 ^ 32)).
    destruct (is_signed _); lia.
  - rewrite T. exact I.
Qed.
Lemma int64_hi c x : st_ok c -> valid c x -> int64 (var_hi64 (var_at c x)).
Proof.
  intros K Hx. unfold var_hi64. destruct (gd_tier _ (K x Hx)) as [(T & _ & _ & I & _) | (T & _ & _ & _ & I)].
  - rewrite T. unfold int64, int32, u32 in *. pose proof (Z.mod_pos_bound (hi (var_at c x)) (2 ^ 32)).
    destruct (is_signed _); lia.
  - rewrite T. exact I.
Qed.

(** ** Deciding at fixed variables *)

Definition fixed c x : Prop := lo_at c x = hi_at c x.

Record same_dom c' c : Prop := {
  sd_ok : st_ok c';
  sd_valid : forall x, valid c' x <-> valid c x;
  sd_type : forall x, valid c x -> same_type (var_at c' x) (var_at c x);
  sd_lo : forall x, valid c x -> lo_at c' x = lo_at c x;
  sd_hi : forall x, valid c x -> hi_at c' x = hi_at c x }.

Lemma same_dom_sub c' c : same_dom c' c -> sub c' c.
Proof.
  intros [K V T L Hh]. constructor; auto. intros x Hx. rewrite L, Hh by exact Hx. lia.
Qed.

(** If the program does not fail at [c], then [F]. *)
Definition decided (F : Prop) (p : fire_t) c : Prop := fst (p c) <> PROP_CONFLICT -> F.

Definition fixed_step (p : fire_t) c (P : Prop) : Prop :=
  match p c with
  | (PROP_OK, c') => P /\ same_dom c' c
  | (PROP_CONFLICT, _) => True
  | (PROP_ENTAILED, _) => False
  end.

Lemma dec_step F p q c P :
  fixed_step p c P -> (forall c', same_dom c' c -> P -> decided F q c') ->
  decided F (andthen p q) c.
Proof.
  unfold fixed_step, decided, andthen. intros Sp Q. destruct (p c) as [[] c1]; cbn [fst].
  - destruct Sp as [HP Sd]. apply (Q c1 Sd HP).
  - congruence.
  - contradiction.
Qed.

Lemma dec_last F p c P : fixed_step p c P -> (P -> F) -> decided F p c.
Proof.
  unfold fixed_step, decided. intros Sp Q. destruct (p c) as [[] c1]; cbn [fst]; [tauto | congruence |].
  contradiction.
Qed.

Lemma dec_assoc F p q r c :
  decided F (andthen p (andthen q r)) c -> decided F (andthen (andthen p q) r) c.
Proof. unfold decided, andthen. destruct (p c) as [[] c1]; auto. Qed.
Lemma dec_skip F q c : decided F q c -> decided F (andthen (ret PROP_OK) q) c.
Proof. auto. Qed.
Lemma dec_early F q c : decided F (andthen (ret PROP_CONFLICT) q) c.
Proof. unfold decided, andthen, ret. cbn. congruence. Qed.
Lemma dec_seq_here F k q c : decided F (andthen (k c) q) c -> decided F (andthen (here k) q) c.
Proof. auto. Qed.

Lemma dec_pass F p q c : p c = (PROP_OK, c) -> decided F q c -> decided F (andthen p q) c.
Proof. unfold decided, andthen. intros ->. auto. Qed.
Lemma dec_fail F p q c : p c = (PROP_CONFLICT, c) -> decided F (andthen p q) c.
Proof. unfold decided, andthen. intros ->. cbn. congruence. Qed.

Lemma dec_ret (F : Prop) r c : (r <> PROP_CONFLICT -> F) -> decided F (ret r) c.
Proof. auto. Qed.

Lemma dec_true (F : Prop) p c : F -> decided F p c.
Proof. intros HF _. exact HF. Qed.

Lemma narrowed_same c c' x :
  valid c x -> narrowed c c' x (lo_at c x) (hi_at c x) -> same_dom c' c.
Proof.
  intros Hx N. constructor.
  - apply (nr_ok _ _ _ _ _ N).
  - apply (nr_valid _ _ _ _ _ N).
  - intros y Hy. destruct (Z.eq_dec y x) as [-> | Ne]; [apply (nr_type _ _ _ _ _ N) |].
    rewrite (nr_other _ _ _ _ _ N y Hy Ne). split; reflexivity.
  - intros y Hy. destruct (Z.eq_dec y x) as [-> | Ne]; [apply (nr_lo _ _ _ _ _ N) |].
    unfold lo_at. rewrite (nr_other _ _ _ _ _ N y Hy Ne). reflexivity.
  - intros y Hy. destruct (Z.eq_dec y x) as [-> | Ne]; [apply (nr_hi _ _ _ _ _ N) |].
    unfold hi_at. rewrite (nr_other _ _ _ _ _ N y Hy Ne). reflexivity.
Qed.

Lemma same_trans a b c : same_dom a b -> same_dom b c -> same_dom a c.
Proof.
  intros [K1 V1 T1 L1 H1] [K2 V2 T2 L2 H2]. constructor; [exact K1 | | | |]; intros x.
  - rewrite V1. apply V2.
  - intros Hx. destruct (T1 x (proj2 (V2 x) Hx)), (T2 x Hx). split; congruence.
  - intros Hx. rewrite L1 by (apply V2, Hx). apply L2, Hx.
  - intros Hx. rewrite H1 by (apply V2, Hx). apply H2, Hx.
Qed.
Lemma same_refl c : st_ok c -> same_dom c c.
Proof. intros K. constructor; auto. intros; split; reflexivity. Qed.
Lemma fixed_ret c P : st_ok c -> P -> fixed_step (ret PROP_OK) c P.
Proof. intros K HP. split; [exact HP | apply same_refl, K]. Qed.
Lemma fixed_stop c P : fixed_step (ret PROP_CONFLICT) c P.
Proof. exact I. Qed.
Lemma fixed_weaken p c (P Q : Prop) : fixed_step p c P -> (P -> Q) -> fixed_step p c Q.
Proof. unfold fixed_step. destruct (p c) as [[] c1]; tauto. Qed.

Lemma fixed_seq_here k q c Q : fixed_step (andthen (k c) q) c Q -> fixed_step (andthen (here k) q) c Q.
Proof. auto. Qed.
Lemma fixed_assoc p q r c Q :
  fixed_step (andthen p (andthen q r)) c Q -> fixed_step (andthen (andthen p q) r) c Q.
Proof. unfold fixed_step, andthen. destruct (p c) as [[] c1]; auto. Qed.
Lemma fixed_skip q c Q : fixed_step q c Q -> fixed_step (andthen (ret PROP_OK) q) c Q.
Proof. auto. Qed.

Lemma fixed_seq p q c P Q :
  fixed_step p c P -> (forall c', same_dom c' c -> P -> fixed_step q c' Q) ->
  fixed_step (andthen p q) c Q.
Proof.
  unfold fixed_step, andthen. intros Sp Sq. destruct (p c) as [[] c1]; [| exact I | contradiction].
  destruct Sp as [HP Sd]. specialize (Sq c1 Sd HP). destruct (q c1) as [[] c2]; auto.
  destruct Sq as [HQ Sd2]. split; [exact HQ | eapply same_trans; eauto].
Qed.

Lemma fixed_raise p c x n :
  valid c x -> fixed c x -> raises_lb c x n (p c) -> fixed_step p c (n <= lo_at c x).
Proof.
  unfold fixed_step, fixed. intros Hx Fx R. destruct (p c) as [[] c']; cbn in R; auto.
  destruct R as [Le N]. split; [lia |]. rewrite Z.max_l in N by lia.
  apply (narrowed_same c c' x Hx N).
Qed.

Lemma fixed_lower p c x n :
  valid c x -> fixed c x -> lowers_ub c x n (p c) -> fixed_step p c (lo_at c x <= n).
Proof.
  unfold fixed_step, fixed. intros Hx Fx R. destruct (p c) as [[] c']; cbn in R; auto.
  destruct R as [Le N]. split; [lia |]. rewrite Z.min_l in N by lia.
  apply (narrowed_same c c' x Hx N).
Qed.

Lemma fixed_lb32 c x b : st_ok c -> valid c x -> tier0 c x -> int32 b -> fixed c x ->
  fixed_step (lb32 x b) c (b <= lo_at c x).
Proof. intros. apply fixed_raise; auto. apply law_lb32; auto. Qed.
Lemma fixed_ub32 c x b : st_ok c -> valid c x -> tier0 c x -> int32 b -> fixed c x ->
  fixed_step (ub32 x b) c (lo_at c x <= b).
Proof. intros. apply fixed_lower; auto. apply law_ub32; auto. Qed.
Lemma fixed_lb64 c x b : st_ok c -> valid c x -> int64 b -> fixed c x ->
  fixed_step (lb64 x b) c (bval (var_at c x) b <= lo_at c x).
Proof. intros. apply fixed_raise; auto. apply law_lb64; auto. Qed.
Lemma fixed_ub64 c x b : st_ok c -> valid c x -> int64 b -> fixed c x ->
  fixed_step (ub64 x b) c (lo_at c x <= bval (var_at c x) b).
Proof. intros. apply fixed_lower; auto. apply law_ub64; auto. Qed.
End Logic.

Notation "p >>? q" := (andthen p q) (at level 60, right associativity).

(** ** Automation for 32-bit templates *)

Fixpoint all_ids (P : Z -> Prop) (ids : list Z) : Prop :=
  match ids with [] => True | x :: ids => P x /\ all_ids P ids end.

Section Wf.
Context {C : Type} `{StoreLaws C}.
Implicit Types c : C.

(** The template's variables exist (and are tier 0). *)
Definition wf32 c (ids : list Z) : Prop :=
  st_ok c /\ all_ids (fun x => valid c x /\ tier0 c x) ids.
Definition wf64 c (ids : list Z) : Prop := st_ok c /\ all_ids (fun x => valid c x) ids.

Lemma all_ids_mono (P Q : Z -> Prop) ids :
  (forall x, P x -> Q x) -> all_ids P ids -> all_ids Q ids.
Proof. intros PQ. induction ids; cbn; [auto |]. intros [? ?]. auto. Qed.

Lemma wf32_sub c c' ids : wf32 c ids -> sub c' c -> wf32 c' ids.
Proof.
  intros [K W] Sb. split; [apply (sb_ok _ _ Sb) |]. revert W. apply all_ids_mono.
  intros x [V T]. split; [apply (sb_valid _ _ Sb), V | apply (sub_tier0 c' c); assumption].
Qed.

Lemma wf64_sub c c' ids : wf64 c ids -> sub c' c -> wf64 c' ids.
Proof.
  intros [K W] Sb. split; [apply (sb_ok _ _ Sb) |]. revert W. apply all_ids_mono.
  intros x V. apply (sb_valid _ _ Sb), V.
Qed.

(** A template variable's value fits and lies between the raw fields. *)
Lemma raw_dom c ids s x : wf32 c ids -> In x ids -> in_dom c s ->
  int32 (s x) /\ vlo c x <= s x <= vhi c x.
Proof.
  intros [K W] Hx D.
  assert (V : valid c x /\ tier0 c x).
  { induction ids as [| y ids IH]; [destruct Hx |]. cbn in W, Hx.
    destruct Hx as [<- | Hx]; tauto. }
  destruct V as [V T]. split; [apply (dom_int32 c x s K V T D) |].
  rewrite (tier0_lo c x K V T), (tier0_hi c x K V T). apply (D x V).
Qed.

(** The template [p] implements the constraint [R] on [ids]: sound everywhere,
    and it fails on fixed variables that break [R]. *)
Definition implements (wf : C -> list Z -> Prop) (ids : list Z) (R : assignment -> Prop)
    (p : fire_t) : Prop :=
  forall c, wf c ids -> sound_from R p c /\
    (all_ids (fixed c) ids -> decided (forall s, in_dom c s -> R s) p c).

Lemma dec_here F k c : decided F (k c) c -> decided F (here k) c.
Proof. auto. Qed.

Lemma fixed_here k c P : fixed_step (k c) c P -> fixed_step (here k) c P.
Proof. auto. Qed.

Lemma fixed32_same c c' ids :
  wf32 c ids -> same_dom c' c -> all_ids (fixed c) ids -> all_ids (fixed c') ids.
Proof.
  intros [_ W] Sd. induction ids as [| x ids IH]; cbn; [auto |]. cbn in W.
  destruct W as [[V _] W]. intros [F Fs]. split; [| auto]. unfold fixed in *.
  rewrite (sd_lo _ _ Sd x V), (sd_hi _ _ Sd x V). exact F.
Qed.

(** The same for the states a side condition holds of. *)
Definition implements_on (pre : C -> Prop) (wf : C -> list Z -> Prop) (ids : list Z)
    (R : assignment -> Prop) (p : fire_t) : Prop :=
  forall c, wf c ids -> pre c -> sound_from R p c /\
    (all_ids (fixed c) ids -> decided (forall s, in_dom c s -> R s) p c).

(** A guard: a 0/1 variable. *)
Definition guard_at (g : Z) c : Prop := 0 <= lo_at c g /\ hi_at c g <= 1.

Lemma same_fixed c c' x : same_dom c' c -> valid c x -> fixed c x -> fixed c' x.
Proof. unfold fixed. intros Sd V F. rewrite (sd_lo _ _ Sd x V), (sd_hi _ _ Sd x V). exact F. Qed.

(** Blocks in sequence: each is sound from every state of the right shape. *)
Lemma sound_blocks R ids p q c :
  wf32 c ids -> sound_from R p c ->
  (forall c', wf32 c' ids -> sub c' c -> sound_from R q c') -> sound_from R (andthen p q) c.
Proof.
  intros W P Q. apply sound_seq; [exact P |]. intros c' Sb _. apply Q; [| exact Sb].
  apply (wf32_sub _ _ _ W Sb).
Qed.
Lemma guard_sub g ids c c' : wf32 c ids -> In g ids -> sub c' c -> guard_at g c -> guard_at g c'.
Proof.
  intros [K W] Hg Sb [G1 G2]. assert (V : valid c g).
  { clear -W Hg. induction ids as [| y ids IH]; [destruct Hg |]. cbn in W, Hg.
    destruct Hg as [<- | Hg]; tauto. }
  pose proof (sb_dom _ _ Sb g V). split; lia.
Qed.

(** A guard that is off stays off. *)
Lemma guard_off g ids c c' : wf32 c ids -> In g ids -> sub c' c -> 0 <= lo_at c g ->
  (vhi c g =? 0) = true -> (vhi c' g =? 0) = true.
Proof.
  intros W Hg Sb L E. pose proof (wf32_sub _ _ _ W Sb) as [K' W']. destruct W as [K W].
  assert (V : valid c g /\ tier0 c g).
  { clear -W Hg. induction ids as [| y ids IH]; [destruct Hg |]. cbn in W, Hg.
    destruct Hg as [<- | Hg]; tauto. }
  destruct V as [V T]. pose proof (sb_dom _ _ Sb g V) as [D1 D2].
  pose proof (proj2 (sb_valid _ _ Sb g) V) as V'.
  rewrite tier0_hi in E |- * by eauto using sub_tier0. pose proof (dom_ne c' g K' V'). lia.
Qed.

End Wf.

(** Facts about the tier-0 variables of the current state. *)
Ltac known_var c x :=
  lazymatch goal with
  | _ : - 2 ^ 31 <= lo_at c x /\ _ |- _ => fail
  | K : st_ok c, V : valid c x, T : tier0 c x |- _ => pose proof (tier0_bounds c x K V T)
  end.
Ltac open_wf W :=
  let K := fresh "K" in
  destruct W as [K W]; cbn [all_ids] in W;
  destruct_and? W;
  repeat match goal with
  | V : valid ?c ?x, T : tier0 ?c ?x |- _ => known_var c x
  end.
(** Rewriting a template file may add. *)
Ltac template_norm := idtac.
Ltac repr_facts :=
  repeat match goal with
  | K : st_ok ?c, V : valid ?c ?x, T : tier0 ?c ?x |- context [var_repr_min (var_at ?c ?x)] =>
      destruct (tier0_repr c x K V T) as (-> & _ & ? & _ & ?)
  | K : st_ok ?c, V : valid ?c ?x, T : tier0 ?c ?x |- context [var_repr_max (var_at ?c ?x)] =>
      destruct (tier0_repr c x K V T) as (_ & -> & _ & ? & _)
  | K : st_ok ?c, V : valid ?c ?x, T : tier0 ?c ?x, E : context [var_repr_min (var_at ?c ?x)] |- _ =>
      let R := fresh in destruct (tier0_repr c x K V T) as (R & _ & ? & _ & ?); rewrite R in E; clear R
  | K : st_ok ?c, V : valid ?c ?x, T : tier0 ?c ?x, E : context [var_repr_max (var_at ?c ?x)] |- _ =>
      let R := fresh in destruct (tier0_repr c x K V T) as (_ & R & _ & ? & _); rewrite R in E; clear R
  end.
(** The representable range does not change along a run. *)
Ltac vmax_facts :=
  repeat match goal with
  | S : raised ?c ?c' _ _, V : valid ?c ?x, _ : context [vmax_at ?c' ?x] |- _ =>
      lazymatch goal with
      | _ : vmax_at c' x = vmax_at c x |- _ => fail
      | |- _ => destruct (sub_vmax c' c x (ra_sub _ _ _ _ S) V)
      end
  | S : lowered ?c ?c' _ _, V : valid ?c ?x, _ : context [vmax_at ?c' ?x] |- _ =>
      lazymatch goal with
      | _ : vmax_at c' x = vmax_at c x |- _ => fail
      | |- _ => destruct (sub_vmax c' c x (lw_sub _ _ _ _ S) V)
      end
  | S : same_dom ?c' ?c, V : valid ?c ?x, _ : context [vmax_at ?c' ?x] |- _ =>
      lazymatch goal with
      | _ : vmax_at c' x = vmax_at c x |- _ => fail
      | |- _ => destruct (sub_vmax c' c x (same_dom_sub _ _ S) V)
      end
  end.
Ltac raws :=
  template_norm;
  repeat rewrite tier0_lo by assumption; repeat rewrite tier0_hi by assumption;
  repeat match goal with
  | E : context [vlo ?c ?x] |- _ => rewrite (tier0_lo c x) in E by assumption
  | E : context [vhi ?c ?x] |- _ => rewrite (tier0_hi c x) in E by assumption
  end.
(** How the domains of a later state lie in an earlier one's. *)
Ltac sub_facts :=
  repeat match goal with
  | S : raised ?c ?c' ?x ?n |- _ =>
      lazymatch goal with
      | _ : lo_at c' x = Z.max (lo_at c x) n |- _ => fail
      | |- _ => pose proof (ra_lo _ _ _ _ S)
      end
  | S : lowered ?c ?c' ?x ?n |- _ =>
      lazymatch goal with
      | _ : hi_at c' x = Z.min (hi_at c x) n |- _ => fail
      | |- _ => pose proof (lw_hi _ _ _ _ S)
      end
  | S : raised ?c ?c' _ _, V : valid ?c ?y |- _ =>
      lazymatch goal with
      | _ : hi_at c' y = hi_at c y |- _ => fail
      | |- _ => pose proof (ra_hi _ _ _ _ S y V); pose proof (sb_dom _ _ (ra_sub _ _ _ _ S) y V)
      end
  | S : lowered ?c ?c' _ _, V : valid ?c ?y |- _ =>
      lazymatch goal with
      | _ : lo_at c' y = lo_at c y |- _ => fail
      | |- _ => pose proof (lw_lo _ _ _ _ S y V); pose proof (sb_dom _ _ (lw_sub _ _ _ _ S) y V)
      end
  | S : raised ?c ?c' ?x _, V : valid ?c ?y, N : ?u <> ?v |- _ =>
      first [constr_eq u x; constr_eq v y | constr_eq u y; constr_eq v x];
      lazymatch goal with
      | _ : lo_at c' y = lo_at c y |- _ => fail
      | |- _ => pose proof (ra_other _ _ _ _ S y V ltac:(congruence))
      end
  | S : lowered ?c ?c' ?x _, V : valid ?c ?y, N : ?u <> ?v |- _ =>
      first [constr_eq u x; constr_eq v y | constr_eq u y; constr_eq v x];
      lazymatch goal with
      | _ : hi_at c' y = hi_at c y |- _ => fail
      | |- _ => pose proof (lw_other _ _ _ _ S y V ltac:(congruence))
      end
  end.
Ltac int_side := unfold int32, INT32_MIN, INT32_MAX in *; lia.
Tactic Notation "no_wrap" := repeat (rewrite s32_small by int_side).
Ltac no_wrap_in_hyps :=
  repeat match goal with E : context [s32 ?e] |- _ => rewrite (s32_small e) in E by int_side end.

(** Every statement of the current branch, as linear arithmetic. *)
Ltac open_all :=
  repeat match goal with W : wf32 _ _ |- _ => open_wf W end; sub_facts; repr_facts; vmax_facts; raws;
  unfold INT32_MIN, INT32_MAX in *; no_wrap_in_hyps.

(** The bounds every assignment in the domain respects. *)
Ltac use_dom D :=
  repeat match type of D with
  | in_dom ?c ?s =>
      match goal with
      | V : valid c ?x |- _ =>
          lazymatch goal with
          | _ : lo_at c x <= s x <= hi_at c x |- _ => fail
          | |- _ => pose proof (D x V)
          end
      end
  end.


(** Soundness, statement by statement; [W] is the well-formedness of the
    current state.  Obligations that linear arithmetic closes are closed. *)
Ltac sound_arith :=
  open_all; no_wrap;
  try (let s := fresh "s" in let D := fresh "D" in let R := fresh "R" in
       intros s D; use_dom D; first [lia | intros R; lia]).
Ltac var_side := first [assumption | match goal with W : wf32 _ _ |- _ => solve [open_wf W; assumption] end].
Ltac int32_side := first [apply int32_s32 | open_all; no_wrap; try int_side].

Ltac sound_go W :=
  lazymatch goal with
  | |- sound_from _ (andthen (here _) _) _ => apply sound_seq_here; cbv beta zeta; sound_go W
  | |- sound_from _ (andthen (andthen _ _) _) _ => apply sound_assoc; sound_go W
  | |- sound_from _ (andthen (ret PROP_OK) _) _ => apply sound_skip; sound_go W
  | |- sound_from _ (andthen (ret PROP_CONFLICT) _) _ => apply sound_early; sound_go W
  | |- sound_from _ (andthen (if ?b then _ else _) _) _ =>
      let E := fresh "E" in destruct b eqn:E; sound_go W
  | |- sound_from _ (andthen (lb32 _ _) _) _ =>
      apply seq_lb32; [var_side | var_side | var_side | int32_side | sound_arith
      | let c1 := fresh "c" in let S1 := fresh "S" in let W1 := fresh "W" in
        intros c1 S1; pose proof (wf32_sub _ _ _ W (ra_sub _ _ _ _ S1)) as W1; sound_go W1 ]
  | |- sound_from _ (andthen (ub32 _ _) _) _ =>
      apply seq_ub32; [var_side | var_side | var_side | int32_side | sound_arith
      | let c1 := fresh "c" in let S1 := fresh "S" in let W1 := fresh "W" in
        intros c1 S1; pose proof (wf32_sub _ _ _ W (lw_sub _ _ _ _ S1)) as W1; sound_go W1 ]
  | |- sound_from _ (here _) _ => apply sound_here; cbv beta zeta; sound_go W
  | |- sound_from _ (if ?b then _ else _) _ =>
      let E := fresh "E" in destruct b eqn:E; sound_go W
  | |- sound_from _ (lb32 _ _) _ =>
      apply sound_lb32; [var_side | var_side | var_side | int32_side | sound_arith]
  | |- sound_from _ (ub32 _ _) _ =>
      apply sound_ub32; [var_side | var_side | var_side | int32_side | sound_arith]
  | |- sound_from _ (ret (if ?b then _ else _)) _ =>
      let E := fresh "E" in destruct b eqn:E; sound_go W
  | |- sound_from _ (ret PROP_OK) _ => apply sound_ret; [var_side | exact I]
  | |- sound_from _ (ret _) _ => apply sound_ret; [var_side | sound_arith]
  | |- _ => idtac
  end.

(** The same for the decision at fixed variables; [Fx] says which are fixed. *)
Ltac fixed_facts :=
  repeat match goal with
  | S : same_dom ?c' ?c, V : valid ?c ?x |- _ =>
      lazymatch goal with
      | _ : lo_at c' x = lo_at c x |- _ => fail
      | |- _ => pose proof (sd_lo _ _ S x V); pose proof (sd_hi _ _ S x V)
      end
  end.

Ltac dec_leaf W F :=
  open_all; cbn [all_ids] in F; destruct_and? F; unfold fixed in *; fixed_facts; no_wrap;
  match goal with
  | |- fixed_step (lb32 _ _) _ _ =>
      apply fixed_lb32; [assumption | assumption | assumption
        | first [apply int32_s32 | try int_side] | assumption]
  | |- fixed_step (ub32 _ _) _ _ =>
      apply fixed_ub32; [assumption | assumption | assumption
        | first [apply int32_s32 | try int_side] | assumption]
  end.

(** What is known once all statements passed. *)
Ltac dec_end :=
  repeat match goal with W : wf32 _ _ |- _ => open_wf W end;
  repeat match goal with F : all_ids (fixed _) _ |- _ => cbn [all_ids] in F; destruct_and? F end;
  unfold fixed in *; raws; fixed_facts;
  unfold INT32_MIN, INT32_MAX in *; no_wrap;
  let s := fresh "s" in let D := fresh "D" in intros s D; use_dom D; no_wrap_in_hyps; try lia.

Ltac dec_go W F :=
  lazymatch goal with
  | |- decided _ (andthen (here _) _) _ => apply dec_seq_here; cbv beta zeta; dec_go W F
  | |- decided _ (andthen (andthen _ _) _) _ => apply dec_assoc; dec_go W F
  | |- decided _ (andthen (ret PROP_OK) _) _ => apply dec_skip; dec_go W F
  | |- decided _ (andthen (ret PROP_CONFLICT) _) _ => apply dec_early
  | |- decided _ (andthen (if ?b then _ else _) _) _ =>
      let E := fresh "E" in destruct b eqn:E; dec_go W F
  | |- decided _ (andthen _ _) _ =>
      eapply dec_step;
      [ dec_leaf W F
      | let c1 := fresh "c" in let S1 := fresh "S" in let W1 := fresh "W" in
        let F1 := fresh "F" in let P := fresh "P" in
        intros c1 S1 P; pose proof (wf32_sub _ _ _ W (same_dom_sub _ _ S1)) as W1;
        pose proof (fixed32_same _ _ _ W S1 F) as F1; dec_go W1 F1 ]
  | |- decided _ (here _) _ => apply dec_here; cbv beta zeta; dec_go W F
  | |- decided _ (if ?b then _ else _) _ =>
      let E := fresh "E" in destruct b eqn:E; dec_go W F
  | |- decided _ (lb32 _ _) _ =>
      eapply dec_last; [dec_leaf W F | let P := fresh "P" in intros P; dec_end]
  | |- decided _ (ub32 _ _) _ =>
      eapply dec_last; [dec_leaf W F | let P := fresh "P" in intros P; dec_end]
  | |- decided _ (ret PROP_CONFLICT) _ => apply dec_ret; congruence
  | |- decided _ (ret _) _ => apply dec_ret; intros _; dec_end
  | |- _ => idtac
  end.

(** A bound that is known not to wrap only where a solution exists. *)
Ltac late_wrap :=
  let s := fresh "s" in let D := fresh "D" in let R := fresh "R" in
  intros s D R; use_dom D; no_wrap; lia.

(** A block on fixed variables: statement by statement. *)
Ltac fixed_end :=
  repeat match goal with W : wf32 _ _ |- _ => open_wf W end;
  repeat match goal with F : all_ids (fixed _) _ |- _ => cbn [all_ids] in F; destruct_and? F end;
  unfold fixed in *; raws; fixed_facts; unfold INT32_MIN, INT32_MAX in *; no_wrap; lia.
Ltac fixed_go W F :=
  lazymatch goal with
  | |- fixed_step (andthen (here _) _) _ _ => apply fixed_seq_here; cbv beta zeta; fixed_go W F
  | |- fixed_step (andthen (andthen _ _) _) _ _ => apply fixed_assoc; fixed_go W F
  | |- fixed_step (andthen (ret PROP_OK) _) _ _ => apply fixed_skip; fixed_go W F
  | |- fixed_step (andthen (ret PROP_CONFLICT) _) _ _ => exact I
  | |- fixed_step (andthen (if ?b then _ else _) _) _ _ =>
      let E := fresh "E" in destruct b eqn:E; fixed_go W F
  | |- fixed_step (andthen _ _) _ _ =>
      eapply fixed_seq;
      [ dec_leaf W F
      | let c1 := fresh "c" in let S1 := fresh "S" in let W1 := fresh "W" in
        let F1 := fresh "F" in let P := fresh "P" in
        intros c1 S1 P; pose proof (wf32_sub _ _ _ W (same_dom_sub _ _ S1)) as W1;
        pose proof (fixed32_same _ _ _ W S1 F) as F1; fixed_go W1 F1 ]
  | |- fixed_step (here _) _ _ => apply fixed_here; cbv beta zeta; fixed_go W F
  | |- fixed_step (if ?b then _ else _) _ _ =>
      let E := fresh "E" in destruct b eqn:E; fixed_go W F
  | |- fixed_step (ret PROP_OK) _ _ => apply fixed_ret; [apply W | fixed_end]
  | |- fixed_step (ret PROP_CONFLICT) _ _ => exact I
  | |- fixed_step _ _ _ => eapply fixed_weaken; [dec_leaf W F | intros ?; fixed_end]
  end.

End Store.
