(* ===== verification/Wide.v ===== *)
(** * Wide: rules for the 64-bit templates

    A 64-bit template works on patterns.  Two variables of the same order (both
    unsigned of width 64, or neither) read a pattern as the same number, so a
    template over such variables is about numbers again.  The file gives the
    reading [bv] of a pattern in an order, the arithmetic of patterns, and the
    rules and automation that carry the program logic of [Store] over. *)

From Stdlib Require Import ZArith Lia ZifyBool Bool.
From stdpp Require Import base list numbers.
From S2P Require Import Prelude Vars Ctx Store.
Import Vars Ctx Store.
Open Scope Z_scope.

Module Wide.

(** ** Patterns in an order *)

(** [B]: unsigned 64-bit order. *)
Definition bv (B : bool) (b : Z) : Z := if B then u64 b else b.
Definition bot (B : bool) : Z := if B then 0 else - 2 ^ 63.
Definition top (B : bool) : Z := if B then 2 ^ 64 - 1 else 2 ^ 63 - 1.

Lemma bv_range B b : int64 b -> bot B <= bv B b <= top B.
Proof.
  unfold bv, bot, top, int64, u64. pose proof (Z.mod_pos_bound b (2 ^ 64)). destruct B; lia.
Qed.
Lemma bval_bv v b : bval v b = bv (beyond v) b.
Proof. reflexivity. Qed.
Lemma bv_inj B a b : int64 a -> int64 b -> bv B a = bv B b -> a = b.
Proof.
  unfold bv, int64, u64. intros Ha Hb E. destruct B; [| exact E].
  apply Z.cong_iff_ex in E as [k E]. assert (k = 0) by lia. lia.
Qed.
Lemma eqb_bv B a b : int64 a -> int64 b -> (a =? b) = (bv B a =? bv B b).
Proof.
  intros Ha Hb. destruct (Z.eqb_spec a b) as [-> | Ne]; [symmetry; apply Z.eqb_refl |].
  destruct (Z.eqb_spec (bv B a) (bv B b)) as [E | _]; [| reflexivity].
  elim Ne. apply (bv_inj B); assumption.
Qed.
Lemma bv_small B b : 0 <= b < 2 ^ 63 -> bv B b = b.
Proof. intros Hb. unfold bv, u64. destruct B; [apply Z.mod_small; lia | reflexivity]. Qed.

(** Stepping a pattern, short of the end of the order. *)
Lemma bv_succ B b : int64 b -> bv B b < top B -> bv B (s64 (b + 1)) = bv B b + 1.
Proof.
  unfold top, bv, int64. destruct B; intros Hb L; [| apply s64_small; unfold int64; lia].
  rewrite u64_s64. unfold u64 in *. rewrite <- Zplus_mod_idemp_l. apply Z.mod_small.
  pose proof (Z.mod_pos_bound b (2 ^ 64)). lia.
Qed.
Lemma bv_pred B b : int64 b -> bot B < bv B b -> bv B (s64 (b - 1)) = bv B b - 1.
Proof.
  unfold bot, bv, int64. destruct B; intros Hb L; [| apply s64_small; unfold int64; lia].
  rewrite u64_s64. unfold u64 in *. rewrite <- Zminus_mod_idemp_l. apply Z.mod_small.
  pose proof (Z.mod_pos_bound b (2 ^ 64)). lia.
Qed.

Lemma var_b_lt_bv v B a b : beyond v = B -> var_b_lt v a b = (bv B a <? bv B b).
Proof. intros <-. apply var_b_lt_spec. Qed.
Lemma var_b_gt_bv v B a b : beyond v = B -> var_b_gt v a b = (bv B b <? bv B a).
Proof. intros E. unfold var_b_gt. apply (var_b_lt_bv v B b a E). Qed.
Lemma var_b_max_bv v B a b : beyond v = B -> bv B (var_b_max v a b) = Z.max (bv B a) (bv B b).
Proof.
  intros E. unfold var_b_max. rewrite (var_b_lt_bv v B _ _ E).
  destruct (Z.ltb_spec (bv B a) (bv B b)); lia.
Qed.
Lemma var_b_min_bv v B a b : beyond v = B -> bv B (var_b_min v a b) = Z.min (bv B a) (bv B b).
Proof.
  intros E. unfold var_b_min. rewrite (var_b_lt_bv v B _ _ E).
  destruct (Z.ltb_spec (bv B a) (bv B b)); lia.
Qed.
Lemma int64_max v a b : int64 a -> int64 b -> int64 (var_b_max v a b).
Proof. unfold var_b_max. destruct (var_b_lt v a b); auto. Qed.
Lemma int64_min v a b : int64 a -> int64 b -> int64 (var_b_min v a b).
Proof. unfold var_b_min. destruct (var_b_lt v a b); auto. Qed.

(** ** Variables of one order *)

Section Order.
Context {C : Type} `{StoreLaws C}.
Implicit Types c : C.

(** [var_lo64(ctx, &ctx->vars\[x\])] and [var_hi64]. *)
Definition lo64 c x : Z := var_lo64 (var_at c x).
Definition hi64 c x : Z := var_hi64 (var_at c x).

(** The template's variables exist and have the order [B]. *)
Definition ordered (B : bool) c (ids : list Z) : Prop :=
  st_ok c /\ all_ids (fun x => valid c x /\ beyond (var_at c x) = B) ids.

Lemma sub_beyond c c' x : sub c' c -> valid c x -> beyond (var_at c' x) = beyond (var_at c x).
Proof.
  intros Sb V. destruct (sb_type _ _ Sb x V) as [E1 E2]. unfold beyond, is_signed.
  rewrite E1, E2. reflexivity.
Qed.

Lemma ordered_sub B c c' ids : ordered B c ids -> sub c' c -> ordered B c' ids.
Proof.
  intros [K W] Sb. split; [apply (sb_ok _ _ Sb) |]. revert W. apply all_ids_mono.
  intros x [V E]. split; [apply (sb_valid _ _ Sb), V |]. rewrite (sub_beyond c c' x Sb V). exact E.
Qed.

Lemma ordered_fixed B c c' ids :
  ordered B c ids -> same_dom c' c -> all_ids (fixed c) ids -> all_ids (fixed c') ids.
Proof.
  intros [_ W] Sd. induction ids as [| x ids IH]; cbn; [auto |]. cbn in W.
  destruct W as [[V _] W]. intros [F Fs]. split; [| auto]. apply (same_fixed c c'); assumption.
Qed.

(** One variable of the order, and what is known of it. *)
Record member (B : bool) c x : Prop := {
  mb_valid : valid c x;
  mb_order : beyond (var_at c x) = B;
  mb_lo : bv B (lo64 c x) = lo_at c x;
  mb_hi : bv B (hi64 c x) = hi_at c x;
  mb_lo64 : int64 (lo64 c x);
  mb_hi64 : int64 (hi64 c x);
  mb_rng : bot B <= lo_at c x /\ lo_at c x <= hi_at c x /\ hi_at c x <= top B }.

Lemma ordered_member B c ids x : ordered B c ids -> In x ids -> member B c x.
Proof.
  intros [K W] Hx. assert (V : valid c x /\ beyond (var_at c x) = B).
  { induction ids as [| y ids IH]; [destruct Hx |]. cbn in W, Hx. destruct Hx as [<- | Hx]; tauto. }
  destruct V as [V E]. pose proof (int64_lo c x K V) as Il. pose proof (int64_hi c x K V) as Ih.
  assert (El : bv B (lo64 c x) = lo_at c x) by (subst B; reflexivity).
  assert (Eh : bv B (hi64 c x) = hi_at c x) by (subst B; reflexivity).
  constructor; auto. pose proof (bv_range B _ Il). pose proof (bv_range B _ Ih).
  pose proof (dom_ne c x K V). fold (lo64 c x) in *. fold (hi64 c x) in *. lia.
Qed.

(** A bound of [x] seen in [y]'s order. *)
Lemma member_bval B c x b : member B c x -> bval (var_at c x) b = bv B b.
Proof. intros M. rewrite bval_bv, (mb_order _ _ _ M). reflexivity. Qed.

Lemma member_sub B c c' x : st_ok c' -> member B c x -> sub c' c -> member B c' x.
Proof.
  intros K M Sb. apply (ordered_member B c' [x]); [| left; reflexivity].
  split; [exact K |]. split; [| exact I]. pose proof (mb_valid _ _ _ M) as V.
  split; [apply (sb_valid _ _ Sb), V |]. rewrite (sub_beyond c c' x Sb V). apply (mb_order _ _ _ M).
Qed.

(** ** The rules, with the bound read in the order *)

Lemma wide_lb R B ids c x b : ordered B c ids -> In x ids -> int64 b ->
  (forall s, in_dom c s -> R s -> bv B b <= s x) -> sound_from R (lb64 x b) c.
Proof.
  intros W Hx Ib Ob. pose proof (ordered_member B c ids x W Hx) as M.
  apply sound_lb64; [apply W | apply M | exact Ib |]. rewrite (member_bval B c x b M). exact Ob.
Qed.
Lemma wide_ub R B ids c x b : ordered B c ids -> In x ids -> int64 b ->
  (forall s, in_dom c s -> R s -> s x <= bv B b) -> sound_from R (ub64 x b) c.
Proof.
  intros W Hx Ib Ob. pose proof (ordered_member B c ids x W Hx) as M.
  apply sound_ub64; [apply W | apply M | exact Ib |]. rewrite (member_bval B c x b M). exact Ob.
Qed.
Lemma wide_seq_lb R B ids c x b q : ordered B c ids -> In x ids -> int64 b ->
  (forall s, in_dom c s -> R s -> bv B b <= s x) ->
  (forall c', raised c c' x (bv B b) -> ordered B c' ids -> sound_from R q c') ->
  sound_from R (andthen (lb64 x b) q) c.
Proof.
  intros W Hx Ib Ob Q. pose proof (ordered_member B c ids x W Hx) as M.
  apply seq_lb64; [apply W | apply M | exact Ib | |]; rewrite (member_bval B c x b M); [exact Ob |].
  intros c' Rs. apply Q; [exact Rs |]. apply (ordered_sub B c); [exact W | apply Rs].
Qed.
Lemma wide_seq_ub R B ids c x b q : ordered B c ids -> In x ids -> int64 b ->
  (forall s, in_dom c s -> R s -> s x <= bv B b) ->
  (forall c', lowered c c' x (bv B b) -> ordered B c' ids -> sound_from R q c') ->
  sound_from R (andthen (ub64 x b) q) c.
Proof.
  intros W Hx Ib Ob Q. pose proof (ordered_member B c ids x W Hx) as M.
  apply seq_ub64; [apply W | apply M | exact Ib | |]; rewrite (member_bval B c x b M); [exact Ob |].
  intros c' Rs. apply Q; [exact Rs |]. apply (ordered_sub B c); [exact W | apply Rs].
Qed.

Lemma wide_blocks R B ids p q c : ordered B c ids -> sound_from R p c ->
  (forall c', ordered B c' ids -> sub c' c -> sound_from R q c') -> sound_from R (andthen p q) c.
Proof.
  intros W P Q. apply sound_seq; [exact P |]. intros c' Sb _. apply Q; [| exact Sb].
  apply (ordered_sub B c); assumption.
Qed.

Lemma wide_fixed_lb B ids c x b : ordered B c ids -> In x ids -> int64 b -> fixed c x ->
  fixed_step (lb64 x b) c (bv B b <= lo_at c x).
Proof.
  intros W Hx Ib Fx. pose proof (ordered_member B c ids x W Hx) as M.
  rewrite <- (member_bval B c x b M). apply fixed_lb64; [apply W | apply M | exact Ib | exact Fx].
Qed.
Lemma wide_fixed_ub B ids c x b : ordered B c ids -> In x ids -> int64 b -> fixed c x ->
  fixed_step (ub64 x b) c (lo_at c x <= bv B b).
Proof.
  intros W Hx Ib Fx. pose proof (ordered_member B c ids x W Hx) as M.
  rewrite <- (member_bval B c x b M). apply fixed_ub64; [apply W | apply M | exact Ib | exact Fx].
Qed.
End Order.

(** ** Automation *)

(** The members of every state in view, for the ids named in the context. *)
Ltac members :=
  repeat match goal with
  | W : ordered ?B ?c ?ids, I : In ?x ?ids |- _ =>
      lazymatch goal with
      | _ : member B c x |- _ => fail
      | |- _ => pose proof (ordered_member B c ids x W I)
      end
  end.
Ltac member_facts :=
  repeat match goal with
  | M : member ?B ?c ?x |- _ =>
      lazymatch goal with
      | _ : bv B (lo64 c x) = lo_at c x |- _ => fail
      | |- _ => pose proof (mb_lo _ _ _ M); pose proof (mb_hi _ _ _ M);
          pose proof (mb_lo64 _ _ _ M); pose proof (mb_hi64 _ _ _ M);
          pose proof (mb_rng _ _ _ M); pose proof (mb_valid _ _ _ M)
      end
  end.
Ltac int64_side :=
  repeat first [assumption | apply int64_s64 | apply int64_max | apply int64_min];
  try (unfold int64; lia).
(** Comparisons of patterns become comparisons of numbers. *)
Ltac bv_norm :=
  repeat match goal with
  | M : member ?B ?c ?x |- context [var_b_gt (var_at ?c ?x) ?a ?b] =>
      rewrite (var_b_gt_bv (var_at c x) B a b (mb_order _ _ _ M))
  | M : member ?B ?c ?x |- context [var_b_lt (var_at ?c ?x) ?a ?b] =>
      rewrite (var_b_lt_bv (var_at c x) B a b (mb_order _ _ _ M))
  | M : member ?B ?c ?x |- context [bv ?B (var_b_max (var_at ?c ?x) ?a ?b)] =>
      rewrite (var_b_max_bv (var_at c x) B a b (mb_order _ _ _ M))
  | M : member ?B ?c ?x |- context [bv ?B (var_b_min (var_at ?c ?x) ?a ?b)] =>
      rewrite (var_b_min_bv (var_at c x) B a b (mb_order _ _ _ M))
  | M : member ?B ?c ?x, E : context [var_b_gt (var_at ?c ?x) ?a ?b] |- _ =>
      rewrite (var_b_gt_bv (var_at c x) B a b (mb_order _ _ _ M)) in E
  | M : member ?B ?c ?x, E : context [var_b_lt (var_at ?c ?x) ?a ?b] |- _ =>
      rewrite (var_b_lt_bv (var_at c x) B a b (mb_order _ _ _ M)) in E
  | M : member ?B ?c ?x, E : context [bv ?B (var_b_max (var_at ?c ?x) ?a ?b)] |- _ =>
      rewrite (var_b_max_bv (var_at c x) B a b (mb_order _ _ _ M)) in E
  | M : member ?B ?c ?x, E : context [bv ?B (var_b_min (var_at ?c ?x) ?a ?b)] |- _ =>
      rewrite (var_b_min_bv (var_at c x) B a b (mb_order _ _ _ M)) in E
  | M : member ?B ?c ?x |- context [(lo64 ?c ?x =? ?b)] =>
      rewrite (eqb_bv B (lo64 c x) b) by int64_side
  | M : member ?B ?c ?x, E : context [(lo64 ?c ?x =? ?b)] |- _ =>
      rewrite (eqb_bv B (lo64 c x) b) in E by int64_side
  | M : member ?B ?c ?x, E : context [(hi64 ?c ?x =? ?b)] |- _ =>
      rewrite (eqb_bv B (hi64 c x) b) in E by int64_side
  end.
Ltac bv_bounds :=
  repeat match goal with
  | M : member ?B ?c ?x |- context [bv ?B (lo64 ?c ?x)] => rewrite (mb_lo _ _ _ M)
  | M : member ?B ?c ?x |- context [bv ?B (hi64 ?c ?x)] => rewrite (mb_hi _ _ _ M)
  | M : member ?B ?c ?x, E : context [bv ?B (lo64 ?c ?x)] |- _ =>
      lazymatch type of E with bv B (lo64 c x) = lo_at c x => fail | _ => rewrite (mb_lo _ _ _ M) in E end
  | M : member ?B ?c ?x, E : context [bv ?B (hi64 ?c ?x)] |- _ =>
      lazymatch type of E with bv B (hi64 c x) = hi_at c x => fail | _ => rewrite (mb_hi _ _ _ M) in E end
  end.
(** Facts a template file may add. *)
Ltac template_facts := idtac.
Ltac wide_facts := members; template_facts; member_facts; sub_facts; bv_norm; bv_bounds.
Ltac wide_int := members; member_facts; int64_side.
(** A step that cannot wrap where a solution exists. *)
Ltac step_norm :=
  repeat match goal with
  | |- context [bv ?B (s64 (?a + 1))] => rewrite (bv_succ B a) by (try assumption; bv_bounds; lia)
  | |- context [bv ?B (s64 (?a - 1))] => rewrite (bv_pred B a) by (try assumption; bv_bounds; lia)
  | E : context [bv ?B (s64 (?a + 1))] |- _ => rewrite (bv_succ B a) in E by (try assumption; bv_bounds; lia)
  | E : context [bv ?B (s64 (?a - 1))] |- _ => rewrite (bv_pred B a) in E by (try assumption; bv_bounds; lia)
  end; bv_bounds.
Ltac wide_arith :=
  wide_facts;
  let s := fresh "s" in let D := fresh "D" in let R := fresh "R" in
  intros s D; use_dom D; first [lia | intros R; first [lia | step_norm; lia]].

(** The condition of the statement at hand. *)
Ltac split_if E :=
  lazymatch goal with
  | |- sound_from _ (if ?b then _ else _) _ => destruct b eqn:E
  | |- sound_from _ (andthen (if ?b then _ else _) _) _ => destruct b eqn:E
  | |- sound_from _ (ret (if ?b then _ else _)) _ => destruct b eqn:E
  | |- decided _ (if ?b then _ else _) _ => destruct b eqn:E
  | |- decided _ (andthen (if ?b then _ else _) _) _ => destruct b eqn:E
  end.

Ltac wide_go W :=
  lazymatch goal with
  | |- sound_from _ (andthen (here _) _) _ => apply sound_seq_here; cbv beta zeta; wide_go W
  | |- sound_from _ (andthen (andthen _ _) _) _ => apply sound_assoc; wide_go W
  | |- sound_from _ (andthen (ret PROP_OK) _) _ => apply sound_skip; wide_go W
  | |- sound_from _ (andthen (ret PROP_CONFLICT) _) _ => apply sound_early; wide_go W
  | |- sound_from _ (andthen (if ?b then _ else _) _) _ =>
      let E := fresh "E" in destruct b eqn:E; wide_go W
  | |- sound_from _ (andthen (lb64 _ _) _) _ =>
      apply (wide_seq_lb _ _ _ _ _ _ _ W); [assumption | wide_int | try wide_arith
      | let c1 := fresh "c" in let S1 := fresh "S" in let W1 := fresh "W" in
        intros c1 S1 W1; wide_go W1 ]
  | |- sound_from _ (andthen (ub64 _ _) _) _ =>
      apply (wide_seq_ub _ _ _ _ _ _ _ W); [assumption | wide_int | try wide_arith
      | let c1 := fresh "c" in let S1 := fresh "S" in let W1 := fresh "W" in
        intros c1 S1 W1; wide_go W1 ]
  | |- sound_from _ (here _) _ => apply sound_here; cbv beta zeta; wide_go W
  | |- sound_from _ (if ?b then _ else _) _ =>
      let E := fresh "E" in destruct b eqn:E; wide_go W
  | |- sound_from _ (lb64 _ _) _ =>
      apply (wide_lb _ _ _ _ _ _ W); [assumption | wide_int | try wide_arith]
  | |- sound_from _ (ub64 _ _) _ =>
      apply (wide_ub _ _ _ _ _ _ W); [assumption | wide_int | try wide_arith]
  | |- sound_from _ (ret (if ?b then _ else _)) _ =>
      let E := fresh "E" in destruct b eqn:E; wide_go W
  | |- sound_from _ (ret PROP_OK) _ => apply sound_ret; [apply W | exact I]
  | |- sound_from _ (ret _) _ => apply sound_ret; [apply W | try wide_arith]
  | |- _ => idtac
  end.

(** Blocks on fixed variables. *)
Ltac fixed_ids F :=
  repeat match goal with
  | F1 : all_ids (fixed ?c) ?ids |- _ => progress cbn [all_ids] in F1; destruct_and? F1
  end.
Ltac wide_fixed_end :=
  wide_facts; fixed_facts; unfold fixed in *;
  repeat match goal with F : all_ids _ _ |- _ => cbn [all_ids] in F; destruct_and? F end;
  first [lia | step_norm; lia].
Ltac find_fixed F :=
  unfold fixed in *; cbn [all_ids] in F; destruct_and? F; assumption.
Ltac wide_fixed W F :=
  lazymatch goal with
  | |- fixed_step (andthen (here _) _) _ _ => apply fixed_seq_here; cbv beta zeta; wide_fixed W F
  | |- fixed_step (andthen (andthen _ _) _) _ _ => apply fixed_assoc; wide_fixed W F
  | |- fixed_step (andthen (ret PROP_OK) _) _ _ => apply fixed_skip; wide_fixed W F
  | |- fixed_step (andthen (ret PROP_CONFLICT) _) _ _ => exact I
  | |- fixed_step (andthen (if ?b then _ else _) _) _ _ =>
      let E := fresh "E" in destruct b eqn:E; wide_fixed W F
  | |- fixed_step (andthen (lb64 _ _) _) _ _ =>
      eapply fixed_seq;
      [ apply (wide_fixed_lb _ _ _ _ _ W); [assumption | wide_int | find_fixed F]
      | let c1 := fresh "c" in let S1 := fresh "S" in let W1 := fresh "W" in
        let F1 := fresh "F" in let P := fresh "P" in
        intros c1 S1 P; pose proof (ordered_sub _ _ _ _ W (same_dom_sub _ _ S1)) as W1;
        pose proof (ordered_fixed _ _ _ _ W S1 F) as F1; wide_fixed W1 F1 ]
  | |- fixed_step (andthen (ub64 _ _) _) _ _ =>
      eapply fixed_seq;
      [ apply (wide_fixed_ub _ _ _ _ _ W); [assumption | wide_int | find_fixed F]
      | let c1 := fresh "c" in let S1 := fresh "S" in let W1 := fresh "W" in
        let F1 := fresh "F" in let P := fresh "P" in
        intros c1 S1 P; pose proof (ordered_sub _ _ _ _ W (same_dom_sub _ _ S1)) as W1;
        pose proof (ordered_fixed _ _ _ _ W S1 F) as F1; wide_fixed W1 F1 ]
  | |- fixed_step (here _) _ _ => apply fixed_here; cbv beta zeta; wide_fixed W F
  | |- fixed_step (if ?b then _ else _) _ _ =>
      let E := fresh "E" in destruct b eqn:E; wide_fixed W F
  | |- fixed_step (ret PROP_OK) _ _ => apply fixed_ret; [apply W | try wide_fixed_end]
  | |- fixed_step (ret PROP_CONFLICT) _ _ => exact I
  | |- fixed_step (lb64 _ _) _ _ =>
      eapply fixed_weaken; [apply (wide_fixed_lb _ _ _ _ _ W); [assumption | wide_int | find_fixed F]
      | intros ?; try wide_fixed_end]
  | |- fixed_step (ub64 _ _) _ _ =>
      eapply fixed_weaken; [apply (wide_fixed_ub _ _ _ _ _ W); [assumption | wide_int | find_fixed F]
      | intros ?; try wide_fixed_end]
  | |- _ => idtac
  end.
(** [F] from what the program has established. *)
Ltac wide_decided := apply dec_true; wide_facts; fixed_facts; unfold fixed in *;
  repeat match goal with F : all_ids _ _ |- _ => cbn [all_ids] in F; destruct_and? F end;
  let s := fresh "s" in let D := fresh "D" in intros s D; use_dom D; try lia.

End Wide.
