(* ===== verification/Tighten.v ===== *)
(** * Tighten: the four domain-tightening functions
    (src/src/c/dvs_propagate.c, [ctx_tighten_*])

    Each changes one bound through the trail, reports the empty domain, clears
    the bit of a variable that became fixed and wakes the propagators
    concerned.  They make the context an instance of the store the templates
    are written against; its laws are discharged here.  Contexts without clause
    learning are modelled ([lcg] is NULL, so the clause notifications do
    nothing). *)

From Stdlib Require Import ZArith Lia ZifyBool Bool.
From stdpp Require Import base gmap list numbers.
From S2P Require Import Prelude Vars Ctx Queue DynStack Trail GuardIx Wake Store.
Import Vars Ctx Queue DynStack Trail GuardIx Wake Store.
Open Scope Z_scope.

Module Tighten.

Section Ops.
Context {T M S : Type} `{DynStack M S} `{Env}.
Implicit Types c : ctx T M S.

(** [if (fixed && var_id < 64) ctx->unassigned_mask &= ~(1ULL << var_id);] *)
Definition clear_unassigned c (id : Z) (is_fixed : bool) : ctx T M S :=
  if is_fixed && (id <? 64) then
    set_unassigned_mask c (Z.land (unassigned_mask c) (u64 (Z.lnot (u64 (Z.shiftl 1 id)))))
  else c.
(** That, and [if (ctx->watcher_heads) _wake_var(ctx, var_id)]. *)
Definition after_change c (id : Z) (is_fixed : bool) : prop_result * ctx T M S :=
  let c := clear_unassigned c id is_fixed in
  (PROP_OK, match watcher_heads c with Some _ => wake_var c id | None => c end).

Definition ctx_tighten_lb32 c (id new_lb : Z) : prop_result * ctx T M S :=
  if new_lb <=? lo (var c id) then (PROP_OK, c) else
  let c := snd (trail_record_lb c id new_lb) in
  let v := var c id in
  if lo v >? hi v then (PROP_CONFLICT, c) else after_change c id (lo v =? hi v).

Definition ctx_tighten_ub32 c (id new_ub : Z) : prop_result * ctx T M S :=
  if new_ub >=? hi (var c id) then (PROP_OK, c) else
  let c := snd (trail_record_ub c id new_ub) in
  let v := var c id in
  if lo v >? hi v then (PROP_CONFLICT, c) else after_change c id (lo v =? hi v).

Definition ctx_tighten_lb64 c (id new_lb : Z) : prop_result * ctx T M S :=
  let v := var c id in
  if negb (var_b_gt v new_lb (var_lo64 v)) then (PROP_OK, c) else
  if var_b_gt v new_lb (var_repr_max v) then (PROP_CONFLICT, c) else
  let c := snd (trail_record_lb c id new_lb) in
  let v := var c id in
  if var_b_gt v (var_lo64 v) (var_hi64 v) then (PROP_CONFLICT, c) else
  after_change c id (var_lo64 v =? var_hi64 v).

Definition ctx_tighten_ub64 c (id new_ub : Z) : prop_result * ctx T M S :=
  let v := var c id in
  if negb (var_b_lt v new_ub (var_hi64 v)) then (PROP_OK, c) else
  if var_b_lt v new_ub (var_repr_min v) then (PROP_CONFLICT, c) else
  let c := snd (trail_record_ub c id new_ub) in
  let v := var c id in
  if var_b_gt v (var_lo64 v) (var_hi64 v) then (PROP_CONFLICT, c) else
  after_change c id (var_lo64 v =? var_hi64 v).

#[export] Instance ctx_store : Store (ctx T M S) := {
  var_at := var;
  tighten_lb32 := ctx_tighten_lb32;
  tighten_ub32 := ctx_tighten_ub32;
  tighten_lb64 := ctx_tighten_lb64;
  tighten_ub64 := ctx_tighten_ub64;
  valid c x := 0 <= x < n_vars c }.
End Ops.

(** ** One variable *)

(** [*v] with its lower (upper) bound written the way the trail writes it. *)
Definition write_lb (v : variable) (b : Z) : variable :=
  if var_is_tier0 (flags v) then set_lo v (s32 b)
  else if var_is_tier1 (flags v) then set_wb_lo v b else v.
Definition write_ub (v : variable) (b : Z) : variable :=
  if var_is_tier0 (flags v) then set_hi v (s32 b)
  else if var_is_tier1 (flags v) then set_wb_hi v b else v.

Lemma s32_u32 z : u32 (s32 z) = u32 z.
Proof. unfold s32, u32. rewrite Zminus_mod_idemp_l. f_equal. lia. Qed.

(** A bound inside the type, read back after the store. *)
Lemma stored32 v b :
  width v <= 32 -> 1 <= width v -> vmin v <= b <= vmax v ->
  (if is_signed v then s32 b else u32 (s32 b)) = b.
Proof.
  intros W W1 B. unfold vmin, vmax in B. destruct (is_signed v).
  - pose proof (Z.pow_le_mono_r 2 (width v - 1) 31). apply s32_small. unfold int32. lia.
  - rewrite s32_u32. pose proof (Z.pow_le_mono_r 2 (width v) 32). apply Z.mod_small. lia.
Qed.

Lemma write_lb_type v b : same_type (write_lb v b) v.
Proof. unfold write_lb. destruct (var_is_tier0 _); [| destruct (var_is_tier1 _)]; split; reflexivity. Qed.
Lemma write_ub_type v b : same_type (write_ub v b) v.
Proof. unfold write_ub. destruct (var_is_tier0 _); [| destruct (var_is_tier1 _)]; split; reflexivity. Qed.

Lemma same_type_facts v w : same_type v w ->
  is_signed v = is_signed w /\ vmin v = vmin w /\ vmax v = vmax w /\
  forall b, bval v b = bval w b.
Proof.
  intros [E1 E2]. unfold vmin, vmax, bval, beyond, is_signed. rewrite E1, E2. auto.
Qed.

(** What a stored bound inside the type reads as. *)
Lemma write_lb_reads v b : good v -> vmin v <= bval v b <= vmax v ->
  lo_of (write_lb v b) = bval v b /\ hi_of (write_lb v b) = hi_of v.
Proof.
  intros G B. destruct (same_type_facts _ _ (write_lb_type v b)) as (Es & _ & _ & Eb).
  unfold lo_of, hi_of. rewrite !Eb. unfold var_lo64, var_hi64. rewrite Es.
  destruct (write_lb_type v b) as [Ef _]. rewrite Ef. unfold write_lb.
  destruct (gd_tier _ G) as [(T0 & W & _) | (T0 & T1 & _)]; rewrite T0.
  - pose proof (gd_width _ G) as W1. rewrite !bval_narrow in * by lia.
    split; [| reflexivity]. cbn [lo set_lo]. apply stored32; tauto || lia.
  - rewrite T1. split; reflexivity.
Qed.

Lemma write_ub_reads v b : good v -> vmin v <= bval v b <= vmax v ->
  hi_of (write_ub v b) = bval v b /\ lo_of (write_ub v b) = lo_of v.
Proof.
  intros G B. destruct (same_type_facts _ _ (write_ub_type v b)) as (Es & _ & _ & Eb).
  unfold lo_of, hi_of. rewrite !Eb. unfold var_lo64, var_hi64. rewrite Es.
  destruct (write_ub_type v b) as [Ef _]. rewrite Ef. unfold write_ub.
  destruct (gd_tier _ G) as [(T0 & W & _) | (T0 & T1 & _)]; rewrite T0.
  - pose proof (gd_width _ G) as W1. rewrite !bval_narrow in * by lia.
    split; [| reflexivity]. cbn [hi set_hi]. apply stored32; tauto || lia.
  - rewrite T1. split; reflexivity.
Qed.

Lemma good_write_lb v b : good v -> int64 b -> lo_of v <= bval v b <= hi_of v -> good (write_lb v b).
Proof.
  intros G Ib B. pose proof (gd_lo _ G). pose proof (gd_hi _ G).
  destruct (write_lb_reads v b G ltac:(lia)) as [El Eh].
  destruct (write_lb_type v b) as [Ef Ew]. destruct (same_type_facts _ _ (write_lb_type v b)) as (_ & Emin & Emax & _).
  constructor; rewrite ?Ew, ?Emin, ?Emax, ?El, ?Eh, ?Ef; try lia; [apply (gd_width _ G) |].
  unfold write_lb. destruct (gd_tier _ G) as [(T0 & W & I1 & I2 & M1) | (T0 & T1 & T2 & I1 & I2)]; rewrite T0.
  - left. cbn. split; [reflexivity |]. split; [exact W |]. split; [apply int32_s32 | auto].
  - rewrite T1. right. cbn. auto.
Qed.

Lemma good_write_ub v b : good v -> int64 b -> lo_of v <= bval v b <= hi_of v -> good (write_ub v b).
Proof.
  intros G Ib B. pose proof (gd_lo _ G). pose proof (gd_hi _ G).
  destruct (write_ub_reads v b G ltac:(lia)) as [Eh El].
  destruct (write_ub_type v b) as [Ef Ew]. destruct (same_type_facts _ _ (write_ub_type v b)) as (_ & Emin & Emax & _).
  constructor; rewrite ?Ew, ?Emin, ?Emax, ?El, ?Eh, ?Ef; try lia; [apply (gd_width _ G) |].
  unfold write_ub. destruct (gd_tier _ G) as [(T0 & W & I1 & I2 & M1) | (T0 & T1 & T2 & I1 & I2)]; rewrite T0.
  - left. cbn. split; [reflexivity |]. split; [exact W |]. split; [exact I1 |]. split; [apply int32_s32 | lia].
  - rewrite T1. right. cbn. auto.
Qed.

(** ** Frames *)

Section Frames.
Context {T M S : Type} `{DynStack M S} `{Env}.
Implicit Types c : ctx T M S.

(** Only the trail and its memory differ. *)
Definition retrailed c c' : Prop :=
  exists s t n, c' = set_trail_count (set_trail (set_dynamic c s) t) n.

Lemma record_entry_retrailed c id k vs old : retrailed c (snd (record_entry c id k vs old)).
Proof.
  unfold record_entry, retrailed. destruct (ds_alloc _ _ _) as [[a |] s]; cbn [snd].
  - eexists s, _, _. reflexivity.
  - exists s, (trail c), (trail_count c). destruct c; reflexivity.
Qed.

Lemma put_var_same c id : 0 <= id < n_vars c -> put_var c id (var c id) = c.
Proof.
  intros Hid. unfold put_var. pose proof (var_lookup c id Hid) as E. apply list_insert_id in E.
  rewrite E. destruct c; reflexivity.
Qed.

Lemma record_lb_retrailed c id b : 0 <= id < n_vars c ->
  retrailed (put_var c id (write_lb (var c id) b)) (snd (trail_record_lb c id b)).
Proof.
  intros Hid. unfold trail_record_lb, write_lb. destruct (var_is_tier0 _); [| destruct (var_is_tier1 _)].
  - apply record_entry_retrailed.
  - apply record_entry_retrailed.
  - rewrite put_var_same by exact Hid. exists (dynamic c), (trail c), (trail_count c). destruct c; reflexivity.
Qed.

Lemma record_ub_retrailed c id b : 0 <= id < n_vars c ->
  retrailed (put_var c id (write_ub (var c id) b)) (snd (trail_record_ub c id b)).
Proof.
  intros Hid. unfold trail_record_ub, write_ub. destruct (var_is_tier0 _); [| destruct (var_is_tier1 _)].
  - apply record_entry_retrailed.
  - apply record_entry_retrailed.
  - rewrite put_var_same by exact Hid. exists (dynamic c), (trail c), (trail_count c). destruct c; reflexivity.
Qed.

Lemma enqueue_vars c r : vars (prop_enqueue c r) = vars c.
Proof.
  unfold prop_enqueue, update_prop. destruct (pool c !! r); [| reflexivity].
  destruct (negb _); [reflexivity |]. destruct (_ =? _); [reflexivity |].
  cbn [pool put_prop set_pool]. destruct (_ !! _); reflexivity.
Qed.

Lemma enqueue_id_vars c i : vars (enqueue_id c i) = vars c.
Proof. unfold enqueue_id. destruct (_ =? _); [reflexivity | apply enqueue_vars]. Qed.

Lemma fold_vars {A} (step : ctx T M S -> A -> ctx T M S) l :
  (forall c a, vars (step c a) = vars c) -> forall c, vars (fold_left step l c) = vars c.
Proof. intros E. induction l as [| a l IH]; intros c; cbn; [reflexivity |]. rewrite IH. apply E. Qed.

Lemma wake_chain_vars id fuel : forall c ref, vars (wake_chain fuel c id ref) = vars c.
Proof.
  induction fuel as [| fuel IH]; intros c ref; cbn [wake_chain]; [reflexivity |].
  destruct (_ =? _); [reflexivity |]. destruct (pool c !! ref); [| reflexivity].
  rewrite IH. apply enqueue_vars.
Qed.

Lemma build_vars c nv np : vars (snd (guard_ix_build c nv np)) = vars c.
Proof. unfold guard_ix_build. repeat (destruct (_ : bool); try reflexivity). Qed.

Lemma wake_var_vars c id : vars (wake_var c id) = vars c.
Proof.
  unfold wake_var. set (d := wake_chain _ _ _ _). assert (E : vars d = vars c) by apply wake_chain_vars.
  rewrite <- E. clearbody d. clear E c. unfold wake_guarded.
  destruct (prop_guard_vars d); [| reflexivity]. destruct (prop_refs d); [| reflexivity].
  pose proof (build_vars d (n_vars d) (id_limit d)) as E. destruct (guard_ix_build _ _ _) as [ok e].
  cbn [snd] in E. rewrite <- E. destruct ok.
  - unfold wake_indexed. destruct (_ >=? _); [reflexivity |]. destruct (gix _) as [[off lst] |]; [| reflexivity].
    apply fold_vars. intros. apply enqueue_id_vars.
  - unfold wake_scan. apply fold_vars. intros. destruct (_ =? _); [apply enqueue_id_vars | reflexivity].
Qed.

Lemma after_change_vars c id f : exists c', after_change c id f = (PROP_OK, c') /\ vars c' = vars c.
Proof.
  unfold after_change, clear_unassigned. eexists. split; [reflexivity |].
  destruct (f && _); cbn [watcher_heads set_unassigned_mask]; destruct (watcher_heads c);
    rewrite ?wake_var_vars; reflexivity.
Qed.

Lemma var_of_vars c c' : vars c' = vars c -> (forall x, var c' x = var c x) /\ n_vars c' = n_vars c.
Proof. intros E. unfold var, n_vars. rewrite E. auto. Qed.

Lemma retrailed_vars c c' : retrailed c c' -> vars c' = vars c.
Proof. intros (s & t & n & ->). reflexivity. Qed.

(** ** The laws *)

(** Replacing a variable by a narrower one of its type. *)
Lemma narrowed_put c c' id v l h :
  st_ok c -> 0 <= id < n_vars c -> good v -> same_type v (var c id) -> lo_of v = l -> hi_of v = h ->
  vars c' = vars (put_var c id v) -> narrowed c c' id l h.
Proof.
  intros K Hid G Ty El Eh Ev. destruct (var_of_vars (put_var c id v) c' Ev) as [V N].
  rewrite n_vars_put in N.
  assert (Vid : var c' id = v) by (rewrite V, var_put, Z.eqb_refl by lia; reflexivity).
  assert (Voth : forall y, 0 <= y -> y <> id -> var c' y = var c y).
  { intros y Hy Ne. rewrite V, var_put by lia. destruct (Z.eqb_spec id y); [congruence | reflexivity]. }
  constructor.
  - intros y Hy. cbn in Hy |- *. rewrite N in Hy. destruct (Z.eq_dec y id) as [-> | Ne].
    + rewrite Vid. exact G.
    + rewrite Voth by lia. apply (K y). exact Hy.
  - intros y. cbn. rewrite N. tauto.
  - intros y Hy Ne. cbn. apply Voth; [cbn in Hy; lia | exact Ne].
  - cbn. rewrite Vid. exact Ty.
  - unfold lo_at. cbn. rewrite Vid. exact El.
  - unfold hi_at. cbn. rewrite Vid. exact Eh.
Qed.

Lemma narrowed_refl c id : st_ok c -> 0 <= id < n_vars c -> narrowed c c id (lo_at c id) (hi_at c id).
Proof.
  intros K Hid. apply (narrowed_put c c id (var c id)); auto; [apply (K id Hid) | split; reflexivity |].
  rewrite put_var_same by exact Hid. reflexivity.
Qed.

Lemma after_write c c1 id w : 0 <= id < n_vars c -> retrailed (put_var c id w) c1 -> var c1 id = w.
Proof.
  intros Hid R. destruct (var_of_vars _ _ (retrailed_vars _ _ R)) as [-> _].
  rewrite var_put, Z.eqb_refl by lia. reflexivity.
Qed.

(** [c1] is [c] with variable [x] replaced by [w], whose bounds are [l] and [h]. *)
Record replaced c (x : Z) (w : variable) (l h : Z) c1 : Prop := {
  rp_trail : retrailed (put_var c x w) c1;
  rp_good : good w;
  rp_type : same_type w (var c x);
  rp_lo : lo_of w = l;
  rp_hi : hi_of w = h }.

(** The three ends of raising a lower (lowering an upper) bound to [n]. *)
Inductive raising c (x n : Z) : prop_result * ctx T M S -> Prop :=
| raise_none : n <= lo_at c x -> raising c x n (PROP_OK, c)
| raise_empty c' : hi_at c x < n -> raising c x n (PROP_CONFLICT, c')
| raise_some w c1 : lo_at c x < n <= hi_at c x -> replaced c x w n (hi_at c x) c1 ->
    raising c x n (after_change c1 x (var_lo64 w =? var_hi64 w)).
Inductive lowering c (x n : Z) : prop_result * ctx T M S -> Prop :=
| lower_none : hi_at c x <= n -> lowering c x n (PROP_OK, c)
| lower_empty c' : n < lo_at c x -> lowering c x n (PROP_CONFLICT, c')
| lower_some w c1 : lo_at c x <= n < hi_at c x -> replaced c x w (lo_at c x) n c1 ->
    lowering c x n (after_change c1 x (var_lo64 w =? var_hi64 w)).

Lemma replaced_narrowed c x w l h c1 c2 :
  st_ok c -> 0 <= x < n_vars c -> replaced c x w l h c1 -> vars c2 = vars c1 -> narrowed c c2 x l h.
Proof.
  intros K Hx [R G Ty El Eh] E. apply (narrowed_put c c2 x w); auto. rewrite E. apply retrailed_vars, R.
Qed.

Lemma raising_law c x n r : st_ok c -> 0 <= x < n_vars c -> raising c x n r -> raises_lb c x n r.
Proof.
  intros K Hx [Le | c' Lt | w c1 B R].
  - pose proof (dom_ne c x K Hx). cbn. split; [lia |]. rewrite Z.max_l by lia. apply narrowed_refl; assumption.
  - exact Lt.
  - destruct (after_change_vars c1 x (var_lo64 w =? var_hi64 w)) as (c2 & -> & E). cbn. split; [lia |]. rewrite Z.max_r by lia.
    apply (replaced_narrowed c x w _ _ c1); assumption.
Qed.

Lemma lowering_law c x n r : st_ok c -> 0 <= x < n_vars c -> lowering c x n r -> lowers_ub c x n r.
Proof.
  intros K Hx [Le | c' Lt | w c1 B R].
  - pose proof (dom_ne c x K Hx). cbn. split; [lia |]. rewrite Z.min_l by lia. apply narrowed_refl; assumption.
  - exact Lt.
  - destruct (after_change_vars c1 x (var_lo64 w =? var_hi64 w)) as (c2 & -> & E). cbn. split; [lia |]. rewrite Z.min_r by lia.
    apply (replaced_narrowed c x w _ _ c1); assumption.
Qed.

Lemma lb_replaced c x b : st_ok c -> 0 <= x < n_vars c -> int64 b ->
  lo_at c x < bval (var c x) b <= hi_at c x ->
  replaced c x (write_lb (var c x) b) (bval (var c x) b) (hi_at c x) (snd (trail_record_lb c x b)).
Proof.
  intros K Hx Ib B. pose proof (K x Hx) as G. cbn [var_at ctx_store] in G.
  pose proof (gd_lo _ G). pose proof (gd_hi _ G). unfold lo_at, hi_at in *. cbn [var_at ctx_store] in *.
  destruct (write_lb_reads (var c x) b G ltac:(lia)) as [El Eh].
  constructor; [apply record_lb_retrailed, Hx | apply good_write_lb; auto; lia | apply write_lb_type | exact El | exact Eh].
Qed.

Lemma ub_replaced c x b : st_ok c -> 0 <= x < n_vars c -> int64 b ->
  lo_at c x <= bval (var c x) b < hi_at c x ->
  replaced c x (write_ub (var c x) b) (lo_at c x) (bval (var c x) b) (snd (trail_record_ub c x b)).
Proof.
  intros K Hx Ib B. pose proof (K x Hx) as G. cbn [var_at ctx_store] in G.
  pose proof (gd_lo _ G). pose proof (gd_hi _ G). unfold lo_at, hi_at in *. cbn [var_at ctx_store] in *.
  destruct (write_ub_reads (var c x) b G ltac:(lia)) as [Eh El].
  constructor; [apply record_ub_retrailed, Hx | apply good_write_ub; auto; lia | apply write_ub_type | exact El | exact Eh].
Qed.

Lemma lb64_raising c x b : st_ok c -> 0 <= x < n_vars c -> int64 b ->
  raising c x (bval (var c x) b) (ctx_tighten_lb64 c x b).
Proof.
  intros K Hx Ib. pose proof (K x Hx) as G. cbn [var_at ctx_store] in G.
  pose proof (gd_lo _ G). pose proof (gd_hi _ G). unfold ctx_tighten_lb64, var_b_gt. rewrite !var_b_lt_spec.
  rewrite repr_max_spec by apply (gd_width _ G).
  change (bval (var c x) (var_lo64 (var c x))) with (lo_at c x).
  change (lo_of (var c x)) with (lo_at c x) in *. change (hi_of (var c x)) with (hi_at c x) in *.
  destruct (Z.ltb_spec (lo_at c x) (bval (var c x) b)); cbn [negb]; [| apply raise_none; lia].
  destruct (Z.ltb_spec (vmax (var c x)) (bval (var c x) b)); [apply raise_empty; lia |].
  pose proof (after_write c _ x _ Hx (record_lb_retrailed c x b Hx)) as Ev. cbv zeta. rewrite Ev.
  destruct (write_lb_reads (var c x) b G ltac:(lia)) as [El Eh].
  fold (hi_of (write_lb (var c x) b)) (lo_of (write_lb (var c x) b)). rewrite El, Eh.
  change (hi_of (var c x)) with (hi_at c x).
  destruct (Z.ltb_spec (hi_at c x) (bval (var c x) b)); [apply raise_empty; lia |].
  apply (raise_some _ _ _ (write_lb (var c x) b)); [lia |]. apply lb_replaced; auto; lia.
Qed.

Lemma ub64_lowering c x b : st_ok c -> 0 <= x < n_vars c -> int64 b ->
  lowering c x (bval (var c x) b) (ctx_tighten_ub64 c x b).
Proof.
  intros K Hx Ib. pose proof (K x Hx) as G. cbn [var_at ctx_store] in G.
  pose proof (gd_lo _ G). pose proof (gd_hi _ G). unfold ctx_tighten_ub64, var_b_gt. rewrite !var_b_lt_spec.
  rewrite repr_min_spec by apply (gd_width _ G).
  change (bval (var c x) (var_hi64 (var c x))) with (hi_at c x).
  change (lo_of (var c x)) with (lo_at c x) in *. change (hi_of (var c x)) with (hi_at c x) in *.
  destruct (Z.ltb_spec (bval (var c x) b) (hi_at c x)); cbn [negb]; [| apply lower_none; lia].
  destruct (Z.ltb_spec (bval (var c x) b) (vmin (var c x))); [apply lower_empty; lia |].
  pose proof (after_write c _ x _ Hx (record_ub_retrailed c x b Hx)) as Ev. cbv zeta. rewrite Ev.
  destruct (write_ub_reads (var c x) b G ltac:(lia)) as [Eh El].
  fold (hi_of (write_ub (var c x) b)) (lo_of (write_ub (var c x) b)). rewrite El, Eh.
  change (lo_of (var c x)) with (lo_at c x).
  destruct (Z.ltb_spec (bval (var c x) b) (lo_at c x)); [apply lower_empty; lia |].
  apply (lower_some _ _ _ (write_ub (var c x) b)); [lia |]. apply ub_replaced; auto; lia.
Qed.

Lemma write_lb_tier0 v b : var_is_tier0 (flags v) = true -> int32 b -> write_lb v b = set_lo v b.
Proof. intros T0 Ib. unfold write_lb. rewrite T0, s32_small by exact Ib. reflexivity. Qed.
Lemma write_ub_tier0 v b : var_is_tier0 (flags v) = true -> int32 b -> write_ub v b = set_hi v b.
Proof. intros T0 Ib. unfold write_ub. rewrite T0, s32_small by exact Ib. reflexivity. Qed.

(** On tier-0 variables the raw fields are the bounds. *)
Lemma tier0_fields c x : st_ok c -> 0 <= x < n_vars c -> tier0 c x ->
  lo (var c x) = lo_at c x /\ hi (var c x) = hi_at c x /\ (forall b, bval (var c x) b = b) /\
  var_is_tier0 (flags (var c x)) = true.
Proof.
  intros K Hx T0. pose proof (K x Hx) as G. destruct (good_tier0 _ G T0) as (Lo & Hi & _ & _ & W).
  split; [symmetry; exact Lo |]. split; [symmetry; exact Hi |].
  split; [intros b; apply bval_narrow; exact W | exact T0].
Qed.

(** There the 32-bit test for a fixed variable is the 64-bit one. *)
Lemma tier0_fixed w : good w -> var_is_tier0 (flags w) = true -> (var_lo64 w =? var_hi64 w) = (lo w =? hi w).
Proof.
  intros G T0. destruct (good_tier0 w G T0) as (L & Hh & _ & _ & W). unfold lo_of, hi_of in *.
  rewrite (bval_narrow w _ W) in L. rewrite (bval_narrow w _ W) in Hh. rewrite L, Hh. reflexivity.
Qed.

Lemma lb32_raising c x b : st_ok c -> 0 <= x < n_vars c -> tier0 c x -> int32 b ->
  raising c x b (ctx_tighten_lb32 c x b).
Proof.
  intros K Hx T0 Ib. destruct (tier0_fields c x K Hx T0) as (Lo & Hi & Eb & Tv).
  unfold ctx_tighten_lb32. rewrite Lo.
  destruct (Z.leb_spec b (lo_at c x)); [apply raise_none; lia |].
  pose proof (after_write c _ x _ Hx (record_lb_retrailed c x b Hx)) as Ev. cbv zeta. rewrite Ev.
  rewrite write_lb_tier0 by assumption. cbn [lo hi set_lo]. rewrite Hi, Z.gtb_ltb.
  destruct (Z.ltb_spec (hi_at c x) b); [apply raise_empty; lia |].
  assert (R : replaced c x (write_lb (var c x) b) b (hi_at c x) (snd (trail_record_lb c x b)))
    by (rewrite <- (Eb b) at 2; apply lb_replaced; auto using int32_64; rewrite Eb; lia).
  replace (b =? hi_at c x) with (var_lo64 (write_lb (var c x) b) =? var_hi64 (write_lb (var c x) b))
    by (rewrite write_lb_tier0, (tier0_fixed (set_lo (var c x) b)) by
          (exact Tv || exact Ib || (rewrite <- write_lb_tier0 by assumption; apply R)); cbn; rewrite Hi; reflexivity).
  apply (raise_some _ _ _ (write_lb (var c x) b)); [lia | exact R].
Qed.

Lemma ub32_lowering c x b : st_ok c -> 0 <= x < n_vars c -> tier0 c x -> int32 b ->
  lowering c x b (ctx_tighten_ub32 c x b).
Proof.
  intros K Hx T0 Ib. destruct (tier0_fields c x K Hx T0) as (Lo & Hi & Eb & Tv).
  unfold ctx_tighten_ub32. rewrite Hi, Z.geb_leb.
  destruct (Z.leb_spec (hi_at c x) b); [apply lower_none; lia |].
  pose proof (after_write c _ x _ Hx (record_ub_retrailed c x b Hx)) as Ev. cbv zeta. rewrite Ev.
  rewrite write_ub_tier0 by assumption. cbn [lo hi set_hi]. rewrite Lo, Z.gtb_ltb.
  destruct (Z.ltb_spec b (lo_at c x)); [apply lower_empty; lia |].
  assert (R : replaced c x (write_ub (var c x) b) (lo_at c x) b (snd (trail_record_ub c x b)))
    by (rewrite <- (Eb b) at 2; apply ub_replaced; auto using int32_64; rewrite Eb; lia).
  replace (lo_at c x =? b) with (var_lo64 (write_ub (var c x) b) =? var_hi64 (write_ub (var c x) b))
    by (rewrite write_ub_tier0, (tier0_fixed (set_hi (var c x) b)) by
          (exact Tv || exact Ib || (rewrite <- write_ub_tier0 by assumption; apply R)); cbn; rewrite Lo; reflexivity).
  apply (lower_some _ _ _ (write_ub (var c x) b)); [lia | exact R].
Qed.

#[export] Program Instance ctx_store_laws : StoreLaws (ctx T M S).
Next Obligation. intros. apply raising_law; auto. apply lb32_raising; auto. Qed.
Next Obligation. intros. apply lowering_law; auto. apply ub32_lowering; auto. Qed.
Next Obligation. intros. apply raising_law; auto. apply lb64_raising; auto. Qed.
Next Obligation. intros. apply lowering_law; auto. apply ub64_lowering; auto. Qed.
End Frames.

End Tighten.
