(* ===== verification/Propagate.v ===== *)
(** * Propagate: the propagation loop
    (src/src/c/dvs_propagate.c, [dvs_solver_propagate])

    The loop takes propagators off the queue by priority and fires them, until
    the queue is empty, a propagator fails, or the budget is spent.  The file
    gives the loop over any family of propagators that keeps the contract of a
    class, and shows that it loses no solution, that a conflict means there is
    none, that at the end every propagator is settled, and that it terminates. *)

From Stdlib Require Import ZArith Lia ZifyBool Bool.
From stdpp Require Import base gmap list numbers.
From S2P Require Import Prelude Vars Ctx Queue DynStack Trail GuardIx Wake Store Tighten.
Import Vars Ctx Queue DynStack Trail GuardIx Wake Store Tighten.
Open Scope Z_scope.

Module Propagate.

(** What a propagator's function pointer does. *)
Class Fires (T C : Type) `{Store C} := { fire : T -> list Z -> fire_t (C := C) }.

(** The constraint a propagator stands for, and the states it may be fired
    in. *)
Class Propagators (T C : Type) := {
  sem : T -> list Z -> assignment -> Prop;
  ready : C -> T -> list Z -> Prop }.

Class PropagatorLaws (T C : Type) `{Fires T C} `{!Propagators T C} `{!StoreLaws C} := {
  ready_sub c c' t ids : ready c t ids -> sub c' c -> ready c' t ids;
  fire_sound c t ids : st_ok c -> ready c t ids -> sound_from (sem t ids) (fire t ids) c;
  fire_decides c t ids : st_ok c -> ready c t ids -> all_ids (fixed c) ids ->
    decided (forall s, in_dom c s -> sem t ids s) (fire t ids) c }.

(** ** The loop *)

Section Ops.
Context {T M S : Type} `{DynStack M S} `{Env} `{!Fires T (ctx T M S)}.
Implicit Types c : ctx T M S.

Definition DVS_PROP_TRAIL_CAP : Z := Z.shiftl 1 23.
Definition DVS_WORK_PER_CONFLICT : Z := 1300.

Definition set_fires (b : work_budget) (f t : Z) : work_budget :=
  mk_budget f t (thrash_limit b) (thrash_hit b) (work_limit b) (work_hit b) (conflict_count b)
    (has_deadline b).
Definition set_thrash_hit (b : work_budget) : work_budget :=
  mk_budget (prop_fires b) (prop_ticks b) (thrash_limit b) true (work_limit b) (work_hit b)
    (conflict_count b) (has_deadline b).
Definition set_work_hit (b : work_budget) : work_budget :=
  mk_budget (prop_fires b) (prop_ticks b) (thrash_limit b) (thrash_hit b) (work_limit b) true
    (conflict_count b) (has_deadline b).

Definition ctx_work (b : work_budget) : Z :=
  u64 (prop_fires b + u64 (DVS_WORK_PER_CONFLICT * conflict_count b)).

Definition prop_over_budget c : bool * ctx T M S :=
  let b := budget c in
  if trail_count c >? DVS_PROP_TRAIL_CAP then (true, c) else
  if negb (thrash_limit b =? 0) && (prop_fires b >? thrash_limit b) then
    (true, set_budget c (set_thrash_hit b)) else
  if negb (work_limit b =? 0) && (ctx_work b >? work_limit b) then
    (true, set_budget c (set_work_hit b)) else
  (has_deadline b && past_deadline (prop_ticks b), c).

Definition count_fire c : ctx T M S :=
  let b := budget c in set_budget c (set_fires b (u64 (prop_fires b + 1)) (u32 (prop_ticks b + 1))).

(** One turn of the loop. *)
Inductive turn := Again (c : ctx T M S) | Done (r : prop_result) (c : ctx T M S).

(** [r = p->fire(p, ctx)] and what follows it. *)
Definition fire_prop c (ref : Z) (p : propagator T) : turn :=
  let '(r, c) := fire (template p) (watched p) (set_current_prop_ref c ref) in
  let c := set_current_prop_ref c EXPR_NULL in
  match r with
  | PROP_CONFLICT => Done PROP_CONFLICT (prop_enqueue (set_conflict_prop_ref c ref) ref)
  | PROP_ENTAILED => Again (trail_mark_entailed c ref)
  | PROP_OK => Again c
  end.

(** Skip or entail according to the guard, or fire. *)
Definition guarded_fire c (ref : Z) (p : propagator T) : turn :=
  let gid := guard_id c p in
  if gid =? EXPR_NULL then fire_prop c ref p else
  let glo := var_lo64 (var c gid) in
  let ghi := var_hi64 (var c gid) in
  if (glo =? 0) && (ghi =? 0) then Again (trail_mark_entailed c ref) else
  if negb (glo =? ghi) then Again c else fire_prop c ref p.

Definition propagate_turn c : turn :=
  match dequeue c with
  | None => Done PROP_OK c
  | Some (ref, c) =>
      match pool c !! ref with
      | None => Again c
      | Some p =>
          if has_flag p PROP_FLAG_ENTAILED then Again c else
          let c := count_fire c in
          let '(over, c) :=
            if Z.land (prop_ticks (budget c)) 1023 =? 0 then prop_over_budget c else (false, c) in
          if over then Done PROP_CONFLICT (set_prop_aborted (prop_enqueue c ref) true) else
          guarded_fire c ref p
      end
  end.

Fixpoint propagate_loop (fuel : nat) c : option (prop_result * ctx T M S) :=
  match fuel with
  | O => None
  | Datatypes.S fuel =>
      match propagate_turn c with
      | Done r c => Some (r, c)
      | Again c => propagate_loop fuel c
      end
  end.

Definition solver_propagate (fuel : nat) c : option (prop_result * ctx T M S) :=
  if prop_aborted c then Some (PROP_CONFLICT, c) else
  propagate_loop fuel (set_conflict_clause_idx (set_conflict_prop_ref c EXPR_NULL) EXPR_NULL).
End Ops.
Arguments Again {T M S}.
Arguments Done {T M S}.

(** ** What tightenings do to the whole context *)

Section Moves.
Context {T M S : Type} `{DynStack M S} `{Env}.
Implicit Types c : ctx T M S.

Definition same_bounds c c' x : Prop := lo_at c' x = lo_at c x /\ hi_at c' x = hi_at c x.
(** The variables whose changes a propagator must hear of. *)
Definition concerns c (p : propagator T) x : Prop :=
  x ∈ watched p \/ guard_id c p = x /\ x <> EXPR_NULL.

(** The work left in the domains. *)
Definition span (v : variable) : Z := hi_of v - lo_of v.
Definition spans (vs : list variable) : Z := foldr (fun v n => span v + n) 0 vs.

(** [c'] is reached from [c] by successful tightenings. *)
Record moved c c' : Prop := {
  mv_wired : wired c';
  mv_core : core <$> pool c' = core <$> pool c;
  mv_guard : prop_guard_vars c' = prop_guard_vars c /\
    n_prop_refs_capacity c' = n_prop_refs_capacity c;
  mv_sub : sub c' c;
  mv_mono : forall r p p', pool c !! r = Some p -> pool c' !! r = Some p' -> queued p -> queued p';
  mv_wake : forall r p x, pool c !! r = Some p -> concerns c p x -> ~ same_bounds c c' x -> awake c' r;
  mv_work : c' = c \/ spans (vars c') < spans (vars c) }.

Lemma moved_refl c : wired c -> st_ok c -> moved c c.
Proof.
  intros W K. constructor; auto; [apply sub_refl, K | congruence |].
  intros r p x _ _ []. split; reflexivity.
Qed.

Lemma guard_id_same c c' (p p' : propagator T) :
  prop_guard_vars c' = prop_guard_vars c -> n_prop_refs_capacity c' = n_prop_refs_capacity c ->
  prop_id p' = prop_id p -> guard_id c' p' = guard_id c p.
Proof. intros E1 E2 E3. unfold guard_id. rewrite E1, E2, E3. reflexivity. Qed.

Lemma core_fields (p p' : propagator T) : core p' = core p ->
  template p' = template p /\ prop_id p' = prop_id p /\ watched p' = watched p /\
  (entailed p' <-> entailed p).
Proof.
  intros E. pose proof (core_entailed p p' E). unfold core in E. injection E as E1 E2 E3 E4 E5.
  unfold watched. rewrite E4. auto.
Qed.

Lemma moved_trans a b c : moved a b -> moved b c -> moved a c.
Proof.
  intros [W1 C1 [G1 N1] S1 Q1 A1 X1] [W2 C2 [G2 N2] S2 Q2 A2 X2]. constructor.
  - exact W2.
  - congruence.
  - split; congruence.
  - eapply sub_trans; eauto.
  - intros r p p'' Hp Hp'' Qp. destruct (core_lookup _ _ r p C1 Hp) as (p' & Hp' & _). eauto.
  - intros r p x Hp Cx Ch. destruct (core_lookup _ _ r p C1 Hp) as (p' & Hp' & Cp).
    destruct (core_fields p p' Cp) as (_ & Ei & Ew & _).
    assert (Cx' : concerns b p' x).
    { unfold concerns in *. rewrite Ew, (guard_id_same a b p p' G1 N1 Ei). exact Cx. }
    destruct (decide (lo_at b x = lo_at a x /\ hi_at b x = hi_at a x)) as [[L1 H1] | Nb].
    + apply (A2 r p' x Hp' Cx'). intros [L2 H2]. apply Ch. split; congruence.
    + intros p'' Hp''. destruct (A1 r p x Hp Cx Nb p' Hp') as [Qp | Ep].
      * left. apply (Q2 r p' p'' Hp' Hp'' Qp).
      * right. destruct (core_lookup _ _ r p' C2 Hp') as (q & Hq & Cq). rewrite Hp'' in Hq.
        injection Hq as <-. apply (core_entailed p' p''); assumption.
  - destruct X1 as [-> | X1], X2 as [-> | X2]; auto; right; lia.
Qed.

Lemma spans_insert vs i v w : vs !! i = Some v ->
  spans (<[i := w]> vs) = spans vs - span v + span w.
Proof.
  unfold spans. revert i. induction vs as [| u vs IH]; intros [| i] E; try discriminate.
  - injection E as ->. cbn. lia.
  - change (<[Datatypes.S i := w]> (u :: vs)) with (u :: <[i := w]> vs). cbn [foldr].
    rewrite (IH i E). lia.
Qed.

Lemma clear_unassigned_fields c id f :
  vars (clear_unassigned c id f) = vars c /\ pool (clear_unassigned c id f) = pool c /\
  prop_guard_vars (clear_unassigned c id f) = prop_guard_vars c /\
  n_prop_refs_capacity (clear_unassigned c id f) = n_prop_refs_capacity c /\
  (wired c -> wired (clear_unassigned c id f)).
Proof.
  unfold clear_unassigned. destruct (_ && _); [| auto 10].
  split; [reflexivity |]. split; [reflexivity |]. split; [reflexivity |]. split; [reflexivity |].
  intros W. destruct (wi_queue _ W) as [qs Q]. apply (wired_frame c); auto. exists qs. apply (qrep_links c); auto.
Qed.

(** Replacing one variable and waking whom it concerns. *)
Lemma change_moved c c1 c2 id w l h f :
  wired c -> st_ok c -> 0 <= id < n_vars c -> replaced c id w l h c1 ->
  lo_at c id <= l -> h <= hi_at c id -> l - lo_at c id + (hi_at c id - h) > 0 ->
  after_change c1 id f = (PROP_OK, c2) -> moved c c2.
Proof.
  intros W K Hid Rp Ll Hh Ds. destruct (rp_trail _ _ _ _ _ _ Rp) as (s & t & n & E1).
  assert (N1 : n_vars c1 = n_vars c) by (rewrite E1; apply (n_vars_put c id w)).
  assert (W1 : wired c1).
  { destruct (wi_queue _ W) as [qs Q]. apply (wired_frame c); rewrite ?E1; auto.
    - rewrite <- E1. exact N1.
    - exists qs. apply (qrep_links c); auto. }
  unfold after_change. destruct (clear_unassigned_fields c1 id f) as (V1 & P1 & G1 & R1 & W1').
  specialize (W1' W1). set (c1' := clear_unassigned c1 id f) in *.
  assert (P0 : pool c1 = pool c) by (rewrite E1; reflexivity).
  assert (G0 : prop_guard_vars c1 = prop_guard_vars c /\ n_prop_refs_capacity c1 = n_prop_refs_capacity c)
    by (rewrite E1; auto).
  destruct G0 as [G0 R0]. rewrite G0 in G1. rewrite R0 in R1. pose proof (wi_heads _ W1') as Nh.
  destruct (watcher_heads c1'); [| congruence]. intros [= <-].
  assert (N1' : n_vars c1' = n_vars c) by (unfold n_vars in *; rewrite V1; exact N1).
  destruct (wake_var_spec c1' id W1' ltac:(lia)) as [Mo Aw].
  assert (Ev : vars (wake_var c1' id) = vars c1) by (rewrite wake_var_vars; exact V1).
  pose proof (replaced_narrowed c id w l h c1 _ K Hid Rp Ev) as Nr.
  assert (Fr : prop_guard_vars (wake_var c1' id) = prop_guard_vars c /\
    n_prop_refs_capacity (wake_var c1' id) = n_prop_refs_capacity c)
    by (rewrite (mo_frame _ _ Mo); cbn; auto).
  clear V1 W1. constructor.
  - apply (more_wired c1'); assumption.
  - rewrite (mo_core _ _ Mo), P1, P0. reflexivity.
  - exact Fr.
  - apply (narrowed_sub c _ id l h); auto.
  - intros r p p' Hp Hp' Qp. rewrite <- P0, <- P1 in Hp.
    apply (mo_mono _ _ Mo (wi_queue _ W1') r p p'); assumption.
  - intros r p x Hp Cx Ch. destruct (Z.eq_dec x id) as [-> | Ne].
    + apply (Aw r p); [rewrite P1, P0; exact Hp |].
      destruct Cx as [Cx | [Cx _]]; [auto |]. right.
      rewrite (guard_id_same c c1' p p) by auto. exact Cx.
    + exfalso. apply Ch. unfold same_bounds, lo_at, hi_at.
      rewrite (nr_other _ _ _ _ _ Nr x); auto.
      destruct Cx as [Cx | [<- Cn]]; [apply (wi_watch _ W r p x Hp Cx) |].
      apply (wi_guard _ W r p Hp Cn).
  - right. rewrite Ev, E1. cbn [vars set_trail_count set_trail set_dynamic].
    unfold put_var. cbn [vars set_vars]. rewrite (spans_insert _ _ (var c id)) by (apply var_lookup, Hid).
    unfold span. rewrite (rp_lo _ _ _ _ _ _ Rp), (rp_hi _ _ _ _ _ _ Rp).
    unfold lo_at, hi_at in *. cbn in *. lia.
Qed.

Lemma raising_moved c x n r c' : wired c -> st_ok c -> 0 <= x < n_vars c ->
  raising c x n r -> r = (PROP_OK, c') -> moved c c'.
Proof.
  intros W K Hx [Le | d Lt | w c1 B R] E.
  - injection E as <-. apply moved_refl; assumption.
  - discriminate.
  - apply (change_moved c c1 c' x w n (hi_at c x) (var_lo64 w =? var_hi64 w)); auto; lia.
Qed.

Lemma lowering_moved c x n r c' : wired c -> st_ok c -> 0 <= x < n_vars c ->
  lowering c x n r -> r = (PROP_OK, c') -> moved c c'.
Proof.
  intros W K Hx [Le | d Lt | w c1 B R] E.
  - injection E as <-. apply moved_refl; assumption.
  - discriminate.
  - apply (change_moved c c1 c' x w (lo_at c x) n (var_lo64 w =? var_hi64 w)); auto; lia.
Qed.

Lemma steps_moved c c' : steps c c' -> wired c -> st_ok c -> moved c c'.
Proof.
  intros St W K. induction St as [c | c c1 c2 x b St IH K1 V Ti Ib E | c c1 c2 x b St IH K1 V Ti Ib E
    | c c1 c2 x b St IH K1 V Ib E | c c1 c2 x b St IH K1 V Ib E]; [apply moved_refl; assumption | ..];
    specialize (IH W K); eapply moved_trans; try exact IH; pose proof (mv_wired _ _ IH) as W1; cbn in E, V.
  - apply (raising_moved c1 x b (ctx_tighten_lb32 c1 x b)); auto. apply lb32_raising; auto.
  - apply (lowering_moved c1 x b (ctx_tighten_ub32 c1 x b)); auto. apply ub32_lowering; auto.
  - eapply raising_moved; eauto. apply lb64_raising; auto.
  - eapply lowering_moved; eauto. apply ub64_lowering; auto.
Qed.
End Moves.

(** ** Constraints and their solutions *)

Section Solutions.
Context {T M S : Type} `{DynStack M S} `{Env} `{!Propagators T (ctx T M S)}.
Implicit Types c : ctx T M S.

(** A guarded constraint need not hold where its guard is 0. *)
Definition holds c (s : assignment) (p : propagator T) : Prop :=
  guard_id c p <> EXPR_NULL /\ s (guard_id c p) = 0 \/ sem (template p) (watched p) s.
Definition solves c (s : assignment) : Prop :=
  in_dom c s /\ forall r p, pool c !! r = Some p -> holds c s p.

Definition shape (p : propagator T) : T * Z * list Z := (template p, prop_id p, watched p).
(** The same propagators under the same guards. *)
Definition same_props c c' : Prop :=
  shape <$> pool c' = shape <$> pool c /\ prop_guard_vars c' = prop_guard_vars c /\
  n_prop_refs_capacity c' = n_prop_refs_capacity c.

Lemma same_props_refl c : same_props c c.
Proof. repeat split. Qed.
Lemma same_props_trans a b c : same_props a b -> same_props b c -> same_props a c.
Proof. intros (? & ? & ?) (? & ? & ?). repeat split; congruence. Qed.
Lemma same_props_sym a b : same_props a b -> same_props b a.
Proof. intros (? & ? & ?). repeat split; congruence. Qed.

Lemma core_shape (m m' : gmap Z (propagator T)) : core <$> m' = core <$> m -> shape <$> m' = shape <$> m.
Proof.
  intros E. apply map_eq. intros r. apply (f_equal (lookup r)) in E. rewrite !lookup_fmap in *.
  destruct (m' !! r) as [p' |], (m !! r) as [p |]; try discriminate; [| reflexivity].
  injection E as E1 E2 _ E4 _. cbn. unfold shape, watched. congruence.
Qed.

Lemma moved_props c c' : moved c c' -> same_props c c'.
Proof. intros Mv. split; [apply core_shape, (mv_core _ _ Mv) | apply (mv_guard _ _ Mv)]. Qed.

Lemma shape_back (m m' : gmap Z (propagator T)) r p' : shape <$> m' = shape <$> m -> m' !! r = Some p' ->
  exists p, m !! r = Some p /\ shape p = shape p'.
Proof.
  intros E Hp'. apply (f_equal (lookup r)) in E. rewrite !lookup_fmap, Hp' in E.
  destruct (m !! r) as [p |]; [| discriminate]. cbn in E. exists p. split; [reflexivity | congruence].
Qed.

Lemma guard_id_shape c c' p p' : same_props c c' -> shape p' = shape p -> guard_id c' p' = guard_id c p.
Proof. intros (_ & E1 & E2) [= _ E3 _]. apply guard_id_same; assumption. Qed.

Lemma holds_same c c' s p p' : same_props c c' -> shape p' = shape p -> holds c' s p' <-> holds c s p.
Proof.
  intros Sp E. unfold holds. rewrite (guard_id_shape c c' p p' Sp E).
  injection E as -> _ ->. tauto.
Qed.

Lemma concerns_same c c' p p' x : same_props c c' -> shape p' = shape p -> concerns c' p' x <-> concerns c p x.
Proof.
  intros Sp E. unfold concerns. rewrite (guard_id_shape c c' p p' Sp E).
  injection E as _ _ ->. tauto.
Qed.

(** [c'] has the propagators of [c], smaller domains and all its solutions. *)
Record kept c c' : Prop := {
  kp_props : same_props c c';
  kp_sub : sub c' c;
  kp_dom : forall s, solves c s -> in_dom c' s }.

Lemma kept_solves c c' s : kept c c' -> solves c s <-> solves c' s.
Proof.
  intros [Sp Sb Kd]. split.
  - intros Sv. split; [apply Kd, Sv |]. intros r p' Hp'.
    destruct (shape_back _ _ r p' (proj1 Sp) Hp') as (p & Hp & E).
    apply (holds_same c c' s p p' Sp (eq_sym E)), (proj2 Sv r p Hp).
  - intros Sv. split; [apply (sub_in_dom c c'); [exact Sb | apply Sv] |]. intros r p Hp.
    destruct (shape_back _ _ r p (eq_sym (proj1 Sp)) Hp) as (p' & Hp' & E).
    apply (holds_same c c' s p p' Sp E), (proj2 Sv r p' Hp').
Qed.

Lemma kept_trans a b c : kept a b -> kept b c -> kept a c.
Proof.
  intros K1 K2. constructor.
  - eapply same_props_trans; [apply K1 | apply K2].
  - eapply sub_trans; [apply K2 | apply K1].
  - intros s Sv. apply (kp_dom _ _ K2), (kept_solves a b s K1), Sv.
Qed.

(** The same variables. *)
Lemma vars_sub c c' : st_ok c -> vars c' = vars c -> sub c' c.
Proof.
  intros K E. destruct (var_of_vars c c' E) as [V N]. constructor; cbn.
  - intros x Hx. cbn in Hx. rewrite N in Hx. cbn. rewrite V. apply (K x Hx).
  - intros x. rewrite N. tauto.
  - intros x _. rewrite V. split; reflexivity.
  - intros x _. unfold lo_at, hi_at. cbn. rewrite V. lia.
Qed.

Lemma vars_in_dom c c' s : vars c' = vars c -> in_dom c s <-> in_dom c' s.
Proof.
  intros E. destruct (var_of_vars c c' E) as [V N]. unfold in_dom, lo_at, hi_at. cbn.
  split; intros D x Hx; [rewrite N in Hx | rewrite <- N in Hx]; specialize (D x Hx);
    [rewrite V | rewrite <- V]; exact D.
Qed.

Lemma vars_kept c c' : st_ok c -> vars c' = vars c -> same_props c c' -> kept c c'.
Proof.
  intros K E Sp. constructor; [exact Sp | apply vars_sub; assumption |].
  intros s [D _]. apply (vars_in_dom c c'); assumption.
Qed.

(** ** The invariant of the loop *)

(** Once its variables and its guard are fixed, the constraint holds. *)
Definition decided_at c (p : propagator T) : Prop :=
  (forall x, concerns c p x -> fixed c x) -> forall s, in_dom c s -> holds c s p.

(** Every propagator but [o] is queued, entailed or has settled. *)
Record pinv (o : option Z) c : Prop := {
  pi_wired : wired c;
  pi_ok : st_ok c;
  pi_ready : forall r p, pool c !! r = Some p -> ready c (template p) (watched p);
  pi_entailed : forall r p, pool c !! r = Some p -> entailed p -> forall s, in_dom c s -> holds c s p;
  pi_settled : forall r p, pool c !! r = Some p -> Some r <> o ->
    queued p \/ entailed p \/ decided_at c p }.
End Solutions.

Section Invariant.
Context {T M S : Type} `{DynStack M S} `{Env} `{!Fires T (ctx T M S)} `{!Propagators T (ctx T M S)}
  `{!PropagatorLaws T (ctx T M S)}.
Implicit Types c : ctx T M S.

(** How an operation that is not a firing acts on the propagators: those in
    [o'] excepted, the queued stay queued and the entailed entailed. *)
Lemma pinv_frame o o' c c' :
  pinv o c -> wired c' -> vars c' = vars c -> same_props c c' ->
  (forall r p p', pool c !! r = Some p -> pool c' !! r = Some p' -> entailed p' ->
     entailed p \/ forall s, in_dom c s -> holds c s p) ->
  (forall r p p', pool c !! r = Some p -> pool c' !! r = Some p' -> Some r <> o' ->
     (Some r = o -> queued p' \/ entailed p' \/ decided_at c p) /\
     (queued p -> queued p') /\ (entailed p -> entailed p')) ->
  pinv o' c'.
Proof.
  intros I W' Ev Sp He Hs.
  assert (Back : forall r p', pool c' !! r = Some p' -> exists p, pool c !! r = Some p /\ shape p = shape p')
    by (intros r p'; apply shape_back, Sp).
  pose proof (fun s => vars_in_dom c c' s Ev) as Vd.
  constructor; [exact W' | apply (sb_ok _ _ (vars_sub c c' (pi_ok _ _ I) Ev)) | | |].
  - intros r p' Hp'. destruct (Back r p' Hp') as (p & Hp & [= <- _ <-]).
    apply (ready_sub c); [apply (pi_ready _ _ I r p Hp) | apply vars_sub; [apply I | exact Ev]].
  - intros r p' Hp' Ep s D. destruct (Back r p' Hp') as (p & Hp & E). apply Vd in D.
    apply (holds_same c c' s p p' Sp (eq_sym E)).
    destruct (He r p p' Hp Hp' Ep) as [Ep' | Hh]; [apply (pi_entailed _ _ I r p Hp Ep' s D) | apply Hh, D].
  - intros r p' Hp' Ne. destruct (Back r p' Hp') as (p & Hp & E).
    destruct (Hs r p p' Hp Hp' Ne) as (So & Sq & Se).
    assert (Dc : decided_at c p -> decided_at c' p').
    { intros Dp Fx s D. apply (holds_same c c' s p p' Sp (eq_sym E)). apply Dp; [| apply Vd, D].
      intros x Cx. apply (concerns_same c c' p p' x Sp (eq_sym E)) in Cx. specialize (Fx x Cx).
      destruct (var_of_vars c c' Ev) as [V _]. unfold fixed, lo_at, hi_at in *. cbn in *.
      rewrite <- !V. exact Fx. }
    destruct (decide (Some r = o)) as [Eo | No].
    + destruct (So Eo) as [? | [? | ?]]; auto.
    + destruct (pi_settled _ _ I r p Hp No) as [? | [? | ?]]; auto.
Qed.

Lemma same_pool_pinv o c c' : pinv o c -> wired c' -> vars c' = vars c -> pool c' = pool c ->
  prop_guard_vars c' = prop_guard_vars c -> n_prop_refs_capacity c' = n_prop_refs_capacity c -> pinv o c'.
Proof.
  intros I W' Ev Ep Eg En. apply (pinv_frame o o c); auto.
  - repeat split; auto. rewrite Ep. reflexivity.
  - intros r p p' Hp Hp'. rewrite Ep, Hp in Hp'. injection Hp' as <-. auto.
  - intros r p p' Hp Hp' No. rewrite Ep, Hp in Hp'. injection Hp' as <-.
    split; [congruence | auto].
Qed.

Lemma enqueue_pinv c r : pinv (Some r) c -> pinv None (prop_enqueue c r).
Proof.
  intros I. destruct (enqueue_more c r (wi_queue _ (pi_wired _ _ I))) as [Mo Aw].
  assert (Sp : same_props c (prop_enqueue c r)).
  { split; [apply core_shape, (mo_core _ _ Mo) |]. rewrite (mo_frame _ _ Mo). cbn. auto. }
  assert (Ent : forall i p p', pool c !! i = Some p -> pool (prop_enqueue c r) !! i = Some p' ->
    (entailed p' <-> entailed p)).
  { intros i p p' Hp Hp'. destruct (core_lookup _ _ i p (mo_core _ _ Mo) Hp) as (q & Hq & E).
    rewrite Hp' in Hq. injection Hq as <-. apply core_entailed, E. }
  apply (pinv_frame (Some r) None c); auto.
  - apply (more_wired c); [apply I | exact Mo].
  - apply enqueue_vars.
  - intros i p p' Hp Hp' Ep. left. apply (Ent i p p' Hp Hp'), Ep.
  - intros i p p' Hp Hp' _. split.
    + intros [= ->]. destruct (Aw p' Hp'); auto.
    + split; [apply (mo_mono _ _ Mo (wi_queue _ (pi_wired _ _ I)) i p p' Hp Hp') | apply (Ent i p p' Hp Hp')].
Qed.

(** What taking a propagator off the queue changes. *)
Record taken c (r : Z) c1 : Prop := {
  tk_wired : wired c1;
  tk_vars : vars c1 = vars c;
  tk_props : same_props c c1;
  tk_budget : budget c1 = budget c /\ prop_aborted c1 = prop_aborted c;
  tk_flags : forall i p p', pool c !! i = Some p -> pool c1 !! i = Some p' ->
    (entailed p' <-> entailed p) /\ (i <> r -> queued p' <-> queued p);
  tk_prop : exists p p', pool c !! r = Some p /\ pool c1 !! r = Some p' /\ queued p /\ ~ queued p' }.

Lemma dequeue_taken c r c1 : wired c -> dequeue c = Some (r, c1) -> taken c r c1.
Proof.
  intros W Hd. destruct (wi_queue _ W) as [qs Q]. pose proof (dequeue_refines c qs Q) as R.
  destruct (spec_dequeue 16 0 qs) as [[r0 qs'] |] eqn:Es; [| congruence].
  destruct R as (c0 & E & Q' & Co & Fr). rewrite Hd in E. injection E as <- <-. unfold framed in Fr.
  assert (E : vars c1 = vars c /\ prop_guard_vars c1 = prop_guard_vars c /\
    n_prop_refs_capacity c1 = n_prop_refs_capacity c /\ watcher_heads c1 = watcher_heads c /\
    prop_refs c1 = prop_refs c /\ n_props c1 = n_props c /\ guard_ix c1 = guard_ix c /\
    budget c1 = budget c /\ prop_aborted c1 = prop_aborted c) by (rewrite Fr; cbn; auto 20).
  destruct E as (E1 & E2 & E3 & E4 & E5 & E6 & E7 & E8 & E9).
  destruct (spec_dequeue_split _ _ _ _ _ Es) as (lvl & Bl & El & Eo).
  pose proof (qr_nodup _ _ Q lvl ltac:(lia)) as N. rewrite El in N. apply list.NoDup_cons in N as [Nr N].
  constructor.
  - apply (wired_frame c); auto; [unfold n_vars; rewrite E1; reflexivity | apply core_wires, Co | eauto].
  - exact E1.
  - split; [apply core_shape, Co | auto].
  - auto.
  - intros i p p' Hp Hp'. destruct (core_lookup _ _ i p Co Hp) as (p2 & Hp2 & E).
    rewrite Hp' in Hp2. injection Hp2 as <-. split; [apply core_entailed, E |]. intros Ne.
    unfold queued. rewrite (queued_iff c1 qs' i p' Q' Hp'), (queued_iff c qs i p Q Hp).
    replace (priority p') with (priority p) by (unfold core in E; congruence).
    destruct (Z.eq_dec (priority p) lvl) as [-> | Nl]; [| rewrite (Eo _ Nl); tauto].
    rewrite El, elem_of_cons. tauto.
  - destruct (qr_in _ _ Q lvl r ltac:(lia)) as (p & Hp & Pp & Qp); [rewrite El; left |].
    destruct (core_lookup _ _ r p Co Hp) as (p' & Hp' & E). exists p, p'.
    split; [exact Hp |]. split; [exact Hp' |]. split; [exact Qp |].
    unfold queued. rewrite (queued_iff c1 qs' r p' Q' Hp').
    replace (priority p') with lvl by (unfold core in E; congruence). exact Nr.
Qed.

Lemma dequeue_pinv c r c1 : pinv None c -> dequeue c = Some (r, c1) -> pinv (Some r) c1.
Proof.
  intros I Hd. pose proof (dequeue_taken c r c1 (pi_wired _ _ I) Hd) as Tk.
  apply (pinv_frame None (Some r) c); auto; [apply Tk | apply Tk | apply Tk | |].
  - intros i p p' Hp Hp' Ep. left. apply (tk_flags _ _ _ Tk i p p' Hp Hp'), Ep.
  - intros i p p' Hp Hp' Ne. split; [discriminate |].
    destruct (tk_flags _ _ _ Tk i p p' Hp Hp') as [Fe Fq]. split; [apply Fq; congruence | apply Fe].
Qed.

(** What marking a propagator entailed changes. *)
Record marked c (r : Z) c1 : Prop := {
  mk_wired : wired c1;
  mk_vars : vars c1 = vars c;
  mk_props : same_props c c1;
  mk_flags : forall i p p', pool c !! i = Some p -> pool c1 !! i = Some p' ->
    (entailed p -> entailed p') /\ (entailed p' -> entailed p \/ i = r) /\ (queued p' <-> queued p) }.

Lemma mark_marked c r : wired c -> marked c r (trail_mark_entailed c r).
Proof.
  intros W. destruct (wi_queue _ W) as [qs Q]. unfold trail_mark_entailed.
  destruct (ds_alloc _ _ _) as [[a |] st].
  2:{ constructor; [apply (wired_frame c); auto; exists qs; apply (qrep_links c); auto
      | reflexivity | repeat split |]. intros i p p' Hp Hp'. cbn in Hp'. rewrite Hp in Hp'.
      injection Hp' as <-. tauto. }
  unfold update_prop. cbn [pool set_dynamic]. destruct (pool c !! r) as [p |] eqn:Hr.
  2:{ constructor; [apply (wired_frame c); auto; exists qs; apply (qrep_links c); auto
      | reflexivity | repeat split |]. intros i p p' Hp Hp'. cbn in Hp'. rewrite Hp in Hp'.
      injection Hp' as <-. tauto. }
  set (m := <[r := flag_on p PROP_FLAG_ENTAILED]> (pool c)).
  assert (Fm : forall {B} (f : propagator T -> B), f (flag_on p PROP_FLAG_ENTAILED) = f p -> f <$> m = f <$> pool c).
  { intros B f E. subst m. apply map_eq. intros i. rewrite !lookup_fmap.
    destruct (decide (r = i)) as [<- | Ne]; [rewrite lookup_insert_eq, Hr; cbn; rewrite E; reflexivity |].
    rewrite lookup_insert_ne by exact Ne. reflexivity. }
  assert (Fq : has_flag (flag_on p PROP_FLAG_ENTAILED) PROP_FLAG_IN_QUEUE = has_flag p PROP_FLAG_IN_QUEUE).
  { change PROP_FLAG_ENTAILED with (2 ^ 0). change PROP_FLAG_IN_QUEUE with (2 ^ 1).
    rewrite has_flag_on by lia. reflexivity. }
  assert (Fe : entailed (flag_on p PROP_FLAG_ENTAILED)).
  { unfold entailed. change PROP_FLAG_ENTAILED with (2 ^ 0). rewrite has_flag_on by lia. reflexivity. }
  constructor.
  - apply (wired_frame c); auto; try (apply Fm; reflexivity). exists qs. apply (qrep_links c); [exact Q | reflexivity |]. cbn [pool set_entail put_prop set_pool].
    apply Fm. unfold link. rewrite Fq. reflexivity.
  - reflexivity.
  - split; [apply Fm; reflexivity | auto].
  - intros i q q' Hq Hq'. change (m !! i = Some q') in Hq'. subst m.
    destruct (decide (r = i)) as [<- | Ne].
    + rewrite lookup_insert_eq in Hq'. injection Hq' as <-. rewrite Hr in Hq. injection Hq as <-.
      unfold queued. rewrite Fq. tauto.
    + rewrite lookup_insert_ne in Hq' by exact Ne. rewrite Hq in Hq'. injection Hq' as <-. tauto.
Qed.

Lemma mark_pinv c r p : pinv (Some r) c -> pool c !! r = Some p -> (forall s, in_dom c s -> holds c s p) ->
  pinv None (trail_mark_entailed c r).
Proof.
  intros I Hr Hh. pose proof (mark_marked c r (pi_wired _ _ I)) as Mk.
  apply (pinv_frame (Some r) None c); auto; [apply Mk | apply Mk | apply Mk | |].
  - intros i q q' Hq Hq' Eq. destruct (mk_flags _ _ _ Mk i q q' Hq Hq') as (_ & Fe & _).
    destruct (Fe Eq) as [? | ->]; [auto |]. right. rewrite Hr in Hq. injection Hq as <-. exact Hh.
  - intros i q q' Hq Hq' _. destruct (mk_flags _ _ _ Mk i q q' Hq Hq') as (Fe & _ & Fq).
    split; [| tauto]. intros [= ->]. right. right. rewrite Hr in Hq. injection Hq as <-.
    intros _. exact Hh.
Qed.

(** An unsettled propagator may settle by its own constraint. *)
Lemma settle_pinv c r p : pinv (Some r) c -> pool c !! r = Some p ->
  queued p \/ entailed p \/ decided_at c p -> pinv None c.
Proof.
  intros I Hr Hs. apply (pinv_frame (Some r) None c); auto; [apply I | apply same_props_refl | |].
  - intros i q q' Hq Hq'. rewrite Hq in Hq'. injection Hq' as <-. auto.
  - intros i q q' Hq Hq' _. rewrite Hq in Hq'. injection Hq' as <-. split; [| auto].
    intros [= ->]. rewrite Hr in Hq. injection Hq as <-. exact Hs.
Qed.

(** *** Tightenings *)

(** Nobody is left out: whoever a change concerns is awake. *)
Lemma moved_settled c c' r p p' :
  moved c c' -> pool c !! r = Some p -> pool c' !! r = Some p' -> wired c -> decided_at c p ->
  queued p' \/ entailed p' \/ decided_at c' p'.
Proof.
  intros Mv Hp Hp' W Dp. pose proof (moved_props c c' Mv) as Sp.
  assert (E : shape p' = shape p).
  { destruct (shape_back _ _ r p' (proj1 Sp) Hp') as (q & Hq & E). rewrite Hp in Hq.
    injection Hq as <-. congruence. }
  set (moves := fun x => concerns c p x /\ ~ same_bounds c c' x).
  assert (Dec : (exists x, moves x) \/ forall x, concerns c p x -> same_bounds c c' x).
  { assert (L : forall xs : list Z, (exists x, x ∈ xs /\ ~ same_bounds c c' x) \/ forall x, x ∈ xs -> same_bounds c c' x).
    { induction xs as [| x xs [(y & Hy & Ny) | IH]].
      - right. intros x X. inversion X.
      - left. exists y. split; [right; exact Hy | exact Ny].
      - destruct (decide (lo_at c' x = lo_at c x /\ hi_at c' x = hi_at c x)) as [Sx | Nx].
        + right. intros y Hy. apply elem_of_cons in Hy as [-> | Hy]; [exact Sx | apply IH, Hy].
        + left. exists x. split; [left | exact Nx]. }
    destruct (L (watched p)) as [(x & Hx & Nx) | Lw]; [left; exists x; split; [left; exact Hx | exact Nx] |].
    destruct (decide (guard_id c p <> EXPR_NULL /\
      ~ (lo_at c' (guard_id c p) = lo_at c (guard_id c p) /\ hi_at c' (guard_id c p) = hi_at c (guard_id c p))))
      as [[Gn Nx] | Lg].
    - left. exists (guard_id c p). split; [right; auto | exact Nx].
    - right. intros x [Hx | [<- Gn]]; [apply Lw, Hx |]. unfold same_bounds.
      destruct (decide (lo_at c' (guard_id c p) = lo_at c (guard_id c p) /\
        hi_at c' (guard_id c p) = hi_at c (guard_id c p))); tauto. }
  destruct Dec as [(x & Cx & Nx) | Same].
  - destruct (mv_wake _ _ Mv r p x Hp Cx Nx p' Hp') as [? | ?]; auto.
  - right. right. intros Fx s D. apply (holds_same c c' s p p' Sp E), Dp.
    + intros x Cx. specialize (Fx x (proj2 (concerns_same c c' p p' x Sp E) Cx)).
      destruct (Same x Cx) as [L1 H1]. unfold fixed in *. congruence.
    + apply (sub_in_dom c c' s (mv_sub _ _ Mv) D).
Qed.

Lemma moved_pinv c c' o : pinv o c -> moved c c' -> pinv o c'.
Proof.
  intros I Mv. pose proof (moved_props c c' Mv) as Sp.
  assert (Back : forall i p', pool c' !! i = Some p' -> exists p, pool c !! i = Some p /\ core p' = core p).
  { intros i p' Hp'. destruct (core_lookup _ _ i p' (eq_sym (mv_core _ _ Mv)) Hp') as (p & Hp & E). eauto. }
  constructor; [apply Mv | apply (sb_ok _ _ (mv_sub _ _ Mv)) | | |].
  - intros i p' Hp'. destruct (Back i p' Hp') as (p & Hp & E). destruct (core_fields p p' E) as (-> & _ & -> & _).
    apply (ready_sub c); [apply (pi_ready _ _ I i p Hp) | apply Mv].
  - intros i p' Hp' Ep s D. destruct (Back i p' Hp') as (p & Hp & E).
    destruct (core_fields p p' E) as (E1 & E2 & E3 & Ee).
    apply (holds_same c c' s p p' Sp); [unfold shape; congruence |].
    apply (pi_entailed _ _ I i p Hp (proj1 Ee Ep)), (sub_in_dom c c' s (mv_sub _ _ Mv) D).
  - intros i p' Hp' Ne. destruct (Back i p' Hp') as (p & Hp & E).
    destruct (core_fields p p' E) as (_ & _ & _ & Ee).
    destruct (pi_settled _ _ I i p Hp Ne) as [Qp | [Ep | Dp]].
    + left. apply (mv_mono _ _ Mv i p p' Hp Hp' Qp).
    + right. left. apply Ee, Ep.
    + apply (moved_settled c c' i p p' Mv Hp Hp' (pi_wired _ _ I) Dp).
Qed.

(** *** Guards *)

Lemma u64_inj a b : int64 a -> int64 b -> u64 a = u64 b -> a = b.
Proof.
  unfold int64, u64. intros Ha Hb E. apply Z.cong_iff_ex in E as [k E]. assert (k = 0) by lia. lia.
Qed.

Lemma bval_inj v a b : int64 a -> int64 b -> bval v a = bval v b -> a = b.
Proof. unfold bval. destruct (beyond v); [apply u64_inj | auto]. Qed.

(** Comparing the raw bounds of a guard compares its bounds. *)
Lemma guard_reads c g : st_ok c -> 0 <= g < n_vars c ->
  (var_lo64 (var c g) = var_hi64 (var c g) <-> fixed c g) /\
  (var_lo64 (var c g) = 0 <-> lo_at c g = 0) /\ (var_hi64 (var c g) = 0 <-> hi_at c g = 0).
Proof.
  intros K Hg. pose proof (int64_lo c g K Hg) as Il. pose proof (int64_hi c g K Hg) as Ih.
  cbn in Il, Ih. unfold fixed, lo_at, hi_at, lo_of, hi_of. cbn [var_at ctx_store].
  assert (B0 : bval (var c g) 0 = 0) by (unfold bval; destruct (beyond _); reflexivity).
  assert (I0 : int64 0) by (unfold int64; lia).
  split; [| split]; (split; [congruence |]); intros E; apply (bval_inj (var c g)); congruence.
Qed.

(** *** The work left *)

Definition queued_set c : gset Z :=
  dom (filter (fun rp => has_flag (snd rp) PROP_FLAG_IN_QUEUE = true) (pool c)).
Definition rank c : nat :=
  Z.to_nat (spans (vars c)) * Datatypes.S (size (pool c)) + size (queued_set c).

Lemma queued_set_spec c r : r ∈ queued_set c <-> exists p, pool c !! r = Some p /\ queued p.
Proof.
  unfold queued_set. rewrite elem_of_dom. unfold is_Some, queued. split.
  - intros (p & Hp). apply map_lookup_filter_Some in Hp as [Hp F]. eauto.
  - intros (p & Hp & F). exists p. apply map_lookup_filter_Some. auto.
Qed.

Lemma queued_set_size c : (size (queued_set c) <= size (pool c))%nat.
Proof.
  rewrite <- size_dom. apply subseteq_size. intros r Hr. apply queued_set_spec in Hr as (p & Hp & _).
  apply elem_of_dom. eauto.
Qed.

Lemma same_props_size c c' : same_props c c' -> size (pool c') = size (pool c).
Proof. intros [E _]. rewrite <- (map_size_fmap shape (pool c')), E. apply map_size_fmap. Qed.

Lemma spans_nonneg c : st_ok c -> 0 <= spans (vars c).
Proof.
  intros K. assert (F : Forall (fun v => 0 <= span v) (vars c)).
  { apply Forall_lookup_2. intros i v Hi. pose proof (lookup_lt_Some _ _ _ Hi) as Li.
    specialize (K (Z.of_nat i)). cbn in K. unfold var, n_vars in K. rewrite Nat2Z.id, Hi in K. cbn in K.
    pose proof (gd_ne v (K ltac:(lia))). unfold span. lia. }
  unfold spans. induction F; cbn; lia.
Qed.

(** Tightened, or nothing but marks and counters changed. *)
Definition progress c c' : Prop :=
  spans (vars c') < spans (vars c) \/
  spans (vars c') = spans (vars c) /\ queued_set c' = queued_set c.

Lemma progress_rank c c1 c' :
  st_ok c -> st_ok c' -> same_props c c1 -> same_props c1 c' -> vars c1 = vars c ->
  (size (queued_set c1) < size (queued_set c))%nat -> progress c1 c' -> (rank c' < rank c)%nat.
Proof.
  intros K K' Sp Sp' Ev Lq P. unfold rank.
  rewrite (same_props_size c1 c' Sp'), (same_props_size c c1 Sp).
  pose proof (spans_nonneg c K). pose proof (spans_nonneg c' K').
  unfold progress in P. rewrite Ev in P. pose proof (queued_set_size c') as Q'.
  rewrite (same_props_size c1 c' Sp'), (same_props_size c c1 Sp) in Q'.
  destruct P as [Lt | [-> ->]]; [| lia].
  assert (Z.to_nat (spans (vars c')) < Z.to_nat (spans (vars c)))%nat by lia. nia.
Qed.

Lemma taken_size c r c1 : taken c r c1 -> (size (queued_set c1) < size (queued_set c))%nat.
Proof.
  intros Tk. destruct (tk_prop _ _ _ Tk) as (p & p' & Hp & Hp' & Qp & Np). apply subset_size. split.
  - intros i Hi. apply queued_set_spec in Hi as (q' & Hq' & Qq).
    destruct (shape_back _ _ i q' (proj1 (tk_props _ _ _ Tk)) Hq') as (q & Hq & _).
    apply queued_set_spec. exists q. split; [exact Hq |].
    destruct (Z.eq_dec i r) as [-> | Ne]; [congruence |].
    apply (tk_flags _ _ _ Tk i q q' Hq Hq'); assumption.
  - intros Sub. assert (Hr : r ∈ queued_set c1) by (apply Sub, queued_set_spec; eauto).
    apply queued_set_spec in Hr as (q & Hq & Qq). congruence.
Qed.

Lemma marked_progress c r c1 : marked c r c1 -> progress c c1.
Proof.
  intros Mk. right. rewrite (mk_vars _ _ _ Mk). split; [reflexivity |].
  apply set_eq. intros i. rewrite !queued_set_spec. split.
  - intros (q' & Hq' & Qq). destruct (shape_back _ _ i q' (proj1 (mk_props _ _ _ Mk)) Hq') as (q & Hq & _).
    exists q. split; [exact Hq |]. apply (mk_flags _ _ _ Mk i q q' Hq Hq'), Qq.
  - intros (q & Hq & Qq). destruct (shape_back _ _ i q (eq_sym (proj1 (mk_props _ _ _ Mk))) Hq) as (q' & Hq' & _).
    exists q'. split; [exact Hq' |]. apply (mk_flags _ _ _ Mk i q q' Hq Hq'), Qq.
Qed.

Lemma same_progress c c1 : vars c1 = vars c -> pool c1 = pool c -> progress c c1.
Proof. intros E1 E2. right. rewrite E1. unfold queued_set. rewrite E2. auto. Qed.

Lemma progress_trans a b c : progress a b -> progress b c -> progress a c.
Proof. unfold progress. intros [L1 | [E1 Q1]] [L2 | [E2 Q2]]; try (left; lia). right. split; congruence. Qed.

Lemma moved_progress c c' : moved c c' -> progress c c'.
Proof. intros Mv. destruct (mv_work _ _ Mv) as [-> | L]; [right; auto | left; exact L]. Qed.

(** *** One firing *)

Definition guard_open c (p : propagator T) : Prop :=
  guard_id c p <> EXPR_NULL -> fixed c (guard_id c p) /\ lo_at c (guard_id c p) <> 0.

Lemma all_ids_iff (P : Z -> Prop) ids : all_ids P ids <-> forall x, x ∈ ids -> P x.
Proof.
  induction ids as [| x ids IH]; cbn [all_ids].
  - split; [intros _ x X; inversion X | auto].
  - rewrite IH. setoid_rewrite elem_of_cons. split; [intros [Px Ps] y [-> | Hy]; auto | auto].
Qed.

(** Changing [current_prop_ref], a counter or a conflict record. *)
Definition same_state c c' : Prop :=
  vars c' = vars c /\ pool c' = pool c /\ queue c' = queue c /\ prop_guard_vars c' = prop_guard_vars c /\
  n_prop_refs_capacity c' = n_prop_refs_capacity c /\ watcher_heads c' = watcher_heads c /\
  prop_refs c' = prop_refs c /\ n_props c' = n_props c /\ guard_ix c' = guard_ix c.

Lemma same_state_pinv o c c' : pinv o c -> same_state c c' -> pinv o c'.
Proof.
  intros I (E1 & E2 & E3 & E4 & E5 & E6 & E7 & E8 & E9). pose proof (pi_wired _ _ I) as W.
  apply (same_pool_pinv o c); auto. destruct (wi_queue _ W) as [qs Q].
  apply (wired_frame c); auto; [unfold n_vars; rewrite E1; reflexivity | rewrite E2; reflexivity |].
  exists qs. apply (qrep_links c); [exact Q | exact E3 | rewrite E2; reflexivity].
Qed.

Lemma same_state_kept c c' : st_ok c -> same_state c c' -> kept c c' /\ progress c c'.
Proof.
  intros K (E1 & E2 & E3 & E4 & E5 & _). split; [| apply same_progress; assumption].
  apply vars_kept; [exact K | exact E1 |]. repeat split; auto. rewrite E2. reflexivity.
Qed.

Lemma marked_kept c r c1 : st_ok c -> marked c r c1 -> kept c c1.
Proof. intros K Mk. apply vars_kept; [exact K | apply Mk | apply Mk]. Qed.

(** An open guard does not excuse its propagator. *)
Lemma open_holds c p s r : wired c -> pool c !! r = Some p -> guard_open c p -> in_dom c s -> holds c s p ->
  sem (template p) (watched p) s.
Proof.
  intros W Hp Go D [[Gn G0] | Hs]; [exfalso | exact Hs]. destruct (Go Gn) as [Fx L].
  destruct (wi_guard _ W r p Hp Gn) as [Hg _]. specialize (D _ Hg). unfold fixed in Fx. lia.
Qed.

Definition good_turn c (t : @turn T M S) : Prop :=
  match t with
  | Again c' => pinv None c' /\ kept c c' /\ progress c c'
  | Done PROP_CONFLICT c' =>
      (prop_aborted c' = true /\ pinv None c' /\ kept c c') \/ forall s, ~ solves c s
  | Done PROP_OK c' => c' = c /\ dequeue c = None
  | Done PROP_ENTAILED _ => False
  end.

Lemma fire_prop_spec c r p : pinv (Some r) c -> pool c !! r = Some p -> guard_open c p ->
  good_turn c (fire_prop c r p).
Proof.
  intros I Hp Go. pose proof (pi_ok _ _ I) as K. unfold fire_prop.
  set (c0 := set_current_prop_ref c r).
  assert (S0 : same_state c c0) by (repeat split).
  pose proof (same_state_pinv _ _ _ I S0) as I0. destruct (same_state_kept _ _ K S0) as [Kp0 Pr0].
  pose proof (pi_ready _ _ I0 r p Hp) as Rd.
  pose proof (fire_sound c0 _ _ (pi_ok _ _ I0) Rd) as Sd.
  pose proof (fire_decides c0 _ _ (pi_ok _ _ I0) Rd) as Dd. unfold decided in Dd. unfold sound_from in Sd.
  destruct (fire (template p) (watched p) c0) as [res c1]. cbn [fst] in Dd.
  destruct res.
  2:{ right. intros s Sv. apply (proj2 Sd s); [apply (vars_in_dom c c0 s); [reflexivity | apply Sv] |].
      apply (open_holds c p s r (pi_wired _ _ I) Hp Go); apply Sv || apply (proj2 Sv r p Hp). }
  all: destruct Sd as (Sb & St & Kd).
  all: pose proof (steps_moved c0 c1 St (pi_wired _ _ I0) (pi_ok _ _ I0)) as Mv.
  all: pose proof (moved_pinv c0 c1 _ I0 Mv) as I1.
  all: set (c2 := set_current_prop_ref c1 EXPR_NULL).
  all: assert (S2 : same_state c1 c2) by (repeat split).
  all: pose proof (same_state_pinv _ _ _ I1 S2) as I2.
  all: destruct (same_state_kept _ _ (pi_ok _ _ I1) S2) as [Kp2 Pr2].
  all: destruct (core_lookup _ _ r p (mv_core _ _ Mv) Hp) as (p1 & Hp1 & E1).
  all: assert (Kp : kept c c2).
  1,3: apply (kept_trans c c0); [exact Kp0 |]; apply (kept_trans c0 c1); [| exact Kp2];
    constructor; [apply moved_props, Mv | exact Sb |]; intros s [D Hs];
    (apply Kd || apply (proj1 Kd)); [exact D |];
    apply (open_holds c0 p s r (pi_wired _ _ I0) Hp Go D), (Hs r p Hp).
  all: assert (Pr : progress c c2)
    by (apply (progress_trans c c0); [exact Pr0 |]; apply (progress_trans c0 c1); [apply moved_progress, Mv | exact Pr2]).
  - split; [| auto]. apply (settle_pinv c2 r p1 I2 Hp1).
    apply (moved_settled c0 c1 r p p1 Mv Hp Hp1 (pi_wired _ _ I0)).
    intros Fx s D. right. apply Dd; [| discriminate | exact D]. apply all_ids_iff. intros x Hx.
    apply Fx. left. exact Hx.
  - destruct Kd as [_ En]. pose proof (mark_marked c2 r (pi_wired _ _ I2)) as Mk. split; [| split].
    + apply (mark_pinv c2 r p1 I2 Hp1). intros s D. right.
      destruct (core_fields p p1 E1) as (-> & _ & -> & _). apply En, (vars_in_dom c1 c2); [reflexivity | exact D].
    + apply (kept_trans c c2); [exact Kp | apply (marked_kept c2 r); [apply I2 | exact Mk]].
    + apply (progress_trans c c2); [exact Pr | apply (marked_progress c2 r), Mk].
Qed.

(** *** One turn and the loop *)

Lemma over_budget_state c : same_state c (snd (prop_over_budget c)).
Proof. unfold prop_over_budget. repeat (destruct (_ : bool); try (repeat split; fail)). Qed.

(** What a turn that goes on, or ends the loop, has done. *)
Definition turned c (t : @turn T M S) : Prop :=
  match t with
  | Again c' => pinv None c' /\ kept c c' /\ (rank c' < rank c)%nat
  | Done PROP_CONFLICT c' =>
      (prop_aborted c' = true /\ pinv None c' /\ kept c c') \/ forall s, ~ solves c s
  | Done PROP_OK c' => c' = c /\ dequeue c = None
  | Done PROP_ENTAILED _ => False
  end.

(** A turn that took [r] off the queue. *)
Lemma taken_turn c r c1 c2 t : st_ok c -> taken c r c1 -> kept c1 c2 -> vars c2 = vars c1 ->
  (forall c', t <> Done PROP_OK c') ->
  progress c1 c2 -> good_turn c2 t -> turned c t.
Proof.
  intros K Tk Kp Ev No Pr G.
  assert (Kc : kept c c1) by (apply vars_kept; [exact K | apply Tk | apply Tk]).
  pose proof (kept_trans c c1 c2 Kc Kp) as Kc2.
  destruct t as [c' | [] c']; cbn in G |- *.
  - destruct G as (I & Kp' & Pr'). split; [exact I |]. split; [apply (kept_trans c c2); assumption |].
    apply (progress_rank c c1 c'); [exact K | apply I | apply Tk | | apply Tk | apply (taken_size c r), Tk |].
    + eapply same_props_trans; [apply Kp | apply Kp'].
    + apply (progress_trans c1 c2); assumption.
  - destruct (No c' eq_refl).
  - destruct G as [(A & I & Kp') | N]; [left | right].
    + split; [exact A |]. split; [exact I | apply (kept_trans c c2); assumption].
    + intros s Sv. apply (N s), (kept_solves c c2 s Kc2), Sv.
  - exact G.
Qed.

Lemma fire_not_ok c r p c' : fire_prop c r p <> Done PROP_OK c'.
Proof. unfold fire_prop. destruct (fire _ _ _) as [[] c1]; discriminate. Qed.

Lemma kept_refl c : st_ok c -> kept c c /\ progress c c.
Proof. intros K. apply same_state_kept; [exact K | repeat split]. Qed.

Lemma guarded_fire_spec c r p : pinv (Some r) c -> pool c !! r = Some p ->
  good_turn c (guarded_fire c r p) /\ forall c', guarded_fire c r p <> Done PROP_OK c'.
Proof.
  intros I Hp. unfold guarded_fire.
  destruct (Z.eqb_spec (guard_id c p) EXPR_NULL) as [Gn | Gn].
  { split; [| intros c'; apply fire_not_ok]. apply fire_prop_spec; auto. intros Ne. contradiction. }
  destruct (wi_guard _ (pi_wired _ _ I) r p Hp Gn) as [Hg _].
  destruct (guard_reads c (guard_id c p) (pi_ok _ _ I) Hg) as (Gf & Gl & Gh).
  assert (Fire : guard_open c p -> good_turn c (fire_prop c r p) /\ forall c', fire_prop c r p <> Done PROP_OK c')
    by (intros Go; split; [apply fire_prop_spec; auto | intros c'; apply fire_not_ok]).
  destruct ((var_lo64 (var c (guard_id c p)) =? 0) && (var_hi64 (var c (guard_id c p)) =? 0)) eqn:E0.
  - apply andb_true_iff in E0 as [L0 H0']. split; [| discriminate].
    pose proof (mark_marked c r (pi_wired _ _ I)) as Mk. split; [| split].
    + apply (mark_pinv c r p I Hp). intros s D. left. split; [exact Gn |]. specialize (D _ Hg). lia.
    + apply (marked_kept c r); [apply I | exact Mk].
    + apply (marked_progress c r), Mk.
  - destruct (Z.eqb_spec (var_lo64 (var c (guard_id c p))) (var_hi64 (var c (guard_id c p)))) as [Ef | Nf];
      cbn [negb].
    + apply Fire. intros _. split; [apply Gf, Ef |]. intros L0. apply Gl in L0.
      rewrite L0 in *. rewrite <- Ef in E0. discriminate E0.
    + split; [| discriminate]. split; [| apply kept_refl, I]. apply (settle_pinv c r p I Hp).
      right. right. intros Fx. destruct Nf. apply Gf, Fx. right. auto.
Qed.

Lemma abort_spec c r : pinv (Some r) c -> good_turn c (Done PROP_CONFLICT (set_prop_aborted (prop_enqueue c r) true)).
Proof.
  intros I. left. split; [reflexivity |]. pose proof (enqueue_pinv c r I) as I4.
  assert (S5 : same_state (prop_enqueue c r) (set_prop_aborted (prop_enqueue c r) true)) by (repeat split).
  split; [apply (same_state_pinv _ _ _ I4 S5) |].
  apply (kept_trans c (prop_enqueue c r)); [| apply same_state_kept; [apply I4 | exact S5]].
  destruct (enqueue_more c r (wi_queue _ (pi_wired _ _ I))) as [Mo _].
  apply vars_kept; [apply I | apply enqueue_vars |]. split; [apply core_shape, (mo_core _ _ Mo) |].
  rewrite (mo_frame _ _ Mo). cbn. auto.
Qed.

Lemma propagate_turn_spec c : pinv None c -> turned c (propagate_turn c).
Proof.
  intros I. unfold propagate_turn. destruct (dequeue c) as [[r c1] |] eqn:Hd; [| cbn; auto].
  pose proof (dequeue_taken c r c1 (pi_wired _ _ I) Hd) as Tk. pose proof (dequeue_pinv c r c1 I Hd) as I1.
  destruct (tk_prop _ _ _ Tk) as (p0 & p & _ & Hp & _). rewrite Hp.
  pose proof (pi_ok _ _ I) as K. pose proof (pi_ok _ _ I1) as K1.
  destruct (has_flag p PROP_FLAG_ENTAILED) eqn:Fe.
  { apply (taken_turn c r c1 c1); auto; try (apply kept_refl, K1); try discriminate.
    split; [apply (settle_pinv c1 r p I1 Hp); auto | apply kept_refl, K1]. }
  set (c2 := count_fire c1). assert (S2 : same_state c1 c2) by (repeat split).
  set (over := if Z.land (prop_ticks (budget c2)) 1023 =? 0 then prop_over_budget c2 else (false, c2)).
  assert (S3 : same_state c1 (snd over)).
  { subst over. destruct (_ =? 0); [| exact S2].
    destruct (over_budget_state c2) as (? & ? & ? & ? & ? & ? & ? & ? & ?). repeat split; assumption. }
  destruct over as [ov c3]. cbn [snd] in S3. clear S2. pose proof (same_state_pinv _ _ _ I1 S3) as I3.
  destruct (same_state_kept _ _ K1 S3) as [Kp3 Pr3]. pose proof (proj1 S3) as V3.
  assert (Hp3 : pool c3 !! r = Some p) by (rewrite (proj1 (proj2 S3)); exact Hp).
  destruct (guarded_fire_spec c3 r p I3 Hp3) as [G No].
  destruct ov; apply (taken_turn c r c1 c3 _ (pi_ok _ _ I) Tk Kp3 V3); auto; try discriminate.
  apply abort_spec, I3.
Qed.

(** How the loop ends from [c]. *)
Definition ended c (r : prop_result) c' : Prop :=
  match r with
  | PROP_OK => pinv None c' /\ kept c c' /\ dequeue c' = None
  | PROP_CONFLICT => (prop_aborted c' = true /\ pinv None c' /\ kept c c') \/ forall s, ~ solves c s
  | PROP_ENTAILED => False
  end.

Lemma propagate_loop_spec fuel : forall c, pinv None c -> (rank c < fuel)%nat ->
  exists r c', propagate_loop fuel c = Some (r, c') /\ ended c r c'.
Proof.
  induction fuel as [| fuel IH]; intros c I Hf; [lia |]. cbn [propagate_loop].
  pose proof (propagate_turn_spec c I) as Tn. destruct (propagate_turn c) as [c1 | r c1].
  - destruct Tn as (I1 & Kp & Lt). destruct (IH c1 I1 ltac:(lia)) as (r & c' & E & En).
    exists r, c'. split; [exact E |]. destruct r; cbn in *.
    + destruct En as (I2 & Kp2 & D). split; [exact I2 |]. split; [apply (kept_trans c c1); assumption | exact D].
    + destruct En as [(A & I2 & Kp2) | N]; [left | right].
      * split; [exact A |]. split; [exact I2 | apply (kept_trans c c1); assumption].
      * intros s Sv. apply (N s), (kept_solves c c1 s Kp), Sv.
    + exact En.
  - exists r, c1. split; [reflexivity |]. destruct r; cbn in *; auto. destruct Tn as [-> D].
    split; [exact I |]. split; [apply kept_refl, I | exact D].
Qed.

(** An empty queue leaves nobody queued. *)
Lemma drained c r p : wired c -> dequeue c = None -> pool c !! r = Some p -> ~ queued p.
Proof.
  intros W D Hp Qp. destruct (wi_queue _ W) as [qs Q]. pose proof (dequeue_refines c qs Q) as R.
  destruct (spec_dequeue 16 0 qs) as [[i qs'] |] eqn:Es.
  { destruct R as (c' & E & _). congruence. }
  pose proof (qr_flag _ _ Q r p Hp Qp) as In. destruct (qr_pool _ _ Q r p Hp) as [_ Pl].
  unfold dequeue in D. destruct (Z.eqb_spec (non_empty_mask (queue c)) 0) as [M0 |]; [| discriminate D].
  rewrite (proj1 (mask_zero c qs Q) M0 _ Pl) in In. inversion In.
Qed.

(** When all variables are fixed, their values are a solution. *)
Lemma quiet_solution c s : pinv None c -> dequeue c = None ->
  (forall x, 0 <= x < n_vars c -> fixed c x) -> in_dom c s -> solves c s.
Proof.
  intros I D Fx Ds. split; [exact Ds |]. intros r p Hp. pose proof (pi_wired _ _ I) as W.
  destruct (pi_settled _ _ I r p Hp ltac:(discriminate)) as [Qp | [Ep | Dp]].
  - destruct (drained c r p W D Hp Qp).
  - apply (pi_entailed _ _ I r p Hp Ep s Ds).
  - apply Dp; [| exact Ds]. intros x [Hx | [<- Gn]]; apply Fx.
    + apply (wi_watch _ W r p x Hp Hx).
    + apply (wi_guard _ W r p Hp Gn).
Qed.

Lemma loop_mono fuel : forall c r c' k, propagate_loop fuel c = Some (r, c') ->
  propagate_loop (fuel + k) c = Some (r, c').
Proof.
  induction fuel as [| fuel IH]; intros c r c' k; cbn [propagate_loop Nat.add]; [discriminate |].
  destruct (propagate_turn c); [apply IH | auto].
Qed.

(** Every run of the loop ends well, and long enough runs end. *)
Lemma solver_propagate_spec fuel c : pinv None c -> prop_aborted c = false ->
  (forall r c', solver_propagate fuel c = Some (r, c') -> ended c r c') /\
  ((rank c < fuel)%nat -> exists r c', solver_propagate fuel c = Some (r, c')).
Proof.
  intros I A. unfold solver_propagate. rewrite A.
  set (c0 := set_conflict_clause_idx (set_conflict_prop_ref c EXPR_NULL) EXPR_NULL).
  assert (S0 : same_state c c0) by (repeat split). pose proof (same_state_pinv _ _ _ I S0) as I0.
  destruct (same_state_kept _ _ (pi_ok _ _ I) S0) as [Kp _]. split.
  - intros r c' E. apply (loop_mono _ _ _ _ (Datatypes.S (rank c0))) in E.
    destruct (propagate_loop_spec (fuel + Datatypes.S (rank c0)) c0 I0 ltac:(lia)) as (r0 & c1 & E' & En).
    rewrite E in E'. injection E' as <- <-. destruct r; cbn in *.
    + destruct En as (I2 & Kp2 & D). split; [exact I2 |]. split; [apply (kept_trans c c0); assumption | exact D].
    + destruct En as [(Ab & I2 & Kp2) | N]; [left | right].
      * split; [exact Ab |]. split; [exact I2 | apply (kept_trans c c0); assumption].
      * intros s Sv. apply (N s), (kept_solves c c0 s Kp), Sv.
    + exact En.
  - intros Hf. destruct (propagate_loop_spec fuel c0 I0 Hf) as (r & c' & E & _). eauto.
Qed.

(** A context whose propagators are all queued, as compilation leaves it. *)
Lemma fresh_pinv c : wired c -> st_ok c ->
  (forall r p, pool c !! r = Some p -> ready c (template p) (watched p)) ->
  (forall r p, pool c !! r = Some p -> queued p /\ ~ entailed p) -> pinv None c.
Proof.
  intros W K Rd Q. constructor; auto.
  - intros r p Hp Ep. destruct (Q r p Hp). contradiction.
  - intros r p Hp _. left. apply (Q r p Hp).
Qed.
End Invariant.

End Propagate.
