(* ===== verification/Probe.v ===== *)
(** * Probe: propagation above an open level, and its undoing
    (src/src/c/dvs_trail.c, dvs_propagate.c)

    The search and the shaving try an assignment on a level of its own:
    [trail_push_level], some tightenings, [dvs_solver_propagate],
    [trail_backtrack].  The file shows that everything propagation does is a run
    of the trail's and the queue's operations, whatever it returns, and that
    after the backtrack the context is again one the propagation loop may start
    from, with the variables, the propagators and the entailments it had at the
    push.  It relies on the stack serving every record (see [Trail.record_lost]
    for what happens otherwise). *)

From Stdlib Require Import ZArith Lia ZifyBool Bool.
From stdpp Require Import base gmap list numbers relations.
From S2P Require Import Prelude Vars Ctx Queue DynStack Trail GuardIx Wake Store Tighten Propagate.
Import Vars Ctx Queue DynStack Trail GuardIx Wake Store Tighten Propagate.
Open Scope Z_scope.

Module Probe.

(** A stack that never runs out for records. *)
Class DynStackServes (M S : Type) `{DynStackLaws M S} :=
  ds_served s cs bytes : ds_live s cs -> 0 < bytes <= 32 -> exists p s', ds_alloc s bytes 8 = (Some p, s').

Section Run.
Context {T M S : Type} `{DynStackLaws M S} `{Env}.
Implicit Types c : ctx T M S.

(** Only fields that the trail, the queue and the wiring do not read differ. *)
Record same_log c c' : Prop := {
  sl_log : vars c' = vars c /\ decision_level c' = decision_level c /\ level_marks c' = level_marks c /\
    trail c' = trail c /\ trail_count c' = trail_count c /\ entail c' = entail c /\ dynamic c' = dynamic c /\
    pool c' = pool c /\ queue c' = queue c;
  sl_tables : watcher_heads c' = watcher_heads c /\ n_props c' = n_props c /\ prop_refs c' = prop_refs c /\
    n_prop_refs_capacity c' = n_prop_refs_capacity c /\ prop_guard_vars c' = prop_guard_vars c;
  sl_gix : guard_ix c' = guard_ix c \/ gix_lists (guards c) (guard_ix c') }.

(** One step: a record, a mark, a queue operation, or no change to the log. *)
Inductive flat c : ctx T M S -> Prop :=
| flat_lb id b c' : 0 <= id < n_vars c -> trail_record_lb c id b = (0, c') -> flat c c'
| flat_ub id b c' : 0 <= id < n_vars c -> trail_record_ub c id b = (0, c') -> flat c c'
| flat_mark r p : pool c !! r = Some p -> is_live c r p = true ->
    has_flag p PROP_FLAG_ENTAILED = false -> flat c (trail_mark_entailed c r)
| flat_enqueue r : flat c (prop_enqueue c r)
| flat_dequeue r c' : dequeue c = Some (r, c') -> flat c c'
| flat_log c' : same_log c c' -> flat c c'.
Definition run : ctx T M S -> ctx T M S -> Prop := rtc flat.

Lemma same_log_inv c c' snap : inv c snap -> same_log c c' -> inv c' snap.
Proof.
  intros [It Ie] [(Ev & El & Em & Et & Ec & Ee & Ed & Ep & Eq) (_ & _ & Er & Ea & _) _]. split.
  - apply (grows_tinv c); [exact It | |].
    + constructor; try congruence. exists [], [], []. rewrite Et, Ee, Ev, Ed.
      split; [reflexivity |]. split; [reflexivity |]. split; [reflexivity |]. split; constructor.
    + pose proof (ti_cells _ _ It) as Ck. unfold cells_ok in *. rewrite Ed, Et, Ee. exact Ck.
  - apply (same_marks_einv c); [exact Ie |]. constructor; auto.
Qed.

Lemma enqueue_absent c r : pool c !! r = None -> prop_enqueue c r = c.
Proof. intros E. unfold prop_enqueue. rewrite E. reflexivity. Qed.

Lemma flat_inv c snap c' : inv c snap -> flat c c' ->
  exists snap', inv c' snap' /\ forall k, k < decision_level c -> snap' k = snap k.
Proof.
  intros I F. destruct F as [id b c' V E | id b c' V E | r p Hp L N | r | r c' E | c' E].
  - apply (inv_op c snap c' I). eapply op_lb; eauto.
  - apply (inv_op c snap c' I). eapply op_ub; eauto.
  - apply (inv_op c snap _ I). eapply op_mark; eauto.
  - destruct (pool c !! r) as [p |] eqn:E; [apply (inv_op c snap _ I); eapply op_enqueue; eauto |].
    rewrite (enqueue_absent c r E). exists snap. auto.
  - apply (inv_op c snap c' I). eapply op_dequeue; eauto.
  - exists snap. split; [apply (same_log_inv c); assumption | auto].
Qed.

(** What a run leaves alone. *)
Record static c c' : Prop := {
  sc_tables : watcher_heads c' = watcher_heads c /\ n_props c' = n_props c /\ prop_refs c' = prop_refs c /\
    n_prop_refs_capacity c' = n_prop_refs_capacity c /\ prop_guard_vars c' = prop_guard_vars c;
  sc_vars : n_vars c' = n_vars c;
  sc_level : decision_level c' = decision_level c;
  sc_wires : wires <$> pool c' = wires <$> pool c;
  sc_shape : shape <$> pool c' = shape <$> pool c;
  sc_gix : guard_ix c' = guard_ix c \/ gix_lists (guards c) (guard_ix c') }.

Lemma static_refl c : static c c.
Proof. constructor; auto 10. Qed.

Lemma static_trans a b c : static a b -> static b c -> static a c.
Proof.
  intros [(A1 & A2 & A3 & A4 & A5) V1 L1 W1 S1 G1] [(B1 & B2 & B3 & B4 & B5) V2 L2 W2 S2 G2].
  assert (Eg : guards b = guards a) by (unfold guards; rewrite A5; reflexivity).
  constructor; try congruence; [repeat split; congruence |].
  rewrite Eg in G2. destruct G2 as [-> | G2]; auto.
Qed.

Lemma core_static c c' : core <$> pool c' = core <$> pool c ->
  wires <$> pool c' = wires <$> pool c /\ shape <$> pool c' = shape <$> pool c.
Proof. intros E. split; [apply core_wires, E | apply core_shape, E]. Qed.

Lemma record_static c id k vs old r c' : record_entry c id k vs old = (r, c') -> static c c'.
Proof.
  unfold record_entry. destruct (ds_alloc _ _ _) as [[a |] s]; intros [= <- <-]; constructor; cbn; auto 10.
Qed.
Lemma put_static c id v c' : static (put_var c id v) c' -> static c c'.
Proof.
  intros [Tb V L W Sh G]. constructor; auto. rewrite V. apply n_vars_put.
Qed.

Lemma record_lb_static c id b r c' : trail_record_lb c id b = (r, c') -> static c c'.
Proof.
  unfold trail_record_lb. repeat case_match; intros E; try (injection E as <- <-; apply static_refl);
    eapply put_static, record_static, E.
Qed.
Lemma record_ub_static c id b r c' : trail_record_ub c id b = (r, c') -> static c c'.
Proof.
  unfold trail_record_ub. repeat case_match; intros E; try (injection E as <- <-; apply static_refl);
    eapply put_static, record_static, E.
Qed.

Lemma mark_static c r : static c (trail_mark_entailed c r).
Proof.
  unfold trail_mark_entailed. destruct (ds_alloc _ _ _) as [[a |] s]; [| constructor; cbn; auto 10].
  unfold update_prop. cbn [pool set_dynamic]. destruct (pool c !! r) as [p |] eqn:Hp.
  2:{ constructor; cbn; auto 10. }
  constructor; cbn; auto 10; rewrite fmap_insert; apply insert_id; rewrite lookup_fmap, Hp; reflexivity.
Qed.

Lemma framed_static c c' : framed c c' -> core <$> pool c' = core <$> pool c -> static c c'.
Proof.
  intros F E. destruct (core_static c c' E) as [Ew Es].
  unfold framed in F. constructor; [| | | exact Ew | exact Es |]; rewrite F; cbn; auto 10.
Qed.

Lemma flat_static c snap c' : inv c snap -> flat c c' -> static c c'.
Proof.
  intros [_ Ie] F. destruct (ei_queue _ _ Ie) as [qs Q].
  destruct F as [id b c' V E | id b c' V E | r p Hp L N | r | r c' E | c' E].
  - eapply record_lb_static, E.
  - eapply record_ub_static, E.
  - apply mark_static.
  - destruct (pool c !! r) as [p |] eqn:Hp; [| rewrite (enqueue_absent c r Hp); apply static_refl].
    pose proof (enqueue_refines c qs r p Q Hp) as R.
    destruct (_ || _); [rewrite R; apply static_refl |]. destruct R as (_ & Co & Fr). apply framed_static; assumption.
  - pose proof (dequeue_refines c qs Q) as R. destruct (spec_dequeue 16 0 qs) as [[r0 qs'] |]; [| congruence].
    destruct R as (c0 & E0 & _ & Co & Fr). rewrite E in E0. injection E0 as <- <-. apply framed_static; assumption.
  - destruct E as [(Ev & El & _ & _ & _ & _ & _ & Ep & _) Tb G]. constructor; auto.
    + unfold n_vars. rewrite Ev. reflexivity.
    + rewrite Ep. reflexivity.
    + rewrite Ep. reflexivity.
Qed.

Lemma run_inv c snap c' : inv c snap -> run c c' ->
  (exists snap', inv c' snap' /\ forall k, k < decision_level c -> snap' k = snap k) /\ static c c'.
Proof.
  intros I R. revert snap I. induction R as [c | c c1 c2 F R IH]; intros snap I.
  - split; [eauto | apply static_refl].
  - destruct (flat_inv c snap c1 I F) as (s1 & I1 & E1). pose proof (flat_static c snap c1 I F) as S1.
    destruct (IH s1 I1) as ((s2 & I2 & E2) & S2). split; [| apply (static_trans c c1); assumption].
    exists s2. split; [exact I2 |]. intros k Hk. rewrite E2, E1; [reflexivity | exact Hk |].
    rewrite (sc_level _ _ S1). exact Hk.
Qed.

Lemma run_one c c' : flat c c' -> run c c'.
Proof. apply rtc_once. Qed.
Lemma run_log c c' : same_log c c' -> run c c'.
Proof. intros E. apply run_one, flat_log, E. Qed.

Lemma run_fold {A} (step : ctx T M S -> A -> ctx T M S) l : (forall c a, run c (step c a)) ->
  forall c, run c (fold_left step l c).
Proof. intros St. induction l as [| a l IH]; intros c; [reflexivity |]. cbn. etrans; [apply St | apply IH]. Qed.

Lemma enqueue_run c r : run c (prop_enqueue c r).
Proof. apply run_one, flat_enqueue. Qed.
Lemma enqueue_id_run c i : run c (enqueue_id c i).
Proof. unfold enqueue_id. destruct (_ =? _); [reflexivity | apply enqueue_run]. Qed.

Lemma set_gix_log c x : x = guard_ix c \/ gix_lists (guards c) x -> same_log c (set_guard_ix c x).
Proof. intros Hx. constructor; cbn; auto 20. Qed.

Lemma enqueue_gix c r : guard_ix (prop_enqueue c r) = guard_ix c.
Proof.
  unfold prop_enqueue. repeat case_match; try reflexivity. cbn. unfold update_prop. case_match; reflexivity.
Qed.
Lemma fold_gix {A} (step : ctx T M S -> A -> ctx T M S) l : (forall c a, guard_ix (step c a) = guard_ix c) ->
  forall c, guard_ix (fold_left step l c) = guard_ix c.
Proof. intros St. induction l as [| a l IH]; intros c; [reflexivity |]. cbn. rewrite IH. apply St. Qed.
Lemma enqueue_id_gix c i : guard_ix (enqueue_id c i) = guard_ix c.
Proof. unfold enqueue_id. destruct (_ =? _); [reflexivity | apply enqueue_gix]. Qed.

Lemma wake_run c snap id : inv c snap -> wired c -> 0 <= id < n_vars c -> run c (wake_var c id).
Proof.
  intros I W Hid. destruct (wake_var_eq c id W Hid) as (l & x & _ & _ & Hx & ->).
  set (d := fold_left enqueue_id _ _).
  assert (R : run c d).
  { unfold d. etrans; [apply (run_fold prop_enqueue), enqueue_run | apply (run_fold enqueue_id), enqueue_id_run]. }
  assert (G : guard_ix d = guard_ix c).
  { unfold d. rewrite (fold_gix _ _ enqueue_id_gix), (fold_gix _ _ enqueue_gix). reflexivity. }
  etrans; [exact R | apply run_log, set_gix_log].
  destruct (run_inv c snap d I R) as [_ [(_ & _ & _ & _ & Eg) _ _ _ _ _]].
  unfold guards in *. rewrite Eg, G. exact Hx.
Qed.

(** *** The tightenings *)

Context `{!DynStackServes M S}.

Lemma record_served c id k vs old : cells_ok c -> exists c', record_entry c id k vs old = (0, c').
Proof.
  intros (cells & L & _). unfold record_entry.
  destruct (ds_served (dynamic c) cells sizeof_TrailEntry L) as (p & s & E); [unfold sizeof_TrailEntry; lia |].
  unfold pointer_align. rewrite E. eauto.
Qed.

Lemma good_tier v : good v -> var_is_tier0 (flags v) = false -> var_is_tier1 (flags v) = true.
Proof. intros G E. destruct (gd_tier _ G) as [(E0 & _) | (_ & E1 & _)]; congruence. Qed.

Lemma record_lb_run c snap x b : inv c snap -> good (var c x) -> 0 <= x < n_vars c ->
  run c (snd (trail_record_lb c x b)).
Proof.
  intros [It _] G Hx. pose proof (ti_cells _ _ It) as Ck.
  assert (E : exists c', trail_record_lb c x b = (0, c')).
  { unfold trail_record_lb. destruct (var_is_tier0 _) eqn:E0; [apply record_served, Ck |].
    rewrite (good_tier _ G E0). apply record_served, Ck. }
  destruct E as [c' E]. rewrite E. apply run_one, (flat_lb c x b c' Hx E).
Qed.
Lemma record_ub_run c snap x b : inv c snap -> good (var c x) -> 0 <= x < n_vars c ->
  run c (snd (trail_record_ub c x b)).
Proof.
  intros [It _] G Hx. pose proof (ti_cells _ _ It) as Ck.
  assert (E : exists c', trail_record_ub c x b = (0, c')).
  { unfold trail_record_ub. destruct (var_is_tier0 _) eqn:E0; [apply record_served, Ck |].
    rewrite (good_tier _ G E0). apply record_served, Ck. }
  destruct E as [c' E]. rewrite E. apply run_one, (flat_ub c x b c' Hx E).
Qed.

Lemma run_wired c snap c' : inv c snap -> wired c -> run c c' -> wired c'.
Proof.
  intros I W R. destruct (run_inv c snap c' I R) as [(s' & [_ Ie] & _) [(E1 & E2 & E3 & E4 & E5) V _ Ew _ G]].
  apply (wired_frame c); auto. apply (ei_queue _ _ Ie).
Qed.

Lemma after_run c snap x f : inv c snap -> wired c -> 0 <= x < n_vars c -> run c (snd (after_change c x f)).
Proof.
  intros I W Hx. unfold after_change. set (c1 := clear_unassigned c x f).
  assert (L : same_log c c1).
  { unfold c1, clear_unassigned. destruct (_ && _); constructor; cbn; auto 20. }
  assert (R : run c c1) by apply run_log, L.
  destruct (run_inv c snap c1 I R) as [(s1 & I1 & _) Sc].
  cbn [snd]. destruct (watcher_heads c1); [| exact R].
  etrans; [exact R |]. apply (wake_run c1 s1); [exact I1 | apply (run_wired c snap); assumption |].
  rewrite (sc_vars _ _ Sc). exact Hx.
Qed.

(** Every call of the four functions is a run, whatever it answers. *)
Lemma call_run c snap r c' : inv c snap -> wired c -> call c r c' -> run c c'.
Proof.
  intros I W K.
  assert (Go : forall x c1 f, 0 <= x < n_vars c -> run c c1 -> run c (snd (after_change c1 x f))).
  { intros x c1 f Hx R. destruct (run_inv c snap c1 I R) as [(s1 & I1 & _) Sc]. etrans; [exact R |].
    apply (after_run c1 s1); [exact I1 | apply (run_wired c snap); assumption |]. rewrite (sc_vars _ _ Sc). exact Hx. }
  destruct K as [x b r c' Ko V _ _ E | x b r c' Ko V _ _ E | x b r c' Ko V _ E | x b r c' Ko V _ E]; cbn in V, E;
    pose proof (Ko x V) as G; cbn in G;
    pose proof (record_lb_run c snap x b I G V) as Rl; pose proof (record_ub_run c snap x b I G V) as Ru;
    apply (f_equal snd) in E; cbn [snd] in E; rewrite <- E.
  - unfold ctx_tighten_lb32. case_match; [reflexivity |]. case_match; [exact Rl | apply Go; assumption].
  - unfold ctx_tighten_ub32. case_match; [reflexivity |]. case_match; [exact Ru | apply Go; assumption].
  - unfold ctx_tighten_lb64. case_match; [reflexivity |]. case_match; [reflexivity |].
    case_match; [exact Rl | apply Go; assumption].
  - unfold ctx_tighten_ub64. case_match; [reflexivity |]. case_match; [reflexivity |].
    case_match; [exact Ru | apply Go; assumption].
Qed.

Lemma steps_calls (c c' : ctx T M S) : steps c c' -> forall snap, inv c snap -> wired c -> run c c'.
Proof.
  induction 1 as [c | c c1 c2 x b St IH K V Ti Ib E | c c1 c2 x b St IH K V Ti Ib E
    | c c1 c2 x b St IH K V Ib E | c c1 c2 x b St IH K V Ib E]; intros snap I W; [reflexivity | ..];
    specialize (IH snap I W); etrans; try exact IH; destruct (run_inv c snap c1 I IH) as [(s1 & I1 & _) _];
    apply (call_run c1 s1 PROP_OK c2 I1 (run_wired c snap c1 I W IH)).
  - eapply call_lb32; eauto.
  - eapply call_ub32; eauto.
  - eapply call_lb64; eauto.
  - eapply call_ub64; eauto.
Qed.

Lemma halted_run c snap c' : inv c snap -> wired c -> halted c c' -> run c c'.
Proof.
  intros I W [St | (c1 & St & K)]; [apply (steps_calls c c' St snap I W) |].
  pose proof (steps_calls c c1 St snap I W) as R. etrans; [exact R |].
  destruct (run_inv c snap c1 I R) as [(s1 & I1 & _) _].
  apply (call_run c1 s1 PROP_CONFLICT c' I1 (run_wired c snap c1 I W R) K).
Qed.
End Run.

(** ** The propagation loop *)

Section Loop.
Context {T M S : Type} `{DynStackLaws M S} `{Env} `{!DynStackServes M S}
  `{!Fires T (ctx T M S)} `{!Propagators T (ctx T M S)} `{!PropagatorLaws T (ctx T M S)}.
Implicit Types c : ctx T M S.

(** Every propagator is the one its id stands for. *)
Definition alive c : Prop := forall r p, pool c !! r = Some p -> is_live c r p = true.

Lemma static_alive c c' : static c c' -> alive c -> alive c'.
Proof.
  intros [(_ & _ & Er & Ea & _) _ _ Ew _ _] A r p' Hp'.
  destruct (wires_back _ _ r p' Ew Hp') as (p & Hp & _ & Ei).
  rewrite (is_live_refs c c' r p' Er Ea), (is_live_id c r p p' (eq_sym Ei)). apply A, Hp.
Qed.

(** What a run needs of its start. *)
Record running c : Prop := {
  rn_inv : exists snap, inv c snap;
  rn_wired : wired c;
  rn_alive : alive c }.

Lemma run_running c c' : running c -> run c c' -> running c' /\ static c c'.
Proof.
  intros [[snap I] W A] R. destruct (run_inv c snap c' I R) as [(s' & I' & _) Sc].
  split; [| exact Sc]. constructor; [eauto | apply (run_wired c snap); assumption | apply (static_alive c); assumption].
Qed.

Ltac same_log := constructor; cbn; auto 20.

Lemma mark_run c r p : alive c -> pool c !! r = Some p -> ~ entailed p -> run c (trail_mark_entailed c r).
Proof. intros A Hp N. apply run_one, (flat_mark c r p Hp (A r p Hp)). destruct (has_flag p _) eqn:E; [| reflexivity]. elim N; exact E. Qed.

Definition turn_ctx (t : @turn T M S) : ctx T M S := match t with Again c => c | Done _ c => c end.

Lemma fire_prop_run c r p : running c -> pinv (Some r) c -> pool c !! r = Some p -> ~ entailed p ->
  run c (turn_ctx (fire_prop c r p)).
Proof.
  intros Rn I Hp Ne. unfold fire_prop. set (c0 := set_current_prop_ref c r).
  assert (L0 : same_log c c0) by same_log. pose proof (run_log c c0 L0) as R0.
  destruct (run_running c c0 Rn R0) as [Rn0 _]. destruct Rn0 as [[snap0 I0] W0 A0].
  assert (K0 : st_ok c0) by exact (pi_ok _ _ I).
  assert (Rd : ready c0 (template p) (watched p)).
  { apply (ready_sub c c0); [apply (pi_ready _ _ I r p Hp) | apply vars_sub; [apply I | reflexivity]]. }
  pose proof (fire_sound c0 _ _ K0 Rd) as Sd. unfold sound_from in Sd.
  destruct (fire (template p) (watched p) c0) as [res c1].
  assert (R1 : run c c1).
  { etrans; [exact R0 |]. destruct res; [| apply (halted_run c0 snap0); [exact I0 | exact W0 | apply Sd] |];
      apply (steps_calls c0 c1) with snap0; (apply Sd || assumption). }
  set (c2 := set_current_prop_ref c1 EXPR_NULL).
  assert (R2 : run c c2) by (etrans; [exact R1 | apply run_log; same_log]).
  destruct res; cbn [turn_ctx].
  - exact R2.
  - etrans; [exact R2 |]. etrans; [| apply enqueue_run]. apply run_log. same_log.
  - etrans; [exact R2 |]. destruct Sd as (_ & St & _).
    pose proof (steps_moved c0 c1 St W0 K0) as Mv.
    destruct (core_lookup _ _ r p (mv_core _ _ Mv) Hp) as (p1 & Hp1 & E1).
    destruct (run_running c c2 Rn R2) as [[_ _ A2] _].
    apply (mark_run c2 r p1 A2 Hp1). rewrite (core_entailed p p1 E1). exact Ne.
Qed.

Lemma guarded_fire_run c r p : running c -> pinv (Some r) c -> pool c !! r = Some p -> ~ entailed p ->
  run c (turn_ctx (guarded_fire c r p)).
Proof.
  intros Rn I Hp Ne. unfold guarded_fire. repeat case_match; try (apply fire_prop_run; assumption); [| reflexivity].
  apply (mark_run c r p); [apply Rn | exact Hp | exact Ne].
Qed.

Lemma over_log c : same_log c (snd (prop_over_budget c)).
Proof. unfold prop_over_budget. repeat case_match; same_log. Qed.

Lemma turn_run c : running c -> pinv None c -> run c (turn_ctx (propagate_turn c)).
Proof.
  intros Rn I. unfold propagate_turn. destruct (dequeue c) as [[r c1] |] eqn:Hd; [| reflexivity].
  pose proof (run_one c c1 (flat_dequeue c r c1 Hd)) as R1.
  destruct (run_running c c1 Rn R1) as [Rn1 _]. pose proof (dequeue_pinv c r c1 I Hd) as I1.
  destruct (pool c1 !! r) as [p |] eqn:Hp; [| exact R1].
  destruct (has_flag p PROP_FLAG_ENTAILED) eqn:Ef; [exact R1 |].
  set (c2 := count_fire c1).
  assert (L2 : same_log c1 c2) by same_log.
  assert (X : exists over c3, (if Z.land (prop_ticks (budget c2)) 1023 =? 0 then prop_over_budget c2 else (false, c2)) = (over, c3) /\
    same_log c2 c3 /\ same_state c2 c3).
  { destruct (_ =? 0).
    - pose proof (over_log c2) as L. pose proof (over_budget_state c2) as Ss.
      destruct (prop_over_budget c2) as [over c3]. exists over, c3. auto.
    - exists false, c2. split; [reflexivity |]. split; [same_log | repeat split]. }
  destruct X as (over & c3 & -> & L3 & S3).
  assert (R3 : run c c3) by (etrans; [exact R1 |]; etrans; apply run_log; [exact L2 | exact L3]).
  assert (S13 : same_state c1 c3) by exact S3.
  destruct over; cbn [turn_ctx].
  - etrans; [exact R3 |]. etrans; [apply enqueue_run | apply run_log; same_log].
  - etrans; [exact R3 |]. apply guarded_fire_run.
    + apply (run_running c c3 Rn R3).
    + apply (same_state_pinv _ c1); assumption.
    + destruct S13 as (_ & -> & _). exact Hp.
    + intros En. unfold entailed in En. congruence.
Qed.

Lemma loop_run fuel : forall c r c', running c -> pinv None c -> propagate_loop fuel c = Some (r, c') -> run c c'.
Proof.
  induction fuel as [| fuel IH]; intros c r c' Rn I; [discriminate |]. cbn.
  pose proof (turn_run c Rn I) as Rt. pose proof (propagate_turn_spec c I) as Sp.
  destruct (propagate_turn c) as [c1 | r1 c1]; cbn [turn_ctx turned] in *.
  - destruct Sp as (I1 & _). intros E. etrans; [exact Rt |].
    apply (IH c1 r); [apply (run_running c c1 Rn Rt) | exact I1 | exact E].
  - intros [= <- <-]. exact Rt.
Qed.

(** The whole call is a run, whatever it returns. *)
Lemma propagate_run fuel c r c' : running c -> pinv None c -> solver_propagate fuel c = Some (r, c') -> run c c'.
Proof.
  intros Rn I. unfold solver_propagate. destruct (prop_aborted c); [intros [= <- <-]; reflexivity |].
  set (c0 := set_conflict_clause_idx _ _). assert (R0 : run c c0) by (apply run_log; same_log).
  intros E. etrans; [exact R0 |]. apply (loop_run fuel c0 r); [apply (run_running c c0 Rn R0) | | exact E].
  apply (same_state_pinv _ c); [exact I | repeat split].
Qed.

(** *** Push, run, backtrack *)

(** Between two propagations: nobody is queued, everybody has settled. *)
Record resting c : Prop := {
  rt_running : running c;
  rt_pinv : pinv None c;
  rt_quiet : dequeue c = None;
  rt_level : decision_level c + 1 < 2 ^ 32 }.

Lemma quiet_unqueued c r p : resting c -> pool c !! r = Some p -> ~ queued p.
Proof. intros R. apply drained; [apply (rn_wired c), R | apply R]. Qed.

Lemma level_next c : resting c -> 0 <= decision_level c /\ u32 (decision_level c + 1) = decision_level c + 1.
Proof.
  intros R. destruct (rn_inv c (rt_running c R)) as (snap & [It _]).
  pose proof (ti_level _ _ It). pose proof (rt_level c R). unfold u32. rewrite Z.mod_small; lia.
Qed.

Lemma push_inv c snap : resting c -> inv c snap ->
  inv (trail_push_level c) (fun j => if j =? decision_level c then c else snap j).
Proof.
  intros R I. apply (inv_push c snap I (rt_level c R)). intros r p Hp _.
  destruct (has_flag p PROP_FLAG_IN_QUEUE) eqn:E; [| reflexivity]. elim (quiet_unqueued c r p R Hp). exact E.
Qed.

Lemma push_running c : resting c -> running (trail_push_level c) /\ pinv None (trail_push_level c).
Proof.
  intros R. pose proof R as R0. destruct R0 as [[[snap I] W A] P Q L].
  split; [| apply (same_state_pinv _ c); [exact P | repeat split]].
  constructor; [exists (fun j => if j =? decision_level c then c else snap j); apply push_inv; assumption | |].
  - destruct (wi_queue _ W) as [qs Qr]. apply (wired_frame c); auto. exists qs. apply (qrep_links c); auto.
  - intros r p Hp. rewrite (is_live_refs c) by reflexivity. apply A, Hp.
Qed.

(** Fields the backtrack does not touch. *)
Definition kept_fields c c' : Prop :=
  watcher_heads c' = watcher_heads c /\ n_props c' = n_props c /\ prop_guard_vars c' = prop_guard_vars c /\
  guard_ix c' = guard_ix c /\ prop_aborted c' = prop_aborted c /\ budget c' = budget c.

Lemma kept_fields_trans a b c : kept_fields a b -> kept_fields b c -> kept_fields a c.
Proof. intros (? & ? & ? & ? & ? & ?) (? & ? & ? & ? & ? & ?). repeat split; congruence. Qed.

Lemma clear_entailed_kept l stop : forall c, kept_fields c (clear_entailed c l stop).
Proof.
  induction l as [| [a r] l IH]; intros c; cbn; [repeat split |]. destruct (_ =? _); [repeat split |].
  eapply kept_fields_trans; [| apply IH]. repeat case_match; repeat split.
Qed.
Lemma clear_level_kept fuel : forall c r, kept_fields c (clear_level fuel c r).
Proof.
  induction fuel as [| fuel IH]; intros c r; cbn; [repeat split |]. repeat case_match; try solve [repeat split].
  eapply kept_fields_trans; [| apply IH]. repeat split.
Qed.
Lemma clear_levels_kept n : forall c lvl, kept_fields c (clear_levels n c lvl).
Proof.
  induction n as [| n IH]; intros c lvl; [repeat split |]. cbn [clear_levels].
  eapply kept_fields_trans; [apply (clear_level_kept (Datatypes.S (size (pool c))) c (head_at c lvl)) |].
  eapply kept_fields_trans; [| apply IH]. repeat split.
Qed.

Lemma put_mask_kept c m : kept_fields c (put_mask c m).
Proof. repeat split. Qed.
Lemma clear_queue_kept c : kept_fields c (clear_queue c).
Proof. exact (kept_fields_trans _ _ _ (clear_levels_kept 16 c 0) (put_mask_kept _ 0)). Qed.
Lemma rebuild_mask_kept c : kept_fields c (rebuild_mask c).
Proof. unfold rebuild_mask. case_match; repeat split. Qed.

Lemma backtrack_kept c k : kept_fields c (trail_backtrack c k).
Proof.
  unfold trail_backtrack. destruct (level_marks c !! k) as [mark |]; [| repeat split].
  eapply kept_fields_trans; [| apply clear_queue_kept]. eapply kept_fields_trans; [| apply rebuild_mask_kept].
  set (c1 := set_vars _ _). pose proof (clear_entailed_kept (entail c1) (mark_entail_top mark) c1) as K1.
  generalize dependent (clear_entailed c1 (entail c1) (mark_entail_top mark)). intros d K1. exact K1.
Qed.

(** What a probe leaves behind. *)
Record probed (c d b : ctx T M S) : Prop := {
  pb_resting : resting b;
  pb_vars : vars b = vars c;
  pb_props : same_props c b;
  pb_level : decision_level b = decision_level c;
  pb_trail : trail b = trail c /\ trail_count b = trail_count c /\ entail b = entail c;
  pb_mask : n_vars c <= 64 -> forall j, 0 <= j ->
    Z.testbit (unassigned_mask b) j = default false (unassigned <$> vars c !! Z.to_nat j);
  pb_abort : prop_aborted b = prop_aborted d;
  pb_budget : budget b = budget d }.

Lemma bt_pool_keys c a k c' : backtracked c a k c' ->
  wires <$> pool c' = wires <$> pool c /\ shape <$> pool c' = shape <$> pool c.
Proof.
  intros B. split; apply map_eq; intros r; rewrite !lookup_fmap, (bt_pool _ _ _ _ B r);
    destruct (pool c !! r) as [p |]; cbn; try reflexivity; f_equal; unfold unmark; repeat case_match; reflexivity.
Qed.

(** *** Open levels

    A search keeps several levels open at once.  [held a d]: what a run leaves
    alone is as it was at [a], whatever the level. *)
Definition held (a d : ctx T M S) : Prop := static a (set_decision_level d (decision_level a)).

Lemma held_refl (a : ctx T M S) : held a a.
Proof. constructor; cbn; auto 10. Qed.

Lemma held_trans (a b c : ctx T M S) : held a b -> held b c -> held a c.
Proof.
  intros [T1 V1 _ W1 S1 G1] [T2 V2 _ W2 S2 G2].
  cbn in *. destruct T1 as (? & ? & ? & ? & Eg), T2 as (? & ? & ? & ? & ?).
  assert (E : guards b = guards a) by (unfold guards; rewrite Eg; reflexivity). rewrite E in G2.
  constructor; cbn; try congruence; [repeat split; congruence | exact (eq_trans V2 V1) |].
  destruct G2 as [-> | G2]; auto.
Qed.

Lemma static_held (a d : ctx T M S) : static a d -> held a d.
Proof. intros [Tb V L W Sh G]. constructor; auto. Qed.

Lemma push_held (d : ctx T M S) : held d (trail_push_level d).
Proof. constructor; cbn; auto 10. Qed.

Lemma held_props (a d : ctx T M S) : held a d -> same_props a d /\ n_vars d = n_vars a.
Proof.
  intros [(_ & _ & _ & E1 & E2) V _ _ E3 _]. split; [split; [exact E3 | split; [exact E2 | exact E1]] | exact V].
Qed.

(** The levels from [base] up were opened at rest, at [snap]. *)
Record nested (base : Z) c (snap : Z -> ctx T M S) : Prop := {
  ne_inv : inv c snap;
  ne_wired : wired c;
  ne_alive : alive c;
  ne_open : forall k, base <= k < decision_level c -> resting (snap k) /\ held (snap k) c }.

Lemma nested_running base c snap : nested base c snap -> running c.
Proof. intros [I W A _]. constructor; eauto. Qed.

Lemma nested_start c : resting c -> exists snap, nested (decision_level c) c snap.
Proof.
  intros R. destruct (rt_running c R) as [[snap I] W A]. exists snap. constructor; auto. intros k Hk. lia.
Qed.

Lemma nested_run base c snap c' : nested base c snap -> run c c' ->
  exists snap', nested base c' snap' /\ forall k, k < decision_level c -> snap' k = snap k.
Proof.
  intros [I W A O] R. destruct (run_inv c snap c' I R) as [(s' & I' & Eq) Sc]. exists s'. split; [| exact Eq].
  constructor; [exact I' | apply (run_wired c snap); assumption | apply (static_alive c); assumption |].
  rewrite (sc_level _ _ Sc). intros k Hk. rewrite Eq by lia. destruct (O k Hk) as [Rk Hd].
  split; [exact Rk | apply (held_trans _ c); [exact Hd | apply static_held, Sc]].
Qed.

Lemma nested_push base c snap : resting c -> nested base c snap ->
  nested base (trail_push_level c) (fun j => if j =? decision_level c then c else snap j).
Proof.
  intros R [I W A O]. destruct (level_next c R) as [L0 Ln]. destruct (push_running c R) as [[_ W' A'] _].
  constructor; [apply push_inv; assumption | exact W' | exact A' |].
  intros k Hk. cbn [trail_push_level decision_level set_decision_level set_level_marks] in Hk. rewrite Ln in Hk.
  destruct (Z.eqb_spec k (decision_level c)) as [-> | Ne]; [split; [exact R | apply push_held] |].
  destruct (O k ltac:(lia)) as [Rk Hd]. split; [exact Rk | apply (held_trans _ c); [exact Hd | apply push_held]].
Qed.

(** What a backtrack leaves alone of the context it starts from. *)
Lemma backtrack_held (d a : ctx T M S) k : backtracked d a k (trail_backtrack d k) -> n_vars d = n_vars a ->
  held d (trail_backtrack d k).
Proof.
  intros B Nv. destruct (backtrack_kept d k) as (K1 & K2 & K3 & K4 & _). destruct (bt_pool_keys d a k _ B) as [Bw Bs].
  destruct (bt_refs _ _ _ _ B). constructor; cbn; auto 10. change (n_vars (trail_backtrack d k) = n_vars d).
  rewrite Nv. unfold n_vars. rewrite (bt_vars _ _ _ _ B). reflexivity.
Qed.

(** A context with the tables, variables and entailments of one at rest, and
    an empty queue, is at rest. *)
Lemma rest_again c b snap : resting c -> held c b -> vars b = vars c -> inv b snap -> qrep b (fun _ => []) ->
  entail b = entail c -> decision_level b = decision_level c -> resting b.
Proof.
  intros R Hd Ev I Q Ee El. pose proof (rt_running c R) as Rn. destruct (rn_inv c Rn) as (s0 & I0).
  pose proof Hd as Hd0. destruct Hd as [(T1 & T2 & T3 & T4 & T5) Tv _ Tw Ts Tg].
  cbn in T1, T2, T3, T4, T5, Tv, Tw, Ts, Tg. change (n_vars b = n_vars c) in Tv.
  assert (W : wired b) by (apply (wired_frame c); auto; [apply (rn_wired c Rn) | eauto]).
  assert (A : alive b) by (apply (static_alive c (set_decision_level b (decision_level c)) Hd0), Rn).
  destruct (held_props c b Hd0) as [Sp _].
  assert (Fe : forall r p p', pool c !! r = Some p -> pool b !! r = Some p' -> entailed p' <-> entailed p).
  { intros r p p' Hp Hp'. unfold entailed. rewrite (ei_flag _ _ (proj2 I) r p' Hp' (A r p' Hp')), Ee.
    symmetry. apply (ei_flag _ _ (proj2 I0) r p Hp), (rn_alive c Rn r p Hp). }
  assert (P : pinv None b).
  { apply (pinv_frame None None c); [apply R | exact W | exact Ev | exact Sp | |].
    - intros r p p' Hp Hp' Ep. left. apply (Fe r p p' Hp Hp'), Ep.
    - intros r p p' Hp Hp' _. split; [discriminate |]. split; [| apply (Fe r p p' Hp Hp')].
      intros Qd. elim (quiet_unqueued c r p R Hp Qd). }
  constructor; [constructor; eauto | exact P | | rewrite El; apply R].
  exact (dequeue_refines b (fun _ => []) Q).
Qed.

(** A backtrack to an open level gives back the context that opened it. *)
Lemma nested_back base d snap k : 0 <= base -> nested base d snap -> base <= k < decision_level d ->
  nested base (trail_backtrack d k) snap /\ probed (snap k) d (trail_backtrack d k).
Proof.
  intros B0 [[It Ie] W A O] Hk. destruct (O k Hk) as [Rk Hd]. pose proof (proj2 (held_props _ _ Hd)) as Nv.
  pose proof (trail_backtrack_spec d snap k It Ie ltac:(lia)) as B. pose proof (backtrack_held d _ k B Nv) as Hb.
  destruct (backtrack_kept d k) as (_ & _ & _ & _ & K5 & K6). set (b := trail_backtrack d k) in *.
  pose proof (backtracked_tinv d snap k b It ltac:(lia) B) as It3.
  pose proof (backtracked_einv d snap k b It Ie ltac:(lia) B) as Ie3.
  destruct (ti_snap d snap It k ltac:(lia)) as (Lk & _).
  assert (Hkb : held (snap k) b) by (apply (held_trans _ d); assumption).
  assert (Rb : resting b).
  { apply (rest_again (snap k) b snap Rk Hkb); try apply B; [split; assumption |]. rewrite (bt_level _ _ _ _ B). symmetry. exact Lk. }
  split.
  - constructor; [split; assumption | apply (rn_wired b), Rb | apply (rn_alive b), Rb |].
    rewrite (bt_level _ _ _ _ B). intros j Hj. destruct (O j ltac:(lia)) as [Rj Hdj].
    split; [exact Rj | apply (held_trans _ d); assumption].
  - constructor; try assumption; try apply B; [apply held_props, Hkb | rewrite (bt_level _ _ _ _ B); auto |].
    split; [apply B | split; apply B].
Qed.

Lemma probe_back c d : resting c -> run (trail_push_level c) d -> probed c d (trail_backtrack d (decision_level c)).
Proof.
  intros R Rd. destruct (level_next c R) as [L0 Ln]. destruct (nested_start c R) as (s0 & N0).
  destruct (nested_run _ _ _ d (nested_push _ c s0 R N0) Rd) as (s & Nd & Es).
  assert (Ld : decision_level d = decision_level c + 1).
  { destruct (push_running c R) as [Rn _]. destruct (run_running _ d Rn Rd) as [_ Sc].
    rewrite (sc_level _ _ Sc). exact Ln. }
  destruct (nested_back _ d s (decision_level c) L0 Nd ltac:(lia)) as [_ P].
  rewrite Es, Z.eqb_refl in P; [exact P |]. cbn. rewrite Ln. lia.
Qed.
End Loop.
End Probe.
