(* ===== verification/Unassigned.v ===== *)
(** * Unassigned: the mask of variables still to be decided
    (src/src/c/dvs_propagate.c, dvs_trail.c)

    With at most 64 variables the search looks for its next variable in
    [ctx->unassigned_mask].  A tightening that fixes a variable clears its bit,
    and a backtrack rebuilds the mask.  The file shows that the mask stays
    right: no bit of a fixed variable is set and, unless the mask is zero, no
    bit of an undecided variable that is not auxiliary is missing. *)

From Stdlib Require Import ZArith Lia ZifyBool Bool.
From stdpp Require Import base gmap list numbers relations.
From S2P Require Import Prelude Vars Ctx Queue DynStack Trail GuardIx Wake Store Tighten Propagate Probe.
Import Vars Ctx Queue DynStack Trail GuardIx Wake Store Tighten Propagate Probe.
Open Scope Z_scope.

Module Unassigned.

Lemma int64_bounds v : good v -> int64 (var_lo64 v) /\ int64 (var_hi64 v).
Proof.
  intros G. unfold var_lo64, var_hi64, u32, int64.
  destruct (gd_tier v G) as [(-> & _ & L & Hh & _) | (-> & _ & _ & L & Hh)]; unfold int32, int64 in *; [| lia].
  destruct (is_signed v); [lia |].
  pose proof (Z.mod_pos_bound (lo v) (2 ^ 32)). pose proof (Z.mod_pos_bound (hi v) (2 ^ 32)). lia.
Qed.

Section Mask.
Context {T M S : Type} `{DynStackLaws M S} `{Env}.
Implicit Types c : ctx T M S.

Record mask_ok c : Prop := {
  mk_live : forall x, 0 <= x -> Z.testbit (unassigned_mask c) x = true -> x < n_vars c /\ ~ fixed c x;
  mk_full : unassigned_mask c <> 0 -> forall x, 0 <= x < n_vars c -> ~ fixed c x ->
    is_aux (var c x) = false -> Z.testbit (unassigned_mask c) x = true }.
(** The mask is of use only when it has a bit for every variable. *)
Definition mask_right c : Prop := n_vars c <= 64 -> mask_ok c.

(** The two fields the mask's invariant reads. *)
Definition mask_view c := (vars c, unassigned_mask c).

Lemma view_right c c' : mask_view c' = mask_view c -> mask_right c -> mask_right c'.
Proof.
  intros [= Ev Em] R Hn. destruct (var_of_vars c c' Ev) as [V N]. rewrite N in Hn. destruct (R Hn) as [L F].
  assert (Fx : forall x, fixed c' x <-> fixed c x) by (intros x; unfold fixed, lo_at, hi_at; cbn; rewrite V; tauto).
  constructor; rewrite Em, N.
  - intros x Hx. rewrite Fx. apply L, Hx.
  - intros Nz x Hx. rewrite Fx, V. apply F; assumption.
Qed.

Lemma enqueue_view c r : mask_view (prop_enqueue c r) = mask_view c.
Proof. unfold prop_enqueue, update_prop. repeat case_match; reflexivity. Qed.
Lemma enqueue_id_view c i : mask_view (enqueue_id c i) = mask_view c.
Proof. unfold enqueue_id. case_match; [reflexivity | apply enqueue_view]. Qed.
Lemma fold_view {A} (step : ctx T M S -> A -> ctx T M S) l : (forall c a, mask_view (step c a) = mask_view c) ->
  forall c, mask_view (fold_left step l c) = mask_view c.
Proof. intros F. induction l as [| a l IH]; intros c; cbn; [reflexivity |]. rewrite IH. apply F. Qed.
Lemma wake_view c id : wired c -> 0 <= id < n_vars c -> mask_view (wake_var c id) = mask_view c.
Proof.
  intros W Hx. destruct (wake_var_eq c id W Hx) as (l & x & _ & _ & _ & ->).
  transitivity (mask_view (fold_left prop_enqueue l c)); [apply (fold_view enqueue_id _ enqueue_id_view) |].
  apply (fold_view prop_enqueue), enqueue_view.
Qed.
Lemma record_mask c id k vs old : unassigned_mask (snd (record_entry c id k vs old)) = unassigned_mask c.
Proof. unfold record_entry. repeat case_match; reflexivity. Qed.
Lemma record_lb_mask c x b : unassigned_mask (snd (trail_record_lb c x b)) = unassigned_mask c.
Proof. unfold trail_record_lb. repeat case_match; try reflexivity; exact (record_mask _ _ _ _ _). Qed.
Lemma record_ub_mask c x b : unassigned_mask (snd (trail_record_ub c x b)) = unassigned_mask c.
Proof. unfold trail_record_ub. repeat case_match; try reflexivity; exact (record_mask _ _ _ _ _). Qed.

Lemma after_change_mask c x f : wired c -> 0 <= x < n_vars c ->
  mask_view (snd (after_change c x f)) = mask_view (clear_unassigned c x f).
Proof.
  intros W Hx. unfold after_change. destruct (clear_unassigned_fields c x f) as (Ev & _ & _ & _ & Wc). cbn [snd].
  case_match; [| reflexivity]. apply wake_view; [apply Wc, W |]. unfold n_vars. rewrite Ev. exact Hx.
Qed.

Lemma fixed_raw c x : st_ok c -> valid c x -> fixed c x <-> var_lo64 (var c x) = var_hi64 (var c x).
Proof.
  intros K V. pose proof (K x V) as G. destruct (int64_bounds _ G) as [Il Ih].
  split; [apply (bval_inj (var c x)); assumption | unfold fixed, lo_at, hi_at, lo_of, hi_of; cbn; congruence].
Qed.

Lemma cleared_bit m x j : 0 <= x < 64 -> 0 <= j ->
  Z.testbit (Z.land m (u64 (Z.lnot (u64 (Z.shiftl 1 x))))) j =
    Z.testbit m j && (j <? 64) && negb (j =? x).
Proof.
  intros Hx Hj. rewrite Z.land_spec, u64_spec, Z.lnot_spec, u64_spec, Z.shiftl_1_l, pow2_spec by lia.
  rewrite (Z.eqb_sym j x). destruct (Z.testbit m j), (Z.ltb_spec j 64); cbn; try reflexivity.
Qed.

#[export] Instance fixed_dec c x : Decision (fixed c x) := Z.eq_dec (lo_at c x) (hi_at c x).

(** A tightening of [x] that clears its bit just when it fixes it. *)
Lemma narrowed_right c c' x l h : narrowed c c' x l h -> 0 <= x < n_vars c -> lo_at c x <= l -> h <= hi_at c x ->
  unassigned_mask c' = unassigned_mask (clear_unassigned c x (bool_decide (fixed c' x))) ->
  mask_right c -> mask_right c'.
Proof.
  intros [K' V' O Ty El Eh] Hx Ll Lh Em R Hn. pose proof (dom_ne c' x K' (proj2 (V' x) Hx)) as Ne'.
  assert (Nv : n_vars c' = n_vars c).
  { cbn in V'. pose proof (V' (n_vars c')). pose proof (V' (n_vars c)). unfold n_vars in *. lia. }
  rewrite Nv in Hn. destruct (R Hn) as [L F]. cbn in O.
  assert (B : forall j, 0 <= j < 64 -> Z.testbit (unassigned_mask c') j =
    Z.testbit (unassigned_mask c) j && negb ((j =? x) && bool_decide (fixed c' x))).
  { intros j Hj. rewrite Em. unfold clear_unassigned.
    destruct (bool_decide_reflect (fixed c' x)); [| cbn; rewrite andb_false_r, andb_true_r; reflexivity].
    destruct (Z.ltb_spec x 64); [| lia]. cbn. rewrite cleared_bit by lia.
    destruct (Z.ltb_spec j 64); [| lia]. rewrite !andb_true_r. reflexivity. }
  assert (Ot : forall y, 0 <= y < n_vars c -> y <> x -> (fixed c' y <-> fixed c y) /\ is_aux (var c' y) = is_aux (var c y)).
  { intros y Hy Ne. unfold fixed, lo_at, hi_at. cbn. rewrite (O y Hy Ne). tauto. }
  constructor.
  - intros y Hy Ty'. rewrite Nv.
    assert (Hy64 : y < 64).
    { destruct (Z.ltb_spec y 64) as [? | Ge]; [assumption |]. exfalso. revert Ty'. rewrite Em. unfold clear_unassigned.
      assert (Z.testbit (unassigned_mask c) y = true -> False) by (intros X; destruct (L y Hy X); lia).
      case_match; [| assumption]. cbn. rewrite cleared_bit by lia. destruct (Z.testbit (unassigned_mask c) y); auto. }
    rewrite B in Ty' by lia. apply andb_prop in Ty' as [T1 T2]. destruct (L y Hy T1) as [Ly Fy]. split; [exact Ly |].
    destruct (Z.eq_dec y x) as [-> | Ne].
    + rewrite Z.eqb_refl in T2. destruct (bool_decide_reflect (fixed c' x)); [discriminate | assumption].
    + rewrite (proj1 (Ot y ltac:(lia) Ne)). exact Fy.
  - intros Nz y Hy Fy Ay. rewrite Nv in Hy.
    assert (Nz0 : unassigned_mask c <> 0).
    { intros Z0. apply Nz. apply Z.bits_inj'. intros j Hj. rewrite Z.bits_0, Em. unfold clear_unassigned.
      case_match; cbn; rewrite Z0, ?Z.land_0_l; apply Z.bits_0. }
    rewrite B by lia. destruct (Z.eq_dec y x) as [-> | Ne].
    + rewrite Z.eqb_refl, (bool_decide_false _ Fy). cbn. rewrite andb_true_r.
      apply F; auto; [intros Fx; apply Fy; unfold fixed in *; lia |]. destruct Ty as [Tf _]. unfold is_aux in *. cbn in Tf. rewrite Tf in Ay. exact Ay.
    + destruct (Ot y Hy Ne) as [Of Oa]. rewrite (proj2 (Z.eqb_neq y x) Ne). cbn. rewrite andb_true_r.
      apply F; [exact Nz0 | exact Hy | rewrite <- Of; exact Fy | congruence].
Qed.

Lemma replaced_wired c x w l h c1 : wired c -> replaced c x w l h c1 -> wired c1 /\ n_vars c1 = n_vars c /\
  unassigned_mask c1 = unassigned_mask c.
Proof.
  intros W Rp. destruct (rp_trail _ _ _ _ _ _ Rp) as (s & t & n & E1).
  assert (N1 : n_vars c1 = n_vars c) by (rewrite E1; apply (n_vars_put c x w)).
  split; [| split; [exact N1 | rewrite E1; reflexivity]]. destruct (wi_queue _ W) as [qs Q].
  apply (wired_frame c); rewrite ?E1; auto; [rewrite <- E1; exact N1 | exists qs; apply (qrep_links c); auto].
Qed.

(** One bound replaced, with what follows. *)
Lemma changed_right c x w l h c1 : wired c -> st_ok c -> 0 <= x < n_vars c -> replaced c x w l h c1 ->
  lo_at c x <= l -> h <= hi_at c x ->
  mask_right c -> mask_right (snd (after_change c1 x (var_lo64 w =? var_hi64 w))).
Proof.
  intros W K Hx Rp Ll Lh R. destruct (replaced_wired c x w l h c1 W Rp) as (W1 & N1 & M1).
  set (f := var_lo64 w =? var_hi64 w). pose proof (after_change_mask c1 x f W1 ltac:(lia)) as Ecm.
  set (c' := snd (after_change c1 x f)) in *. clearbody c'. injection Ecm as Ev Em.
  assert (Ev1 : vars (clear_unassigned c1 x f) = vars c1) by apply clear_unassigned_fields. rewrite Ev1 in Ev.
  pose proof (replaced_narrowed c x w l h c1 c' K Hx Rp Ev) as Nr.
  apply (narrowed_right c c' x l h Nr Hx Ll Lh); [| exact R]. rewrite Em.
  assert (Ef : f = bool_decide (fixed c' x)).
  { assert (Ew : var c' x = w).
    { unfold var. rewrite Ev. apply (after_write c c1 x w Hx), Rp. }
    unfold f. rewrite <- Ew. apply eq_true_iff_eq. rewrite Z.eqb_eq, bool_decide_eq_true.
    symmetry. apply fixed_raw; [apply Nr |]. apply (nr_valid _ _ _ _ _ Nr). exact Hx. }
  rewrite Ef. unfold clear_unassigned. case_match; cbn; rewrite M1; reflexivity.
Qed.

Lemma raising_right c x n r c' : wired c -> st_ok c -> 0 <= x < n_vars c -> raising c x n r -> r = (PROP_OK, c') ->
  mask_right c -> mask_right c'.
Proof.
  intros W K Hx [Le | d Lt | w c1 B R] E; [injection E as <-; auto | discriminate |].
  apply (f_equal snd) in E. cbn [snd] in E. rewrite <- E. apply (changed_right c x w n (hi_at c x)); auto; lia.
Qed.
Lemma lowering_right c x n r c' : wired c -> st_ok c -> 0 <= x < n_vars c -> lowering c x n r -> r = (PROP_OK, c') ->
  mask_right c -> mask_right c'.
Proof.
  intros W K Hx [Le | d Lt | w c1 B R] E; [injection E as <-; auto | discriminate |].
  apply (f_equal snd) in E. cbn [snd] in E. rewrite <- E. apply (changed_right c x w (lo_at c x) n); auto; lia.
Qed.

Lemma steps_right c c' : steps c c' -> wired c -> st_ok c -> mask_right c -> mask_right c'.
Proof.
  intros St W K R. induction St as [c | c c1 c2 x b St IH K1 V Ti Ib E | c c1 c2 x b St IH K1 V Ti Ib E
    | c c1 c2 x b St IH K1 V Ib E | c c1 c2 x b St IH K1 V Ib E]; [exact R | ..];
    specialize (IH W K R); pose proof (mv_wired _ _ (steps_moved c c1 St W K)) as W1; cbn in E, V.
  - apply (raising_right c1 x b (ctx_tighten_lb32 c1 x b)); auto. apply lb32_raising; auto.
  - apply (lowering_right c1 x b (ctx_tighten_ub32 c1 x b)); auto. apply ub32_lowering; auto.
  - apply (raising_right c1 x (bval (var c1 x) b) (ctx_tighten_lb64 c1 x b)); auto. apply lb64_raising; auto.
  - apply (lowering_right c1 x (bval (var c1 x) b) (ctx_tighten_ub64 c1 x b)); auto. apply ub64_lowering; auto.
Qed.

Lemma mark_view c r : mask_view (trail_mark_entailed c r) = mask_view c.
Proof. unfold trail_mark_entailed, update_prop. repeat case_match; reflexivity. Qed.
Lemma over_view c : mask_view (snd (prop_over_budget c)) = mask_view c.
Proof. unfold prop_over_budget. repeat case_match; reflexivity. Qed.
Lemma push_view c : mask_view (trail_push_level c) = mask_view c.
Proof. reflexivity. Qed.
End Mask.

Section Loop.
Context {T M S : Type} `{DynStackLaws M S} `{Env} `{!DynStackServes M S}
  `{!Fires T (ctx T M S)} `{!Propagators T (ctx T M S)} `{!PropagatorLaws T (ctx T M S)}.
Implicit Types c : ctx T M S.

(** The mask after a turn that did not end in a conflict. *)
Definition right_after (t : @turn T M S) : Prop :=
  match t with Again c | Done PROP_OK c => mask_right c | _ => True end.

Lemma dequeue_view c snap r c1 : inv c snap -> dequeue c = Some (r, c1) -> mask_view c1 = mask_view c.
Proof.
  intros [_ Ie] E. destruct (ei_queue _ _ Ie) as [qs Q]. pose proof (dequeue_refines c qs Q) as R.
  destruct (spec_dequeue 16 0 qs) as [[r0 qs'] |]; [| congruence].
  destruct R as (c0 & E0 & _ & _ & Fr). rewrite E in E0. injection E0 as <- <-. unfold framed in Fr.
  rewrite Fr. reflexivity.
Qed.

Lemma fire_right c r p : pinv (Some r) c -> pool c !! r = Some p -> mask_right c -> right_after (fire_prop c r p).
Proof.
  intros I Hp R. unfold fire_prop. set (c0 := set_current_prop_ref c r).
  assert (K0 : st_ok c0) by exact (pi_ok _ _ I).
  assert (W0 : wired c0).
  { pose proof (pi_wired _ _ I) as W. destruct (wi_queue _ W) as [qs Q].
    apply (wired_frame c); auto. exists qs. apply (qrep_links c); auto. }
  assert (Rd : ready c0 (template p) (watched p)).
  { apply (ready_sub c c0); [apply (pi_ready _ _ I r p Hp) | apply vars_sub; [apply I | reflexivity]]. }
  pose proof (fire_sound c0 _ _ K0 Rd) as Sd. unfold sound_from in Sd.
  destruct (fire (template p) (watched p) c0) as [res c1].
  destruct res; [| exact Logic.I |]; destruct Sd as (_ & St & _);
    pose proof (steps_right c0 c1 St W0 K0 (view_right c c0 eq_refl R)) as R1; cbn [right_after];
    refine (view_right c1 _ _ R1); first [reflexivity | exact (mark_view (set_current_prop_ref c1 EXPR_NULL) r)].
Qed.

Lemma turn_right c : running c -> pinv None c -> mask_right c -> right_after (propagate_turn c).
Proof.
  intros Rn I R. destruct (rn_inv c Rn) as (snap & Iv). unfold propagate_turn.
  destruct (dequeue c) as [[r c1] |] eqn:Hd; [| exact R].
  pose proof (view_right c c1 (dequeue_view c snap r c1 Iv Hd) R) as R1. pose proof (dequeue_pinv c r c1 I Hd) as I1.
  destruct (pool c1 !! r) as [p |] eqn:Hp; [| exact R1].
  destruct (has_flag p PROP_FLAG_ENTAILED); [exact R1 |].
  set (c2 := count_fire c1). set (oc := if Z.land (prop_ticks (budget c2)) 1023 =? 0 then prop_over_budget c2 else (false, c2)).
  assert (S3 : same_state c1 (snd oc) /\ mask_view (snd oc) = mask_view c1).
  { subst oc. destruct (_ =? 0); [| split; [repeat split | reflexivity]].
    split; [exact (over_budget_state c2) | exact (over_view c2)]. }
  destruct oc as [over c3]. cbn [snd] in S3. destruct S3 as [S3 V3]. destruct over; [exact Logic.I |].
  pose proof (view_right c1 c3 V3 R1) as R3. pose proof (same_state_pinv _ c1 c3 I1 S3) as I3.
  assert (Hp3 : pool c3 !! r = Some p) by (destruct S3 as (_ & -> & _); exact Hp).
  unfold guarded_fire. repeat case_match; try (apply fire_right; assumption);
    [exact (view_right c3 _ (mark_view c3 r) R3) | exact R3].
Qed.

Lemma loop_right fuel : forall c c', running c -> pinv None c -> mask_right c ->
  propagate_loop fuel c = Some (PROP_OK, c') -> mask_right c'.
Proof.
  induction fuel as [| fuel IH]; intros c c' Rn I R; [discriminate |]. cbn.
  pose proof (turn_run c Rn I) as Rt. pose proof (propagate_turn_spec c I) as Sp. pose proof (turn_right c Rn I R) as Tr.
  destruct (propagate_turn c) as [c1 | r1 c1]; cbn [turn_ctx turned right_after] in *.
  - destruct Sp as (I1 & _). apply IH; [apply (run_running c c1 Rn Rt) | exact I1 | exact Tr].
  - intros [= -> <-]. exact Tr.
Qed.

Lemma propagate_right fuel c c' : running c -> pinv None c -> mask_right c ->
  solver_propagate fuel c = Some (PROP_OK, c') -> mask_right c'.
Proof.
  intros Rn I R. unfold solver_propagate. destruct (prop_aborted c); [discriminate |].
  set (c0 := set_conflict_clause_idx _ _).
  assert (R0 : run c c0) by (apply run_log; constructor; cbn; auto 20).
  apply loop_right; [apply (run_running c c0 Rn R0) | | exact (view_right c c0 eq_refl R)].
  apply (same_state_pinv _ c); [exact I | repeat split].
Qed.

(** A backtrack makes the mask anew. *)
Lemma rebuilt_right (a b : ctx T M S) : st_ok a -> vars b = vars a ->
  (n_vars a <= 64 -> forall j, 0 <= j ->
    Z.testbit (unassigned_mask b) j = default false (unassigned <$> vars a !! Z.to_nat j)) -> mask_right b.
Proof.
  intros G Ev Mb Hn. destruct (var_of_vars a b Ev) as [V N]. rewrite N in Hn. pose proof (Mb Hn) as Bm.
  assert (Kb : st_ok b) by (intros x Hx; cbn in *; rewrite V; apply G; cbn; lia).
  assert (Bit : forall x, 0 <= x -> Z.testbit (unassigned_mask b) x = true <->
    x < n_vars b /\ is_aux (var b x) = false /\ ~ fixed b x).
  { intros x Hx. rewrite Bm by exact Hx. rewrite <- Ev. destruct (vars b !! Z.to_nat x) as [v |] eqn:L.
    - pose proof (lookup_lt_Some _ _ _ L). assert (Vx : valid b x) by (cbn; unfold n_vars; lia).
      rewrite (fixed_raw b x Kb Vx). unfold var. rewrite L. cbn. unfold unassigned.
      destruct (is_aux v); cbn; [intuition congruence |]. unfold n_vars.
      destruct (Z.eqb_spec (var_lo64 v) (var_hi64 v)); cbn; intuition (try congruence; lia).
    - apply lookup_ge_None in L. cbn. unfold n_vars. split; [discriminate | lia]. }
  constructor.
  - intros x Hx T1. apply Bit in T1; tauto.
  - intros _ x Hx Fx Ax. apply Bit; tauto.
Qed.
End Loop.
End Unassigned.
