(* ===== verification/Shave.v ===== *)
(** * Shave: pre-search shaving of bounds
    (src/src/c/dvs_shave.c)

    [bounds_shave] tries each bound of each variable on a level of its own: the
    variable is fixed to the bound, the propagators run, the level is undone; if
    they failed, the bound is excluded at the search root and they run again.
    The file shows that no solution is lost, that a conflict means there is
    none (or that a budget ran out), that the loops end, which trials and
    exclusions an OK was reached by, and that they end with a whole round in which
    every bound was tried and none failed, unless the limit stopped the loops.
    It rests on [Probe.probe_back] for the undoing. *)

From Stdlib Require Import ZArith Lia ZifyBool Bool.
From stdpp Require Import base gmap list numbers relations.
From S2P Require Import Prelude Vars Ctx Queue DynStack Trail GuardIx Wake Store Tighten Propagate Probe Unassigned.
Import Vars Ctx Queue DynStack Trail GuardIx Wake Store Tighten Propagate Probe Unassigned.
Open Scope Z_scope.

Module Shave.

Section Ops.
Context {T M S : Type} `{DynStack M S} `{Env} `{!Fires T (ctx T M S)}.
(** The turns each call of [dvs_solver_propagate] may take, and the field
    [ctx->search_base]. *)
Context (turns : nat) (search_base : Z).
Implicit Types c : ctx T M S.

(** [pr = ctx_tighten_lb64(ctx, x, v); if (pr == PROP_OK) pr = ctx_tighten_ub64(ctx, x, v);] *)
Definition fix_at c (x v : Z) : prop_result * ctx T M S :=
  match ctx_tighten_lb64 c x v with
  | (PROP_OK, c) => ctx_tighten_ub64 c x v
  | rc => rc
  end.
(** [if (pr == PROP_OK) pr = dvs_solver_propagate(ctx);] *)
Definition then_propagate (rc : prop_result * ctx T M S) : option (prop_result * ctx T M S) :=
  match rc with
  | (PROP_OK, c) => solver_propagate turns c
  | rc => Some rc
  end.

(** Fix [x] to [v] one level above the root, propagate, undo. *)
Definition shave_probe c (x v : Z) : option (prop_result * ctx T M S) :=
  match then_propagate (fix_at (trail_push_level c) x v) with
  | None => None
  | Some (pr, c) => Some (pr, trail_backtrack c search_base)
  end.

(** A stretch of the loops: it goes on with [changed] and [total_removed], or
    the function returns PROP_CONFLICT. *)
Inductive stretch := Going (changed : bool) (removed : Z) (c : ctx T M S) | Stopped (c : ctx T M S).

(** One of the two [for (;;)] loops: [up] for the upper bound. *)
Fixpoint shave_side (up : bool) (n : nat) (x : Z) (changed : bool) (removed : Z) c : option stretch :=
  match n with
  | O => None
  | Datatypes.S n =>
      let hi := var_hi64 (var c x) in
      let lo := var_lo64 (var c x) in
      if lo >=? hi then Some (Going changed removed c) else
      match shave_probe c x (if up then hi else lo) with
      | None => None
      | Some (pr, c) =>
          if prop_aborted c then Some (Stopped c) else
          match pr with
          | PROP_CONFLICT =>
              let '(er, c) := if up then ctx_tighten_ub64 c x (hi - 1) else ctx_tighten_lb64 c x (lo + 1) in
              match er with
              | PROP_CONFLICT => Some (Stopped c)
              | _ =>
                  match solver_propagate turns c with
                  | None => None
                  | Some (PROP_CONFLICT, c) => Some (Stopped c)
                  | Some (_, c) => shave_side up n x true (u32 (removed + 1)) c
                  end
              end
          | _ => Some (Going changed removed c)
          end
      end
  end.
Definition shave_upper := shave_side true.
Definition shave_lower := shave_side false.

(** Go on, unless the function has returned. *)
Definition go_on (r : option stretch) (k : bool -> Z -> ctx T M S -> option stretch) : option stretch :=
  match r with Some (Going changed removed c) => k changed removed c | r => r end.

(** The [for] loop over the variables: the upper bound, then the lower. *)
Fixpoint shave_vars (n : nat) (max_iters : Z) (xs : list Z) (changed : bool) (removed : Z) c : option stretch :=
  match xs with
  | [] => Some (Going changed removed c)
  | x :: xs =>
      if removed <? max_iters then
        go_on (go_on (shave_upper n x changed removed c) (shave_lower n x)) (shave_vars n max_iters xs)
      else Some (Going changed removed c)
  end.

Fixpoint shave_rounds (n : nat) (max_iters : Z) (changed : bool) (removed : Z) c :
    option (prop_result * ctx T M S) :=
  match n with
  | O => None
  | Datatypes.S n' =>
      if changed && (removed <? max_iters) then
        match shave_vars n max_iters (seqZ 0 (n_vars c)) false removed c with
        | Some (Going changed removed c) => shave_rounds n' max_iters changed removed c
        | Some (Stopped c) => Some (PROP_CONFLICT, c)
        | None => None
        end
      else Some (PROP_OK, c)
  end.
Definition bounds_shave (n : nat) c (max_iters : Z) : option (prop_result * ctx T M S) :=
  shave_rounds n max_iters true 0 c.
End Ops.
Arguments Going {T M S}.
Arguments Stopped {T M S}.

(** ** One probe and one exclusion *)

(** The neighbour of a bound, as a pattern and as a number. *)
Lemma bound_step v : good v -> var_lo64 v < var_hi64 v ->
  lo_of v < hi_of v /\ int64 (var_hi64 v - 1) /\ bval v (var_hi64 v - 1) = hi_of v - 1 /\
  int64 (var_lo64 v + 1) /\ bval v (var_lo64 v + 1) = lo_of v + 1.
Proof.
  intros G Lt. pose proof (gd_ne v G) as Ne.
  pose proof (int64_bounds v G) as I.
  unfold lo_of, hi_of, bval, u64, int64 in *. destruct (beyond v).
  - revert I Lt Ne. generalize (var_lo64 v) (var_hi64 v). intros l h I Lt Ne.
    assert (M : forall z, - 2 ^ 63 <= z < 2 ^ 63 -> z mod 2 ^ 64 = if z <? 0 then z + 2 ^ 64 else z).
    { intros z Hz. destruct (Z.ltb_spec z 0); [symmetry; apply (Z.mod_unique_pos _ _ (-1)); lia | apply Z.mod_small; lia]. }
    rewrite (M l), (M h) in Ne by lia. rewrite (M l), (M h) by lia.
    assert (h - 1 >= - 2 ^ 63 /\ l + 1 < 2 ^ 63) by lia. rewrite (M (h - 1)), (M (l + 1)) by lia.
    clear M. destruct (Z.ltb_spec l 0), (Z.ltb_spec h 0), (Z.ltb_spec (h - 1) 0), (Z.ltb_spec (l + 1) 0); lia.
  - lia.
Qed.

Section Fields.
Context {T M S : Type} `{DynStack M S} `{Env}.
Implicit Types c : ctx T M S.

(** Neither a record nor a wake-up sets the abort flag. *)
Lemma enqueue_abort c r : prop_aborted (prop_enqueue c r) = prop_aborted c.
Proof. unfold prop_enqueue, update_prop. repeat case_match; reflexivity. Qed.
Lemma enqueue_id_abort c i : prop_aborted (enqueue_id c i) = prop_aborted c.
Proof. unfold enqueue_id. case_match; [reflexivity | apply enqueue_abort]. Qed.
Lemma fold_abort {A} (step : ctx T M S -> A -> ctx T M S) l : (forall c a, prop_aborted (step c a) = prop_aborted c) ->
  forall c, prop_aborted (fold_left step l c) = prop_aborted c.
Proof. intros F. induction l as [| a l IH]; intros c; cbn; [reflexivity |]. rewrite IH. apply F. Qed.

Lemma wake_abort c id : wired c -> 0 <= id < n_vars c -> prop_aborted (wake_var c id) = prop_aborted c.
Proof.
  intros W Hx. destruct (wake_var_eq c id W Hx) as (l & x & _ & _ & _ & ->). cbn.
  rewrite (fold_abort enqueue_id _ enqueue_id_abort). apply (fold_abort prop_enqueue), enqueue_abort.
Qed.

Lemma after_change_abort c x f : wired c -> 0 <= x < n_vars c ->
  prop_aborted (snd (after_change c x f)) = prop_aborted c.
Proof.
  intros W Hx. unfold after_change. destruct (clear_unassigned_fields c x f) as (Ev & _ & _ & _ & Wc).
  assert (E : prop_aborted (clear_unassigned c x f) = prop_aborted c)
    by (unfold clear_unassigned; case_match; reflexivity).
  cbn [snd]. case_match; [| exact E]. rewrite wake_abort; [exact E | apply Wc, W |].
  unfold n_vars. rewrite Ev. exact Hx.
Qed.
End Fields.

Section Shaving.
Context {T M S : Type} `{DynStackLaws M S} `{Env} `{!DynStackServes M S}
  `{!Fires T (ctx T M S)} `{!Propagators T (ctx T M S)} `{!PropagatorLaws T (ctx T M S)}.
Implicit Types c : ctx T M S.

Lemma record_lb_abort c x b : prop_aborted (snd (trail_record_lb c x b)) = prop_aborted c.
Proof. unfold trail_record_lb, record_entry. repeat case_match; reflexivity. Qed.
Lemma record_ub_abort c x b : prop_aborted (snd (trail_record_ub c x b)) = prop_aborted c.
Proof. unfold trail_record_ub, record_entry. repeat case_match; reflexivity. Qed.

Lemma call_abort c snap r c' : inv c snap -> wired c -> call c r c' -> prop_aborted c' = prop_aborted c.
Proof.
  intros I W K.
  assert (Go : forall x c1 f, 0 <= x < n_vars c -> run c c1 -> prop_aborted c1 = prop_aborted c ->
    prop_aborted (snd (after_change c1 x f)) = prop_aborted c).
  { intros x c1 f Hx R <-. destruct (run_inv c snap c1 I R) as [_ Sc].
    apply after_change_abort; [apply (run_wired c snap); assumption |]. rewrite (sc_vars _ _ Sc). exact Hx. }
  destruct K as [x b r c' Ko V _ _ E | x b r c' Ko V _ _ E | x b r c' Ko V _ E | x b r c' Ko V _ E]; cbn in V, E;
    pose proof (Ko x V) as G; cbn in G;
    pose proof (record_lb_run c snap x b I G V) as Rl; pose proof (record_ub_run c snap x b I G V) as Ru;
    pose proof (record_lb_abort c x b) as Al; pose proof (record_ub_abort c x b) as Au;
    apply (f_equal snd) in E; cbn [snd] in E; rewrite <- E;
    unfold ctx_tighten_lb32, ctx_tighten_ub32, ctx_tighten_lb64, ctx_tighten_ub64;
    repeat case_match; cbn [snd]; auto.
Qed.

(** ** Effort *)

(** The turns that are enough for a call from [c] or from smaller domains. *)
Definition effort c : nat := Z.to_nat (spans (vars c)) * Datatypes.S (size (pool c)) + size (pool c).

Lemma rank_effort c : (rank c <= effort c)%nat.
Proof. unfold rank, effort. pose proof (queued_set_size c). lia. Qed.

Lemma spans_le (vs : list variable) : forall ws, length ws = length vs ->
  (forall i v w, vs !! i = Some v -> ws !! i = Some w -> span w <= span v) -> spans ws <= spans vs.
Proof.
  induction vs as [| v vs IH]; intros [| w ws] L F; [cbn; lia | discriminate L | discriminate L |]. cbn.
  pose proof (F 0%nat v w eq_refl eq_refl). enough (spans ws <= spans vs) by (unfold spans in *; lia).
  apply IH; [cbn in L; lia |]. intros i. apply (F (Datatypes.S i)).
Qed.

Lemma sub_spans c c' : n_vars c' = n_vars c -> sub c' c -> spans (vars c') <= spans (vars c).
Proof.
  intros N Sb. unfold n_vars in N. apply spans_le; [lia |]. intros i v w Hv Hw.
  pose proof (lookup_lt_Some _ _ _ Hv) as Hi.
  assert (V : valid c (Z.of_nat i)) by (cbn; unfold n_vars; lia).
  pose proof (sb_dom _ _ Sb _ V) as D. unfold lo_at, hi_at in D. cbn in D. unfold var in D.
  rewrite Nat2Z.id, Hv, Hw in D. cbn in D. unfold span. lia.
Qed.

Lemma effort_mono c c' : same_props c c' -> spans (vars c') <= spans (vars c) -> (effort c' <= effort c)%nat.
Proof.
  intros Sp Le. unfold effort. rewrite (same_props_size c c' Sp). 
  enough (Z.to_nat (spans (vars c')) * Datatypes.S (size (pool c)) <= Z.to_nat (spans (vars c)) * Datatypes.S (size (pool c)))%nat by lia.
  apply Nat.mul_le_mono_r. lia.
Qed.

(** ** One call and one propagation *)

Lemma called c c' : running c -> pinv None c -> call c PROP_OK c' ->
  run c c' /\ running c' /\ pinv None c' /\ moved c c' /\ prop_aborted c' = prop_aborted c /\
  decision_level c' = decision_level c.
Proof.
  intros Rn P K. destruct (rn_inv c Rn) as (snap & I). pose proof (pi_wired _ _ P) as W.
  pose proof (call_run c snap _ c' I W K) as R. destruct (run_running c c' Rn R) as [Rn' Sc].
  pose proof (steps_moved c c' (call_steps _ _ K) W (pi_ok _ _ P)) as Mv.
  split; [exact R |]. split; [exact Rn' |]. split; [apply (moved_pinv c); assumption |]. split; [exact Mv |].
  split; [apply (call_abort c snap _ _ I W K) | apply Sc].
Qed.

Lemma propagated turns c : running c -> pinv None c -> (effort c < turns)%nat ->
  exists r c', solver_propagate turns c = Some (r, c') /\ run c c' /\ ended c r c'.
Proof.
  intros Rn P Lt. destruct (prop_aborted c) eqn:A.
  - exists PROP_CONFLICT, c. unfold solver_propagate. rewrite A. split; [reflexivity |]. split; [reflexivity |].
    left. split; [exact A |]. split; [exact P |]. apply (proj1 (kept_refl c (pi_ok _ _ P))).
  - pose proof (rank_effort c). destruct (solver_propagate_spec turns c P A) as [En Ex].
    destruct (Ex ltac:(lia)) as (r & c' & E). exists r, c'. split; [exact E |].
    split; [apply (propagate_run turns c r c' Rn P E) | apply En, E].
Qed.

(** A solution within the smaller domains is a solution there. *)
Lemma props_solves c c' s : same_props c c' -> solves c s -> in_dom c' s -> solves c' s.
Proof.
  intros Sp [_ Hs] D. split; [exact D |]. intros r p' Hp'.
  destruct (shape_back _ _ r p' (proj1 Sp) Hp') as (p & Hp & E).
  apply (holds_same c c' s p p' Sp (eq_sym E)), (Hs r p Hp).
Qed.

(** ** Assumptions

    The tightenings tried from [c] hold of the assignments with [P]. *)

Definition assumed c (P : assignment -> Prop) (rc : prop_result * ctx T M S) : Prop :=
  run c (snd rc) /\
  match rc with
  | (PROP_OK, d) => running d /\ pinv None d /\ moved c d /\ forall s, in_dom c s -> P s -> in_dom d s
  | (PROP_CONFLICT, _) => forall s, in_dom c s -> ~ P s
  | (PROP_ENTAILED, _) => False
  end.

Lemma assumed_call c x n rc : running c -> pinv None c -> 0 <= x < n_vars c -> call c (fst rc) (snd rc) ->
  (raises_lb c x n rc -> assumed c (fun s => n <= s x) rc) /\ (lowers_ub c x n rc -> assumed c (fun s => s x <= n) rc).
Proof.
  intros Rn P Hx K. destruct (rn_inv c Rn) as (snap & I). pose proof (call_run c snap _ _ I (pi_wired _ _ P) K) as R.
  destruct rc as [r d]. unfold assumed. cbn [fst snd] in *. destruct r; [| | split; intros []].
  - destruct (called c d Rn P K) as (_ & Rn' & P' & Mv & _).
    split; intros [_ N]; (split; [exact R |]); (split; [exact Rn' |]); (split; [exact P' |]); (split; [exact Mv |]);
      intros s D Ps; pose proof (D x Hx); apply (narrowed_dom c d x _ _ s N D); lia.
  - split; intros L; (split; [exact R |]); intros s D Ps; pose proof (D x Hx); cbn in L; lia.
Qed.

Lemma assume_lb c x v : running c -> pinv None c -> 0 <= x < n_vars c -> int64 v ->
  assumed c (fun s => bval (var c x) v <= s x) (ctx_tighten_lb64 c x v).
Proof.
  intros Rn P Hx Iv. pose proof (pi_ok _ _ P) as K. apply assumed_call; auto.
  - apply (call_lb64 c x v); auto using surjective_pairing.
  - apply raising_law; auto. apply lb64_raising; auto.
Qed.
Lemma assume_ub c x v : running c -> pinv None c -> 0 <= x < n_vars c -> int64 v ->
  assumed c (fun s => s x <= bval (var c x) v) (ctx_tighten_ub64 c x v).
Proof.
  intros Rn P Hx Iv. pose proof (pi_ok _ _ P) as K. apply assumed_call; auto.
  - apply (call_ub64 c x v); auto using surjective_pairing.
  - apply lowering_law; auto. apply ub64_lowering; auto.
Qed.

Lemma assumed_weaken c (P Q : assignment -> Prop) rc : assumed c P rc -> (forall s, in_dom c s -> Q s -> P s) -> assumed c Q rc.
Proof.
  intros [R A] F. split; [exact R |]. destruct rc as [[] d]; [| | exact A].
  - destruct A as (Rn & P' & Mv & D). repeat (split; [assumption |]). auto.
  - intros s D Qs. apply (A s D), F; assumption.
Qed.

Lemma assumed_then c P Q c1 rc : assumed c P (PROP_OK, c1) -> assumed c1 Q rc -> assumed c (fun s => P s /\ Q s) rc.
Proof.
  intros [R1 (Rn1 & P1 & Mv1 & D1)] [R2 A]. split; [etrans; eassumption |]. destruct rc as [[] d]; [| | exact A].
  - destruct A as (Rn & P' & Mv & D). repeat (split; [assumption |]). split; [apply (moved_trans c c1); assumption |].
    intros s Ds [Ps Qs]. auto.
  - intros s Ds [Ps Qs]. apply (A s); auto.
Qed.

Lemma assume_fix c x v : running c -> pinv None c -> 0 <= x < n_vars c -> int64 v ->
  assumed c (fun s => s x = bval (var c x) v) (fix_at c x v).
Proof.
  intros Rn P Hx Iv. pose proof (assume_lb c x v Rn P Hx Iv) as L. unfold fix_at.
  destruct (ctx_tighten_lb64 c x v) as [[] c1]; [| apply (assumed_weaken c _ _ _ L); lia .. ].
  pose proof L as (_ & Rn1 & P1 & Mv1 & _). pose proof (mv_sub _ _ Mv1) as Sb.
  assert (Hx1 : valid c1 x) by (apply (sb_valid _ _ Sb), Hx).
  pose proof (assumed_then c _ _ c1 _ L (assume_ub c1 x v Rn1 P1 Hx1 Iv)) as A. apply (assumed_weaken c _ _ _ A).
  change (bval (var c1 x) v) with (bval (var_at c1 x) v). rewrite (sub_bval c1 c x v Sb Hx).
  change (bval (var_at c x) v) with (bval (var c x) v). lia.
Qed.

Lemma moved_spans c d : moved c d -> spans (vars d) <= spans (vars c).
Proof. intros Mv. destruct (mv_work _ _ Mv) as [-> | W]; lia. Qed.

(** The propagation after the assumption [P]. *)
Record explored c (P : assignment -> Prop) (r : prop_result) d : Prop := {
  ex_run : run c d;
  ex_end : match r with
    | PROP_OK => running d /\ pinv None d /\ dequeue d = None /\ sub d c /\ spans (vars d) <= spans (vars c) /\
        forall s, solves c s -> P s -> in_dom d s
    | PROP_CONFLICT => prop_aborted d = true \/ forall s, solves c s -> ~ P s
    | PROP_ENTAILED => False
    end }.

Lemma explore turns c P rc : (effort c < turns)%nat -> assumed c P rc ->
  exists r d, then_propagate turns rc = Some (r, d) /\ explored c P r d.
Proof.
  intros Lt [R A]. destruct rc as [r c1]. cbn [snd] in R. destruct r; [| | elim A].
  2: { exists PROP_CONFLICT, c1. split; [reflexivity |]. constructor; [exact R |]. right. intros s [D _]. apply A, D. }
  destruct A as (Rn1 & P1 & Mv & D1). pose proof (moved_spans c c1 Mv) as Sp. pose proof (moved_props _ _ Mv) as Pr.
  pose proof (effort_mono c c1 Pr Sp). destruct (propagated turns c1 Rn1 P1 ltac:(lia)) as (r & d & E & Rd & En).
  exists r, d. split; [exact E |]. constructor; [etrans; eassumption |]. destruct r; [| | exact En].
  - destruct En as (Pd & K & Q). destruct (run_running c1 d Rn1 Rd) as [Rnd Scd].
    pose proof (sub_spans c1 d (sc_vars _ _ Scd) (kp_sub _ _ K)).
    split; [exact Rnd |]. split; [exact Pd |]. split; [exact Q |].
    split; [apply (sub_trans _ c1); [apply K | apply Mv] |]. split; [lia |].
    intros s Sv Ps. apply (kp_dom _ _ K), (props_solves c); auto. apply D1; [apply Sv | exact Ps].
  - destruct En as [(Ab & _) | No]; [left; exact Ab | right]. intros s Sv Ps. apply (No s).
    apply (props_solves c); auto. apply D1; [apply Sv | exact Ps].
Qed.

(** ** One probe *)

Record probe_end c (x v : Z) (r : prop_result) (b : ctx T M S) : Prop := {
  pe_resting : resting b;
  pe_vars : vars b = vars c;
  pe_props : same_props c b;
  pe_level : decision_level b = decision_level c;
  pe_right : mask_right b;
  pe_refutes : r = PROP_CONFLICT -> prop_aborted b = false -> forall s, solves c s -> s x <> bval (var c x) v }.

Lemma probe_spec turns c x v : resting c -> 0 <= x < n_vars c -> int64 v -> (effort c < turns)%nat ->
  exists r b, shave_probe turns (decision_level c) c x v = Some (r, b) /\ probe_end c x v r b.
Proof.
  intros R Hx Iv Lt. destruct (push_running c R) as [Rn0 P0]. unfold shave_probe.
  destruct (explore turns (trail_push_level c) _ _ Lt (assume_fix (trail_push_level c) x v Rn0 P0 Hx Iv))
    as (r & d & -> & [Rd Ex]).
  exists r, (trail_backtrack d (decision_level c)). split; [reflexivity |].
  destruct (probe_back c d R Rd) as [Rb Vb Pb Lb _ Mb Ab _].
  constructor; auto; [apply (rebuilt_right c); auto; apply (pi_ok _ _ (rt_pinv c R)) |]. rewrite Ab.
  intros -> Ad. destruct Ex as [X | X]; [congruence | exact X].
Qed.

(** ** Excluding a bound at the root *)

(** What is left of [c]'s problem when the function returns PROP_CONFLICT. *)
Definition given_up c c' : Prop := (forall s, ~ solves c s) \/ prop_aborted c' = true /\ kept c c'.

Lemma kept_no_solution a b : kept a b -> (forall s, ~ solves b s) -> forall s, ~ solves a s.
Proof. intros K N s Sv. apply (N s), (kept_solves a b s K), Sv. Qed.

Lemma given_up_kept a b d : kept a b -> given_up b d -> given_up a d.
Proof.
  intros K [N | [A K']]; [left; apply (kept_no_solution a b); assumption | right].
  split; [exact A | apply (kept_trans a b); assumption].
Qed.

(** A successful tightening that loses no solution. *)
Definition tightened b c2 : Prop := call b PROP_OK c2 /\ moved b c2 /\ spans (vars c2) < spans (vars b) /\
  (mask_right b -> mask_right c2) /\ forall s, solves b s -> in_dom c2 s.

Lemma tightened_kept b c2 : tightened b c2 -> kept b c2.
Proof. intros (_ & Mv & _ & _ & Kd). constructor; [apply moved_props, Mv | apply Mv | exact Kd]. Qed.

Definition excluded turns b (r : prop_result * ctx T M S) : Prop :=
  match r with
  | (PROP_CONFLICT, c) => given_up b c
  | (_, c) =>
      exists r c', solver_propagate turns c = Some (r, c') /\
      match r with
      | PROP_CONFLICT => given_up b c'
      | PROP_OK => resting c' /\ kept b c' /\ spans (vars c') < spans (vars b) /\ decision_level c' = decision_level b /\
          (mask_right b -> mask_right c')
      | PROP_ENTAILED => False
      end
  end.

Lemma tightened_excluded turns b c2 : resting b -> (effort b < turns)%nat -> tightened b c2 ->
  excluded turns b (PROP_OK, c2).
Proof.
  intros R Lt Ti. pose proof (tightened_kept b c2 Ti) as K2. destruct Ti as (C & Mv & Sp & Mr & _).
  destruct (called b c2 (rt_running b R) (rt_pinv b R) C) as (Rc & Rn2 & P2 & _ & _ & L2).
  pose proof (effort_mono b c2 (moved_props _ _ Mv) ltac:(lia)) as Ef.
  destruct (propagated turns c2 Rn2 P2 ltac:(lia)) as (r & c' & E & Rd & En).
  exists r, c'. split; [exact E |]. destruct (run_running c2 c' Rn2 Rd) as [Rn' Sc].
  assert (L : decision_level c' = decision_level b) by (rewrite (sc_level _ _ Sc); exact L2).
  destruct r; [| | exact En].
  - destruct En as (P' & K' & Q'). split; [constructor; auto; rewrite L; apply R |].
    split; [apply (kept_trans b c2); assumption |].
    split; [pose proof (sub_spans c2 c' (sc_vars _ _ Sc) (kp_sub _ _ K')); lia |]. split; [exact L |].
    intros Rb. apply (propagate_right turns c2 c' Rn2 P2 (Mr Rb) E).
  - apply (given_up_kept b c2); [exact K2 |]. destruct En as [(A & _ & K') | N]; [right; auto | left; exact N].
Qed.

Lemma raise_excluded turns b x v n (c : prop_result * ctx T M S) : resting b -> (effort b < turns)%nat -> 0 <= x < n_vars b -> int64 v ->
  bval (var b x) v = n -> (forall s, solves b s -> n <= s x) -> lo_at b x < n -> ctx_tighten_lb64 b x v = c ->
  excluded turns b c.
Proof.
  intros R Lt Hx Iv En Al Lo Ec. pose proof (pi_ok _ _ (rt_pinv b R)) as K.
  pose proof (lb64_raising b x v K Hx Iv) as L. rewrite En, Ec in L. pose proof (raising_law b x n c K Hx L) as Lw.
  destruct c as [r c]. destruct r; [| | elim Lw].
  - apply tightened_excluded; [exact R | exact Lt |]. destruct Lw as [_ N].
    assert (Mv : moved b c) by (apply (raising_moved b x n (PROP_OK, c)); [apply (rt_pinv b R) | exact K | exact Hx | exact L | reflexivity]).
    split; [apply (call_lb64 b x v); assumption |]. split; [exact Mv |]. split.
    + destruct (mv_work _ _ Mv) as [-> | W]; [| exact W]. pose proof (nr_lo _ _ _ _ _ N). lia.
    + split; [apply (raising_right b x n (PROP_OK, c)); auto; apply (rt_pinv b R) |].
      intros s Sv. pose proof (proj1 Sv x Hx). apply (narrowed_dom b c x _ _ s N (proj1 Sv)). specialize (Al s Sv). lia.
  - left. intros s Sv. pose proof (proj1 Sv x Hx). specialize (Al s Sv). unfold raises_lb in Lw. lia.
Qed.

Lemma lower_excluded turns b x v n (c : prop_result * ctx T M S) : resting b -> (effort b < turns)%nat -> 0 <= x < n_vars b -> int64 v ->
  bval (var b x) v = n -> (forall s, solves b s -> s x <= n) -> n < hi_at b x -> ctx_tighten_ub64 b x v = c ->
  excluded turns b c.
Proof.
  intros R Lt Hx Iv En Al Lo Ec. pose proof (pi_ok _ _ (rt_pinv b R)) as K.
  pose proof (ub64_lowering b x v K Hx Iv) as L. rewrite En, Ec in L. pose proof (lowering_law b x n c K Hx L) as Lw.
  destruct c as [r c]. destruct r; [| | elim Lw].
  - apply tightened_excluded; [exact R | exact Lt |]. destruct Lw as [_ N].
    assert (Mv : moved b c) by (apply (lowering_moved b x n (PROP_OK, c)); [apply (rt_pinv b R) | exact K | exact Hx | exact L | reflexivity]).
    split; [apply (call_ub64 b x v); assumption |]. split; [exact Mv |]. split.
    + destruct (mv_work _ _ Mv) as [-> | W]; [| exact W]. pose proof (nr_hi _ _ _ _ _ N). lia.
    + split; [apply (lowering_right b x n (PROP_OK, c)); auto; apply (rt_pinv b R) |].
      intros s Sv. pose proof (proj1 Sv x Hx). apply (narrowed_dom b c x _ _ s N (proj1 Sv)). specialize (Al s Sv). lia.
  - left. intros s Sv. pose proof (proj1 Sv x Hx). specialize (Al s Sv). unfold lowers_ub in Lw. lia.
Qed.

(** ** The loops *)

Definition bound_at (up : bool) c x : Z := if up then var_hi64 (var c x) else var_lo64 (var c x).

(** A bound tried from [c]: the probe's answer, which is not void, and the context
    after its undoing. *)
Definition tried turns (up : bool) x c (r : prop_result) b : Prop :=
  var_lo64 (var c x) < var_hi64 (var c x) /\
  shave_probe turns (decision_level c) c x (bound_at up c x) = Some (r, b) /\ prop_aborted b = false.

(** [shaving turns c k c']: trials of bounds lead from [c] to [c'], each from the
    context the one before left, and [k] of them failed; after a failure, and
    only then, the bound was excluded and its exclusion propagated. *)
Inductive shaving turns : ctx T M S -> Z -> ctx T M S -> Prop :=
| shaving_none c : shaving turns c 0 c
| shaving_survivor c k d up x r b : shaving turns c k d -> tried turns up x d r b -> r <> PROP_CONFLICT ->
    shaving turns c k b
| shaving_excluded c k d up x b er e r c' : shaving turns c k d -> tried turns up x d PROP_CONFLICT b ->
    (if up then ctx_tighten_ub64 b x (var_hi64 (var d x) - 1) else ctx_tighten_lb64 b x (var_lo64 (var d x) + 1)) = (er, e) ->
    er <> PROP_CONFLICT -> solver_propagate turns e = Some (r, c') -> r <> PROP_CONFLICT ->
    shaving turns c (k + 1) c'.

(** [quiet turns l c c']: the bounds [l] are tried one after the other from [c] to
    [c'], where the variable is not fixed, and none fails. *)
Inductive quiet turns : list (bool * Z) -> ctx T M S -> ctx T M S -> Prop :=
| quiet_nil c : quiet turns [] c c
| quiet_fixed up x l c c' : var_hi64 (var c x) <= var_lo64 (var c x) -> quiet turns l c c' -> quiet turns ((up, x) :: l) c c'
| quiet_tried up x l c r b c' : tried turns up x c r b -> r <> PROP_CONFLICT -> quiet turns l b c' ->
    quiet turns ((up, x) :: l) c c'.

(** Both bounds of the variables, in the order of the loops. *)
Definition bounds_of (xs : list Z) : list (bool * Z) := flat_map (fun x => [(true, x); (false, x)]) xs.

Lemma shaving_trans turns a k1 b k2 c : shaving turns a k1 b -> shaving turns b k2 c -> shaving turns a (k1 + k2) c.
Proof.
  intros Sa Sb. induction Sb; [rewrite Z.add_0_r; exact Sa | eapply shaving_survivor; eauto |].
  rewrite Z.add_assoc. eapply shaving_excluded; eauto.
Qed.
Lemma quiet_app turns l1 l2 a b c : quiet turns l1 a b -> quiet turns l2 b c -> quiet turns (l1 ++ l2) a c.
Proof. intros Qa Qb. induction Qa; cbn; [exact Qb | eapply quiet_fixed; eauto | eapply quiet_tried; eauto]. Qed.

(** What a stretch of the loops does: [k] exclusions, and without one a quiet
    pass over the bounds [l]. *)
Definition passes turns (l : list (bool * Z)) c (k : Z) c' : Prop := shaving turns c k c' /\ (k = 0 -> quiet turns l c c').

Lemma passes_app turns l1 l2 a k1 b k2 c : passes turns l1 a k1 b -> passes turns l2 b k2 c -> 0 <= k1 -> 0 <= k2 ->
  passes turns (l1 ++ l2) a (k1 + k2) c.
Proof.
  intros [S1 Q1] [S2 Q2] P1 P2. split; [apply (shaving_trans turns a k1 b); assumption |].
  intros Z0. apply (quiet_app turns l1 l2 a b); [apply Q1 | apply Q2]; lia.
Qed.

(** The loops have gone from [c0] to [c], removing [k] bounds. *)
Record going c0 (ch0 : bool) (rem0 k : Z) (ch : bool) (rem : Z) c : Prop := {
  go_resting : resting c;
  go_kept : kept c0 c;
  go_level : decision_level c = decision_level c0;
  go_count : 0 <= k /\ rem = u32 (rem0 + k);
  go_spans : spans (vars c) + k <= spans (vars c0);
  go_changed : ch = ch0 || (0 <? k);
  go_same : k = 0 -> vars c = vars c0;
  go_right : mask_right c0 -> mask_right c }.

Lemma u32_add a b : u32 (u32 a + b) = u32 (a + b).
Proof. unfold u32. apply Zplus_mod_idemp_l. Qed.

Lemma going_refl c ch rem : resting c -> 0 <= rem < 2 ^ 32 -> going c ch rem 0 ch rem c.
Proof.
  intros R Hr. constructor; auto; [apply (proj1 (kept_refl c (pi_ok _ _ (rt_pinv c R)))) | | lia | rewrite orb_false_r; reflexivity].
  split; [lia |]. rewrite Z.add_0_r. unfold u32. rewrite Z.mod_small; lia.
Qed.

Lemma going_trans a b c cha rema k1 chb remb k2 chc remc :
  going a cha rema k1 chb remb b -> going b chb remb k2 chc remc c -> going a cha rema (k1 + k2) chc remc c.
Proof.
  intros [R1 K1 L1 [N1 C1] S1 F1 E1 M1] [R2 K2 L2 [N2 C2] S2 F2 E2 M2]. constructor; auto; try congruence.
  - apply (kept_trans a b); assumption.
  - split; [lia |]. rewrite C2, C1, u32_add. f_equal. lia.
  - lia.
  - rewrite F2, F1. destruct cha; cbn; [reflexivity |]. lia.
  - intros Z0. rewrite E2, E1 by lia. reflexivity.
Qed.

(** How a stretch of the loops from [c0] ends. *)
Definition stretched c0 ch0 rem0 (Q : Z -> ctx T M S -> Prop) (st : @stretch T M S) : Prop :=
  match st with
  | Going ch rem c => exists k, going c0 ch0 rem0 k ch rem c /\ Q k c
  | Stopped c => given_up c0 c
  end.

Lemma going_stretched a b cha rema k1 chb remb Q P st :
  going a cha rema k1 chb remb b -> stretched b chb remb P st ->
  (forall k2 ch rem c, going b chb remb k2 ch rem c -> P k2 c -> Q (k1 + k2) c) -> stretched a cha rema Q st.
Proof.
  intros G St F. destruct st as [ch rem c | c]; cbn in *.
  - destruct St as (k & G2 & Pc). exists (k1 + k). split; [apply (going_trans _ b _ _ _ _ chb remb); assumption |]. eauto.
  - apply (given_up_kept a b); [apply (go_kept _ _ _ _ _ _ _ G) | exact St].
Qed.

Lemma n_vars_sub (a b : ctx T M S) : sub b a -> n_vars b = n_vars a.
Proof.
  intros Sb. pose proof (sb_valid _ _ Sb) as V. cbn in V. unfold n_vars in *.
  pose proof (V (Z.of_nat (length (vars b)))). pose proof (V (Z.of_nat (length (vars a)))). lia.
Qed.

Lemma going_effort a b cha rema k chb remb turns : going a cha rema k chb remb b -> (effort a < turns)%nat ->
  (effort b < turns)%nat /\ n_vars b = n_vars a.
Proof.
  intros G Lt. pose proof (go_spans _ _ _ _ _ _ _ G). destruct (go_count _ _ _ _ _ _ _ G) as [? _]. split.
  - pose proof (effort_mono a b (kp_props _ _ (go_kept _ _ _ _ _ _ _ G)) ltac:(lia)). lia.
  - apply n_vars_sub, (go_kept _ _ _ _ _ _ _ G).
Qed.

Lemma resting_good c x : resting c -> 0 <= x < n_vars c -> good (var c x).
Proof. intros R Hx. apply (pi_ok _ _ (rt_pinv c R) x Hx). Qed.

(** One turn of a [for (;;)] loop that goes on. *)
Lemma exclude_turn turns up b x : resting b -> (effort b < turns)%nat -> 0 <= x < n_vars b ->
  var_lo64 (var b x) < var_hi64 (var b x) ->
  (forall s, solves b s -> s x <> bval (var b x) (bound_at up b x)) ->
  excluded turns b (if up then ctx_tighten_ub64 b x (var_hi64 (var b x) - 1)
    else ctx_tighten_lb64 b x (var_lo64 (var b x) + 1)).
Proof.
  intros R Lt Hx Ll Ref. pose proof (resting_good b x R Hx) as G.
  destruct (bound_step (var b x) G Ll) as (Ne & Ih & Eh & Il & El). unfold bound_at in Ref.
  destruct up.
  - refine (lower_excluded turns b x _ _ _ R Lt Hx Ih Eh _ _ eq_refl); [| unfold hi_at; cbn; lia].
    intros s Sv. pose proof (proj1 Sv x Hx) as D. specialize (Ref s Sv). unfold hi_at, hi_of in *. cbn in *. lia.
  - refine (raise_excluded turns b x _ _ _ R Lt Hx Il El _ _ eq_refl); [| unfold lo_at; cbn; lia].
    intros s Sv. pose proof (proj1 Sv x Hx) as D. specialize (Ref s Sv). unfold lo_at, lo_of in *. cbn in *. lia.
Qed.

Lemma probed_going c x v r b ch rem : resting c -> 0 <= rem < 2 ^ 32 -> probe_end c x v r b -> going c ch rem 0 ch rem b.
Proof.
  intros R Hr [Rb Vb Pb Lb Mb _]. constructor; auto.
  - apply vars_kept; [apply (pi_ok _ _ (rt_pinv c R)) | exact Vb | exact Pb].
  - split; [lia |]. rewrite Z.add_0_r. unfold u32. rewrite Z.mod_small; lia.
  - rewrite Vb. lia.
  - rewrite orb_false_r. reflexivity.
Qed.

Lemma u32_range z : 0 <= u32 z < 2 ^ 32.
Proof. unfold u32. apply Z.mod_pos_bound. lia. Qed.

Lemma side_spec turns up x n : forall c ch rem, resting c -> (effort c < turns)%nat -> 0 <= x < n_vars c ->
  0 <= rem < 2 ^ 32 -> spans (vars c) < Z.of_nat n ->
  exists st, shave_side turns (decision_level c) up n x ch rem c = Some st /\
    stretched c ch rem (passes turns [(up, x)] c) st.
Proof.
  induction n as [| n IH]; intros c ch rem R Lt Hx Hr Hn.
  { pose proof (spans_nonneg c (pi_ok _ _ (rt_pinv c R))). lia. }
  cbn [shave_side]. rewrite Z.geb_leb. destruct (Z.leb_spec (var_hi64 (var c x)) (var_lo64 (var c x))) as [Ge | Ll].
  { eexists. split; [reflexivity |]. exists 0. split; [apply going_refl; assumption |].
    split; [apply shaving_none | intros _; apply quiet_fixed; [exact Ge | apply quiet_nil]]. }
  pose proof (resting_good c x R Hx) as G. destruct (int64_bounds _ G) as [Il Ih].
  change (if up then var_hi64 (var c x) else var_lo64 (var c x)) with (bound_at up c x).
  destruct (probe_spec turns c x (bound_at up c x) R Hx) as (r & b & E & Pe); [unfold bound_at; destruct up; assumption | exact Lt |].
  rewrite E. pose proof (probed_going c x _ r b ch rem R Hr Pe) as Gb. destruct Pe as [Rb Vb Pb Lb _ Ref].
  destruct (prop_aborted b) eqn:Ab.
  { eexists. split; [reflexivity |]. right. split; [exact Ab | apply (go_kept _ _ _ _ _ _ _ Gb)]. }
  assert (Tr : tried turns up x c r b) by (split; [exact Ll | auto]).
  assert (Sv : r <> PROP_CONFLICT -> passes turns [(up, x)] c 0 b).
  { intros Nr. split; [eapply shaving_survivor; eauto using shaving_none | intros _; eapply quiet_tried; eauto using quiet_nil]. }
  destruct r; [eexists; split; [reflexivity |]; exists 0; split; [exact Gb | apply Sv; discriminate] | |
    eexists; split; [reflexivity |]; exists 0; split; [exact Gb | apply Sv; discriminate]].
  destruct (going_effort _ _ _ _ _ _ _ turns Gb Lt) as [Ltb Nb].
  assert (Vx : var b x = var c x) by (unfold var; rewrite Vb; reflexivity).
  assert (Ref' : forall s, solves b s -> s x <> bval (var b x) (bound_at up b x)).
  { intros s Sb. unfold bound_at. rewrite Vx. apply Ref; [reflexivity | reflexivity |]. apply (kept_solves c b s (go_kept _ _ _ _ _ _ _ Gb)), Sb. }
  pose proof (exclude_turn turns up b x Rb Ltb ltac:(lia) ltac:(rewrite Vx; exact Ll) Ref') as Ex. rewrite Vx in Ex.
  destruct (if up then _ else _) as [er c2] eqn:Et. clear E. destruct er.
  2: { eexists. split; [reflexivity |]. apply (given_up_kept c b); [apply (go_kept _ _ _ _ _ _ _ Gb) | exact Ex]. }
  all: cbn in Ex; destruct Ex as (r & c' & Ep & Ex); rewrite Ep; destruct r;
    [| eexists; split; [reflexivity |]; apply (given_up_kept c b); [apply (go_kept _ _ _ _ _ _ _ Gb) | exact Ex] | elim Ex].
  all: destruct Ex as (R' & K' & Sp' & L' & M').
  all: assert (G' : going b ch rem 1 true (u32 (rem + 1)) c')
    by (constructor; auto; [split; [lia | reflexivity] | lia | rewrite orb_true_r; reflexivity | lia]).
  all: pose proof (going_trans _ _ _ _ _ _ _ _ _ _ _ Gb G') as Gc; destruct (going_effort _ _ _ _ _ _ _ turns Gc Lt) as [Lt' N'].
  all: destruct (IH c' true (u32 (rem + 1)) R' Lt' ltac:(lia) (u32_range _) ltac:(rewrite Vb in Sp'; lia)) as (st & E' & St).
  all: rewrite (go_level _ _ _ _ _ _ _ Gc) in E'; exists st; split; [exact E' |].
  all: assert (Sh : shaving turns c 1 c') by
    (eapply (shaving_excluded turns c 0 c up x b); eauto using shaving_none; discriminate).
  all: apply (going_stretched _ _ _ _ _ _ _ _ _ _ Gc St); intros k2 ch2 rem2 c3 G2 [S2 _].
  all: pose proof (proj1 (go_count _ _ _ _ _ _ _ G2)); split; [apply (shaving_trans turns c 1 c'); assumption | lia].
Qed.

Lemma going_start a b cha rema k chb remb n : going a cha rema k chb remb b -> spans (vars a) < n ->
  resting b /\ 0 <= remb < 2 ^ 32 /\ spans (vars b) < n /\ 0 <= k /\ decision_level b = decision_level a.
Proof.
  intros [R _ L [N C] Sp _ _ _] Hn. split; [exact R |]. split; [rewrite C; apply u32_range |].
  split; [lia |]. split; [exact N | exact L].
Qed.

(** Both loops for one variable. *)
Lemma both_spec turns x n c ch rem : resting c -> (effort c < turns)%nat -> 0 <= x < n_vars c ->
  0 <= rem < 2 ^ 32 -> spans (vars c) < Z.of_nat n ->
  exists st, go_on (shave_upper turns (decision_level c) n x ch rem c) (shave_lower turns (decision_level c) n x) = Some st /\
    stretched c ch rem (passes turns (bounds_of [x]) c) st.
Proof.
  intros R Lt Hx Hr Hn. unfold shave_upper, shave_lower, go_on.
  destruct (side_spec turns true x n c ch rem R Lt Hx Hr Hn) as (st & -> & St).
  destruct st as [ch1 rem1 c1 | c1]; [| eexists; split; [reflexivity | exact St]].
  destruct St as (k1 & G1 & Sh1 & Qu). destruct (going_start _ _ _ _ _ _ _ _ G1 Hn) as (R1 & Hr1 & Hn1 & K1 & L1).
  destruct (going_effort _ _ _ _ _ _ _ turns G1 Lt) as [Lt1 N1].
  destruct (side_spec turns false x n c1 ch1 rem1 R1 Lt1 ltac:(lia) Hr1 Hn1) as (st & E & St). rewrite <- L1, E.
  eexists. split; [reflexivity |]. apply (going_stretched _ _ _ _ _ _ _ _ _ _ G1 St).
  intros k2 ch2 rem2 c2 G2 Sl. apply (passes_app turns [(true, x)] [(false, x)] c k1 c1); [split; assumption | exact Sl | |];
    [apply (go_count _ _ _ _ _ _ _ G1) | apply (go_count _ _ _ _ _ _ _ G2)].
Qed.

Lemma vars_spec turns n max_iters xs : forall c ch rem, resting c -> (effort c < turns)%nat ->
  (forall x, x ∈ xs -> 0 <= x < n_vars c) -> 0 <= rem < 2 ^ 32 -> spans (vars c) < Z.of_nat n ->
  exists st, shave_vars turns (decision_level c) n max_iters xs ch rem c = Some st /\
    stretched c ch rem (fun k c' => shaving turns c k c' /\ (rem < max_iters -> passes turns (bounds_of xs) c k c')) st.
Proof.
  induction xs as [| x xs IH]; intros c ch rem R Lt Hx Hr Hn; cbn [shave_vars].
  { eexists. split; [reflexivity |]. exists 0. split; [apply going_refl; assumption |].
    split; [apply shaving_none |]. intros _. split; [apply shaving_none | intros _; apply quiet_nil]. }
  destruct (Z.ltb_spec rem max_iters) as [Hm | Hm]; cycle 1.
  { eexists. split; [reflexivity |]. exists 0. split; [apply going_refl; assumption |].
    split; [apply shaving_none | lia]. }
  destruct (both_spec turns x n c ch rem R Lt (Hx x ltac:(left)) Hr Hn) as (st & E & St).
  rewrite E. unfold go_on.
  clear E. destruct st as [ch1 rem1 c1 | c1]; [| eexists; split; [reflexivity | exact St]].
  destruct St as (k1 & G1 & Sb). destruct (going_start _ _ _ _ _ _ _ _ G1 Hn) as (R1 & Hr1 & Hn1 & K1 & L1).
  destruct (going_effort _ _ _ _ _ _ _ turns G1 Lt) as [Lt1 N1].
  destruct (IH c1 ch1 rem1 R1 Lt1 ltac:(intros y Hy; rewrite N1; apply Hx; right; exact Hy) Hr1 Hn1) as (st & E & St).
  rewrite <- L1, E. eexists. split; [reflexivity |]. apply (going_stretched _ _ _ _ _ _ _ _ _ _ G1 St).
  pose proof (proj1 (go_count _ _ _ _ _ _ _ G1)) as P1. intros k2 ch2 rem2 c2 G2 [S2 Q2].
  pose proof (proj1 (go_count _ _ _ _ _ _ _ G2)) as P2.
  assert (Sh : shaving turns c (k1 + k2) c2) by (apply (shaving_trans turns c k1 c1); [apply Sb | exact S2]).
  split; [exact Sh |]. intros _. split; [exact Sh |]. intros Z0. assert (Z1 : k1 = 0) by lia. assert (Z2 : k2 = 0) by lia.
  apply (quiet_app turns (bounds_of [x]) (bounds_of xs) c c1); [apply Sb, Z1 |]. apply Q2; [| exact Z2].
  destruct (go_count _ _ _ _ _ _ _ G1) as [_ ->]. rewrite Z1, Z.add_0_r. unfold u32. rewrite Z.mod_small; lia.
Qed.

(** ** The function *)

(** Of the [k] exclusions from [c] on, all came before some context from which
    every bound of every variable was tried in a row, to [c'], and none failed;
    these are the bounds of [c'], since a trial changes none. *)
Definition settled turns c k c' : Prop := exists d,
  shaving turns c k d /\ vars c' = vars d /\ quiet turns (bounds_of (seqZ 0 (n_vars c))) d c'.

Lemma going_flags a cha rema k chb remb b ch0 : going a cha rema k chb remb b ->
  going a ch0 rema k (ch0 || (0 <? k)) remb b.
Proof. intros [R K L C Sp _ V Mr]. constructor; auto. Qed.

Definition shaved turns max_iters c rem (r : prop_result) c' : Prop :=
  match r with
  | PROP_OK => exists k rem', going c false rem k (0 <? k) rem' c' /\ shaving turns c k c' /\
      (settled turns c k c' \/ max_iters <= rem')
  | PROP_CONFLICT => given_up c c'
  | PROP_ENTAILED => False
  end.

Lemma shaved_after turns max_iters (a b d : ctx T M S) k ch remb r rema : going a false rema k ch remb b -> shaving turns a k b ->
  shaved turns max_iters b remb r d -> shaved turns max_iters a rema r d.
Proof.
  intros G S1 Sh. destruct r; [| | exact Sh].
  - destruct Sh as (k2 & rem2 & G2 & S2 & Q). exists (k + k2), rem2. split; [| split; [apply (shaving_trans turns a k b); assumption |]].
    + exact (going_flags _ _ _ _ _ _ _ false
        (going_trans _ b _ _ _ _ ch remb _ _ _ G (going_flags _ _ _ _ _ _ _ ch G2))).
    + destruct Q as [(e & S3 & Ve & Qu) | Q]; [left | right; exact Q]. exists e. split; [apply (shaving_trans turns a k b); assumption |].
      rewrite (n_vars_sub a b) in Qu; [split; [exact Ve | exact Qu] | apply (go_kept _ _ _ _ _ _ _ G)].
  - apply (given_up_kept a b); [apply (go_kept _ _ _ _ _ _ _ G) | exact Sh].
Qed.

Lemma rounds_spec turns max_iters n : forall c rem, resting c -> (effort c < turns)%nat -> 0 <= rem < 2 ^ 32 ->
  spans (vars c) + 1 < Z.of_nat n ->
  exists r c', shave_rounds turns (decision_level c) n max_iters true rem c = Some (r, c') /\
    shaved turns max_iters c rem r c'.
Proof.
  induction n as [| n IH]; intros c rem R Lt Hr Hn; pose proof (spans_nonneg c (pi_ok _ _ (rt_pinv c R))) as Ns; [lia |].
  cbn [shave_rounds]. destruct (Z.ltb_spec rem max_iters) as [Hm | Hm]; cbn [andb].
  2: { exists PROP_OK, c. split; [reflexivity |]. exists 0, rem. split; [apply going_refl; assumption |].
    split; [apply shaving_none | right; exact Hm]. }
  destruct (vars_spec turns (Datatypes.S n) max_iters (seqZ 0 (n_vars c)) c false rem R Lt) as (st & E & St);
    [intros x Hx; apply elem_of_seqZ in Hx; lia | exact Hr | lia |].
  rewrite E. destruct st as [ch1 rem1 c1 | c1]; [| exists PROP_CONFLICT, c1; split; [reflexivity | exact St]].
  destruct St as (k & G & Sh & Sv). destruct (going_start _ _ _ _ _ _ _ (spans (vars c) + 1) G ltac:(lia)) as (R1 & Hr1 & _ & K1 & L1).
  destruct (going_effort _ _ _ _ _ _ _ turns G Lt) as [Lt1 N1].
  pose proof (go_changed _ _ _ _ _ _ _ G) as Ch. cbn in Ch. pose proof (go_spans _ _ _ _ _ _ _ G).
  destruct (Z.ltb_spec 0 k) as [Pk | Nk]; subst ch1.
  - destruct (IH c1 rem1 R1 Lt1 Hr1 ltac:(lia)) as (r & c' & E' & Sd).
    rewrite L1 in E'. exists r, c'. split; [exact E' | apply (shaved_after _ _ c c1 c' k true rem1); assumption].
  - destruct n as [| n]; [lia |]. exists PROP_OK, c1. split; [reflexivity |]. exists k, rem1.
    split; [replace (0 <? k) with false by lia; exact G |]. split; [exact Sh | left]. exists c. assert (Z0 : k = 0) by lia. rewrite Z0 in *.
    split; [apply shaving_none |]. split; [apply (go_same _ _ _ _ _ _ _ G eq_refl) | apply Sv; [exact Hm | reflexivity]].
Qed.

(** A propagation that succeeds leaves the context at rest. *)
Lemma propagate_rests turns c c' : running c -> pinv None c -> decision_level c + 1 < 2 ^ 32 ->
  solver_propagate turns c = Some (PROP_OK, c') -> resting c' /\ kept c c' /\ decision_level c' = decision_level c.
Proof.
  intros Rn P Hl E. destruct (prop_aborted c) eqn:A; [unfold solver_propagate in E; rewrite A in E; discriminate |].
  destruct (proj1 (solver_propagate_spec turns c P A) _ _ E) as (P' & K & Q).
  destruct (run_running c c' Rn (propagate_run turns c _ c' Rn P E)) as [Rn' Sc].
  split; [constructor; auto; rewrite (sc_level _ _ Sc); exact Hl |]. split; [exact K | apply Sc].
Qed.

End Shaving.
End Shave.
