(* ===== verification/Luby.v ===== *)
(** * Luby: the restart sequence of the search
    (src/src/c/dvs_search.c, [_luby])

    The code finds the element at a 1-based index by halving the index; the
    reference is the sequence built by its defining recursion, each stage being
    twice the stage before followed by the next power of two. *)

From Stdlib Require Import ZArith Lia ZifyBool Bool.
From stdpp Require Import base list numbers.
From S2P Require Import Prelude.
Open Scope Z_scope.

Module Luby.

(** [while (p < n + 1) { p *= 2; k++; }]: [None] when it goes on for ever, [p]
    having wrapped to 0. *)
Fixpoint pow_above (fuel : nat) (p n : Z) : option Z :=
  if p <? u32 (n + 1) then
    match fuel with O => None | S fuel => pow_above fuel (u32 (p * 2)) n end
  else Some p.

Fixpoint luby_from (fuel : nat) (n : Z) : option Z :=
  match pow_above 32 1 n with
  | None => None
  | Some p =>
      if p =? u32 (n + 1) then Some (p / 2) else
      match fuel with O => None | S fuel => luby_from fuel (u32 (n - p / 2 + 1)) end
  end.
Definition luby (n : Z) : option Z := luby_from 32 n.

(** The first [2^k - 1] elements. *)
Fixpoint luby_list (k : nat) : list Z :=
  match k with O => [] | S k => luby_list k ++ luby_list k ++ [2 ^ Z.of_nat k] end.

Lemma luby_list_length k : Z.of_nat (length (luby_list k)) = 2 ^ Z.of_nat k - 1.
Proof.
  induction k as [| k IH]; [reflexivity |]. cbn [luby_list]. rewrite !length_app, !Nat2Z.inj_add, IH.
  rewrite Nat2Z.inj_succ, Z.pow_succ_r by lia. cbn. lia.
Qed.

Lemma pow_above_spec n k fuel : forall i, 0 <= i <= k -> 0 < k <= 31 -> 2 ^ (k - 1) <= n < 2 ^ k ->
  k - i <= Z.of_nat fuel -> pow_above fuel (2 ^ i) n = Some (2 ^ k).
Proof.
  induction fuel as [| fuel IH]; intros i Hi Hk Hn Hf; cbn [pow_above];
    assert (Hp : 2 ^ k <= 2 ^ 31) by (apply Z.pow_le_mono_r; lia); unfold u32; rewrite Z.mod_small by lia;
    destruct (Z.ltb_spec (2 ^ i) (n + 1)) as [Lt | Ge].
  - assert (2 ^ k <= 2 ^ i) by (apply Z.pow_le_mono_r; lia). lia.
  - destruct (Z.eq_dec i k) as [-> | Ne]; [reflexivity |].
    assert (2 ^ i <= 2 ^ (k - 1)) by (apply Z.pow_le_mono_r; lia). lia.
  - destruct (Z.eq_dec i k) as [-> | Ne]; [lia |].
    assert (2 ^ (i + 1) <= 2 ^ k) by (apply Z.pow_le_mono_r; lia). rewrite Z.pow_add_r in * by lia.
    rewrite Z.mod_small by lia. change (2 ^ i * 2) with (2 ^ i * 2 ^ 1). rewrite <- Z.pow_add_r by lia.
    apply IH; lia.
  - destruct (Z.eq_dec i k) as [-> | Ne]; [reflexivity |].
    assert (2 ^ i <= 2 ^ (k - 1)) by (apply Z.pow_le_mono_r; lia). lia.
Qed.

Lemma luby_from_unfold fuel n : luby_from fuel n =
  match pow_above 32 1 n with
  | None => None
  | Some p =>
      if p =? u32 (n + 1) then Some (p / 2) else
      match fuel with O => None | S fuel => luby_from fuel (u32 (n - p / 2 + 1)) end
  end.
Proof. destruct fuel; reflexivity. Qed.

Lemma luby_from_spec k : forall fuel n, (k <= 31)%nat -> (k <= S fuel)%nat -> 1 <= n < 2 ^ Z.of_nat k ->
  luby_from fuel n = luby_list k !! Z.to_nat (n - 1).
Proof.
  induction k as [| k IH]; intros fuel n Hk Hf Hn; [cbn in Hn; lia |].
  cbn [luby_list]. pose proof (luby_list_length k) as Len.
  destruct (Z.ltb_spec n (2 ^ Z.of_nat k)) as [Lt | Ge].
  { rewrite lookup_app_l by lia. apply IH; lia. }
  assert (Pk : 2 ^ Z.of_nat (S k) = 2 * 2 ^ Z.of_nat k) by (rewrite Nat2Z.inj_succ, Z.pow_succ_r by lia; reflexivity).
  assert (Pb : 2 ^ Z.of_nat (S k) <= 2 ^ 31) by (apply Z.pow_le_mono_r; lia).
  assert (Ep : pow_above 32 1 n = Some (2 ^ Z.of_nat (S k))).
  { apply (pow_above_spec n (Z.of_nat (S k)) 32 0); try lia.
    replace (Z.of_nat (S k) - 1) with (Z.of_nat k) by lia. lia. }
  rewrite luby_from_unfold, Ep, Pk. unfold u32. rewrite Z.mod_small by lia.
  replace (2 * 2 ^ Z.of_nat k / 2) with (2 ^ Z.of_nat k) by (rewrite Z.mul_comm, Z.div_mul; lia).
  rewrite lookup_app_r by lia. destruct (Z.eqb_spec (2 * 2 ^ Z.of_nat k) (n + 1)) as [E | Ne].
  - rewrite lookup_app_r by lia. replace (_ - _ - _)%nat with O by lia. reflexivity.
  - rewrite lookup_app_l by lia. destruct k as [| k']; [cbn in *; lia |].
    destruct fuel as [| fuel]; [lia |]. rewrite Z.mod_small by lia.
    rewrite (IH fuel) by lia. f_equal. lia.
Qed.

(** C25: The restart sequence.  For every index below [2^31], [_luby] ends and
    gives the element of the Luby sequence at that (1-based) index: the sequence
    each of whose stages is the stage before it, twice, and the next power of
    two. *)
Theorem luby_exact k n : (k <= 31)%nat -> 1 <= n < 2 ^ Z.of_nat k -> luby n = luby_list k !! Z.to_nat (n - 1).
Proof. intros Hk Hn. apply luby_from_spec; lia. Qed.

Lemma luby_exact_witness : luby 15 = Some 8 /\ luby 14 = luby_list 5 !! Z.to_nat (14 - 1) /\ luby_list 5 !! 13%nat = Some 4.
Proof. split; [reflexivity |]. split; [apply (luby_exact 5 14); lia | reflexivity]. Defined.

Lemma luby_some n : 1 <= n < 2 ^ 31 -> exists v, luby n = Some v.
Proof.
  intros Hn. unfold luby. rewrite (luby_from_spec 31) by (cbn; lia). pose proof (luby_list_length 31) as Len.
  apply lookup_lt_is_Some. change (2 ^ Z.of_nat 31) with (2 ^ 31) in Len. lia.
Qed.

(** From [2^31] on the loop of the code does not end. *)
Lemma luby_diverges fuel : pow_above (S (S fuel)) (2 ^ 31) (2 ^ 31) = None.
Proof.
  cbn [pow_above]. change (2 ^ 31 <? u32 (2 ^ 31 + 1)) with true. cbn iota.
  change (u32 (2 ^ 31 * 2)) with 0. change (0 <? u32 (2 ^ 31 + 1)) with true. cbn iota.
  change (u32 (0 * 2)) with 0.
  induction fuel as [| fuel IH]; [reflexivity |]. cbn [pow_above]. change (0 <? u32 (2 ^ 31 + 1)) with true.
  exact IH.
Qed.

End Luby.
