(* ===== verification/Search.v ===== *)
(** * Search: the finite-domain search
    (src/src/c/dvs_search.c, [_solver_solve_core], with clause learning and the
    uniform-sampling tiers off)

    The search propagates, shaves, and then decides one variable at a time on a
    level of its own.  A conflict undoes the last level and excludes the value
    tried: by one bound where the value is at a bound, else by a split whose two
    halves are explored one after the other.  Restarts follow the Luby sequence.
    How the search picks its variables and values is an interface, [Chooser],
    whose laws are that the variable is undecided and the value is in its domain.

    The file gives the search as a step function over its state, one step for
    the body of the decision loop and one for the body of the conflict loop. *)

From Stdlib Require Import ZArith Lia ZifyBool Bool.
From stdpp Require Import base gmap list numbers relations.
From S2P Require Import Prelude Vars Ctx Queue DynStack Trail GuardIx Wake Store Tighten Propagate Probe Shave.
From S2P Require Import Unassigned Luby.
Import Vars Ctx Queue DynStack Trail GuardIx Wake Store Tighten Propagate Probe Shave Unassigned Luby.
Open Scope Z_scope.

Module Search.

Definition UINT32_MAX : Z := 2 ^ 32 - 1.

(** ** Options, decisions, answers *)

Record solve_opts := mk_opts {
  seed : Z;
  max_conflicts : Z;
  max_restarts : Z;
  use_phase_save : bool;
  fair_pick : bool;
  seq_pick : bool;
  use_lcg : bool;
  max_shave_iters : Z }.

Definition conflicts_of (o : option solve_opts) : Z :=
  match o with Some o => if 0 <? max_conflicts o then max_conflicts o else 100 | None => 100 end.
Definition restarts_of (o : option solve_opts) : Z :=
  match o with Some o => if 0 <? max_restarts o then max_restarts o else 10000 | None => 10000 end.
Definition shave_iters_of (o : option solve_opts) : Z :=
  match o with Some o => max_shave_iters o | None => 1000 end.
Definition saves_phase (o : option solve_opts) : bool :=
  match o with Some o => use_phase_save o && (seed o =? 0) | None => false end.

(** [DecisionRecord] *)
Record decision := mk_decision {
  var_id : Z;
  tried_value : Z;
  is_split : bool;
  upper_first : bool;
  second_phase : bool;
  bound : Z }.
Definition no_decision : decision := mk_decision 0 0 false false false 0.

Inductive solve_result := DVS_SOLVE_OK | DVS_SOLVE_UNSAT | DVS_SOLVE_TIMEOUT.

Inductive bail_reason :=
| DVS_BAIL_NONE | DVS_BAIL_DEADLINE | DVS_BAIL_MAX_DEPTH | DVS_BAIL_DEADLINE_CONF
| DVS_BAIL_MAX_RESTARTS | DVS_BAIL_PROPAGATION | DVS_BAIL_WORK.

(** [v + 1] and [v - 1] on bound patterns, which wrap as compiled code does. *)
Definition above (v : Z) : Z := s64 (v + 1).
Definition below (v : Z) : Z := s64 (v - 1).

Definition MAX_DECISION_DEPTH : Z := 256.

(** [dvs_ctx_reserve_levels]: the capacity after asking for [n] levels, for a
    pool that can grow or not and an allocation that succeeds or not. *)
Definition reserve_levels (growable granted : bool) (old n : Z) : Z :=
  if n <=? old then old else
  if negb growable || (0xFFFF <? n) then old else
  let cap := if n <? u32 (old * 2) then u32 (old * 2) else n in
  let cap := if 0xFFFF <? cap then 0xFFFF else cap in
  if granted then cap else old.

(** ** The interface to the choices *)

Class Chooser (H C : Type) := {
  select_unassigned : H -> C -> Z * H;
  pick_value : H -> C -> Z -> Z * H;
  bound_decision : H -> C -> Z -> Z -> Z * H;
  (** the decision just made conflicted: [keep_state], [value_fails] *)
  note_failed : H -> Z -> Z -> H;
  redraw : H -> Z -> bool -> bool * H;
  split_upper_first : H -> Z -> Z -> Z -> bool * H;
  save_phase : H -> Z -> Z -> H;
  (** [ctx->keep_on = 0] *)
  drop_kept : H -> H }.

Section Ops.
Context {T M S H : Type} `{DynStack M S} `{Env} `{!Fires T (ctx T M S)} `{!Chooser H (ctx T M S)}.
(** The turns each propagation may take; the rounds of the shaving; whether the
    clock is past the deadline at a tick of the search; the parameters of
    [dvs_ctx_reserve_levels]; the options. *)
Context (turns rounds : nat) (late : Z -> bool) (opts : option solve_opts).
Implicit Types c : ctx T M S.

Record search := mk_search {
  state : ctx T M S;
  decisions : gmap Z decision;
  chooser : H;
  tick : Z;
  local_conflicts : Z;
  restart_count : Z;
  luby_idx : Z;
  luby_limit : Z }.

Definition with_state (s : search) c : search :=
  mk_search c (decisions s) (chooser s) (tick s) (local_conflicts s) (restart_count s) (luby_idx s) (luby_limit s).
Definition with_decisions (s : search) (d : gmap Z decision) : search :=
  mk_search (state s) d (chooser s) (tick s) (local_conflicts s) (restart_count s) (luby_idx s) (luby_limit s).
Definition with_chooser (s : search) (h : H) : search :=
  mk_search (state s) (decisions s) h (tick s) (local_conflicts s) (restart_count s) (luby_idx s) (luby_limit s).
Definition with_tick (s : search) (t : Z) : search :=
  mk_search (state s) (decisions s) (chooser s) t (local_conflicts s) (restart_count s) (luby_idx s) (luby_limit s).
Definition with_conflicts (s : search) (n : Z) : search :=
  mk_search (state s) (decisions s) (chooser s) (tick s) n (restart_count s) (luby_idx s) (luby_limit s).

(** Where a step leads: to the top of the decision loop, to the top of the
    conflict loop with a conflict in hand, or out of the function. *)
Inductive next :=
| Deciding (s : search)
| Conflicting (fresh : bool) (s : search)
| Answer (r : solve_result) (why : bail_reason) (s : search).

(** [_deadline > 0.0 && (++_tick & mask) == 0 && _now_sec() > _deadline] *)
Definition out_of_time (s : search) (mask : Z) : bool * search :=
  if has_deadline (budget (state s)) then
    let t := u64 (tick s + 1) in
    ((Z.land t mask =? 0) && late t, with_tick s t)
  else (false, s).

(** [ctx->work_limit && dvs_ctx_work(ctx) > ctx->work_limit] *)
Definition out_of_work c : bool :=
  let b := budget c in negb (work_limit b =? 0) && (ctx_work b >? work_limit b).
Definition hit_work c : ctx T M S := set_budget c (set_work_hit (budget c)).

Definition forget_culprit c : ctx T M S :=
  set_conflict_clause_idx (set_conflict_prop_ref c EXPR_NULL) EXPR_NULL.
Definition count_conflict c : ctx T M S :=
  let b := budget c in
  set_budget c (mk_budget (prop_fires b) (prop_ticks b) (thrash_limit b) (thrash_hit b) (work_limit b) (work_hit b)
    (u64 (conflict_count b + 1)) (has_deadline b)).

(** The tightenings of a decision on [x]. *)
Definition assume (c : ctx T M S) (x v b : Z) : prop_result * ctx T M S :=
  if b =? 1 then ctx_tighten_ub64 c x v
  else if b =? 2 then ctx_tighten_lb64 c x v
  else fix_at c x v.

(** The result of a propagation at the end of a step. *)
Definition settle (fresh : bool) (s : search) (rc : option (prop_result * ctx T M S)) : option next :=
  match rc with
  | None => None
  | Some (PROP_CONFLICT, c) => Some (Conflicting fresh (with_state s c))
  | Some (_, c) => Some (Deciding (with_state s c))
  end.

(** The body of [for (;;)]. *)
Definition decide (max_depth : Z) (s : search) : option next :=
  let '(late, s) := out_of_time s 0x3FF in
  if late then Some (Answer DVS_SOLVE_TIMEOUT DVS_BAIL_DEADLINE s) else
  let c := state s in
  if out_of_work c then Some (Answer DVS_SOLVE_TIMEOUT DVS_BAIL_NONE (with_state s (hit_work c))) else
  let '(x, h) := select_unassigned (chooser s) c in
  if x =? EXPR_NULL then Some (Answer DVS_SOLVE_OK DVS_BAIL_NONE (with_chooser s h)) else
  let '(v, h) := pick_value h c x in
  if decision_level c >=? max_depth then
    Some (Answer DVS_SOLVE_TIMEOUT DVS_BAIL_MAX_DEPTH (with_chooser s h)) else
  let '(b, h) := bound_decision h c x v in
  let s := with_decisions s (<[decision_level c := mk_decision x v false false false b]> (decisions s)) in
  let c := forget_culprit (trail_push_level c) in
  match then_propagate turns (assume c x v b) with
  | None => None
  | Some (pr, c) =>
      let h := match pr with PROP_CONFLICT => note_failed h x b | _ => h end in
      settle true (with_chooser s h) (Some (pr, c))
  end.

(** The restart of the conflict loop. *)
Definition restart (base : Z) (s : search) : option next :=
  let max_conflicts := conflicts_of opts in
  let max_restarts := restarts_of opts in
  let idx := u32 (luby_idx s + 1) in
  match luby idx with
  | None => None
  | Some l =>
      let s := mk_search (trail_backtrack (state s) base) (decisions s) (drop_kept (chooser s)) (tick s)
        0 (u32 (restart_count s + 1)) idx (u32 (l * max_conflicts)) in
      if (0 <? max_restarts) && (max_restarts <=? restart_count s) then
        Some (Answer DVS_SOLVE_TIMEOUT DVS_BAIL_MAX_RESTARTS s)
      else
        match solver_propagate turns (state s) with
        | None => None
        | Some (PROP_CONFLICT, c) =>
            if prop_aborted c then Some (Answer DVS_SOLVE_TIMEOUT DVS_BAIL_PROPAGATION (with_state s c))
            else Some (Answer DVS_SOLVE_UNSAT DVS_BAIL_NONE (with_state s c))
        | Some (_, c) => Some (Deciding (with_state s c))
        end
  end.

(** What the conflict loop does with the decision [d] of level [cur - 1], once
    back there: the new record, the result and the context. *)
Definition resolve (h : H) (d : decision) (counted : bool) c : decision * H * (prop_result * ctx T M S) :=
  let x := var_id d in
  let v := tried_value d in
  let xv := var c x in
  let dlo := var_lo64 xv in
  let dhi := var_hi64 xv in
  if negb (bound d =? 0) then
    (mk_decision x v (is_split d) (upper_first d) (second_phase d) 0, h,
     if bound d =? 1 then ctx_tighten_lb64 c x (above v) else ctx_tighten_ub64 c x (below v))
  else if is_split d && negb (second_phase d) then
    let c := trail_push_level c in
    (mk_decision x v true (upper_first d) true 0, h,
     if upper_first d then ctx_tighten_ub64 c x (below v) else ctx_tighten_lb64 c x (above v))
  else if is_split d then
    (mk_decision x v false (upper_first d) (second_phase d) 0, h, (PROP_CONFLICT, c))
  else if var_b_gt xv dlo dhi then (d, h, (PROP_CONFLICT, c))
  else if negb (var_b_gt xv v dlo) then (d, h, ctx_tighten_lb64 c x (above dlo))
  else if negb (var_b_lt xv v dhi) then (d, h, ctx_tighten_ub64 c x (below dhi))
  else
    let '(again, h) := redraw h x counted in
    if again then (d, h, (PROP_OK, c)) else
    let '(up, h) := split_upper_first h dlo v dhi in
    let c := trail_push_level c in
    (mk_decision x v true up false 0, h,
     if up then ctx_tighten_lb64 c x (above v) else ctx_tighten_ub64 c x (below v)).

(** The body of [while (pr == PROP_CONFLICT)]. *)
Definition conflict (base : Z) (counted : bool) (s : search) : option next :=
  if prop_aborted (state s) then Some (Answer DVS_SOLVE_TIMEOUT DVS_BAIL_PROPAGATION s) else
  let s := with_conflicts (with_state s (count_conflict (state s))) (u32 (local_conflicts s + 1)) in
  let '(late, s) := out_of_time s 0xF in
  if late then Some (Answer DVS_SOLVE_TIMEOUT DVS_BAIL_DEADLINE_CONF s) else
  let c := state s in
  if out_of_work c then Some (Answer DVS_SOLVE_TIMEOUT DVS_BAIL_NONE (with_state s (hit_work c))) else
  let cur := decision_level c in
  if cur <=? base then Some (Answer DVS_SOLVE_UNSAT DVS_BAIL_NONE s) else
  if (0 <? conflicts_of opts) && (luby_limit s <=? local_conflicts s) then restart base s else
  let d := default no_decision (decisions s !! (cur - 1)) in
  let c := forget_culprit (trail_backtrack c (cur - 1)) in
  let '(d', h, rc) := resolve (chooser s) d counted c in
  let s := with_decisions s (<[cur - 1 := d']> (decisions s)) in
  match then_propagate turns rc with
  | None => None
  | Some (pr, c) =>
      let h := match pr with
               | PROP_OK => if saves_phase opts then save_phase h (var_id d) (tried_value d) else h
               | _ => h
               end in
      settle false (with_chooser s h) (Some (pr, c))
  end.

Definition search_step (base max_depth : Z) (n : next) : option next :=
  match n with
  | Deciding s => decide max_depth s
  | Conflicting fresh s => conflict base fresh s
  | Answer r why s => Some (Answer r why s)
  end.
Fixpoint search_loop (fuel : nat) (base max_depth : Z) (n : next) : option (solve_result * bail_reason * search) :=
  match n with
  | Answer r why s => Some (r, why, s)
  | n =>
      match fuel with
      | O => None
      | Datatypes.S fuel =>
          match search_step base max_depth n with
          | None => None
          | Some n => search_loop fuel base max_depth n
          end
      end
  end.

(** ** The function *)

(** [level_marks\[base\]] holds the state the search starts from. *)
Definition seal c : ctx T M S :=
  set_level_marks c (<[decision_level c :=
    mk_mark (ds_push (dynamic c)) (top (trail c)) (trail_count c) (top (entail c))]> (level_marks c)).

Definition empty_domain c : bool := existsb (fun v => var_b_gt v (var_lo64 v) (var_hi64 v)) (vars c).

Definition begin_solve (limited : bool) c : ctx T M S :=
  let b := budget c in
  set_prop_aborted (set_budget c (mk_budget (prop_fires b) (prop_ticks b) (thrash_limit b) (thrash_hit b)
    (work_limit b) (work_hit b) (conflict_count b) limited)) false.

(** The level arrays and [ctx->max_depth]. *)
Definition depth_limit (growable granted : bool) (level_cap : Z) c : Z * Z :=
  let want := u32 (decision_level c + MAX_DECISION_DEPTH + n_vars c + 2) in
  let want := if 0xFFFF <? want then 0xFFFF else want in
  let cap := if level_cap <? want then reserve_levels growable granted level_cap want else level_cap in
  let room := u32 (cap - 2) in
  (cap, if want - 2 <? room then want - 2 else room).

(** [None] stands for a loop that has not ended yet.  [limited]: a deadline is
    set; [h]: the seeded and cleared choice state. *)
Definition solver_solve_core (fuel : nat) (limited growable granted : bool) (level_cap : Z) (h : H) c :
    option (solve_result * bail_reason * search) :=
  let start c l := mk_search c ∅ h 0 0 0 1 l in
  let answer r why c := Some (r, why, start c 0) in
  let c := begin_solve limited c in
  match luby 1, solver_propagate turns c with
  | None, _ | _, None => None
  | Some _, Some (PROP_CONFLICT, c) =>
      if prop_aborted c then answer DVS_SOLVE_TIMEOUT DVS_BAIL_PROPAGATION c
      else answer DVS_SOLVE_UNSAT DVS_BAIL_NONE c
  | Some l, Some (_, c) =>
      if empty_domain c then answer DVS_SOLVE_UNSAT DVS_BAIL_NONE c else
      let base := decision_level c in
      let '(_, max_depth) := depth_limit growable granted level_cap c in
      let c := seal c in
      match (if 0 <? shave_iters_of opts then bounds_shave turns base rounds c (shave_iters_of opts)
             else Some (PROP_OK, c)) with
      | None => None
      | Some (sr, c) =>
          if (0 <? shave_iters_of opts) && prop_aborted c then answer DVS_SOLVE_TIMEOUT DVS_BAIL_PROPAGATION c else
          match sr with
          | PROP_CONFLICT => answer DVS_SOLVE_UNSAT DVS_BAIL_NONE c
          | _ =>
              let limit := if 0 <? conflicts_of opts then u32 (l * conflicts_of opts) else UINT32_MAX in
              search_loop fuel base max_depth (Deciding (start c limit))
          end
      end
  end.
End Ops.
End Search.
