(* ===== verification/Explore.v ===== *)
(** * Explore: what the search explores and what is left
    (src/src/c/dvs_search.c, [_solver_solve_core])

    The invariant of the search: every solution of the root is in the current
    domains, or in those of an open level, on the side its decision has still to
    explore.  A conflict undoes one level and turns to that side; so a conflict
    at the root means that there is no solution, and a state in which every
    variable is fixed is one.  Each step keeps the invariant, whatever the
    choices, and the steps end. *)

From Stdlib Require Import ZArith Lia ZifyBool Bool.
From stdpp Require Import base gmap list numbers relations.
From S2P Require Import Prelude Vars Ctx Queue DynStack Trail GuardIx Wake Store Tighten Propagate Probe Shave.
From S2P Require Import Unassigned Luby Search.
Import Vars Ctx Queue DynStack Trail GuardIx Wake Store Tighten Propagate Probe Shave Unassigned Luby Search.
Open Scope Z_scope.

Module Explore.

(** ** The neighbours of a value *)

Lemma bval_max v : good v -> bval v (var_hi64 v) <= vmax v /\ vmin v <= bval v (var_lo64 v).
Proof. intros G. split; [apply (gd_hi v G) | apply (gd_lo v G)]. Qed.

Lemma above_spec v b : good v -> int64 b -> bval v b < hi_of v ->
  int64 (above b) /\ bval v (above b) = bval v b + 1.
Proof.
  intros G Ib Lt. split; [apply int64_s64 |]. pose proof (gd_hi v G) as Hh. pose proof (gd_width v G) as Hw.
  unfold above, bval, vmax, beyond in *. destruct (is_signed v) eqn:Sg; cbn [negb andb] in *.
  - apply s64_small. assert (2 ^ (width v - 1) <= 2 ^ 63) by (apply Z.pow_le_mono_r; lia). unfold int64 in *. lia.
  - destruct (Z.leb_spec 64 (width v)).
    + rewrite u64_s64. replace (width v) with 64 in * by lia. unfold u64 in *.
      rewrite <- (Zplus_mod_idemp_l b 1). apply Z.mod_small.
      pose proof (Z.mod_pos_bound b (2 ^ 64)). lia.
    + apply s64_small. assert (2 ^ width v <= 2 ^ 63) by (apply Z.pow_le_mono_r; lia). unfold int64 in *. lia.
Qed.

Lemma below_spec v b : good v -> int64 b -> lo_of v < bval v b ->
  int64 (below b) /\ bval v (below b) = bval v b - 1.
Proof.
  intros G Ib Lt. split; [apply int64_s64 |]. pose proof (gd_lo v G) as Hh. pose proof (gd_width v G) as Hw.
  unfold below, bval, vmin, beyond in *. destruct (is_signed v) eqn:Sg; cbn [negb andb] in *.
  - apply s64_small. assert (2 ^ (width v - 1) <= 2 ^ 63) by (apply Z.pow_le_mono_r; lia). unfold int64 in *. lia.
  - destruct (Z.leb_spec 64 (width v)).
    + rewrite u64_s64. unfold u64 in *. rewrite <- (Zminus_mod_idemp_l b 1). apply Z.mod_small.
      pose proof (Z.mod_pos_bound b (2 ^ 64)). lia.
    + apply s64_small. unfold int64 in *. lia.
Qed.

(** ** The laws of the choices *)

Section Laws.
Context {T M S : Type} `{DynStack M S} `{Env}.

(** The selected variable is undecided, and none is left when there is none; a
    value lies in its variable's domain; a bound decision narrows it.  What the
    choices keep for themselves stays in order. *)
Class ChooserLaws (H : Type) `{!Chooser H (ctx T M S)} := {
  picks_ok : H -> Prop;
  select_law (h : H) (c : ctx T M S) x h' : picks_ok h -> st_ok c -> wired c -> mask_right c ->
    select_unassigned h c = (x, h') -> picks_ok h' /\
    (x = EXPR_NULL /\ (forall y, 0 <= y < n_vars c -> fixed c y) \/ 0 <= x < n_vars c /\ ~ fixed c x);
  pick_law (h : H) (c : ctx T M S) x v h' : picks_ok h -> st_ok c -> 0 <= x < n_vars c ->
    pick_value h c x = (v, h') -> picks_ok h' /\ int64 v /\ lo_at c x <= bval (var c x) v <= hi_at c x;
  bound_law (h : H) (c : ctx T M S) x v b h' : picks_ok h -> st_ok c -> 0 <= x < n_vars c -> int64 v ->
    lo_at c x <= bval (var c x) v <= hi_at c x -> ~ fixed c x -> bound_decision h c x v = (b, h') -> picks_ok h' /\
    (b = 0 \/ b = 1 /\ bval (var c x) v < hi_at c x \/ b = 2 /\ lo_at c x < bval (var c x) v);
  redraw_law (h : H) x counted : picks_ok h -> picks_ok (snd (redraw h x counted));
  split_law (h : H) lo v hi : picks_ok h -> picks_ok (snd (split_upper_first h lo v hi));
  failed_law (h : H) x b : picks_ok h -> picks_ok (note_failed h x b);
  phase_law (h : H) x v : picks_ok h -> picks_ok (save_phase h x v);
  drop_law (h : H) : picks_ok h -> picks_ok (drop_kept h) }.
End Laws.

(** ** The open levels and what they leave *)

Section Tree.
Context {T M S : Type} `{DynStackLaws M S} `{Env} `{!DynStackServes M S}
  `{!Fires T (ctx T M S)} `{!Propagators T (ctx T M S)} `{!PropagatorLaws T (ctx T M S)}.
Context (root : ctx T M S) (base : Z) (base_pos : 0 <= base).
Implicit Types c : ctx T M S.

Definition pivot c (d : decision) : Z := bval (var c (var_id d)) (tried_value d).

(** The side of [d] that is explored now, and the one still to come. *)
Definition taken_side c (d : decision) (s : assignment) : Prop :=
  let x := var_id d in
  if bound d =? 0 then
    if is_split d then
      if eqb (upper_first d) (second_phase d) then s x < pivot c d else pivot c d < s x
    else s x = pivot c d
  else if bound d =? 1 then s x <= pivot c d else pivot c d <= s x.
Definition left_side c (d : decision) (s : assignment) : Prop :=
  let x := var_id d in
  if bound d =? 0 then
    if is_split d then
      if second_phase d then False else if upper_first d then s x < pivot c d else pivot c d < s x
    else s x <> pivot c d
  else if bound d =? 1 then pivot c d < s x else s x < pivot c d.

Record decision_ok c (d : decision) : Prop := {
  dk_var : 0 <= var_id d < n_vars c;
  dk_value : int64 (tried_value d);
  dk_open : lo_at c (var_id d) < hi_at c (var_id d);
  dk_range : lo_at c (var_id d) <= pivot c d <= hi_at c (var_id d);
  dk_bound : bound d = 0 \/ bound d = 1 /\ pivot c d < hi_at c (var_id d) \/
    bound d = 2 /\ lo_at c (var_id d) < pivot c d;
  dk_split : is_split d = true -> bound d = 0 /\
    lo_at c (var_id d) < pivot c d < hi_at c (var_id d) }.

(** [c] has the root's propagators and domains within the root's. *)
Record descends c : Prop := {
  de_props : same_props root c;
  de_sub : sub c root;
  de_spans : spans (vars c) <= spans (vars root) }.

Lemma descends_effort c turns : descends c -> (effort root < turns)%nat -> (effort c < turns)%nat.
Proof. intros [Pr _ Sp] Lt. pose proof (effort_mono root c Pr Sp). lia. Qed.

Lemma descends_solves c s : descends c -> solves root s -> in_dom c s -> solves c s.
Proof. intros [Pr _ _] Sv D. apply (props_solves root); assumption. Qed.

Lemma descends_n_vars c : descends c -> n_vars c = n_vars root.
Proof. intros [_ Sb _]. apply n_vars_sub, Sb. Qed.

Lemma descends_vars a b : descends a -> st_ok a -> vars b = vars a -> same_props a b -> descends b.
Proof.
  intros [Pr Sb Sp] K Ev Pb. constructor.
  - apply (same_props_trans _ a); assumption.
  - apply (sub_trans _ a); [apply vars_sub; assumption | exact Sb].
  - rewrite Ev. exact Sp.
Qed.

Lemma descends_explored c P d : descends c -> running c -> explored c P PROP_OK d -> descends d.
Proof.
  intros [Pr Sb Sp] Rn [R (_ & _ & _ & Sd & Spd & _)]. destruct (run_running c d Rn R) as [_ Sc].
  constructor; [| apply (sub_trans _ c); assumption | lia].
  apply (same_props_trans _ c); [exact Pr | apply (held_props c d), static_held, Sc].
Qed.

(** Open levels: their contexts, their decisions, and at the lowest the whole
    problem. *)
Record tree (snap : Z -> ctx T M S) (ds : gmap Z decision) (lvl : Z) : Prop := {
  tr_level : base <= lvl;
  tr_open : forall k, base <= k < lvl -> descends (snap k) /\ st_ok (snap k) /\
    exists d, ds !! k = Some d /\ decision_ok (snap k) d;
  tr_root : base < lvl -> forall s, solves root s -> in_dom (snap base) s }.

(** [s] is still to be explored at a level below [lvl]. *)
Definition pending snap (ds : gmap Z decision) (lvl : Z) (s : assignment) : Prop :=
  exists k d, base <= k < lvl /\ ds !! k = Some d /\ in_dom (snap k) s /\ left_side (snap k) d s.

Definition covered c snap ds : Prop :=
  forall s, solves root s -> in_dom c s \/ pending snap ds (decision_level c) s.

Definition agree (lvl : Z) (f g : Z -> ctx T M S) : Prop := forall k, k < lvl -> g k = f k.

Lemma tree_agree snap snap' ds ds' lvl : tree snap ds lvl -> agree lvl snap snap' ->
  (forall k, k < lvl -> ds' !! k = ds !! k) -> tree snap' ds' lvl.
Proof.
  intros [L O R] A D. constructor; [exact L | |].
  - intros k Hk. rewrite A, D by lia. apply O, Hk.
  - intros Lt. rewrite A by lia. apply R, Lt.
Qed.
Lemma pending_agree snap snap' ds ds' lvl s : pending snap ds lvl s -> agree lvl snap snap' ->
  (forall k, k < lvl -> ds' !! k = ds !! k) -> pending snap' ds' lvl s.
Proof.
  intros (k & d & Hk & E & Ds & Ls) A D. exists k, d. rewrite A, D by lia. auto.
Qed.
Lemma pending_up snap ds lvl lvl' s : lvl <= lvl' -> pending snap ds lvl s -> pending snap ds lvl' s.
Proof. intros Le (k & d & Hk & X). exists k, d. split; [lia | exact X]. Qed.
Lemma pending_top snap ds lvl s : pending snap ds (lvl + 1) s ->
  pending snap ds lvl s \/ exists d, ds !! lvl = Some d /\ in_dom (snap lvl) s /\ left_side (snap lvl) d s.
Proof.
  intros (k & d & Hk & E & X). destruct (Z.eq_dec k lvl) as [-> | Ne]; [right; eauto |].
  left. exists k, d. split; [lia | auto].
Qed.
Lemma tree_down snap ds lvl : tree snap ds (lvl + 1) -> base <= lvl -> tree snap ds lvl.
Proof.
  intros [L O R] Hl. constructor; [exact Hl | intros k Hk; apply O; lia | intros; apply R; [lia | assumption]].
Qed.

(** A decision splits the domain in two. *)
Lemma sides c d s : taken_side c d s \/ left_side c d s \/ is_split d = true.
Proof.
  unfold taken_side, left_side. destruct (bound d =? 0); [destruct (is_split d) | destruct (bound d =? 1)]; auto;
    [destruct (Z.eq_dec (s (var_id d)) (pivot c d)) | ..]; lia.
Qed.

(** *** Opening a level and staying at one *)

Definition open_at c (ds : gmap Z decision) : Prop :=
  exists snap, nested base c snap /\ tree snap ds (decision_level c) /\ resting c /\ mask_right c /\ descends c /\
    covered c snap ds.
(** After a conflict: what is left is at the open levels, unless the
    propagation was cut off. *)
Definition stuck_at c (ds : gmap Z decision) : Prop :=
  exists snap, nested base c snap /\ tree snap ds (decision_level c) /\
    (prop_aborted c = true \/ forall s, solves root s -> pending snap ds (decision_level c) s).
Definition ends (r : prop_result) c ds : Prop :=
  match r with PROP_OK => open_at c ds | PROP_CONFLICT => stuck_at c ds | PROP_ENTAILED => False end.

Lemma explored_rests c P d : explored c P PROP_OK d -> decision_level d + 1 < 2 ^ 32 -> resting d.
Proof. intros [_ (Rn & Pd & Q & _)] L. constructor; assumption. Qed.

Lemma stay_nested c snap d : nested base c snap -> run c d ->
  exists snap', nested base d snap' /\ agree (decision_level c) snap snap' /\ decision_level d = decision_level c.
Proof.
  intros N R. destruct (nested_run base c snap d N R) as (s' & N' & A). exists s'. split; [exact N' |].
  split; [exact A |]. destruct (run_running c d (nested_running base c snap N) R) as [_ Sc]. apply Sc.
Qed.

Lemma enter_nested c snap d : resting c -> nested base c snap -> run (trail_push_level c) d ->
  exists snap', nested base d snap' /\ agree (decision_level c) snap snap' /\ snap' (decision_level c) = c /\
    decision_level d = decision_level c + 1.
Proof.
  intros R N Rd. destruct (level_next c R) as [_ Ln].
  destruct (stay_nested _ _ d (nested_push base c snap R N) Rd) as (s' & N' & A & L).
  change (decision_level (trail_push_level c)) with (u32 (decision_level c + 1)) in A, L. rewrite Ln in A, L.
  exists s'. split; [exact N' |]. split; [| split; [| exact L]].
  - intros k Hk. rewrite A by lia. destruct (Z.eqb_spec k (decision_level c)); [lia | reflexivity].
  - rewrite A by lia. rewrite Z.eqb_refl. reflexivity.
Qed.

(** At the same level, where the assumption [P] loses nothing. *)
Lemma stay_branch c snap ds ds' P r e : nested base c snap -> tree snap ds (decision_level c) -> descends c ->
  explored c P r e -> (r = PROP_OK -> mask_right e) -> decision_level c + 1 < 2 ^ 32 ->
  (forall k, k < decision_level c -> ds' !! k = ds !! k) ->
  (forall s, solves root s -> pending snap ds (decision_level c) s \/ in_dom c s /\ P s) -> ends r e ds'.
Proof.
  intros N Tr De Ex Mk Lv Ds Cov. destruct (stay_nested c snap e N (ex_run _ _ _ _ Ex)) as (s' & N' & A & L).
  pose proof (tree_agree snap s' ds ds' _ Tr A Ds) as Tr'. rewrite <- L in Tr'.
  assert (Pd : forall s, pending snap ds (decision_level c) s -> pending s' ds' (decision_level e) s)
    by (intros s X; rewrite L; apply (pending_agree snap _ ds); assumption).
  destruct r; [| | exact (ex_end _ _ _ _ Ex)].
  - exists s'. split; [exact N' |]. split; [exact Tr' |].
    split; [apply (explored_rests c P); [exact Ex | lia] |]. split; [apply Mk; reflexivity |].
    split; [apply (descends_explored c P); [exact De | apply (nested_running base c snap N) | exact Ex] |].
    intros s Sv. destruct (Cov s Sv) as [X | [D Ps]]; [right; auto | left].
    destruct (ex_end _ _ _ _ Ex) as (_ & _ & _ & _ & _ & K). apply K; [apply descends_solves; assumption | exact Ps].
  - exists s'. split; [exact N' |]. split; [exact Tr' |]. destruct (ex_end _ _ _ _ Ex) as [Ab | No]; [left; exact Ab | right].
    intros s Sv. destruct (Cov s Sv) as [X | [D Ps]]; [auto |]. elim (No s); [apply descends_solves; assumption | exact Ps].
Qed.

(** At a new level, where the assumption [P] loses what [d] has left. *)
Lemma open_branch c snap ds d c1 P r e : resting c -> nested base c snap -> tree snap ds (decision_level c) ->
  descends c -> decision_ok c d -> run (trail_push_level c) c1 -> descends c1 ->
  (forall s, in_dom c s -> in_dom c1 s) ->
  explored c1 P r e -> (r = PROP_OK -> mask_right e) -> decision_level c + 2 < 2 ^ 32 ->
  (forall s, solves root s -> pending snap ds (decision_level c) s \/ in_dom c s /\ (P s \/ left_side c d s)) ->
  ends r e (<[decision_level c := d]> ds).
Proof.
  intros R N Tr De Dk R1 De1 D1 Ex Mk Lv Cov.
  destruct (enter_nested c snap e R N) as (s' & N' & A & Ec & L); [etrans; [exact R1 | apply Ex] |].
  set (k := decision_level c) in *. set (ds' := <[k := d]> ds).
  assert (Dl : forall j, j < k -> ds' !! j = ds !! j) by (intros; unfold ds'; apply lookup_insert_ne; lia).
  assert (Tr' : tree s' ds' (decision_level e)).
  { pose proof (tree_agree snap s' ds ds' k Tr A Dl) as [Lb O Rt]. rewrite L. constructor; [lia | |].
    - intros j Hj. destruct (Z.eq_dec j k) as [-> | Ne]; [| apply O; lia]. rewrite Ec.
      split; [exact De |]. split; [apply (pi_ok _ _ (rt_pinv c R)) |]. exists d. unfold ds'.
      rewrite lookup_insert_eq. auto.
    - intros _ s Sv. destruct (Z.eq_dec base k) as [Eb | Ne]; [| apply Rt; [lia | exact Sv]].
      rewrite Eb, Ec. destruct (Cov s Sv) as [(j & _ & Hj & _) | [D _]]; [lia | exact D]. }
  assert (Pd : forall s, pending snap ds k s -> pending s' ds' (decision_level e) s).
  { intros s X. rewrite L. apply (pending_up _ _ k); [lia |]. apply (pending_agree snap _ ds); assumption. }
  assert (Pl : forall s, in_dom c s -> left_side c d s -> pending s' ds' (decision_level e) s).
  { intros s Ds Ls. exists k, d. rewrite Ec. unfold ds'. rewrite lookup_insert_eq.
    pose proof (tr_level _ _ _ Tr). split; [lia | auto]. }
  assert (Rn1 : running c1) by (destruct (push_running c R) as [Rn _]; apply (run_running _ c1 Rn R1)).
  destruct r; [| | exact (ex_end _ _ _ _ Ex)].
  - exists s'. split; [exact N' |]. split; [exact Tr' |].
    split; [apply (explored_rests c1 P); [exact Ex | lia] |]. split; [apply Mk; reflexivity |].
    split; [apply (descends_explored c1 P); assumption |].
    intros s Sv. destruct (Cov s Sv) as [X | [D [Ps | Ls]]]; [right; auto | left | right; auto].
    destruct (ex_end _ _ _ _ Ex) as (_ & _ & _ & _ & _ & K). apply K; [apply descends_solves; auto | exact Ps].
  - exists s'. split; [exact N' |]. split; [exact Tr' |]. destruct (ex_end _ _ _ _ Ex) as [Ab | No]; [left; exact Ab | right].
    intros s Sv. destruct (Cov s Sv) as [X | [D [Ps | Ls]]]; [auto | | auto].
    elim (No s); [apply descends_solves; auto | exact Ps].
Qed.

(** *** Assume and propagate *)

Context (turns : nat) (enough : (effort root < turns)%nat).

(** A tightening that succeeds leaves the mask right. *)
Definition passes (rc : prop_result * ctx T M S) : Prop := forall d, rc = (PROP_OK, d) -> mask_right d.

Lemma lb_passes c x v : running c -> pinv None c -> 0 <= x < n_vars c -> int64 v -> mask_right c ->
  passes (ctx_tighten_lb64 c x v).
Proof.
  intros Rn P Hx Iv R d E. pose proof (pi_ok _ _ P) as K. 
  apply (raising_right c x (bval (var c x) v) (ctx_tighten_lb64 c x v)); auto; [apply Rn | apply lb64_raising; auto].
Qed.
Lemma ub_passes c x v : running c -> pinv None c -> 0 <= x < n_vars c -> int64 v -> mask_right c ->
  passes (ctx_tighten_ub64 c x v).
Proof.
  intros Rn P Hx Iv R d E. pose proof (pi_ok _ _ P) as K. 
  apply (lowering_right c x (bval (var c x) v) (ctx_tighten_ub64 c x v)); auto; [apply Rn | apply ub64_lowering; auto].
Qed.
Lemma fix_passes c x v : running c -> pinv None c -> 0 <= x < n_vars c -> int64 v -> mask_right c ->
  passes (fix_at c x v).
Proof.
  intros Rn P Hx Iv R. pose proof (lb_passes c x v Rn P Hx Iv R) as L. pose proof (assume_lb c x v Rn P Hx Iv) as A.
  unfold fix_at. destruct (ctx_tighten_lb64 c x v) as [[] c1]; [| intros d E; discriminate E ..].
  destruct A as (_ & Rn1 & P1 & Mv1 & _). apply ub_passes; auto. apply (sb_valid _ _ (mv_sub _ _ Mv1)), Hx.
Qed.

Lemma explore_right c P rc : (effort c < turns)%nat -> assumed c P rc -> passes rc ->
  exists r e, then_propagate turns rc = Some (r, e) /\ explored c P r e /\ (r = PROP_OK -> mask_right e).
Proof.
  intros Lt A Ps. destruct (explore turns c P rc Lt A) as (r & e & E & Ex). exists r, e.
  split; [exact E |]. split; [exact Ex |]. intros ->. destruct rc as [[] d]; try discriminate E.
  destruct A as (_ & Rn & P' & _). apply (propagate_right turns d e Rn P' (Ps d eq_refl) E).
Qed.

Lemma run_level c d : running c -> run c d -> decision_level d = decision_level c.
Proof. intros Rn R. destruct (run_running c d Rn R) as [_ Sc]. apply Sc. Qed.

(** Propagating goes on from a good state, at a level between the two. *)
Definition leads (low high : Z) (rc : prop_result * ctx T M S) ds : Prop :=
  exists r e, then_propagate turns rc = Some (r, e) /\ ends r e ds /\ low <= decision_level e <= high.

Lemma stay_leads c snap ds ds' P rc : resting c -> nested base c snap -> tree snap ds (decision_level c) ->
  descends c -> assumed c P rc -> passes rc ->
  (forall k, k < decision_level c -> ds' !! k = ds !! k) ->
  (forall s, solves root s -> pending snap ds (decision_level c) s \/ in_dom c s /\ P s) ->
  leads (decision_level c) (decision_level c) rc ds'.
Proof.
  intros R N Tr De A Ps Ds Cov.
  destruct (explore_right c P rc (descends_effort c turns De enough) A Ps) as (r & e & E & Ex & Mk).
  exists r, e. split; [exact E |]. split.
  - apply (stay_branch c snap ds ds' P); auto. apply R.
  - rewrite (run_level c e (rt_running c R) (ex_run _ _ _ _ Ex)). lia.
Qed.

Lemma push_level c : resting c -> decision_level (trail_push_level c) = decision_level c + 1.
Proof. intros R. apply (level_next c R). Qed.

Lemma open_leads c snap ds d P rc : resting c -> nested base c snap -> tree snap ds (decision_level c) ->
  descends c -> decision_ok c d -> assumed (trail_push_level c) P rc -> passes rc ->
  decision_level c + 2 < 2 ^ 32 ->
  (forall s, solves root s -> pending snap ds (decision_level c) s \/ in_dom c s /\ (P s \/ left_side c d s)) ->
  leads (decision_level c + 1) (decision_level c + 1) rc (<[decision_level c := d]> ds).
Proof.
  intros R N Tr De Dk A Ps Lv Cov. set (c1 := trail_push_level c).
  assert (De1 : descends c1)
    by (apply (descends_vars c); [exact De | apply (pi_ok _ _ (rt_pinv c R)) | reflexivity | repeat split]).
  destruct (explore_right c1 P rc (descends_effort c1 turns De1 enough) A Ps) as (r & e & E & Ex & Mk).
  exists r, e. split; [exact E |]. split.
  - apply (open_branch c snap ds d c1 P); auto. reflexivity.
  - destruct (push_running c R) as [Rn1 _]. rewrite (run_level c1 e Rn1 (ex_run _ _ _ _ Ex)).
    unfold c1. rewrite push_level by exact R. lia.
Qed.

(** A conflict handed on: nothing is left at this level. *)
Lemma refused_leads c snap ds ds' : resting c -> nested base c snap -> tree snap ds (decision_level c) ->
  (forall k, k < decision_level c -> ds' !! k = ds !! k) ->
  (forall s, solves root s -> pending snap ds (decision_level c) s) ->
  leads (decision_level c) (decision_level c) (PROP_CONFLICT, c) ds'.
Proof.
  intros R N Tr Ds Cov. exists PROP_CONFLICT, c. split; [reflexivity |]. split; [| lia]. exists snap. split; [exact N |].
  split; [apply (tree_agree snap snap ds); auto; intros k; reflexivity |]. right.
  intros s Sv. apply (pending_agree snap snap ds); auto. intros k; reflexivity.
Qed.

(** *** Turning to the other side *)

Lemma leads_weaken l h l' h' rc ds : leads l h rc ds -> l' <= l -> h <= h' -> leads l' h' rc ds.
Proof. intros (r & e & E & En & L) L1 L2. exists r, e. split; [exact E |]. split; [exact En | lia]. Qed.

Context {Picks : Type} `{!Chooser Picks (ctx T M S)}.

Lemma below_dec (ds : gmap Z decision) (k : Z) d j : j < k -> <[k := d]> ds !! j = ds !! j.
Proof. intros L. apply lookup_insert_ne. lia. Qed.

(** The record of a split, in its first or second half. *)
Lemma split_ok c (d : decision) up second : decision_ok c d -> bound d = 0 ->
  lo_at c (var_id d) < pivot c d < hi_at c (var_id d) ->
  decision_ok c (mk_decision (var_id d) (tried_value d) true up second 0).
Proof. intros [] B0 Ip. constructor; cbn; auto. Qed.

(** Half of a split, at a level of its own. *)
Lemma half_leads c snap ds (d : decision) (up second : bool) : resting c -> nested base c snap ->
  tree snap ds (decision_level c) -> descends c -> mask_right c -> decision_ok c d -> bound d = 0 ->
  lo_at c (var_id d) < pivot c d < hi_at c (var_id d) -> decision_level c + 2 < 2 ^ 32 ->
  let d' := mk_decision (var_id d) (tried_value d) true up second 0 in
  (forall s, solves root s -> pending snap ds (decision_level c) s \/
    in_dom c s /\ (taken_side c d' s \/ left_side c d' s)) ->
  leads (decision_level c + 1) (decision_level c + 1)
    (if eqb up second then ctx_tighten_ub64 (trail_push_level c) (var_id d) (below (tried_value d))
     else ctx_tighten_lb64 (trail_push_level c) (var_id d) (above (tried_value d))) (<[decision_level c := d']> ds).
Proof.
  intros R N Tr De Mk Dk B0 Ip Lv d' Cov. destruct (push_running c R) as [Rn1 P1]. pose proof (dk_var c d Dk) as Hx.
  pose proof (resting_good c _ R Hx) as G. pose proof (dk_value c d Dk) as Iv. unfold pivot in Ip.
  assert (Mk1 : mask_right (trail_push_level c)) by exact (view_right c _ (push_view c) Mk).
  pose proof (split_ok c d up second Dk B0 Ip) as Dk'. unfold lo_at, hi_at in Ip. cbn in Ip.
  destruct (above_spec _ _ G Iv (proj2 Ip)) as [Ia Ea]. destruct (below_spec _ _ G Iv (proj1 Ip)) as [Ib Eb].
  destruct (eqb up second) eqn:Eu.
  - apply (open_leads c snap ds d' _ _ R N Tr De Dk' (assume_ub _ _ _ Rn1 P1 Hx Ib)); [apply ub_passes; assumption | exact Lv |].
    intros s Sv. destruct (Cov s Sv) as [X | [D [Ts | Ls]]]; auto. right. split; [exact D |]. left.
    unfold taken_side, d', pivot in Ts. cbn in Ts. rewrite Eu in Ts.
    change (var (trail_push_level c) (var_id d)) with (var c (var_id d)). lia.
  - apply (open_leads c snap ds d' _ _ R N Tr De Dk' (assume_lb _ _ _ Rn1 P1 Hx Ia)); [apply lb_passes; assumption | exact Lv |].
    intros s Sv. destruct (Cov s Sv) as [X | [D [Ts | Ls]]]; auto. right. split; [exact D |]. left.
    unfold taken_side, d', pivot in Ts. cbn in Ts. rewrite Eu in Ts.
    change (var (trail_push_level c) (var_id d)) with (var c (var_id d)). lia.
Qed.

(** A bound excluded at this level. *)
Lemma raise_leads c snap ds ds' x b : resting c -> nested base c snap -> tree snap ds (decision_level c) ->
  descends c -> mask_right c -> 0 <= x < n_vars c -> int64 b -> bval (var c x) b < hi_at c x ->
  (forall k, k < decision_level c -> ds' !! k = ds !! k) ->
  (forall s, solves root s -> pending snap ds (decision_level c) s \/ in_dom c s /\ bval (var c x) b < s x) ->
  leads (decision_level c) (decision_level c) (ctx_tighten_lb64 c x (above b)) ds'.
Proof.
  intros R N Tr De Mk Hx Ib Lt Ds Cov. destruct (above_spec _ _ (resting_good c x R Hx) Ib Lt) as [Ia Ea].
  apply (stay_leads c snap ds ds' _ _ R N Tr De (assume_lb c x _ (rt_running c R) (rt_pinv c R) Hx Ia)); auto.
  - apply lb_passes; auto; apply R.
  - intros s Sv. destruct (Cov s Sv) as [X | [D Ls]]; auto. right. split; [exact D | lia].
Qed.
Lemma lower_leads c snap ds ds' x b : resting c -> nested base c snap -> tree snap ds (decision_level c) ->
  descends c -> mask_right c -> 0 <= x < n_vars c -> int64 b -> lo_at c x < bval (var c x) b ->
  (forall k, k < decision_level c -> ds' !! k = ds !! k) ->
  (forall s, solves root s -> pending snap ds (decision_level c) s \/ in_dom c s /\ s x < bval (var c x) b) ->
  leads (decision_level c) (decision_level c) (ctx_tighten_ub64 c x (below b)) ds'.
Proof.
  intros R N Tr De Mk Hx Ib Lt Ds Cov. destruct (below_spec _ _ (resting_good c x R Hx) Ib Lt) as [Ia Ea].
  apply (stay_leads c snap ds ds' _ _ R N Tr De (assume_ub c x _ (rt_running c R) (rt_pinv c R) Hx Ia)); auto.
  - apply ub_passes; auto; apply R.
  - intros s Sv. destruct (Cov s Sv) as [X | [D Ls]]; auto. right. split; [exact D | lia].
Qed.

Lemma nothing_leads c snap ds ds' : resting c -> nested base c snap -> tree snap ds (decision_level c) ->
  descends c -> mask_right c -> (forall k, k < decision_level c -> ds' !! k = ds !! k) ->
  (forall s, solves root s -> pending snap ds (decision_level c) s \/ in_dom c s) ->
  leads (decision_level c) (decision_level c) (PROP_OK, c) ds'.
Proof.
  intros R N Tr De Mk Ds Cov. apply (stay_leads c snap ds ds' (fun _ => True)); auto.
  - split; [reflexivity |]. pose proof (pi_ok _ _ (rt_pinv c R)) as K. pose proof (rt_running c R) as Rn.
    split; [exact Rn |]. split; [apply R |]. split; [apply moved_refl; [apply Rn | exact K] | auto].
  - intros d [= <-]. exact Mk.
  - intros s Sv. destruct (Cov s Sv); auto.
Qed.

Lemma resolve_leads (h : Picks) (d : decision) counted c snap ds d' h' rc : resting c -> nested base c snap ->
  tree snap ds (decision_level c) -> descends c -> mask_right c -> decision_ok c d ->
  decision_level c + 2 < 2 ^ 32 ->
  (forall s, solves root s -> pending snap ds (decision_level c) s \/ in_dom c s /\ left_side c d s) ->
  resolve h d counted c = (d', h', rc) ->
  leads (decision_level c) (decision_level c + 1) rc (<[decision_level c := d']> ds).
Proof.
  intros R N Tr De Mk Dk Lv Cov. pose proof (dk_var c d Dk) as Hx. pose proof (dk_value c d Dk) as Iv.
  pose proof (resting_good c _ R Hx) as G. destruct (int64_bounds _ G) as [Il Ih].
  pose proof (fun d0 k (Lk : k < decision_level c) => below_dec ds (decision_level c) d0 k Lk) as Ds.
  pose proof (dk_range c d Dk) as Rg. pose proof (dk_open c d Dk) as Op. unfold left_side, pivot in *.
  unfold resolve, var_b_gt. rewrite !var_b_lt_spec.
  change (bval (var c (var_id d)) (var_lo64 (var c (var_id d)))) with (lo_at c (var_id d)).
  change (bval (var c (var_id d)) (var_hi64 (var c (var_id d)))) with (hi_at c (var_id d)).
  destruct (Z.eqb_spec (bound d) 0) as [B0 | B0]; cbn [negb].
  2: { intros [= <- <- <-]. destruct (dk_bound c d Dk) as [X | [[E Lt] | [E Lt]]]; [contradiction | |]; rewrite E in *; cbn in *;
       (eapply leads_weaken; [| reflexivity | apply Z.le_succ_diag_r]).
       - apply (raise_leads c snap ds); auto.
       - apply (lower_leads c snap ds); auto. }
  destruct (is_split d) eqn:Sp.
  - destruct (dk_split c d Dk Sp) as [_ Ip]. cbn [andb]. destruct (second_phase d) eqn:Se; cbn [negb]; intros [= <- <- <-].
    + eapply leads_weaken; [| reflexivity | apply Z.le_succ_diag_r]. apply (refused_leads c snap ds); auto.
      intros s Sv. destruct (Cov s Sv) as [X | [_ []]]. exact X.
    + pose proof (half_leads c snap ds d (upper_first d) true R N Tr De Mk Dk B0 Ip Lv) as HL. cbv zeta in HL.
      replace (eqb (upper_first d) true) with (upper_first d) in HL by (destruct (upper_first d); reflexivity).
      eapply leads_weaken; [apply HL | lia | reflexivity]. intros s Sv. destruct (Cov s Sv) as [X | [D Ls]]; auto. right. split; [exact D |]. left.
      unfold taken_side, pivot. cbn. destruct (upper_first d); cbn; exact Ls.
  - cbn [andb]. destruct (Z.ltb_spec (hi_at c (var_id d)) (lo_at c (var_id d))); [lia |].
    destruct (Z.ltb_spec (lo_at c (var_id d)) (bval (var c (var_id d)) (tried_value d))) as [Lo | Lo]; cbn [negb].
    2: { intros [= <- <- <-]. eapply leads_weaken; [| reflexivity | apply Z.le_succ_diag_r]. apply (raise_leads c snap ds); auto.
         intros s Sv. destruct (Cov s Sv) as [X | [D Ls]]; auto. right. split; [exact D |]. pose proof (D _ Hx) as Dx.
         change (bval (var c (var_id d)) (var_lo64 (var c (var_id d)))) with (lo_at c (var_id d)). lia. }
    destruct (Z.ltb_spec (bval (var c (var_id d)) (tried_value d)) (hi_at c (var_id d))) as [Hi | Hi]; cbn [negb].
    2: { intros [= <- <- <-]. eapply leads_weaken; [| reflexivity | apply Z.le_succ_diag_r]. apply (lower_leads c snap ds); auto.
         intros s Sv. destruct (Cov s Sv) as [X | [D Ls]]; auto. right. split; [exact D |]. pose proof (D _ Hx) as Dx.
         change (bval (var c (var_id d)) (var_hi64 (var c (var_id d)))) with (hi_at c (var_id d)). lia. }
    destruct (redraw h (var_id d) counted) as [again h1]. destruct again.
    { intros [= <- <- <-]. eapply leads_weaken; [| reflexivity | apply Z.le_succ_diag_r]. apply (nothing_leads c snap ds); auto.
      intros s Sv. destruct (Cov s Sv) as [X | [D _]]; auto. }
    destruct (split_upper_first h1 _ _ _) as [up h2]. intros [= <- <- <-].
    pose proof (half_leads c snap ds d up false R N Tr De Mk Dk B0 (conj Lo Hi) Lv) as HL. cbv zeta in HL.
    replace (if up then ctx_tighten_lb64 (trail_push_level c) (var_id d) (above (tried_value d))
      else ctx_tighten_ub64 (trail_push_level c) (var_id d) (below (tried_value d)))
      with (if eqb up false then ctx_tighten_ub64 (trail_push_level c) (var_id d) (below (tried_value d))
        else ctx_tighten_lb64 (trail_push_level c) (var_id d) (above (tried_value d))) by (destruct up; reflexivity).
    eapply leads_weaken; [apply HL | lia | reflexivity]. intros s Sv. destruct (Cov s Sv) as [X | [D Ls]]; auto. right. split; [exact D |].
    unfold taken_side, left_side, pivot. cbn. destruct up; cbn; lia.
Qed.

(** *** Deciding *)

Lemma assume_assumed c (d : decision) : running c -> pinv None c -> mask_right c -> 0 <= var_id d < n_vars c ->
  int64 (tried_value d) -> (bound d = 0 \/ bound d = 1 \/ bound d = 2) -> is_split d = false ->
  assumed c (taken_side c d) (assume c (var_id d) (tried_value d) (bound d)) /\
  passes (assume c (var_id d) (tried_value d) (bound d)).
Proof.
  intros Rn P Mk Hx Iv B Sp. unfold assume, taken_side, pivot. rewrite Sp.
  destruct B as [-> | [-> | ->]]; cbn; (split; [| first [apply fix_passes | apply ub_passes | apply lb_passes]; assumption]).
  - apply assume_fix; assumption.
  - apply assume_ub; assumption.
  - apply assume_lb; assumption.
Qed.

Lemma forget_run c : run c (forget_culprit c).
Proof. apply run_log. constructor; cbn; auto 20. Qed.
Lemma forget_state c : same_state c (forget_culprit c).
Proof. repeat split. Qed.

Lemma decide_leads c snap ds (d : decision) : resting c -> nested base c snap -> tree snap ds (decision_level c) ->
  descends c -> mask_right c -> decision_ok c d -> is_split d = false -> decision_level c + 2 < 2 ^ 32 ->
  covered c snap ds ->
  leads (decision_level c + 1) (decision_level c + 1)
    (assume (forget_culprit (trail_push_level c)) (var_id d) (tried_value d) (bound d)) (<[decision_level c := d]> ds).
Proof.
  intros R N Tr De Mk Dk Sp Lv Cov. set (c0 := trail_push_level c). set (c1 := forget_culprit c0).
  destruct (push_running c R) as [Rn0 P0]. destruct (run_running c0 c1 Rn0 (forget_run c0)) as [Rn1 _].
  pose proof (same_state_pinv None c0 c1 P0 (forget_state c0)) as P1.
  assert (Mk1 : mask_right c1) by exact (view_right c c1 eq_refl Mk).
  assert (De1 : descends c1)
    by (apply (descends_vars c); [exact De | apply (pi_ok _ _ (rt_pinv c R)) | reflexivity | repeat split]).
  destruct (assume_assumed c1 d Rn1 P1 Mk1 (dk_var c d Dk) (dk_value c d Dk)) as [A Ps];
    [destruct (dk_bound c d Dk) as [? | [[? _] | [? _]]]; auto | exact Sp |].
  destruct (explore_right c1 _ _ (descends_effort c1 turns De1 enough) A Ps) as (r & e & E & Ex & Mk').
  exists r, e. split; [exact E |]. split.
  - apply (open_branch c snap ds d c1 (taken_side c1 d)); auto; [apply forget_run |].
    intros s Sv. destruct (Cov s Sv) as [D | X]; auto. right. split; [exact D |].
    destruct (sides c d s) as [Ts | [Ls | X]]; [left; exact Ts | right; exact Ls | congruence].
  - rewrite (run_level c1 e Rn1 (ex_run _ _ _ _ Ex)), (run_level c0 c1 Rn0 (forget_run c0)).
    unfold c0. rewrite push_level by exact R. lia.
Qed.

(** *** Going back *)

Record back_at (k : Z) (a : ctx T M S) b : Prop := {
  ba_resting : resting b;
  ba_mask : mask_right b;
  ba_descends : descends b;
  ba_level : decision_level b = k;
  ba_vars : vars b = vars a }.

Lemma back_down c snap ds k : nested base c snap -> tree snap ds (decision_level c) -> base <= k < decision_level c ->
  nested base (trail_backtrack c k) snap /\ back_at k (snap k) (trail_backtrack c k).
Proof.
  intros N Tr Hk. destruct (nested_back base c snap k base_pos N Hk) as [Nb [Rb Vb Pb Lb _ Mb _ _]].
  split; [exact Nb |]. destruct (tr_open _ _ _ Tr k Hk) as (De & Kk & _). destruct (ne_inv _ _ _ N) as [It Ie].
  destruct (ti_snap c snap It k ltac:(lia)) as (Lk & _).
  constructor; auto; [| | congruence].
  - apply (rebuilt_right (snap k)); assumption.
  - apply (descends_vars (snap k)); auto.
Qed.

Lemma forget_back k a b : back_at k a b -> back_at k a (forget_culprit b).
Proof.
  intros [R Mk De L V]. pose proof (rt_running b R) as Rn. destruct (run_running b _ Rn (forget_run b)) as [Rn' _].
  constructor; auto; [constructor; auto | |].
  - apply (same_state_pinv None b); [apply R | apply forget_state].
  - pose proof (rt_quiet b R) as Q. unfold dequeue in *. cbn. repeat case_match; discriminate || reflexivity.
  - apply R.
  - exact (view_right b (forget_culprit b) eq_refl Mk).
  - apply (descends_vars b); [exact De | apply (pi_ok _ _ (rt_pinv b R)) | reflexivity | repeat split].
Qed.

Lemma decision_ok_vars a b d : vars b = vars a -> decision_ok a d -> decision_ok b d.
Proof.
  intros E. destruct (var_of_vars a b E) as [V N]. intros [].
  constructor; unfold pivot, lo_at, hi_at in *; cbn in *; rewrite ?N, ?V; assumption.
Qed.
Lemma left_side_vars a b d s : vars b = vars a -> left_side a d s -> left_side b d s.
Proof.
  intros E. destruct (var_of_vars a b E) as [V _]. unfold left_side, pivot. rewrite V. auto.
Qed.

(** Where the conflict loop stands before it turns to the other side. *)
Lemma unwound c snap ds : nested base c snap -> tree snap ds (decision_level c) -> base < decision_level c ->
  (forall s, solves root s -> pending snap ds (decision_level c) s) ->
  let k := decision_level c - 1 in
  let b := forget_culprit (trail_backtrack c k) in
  exists snap' d, nested base b snap' /\ tree snap' ds (decision_level b) /\ back_at k (snap k) b /\
    ds !! k = Some d /\ decision_ok b d /\
    forall s, solves root s -> pending snap' ds (decision_level b) s \/ in_dom b s /\ left_side b d s.
Proof.
  intros N Tr Lt Cov k b. destruct (back_down c snap ds k N Tr ltac:(lia)) as [Nb Ba].
  destruct (stay_nested _ snap b Nb (forget_run _)) as (s' & N' & A & L). pose proof (forget_back _ _ _ Ba) as Ba'.
  fold b in Ba'. rewrite (ba_level _ _ _ Ba) in A. pose proof (ba_level _ _ _ Ba') as Lb.
  destruct (tr_open _ _ _ Tr k ltac:(lia)) as (_ & _ & d & Ed & Dk).
  replace (decision_level c) with (k + 1) in * by lia. rewrite Lb.
  exists s', d. split; [exact N' |]. split; [apply (tree_agree snap s' ds); auto; apply tree_down; [exact Tr | lia] |].
  split; [exact Ba' |]. split; [exact Ed |]. split; [apply (decision_ok_vars (snap k)); [apply Ba' | exact Dk] |].
  intros s Sv. destruct (pending_top snap ds k s (Cov s Sv)) as [X | (d0 & E0 & D & Ls)].
  - left. apply (pending_agree snap s' ds ds); auto.
  - right. rewrite Ed in E0. injection E0 as <-. split; [apply (vars_in_dom (snap k) b s (ba_vars _ _ _ Ba')), D |].
    apply (left_side_vars (snap k)); [apply Ba' | exact Ls].
Qed.

Lemma stuck_run c c' ds : stuck_at c ds -> run c c' -> prop_aborted c' = prop_aborted c -> stuck_at c' ds.
Proof.
  intros (snap & N & Tr & Cov) R Ab. destruct (stay_nested c snap c' N R) as (s' & N' & A & L).
  exists s'. split; [exact N' |]. rewrite L. split; [apply (tree_agree snap s' ds); auto |].
  destruct Cov as [X | X]; [left; congruence | right]. intros s Sv. apply (pending_agree snap s' ds ds); auto.
Qed.

Lemma count_run c : run c (count_conflict c).
Proof. apply run_log. constructor; cbn; auto 20. Qed.
End Tree.

(** ** The steps *)

Section Steps.
Context {T M S : Type} `{DynStackLaws M S} `{Env} `{!DynStackServes M S}
  `{!Fires T (ctx T M S)} `{!Propagators T (ctx T M S)} `{!PropagatorLaws T (ctx T M S)}.
Context {Picks : Type} `{!Chooser Picks (ctx T M S)} `{!ChooserLaws (T := T) (M := M) (S := S) Picks}.
Context (root : ctx T M S) (base : Z) (base_pos : 0 <= base).
Context (turns : nat) (enough : (effort root < turns)%nat).
Context (late : Z -> bool) (opts : option solve_opts) (max_depth : Z).
Context (shallow : max_depth + 1 < 2 ^ 32) (few_restarts : restarts_of opts < 2 ^ 31 - 1).
Implicit Types (c : ctx T M S) (s : search (T := T) (M := M) (S := S) (H := Picks)).

(** What an answer means. *)
Definition answered (r : solve_result) c : Prop :=
  match r with
  | DVS_SOLVE_OK => resting c /\ descends root c /\ forall x, 0 <= x < n_vars c -> fixed c x
  | DVS_SOLVE_UNSAT => forall a, ~ solves root a
  | DVS_SOLVE_TIMEOUT => True
  end.

Record counters_ok s : Prop := {
  co_restarts : 0 <= restart_count s < restarts_of opts;
  co_luby : luby_idx s = restart_count s + 1;
  co_limit : 0 <= luby_limit s < 2 ^ 32;
  co_local : 0 <= local_conflicts s /\ (local_conflicts s = 0 \/ local_conflicts s < luby_limit s);
  co_picks : picks_ok (chooser s) }.

Definition good_next (n : next) : Prop :=
  match n with
  | Deciding s => open_at root base (state s) (decisions s) /\ decision_level (state s) <= max_depth /\ counters_ok s
  | Conflicting _ s =>
      stuck_at root base (state s) (decisions s) /\ decision_level (state s) <= max_depth /\ counters_ok s
  | Answer r _ s => answered r (state s)
  end.

(** The steps left: restarts, then conflicts, then decisions. *)
Definition conflicts_left s : Z :=
  (restarts_of opts - restart_count s) * 2 ^ 32 + Z.max 0 (luby_limit s - local_conflicts s).
Definition measure (n : next) : Z :=
  match n with
  | Deciding s => conflicts_left s * (max_depth + 3) + (max_depth - decision_level (state s)) + 1
  | Conflicting _ s => conflicts_left s * (max_depth + 3)
  | Answer _ _ _ => -1
  end.

Lemma out_of_time_fields s m : let '(_, s') := out_of_time late s m in
  state s' = state s /\ decisions s' = decisions s /\ restart_count s' = restart_count s /\
  luby_idx s' = luby_idx s /\ luby_limit s' = luby_limit s /\ local_conflicts s' = local_conflicts s /\ chooser s' = chooser s.
Proof. unfold out_of_time. destruct (has_deadline _); cbn; auto 10. Qed.

Lemma counters_same s s' : restart_count s' = restart_count s -> luby_idx s' = luby_idx s ->
  luby_limit s' = luby_limit s -> local_conflicts s' = local_conflicts s -> chooser s' = chooser s ->
  (counters_ok s -> counters_ok s') /\ conflicts_left s' = conflicts_left s.
Proof.
  intros E1 E2 E3 E4 E5. split; [intros []; constructor; rewrite ?E1, ?E2, ?E3, ?E4, ?E5; assumption |].
  unfold conflicts_left. rewrite E1, E3, E4. reflexivity.
Qed.

Lemma conflicts_left_nonneg s : counters_ok s -> 0 <= conflicts_left s.
Proof. intros [C1 _ _ _ _]. unfold conflicts_left. lia. Qed.

(** What a step reaches: a good state, closer to the end. *)
Definition better (n : option next) (m : Z) : Prop := exists n', n = Some n' /\ good_next n' /\ measure n' < m.

Lemma better_answer r why s m : answered r (state s) -> 0 <= m -> better (Some (Answer r why s)) m.
Proof. intros A Hm. eexists. split; [reflexivity |]. split; [exact A | cbn; lia]. Qed.

(** A result that leads somewhere good. *)
Lemma settle_better fresh s low high rc ds h m : leads root base turns low high rc ds -> base <= low -> high <= max_depth ->
  decisions s = ds -> counters_ok s -> (forall pr, picks_ok (h pr)) ->
  conflicts_left s * (max_depth + 3) + (max_depth - low) + 1 < m ->
  better (match then_propagate turns rc with
          | None => None
          | Some (pr, c) => settle fresh (with_chooser s (h pr)) (Some (pr, c))
          end) m.
Proof.
  intros (r & e & -> & En & L) Ll Lh Ed Co Hp Hm. subst ds.
  pose proof Co as [C1 C2 C3 C4 _]. pose proof (conflicts_left_nonneg s Co).
  destruct r; [| | elim En]; eexists; (split; [reflexivity |]); cbn [good_next measure with_state with_chooser state decisions];
    (split; [split; [exact En |]; split; [lia | constructor; first [assumption | apply Hp]] |]);
    unfold conflicts_left in *; cbn in *; lia.
Qed.

Lemma decide_better s : good_next (Deciding s) -> better (decide turns late max_depth s) (measure (Deciding s)).
Proof.
  intros ((snap & N & Tr & R & Mk & De & Cov) & L & Co). unfold decide.
  pose proof (conflicts_left_nonneg s Co) as Cn. pose proof (tr_level _ _ _ _ _ Tr) as Lb.
  assert (M0 : 0 <= measure (Deciding s)) by (cbn; nia).
  pose proof (out_of_time_fields s 0x3FF) as F. destruct (out_of_time late s 0x3FF) as [lt s1].
  destruct F as (Es & Ed & E1 & E2 & E3 & E4 & E5). destruct (counters_same s s1 E1 E2 E3 E4 E5) as [Co' El]. specialize (Co' Co).
  clear E1 E2 E3 E4 E5.
  destruct lt; [apply better_answer; [exact Logic.I | exact M0] |].
  rewrite Es. set (c := state s) in *. destruct (out_of_work c); [apply better_answer; [exact Logic.I | exact M0] |].
  pose proof (pi_ok _ _ (rt_pinv c R)) as K. pose proof (rn_wired c (rt_running c R)) as W.
  destruct (select_unassigned (chooser s1) c) as [x h1] eqn:E1.
  destruct (select_law _ _ _ _ (co_picks _ Co') K W Mk E1) as [P1 [[-> Fx] | [Hx Nf]]].
  { cbn. apply better_answer; [cbn; rewrite Es; auto | exact M0]. }
  pose proof (wi_size c W) as Sz. destruct (Z.eqb_spec x EXPR_NULL); [lia |].
  destruct (pick_value h1 c x) as [v h2] eqn:E2. destruct (pick_law _ _ _ _ _ P1 K Hx E2) as (P2 & Iv & Rg).
  rewrite Z.geb_leb. destruct (Z.leb_spec max_depth (decision_level c)) as [Le | Lt];
    [apply better_answer; [exact Logic.I | exact M0] |].
  destruct (bound_decision h2 c x v) as [b h3] eqn:E3. destruct (bound_law _ _ _ _ _ _ P2 K Hx Iv Rg Nf E3) as [P3 Bd].
  set (d := mk_decision x v false false false b).
  assert (Dk : decision_ok c d).
  { constructor; auto; [| discriminate]. pose proof (dom_ne c x K Hx). unfold fixed in Nf. cbn. lia. }
  pose proof (decide_leads root base turns enough c snap (decisions s) d R N Tr De Mk Dk eq_refl ltac:(lia) Cov) as Ls.
  rewrite Ed. apply (settle_better true (with_decisions s1 (<[decision_level c := d]> (decisions s))) _ _ _ _
    (fun pr => match pr with PROP_CONFLICT => note_failed h3 x b | _ => h3 end) _ Ls); [lia | lia | reflexivity | | |].
  - destruct Co'. constructor; assumption.
  - intros []; auto using failed_law.
  - change (conflicts_left (with_decisions _ _)) with (conflicts_left s1). rewrite El. cbn [measure]. fold c. lia.
Qed.

Lemma conflicts_pos : 0 < conflicts_of opts.
Proof. unfold conflicts_of. repeat case_match; lia. Qed.

(** A restart goes on from the root with one fewer to come. *)
Lemma restart_better s snap : nested base (state s) snap -> tree root base snap (decisions s) (decision_level (state s)) ->
  base < decision_level (state s) <= max_depth -> 0 <= restart_count s < restarts_of opts ->
  luby_idx s = restart_count s + 1 -> picks_ok (chooser s) ->
  better (restart turns opts base s) ((restarts_of opts - restart_count s) * 2 ^ 32 * (max_depth + 3)).
Proof.
  intros N Tr Lt C1 C2 Pk. unfold restart. set (m := _ * (max_depth + 3)). assert (M0 : 0 <= m) by (unfold m; nia).
  unfold u32. rewrite C2, !(Z.mod_small (_ + 1)) by lia.
  destruct (luby_some (restart_count s + 1 + 1) ltac:(lia)) as [l ->].
  set (lim := (l * conflicts_of opts) mod 2 ^ 32). assert (Hl : 0 <= lim < 2 ^ 32) by (apply Z.mod_pos_bound; lia).
  destruct (back_down root base base_pos turns enough _ snap _ base N Tr ltac:(lia)) as [Nb Ba].
  set (b := trail_backtrack (state s) base) in *. cbn [state restart_count].
  destruct (Z.ltb_spec 0 (restarts_of opts)); [| lia]. cbn [andb].
  destruct (Z.leb_spec (restarts_of opts) (restart_count s + 1)) as [_ | Lr]; [apply better_answer; [exact Logic.I | exact M0] |].
  pose proof (ba_level _ _ _ _ Ba) as Lb.
  assert (Trb : tree root base snap (decisions s) (decision_level b)) by (rewrite Lb; constructor; [lia | intros k Hk; lia | lia]).
  assert (Cov : forall a, solves root a -> pending base snap (decisions s) (decision_level b) a \/ in_dom b a).
  { intros a Sv. right. apply (vars_in_dom (snap base) b a (ba_vars _ _ _ _ Ba)).
    apply (tr_root _ _ _ _ _ Tr ltac:(lia) a Sv). }
  pose proof (nothing_leads root base turns enough b snap (decisions s) (decisions s) (ba_resting _ _ _ _ Ba) Nb Trb
    (ba_descends _ _ _ _ Ba) (ba_mask _ _ _ _ Ba) ltac:(reflexivity) Cov) as (r & e & E & En & Le).
  cbn [then_propagate] in E. rewrite E. destruct r; [| | elim En].
  - eexists. split; [reflexivity |]. cbn [good_next measure with_state state decisions].
    split; [split; [exact En |]; split; [lia |]; constructor; cbn; try lia; apply drop_law, Pk |].
    unfold conflicts_left. cbn [with_state restart_count luby_limit local_conflicts]. unfold m. nia.
  - destruct (prop_aborted e) eqn:Ab; apply better_answer; auto; [exact Logic.I |].
    destruct En as (s' & _ & _ & [X | X]); [congruence |]. intros a Sv.
    destruct (X a Sv) as (k & d & Hk & _). cbn [with_state state] in *. lia.
Qed.

Lemma resolve_picks (h : Picks) (d : decision) counted c d' h' rc : picks_ok h -> resolve h d counted c = (d', h', rc) ->
  picks_ok h'.
Proof.
  intros P. unfold resolve. pose proof (redraw_law h (var_id d) counted P) as Pr.
  destruct (redraw h (var_id d) counted) as [again h1]. cbn [snd] in Pr.
  pose proof (split_law h1 (var_lo64 (var c (var_id d))) (tried_value d) (var_hi64 (var c (var_id d))) Pr) as Ps.
  destruct (split_upper_first _ _ _ _) as [up h2]. cbn [snd] in Ps.
  repeat case_match; intros [= <- <- <-]; assumption.
Qed.

Lemma conflict_better fresh s : good_next (Conflicting fresh s) ->
  better (conflict turns late opts base fresh s) (measure (Conflicting fresh s)).
Proof.
  intros (St & L & Co). unfold conflict. pose proof (conflicts_left_nonneg s Co) as Cn.
  assert (Lb : base <= decision_level (state s)) by (destruct St as (snap & _ & Tr & _); apply (tr_level _ _ _ _ _ Tr)).
  assert (M0 : 0 <= measure (Conflicting fresh s)) by (cbn; nia).
  destruct (prop_aborted (state s)) eqn:Ab; [apply better_answer; [exact Logic.I | exact M0] |].
  pose proof Co as [C1 C2 C3 C4 C5].
  set (s0 := with_conflicts (with_state s (count_conflict (state s))) (u32 (local_conflicts s + 1))).
  assert (El0 : local_conflicts s0 = local_conflicts s + 1) by (cbn; unfold u32; rewrite Z.mod_small; lia).
  pose proof (out_of_time_fields s0 0xF) as F. destruct (out_of_time late s0 0xF) as [lt s1].
  destruct F as (Es & Ed & Er & Ei & El & Em & Ec). change (state s0) with (count_conflict (state s)) in Es.
  destruct lt; [apply better_answer; [exact Logic.I | exact M0] |].
  rewrite Es. set (c := count_conflict (state s)) in *.
  destruct (stuck_run root base (state s) c _ St (count_run _) eq_refl) as (snap & N & Tr & Cov).
  destruct Cov as [X | Cov]; [exfalso; change (prop_aborted c) with (prop_aborted (state s)) in X; congruence |].
  destruct (out_of_work c); [apply better_answer; [exact Logic.I | exact M0] |].
  change (decision_level (state s)) with (decision_level c) in *.
  destruct (Z.leb_spec (decision_level c) base) as [Le | Lt].
  { apply better_answer; [| exact M0]. intros a Sv. destruct (Cov a Sv) as (k & d & Hk & _). lia. }
  pose proof conflicts_pos. destruct (Z.ltb_spec 0 (conflicts_of opts)); [| lia]. cbn [andb].
  destruct (Z.leb_spec (luby_limit s1) (local_conflicts s1)) as [Rs | No].
  - assert (P1 : nested base (state s1) snap) by (rewrite Es; exact N).
    assert (P2 : tree root base snap (decisions s1) (decision_level (state s1))) by (rewrite Es, Ed; exact Tr).
    assert (P3 : base < decision_level (state s1) <= max_depth) by (rewrite Es; fold c; lia).
    assert (P4 : 0 <= restart_count s1 < restarts_of opts) by (rewrite Er; exact C1).
    assert (P5 : luby_idx s1 = restart_count s1 + 1) by (rewrite Ei, Er; exact C2).
    assert (P6 : picks_ok (chooser s1)) by (rewrite Ec; exact C5).
    destruct (restart_better s1 snap P1 P2 P3 P4 P5 P6) as (n & E & G & Lm).
    exists n. split; [exact E |]. split; [exact G |]. cbn [measure]. unfold conflicts_left.
    rewrite Er in Lm. change (restart_count s0) with (restart_count s) in Lm.
    assert (0 <= max_depth + 3) by lia. nia.
  - destruct (unwound root base base_pos turns enough c snap _ N Tr ltac:(lia) Cov) as (s' & d & N' & Tr' & Ba & Ek & Dk & Cov').
    set (b := forget_culprit (trail_backtrack c (decision_level c - 1))) in *. rewrite Ed.
    change (decisions s0) with (decisions s). rewrite Ek. cbn [from_option id].
    pose proof (ba_level _ _ _ _ Ba) as Lv. rewrite <- Lv.
    destruct (resolve (chooser s1) d fresh b) as [[d' h'] rc] eqn:Rs.
    pose proof (resolve_leads root base turns enough (chooser s1) d fresh b s' _ d' h' rc (ba_resting _ _ _ _ Ba) N' Tr'
      (ba_descends _ _ _ _ Ba) (ba_mask _ _ _ _ Ba) Dk ltac:(lia) Cov' Rs) as Ls.
    apply (settle_better false (with_decisions s1 _) _ _ _ _
      (fun pr => match pr with
                 | PROP_OK => if saves_phase opts then save_phase h' (var_id d) (tried_value d) else h'
                 | _ => h' end) _ Ls); [lia | lia | reflexivity | | |].
    + constructor; cbn; rewrite ?Er, ?Ei, ?El, ?Em, ?El0, ?Ec; auto; lia.
    + assert (Ph : picks_ok h') by (apply (resolve_picks (chooser s1) d fresh b d' h' rc); [rewrite Ec; exact C5 | exact Rs]).
      intros []; auto. destruct (saves_phase opts); auto using phase_law.
    + cbn [measure]. unfold conflicts_left. cbn [with_decisions restart_count luby_limit local_conflicts].
      rewrite Er, El, Em, El0. change (restart_count s0) with (restart_count s). change (luby_limit s0) with (luby_limit s).
      rewrite El, Em, El0 in No. change (luby_limit s0) with (luby_limit s) in No. nia.
Qed.

(** *** The loop *)

Lemma loop_good fuel : forall n, good_next n -> measure n < Z.of_nat fuel ->
  exists r why s, search_loop turns late opts fuel base max_depth n = Some (r, why, s) /\ answered r (state s).
Proof.
  induction fuel as [| fuel IH]; intros n G Hm.
  - destruct n as [s | f s | r why s]; [| | exists r, why, s; split; [reflexivity | exact G]]; exfalso;
      destruct G as (St & L & Co); pose proof (conflicts_left_nonneg s Co);
      (assert (base <= decision_level (state s)) by (destruct St as (snap & _ & Tr & _); apply (tr_level _ _ _ _ _ Tr)));
      cbn in Hm; nia.
  - destruct n as [s | f s | r why s]; [| | exists r, why, s; split; [reflexivity | exact G]]; cbn [search_loop search_step].
    + destruct (decide_better s G) as (n & -> & G' & Lm). apply IH; [exact G' | lia].
    + destruct (conflict_better f s G) as (n & -> & G' & Lm). apply IH; [exact G' | lia].
Qed.

Lemma loop_more fuel : forall n x k, search_loop turns late opts fuel base max_depth n = Some x ->
  search_loop turns late opts (fuel + k) base max_depth n = Some x.
Proof.
  induction fuel as [| fuel IH]; intros n x k; destruct n as [s | f s | r why s]; cbn [search_loop Nat.add];
    try discriminate; try (destruct k; exact id); case_match; try discriminate; apply IH.
Qed.
End Steps.
End Explore.
