(* ===== verification/Solve.v ===== *)
(** * Solve: the answers of the search
    (src/src/c/dvs_search.c, [_solver_solve_core])

    The whole function, from the level-0 propagation to the answer: the context
    it starts from is sealed and shaved, the search loop runs, and what it
    answers is right.  The theorems hold for every way of choosing variables and
    values that has the laws of [ChooserLaws]. *)

From Stdlib Require Import ZArith Lia ZifyBool Bool.
From stdpp Require Import base gmap list numbers relations.
From S2P Require Import Prelude Vars Ctx Queue DynStack Trail GuardIx Wake Store Tighten Propagate Probe Shave.
From S2P Require Import Unassigned Luby Search Explore.
Import Vars Ctx Queue DynStack Trail GuardIx Wake Store Tighten Propagate Probe Shave Unassigned Luby Search Explore.
Open Scope Z_scope.

Module Solve.

Lemma u32_small z : 0 <= z < 2 ^ 32 -> u32 z = z.
Proof. apply Z.mod_small. Qed.

(** ** The context the loop starts from *)

Section Start.
Context {T M S : Type} `{DynStackLaws M S} `{Env} `{!DynStackServes M S}
  `{!Fires T (ctx T M S)} `{!Propagators T (ctx T M S)} `{!PropagatorLaws T (ctx T M S)}.
Implicit Types c : ctx T M S.

Lemma grows_same c : grows c c.
Proof. constructor; auto. exists [], [], []. repeat split; constructor. Qed.

(** The mark of the level itself is not in use. *)
Lemma seal_inv c snap : inv c snap -> inv (seal c) snap.
Proof.
  intros [It Ie]. split; [| apply (same_marks_einv c); [exact Ie | constructor; auto; split; reflexivity]].
  destruct It as [L C N St Sn Ne]. constructor; auto.
  intros k Hk. destruct (Sn k Hk) as (E1 & E2 & X). split; [exact E1 |]. split; [| exact X].
  cbn in Hk |- *. rewrite lookup_insert_ne by lia. exact E2.
Qed.

Lemma seal_resting c : resting c -> resting (seal c).
Proof.
  intros [[[snap I] W A] P Q L]. destruct (wi_queue _ W) as [qs Qr].
  assert (Qs : qrep (seal c) qs) by (apply (qrep_links c); auto). constructor; [| | | exact L].
  - constructor; [exists snap; apply seal_inv, I | apply (wired_frame c); eauto | intros r p Hp; apply (A r p Hp)].
  - apply (same_state_pinv _ c); [exact P | repeat split].
  - pose proof (dequeue_refines c qs Qr) as R. pose proof (dequeue_refines (seal c) qs Qs) as Rs.
    destruct (spec_dequeue 16 0 qs) as [[r qs'] |]; [| exact Rs]. destruct R as (c' & E & _). congruence.
Qed.

Lemma begin_run limited c : run c (begin_solve limited c).
Proof. apply run_log. constructor; cbn; auto 20. Qed.

Lemma begin_facts limited c : running c -> pinv None c ->
  let b := begin_solve limited c in
  running b /\ pinv None b /\ kept c b /\ prop_aborted b = false /\ decision_level b = decision_level c.
Proof.
  intros Rn P b. split; [apply (run_running c), begin_run; exact Rn |].
  assert (Sm : same_state c b) by repeat split. split; [apply (same_state_pinv _ c); assumption |].
  split; [apply (same_state_kept c b (pi_ok _ _ P) Sm) | split; reflexivity].
Qed.

Lemma no_empty_domain c : st_ok c -> empty_domain c = false.
Proof.
  intros K. unfold empty_domain. apply not_true_is_false. intros X. apply existsb_exists in X as (v & Hin & Hv).
  apply list_elem_of_In, list_elem_of_lookup in Hin as [i Hi]. pose proof (lookup_lt_Some _ _ _ Hi).
  assert (Vi : valid c (Z.of_nat i)) by (cbn; unfold n_vars; lia).
  assert (Ei : var c (Z.of_nat i) = v) by (unfold var; rewrite Nat2Z.id, Hi; reflexivity).
  pose proof (dom_ne c _ K Vi) as Ne. unfold lo_at, hi_at, var_b_gt in *. cbn in Ne. rewrite Ei in Ne.
  rewrite var_b_lt_spec in Hv. unfold lo_of, hi_of in Ne. lia.
Qed.

(** The depth is at least the level of the root, and a 32-bit count of levels
    never wraps. *)
Lemma depth_bounds growable granted cap c : 0 <= decision_level c -> decision_level c + 2 <= cap <= 0xFFFF ->
  decision_level c + MAX_DECISION_DEPTH + n_vars c + 2 < 2 ^ 32 ->
  let '(cap', max_depth) := depth_limit growable granted cap c in
  decision_level c <= max_depth <= cap' - 2 /\ cap <= cap' <= 0xFFFF.
Proof.
  intros L0 Lc Lw. unfold depth_limit, MAX_DECISION_DEPTH in *.
  assert (N0 : 0 <= n_vars c) by (unfold n_vars; lia).
  rewrite (u32_small (_ + _ + _ + 2)) by lia.
  set (want := if 0xFFFF <? _ then _ else _).
  assert (Hw : decision_level c + 2 <= want <= 0xFFFF) by (subst want; case_match; lia).
  set (cap' := if cap <? want then _ else _).
  assert (Hc : cap <= cap' <= 0xFFFF).
  { subst cap'. destruct (Z.ltb_spec cap want); [| lia]. unfold reserve_levels.
    destruct (Z.leb_spec want cap); [lia |]. case_match; [lia |].
    rewrite (u32_small (cap * 2)) by lia. repeat case_match; lia. }
  rewrite u32_small by lia. case_match; lia.
Qed.

(** Shaving, or not, before the loop. *)
Definition before_loop turns rounds opts c : option (prop_result * ctx T M S) :=
  if 0 <? shave_iters_of opts then bounds_shave turns (decision_level c) rounds c (shave_iters_of opts)
  else Some (PROP_OK, c).

Lemma before_loop_spec turns rounds opts c : resting c -> (effort c < turns)%nat ->
  spans (vars c) + 1 < Z.of_nat rounds -> exists r d, before_loop turns rounds opts c = Some (r, d) /\
  match r with
  | PROP_OK => resting d /\ kept c d /\ spans (vars d) <= spans (vars c) /\
      decision_level d = decision_level c /\ (mask_right c -> mask_right d)
  | PROP_CONFLICT => 0 < shave_iters_of opts /\ given_up c d
  | PROP_ENTAILED => False
  end.
Proof.
  intros R Lt Hn. unfold before_loop. destruct (Z.ltb_spec 0 (shave_iters_of opts)) as [Sh | _].
  - destruct (rounds_spec turns (shave_iters_of opts) rounds c 0 R Lt ltac:(lia) ltac:(lia))
      as (r & d & E & X). exists r, d. split; [exact E |]. destruct r; [| auto | exact X].
    destruct X as (k & rem & [Rd K L [C _] Sp _ _ Mr] & _). repeat (split; auto; try lia).
  - exists PROP_OK, c. split; [reflexivity |]. split; [exact R |].
    split; [apply (proj1 (kept_refl c (pi_ok _ _ (rt_pinv c R)))) | auto with lia].
Qed.
End Start.

(** ** The function *)

Section Core.
Context {T M S : Type} `{DynStackLaws M S} `{Env} `{!DynStackServes M S}
  `{!Fires T (ctx T M S)} `{!Propagators T (ctx T M S)} `{!PropagatorLaws T (ctx T M S)}.
Context {Picks : Type} `{!Chooser Picks (ctx T M S)} `{!ChooserLaws (T := T) (M := M) (S := S) Picks}.
Context (turns rounds : nat) (late : Z -> bool) (opts : option solve_opts).
Context (few_restarts : restarts_of opts < 2 ^ 31 - 1).
Implicit Types (c : ctx T M S) (s : search (T := T) (M := M) (S := S) (H := Picks)).

(** What an answer means for the problem [c] the function was given. *)
Definition right_answer c (r : solve_result) (c' : ctx T M S) : Prop :=
  match r with
  | DVS_SOLVE_OK => (forall x, 0 <= x < n_vars c' -> fixed c' x) /\ solves c (fun x => lo_at c' x)
  | DVS_SOLVE_UNSAT => forall a, ~ solves c a
  | DVS_SOLVE_TIMEOUT => True
  end.

Lemma right_kept a b r e : kept a b -> right_answer b r e -> right_answer a r e.
Proof.
  intros K. destruct r; cbn; [| apply kept_no_solution, K | auto].
  intros [F Sv]. split; [exact F | apply (kept_solves a b _ K), Sv].
Qed.

Lemma answered_right root r e : answered root r e -> right_answer root r e.
Proof.
  destruct r; cbn; [| auto ..]. intros (R & [Pr Sb _] & F). split; [exact F |].
  set (a := fun x => lo_at e x). assert (D : in_dom e a).
  { intros x Hx. unfold a. pose proof (dom_ne e x (pi_ok _ _ (rt_pinv e R)) Hx). lia. }
  apply (props_solves e root a (same_props_sym _ _ Pr)); [| apply (sub_in_dom _ _ _ Sb), D].
  apply quiet_solution; auto; apply R.
Qed.

(** The loop from a context at rest. *)
Lemma loop_answers c max_depth (h : Picks) l : picks_ok h -> resting c -> mask_right c -> (effort c < turns)%nat ->
  decision_level c <= max_depth -> max_depth + 1 < 2 ^ 32 -> 0 <= l < 2 ^ 32 ->
  exists n r why s, right_answer c r (state s) /\ forall fuel, (n <= fuel)%nat ->
    search_loop turns late opts fuel (decision_level c) max_depth
      (Deciding (mk_search c ∅ h 0 0 0 1 l)) = Some (r, why, s).
Proof.
  intros Pk R Mk Lt Ld Sh Hl. destruct (nested_start c R) as [snap N]. destruct (level_next c R) as [L0 _].
  set (s0 := mk_search c ∅ h 0 0 0 1 l).
  assert (G : good_next c (decision_level c) opts max_depth (Deciding s0)).
  { split; [| split; [exact Ld |]].
    - exists snap. split; [exact N |]. split; [constructor; cbn [s0 state]; lia |]. split; [exact R |]. split; [exact Mk |].
      split; [| intros a Sv; left; apply Sv]. constructor; [apply same_props_refl | | reflexivity].
      apply vars_sub; [apply (pi_ok _ _ (rt_pinv c R)) | reflexivity].
    - constructor; cbn; try lia; [| exact Pk]. unfold restarts_of. repeat case_match; lia. }
  set (n := Z.to_nat (measure opts max_depth (Deciding s0) + 1)).
  destruct (loop_good c (decision_level c) L0 turns Lt late opts max_depth Sh few_restarts n _ G ltac:(subst n; lia))
    as (r & why & s & E & A).
  exists n, r, why, s. split; [apply answered_right, A |]. intros fuel Hf.
  replace fuel with (n + (fuel - n))%nat by lia. apply loop_more, E.
Qed.

Lemma solve_core_right c (h : Picks) limited growable granted cap : picks_ok h -> running c -> pinv None c -> mask_right c ->
  decision_level c + 2 <= cap <= 0xFFFF -> decision_level c + MAX_DECISION_DEPTH + n_vars c + 2 < 2 ^ 32 ->
  (effort c < turns)%nat -> spans (vars c) + 1 < Z.of_nat rounds ->
  exists n r why s, right_answer c r (state s) /\ forall fuel, (n <= fuel)%nat ->
    solver_solve_core turns rounds late opts fuel limited growable granted cap h c = Some (r, why, s).
Proof.
  intros Pk Rn P Mk Hc Hn Lt Hr. unfold solver_solve_core. change (luby 1) with (Some 1). cbn iota.
  destruct (begin_facts limited c Rn P) as (Rn0 & P0 & K0 & Ab0 & L0). set (c0 := begin_solve limited c) in *.
  assert (Sp0 : vars c0 = vars c) by reflexivity.
  destruct (propagated turns c0 Rn0 P0 Lt) as (r & c1 & E & Rd & En). rewrite E.
  destruct (run_running c0 c1 Rn0 Rd) as [Rn1 Sc1]. destruct r; [| | elim En].
  2: { destruct (prop_aborted c1) eqn:Ab; (eexists 0%nat, _, _, _; split; [| intros; reflexivity]); [exact Logic.I |].
       destruct En as [[X _] | No]; [congruence | exact (kept_no_solution c c0 K0 No)]. }
  destruct (propagate_rests turns c0 c1 Rn0 P0 ltac:(lia) E) as (R1 & K1 & L1).
  assert (Mk1 : mask_right c1) by (apply (propagate_right turns c0 c1 Rn0 P0 (view_right c c0 eq_refl Mk) E)).
  pose proof (pi_ok _ _ (rt_pinv c1 R1)) as Ok1. rewrite (no_empty_domain c1 Ok1).
  pose proof (sub_spans c0 c1 (sc_vars _ _ Sc1) (kp_sub _ _ K1)) as Sp1.
  pose proof (effort_mono c0 c1 (kp_props _ _ K1) Sp1) as Ef1. destruct (level_next c1 R1) as [Lv1 _].
  pose proof (sc_vars _ _ Sc1 : n_vars c1 = n_vars c) as Nv1.
  pose proof (depth_bounds growable granted cap c1 Lv1 ltac:(rewrite L1, L0; exact Hc) ltac:(rewrite L1, L0, Nv1; exact Hn)) as Db.
  destruct (depth_limit growable granted cap c1) as [cap' max_depth]. destruct Db as [Db Cb].
  set (c2 := seal c1). pose proof (seal_resting c1 R1) as R2. change (decision_level c1) with (decision_level c2).
  assert (K2 : kept c c2) by (apply (kept_trans c c0); [exact K0 | exact (kept_trans c0 c1 c2 K1 (vars_kept c1 c2 Ok1 eq_refl (same_props_refl c1)))]).
  assert (Ef2 : (effort c2 < turns)%nat) by (change (effort c2) with (effort c1); change (effort c0) with (effort c) in Ef1; lia).
  assert (Sp2 : spans (vars c2) + 1 < Z.of_nat rounds) by (change (vars c2) with (vars c1); rewrite Sp0 in Sp1; lia).
  fold (before_loop turns rounds opts c2).
  destruct (before_loop_spec turns rounds opts c2 R2 Ef2 Sp2)
    as (r & c3 & -> & X).
  destruct ((0 <? shave_iters_of opts) && prop_aborted c3) eqn:Ab;
    [eexists 0%nat, _, _, _; split; [| intros; reflexivity]; exact Logic.I |].
  destruct r; [| | elim X].
  2: { eexists 0%nat, _, _, _; split; [| intros; reflexivity]. destruct X as [Sh [No | [X _]]];
         [exact (kept_no_solution c c2 K2 No) | lia]. }
  destruct X as (R3 & K3 & Sp3 & L3 & Mk3). rewrite <- L3.
  pose proof (effort_mono c2 c3 (kp_props _ _ K3) Sp3) as Ef3.
  destruct (loop_answers c3 max_depth h (if 0 <? conflicts_of opts then u32 (1 * conflicts_of opts) else UINT32_MAX) Pk R3
    (Mk3 (view_right c1 c2 eq_refl Mk1)) ltac:(lia) ltac:(rewrite L3; exact (proj1 Db)) ltac:(lia)) as (n & r & why & s & A & F).
  { case_match; [apply u32_range | unfold UINT32_MAX; lia]. }
  exists n, r, why, s. split; [| exact F]. apply (right_kept c c2), (right_kept c2 c3); assumption.
Qed.

(** More steps do not change an answer. *)
Lemma solve_core_more fuel k limited growable granted cap (h : Picks) c x :
  solver_solve_core turns rounds late opts fuel limited growable granted cap h c = Some x ->
  solver_solve_core turns rounds late opts (fuel + k) limited growable granted cap h c = Some x.
Proof.
  unfold solver_solve_core. destruct (luby 1); [| discriminate].
  destruct (solver_propagate _ _) as [[[] c1] |]; try exact id.
  all: destruct (empty_domain c1); try exact id; destruct (depth_limit _ _ _ _) as [cap' md];
    destruct (if 0 <? shave_iters_of opts then _ else _) as [[[] c2] |]; try exact id;
    destruct (_ && _); try exact id; apply loop_more.
Qed.
End Core.
End Solve.
