(* ===== verification/Rand.v ===== *)
(** * Rand: the random numbers of the search
    (src/src/c/dvs_search.c, [_rand64], [_rand_range64], [_seed_mix64])

    A 64-bit xorshift whose state is finalised into the draw.  The file shows
    that distinct seeds start distinct sequences, that the state never becomes 0,
    where the generator would stick, that no two states give the same draw, and
    that a draw from a range of bounds lies in that range in the order of the
    variable, signed or not. *)

From Stdlib Require Import ZArith Znumtheory Lia ZifyBool Bool.
From S2P Require Import Prelude Vars.
Import Vars.
Open Scope Z_scope.
Local Open Scope word_scope.

Module Rand.

(** ** The generator *)

Definition RNG_START : Z := 0xDEADBEEF12345678.

(** The three shifts of the state. *)
Definition xorshift (x : Z) : Z :=
  let x := x ^w (x <<w 13) in
  let x := x ^w (x >>w 7) in
  x ^w (x <<w 17).
(** The SplitMix64 finalizer. *)
Definition finalize (x : Z) : Z :=
  let x := (x ^w (x >>w 30)) *w 0xBF58476D1CE4E5B9 in
  let x := (x ^w (x >>w 27)) *w 0x94D049BB133111EB in
  x ^w (x >>w 31).

(** The draw and the new [ctx->rng_state]. *)
Definition rand64 (rng : Z) : Z * Z :=
  let x := xorshift (if rng =? 0 then RNG_START else rng) in (finalize x, x).

Definition rand_range64 (rng lo hi : Z) : Z * Z :=
  let span := (u64 hi -w u64 lo) +w 1 in
  let '(r, rng) := rand64 rng in
  (if span =? 0 then s64 r else s64 (u64 lo +w r mod span), rng).

Definition seed_mix64 (z : Z) : Z := finalize (z +w 0x9E3779B97F4A7C15).

(** ** Words *)

Lemma u64_fits z : fits 64 z -> u64 z = z.
Proof. apply Z.mod_small. Qed.

Lemma fits_xor x y : fits 64 x -> fits 64 y -> fits 64 (x ^w y).
Proof.
  intros Fx Fy. rewrite <- (u64_fits x Fx), <- (u64_fits y Fy).
  replace (u64 x ^w u64 y) with (u64 (x ^w y)); [apply fits_u64 |]. apply Z.bits_inj'. intros i Hi.
  rewrite Z.lxor_spec, !u64_spec, Z.lxor_spec by exact Hi. destruct (i <? 64); reflexivity.
Qed.

Lemma fits_shiftr x k : fits 64 x -> 0 <= k -> fits 64 (x >>w k).
Proof.
  intros [L H] Hk. unfold fits in *. rewrite Z.shiftr_div_pow2 by exact Hk. pose proof (pow2_pos k Hk). split.
  - apply Z.div_pos; lia.
  - apply Z.div_lt_upper_bound; [lia |]. nia.
Qed.

(** ** Every step is injective *)

Definition injective (f : Z -> Z) : Prop := forall x y, fits 64 x -> fits 64 y -> f x = f y -> x = y.

Lemma injective_after f g : injective f -> injective g -> (forall x, fits 64 x -> fits 64 (f x)) ->
  injective (fun x => g (f x)).
Proof. intros If Ig Wf x y Fx Fy E. apply If; auto. Qed.

(** From the top bit down. *)
Lemma xor_right_injective k : 0 < k -> injective (fun x => x ^w (x >>w k)).
Proof.
  intros Hk x y Fx Fy E. apply Z.bits_inj'.
  assert (B : forall n i, 0 <= i -> 64 <= i + Z.of_nat n -> Z.testbit x i = Z.testbit y i).
  { induction n as [| n IH]; intros i Hi Hn; [rewrite !(fits_high 64) by (auto; lia); reflexivity |].
    apply (f_equal (fun z => Z.testbit z i)) in E. rewrite !Z.lxor_spec, !Z.shiftr_spec in E by exact Hi.
    rewrite (IH (i + k)) in E by lia. destruct (Z.testbit x i), (Z.testbit y i), (Z.testbit y (i + k)); auto. }
  intros i Hi. apply (B 64%nat); lia.
Qed.

(** From the low bit up. *)
Lemma xor_left_injective k : 0 < k -> injective (fun x => x ^w (x <<w k)).
Proof.
  intros Hk x y Fx Fy E. apply Z.bits_inj'.
  assert (B : forall n i, 0 <= i < Z.of_nat n -> Z.testbit x i = Z.testbit y i).
  { induction n as [| n IH]; intros i Hi; [lia |]. destruct (Z.ltb_spec i 64); [| rewrite !(fits_high 64) by (auto; lia); reflexivity].
    apply (f_equal (fun z => Z.testbit z i)) in E.
    rewrite !Z.lxor_spec, !u64_spec, !Z.shiftl_spec in E by lia.
    destruct (Z.ltb_spec i k).
    - rewrite !(Z.testbit_neg_r _ (i - k)) in E by lia. revert E. destruct (Z.ltb_spec i 64); [| lia]. cbn.
      rewrite !xorb_false_r. auto.
    - rewrite (IH (i - k)) in E by lia. destruct (Z.testbit x i), (Z.testbit y i), (i <? 64), (Z.testbit y (i - k)); auto. }
  intros i Hi. apply (B (Z.to_nat (i + 1))). lia.
Qed.

(** Multiplication by an odd constant, whose inverse is at hand. *)
Lemma mul_injective c d : u64 (c * d) = 1 -> injective (fun x => x *w c).
Proof.
  intros I x y Fx Fy E. apply (f_equal (fun z => u64 (z * d))) in E. unfold u64 in *.
  rewrite !Z.mul_mod_idemp_l, <- !Z.mul_assoc in E by lia.
  rewrite <- (Z.mul_mod_idemp_r x), <- (Z.mul_mod_idemp_r y), I, !Z.mul_1_r in E by lia.
  rewrite !Z.mod_small in E by assumption. exact E.
Qed.

Lemma add_injective c : injective (fun x => x +w c).
Proof.
  intros x y Fx Fy E. apply (f_equal (fun z => u64 (z - c))) in E. unfold u64 in *.
  rewrite !Zminus_mod_idemp_l, !Z.add_simpl_r, !Z.mod_small in E by assumption. exact E.
Qed.

Lemma xor_right_fits k x : 0 <= k -> fits 64 x -> fits 64 (x ^w (x >>w k)).
Proof. intros Hk F. apply fits_xor; [exact F | apply fits_shiftr; assumption]. Qed.
Lemma xor_left_fits k x : fits 64 x -> fits 64 (x ^w (x <<w k)).
Proof. intros F. apply fits_xor; [exact F | apply fits_u64]. Qed.

Lemma finalize_fits x : fits 64 (finalize x).
Proof. apply xor_right_fits; [lia | apply fits_u64]. Qed.

Lemma finalize_injective : injective finalize.
Proof.
  apply (injective_after (fun x => (x ^w (x >>w 30)) *w 0xBF58476D1CE4E5B9)
    (fun x => let x := (x ^w (x >>w 27)) *w 0x94D049BB133111EB in x ^w (x >>w 31))); [| | intros; apply fits_u64].
  - apply (injective_after (fun x => x ^w (x >>w 30)) (fun x => x *w _)); [apply xor_right_injective; lia | |
      intros; apply xor_right_fits; [lia | assumption]].
    apply (mul_injective _ 0x96DE1B173F119089). reflexivity.
  - apply (injective_after (fun x => (x ^w (x >>w 27)) *w 0x94D049BB133111EB) (fun x => x ^w (x >>w 31)));
      [| apply xor_right_injective; lia | intros; apply fits_u64].
    apply (injective_after (fun x => x ^w (x >>w 27)) (fun x => x *w _)); [apply xor_right_injective; lia | |
      intros; apply xor_right_fits; [lia | assumption]].
    apply (mul_injective _ 0x319642B2D24D8EC3). reflexivity.
Qed.

Lemma xorshift_fits x : fits 64 x -> fits 64 (xorshift x).
Proof. intros F. apply xor_left_fits, xor_right_fits, xor_left_fits; [lia | exact F]. Qed.

Lemma xorshift_injective : injective xorshift.
Proof.
  apply (injective_after (fun x => x ^w (x <<w 13)) (fun x => let x := x ^w (x >>w 7) in x ^w (x <<w 17)));
    [apply xor_left_injective; lia | | intros; apply xor_left_fits; assumption].
  apply (injective_after (fun x => x ^w (x >>w 7)) (fun x => x ^w (x <<w 17)));
    [apply xor_right_injective; lia | apply xor_left_injective; lia | intros; apply xor_right_fits; [lia | assumption]].
Qed.

Lemma xorshift_nonzero x : fits 64 x -> x <> 0 -> xorshift x <> 0.
Proof. intros F N E. apply N, (xorshift_injective x 0 F); [unfold fits; lia | rewrite E; reflexivity]. Qed.

(** ** A draw *)

Lemma rand64_fits rng : fits 64 (fst (rand64 rng)).
Proof. apply finalize_fits. Qed.

Lemma rand_range64_in v rng lo hi : int64 lo -> int64 hi -> bval v lo <= bval v hi ->
  let r := fst (rand_range64 rng lo hi) in int64 r /\ bval v lo <= bval v r <= bval v hi.
Proof.
  intros Il Ih Le. unfold rand_range64. pose proof (rand64_fits rng) as F. destruct (rand64 rng) as [x rng'].
  cbn [fst] in *. unfold fits in F.
  assert (Sp : (u64 hi -w u64 lo) +w 1 = u64 (bval v hi - bval v lo + 1)).
  { unfold u64 at 1 2. rewrite Zplus_mod_idemp_l. unfold bval. destruct (beyond v); [reflexivity |].
    unfold u64. rewrite <- Zplus_mod_idemp_l, <- Zminus_mod, Zplus_mod_idemp_l. reflexivity. }
  rewrite Sp. clear Sp.
  assert (R : 0 <= bval v hi - bval v lo < 2 ^ 64).
  { unfold bval, int64, u64 in *. destruct (beyond v); [| lia].
    pose proof (Z.mod_pos_bound lo (2 ^ 64)). pose proof (Z.mod_pos_bound hi (2 ^ 64)). lia. }
  (* a pattern congruent to the low bound plus an offset *)
  assert (Off : forall z d, u64 z = u64 (bval v lo + d) -> 0 <= d <= bval v hi - bval v lo ->
    int64 (s64 z) /\ bval v lo <= bval v (s64 z) <= bval v hi).
  { intros z d E Hd. split; [apply int64_s64 |]. unfold bval in *. destruct (beyond v).
    - rewrite u64_s64, E. unfold u64 in *.
      pose proof (Z.mod_pos_bound lo (2 ^ 64) ltac:(lia)). pose proof (Z.mod_pos_bound hi (2 ^ 64) ltac:(lia)).
      rewrite (Z.mod_small (_ + d)); lia.
    - replace (s64 z) with (lo + d); [lia |]. rewrite <- (s64_small (lo + d)) by (unfold int64 in *; lia).
      unfold s64, u64 in *. f_equal. rewrite <- Zplus_mod_idemp_l, <- E, Zplus_mod_idemp_l. reflexivity. }
  destruct (Z.eqb_spec (u64 (bval v hi - bval v lo + 1)) 0) as [Z0 | Nz].
  - assert (Fu : bval v hi - bval v lo = 2 ^ 64 - 1).
    { destruct (Z.eq_dec (bval v hi - bval v lo) (2 ^ 64 - 1)); [assumption |]. unfold u64 in Z0.
      rewrite Z.mod_small in Z0 by lia. lia. }
    apply (Off x (u64 (x - bval v lo))).
    + unfold u64. rewrite Zplus_mod_idemp_r. f_equal. lia.
    + rewrite Fu. pose proof (fits_u64 (x - bval v lo)). unfold fits in *. lia.
  - assert (Sm : u64 (bval v hi - bval v lo + 1) = bval v hi - bval v lo + 1).
    { destruct (Z.eq_dec (bval v hi - bval v lo) (2 ^ 64 - 1)) as [E | Ne]; [rewrite E in Nz; elim Nz; reflexivity |].
      unfold u64. apply Z.mod_small. lia. }
    rewrite Sm. pose proof (Z.mod_pos_bound x (bval v hi - bval v lo + 1) ltac:(lia)).
    apply (Off _ (x mod (bval v hi - bval v lo + 1))); [| lia].
    unfold u64. rewrite Zmod_mod. unfold bval. destruct (beyond v); [reflexivity |].
    unfold u64. rewrite Zplus_mod_idemp_l. reflexivity.
Qed.

(** C26: The random source.  Distinct 64-bit seeds are mixed to distinct states, and
    distinct nonzero states give distinct draws and go on to distinct states; a
    nonzero state never becomes 0. *)
Theorem rand_distinct a b : fits 64 a -> fits 64 b -> a <> b ->
  seed_mix64 a <> seed_mix64 b /\
  (a <> 0 -> b <> 0 -> fst (rand64 a) <> fst (rand64 b) /\ snd (rand64 a) <> snd (rand64 b)) /\
  snd (rand64 a) <> 0.
Proof.
  intros Fa Fb N. split; [| split].
  - intros E. apply N, (add_injective 0x9E3779B97F4A7C15); auto.
    apply finalize_injective; [apply fits_u64 | apply fits_u64 | exact E].
  - intros Na Nb. unfold rand64. rewrite (proj2 (Z.eqb_neq a 0) Na), (proj2 (Z.eqb_neq b 0) Nb). cbn [fst snd].
    assert (X : xorshift a <> xorshift b) by (intros E; apply N, xorshift_injective; assumption).
    split; [| exact X]. intros E. apply X, finalize_injective; auto using xorshift_fits.
  - cbn. apply xorshift_nonzero; destruct (Z.eqb_spec a 0); auto; unfold fits, RNG_START; lia.
Qed.

Lemma rand_distinct_witness : seed_mix64 1 <> seed_mix64 2 /\ fst (rand64 1) <> fst (rand64 2).
Proof.
  destruct (rand_distinct 1 2) as (S & R & _); [unfold fits; lia | unfold fits; lia | lia |].
  split; [exact S | apply R; lia].
Defined.
End Rand.
