(* ===== verification/Holes.v ===== *)
(** * Holes: the values excluded from a variable
    (src/src/c/dvs_search.c, [_is_hole] to [_solver_exclude_value], and
    [_pick_avoiding_holes])

    A variable's holes are a list of bound patterns, ascending as signed
    integers.  The file gives the list operations, the draw that avoids the
    holes, by trial and then by counting, and the exclusion of a value; a draw
    is never a hole as long as a value is left, and stays in the domain even
    where the patterns are not in the order of the numbers.

    The entries live in the pool; here a variable's list is a [list Z], and
    [granted] says whether the pool gives room for an entry. *)

From Stdlib Require Import ZArith Lia ZifyBool Bool Sorted.
From stdpp Require Import base gmap list numbers.
From S2P Require Import Prelude Vars Ctx DynStack Trail GuardIx Store Wake Tighten Propagate Unassigned Rand.
Import Vars Ctx DynStack Trail GuardIx Store Wake Tighten Propagate Unassigned Rand.
Open Scope Z_scope.

Module Holes.

(** ** The list *)

Fixpoint is_hole (l : list Z) (value : Z) : bool :=
  match l with
  | [] => false
  | he :: l => if he =? value then true else if he >? value then false else is_hole l value
  end.

Fixpoint count_holes_from (count : Z) (l : list Z) (lo hi : Z) : Z :=
  match l with
  | [] => count
  | he :: l => if he >? hi then count else count_holes_from (if he >=? lo then u32 (count + 1) else count) l lo hi
  end.
Definition count_holes_in_range (l : list Z) (lo hi : Z) : Z := count_holes_from 0 l lo hi.

(** 0 and the new list, 1 if present, -1 if there is no room. *)
Fixpoint insert_hole (granted : bool) (l : list Z) (value : Z) : Z * list Z :=
  match l with
  | [] => if granted then (0, [value]) else (-1, [])
  | he :: l' =>
      if he =? value then (1, l)
      else if he >? value then (if granted then (0, value :: l) else (-1, l))
      else let '(r, l') := insert_hole granted l' value in (r, he :: l')
  end.

(** ** The draw *)

(** The rejection sampling. *)
Fixpoint try_draws (attempts : nat) (rng : Z) (l : list Z) (lo hi : Z) : option Z * Z :=
  match attempts with
  | O => (None, rng)
  | S attempts =>
      let '(v, rng) := rand_range64 rng lo hi in
      if negb (is_hole l v) then (Some v, rng) else try_draws attempts rng l lo hi
  end.

(** The [k]-th value from [cur] on that is not a hole. *)
Fixpoint kth_valid (l : list Z) (lo hi cur k : Z) : Z :=
  match l with
  | [] => s64 (cur + s64 k)
  | he :: l =>
      if he <? lo then kth_valid l lo hi cur k
      else if he >? hi then s64 (cur + s64 k)
      else
        let gap := u64 (he - cur) in
        if k <? gap then s64 (cur + s64 k) else kth_valid l lo hi (s64 (he + 1)) (u64 (k - gap))
  end.

Definition pick_avoiding_holes (rng : Z) (l : list Z) (candidate lo hi : Z) : Z * Z :=
  match l with
  | [] => (candidate, rng)
  | _ =>
      if negb (is_hole l candidate) then (candidate, rng) else
      match try_draws 32 rng l lo hi with
      | (Some v, rng) => (v, rng)
      | (None, rng) =>
          let n_total := u64 (u64 hi - u64 lo + 1) in
          let n_holes := count_holes_in_range l lo hi in
          if n_holes >=? n_total then (lo, rng)
          else
            let '(r, rng) := rand64 rng in
            (kth_valid l lo hi lo (r mod u64 (n_total - n_holes)), rng)
      end
  end.

(** ** What the list holds *)

Record hole_list (l : list Z) : Prop := {
  hl_sorted : StronglySorted Z.lt l;
  hl_values : Forall int64 l;
  hl_length : Z.of_nat (length l) < 2 ^ 32 }.

Lemma hole_list_tail h l : hole_list (h :: l) -> hole_list l /\ Forall (Z.lt h) l /\ int64 h.
Proof.
  intros [S V L]. apply StronglySorted_inv in S as [S Lt]. rewrite list.Forall_cons in V. destruct V as [Vh V].
  cbn in L. split; [constructor; auto; lia |]. split; assumption.
Qed.

Lemma above_all h l v : Forall (Z.lt h) l -> v <= h -> v ∉ l.
Proof. intros F Le Hin. rewrite list.Forall_forall in F. specialize (F v Hin). lia. Qed.

Lemma sorted_nodup l : StronglySorted Z.lt l -> NoDup l.
Proof. induction 1 as [| a l S IH F]; constructor; [apply (above_all a l a F); lia | exact IH]. Qed.

Lemma is_hole_spec l v : StronglySorted Z.lt l -> is_hole l v = true <-> v ∈ l.
Proof.
  induction 1 as [| h l S IH Lt]; cbn; [split; [discriminate | intros X; inversion X] |].
  rewrite elem_of_cons. destruct (Z.eqb_spec h v) as [-> | Ne]; [tauto |].
  rewrite Z.gtb_ltb. destruct (Z.ltb_spec v h) as [Lv | Ge].
  - split; [discriminate |]. intros [-> | Hin]; [lia |]. elim (above_all h l v Lt ltac:(lia) Hin).
  - rewrite IH. intuition congruence.
Qed.

Lemma not_hole l v : StronglySorted Z.lt l -> is_hole l v = false <-> v ∉ l.
Proof. intros S. rewrite <- (is_hole_spec l v S). destruct (is_hole l v); intuition congruence. Qed.

Definition in_range (lo hi : Z) (l : list Z) : list Z := filter (fun h => lo <= h <= hi) l.

Lemma in_range_le lo hi l : (length (in_range lo hi l) <= length l)%nat.
Proof. apply length_filter. Qed.
Lemma in_range_none lo hi l : (forall h, h ∈ l -> ~ (lo <= h <= hi)) -> in_range lo hi l = [].
Proof.
  intros N. induction l as [| h l IH]; [reflexivity |]. unfold in_range. rewrite filter_cons_False.
  - apply IH. intros x Hx. apply N. right. exact Hx.
  - apply N. left.
Qed.

Lemma count_from_spec lo hi l : forall count, hole_list l -> 0 <= count -> count + Z.of_nat (length l) < 2 ^ 32 ->
  count_holes_from count l lo hi = count + Z.of_nat (length (in_range lo hi l)).
Proof.
  induction l as [| h l IH]; intros count Hl Hc Lc; cbn [count_holes_from]; [cbn; lia |].
  destruct (hole_list_tail h l Hl) as (Ht & Lt & _). cbn [length] in Lc. rewrite Z.gtb_ltb, Z.geb_leb. unfold in_range.
  destruct (Z.ltb_spec hi h) as [Gt | Le].
  - fold (in_range lo hi (h :: l)). rewrite in_range_none; [cbn; lia |].
    intros x Hx. apply elem_of_cons in Hx as [-> | Hx]; [lia |]. rewrite list.Forall_forall in Lt. specialize (Lt x Hx). lia.
  - destruct (Z.leb_spec lo h) as [Lo | Lo].
    + unfold u32. rewrite Z.mod_small by lia. rewrite IH by (auto; lia).
      rewrite filter_cons_True by lia. cbn [length]. unfold in_range. lia.
    + rewrite IH by (auto; lia). rewrite filter_cons_False by lia. reflexivity.
Qed.

Lemma count_holes_spec l lo hi : hole_list l ->
  count_holes_in_range l lo hi = Z.of_nat (length (in_range lo hi l)).
Proof. intros Hl. unfold count_holes_in_range. rewrite count_from_spec; auto; [lia | apply Hl]. Qed.

Lemma insert_hole_spec granted l v : hole_list l -> int64 v -> Z.of_nat (length l) + 1 < 2 ^ 32 ->
  let '(r, l') := insert_hole granted l v in
  (r = 1 -> v ∈ l) /\ (r = 0 -> granted = true /\ v ∉ l) /\
  (r = -1 -> granted = false /\ v ∉ l) /\ (r = 0 \/ r = 1 \/ r = -1) /\
  (r = -1 \/ r = 1 -> l' = l) /\
  (r = 0 -> hole_list l' /\ forall x, x ∈ l' <-> x = v \/ x ∈ l).
Proof.
  intros Hl Iv Ln. assert (Sp : forall h l r l', insert_hole granted l v = (r, l') ->
    Forall (Z.lt h) l -> h < v -> Forall (Z.lt h) l').
  { clear. intros h l. induction l as [| a l IH]; cbn; intros r l' E F Lt.
    - destruct granted; injection E as <- <-; auto.
    - rewrite list.Forall_cons in F. destruct F as [Fa F].
      repeat case_match; injection E as <- <-; rewrite ?list.Forall_cons; eauto. }
  induction l as [| h l IH]; cbn [insert_hole].
  { assert (Nv : v ∉ []) by (intros X; inversion X).
    destruct granted; repeat (split; [intros; auto; lia |]); [| lia]. intros _. split.
    - constructor; repeat constructor; apply Iv.
    - intros x. rewrite elem_of_cons. tauto. }
  destruct (hole_list_tail h l Hl) as (Ht & Lt & Ih).
  destruct (Z.eqb_spec h v) as [-> | Ne].
  { split; [intros _; left |]. repeat (split; [intros; auto; lia |]). lia. }
  assert (Len : Z.of_nat (length (h :: l)) + 1 < 2 ^ 32) by exact Ln. cbn [length] in Len.
  rewrite Z.gtb_ltb. destruct (Z.ltb_spec v h) as [Lv | Ge].
  - assert (Nv : v ∉ h :: l).
    { rewrite not_elem_of_cons. split; [lia | apply (above_all h); [exact Lt | lia]]. }
    destruct granted; [| repeat (split; [intros; auto; lia |]); lia].
    split; [lia |]. split; [auto |]. split; [lia |]. split; [auto |]. split; [lia |]. intros _.
    split; [constructor | intros x; rewrite elem_of_cons; tauto].
    + constructor; [apply Hl |]. rewrite list.Forall_cons. split; [exact Lv |].
      apply (list.Forall_impl _ _ _ Lt). intros x. cbn. lia.
    + constructor; [exact Iv | apply Hl].
    + cbn [length]. lia.
  - specialize (IH Ht ltac:(lia)). specialize (Sp h l). destruct (insert_hole granted l v) as [r l'].
    destruct IH as (I1 & I0 & Im & Ir & Is & Ii).
    assert (Nh : v <> h) by auto.
    split; [intros E; right; auto |]. split; [intros E; rewrite not_elem_of_cons; specialize (I0 E); tauto |].
    split; [intros E; rewrite not_elem_of_cons; specialize (Im E); tauto |]. split; [exact Ir |].
    split; [intros E; rewrite (Is E); reflexivity |]. intros E. destruct (Ii E) as [Hl' El].
    split; [| intros x; rewrite !elem_of_cons, El; tauto].
    constructor; [constructor; [apply Hl' | apply (Sp r l' eq_refl Lt); lia] | constructor; [exact Ih | apply Hl'] |].
    assert (length l' <= S (length l))%nat.
    { assert (incl l' (v :: l)).
      { intros x Hx. apply list_elem_of_In in Hx. apply El in Hx. rewrite <- list_elem_of_In, elem_of_cons. tauto. }
      apply (NoDup_incl_length (l := l') (l' := v :: l)); [| assumption].
      apply NoDup_ListNoDup, sorted_nodup, Hl'. }
    cbn [length]. lia.
Qed.

(** ** The draw avoids the holes *)

Lemma s64_same a b : u64 a = u64 b -> s64 a = s64 b.
Proof.
  unfold s64, u64. intros E. f_equal. rewrite <- Zplus_mod_idemp_l, E, Zplus_mod_idemp_l. reflexivity.
Qed.
Lemma u64_add_s64 a b : u64 (a + s64 b) = u64 (a + b).
Proof.
  unfold u64. rewrite <- Zplus_mod_idemp_r. change (s64 b mod 2 ^ 64) with (u64 (s64 b)). rewrite u64_s64.
  unfold u64. apply Zplus_mod_idemp_r.
Qed.

Lemma kth_valid_spec l lo hi : hole_list l -> int64 lo -> int64 hi -> forall cur k,
  lo <= cur -> cur + k + Z.of_nat (length (in_range lo hi l)) <= hi -> 0 <= k < 2 ^ 64 ->
  hi - cur < 2 ^ 64 -> int64 cur -> (forall h, h ∈ l -> lo <= h <= hi -> cur <= h) ->
  let r := kth_valid l lo hi cur k in cur <= r <= hi /\ r ∉ l.
Proof.
  intros Hl Il Ih. assert (End : forall cur k, int64 cur -> 0 <= k < 2 ^ 64 -> cur + k <= hi -> s64 (cur + s64 k) = cur + k).
  { intros cur k Ic Hk Le. rewrite (s64_same (cur + s64 k) (cur + k)) by apply u64_add_s64.
    apply s64_small. unfold int64 in *. lia. }
  induction l as [| h l IH]; intros cur k Lo Hi Hk Hs Ic Ab; cbn [kth_valid].
  { cbn in Hi. rewrite End by (auto; lia). split; [lia | intros X; inversion X]. }
  destruct (hole_list_tail h l Hl) as (Ht & Lt & Ihh). unfold in_range in Hi.
  destruct (Z.ltb_spec h lo) as [Ll | Ge].
  { rewrite filter_cons_False in Hi by lia.
    destruct (IH Ht cur k Lo Hi Hk Hs Ic ltac:(intros x Hx; apply Ab; right; exact Hx)) as [R N].
    split; [exact R | rewrite not_elem_of_cons; split; [lia | exact N]]. }
  rewrite Z.gtb_ltb. destruct (Z.ltb_spec hi h) as [Gt | Le].
  { rewrite End by (auto; lia). split; [lia |]. rewrite not_elem_of_cons. split; [lia | apply (above_all h); [exact Lt | lia]]. }
  pose proof (Ab h ltac:(left) ltac:(lia)) as Ch. rewrite filter_cons_True in Hi by lia. cbn [length] in Hi.
  rewrite (u64_fits (h - cur)) by (unfold fits; lia). destruct (Z.ltb_spec k (h - cur)) as [Lk | Gk].
  { rewrite End by (auto; lia). split; [lia |]. rewrite not_elem_of_cons.
    split; [lia | apply (above_all h); [exact Lt | lia]]. }
  rewrite (u64_fits (k - _)) by (unfold fits; lia). rewrite s64_small by (unfold int64 in *; lia).
  destruct (IH Ht (h + 1) (k - (h - cur)) ltac:(lia) ltac:(unfold in_range; lia) ltac:(lia) ltac:(lia)) as [R N].
  - unfold int64 in *. lia.
  - intros x Hx _. rewrite list.Forall_forall in Lt. specialize (Lt x Hx). lia.
  - split; [lia |]. rewrite not_elem_of_cons. split; [lia | exact N].
Qed.

Lemma kth_valid_crossing l lo hi cur k : hi < lo -> kth_valid l lo hi cur k = s64 (cur + s64 k).
Proof.
  intros Gt. induction l as [| h l IH]; [reflexivity |]. cbn [kth_valid]. rewrite IH, Z.gtb_ltb.
  destruct (Z.ltb_spec h lo); [reflexivity |]. destruct (Z.ltb_spec hi h); [reflexivity | lia].
Qed.

Lemma try_draws_spec v l lo hi n : int64 lo -> int64 hi -> bval v lo <= bval v hi -> forall rng,
  match try_draws n rng l lo hi with
  | (Some x, _) => is_hole l x = false /\ int64 x /\ bval v lo <= bval v x <= bval v hi
  | (None, _) => True
  end.
Proof.
  intros Il Ih Le. induction n as [| n IH]; intros rng; cbn [try_draws]; [exact Logic.I |].
  pose proof (rand_range64_in v rng lo hi Il Ih Le) as R. destruct (rand_range64 rng lo hi) as [x rng']. cbn [fst] in R.
  destruct (is_hole l x) eqn:E; cbn [negb]; [apply IH | auto].
Qed.

(** Patterns in signed order are the numbers in order. *)
Lemma bval_between v lo hi x : int64 lo -> int64 hi -> lo <= hi -> bval v lo <= bval v hi -> lo <= x <= hi ->
  bval v lo <= bval v x <= bval v hi.
Proof.
  unfold bval, int64, u64. intros Il Ih Le. destruct (beyond v); [| lia]. intros Lm Hx.
  assert (M : forall z, - 2 ^ 63 <= z < 2 ^ 63 -> z mod 2 ^ 64 = if z <? 0 then z + 2 ^ 64 else z).
  { intros z Hz. destruct (Z.ltb_spec z 0); [symmetry; apply (Z.mod_unique_pos _ _ (-1)); lia | apply Z.mod_small; lia]. }
  rewrite !M in * by lia. destruct (Z.ltb_spec lo 0), (Z.ltb_spec hi 0), (Z.ltb_spec x 0); lia.
Qed.

Lemma pick_in v rng l candidate lo hi : hole_list l -> int64 lo -> int64 hi -> int64 candidate ->
  bval v lo <= bval v candidate <= bval v hi ->
  let r := fst (pick_avoiding_holes rng l candidate lo hi) in int64 r /\ bval v lo <= bval v r <= bval v hi.
Proof.
  intros Hl Il Ih Ic Rc. unfold pick_avoiding_holes. destruct l as [| h l]; [auto |]. set (hs := h :: l) in *.
  destruct (is_hole hs candidate); cbn [negb]; [| auto].
  pose proof (try_draws_spec v hs lo hi 32 Il Ih ltac:(lia) rng) as T.
  destruct (try_draws 32 rng hs lo hi) as [[x |] rng1]; [cbn; tauto |]. clear T. rewrite Z.geb_leb.
  set (n_total := u64 (u64 hi - u64 lo + 1)). rewrite (count_holes_spec hs lo hi Hl).
  destruct (Z.leb_spec n_total (Z.of_nat (length (in_range lo hi hs)))) as [_ | Room]; [cbn; split; [exact Il | lia] |].
  destruct (rand64 rng1) as [y rng2]. cbn [fst].
  assert (Fn : fits 64 n_total) by apply fits_u64. unfold fits in Fn.
  rewrite (u64_fits (n_total - _)) by (unfold fits; lia).
  pose proof (Z.mod_pos_bound y (n_total - Z.of_nat (length (in_range lo hi hs))) ltac:(lia)) as Hk.
  set (k := y mod _) in *.
  destruct (Z.leb_spec lo hi) as [Le | Gt].
  - assert (En : n_total = hi - lo + 1).
    { unfold n_total, u64. rewrite <- Zplus_mod_idemp_l, <- Zminus_mod, Zplus_mod_idemp_l.
      destruct (Z.eq_dec (hi - lo) (2 ^ 64 - 1)) as [E | Ne].
      - assert (n_total = 0); [| lia].
        unfold n_total, u64. rewrite <- Zplus_mod_idemp_l, <- Zminus_mod, Zplus_mod_idemp_l, E. reflexivity.
      - apply Z.mod_small. unfold int64 in *. lia. }
    destruct (kth_valid_spec hs lo hi Hl Il Ih lo k) as [R _]; [lia | lia | lia | unfold int64 in *; lia | exact Il | intros; lia |].
    split; [unfold int64 in *; lia | apply bval_between; auto; lia].
  - (* an unsigned domain across 2^63: no pattern is between the two *)
    rewrite kth_valid_crossing by exact Gt. split; [apply int64_s64 |]. rewrite in_range_none in Hk by (intros; lia). cbn [length] in Hk.
    unfold bval in *. destruct (beyond v); [| lia]. rewrite u64_s64.
    rewrite u64_add_s64. unfold u64 in *. rewrite <- (Zplus_mod_idemp_l lo k).
    pose proof (Z.mod_pos_bound lo (2 ^ 64) ltac:(lia)). pose proof (Z.mod_pos_bound hi (2 ^ 64) ltac:(lia)).
    assert (n_total <= hi mod 2 ^ 64 - lo mod 2 ^ 64 + 1) by (unfold n_total, u64; apply Z.mod_le; lia).
    rewrite (Z.mod_small (_ + k)) by lia. lia.
Qed.

(** C23: Drawing around the holes.  From an ascending list of holes and a candidate
    of the domain, the draw never leaves the domain, in the variable's own order;
    and where the bounds are in signed order, are not the two ends of the 64-bit
    numbers ([hi - lo < 2^64 - 1]) and have a value left between them, the draw is not
    a hole. *)
Theorem holes_avoided v rng l candidate lo hi : hole_list l -> int64 lo -> int64 hi -> int64 candidate ->
  bval v lo <= bval v candidate <= bval v hi ->
  let r := fst (pick_avoiding_holes rng l candidate lo hi) in
  bval v lo <= bval v r <= bval v hi /\
  (lo <= hi -> hi - lo < 2 ^ 64 - 1 -> (exists x, lo <= x <= hi /\ x ∉ l) -> r ∉ l).
Proof.
  intros Hl Il Ih Ic Rc r. destruct (pick_in v rng l candidate lo hi Hl Il Ih Ic Rc) as [_ R]. split; [exact R |].
  intros Le Sp (x & Hx & Nx). subst r. unfold pick_avoiding_holes. clear R.
  destruct l as [| h l]; [intros X; inversion X |]. set (hs := h :: l) in *.
  destruct (is_hole hs candidate) eqn:E; cbn [negb]; [| apply (not_hole hs); [apply Hl | exact E]].
  pose proof (try_draws_spec v hs lo hi 32 Il Ih ltac:(lia) rng) as T.
  destruct (try_draws 32 rng hs lo hi) as [[y |] rng1]; [apply (not_hole hs); [apply Hl | apply T] |]. clear T.
  rewrite Z.geb_leb, (count_holes_spec hs lo hi Hl).
  assert (En : u64 (u64 hi - u64 lo + 1) = hi - lo + 1).
  { unfold u64. rewrite <- Zplus_mod_idemp_l, <- Zminus_mod, Zplus_mod_idemp_l. apply Z.mod_small. lia. }
  rewrite En. clear En.
  assert (Cn : Z.of_nat (length (in_range lo hi hs)) < hi - lo + 1).
  { assert (Nd : NoDup (x :: in_range lo hi hs)).
    { constructor; [intros Hin; apply list_elem_of_filter in Hin; tauto |]. apply list.NoDup_filter, sorted_nodup, Hl. }
    assert (Inc : x :: in_range lo hi hs ⊆+ seqZ lo (hi - lo + 1)).
    { apply NoDup_submseteq; [exact Nd |]. intros y Hy. apply elem_of_seqZ.
      apply elem_of_cons in Hy as [-> | Hy]; [lia |]. apply list_elem_of_filter in Hy. lia. }
    apply submseteq_length in Inc. rewrite length_seqZ in Inc. cbn [length] in Inc. lia. }
  destruct (Z.leb_spec (hi - lo + 1) (Z.of_nat (length (in_range lo hi hs)))); [lia |].
  destruct (rand64 rng1) as [y rng2]. cbn [fst]. rewrite (u64_fits (_ - _)) by (unfold fits; lia).
  pose proof (Z.mod_pos_bound y (hi - lo + 1 - Z.of_nat (length (in_range lo hi hs))) ltac:(lia)).
  apply kth_valid_spec; auto; try lia.
Qed.

Lemma seqZ_holes n : forall m, int64 m -> int64 (m + Z.of_nat n) -> Z.of_nat n < 2 ^ 32 -> hole_list (seqZ m (Z.of_nat n)).
Proof.
  intros m Im In Ln. constructor.
  - clear Im In Ln. revert m. induction n as [| n IH]; intros m; [constructor |].
    rewrite seqZ_cons by lia. replace (Z.pred (Z.of_nat (S n))) with (Z.of_nat n) by lia. constructor; [apply IH |].
    apply list.Forall_forall. intros x Hx. apply elem_of_seqZ in Hx. lia.
  - apply list.Forall_forall. intros x Hx. apply elem_of_seqZ in Hx. unfold int64 in *. lia.
  - rewrite length_seqZ. lia.
Qed.

Lemma holes_avoided_witness : let l := seqZ 1 254 in
  is_hole l (fst (pick_avoiding_holes 5 l 7 0 255)) = false /\ fst (pick_avoiding_holes 5 l 7 0 255) ∉ l.
Proof.
  split; [vm_compute; reflexivity |].
  apply (holes_avoided (mk_var 0 255 0 0 8 0) 5 (seqZ 1 254) 7 0 255); try (vm_compute; repeat split; congruence).
  - apply (seqZ_holes 254); vm_compute; repeat split; congruence.
  - exists 0. split; [lia |]. rewrite elem_of_seqZ. lia.
Defined.

(** Between the two ends [n_total] wraps to 0, and once the 32 draws have failed the
    code takes the domain for full of holes: it returns [lo], a hole here, where
    0 and nearly every other value are left. *)
Fixpoint draws (n : nat) (rng lo hi : Z) : list Z :=
  match n with
  | O => []
  | S n => let '(v, rng) := rand_range64 rng lo hi in v :: draws n rng lo hi
  end.
Definition drawn_holes : list Z :=
  fold_right (fun v l => snd (insert_hole true l v)) [] (- 2 ^ 63 :: draws 32 5 (- 2 ^ 63) (2 ^ 63 - 1)).

Lemma insert_hole_length granted l v : (length (snd (insert_hole granted l v)) <= Datatypes.S (length l))%nat.
Proof.
  induction l as [| h l IH]; cbn [insert_hole]; [destruct granted; cbn; lia |].
  destruct (insert_hole granted l v) as [r l']. cbn [snd] in IH. repeat case_match; cbn in *; lia.
Qed.
Lemma inserted_hole_list vs : Forall int64 vs -> Z.of_nat (length vs) < 2 ^ 32 ->
  let l := fold_right (fun v l => snd (insert_hole true l v)) [] vs in hole_list l /\ (length l <= length vs)%nat.
Proof.
  induction vs as [| v vs IH]; cbn; intros Iv Ln; [split; [constructor; repeat constructor | lia] |].
  rewrite list.Forall_cons in Iv. destruct Iv as [Iv Ivs]. destruct (IH Ivs ltac:(lia)) as [Hl Le]. clear IH.
  set (l := fold_right _ [] vs) in *. pose proof (insert_hole_length true l v) as Len.
  pose proof (insert_hole_spec true l v Hl Iv ltac:(lia)) as Sp.
  destruct (insert_hole true l v) as [r l'] eqn:E. destruct Sp as (_ & _ & _ & Or & Same & New). cbn [snd] in *.
  split; [| lia]. destruct Or as [-> | Or]; [apply New; reflexivity | rewrite Same by tauto; exact Hl].
Qed.
Lemma drawn_hole_list : hole_list drawn_holes.
Proof.
  apply inserted_hole_list; [| vm_compute; reflexivity].
  apply (bool_decide_unpack (Forall (fun z => - 2 ^ 63 <= z < 2 ^ 63) _)). vm_compute. exact Logic.I.
Qed.

Lemma full_range_draws_hole : let lo := - 2 ^ 63 in let hi := 2 ^ 63 - 1 in
  hole_list drawn_holes /\ fst (pick_avoiding_holes 5 drawn_holes lo lo hi) = lo /\ lo ∈ drawn_holes /\ 0 ∉ drawn_holes.
Proof.
  cbv zeta. split; [exact drawn_hole_list |]. split; [vm_compute; reflexivity |].
  split; [apply is_hole_spec | apply not_hole]; try apply drawn_hole_list; vm_compute; reflexivity.
Qed.

(** ** Excluding a value *)

(** [while (new_lo <= hi && _is_hole(ctx, var_id, new_lo)) new_lo++;] and its
    mirror image; one turn for each entry is enough. *)
Fixpoint skip_up (fuel : nat) (l : list Z) (hi x : Z) : Z :=
  match fuel with
  | O => x
  | S fuel => if (x <=? hi) && is_hole l x then skip_up fuel l hi (s64 (x + 1)) else x
  end.
Fixpoint skip_down (fuel : nat) (l : list Z) (lo x : Z) : Z :=
  match fuel with
  | O => x
  | S fuel => if (lo <=? x) && is_hole l x then skip_down fuel l lo (s64 (x - 1)) else x
  end.

Section Exclude.
Context {T M S : Type} `{DynStack M S} `{Env}.
Implicit Types c : ctx T M S.

(** [_solver_exclude_value] of a variable that stands for itself: the result, its
    holes and the context.  [initial] is its entry of [ctx->initial_vars]. *)
Definition solver_exclude_value (granted : bool) (initial : option variable) (l : list Z) c (x value : Z) :
    Z * list Z * ctx T M S :=
  if negb (x <? n_vars c) then (-1, l, c) else
  if is_hole l value then (0, l, c) else
  let dv := match initial with Some v => v | None => var c x end in
  let init_lo := var_lo64 dv in
  let init_hi := var_hi64 dv in
  if (value <? init_lo) || (value >? init_hi) then (0, l, c) else
  let n_holes := count_holes_in_range l init_lo init_hi in
  let domain_size := u64 (s64 (init_hi - init_lo) + 1) in
  if u32 (n_holes + 1) >=? domain_size then (-1, l, c) else
  let '(ir, l) := insert_hole granted l value in
  if ir <? 0 then (-1, l, c) else
  let lo := var_lo64 (var c x) in
  let hi := var_hi64 (var c x) in
  let fuel := Datatypes.S (length l) in
  let c :=
    if (lo <=? value) && (value <=? hi) then
      if value =? lo then
        let new_lo := skip_up fuel l hi (s64 (lo + 1)) in
        if new_lo <=? hi then snd (ctx_tighten_lb64 c x new_lo) else c
      else if value =? hi then
        let new_hi := skip_down fuel l lo (s64 (hi - 1)) in
        if lo <=? new_hi then snd (ctx_tighten_ub64 c x new_hi) else c
      else c
    else c in
  (0, l, c).
End Exclude.

(** What the skipping reaches. *)
Lemma in_range_cut lo mid hi l : lo <= mid + 1 -> mid <= hi ->
  (length (in_range lo hi l) = length (in_range lo mid l) + length (in_range (mid + 1) hi l))%nat.
Proof.
  intros L1 L2. unfold in_range. induction l as [| a l IH]; [reflexivity |].
  rewrite !filter_cons. repeat case_decide; cbn [length]; lia.
Qed.
Lemma in_range_one x l : x ∈ l -> (1 <= length (in_range x x l))%nat.
Proof.
  intros Hx. assert (In : x ∈ in_range x x l) by (apply list_elem_of_filter; split; [lia | exact Hx]).
  destruct (in_range x x l); [inversion In | cbn; lia].
Qed.

Lemma skip_up_spec l hi : StronglySorted Z.lt l -> hi < 2 ^ 63 - 1 -> forall n x, - 2 ^ 63 <= x <= hi + 1 ->
  (length (in_range x hi l) < n)%nat ->
  let y := skip_up n l hi x in x <= y <= hi + 1 /\ (forall z, x <= z < y -> z ∈ l) /\ (y <= hi -> y ∉ l).
Proof.
  intros S Hh. induction n as [| n IH]; intros x Hx Ln; [lia |]. cbn [skip_up].
  destruct (Z.leb_spec x hi) as [Le | Gt]; cbn [andb]; [| split; [lia |]; split; intros; lia].
  destruct (is_hole l x) eqn:E; [| split; [lia |]; split; [intros; lia |]; intros _; apply (not_hole l x S), E].
  apply (is_hole_spec l x S) in E. rewrite s64_small by (unfold int64; lia).
  pose proof (in_range_one x l E). pose proof (in_range_cut x x hi l ltac:(lia) Le).
  destruct (IH (x + 1) ltac:(lia) ltac:(lia)) as (R & I & N).
  split; [lia |]. split; [| exact N]. intros z Hz. destruct (Z.eq_dec z x) as [-> | Ne]; [exact E | apply I; lia].
Qed.
Lemma skip_down_spec l lo : StronglySorted Z.lt l -> - 2 ^ 63 < lo -> forall n x, lo - 1 <= x < 2 ^ 63 ->
  (length (in_range lo x l) < n)%nat ->
  let y := skip_down n l lo x in lo - 1 <= y <= x /\ (forall z, y < z <= x -> z ∈ l) /\ (lo <= y -> y ∉ l).
Proof.
  intros S Hh. induction n as [| n IH]; intros x Hx Ln; [lia |]. cbn [skip_down].
  destruct (Z.leb_spec lo x) as [Le | Gt]; cbn [andb]; [| split; [lia |]; split; intros; lia].
  destruct (is_hole l x) eqn:E; [| split; [lia |]; split; [intros; lia |]; intros _; apply (not_hole l x S), E].
  apply (is_hole_spec l x S) in E. rewrite s64_small by (unfold int64; lia).
  pose proof (in_range_one x l E). pose proof (in_range_cut lo (x - 1) x l ltac:(lia) ltac:(lia)) as Cut.
  replace (x - 1 + 1) with x in Cut by lia.
  destruct (IH (x - 1) ltac:(lia) ltac:(lia)) as (R & I & N).
  split; [lia |]. split; [| exact N]. intros z Hz. destruct (Z.eq_dec z x) as [-> | Ne]; [exact E | apply I; lia].
Qed.

(** Only one value of a range is not a hole. *)
Lemma all_but_one l lo hi v : StronglySorted Z.lt l -> lo <= v <= hi -> v ∉ l ->
  hi - lo + 1 <= Z.of_nat (length (in_range lo hi l)) + 1 -> forall y, lo <= y <= hi -> y <> v -> y ∈ l.
Proof.
  intros S Hv Nv Ln y Hy Ne. destruct (decide (y ∈ l)) as [? | Ny]; [assumption | exfalso].
  assert (In : y :: v :: in_range lo hi l ⊆+ seqZ lo (hi - lo + 1)).
  { apply NoDup_submseteq.
    - constructor; [rewrite not_elem_of_cons; split; [exact Ne |]; intros X; apply list_elem_of_filter in X; tauto |].
      constructor; [intros X; apply list_elem_of_filter in X; tauto |]. apply list.NoDup_filter, sorted_nodup, S.
    - intros z Hz. apply elem_of_seqZ. rewrite !elem_of_cons in Hz.
      destruct Hz as [-> | [-> | Hz]]; [lia | lia |]. apply list_elem_of_filter in Hz. lia. }
  apply submseteq_length in In. rewrite length_seqZ in In. cbn [length] in In. lia.
Qed.

Section Exact.
Context {T M S : Type} `{DynStackLaws M S} `{Env}.
Implicit Types c : ctx T M S.

(** A domain that loses a run of holes at one end. *)
Record trimmed c c' (x : Z) (l : list Z) : Prop := {
  tm_ok : st_ok c';
  tm_other : forall y, 0 <= y < n_vars c -> y <> x -> var c' y = var c y;
  tm_within : lo_at c x <= lo_at c' x /\ hi_at c' x <= hi_at c x;
  tm_kept : forall y, lo_at c x <= y <= hi_at c x -> y ∉ l -> lo_at c' x <= y <= hi_at c' x }.

Lemma trimmed_refl c x l : st_ok c -> trimmed c c x l.
Proof. intros K. constructor; auto. lia. Qed.

Lemma raise_trims c x l b : st_ok c -> 0 <= x < n_vars c -> int64 b -> lo_at c x <= bval (var c x) b <= hi_at c x ->
  (forall y, lo_at c x <= y < bval (var c x) b -> y ∈ l) -> trimmed c (snd (ctx_tighten_lb64 c x b)) x l /\
  lo_at (snd (ctx_tighten_lb64 c x b)) x = bval (var c x) b.
Proof.
  intros K Hx Ib Rb Hl. pose proof (raising_law c x _ _ K Hx (lb64_raising c x b K Hx Ib)) as L.
  destruct (ctx_tighten_lb64 c x b) as [[] c']; [| cbn in L; lia | destruct L].
  destruct L as [_ [K' _ O _ El Eh]]. cbn [snd]. split; [| lia]. constructor; [exact K' | exact O | lia |].
  intros y Hy Ny. rewrite El, Eh. destruct (Z.ltb_spec y (bval (var c x) b)); [| lia]. elim Ny. apply Hl. lia.
Qed.
Lemma lower_trims c x l b : st_ok c -> 0 <= x < n_vars c -> int64 b -> lo_at c x <= bval (var c x) b <= hi_at c x ->
  (forall y, bval (var c x) b < y <= hi_at c x -> y ∈ l) -> trimmed c (snd (ctx_tighten_ub64 c x b)) x l /\
  hi_at (snd (ctx_tighten_ub64 c x b)) x = bval (var c x) b.
Proof.
  intros K Hx Ib Rb Hl. pose proof (lowering_law c x _ _ K Hx (ub64_lowering c x b K Hx Ib)) as L.
  destruct (ctx_tighten_ub64 c x b) as [[] c']; [| cbn in L; lia | destruct L].
  destruct L as [_ [K' _ O _ El Eh]]. cbn [snd]. split; [| lia]. constructor; [exact K' | exact O | lia |].
  intros y Hy Ny. rewrite El, Eh. destruct (Z.ltb_spec (bval (var c x) b) y); [| lia]. elim Ny. apply Hl. lia.
Qed.

(** The tightening at a bound of the domain. *)
Definition trimmed_at c c' x l v : Prop := trimmed c c' x l /\
  (v = lo_at c x \/ v = hi_at c x -> (exists y, lo_at c x <= y <= hi_at c x /\ y ∉ l) -> ~ lo_at c' x <= v <= hi_at c' x).

Lemma trim_spec c x l v : hole_list l -> st_ok c -> 0 <= x < n_vars c -> beyond (var c x) = false ->
  - 2 ^ 63 < lo_at c x -> hi_at c x < 2 ^ 63 - 1 -> v ∈ l ->
  let lo := var_lo64 (var c x) in
  let hi := var_hi64 (var c x) in
  let fuel := Datatypes.S (length l) in
  let new_lo := skip_up fuel l hi (s64 (lo + 1)) in
  let new_hi := skip_down fuel l lo (s64 (hi - 1)) in
  trimmed_at c (if (lo <=? v) && (v <=? hi) then
      if v =? lo then if new_lo <=? hi then snd (ctx_tighten_lb64 c x new_lo) else c
      else if v =? hi then if lo <=? new_hi then snd (ctx_tighten_ub64 c x new_hi) else c
      else c
    else c) x l v.
Proof.
  intros Hl K Hx B Bl Bh Hv. pose proof (dom_ne c x K Hx) as Ne.
  assert (Vb : forall b, bval (var c x) b = b) by (intros b; unfold bval; rewrite B; reflexivity).
  assert (El : lo_at c x = var_lo64 (var c x)) by apply Vb. assert (Eh : hi_at c x = var_hi64 (var c x)) by apply Vb.
  rewrite El, Eh in *. cbv zeta. set (lo := var_lo64 (var c x)) in *. set (hi := var_hi64 (var c x)) in *.
  rewrite !s64_small by (unfold int64; lia). unfold trimmed_at. rewrite El, Eh.
  assert (Stay : trimmed c c x l) by (apply trimmed_refl; exact K).
  destruct (Z.leb_spec lo v) as [L1 | L1]; cbn [andb]; [| split; [exact Stay | rewrite El, Eh; lia]].
  destruct (Z.leb_spec v hi) as [L2 | L2]; [| split; [exact Stay | rewrite El, Eh; lia]].
  destruct (Z.eqb_spec v lo) as [-> | Nl]; [| destruct (Z.eqb_spec v hi) as [-> | Nh]; [| split; [exact Stay | lia]]].
  - destruct (skip_up_spec l hi (hl_sorted l Hl) Bh (Datatypes.S (length l)) (lo + 1) ltac:(lia)) as (R & I & _);
      [pose proof (in_range_le (lo + 1) hi l); lia |].
    set (new_lo := skip_up _ _ _ _) in *. destruct (Z.leb_spec new_lo hi) as [Le | Gt].
    + destruct (raise_trims c x l new_lo K Hx ltac:(unfold int64; lia)) as [Tm Lo]; rewrite ?Vb, ?El, ?Eh; [lia | |].
      { intros y Hy. destruct (Z.eq_dec y lo) as [-> | Ny]; [exact Hv | apply I; lia]. }
      rewrite Vb in Lo. split; [exact Tm | lia].
    + split; [exact Stay |]. intros _ (y & Hy & Ny). elim Ny.
      destruct (Z.eq_dec y lo) as [-> | Nl]; [exact Hv | apply I; lia].
  - destruct (skip_down_spec l lo (hl_sorted l Hl) Bl (Datatypes.S (length l)) (hi - 1) ltac:(lia)) as (R & I & _);
      [pose proof (in_range_le lo (hi - 1) l); lia |].
    set (new_hi := skip_down _ _ _ _) in *. destruct (Z.leb_spec lo new_hi) as [Le | Gt].
    + destruct (lower_trims c x l new_hi K Hx ltac:(unfold int64; lia)) as [Tm Lo]; rewrite ?Vb, ?El, ?Eh; [lia | |].
      { intros y Hy. destruct (Z.eq_dec y hi) as [-> | Ny]; [exact Hv | apply I; lia]. }
      rewrite Vb in Lo. split; [exact Tm | lia].
    + split; [exact Stay |]. intros _ (y & Hy & Ny). elim Ny.
      destruct (Z.eq_dec y hi) as [-> | Ny']; [exact Hv | apply I; lia].
Qed.

(** C24: Excluding a value.  For a variable whose bounds are in signed order, now and
    initially ([beyond] is false, and they keep off the ends of the 64-bit numbers),
    the exclusion of a value of the initial domain either fails, changing
    nothing, for want of room or because no other value would be left, or adds
    the value to the holes and to nothing else; the current domain loses only
    holes, and it loses the value where that was one of its bounds and another
    value is left.  A value outside the initial domain is left alone, the call
    reporting success. *)
Theorem exclude_exact granted initial l c x v : hole_list l -> Z.of_nat (length l) + 1 < 2 ^ 32 ->
  st_ok c -> 0 <= x < n_vars c -> int64 v -> beyond (var c x) = false -> - 2 ^ 63 < lo_at c x -> hi_at c x < 2 ^ 63 - 1 ->
  let dv := match initial with Some i => i | None => var c x end in
  good dv -> beyond dv = false -> hi_of dv < 2 ^ 63 - 1 ->
  let inside y := lo_of dv <= y <= hi_of dv in
  let '(r, l', c') := solver_exclude_value granted initial l c x v in
  r = -1 /\ l' = l /\ c' = c /\ inside v /\ (v ∉ l) /\ (granted = false \/ forall y, inside y -> y <> v -> y ∈ l) \/
  r = 0 /\ hole_list l' /\ (forall y, y ∈ l' <-> (y ∈ l \/ y = v /\ inside v)) /\
    trimmed c c' x l' /\ (v ∉ l -> inside v -> trimmed_at c c' x l' v).
Proof.
  intros Hl Ln K Hx Iv B Bl Bh dv Gd Bd Hd inside. unfold solver_exclude_value. fold dv.
  assert (Ed : forall b, bval dv b = b) by (intros b; unfold bval; rewrite Bd; reflexivity).
  unfold inside, lo_of, hi_of in *. rewrite !Ed in *.
  destruct (Z.ltb_spec x (n_vars c)); [| lia]. cbn [negb].
  assert (Same : forall y (P : Prop), ~ P -> (y ∈ l <-> y ∈ l \/ y = v /\ P)) by (intros; tauto).
  destruct (is_hole l v) eqn:Eh.
  { apply (is_hole_spec l v (hl_sorted l Hl)) in Eh. right. split; [reflexivity |]. split; [exact Hl |].
    split; [intros y; split; [tauto | intros [? | [-> _]]; assumption] |]. split; [apply trimmed_refl; exact K | tauto]. }
  apply (not_hole l v (hl_sorted l Hl)) in Eh. rewrite Z.gtb_ltb, Z.geb_leb.
  destruct (Z.ltb_spec v (var_lo64 dv)) as [Lv | Lv]; cbn [orb].
  { right. split; [reflexivity |]. split; [exact Hl |]. split; [intros z; apply Same; lia |].
    split; [apply trimmed_refl; exact K | lia]. }
  destruct (Z.ltb_spec (var_hi64 dv) v) as [Hv | Hv].
  { right. split; [reflexivity |]. split; [exact Hl |]. split; [intros z; apply Same; lia |].
    split; [apply trimmed_refl; exact K | lia]. }
  rewrite (count_holes_spec l _ _ Hl). pose proof (in_range_le (var_lo64 dv) (var_hi64 dv) l) as Lr.
  unfold u32. rewrite Z.mod_small by lia. destruct (int64_bounds dv Gd) as [Idl Idh].
  assert (Es : u64 (s64 (var_hi64 dv - var_lo64 dv) + 1) = var_hi64 dv - var_lo64 dv + 1).
  { rewrite Z.add_comm, u64_add_s64, Z.add_comm. apply u64_fits. unfold fits, int64 in *. lia. }
  rewrite Es. destruct (Z.leb_spec (var_hi64 dv - var_lo64 dv + 1) (Z.of_nat (length (in_range (var_lo64 dv) (var_hi64 dv) l)) + 1)) as [Full | Room].
  { left. do 3 (split; [reflexivity |]). split; [lia |]. split; [exact Eh |]. right.
    apply (all_but_one l _ _ v (hl_sorted l Hl)); auto; lia. }
  pose proof (insert_hole_spec granted l v Hl Iv Ln) as Is. destruct (insert_hole granted l v) as [ir l'].
  destruct Is as (I1 & _ & Im & Ir & Ik & Ii). destruct (Z.ltb_spec ir 0) as [Neg | Pos].
  { left. do 3 (split; [auto; try (apply Ik; lia) |]). split; [lia |]. split; [exact Eh |]. left. apply Im. lia. }
  destruct Ir as [-> | [-> | ->]]; [| elim Eh; apply I1; reflexivity | lia].
  destruct (Ii eq_refl) as [Hl' El']. right. split; [reflexivity |]. split; [exact Hl' |].
  split; [intros y; rewrite El'; intuition |].
  pose proof (trim_spec c x l' v Hl' K Hx B Bl Bh ltac:(apply El'; auto)) as Tr. cbv zeta in Tr.
  split; [apply Tr | intros _ _; exact Tr].
Qed.

(** An unsigned domain across [2^63] has its low pattern above its high one:
    nothing is ever excluded from it, and the call reports success. *)
Lemma exclude_across_ignored granted l c x v : hole_list l -> 0 <= x < n_vars c ->
  var_hi64 (var c x) < var_lo64 (var c x) -> solver_exclude_value granted None l c x v = (0, l, c).
Proof.
  intros Hl Hx Cr. unfold solver_exclude_value. destruct (Z.ltb_spec x (n_vars c)); [| lia]. cbn [negb].
  destruct (is_hole l v); [reflexivity |]. rewrite Z.gtb_ltb.
  destruct (Z.ltb_spec v (var_lo64 (var c x))), (Z.ltb_spec (var_hi64 (var c x)) v); cbn [orb]; try reflexivity. lia.
Qed.

(** On the whole of the signed 64-bit numbers [domain_size] wraps to 0: every
    exclusion fails for want of another value, though all but the holes are left. *)
Lemma exclude_full_refused granted l c x v : hole_list l -> Z.of_nat (length l) + 1 < 2 ^ 32 -> 0 <= x < n_vars c ->
  var_lo64 (var c x) = - 2 ^ 63 -> var_hi64 (var c x) = 2 ^ 63 - 1 -> int64 v -> v ∉ l ->
  solver_exclude_value granted None l c x v = (-1, l, c).
Proof.
  intros Hl Ln Hx El Eh Iv Nv. unfold solver_exclude_value. destruct (Z.ltb_spec x (n_vars c)); [| lia]. cbn [negb].
  apply (not_hole l v (hl_sorted l Hl)) in Nv. rewrite Nv, El, Eh, Z.gtb_ltb, Z.geb_leb. unfold int64 in Iv.
  destruct (Z.ltb_spec v (- 2 ^ 63)); [lia |]. destruct (Z.ltb_spec (2 ^ 63 - 1) v); [lia |]. cbn [orb].
  rewrite (count_holes_spec l _ _ Hl). pose proof (in_range_le (- 2 ^ 63) (2 ^ 63 - 1) l).
  unfold u32. rewrite Z.mod_small by lia.
  replace (u64 (s64 (2 ^ 63 - 1 - - 2 ^ 63) + 1)) with 0 by (vm_compute; reflexivity).
  destruct (Z.leb_spec 0 (Z.of_nat (length (in_range (- 2 ^ 63) (2 ^ 63 - 1) l)) + 1)); [reflexivity | lia].
Qed.
End Exact.
End Holes.
