(* ===== verification/Choose.v ===== *)
(** * Choose: the variables and values the search picks
    (src/src/c/dvs_search.c, [_dom_size] to [_bound_decision])

    The choices of the search without clause learning and without the tiers that
    sample uniformly ([unsampled] says which solves these are): the variable with the fewest remaining values in the open
    stage, auxiliary and defined ones last; the saved phase, the kept draw, or a fresh draw, by
    distribution or uniform, moved to a remainder that is allowed or to a divisor
    of a fixed product, around the holes.  The file shows that the choices have
    the laws the search relies on: a variable is found while one is undecided, and
    every value lies in its variable's domain.

    What the compiler notes about the variables is a record of [tables], and what
    the search changes of its own is a record of [choices]. *)

From Stdlib Require Import ZArith Lia ZifyBool Bool Sorted.
From stdpp Require Import base gmap list numbers.
From S2P Require Import Prelude Vars Ctx DynStack Trail GuardIx Wake Store Tighten Propagate Unassigned.
From S2P Require Import NumTh Divisors Rand Holes Search Explore.
Import Vars Ctx DynStack Trail GuardIx Wake Store Tighten Propagate Unassigned.
Import Rand Holes Search Explore.
Open Scope Z_scope.
Local Open Scope word_scope.

Module Choose.

(** ** The tables *)

(** [DistMetaEntry], [DvsModLink], [DvsMulLink] *)
Record dist_entry := mk_entry { e_lo : Z; e_hi : Z; weight : Z; is_per_value : bool }.
Record mod_link := mk_mod { m_a : Z; m_r : Z; m_b : Z }.
Record mul_link := mk_mul { l_r : Z; l_a : Z; l_b : Z; l_width : Z }.

Record tables := mk_tables {
  n_decl_vars : Z;
  var_order : option (list Z);
  box_skip : option (list Z);
  dec_tier : option (list Z);
  var_n_values : option (list Z);
  holes : gmap Z (list Z);
  dists : gmap Z (list dist_entry);
  mod_links : list mod_link;
  mul_links : list mul_link;
  ext_memo : list (Z * Z);
  var_alias : option (list Z) }.

Definition entry (l : list Z) (i : Z) : Z := default 0 (l !! Z.to_nat i).
Definition holes_of (tb : tables) (x : Z) : list Z := default [] (holes tb !! x).

(** [keep_state] *)
Inductive keep_mark := KEEP_NONE | KEEP_SET | KEEP_DEAD.

Record choices := mk_choices {
  rng_state : Z;
  keep_on : bool;
  keep_cap : Z;
  keep_state : gmap Z keep_mark;
  keep_val : gmap Z Z;
  phases : option (gmap Z Z);
  value_fails_on : bool;
  value_fails_cap : Z;
  value_fails : gmap Z Z;
  divs : Divisors.divisors }.

Definition with_rng (h : choices) (r : Z) : choices :=
  mk_choices r (keep_on h) (keep_cap h) (keep_state h) (keep_val h) (phases h) (value_fails_on h) (value_fails_cap h)
    (value_fails h) (divs h).
Definition with_keep (h : choices) (on : bool) (st : gmap Z keep_mark) (kv : gmap Z Z) : choices :=
  mk_choices (rng_state h) on (keep_cap h) st kv (phases h) (value_fails_on h) (value_fails_cap h) (value_fails h) (divs h).
Definition with_phases (h : choices) (p : option (gmap Z Z)) : choices :=
  mk_choices (rng_state h) (keep_on h) (keep_cap h) (keep_state h) (keep_val h) p (value_fails_on h) (value_fails_cap h)
    (value_fails h) (divs h).
Definition with_fails (h : choices) (f : gmap Z Z) : choices :=
  mk_choices (rng_state h) (keep_on h) (keep_cap h) (keep_state h) (keep_val h) (phases h) (value_fails_on h)
    (value_fails_cap h) f (divs h).
Definition with_divs (h : choices) (d : Divisors.divisors) : choices :=
  mk_choices (rng_state h) (keep_on h) (keep_cap h) (keep_state h) (keep_val h) (phases h) (value_fails_on h)
    (value_fails_cap h) (value_fails h) d.

Definition DVS_ORDER_LAST : Z := 256.
Definition DVS_BOUND_DECISION_TRIES : Z := 32.
Definition UINT64_MAX : Z := 2 ^ 64 - 1.

Section Vars.
Context {T M S : Type} `{DynStack M S} `{Env}.
Context (tb : tables).
Implicit Types c : ctx T M S.

(** ** The variable *)

Definition dom_size (i lo hi : Z) : Z :=
  let dom := u64 hi -w u64 lo in
  match var_n_values tb with
  | Some l => if negb (entry l i =? 0) && (entry l i -w 1 <? dom) then entry l i -w 1 else dom
  | None => dom
  end.

Definition order_key (i : Z) : Z :=
  match var_order tb with
  | Some l => if i >=? n_decl_vars tb then DVS_ORDER_LAST else if entry l i =? 0 then DVS_ORDER_LAST else entry l i
  | None => DVS_ORDER_LAST
  end.

(** One turn of the loop of [_open_stage]. *)
Definition stage_step (l : list Z) c (m i : Z) : Z :=
  let v := var c i in
  if is_aux v || (entry l i =? 0) || (entry l i >=? m) then m
  else if var_lo64 v =? var_hi64 v then m else entry l i.
Definition open_stage (l : list Z) c : Z :=
  fold_left (stage_step l c) (seqZ 0 (Z.min (n_decl_vars tb) (n_vars c))) DVS_ORDER_LAST.

Definition is_defined (i : Z) : bool :=
  match box_skip tb with
  | Some l => (i <? Z.of_nat (length l)) && negb (entry l i =? 0) && (order_key i =? DVS_ORDER_LAST)
  | None => false
  end.

(** [dvs_value_src]: at most eight hops. *)
Fixpoint value_src_from (hops : nat) (id : Z) : Z :=
  match hops with
  | O => id
  | Datatypes.S hops =>
      match List.find (fun e => fst e =? id) (ext_memo tb) with
      | None => id
      | Some (_, src) => value_src_from hops src
      end
  end.
Definition value_src (id : Z) : Z := value_src_from 8 id.

(** [_build_dec_tier], from the table of the solve before. *)
Definition build_dec_tier (granted : bool) c : option (list Z) :=
  if negb (existsb (fun ml => l_a ml =? l_b ml) (mul_links tb)) || (n_vars c =? 0) then None else
  let room := match dec_tier tb with
    | Some l => if Z.of_nat (length l) <? n_vars c then (if granted then Some (n_vars c) else None)
                else Some (Z.of_nat (length l))
    | None => if granted then Some (n_vars c) else None
    end in
  match room with
  | None => None
  | Some n =>
      Some (fold_left (fun t ml =>
        if negb (l_a ml =? l_b ml) || is_signed (var c (l_a ml)) then t
        else let x := value_src (l_a ml) in if x <? n then <[Z.to_nat x := 2]> t else t)
        (mul_links tb) (replicate (Z.to_nat n) 1))
  end.

Definition tier (i : Z) : Z :=
  match dec_tier tb with
  | Some l => if i <? Z.of_nat (length l) then entry l i else 1
  | None => 1
  end.

(** The best candidates so far: [best], [best_dom], [n_best], [best_t],
    [best_aux], [best_aux_dom]. *)
Record best := mk_best { b_var : Z; b_dom : Z; b_ties : Z; b_tier : Z; b_aux : Z; b_aux_dom : Z }.

(** One turn of the loops of [_select_unassigned]; ties are drawn among when the
    picks are to be fair. *)
Definition consider (fair : bool) (stage : Z) c (s : best * Z) (i : Z) : best * Z :=
  let '(b, rng) := s in
  let v := var c i in
  let lo := var_lo64 v in
  let hi := var_hi64 v in
  if lo =? hi then (b, rng) else
  let dom := dom_size i lo hi in
  if is_aux v || is_defined i then
    (if (b_aux b =? EXPR_NULL) || (dom <? b_aux_dom b)
     then mk_best (b_var b) (b_dom b) (b_ties b) (b_tier b) i dom else b, rng)
  else if negb (stage =? 0) && negb (order_key i =? stage) then (b, rng)
  else
    let t := tier i in
    if (b_var b =? EXPR_NULL) || (t >? b_tier b) || ((t =? b_tier b) && (dom <? b_dom b))
    then (mk_best i dom 1 t (b_aux b) (b_aux_dom b), rng)
    else if fair && (t =? b_tier b) && (dom =? b_dom b) then
      let n := u32 (b_ties b + 1) in
      let '(r, rng) := rand64 rng in
      (mk_best (if r mod n =? 0 then i else b_var b) (b_dom b) n (b_tier b) (b_aux b) (b_aux_dom b), rng)
    else (b, rng).

(** The set bits of the mask, lowest first, each cleared as it is taken. *)
Fixpoint mask_bits (n : nat) (m : Z) : list Z :=
  match n with
  | O => []
  | Datatypes.S n => if m =? 0 then [] else NumTh.ctz m :: mask_bits n (Z.land m (m - 1))
  end.

Definition candidates c : list Z :=
  if (n_vars c <=? 64) && negb (unassigned_mask c =? 0) then mask_bits 64 (unassigned_mask c) else seqZ 0 (n_vars c).

(** The variable, and [ctx->rng_state]. *)
Definition mrv_select (fair : bool) (rng : Z) c : Z * Z :=
  let stage := match var_order tb with Some l => open_stage l c | None => 0 end in
  let '(b, rng) := fold_left (consider fair stage c) (candidates c)
    (mk_best EXPR_NULL UINT64_MAX 0 0 EXPR_NULL UINT64_MAX, rng) in
  (if negb (b_var b =? EXPR_NULL) then b_var b else b_aux b, rng).
End Vars.

(** ** The value *)

Section Values.
Context {T M S : Type} `{DynStack M S} `{Env}.
Context (tb : tables).
(** The rounds of the factoring, and whether its array is served. *)
Context (factoring : nat) (room : Z -> bool).
Implicit Types c : ctx T M S.

(** The part of an entry within the domain, and its weight there. *)
Definition entry_part (v : variable) (lo hi : Z) (e : dist_entry) : option (Z * Z * Z) :=
  if weight e =? 0 then None else
  let elo := var_b_max v (e_lo e) lo in
  let ehi := var_b_min v (e_hi e) hi in
  if var_b_gt v elo ehi then None
  else Some (elo, ehi, if is_per_value e then weight e *w (u64 (s64 (ehi - elo)) +w 1) else weight e).

Fixpoint roll_entry (v : variable) (es : list dist_entry) (rng lo hi roll cum : Z) : Z * Z :=
  match es with
  | [] => rand_range64 rng lo hi
  | e :: es =>
      match entry_part v lo hi e with
      | None => roll_entry v es rng lo hi roll cum
      | Some (elo, ehi, ew) =>
          if roll <? (cum +w ew) then rand_range64 rng elo ehi else roll_entry v es rng lo hi roll (cum +w ew)
      end
  end.

Definition pick_value_dist (rng : Z) (v : variable) (es : list dist_entry) (lo hi : Z) : Z * Z :=
  let total := fold_left (fun t e => match entry_part v lo hi e with Some (_, _, ew) => t +w ew | None => t end) es 0 in
  if total =? 0 then rand_range64 rng lo hi
  else let '(r, rng) := rand64 rng in roll_entry v es rng lo hi (r mod total) 0.

(** [while (ctx->var_alias\[a\] != a) a = ctx->var_alias\[a\];]: the table is a
    forest, so a root is no further than its length. *)
Fixpoint alias_from (fuel : nat) (al : list Z) (x : Z) : Z :=
  match fuel with
  | O => x
  | Datatypes.S fuel => if entry al x =? x then x else alias_from fuel al (entry al x)
  end.
Definition alias_root (x : Z) : Z :=
  match var_alias tb with Some al => alias_from (length al) al x | None => x end.

Definition mod_step c (x lo hi : Z) (s : Z * Z) (ml : mod_link) : Z * Z :=
  let '(v, rng) := s in
  let r := alias_root (m_r ml) in
  if negb (alias_root (m_a ml) =? x) then (v, rng) else
  let b := u64 (m_b ml) in
  let rlo := u64 (var_lo64 (var c r)) in
  let rhi := u64 (var_hi64 (var c r)) in
  let rhi := if rhi >? b -w 1 then b -w 1 else rhi in
  if (rlo >? rhi) || ((rlo =? 0) && (rhi =? b -w 1)) then (v, rng) else
  let uv := u64 v in
  let rem := uv mod b in
  if (rem >=? rlo) && (rem <=? rhi) then (v, rng) else
  let '(y, rng) := rand64 rng in
  let t := rlo +w (y mod ((rhi -w rlo) +w 1)) in
  let z := (uv -w rem) +w t in
  let z := if (z >? u64 hi) || (z <? uv -w rem) then z -w b else z in
  let z := if z <? u64 lo then z +w b else z in
  if (z >=? u64 lo) && (z <=? u64 hi) then (s64 z, rng) else (v, rng).

Definition pick_mod_aligned (rng : Z) c (x v lo hi : Z) : Z * Z :=
  if (Z.of_nat (length (mod_links tb)) =? 0) || is_signed (var c x) then (v, rng)
  else fold_left (mod_step c x lo hi) (mod_links tb) (v, rng).

(** The draws among the divisors at [j0..j1 - 1]. *)
Fixpoint try_divisors (attempts : nat) (rng x v : Z) (ds : list Z) (j0 j1 : Z) : Z * Z :=
  match attempts with
  | O => (v, rng)
  | Datatypes.S attempts =>
      let '(r, rng) := rand64 rng in
      let d := s64 (entry ds (j0 + r mod (j1 - j0))) in
      if negb (is_hole (holes_of tb x) d) then (d, rng) else try_divisors attempts rng x v ds j0 j1
  end.

(** One side of a product: [None] to go on, with the cache, or the value. *)
Definition mul_side (h : choices) c (x v lo hi : Z) (ml : mul_link) (p q : Z) : option Z * choices :=
  if negb (p =? x) && negb (value_src tb p =? x) then (None, h) else
  let rv := var c (l_r ml) in
  let yv := var c q in
  if is_signed rv || is_signed yv || is_signed (var c p) then (None, h) else
  let K := u64 (var_lo64 rv) in
  if (K =? 0) || negb (u64 (var_hi64 rv) =? K) then (None, h) else
  let ylo := u64 (var_lo64 yv) in
  let yhi := u64 (var_hi64 yv) in
  if (ylo =? yhi) || (yhi =? 0) then (None, h) else
  let mask := if l_width ml >=? 64 then UINT64_MAX else (1 <<w l_width ml) -w 1 in
  if negb (u64 hi =? 0) && (yhi >? mask / u64 hi) then (None, h) else
  let lower := K / yhi +w (if K mod yhi =? 0 then 0 else 1) in
  let upper := if ylo =? 0 then u64 hi else K / ylo in
  let lower := if lower <? u64 lo then u64 lo else lower in
  let upper := if upper >? u64 hi then u64 hi else upper in
  if lower >? upper then (None, h) else
  match Divisors.dvs_divisors factoring room (divs h) K (2 ^ 17) with
  | None => (None, h)
  | Some (n, d) =>
      let h := with_divs h d in
      if n =? 0 then (None, h) else
      match Divisors.dvs_divisors_lower d lower, Divisors.dvs_divisors_upper d upper with
      | Some j0, Some j1 =>
          if j0 >=? j1 then (None, h) else
          let '(r, rng) := try_divisors 8 (rng_state h) x v (Divisors.d_divs d) j0 j1 in (Some r, with_rng h rng)
      | _, _ => (None, h)
      end
  end.

Fixpoint mul_loop (h : choices) c (x v lo hi : Z) (links : list mul_link) : Z * choices :=
  match links with
  | [] => (v, h)
  | ml :: links =>
      if l_a ml =? l_b ml then mul_loop h c x v lo hi links else
      match mul_side h c x v lo hi ml (l_a ml) (l_b ml) with
      | (Some r, h) => (r, h)
      | (None, h) =>
          match mul_side h c x v lo hi ml (l_b ml) (l_a ml) with
          | (Some r, h) => (r, h)
          | (None, h) => mul_loop h c x v lo hi links
          end
      end
  end.
Definition pick_mul_divisor (h : choices) c (x v lo hi : Z) : Z * choices :=
  if (Z.of_nat (length (mul_links tb)) =? 0) || is_signed (var c x) then (v, h)
  else mul_loop h c x v lo hi (mul_links tb).

(** The fresh draw. *)
Definition fresh_value (h : choices) c (x lo hi : Z) : Z * choices :=
  match dists tb !! x with
  | Some es => let '(v, rng) := pick_value_dist (rng_state h) (var c x) es lo hi in (v, with_rng h rng)
  | None =>
      let '(v, rng) := rand_range64 (rng_state h) lo hi in
      let '(v, rng) := pick_mod_aligned rng c x v lo hi in
      pick_mul_divisor (with_rng h rng) c x v lo hi
  end.

(** A value noted earlier that is still in the domain and not a hole. *)
Definition still_good c (x v : Z) : bool :=
  let xv := var c x in
  negb (var_b_lt xv v (var_lo64 xv)) && negb (var_b_gt xv v (var_hi64 xv)) && negb (is_hole (holes_of tb x) v).

Definition draw_value (opts : option solve_opts) (h : choices) c (x : Z) : Z * choices :=
  let lo := var_lo64 (var c x) in
  let hi := var_hi64 (var c x) in
  let saved := match (if saves_phase opts then phases h else None) with
    | Some p => let ps := default 0 (p !! x) in if still_good c x ps then Some ps else None
    | None => None
    end in
  let keep := keep_on h && (x <? keep_cap h) in
  let mark := default KEEP_NONE (keep_state h !! x) in
  let kept := match mark with
    | KEEP_SET => let kv := default 0 (keep_val h !! x) in if keep && still_good c x kv then Some kv else None
    | _ => None
    end in
  match saved, kept with
  | Some v, _ => (v, h)
  | None, Some v => (v, h)
  | None, None =>
      let '(v, h) := fresh_value h c x lo hi in
      let '(v, rng) := pick_avoiding_holes (rng_state h) (holes_of tb x) v lo hi in
      let h := with_rng h rng in
      match mark with
      | KEEP_NONE => if keep then (v, with_keep h (keep_on h) (<[x := KEEP_SET]> (keep_state h)) (<[x := v]> (keep_val h)))
                     else (v, h)
      | _ => (v, h)
      end
  end.
End Values.

(** ** The rest of the choices *)

Definition seeded (o : option solve_opts) : bool := match o with Some o => negb (seed o =? 0) | None => false end.
Definition fair (o : option solve_opts) : bool := match o with Some o => Search.fair_pick o | None => false end.

(** A solve that samples: in a seeded [fair_pick] solve without [seq_pick] values are
    drawn by weight and whole solutions from the box of the domains or a list. *)
Definition samples (o : option solve_opts) : bool :=
  seeded o && fair o && match o with Some o => negb (seq_pick o) | None => false end.
(** The chooser below is that of the other solves, where moreover no variable is
    the root of a square product ([_mul_count_accept] is not called). *)
Definition unsampled (tb : tables) (o : option solve_opts) : Prop :=
  samples o = false /\ (seeded o && fair o = true -> forall x, tier tb x <> 2).

(** [_split_upper_first]; [split_random] is what the environment says. *)
Definition pick_upper_first (split_random : bool) (opts : option solve_opts) (h : choices) (dlo v dhi : Z) : bool * choices :=
  if negb (seeded opts) || negb split_random then (false, h) else
  let n_lo := u64 v -w u64 dlo in
  let n_hi := u64 dhi -w u64 v in
  let tot := n_lo +w n_hi in
  if tot =? 0 then (false, h)
  else let '(r, rng) := rand64 (rng_state h) in (r mod tot >=? n_lo, with_rng h rng).

(** [if (ctx->value_fails\[x\] < 255) ctx->value_fails\[x\]++] *)
Definition bump_fails (f : gmap Z Z) (x : Z) : gmap Z Z :=
  let n := default 0 (f !! x) in if n <? 255 then <[x := n + 1]> f else f.

(** [_redraw] *)
Definition draw_again (opts : option solve_opts) (h : choices) (x : Z) (counted : bool) : bool * choices :=
  if negb (seeded opts && fair opts) then (false, h) else
  if negb (value_fails_on h) || (x >=? value_fails_cap h) then (false, h) else
  let h := if counted then h else with_fails h (bump_fails (value_fails h) x) in
  if default 0 (value_fails h !! x) >? DVS_BOUND_DECISION_TRIES then (false, h) else
  let h := if keep_on h && (x <? keep_cap h)
    then with_keep h (keep_on h) (<[x := KEEP_DEAD]> (keep_state h)) (keep_val h) else h in
  (true, h).

Definition value_failed (h : choices) (x b : Z) : choices :=
  let h := if keep_on h && (x <? keep_cap h)
    then with_keep h (keep_on h) (<[x := KEEP_DEAD]> (keep_state h)) (keep_val h) else h in
  if (b =? 0) && value_fails_on h && (x <? value_fails_cap h)
  then with_fails h (bump_fails (value_fails h) x) else h.

(** [ctx->phase_save\[dv\] = (int32_t)val;] *)
Definition keep_phase (h : choices) (x v : Z) : choices :=
  with_phases h (match phases h with Some p => Some (<[x := s32 v]> p) | None => None end).

(** The choices at the start of a solve, from those left by the one before:
    [granted n] says whether the allocations for [n] variables succeed. *)
Definition begin_choices {T M S} (opts : option solve_opts) (keep_enabled : bool) (granted : Z -> bool)
    (h : choices) (c : ctx T M S) : choices :=
  let rng := match opts with Some o => if negb (seed o =? 0) then seed_mix64 (seed o) else rng_state h | None => rng_state h end in
  let rng := if rng =? 0 then RNG_START else rng in
  let n := n_vars c in
  let use_phase := match opts with Some o => use_phase_save o | None => false end in
  let ph := match phases h with
    | Some p => Some p
    | None => if use_phase && (0 <? n) && granted n
              then Some (list_to_map (zip (seqZ 0 n) (map var_lo64 (vars c)))) else None
    end in
  let wants_keep := seeded opts && keep_enabled && (0 <? n) in
  let kcap := if wants_keep && (keep_cap h <? n) && granted n then n else keep_cap h in
  let wants_fails := seeded opts && (0 <? n) in
  let fcap := if wants_fails && (value_fails_cap h <? n) && granted n then n else value_fails_cap h in
  mk_choices rng (wants_keep && (n <=? kcap)) kcap (if wants_keep && (n <=? kcap) then ∅ else keep_state h) (keep_val h)
    ph (wants_fails && (n <=? fcap)) fcap (if wants_fails && (n <=? fcap) then ∅ else value_fails h) (divs h).

(** The choices of an [unsampled] solve. *)
Section Instance.
Context {T M S : Type} `{DynStack M S} `{Env}.
Context (tb : tables) (factoring : nat) (room : Z -> bool) (split_random : bool) (opts : option solve_opts).

#[export] Instance seeded_chooser : Chooser choices (ctx T M S) := {
  select_unassigned h c := let '(x, rng) := mrv_select tb (fair opts) (rng_state h) c in (x, with_rng h rng);
  pick_value h c x := draw_value tb factoring room opts h c x;
  bound_decision h _ _ _ := (0, h);
  note_failed := value_failed;
  redraw := draw_again opts;
  Search.split_upper_first := pick_upper_first split_random opts;
  save_phase := keep_phase;
  drop_kept h := with_keep h false (keep_state h) (keep_val h) }.
End Instance.

(** ** The laws *)

Record tables_ok (tb : tables) : Prop := {
  tk_order : match var_order tb with Some l => Forall (fun k => 0 <= k < DVS_ORDER_LAST) l | None => True end;
  tk_holes : forall x l, holes tb !! x = Some l -> hole_list l;
  tk_dists : forall x es, dists tb !! x = Some es -> Forall (fun e => int64 (e_lo e) /\ int64 (e_hi e)) es }.

Record choices_ok (h : choices) : Prop := {
  ch_kept : forall x, int64 (default 0 (keep_val h !! x));
  ch_phases : forall p x, phases h = Some p -> int64 (default 0 (p !! x));
  ch_divs : StronglySorted Z.le (Divisors.d_divs (divs h)) }.

(** *** Selection *)

Lemma ctz_bit m : 0 < m -> 0 <= NumTh.ctz m /\ Z.testbit m (NumTh.ctz m) = true /\
  forall i, 0 <= i -> Z.testbit (Z.land m (m - 1)) i = Z.testbit m i && negb (i =? NumTh.ctz m).
Proof.
  intros Hm. destruct (NumTh.ctz_split m Hm) as (Ht & o & E & Ho & Po). set (t := NumTh.ctz m) in *. clearbody t.
  split; [exact Ht |].
  assert (B : forall i, Z.testbit m i = Z.testbit o (i - t)).
  { intros i. rewrite E, Z.mul_comm. destruct (Z.ltb_spec i 0); [rewrite !Z.testbit_neg_r by lia; reflexivity |].
    apply Z.mul_pow2_bits. exact Ht. }
  split; [rewrite B, Z.sub_diag, Z.bit0_odd; exact Ho |].
  intros i Hi. rewrite Z.land_spec, B.
  assert (E1 : m - 1 = 2 ^ t * (o - 1) + (2 ^ t - 1)) by lia.
  pose proof (pow2_pos t Ht).
  destruct (Z.ltb_spec i t) as [Lt | Ge].
  { rewrite Z.testbit_neg_r by lia. reflexivity. }
  assert (Hb : Z.testbit (m - 1) i = Z.testbit (o - 1) (i - t)).
  { replace (o - 1) with ((m - 1) / 2 ^ t).
    - rewrite Z.div_pow2_bits by lia. f_equal. lia.
    - rewrite E1, Z.mul_comm. rewrite Z.div_add_l by lia. rewrite Z.div_small by lia. lia. }
  rewrite Hb. destruct (Z.eqb_spec i t) as [-> | Ne]; cbn [negb].
  - rewrite Z.sub_diag, !Z.bit0_odd, Z.odd_sub, Ho. reflexivity.
  - rewrite andb_true_r. replace (i - t) with (Z.succ (i - t - 1)) by lia.
    rewrite Z.odd_spec in Ho. destruct Ho as [q ->]. replace (2 * q + 1 - 1) with (2 * q) by lia.
    rewrite Z.testbit_odd_succ, Z.testbit_even_succ by lia. apply andb_diag.
Qed.

Lemma mask_bits_spec n : forall m, 0 <= m -> (forall i, 0 <= i -> Z.testbit m i = true -> i < 64) ->
  (forall i, 0 <= i -> Z.testbit m i = true -> 64 - Z.of_nat n <= i) ->
  forall x, x ∈ mask_bits n m <-> 0 <= x /\ Z.testbit m x = true.
Proof.
  induction n as [| n IH]; intros m Hm Hi Lo x; cbn [mask_bits].
  { split; [intros X; inversion X |]. intros [Hx Tx]. specialize (Hi x Hx Tx). specialize (Lo x Hx Tx). lia. }
  destruct (Z.eqb_spec m 0) as [-> | Nz]; [split; [intros X; inversion X | rewrite Z.bits_0; intros [_ X]; discriminate] |].
  destruct (ctz_bit m ltac:(lia)) as (Ct & Tt & Cl). rewrite elem_of_cons, IH.
  - split.
    + intros [-> | [Hx Tx]]; [auto |]. rewrite Cl in Tx by exact Hx. apply andb_prop in Tx. tauto.
    + intros [Hx Tx]. destruct (Z.eq_dec x (NumTh.ctz m)) as [-> | Ne]; [auto |]. right. split; [exact Hx |].
      rewrite Cl, Tx by exact Hx. destruct (Z.eqb_spec x (NumTh.ctz m)); [contradiction | reflexivity].
  - apply Z.land_nonneg. left. exact Hm.
  - intros i H0 T. rewrite Cl in T by exact H0. apply andb_prop in T. apply Hi; tauto.
  - intros i H0 T. rewrite Cl in T by exact H0. apply andb_prop in T as [T1 T2]. pose proof (Lo i H0 T1).
    destruct (Z.eqb_spec i (NumTh.ctz m)); [discriminate |].
    (* a higher set bit than the lowest, which is at [64 - S n] or above *)
    enough (NumTh.ctz m < i) by (pose proof (Lo _ Ct Tt); lia).
    destruct (Z.ltb_spec (NumTh.ctz m) i); [assumption |]. exfalso.
    destruct (NumTh.ctz_split m ltac:(lia)) as (_ & o & E & _ & _). rewrite E, Z.mul_comm in T1.
    rewrite Z.mul_pow2_bits_low in T1 by lia. discriminate.
Qed.

Section Select.
Context {T M S : Type} `{DynStackLaws M S} `{Env}.
Context (tb : tables) (Tk : tables_ok tb).
Implicit Types c : ctx T M S.

Definition undecided c x : Prop := 0 <= x < n_vars c /\ var_lo64 (var c x) <> var_hi64 (var c x).

(** A variable that only comes when nothing else is left, and one of the stage. *)
Definition late_var c x : Prop := undecided c x /\ is_aux (var c x) || is_defined tb x = true.
Definition now_var (stage : Z) c x : Prop :=
  undecided c x /\ is_aux (var c x) || is_defined tb x = false /\ (stage = 0 \/ order_key tb x = stage).

(** What orders the candidates. *)
Definition dom_of c x : Z := dom_size tb x (var_lo64 (var c x)) (var_hi64 (var c x)).
Definition no_better c x y : Prop := tier tb y < tier tb x \/ tier tb y = tier tb x /\ dom_of c x <= dom_of c y.

Record scanned (stage : Z) c (l : list Z) (b : best) : Prop := {
  sn_var : b_var b = EXPR_NULL \/ now_var stage c (b_var b) /\ b_tier b = tier tb (b_var b) /\ b_dom b = dom_of c (b_var b) /\
    forall x, x ∈ l -> now_var stage c x -> no_better c (b_var b) x;
  sn_aux : b_aux b = EXPR_NULL \/ late_var c (b_aux b);
  sn_now : b_var b = EXPR_NULL -> forall x, x ∈ l -> ~ now_var stage c x;
  sn_late : b_aux b = EXPR_NULL -> forall x, x ∈ l -> ~ late_var c x }.

Lemma grow_all (P : Z -> Prop) l i : (forall x, x ∈ l -> P x) -> P i -> forall x, x ∈ l ++ [i] -> P x.
Proof. intros Hl Hp x Hx. apply elem_of_app in Hx as [Hx | Hx]; [auto |]. apply list_elem_of_singleton in Hx as ->. exact Hp. Qed.

(** A variable that is not a candidate now changes nothing for the others. *)
Lemma scanned_skip stage c l b i : ~ now_var stage c i -> (b_aux b <> EXPR_NULL \/ ~ late_var c i) ->
  scanned stage c l b -> scanned stage c (l ++ [i]) b.
Proof.
  intros Nn Nl [V A N L]. constructor; [| exact A | |].
  - destruct V as [V | (X & Et & Ed & O)]; [left; exact V | right]. split; [exact X |]. split; [exact Et |]. split; [exact Ed |].
    apply (grow_all (fun x => now_var stage c x -> _)); [exact O | tauto].
  - intros Z0. apply (grow_all (fun x => ~ now_var stage c x)); auto.
  - intros Z0. apply (grow_all (fun x => ~ late_var c x)); [auto | tauto].
Qed.

Lemma consider_scanned fair stage c l b rng i : n_vars c <= EXPR_NULL -> 0 <= i < n_vars c ->
  scanned stage c l b -> scanned stage c (l ++ [i]) (fst (consider tb fair stage c (b, rng) i)).
Proof.
  intros Nv Hi Sb. unfold consider. destruct (Z.eqb_spec (var_lo64 (var c i)) (var_hi64 (var c i))) as [E | Ne].
  { apply scanned_skip; [intros [[_ U] _]; auto | right; intros [[_ U] _]; auto | exact Sb]. }
  assert (U : undecided c i) by (split; assumption).
  destruct (is_aux (var c i) || is_defined tb i) eqn:La.
  - assert (Nn : ~ now_var stage c i) by (intros (_ & X & _); congruence).
    destruct ((b_aux b =? EXPR_NULL) || _) eqn:Ea.
    + assert (Sx : scanned stage c l (mk_best (b_var b) (b_dom b) (b_ties b) (b_tier b) i (dom_of c i))).
      { destruct Sb as [V A N L]. constructor; cbn; auto; [right; split; assumption | intros Z0; lia]. }
      apply scanned_skip; [exact Nn | left; cbn; lia | exact Sx].
    + apply scanned_skip; [exact Nn | left; cbn; lia | exact Sb].
  - assert (Nl : ~ late_var c i) by (intros (_ & X); congruence).
    destruct (negb (stage =? 0) && negb (order_key tb i =? stage)) eqn:Es.
    + apply scanned_skip; [intros (_ & _ & X); lia | right; exact Nl | exact Sb].
    + assert (Ni : now_var stage c i) by (split; [exact U | split; [exact La | lia]]).
      destruct Sb as [V A N L]. fold (dom_of c i).
      assert (Lt : forall x, b_aux b = EXPR_NULL -> x ∈ l ++ [i] -> ~ late_var c x)
        by (intros x Z0; apply (grow_all (fun x => ~ late_var c x)); auto).
      (* taken: nothing seen so far is better *)
      assert (Take : forall n, (b_var b = EXPR_NULL \/ b_tier b < tier tb i \/ tier tb i = b_tier b /\ dom_of c i <= b_dom b) ->
        scanned stage c (l ++ [i]) (mk_best i (dom_of c i) n (tier tb i) (b_aux b) (b_aux_dom b))).
      { intros n Better. constructor; cbn; auto; [right | intros Z0; lia].
        split; [exact Ni |]. split; [reflexivity |]. split; [reflexivity |].
        apply (grow_all (fun x => now_var stage c x -> _)); [| intros _; right; split; [reflexivity | lia]].
        intros x Hx Nx. destruct V as [V | (_ & Et & Ed & O)]; [elim (N V x Hx Nx) |].
        pose proof (O x Hx Nx) as Ox. unfold no_better in *. destruct Better as [V | Better]; [elim (N V x Hx Nx) | lia]. }
      (* passed over: what was found so far is no worse *)
      assert (Pass : forall n, b_var b <> EXPR_NULL ->
        tier tb i < b_tier b \/ tier tb i = b_tier b /\ b_dom b <= dom_of c i ->
        scanned stage c (l ++ [i]) (mk_best (b_var b) (b_dom b) n (b_tier b) (b_aux b) (b_aux_dom b))).
      { intros n Nn Worse. constructor; cbn; auto. right.
        destruct V as [? | (X & Et & Ed & O)]; [contradiction |]. split; [exact X |]. split; [exact Et |]. split; [exact Ed |].
        apply (grow_all (fun x => now_var stage c x -> _)); [exact O |]. intros _. unfold no_better. lia. }
      destruct ((b_var b =? EXPR_NULL) || _ || _) eqn:Eb; [apply Take; lia |].
      destruct (fair && _ && _) eqn:Ef; [| destruct b; apply Pass; cbn in *; lia].
      apply andb_prop in Ef as [Ef Ed]. apply Z.eqb_eq in Ed. rewrite <- Ed.
      apply andb_prop in Ef as [_ Et]. apply Z.eqb_eq in Et. rewrite <- Et.
      destruct (rand64 rng) as [r rng']. cbn [fst]. destruct (r mod _ =? 0); [apply Take; lia |].
      rewrite Ed, Et. apply Pass; lia.
Qed.

Lemma scan_all fair stage c xs : n_vars c <= EXPR_NULL -> (forall x, x ∈ xs -> 0 <= x < n_vars c) -> forall l s,
  scanned stage c l (fst s) -> scanned stage c (l ++ xs) (fst (fold_left (consider tb fair stage c) xs s)).
Proof.
  intros Nv. induction xs as [| x xs IH]; intros Hx l s Sb; [rewrite app_nil_r; exact Sb |]. cbn [fold_left].
  replace (l ++ x :: xs) with ((l ++ [x]) ++ xs) by (rewrite <- app_assoc; reflexivity).
  apply IH; [intros y Hy; apply Hx; right; exact Hy |]. destruct s as [b rng].
  apply consider_scanned; [exact Nv | apply Hx; left | exact Sb].
Qed.

(** The open stage has a variable to decide, unless none has a stage. *)
Definition stage_var (l : list Z) c z : Prop := undecided c z /\ is_aux (var c z) = false /\ entry l z <> 0.

Lemma stage_scan l c xs : (forall x, x ∈ xs -> 0 <= x < n_vars c) -> forall m,
  let r := fold_left (stage_step l c) xs m in
  r <= m /\ (r = m \/ exists z, z ∈ xs /\ stage_var l c z /\ entry l z = r) /\
  forall z, z ∈ xs -> stage_var l c z -> r <= entry l z.
Proof.
  induction xs as [| x xs IH]; intros Hx m; cbn [fold_left].
  { split; [lia |]. split; [auto |]. intros z Hz. inversion Hz. }
  destruct (IH ltac:(intros y Hy; apply Hx; right; exact Hy) (stage_step l c m x)) as (L & E & A).
  assert (St : stage_step l c m x = m /\ (stage_var l c x -> m <= entry l x) \/
    stage_step l c m x = entry l x /\ entry l x < m /\ stage_var l c x).
  { unfold stage_step, stage_var, undecided. specialize (Hx x ltac:(left)). rewrite Z.geb_leb.
    destruct (is_aux (var c x)); cbn [orb]; [left; intuition congruence |].
    destruct (Z.eqb_spec (entry l x) 0); cbn [orb]; [left; intuition |].
    destruct (Z.leb_spec m (entry l x)); [left; intuition |].
    destruct (Z.eqb_spec (var_lo64 (var c x)) (var_hi64 (var c x))); [left; intuition | right; intuition]. }
  split; [lia |]. split.
  - destruct E as [E | (z & Hz & Sv & Ez)]; [| right; exists z; split; [right; exact Hz | auto]].
    destruct St as [[St _] | (St & _ & Sv)]; [left; congruence | right]. exists x. split; [left |]. split; [exact Sv | congruence].
  - intros z Hz Sv. apply elem_of_cons in Hz as [-> | Hz]; [| apply A; assumption].
    destruct St as [[St X] | (St & _ & _)]; [specialize (X Sv); lia | lia].
Qed.

Definition stage_of c : Z := match var_order tb with Some l => open_stage tb l c | None => 0 end.

Lemma open_candidate c y : undecided c y -> late_var c y \/ now_var (stage_of c) c y \/ exists z, now_var (stage_of c) c z.
Proof.
  intros U. unfold stage_of. destruct (is_aux (var c y) || is_defined tb y) eqn:La; [left; split; assumption |].
  pose proof (tk_order tb Tk) as To. destruct (var_order tb) as [l |] eqn:Eo; [| right; left; split; auto].
  right. unfold open_stage. set (xs := seqZ 0 _).
  assert (Hxs : forall x, x ∈ xs <-> 0 <= x < Z.min (n_decl_vars tb) (n_vars c)) by (intros x; subst xs; rewrite elem_of_seqZ; lia).
  destruct (stage_scan l c xs ltac:(intros x Hx; apply Hxs in Hx; lia) DVS_ORDER_LAST) as (_ & E & A).
  set (stage := fold_left _ xs _) in *.
  assert (Ke : forall z, order_key tb z = if z >=? n_decl_vars tb then DVS_ORDER_LAST
    else if entry l z =? 0 then DVS_ORDER_LAST else entry l z) by (intros z; unfold order_key; rewrite Eo; reflexivity).
  assert (Kr : forall z, entry l z < DVS_ORDER_LAST).
  { intros z. unfold entry. destruct (l !! Z.to_nat z) as [k |] eqn:Lk; [| cbn; unfold DVS_ORDER_LAST; lia].
    rewrite list.Forall_lookup in To. apply (To _ _ Lk). }
  destruct E as [E | (z & Hz & Sv & Ez)].
  - left. split; [exact U |]. split; [exact La |]. right. rewrite E, Ke.
    destruct (Z.geb_spec y (n_decl_vars tb)); [reflexivity |]. destruct (Z.eqb_spec (entry l y) 0) as [| Ne]; [reflexivity |].
    assert (stage <= entry l y); [| specialize (Kr y); lia]. apply A; [apply Hxs; unfold undecided in U; lia |].
    apply orb_false_iff in La as [La _]. split; auto.
  - right. exists z. destruct Sv as (Uz & Az & Nz). apply Hxs in Hz.
    assert (Kz : order_key tb z = stage) by (rewrite Ke; destruct (Z.geb_spec z (n_decl_vars tb)); [lia |];
      destruct (Z.eqb_spec (entry l z) 0); [contradiction | exact Ez]).
    split; [exact Uz |]. split; [| auto]. rewrite Az. cbn [orb]. unfold is_defined.
    destruct (box_skip tb); [| reflexivity]. rewrite Kz, <- Ez. specialize (Kr z).
    destruct (Z.eqb_spec (entry l z) DVS_ORDER_LAST); [lia |]. apply andb_false_r.
Qed.

Lemma undecided_fixed c x : st_ok c -> 0 <= x < n_vars c -> undecided c x <-> ~ fixed c x.
Proof. intros K Hx. rewrite (fixed_raw c x K Hx). unfold undecided. tauto. Qed.

(** The mask's bits are its variables. *)
Lemma mask_candidates c : n_vars c <= 64 -> mask_ok c ->
  forall x, x ∈ mask_bits 64 (unassigned_mask c) <-> 0 <= x /\ Z.testbit (unassigned_mask c) x = true.
Proof.
  intros N64 [Lv _]. assert (Hi : forall x, 0 <= x -> Z.testbit (unassigned_mask c) x = true -> x < 64).
  { intros x Hx Tx. destruct (Lv x Hx Tx). lia. }
  apply mask_bits_spec; [| exact Hi | lia].
  destruct (Z.ltb_spec (unassigned_mask c) 0) as [Neg |]; [exfalso | assumption].
  destruct (Z.bits_iff_neg_ex (unassigned_mask c)) as [X _]. destruct (X Neg) as [k Hk].
  specialize (Hi (Z.max (k + 1) 64) ltac:(lia) (Hk (Z.max (k + 1) 64) ltac:(lia))). lia.
Qed.

Lemma candidates_valid c x : mask_right c -> x ∈ candidates c -> 0 <= x < n_vars c.
Proof.
  intros Mk. unfold candidates. destruct ((n_vars c <=? 64) && negb (unassigned_mask c =? 0)) eqn:Em.
  - apply andb_prop in Em as [N64 _]. specialize (Mk ltac:(lia)).
    rewrite (mask_candidates c ltac:(lia) Mk). intros [Hx Tx]. destruct (mk_live c Mk x Hx Tx). lia.
  - rewrite elem_of_seqZ. lia.
Qed.

(** The candidates hold a variable to choose if there is one. *)
Lemma candidates_some c y : st_ok c -> mask_right c -> undecided c y ->
  exists x, x ∈ candidates c /\ (late_var c x \/ now_var (stage_of c) c x).
Proof.
  intros K Mk U. unfold candidates. destruct ((n_vars c <=? 64) && negb (unassigned_mask c =? 0)) eqn:Em.
  - apply andb_prop in Em as [N64 Nz]. specialize (Mk ltac:(lia)). pose proof (mask_candidates c ltac:(lia) Mk) as Hm.
    destruct Mk as [Lv Fl].
    assert (M0 : 0 < unassigned_mask c).
    { destruct (Z.ltb_spec (unassigned_mask c) 0) as [Neg |]; [exfalso | lia].
      destruct (Z.bits_iff_neg_ex (unassigned_mask c)) as [X _]. destruct (X Neg) as [k Hk].
      destruct (Lv (Z.max (k + 1) 64) ltac:(lia) (Hk (Z.max (k + 1) 64) ltac:(lia))). lia. }
    destruct (ctz_bit (unassigned_mask c) M0) as (Ct & Tt & _). destruct (Lv _ Ct Tt) as [Lx Fx].
    set (x := NumTh.ctz (unassigned_mask c)) in *.
    assert (Ux : undecided c x) by (apply undecided_fixed; auto; lia).
    assert (Hx : x ∈ mask_bits 64 (unassigned_mask c)) by (apply Hm; auto).
    destruct (open_candidate c x Ux) as [La | [No | (z & No)]]; [eauto | eauto |].
    exists z. split; [| auto]. destruct No as (Uz & Az & _). assert (Vz : 0 <= z < n_vars c) by apply Uz.
    apply Hm. split; [lia |]. apply orb_false_iff in Az as [Az _].
    apply Fl; [lia | exact Vz | apply undecided_fixed; assumption | exact Az].
  - assert (In : forall x, undecided c x -> x ∈ seqZ 0 (n_vars c)) by (intros x [Hx _]; apply elem_of_seqZ; lia).
    destruct (open_candidate c y U) as [La | [No | (z & No)]]; [exists y | exists y | exists z]; split; auto; apply In, No.
Qed.

Lemma now_candidate c x : st_ok c -> mask_right c -> now_var (stage_of c) c x -> x ∈ candidates c.
Proof.
  intros K Mk (U & La & _). apply orb_false_iff in La as [Ax _]. unfold candidates.
  destruct ((n_vars c <=? 64) && negb (unassigned_mask c =? 0)) eqn:Em; [| apply elem_of_seqZ; destruct U; lia].
  apply andb_prop in Em as [N64 Nz]. specialize (Mk ltac:(lia)). apply (mask_candidates c ltac:(lia) Mk).
  assert (Vx : 0 <= x < n_vars c) by apply U. split; [lia |].
  apply (mk_full c Mk); [lia | exact Vx | apply undecided_fixed; assumption | exact Ax].
Qed.

Lemma mrv_chosen fair rng c : st_ok c -> n_vars c <= EXPR_NULL -> mask_right c ->
  let x := fst (mrv_select tb fair rng c) in
  x = EXPR_NULL /\ (forall y, 0 <= y < n_vars c -> fixed c y) \/
  0 <= x < n_vars c /\ ~ fixed c x /\
    ((now_var (stage_of c) c x /\ forall y, now_var (stage_of c) c y -> no_better c x y) \/
     (late_var c x /\ forall y, ~ now_var (stage_of c) c y)).
Proof.
  intros K Nv Mk x. unfold x, mrv_select. fold (stage_of c).
  set (b0 := mk_best EXPR_NULL UINT64_MAX 0 0 EXPR_NULL UINT64_MAX).
  assert (S0 : scanned (stage_of c) c [] b0) by (constructor; cbn; auto; intros _ y Hy; inversion Hy).
  destruct (scan_all fair (stage_of c) c (candidates c) Nv (fun x => candidates_valid c x Mk) [] (b0, rng) S0) as [V A N L].
  cbn [app] in V, N, L. destruct (fold_left _ _ (b0, rng)) as [b rng']. cbn [fst] in *.
  assert (Ud : forall x, undecided c x -> 0 <= x < n_vars c /\ ~ fixed c x)
    by (intros y U; split; [apply U | apply undecided_fixed; auto; apply U]).
  destruct (Z.eqb_spec (b_var b) EXPR_NULL) as [Ev | Nv']; cbn [negb].
  - destruct (Z.eq_dec (b_aux b) EXPR_NULL) as [Ea | Na].
    + left. split; [exact Ea |]. intros y Hy. destruct (fixed_dec c y) as [| Nf]; [assumption | exfalso].
      destruct (candidates_some c y K Mk ltac:(apply undecided_fixed; assumption)) as (z & Hz & [La | No]).
      * apply (L Ea z Hz La).
      * apply (N Ev z Hz No).
    + right. destruct A as [? | La]; [contradiction |]. destruct (Ud _ (proj1 La)) as [Hx Nf].
      split; [exact Hx |]. split; [exact Nf |]. right. split; [exact La |]. intros y Ny.
      apply (N Ev y (now_candidate c y K Mk Ny) Ny).
  - right. destruct V as [? | (Nw & _ & _ & O)]; [contradiction |]. destruct (Ud _ (proj1 Nw)) as [Hx Nf].
    split; [exact Hx |]. split; [exact Nf |]. left. split; [exact Nw |]. intros y Ny.
    apply (O y (now_candidate c y K Mk Ny) Ny).
Qed.

(** C22: Variable selection, ties broken by the index or at random.  The variable selected is undecided; it is one of the
    open stage, and none of that stage has a higher tier, or the same tier and
    fewer values left; an auxiliary or defined variable is selected only when
    the stage has none left, but then it is, which the headers say never happens;
    and no variable is selected only when all are decided. *)
Theorem mrv_exact fair rng c : st_ok c -> n_vars c <= EXPR_NULL -> mask_right c ->
  let x := fst (mrv_select tb fair rng c) in
  x = EXPR_NULL /\ (forall y, 0 <= y < n_vars c -> fixed c y) \/
  0 <= x < n_vars c /\ ~ fixed c x /\
    ((now_var (stage_of c) c x /\ forall y, now_var (stage_of c) c y -> no_better c x y) \/
     (late_var c x /\ forall y, ~ now_var (stage_of c) c y)).
Proof. apply mrv_chosen. Qed.
End Select.

(** *** Values *)

Definition within (v : variable) (lo hi r : Z) : Prop := int64 r /\ bval v lo <= bval v r <= bval v hi.

Lemma range_within v rng lo hi : int64 lo -> int64 hi -> bval v lo <= bval v hi -> within v lo hi (fst (rand_range64 rng lo hi)).
Proof. apply rand_range64_in. Qed.

Lemma b_max_spec v a b : bval v (var_b_max v a b) = Z.max (bval v a) (bval v b) /\ (int64 a -> int64 b -> int64 (var_b_max v a b)).
Proof. unfold var_b_max. rewrite var_b_lt_spec. destruct (Z.ltb_spec (bval v a) (bval v b)); split; auto; lia. Qed.
Lemma b_min_spec v a b : bval v (var_b_min v a b) = Z.min (bval v a) (bval v b) /\ (int64 a -> int64 b -> int64 (var_b_min v a b)).
Proof. unfold var_b_min. rewrite var_b_lt_spec. destruct (Z.ltb_spec (bval v a) (bval v b)); split; auto; lia. Qed.

Lemma entry_within v lo hi e elo ehi ew rng : int64 (e_lo e) /\ int64 (e_hi e) -> int64 lo -> int64 hi ->
  entry_part v lo hi e = Some (elo, ehi, ew) -> within v lo hi (fst (rand_range64 rng elo ehi)).
Proof.
  intros [El Eh] Il Ih. unfold entry_part, var_b_gt. destruct (weight e =? 0); [discriminate |].
  destruct (b_max_spec v (e_lo e) lo) as [Mx Ix]. destruct (b_min_spec v (e_hi e) hi) as [Mn In].
  rewrite var_b_lt_spec. destruct (Z.ltb_spec (bval v (var_b_min v (e_hi e) hi)) (bval v (var_b_max v (e_lo e) lo))); [discriminate |].
  intros [= <- <- _]. destruct (range_within v rng _ _ (Ix El Il) (In Eh Ih) ltac:(lia)) as [Ir Rr]. split; [exact Ir | lia].
Qed.

Lemma dist_within v es lo hi rng : Forall (fun e => int64 (e_lo e) /\ int64 (e_hi e)) es -> int64 lo -> int64 hi ->
  bval v lo <= bval v hi -> within v lo hi (fst (pick_value_dist rng v es lo hi)).
Proof.
  intros Fe Il Ih Le. unfold pick_value_dist. destruct (_ =? 0); [apply range_within; assumption |].
  destruct (rand64 rng) as [r rng1]. generalize (r mod fold_left (fun t e =>
    match entry_part v lo hi e with Some (_, _, ew) => t +w ew | None => t end) es 0). intros roll. generalize 0.
  revert rng1. induction es as [| e es IH]; intros rng1 cum; cbn [roll_entry]; [apply range_within; assumption |].
  rewrite list.Forall_cons in Fe. destruct Fe as [Fe Fs].
  destruct (entry_part v lo hi e) as [[[elo ehi] ew] |] eqn:E; [| apply IH, Fs].
  destruct (roll <? _); [| apply IH, Fs]. apply (entry_within v lo hi e elo ehi ew rng1 Fe Il Ih E).
Qed.

(** Unsigned bounds are their own words. *)
Lemma word_within v lo hi z : is_signed v = false -> 0 <= bval v lo <= bval v hi -> int64 lo -> int64 hi ->
  u64 lo <= z <= u64 hi -> within v lo hi (s64 z).
Proof.
  intros Sg L0 Il Ih Hz. split; [apply int64_s64 |]. unfold bval, beyond in *. rewrite Sg in *. cbn [negb andb] in *.
  pose proof (fits_u64 lo). pose proof (fits_u64 hi). unfold fits in *. destruct (64 <=? width v).
  - rewrite u64_s64, (u64_fits z) by (unfold fits; lia). exact Hz.
  - rewrite (u64_fits lo), (u64_fits hi) in Hz by (unfold fits, int64 in *; lia).
    rewrite s64_small by (unfold int64 in *; lia). exact Hz.
Qed.

(** In an ascending list the halving finds where the values stop being below. *)
Lemma bisect_splits below ds : (forall x y, x <= y -> below y = true -> below x = true) -> StronglySorted Z.le ds ->
  forall fuel lo hi r, 0 <= lo <= hi -> hi <= Z.of_nat (length ds) ->
  (forall i, 0 <= i < lo -> below (entry ds i) = true) ->
  (forall i, hi <= i < Z.of_nat (length ds) -> below (entry ds i) = false) ->
  Divisors.bisect fuel below ds lo hi = Some r ->
  0 <= r <= Z.of_nat (length ds) /\ (forall i, 0 <= i < r -> below (entry ds i) = true) /\
  (forall i, r <= i < Z.of_nat (length ds) -> below (entry ds i) = false).
Proof.
  intros Dn So.
  assert (Asc : forall i j, 0 <= i <= j -> j < Z.of_nat (length ds) -> entry ds i <= entry ds j).
  { clear - So. intros i j Hij Hj. unfold entry. assert (Hl : (Z.to_nat j < length ds)%nat) by lia.
    assert (Hn : (Z.to_nat i <= Z.to_nat j)%nat) by lia. revert Hl Hn. generalize (Z.to_nat i) (Z.to_nat j). clear - So.
    induction So as [| a l So IH Fa]; intros m n Hl Hn; [cbn in Hl; lia |].
    destruct n as [| n]; [replace m with O by lia; reflexivity |]. cbn in Hl. destruct m as [| m].
    - change (a <= default 0 (l !! n)). destruct (lookup_lt_is_Some_2 l n ltac:(lia)) as [y Hy]. rewrite Hy. cbn.
      rewrite list.Forall_lookup in Fa. apply (Fa n y Hy).
    - change (default 0 (l !! m) <= default 0 (l !! n)). apply IH; lia. }
  induction fuel as [| fuel IH]; intros lo hi r Hlo Hhi Lo Hi; cbn [Divisors.bisect];
    (destruct (Z.ltb_spec lo hi) as [Lt | Ge]; [| intros [= <-]; split; [lia |]; split; [exact Lo | intros; apply Hi; lia]]);
    [discriminate |].
  pose proof (Z.div_pos (hi - lo) 2 ltac:(lia) ltac:(lia)). pose proof (Z.div_lt (hi - lo) 2 ltac:(lia) ltac:(lia)).
  set (mid := lo + (hi - lo) / 2) in *.
  assert (Em : nth (Z.to_nat mid) ds 0 = entry ds mid) by (unfold entry; symmetry; rewrite nth_lookup; reflexivity).
  rewrite Em. destruct (below (entry ds mid)) eqn:Eb; apply IH; try lia; auto.
  - intros i Hi'. apply (Dn _ (entry ds mid)); [apply Asc; lia | exact Eb].
  - intros i Hi'. destruct (below (entry ds i)) eqn:Ei; [| reflexivity].
    rewrite <- Eb. symmetry. apply (Dn _ (entry ds i)); [apply Asc; lia | exact Ei].
Qed.

Lemma lower_splits d y j : StronglySorted Z.le (Divisors.d_divs d) -> Divisors.dvs_divisors_lower d y = Some j ->
  0 <= j <= Divisors.n_divs d /\ forall i, j <= i < Divisors.n_divs d -> y <= entry (Divisors.d_divs d) i.
Proof.
  intros So. unfold Divisors.dvs_divisors_lower. generalize 32%nat. intros fuel E.
  destruct (bisect_splits (fun v => v <? y) _ ltac:(cbn; intros; lia) So _ 0 (Divisors.n_divs d) j
    ltac:(unfold Divisors.n_divs; lia) ltac:(unfold Divisors.n_divs; lia) ltac:(intros; lia)
    ltac:(unfold Divisors.n_divs; intros; lia) E) as (B & _ & Hi).
  split; [exact B |]. intros i I. specialize (Hi i I). cbn in Hi. lia.
Qed.
Lemma upper_splits d y j : StronglySorted Z.le (Divisors.d_divs d) -> Divisors.dvs_divisors_upper d y = Some j ->
  0 <= j <= Divisors.n_divs d /\ forall i, 0 <= i < j -> entry (Divisors.d_divs d) i <= y.
Proof.
  intros So. unfold Divisors.dvs_divisors_upper. generalize 32%nat. intros fuel E.
  destruct (bisect_splits (fun v => v <=? y) _ ltac:(cbn; intros; lia) So _ 0 (Divisors.n_divs d) j
    ltac:(unfold Divisors.n_divs; lia) ltac:(unfold Divisors.n_divs; lia) ltac:(intros; lia)
    ltac:(unfold Divisors.n_divs; intros; lia) E) as (B & Lo & _).
  split; [exact B |]. intros i I. specialize (Lo i I). cbn in Lo. lia.
Qed.

Lemma divisors_sorted fuel room d n m r d' : StronglySorted Z.le (Divisors.d_divs d) ->
  Divisors.dvs_divisors fuel room d n m = Some (r, d') -> StronglySorted Z.le (Divisors.d_divs d').
Proof.
  intros So. unfold Divisors.dvs_divisors. cbv zeta.
  repeat case_match; try discriminate; intros [= <- <-]; cbn; try assumption; try constructor; apply Divisors.qsort_sorted.
Qed.

Section Draw.
Context {T M S : Type} `{DynStackLaws M S} `{Env}.
Context (tb : tables) (Tk : tables_ok tb) (factoring : nat) (room : Z -> bool).
Implicit Types c : ctx T M S.

(** The domain of [x] as the draws have it: patterns that are words if unsigned. *)
Definition draws_in c (x r : Z) : Prop := within (var c x) (var_lo64 (var c x)) (var_hi64 (var c x)) r.

Lemma draw_domain c x : st_ok c -> 0 <= x < n_vars c -> let v := var c x in
  int64 (var_lo64 v) /\ int64 (var_hi64 v) /\ bval v (var_lo64 v) <= bval v (var_hi64 v) /\
  (is_signed v = false -> 0 <= bval v (var_lo64 v)).
Proof.
  intros K Hx v. pose proof (K x Hx : good v) as G. destruct (int64_bounds v G) as [Il Ih].
  pose proof (gd_ne v G) as Ne. pose proof (gd_lo v G) as Lo. unfold lo_of, hi_of, vmin in *.
  split; [exact Il |]. split; [exact Ih |]. split; [exact Ne |]. intros Sg. rewrite Sg in Lo. exact Lo.
Qed.

Lemma word_draws c x z : st_ok c -> 0 <= x < n_vars c -> is_signed (var c x) = false ->
  u64 (var_lo64 (var c x)) <= z <= u64 (var_hi64 (var c x)) -> draws_in c x (s64 z).
Proof.
  intros K Hx Sg Hz. destruct (draw_domain c x K Hx) as (Il & Ih & Ne & Lo). apply word_within; auto.
Qed.

Lemma mod_draws c x v rng : st_ok c -> 0 <= x < n_vars c -> draws_in c x v ->
  draws_in c x (fst (pick_mod_aligned tb rng c x v (var_lo64 (var c x)) (var_hi64 (var c x)))).
Proof.
  intros K Hx Dv. unfold pick_mod_aligned. destruct (_ =? 0); cbn [orb]; [exact Dv |].
  destruct (is_signed (var c x)) eqn:Sg; [exact Dv |].
  revert v rng Dv. induction (mod_links tb) as [| ml ls IH]; intros v rng Dv; cbn [fold_left]; [exact Dv |].
  assert (D : draws_in c x (fst (mod_step tb c x (var_lo64 (var c x)) (var_hi64 (var c x)) (v, rng) ml))).
  { unfold mod_step. destruct (negb _); [exact Dv |]. cbv zeta. destruct (_ || _); [exact Dv |]. destruct (_ && _); [exact Dv |].
    destruct (rand64 rng) as [y rng1]. destruct (_ && _) eqn:E; [| exact Dv]. cbn [fst]. apply word_draws; auto. lia. }
  destruct (mod_step _ _ _ _ _ _ _) as [v1 rng1]. apply IH, D.
Qed.

Lemma divisors_draws c x v ds j0 j1 (n : nat) : st_ok c -> 0 <= x < n_vars c -> is_signed (var c x) = false -> draws_in c x v ->
  0 <= j0 < j1 -> (forall i, j0 <= i < j1 -> u64 (var_lo64 (var c x)) <= entry ds i <= u64 (var_hi64 (var c x))) ->
  forall rng, draws_in c x (fst (try_divisors tb n rng x v ds j0 j1)).
Proof.
  intros K Hx Sg Dv Hj Hd. induction n as [| n IH]; intros rng; cbn [try_divisors]; [exact Dv |].
  destruct (rand64 rng) as [r rng1]. destruct (negb _); [| apply IH]. cbn [fst]. apply word_draws; auto.
  apply Hd. pose proof (Z.mod_pos_bound r (j1 - j0) ltac:(lia)). lia.
Qed.

(** What one side of a product gives, and the cache after it. *)
Definition side_ok c x (r : option Z * choices) : Prop :=
  choices_ok (snd r) /\ match fst r with Some v => draws_in c x v | None => True end.

Lemma side_draws h c x v ml p q : choices_ok h -> st_ok c -> 0 <= x < n_vars c -> is_signed (var c x) = false ->
  draws_in c x v -> side_ok c x (mul_side tb factoring room h c x v (var_lo64 (var c x)) (var_hi64 (var c x)) ml p q).
Proof.
  intros Ok K Hx Sg Dv. assert (No : side_ok c x (None, h)) by (split; [exact Ok | exact Logic.I]).
  unfold mul_side. cbv zeta. repeat (match goal with |- side_ok _ _ (if ?b then (None, h) else _) => destruct b; [exact No |] end).
  set (lower := if _ <? u64 (var_lo64 (var c x)) then _ else _). set (upper := if _ >? u64 (var_hi64 (var c x)) then _ else _).
  assert (Lw : u64 (var_lo64 (var c x)) <= lower) by (subst lower; case_match; lia).
  assert (Up : upper <= u64 (var_hi64 (var c x))) by (subst upper; case_match; lia). clearbody lower upper.
  destruct (Divisors.dvs_divisors _ _ _ _ _) as [[n d] |] eqn:Ed; [| exact No].
  pose proof (divisors_sorted _ _ _ _ _ _ _ (ch_divs h Ok) Ed) as So.
  assert (Ok' : choices_ok (with_divs h d)) by (destruct Ok; constructor; assumption).
  assert (No' : side_ok c x (None, with_divs h d)) by (split; [exact Ok' | exact Logic.I]).
  destruct (n =? 0); [exact No' |].
  destruct (Divisors.dvs_divisors_lower d lower) as [j0 |] eqn:E0; [| exact No'].
  destruct (Divisors.dvs_divisors_upper d upper) as [j1 |] eqn:E1; [| exact No'].
  destruct (lower_splits d lower j0 So E0) as [B0 H0']. destruct (upper_splits d upper j1 So E1) as [B1 H1'].
  rewrite Z.geb_leb. destruct (Z.leb_spec j1 j0); [exact No' |].
  pose proof (divisors_draws c x v (Divisors.d_divs d) j0 j1 8 K Hx Sg Dv ltac:(lia)) as Td.
  specialize (Td ltac:(intros i Hi; specialize (H0' i ltac:(lia)); specialize (H1' i ltac:(lia)); lia)).
  specialize (Td (rng_state (with_divs h d))).
  destruct (try_divisors _ _ _ _ _ _ _ _) as [r rng]. split; [destruct Ok'; constructor; assumption | exact Td].
Qed.

Lemma mul_draws h c x v : choices_ok h -> st_ok c -> 0 <= x < n_vars c -> draws_in c x v ->
  let r := pick_mul_divisor tb factoring room h c x v (var_lo64 (var c x)) (var_hi64 (var c x)) in
  choices_ok (snd r) /\ draws_in c x (fst r).
Proof.
  intros Ok K Hx Dv. unfold pick_mul_divisor. destruct (_ =? 0); cbn [orb]; [auto |].
  destruct (is_signed (var c x)) eqn:Sg; [auto |].
  revert h Ok. induction (mul_links tb) as [| ml ls IH]; intros h Ok; cbn [mul_loop]; [auto |].
  destruct (_ =? _); [apply IH, Ok |].
  pose proof (side_draws h c x v ml (l_a ml) (l_b ml) Ok K Hx Sg Dv) as [O1 D1].
  destruct (mul_side _ _ _ h _ _ _ _ _ _ _ _) as [[r |] h1]; [auto |]. cbn [fst snd] in *.
  pose proof (side_draws h1 c x v ml (l_b ml) (l_a ml) O1 K Hx Sg Dv) as [O2 D2].
  destruct (mul_side _ _ _ h1 _ _ _ _ _ _ _ _) as [[r |] h2]; [auto |]. apply IH, O2.
Qed.

Lemma fresh_draws h c x : choices_ok h -> st_ok c -> 0 <= x < n_vars c ->
  let r := fresh_value tb factoring room h c x (var_lo64 (var c x)) (var_hi64 (var c x)) in
  choices_ok (snd r) /\ draws_in c x (fst r).
Proof.
  intros Ok K Hx. destruct (draw_domain c x K Hx) as (Il & Ih & Ne & _). unfold fresh_value.
  destruct (dists tb !! x) as [es |] eqn:Ed.
  - pose proof (dist_within (var c x) es _ _ (rng_state h) (tk_dists tb Tk x es Ed) Il Ih Ne) as D.
    destruct (pick_value_dist _ _ _ _ _) as [v rng]. split; [destruct Ok; constructor; assumption | exact D].
  - pose proof (range_within (var c x) (rng_state h) _ _ Il Ih Ne) as D. destruct (rand_range64 _ _ _) as [v rng].
    pose proof (mod_draws c x v rng K Hx D) as D1. destruct (pick_mod_aligned _ _ _ _ _ _ _) as [v1 rng1].
    apply mul_draws; auto. destruct Ok; constructor; assumption.
Qed.

Lemma still_good_draws c x v : int64 v -> still_good tb c x v = true -> draws_in c x v.
Proof.
  intros Iv. unfold still_good, var_b_gt. rewrite !var_b_lt_spec. intros E. split; [exact Iv |].
  destruct (Z.ltb_spec (bval (var c x) v) (bval (var c x) (var_lo64 (var c x)))); [discriminate |].
  destruct (Z.ltb_spec (bval (var c x) (var_hi64 (var c x))) (bval (var c x) v)); [discriminate | lia].
Qed.

Lemma draw_law opts h c x : choices_ok h -> st_ok c -> 0 <= x < n_vars c ->
  let r := draw_value tb factoring room opts h c x in choices_ok (snd r) /\ draws_in c x (fst r).
Proof.
  intros Ok K Hx. unfold draw_value. cbv zeta.
  set (saved := match _ with Some p => _ | None => None end).
  assert (Hs : forall v, saved = Some v -> draws_in c x v).
  { subst saved. destruct (saves_phase opts); [| discriminate]. destruct (phases h) as [p |] eqn:Ep; [| discriminate].
    destruct (still_good _ _ _ _) eqn:E; [| discriminate]. intros v [= <-]. apply still_good_draws; [| exact E].
    apply (ch_phases h Ok p x Ep). }
  set (kept := match default KEEP_NONE _ with KEEP_SET => _ | _ => None end).
  assert (Hk : forall v, kept = Some v -> draws_in c x v).
  { subst kept. destruct (default _ _); try discriminate. destruct (_ && still_good _ _ _ _) eqn:E; [| discriminate].
    intros v [= <-]. apply andb_prop in E as [_ E]. apply still_good_draws; [apply (ch_kept h Ok) | exact E]. }
  clearbody saved kept. destruct saved as [v |]; [split; [exact Ok | apply Hs; reflexivity] |].
  destruct kept as [v |]; [split; [exact Ok | apply Hk; reflexivity] |].
  destruct (fresh_draws h c x Ok K Hx) as [O1 D1]. destruct (fresh_value _ _ _ _ _ _ _ _) as [v h1]. cbn [fst snd] in *.
  destruct (draw_domain c x K Hx) as (Il & Ih & _ & _).
  assert (Hl : hole_list (holes_of tb x)).
  { unfold holes_of. destruct (holes tb !! x) as [l |] eqn:E; [apply (tk_holes tb Tk x l E) |].
    constructor; cbn; [constructor | constructor | lia]. }
  destruct D1 as [Iv Rv]. pose proof (pick_in (var c x) (rng_state h1) (holes_of tb x) v _ _ Hl Il Ih Iv Rv) as D2.
  destruct (pick_avoiding_holes _ _ _ _ _) as [v2 rng]. cbn [fst] in D2.
  assert (O2 : choices_ok (with_rng h1 rng)) by (destruct O1; constructor; assumption).
  repeat case_match; cbn [fst snd]; (split; [| exact D2]); auto.
  destruct O2 as [Ka Pa Da]. constructor; [| exact Pa | exact Da]. intros y. cbn.
  destruct (Z.eq_dec x y) as [<- | Ne]; [rewrite lookup_insert_eq; apply D2 | rewrite lookup_insert_ne by exact Ne; apply Ka].
Qed.

#[export] Instance seeded_laws (split_random : bool) (opts : option solve_opts) :
  ChooserLaws (T := T) (M := M) (S := S) choices (Chooser0 := seeded_chooser tb factoring room split_random opts).
Proof.
  unshelve econstructor; [exact choices_ok | ..]; cbn.
  - intros h c x h' Ok K W Mk. pose proof (mrv_chosen tb Tk (fair opts) (rng_state h) c K (wi_size c W) Mk) as D.
    destruct (mrv_select _ _ _ _) as [y rng]. intros [= <- <-]. split; [destruct Ok; constructor; assumption |].
    destruct D as [X | (Hx & Nf & _)]; auto.
  - intros h c x v h' Ok K Hx E. destruct (draw_law opts h c x Ok K Hx) as [O D]. rewrite E in O, D. split; [exact O |]. exact D.
  - intros h c x v b h' Ok _ _ _ _ _ [= <- <-]. auto.
  - intros h x counted Ok. unfold draw_again. repeat case_match; cbn; auto; destruct Ok; constructor; assumption.
  - intros h lo v hi Ok. unfold pick_upper_first. repeat case_match; cbn; auto; destruct Ok; constructor; assumption.
  - intros h x b Ok. unfold value_failed. repeat case_match; cbn; auto; destruct Ok; constructor; assumption.
  - intros h x v [Ka Pa Da]. unfold keep_phase. constructor; [exact Ka | | exact Da]. cbn. intros p y.
    destruct (phases h) as [q |] eqn:Eq; [| discriminate]. intros [= <-].
    destruct (Z.eq_dec x y) as [<- | Ne]; [rewrite lookup_insert_eq; apply int32_64, int32_s32 |].
    rewrite lookup_insert_ne by exact Ne. apply (Pa q y eq_refl).
  - intros h [Ka Pa Da]. constructor; assumption.
Defined.
End Draw.
End Choose.
