(* ===== verification/Build.v ===== *)
(** * Build: adding propagators
    (src/src/c/dvs_prop_templates.c, [_alloc_prop]; src/src/c/dvs_ctx.c)

    A new propagator takes a slot of the tables, an offset of the pool, the
    head of the watcher chain of each variable it watches, and a place in the
    queue.  The file gives the operation, the growth of the tables, and the
    proof that it keeps the wiring and adds exactly one constraint. *)

From Stdlib Require Import ZArith Lia ZifyBool Bool.
From stdpp Require Import base gmap list numbers.
From S2P Require Import Prelude Vars Ctx Queue DynStack Trail GuardIx Wake Store Tighten Propagate.
Import Vars Ctx Queue DynStack Trail GuardIx Wake Store Tighten Propagate.
Open Scope Z_scope.

Module Build.

(** The context's memory: whether a table block of so many bytes is granted,
    and the offset a pool allocation answers, [EXPR_NULL] if it is full. *)
Class BuildEnv (T : Type) := {
  tbl_alloc : Z -> bool;
  spool_alloc : gmap Z (propagator T) -> Z -> Z }.
Class BuildEnvLaws (T : Type) `{BuildEnv T} := {
  spool_fresh (m : gmap Z (propagator T)) bytes : spool_alloc m bytes <> EXPR_NULL ->
    0 <= spool_alloc m bytes < EXPR_NULL /\ m !! spool_alloc m bytes = None }.

Definition DVS_MAX_PROPS : Z := 2 ^ 16 - 1.
Definition PROP_ROW : Z := 12.

Definition next_cap (cap n : Z) : Z :=
  let c := u64 (cap * 2) in
  let c := if c <? 64 then 64 else c in
  let c := if c <? n then n else c in
  let c := if c >? 2 ^ 30 - 1 then n else c in
  u32 c.

Section Ops.
Context {T M S : Type} `{BuildEnv T}.
Implicit Types c : ctx T M S.

(** The old entries, and the new ones "nothing". *)
Definition grown (l : option (list Z)) (old cap : Z) : list Z :=
  take (Z.to_nat old) (default [] l) ++ replicate (Z.to_nat (cap - old)) EXPR_NULL.

Definition reserve_props c (n : Z) : bool * ctx T M S :=
  let old := n_prop_refs_capacity c in
  if n <=? old then (true, c) else
  if n >? DVS_MAX_PROPS then (false, c) else
  let cap := next_cap old n in
  let cap := if cap >? DVS_MAX_PROPS then DVS_MAX_PROPS else cap in
  if negb (tbl_alloc (cap * PROP_ROW)) then (false, c) else
  (true, set_n_prop_refs_capacity
    (set_prop_guard_vars
      (set_prop_refs c (Some (grown (prop_refs c) old cap)))
      (Some (grown (prop_guard_vars c) old cap))) cap).

Definition room_prop c : bool * ctx T M S :=
  if n_props c <? n_prop_refs_capacity c then (true, c) else reserve_props c (n_props c + 1).

(** [ws->next_watchers\[slot\] = head], for the watch [slot]. *)
Definition set_next_watcher (p : propagator T) (slot : Z) (head : Z) : propagator T :=
  mk_prop (template p) (queue_next p) (prop_id p) (priority p) (pflags p)
    (alter (fun w => (fst w, head)) (Z.to_nat slot) (watches p)).
Definition register_watcher c (prop_ref var_id slot : Z) : ctx T M S :=
  let head := chain_head c var_id in
  let c := update_prop c prop_ref (fun p => set_next_watcher p slot head) in
  set_watcher_heads c (Some (<[Z.to_nat var_id := prop_ref]> (default [] (watcher_heads c)))).
Fixpoint register_watchers c (prop_ref slot : Z) (var_ids : list Z) : ctx T M S :=
  match var_ids with
  | [] => c
  | v :: var_ids => register_watchers (register_watcher c prop_ref v slot) prop_ref (slot + 1) var_ids
  end.

(** The header and the watch section of the new block. *)
Definition new_prop (t : T) (id prio : Z) (var_ids : list Z) : propagator T :=
  mk_prop t EXPR_NULL id prio 0 (map (fun v => (v, EXPR_NULL)) var_ids).

Definition alloc_prop c (t : T) (prio : Z) (var_ids : list Z) (total_bytes : Z) : Z * ctx T M S :=
  let '(ok, c) := room_prop c in
  if negb ok then (EXPR_NULL, c) else
  let ref := spool_alloc (pool c) total_bytes in
  if ref =? EXPR_NULL then (EXPR_NULL, c) else
  let id := u16 (n_props c) in
  let c := set_n_props (put_prop c ref (new_prop t id prio var_ids)) (u32 (n_props c + 1)) in
  let c := register_watchers c ref 0 var_ids in
  let c := prop_enqueue c ref in
  let c :=
    match prop_refs c with
    | Some refs => if id <? n_prop_refs_capacity c then set_prop_refs c (Some (<[Z.to_nat id := ref]> refs)) else c
    | None => c
    end in
  (ref, c).
End Ops.

(** ** The tables *)

Section Tables.
Context {T M S : Type} `{Env} `{BuildEnv T} `{!BuildEnvLaws T}.
Implicit Types c : ctx T M S.

(** A context as the constructors keep it. *)
Record built c : Prop := {
  bt_wired : wired c;
  bt_refs : length (default [] (prop_refs c)) = Z.to_nat (n_prop_refs_capacity c);
  bt_guards : length (guards c) = Z.to_nat (n_prop_refs_capacity c);
  bt_some : 0 < n_prop_refs_capacity c -> prop_refs c <> None /\ prop_guard_vars c <> None;
  bt_cap : 0 <= n_props c <= n_prop_refs_capacity c /\ n_prop_refs_capacity c <= DVS_MAX_PROPS;
  bt_ids : forall r p, pool c !! r = Some p -> 0 <= prop_id p < n_props c /\ ref_at c (prop_id p) = r;
  bt_free : forall i, n_props c <= i -> ref_at c i = EXPR_NULL /\ guard_var (guards c) i = EXPR_NULL;
  bt_heads : Z.of_nat (length (default [] (watcher_heads c))) = n_vars c }.

(** Growing a table keeps every entry. *)
Lemma grown_entries (l : option (list Z)) old cap i :
  length (default [] l) = Z.to_nat old ->
  default EXPR_NULL (grown l old cap !! i) = default EXPR_NULL (default [] l !! i).
Proof.
  intros L. unfold grown. rewrite <- L, firstn_all.
  destruct (Nat.lt_ge_cases i (length (default [] l))).
  - rewrite lookup_app_l by lia. reflexivity.
  - rewrite lookup_app_r by lia. rewrite (lookup_ge_None_2 (default [] l)) by lia.
    destruct (replicate _ _ !! _) as [x |] eqn:E; [| reflexivity].
    apply lookup_replicate in E as [-> _]. reflexivity.
Qed.
Lemma grown_length (l : option (list Z)) old cap :
  length (default [] l) = Z.to_nat old -> 0 <= old <= cap -> length (grown l old cap) = Z.to_nat cap.
Proof.
  intros L B. unfold grown. rewrite length_app, length_replicate, length_take. lia.
Qed.

Lemma next_cap_ge cap n : 0 <= cap < 2 ^ 30 -> 0 <= n <= DVS_MAX_PROPS -> n <= next_cap cap n.
Proof.
  unfold next_cap, DVS_MAX_PROPS, u64, u32. intros Hc Hn. rewrite (Z.mod_small (cap * 2)) by lia.
  rewrite !Z.gtb_ltb.
  repeat match goal with |- context [Z.ltb ?a ?b] => destruct (Z.ltb_spec a b) end; rewrite Z.mod_small; lia.
Qed.

(** The context [c] with its per-propagator tables grown. *)
Record roomy c c' : Prop := {
  rm_frame : c' = set_n_prop_refs_capacity (set_prop_guard_vars (set_prop_refs c (prop_refs c'))
      (prop_guard_vars c')) (n_prop_refs_capacity c');
  rm_refs : forall i, ref_at c' i = ref_at c i;
  rm_guards : forall i, guard_var (guards c') i = guard_var (guards c) i;
  rm_lens : length (default [] (prop_refs c')) = Z.to_nat (n_prop_refs_capacity c') /\
    length (guards c') = Z.to_nat (n_prop_refs_capacity c');
  rm_some : 0 < n_prop_refs_capacity c' -> prop_refs c' <> None /\ prop_guard_vars c' <> None;
  rm_cap : n_prop_refs_capacity c <= n_prop_refs_capacity c' <= DVS_MAX_PROPS }.

Lemma roomy_refl c : built c -> roomy c c.
Proof.
  intros B. constructor; auto; [destruct c; reflexivity | | apply B |].
  - split; apply B.
  - destruct (bt_cap _ B). lia.
Qed.

Lemma reserve_spec c n : built c -> 0 <= n -> let '(ok, c') := reserve_props c n in
  roomy c c' /\ (ok = true -> n <= n_prop_refs_capacity c') /\ (ok = false -> c' = c).
Proof.
  intros B Hn. unfold reserve_props. destruct (bt_cap _ B) as [Bp Bc]. pose proof (roomy_refl c B) as Rf.
  destruct (Z.leb_spec n (n_prop_refs_capacity c)); [auto |].
  rewrite Z.gtb_ltb. destruct (Z.ltb_spec DVS_MAX_PROPS n); [split; [exact Rf | split; [discriminate | auto]] |].
  pose proof (next_cap_ge (n_prop_refs_capacity c) n) as Ge. unfold DVS_MAX_PROPS in *.
  specialize (Ge ltac:(lia) ltac:(lia)). rewrite Z.gtb_ltb.
  set (cap := if 2 ^ 16 - 1 <? next_cap (n_prop_refs_capacity c) n then 2 ^ 16 - 1
              else next_cap (n_prop_refs_capacity c) n).
  assert (Hc : n <= cap <= 2 ^ 16 - 1) by (subst cap; destruct (Z.ltb_spec (2 ^ 16 - 1) (next_cap (n_prop_refs_capacity c) n)); lia).
  clearbody cap. destruct (tbl_alloc _); cbn [negb]; [| split; [exact Rf | split; [discriminate | auto]]].
  pose proof (bt_refs _ B) as Lr. pose proof (bt_guards _ B) as Lg.
  split; [| split; [cbn; lia | discriminate]].
  constructor; cbn [prop_refs prop_guard_vars n_prop_refs_capacity set_n_prop_refs_capacity
    set_prop_guard_vars set_prop_refs].
  - destruct c; reflexivity.
  - intros i. apply grown_entries, Lr.
  - intros i. apply grown_entries, Lg.
  - split; apply grown_length; auto; lia.
  - intros _. split; discriminate.
  - unfold DVS_MAX_PROPS. lia.
Qed.
End Tables.

(** ** Registering the watches *)

Section Register.
Context {T M S : Type} `{Env} `{BuildEnv T}.
Implicit Types c : ctx T M S.

Lemma next_of_app ws v n ws' : v ∉ map fst ws -> next_of (ws ++ (v, n) :: ws') v = n.
Proof.
  induction ws as [| [u m] ws IH]; cbn [next_of map fst app]; intros Nv.
  - rewrite Z.eqb_refl. reflexivity.
  - destruct (Z.eqb_spec u v) as [-> | Ne]; [elim Nv; left |]. apply IH. intros Hv. apply Nv. right. exact Hv.
Qed.

(** What registering the watches from [slot] on does: the propagator's links
    hold the old heads, the heads the propagator. *)
Record registered c (ref slot : Z) (p : propagator T) (ids : list Z) c' : Prop := {
  rg_frame : exists p' h', c' = set_watcher_heads (set_pool c (<[ref := p']> (pool c))) h' /\
    p' = mk_prop (template p) (queue_next p) (prop_id p) (priority p) (pflags p) (watches p') /\
    map fst (watches p') = map fst (watches p) /\
    take (Z.to_nat slot) (watches p') = take (Z.to_nat slot) (watches p) /\
    (forall v, v ∈ ids -> v ∉ map fst (take (Z.to_nat slot) (watches p)) ->
       next_of (watches p') v = chain_head c v);
  rg_heads : watcher_heads c' <> None /\
    length (default [] (watcher_heads c')) = length (default [] (watcher_heads c));
  rg_head : forall v, 0 <= v < n_vars c -> chain_head c' v = if decide (v ∈ ids) then ref else chain_head c v }.

Lemma register_spec ids : forall c ref slot p,
  pool c !! ref = Some p -> 0 <= slot -> drop (Z.to_nat slot) (map fst (watches p)) = ids ->
  (forall v, v ∈ ids -> 0 <= v < n_vars c) ->
  Z.of_nat (length (default [] (watcher_heads c))) = n_vars c -> watcher_heads c <> None ->
  registered c ref slot p ids (register_watchers c ref slot ids).
Proof.
  induction ids as [| v ids IH]; intros c ref slot p Hp Hs Hd Hv Lh Nh; cbn [register_watchers].
  - constructor; [| auto |].
    + exists p, (watcher_heads c). rewrite insert_id by exact Hp.
      split; [destruct c; reflexivity |]. split; [destruct p; reflexivity |].
      split; [reflexivity |]. split; [reflexivity |]. intros v X. inversion X.
    + intros v _. destruct (decide _) as [X | _]; [inversion X | reflexivity].
  - pose proof (Hv v ltac:(left)) as Bv.
    set (k := Z.to_nat slot) in *.
    assert (Hk : exists n, watches p !! k = Some (v, n)).
    { assert (E : map fst (watches p) !! k = Some v).
      { rewrite <- (Nat.add_0_r k), <- lookup_drop, Hd. reflexivity. }
      rewrite list_lookup_fmap in E. destruct (watches p !! k) as [[u n] |]; [| discriminate].
      injection E as ->. eauto. }
    destruct Hk as [n Hk].
    set (p1 := set_next_watcher p slot (chain_head c v)).
    set (c1 := register_watcher c ref v slot).
    assert (E1 : c1 = set_watcher_heads (set_pool c (<[ref := p1]> (pool c)))
      (Some (<[Z.to_nat v := ref]> (default [] (watcher_heads c))))).
    { unfold c1, register_watcher, update_prop, put_prop. rewrite Hp. reflexivity. }
    assert (Ew : watches p1 = take k (watches p) ++ (v, chain_head c v) :: drop (Datatypes.S k) (watches p)).
    { cbn [p1 set_next_watcher watches]. fold k. pose proof (take_drop_middle _ _ _ Hk) as Em.
      apply lookup_lt_Some in Hk as Lk. rewrite <- Em at 1. rewrite alter_app_r_alt by (rewrite length_take; lia).
      rewrite length_take. replace (k - k `min` length (watches p))%nat with 0%nat by lia. reflexivity. }
    assert (Em : map fst (watches p1) = map fst (watches p)).
    { cbn [p1 set_next_watcher watches]. apply list_eq. intros j. rewrite !list_lookup_fmap. fold k.
      destruct (decide (j = k)) as [-> | Ne]; [rewrite list_lookup_alter_eq, Hk; reflexivity |].
      rewrite list_lookup_alter_ne by congruence. reflexivity. }
    assert (Lk : length (take k (watches p)) = k).
    { apply lookup_lt_Some in Hk. rewrite length_take. lia. }
    assert (N1 : n_vars c1 = n_vars c) by (rewrite E1; reflexivity).
    assert (H1 : forall u, 0 <= u -> chain_head c1 u = if decide (u = v) then ref else chain_head c u).
    { intros u Hu. unfold chain_head. rewrite E1. cbn [watcher_heads set_watcher_heads from_option id].
      destruct (decide (u = v)) as [-> | Ne]; [rewrite list_lookup_insert_eq by lia; reflexivity |].
      rewrite list_lookup_insert_ne by lia. reflexivity. }
    destruct (IH c1 ref (slot + 1) p1) as [F Hh Hd'].
    + rewrite E1. cbn [pool set_watcher_heads set_pool]. apply lookup_insert_eq.
    + lia.
    + rewrite Em. replace (Z.to_nat (slot + 1)) with (Datatypes.S k) by lia.
      rewrite <- (Nat.add_1_r k), <- drop_drop, Hd. reflexivity.
    + intros u Hu. rewrite N1. apply Hv. right. exact Hu.
    + rewrite N1, <- Lh, E1. cbn [watcher_heads set_watcher_heads from_option id]. rewrite length_insert. reflexivity.
    + rewrite E1. discriminate.
    + replace (Z.to_nat (slot + 1)) with (Datatypes.S k) in F by lia.
      destruct F as (p' & h' & Ef & Ep & Emf & Etk & Nx).
      assert (Sp : exists tl, watches p' = take k (watches p) ++ (v, chain_head c v) :: tl).
      { exists (drop (Datatypes.S k) (watches p')). rewrite <- (take_drop (Datatypes.S k) (watches p')) at 1.
        rewrite Etk, Ew. rewrite take_app. rewrite Lk.
        rewrite (take_ge (take k (watches p))) by lia. replace (Datatypes.S k - k)%nat with 1%nat by lia.
        cbn [take]. rewrite <- app_assoc. reflexivity. }
      destruct Sp as [tl Sp].
      constructor.
      * exists p', h'. split.
        { rewrite Ef, E1. unfold set_watcher_heads, set_pool. cbn. rewrite insert_insert_eq. reflexivity. }
        split; [exact Ep |]. split; [congruence |]. split.
        { fold k. rewrite Sp, take_app_le by lia. rewrite take_ge by lia. reflexivity. }
        fold k. intros u Hu Nu. destruct (decide (u = v)) as [-> | Ne].
        { rewrite Sp. apply next_of_app, Nu. }
        apply elem_of_cons in Hu as [-> | Hu]; [congruence |].
        rewrite (Nx u Hu); [rewrite H1 by (apply Hv; right; exact Hu); rewrite decide_False by exact Ne; reflexivity |].
        rewrite Ew, take_app, Lk, (take_ge (take k (watches p))) by lia.
        replace (Datatypes.S k - k)%nat with 1%nat by lia. cbn [take]. rewrite map_app.
        rewrite elem_of_app. intros [X | X]; [contradiction |]. cbn in X.
        apply list_elem_of_singleton in X. congruence.
      * destruct Hh as [Hh1 Hh2]. split; [exact Hh1 |]. rewrite Hh2, E1.
        cbn [watcher_heads set_watcher_heads from_option id]. apply length_insert.
      * intros u Hu. rewrite Hd' by (rewrite N1; exact Hu). rewrite H1 by lia.
        destruct (decide (u ∈ ids)) as [X | X]; [rewrite decide_True by (right; exact X); reflexivity |].
        destruct (decide (u = v)) as [-> | Ne]; [rewrite decide_True by left; reflexivity |].
        rewrite decide_False; [reflexivity |]. intros Y. apply elem_of_cons in Y as [-> | Y]; contradiction.
Qed.
End Register.

(** ** A new propagator *)

Section Alloc.
Context {T M S : Type} `{Env} `{BuildEnv T} `{!BuildEnvLaws T}.
Implicit Types c : ctx T M S.

Lemma guard_id_eq c p : guard_id c p =
  if prop_id p <? n_prop_refs_capacity c then guard_var (guards c) (prop_id p) else EXPR_NULL.
Proof.
  unfold guard_id, guards. destruct (prop_guard_vars c); [reflexivity |].
  destruct (_ <? _); reflexivity.
Qed.

Lemma guarded_ext g g' v n : (forall i, guard_var g' i = guard_var g i) -> guarded g' v n = guarded g v n.
Proof.
  intros E. unfold guarded. induction (seqZ 0 n) as [| i l IH]; [reflexivity |].
  rewrite !filter_cons, IH, E. reflexivity.
Qed.
Lemma gix_lists_ext g g' x : (forall i, guard_var g' i = guard_var g i) -> gix_lists g x -> gix_lists g' x.
Proof.
  intros E L ix Ex D v Hv. rewrite (guarded_ext g g' v _ E). apply L; assumption.
Qed.

Lemma roomy_fields c c' : roomy c c' ->
  vars c' = vars c /\ pool c' = pool c /\ queue c' = queue c /\ watcher_heads c' = watcher_heads c /\
  n_props c' = n_props c /\ guard_ix c' = guard_ix c.
Proof. intros R. rewrite (rm_frame _ _ R). repeat split. Qed.

Lemma roomy_guard c c' p : built c -> roomy c c' -> 0 <= prop_id p < n_props c ->
  guard_id c' p = guard_id c p.
Proof.
  intros B R Hp. rewrite !guard_id_eq, (rm_guards _ _ R). destruct (bt_cap _ B). pose proof (rm_cap _ _ R).
  destruct (Z.ltb_spec (prop_id p) (n_prop_refs_capacity c)), (Z.ltb_spec (prop_id p) (n_prop_refs_capacity c')); lia.
Qed.

Lemma roomy_built c c' : built c -> roomy c c' -> built c'.
Proof.
  intros B R. pose proof (bt_wired _ B) as W. destruct (roomy_fields c c' R) as (E1 & E2 & E3 & E4 & E5 & E6).
  assert (Nv : n_vars c' = n_vars c) by (unfold n_vars; rewrite E1; reflexivity).
  destruct (rm_lens _ _ R) as [L1 L2]. destruct (bt_cap _ B) as [B1 B2]. pose proof (rm_cap _ _ R) as Rc.
  constructor; rewrite ?E2, ?E4, ?E5, ?Nv; auto.
  - constructor; rewrite ?E2, ?E4, ?E5, ?E6, ?Nv.
    + destruct (wi_queue _ W) as [qs Q]. exists qs. apply (qrep_links c); [exact Q | exact E3 | rewrite E2; reflexivity].
    + unfold chain_head. rewrite E4. apply (wi_chain _ W).
    + apply (wi_heads _ W).
    + apply (wi_watch _ W).
    + intros i. rewrite (rm_guards _ _ R). apply (wi_pos _ W).
    + intros r p Hp. destruct (bt_ids _ B r p Hp) as [Hi Hr]. rewrite (roomy_guard c c' p B R Hi).
      intros Hg. destruct (wi_guard _ W r p Hp Hg) as (G1 & G2 & G3 & G4 & G5).
      rewrite (rm_refs _ _ R). split; [exact G1 |]. split; [exact G2 |].
      split; [apply (rm_some _ _ R); lia | auto].
    + apply (gix_lists_ext (guards c)); [apply (rm_guards _ _ R) | apply (wi_gix _ W)].
    + apply (wi_size _ W).
    + lia.
  - apply (rm_some _ _ R).
  - lia.
  - intros r p Hp. destruct (bt_ids _ B r p Hp). rewrite (rm_refs _ _ R). auto.
  - intros i Hi. rewrite (rm_refs _ _ R), (rm_guards _ _ R). apply (bt_free _ B i Hi).
  - apply (bt_heads _ B).
Qed.

(** Chains and queues do not see an offset that is not theirs. *)
Lemma linked_fresh (m : gmap Z (propagator T)) ref p l : m !! ref = None ->
  forall f, linked m f l -> linked (<[ref := p]> m) f l.
Proof.
  intros Fr. induction l as [| r l IH]; intros f; cbn [linked]; [auto |].
  intros (-> & q & Hq & L). split; [reflexivity |]. exists q. split; [| apply IH, L].
  rewrite lookup_insert_ne; [exact Hq | congruence].
Qed.
Lemma chained_fresh (m : gmap Z (propagator T)) v ref p l : m !! ref = None ->
  forall f, chained m v f l -> chained (<[ref := p]> m) v f l.
Proof.
  intros Fr. induction l as [| r l IH]; intros f; cbn [chained]; [auto |].
  intros (-> & Ne & q & Hq & L). split; [reflexivity |]. split; [exact Ne |]. exists q. split; [| apply IH, L].
  rewrite lookup_insert_ne; [exact Hq | congruence].
Qed.
Lemma chained_in (m : gmap Z (propagator T)) v l : forall f, chained m v f l ->
  forall r, r ∈ l -> is_Some (m !! r).
Proof.
  induction l as [| x l IH]; intros f Ch r Hr; [inversion Hr |]. destruct Ch as (-> & _ & p & Hp & Ch).
  apply elem_of_cons in Hr as [-> | Hr]; [eauto | apply (IH _ Ch r Hr)].
Qed.

Lemma qrep_fresh c c' qs ref p :
  qrep c qs -> queue c' = queue c -> pool c' = <[ref := p]> (pool c) -> pool c !! ref = None ->
  ref <> EXPR_NULL -> 0 <= priority p < 16 -> has_flag p PROP_FLAG_IN_QUEUE = false -> qrep c' qs.
Proof.
  intros Q Eq Ep Fr Ne Pr Nf. constructor; unfold head_at, tail_at; rewrite ?Eq, ?Ep.
  - intros r q Hq. destruct (decide (ref = r)) as [<- | Nr].
    + rewrite lookup_insert_eq in Hq. injection Hq as <-. auto.
    + rewrite lookup_insert_ne in Hq by exact Nr. apply (qr_pool _ _ Q r q Hq).
  - apply (qr_len _ _ Q).
  - intros l Hl. apply linked_fresh; [exact Fr | apply (qr_linked _ _ Q l Hl)].
  - apply (qr_tail _ _ Q).
  - apply (qr_mask _ _ Q).
  - apply (qr_nodup _ _ Q).
  - intros l r Hl Hr. destruct (qr_in _ _ Q l r Hl Hr) as (q & Hq & E). exists q.
    rewrite lookup_insert_ne; [auto | congruence].
  - intros r q Hq Fq. destruct (decide (ref = r)) as [<- | Nr].
    + rewrite lookup_insert_eq in Hq. congruence.
    + rewrite lookup_insert_ne in Hq by exact Nr. apply (qr_flag _ _ Q r q Hq Fq).
Qed.

(** The new propagator attached: in the pool and on its chains, not yet queued. *)
Lemma attach_wired c ref t prio ids c' :
  built c -> pool c !! ref = None -> 0 <= ref < EXPR_NULL -> 0 <= prio < 16 ->
  n_props c < n_prop_refs_capacity c -> (forall v, v ∈ ids -> 0 <= v < n_vars c) ->
  c' = register_watchers (set_n_props (put_prop c ref (new_prop t (n_props c) prio ids)) (n_props c + 1)) ref 0 ids ->
  wired c' /\ exists p, pool c' = <[ref := p]> (pool c) /\ template p = t /\ prop_id p = n_props c /\
    priority p = prio /\ watched p = ids /\ pflags p = 0 /\
    c' = set_watcher_heads (set_n_props (set_pool c (pool c')) (n_props c + 1)) (watcher_heads c') /\
    length (default [] (watcher_heads c')) = length (default [] (watcher_heads c)).
Proof.
  intros B Fr Hr Pr Cap Hv Ec. pose proof (bt_wired _ B) as W. pose proof (bt_heads _ B) as Lh.
  set (c1 := set_n_props (put_prop c ref (new_prop t (n_props c) prio ids)) (n_props c + 1)) in *.
  set (p0 := new_prop t (n_props c) prio ids) in *.
  destruct (register_spec ids c1 ref 0 p0) as [F Hh Hd].
  { apply lookup_insert_eq. } { lia. }
  { cbn [p0 new_prop watches]. rewrite map_map. cbn. rewrite map_id. reflexivity. }
  { exact Hv. } { exact Lh. } { apply (wi_heads _ W). }
  rewrite <- Ec in *. destruct F as (p & h' & Ef & Ep & Em & _ & Nx).
  assert (Pl : pool c' = <[ref := p]> (pool c)).
  { rewrite Ef. cbn [pool set_watcher_heads set_pool c1 set_n_props put_prop]. apply insert_insert_eq. }
  assert (Ew : watched p = ids).
  { unfold watched. rewrite Em. cbn [p0 new_prop watches]. rewrite map_map. cbn. apply map_id. }
  assert (Ei : prop_id p = n_props c) by (rewrite Ep; reflexivity).
  assert (Epr : priority p = prio) by (rewrite Ep; reflexivity).
  assert (Efl : pflags p = 0) by (rewrite Ep; reflexivity).
  assert (Fr' : vars c' = vars c /\ queue c' = queue c /\ n_props c' = n_props c + 1 /\
    prop_refs c' = prop_refs c /\ prop_guard_vars c' = prop_guard_vars c /\
    n_prop_refs_capacity c' = n_prop_refs_capacity c /\ guard_ix c' = guard_ix c)
    by (rewrite Ef; repeat split).
  destruct Fr' as (E1 & E2 & E3 & E4 & E5 & E6 & E7).
  assert (Nv : n_vars c' = n_vars c) by (unfold n_vars; rewrite E1; reflexivity).
  split.
  2:{ exists p. split; [exact Pl |]. split; [rewrite Ep; reflexivity |]. do 4 (split; [assumption |]).
      split; [rewrite Ef at 1 | apply Hh]. rewrite Ef. cbn [pool watcher_heads set_watcher_heads set_pool].
      reflexivity. }
  constructor; rewrite ?E2, ?E3, ?E6, ?E7, ?Nv.
  - destruct (wi_queue _ W) as [qs Q]. exists qs.
    apply (qrep_fresh c c' qs ref p); auto; [lia | lia |]. unfold has_flag. rewrite Efl. reflexivity.
  - intros v Hvv. destruct (wi_chain _ W v Hvv) as (l & Ch & N & In).
    pose proof (chained_fresh (pool c) v ref p l Fr _ Ch) as Ch'.
    assert (Hin : forall r q, pool c' !! r = Some q -> v ∈ watched q -> r <> ref -> r ∈ l).
    { intros r q Hq Hw Nr. rewrite Pl, lookup_insert_ne in Hq by congruence. apply (In r q Hq Hw). }
    rewrite (Hd v Hvv). destruct (decide (v ∈ ids)) as [X | X].
    + exists (ref :: l). split.
      { cbn [chained]. split; [reflexivity |]. split; [lia |]. exists p. rewrite Pl.
        split; [apply lookup_insert_eq |]. rewrite (Nx v X); [exact Ch' |]. cbn. inversion 1. }
      split.
      { apply list.NoDup_cons. split; [| exact N]. intros Hl. destruct (chained_in _ _ _ _ Ch ref Hl). congruence. }
      intros r q Hq Hw. destruct (decide (r = ref)) as [-> | Nr]; [left | right; apply (Hin r q); assumption].
    + exists l. split; [rewrite Pl; exact Ch' |]. split; [exact N |].
      intros r q Hq Hw. apply (Hin r q Hq Hw). intros ->. rewrite Pl, lookup_insert_eq in Hq.
      injection Hq as <-. rewrite Ew in Hw. contradiction.
  - apply Hh.
  - intros r q v Hq Hw. rewrite Pl in Hq. destruct (decide (ref = r)) as [<- | Nr].
    + rewrite lookup_insert_eq in Hq. injection Hq as <-. rewrite Ew in Hw. apply (Hv v Hw).
    + rewrite lookup_insert_ne in Hq by exact Nr. apply (wi_watch _ W r q v Hq Hw).
  - intros i. unfold guards. rewrite E5. apply (wi_pos _ W).
  - intros r q Hq. rewrite guard_id_eq. unfold guards. rewrite E5, E6. fold (guards c). rewrite <- guard_id_eq.
    rewrite Pl in Hq. unfold ref_at. rewrite E4. destruct (decide (ref = r)) as [<- | Nr].
    + rewrite lookup_insert_eq in Hq. injection Hq as <-. intros Hg. elim Hg. rewrite guard_id_eq, Ei.
      destruct (_ <? _); [| reflexivity]. apply (bt_free _ B). lia.
    + rewrite lookup_insert_ne in Hq by exact Nr. intros Hg.
      destruct (wi_guard _ W r q Hq Hg) as (G1 & G2 & G3). split; [exact G1 |]. split; [lia | exact G3].
  - unfold guards. rewrite E5. apply (wi_gix _ W).
  - apply (wi_size _ W).
  - destruct (bt_cap _ B). lia.
Qed.
End Alloc.

Section Post.
Context {T M S : Type} `{Env} `{BuildEnv T} `{!BuildEnvLaws T}.
Implicit Types c : ctx T M S.

(** [c'] is [c] with one more propagator, [ref], unguarded and queued; the
    others at most changed their place in the queue. *)
Record added c (t : T) (prio : Z) (ids : list Z) (ref : Z) c' : Prop := {
  ad_built : built c';
  ad_vars : vars c' = vars c /\ n_props c' = n_props c + 1 /\ trail c' = trail c /\
    decision_level c' = decision_level c /\ prop_aborted c' = prop_aborted c;
  ad_fresh : ref <> EXPR_NULL /\ pool c !! ref = None;
  ad_new : exists p, pool c' !! ref = Some p /\ template p = t /\ watched p = ids /\ priority p = prio /\
    queued p /\ ~ entailed p /\ guard_id c' p = EXPR_NULL;
  ad_old : forall r q', r <> ref -> pool c' !! r = Some q' -> exists q, pool c !! r = Some q /\
    core q' = core q /\ (queued q -> queued q') /\ guard_id c' q' = guard_id c q;
  ad_keep : forall r q, pool c !! r = Some q -> is_Some (pool c' !! r) }.

(** Entering the reference of the new id in the table. *)
Lemma set_ref_wired c ref i : wired c -> prop_refs c <> None -> 0 <= i ->
  (forall r p, pool c !! r = Some p -> r <> ref -> prop_id p <> i) ->
  (forall p, pool c !! ref = Some p -> guard_id c p = EXPR_NULL) ->
  wired (set_prop_refs c (Some (<[Z.to_nat i := ref]> (default [] (prop_refs c))))).
Proof.
  intros W Nr Hi Ne Ng. destruct (wi_queue _ W) as [qs Q]. constructor; cbn.
  - exists qs. apply (qrep_links c); [exact Q | reflexivity | reflexivity].
  - apply (wi_chain _ W).
  - apply (wi_heads _ W).
  - apply (wi_watch _ W).
  - apply (wi_pos _ W).
  - intros r p Hp Hg. destruct (wi_guard _ W r p Hp Hg) as (G1 & G2 & G3 & G4 & G5).
    split; [exact G1 |]. split; [exact G2 |]. split; [discriminate |]. split; [| exact G5].
    destruct (Z.eq_dec r ref) as [-> | N]; [elim Hg; apply Ng, Hp |].
    unfold ref_at. cbn. rewrite list_lookup_insert_ne; [exact G4 |].
    pose proof (Ne r p Hp N). lia.
  - apply (wi_gix _ W).
  - apply (wi_size _ W).
  - apply (wi_ids _ W).
Qed.

Lemma alloc_added c t prio ids bytes :
  built c -> (forall v, v ∈ ids -> 0 <= v < n_vars c) -> 0 <= prio < 16 ->
  let '(ref, c') := alloc_prop c t prio ids bytes in
  if ref =? EXPR_NULL then roomy c c' else added c t prio ids ref c'.
Proof.
  intros B Hv Pr. unfold alloc_prop.
  assert (Rm : let '(ok, c0) := room_prop c in roomy c c0 /\
    (ok = true -> n_props c < n_prop_refs_capacity c0)).
  { unfold room_prop. destruct (Z.ltb_spec (n_props c) (n_prop_refs_capacity c)) as [Lt | Ge].
    { split; [apply roomy_refl, B | auto]. }
    destruct (bt_cap _ B). pose proof (reserve_spec c (n_props c + 1) B ltac:(lia)) as Rs.
    destruct (reserve_props c (n_props c + 1)) as [ok c0]. destruct Rs as (R & K & _).
    split; [exact R |]. intros E. specialize (K E). lia. }
  destruct (room_prop c) as [ok c0]. destruct Rm as [R Cap]. destruct ok; cbn [negb].
  2:{ rewrite Z.eqb_refl. exact R. }
  specialize (Cap eq_refl). pose proof (roomy_built c c0 B R) as B0.
  destruct (roomy_fields c c0 R) as (E1 & E2 & _ & _ & E5 & _).
  set (ref := spool_alloc (pool c0) bytes). destruct (Z.eqb_spec ref EXPR_NULL) as [Er | Nr].
  { rewrite Z.eqb_refl. exact R. }
  destruct (spool_fresh (pool c0) bytes Nr) as [Br Fr]. fold ref in Br, Fr.
  destruct (bt_cap _ B0) as [Bn Bc]. unfold DVS_MAX_PROPS in Bc. rewrite <- E5 in Cap.
  assert (Ei : u16 (n_props c0) = n_props c0) by (unfold u16; apply Z.mod_small; lia).
  assert (En : u32 (n_props c0 + 1) = n_props c0 + 1) by (unfold u32; apply Z.mod_small; lia).
  rewrite Ei, En.
  set (c2 := register_watchers _ ref 0 ids).
  destruct (attach_wired c0 ref t prio ids c2 B0 Fr Br Pr Cap) as (W2 & p & P2 & Et & Eid & Ep & Ew & Ef & F2 & Lh);
    [intros v Hin; unfold n_vars; rewrite E1; apply (Hv v Hin) | reflexivity |].
  clearbody c2. destruct (enqueue_more c2 ref (wi_queue _ W2)) as [Mo Aw].
  pose proof (more_wired c2 _ W2 Mo) as W3. set (c3 := prop_enqueue c2 ref) in *.
  assert (F3 : vars c3 = vars c0 /\ n_props c3 = n_props c0 + 1 /\ prop_refs c3 = prop_refs c0 /\
    prop_guard_vars c3 = prop_guard_vars c0 /\ n_prop_refs_capacity c3 = n_prop_refs_capacity c0 /\
    watcher_heads c3 = watcher_heads c2 /\ trail c3 = trail c0 /\ decision_level c3 = decision_level c0 /\
    prop_aborted c3 = prop_aborted c0)
    by (rewrite (mo_frame _ _ Mo), F2; cbn; auto 12).
  destruct F3 as (V3 & N3 & R3 & G3 & C3 & H3 & T3 & D3 & A3).
  assert (Old : forall r q3, r <> ref -> pool c3 !! r = Some q3 -> exists q, pool c0 !! r = Some q /\
    core q3 = core q /\ (queued q -> queued q3)).
  { intros r q3 Ne Hq. destruct (core_lookup _ _ r q3 (eq_sym (mo_core _ _ Mo)) Hq) as (q & Hq2 & Eq).
    exists q. pose proof Hq2 as Hq0. rewrite P2, lookup_insert_ne in Hq0 by congruence.
    split; [exact Hq0 |]. split; [congruence |]. apply (mo_mono _ _ Mo (wi_queue _ W2) r q q3 Hq2 Hq). }
  assert (New : exists p3, pool c3 !! ref = Some p3 /\ core p3 = core p).
  { apply (core_lookup (pool c2)); [apply (mo_core _ _ Mo) | rewrite P2; apply lookup_insert_eq]. }
  destruct New as (p3 & Hp3 & Ec3).
  destruct (bt_some _ B0 ltac:(lia)) as [Nrf Ngv]. rewrite R3, C3.
  destruct (prop_refs c0) as [refs |] eqn:Erf; [| congruence]. clear Nrf.
  destruct (Z.ltb_spec (n_props c0) (n_prop_refs_capacity c0)) as [_ | Ge]; [| lia].
  destruct (Z.eqb_spec ref EXPR_NULL); [contradiction |].
  pose proof (bt_refs _ B0) as Lr. rewrite Erf in Lr. cbn in Lr.
  assert (Gd : forall q, guard_id c3 q = guard_id c0 q) by (intros q; unfold guard_id; rewrite G3, C3; reflexivity).
  assert (Ei3 : prop_id p3 = n_props c0) by (unfold core in Ec3; congruence).
  assert (Gn : guard_id c3 p3 = EXPR_NULL).
  { rewrite Gd, guard_id_eq, Ei3. destruct (_ <? _); [| reflexivity]. apply (bt_free _ B0). lia. }
  assert (W4 : wired (set_prop_refs c3 (Some (<[Z.to_nat (n_props c0) := ref]> refs)))).
  { replace refs with (default [] (prop_refs c3)) by (rewrite R3; reflexivity).
    apply set_ref_wired; [exact W3 | rewrite R3; discriminate | lia | |].
    - intros r q Hq Ne Eq. destruct (Old r q Ne Hq) as (q0 & Hq0 & Cq & _).
      destruct (bt_ids _ B0 r q0 Hq0) as [I0 _]. unfold core in Cq. assert (prop_id q = prop_id q0) by congruence. lia.
    - intros q Hq. rewrite Hp3 in Hq. injection Hq as <-. exact Gn. }
  assert (RA : forall i, 0 <= i -> ref_at (set_prop_refs c3 (Some (<[Z.to_nat (n_props c0) := ref]> refs))) i =
    if i =? n_props c0 then ref else ref_at c0 i).
  { intros i Hi. unfold ref_at. cbn. rewrite Erf. cbn. destruct (Z.eqb_spec i (n_props c0)) as [-> | Ne].
    - rewrite list_lookup_insert_eq by lia. reflexivity.
    - rewrite list_lookup_insert_ne by lia. reflexivity. }
  constructor.
  - constructor; cbn; rewrite ?C3, ?N3, ?H3; auto.
    + rewrite length_insert. exact Lr.
    + unfold guards. cbn. rewrite G3. apply (bt_guards _ B0).
    + intros _. split; [discriminate | rewrite G3; exact Ngv].
    + unfold DVS_MAX_PROPS. lia.
    + intros r q Hq. destruct (Z.eq_dec r ref) as [-> | Ne].
      * rewrite Hp3 in Hq. injection Hq as <-. rewrite Ei3, RA, Z.eqb_refl by lia. split; [lia | reflexivity].
      * destruct (Old r q Ne Hq) as (q0 & Hq0 & Cq & _). destruct (bt_ids _ B0 r q0 Hq0) as [I0 I1].
        assert (Eq : prop_id q = prop_id q0) by (unfold core in Cq; congruence). rewrite Eq, RA by lia.
        destruct (Z.eqb_spec (prop_id q0) (n_props c0)); [lia |]. split; [lia | exact I1].
    + intros i Hi. destruct (bt_free _ B0 i ltac:(lia)) as [F1 F4]. rewrite RA by lia.
      destruct (Z.eqb_spec i (n_props c0)); [lia |]. split; [exact F1 |]. unfold guards. cbn. rewrite G3. exact F4.
    + rewrite Lh. unfold n_vars. cbn. rewrite V3. apply (bt_heads _ B0).
  - cbn. rewrite V3, N3, T3, D3, A3, E1, E5, (rm_frame _ _ R). auto.
  - rewrite <- E2. auto.
  - cbn. exists p3. split; [exact Hp3 |].
    assert (Cf : template p3 = t /\ watches p3 = watches p /\ priority p3 = prio /\ (entailed p3 <-> entailed p)).
    { pose proof (core_entailed p p3 Ec3). unfold core in Ec3. split; [congruence |]. split; [congruence |].
      split; [congruence | assumption]. }
    destruct Cf as (C1 & C2 & C4 & C5). split; [exact C1 |]. split; [unfold watched in *; congruence |].
    split; [exact C4 |].
    assert (Ne : ~ entailed p3).
    { rewrite C5. unfold entailed, has_flag. rewrite Ef. discriminate. }
    split; [destruct (Aw p3 Hp3); [assumption | contradiction] |]. split; [exact Ne | exact Gn].
  - cbn. intros r q Ne Hq. destruct (Old r q Ne Hq) as (q0 & Hq0 & Cq & Qq). exists q0. rewrite <- E2.
    split; [exact Hq0 |]. split; [exact Cq |]. split; [exact Qq |].
    change (guard_id _ q) with (guard_id c3 q). rewrite Gd.
    destruct (bt_ids _ B0 r q0 Hq0) as [I0 _]. rewrite E5 in I0.
    rewrite <- (roomy_guard c c0 q0 B R I0), !guard_id_eq. unfold core in Cq.
    replace (prop_id q) with (prop_id q0) by congruence. reflexivity.
  - cbn. intros r q Hq. rewrite <- E2 in Hq.
    destruct (core_lookup (pool c2) (pool c3) r q (mo_core _ _ Mo)) as (q' & Hq' & _); [| eauto].
    rewrite P2. rewrite lookup_insert_ne; [exact Hq | congruence].
Qed.
End Post.

(** ** A constraint posted *)

Section Constraint.
Context {T M S : Type} `{DynStack M S} `{Env} `{BuildEnv T} `{!BuildEnvLaws T}
  `{!Fires T (ctx T M S)} `{!Propagators T (ctx T M S)}.
Implicit Types c : ctx T M S.

(** The solutions of the new context are the old ones that satisfy the new
    constraint. *)
Lemma added_solves c t prio ids ref c' s : added c t prio ids ref c' ->
  solves c' s <-> solves c s /\ sem t ids s.
Proof.
  intros A. destruct (ad_vars _ _ _ _ _ _ A) as (Ev & _). destruct (ad_fresh _ _ _ _ _ _ A) as [Nr Fr].
  destruct (ad_new _ _ _ _ _ _ A) as (p & Hp & Et & Ew & _ & _ & _ & Gn).
  pose proof (vars_in_dom c c' s Ev) as Vd.
  assert (Hold : forall r q' q, r <> ref -> core q' = core q -> guard_id c' q' = guard_id c q ->
    holds c' s q' <-> holds c s q).
  { intros r q' q _ Cq Gq. destruct (core_fields q q' Cq) as (E1 & _ & E3 & _). unfold holds.
    rewrite Gq, E1, E3. tauto. }
  unfold solves. rewrite <- Vd. split.
  - intros [D Hs]. split; [split; [exact D |] |].
    + intros r q Hq. destruct (ad_keep _ _ _ _ _ _ A r q Hq) as [q' Hq'].
      assert (Ne : r <> ref) by congruence.
      destruct (ad_old _ _ _ _ _ _ A r q' Ne Hq') as (q0 & Hq0 & Cq & _ & Gq). rewrite Hq in Hq0. injection Hq0 as <-.
      apply (Hold r q' q Ne Cq Gq), (Hs r q' Hq').
    + destruct (Hs ref p Hp) as [[N _] | Hm]; [contradiction |]. rewrite <- Et, <- Ew. exact Hm.
  - intros [[D Hs] Hm]. split; [exact D |]. intros r q' Hq'. destruct (Z.eq_dec r ref) as [-> | Ne].
    + rewrite Hp in Hq'. injection Hq' as <-. right. rewrite Et, Ew. exact Hm.
    + destruct (ad_old _ _ _ _ _ _ A r q' Ne Hq') as (q & Hq & Cq & _ & Gq).
      apply (Hold r q' q Ne Cq Gq), (Hs r q Hq).
Qed.

Lemma added_pinv `{!PropagatorLaws T (ctx T M S)} c t prio ids ref c' : added c t prio ids ref c' ->
  pinv None c -> ready c t ids -> pinv None c'.
Proof.
  intros A I Rd. destruct (ad_vars _ _ _ _ _ _ A) as (Ev & _).
  destruct (ad_new _ _ _ _ _ _ A) as (p & Hp & Et & Ew & _ & Qp & Np & Gn).
  pose proof (vars_sub c c' (pi_ok _ _ I) Ev) as Sb. pose proof (fun s => vars_in_dom c c' s Ev) as Vd.
  assert (Hold : forall s q' q, core q' = core q -> guard_id c' q' = guard_id c q -> holds c s q -> holds c' s q').
  { intros s q' q Cq Gq. destruct (core_fields q q' Cq) as (E1 & _ & E3 & _). unfold holds.
    rewrite Gq, E1, E3. tauto. }
  constructor.
  - apply (bt_wired _ (ad_built _ _ _ _ _ _ A)).
  - apply (sb_ok _ _ Sb).
  - intros r q' Hq'. destruct (Z.eq_dec r ref) as [-> | Ne].
    + rewrite Hp in Hq'. injection Hq' as <-. rewrite Et, Ew. apply (ready_sub c); assumption.
    + destruct (ad_old _ _ _ _ _ _ A r q' Ne Hq') as (q & Hq & Cq & _).
      destruct (core_fields q q' Cq) as (-> & _ & -> & _). apply (ready_sub c); [apply (pi_ready _ _ I r q Hq) | exact Sb].
  - intros r q' Hq' Eq s D. destruct (Z.eq_dec r ref) as [-> | Ne].
    + rewrite Hp in Hq'. injection Hq' as <-. contradiction.
    + destruct (ad_old _ _ _ _ _ _ A r q' Ne Hq') as (q & Hq & Cq & _ & Gq).
      apply (Hold s q' q Cq Gq), (pi_entailed _ _ I r q Hq); [apply (core_entailed q q' Cq), Eq | apply Vd, D].
  - intros r q' Hq' _. destruct (Z.eq_dec r ref) as [-> | Ne].
    + rewrite Hp in Hq'. injection Hq' as <-. left. exact Qp.
    + destruct (ad_old _ _ _ _ _ _ A r q' Ne Hq') as (q & Hq & Cq & Qq & Gq).
      destruct (pi_settled _ _ I r q Hq ltac:(discriminate)) as [Q1 | [E1 | D1]]; [auto | |].
      * right. left. apply (core_entailed q q' Cq), E1.
      * right. right. intros Fx s D. apply (Hold s q' q Cq Gq), D1; [| apply Vd, D].
        intros x Cx. destruct (var_of_vars c c' Ev) as [V _].
        assert (Fxx : fixed c' x).
        { apply Fx. unfold concerns in *. rewrite Gq. destruct (core_fields q q' Cq) as (_ & _ & -> & _). exact Cx. }
        unfold fixed, lo_at, hi_at in *. cbn in *. rewrite V in Fxx. exact Fxx.
Qed.
End Constraint.

End Build.
