(* ===== verification/Compare32.v ===== *)
(** * Compare32: the 32-bit comparison propagators
    (src/src/c/dvs_prop_templates.c)

    Each [_fire_*] function as a program over the store interface, and for each
    the proof that it implements its constraint: it never loses a solution, its
    conflicts and entailments are real, and on fixed variables it fails exactly
    if the constraint is broken. *)

From Stdlib Require Import ZArith Lia ZifyBool Bool.
From stdpp Require Import base list numbers.
From S2P Require Import Prelude Vars Ctx Store.
Import Vars Ctx Store.
Open Scope Z_scope.

Module Compare32.

Definition i32_min (a b : Z) : Z := if a <? b then a else b.
Definition i32_max (a b : Z) : Z := if a >? b then a else b.

Lemma i32_min_spec a b : i32_min a b = Z.min a b.
Proof. unfold i32_min. destruct (Z.ltb_spec a b); lia. Qed.
Lemma i32_max_spec a b : i32_max a b = Z.max a b.
Proof. unfold i32_max. rewrite Z.gtb_ltb. destruct (Z.ltb_spec b a); lia. Qed.

Ltac template_norm ::=
  rewrite ?i32_min_spec, ?i32_max_spec in *.

Section Fire32.
Context {C : Type} `{StoreLaws C}.
Implicit Types c : C.

Definition fire_bounds_le_32 (xid yid : Z) : fire_t :=
  here (fun c => ub32 xid (vhi c yid)) >>?
  here (fun c => lb32 yid (vlo c xid)) >>?
  here (fun c => ret (if vhi c xid <=? vlo c yid then PROP_ENTAILED else PROP_OK)).

Lemma le_32_implements x y :
  implements wf32 [x; y] (fun s => s x <= s y) (fire_bounds_le_32 x y).
Proof.
  intros c W. unfold fire_bounds_le_32. split; [sound_go W | intros F; dec_go W F].
Qed.

Definition fire_bounds_lt_32 (xid yid : Z) : fire_t :=
  if xid =? yid then ret PROP_CONFLICT else
  here (fun c =>
    if (vhi c yid =? INT32_MIN) || (vlo c xid =? INT32_MAX) then ret PROP_CONFLICT else
    here (fun c => ub32 xid (s32 (vhi c yid - 1))) >>?
    here (fun c => lb32 yid (s32 (vlo c xid + 1))) >>?
    here (fun c => ret (if vhi c xid <? vlo c yid then PROP_ENTAILED else PROP_OK))).

Definition fire_bounds_eq_32 (xid yid : Z) : fire_t :=
  here (fun c =>
    let lo := i32_max (vlo c xid) (vlo c yid) in
    let hi := i32_min (vhi c xid) (vhi c yid) in
    if lo >? hi then ret PROP_CONFLICT else
    lb32 xid lo >>? ub32 xid hi >>? lb32 yid lo >>? ub32 yid hi >>?
    here (fun c =>
      ret (if (vlo c xid =? vhi c xid) && (vlo c yid =? vhi c yid) then PROP_ENTAILED
           else PROP_OK))).

Lemma lt_32_implements x y :
  implements wf32 [x; y] (fun s => s x < s y) (fire_bounds_lt_32 x y).
Proof.
  intros c W. unfold fire_bounds_lt_32. destruct (Z.eqb_spec x y) as [-> | Ne].
  { split; [apply sound_ret; [apply W |]; intros s _; lia | intros _; apply dec_ret; congruence]. }
  split; [sound_go W | intros F; dec_go W F].
Qed.

Lemma eq_32_implements x y :
  implements wf32 [x; y] (fun s => s x = s y) (fire_bounds_eq_32 x y).
Proof.
  intros c W. unfold fire_bounds_eq_32.
  destruct (Z.eq_dec x y) as [-> | Ne]; (split; [sound_go W | intros F; dec_go W F]).
Qed.

Definition fire_bounds_ne_32 (xid yid : Z) : fire_t :=
  if xid =? yid then ret PROP_CONFLICT else
  here (fun c =>
    if vlo c xid =? vhi c xid then
      let v := vlo c xid in
      if vlo c yid =? v then
        if v =? INT32_MAX then ret PROP_CONFLICT else lb32 yid (s32 (v + 1))
      else if vhi c yid =? v then
        if v =? INT32_MIN then ret PROP_CONFLICT else ub32 yid (s32 (v - 1))
      else ret PROP_OK
    else ret PROP_OK) >>?
  here (fun c =>
    if vlo c yid =? vhi c yid then
      let v := vlo c yid in
      if vlo c xid =? v then
        if v =? INT32_MAX then ret PROP_CONFLICT else lb32 xid (s32 (v + 1))
      else if vhi c xid =? v then
        if v =? INT32_MIN then ret PROP_CONFLICT else ub32 xid (s32 (v - 1))
      else ret PROP_OK
    else ret PROP_OK) >>?
  here (fun c =>
    ret (if (vhi c xid <? vlo c yid) || (vhi c yid <? vlo c xid) then PROP_ENTAILED
         else PROP_OK)).

Lemma ne_32_implements x y :
  implements wf32 [x; y] (fun s => s x <> s y) (fire_bounds_ne_32 x y).
Proof.
  intros c W. unfold fire_bounds_ne_32. destruct (Z.eqb_spec x y) as [-> | Ne].
  { split; [apply sound_ret; [apply W |]; intros s _; lia | intros _; apply dec_ret; congruence]. }
  split; [sound_go W | intros F; dec_go W F].
Qed.

End Fire32.
End Compare32.
