(* ===== verification/Arith32.v ===== *)
(** * Arith32: the 32-bit arithmetic propagators
    (src/src/c/dvs_prop_templates.c)

    Sum and negation over tier-0 variables.  Intermediate values are 64 bits
    wide; what is applied as a bound is cut to 32. *)

From Stdlib Require Import ZArith Lia ZifyBool Bool.
From stdpp Require Import base list numbers.
From S2P Require Import Prelude Vars Ctx Store.
Import Vars Ctx Store.
Open Scope Z_scope.

Module Arith32.

Section Fire32.
Context {C : Type} `{StoreLaws C}.
Implicit Types c : C.

Definition clamp_lo (v : Z) : Z := if v <? INT32_MIN then INT32_MIN else v.
Definition clamp_hi (v : Z) : Z := if v >? INT32_MAX then INT32_MAX else v.

(** The intermediate sums are [int64_t]; a bound is cut to [int32_t] when it is
    applied. *)
Definition fire_bounds_add_32 (rid aid bid : Z) : fire_t :=
  here (fun c =>
    let blo := vlo c bid in
    let bhi := vhi c bid in
    let fwd_lo := clamp_lo (clamp_hi (vlo c aid + blo)) in
    let fwd_hi := clamp_lo (clamp_hi (vhi c aid + bhi)) in
    lb32 rid (s32 fwd_lo) >>?
    ub32 rid (s32 fwd_hi) >>?
    here (fun c =>
      let rlo := vlo c rid in
      let rhi := vhi c rid in
      lb32 aid (s32 (clamp_lo (rlo - bhi))) >>?
      ub32 aid (s32 (clamp_hi (rhi - blo))) >>?
      here (fun c =>
        let alo := vlo c aid in
        let ahi := vhi c aid in
        lb32 bid (s32 (clamp_lo (rlo - ahi))) >>?
        ub32 bid (s32 (clamp_hi (rhi - alo))) >>?
        here (fun c =>
          ret (if (vlo c rid =? vhi c rid) && (vlo c aid =? vhi c aid) && (vlo c bid =? vhi c bid)
               then PROP_ENTAILED else PROP_OK))))).

(** Cutting a bound to 32 bits keeps it below (above) the values it bounds. *)
Lemma clamp_cases v : int32 (clamp_lo (clamp_hi v)) /\ clamp_lo (clamp_hi v) = Z.max (- 2 ^ 31) (Z.min v (2 ^ 31 - 1)).
Proof.
  unfold int32, clamp_lo, clamp_hi, INT32_MIN, INT32_MAX. rewrite Z.gtb_ltb.
  destruct (Z.ltb_spec (2 ^ 31 - 1) v) as [? | ?].
  - destruct (Z.ltb_spec (2 ^ 31 - 1) (- 2 ^ 31)); lia.
  - destruct (Z.ltb_spec v (- 2 ^ 31)); lia.
Qed.
Lemma cut_lo_cases v : clamp_lo v = Z.max (- 2 ^ 31) v.
Proof. unfold clamp_lo, INT32_MIN. destruct (Z.ltb_spec v (- 2 ^ 31)); lia. Qed.
Lemma cut_hi_cases v : clamp_hi v = Z.min v (2 ^ 31 - 1).
Proof. unfold clamp_hi, INT32_MAX. rewrite Z.gtb_ltb. destruct (Z.ltb_spec (2 ^ 31 - 1) v); lia. Qed.

Lemma clamped_below v n : int32 n -> v <= n -> s32 (clamp_lo (clamp_hi v)) <= n.
Proof.
  intros Hn Hv. destruct (clamp_cases v) as [I E]. rewrite s32_small, E by exact I.
  unfold int32 in Hn. lia.
Qed.
Lemma clamped_above v n : int32 n -> n <= v -> n <= s32 (clamp_lo (clamp_hi v)).
Proof.
  intros Hn Hv. destruct (clamp_cases v) as [I E]. rewrite s32_small, E by exact I.
  unfold int32 in Hn. lia.
Qed.
Lemma cut_below v n : int32 n -> v <= n -> s32 (clamp_lo v) <= n.
Proof.
  unfold int32. intros Hn Hv. rewrite cut_lo_cases, s32_small by (unfold int32; lia). lia.
Qed.
Lemma cut_above v n : int32 n -> n <= v -> n <= s32 (clamp_hi v).
Proof.
  unfold int32. intros Hn Hv. rewrite cut_hi_cases, s32_small by (unfold int32; lia). lia.
Qed.
(** No cut where the value fits. *)
Lemma clamp_small v : int32 v ->
  s32 (clamp_lo (clamp_hi v)) = v /\ s32 (clamp_lo v) = v /\ s32 (clamp_hi v) = v.
Proof.
  intros Hv. pose proof Hv as B. unfold int32 in B. destruct (clamp_cases v) as [I E].
  split; [rewrite s32_small by exact I; lia |].
  split; rewrite ?cut_lo_cases, ?cut_hi_cases, s32_small; unfold int32; lia.
Qed.

Definition fire_unary_neg_32 (rid aid : Z) : fire_t :=
  here (fun c => lb32 rid (s32 (- vhi c aid))) >>?
  here (fun c => ub32 rid (s32 (- vlo c aid))) >>?
  here (fun c => lb32 aid (s32 (- vhi c rid))) >>?
  here (fun c => ub32 aid (s32 (- vlo c rid))) >>?
  here (fun c =>
    ret (if (vlo c rid =? vhi c rid) && (vlo c aid =? vhi c aid) then PROP_ENTAILED
         else PROP_OK)).

Lemma neg_32_implements r a :
  implements_on (fun c => INT32_MIN < lo_at c a /\ INT32_MIN < lo_at c r) wf32 [r; a]
    (fun s => s r = - s a) (fire_unary_neg_32 r a).
Proof.
  intros c W [P1 P2]. unfold fire_unary_neg_32.
  destruct (Z.eq_dec r a) as [-> | Ne]; (split; [sound_go W | intros F; dec_go W F]).
Qed.


(** What the forward and one backward pass leave on fixed operands. *)
Lemma add_decided r a b : int32 r -> int32 a -> int32 b ->
  s32 (clamp_lo (clamp_hi (a + b))) <= r -> r <= s32 (clamp_lo (clamp_hi (a + b))) ->
  s32 (clamp_lo (r - b)) <= a -> a <= s32 (clamp_hi (r - b)) -> r = a + b.
Proof.
  intros Ir Ia Ib P1 P2 P3 P4. unfold int32 in Ir, Ia, Ib.
  destruct (Z.lt_ge_cases (a + b) (- 2 ^ 31)); [| destruct (Z.lt_ge_cases (a + b) (2 ^ 31))].
  - pose proof (clamped_below (a + b) (- 2 ^ 31) ltac:(unfold int32; lia) ltac:(lia)).
    destruct (clamp_small (r - b) ltac:(unfold int32; lia)) as (_ & E & _). lia.
  - destruct (clamp_small (a + b) ltac:(unfold int32; lia)) as (E & _). lia.
  - pose proof (clamped_above (a + b) (2 ^ 31 - 1) ltac:(unfold int32; lia) ltac:(lia)).
    destruct (clamp_small (r - b) ltac:(unfold int32; lia)) as (_ & _ & E). lia.
Qed.

(** What a full pass that leaves all three fixed has established. *)
Lemma add_end R a0 a1 b0 b1 a4 h4 :
  int32 R -> int32 a0 -> int32 a1 -> int32 b0 -> int32 b1 ->
  s32 (clamp_lo (clamp_hi (a0 + b0))) <= R -> R <= s32 (clamp_lo (clamp_hi (a1 + b1))) ->
  a4 = Z.max a0 (s32 (clamp_lo (R - b1))) -> h4 = Z.min a1 (s32 (clamp_hi (R - b0))) ->
  a4 <= h4 ->
  a4 = Z.max a0 (R - b1) /\ h4 = Z.min a1 (R - b0) /\
  s32 (clamp_lo (R - h4)) = R - h4 /\ s32 (clamp_hi (R - a4)) = R - a4.
Proof.
  intros IR Ia0 Ia1 Ib0 Ib1 L U E4 F4 Le. unfold int32 in *.
  destruct (clamp_cases (a0 + b0)) as [I0 E0]. rewrite s32_small, E0 in L by exact I0.
  destruct (clamp_cases (a1 + b1)) as [I1 E1]. rewrite s32_small, E1 in U by exact I1.
  rewrite cut_lo_cases, s32_small in E4 by (unfold int32; lia).
  rewrite cut_hi_cases, s32_small in F4 by (unfold int32; lia).
  split; [lia |]. split; [lia |].
  destruct (clamp_small (R - h4)) as (_ & -> & _); [unfold int32; lia |].
  destruct (clamp_small (R - a4)) as (_ & _ & ->); [unfold int32; lia |]. split; reflexivity.
Qed.

Lemma add_32_sound r a b c : r <> a -> r <> b -> wf32 c [r; a; b] ->
  sound_from (fun s => s r = s a + s b) (fire_bounds_add_32 r a b) c.
Proof.
  intros Nra Nrb W. unfold fire_bounds_add_32. apply sound_here. cbv zeta.
  assert (Ir : In r [r; a; b]) by (cbn; auto). assert (Ia : In a [r; a; b]) by (cbn; auto).
  assert (Ib : In b [r; a; b]) by (cbn; auto).
  apply seq_lb32; try var_side; [apply int32_s32 | |].
  { intros s D E. destruct (raw_dom _ _ s r W Ir D), (raw_dom _ _ s a W Ia D), (raw_dom _ _ s b W Ib D).
    apply clamped_below; [assumption | lia]. }
  intros c1 S1. pose proof (ra_sub _ _ _ _ S1) as Sb1. pose proof (wf32_sub _ _ _ W Sb1) as W1.
  apply seq_ub32; try var_side; [apply int32_s32 | |].
  { intros s D E. apply (sub_in_dom _ _ s Sb1) in D.
    destruct (raw_dom _ _ s r W Ir D), (raw_dom _ _ s a W Ia D), (raw_dom _ _ s b W Ib D).
    apply clamped_above; [assumption | lia]. }
  intros c2 S2. pose proof (lw_sub _ _ _ _ S2) as Sb2. pose proof (wf32_sub _ _ _ W1 Sb2) as W2.
  pose proof (sub_trans _ _ _ Sb2 Sb1) as Sb20.
  apply sound_here. cbv zeta.
  apply seq_lb32; try var_side; [apply int32_s32 | |].
  { intros s D E. pose proof (sub_in_dom _ _ s Sb20 D) as D0.
    destruct (raw_dom _ _ s r W2 Ir D), (raw_dom _ _ s a W2 Ia D), (raw_dom _ _ s b W Ib D0).
    apply cut_below; [assumption | lia]. }
  intros c3 S3. pose proof (ra_sub _ _ _ _ S3) as Sb3. pose proof (wf32_sub _ _ _ W2 Sb3) as W3.
  pose proof (sub_trans _ _ _ Sb3 Sb20) as Sb30.
  apply seq_ub32; try var_side; [apply int32_s32 | |].
  { intros s D E. pose proof (sub_in_dom _ _ s Sb3 D) as D2. pose proof (sub_in_dom _ _ s Sb30 D) as D0.
    destruct (raw_dom _ _ s r W2 Ir D2), (raw_dom _ _ s a W2 Ia D2), (raw_dom _ _ s b W Ib D0).
    apply cut_above; [assumption | lia]. }
  intros c4 S4. pose proof (lw_sub _ _ _ _ S4) as Sb4. pose proof (wf32_sub _ _ _ W3 Sb4) as W4.
  pose proof (sub_trans _ _ _ Sb4 Sb3) as Sb42.
  apply sound_here. cbv zeta.
  apply seq_lb32; try var_side; [apply int32_s32 | |].
  { intros s D E. pose proof (sub_in_dom _ _ s Sb42 D) as D2.
    destruct (raw_dom _ _ s r W2 Ir D2), (raw_dom _ _ s a W4 Ia D), (raw_dom _ _ s b W4 Ib D).
    apply cut_below; [assumption | lia]. }
  intros c5 S5. pose proof (ra_sub _ _ _ _ S5) as Sb5. pose proof (wf32_sub _ _ _ W4 Sb5) as W5.
  pose proof (sub_trans _ _ _ Sb5 Sb42) as Sb52.
  apply seq_ub32; try var_side; [apply int32_s32 | |].
  { intros s D E. pose proof (sub_in_dom _ _ s Sb52 D) as D2. pose proof (sub_in_dom _ _ s Sb5 D) as D4.
    destruct (raw_dom _ _ s r W2 Ir D2), (raw_dom _ _ s a W4 Ia D4), (raw_dom _ _ s b W5 Ib D).
    apply cut_above; [assumption | lia]. }
  intros c6 S6. pose proof (lw_sub _ _ _ _ S6) as Sb6. pose proof (wf32_sub _ _ _ W5 Sb6) as W6.
  apply sound_here.
  destruct (_ && _) eqn:Fx; apply sound_ret; try var_side; [| exact I].
  intros s D.
  open_wf W. open_wf W2. open_wf W4. open_wf W6.
  destruct (raised_lowered _ _ _ _ _ _ S1 S2) as (L2 & U2 & O2); [assumption |].
  destruct (raised_lowered _ _ _ _ _ _ S3 S4) as (L4 & U4 & O4); [assumption |].
  destruct (raised_lowered _ _ _ _ _ _ S5 S6) as (L6 & U6 & O6); [assumption |].
  destruct (O4 r) as [Rl4 Ru4]; [assumption .. |]. destruct (O6 r) as [Rl6 Ru6]; [assumption .. |].
  destruct (O2 a) as [Al2 Au2]; [assumption | congruence |].
  raws. rewrite !andb_true_iff, !Z.eqb_eq in Fx. destruct Fx as [[Fr Fa] Fb].
  assert (E2 : hi_at c2 r = lo_at c2 r) by congruence. rewrite E2, Al2, Au2 in *.
  destruct (add_end (lo_at c2 r) (lo_at c a) (hi_at c a) (lo_at c b) (hi_at c b) (lo_at c4 a)
    (hi_at c4 a)) as (Ea & Ha & Eb & Hb); try (unfold int32; lia).
  rewrite Eb in L6. rewrite Hb in U6.
  assert (Dr := D r ltac:(assumption)). assert (Da := D a ltac:(assumption)).
  assert (Db := D b ltac:(assumption)).
  destruct (Z.eq_dec a b) as [<- | Nab]; [lia |].
  destruct (O6 a) as [Al6 Au6]; [assumption .. |]. lia.
Qed.

Lemma add_32_decides r a b c : wf32 c [r; a; b] -> all_ids (fixed c) [r; a; b] ->
  decided (forall s, in_dom c s -> s r = s a + s b) (fire_bounds_add_32 r a b) c.
Proof.
  intros W F. unfold fire_bounds_add_32. apply dec_here. cbv zeta. destruct F as (Fr & Fa & Fb & _).
  eapply dec_step; [apply fixed_lb32; try var_side; apply int32_s32 |].
  intros c1 Sd1 P1. pose proof (wf32_sub _ _ _ W (same_dom_sub _ _ Sd1)) as W1.
  eapply dec_step; [apply fixed_ub32; try var_side; [apply int32_s32 | eapply same_fixed; eauto; var_side] |].
  intros c2 Sd2 P2. pose proof (wf32_sub _ _ _ W1 (same_dom_sub _ _ Sd2)) as W2.
  apply dec_here. cbv zeta.
  eapply dec_step; [apply fixed_lb32; try var_side; [apply int32_s32 |] |].
  { eapply same_fixed; [exact Sd2 | var_side |]. eapply same_fixed; eauto; var_side. }
  intros c3 Sd3 P3. pose proof (wf32_sub _ _ _ W2 (same_dom_sub _ _ Sd3)) as W3.
  eapply dec_step; [apply fixed_ub32; try var_side; [apply int32_s32 |] |].
  { eapply same_fixed; [exact Sd3 | var_side |]. eapply same_fixed; [exact Sd2 | var_side |].
    eapply same_fixed; eauto; var_side. }
  intros c4 Sd4 P4. apply dec_true. intros s D.
  open_wf W. open_wf W1. open_wf W2. open_wf W3. unfold fixed in *. raws. fixed_facts.
  assert (Dr := D r ltac:(assumption)). assert (Da := D a ltac:(assumption)).
  assert (Db := D b ltac:(assumption)).
  apply add_decided; unfold int32; try lia.
  all: replace (s r) with (lo_at c r) by lia; replace (s a) with (lo_at c a) by lia;
    replace (s b) with (lo_at c b) by lia; congruence.
Qed.

Lemma add_32_implements r a b : r <> a -> r <> b ->
  implements wf32 [r; a; b] (fun s => s r = s a + s b) (fire_bounds_add_32 r a b).
Proof.
  intros Na Nb c W. split; [apply add_32_sound; assumption | intros F; apply add_32_decides; assumption].
Qed.

End Fire32.
End Arith32.
