(* ===== verification/Reify32.v ===== *)
(** * Reify32: guarded bounds, reified comparisons and set membership, 32 bits
    (src/src/c/dvs_prop_templates.c) *)

From Stdlib Require Import ZArith Lia ZifyBool Bool.
From stdpp Require Import base list numbers.
From S2P Require Import Prelude Vars Ctx Store.
Import Vars Ctx Store.
Open Scope Z_scope.

Module Reify32.

Lemma max_if a b : (if a >? b then a else b) = Z.max a b.
Proof. rewrite Z.gtb_ltb. destruct (Z.ltb_spec b a); lia. Qed.
Lemma min_if a b : (if a <? b then a else b) = Z.min a b.
Proof. destruct (Z.ltb_spec a b); lia. Qed.

Ltac template_norm ::= rewrite ?max_if, ?min_if in *.

Section Fire32.
Context {C : Type} `{StoreLaws C}.
Implicit Types c : C.

Definition fire_implication_32 (gid vid bound : Z) (is_ub : bool) : fire_t :=
  here (fun c =>
    if vhi c gid =? 0 then ret PROP_ENTAILED else
    if vlo c gid =? 1 then if is_ub then ub32 vid bound else lb32 vid bound
    else ret PROP_OK).

Definition fire_reification_32 (gid xid yid : Z) : fire_t :=
  if xid =? yid then
    here (fun c =>
      if vhi c gid =? 0 then ret PROP_CONFLICT else
      if negb (vlo c gid =? vhi c gid) then lb32 gid 1 else ret PROP_OK)
  else
  here (fun c =>
    if vlo c gid =? 1 then
      here (fun c => ub32 xid (vhi c yid)) >>? here (fun c => lb32 yid (vlo c xid))
    else ret PROP_OK) >>?
  here (fun c =>
    if vhi c gid =? 0 then
      if (vlo c yid >=? var_repr_max (var_at c xid)) || (vhi c xid <=? var_repr_min (var_at c yid))
      then ret PROP_CONFLICT
      else
        here (fun c => lb32 xid (s32 (vlo c yid + 1))) >>?
        here (fun c => ub32 yid (s32 (vhi c xid - 1)))
    else ret PROP_OK) >>?
  here (fun c =>
    if negb (vlo c gid =? vhi c gid) then
      if vhi c xid <=? vlo c yid then lb32 gid 1
      else if vlo c xid >? vhi c yid then ub32 gid 0
      else ret PROP_OK
    else ret PROP_OK) >>?
  ret PROP_OK.

Definition fire_reification_eq_32 (gid xid yid : Z) : fire_t :=
  if xid =? yid then
    here (fun c => if var_hi64 (var_at c gid) =? 0 then ret PROP_CONFLICT else lb64 gid 1)
  else
  here (fun c =>
    if vlo c gid =? 1 then
      let new_lo := if vlo c xid >? vlo c yid then vlo c xid else vlo c yid in
      let new_hi := if vhi c xid <? vhi c yid then vhi c xid else vhi c yid in
      if new_lo >? new_hi then ret PROP_CONFLICT
      else lb32 xid new_lo >>? ub32 xid new_hi >>? lb32 yid new_lo >>? ub32 yid new_hi
    else ret PROP_OK) >>?
  here (fun c =>
    if vhi c gid =? 0 then
      if (vlo c xid =? vhi c xid) && (vlo c yid =? vlo c xid) && (vhi c yid =? vhi c xid)
      then ret PROP_CONFLICT
      else
        here (fun c =>
          if vlo c xid =? vhi c xid then
            here (fun c => if vlo c yid =? vlo c xid then lb32 yid (s32 (vlo c xid + 1)) else ret PROP_OK) >>?
            here (fun c => if vhi c yid =? vlo c xid then ub32 yid (s32 (vlo c xid - 1)) else ret PROP_OK)
          else ret PROP_OK) >>?
        here (fun c =>
          if vlo c yid =? vhi c yid then
            here (fun c => if vlo c xid =? vlo c yid then lb32 xid (s32 (vlo c yid + 1)) else ret PROP_OK) >>?
            here (fun c => if vhi c xid =? vlo c yid then ub32 xid (s32 (vlo c yid - 1)) else ret PROP_OK)
          else ret PROP_OK)
    else ret PROP_OK) >>?
  here (fun c =>
    if (vlo c xid =? vhi c xid) && (vlo c yid =? vhi c yid) && (vlo c xid =? vlo c yid)
    then lb32 gid 1 else ret PROP_OK) >>?
  here (fun c =>
    if (vlo c xid >? vhi c yid) || (vlo c yid >? vhi c xid) then ub32 gid 0 else ret PROP_OK) >>?
  ret PROP_OK.

(** One turn of the scan for the least and greatest supported element. *)
Definition in_set_turn (lo hi : Z) (acc : Z * Z) (e : Z) : Z * Z :=
  let '(new_lo, new_hi) := acc in
  if (e >=? lo) && (e <=? hi)
  then (if e <? new_lo then e else new_lo, if e >? new_hi then e else new_hi)
  else (new_lo, new_hi).
Definition in_set_hull (lo hi : Z) (elems : list Z) : Z * Z :=
  fold_left (in_set_turn lo hi) elems (INT32_MAX, INT32_MIN).

Definition fire_in_set_32 (xid : Z) (elems : list Z) : fire_t :=
  here (fun c =>
    let '(new_lo, new_hi) := in_set_hull (vlo c xid) (vhi c xid) elems in
    if new_lo =? INT32_MAX then ret PROP_CONFLICT
    else lb32 xid new_lo >>? ub32 xid new_hi >>? ret PROP_OK).

Lemma implication_32_implements g v b (ub : bool) :
  int32 b ->
  implements_on (guard_at g) wf32 [g; v]
    (fun s => s g = 1 -> if ub then s v <= b else b <= s v) (fire_implication_32 g v b ub).
Proof.
  intros Hb c W [G1 G2]. unfold fire_implication_32.
  destruct ub; (split; [sound_go W | intros F; dec_go W F]).
Qed.

Lemma reif_32_implements g x y :
  implements_on (fun c => guard_at g c /\ vmax_at c x <= INT32_MAX) wf32 [g; x; y]
    (fun s => s g = 1 <-> s x <= s y) (fire_reification_32 g x y).
Proof.
  intros c W [[G1 G2] M]. unfold fire_reification_32.
  destruct (Z.eqb_spec x y) as [-> | Ne].
  - split; [sound_go W | intros F; dec_go W F].
  - split; [sound_go W | intros F; dec_go W F].
Qed.

Lemma reif_eq_32_sound g x y c : x <> y -> guard_at g c -> wf32 c [g; x; y] ->
  sound_from (fun s => s g = 1 <-> s x = s y) (fire_reification_eq_32 g x y) c.
Proof.
  intros Ne G W. unfold fire_reification_eq_32. rewrite (proj2 (Z.eqb_neq x y) Ne).
  assert (Ig : In g [g; x; y]) by (cbn; auto).
  apply (sound_blocks _ _ _ _ _ W); [destruct G; sound_go W |].
  intros c1 W1 Sb1. pose proof (guard_sub _ _ _ _ W Ig Sb1 G) as G1.
  apply (sound_blocks _ _ _ _ _ W1).
  { apply sound_here. destruct (vhi c1 g =? 0) eqn:E0; [| sound_go W1].
    destruct (_ && _) eqn:E1; [destruct G1; sound_go W1 |].
    apply (sound_blocks _ _ _ _ _ W1); [destruct G1; sound_go W1 |].
    intros c2 W2 Sb2. pose proof (guard_sub _ _ _ _ W1 Ig Sb2 G1) as [H1 H2].
    pose proof (guard_off _ _ _ _ W1 Ig Sb2 (proj1 G1) E0) as E2.
    sound_go W2; late_wrap. }
  intros c2 W2 Sb2. pose proof (guard_sub _ _ _ _ W1 Ig Sb2 G1) as G2.
  apply (sound_blocks _ _ _ _ _ W2); [destruct G2; sound_go W2 |].
  intros c3 W3 Sb3. pose proof (guard_sub _ _ _ _ W2 Ig Sb3 G2) as G3.
  destruct G3. sound_go W3.
Qed.

Lemma reif_eq_32_decides g x y c : x <> y -> guard_at g c -> wf32 c [g; x; y] ->
  all_ids (fixed c) [g; x; y] ->
  decided (forall s, in_dom c s -> s g = 1 <-> s x = s y) (fire_reification_eq_32 g x y) c.
Proof.
  intros Ne [G1 G2] W F. unfold fire_reification_eq_32. rewrite (proj2 (Z.eqb_neq x y) Ne).
  eapply dec_step with (P := lo_at c g = 1 -> lo_at c x = lo_at c y); [fixed_go W F |].
  intros c1 Sd1 P1. pose proof (wf32_sub _ _ _ W (same_dom_sub _ _ Sd1)) as W1.
  pose proof (fixed32_same _ _ _ W Sd1 F) as F1.
  eapply dec_step with (P := hi_at c1 g = 0 -> lo_at c1 x <> lo_at c1 y); [fixed_go W1 F1 |].
  intros c2 _ P2. apply dec_true. dec_end.
Qed.

Lemma reif_eq_32_implements g x y :
  implements_on (guard_at g) wf32 [g; x; y]
    (fun s => s g = 1 <-> s x = s y) (fire_reification_eq_32 g x y).
Proof.
  intros c W G. destruct (Z.eq_dec x y) as [-> | Ne].
  - unfold fire_reification_eq_32. rewrite Z.eqb_refl. destruct G as [G1 G2]. pose proof W as W'.
    open_wf W'. pose proof (bval_hi c g) as Bh.
    split; [apply sound_here | intros F; apply dec_here]; destruct (Z.eqb_spec (var_hi64 (var_at c g)) 0) as [E | E].
    + apply sound_ret; [assumption |]. intros s D. rewrite E, bval_pos in Bh by lia.
      pose proof (D g ltac:(assumption)). lia.
    + apply sound_lb64; [assumption | assumption | unfold int64; lia |].
      intros s D R. rewrite bval_pos by lia. lia.
    + apply dec_ret. congruence.
    + destruct F as (Fg & _). eapply dec_last; [apply fixed_lb64; try assumption; unfold int64; lia |].
      rewrite bval_pos by lia. unfold fixed in Fg. intros P s D. pose proof (D g ltac:(assumption)). lia.
  - split; [apply reif_eq_32_sound; assumption | intros F; apply reif_eq_32_decides; assumption].
Qed.

(** The scan's result: the hull of the supported elements. *)
Lemma in_set_hull_spec lo hi elems a b :
  let '(l, h) := fold_left (in_set_turn lo hi) elems (a, b) in
  l <= a /\ b <= h /\ 
  (forall e, In e elems -> lo <= e <= hi -> l <= e <= h) /\ 
  (l < a -> In l elems /\ lo <= l <= hi) /\ (b < h -> In h elems /\ lo <= h <= hi).
Proof.
  revert a b. induction elems as [| e elems IH]; intros a b; cbn [fold_left].
  { repeat split; try lia; intros; contradiction. }
  unfold in_set_turn at 2. cbv beta iota. rewrite Z.geb_leb, Z.gtb_ltb.
  destruct (Z.leb_spec lo e), (Z.leb_spec e hi); cbn [andb].
  2-4: specialize (IH a b); destruct (fold_left _ _ _) as [l h];
    destruct IH as (I1 & I2 & I3 & I4 & I5); (split; [exact I1 |]); (split; [exact I2 |]);
    (split; [intros f [<- | Hf] Rf; [lia | apply I3; assumption] |]);
    split; intros HL; [destruct (I4 HL) | destruct (I5 HL)]; split; auto; right; assumption.
  destruct (Z.ltb_spec e a), (Z.ltb_spec b e).
  all: match goal with |- context [fold_left _ _ (?u, ?v)] => specialize (IH u v) end;
    destruct (fold_left _ _ _) as [l h]; destruct IH as (I1 & I2 & I3 & I4 & I5);
    (split; [lia |]); (split; [lia |]);
    (split; [intros f [<- | Hf] Rf; [lia | apply I3; assumption] |]);
    split; intros HL;
      [ destruct (Z.eq_dec l e) as [-> | Nl]; [split; [left; reflexivity | lia] |
          destruct (I4 ltac:(lia)); split; [right; assumption | lia]]
      | destruct (Z.eq_dec h e) as [-> | Nh]; [split; [left; reflexivity | lia] |
          destruct (I5 ltac:(lia)); split; [right; assumption | lia]]].
Qed.

Lemma in_set_32_implements x elems :
  Forall int32 elems -> ~ In INT32_MAX elems ->
  implements wf32 [x] (fun s => In (s x) elems) (fire_in_set_32 x elems).
Proof.
  intros I32 NM c W. unfold fire_in_set_32. pose proof W as W'. open_wf W'.
  pose proof (in_set_hull_spec (lo_at c x) (hi_at c x) elems INT32_MAX INT32_MIN) as Hu.
  rewrite List.Forall_forall in I32.
  assert (Ez : in_set_hull (vlo c x) (vhi c x) elems = in_set_hull (lo_at c x) (hi_at c x) elems)
    by (raws; reflexivity).
  unfold in_set_hull in *. rewrite <- Ez in Hu.
  split; [apply sound_here | intros F; apply dec_here]; rewrite Ez in *;
    destruct (fold_left _ _ _) as [l h]; destruct Hu as (U1 & U2 & U3 & U4 & U5);
    destruct (Z.eqb_spec l INT32_MAX) as [-> | Nl].
  - apply sound_ret; [assumption |]. intros s D R. pose proof (D x ltac:(assumption)) as Dx.
    destruct (U3 (s x) R Dx) as [V1 V2]. specialize (I32 _ R). unfold int32 in I32.
    apply NM. replace INT32_MAX with (s x); [exact R | unfold INT32_MAX in *; lia].
  - destruct (U4 ltac:(lia)) as [In1 R1]. pose proof (I32 _ In1). 
    assert (int32 h) as Ih.
    { destruct (U3 l In1 R1). destruct (Z.eq_dec h INT32_MIN) as [-> | Nh].
      - unfold int32, INT32_MIN in *. lia.
      - destruct U5 as [In2 _]; [lia | apply (I32 _ In2)]. }
    apply seq_lb32; try assumption.
    { intros s D R. apply (U3 (s x) R), (D x). assumption. }
    intros c1 S1. pose proof (wf32_sub _ _ _ W (ra_sub _ _ _ _ S1)) as W1.
    apply seq_ub32; try var_side.
    { intros s D R. apply (sub_in_dom _ _ s (ra_sub _ _ _ _ S1)) in D. apply (U3 (s x) R), (D x). assumption. }
    intros c2 S2. pose proof (wf32_sub _ _ _ W1 (lw_sub _ _ _ _ S2)) as W2.
    apply sound_ret; [apply W2 | exact I].
  - apply dec_ret. congruence.
  - destruct (U4 ltac:(lia)) as [In1 R1]. apply dec_true. intros s D.
    pose proof (D x ltac:(assumption)). destruct F as [F _]. unfold fixed in F.
    replace (s x) with l by lia. exact In1.
Qed.
End Fire32.
End Reify32.
