(* ===== verification/Compare64.v ===== *)
(** * Compare64: the 64-bit comparison propagators
    (src/src/c/dvs_prop_templates.c)

    The comparisons over variables of one order: both sides unsigned of width
    64, or neither.  [v + 1] and [v - 1] are the machine's: they wrap. *)

From Stdlib Require Import ZArith Lia ZifyBool Bool.
From stdpp Require Import base list numbers.
From S2P Require Import Prelude Vars Ctx Store Wide.
Import Vars Ctx Store Wide.
Open Scope Z_scope.

Module Compare64.

Section Fire64.
Context {C : Type} `{StoreLaws C}.
Implicit Types c : C.

Definition fire_bounds_le_64 (xid yid : Z) : fire_t :=
  here (fun c => ub64 xid (hi64 c yid)) >>?
  here (fun c => lb64 yid (lo64 c xid)) >>?
  ret PROP_OK.

(** [(v->flags & VAR_SIGNED) || v->width < 64] *)
Definition signed_order (v : variable) : bool := is_signed v || (width v <? 64).

Definition fire_bounds_lt_64 (xid yid : Z) : fire_t :=
  if xid =? yid then ret PROP_CONFLICT else
  here (fun c =>
    let xs := signed_order (var_at c xid) in
    let ys := signed_order (var_at c yid) in
    if Bool.eqb xs ys then
      if hi64 c yid =? (if xs then INT64_MIN else 0) then ret PROP_CONFLICT else
      if lo64 c xid =? (if ys then INT64_MAX else -1) then ret PROP_CONFLICT else ret PROP_OK
    else ret PROP_OK) >>?
  here (fun c => ub64 xid (s64 (hi64 c yid - 1))) >>?
  here (fun c => lb64 yid (s64 (lo64 c xid + 1))) >>?
  ret PROP_OK.

Definition fire_bounds_eq_64 (xid yid : Z) : fire_t :=
  here (fun c =>
    let vx := var_at c xid in
    let lo := var_b_max vx (lo64 c xid) (lo64 c yid) in
    let hi := var_b_min vx (hi64 c xid) (hi64 c yid) in
    if var_b_gt vx lo hi then ret PROP_CONFLICT else
    lb64 xid lo >>? ub64 xid hi >>? lb64 yid lo >>? ub64 yid hi >>? ret PROP_OK).

Definition fire_bounds_ne_64 (xid yid : Z) : fire_t :=
  if xid =? yid then ret PROP_CONFLICT else
  here (fun c =>
    let xlo := lo64 c xid in
    let xhi := hi64 c xid in
    let ylo := lo64 c yid in
    let yhi := hi64 c yid in
    if (xlo =? xhi) && (ylo =? yhi) && (xlo =? ylo) then ret PROP_CONFLICT else
    (if xlo =? xhi then
       if ylo =? xlo then lb64 yid (s64 (xlo + 1))
       else if yhi =? xlo then ub64 yid (s64 (xlo - 1)) else ret PROP_OK
     else ret PROP_OK) >>?
    (if ylo =? yhi then
       if xlo =? ylo then lb64 xid (s64 (ylo + 1))
       else if xhi =? ylo then ub64 xid (s64 (ylo - 1)) else ret PROP_OK
     else ret PROP_OK) >>?
    ret PROP_OK).

Lemma le_64_implements B x y :
  implements (ordered B) [x; y] (fun s => s x <= s y) (fire_bounds_le_64 x y).
Proof.
  intros c W. unfold fire_bounds_le_64.
  assert (Ix : In x [x; y]) by (cbn; auto). assert (Iy : In y [x; y]) by (cbn; auto).
  split; [wide_go W | intros F].
  eapply dec_step; [apply fixed_here, (wide_fixed_ub _ _ _ _ _ W); [assumption | wide_int | find_fixed F] |].
  intros c1 S1 P. wide_decided.
Qed.

Lemma signed_order_spec v : signed_order v = negb (beyond v).
Proof. unfold signed_order, beyond. destruct (is_signed v); [reflexivity |]. cbn. lia. Qed.

(** The ends of the two orders, as patterns. *)
Lemma order_ends (B : bool) :
  bv B (if negb B then INT64_MIN else 0) = bot B /\ int64 (if negb B then INT64_MIN else 0) /\
  bv B (if negb B then INT64_MAX else -1) = top B /\ int64 (if negb B then INT64_MAX else -1).
Proof. destruct B; cbn; unfold int64, INT64_MIN, INT64_MAX; repeat split; try lia; reflexivity. Qed.

(** The guard at the ends: what remains can be stepped. *)
Lemma lt_edge B x y c : ordered B c [x; y] -> x <> y ->
  let b := here (fun c =>
    let xs := signed_order (var_at c x) in
    let ys := signed_order (var_at c y) in
    if Bool.eqb xs ys then
      if hi64 c y =? (if xs then INT64_MIN else 0) then ret PROP_CONFLICT else
      if lo64 c x =? (if ys then INT64_MAX else -1) then ret PROP_CONFLICT else ret PROP_OK
    else ret PROP_OK) in
  b c = (PROP_CONFLICT, c) /\ (forall s, in_dom c s -> ~ s x < s y) \/
  b c = (PROP_OK, c) /\ bot B < hi_at c y /\ lo_at c x < top B.
Proof.
  intros W Ne b. subst b. unfold here. cbv zeta.
  assert (Ix : In x [x; y]) by (cbn; auto). assert (Iy : In y [x; y]) by (cbn; auto).
  members. rewrite !signed_order_spec.
  rewrite (mb_order B c x), (mb_order B c y) by assumption. rewrite Bool.eqb_reflx.
  destruct (order_ends B) as (E1 & I1 & E2 & I2). member_facts.
  rewrite (eqb_bv B (hi64 c y)), (eqb_bv B (lo64 c x)) by assumption. rewrite E1, E2. bv_bounds.
  destruct (Z.eqb_spec (hi_at c y) (bot B)); [left; split; [reflexivity |]; intros s D; use_dom D; lia |].
  destruct (Z.eqb_spec (lo_at c x) (top B)); [left; split; [reflexivity |]; intros s D; use_dom D; lia |].
  right. split; [reflexivity | lia].
Qed.

Lemma lt_64_implements B x y :
  implements (ordered B) [x; y] (fun s => s x < s y) (fire_bounds_lt_64 x y).
Proof.
  intros c W. unfold fire_bounds_lt_64. destruct (Z.eqb_spec x y) as [-> | Ne].
  { split; [apply sound_ret; [apply W |]; intros s _; lia | intros _; apply dec_ret; congruence]. }
  assert (Ix : In x [x; y]) by (cbn; auto). assert (Iy : In y [x; y]) by (cbn; auto).
  destruct (lt_edge B x y c W Ne) as [[E Cf] | (E & L1 & L2)]; cbv zeta in E.
  - split; [apply sound_fail; assumption | intros _; apply dec_fail, E].
  - split; [apply (sound_pass _ _ _ _ E); wide_go W | intros F; apply (dec_pass _ _ _ _ E)].
    eapply dec_step; [apply fixed_here, (wide_fixed_ub _ _ _ _ _ W); [assumption | wide_int | find_fixed F] |].
    intros c1 S1 P. revert P. wide_facts. step_norm. intros P. wide_decided.
Qed.

Lemma eq_64_implements B x y :
  implements (ordered B) [x; y] (fun s => s x = s y) (fire_bounds_eq_64 x y).
Proof.
  intros c W. unfold fire_bounds_eq_64.
  assert (Ix : In x [x; y]) by (cbn; auto). assert (Iy : In y [x; y]) by (cbn; auto).
  split; [wide_go W | intros F; apply dec_here; cbv zeta].
  destruct (var_b_gt _ _ _) eqn:E; [apply dec_ret; congruence |]. wide_decided.
Qed.

Lemma ne_64_implements B x y :
  implements (ordered B) [x; y] (fun s => s x <> s y) (fire_bounds_ne_64 x y).
Proof.
  intros c W. unfold fire_bounds_ne_64. destruct (Z.eqb_spec x y) as [-> | Ne].
  { split; [apply sound_ret; [apply W |]; intros s _; lia | intros _; apply dec_ret; congruence]. }
  assert (Ix : In x [x; y]) by (cbn; auto). assert (Iy : In y [x; y]) by (cbn; auto).
  split; [wide_go W | intros F; apply dec_here; cbv zeta].
  destruct (_ && _) eqn:E; [apply dec_ret; congruence |]. wide_decided.
Qed.
End Fire64.
End Compare64.
