(* ===== verification/Arith64.v ===== *)
(** * Arith64: the 64-bit sum and negation propagators
    (src/src/c/dvs_prop_templates.c)

    Interval arithmetic that may leave 64 bits: sums are checked for overflow,
    a bound that could not be trusted is not applied, and feasibility is
    compared exactly in 128 bits.  The variables may have different orders. *)

From Stdlib Require Import ZArith Lia ZifyBool Bool.
From stdpp Require Import base list numbers.
From S2P Require Import Prelude Vars Ctx Store Wide.
Import Vars Ctx Store Wide.
Open Scope Z_scope.

Module Arith64.

(** ** 128-bit pairs *)

Record DvsI128 := mk_i128 { i128_hi : Z; i128_lo : Z }.

(** [b < 0] on an unsigned 64-bit variable *)
Definition bound_beyond_i64 (v : variable) (b : Z) : bool :=
  negb (is_signed v) && (width v >=? 64) && (b <? 0).
Definition true_bound (v : variable) (b : Z) : DvsI128 :=
  mk_i128 (if bound_beyond_i64 v b || (b >=? 0) then 0 else -1) (u64 b).
Definition i128_add (a b : DvsI128) : DvsI128 :=
  let l := u64 (i128_lo a + i128_lo b) in
  mk_i128 (s64 (u64 (u64 (u64 (i128_hi a) + u64 (i128_hi b)) + (if l <? i128_lo a then 1 else 0)))) l.
Definition i128_lt (a b : DvsI128) : bool :=
  if negb (i128_hi a =? i128_hi b) then i128_hi a <? i128_hi b else i128_lo a <? i128_lo b.

Definition i128_value (a : DvsI128) : Z := i128_hi a * 2 ^ 64 + i128_lo a.
Definition i128_ok (a : DvsI128) : Prop := int64 (i128_hi a) /\ 0 <= i128_lo a < 2 ^ 64.

(** ** Checked operations *)

(** [Some] where the sum fits. *)
Definition i64_chk (z : Z) : option Z := if (- 2 ^ 63 <=? z) && (z <? 2 ^ 63) then Some z else None.
Definition i64_add_chk (a b : Z) : option Z := i64_chk (a + b).
Definition i64_sub_chk (a b : Z) : option Z := i64_chk (a - b).

Definition bound_in_repr (t : variable) (v : Z) : bool :=
  if is_signed t then (v >=? var_repr_min t) && (v <=? var_repr_max t) else
  if v <? 0 then false else
  if width t >=? 64 then true else v <=? var_repr_max t.

Section Fire64.
Context {C : Type} `{StoreLaws C}.
Implicit Types c : C.

Definition tighten_lb_safe (vid : Z) (v : option Z) : fire_t :=
  here (fun c =>
    match v with
    | None => ret PROP_OK
    | Some v => if bound_in_repr (var_at c vid) v then lb64 vid v else ret PROP_OK
    end).
Definition tighten_ub_safe (vid : Z) (v : option Z) : fire_t :=
  here (fun c =>
    match v with
    | None => ret PROP_OK
    | Some v => if bound_in_repr (var_at c vid) v then ub64 vid v else ret PROP_OK
    end).

Definition fire_bounds_add_64 (rid aid bid : Z) : fire_t :=
  here (fun c =>
    let rv := var_at c rid in let av := var_at c aid in let bv := var_at c bid in
    let rlo := lo64 c rid in let rhi := hi64 c rid in
    let alo := lo64 c aid in let ahi := hi64 c aid in
    let blo := lo64 c bid in let bhi := hi64 c bid in
    let rlo_u := bound_beyond_i64 rv rlo in let rhi_u := bound_beyond_i64 rv rhi in
    let alo_u := bound_beyond_i64 av alo in let ahi_u := bound_beyond_i64 av ahi in
    let blo_u := bound_beyond_i64 bv blo in let bhi_u := bound_beyond_i64 bv bhi in
    let slo := i128_add (true_bound av alo) (true_bound bv blo) in
    let shi := i128_add (true_bound av ahi) (true_bound bv bhi) in
    if i128_lt (true_bound rv rhi) slo || i128_lt shi (true_bound rv rlo) then ret PROP_CONFLICT else
    (if negb alo_u && negb blo_u then tighten_lb_safe rid (i64_add_chk alo blo) else ret PROP_OK) >>?
    (if negb ahi_u && negb bhi_u then tighten_ub_safe rid (i64_add_chk ahi bhi) else ret PROP_OK) >>?
    (if negb rlo_u && negb bhi_u then tighten_lb_safe aid (i64_sub_chk rlo bhi) else ret PROP_OK) >>?
    (if negb rhi_u && negb blo_u then tighten_ub_safe aid (i64_sub_chk rhi blo) else ret PROP_OK) >>?
    (if negb rlo_u && negb ahi_u then tighten_lb_safe bid (i64_sub_chk rlo ahi) else ret PROP_OK) >>?
    (if negb rhi_u && negb alo_u then tighten_ub_safe bid (i64_sub_chk rhi alo) else ret PROP_OK) >>?
    ret PROP_OK).

Definition fire_unary_neg_64 (rid aid : Z) : fire_t :=
  here (fun c => lb64 rid (s64 (- hi64 c aid))) >>?
  here (fun c => ub64 rid (s64 (- lo64 c aid))) >>?
  here (fun c => lb64 aid (s64 (- hi64 c rid))) >>?
  here (fun c => ub64 aid (s64 (- lo64 c rid))) >>?
  ret PROP_OK.
End Fire64.

(** ** Exactness of the 128-bit comparison *)

Lemma beyond_i64_spec v b : int64 b -> bound_beyond_i64 v b = negb (bval v b =? b).
Proof.
  unfold bound_beyond_i64, bval, beyond, int64, u64. intros Ib. rewrite Z.geb_leb.
  destruct (is_signed v); cbn [negb andb]; [rewrite Z.eqb_refl; reflexivity |].
  destruct (64 <=? width v); cbn [negb andb]; [| rewrite Z.eqb_refl; reflexivity].
  destruct (Z.ltb_spec b 0).
  - symmetry. apply negb_true_iff, Z.eqb_neq. pose proof (Z.mod_pos_bound b (2 ^ 64)). lia.
  - rewrite Z.mod_small by lia. rewrite Z.eqb_refl. reflexivity.
Qed.

Lemma true_bound_spec v b : int64 b ->
  i128_ok (true_bound v b) /\ i128_value (true_bound v b) = bval v b.
Proof.
  intros Ib. unfold true_bound, i128_ok, i128_value. cbn [i128_hi i128_lo].
  rewrite beyond_i64_spec, Z.geb_leb by exact Ib. unfold bval, u64. unfold int64 in *.
  pose proof (Z.mod_pos_bound b (2 ^ 64)).
  assert (Nb : b < 0 -> b mod 2 ^ 64 = b + 2 ^ 64).
  { intros. rewrite <- (Z.mod_add b 1) by lia. rewrite Z.mod_small; lia. }
  assert (Pb : 0 <= b -> b mod 2 ^ 64 = b) by (intros; apply Z.mod_small; lia).
  destruct (beyond v), (Z.leb_spec 0 b); rewrite ?Nb, ?Pb by lia;
    match goal with |- context [?x =? ?y] => destruct (Z.eqb_spec x y) end; cbn [negb orb]; lia.
Qed.

Lemma s64_cong a b : u64 a = u64 b -> s64 a = s64 b.
Proof.
  unfold u64, s64. intros E. rewrite <- (Zplus_mod_idemp_l a), <- (Zplus_mod_idemp_l b), E. reflexivity.
Qed.

Lemma i128_add_spec a b : i128_ok a -> i128_ok b ->
  - 2 ^ 62 <= i128_hi a < 2 ^ 62 -> - 2 ^ 62 <= i128_hi b < 2 ^ 62 ->
  i128_ok (i128_add a b) /\ i128_value (i128_add a b) = i128_value a + i128_value b.
Proof.
  unfold i128_ok, i128_value, i128_add. destruct a as [ah al], b as [bh bl]. cbn [i128_hi i128_lo].
  intros [_ La] [_ Lb] Ha Hb. split; [split; [apply int64_s64 | apply Z.mod_pos_bound; lia] |].
  set (cy := if u64 (al + bl) <? al then 1 else 0).
  assert (El : u64 (al + bl) = al + bl - cy * 2 ^ 64).
  { subst cy. unfold u64. destruct (Z.lt_ge_cases (al + bl) (2 ^ 64)).
    - rewrite Z.mod_small by lia. destruct (Z.ltb_spec (al + bl) al); lia.
    - rewrite <- (Z.mod_add _ (-1)) by lia. rewrite Z.mod_small by lia.
      destruct (Z.ltb_spec (al + bl + -1 * 2 ^ 64) al); lia. }
  assert (Ec : 0 <= cy <= 1) by (subst cy; destruct (_ <? _); lia).
  rewrite El. clearbody cy.
  assert (Eh : s64 (u64 (u64 (u64 ah + u64 bh) + cy)) = ah + bh + cy).
  { transitivity (s64 (ah + bh + cy)); [| apply s64_small; unfold int64; lia].
    apply s64_cong. unfold u64. rewrite Zmod_mod, Zplus_mod_idemp_l.
    rewrite <- Zplus_mod_idemp_l, <- (Zplus_mod ah bh), Zplus_mod_idemp_l. reflexivity. }
  rewrite Eh. lia.
Qed.

Lemma i128_lt_spec a b : i128_ok a -> i128_ok b -> i128_lt a b = (i128_value a <? i128_value b).
Proof.
  unfold i128_ok, i128_value, i128_lt. destruct a as [ah al], b as [bh bl]. cbn [i128_hi i128_lo].
  intros [_ La] [_ Lb]. destruct (Z.eqb_spec ah bh) as [-> | Ne]; cbn [negb].
  - destruct (Z.ltb_spec al bl), (Z.ltb_spec (bh * 2 ^ 64 + al) (bh * 2 ^ 64 + bl)); lia.
  - destruct (Z.ltb_spec ah bh), (Z.ltb_spec (ah * 2 ^ 64 + al) (bh * 2 ^ 64 + bl)); nia.
Qed.

(** The sum of two bounds against a third. *)
Lemma true_sum_spec v a w b : int64 a -> int64 b ->
  i128_ok (i128_add (true_bound v a) (true_bound w b)) /\
  i128_value (i128_add (true_bound v a) (true_bound w b)) = bval v a + bval w b.
Proof.
  intros Ia Ib. destruct (true_bound_spec v a Ia) as [Oa Ea]. destruct (true_bound_spec w b Ib) as [Ob Eb].
  rewrite <- Ea, <- Eb.
  apply i128_add_spec; auto; unfold true_bound; cbn [i128_hi]; destruct (_ || _); lia.
Qed.

Lemma in_repr_reads t v : int64 v -> bound_in_repr t v = true -> bval t v = v.
Proof.
  intros Iv. unfold bound_in_repr, bval, beyond. destruct (is_signed t); [reflexivity |].
  destruct (Z.ltb_spec v 0); [discriminate |]. rewrite Z.geb_leb. cbn [negb andb].
  destruct (Z.leb_spec 64 (width t)); [| reflexivity]. unfold u64, int64 in *. intros _.
  apply Z.mod_small. lia.
Qed.

Lemma i64_chk_some z n : i64_chk z = Some n -> n = z /\ int64 z.
Proof.
  unfold i64_chk, int64. destruct (_ && _) eqn:E; [| discriminate]. intros [= <-]. lia.
Qed.

(** ** The templates implement their constraints *)

Section Proofs.
Context {C : Type} `{StoreLaws C}.
Implicit Types c : C.

(** A checked bound is applied as the number it is, or not at all. *)
Lemma safe_lb R c x z :
  st_ok c -> valid c x -> (forall s, in_dom c s -> R s -> z <= s x) ->
  sound_from R (tighten_lb_safe x (i64_chk z)) c.
Proof.
  intros K V Ob. unfold tighten_lb_safe. apply sound_here.
  destruct (i64_chk z) as [n |] eqn:E; [| apply sound_ret; [exact K | exact I]].
  apply i64_chk_some in E as [-> Iz].
  destruct (bound_in_repr (var_at c x) z) eqn:Er; [| apply sound_ret; [exact K | exact I]].
  apply sound_lb64; auto. rewrite (in_repr_reads _ _ Iz Er). exact Ob.
Qed.
Lemma safe_ub R c x z :
  st_ok c -> valid c x -> (forall s, in_dom c s -> R s -> s x <= z) ->
  sound_from R (tighten_ub_safe x (i64_chk z)) c.
Proof.
  intros K V Ob. unfold tighten_ub_safe. apply sound_here.
  destruct (i64_chk z) as [n |] eqn:E; [| apply sound_ret; [exact K | exact I]].
  apply i64_chk_some in E as [-> Iz].
  destruct (bound_in_repr (var_at c x) z) eqn:Er; [| apply sound_ret; [exact K | exact I]].
  apply sound_ub64; auto. rewrite (in_repr_reads _ _ Iz Er). exact Ob.
Qed.

(** A bound that is not beyond int64 is the number. *)
Lemma plain_lo c x : st_ok c -> valid c x ->
  bound_beyond_i64 (var_at c x) (lo64 c x) = false -> lo_at c x = lo64 c x.
Proof.
  intros K V E. rewrite beyond_i64_spec in E by apply (int64_lo c x K V).
  apply negb_false_iff, Z.eqb_eq in E. exact E.
Qed.
Lemma plain_hi c x : st_ok c -> valid c x ->
  bound_beyond_i64 (var_at c x) (hi64 c x) = false -> hi_at c x = hi64 c x.
Proof.
  intros K V E. rewrite beyond_i64_spec in E by apply (int64_hi c x K V).
  apply negb_false_iff, Z.eqb_eq in E. exact E.
Qed.

(** The feasibility test: the interval of the sum misses the result's. *)
Lemma add_infeasible c r a b : st_ok c -> valid c r -> valid c a -> valid c b ->
  i128_lt (true_bound (var_at c r) (hi64 c r))
    (i128_add (true_bound (var_at c a) (lo64 c a)) (true_bound (var_at c b) (lo64 c b))) ||
  i128_lt (i128_add (true_bound (var_at c a) (hi64 c a)) (true_bound (var_at c b) (hi64 c b)))
    (true_bound (var_at c r) (lo64 c r)) =
  (hi_at c r <? lo_at c a + lo_at c b) || (hi_at c a + hi_at c b <? lo_at c r).
Proof.
  intros K Vr Va Vb.
  destruct (true_sum_spec (var_at c a) (lo64 c a) (var_at c b) (lo64 c b)) as [O1 E1];
    [apply int64_lo; assumption .. |].
  destruct (true_sum_spec (var_at c a) (hi64 c a) (var_at c b) (hi64 c b)) as [O2 E2];
    [apply int64_hi; assumption .. |].
  destruct (true_bound_spec (var_at c r) (hi64 c r)) as [O3 E3]; [apply int64_hi; assumption |].
  destruct (true_bound_spec (var_at c r) (lo64 c r)) as [O4 E4]; [apply int64_lo; assumption |].
  rewrite !i128_lt_spec, E1, E2, E3, E4 by assumption. reflexivity.
Qed.

Lemma wf64_blocks R ids p q c : wf64 c ids -> sound_from R p c ->
  (forall c', wf64 c' ids -> sub c' c -> sound_from R q c') -> sound_from R (andthen p q) c.
Proof.
  intros W P Q. apply sound_seq; [exact P |]. intros c' Sb _. apply Q; [| exact Sb].
  apply (wf64_sub c); assumption.
Qed.

Lemma wf64_valid c ids x : wf64 c ids -> In x ids -> valid c x.
Proof.
  intros [_ W] Hx. induction ids as [| y ids IH]; [destruct Hx |]. cbn in W, Hx.
  destruct Hx as [<- | Hx]; tauto.
Qed.

(** One guarded block of the sum: its bound follows from the first state. *)
Lemma guarded_lb R c0 c ids x (u1 u2 : bool) z q : wf64 c ids -> In x ids -> sub c c0 ->
  (u1 = false -> u2 = false -> forall s, in_dom c0 s -> R s -> z <= s x) ->
  (forall c', wf64 c' ids -> sub c' c0 -> sound_from R q c') ->
  sound_from R (andthen (if negb u1 && negb u2 then tighten_lb_safe x (i64_chk z) else ret PROP_OK) q) c.
Proof.
  intros W Hx Sb Ob Q. apply (wf64_blocks _ _ _ _ _ W).
  - destruct u1, u2; cbn [negb andb]; try (apply sound_ret; [apply W | exact I]).
    apply safe_lb; [apply W | apply (wf64_valid c ids x W Hx) |].
    intros s D. apply Ob; auto. apply (sub_in_dom c0 c); assumption.
  - intros c' W' Sb'. apply Q; [exact W' |]. eapply sub_trans; eauto.
Qed.
Lemma guarded_ub R c0 c ids x (u1 u2 : bool) z q : wf64 c ids -> In x ids -> sub c c0 ->
  (u1 = false -> u2 = false -> forall s, in_dom c0 s -> R s -> s x <= z) ->
  (forall c', wf64 c' ids -> sub c' c0 -> sound_from R q c') ->
  sound_from R (andthen (if negb u1 && negb u2 then tighten_ub_safe x (i64_chk z) else ret PROP_OK) q) c.
Proof.
  intros W Hx Sb Ob Q. apply (wf64_blocks _ _ _ _ _ W).
  - destruct u1, u2; cbn [negb andb]; try (apply sound_ret; [apply W | exact I]).
    apply safe_ub; [apply W | apply (wf64_valid c ids x W Hx) |].
    intros s D. apply Ob; auto. apply (sub_in_dom c0 c); assumption.
  - intros c' W' Sb'. apply Q; [exact W' |]. eapply sub_trans; eauto.
Qed.

Lemma add_64_implements r a b :
  implements wf64 [r; a; b] (fun s => s r = s a + s b) (fire_bounds_add_64 r a b).
Proof.
  intros c W. destruct W as [K V]. pose proof V as (Vr & Va & Vb & _).
  pose proof (add_infeasible c r a b K Vr Va Vb) as Inf. unfold fire_bounds_add_64.
  split; [apply sound_here | intros (Fr & Fa & Fb & _); apply dec_here]; cbv zeta; rewrite Inf.
  2: { unfold fixed in *. destruct ((hi_at c r <? _) || _) eqn:E; [apply dec_ret; congruence |].
    apply dec_true. intros s D. pose proof (D r Vr). pose proof (D a Va). pose proof (D b Vb). lia. }
  destruct ((hi_at c r <? _) || _) eqn:E; clear Inf.
  { apply sound_ret; [exact K |]. intros s D. pose proof (D r Vr). pose proof (D a Va).
    pose proof (D b Vb). lia. }
  clear E. assert (W : wf64 c [r; a; b]) by (split; assumption). pose proof (sub_refl c K) as Sb.
  pose proof (plain_lo c r K Vr) as Lr. pose proof (plain_hi c r K Vr) as Hr.
  pose proof (plain_lo c a K Va) as La. pose proof (plain_hi c a K Va) as Ha.
  pose proof (plain_lo c b K Vb) as Lb. pose proof (plain_hi c b K Vb) as Hb.
  assert (Dm : forall s, in_dom c s -> lo_at c r <= s r <= hi_at c r /\
    lo_at c a <= s a <= hi_at c a /\ lo_at c b <= s b <= hi_at c b) by (intros s D; auto).
  unfold i64_add_chk, i64_sub_chk.
  apply (guarded_lb _ c c [r; a; b]); [assumption | cbn; auto | assumption | |].
  { intros E1 E2 s D R. specialize (Dm s D). lia. }
  intros c1 W1 Sb1. apply (guarded_ub _ c c1 [r; a; b]); [assumption | cbn; auto | assumption | |].
  { intros E1 E2 s D R. specialize (Dm s D). lia. }
  intros c2 W2 Sb2. apply (guarded_lb _ c c2 [r; a; b]); [assumption | cbn; auto | assumption | |].
  { intros E1 E2 s D R. specialize (Dm s D). lia. }
  intros c3 W3 Sb3. apply (guarded_ub _ c c3 [r; a; b]); [assumption | cbn; auto | assumption | |].
  { intros E1 E2 s D R. specialize (Dm s D). lia. }
  intros c4 W4 Sb4. apply (guarded_lb _ c c4 [r; a; b]); [assumption | cbn; auto | assumption | |].
  { intros E1 E2 s D R. specialize (Dm s D). lia. }
  intros c5 W5 Sb5. apply (guarded_ub _ c c5 [r; a; b]); [assumption | cbn; auto | assumption | |].
  { intros E1 E2 s D R. specialize (Dm s D). lia. }
  intros c6 W6 Sb6. apply sound_ret; [apply W6 | exact I].
Qed.

(** Negation: over signed orders, away from the least int64. *)
Lemma neg_64_implements r a :
  implements_on (fun c => - 2 ^ 63 < lo_at c r /\ - 2 ^ 63 < lo_at c a) (ordered false) [r; a]
    (fun s => s r = - s a) (fire_unary_neg_64 r a).
Proof.
  intros c W [Lr La]. unfold fire_unary_neg_64.
  assert (Ir : In r [r; a]) by (cbn; auto). assert (Ia : In a [r; a]) by (cbn; auto).
  split; [wide_go W | intros F].
  1-4: wide_facts; cbn [bv bot top] in *; let s := fresh in let D := fresh in let R := fresh in
    intros s D R; use_dom D; rewrite !s64_small by (unfold int64; lia); lia.
  eapply dec_step; [apply fixed_here, (wide_fixed_lb _ _ _ _ _ W); [assumption | wide_int | find_fixed F] |].
  intros c1 S1 P1. pose proof (ordered_sub _ _ _ _ W (same_dom_sub _ _ S1)) as W1.
  pose proof (ordered_fixed _ _ _ _ W S1 F) as F1.
  eapply dec_step; [apply fixed_here, (wide_fixed_ub _ _ _ _ _ W1); [assumption | wide_int | find_fixed F1] |].
  intros c2 S2 P2. apply dec_true. revert P1 P2. wide_facts. fixed_facts. unfold fixed in *.
  cbn [all_ids] in *. destruct_and? F. cbn [bv bot top] in *. intros P1 P2 s D. use_dom D.
  rewrite s64_small in P1, P2 by (unfold int64; lia). lia.
Qed.

End Proofs.

End Arith64.
