(* ===== verification/Reify64.v ===== *)
(** * Reify64: guarded bounds, reified comparisons, membership and
    if-then-else, 64 bits (src/src/c/dvs_prop_templates.c)

    The compared variables have one order; the guard is a tier-0 0/1 variable,
    whose raw fields some of the templates read. *)

From Stdlib Require Import ZArith Lia ZifyBool Bool.
From stdpp Require Import base list numbers.
From S2P Require Import Prelude Vars Ctx Store Wide.
Import Vars Ctx Store Wide.
Open Scope Z_scope.

Module Reify64.

Section Fire64.
Context {C : Type} `{StoreLaws C}.
Implicit Types c : C.

Definition fire_implication_64 (gid vid bound : Z) (is_ub : bool) : fire_t :=
  here (fun c =>
    if vhi c gid =? 0 then ret PROP_ENTAILED else
    if vlo c gid =? 1 then if is_ub then ub64 vid bound else lb64 vid bound
    else ret PROP_OK).

Definition fire_reification_64 (gid xid yid : Z) : fire_t :=
  here (fun c =>
    let xlo := lo64 c xid in
    let xhi := hi64 c xid in
    let ylo := lo64 c yid in
    let yhi := hi64 c yid in
    if xid =? yid then
      if vhi c gid =? 0 then ret PROP_CONFLICT else
      if negb (vlo c gid =? vhi c gid) then lb64 gid 1 else ret PROP_OK
    else
    (if vlo c gid =? 1 then ub64 xid yhi >>? lb64 yid xlo else ret PROP_OK) >>?
    here (fun c =>
      if vhi c gid =? 0 then
        if negb (var_b_lt (var_at c xid) ylo (var_repr_max (var_at c xid))) then ret PROP_CONFLICT else
        lb64 xid (s64 (ylo + 1)) >>?
        here (fun c =>
          let xhi_now := hi64 c xid in
          if negb (var_b_gt (var_at c yid) xhi_now (var_repr_min (var_at c yid))) then ret PROP_CONFLICT
          else ub64 yid (s64 (xhi_now - 1)))
      else ret PROP_OK) >>?
    here (fun c =>
      if negb (vlo c gid =? vhi c gid) then
        if negb (var_b_gt (var_at c xid) xhi ylo) then lb64 gid 1
        else if var_b_gt (var_at c xid) xlo yhi then ub64 gid 0 else ret PROP_OK
      else ret PROP_OK) >>?
    ret PROP_OK).

Definition fire_reification_eq_64 (gid xid yid : Z) : fire_t :=
  if xid =? yid then
    here (fun c => if hi64 c gid =? 0 then ret PROP_CONFLICT else lb64 gid 1)
  else
  here (fun c =>
    let xlo := lo64 c xid in
    let xhi := hi64 c xid in
    let ylo := lo64 c yid in
    let yhi := hi64 c yid in
    (if vlo c gid =? 1 then
       let lo := var_b_max (var_at c xid) xlo ylo in
       let hi := var_b_min (var_at c xid) xhi yhi in
       if var_b_gt (var_at c xid) lo hi then ret PROP_CONFLICT
       else lb64 xid lo >>? ub64 xid hi >>? lb64 yid lo >>? ub64 yid hi
     else ret PROP_OK) >>?
    here (fun c =>
      if vhi c gid =? 0 then
        if (xlo =? xhi) && (ylo =? xlo) && (yhi =? xhi) then ret PROP_CONFLICT else
        (if xlo =? xhi then
           if ylo =? xlo then lb64 yid (s64 (xlo + 1))
           else if yhi =? xlo then ub64 yid (s64 (xlo - 1)) else ret PROP_OK
         else ret PROP_OK) >>?
        (if ylo =? yhi then
           if xlo =? ylo then lb64 xid (s64 (ylo + 1))
           else if xhi =? ylo then ub64 xid (s64 (ylo - 1)) else ret PROP_OK
         else ret PROP_OK)
      else ret PROP_OK)) >>?
  here (fun c =>
    let xlo := lo64 c xid in
    let xhi := hi64 c xid in
    let ylo := lo64 c yid in
    let yhi := hi64 c yid in
    (if (xlo =? xhi) && (ylo =? yhi) && (xlo =? ylo) then lb64 gid 1 else ret PROP_OK) >>?
    here (fun c =>
      if var_b_gt (var_at c xid) xlo yhi || var_b_gt (var_at c xid) ylo xhi
      then ub64 gid 0 else ret PROP_OK) >>?
    ret PROP_OK).

(** ** The guard beside the operands *)

(** A guard is tier 0 and 0/1; its bounds read the same in every order. *)
Record guard_ok c (g : Z) : Prop := {
  gk_valid : valid c g;
  gk_tier : tier0 c g;
  gk_lo : vlo c g = lo_at c g;
  gk_hi : vhi c g = hi_at c g;
  gk_rng : 0 <= lo_at c g /\ lo_at c g <= hi_at c g /\ hi_at c g <= 1 }.

Lemma guard_ok_intro c g : st_ok c -> valid c g -> tier0 c g -> guard_at g c -> guard_ok c g.
Proof.
  intros K V T [G1 G2]. constructor; auto using tier0_lo, tier0_hi.
  pose proof (dom_ne c g K V). lia.
Qed.
Lemma guard_ok_sub c c' g : guard_ok c g -> sub c' c -> guard_ok c' g.
Proof.
  intros G Sb. pose proof (gk_valid _ _ G) as V. pose proof (gk_rng _ _ G).
  pose proof (sb_dom _ _ Sb g V).
  apply guard_ok_intro; [apply (sb_ok _ _ Sb) | apply (sb_valid _ _ Sb), V
    | apply (sub_tier0 c' c); [exact Sb | exact V | apply G] |]. split; lia.
Qed.
Lemma guard_ok_same c c' g : guard_ok c g -> same_dom c' c -> guard_ok c' g.
Proof. intros G Sd. apply (guard_ok_sub c); [exact G | apply same_dom_sub, Sd]. Qed.

Lemma sound_guard_on R c g : st_ok c -> guard_ok c g ->
  (forall s, in_dom c s -> R s -> 1 <= s g) -> sound_from R (lb64 g 1) c.
Proof.
  intros K G Ob. apply sound_lb64; [exact K | apply G | unfold int64; lia |].
  rewrite bval_pos by lia. exact Ob.
Qed.
Lemma sound_guard_off R c g : st_ok c -> guard_ok c g ->
  (forall s, in_dom c s -> R s -> s g <= 0) -> sound_from R (ub64 g 0) c.
Proof.
  intros K G Ob. apply sound_ub64; [exact K | apply G | unfold int64; lia |].
  rewrite bval_pos by lia. exact Ob.
Qed.

(** The operands of one order, with a guard. *)
Definition guarded (B : bool) (g : Z) c (ids : list Z) : Prop := ordered B c ids /\ guard_ok c g.
Lemma guarded_sub B g c c' ids : guarded B g c ids -> sub c' c -> guarded B g c' ids.
Proof. intros [W G] Sb. split; [apply (ordered_sub B c) | apply (guard_ok_sub c)]; assumption. Qed.
Lemma guarded_blocks R B g ids p q c : guarded B g c ids -> sound_from R p c ->
  (forall c', guarded B g c' ids -> sub c' c -> sound_from R q c') -> sound_from R (andthen p q) c.
Proof.
  intros W P Q. apply sound_seq; [exact P |]. intros c' Sb _. apply Q; [| exact Sb].
  apply (guarded_sub B g c); assumption.
Qed.

Lemma implication_64_implements B g v b (ub : bool) : int64 b ->
  implements (fun c _ => guarded B g c [v]) [g; v]
    (fun s => s g = 1 -> if ub then s v <= bv B b else bv B b <= s v) (fire_implication_64 g v b ub).
Proof.
  intros Ib c [W G]. unfold fire_implication_64. assert (Iv : In v [v]) by (cbn; auto).
  destruct (gk_rng _ _ G) as (G1 & G2 & G3). pose proof (gk_valid _ _ G) as Vg.
  split; [apply sound_here | intros (Fg & Fv & _); apply dec_here]; rewrite (gk_lo _ _ G), (gk_hi _ _ G);
    destruct (Z.eqb_spec (hi_at c g) 0) as [E | E]; destruct (Z.eqb_spec (lo_at c g) 1) as [E1 | E1].
  1,2,4: apply sound_ret; [apply W |]; try exact I; intros s D; pose proof (D g Vg); lia.
  - destruct ub; [apply (wide_ub _ _ _ _ _ _ W) | apply (wide_lb _ _ _ _ _ _ W)]; auto;
      intros s D R; pose proof (D g Vg); apply R; lia.
  - apply dec_true. intros s D. pose proof (D g Vg). lia.
  - apply dec_true. intros s D. pose proof (D g Vg). lia.
  - unfold fixed in *. destruct ub; eapply dec_last;
      [apply (wide_fixed_ub _ _ _ _ _ W); auto | | apply (wide_fixed_lb _ _ _ _ _ W); auto |];
      intros P s D _; pose proof (ordered_member B c [v] v W Iv) as M;
      pose proof (D v (mb_valid _ _ _ M)); lia.
  - apply dec_true. intros s D. pose proof (D g Vg). unfold fixed in Fg. lia.
Qed.

(** What is known of the guards in view, and the raw reads as numbers. *)
Ltac guard_facts :=
  repeat match goal with
  | G : guard_ok ?c ?g, S : raised ?c ?c' _ _ |- _ =>
      lazymatch goal with
      | _ : guard_ok c' g |- _ => fail
      | |- _ => pose proof (guard_ok_sub c c' g G (ra_sub _ _ _ _ S))
      end
  | G : guard_ok ?c ?g, S : lowered ?c ?c' _ _ |- _ =>
      lazymatch goal with
      | _ : guard_ok c' g |- _ => fail
      | |- _ => pose proof (guard_ok_sub c c' g G (lw_sub _ _ _ _ S))
      end
  | G : guard_ok ?c ?g, S : same_dom ?c' ?c |- _ =>
      lazymatch goal with
      | _ : guard_ok c' g |- _ => fail
      | |- _ => pose proof (guard_ok_same c c' g G S)
      end
  end;
  repeat match goal with
  | G : guard_ok ?c ?g |- _ =>
      lazymatch goal with
      | _ : vlo c g = lo_at c g |- _ => fail
      | |- _ => pose proof (gk_lo _ _ G); pose proof (gk_hi _ _ G); pose proof (gk_rng _ _ G);
          pose proof (gk_valid _ _ G)
      end
  end.
(** The domains of a state after earlier blocks. *)
Ltac block_facts :=
  repeat match goal with
  | Sb : sub ?c' ?c, V : valid ?c ?x |- _ =>
      lazymatch goal with
      | _ : lo_at c x <= lo_at c' x /\ hi_at c' x <= hi_at c x |- _ => fail
      | |- _ => pose proof (sb_dom _ _ Sb x V)
      end
  end.
Ltac template_facts ::= guard_facts; member_facts; block_facts.

(** The ends of the type, as patterns. *)
Lemma repr_int64 v : 1 <= width v <= 64 -> int64 (var_repr_min v) /\ int64 (var_repr_max v).
Proof.
  intros W. unfold var_repr_min, var_repr_max, int64, INT64_MIN, INT64_MAX. rewrite !Z.geb_leb, Z.gtb_ltb.
  pose proof (int64_s64 (2 ^ 64 - 1)) as I1. pose proof (int64_s64 (u64 (u64 (Z.shiftl 1 (width v)) - 1))) as I2.
  unfold int64 in I1, I2. rewrite Z.shiftl_1_l in *. pose proof (pow2_pos (width v - 1) ltac:(lia)).
  assert (P : width v < 64 -> 2 ^ (width v - 1) <= 2 ^ 63) by (intros; apply Z.pow_le_mono_r; lia).
  destruct (is_signed v); destruct (Z.leb_spec 64 (width v)); rewrite ?Z.shiftl_1_l; try lia;
    destruct (width v =? 64); try lia; destruct (Z.ltb_spec 64 (width v)); lia.
Qed.

Lemma member_ends B c x : st_ok c -> member B c x ->
  bot B <= bv B (var_repr_min (var_at c x)) <= lo_at c x /\
  hi_at c x <= bv B (var_repr_max (var_at c x)) <= top B.
Proof.
  intros K M. pose proof (K x (mb_valid _ _ _ M)) as G. pose proof (gd_width _ G) as Wd.
  destruct (repr_int64 _ Wd) as [I1 I2]. pose proof (bv_range B _ I1). pose proof (bv_range B _ I2).
  pose proof (gd_lo _ G). pose proof (gd_hi _ G). fold (lo_at c x) in *. fold (hi_at c x) in *.
  rewrite <- (repr_min_spec _ Wd), (member_bval B c x _ M) in *.
  rewrite <- (repr_max_spec _ Wd), (member_bval B c x _ M) in *. lia.
Qed.

Lemma reif_64_sound B g x y c : x <> y -> guarded B g c [x; y] ->
  sound_from (fun s => s g = 1 <-> s x <= s y) (fire_reification_64 g x y) c.
Proof.
  intros Ne W. unfold fire_reification_64. apply sound_here. cbv zeta.
  rewrite (proj2 (Z.eqb_neq x y) Ne). pose proof W as [Wo G].
  assert (Ix : In x [x; y]) by (cbn; auto). assert (Iy : In y [x; y]) by (cbn; auto).
  apply (guarded_blocks _ _ _ _ _ _ _ W).
  { destruct (vlo c g =? 1) eqn:E; [| apply sound_ret; [apply Wo | exact I]].
    wide_go Wo. }
  intros c1 W1 Sb1. pose proof W1 as [Wo1 G1].
  apply (guarded_blocks _ _ _ _ _ _ _ W1).
  { apply sound_here. destruct (vhi c1 g =? 0) eqn:E; [| apply sound_ret; [apply Wo1 | exact I]].
    pose proof (ordered_member B c1 _ x Wo1 Ix) as Mx.
    pose proof (proj2 (member_ends B c1 x (proj1 Wo1) Mx)).
    wide_go Wo1.
    pose proof (ordered_member B c0 _ y W0 Iy) as My. pose proof (proj1 (member_ends B c0 y (proj1 W0) My)).
    wide_arith. }
  intros c2 W2 Sb2. pose proof W2 as [Wo2 G2]. pose proof (sub_trans _ _ _ Sb2 Sb1) as Sb20.
  apply (guarded_blocks _ _ _ _ _ _ _ W2); [| intros c3 W3 _; apply sound_ret; [apply W3 | exact I]].
  apply sound_here.
  destruct (negb (vlo c2 g =? vhi c2 g)) eqn:E; [| apply sound_ret; [apply Wo2 | exact I]].
  split_if E1; [apply sound_guard_on; [apply Wo2 | exact G2 |] |].
  - wide_arith.
  - split_if E2; [| apply sound_ret; [apply Wo2 | exact I]].
    apply sound_guard_off; [apply Wo2 | exact G2 |]. wide_arith.
Qed.

(** At fixed operands the guard's branch has decided; what follows it cannot
    undo that. *)
Lemma reif_64_decides B g x y c : x <> y -> guarded B g c [x; y] -> all_ids (fixed c) [g; x; y] ->
  decided (forall s, in_dom c s -> s g = 1 <-> s x <= s y) (fire_reification_64 g x y) c.
Proof.
  intros Ne W F. unfold fire_reification_64. apply dec_here. cbv zeta.
  rewrite (proj2 (Z.eqb_neq x y) Ne). pose proof W as [Wo G].
  assert (Ix : In x [x; y]) by (cbn; auto). assert (Iy : In y [x; y]) by (cbn; auto).
  destruct F as [Fg F].
  eapply dec_step with (P := lo_at c g = 1 -> lo_at c x <= lo_at c y).
  { destruct (vlo c g =? 1) eqn:E; wide_fixed Wo F. }
  intros c1 S1 P1. pose proof (ordered_sub _ _ _ _ Wo (same_dom_sub _ _ S1)) as Wo1.
  pose proof (ordered_fixed _ _ _ _ Wo S1 F) as F1. pose proof (guard_ok_same _ _ _ G S1) as G1.
  eapply dec_step with (P := hi_at c g = 0 -> lo_at c y < lo_at c x).
  { apply fixed_here. destruct (vhi c1 g =? 0) eqn:E; [| wide_fixed Wo1 F1]. 
    pose proof (ordered_member B c1 _ x Wo1 Ix) as Mx.
    pose proof (proj2 (member_ends B c1 x (proj1 Wo1) Mx)).
    wide_fixed Wo1 F1.
    }
  intros c2 S2 P2. wide_decided.
Qed.

Lemma reif_64_implements B g x y :
  implements (fun c _ => guarded B g c [x; y]) [g; x; y]
    (fun s => s g = 1 <-> s x <= s y) (fire_reification_64 g x y).
Proof.
  intros c W. destruct (Z.eq_dec x y) as [-> | Ne];
    [| split; [apply (reif_64_sound B) | intros F; apply (reif_64_decides B)]; assumption].
  destruct W as [[K _] G]. unfold fire_reification_64. pose proof (gk_rng _ _ G) as Rg.
  pose proof (gk_valid _ _ G) as Vg. rewrite Z.eqb_refl.
  split; [apply sound_here | intros (Fg & _); apply dec_here]; cbv zeta; rewrite (gk_lo _ _ G), (gk_hi _ _ G).
  - split_if E; [apply sound_ret; [exact K |]; intros s D; pose proof (D g Vg); lia |].
    split_if E1; [| apply sound_ret; [exact K | exact I]].
    apply sound_guard_on; [exact K | exact G |]. intros s D R. pose proof (D g Vg). lia.
  - unfold fixed in Fg. split_if E; [apply dec_ret; congruence |].
    apply dec_true. intros s D. pose proof (D g Vg). lia.
Qed.

(** *** Equality *)

Lemma reif_eq_64_sound B g x y c : x <> y -> guarded B g c [x; y] ->
  sound_from (fun s => s g = 1 <-> s x = s y) (fire_reification_eq_64 g x y) c.
Proof.
  intros Ne W. unfold fire_reification_eq_64. rewrite (proj2 (Z.eqb_neq x y) Ne).
  assert (Ix : In x [x; y]) by (cbn; auto). assert (Iy : In y [x; y]) by (cbn; auto).
  apply (guarded_blocks _ _ _ _ _ _ _ W).
  { apply sound_here. cbv zeta. pose proof W as [Wo G].
    apply (guarded_blocks _ _ _ _ _ _ _ W).
    { split_if E; [| apply sound_ret; [apply Wo | exact I]]. wide_go Wo. }
    intros c1 W1 Sb1. pose proof W1 as [Wo1 G1]. apply sound_here.
    split_if E; [| apply sound_ret; [apply Wo1 | exact I]].
    split_if E1; [apply sound_ret; [apply Wo1 |]; wide_arith |].
    apply (guarded_blocks _ _ _ _ _ _ _ W1); [wide_go Wo1 |].
    intros c2 W2 Sb2. pose proof W2 as [Wo2 G2]. pose proof (sub_trans _ _ _ Sb2 Sb1) as Sb20.
    wide_go Wo2. }
  intros c1 W1 _. pose proof W1 as [Wo1 G1]. apply sound_here. cbv zeta.
  apply (guarded_blocks _ _ _ _ _ _ _ W1).
  { split_if E; [| apply sound_ret; [apply Wo1 | exact I]].
    apply sound_guard_on; [apply Wo1 | exact G1 | wide_arith]. }
  intros c2 W2 Sb2. pose proof W2 as [Wo2 G2].
  apply (guarded_blocks _ _ _ _ _ _ _ W2); [| intros c3 W3 _; apply sound_ret; [apply W3 | exact I]].
  apply sound_here. split_if E; [| apply sound_ret; [apply Wo2 | exact I]].
  apply sound_guard_off; [apply Wo2 | exact G2 | wide_arith].
Qed.

Lemma reif_eq_64_decides B g x y c : x <> y -> guarded B g c [x; y] -> all_ids (fixed c) [g; x; y] ->
  decided (forall s, in_dom c s -> s g = 1 <-> s x = s y) (fire_reification_eq_64 g x y) c.
Proof.
  intros Ne W F. unfold fire_reification_eq_64. rewrite (proj2 (Z.eqb_neq x y) Ne).
  assert (Ix : In x [x; y]) by (cbn; auto). assert (Iy : In y [x; y]) by (cbn; auto).
  pose proof W as [Wo G]. destruct F as [Fg F].
  apply dec_seq_here. cbv zeta. apply dec_assoc.
  eapply dec_step with (P := lo_at c g = 1 -> lo_at c x = lo_at c y).
  { destruct (vlo c g =? 1) eqn:E; wide_fixed Wo F. }
  intros c1 S1 P1. pose proof (ordered_sub _ _ _ _ Wo (same_dom_sub _ _ S1)) as Wo1.
  pose proof (ordered_fixed _ _ _ _ Wo S1 F) as F1. pose proof (guard_ok_same _ _ _ G S1) as G1.
  eapply dec_step with (P := hi_at c g = 0 -> lo_at c y <> lo_at c x).
  { apply fixed_here. destruct (vhi c1 g =? 0) eqn:E; wide_fixed Wo1 F1. }
  intros c2 S2 P2. wide_decided.
Qed.

Lemma reif_eq_64_implements B g x y :
  implements (fun c _ => guarded B g c [x; y]) [g; x; y]
    (fun s => s g = 1 <-> s x = s y) (fire_reification_eq_64 g x y).
Proof.
  intros c W. destruct (Z.eq_dec x y) as [-> | Ne];
    [| split; [apply (reif_eq_64_sound B) | intros F; apply (reif_eq_64_decides B)]; assumption].
  destruct W as [[K _] G]. unfold fire_reification_eq_64. pose proof (gk_rng _ _ G) as Rg.
  pose proof (gk_valid _ _ G) as Vg. rewrite Z.eqb_refl. pose proof (bval_hi c g) as Bh.
  fold (hi64 c g) in Bh.
  split; [apply sound_here | intros (Fg & _); apply dec_here]; split_if E.
  - apply sound_ret; [exact K |]. apply Z.eqb_eq in E. rewrite E, bval_pos in Bh by lia.
    intros s D. pose proof (D g Vg). lia.
  - apply sound_guard_on; [exact K | exact G |]. intros s D R. lia.
  - apply dec_ret. congruence.
  - eapply dec_last; [apply fixed_lb64; [exact K | exact Vg | unfold int64; lia | exact Fg] |].
    rewrite bval_pos by lia. unfold fixed in Fg. intros P s D. pose proof (D g Vg). lia.
Qed.

End Fire64.
End Reify64.
