(* ===== verification/Choice64.v ===== *)
(** * Choice64: set and range membership and the if-then-else value, 64 bits
    (src/src/c/dvs_prop_templates.c) *)

From Stdlib Require Import ZArith Lia ZifyBool Bool.
From stdpp Require Import base list numbers.
From S2P Require Import Prelude Vars Ctx Store Wide Reify32 Reify64.
Import Vars Ctx Store Wide Reify32 Reify64.
Open Scope Z_scope.

Module Choice64.

Section Fire64.
Context {C : Type} `{StoreLaws C}.
Implicit Types c : C.

(** The scan compares the patterns as [int64_t]. *)
Definition fire_in_set_64 (xid : Z) (elems : list Z) : fire_t :=
  here (fun c =>
    let '(new_lo, new_hi) :=
      fold_left (in_set_turn (lo64 c xid) (hi64 c xid)) elems (INT64_MAX, INT64_MIN) in
    if new_lo =? INT64_MAX then ret PROP_CONFLICT
    else lb64 xid new_lo >>? ub64 xid new_hi >>? ret PROP_OK).

(** One turn over the ranges; [None] is [!have]. *)
Definition in_ranges_turn (v : variable) (xlo xhi : Z) (acc : option (Z * Z)) (r : Z * Z) : option (Z * Z) :=
  let lo := var_b_max v (fst r) xlo in
  let hi := var_b_min v (snd r) xhi in
  if var_b_gt v lo hi then acc else
  match acc with
  | None => Some (lo, hi)
  | Some (new_lo, new_hi) =>
      Some (if var_b_lt v lo new_lo then lo else new_lo, if var_b_gt v hi new_hi then hi else new_hi)
  end.
Definition fire_in_ranges_64 (xid : Z) (ranges : list (Z * Z)) : fire_t :=
  here (fun c =>
    match fold_left (in_ranges_turn (var_at c xid) (lo64 c xid) (hi64 c xid)) ranges None with
    | None => ret PROP_CONFLICT
    | Some (new_lo, new_hi) => lb64 xid new_lo >>? ub64 xid new_hi >>? ret PROP_OK
    end).

Definition fire_ite_value_64 (rid cid aid bid : Z) : fire_t :=
  here (fun c =>
    let rv := var_at c rid in
    let clo := lo64 c cid in let chi := hi64 c cid in
    let alo := lo64 c aid in let ahi := hi64 c aid in
    let blo := lo64 c bid in let bhi := hi64 c bid in
    let rlo := lo64 c rid in let rhi := hi64 c rid in
    if (clo =? 1) && (chi =? 1) then
      let lo := var_b_max rv rlo alo in
      let hi := var_b_min rv rhi ahi in
      if var_b_gt rv lo hi then ret PROP_CONFLICT else
      lb64 rid lo >>? ub64 rid hi >>? lb64 aid lo >>? ub64 aid hi >>?
      here (fun c =>
        ret (if (lo64 c rid =? hi64 c rid) && (lo64 c aid =? hi64 c aid) && (lo64 c aid =? lo64 c rid)
             then PROP_ENTAILED else PROP_OK))
    else if (clo =? 0) && (chi =? 0) then
      let lo := var_b_max rv rlo blo in
      let hi := var_b_min rv rhi bhi in
      if var_b_gt rv lo hi then ret PROP_CONFLICT else
      lb64 rid lo >>? ub64 rid hi >>? lb64 bid lo >>? ub64 bid hi >>?
      here (fun c =>
        ret (if (lo64 c rid =? hi64 c rid) && (lo64 c bid =? hi64 c bid) && (lo64 c bid =? lo64 c rid)
             then PROP_ENTAILED else PROP_OK))
    else
      let a_disjoint := var_b_lt rv rhi alo || var_b_gt rv rlo ahi in
      let b_disjoint := var_b_lt rv rhi blo || var_b_gt rv rlo bhi in
      if a_disjoint && b_disjoint then ret PROP_CONFLICT else
      if a_disjoint then
        ub64 cid 0 >>?
        (let lo := var_b_max rv rlo blo in
         let hi := var_b_min rv rhi bhi in
         if var_b_gt rv lo hi then ret PROP_CONFLICT else
         lb64 rid lo >>? ub64 rid hi >>? lb64 bid lo >>? ub64 bid hi >>? ret PROP_OK)
      else if b_disjoint then
        lb64 cid 1 >>?
        (let lo := var_b_max rv rlo alo in
         let hi := var_b_min rv rhi ahi in
         if var_b_gt rv lo hi then ret PROP_CONFLICT else
         lb64 rid lo >>? ub64 rid hi >>? lb64 aid lo >>? ub64 aid hi >>? ret PROP_OK)
      else
        let lo := var_b_min rv alo blo in
        let hi := var_b_max rv ahi bhi in
        lb64 rid lo >>? ub64 rid hi >>? ret PROP_OK).

(** ** Membership *)

Lemma in_set_64_implements x elems :
  Forall int64 elems -> ~ In INT64_MAX elems ->
  implements (ordered false) [x] (fun s => In (s x) elems) (fire_in_set_64 x elems).
Proof.
  intros I64 NM c W. unfold fire_in_set_64. rewrite List.Forall_forall in I64.
  assert (Ix : In x [x]) by (cbn; auto). pose proof (ordered_member false c [x] x W Ix) as M.
  pose proof (in_set_hull_spec (lo64 c x) (hi64 c x) elems INT64_MAX INT64_MIN) as Hu.
  pose proof (mb_lo _ _ _ M) as El. pose proof (mb_hi _ _ _ M) as Eh. cbn [bv] in El, Eh.
  split; [apply sound_here | intros F; apply dec_here];
    destruct (fold_left _ _ _) as [l h]; destruct Hu as (U1 & U2 & U3 & U4 & U5); split_if E.
  - apply sound_ret; [apply W |]. intros s D R. pose proof (D x (mb_valid _ _ _ M)) as Dx.
    destruct (U3 (s x) R ltac:(lia)) as [V1 _]. specialize (I64 _ R). unfold int64, INT64_MAX in *.
    apply NM. replace (2 ^ 63 - 1) with (s x) by lia. exact R.
  - destruct (U4 ltac:(lia)) as [In1 R1]. pose proof (I64 _ In1) as Il.
    assert (Ih : int64 h).
    { destruct (U3 l In1 R1). destruct (Z.eq_dec h INT64_MIN) as [-> | Nh].
      - unfold int64, INT64_MIN in *. lia.
      - destruct U5 as [In2 _]; [lia | apply (I64 _ In2)]. }
    apply (wide_seq_lb _ false [x]); auto.
    { intros s D R. pose proof (D x (mb_valid _ _ _ M)). apply (U3 (s x) R). lia. }
    intros c1 S1 W1. apply (wide_seq_ub _ false [x]); auto.
    { intros s D R. apply (sub_in_dom _ _ s (ra_sub _ _ _ _ S1)) in D.
      pose proof (D x (mb_valid _ _ _ M)). apply (U3 (s x) R). lia. }
    intros c2 S2 W2. apply sound_ret; [apply W2 | exact I].
  - apply dec_ret. congruence.
  - destruct (U4 ltac:(lia)) as [In1 R1]. apply dec_true. intros s D.
    pose proof (D x (mb_valid _ _ _ M)). destruct F as [F _]. unfold fixed in F.
    replace (s x) with l by lia. exact In1.
Qed.

(** The range scan: what its accumulator covers. *)
Definition in_range (B : bool) (n : Z) (r : Z * Z) : Prop := bv B (fst r) <= n <= bv B (snd r).
Definition covers (B : bool) (acc : option (Z * Z)) (n : Z) : Prop :=
  exists l h, acc = Some (l, h) /\ bv B l <= n <= bv B h.
Definition acc_ok (acc : option (Z * Z)) : Prop :=
  match acc with Some (l, h) => int64 l /\ int64 h | None => True end.

Section Scan.
Context (B : bool) (v : variable) (xlo xhi : Z).
Context (Ev : beyond v = B) (Il : int64 xlo) (Ih : int64 xhi).

Lemma turn_ok acc r : acc_ok acc -> int64 (fst r) /\ int64 (snd r) ->
  acc_ok (in_ranges_turn v xlo xhi acc r).
Proof.
  unfold in_ranges_turn. intros A [R1 R2]. pose proof (int64_max v _ _ R1 Il). pose proof (int64_min v _ _ R2 Ih).
  destruct (var_b_gt _ _ _); [exact A |]. destruct acc as [[l h] |]; cbn in *; [| auto].
  destruct A. destruct (var_b_lt _ _ _), (var_b_gt _ _ _); auto.
Qed.

Lemma turn_keeps acc r n : covers B acc n -> covers B (in_ranges_turn v xlo xhi acc r) n.
Proof.
  intros (l & h & -> & Hn). unfold in_ranges_turn, covers.
  destruct (var_b_gt _ _ _); [eauto |]. eexists _, _. split; [reflexivity |].
  rewrite (var_b_lt_bv v B _ _ Ev), (var_b_gt_bv v B _ _ Ev).
  destruct (Z.ltb_spec (bv B (var_b_max v (fst r) xlo)) (bv B l));
    destruct (Z.ltb_spec (bv B h) (bv B (var_b_min v (snd r) xhi))); lia.
Qed.

Lemma turn_takes acc r n : in_range B n r -> bv B xlo <= n <= bv B xhi ->
  covers B (in_ranges_turn v xlo xhi acc r) n.
Proof.
  intros Hr Hn. unfold in_range in Hr. unfold in_ranges_turn, covers.
  pose proof (var_b_max_bv v B (fst r) xlo Ev) as E1. pose proof (var_b_min_bv v B (snd r) xhi Ev) as E2.
  rewrite (var_b_gt_bv v B _ _ Ev). destruct (Z.ltb_spec (bv B (var_b_min v (snd r) xhi)) (bv B (var_b_max v (fst r) xlo)));
    [lia |].
  destruct acc as [[l h] |]; eexists _, _; (split; [reflexivity |]); [| lia].
  rewrite (var_b_lt_bv v B _ _ Ev), (var_b_gt_bv v B _ _ Ev).
  destruct (Z.ltb_spec (bv B (var_b_max v (fst r) xlo)) (bv B l));
    destruct (Z.ltb_spec (bv B h) (bv B (var_b_min v (snd r) xhi))); lia.
Qed.

Lemma turn_found acc r p : in_ranges_turn v xlo xhi acc r = Some p ->
  bv B xlo <= bv B xhi -> acc <> None \/ exists n, bv B xlo <= n <= bv B xhi /\ in_range B n r.
Proof.
  unfold in_ranges_turn, in_range. destruct acc as [q |]; [left; congruence |]. intros E Ne. right.
  rewrite (var_b_gt_bv v B _ _ Ev), (var_b_max_bv v B _ _ Ev), (var_b_min_bv v B _ _ Ev) in E.
  destruct (Z.ltb_spec (Z.min (bv B (snd r)) (bv B xhi)) (Z.max (bv B (fst r)) (bv B xlo))); [discriminate |].
  exists (Z.max (bv B (fst r)) (bv B xlo)). lia.
Qed.

Lemma scan_ok ranges acc : acc_ok acc -> Forall (fun r => int64 (fst r) /\ int64 (snd r)) ranges ->
  acc_ok (fold_left (in_ranges_turn v xlo xhi) ranges acc).
Proof.
  intros A F. revert acc A. induction F as [| r ranges Hr F IH]; intros acc A; [exact A |].
  apply IH, turn_ok; assumption.
Qed.

Lemma scan_covers ranges acc n : bv B xlo <= n <= bv B xhi ->
  covers B acc n \/ (exists r, In r ranges /\ in_range B n r) ->
  covers B (fold_left (in_ranges_turn v xlo xhi) ranges acc) n.
Proof.
  intros Hn. revert acc. induction ranges as [| r ranges IH]; intros acc [A | (q & Hq & Rq)]; cbn [fold_left].
  - exact A.
  - destruct Hq.
  - apply IH. left. apply turn_keeps, A.
  - apply IH. destruct Hq as [-> | Hq]; [left; apply turn_takes; assumption | right; eauto].
Qed.

Lemma scan_found ranges acc p : bv B xlo <= bv B xhi ->
  fold_left (in_ranges_turn v xlo xhi) ranges acc = Some p ->
  acc <> None \/ exists n r, In r ranges /\ bv B xlo <= n <= bv B xhi /\ in_range B n r.
Proof.
  intros Ne. revert acc. induction ranges as [| r ranges IH]; intros acc E; cbn [fold_left] in E.
  - left. congruence.
  - destruct (IH _ E) as [N | (n & q & Hq & Hn)]; [| right; exists n, q; cbn; tauto].
    destruct (in_ranges_turn v xlo xhi acc r) as [p' |] eqn:Et; [| congruence].
    destruct (turn_found acc r p' Et Ne) as [N' | (n & Hn)]; [auto |].
    right. exists n, r. cbn. tauto.
Qed.
End Scan.

Lemma in_ranges_64_implements B x ranges :
  Forall (fun r => int64 (fst r) /\ int64 (snd r)) ranges ->
  implements (ordered B) [x] (fun s => exists r, In r ranges /\ in_range B (s x) r)
    (fire_in_ranges_64 x ranges).
Proof.
  intros Fr c W. unfold fire_in_ranges_64.
  assert (Ix : In x [x]) by (cbn; auto). pose proof (ordered_member B c [x] x W Ix) as M.
  pose proof (mb_lo _ _ _ M) as El. pose proof (mb_hi _ _ _ M) as Eh. pose proof (mb_valid _ _ _ M) as V.
  pose proof (scan_ok (var_at c x) (lo64 c x) (hi64 c x) (mb_lo64 _ _ _ M) (mb_hi64 _ _ _ M) ranges None I Fr) as Ok.
  pose proof (fun n => scan_covers B (var_at c x) (lo64 c x) (hi64 c x) (mb_order _ _ _ M) ranges None n) as Cv.
  pose proof (fun p => scan_found B (var_at c x) (lo64 c x) (hi64 c x) (mb_order _ _ _ M) ranges None p) as Fd.
  rewrite El, Eh in *. pose proof (mb_rng _ _ _ M) as Rg.
  split; [apply sound_here | intros F; apply dec_here];
    destruct (fold_left _ _ _) as [[l h] |].
  - destruct Ok as [Okl Okh].
    assert (Hull : forall s, in_dom c s -> (exists r, In r ranges /\ in_range B (s x) r) -> bv B l <= s x <= bv B h).
    { intros s D R. destruct (Cv (s x) (D x V) (or_intror R)) as (l' & h' & [= <- <-] & Hn). exact Hn. }
    apply (wide_seq_lb _ B [x]); auto; [intros s D R; apply Hull; assumption |].
    intros c1 S1 W1. apply (wide_seq_ub _ B [x]); auto.
    { intros s D R. apply (sub_in_dom _ _ s (ra_sub _ _ _ _ S1)) in D. apply Hull; assumption. }
    intros c2 S2 W2. apply sound_ret; [apply W2 | exact I].
  - apply sound_ret; [apply W |]. intros s D R.
    destruct (Cv (s x) (D x V) (or_intror R)) as (l' & h' & E & _). discriminate.
  - apply dec_true. intros s D. pose proof (D x V). destruct F as [F _]. unfold fixed in F.
    destruct (Fd (l, h) ltac:(lia) eq_refl) as [N | (n & r & Hr & Hn & Rn)]; [congruence |].
    exists r. replace (s x) with n by lia. auto.
  - apply dec_ret. congruence.
Qed.

(** ** If-then-else *)

Lemma guard_patterns c g : st_ok c -> guard_ok c g -> lo64 c g = lo_at c g /\ hi64 c g = hi_at c g.
Proof.
  intros K G. pose proof (good_tier0 _ (K g (gk_valid _ _ G)) (gk_tier _ _ G)) as (_ & _ & _ & _ & Wd).
  unfold lo64, hi64, lo_at, hi_at, lo_of, hi_of. rewrite !bval_narrow by exact Wd. auto.
Qed.

Definition ite_sem (r cond a b : Z) (s : assignment) : Prop :=
  s r = if s cond =? 0 then s b else s a.

(** A branch of a known condition: [r] meets [a], by the bounds of [c0]. *)
Lemma ite_meet (R : assignment -> Prop) B c0 c r a (b : Z) p :
  ordered B c0 [r; a; b] -> ordered B c [r; a; b] -> sub c c0 ->
  (forall s, in_dom c s -> R s -> s r = s a) ->
  (forall c', ordered B c' [r; a; b] -> sub c' c -> sound_from R p c') ->
  sound_from R
    (let lo := var_b_max (var_at c0 r) (lo64 c0 r) (lo64 c0 a) in
     let hi := var_b_min (var_at c0 r) (hi64 c0 r) (hi64 c0 a) in
     if var_b_gt (var_at c0 r) lo hi then ret PROP_CONFLICT else
     lb64 r lo >>? ub64 r hi >>? lb64 a lo >>? ub64 a hi >>? p) c.
Proof.
  intros W0 W Sb0 Eq P. cbv zeta.
  assert (Ir : In r [r; a; b]) by (cbn; auto). assert (Ia : In a [r; a; b]) by (cbn; auto).
  pose proof (ordered_member B c0 _ r W0 Ir) as Mr. pose proof (ordered_member B c0 _ a W0 Ia) as Ma.
  assert (Il : int64 (var_b_max (var_at c0 r) (lo64 c0 r) (lo64 c0 a))) by wide_int.
  assert (Ih : int64 (var_b_min (var_at c0 r) (hi64 c0 r) (hi64 c0 a))) by wide_int.
  assert (Meet : forall s, in_dom c s -> R s ->
    bv B (var_b_max (var_at c0 r) (lo64 c0 r) (lo64 c0 a)) <= s r /\
    s r <= bv B (var_b_min (var_at c0 r) (hi64 c0 r) (hi64 c0 a)) /\ s a = s r).
  { wide_facts. intros s D Rs. pose proof (sub_in_dom c0 c s Sb0 D) as D0.
    use_dom D0. specialize (Eq s D Rs). lia. }
  split_if E.
  { apply sound_ret; [apply W |]. intros s D Rs. specialize (Meet s D Rs). revert E Meet.
    wide_facts. lia. }
  clear E. pose proof (sub_refl c (proj1 W)) as Sb.
  apply (wide_seq_lb _ _ _ _ _ _ _ W); auto; [intros s D Rs; apply (Meet s D Rs) |].
  intros c1 S1 W1. pose proof (ra_sub _ _ _ _ S1) as Sb1.
  apply (wide_seq_ub _ _ _ _ _ _ _ W1); auto.
  { intros s D Rs. apply (Meet s); [apply (sub_in_dom c c1) |]; assumption. }
  intros c2 S2 W2. pose proof (sub_trans _ _ _ (lw_sub _ _ _ _ S2) Sb1) as Sb2.
  apply (wide_seq_lb _ _ _ _ _ _ _ W2); auto.
  { intros s D Rs. destruct (Meet s (sub_in_dom c c2 s Sb2 D) Rs) as (M1 & M2 & M3). lia. }
  intros c3 S3 W3. pose proof (sub_trans _ _ _ (ra_sub _ _ _ _ S3) Sb2) as Sb3.
  apply (wide_seq_ub _ _ _ _ _ _ _ W3); auto.
  { intros s D Rs. destruct (Meet s (sub_in_dom c c3 s Sb3 D) Rs) as (M1 & M2 & M3). lia. }
  intros c4 S4 W4. apply P; [exact W4 |]. apply (sub_trans _ _ _ (lw_sub _ _ _ _ S4) Sb3).
Qed.

(** The two readings of the constraint. *)
Lemma ite_else r cond a b s : s cond = 0 -> ite_sem r cond a b s <-> s r = s b.
Proof. unfold ite_sem. intros ->. reflexivity. Qed.
Lemma ite_then r cond a b s : s cond <> 0 -> ite_sem r cond a b s <-> s r = s a.
Proof. unfold ite_sem. intros N. rewrite (proj2 (Z.eqb_neq _ _) N). reflexivity. Qed.

(** The undecided condition. *)
Lemma ite_open B r cond a b c : ordered B c [r; a; b] -> guard_ok c cond ->
  sound_from (ite_sem r cond a b)
    (let rv := var_at c r in
     let a_disjoint := var_b_lt rv (hi64 c r) (lo64 c a) || var_b_gt rv (lo64 c r) (hi64 c a) in
     let b_disjoint := var_b_lt rv (hi64 c r) (lo64 c b) || var_b_gt rv (lo64 c r) (hi64 c b) in
     if a_disjoint && b_disjoint then ret PROP_CONFLICT else
     if a_disjoint then
       ub64 cond 0 >>?
       (let lo := var_b_max rv (lo64 c r) (lo64 c b) in
        let hi := var_b_min rv (hi64 c r) (hi64 c b) in
        if var_b_gt rv lo hi then ret PROP_CONFLICT else
        lb64 r lo >>? ub64 r hi >>? lb64 b lo >>? ub64 b hi >>? ret PROP_OK)
     else if b_disjoint then
       lb64 cond 1 >>?
       (let lo := var_b_max rv (lo64 c r) (lo64 c a) in
        let hi := var_b_min rv (hi64 c r) (hi64 c a) in
        if var_b_gt rv lo hi then ret PROP_CONFLICT else
        lb64 r lo >>? ub64 r hi >>? lb64 a lo >>? ub64 a hi >>? ret PROP_OK)
     else
       let lo := var_b_min rv (lo64 c a) (lo64 c b) in
       let hi := var_b_max rv (hi64 c a) (hi64 c b) in
       lb64 r lo >>? ub64 r hi >>? ret PROP_OK) c.
Proof.
  intros W G. cbv zeta.
  assert (Ir : In r [r; a; b]) by (cbn; auto). assert (Ia : In a [r; a; b]) by (cbn; auto).
  assert (Ib : In b [r; a; b]) by (cbn; auto).
  assert (W' : ordered B c [r; b; a]) by (destruct W as (K & ? & ? & ? & _); split; cbn; auto 10).
  set (ad := var_b_lt _ _ (lo64 c a) || _). set (bd := var_b_lt _ _ (lo64 c b) || _).
  assert (Ad : ad = true -> forall s, in_dom c s -> s r <> s a).
  { subst ad. wide_facts. intros E s D. use_dom D. lia. }
  assert (Bd : bd = true -> forall s, in_dom c s -> s r <> s b).
  { subst bd. wide_facts. intros E s D. use_dom D. lia. }
  assert (Else : ad = true -> forall s, in_dom c s -> ite_sem r cond a b s -> s cond = 0 /\ s r = s b).
  { intros E s D Rs. destruct (Z.eq_dec (s cond) 0) as [Z0 | N]; [rewrite ite_else in Rs by exact Z0; auto |].
    rewrite ite_then in Rs by exact N. elim (Ad E s D Rs). }
  assert (Then : bd = true -> forall s, in_dom c s -> ite_sem r cond a b s -> s cond <> 0 /\ s r = s a).
  { intros E s D Rs. destruct (Z.eq_dec (s cond) 0) as [Z0 | N]; [| rewrite ite_then in Rs by exact N; auto].
    rewrite ite_else in Rs by exact Z0. elim (Bd E s D Rs). }
  clearbody ad bd. pose proof (gk_rng _ _ G) as Rg. pose proof (gk_valid _ _ G) as Vg.
  split_if E; [| split_if E1; [| split_if E2]].
  - apply andb_true_iff in E as [E1 E2]. apply sound_ret; [apply W |]. intros s D Rs.
    destruct (Else E1 s D Rs), (Then E2 s D Rs). congruence.
  - apply sound_seq; [apply sound_guard_off; [apply W | exact G |]; intros s D Rs; destruct (Else eq_refl s D Rs); lia |].
    intros c1 Sb _. apply (ite_meet _ B c c1 r b a); [exact W' | apply (ordered_sub B c); assumption | exact Sb | |].
    { intros s D Rs. apply (Else eq_refl s); [apply (sub_in_dom c c1) |]; assumption. }
    intros c2 W2 _. apply sound_ret; [apply W2 | exact I].
  - apply sound_seq.
    { apply sound_guard_on; [apply W | exact G |]. intros s D Rs. destruct (Then eq_refl s D Rs).
      pose proof (D cond Vg). lia. }
    intros c1 Sb _. apply (ite_meet _ B c c1 r a b); [exact W | apply (ordered_sub B c); assumption | exact Sb | |].
    { intros s D Rs. apply (Then eq_refl s); [apply (sub_in_dom c c1) |]; assumption. }
    intros c2 W2 _. apply sound_ret; [apply W2 | exact I].
  - unfold ite_sem. clear Ad Bd Else Then.
    assert (Hull : forall s, in_dom c s -> s r = (if s cond =? 0 then s b else s a) -> s r = s a \/ s r = s b)
      by (intros s _ ->; destruct (_ =? _); auto).
    wide_go W; wide_facts; intros s D Rs.
    + destruct (Hull s D Rs); use_dom D; lia.
    + pose proof (sub_in_dom c c0 s (ra_sub _ _ _ _ S) D) as D0. destruct (Hull s D0 Rs); use_dom D0; lia.
Qed.

Lemma ite_64_sound B r cond a b c : ordered B c [r; a; b] -> guard_ok c cond ->
  sound_from (ite_sem r cond a b) (fire_ite_value_64 r cond a b) c.
Proof.
  intros W G. unfold fire_ite_value_64. apply sound_here. cbv zeta.
  destruct (guard_patterns c cond (proj1 W) G) as [-> ->]. pose proof (gk_rng _ _ G) as Rg.
  pose proof (gk_valid _ _ G) as Vg.
  assert (Ir : In r [r; a; b]) by (cbn; auto). assert (Ia : In a [r; a; b]) by (cbn; auto).
  assert (Ib : In b [r; a; b]) by (cbn; auto).
  assert (W' : ordered B c [r; b; a]) by (destruct W as (K & ? & ? & ? & _); split; cbn; auto 10).
  split_if E; [| split_if E1].
  - apply (ite_meet _ B c c r a b); [exact W | exact W | apply sub_refl, W | |].
    { intros s D Rs. unfold ite_sem in Rs. pose proof (D cond Vg). rewrite (proj2 (Z.eqb_neq (s cond) 0)) in Rs by lia.
      exact Rs. }
    intros c1 W1 Sb. apply sound_here.
    split_if E1; apply sound_ret; try apply W1.
    pose proof (sb_dom _ _ Sb cond Vg). pose proof (proj2 (sb_valid _ _ Sb cond) Vg) as Vg1.
    wide_facts. intros s D. use_dom D. unfold ite_sem. rewrite (proj2 (Z.eqb_neq (s cond) 0)); lia.
  - apply (ite_meet _ B c c r b a); [exact W' | exact W' | apply sub_refl, W | |].
    { intros s D Rs. unfold ite_sem in Rs. pose proof (D cond Vg). rewrite (proj2 (Z.eqb_eq (s cond) 0)) in Rs by lia.
      exact Rs. }
    intros c1 W1 Sb. apply sound_here. 
    split_if E2; apply sound_ret; try apply W1.
    assert (Jr : In r [r; b; a]) by (cbn; auto). assert (Jb : In b [r; b; a]) by (cbn; auto).
    pose proof (sb_dom _ _ Sb cond Vg). pose proof (proj2 (sb_valid _ _ Sb cond) Vg) as Vg1.
    wide_facts. intros s D. use_dom D. unfold ite_sem. rewrite (proj2 (Z.eqb_eq (s cond) 0)); lia.
  - apply (ite_open B); assumption.
Qed.

Lemma ite_64_implements B r cond a b :
  implements (fun c _ => ordered B c [r; a; b] /\ guard_ok c cond) [r; cond; a; b]
    (ite_sem r cond a b) (fire_ite_value_64 r cond a b).
Proof.
  intros c [W G]. split; [apply (ite_64_sound B); assumption |].
  intros (Fr & Fc & Fa & Fb & _). unfold fire_ite_value_64. apply dec_here. cbv zeta.
  destruct (guard_patterns c cond (proj1 W) G) as [-> ->]. pose proof (gk_rng _ _ G) as Rg.
  pose proof (gk_valid _ _ G) as Vg. unfold fixed in *.
  assert (Ir : In r [r; a; b]) by (cbn; auto). assert (Ia : In a [r; a; b]) by (cbn; auto).
  assert (Ib : In b [r; a; b]) by (cbn; auto).
  split_if E; [split_if E1 | split_if E1; [split_if E2 |]]; try (apply dec_ret; congruence).
  - wide_decided. apply ite_then; lia.
  - wide_decided. apply ite_else; lia.
  - lia.
Qed.
End Fire64.
End Choice64.
