(* ===== verification/Window.v ===== *)
(** * Window: rules for templates over values

    Where no variable is an unsigned one of width 64, a stored pattern is the
    number it denotes, and what a template reads is a window its variables'
    values lie in.  The file restates the rules of [Store] in these terms.  A
    template names the states it may run in by a predicate that shrinking domains
    keep ([Stable]); an obligation of a statement then speaks of one assignment
    and the windows read so far; at fixed variables every read is the value
    itself. *)

From Stdlib Require Import ZArith Lia ZifyBool Bool.
From stdpp Require Import base list numbers.
From S2P Require Import Prelude Vars Ctx Store Wide.
Import Vars Ctx Store Wide.
Open Scope Z_scope.

Module Window.

Section Rules.
Context {C : Type} `{StoreLaws C}.
Implicit Types c : C.

Lemma all_ids_in (P : Z -> Prop) ids : all_ids P ids <-> forall x, In x ids -> P x.
Proof.
  induction ids as [| y ids IH]; cbn; [split; [intros _ x [] | auto] |]. rewrite IH. split.
  - intros [Py Q] x [<- | Hx]; auto.
  - intros Q. split; intros; apply Q; auto.
Qed.

(** ** States *)

Class Stable (wf : C -> Prop) (ids : list Z) : Prop := {
  st_plain c : wf c -> ordered false c ids;
  st_sub c c' : wf c -> sub c' c -> wf c' }.
Class Stable32 (wf : C -> Prop) (ids : list Z) : Prop := {
  st_narrow c : wf c -> wf32 c ids;
  st_sub32 c c' : wf c -> sub c' c -> wf c' }.

Lemma wf32_plain c ids : wf32 c ids -> ordered false c ids.
Proof.
  intros [K W]. split; [exact K |]. apply all_ids_in. intros x Hx.
  destruct (proj1 (all_ids_in _ ids) W x Hx) as [V T]. split; [exact V |].
  destruct (gd_tier _ (K x V)) as [(_ & Wd & _) | (T' & _)]; [| unfold tier0 in T; congruence].
  unfold beyond. destruct (Z.leb_spec 64 (width (var_at c x))); [lia |]. apply andb_false_r.
Qed.
#[export] Instance stable32 wf ids `{!Stable32 wf ids} : Stable wf ids.
Proof. constructor; [intros c W; apply wf32_plain, st_narrow, W | apply st_sub32]. Qed.
Definition plain (ids : list Z) c : Prop := ordered false c ids.
#[export] Instance plain_stable ids : Stable (plain ids) ids.
Proof. constructor; [auto |]. intros c c' W Sb. apply (ordered_sub false c c' ids W Sb). Qed.

Lemma narrow_incl c ids ids' : wf32 c ids -> (forall x, In x ids' -> In x ids) -> wf32 c ids'.
Proof. intros [K W] I. split; [exact K |]. rewrite all_ids_in in W |- *. auto. Qed.
Lemma plain_incl c ids ids' : ordered false c ids -> (forall x, In x ids' -> In x ids) -> ordered false c ids'.
Proof. intros [K W] I. split; [exact K |]. rewrite all_ids_in in W |- *. auto. Qed.

(** A template that keeps the contract from every state of [wf]. *)
Definition fulfils (wf : C -> Prop) (ids : list Z) (R : assignment -> Prop) (p : fire_t) : Prop :=
  forall c, wf c -> sound_from R p c /\
    (all_ids (fixed c) ids -> decided (forall s, in_dom c s -> R s) p c).

(** ** What a read tells *)

Lemma window_lo c ids x : ordered false c ids -> In x ids -> lo64 c x = lo_at c x.
Proof. intros W I. apply (mb_lo _ _ _ (ordered_member false c ids x W I)). Qed.
Lemma window_hi c ids x : ordered false c ids -> In x ids -> hi64 c x = hi_at c x.
Proof. intros W I. apply (mb_hi _ _ _ (ordered_member false c ids x W I)). Qed.
Lemma narrow_lo c ids x : wf32 c ids -> In x ids -> vlo c x = lo_at c x.
Proof.
  intros [K W] Ix. destruct (proj1 (all_ids_in _ ids) W x Ix) as [V T]. apply tier0_lo; assumption.
Qed.
Lemma narrow_hi c ids x : wf32 c ids -> In x ids -> vhi c x = hi_at c x.
Proof.
  intros [K W] Ix. destruct (proj1 (all_ids_in _ ids) W x Ix) as [V T]. apply tier0_hi; assumption.
Qed.

(** The windows of a state, alone and around an assignment in its domains. *)
Definition open_at c (ids : list Z) : Prop :=
  all_ids (fun x => - 2 ^ 63 <= lo_at c x /\ lo_at c x <= hi_at c x /\ hi_at c x < 2 ^ 63) ids.
Definition open_32 c (ids : list Z) : Prop :=
  all_ids (fun x => - 2 ^ 31 <= lo_at c x /\ lo_at c x <= hi_at c x /\ hi_at c x < 2 ^ 31) ids.
Definition around c (ids : list Z) (s : assignment) : Prop :=
  all_ids (fun x => lo_at c x <= s x /\ s x <= hi_at c x) ids.
Definition within c' c (ids : list Z) : Prop :=
  all_ids (fun x => lo_at c x <= lo_at c' x /\ hi_at c' x <= hi_at c x) ids.

Lemma plain_open c ids : ordered false c ids -> open_at c ids.
Proof.
  intros W. apply all_ids_in. intros x Hx. pose proof (ordered_member false c ids x W Hx) as M.
  pose proof (mb_rng _ _ _ M) as Rg. unfold bot, top in Rg. lia.
Qed.
Lemma narrow_open c ids : wf32 c ids -> open_32 c ids.
Proof.
  intros [K W]. apply all_ids_in. intros x Hx. destruct (proj1 (all_ids_in _ ids) W x Hx) as [V T].
  apply (tier0_bounds c x K V T).
Qed.
Lemma plain_around c ids s : ordered false c ids -> in_dom c s -> around c ids s.
Proof.
  intros W D. apply all_ids_in. intros x Hx. apply (D x), (ordered_member false c ids x W Hx).
Qed.
Lemma sub_within c' c ids : ordered false c ids -> sub c' c -> within c' c ids.
Proof.
  intros W Sb. apply all_ids_in. intros x Hx. apply (sb_dom _ _ Sb), (ordered_member false c ids x W Hx).
Qed.

(** ** Soundness *)

Section Sound.
Context (wf : C -> Prop) (ids : list Z) (R : assignment -> Prop).

Lemma win_lb `{!Stable wf ids} c x b : wf c -> In x ids -> int64 b ->
  (forall s, in_dom c s -> R s -> b <= s x) -> sound_from R (lb64 x b) c.
Proof. intros W I Ib. apply (wide_lb R false ids c x b (st_plain c W) I Ib). Qed.
Lemma win_ub `{!Stable wf ids} c x b : wf c -> In x ids -> int64 b ->
  (forall s, in_dom c s -> R s -> s x <= b) -> sound_from R (ub64 x b) c.
Proof. intros W I Ib. apply (wide_ub R false ids c x b (st_plain c W) I Ib). Qed.
Lemma win_seq_lb `{!Stable wf ids} c x b q : wf c -> In x ids -> int64 b ->
  (forall s, in_dom c s -> R s -> b <= s x) ->
  (forall c', sub c' c -> b <= lo_at c' x -> wf c' -> sound_from R q c') -> sound_from R (andthen (lb64 x b) q) c.
Proof.
  intros W I Ib Ob Q. apply (wide_seq_lb R false ids c x b q (st_plain c W) I Ib Ob).
  intros c' S _. apply Q; [apply S | rewrite (ra_lo _ _ _ _ S); cbn [bv]; lia | apply (st_sub c c' W), S].
Qed.
Lemma win_seq_ub `{!Stable wf ids} c x b q : wf c -> In x ids -> int64 b ->
  (forall s, in_dom c s -> R s -> s x <= b) ->
  (forall c', sub c' c -> hi_at c' x <= b -> wf c' -> sound_from R q c') -> sound_from R (andthen (ub64 x b) q) c.
Proof.
  intros W I Ib Ob Q. apply (wide_seq_ub R false ids c x b q (st_plain c W) I Ib Ob).
  intros c' S _. apply Q; [apply S | rewrite (lw_hi _ _ _ _ S); cbn [bv]; lia | apply (st_sub c c' W), S].
Qed.
(** The same, with the window of another variable [y] kept. *)
Definition kept c' c (y : Z) : Prop := lo_at c' y = lo_at c y /\ hi_at c' y = hi_at c y.
Lemma win_frame_lb `{!Stable wf ids} y c x b q : wf c -> In x ids -> In y ids -> x <> y -> int64 b ->
  (forall s, in_dom c s -> R s -> b <= s x) ->
  (forall c', sub c' c -> b <= lo_at c' x -> kept c' c y -> wf c' -> sound_from R q c') ->
  sound_from R (andthen (lb64 x b) q) c.
Proof.
  intros W I Iy N Ib Ob Q. apply (wide_seq_lb R false ids c x b q (st_plain c W) I Ib Ob). intros c' S _.
  pose proof (mb_valid _ _ _ (ordered_member false c ids y (st_plain c W) Iy)) as V.
  apply Q; [apply S | rewrite (ra_lo _ _ _ _ S); cbn [bv]; lia | | apply (st_sub c c' W), S].
  split; [apply (ra_other _ _ _ _ S y V); congruence | apply (ra_hi _ _ _ _ S y V)].
Qed.
Lemma win_frame_ub `{!Stable wf ids} y c x b q : wf c -> In x ids -> In y ids -> x <> y -> int64 b ->
  (forall s, in_dom c s -> R s -> s x <= b) ->
  (forall c', sub c' c -> hi_at c' x <= b -> kept c' c y -> wf c' -> sound_from R q c') ->
  sound_from R (andthen (ub64 x b) q) c.
Proof.
  intros W I Iy N Ib Ob Q. apply (wide_seq_ub R false ids c x b q (st_plain c W) I Ib Ob). intros c' S _.
  pose proof (mb_valid _ _ _ (ordered_member false c ids y (st_plain c W) Iy)) as V.
  apply Q; [apply S | rewrite (lw_hi _ _ _ _ S); cbn [bv]; lia | | apply (st_sub c c' W), S].
  split; [apply (lw_lo _ _ _ _ S y V) | apply (lw_other _ _ _ _ S y V); congruence].
Qed.
Lemma win_block `{!Stable wf ids} c p q : wf c -> sound_from R p c ->
  (forall c', sub c' c -> wf c' -> sound_from R q c') -> sound_from R (andthen p q) c.
Proof.
  intros W P Q. apply sound_seq; [exact P |]. intros c' Sb _. apply Q; [exact Sb | apply (st_sub c c' W Sb)].
Qed.

Lemma narrow_at c x : wf32 c ids -> In x ids -> st_ok c /\ valid c x /\ tier0 c x.
Proof. intros [K W] Ix. split; [exact K |]. apply (proj1 (all_ids_in _ ids) W x Ix). Qed.
Lemma win_lb32 `{!Stable32 wf ids} c x b : wf c -> In x ids -> int32 b ->
  (forall s, in_dom c s -> R s -> b <= s x) -> sound_from R (lb32 x b) c.
Proof. intros W I Ib. destruct (narrow_at c x (st_narrow c W) I) as (K & V & T). apply sound_lb32; assumption. Qed.
Lemma win_ub32 `{!Stable32 wf ids} c x b : wf c -> In x ids -> int32 b ->
  (forall s, in_dom c s -> R s -> s x <= b) -> sound_from R (ub32 x b) c.
Proof. intros W I Ib. destruct (narrow_at c x (st_narrow c W) I) as (K & V & T). apply sound_ub32; assumption. Qed.
Lemma win_seq_lb32 `{!Stable32 wf ids} c x b q : wf c -> In x ids -> int32 b ->
  (forall s, in_dom c s -> R s -> b <= s x) ->
  (forall c', sub c' c -> b <= lo_at c' x -> wf c' -> sound_from R q c') -> sound_from R (andthen (lb32 x b) q) c.
Proof.
  intros W I Ib Ob Q. destruct (narrow_at c x (st_narrow c W) I) as (K & V & T).
  apply seq_lb32; try assumption. intros c' S. apply Q; [apply S | rewrite (ra_lo _ _ _ _ S); lia | apply (st_sub32 c c' W), S].
Qed.
Lemma win_seq_ub32 `{!Stable32 wf ids} c x b q : wf c -> In x ids -> int32 b ->
  (forall s, in_dom c s -> R s -> s x <= b) ->
  (forall c', sub c' c -> hi_at c' x <= b -> wf c' -> sound_from R q c') -> sound_from R (andthen (ub32 x b) q) c.
Proof.
  intros W I Ib Ob Q. destruct (narrow_at c x (st_narrow c W) I) as (K & V & T).
  apply seq_ub32; try assumption. intros c' S. apply Q; [apply S | rewrite (lw_hi _ _ _ _ S); lia | apply (st_sub32 c c' W), S].
Qed.
End Sound.

Lemma win_ret `{!Stable wf ids} R c r : wf c ->
  match r with
  | PROP_OK => True
  | PROP_CONFLICT => forall s, in_dom c s -> ~ R s
  | PROP_ENTAILED => forall s, in_dom c s -> R s
  end -> sound_from R (ret r) c.
Proof. intros W. apply sound_ret, (st_plain c W). Qed.

(** ** Decision at fixed variables *)

(** Every read of [ids] is the value of [s]. *)
Definition pinned (wf : C -> Prop) (ids : list Z) (s : assignment) c : Prop :=
  wf c /\ all_ids (fun x => lo_at c x = s x /\ hi_at c x = s x) ids.

Section Pinned.
Context (wf : C -> Prop) (ids : list Z) (s : assignment) (P : Prop).

Lemma pin_at c x : pinned wf ids s c -> In x ids -> lo_at c x = s x /\ hi_at c x = s x.
Proof. intros [_ E] Ix. apply (proj1 (all_ids_in _ ids) E x Ix). Qed.
Lemma pin_lo64 `{!Stable wf ids} c x : pinned wf ids s c -> In x ids -> lo64 c x = s x.
Proof. intros Pn Ix. rewrite (window_lo c ids x (st_plain c (proj1 Pn)) Ix). apply (pin_at c x Pn Ix). Qed.
Lemma pin_hi64 `{!Stable wf ids} c x : pinned wf ids s c -> In x ids -> hi64 c x = s x.
Proof. intros Pn Ix. rewrite (window_hi c ids x (st_plain c (proj1 Pn)) Ix). apply (pin_at c x Pn Ix). Qed.
Lemma pin_vlo `{!Stable32 wf ids} c x : pinned wf ids s c -> In x ids -> vlo c x = s x.
Proof. intros Pn Ix. rewrite (narrow_lo c ids x (st_narrow c (proj1 Pn)) Ix). apply (pin_at c x Pn Ix). Qed.
Lemma pin_vhi `{!Stable32 wf ids} c x : pinned wf ids s c -> In x ids -> vhi c x = s x.
Proof. intros Pn Ix. rewrite (narrow_hi c ids x (st_narrow c (proj1 Pn)) Ix). apply (pin_at c x Pn Ix). Qed.

Lemma pin_open `{!Stable wf ids} c : pinned wf ids s c -> all_ids (fun x => - 2 ^ 63 <= s x /\ s x < 2 ^ 63) ids.
Proof.
  intros Pn. apply all_ids_in. intros x Hx. destruct (pin_at c x Pn Hx).
  pose proof (proj1 (all_ids_in _ ids) (plain_open c ids (st_plain c (proj1 Pn))) x Hx) as O. cbn in O. lia.
Qed.
Lemma pin_open32 `{!Stable32 wf ids} c : pinned wf ids s c -> all_ids (fun x => - 2 ^ 31 <= s x /\ s x < 2 ^ 31) ids.
Proof.
  intros Pn. apply all_ids_in. intros x Hx. destruct (pin_at c x Pn Hx).
  pose proof (proj1 (all_ids_in _ ids) (narrow_open c ids (st_narrow c (proj1 Pn))) x Hx) as O. cbn in O. lia.
Qed.
Lemma pin_same `{!Stable wf ids} c c' : pinned wf ids s c -> same_dom c' c -> pinned wf ids s c'.
Proof.
  intros [W E] Sd. split; [apply (st_sub c c' W (same_dom_sub _ _ Sd)) |]. apply all_ids_in. intros x Hx.
  pose proof (mb_valid _ _ _ (ordered_member false c ids x (st_plain c W) Hx)) as V.
  rewrite (sd_lo _ _ Sd x V), (sd_hi _ _ Sd x V). apply (proj1 (all_ids_in _ ids) E x Hx).
Qed.
Lemma pin_fixed c x : pinned wf ids s c -> In x ids -> fixed c x.
Proof. intros Pn Ix. destruct (pin_at c x Pn Ix). unfold fixed. congruence. Qed.

Lemma pin_seq `{!Stable wf ids} p q (Q : Prop) c : pinned wf ids s c -> fixed_step p c Q ->
  (Q -> forall c', pinned wf ids s c' -> decided P q c') -> decided P (andthen p q) c.
Proof.
  intros Pn F K. apply (dec_step P p q c Q F). intros c' Sd HQ. apply (K HQ), (pin_same c c' Pn Sd).
Qed.

Lemma pin_step_lb `{!Stable wf ids} c x b : pinned wf ids s c -> In x ids -> int64 b ->
  fixed_step (lb64 x b) c (b <= s x).
Proof.
  intros Pn Ix Ib. rewrite <- (proj1 (pin_at c x Pn Ix)).
  apply (wide_fixed_lb false ids c x b (st_plain c (proj1 Pn)) Ix Ib (pin_fixed c x Pn Ix)).
Qed.
Lemma pin_step_ub `{!Stable wf ids} c x b : pinned wf ids s c -> In x ids -> int64 b ->
  fixed_step (ub64 x b) c (s x <= b).
Proof.
  intros Pn Ix Ib. rewrite <- (proj1 (pin_at c x Pn Ix)).
  apply (wide_fixed_ub false ids c x b (st_plain c (proj1 Pn)) Ix Ib (pin_fixed c x Pn Ix)).
Qed.
Lemma pin_step_lb32 `{!Stable32 wf ids} c x b : pinned wf ids s c -> In x ids -> int32 b ->
  fixed_step (lb32 x b) c (b <= s x).
Proof.
  intros Pn Ix Ib. destruct (narrow_at ids c x (st_narrow c (proj1 Pn)) Ix) as (K & V & T).
  rewrite <- (proj1 (pin_at c x Pn Ix)). apply fixed_lb32; auto. apply (pin_fixed c x Pn Ix).
Qed.
Lemma pin_step_ub32 `{!Stable32 wf ids} c x b : pinned wf ids s c -> In x ids -> int32 b ->
  fixed_step (ub32 x b) c (s x <= b).
Proof.
  intros Pn Ix Ib. destruct (narrow_at ids c x (st_narrow c (proj1 Pn)) Ix) as (K & V & T).
  rewrite <- (proj1 (pin_at c x Pn Ix)). apply fixed_ub32; auto. apply (pin_fixed c x Pn Ix).
Qed.
End Pinned.

(** What the first statement settles is settled. *)
Lemma dec_first (P : Prop) p q c : decided P p c -> decided P (andthen p q) c.
Proof. unfold decided, andthen. destruct (p c) as [[] c1]; cbn; intros K N; apply K; congruence. Qed.

(** Two bounds that meet settle the relation, whatever follows. *)
Lemma pin_exact wf ids s (P : Prop) c x v rest `{!Stable wf ids} : pinned wf ids s c -> In x ids -> int64 v ->
  (s x = v -> P) -> decided P (andthen (lb64 x v) (andthen (ub64 x v) rest)) c.
Proof.
  intros Pn Ix Iv HP. eapply (pin_seq wf ids s P); [exact Pn | apply (pin_step_lb wf ids s c x v Pn Ix Iv) |].
  intros L c1 Pn1. apply dec_first. eapply dec_last; [apply (pin_step_ub wf ids s c1 x v Pn1 Ix Iv) |].
  intros U. apply HP. lia.
Qed.

Lemma pin_start wf ids R p c `{!Stable wf ids} : wf c -> all_ids (fixed c) ids ->
  (forall s, pinned wf ids s c -> decided (R s) p c) -> decided (forall s, in_dom c s -> R s) p c.
Proof.
  intros W F K Nc s D. apply (K s); [| exact Nc]. split; [exact W |]. apply all_ids_in. intros x Hx.
  pose proof (proj1 (all_ids_in _ ids) F x Hx) as Fx. unfold fixed in Fx.
  pose proof (D x (mb_valid _ _ _ (ordered_member false c ids x (st_plain c W) Hx))). lia.
Qed.
End Rules.

(** ** Running a template *)

Ltac here_in := solve [cbn; auto 8].
(** A new state [c] of the predicate, [W : wf c]. *)
Ltac enter W :=
  first [ let Nr := fresh "Nr" in pose proof (st_narrow _ W) as Nr; pose proof (wf32_plain _ _ Nr)
        | pose proof (st_plain _ W) ].
Ltac reads :=
  repeat match goal with
  | Pl : ordered false ?c ?ids |- context [lo64 ?c ?x] => rewrite (window_lo c ids x Pl) by here_in
  | Pl : ordered false ?c ?ids |- context [hi64 ?c ?x] => rewrite (window_hi c ids x Pl) by here_in
  | Nr : wf32 ?c ?ids |- context [vlo ?c ?x] => rewrite (narrow_lo c ids x Nr) by here_in
  | Nr : wf32 ?c ?ids |- context [vhi ?c ?x] => rewrite (narrow_hi c ids x Nr) by here_in
  end.
Ltac split_ids V := cbn [all_ids] in V; destruct_and? V.
(** The windows of every state in view. *)
Ltac windows :=
  repeat match goal with
  | Nr : wf32 ?c ?ids |- _ =>
      lazymatch goal with _ : open_32 c ids |- _ => fail | |- _ => pose proof (narrow_open c ids Nr) end
  | Pl : ordered false ?c ?ids |- _ =>
      lazymatch goal with
      | _ : open_at c ids |- _ => fail
      | _ : wf32 c ids |- _ => fail
      | |- _ => pose proof (plain_open c ids Pl)
      end
  end;
  repeat match goal with
  | V : open_32 _ _ |- _ => unfold open_32 in V; split_ids V
  | V : open_at _ _ |- _ => unfold open_at in V; split_ids V
  end.
(** The windows around an assignment in the domain of the last state. *)
Ltac around_all :=
  repeat match goal with
  | Sb : sub ?c' ?c, D : in_dom ?c' ?s |- _ =>
      lazymatch goal with _ : in_dom c s |- _ => fail | |- _ => pose proof (sub_in_dom c c' s Sb D) end
  end;
  repeat match goal with
  | Pl : ordered false ?c ?ids, D : in_dom ?c ?s |- _ =>
      lazymatch goal with _ : around c ids s |- _ => fail | |- _ => pose proof (plain_around c ids s Pl D) end
  end;
  repeat match goal with V : around _ _ _ |- _ => unfold around in V; split_ids V end.
(** How the windows of later states lie in those of earlier ones. *)
Ltac withins :=
  repeat match goal with
  | Sb : sub ?c' ?c, Pl : ordered false ?c ?ids |- _ =>
      lazymatch goal with _ : within c' c ids |- _ => fail | |- _ => pose proof (sub_within c' c ids Pl Sb) end
  end;
  repeat match goal with V : within _ _ _ |- _ => unfold within in V; split_ids V end.
Ltac win_int := first [assumption | apply int32_s32 | apply int64_s64 | windows; unfold int32, int64; lia | idtac].
Ltac win_arith :=
  try solve [let s := fresh "s" in let D := fresh "D" in let Rs := fresh "Rs" in
    intros s D Rs; around_all; lia].
Ltac win_go W :=
  lazymatch goal with
  | |- sound_from _ (andthen (here _) _) _ => apply sound_seq_here; cbv beta zeta; reads; win_go W
  | |- sound_from _ (andthen (andthen _ _) _) _ => apply sound_assoc; win_go W
  | |- sound_from _ (andthen (ret PROP_OK) _) _ => apply sound_skip; win_go W
  | |- sound_from _ (andthen (ret PROP_CONFLICT) _) _ => apply sound_early; win_go W
  | |- sound_from _ (andthen (if _ then _ else _) _) ?c =>
      apply (win_block _ _ _ c _ _ W); [win_go W | win_next win_go]
  | |- sound_from _ (andthen (lb64 _ _) _) ?c =>
      apply (win_seq_lb _ _ _ c _ _ _ W); [here_in | win_int | win_arith | win_next win_go]
  | |- sound_from _ (andthen (ub64 _ _) _) ?c =>
      apply (win_seq_ub _ _ _ c _ _ _ W); [here_in | win_int | win_arith | win_next win_go]
  | |- sound_from _ (andthen (lb32 _ _) _) ?c =>
      apply (win_seq_lb32 _ _ _ c _ _ _ W); [here_in | win_int | win_arith | win_next win_go]
  | |- sound_from _ (andthen (ub32 _ _) _) ?c =>
      apply (win_seq_ub32 _ _ _ c _ _ _ W); [here_in | win_int | win_arith | win_next win_go]
  | |- sound_from _ (andthen _ _) ?c => apply (win_block _ _ _ c _ _ W); [| win_next win_go]
  | |- sound_from _ (here _) _ => apply sound_here; cbv beta zeta; reads; win_go W
  | |- sound_from _ (if ?b then _ else _) _ => let E := fresh "E" in destruct b eqn:E; win_go W
  | |- sound_from _ (lb64 _ _) ?c => apply (win_lb _ _ _ c _ _ W); [here_in | win_int | win_arith]
  | |- sound_from _ (ub64 _ _) ?c => apply (win_ub _ _ _ c _ _ W); [here_in | win_int | win_arith]
  | |- sound_from _ (lb32 _ _) ?c => apply (win_lb32 _ _ _ c _ _ W); [here_in | win_int | win_arith]
  | |- sound_from _ (ub32 _ _) ?c => apply (win_ub32 _ _ _ c _ _ W); [here_in | win_int | win_arith]
  | |- sound_from _ (ret (if ?b then _ else _)) _ => let E := fresh "E" in destruct b eqn:E; win_go W
  | |- sound_from _ (ret PROP_OK) _ => apply (win_ret _ _ _ W); exact I
  | |- sound_from _ (ret _) ?c => apply (win_ret _ c _ W); win_arith
  | |- _ => idtac
  end
with win_next k :=
  let c1 := fresh "c" in let Sb := fresh "Sb" in let W1 := fresh "W" in
  intros c1 Sb;
  lazymatch goal with |- _ <= _ -> _ => let B := fresh "B" in intros B | |- _ => idtac end;
  intros W1; enter W1; k W1.

(** One bound of a sequence, the window of [y] kept. *)
Ltac win_frame y W :=
  let c1 := fresh "c" in let Sb := fresh "Sb" in let B := fresh "B" in let Kp := fresh "Kp" in let W1 := fresh "W" in
  lazymatch goal with
  | |- sound_from _ (andthen (andthen _ _) _) _ => apply sound_assoc; win_frame y W
  | |- sound_from _ (andthen (ret PROP_OK) _) _ => apply sound_skip; win_frame y W
  | |- sound_from _ (andthen (lb64 _ _) _) ?c =>
      apply (win_frame_lb _ _ _ y c _ _ _ W); [here_in | here_in | congruence | win_int | win_arith |
        intros c1 Sb B Kp W1; enter W1; cbv beta; reads]
  | |- sound_from _ (andthen (ub64 _ _) _) ?c =>
      apply (win_frame_ub _ _ _ y c _ _ _ W); [here_in | here_in | congruence | win_int | win_arith |
        intros c1 Sb B Kp W1; enter W1; cbv beta; reads]
  end.

(** At fixed variables [Pn : pinned wf ids s c]. *)
Ltac pin_reads Pn :=
  repeat first [ rewrite (pin_lo64 _ _ _ _ _ Pn) by here_in | rewrite (pin_hi64 _ _ _ _ _ Pn) by here_in
               | rewrite (pin_vlo _ _ _ _ _ Pn) by here_in | rewrite (pin_vhi _ _ _ _ _ Pn) by here_in ];
  rewrite ?Z.eqb_refl; cbn [andb]; cbv iota.
Ltac pin_open_all Pn :=
  let O := fresh "O" in
  first [pose proof (pin_open32 _ _ _ _ Pn) as O | pose proof (pin_open _ _ _ _ Pn) as O]; split_ids O.
Ltac pin_int := first [assumption | apply int32_s32 | apply int64_s64 | unfold int32, int64; lia | idtac].
Ltac pin_step Pn :=
  first [ apply (pin_step_lb _ _ _ _ _ _ Pn) | apply (pin_step_ub _ _ _ _ _ _ Pn)
        | apply (pin_step_lb32 _ _ _ _ _ _ Pn) | apply (pin_step_ub32 _ _ _ _ _ _ Pn) ]; [here_in | pin_int].
Ltac pin_go Pn :=
  lazymatch goal with
  | |- decided _ (andthen (here _) _) _ => apply dec_seq_here; cbv beta zeta; pin_reads Pn; pin_go Pn
  | |- decided _ (andthen (andthen _ _) _) _ => apply dec_assoc; pin_go Pn
  | |- decided _ (andthen (ret PROP_OK) _) _ => apply dec_skip; pin_go Pn
  | |- decided _ (andthen (ret PROP_CONFLICT) _) _ => apply dec_early
  | |- decided _ (andthen (if ?b then _ else _) _) _ => let E := fresh "E" in destruct b eqn:E; pin_go Pn
  | |- decided _ (andthen _ _) _ =>
      first [ eapply (pin_seq _ _ _ _ _ _ _ _ Pn); [pin_step Pn
      | let L := fresh "L" in let c1 := fresh "c" in let Pn1 := fresh "Pn" in intros L c1 Pn1; pin_go Pn1 ] | idtac ]
  | |- decided _ (here _) _ => apply dec_here; cbv beta zeta; pin_reads Pn; pin_go Pn
  | |- decided _ (if ?b then _ else _) _ => let E := fresh "E" in destruct b eqn:E; pin_go Pn
  | |- decided _ (ret PROP_CONFLICT) _ => apply dec_ret; congruence
  | |- decided _ (ret _) _ => apply dec_true; try lia
  | |- decided _ _ _ =>
      first [eapply dec_last; [pin_step Pn | let L := fresh "L" in intros L; try lia] | idtac]
  | |- _ => idtac
  end.

End Window.
