(* ===== verification/Masks.v ===== *)
(** * Masks: words with given bits
    (src/src/c/dvs_prop_templates.c, [_pdep64], [_masked_ceil], [_masked_floor])

    The numbers with every bit of [must] and no bit outside [allow], in order: a
    rank's bits are dealt to the free positions, and a binary search over the
    ranks finds the first from a bound on, or the last up to one.  The file also
    has the bounds of bitwise operations the templates use. *)

From Stdlib Require Import ZArith Lia ZifyBool Bool Btauto.
From S2P Require Import Prelude.
Open Scope Z_scope.

Module Masks.

(** [for (m = mask; m; m &= m - 1) { if (k & 1) r |= m & (~m + 1); k >>= 1; }] *)
Fixpoint pdep_loop (fuel : nat) (m k r : Z) : Z :=
  match fuel with
  | O => r
  | S fuel =>
      if m =? 0 then r else
      pdep_loop fuel (Z.land m (m - 1)) (Z.shiftr k 1)
        (if Z.land k 1 =? 0 then r else Z.lor r (Z.land m (u64 (u64 (Z.lnot m) + 1))))
  end.
Definition pdep64 (k mask : Z) : Z := pdep_loop 64 mask k 0.

(** [__builtin_popcountll] *)
Fixpoint popcount_pos (p : positive) : Z :=
  match p with xH => 1 | xO p => popcount_pos p | xI p => 1 + popcount_pos p end.
Definition popcount (m : Z) : Z := match m with Zpos p => popcount_pos p | _ => 0 end.

Definition last_rank (F : Z) : Z := if F =? 0 then 0 else 2 ^ popcount F - 1.

Fixpoint ceil_loop (fuel : nat) (lo must F a b : Z) : option Z :=
  match fuel with
  | O => None
  | S fuel =>
      if a <? b then
        let m := a + (b - a) / 2 in
        if Z.lor must (pdep64 m F) >=? lo then ceil_loop fuel lo must F a m
        else ceil_loop fuel lo must F (m + 1) b
      else Some a
  end.
Definition masked_ceil (lo must allow : Z) : option Z :=
  let F := Z.land allow (u64 (Z.lnot must)) in
  if Z.lor must F <? lo then Some (-1) else
  option_map (fun a => s64 (Z.lor must (pdep64 a F))) (ceil_loop 64 lo must F 0 (last_rank F)).

Fixpoint floor_loop (fuel : nat) (hi must F a b : Z) : option Z :=
  match fuel with
  | O => None
  | S fuel =>
      if a <? b then
        let m := b - (b - a) / 2 in
        if Z.lor must (pdep64 m F) <=? hi then floor_loop fuel hi must F m b
        else floor_loop fuel hi must F a (m - 1)
      else Some a
  end.
Definition masked_floor (hi must allow : Z) : option Z :=
  let F := Z.land allow (u64 (Z.lnot must)) in
  if must >? hi then Some (-1) else
  option_map (fun a => s64 (Z.lor must (pdep64 a F))) (floor_loop 64 hi must F 0 (last_rank F)).

(** [top |= top >> 1; .. top |= top >> 32;] *)
Definition smear (t : Z) : Z :=
  let t := Z.lor t (Z.shiftr t 1) in
  let t := Z.lor t (Z.shiftr t 2) in
  let t := Z.lor t (Z.shiftr t 4) in
  let t := Z.lor t (Z.shiftr t 8) in
  let t := Z.lor t (Z.shiftr t 16) in
  Z.lor t (Z.shiftr t 32).

Example pdep_ex : pdep64 5 (2 + 8 + 32 + 64) = 2 + 32.
Proof. reflexivity. Qed.
Example ceil_ex : masked_ceil 5 2 (2 + 4 + 8) = Some 6.
Proof. reflexivity. Qed.
Example floor_ex : masked_floor 13 2 (2 + 4 + 8) = Some 10.
Proof. reflexivity. Qed.
Example smear_ex : smear 37 = 63.
Proof. reflexivity. Qed.

(** ** Dealing bits to the positions of a mask *)

Fixpoint deal (p : positive) (k : Z) : Z :=
  match p with
  | xH => k mod 2
  | xO p => 2 * deal p k
  | xI p => k mod 2 + 2 * deal p (k / 2)
  end.
Definition deposit (m k : Z) : Z := match m with Zpos p => deal p k | _ => 0 end.

Lemma deposit_even m k : 0 <= m -> deposit (2 * m) k = 2 * deposit m k.
Proof. destruct m; [reflexivity | reflexivity | lia]. Qed.
Lemma deposit_odd m k : 0 <= m -> deposit (2 * m + 1) k = k mod 2 + 2 * deposit m (k / 2).
Proof. destruct m; cbn [deposit]; [intros; cbn; lia | reflexivity | lia]. Qed.
Lemma popcount_even m : 0 <= m -> popcount (2 * m) = popcount m.
Proof. destruct m; [reflexivity | reflexivity | lia]. Qed.
Lemma popcount_odd m : 0 <= m -> popcount (2 * m + 1) = 1 + popcount m.
Proof. destruct m; [reflexivity | reflexivity | lia]. Qed.

(** Induction over the binary digits. *)
Lemma digits_ind (P : Z -> Prop) : P 0 -> (forall m, 0 < m -> P m -> P (2 * m)) -> (forall m, 0 <= m -> P m -> P (2 * m + 1)) ->
  forall m, 0 <= m -> P m.
Proof.
  intros P0 Pe Po m Hm. destruct m as [| p | p]; [exact P0 | | lia]. induction p as [p IH | p IH |].
  - apply (Po (Zpos p)); [lia | apply IH; lia].
  - apply (Pe (Zpos p)); [lia | apply IH; lia].
  - apply (Po 0); [lia | exact P0].
Qed.
Lemma popcount_nonneg m : 0 <= m -> 0 <= popcount m.
Proof.
  intros Hm. pattern m. apply digits_ind; [cbn; lia | | | exact Hm]; intros n Hn IH;
    [rewrite popcount_even | rewrite popcount_odd]; lia.
Qed.
Lemma popcount_width m w : fits w m -> 0 <= w -> popcount m <= w.
Proof.
  intros [Hm Hw] Pw. revert w Pw Hw. pattern m. apply digits_ind; [cbn; lia | | | exact Hm]; intros n Hn IH w Pw Hw;
    (destruct (Z.eq_dec w 0) as [-> | Nw]; [change (2 ^ 0) with 1 in Hw; lia |]);
    replace w with (Z.succ (w - 1)) in Hw by lia; rewrite Z.pow_succ_r in Hw by lia.
  - rewrite popcount_even by lia. specialize (IH (w - 1)). lia.
  - rewrite popcount_odd by lia. specialize (IH (w - 1)). lia.
Qed.

Lemma halves k : 0 <= k -> k = 2 * (k / 2) + k mod 2 /\ 0 <= k mod 2 < 2 /\ 0 <= k / 2.
Proof. intros Hk. pose proof (Z.div_mod k 2). pose proof (Z.mod_pos_bound k 2). pose proof (Z.div_pos k 2). lia. Qed.

Lemma deposit_range m k : 0 <= m -> 0 <= k -> 0 <= deposit m k <= m.
Proof.
  intros Hm. revert k. pattern m. apply digits_ind; [cbn; lia | | | exact Hm]; intros n Hn IH k Hk.
  - rewrite deposit_even by lia. specialize (IH k Hk). lia.
  - rewrite deposit_odd by lia. destruct (halves k Hk) as (_ & ? & Hh). specialize (IH (k / 2) Hh). lia.
Qed.
(** Ranks order the numbers dealt. *)
Lemma deposit_lt m k k' : 0 <= m -> 0 <= k < k' -> k' < 2 ^ popcount m -> deposit m k < deposit m k'.
Proof.
  intros Hm. revert k k'. pattern m. apply digits_ind; [cbn; lia | | | exact Hm]; intros n Hn IH k k' Hk Hp.
  - rewrite popcount_even in Hp by lia. rewrite !deposit_even by lia. specialize (IH k k' Hk Hp). lia.
  - rewrite popcount_odd, Z.pow_add_r in Hp by (try apply popcount_nonneg; lia). change (2 ^ 1) with 2 in Hp.
    rewrite !deposit_odd by lia. destruct (halves k) as (E & B & Hh); [lia |]. destruct (halves k') as (E' & B' & Hh'); [lia |].
    destruct (Z.eq_dec (k / 2) (k' / 2)) as [Eq | Ne]; [rewrite Eq; lia |].
    specialize (IH (k / 2) (k' / 2)). lia.
Qed.
(** Every subset of the mask is dealt by some rank. *)
Lemma deposit_onto m f : 0 <= m -> 0 <= f -> Z.land f m = f ->
  exists k, 0 <= k < 2 ^ popcount m /\ deposit m k = f.
Proof.
  intros Hm. revert f. pattern m. apply digits_ind; [| | | exact Hm].
  - intros f Hf E. rewrite Z.land_0_r in E. exists 0. cbn. lia.
  - intros n Hn IH f Hf E. destruct (halves f Hf) as (Ef & Bf & Hh).
    assert (Z.testbit f 0 = false) as F0 by (rewrite <- E, Z.land_spec, Z.testbit_even_0; apply andb_false_r).
    assert (Fm : f mod 2 = 0) by (rewrite <- Z.bit0_mod, F0; reflexivity).
    destruct (IH (f / 2)) as (k & Hk & D); [exact Hh | |].
    + rewrite <- E at 2. rewrite <- !Z.div2_div, !Z.div2_spec, Z.shiftr_land. f_equal.
      rewrite Z.shiftr_div_pow2 by lia. change (2 ^ 1) with 2. rewrite (Z.mul_comm 2 n), Z.div_mul; lia.
    + exists k. rewrite popcount_even, deposit_even by lia. lia.
  - intros n Hn IH f Hf E. destruct (halves f Hf) as (Ef & Bf & Hh).
    destruct (IH (f / 2)) as (k & Hk & D); [exact Hh | |].
    + rewrite <- E at 2. rewrite <- !Z.div2_div, !Z.div2_spec, Z.shiftr_land. f_equal.
      rewrite Z.shiftr_div_pow2 by lia. change (2 ^ 1) with 2. apply (Z.div_unique _ 2 _ 1); lia.
    + exists (f mod 2 + 2 * k). rewrite popcount_odd, deposit_odd, Z.pow_add_r by (try apply popcount_nonneg; lia).
      assert (Em : (f mod 2 + 2 * k) mod 2 = f mod 2) by (rewrite Z.mul_comm, Z.mod_add, Z.mod_mod; lia).
      assert (Ed : (f mod 2 + 2 * k) / 2 = k) by (rewrite Z.mul_comm, Z.div_add, Z.div_small; lia).
      rewrite Em, Ed. change (2 ^ 1) with 2. lia.
Qed.

(** ** The loop deals the bits *)

Lemma twice a : 2 * a = Z.shiftl a 1.
Proof. rewrite Z.shiftl_mul_pow2 by lia. change (2 ^ 1) with 2. lia. Qed.
Lemma land_twice a b : Z.land (2 * a) (2 * b) = 2 * Z.land a b.
Proof. rewrite !twice, Z.shiftl_land. reflexivity. Qed.
Lemma lor_twice a b : Z.lor (2 * a) (2 * b) = 2 * Z.lor a b.
Proof. rewrite !twice, Z.shiftl_lor. reflexivity. Qed.
(** An even number and a lowest bit. *)
Lemma add_low a b : 0 <= b < 2 -> b + 2 * a = Z.lor b (2 * a).
Proof.
  intros Hb. assert (D : Z.land b (2 * a) = 0).
  { apply Z.bits_inj'. intros i Hi. rewrite Z.land_spec, Z.bits_0. destruct (Z.eq_dec i 0) as [-> | Ni].
    - rewrite Z.testbit_even_0. apply andb_false_r.
    - rewrite (fits_high 1 b i); [reflexivity | unfold fits; lia | lia]. }
  pose proof (Z.add_lor_land b (2 * a)). lia.
Qed.

Definition low_bit (m : Z) : Z := Z.land m (- m).
Definition clear_low (m : Z) : Z := Z.land m (m - 1).

Lemma clear_low_even n : clear_low (2 * n) = 2 * clear_low n.
Proof.
  unfold clear_low. replace (2 * n - 1) with (1 + 2 * (n - 1)) by lia. rewrite add_low, Z.land_lor_distr_r, land_twice by lia.
  replace (Z.land (2 * n) 1) with 0; [reflexivity |]. change 1 with (Z.ones 1). rewrite Z.land_ones by lia.
  change (2 ^ 1) with 2. rewrite Z.mul_comm, Z.mod_mul; lia.
Qed.
Lemma clear_low_odd n : clear_low (2 * n + 1) = 2 * n.
Proof.
  unfold clear_low. replace (2 * n + 1 - 1) with (2 * n) by lia. rewrite (Z.add_comm (2 * n) 1), add_low by lia.
  rewrite Z.land_lor_distr_l, Z.land_diag. replace (Z.land 1 (2 * n)) with 0; [apply Z.lor_0_l |].
  rewrite Z.land_comm. change 1 with (Z.ones 1). rewrite Z.land_ones by lia. change (2 ^ 1) with 2.
  rewrite Z.mul_comm, Z.mod_mul; lia.
Qed.
Lemma low_bit_even n : low_bit (2 * n) = 2 * low_bit n.
Proof. unfold low_bit. rewrite <- land_twice. f_equal. lia. Qed.
Lemma low_bit_odd n : low_bit (2 * n + 1) = 1.
Proof.
  unfold low_bit. rewrite (Z.add_comm (2 * n) 1). replace (- (1 + 2 * n)) with (1 + 2 * (Z.lnot n)) by (unfold Z.lnot; lia).
  rewrite !add_low by lia. apply Z.bits_inj'. intros i Hi.
  rewrite Z.land_spec, !Z.lor_spec. destruct (Z.eq_dec i 0) as [-> | Ni]; [reflexivity |].
  replace i with (Z.succ (i - 1)) by lia. rewrite !Z.testbit_even_succ, Z.lnot_spec by lia.
  rewrite one_spec. replace (Z.succ (i - 1) =? 0) with false by lia. btauto.
Qed.
(** The lowest bit as the code isolates it. *)
Lemma low_bit_word m : fits 64 m -> Z.land m (u64 (u64 (Z.lnot m) + 1)) = low_bit m.
Proof.
  intros Fm. unfold low_bit. replace (u64 (u64 (Z.lnot m) + 1)) with (u64 (- m)).
  - apply Z.bits_inj'. intros i Hi. rewrite !Z.land_spec, u64_spec by lia.
    destruct (Z.ltb_spec i 64); [reflexivity |]. rewrite (fits_high 64 m i Fm) by lia. reflexivity.
  - unfold u64. rewrite Zplus_mod_idemp_l. f_equal. unfold Z.lnot. lia.
Qed.

Lemma clear_low_spec m : 0 < m ->
  0 <= clear_low m < m /\ popcount (clear_low m) = popcount m - 1 /\
  forall k, 0 <= k -> deposit m k = Z.lor (if Z.odd k then low_bit m else 0) (deposit (clear_low m) (k / 2)).
Proof.
  intros Hm. assert (P : 0 < m -> 0 <= clear_low m < m /\ popcount (clear_low m) = popcount m - 1 /\
    forall k, 0 <= k -> deposit m k = Z.lor (if Z.odd k then low_bit m else 0) (deposit (clear_low m) (k / 2))).
  2: { apply P, Hm. }
  pattern m. apply digits_ind; [lia | | | lia]; intros n Hn IH _.
  - destruct (IH Hn) as (B & Pc & D). rewrite clear_low_even, !popcount_even by lia. split; [lia |]. split; [lia |].
    intros k Hk. rewrite !deposit_even, D by lia. rewrite <- lor_twice, low_bit_even. destruct (Z.odd k); reflexivity.
  - rewrite clear_low_odd, popcount_odd, popcount_even by lia. split; [lia |]. split; [lia |].
    intros k Hk. rewrite deposit_odd, deposit_even, low_bit_odd by lia. destruct (halves k Hk) as (_ & B & _).
    rewrite add_low by lia. f_equal. rewrite Zmod_odd. destruct (Z.odd k); reflexivity.
Qed.

Lemma pdep_loop_spec fuel : forall m k r, fits 64 m -> 0 <= k -> popcount m <= Z.of_nat fuel ->
  pdep_loop fuel m k r = Z.lor r (deposit m k).
Proof.
  induction fuel as [| fuel IH]; intros m k r Fm Hk Hp.
  - assert (m = 0) as ->; [| cbn; symmetry; apply Z.lor_0_r]. destruct (Z.eq_dec m 0) as [E | N]; [exact E |].
    destruct Fm as [Pm _]. destruct (clear_low_spec m) as (B & Pc & _); [lia |].
    pose proof (popcount_nonneg (clear_low m)). lia.
  - cbn [pdep_loop]. destruct (Z.eqb_spec m 0) as [-> | N]; [cbn; symmetry; apply Z.lor_0_r |].
    destruct (clear_low_spec m) as (B & Pc & D); [destruct Fm; lia |].
    fold (clear_low m). rewrite low_bit_word by exact Fm. rewrite IH.
    2: { destruct Fm. split; lia. } 2: { apply Z.shiftr_nonneg, Hk. } 2: { lia. }
    rewrite (D k Hk), Z.shiftr_div_pow2 by lia. change (2 ^ 1) with 2.
    change 1 with (Z.ones 1) at 1. rewrite Z.land_ones by lia. change (2 ^ 1) with 2. rewrite Zmod_odd.
    destruct (Z.odd k); cbn [Z.eqb]; [apply eq_sym, Z.lor_assoc | rewrite Z.lor_0_l; reflexivity].
Qed.
Lemma pdep_spec k F : fits 64 F -> 0 <= k -> pdep64 k F = deposit F k.
Proof.
  intros Ff Hk. unfold pdep64. rewrite pdep_loop_spec; [apply Z.lor_0_l | exact Ff | exact Hk |].
  apply (popcount_width F 64 Ff). lia.
Qed.

(** ** Bounds of bitwise operations *)

Lemma land_ldiff a b : a = Z.land a b + Z.ldiff a b.
Proof.
  rewrite Z.add_nocarry_lxor.
  - apply Z.bits_inj'. intros i Hi. rewrite Z.lxor_spec, Z.land_spec, Z.ldiff_spec. btauto.
  - apply Z.bits_inj'. intros i Hi. rewrite !Z.land_spec, Z.ldiff_spec, Z.bits_0. btauto.
Qed.

(** A non-negative operand bounds the conjunction above, and so does any operand
    if the other is negative. *)
Lemma land_bounds a b :
  (0 <= a -> 0 <= Z.land a b <= a) /\ (0 <= b -> 0 <= Z.land a b <= b) /\
  (a < 0 -> b < 0 -> Z.land a b <= a /\ Z.land a b <= b).
Proof.
  pose proof (land_ldiff a b) as E. pose proof (land_ldiff b a) as E'. rewrite Z.land_comm in E'.
  pose proof (Z.ldiff_nonneg a b). pose proof (Z.ldiff_nonneg b a). pose proof (Z.land_nonneg a b). lia.
Qed.

(** A 64-bit pattern: the bits from 63 on are equal. *)
Lemma int64_high z : int64 z <-> Z.shiftr z 63 = 0 \/ Z.shiftr z 63 = -1.
Proof.
  rewrite Z.shiftr_div_pow2 by lia. unfold int64. pose proof (Z.div_mod z (2 ^ 63)). pose proof (Z.mod_pos_bound z (2 ^ 63)). nia.
Qed.
Lemma int64_land a b : int64 a -> int64 b -> int64 (Z.land a b).
Proof. rewrite !int64_high, Z.shiftr_land. intros [-> | ->] [-> | ->]; cbn; auto. Qed.
Lemma int64_lor a b : int64 a -> int64 b -> int64 (Z.lor a b).
Proof. rewrite !int64_high, Z.shiftr_lor. intros [-> | ->] [-> | ->]; cbn; auto. Qed.
Lemma int64_lxor a b : int64 a -> int64 b -> int64 (Z.lxor a b).
Proof. rewrite !int64_high, Z.shiftr_lxor. intros [-> | ->] [-> | ->]; cbn; auto. Qed.

(** ** The searches *)

Lemma deposit_sub m k : 0 <= m -> Z.land (deposit m k) m = deposit m k.
Proof.
  intros Hm. revert k. pattern m. apply digits_ind; [reflexivity | | | exact Hm]; intros n Hn IH k.
  - rewrite deposit_even, land_twice, IH by lia. reflexivity.
  - rewrite deposit_odd by lia. pose proof (Z.mod_pos_bound k 2 ltac:(lia)) as B.
    rewrite (Z.add_comm (2 * n) 1), !add_low by lia. rewrite Z.land_lor_distr_l, !Z.land_lor_distr_r, land_twice, IH.
    assert (E : forall a b, 0 <= a < 2 -> Z.land a (2 * b) = 0).
    { intros a b Ha. apply Z.bits_inj'. intros j Hj. rewrite Z.land_spec, Z.bits_0. destruct (Z.eq_dec j 0) as [-> | Nj].
      - rewrite Z.testbit_even_0. apply andb_false_r.
      - rewrite (fits_high 1 a j); [reflexivity | unfold fits; lia | lia]. }
    rewrite (Z.land_comm (2 * deposit n (k / 2)) 1), !E, Z.lor_0_r, Z.lor_0_l by lia. f_equal.
    assert (k mod 2 = 0 \/ k mod 2 = 1) as [-> | ->] by lia; reflexivity.
Qed.

Lemma sub_le a b : 0 <= b -> 0 <= a -> Z.land a b = a -> a <= b.
Proof. intros Hb Hz E. pose proof (land_bounds a b). lia. Qed.

Section Search.
Context (must allow : Z) (Hm : 0 <= must) (Pa : 0 <= allow) (Ha : allow < 2 ^ 63) (Sub : Z.land must allow = must).

(** Between the required and the allowed bits. *)
Definition between (y : Z) : Prop := 0 <= y /\ Z.land must y = must /\ Z.land y allow = y.
Let F : Z := Z.land allow (u64 (Z.lnot must)).
Let val (k : Z) : Z := must + deposit F k.


Lemma allow_range : 0 <= F < 2 ^ 63 /\ fits 64 F /\ fits 64 must.
Proof.
  assert (B : 0 <= F <= allow).
  { apply (land_bounds allow (u64 (Z.lnot must))), Pa. }
  pose proof (sub_le must allow Pa Hm Sub). unfold fits. lia.
Qed.
Lemma free_disjoint : Z.land must F = 0.
Proof.
  apply Z.bits_inj'. intros i Hi. unfold F. rewrite !Z.land_spec, u64_spec, Z.lnot_spec, Z.bits_0 by lia. btauto.
Qed.
Lemma val_lor k : 0 <= k -> Z.lor must (pdep64 k F) = val k.
Proof.
  intros Hk. destruct allow_range as (_ & Ff & _). rewrite pdep_spec by assumption. unfold val.
  assert (D : Z.land must (deposit F k) = 0).
  { rewrite <- (deposit_sub F k), (Z.land_comm (deposit F k)), Z.land_assoc, free_disjoint by (destruct Ff; lia). apply Z.land_0_l. }
  pose proof (Z.add_lor_land must (deposit F k)). lia.
Qed.
Lemma val_range k : 0 <= k -> must <= val k <= allow.
Proof.
  intros Hk. destruct allow_range as (BF & _ & _). pose proof (deposit_range F k ltac:(lia) Hk).
  unfold val. assert (must + F <= allow); [| lia].
  pose proof (Z.add_lor_land must F) as E. rewrite free_disjoint in E.
  assert (Z.land (Z.lor must F) allow = Z.lor must F).
  { rewrite Z.land_lor_distr_l, Sub. f_equal. unfold F. rewrite <- Z.land_assoc, (Z.land_comm _ allow), Z.land_assoc, Z.land_diag. reflexivity. }
  pose proof (sub_le (Z.lor must F) allow Pa). assert (0 <= Z.lor must F) by (apply Z.lor_nonneg; lia). lia.
Qed.
Lemma allow_whole : Z.lor must F = allow.
Proof.
  unfold F. apply Z.bits_inj'. intros i Hi. rewrite Z.lor_spec, Z.land_spec, u64_spec, Z.lnot_spec by lia.
  pose proof (f_equal (fun z => Z.testbit z i) Sub) as Bm. cbv beta in Bm. rewrite Z.land_spec in Bm.
  destruct (Z.ltb_spec i 64).
  - destruct (Z.testbit must i), (Z.testbit allow i); cbn in *; congruence.
  - rewrite (fits_high 63 allow i) in * by (try (unfold fits); lia). rewrite andb_false_r in Bm. rewrite <- Bm. reflexivity.
Qed.
Lemma val_lt k k' : 0 <= k < k' -> k' < 2 ^ popcount F -> val k < val k'.
Proof. intros Hk Hp. destruct allow_range as (BF & _). unfold val. pose proof (deposit_lt F k k'). lia. Qed.
Lemma last_rank_spec : last_rank F = 2 ^ popcount F - 1 /\ 0 <= last_rank F < 2 ^ 63.
Proof.
  destruct allow_range as (BF & _). unfold last_rank.
  pose proof (popcount_nonneg F ltac:(lia)). pose proof (popcount_width F 63 ltac:(unfold fits; lia) ltac:(lia)).
  pose proof (Z.pow_le_mono_r 2 (popcount F) 63). pose proof (Z.pow_pos_nonneg 2 (popcount F)).
  destruct (Z.eqb_spec F 0) as [E | _]; [| lia]. rewrite E. cbn. lia.
Qed.
(** Every number between has a rank. *)
Lemma between_val y : between y -> exists k, 0 <= k <= last_rank F /\ val k = y.
Proof.
  intros (Hy & Em & Ea).
  destruct allow_range as (BF & _ & Fm). destruct last_rank_spec as [-> _].
  assert (Ey : Z.lor must (Z.land y F) = y).
  { unfold F. apply Z.bits_inj'. intros i Hi. rewrite Z.lor_spec, !Z.land_spec, u64_spec, Z.lnot_spec by lia.
    pose proof (f_equal (fun z => Z.testbit z i) Em) as Bm. pose proof (f_equal (fun z => Z.testbit z i) Ea) as Ba.
    cbv beta in Bm, Ba. rewrite Z.land_spec in Bm, Ba. destruct (Z.ltb_spec i 64) as [L | G].
    - destruct (Z.testbit must i), (Z.testbit y i), (Z.testbit allow i); cbn in *; congruence.
    - assert (Z.testbit allow i = false) as A0 by (apply (fits_high 63); [unfold fits; lia | lia]).
      rewrite A0 in *. rewrite andb_false_r in Ba. rewrite <- Ba, andb_false_r in *. rewrite <- Bm. reflexivity. }
  assert (Hs : Z.land (Z.land y F) F = Z.land y F) by (rewrite <- Z.land_assoc, Z.land_diag; reflexivity).
  destruct (deposit_onto F (Z.land y F)) as (k & Hk & D); [lia | apply Z.land_nonneg; lia | exact Hs |].
  exists k. split; [lia |]. rewrite <- val_lor, pdep_spec, D by (try apply allow_range; lia). exact Ey.
Qed.

Lemma ceil_loop_spec lo fuel : forall a b K, 0 <= a <= K -> K <= b -> b <= last_rank F -> b - a < 2 ^ (Z.of_nat fuel) ->
  lo <= val K -> exists a', ceil_loop (S fuel) lo must F a b = Some a' /\ a <= a' <= K.
Proof.
  destruct last_rank_spec as [El _]. induction fuel as [| fuel IH]; intros a b K Hk Hb Hl Hf Hlo;
    cbn [ceil_loop]; cbv zeta.
  { destruct (Z.ltb_spec a b); [change (2 ^ Z.of_nat 0) with 1 in Hf; lia |]. exists a. split; [reflexivity | lia]. }
  destruct (Z.ltb_spec a b) as [Lt | Ge]; [| exists a; split; [reflexivity | lia]].
  replace (Z.of_nat (S fuel)) with (Z.succ (Z.of_nat fuel)) in Hf by lia. rewrite Z.pow_succ_r in Hf by lia.
  pose proof (Z.div_mod (b - a) 2). pose proof (Z.mod_pos_bound (b - a) 2). set (m := a + (b - a) / 2) in *.
  rewrite val_lor by lia. destruct (Z.geb_spec (val m) lo) as [G | L].
  - destruct (Z.le_gt_cases K m) as [Le | Gt].
    + destruct (IH a m K) as (a' & E & B); try lia. exists a'. split; [exact E | lia].
    + destruct (IH a m m) as (a' & E & B); try lia. exists a'. split; [exact E | lia].
  - assert (m < K). { destruct (Z.lt_ge_cases m K); [assumption |]. destruct (Z.eq_dec m K) as [-> | N]; [lia |].
      pose proof (val_lt K m). lia. }
    destruct (IH (m + 1) b K) as (a' & E & B); try lia. exists a'. split; [exact E | lia].
Qed.
Lemma floor_loop_spec hi fuel : forall a b K, 0 <= a <= K -> K <= b -> b <= last_rank F -> b - a < 2 ^ (Z.of_nat fuel) ->
  val K <= hi -> exists a', floor_loop (S fuel) hi must F a b = Some a' /\ K <= a' <= b.
Proof.
  destruct last_rank_spec as [El _]. induction fuel as [| fuel IH]; intros a b K Hk Hb Hl Hf Hlo;
    cbn [floor_loop]; cbv zeta.
  { destruct (Z.ltb_spec a b); [change (2 ^ Z.of_nat 0) with 1 in Hf; lia |]. exists a. split; [reflexivity | lia]. }
  destruct (Z.ltb_spec a b) as [Lt | Ge]; [| exists a; split; [reflexivity | lia]].
  replace (Z.of_nat (S fuel)) with (Z.succ (Z.of_nat fuel)) in Hf by lia. rewrite Z.pow_succ_r in Hf by lia.
  pose proof (Z.div_mod (b - a) 2). pose proof (Z.mod_pos_bound (b - a) 2). set (m := b - (b - a) / 2) in *.
  rewrite val_lor by lia. destruct (Z.leb_spec (val m) hi) as [G | L].
  - destruct (Z.le_gt_cases m K) as [Le | Gt].
    + destruct (IH m b K) as (a' & E & B); try lia. exists a'. split; [exact E | lia].
    + destruct (IH m b m) as (a' & E & B); try lia. exists a'. split; [exact E | lia].
  - assert (K < m). { destruct (Z.lt_ge_cases K m); [assumption |]. destruct (Z.eq_dec m K) as [-> | N]; [lia |].
      pose proof (val_lt m K). lia. }
    destruct (IH a (m - 1) K) as (a' & E & B); try lia. exists a'. split; [exact E | lia].
Qed.

Lemma val_le k k' : 0 <= k <= k' -> k' <= last_rank F -> val k <= val k'.
Proof.
  intros Hk Hl. destruct last_rank_spec as [El _]. destruct (Z.eq_dec k k') as [-> | N]; [lia |].
  pose proof (val_lt k k'). lia.
Qed.
Lemma top_value : val (last_rank F) = allow.
Proof.
  destruct last_rank_spec as [_ Bl]. destruct (between_val allow) as (k & Hk & E).
  { split; [exact Pa |]. split; [exact Sub | apply Z.land_diag]. }
  pose proof (val_le k (last_rank F)). pose proof (val_range (last_rank F)). lia.
Qed.

Lemma bottom_value : val 0 = must.
Proof.
  destruct last_rank_spec as [_ Bl]. destruct (between_val must) as (k & Hk & E).
  { split; [exact Hm |]. split; [apply Z.land_diag | exact Sub]. }
  pose proof (val_le 0 k). pose proof (val_range 0). lia.
Qed.

(** The first number between [must] and [allow] from [lo] on, and the last up to
    [hi]: no such number lies outside; -1 tells that there is none. *)
Lemma masked_ceil_spec lo : exists v, masked_ceil lo must allow = Some v /\ int64 v /\
  forall y, between y -> lo <= y -> 0 <= v <= y.
Proof.
  unfold masked_ceil. cbv zeta. fold F. destruct (Z.ltb_spec (Z.lor must F) lo) as [L | G].
  - exists (-1). split; [reflexivity |]. split; [unfold int64; lia |]. intros y By Hy. exfalso.
    destruct (between_val y By) as (k & Hk & E). rewrite allow_whole in L. pose proof (val_range k ltac:(lia)). lia.
  - destruct last_rank_spec as [El Bl].
    assert (Top : lo <= val (last_rank F)) by (rewrite top_value; rewrite allow_whole in G; exact G).
    destruct (ceil_loop_spec lo 63 0 (last_rank F) (last_rank F)) as (a & E & B); try lia.
    rewrite E. cbn [option_map]. rewrite val_lor by lia. pose proof (val_range a ltac:(lia)).
    exists (val a). rewrite s64_small by (unfold int64; lia). split; [reflexivity |]. split; [unfold int64; lia |].
    intros y By Hy. destruct (between_val y By) as (k & Hk & Ek).
    destruct (ceil_loop_spec lo 63 0 (last_rank F) k) as (a' & E' & B'); try lia.
    rewrite E in E'. injection E' as <-. split; [lia |]. rewrite <- Ek.
    pose proof (val_le a k). lia.
Qed.
Lemma masked_floor_spec hi : exists v, masked_floor hi must allow = Some v /\ int64 v /\
  forall y, between y -> y <= hi -> 0 <= v /\ y <= v.
Proof.
  unfold masked_floor. cbv zeta. fold F. destruct (Z.gtb_spec must hi) as [L | G].
  - exists (-1). split; [reflexivity |]. split; [unfold int64; lia |]. intros y By Hy. exfalso.
    destruct (between_val y By) as (k & Hk & E). pose proof (val_range k ltac:(lia)). lia.
  - destruct last_rank_spec as [El Bl].
    assert (V0 : val 0 <= hi) by (rewrite bottom_value; exact G).
    destruct (floor_loop_spec hi 63 0 (last_rank F) 0) as (a & E & B); try lia.
    rewrite E. cbn [option_map]. rewrite val_lor by lia. pose proof (val_range a ltac:(lia)).
    exists (val a). rewrite s64_small by (unfold int64; lia). split; [reflexivity |]. split; [unfold int64; lia |].
    intros y By Hy. destruct (between_val y By) as (k & Hk & Ek).
    destruct (floor_loop_spec hi 63 0 (last_rank F) k) as (a' & E' & B'); try lia.
    rewrite E in E'. injection E' as <-. split; [lia |]. rewrite <- Ek.
    pose proof (val_le k a). lia.
Qed.
End Search.

(** ** Filling up *)

(** The [n] bits from bit [h] down are set. *)
Definition run_set (t h n : Z) : Prop := forall i, 0 <= i -> h - n < i <= h -> Z.testbit t i = true.
Lemma run_step t h n k : run_set t h n -> 0 <= k <= n -> run_set (Z.lor t (Z.shiftr t k)) h (n + k).
Proof.
  intros R Hk i Hi Hn. rewrite Z.lor_spec, Z.shiftr_spec by lia.
  destruct (Z.lt_ge_cases (h - n) i); [rewrite R by lia; reflexivity |].
  rewrite (R (i + k)) by lia. apply orb_true_r.
Qed.
Lemma lor_shift_range t k : 0 <= t < 2 ^ 63 -> 0 <= k -> 0 <= Z.lor t (Z.shiftr t k) < 2 ^ 63.
Proof.
  intros Ht Hk. change (fits 63 (Z.lor t (Z.shiftr t k))). apply fits_intro; [lia |]. intros i Hi.
  rewrite Z.lor_spec, Z.shiftr_spec by lia. rewrite !(fits_high 63 t) by (try (unfold fits); lia). reflexivity.
Qed.
Lemma smear_spec t : 0 <= t < 2 ^ 63 -> 0 <= smear t < 2 ^ 63 /\ forall z, 0 <= z -> Z.log2 z <= Z.log2 t -> 0 < t \/ z = 0 -> z <= smear t.
Proof.
  intros Ht. assert (B : 0 <= smear t < 2 ^ 63).
  { unfold smear. repeat (apply lor_shift_range; [| lia]). exact Ht. }
  split; [exact B |]. intros z Hz Hl [Pt | ->]; [| lia].
  assert (R : run_set (smear t) (Z.log2 t) (1 + 1 + 2 + 4 + 8 + 16 + 32)).
  { unfold smear. repeat (apply run_step; [| lia]). intros i Hi Hn. replace i with (Z.log2 t) by lia. apply Z.bit_log2, Pt. }
  pose proof (Z.log2_nonneg t). pose proof (Z.log2_lt_pow2 t 63 Pt).
  assert (E : Z.land (Z.ones (Z.log2 t + 1)) (smear t) = Z.ones (Z.log2 t + 1)).
  { apply Z.bits_inj'. intros i Hi. rewrite Z.land_spec, ones_spec by lia.
    destruct (Z.leb_spec 0 i), (Z.ltb_spec i (Z.log2 t + 1)); cbn [andb]; try reflexivity. rewrite (R i) by lia. reflexivity. }
  assert (On : 0 <= Z.ones (Z.log2 t + 1)) by (rewrite Z.ones_equiv; pose proof (Z.pow_pos_nonneg 2 (Z.log2 t + 1)); lia). pose proof (sub_le (Z.ones (Z.log2 t + 1)) (smear t) (proj1 B) On E) as Le.
  rewrite Z.ones_equiv in Le.
  destruct (Z.eq_dec z 0) as [-> | Nz]; [lia |]. pose proof (Z.log2_spec z ltac:(lia)) as Lz.
  pose proof (Z.pow_le_mono_r 2 (Z.succ (Z.log2 z)) (Z.log2 t + 1)). lia.
Qed.
(** The words of two ranges stay below the filled-up union of their ends. *)
Lemma smear_bound a b ah bh : 0 <= a <= ah -> 0 <= b <= bh -> ah < 2 ^ 63 -> bh < 2 ^ 63 ->
  0 <= Z.lor ah bh < 2 ^ 63 /\ Z.lor a b <= smear (Z.lor ah bh) /\ 0 <= Z.lxor a b <= smear (Z.lor ah bh) /\
  0 <= smear (Z.lor ah bh) < 2 ^ 63.
Proof.
  intros Ha Hb La Lb. assert (U : 0 <= Z.lor ah bh < 2 ^ 63).
  { pose proof (int64_lor ah bh) as I. pose proof (Z.lor_nonneg ah bh). unfold int64 in I. lia. }
  destruct (smear_spec _ U) as [B M]. split; [exact U |].
  assert (Z0 : 0 < Z.lor ah bh \/ a = 0 /\ b = 0).
  { destruct (Z.eq_dec (Z.lor ah bh) 0) as [E | N]; [| lia]. apply Z.lor_eq_0_iff in E. lia. }
  pose proof (Z.log2_le_mono a ah). pose proof (Z.log2_le_mono b bh). pose proof (Z.log2_lor ah bh).
  pose proof (Z.log2_lor a b). pose proof (Z.log2_lxor a b).
  pose proof (Z.lor_nonneg a b). pose proof (Z.lxor_nonneg a b).
  split; [apply M; [lia | lia |] | split; [split; [lia | apply M; [lia | lia |]] | exact B]].
  all: destruct Z0 as [? | [-> ->]]; [left; lia | right; reflexivity].
Qed.
End Masks.
