(* ===== verification/Aigsim.v ===== *)
(** * Aigsim: bit-parallel simulation of the assertions
    (src/src/c/dvs_aigsim.c)

    The cone of the assertions is renumbered densely and evaluated on eight
    words, so on 512 assignments of its inputs, at a time.  A sweep over all
    assignments decides the assertions; passes over random ones look for a model.
    The file shows that the dense form computes the graph's values, that the
    sweep answers SAT exactly if some assignment of the graph's inputs satisfies
    every assertion, with the lowest one for seed 0, and that the valuation
    returned after SAT is the graph's under an assignment that satisfies them.

    Ids and slots are below 2^30, which [aigsim_new] checks, so their arithmetic
    is on [Z]; words are 64 bits.  [granted] says whether a request of so many
    bytes is served. *)

From Stdlib Require Import ZArith Lia ZifyBool Bool.
From stdpp Require Import base list numbers relations.
From S2P Require Import Prelude NumTh Aig Components Masks Rand.
Import Components(get, put, get_put, length_put).
Open Scope Z_scope.
Local Open Scope word_scope.

Module Aigsim.

Inductive answer := UNDECIDED | SAT | UNSAT.

Definition W : Z := 8.
Definition LANES : Z := W * 64.
Definition IN_PASS : Z := 9.
Definition ONES : Z := 2 ^ 64 - 1.
Definition LANE_PAT : list Z :=
  [0xAAAAAAAAAAAAAAAA; 0xCCCCCCCCCCCCCCCC; 0xF0F0F0F0F0F0F0F0;
   0xFF00FF00FF00FF00; 0xFFFF0000FFFF0000; 0xFFFFFFFF00000000].

(** [struct dvs_aigsim_s] *)
Record aigsim := mk_sim {
  nodes_n : Z;
  lefts : list Z;
  rights : list Z;
  inputs : list Z;
  n_inputs : Z;
  gate_id : list Z;
  ga : list Z;
  gb : list Z;
  n_gates : Z;
  asl : list Z;
  asserts : list Z;
  val : list Z;
  hit_lane : Z;
  has_hit : bool;
  hit_exh : bool;
  hit_index : Z;
  vectors : Z }.

Definition n_asserts (s : aigsim) : Z := Z.of_nat (length (asserts s)).

Definition set_val (s : aigsim) (v : list Z) : aigsim :=
  mk_sim (nodes_n s) (lefts s) (rights s) (inputs s) (n_inputs s) (gate_id s) (ga s) (gb s) (n_gates s) (asl s) (asserts s)
    v (hit_lane s) (has_hit s) (hit_exh s) (hit_index s) (vectors s).
Definition set_hit (s : aigsim) (lane : Z) (has exh : bool) (index : Z) : aigsim :=
  mk_sim (nodes_n s) (lefts s) (rights s) (inputs s) (n_inputs s) (gate_id s) (ga s) (gb s) (n_gates s) (asl s) (asserts s)
    (val s) lane has exh index (vectors s).
Definition add_vectors (s : aigsim) (n : Z) : aigsim :=
  mk_sim (nodes_n s) (lefts s) (rights s) (inputs s) (n_inputs s) (gate_id s) (ga s) (gb s) (n_gates s) (asl s) (asserts s)
    (val s) (hit_lane s) (has_hit s) (hit_exh s) (hit_index s) (u64 (vectors s + n)).

(** ** Building the simulator *)

(** Every AND's children, by id. *)
Definition fill_children (m : Aig.aig) (n : Z) : list Z * list Z :=
  fold_left (fun '(l, r) id =>
      if Aig.is_and_id m id then let '(a, b) := Aig.children_of m id in (put l id a, put r id b) else (l, r))
    (seqZ 2 (n - 1)) (replicate (Z.to_nat (n + 1)) 0, replicate (Z.to_nat (n + 1)) 0).

(** [if (j > 1 && !slot\[j\]) { slot\[j\] = 1; stack\[sp++\] = j; }] *)
Definition push_mark (slot stack : list Z) (l : Z) : list Z * list Z :=
  let j := Z.abs l in
  if (j >? 1) && (get slot j =? 0) then (put slot j 1, j :: stack) else (slot, stack).

Fixpoint seed_cone (n : Z) (asserts slot stack : list Z) : option (list Z * list Z) :=
  match asserts with
  | [] => Some (slot, stack)
  | a :: rest =>
      if Z.abs a >? n then None else
      let '(slot, stack) := push_mark slot stack a in seed_cone n rest slot stack
  end.

(** [while (sp) ...]: the marks and the numbers of inputs and gates. *)
Fixpoint mark_cone (fuel : nat) (l r slot stack : list Z) (ni ng : Z) : option (list Z * Z * Z) :=
  match stack with
  | [] => Some (slot, ni, ng)
  | id :: stack =>
      match fuel with
      | O => None
      | S fuel =>
          if get l id =? 0 then mark_cone fuel l r slot stack (ni + 1) ng else
          let '(slot, stack) := push_mark slot stack (get l id) in
          let '(slot, stack) := push_mark slot stack (get r id) in
          mark_cone fuel l r slot stack ni (ng + 1)
      end
  end.

(** One turn of a numbering loop: [base] is the slot of the first id. *)
Definition number (base : Z) (take : Z -> bool) (st : list Z * list Z) (id : Z) : list Z * list Z :=
  let '(slot, ids) := st in
  if negb (get slot id =? 0) && take id then (put slot id (base + Z.of_nat (length ids)), ids ++ [id]) else (slot, ids).

Definition pack (slot : list Z) (l : Z) : Z :=
  Z.lor (Z.shiftl (get slot (Z.abs l)) 1) (if l <? 0 then 1 else 0).

Section New.
Context (granted : Z -> bool).

Definition aigsim_new (m : Aig.aig) (asserts : list Z) : option aigsim :=
  let n := Aig.nodes_size m in
  let na := Z.of_nat (length asserts) in
  if (n =? 0) || (n >? 0x3FFFFFF0) then None else
  if negb (granted 136) then None else
  if negb (granted ((na + 1) * 4) && granted ((n + 1) * 4)) then None else
  let '(l, r) := fill_children m n in
  match seed_cone n asserts (replicate (Z.to_nat (n + 1)) 0) [] with
  | None => None
  | Some (slot, stack) =>
  match mark_cone (Z.to_nat n) l r slot stack 0 0 with
  | None => None
  | Some (slot, ni, ng) =>
      if negb (granted ((ni + 1) * 4) && granted ((ng + 1) * 4) && granted ((ni + ng + 1) * W * 8)) then None else
      let '(slot, ins) := fold_left (number 1 (fun id => get l id =? 0)) (seqZ 2 (n - 1)) (slot, []) in
      let '(slot, gs) := fold_left (number (1 + ni) (fun id => negb (get l id =? 0))) (seqZ 2 (n - 1)) (slot, []) in
      let slot := put slot 1 0 in
      Some (mk_sim n l r ins ni gs (map (fun id => pack slot (get l id)) gs) (map (fun id => pack slot (get r id)) gs) ng
              (map (pack slot) asserts) asserts
              (replicate (Z.to_nat W) ONES ++ replicate (Z.to_nat ((ni + ng) * W)) 0) 0 false false 0 0)
  end
  end.
End New.

Definition exhaustive_work (s : aigsim) : Z :=
  if n_inputs s >? 32 then 2 ^ 64 - 1 else
  (if n_inputs s >? 6 then 2 ^ (n_inputs s - 6) else 1) *w (n_gates s + n_asserts s).

(** ** A pass *)

(** [pa\[w\] ^ ma] *)
Definition operand (v : list Z) (a w : Z) : Z := get v (Z.shiftr a 1 * W + w) ^w (0 -w (a &w 1)).

Definition run_gate (s : aigsim) (v : list Z) (k : Z) : list Z :=
  fold_left (fun v w => put v ((1 + n_inputs s + k) * W + w) (operand v (get (ga s) k) w &w operand v (get (gb s) k) w))
    (seqZ 0 W) v.

Definition and_assert (v out : list Z) (a : Z) : list Z := map (fun w => get out w &w operand v a w) (seqZ 0 W).

(** [_pass]: the lanes where every assertion holds, and the simulator. *)
Definition run_pass (s : aigsim) : list Z * aigsim :=
  let v := fold_left (run_gate s) (seqZ 0 (n_gates s)) (val s) in
  (fold_left (and_assert v) (asl s) (replicate (Z.to_nat W) ONES), set_val s v).
Definition any (out : list Z) : bool := negb (fold_left Z.lor out 0 =? 0).

(** [_record_hit] *)
Definition record_hit (s : aigsim) (ok : list Z) : aigsim :=
  match List.find (fun w => negb (get ok w =? 0)) (seqZ 0 W) with
  | Some w => set_hit s (w * 64 + NumTh.ctz (get ok w)) true (hit_exh s) (hit_index s)
  | None => s
  end.

(** The eight words of slot [k]. *)
Definition set_words (v : list Z) (k : Z) (f : Z -> Z) : list Z :=
  fold_left (fun v w => put v (k * W + w) (f w)) (seqZ 0 W) v.

(** ** The sweep *)

Definition lane_word (k w : Z) : Z :=
  if k <? 6 then get LANE_PAT k else if Z.testbit w (k - 6) then ONES else 0.
Definition lane_inputs (n : Z) (v : list Z) : list Z :=
  fold_left (fun v k => set_words v (1 + k) (lane_word k)) (seqZ 0 (Z.min n IN_PASS)) v.
Definition pass_inputs (n b : Z) (v : list Z) : list Z :=
  fold_left (fun v k => set_words v (1 + k) (fun _ => if Z.testbit b (k - IN_PASS) then ONES else 0))
    (seqZ IN_PASS (n - IN_PASS)) v.

Definition live_lanes (n : Z) : Z := if n >=? IN_PASS then LANES else 2 ^ n.
Definition lane_mask (live w : Z) : Z :=
  let lo := w * 64 in
  if live >=? lo + 64 then ONES else if live >? lo then 2 ^ (live - lo) - 1 else 0.

(** [while (r--) x &= x - 1;] *)
Fixpoint drop_bits (r : nat) (x : Z) : Z :=
  match r with O => x | S r => drop_bits r (x &w (x - 1)) end.
(** The [r]-th hit lane. *)
Fixpoint kth_hit (ws : list Z) (ok : list Z) (r : Z) : option Z :=
  match ws with
  | [] => None
  | w :: ws =>
      let x := get ok w in
      let k := Masks.popcount x in
      if r >=? k then kth_hit ws ok (r - k) else Some (w * 64 + NumTh.ctz (drop_bits (Z.to_nat r) x))
  end.

(** [_rng] *)
Definition rng (st : Z) : Z * Z := let x := st +w 0x9E3779B97F4A7C15 in (Rand.finalize x, x).

(** The passes from [b] on; [stop b] is what [*stop] reads before pass [b]. *)
Fixpoint sweep (passes : nat) (stop : Z -> bool) (seed b st seen : Z) (s : aigsim) : answer * aigsim :=
  match passes with
  | O => (if seen =? 0 then UNSAT else SAT, s)
  | S passes =>
      if stop b then (UNDECIDED, s) else
      let '(out, s) := run_pass (set_val s (pass_inputs (n_inputs s) b (val s))) in
      let live := live_lanes (n_inputs s) in
      let s := add_vectors s live in
      if negb (any out) then sweep passes stop seed (b + 1) st seen s else
      let ok := map (fun w => get out w &w lane_mask live w) (seqZ 0 W) in
      if negb (any ok) then sweep passes stop seed (b + 1) st seen s else
      if seed =? 0 then
        let s := record_hit s ok in
        (SAT, set_hit s (hit_lane s) (has_hit s) true (hit_lane s |w (b <<w IN_PASS)))
      else
        let c := fold_left (fun c w => c + Masks.popcount (get ok w)) (seqZ 0 W) 0 in
        let seen := u64 (seen + c) in
        let '(r, st) := rng st in
        let r := r mod seen in
        if r >=? c then sweep passes stop seed (b + 1) st seen s else
        let s := match kth_hit (seqZ 0 W) ok r with
                 | Some lane => set_hit s (hit_lane s) true true (lane |w (b <<w IN_PASS))
                 | None => s
                 end in
        sweep passes stop seed (b + 1) st seen s
  end.

Definition n_passes (n : Z) : Z := if n >? IN_PASS then 2 ^ (n - IN_PASS) else 1.

Definition exhaustive (s : aigsim) (stop : Z -> bool) (seed : Z) : answer * aigsim :=
  if n_inputs s >? 32 then (UNDECIDED, s) else
  sweep (Z.to_nat (n_passes (n_inputs s))) stop seed 0 seed 0 (set_val s (lane_inputs (n_inputs s) (val s))).

(** ** Random passes *)

Definition random_word (k : Z) (vst : list Z * Z) (w : Z) : list Z * Z :=
  let '(v, st) := vst in let '(x, st) := rng st in (put v ((1 + k) * W + w) x, st).
Definition random_inputs (n : Z) (v : list Z) (st : Z) : list Z * Z :=
  fold_left (fun vst k => fold_left (random_word k) (seqZ 0 W) vst) (seqZ 0 n) (v, st).

Fixpoint random_passes (passes : nat) (st : Z) (s : aigsim) : answer * aigsim :=
  match passes with
  | O => (UNDECIDED, s)
  | S passes =>
      let '(v, st) := random_inputs (n_inputs s) (val s) st in
      let '(out, s) := run_pass (set_val s v) in
      let s := add_vectors s LANES in
      if any out then (SAT, record_hit s out) else random_passes passes st s
  end.

Definition random (s : aigsim) (blocks seed : Z) : answer * aigsim :=
  random_passes (Z.to_nat (u32 (blocks + W - 1) / W)) (seed ^w 0x5DEECE66D) s.

(** ** The valuation found *)

(** [_bit] *)
Definition bit (nv : list Z) (l : Z) : Z :=
  let i := Z.abs l in if l <? 0 then (if get nv i =? 0 then 1 else 0) else get nv i.

Definition input_bit (s : aigsim) (k : Z) : Z :=
  if hit_exh s then Z.shiftr (hit_index s) k &w 1
  else Z.shiftr (get (val s) ((1 + k) * W + hit_lane s / 64)) (hit_lane s mod 64) &w 1.

Definition aigsim_model (granted : Z -> bool) (s : aigsim) : option (list Z) :=
  if negb (has_hit s) then None else
  if negb (granted (nodes_n s + 1)) then None else
  let nv := replicate (Z.to_nat (nodes_n s + 1)) 0 in
  let nv := if nodes_n s >=? 1 then put nv 1 1 else nv in
  let nv := fold_left (fun nv k => put nv (get (inputs s) k) (input_bit s k)) (seqZ 0 (n_inputs s)) nv in
  let nv := fold_left (fun nv id =>
      if get (lefts s) id =? 0 then nv else put nv id (bit nv (get (lefts s) id) &w bit nv (get (rights s) id)))
    (seqZ 2 (nodes_n s - 1)) nv in
  if forallb (fun a => negb (bit nv a =? 0)) (asserts s) then Some nv else None.

(** Inputs 2, 3 and the gate 4 = 2 and not 3; the assertions 4, and 4 with 3. *)
Definition demo_aig : Aig.aig := snd (Aig.mk_and Aig.two_inputs 2 (-3)).
Definition demo_sim (l : list Z) : option aigsim := aigsim_new (fun _ => true) demo_aig l.
Definition demo_run (l : list Z) (seed : Z) : option (answer * Z * option (list Z)) :=
  match demo_sim l with
  | Some s => let '(a, s) := exhaustive s (fun _ => false) seed in Some (a, hit_index s, aigsim_model (fun _ => true) s)
  | None => None
  end.
Example demo_sat : demo_run [4] 0 = Some (SAT, 1, Some [0; 1; 1; 0; 1]).
Proof. vm_compute. reflexivity. Qed.
Example demo_sampled : demo_run [-4] 5 = Some (SAT, 3, Some [0; 1; 1; 1; 0]).
Proof. vm_compute. reflexivity. Qed.
Example demo_unsat : demo_run [4; 3] 0 = Some (UNSAT, 0, None).
Proof. vm_compute. reflexivity. Qed.

(** ** Tables *)

Lemma seqZ_last n : 0 <= n -> seqZ 0 (n + 1) = seqZ 0 n ++ [n].
Proof. intros H. rewrite seqZ_app by lia. reflexivity. Qed.

(** A property of the states of a loop, by its counter. *)
Lemma fold_seqZ_from {A} (P : Z -> A -> Prop) (f : A -> Z -> A) (x : A) a n :
  0 <= n -> P a x -> (forall k y, a <= k < a + n -> P k y -> P (k + 1) (f y k)) -> P (a + n) (fold_left f (seqZ a n) x).
Proof.
  intros Hn. revert a x. pattern n. apply natlike_ind; [| | exact Hn].
  - intros a x H0 _. rewrite Z.add_0_r. exact H0.
  - intros k Hk IH a x H0 HS. rewrite seqZ_cons by lia. cbn [fold_left]. replace (Z.pred (Z.succ k)) with k by lia.
    replace (a + Z.succ k) with (Z.succ a + k) by lia. apply IH; [apply HS; [lia | exact H0] |].
    intros i y Hi. apply HS. lia.
Qed.
Lemma fold_seqZ {A} (P : Z -> A -> Prop) (f : A -> Z -> A) (x : A) n :
  0 <= n -> P 0 x -> (forall k y, 0 <= k < n -> P k y -> P (k + 1) (f y k)) -> P n (fold_left f (seqZ 0 n) x).
Proof. intros Hn. apply (fold_seqZ_from P f x 0 n Hn). Qed.

Lemma find_seqZ f a n : 0 <= n ->
  match List.find f (seqZ a n) with
  | Some w => a <= w < a + n /\ f w = true /\ forall x, a <= x < w -> f x = false
  | None => forall x, a <= x < a + n -> f x = false
  end.
Proof.
  intros Hn. revert a. pattern n. apply natlike_ind; [intros a x Hx; lia | | exact Hn]. intros k Hk IH a. rewrite seqZ_cons by lia.
  cbn [List.find]. replace (Z.pred (Z.succ k)) with k by lia. destruct (f a) eqn:E; [split; [lia |]; split; [exact E | intros x Hx; lia] |].
  specialize (IH (Z.succ a)). destruct (List.find _ _).
  - destruct IH as (R & F & L). repeat split; [lia | lia | exact F |]. intros x Hx. destruct (Z.eq_dec x a) as [-> |]; [exact E | apply L; lia].
  - intros x Hx. destruct (Z.eq_dec x a) as [-> |]; [exact E | apply IH; lia].
Qed.

(** The words of slot [c] written one by one, each from the words before it. *)
Lemma words_written (f : list Z -> Z -> Z) c v n :
  0 <= c -> 0 <= n <= W -> c * W + n <= Z.of_nat (length v) ->
  (forall v v' w, 0 <= w < W -> (forall i, 0 <= i < c * W -> get v i = get v' i) -> f v w = f v' w) ->
  let v' := fold_left (fun v w => put v (c * W + w) (f v w)) (seqZ 0 n) v in
  length v' = length v /\
  forall i, 0 <= i -> get v' i = if (c * W <=? i) && (i <? c * W + n) then f v (i - c * W) else get v i.
Proof.
  intros Hc Hn HL Hf. apply (fold_seqZ (fun n v' => length v' = length v /\ forall i, 0 <= i ->
    get v' i = if (c * W <=? i) && (i <? c * W + n) then f v (i - c * W) else get v i)); [lia | |].
  - split; [reflexivity |]. intros i Hi. destruct (_ && _) eqn:E; [lia | reflexivity].
  - intros k y Hk [Ly Gy]. split; [rewrite length_put; exact Ly |]. intros i Hi. unfold W in *.
    rewrite get_put by lia. destruct (Z.eqb_spec i (c * 8 + k)) as [-> | Ne].
    + replace ((c * 8 <=? c * 8 + k) && (c * 8 + k <? c * 8 + (k + 1))) with true by lia.
      replace (c * 8 + k - c * 8) with k by lia. apply Hf; [lia |]. intros i' Hi'. rewrite Gy by lia.
      replace ((c * 8 <=? i') && (i' <? c * 8 + k)) with false by lia. reflexivity.
    + rewrite Gy by lia. replace ((c * 8 <=? i) && (i <? c * 8 + (k + 1))) with ((c * 8 <=? i) && (i <? c * 8 + k)) by lia.
      reflexivity.
Qed.

(** ** The dense form *)

(** The node a slot stands for. *)
Definition slot_id (s : aigsim) (k : Z) : Z :=
  if k =? 0 then 1 else if k <=? n_inputs s then get (inputs s) (k - 1) else get (gate_id s) (k - 1 - n_inputs s).
Definition packs (s : aigsim) (bound a l : Z) : Prop :=
  l <> 0 /\ exists k, 0 <= k < bound /\ slot_id s k = Z.abs l /\ a = 2 * k + (if l <? 0 then 1 else 0).

(** The part of the simulator that the runs leave alone. *)
Record built (m : Aig.aig) (l : list Z) (s : aigsim) : Prop := {
  bt_aig : Aig.inv m;
  bt_n : nodes_n s = Aig.nodes_size m;
  bt_ni : n_inputs s = Z.of_nat (length (inputs s));
  bt_ng : n_gates s = Z.of_nat (length (gate_id s));
  bt_children : forall id, 2 <= id <= nodes_n s ->
    (get (lefts s) id, get (rights s) id) = if Aig.is_and_id m id then Aig.children_of m id else (0, 0);
  bt_inputs : forall id, id ∈ inputs s -> 2 <= id <= nodes_n s /\ Aig.is_and_id m id = false;
  bt_distinct : NoDup (inputs s);
  bt_gates : forall k, 0 <= k < n_gates s ->
    let g := get (gate_id s) k in
    2 <= g <= nodes_n s /\ Aig.is_and_id m g = true /\
    packs s (1 + n_inputs s + k) (get (ga s) k) (fst (Aig.children_of m g)) /\
    packs s (1 + n_inputs s + k) (get (gb s) k) (snd (Aig.children_of m g));
  bt_asserts : asserts s = l;
  bt_valid : Forall (Aig.valid m) l;
  bt_asl : Forall2 (packs s (1 + n_inputs s + n_gates s)) (asl s) l }.

Definition slots (s : aigsim) : Z := 1 + n_inputs s + n_gates s.
Record words_ok (s : aigsim) (v : list Z) : Prop := {
  wo_length : Z.of_nat (length v) = slots s * W;
  wo_true : forall w, 0 <= w < W -> get v w = ONES }.

(** The inputs of the cone with the values [f], the other inputs false. *)
Definition env_of (s : aigsim) (f : Z -> bool) (id : Z) : bool :=
  existsb (fun k => (get (inputs s) k =? id) && f k) (seqZ 0 (n_inputs s)).
Definition holds (m : Aig.aig) (l : list Z) (env : Z -> bool) : bool := forallb (Aig.eval m env) l.
Definition lane_env (s : aigsim) (v : list Z) (w j : Z) : Z -> bool :=
  env_of s (fun k => Z.testbit (get v ((1 + k) * W + w)) j).

Lemma get_elem (l : list Z) k : 0 <= k < Z.of_nat (length l) -> l !! Z.to_nat k = Some (get l k).
Proof.
  intros H. unfold get. destruct (l !! Z.to_nat k) eqn:E; [reflexivity |]. apply lookup_ge_None in E. lia.
Qed.

Lemma eval_lit m env l : l <> 0 -> Aig.eval m env l = xorb (l <? 0) (Aig.eval m env (Z.abs l)).
Proof.
  intros H. destruct (Z.ltb_spec l 0).
  - replace l with (- Z.abs l) at 1 by lia. rewrite Aig.eval_opp by lia. reflexivity.
  - rewrite Z.abs_eq by lia. symmetry. apply xorb_false_l.
Qed.

Lemma eval_input m env id : Aig.inv m -> 2 <= id <= Aig.nodes_size m -> Aig.is_and_id m id = false -> Aig.eval m env id = env id.
Proof.
  intros I H E. unfold Aig.is_and_id, Aig.TRUE, Aig.FALSE in E. rewrite Z.abs_eq in E by lia.
  replace ((id =? 0) || (id =? 1) || (id =? -1)) with false in E by lia. replace (id >? Aig.nodes_size m) with false in E by lia.
  apply negb_false_iff, Z.eqb_eq in E. pose proof (Aig.gates_node_at m id ltac:(lia)) as G.
  unfold Aig.eval, Aig.lit. replace (id <? 0) with false by lia. rewrite Z.abs_eq by lia.
  rewrite (Aig.values_lookup env _ _ _ G). unfold Aig.node_val, Aig.gate. cbn [fst]. rewrite E. cbn [Z.eqb].
  assert (L : length (Aig.values env (take (Z.to_nat (id - 1)) (Aig.gates m))) = Z.to_nat (id - 1)).
  { rewrite Aig.values_length, length_take. apply lookup_lt_Some in G. lia. }
  rewrite L. destruct (Nat.eqb_spec (Z.to_nat (id - 1)) 0); [lia |]. f_equal. lia.
Qed.

Lemma packs_eval m s bound a x : packs s bound a x -> exists k, 0 <= k < bound /\ a = 2 * k + (if x <? 0 then 1 else 0) /\
  forall env, Aig.eval m env x = xorb (x <? 0) (Aig.eval m env (slot_id s k)).
Proof.
  intros (Nx & k & Hk & E & Ea). exists k. split; [exact Hk |]. split; [exact Ea |].
  intros env. rewrite E. apply eval_lit, Nx.
Qed.

Section Built.
Context (m : Aig.aig) (l : list Z) (s : aigsim) (B : built m l s).

Lemma env_of_input f k : 0 <= k < n_inputs s -> env_of s f (get (inputs s) k) = f k.
Proof.
  intros H. unfold env_of. apply eq_true_iff_eq. rewrite existsb_exists. split.
  - intros (i & Hi & E). apply list_elem_of_In, elem_of_seqZ in Hi. apply andb_true_iff in E as [E F]. apply Z.eqb_eq in E.
    rewrite (bt_ni _ _ _ B) in H, Hi. pose proof (get_elem (inputs s) i ltac:(lia)) as Ei. pose proof (get_elem (inputs s) k H) as Ek.
    rewrite E in Ei. apply (NoDup_lookup _ _ _ _ (bt_distinct _ _ _ B) Ei) in Ek. replace k with i by lia. exact F.
  - intros F. exists k. split; [apply list_elem_of_In, elem_of_seqZ; lia |]. rewrite Z.eqb_refl, F. reflexivity.
Qed.

Lemma slot_input k env : 0 <= k < n_inputs s -> Aig.eval m env (slot_id s (1 + k)) = env (get (inputs s) k).
Proof.
  intros H. unfold slot_id. replace (1 + k =? 0) with false by lia. replace (1 + k <=? n_inputs s) with true by lia.
  replace (1 + k - 1) with k by lia. pose proof (bt_ni _ _ _ B).
  destruct (bt_inputs _ _ _ B (get (inputs s) k)) as [R A]; [apply list_elem_of_lookup_2 with (Z.to_nat k), get_elem; lia |].
  rewrite (bt_n _ _ _ B) in R. apply eval_input; [apply B | exact R | exact A].
Qed.

Lemma slot_gate k env : 0 <= k < n_gates s ->
  slot_id s (1 + n_inputs s + k) = get (gate_id s) k /\
  Aig.eval m env (get (gate_id s) k) =
    Aig.eval m env (fst (Aig.children_of m (get (gate_id s) k))) && Aig.eval m env (snd (Aig.children_of m (get (gate_id s) k))).
Proof.
  intros H. pose proof (bt_ni _ _ _ B). split.
  - unfold slot_id. replace (1 + n_inputs s + k =? 0) with false by lia.
    replace (1 + n_inputs s + k <=? n_inputs s) with false by lia. f_equal. lia.
  - destruct (bt_gates _ _ _ B k H) as (R & A & _). destruct (Aig.children_of m (get (gate_id s) k)) as [a b] eqn:C.
    destruct (Aig.children_spec m _ a b (bt_aig _ _ _ B) A C) as (_ & _ & _ & E). rewrite E.
    replace (get (gate_id s) k <? 0) with false by lia. apply xorb_false_l.
Qed.

(** What an assignment makes of the slots depends on the inputs of the cone. *)
Lemma slots_agree env env' : (forall k, 0 <= k < n_inputs s -> env (get (inputs s) k) = env' (get (inputs s) k)) ->
  forall c, 0 <= c < slots s -> Aig.eval m env (slot_id s c) = Aig.eval m env' (slot_id s c).
Proof.
  intros E c Hc. pose proof (bt_ni _ _ _ B). assert (P : 0 <= c) by lia. revert Hc. pattern c. apply Z_lt_induction; [| exact P].
  clear c P. intros c IH Hc. unfold slots in *. destruct (Z.eq_dec c 0) as [-> | N0].
  - change (slot_id s 0) with Aig.TRUE. rewrite !Aig.eval_true by apply B. reflexivity.
  - destruct (Z_le_gt_dec c (n_inputs s)).
    + replace c with (1 + (c - 1)) by lia. rewrite !slot_input by lia. apply E. lia.
    + replace c with (1 + n_inputs s + (c - 1 - n_inputs s)) in * by lia. set (k := c - 1 - n_inputs s) in *.
      assert (Hk : 0 <= k < n_gates s) by lia. destruct (slot_gate k env Hk) as [S Ev]. destruct (slot_gate k env' Hk) as [_ Ev'].
      destruct (bt_gates _ _ _ B k Hk) as (_ & _ & Pa & Pb).
      destruct (packs_eval m _ _ _ _ Pa) as (ka & Ka & _ & Ea). destruct (packs_eval m _ _ _ _ Pb) as (kb & Kb & _ & Eb).
      rewrite S, Ev, Ev', !Ea, !Eb, (IH ka), (IH kb) by lia. reflexivity.
Qed.

Lemma cone_holds_agree env env' : (forall k, 0 <= k < n_inputs s -> env (get (inputs s) k) = env' (get (inputs s) k)) ->
  holds m l env = holds m l env'.
Proof.
  intros E. unfold holds. pose proof (slots_agree env env' E) as S. pose proof (bt_asl _ _ _ B) as F. clear B. induction F as [| a x al xl P F IH]; [reflexivity |].
  destruct (packs_eval m _ _ _ _ P) as (k & Hk & _ & Ek). cbn [forallb]. rewrite !Ek, (S k), IH by exact Hk.
  reflexivity.
Qed.

(** ** What a pass computes *)

Lemma operand_bit v k n w j : 0 <= k -> n = 0 \/ n = 1 -> 0 <= j < 64 ->
  Z.testbit (operand v (2 * k + n) w) j = xorb (n =? 1) (Z.testbit (get v (k * W + w)) j).
Proof.
  intros Hk Hn Hj. unfold operand. rewrite Z.lxor_spec, xorb_comm. f_equal.
  - change 1 with (Z.ones 1) at 1. rewrite Z.land_ones by lia. change (2 ^ 1) with 2.
    replace ((2 * k + n) mod 2) with n by (rewrite (Z.mul_comm 2 k), Z.add_comm, Z.mod_add, Z.mod_small; lia).
    destruct Hn as [-> | ->]; [apply Z.testbit_0_l |]. change (u64 (0 - 1)) with (Z.ones 64). rewrite ones_spec by lia. lia.
  - rewrite Z.shiftr_div_pow2 by lia. change (2 ^ 1) with 2.
    replace ((2 * k + n) / 2) with k by (rewrite (Z.mul_comm 2 k), Z.add_comm, Z.div_add, Z.div_small; lia). reflexivity.
Qed.

Lemma packed_bit bound a x v w j env : packs s bound a x -> 0 <= w < W -> 0 <= j < 64 ->
  (forall c, 0 <= c < bound -> Z.testbit (get v (c * W + w)) j = Aig.eval m env (slot_id s c)) ->
  Z.testbit (operand v a w) j = Aig.eval m env x.
Proof.
  intros P Hw Hj E. destruct (packs_eval m s bound a x P) as (k & Hk & Ea & Ex). rewrite Ea, operand_bit, Ex, (E k Hk) by
    (try lia; destruct (x <? 0); auto). destruct (x <? 0); reflexivity.
Qed.

Lemma ONES_bit j : 0 <= j < 64 -> Z.testbit ONES j = true.
Proof. intros H. change ONES with (Z.ones 64). rewrite ones_spec by lia. lia. Qed.

Lemma operand_frame v v' bound a x w : packs s bound a x -> 0 <= w < W ->
  (forall i, 0 <= i < bound * W -> get v i = get v' i) -> operand v a w = operand v' a w.
Proof.
  intros (_ & k & Hk & _ & ->) Hw E. unfold operand, W in *. rewrite Z.shiftr_div_pow2 by lia. change (2 ^ 1) with 2.
  replace ((2 * k + (if x <? 0 then 1 else 0)) / 2) with k; [rewrite E by lia; reflexivity |].
  rewrite (Z.mul_comm 2 k), Z.add_comm, Z.div_add, Z.div_small by (destruct (x <? 0); lia). reflexivity.
Qed.

(** After the first [n] gates, every lane of a slot up to there is the graph's
    value under the lane's assignment. *)
Definition lanes_ok (v v' : list Z) (n : Z) : Prop :=
  Z.of_nat (length v') = slots s * W /\ (forall i, 0 <= i < (1 + n_inputs s) * W -> get v' i = get v i) /\
  forall c w j, 0 <= c < 1 + n_inputs s + n -> 0 <= w < W -> 0 <= j < 64 ->
    Z.testbit (get v' (c * W + w)) j = Aig.eval m (lane_env s v w j) (slot_id s c).

Lemma lanes_inputs v : words_ok s v -> lanes_ok v v 0.
Proof.
  intros [HL HT]. split; [exact HL |]. split; [reflexivity |]. intros c w j Hc Hw Hj. destruct (Z.eq_dec c 0) as [-> | N0].
  - change (slot_id s 0) with Aig.TRUE. rewrite Aig.eval_true by apply B. rewrite Z.mul_0_l, Z.add_0_l, HT by exact Hw.
    apply ONES_bit, Hj.
  - replace c with (1 + (c - 1)) by lia. rewrite slot_input by lia. unfold lane_env. rewrite env_of_input by lia. reflexivity.
Qed.

Lemma lanes_gate v v' n : 0 <= n < n_gates s -> lanes_ok v v' n -> lanes_ok v (run_gate s v' n) (n + 1).
Proof.
  intros Hn (HL & HF & HE). pose proof (bt_ni _ _ _ B). destruct (bt_gates _ _ _ B n Hn) as (_ & _ & Pa & Pb).
  destruct (words_written (fun v w => operand v (get (ga s) n) w &w operand v (get (gb s) n) w) (1 + n_inputs s + n) v' W)
    as [L' G']; [lia | unfold W; lia | unfold slots, W in *; lia | |].
  { intros u u' w Hw E. rewrite (operand_frame u u' _ _ _ w Pa Hw E), (operand_frame u u' _ _ _ w Pb Hw E). reflexivity. }
  fold (run_gate s v' n) in L', G'. split; [rewrite L'; exact HL |]. unfold W in *. split.
  - intros i Hi. rewrite G', HF by lia. replace ((1 + n_inputs s + n) * 8 <=? i) with false by lia. reflexivity.
  - intros c w j Hc Hw Hj. rewrite G' by lia. destruct (Z.eq_dec c (1 + n_inputs s + n)) as [-> | Ne].
    + replace (_ && _) with true by lia. replace (_ + w - _) with w by lia.
      destruct (slot_gate n (lane_env s v w j) Hn) as [-> ->]. cbn beta. rewrite Z.land_spec.
      f_equal; [apply (packed_bit _ _ _ _ _ _ _ Pa) | apply (packed_bit _ _ _ _ _ _ _ Pb)]; auto.
    + replace (_ && _) with false by lia. apply HE; lia.
Qed.

Lemma and_asserts v env w j : 0 <= w < W -> 0 <= j < 64 ->
  (forall c, 0 <= c < slots s -> Z.testbit (get v (c * W + w)) j = Aig.eval m env (slot_id s c)) ->
  forall out, Z.testbit (get (fold_left (and_assert v) (asl s) out) w) j = Z.testbit (get out w) j && holds m l env.
Proof.
  intros Hw Hj E. pose proof packed_bit as PB. pose proof (bt_asl _ _ _ B) as F. unfold holds, slots in *. clear B. induction F as [| a x al xl P F IH]; intros out; cbn.
  - rewrite andb_true_r. reflexivity.
  - rewrite IH. rewrite (andb_assoc _ (Aig.eval m env x)). f_equal. unfold and_assert, get at 1.
    rewrite list_lookup_fmap, lookup_seqZ_lt by (unfold W in *; lia). cbn [fmap option_fmap option_map default]. unfold id.
    replace (0 + Z.of_nat (Z.to_nat w)) with w by lia. rewrite Z.land_spec. f_equal. apply (PB _ _ _ _ _ _ _ P); auto.
Qed.

Definition lanes_are (out : list Z) (f : Z -> Z -> bool) : Prop :=
  length out = Z.to_nat W /\ forall w, 0 <= w < W -> fits 64 (get out w) /\ forall j, 0 <= j < 64 -> Z.testbit (get out w) j = f w j.

Lemma get_map_words f w : 0 <= w < W -> get (map f (seqZ 0 W)) w = f w.
Proof.
  intros H. unfold get. rewrite list_lookup_fmap, lookup_seqZ_lt by (unfold W in *; lia).
  cbn [fmap option_fmap option_map default]. unfold id. f_equal. lia.
Qed.

Lemma fits_land_l x y : fits 64 x -> fits 64 (x &w y).
Proof. intros H. apply fits_intro; [lia |]. intros i Hi. rewrite Z.land_spec, (fits_high 64 x i H Hi). reflexivity. Qed.

Lemma and_asserts_shape v al : forall out, length out = Z.to_nat W -> (forall w, 0 <= w < W -> fits 64 (get out w)) ->
  length (fold_left (and_assert v) al out) = Z.to_nat W /\ forall w, 0 <= w < W -> fits 64 (get (fold_left (and_assert v) al out) w).
Proof.
  induction al as [| a al IH]; intros out HL HF; [auto |]. cbn [fold_left]. apply IH.
  - unfold and_assert. rewrite length_map, length_seqZ. reflexivity.
  - intros w Hw. unfold and_assert. rewrite get_map_words by exact Hw. apply fits_land_l, HF, Hw.
Qed.

Lemma get_ones w : 0 <= w < W -> get (replicate (Z.to_nat W) ONES) w = ONES.
Proof. intros H. unfold get. rewrite lookup_replicate_2 by (unfold W in *; lia). reflexivity. Qed.

Lemma pass_spec v : words_ok s v -> exists out v',
  run_pass (set_val s v) = (out, set_val s v') /\ words_ok s v' /\ (forall i, 0 <= i < (1 + n_inputs s) * W -> get v' i = get v i) /\
  lanes_are out (fun w j => holds m l (lane_env s v w j)).
Proof.
  intros Ok. pose proof (bt_ni _ _ _ B). pose proof (bt_ng _ _ _ B).
  assert (L : lanes_ok v (fold_left (run_gate s) (seqZ 0 (n_gates s)) v) (n_gates s)).
  { apply (fold_seqZ (fun n v' => lanes_ok v v' n)); [lia | apply lanes_inputs, Ok |]. intros k y Hk. apply lanes_gate, Hk. }
  eexists _, _. split; [reflexivity |]. change (run_gate (set_val s v)) with (run_gate s). cbn [n_gates set_val val asl].
  destruct L as (HL & HF & HE). set (v' := fold_left (run_gate s) _ v) in *. split; [split; [exact HL |] |].
  { intros w Hw. unfold W in *. rewrite HF by lia. apply Ok, Hw. }
  split; [exact HF |].
  destruct (and_asserts_shape v' (asl s) (replicate (Z.to_nat W) ONES)) as [Sh Fi].
  { apply length_replicate. } { intros w Hw. rewrite get_ones by exact Hw. unfold fits, ONES. lia. }
  split; [exact Sh |]. intros w Hw. split; [apply Fi, Hw |]. intros j Hj.
  rewrite (and_asserts v' (lane_env s v w j) w j Hw Hj), get_ones, ONES_bit by auto. apply andb_true_l.
Qed.
End Built.

(** ** Hits *)

Lemma lor_zero x y : Z.lor x y = 0 <-> x = 0 /\ y = 0.
Proof. apply Z.lor_eq_0_iff. Qed.

Lemma any_words out : any out = existsb (fun x => negb (x =? 0)) out.
Proof.
  unfold any. enough (G : forall a, negb (fold_left Z.lor out a =? 0) = negb (a =? 0) || existsb (fun x => negb (x =? 0)) out) by apply G.
  induction out as [| x out IH]; intros a; cbn [fold_left existsb]; [symmetry; apply orb_false_r |].
  rewrite IH, orb_assoc. f_equal. pose proof (lor_zero a x). lia.
Qed.

Lemma ctz_first x : 0 < x -> 0 <= NumTh.ctz x /\ Z.testbit x (NumTh.ctz x) = true /\ forall i, 0 <= i < NumTh.ctz x -> Z.testbit x i = false.
Proof.
  intros H. destruct (NumTh.ctz_split x H) as (H0 & o & E & O & _). set (t := NumTh.ctz x) in *. split; [exact H0 |].
  assert (F : fits t 0) by (unfold fits; pose proof (Z.pow_pos_nonneg 2 t); lia).
  assert (S : forall i, 0 <= i -> Z.testbit x i = if i <? t then Z.testbit 0 i else Z.testbit o (i - t)).
  { intros i Hi. rewrite <- concat_spec by (auto; lia). f_equal. lia. }
  split.
  - rewrite S, Z.ltb_irrefl, Z.sub_diag by exact H0. exact O.
  - intros i Hi. rewrite S by lia. replace (i <? t) with true by lia. apply Z.bits_0.
Qed.

Lemma ctz_width x : fits 64 x -> x <> 0 -> 0 <= NumTh.ctz x < 64.
Proof.
  intros F N. destruct (ctz_first x) as (H0 & T & _); [unfold fits in F; lia |].
  split; [exact H0 |]. destruct (Z_lt_ge_dec (NumTh.ctz x) 64); [assumption |]. rewrite (fits_high 64 x) in T by (auto; lia). discriminate.
Qed.

Section Lanes.
Context (ok : list Z) (f : Z -> Z -> bool) (Ok : lanes_are ok f).

Lemma zero_word w : 0 <= w < W -> (get ok w = 0 <-> forall j, 0 <= j < 64 -> f w j = false).
Proof.
  intros Hw. destruct (proj2 Ok w Hw) as [F T]. split.
  - intros E j Hj. rewrite <- T, E by exact Hj. apply Z.bits_0.
  - intros E. apply Z.bits_inj'. intros i Hi. rewrite Z.bits_0. destruct (Z_lt_ge_dec i 64).
    + rewrite T by lia. apply E. lia.
    + apply (fits_high 64); [exact F | lia].
Qed.

Lemma any_lanes : any ok = false <-> forall w j, 0 <= w < W -> 0 <= j < 64 -> f w j = false.
Proof.
  rewrite any_words. rewrite <- not_true_iff_false, existsb_exists. split.
  - intros N w j Hw. apply zero_word; [exact Hw |]. destruct (Z.eq_dec (get ok w) 0) as [| Ne]; [assumption |]. exfalso. apply N.
    exists (get ok w). split; [| lia]. apply list_elem_of_In, list_elem_of_lookup_2 with (Z.to_nat w), get_elem. rewrite (proj1 Ok). unfold W in *; lia.
  - intros E (x & Hx & Nx). apply list_elem_of_In, list_elem_of_lookup in Hx as (i & Hi).
    assert (Hw : 0 <= Z.of_nat i < W). { apply lookup_lt_Some in Hi. rewrite (proj1 Ok) in Hi. unfold W in *; lia. }
    pose proof (proj2 (zero_word _ Hw) (fun j => E (Z.of_nat i) j Hw)) as E0. clear E. rename E0 into E. unfold get in E. rewrite Nat2Z.id, Hi in E. cbn in E. unfold id in E. subst x. discriminate.
Qed.

(** The hit recorded is the lowest. *)
Lemma record_hit_spec s : any ok = true -> exists w j, 0 <= w < W /\ 0 <= j < 64 /\ f w j = true /\
  (forall w' j', 0 <= w' < W -> 0 <= j' < 64 -> w' * 64 + j' < w * 64 + j -> f w' j' = false) /\
  record_hit s ok = set_hit s (w * 64 + j) true (hit_exh s) (hit_index s).
Proof.
  intros A. unfold record_hit. pose proof (find_seqZ (fun w => negb (get ok w =? 0)) 0 W ltac:(unfold W; lia)) as S.
  destruct (List.find _ _) as [w |].
  - destruct S as (Hw & Nw & L). assert (N0 : get ok w <> 0) by lia. destruct (proj2 Ok w Hw) as [F T].
    destruct (ctz_first (get ok w)) as (H0 & Tb & Lo); [unfold fits in F; lia |]. pose proof (ctz_width _ F N0) as Hj.
    exists w, (NumTh.ctz (get ok w)). split; [exact Hw |]. split; [exact Hj |]. split; [rewrite <- T; auto |]. split; [| reflexivity].
    intros w' j' Hw' Hj' Lt. destruct (Z.eq_dec w' w) as [-> | Ne].
    + rewrite <- T by exact Hj'. apply Lo. lia.
    + apply zero_word; [exact Hw' | | exact Hj']. specialize (L w' ltac:(lia)). lia.
  - exfalso. enough (any ok = false) by congruence. apply any_lanes. intros w j Hw. apply zero_word; [exact Hw |]. specialize (S w Hw). lia.
Qed.
End Lanes.

(** ** The hit drawn *)

Lemma popcount_pos x : 0 < x -> 0 < Masks.popcount x.
Proof.
  intros H. assert (H0 : 0 <= x) by lia. revert H. pattern x. apply Masks.digits_ind; [lia | | | exact H0].
  - intros m Hm IH _. rewrite Masks.popcount_even by lia. apply IH, Hm.
  - intros m Hm _ _. rewrite Masks.popcount_odd by lia. pose proof (Masks.popcount_nonneg m Hm). lia.
Qed.

Lemma popcount_drop x : 0 < x -> Masks.popcount (x &w (x - 1)) = Masks.popcount x - 1.
Proof.
  intros H. assert (H0 : 0 <= x) by lia. revert H. pattern x. apply Masks.digits_ind; [lia | | | exact H0].
  - intros m Hm IH _. replace (2 * m &w (2 * m - 1)) with (2 * (m &w (m - 1))).
    + rewrite !Masks.popcount_even by (try lia; apply Z.land_nonneg; lia). apply IH, Hm.
    + replace (2 * m - 1) with (2 * (m - 1) + 1) by lia. apply Z.bits_inj'. intros i Hi. rewrite Z.land_spec.
      destruct (Z.eq_dec i 0) as [-> | Ne]; [rewrite !Z.testbit_even_0; reflexivity |].
      replace i with (Z.succ (i - 1)) by lia. rewrite !Z.testbit_even_succ, Z.testbit_odd_succ, Z.land_spec by lia. reflexivity.
  - intros m Hm _ _. replace ((2 * m + 1) &w (2 * m + 1 - 1)) with (2 * m).
    + rewrite Masks.popcount_even, Masks.popcount_odd by lia. lia.
    + replace (2 * m + 1 - 1) with (2 * m) by lia. apply Z.bits_inj'. intros i Hi. rewrite Z.land_spec.
      destruct (Z.eq_dec i 0) as [-> | Ne]; [rewrite Z.testbit_even_0, andb_false_r; reflexivity |].
      replace i with (Z.succ (i - 1)) by lia. rewrite Z.testbit_even_succ, Z.testbit_odd_succ by lia. symmetry. apply andb_diag.
Qed.

Lemma drop_bits_spec r : forall x, 0 <= x -> Z.of_nat r < Masks.popcount x ->
  0 < drop_bits r x /\ forall i, Z.testbit (drop_bits r x) i = true -> Z.testbit x i = true.
Proof.
  induction r as [| r IH]; intros x Hx Hr.
  - split; [| auto]. cbn [drop_bits]. destruct (Z.eq_dec x 0) as [-> |]; [cbn in Hr; lia | lia].
  - assert (0 < x) by (destruct (Z.eq_dec x 0) as [-> |]; [cbn in Hr; lia | lia]).
    destruct (IH (x &w (x - 1))) as [P S]; [apply Z.land_nonneg; lia | rewrite popcount_drop by lia; lia |].
    split; [exact P |]. intros i Hi. specialize (S i Hi). rewrite Z.land_spec in S. apply andb_true_iff in S. apply S.
Qed.

Fixpoint hits_of (ok ws : list Z) : Z := match ws with [] => 0 | w :: ws => Masks.popcount (get ok w) + hits_of ok ws end.

Lemma hits_fold ok ws : forall a, fold_left (fun c w => c + Masks.popcount (get ok w)) ws a = a + hits_of ok ws.
Proof. induction ws as [| w ws IH]; intros a; cbn [fold_left hits_of]; [lia |]. rewrite IH. lia. Qed.

Section Drawn.
Context (ok : list Z) (f : Z -> Z -> bool) (Ok : lanes_are ok f).

Lemma kth_hit_spec ws : Forall (fun w => 0 <= w < W) ws -> forall r, 0 <= r < hits_of ok ws ->
  exists w j, 0 <= w < W /\ 0 <= j < 64 /\ f w j = true /\ kth_hit ws ok r = Some (w * 64 + j).
Proof.
  induction 1 as [| w ws Hw _ IH]; intros r Hr; cbn [hits_of kth_hit] in *; [lia |].
  rewrite Z.geb_leb. destruct (Z.leb_spec (Masks.popcount (get ok w)) r); [apply IH; lia |].
  destruct (proj2 Ok w Hw) as [F T]. destruct (drop_bits_spec (Z.to_nat r) (get ok w)) as [P S]; [apply F | lia |].
  destruct (ctz_first _ P) as (C0 & C1 & _). apply S in C1.
  assert (Hj : NumTh.ctz (drop_bits (Z.to_nat r) (get ok w)) < 64).
  { destruct (Z_lt_ge_dec (NumTh.ctz (drop_bits (Z.to_nat r) (get ok w))) 64) as [| Ge]; [assumption |].
    rewrite (fits_high 64 (get ok w)) in C1 by (auto; lia). discriminate. }
  exists w, (NumTh.ctz (drop_bits (Z.to_nat r) (get ok w))). rewrite <- T by lia. repeat split; auto; lia.
Qed.

Lemma words_in : Forall (fun w => 0 <= w < W) (seqZ 0 W).
Proof. apply list.Forall_forall. intros w Hw. apply elem_of_seqZ in Hw. lia. Qed.

Lemma hits_bounds ws : Forall (fun w => 0 <= w < W) ws -> 0 <= hits_of ok ws <= 64 * Z.of_nat (length ws).
Proof.
  induction 1 as [| w ws Hw _ IH]; cbn [hits_of length]; [lia |]. destruct (proj2 Ok w Hw) as [F _].
  pose proof (Masks.popcount_nonneg (get ok w) (proj1 F)). pose proof (Masks.popcount_width (get ok w) 64 F ltac:(lia)). lia.
Qed.

Lemma hits_positive : any ok = true -> 0 < hits_of ok (seqZ 0 W).
Proof.
  intros A. destruct (Z_lt_ge_dec 0 (hits_of ok (seqZ 0 W))) as [| Ge]; [assumption |]. exfalso. enough (any ok = false) by congruence.
  apply (any_lanes ok f Ok). intros w j Hw. apply (zero_word ok f Ok w Hw).
  enough (G : forall ws, Forall (fun w => 0 <= w < W) ws -> hits_of ok ws <= 0 -> forall w, w ∈ ws -> get ok w = 0).
  { apply (G (seqZ 0 W) words_in); [lia |]. apply elem_of_seqZ. lia. }
  clear w j Hw. intros ws Hws. induction Hws as [| w ws Hw Hws IH]; intros H0 x Hx; [inversion Hx |].
  cbn [hits_of] in H0. destruct (proj2 Ok w Hw) as [F _]. pose proof (hits_bounds ws Hws). pose proof (Masks.popcount_nonneg (get ok w) (proj1 F)).
  apply elem_of_cons in Hx as [-> | Hx]; [| apply IH; [lia | exact Hx]].
  destruct (Z.eq_dec (get ok w) 0) as [| Ne]; [assumption |]. pose proof (popcount_pos (get ok w)). unfold fits in F. lia.
Qed.
End Drawn.

(** ** The lanes of a sweep *)

Lemma set_words_spec v c f : 0 <= c -> c * W + W <= Z.of_nat (length v) ->
  length (set_words v c f) = length v /\
  forall i, 0 <= i -> get (set_words v c f) i = if (c * W <=? i) && (i <? c * W + W) then f (i - c * W) else get v i.
Proof. intros Hc HL. apply (words_written (fun _ w => f w)); [lia | unfold W; lia | exact HL | reflexivity]. Qed.

Lemma inputs_written s v (f : Z -> Z -> Z) a n : words_ok s v -> 0 <= n_gates s -> 0 <= a -> 0 <= n -> a + n <= n_inputs s ->
  let v' := fold_left (fun v k => set_words v (1 + k) (f k)) (seqZ a n) v in
  words_ok s v' /\ forall k w, 0 <= k -> 0 <= w < W ->
    get v' ((1 + k) * W + w) = if (a <=? k) && (k <? a + n) then f k w else get v ((1 + k) * W + w).
Proof.
  intros Ok Hg Ha Hn HL. apply (fold_seqZ_from (fun b v' => words_ok s v' /\ forall k w, 0 <= k -> 0 <= w < W ->
    get v' ((1 + k) * W + w) = if (a <=? k) && (k <? b) then f k w else get v ((1 + k) * W + w))); [exact Hn | |].
  - split; [exact Ok |]. intros k w Hk Hw. replace (_ && _) with false by lia. reflexivity.
  - intros b y Hb [[Ly Ty] Gy]. unfold slots in Ly. destruct (set_words_spec y (1 + b) (f b)) as [L' G']; [lia | unfold W in *; lia |]. split.
    + split; [rewrite L'; exact Ly |]. intros w Hw. rewrite G' by lia. unfold W in *. replace (_ && _) with false by lia. apply Ty, Hw.
    + intros k w Hk Hw. unfold W in *. rewrite G' by lia. destruct (Z.eq_dec k b) as [-> | Ne].
      * replace (((1 + b) * 8 <=? (1 + b) * 8 + w) && ((1 + b) * 8 + w <? (1 + b) * 8 + 8)) with true by lia.
        replace ((a <=? b) && (b <? b + 1)) with true by lia. f_equal. lia.
      * replace (((1 + b) * 8 <=? (1 + k) * 8 + w) && ((1 + k) * 8 + w <? (1 + b) * 8 + 8)) with false by lia.
        rewrite Gy by auto. replace ((a <=? k) && (k <? b + 1)) with ((a <=? k) && (k <? b)) by lia. reflexivity.
Qed.

Definition lane_set (s : aigsim) (v : list Z) : Prop := forall k w j, 0 <= k < Z.min (n_inputs s) IN_PASS -> 0 <= w < W -> 0 <= j < 64 ->
  Z.testbit (get v ((1 + k) * W + w)) j = Z.testbit (w * 64 + j) k.

Lemma lane_pat_bit k j : 0 <= k < 6 -> 0 <= j < 64 -> Z.testbit (get LANE_PAT k) j = Z.testbit j k.
Proof.
  intros Hk Hj. enough (C : forallb (fun k => forallb (fun j => Bool.eqb (Z.testbit (get LANE_PAT k) j) (Z.testbit j k)) (seqZ 0 64)) (seqZ 0 6) = true).
  { rewrite forallb_forall in C. specialize (C k ltac:(apply list_elem_of_In, elem_of_seqZ; lia)). rewrite forallb_forall in C.
    apply eqb_prop, C, list_elem_of_In, elem_of_seqZ. lia. }
  vm_compute. reflexivity.
Qed.

Lemma lane_word_bit k w j : 0 <= k < IN_PASS -> 0 <= w < W -> 0 <= j < 64 -> Z.testbit (lane_word k w) j = Z.testbit (w * 64 + j) k.
Proof.
  intros Hk Hw Hj. unfold lane_word. change 64 with (2 ^ 6). rewrite concat_spec by (unfold fits; lia).
  destruct (Z.ltb_spec k 6); [apply lane_pat_bit; lia |]. destruct (Z.testbit w (k - 6)); [apply ONES_bit, Hj | apply Z.bits_0].
Qed.

Lemma lane_inputs_ok s v : words_ok s v -> 0 <= n_gates s -> 0 <= n_inputs s ->
  words_ok s (lane_inputs (n_inputs s) v) /\ lane_set s (lane_inputs (n_inputs s) v).
Proof.
  intros Ok Hg Hi. destruct (inputs_written s v lane_word 0 (Z.min (n_inputs s) IN_PASS)) as [O G]; [auto; unfold IN_PASS in *; lia.. |].
  split; [exact O |]. intros k w j Hk Hw Hj. unfold lane_inputs. rewrite G by lia. replace (_ && _) with true by lia. apply lane_word_bit; lia.
Qed.

Lemma pass_inputs_ok s v b : words_ok s v -> lane_set s v -> 0 <= n_gates s -> 0 <= n_inputs s ->
  let v' := pass_inputs (n_inputs s) b v in
  words_ok s v' /\ lane_set s v' /\ forall k w j, 0 <= k < n_inputs s -> 0 <= w < W -> 0 <= j < 64 ->
    Z.testbit (get v' ((1 + k) * W + w)) j = Z.testbit (b * 512 + (w * 64 + j)) k.
Proof.
  intros Ok Ls Hg Hi v'. assert (E : words_ok s v' /\ forall k w, 0 <= k < n_inputs s -> 0 <= w < W ->
    get v' ((1 + k) * W + w) = if k <? IN_PASS then get v ((1 + k) * W + w) else if Z.testbit b (k - IN_PASS) then ONES else 0).
  { destruct (Z_le_gt_dec (n_inputs s) IN_PASS) as [Le | Gt].
    - unfold v', pass_inputs. rewrite seqZ_nil by lia. split; [exact Ok |]. intros k w Hk Hw. replace (k <? IN_PASS) with true by lia. reflexivity.
    - destruct (inputs_written s v (fun k _ => if Z.testbit b (k - IN_PASS) then ONES else 0) IN_PASS (n_inputs s - IN_PASS)) as [O G];
        [auto; unfold IN_PASS in *; lia.. |]. split; [exact O |]. intros k w Hk Hw. unfold v', pass_inputs. rewrite G by lia.
      destruct (Z.ltb_spec k IN_PASS); [replace (_ && _) with false by lia | replace (_ && _) with true by lia]; reflexivity. }
  destruct E as [O G]. split; [exact O |]. split.
  - intros k w j Hk Hw Hj. rewrite G by lia. replace (k <? IN_PASS) with true by lia. apply Ls; auto.
  - intros k w j Hk Hw Hj. rewrite G by auto. change 512 with (2 ^ 9). unfold W in Hw. rewrite concat_spec by (unfold fits; lia).
    unfold IN_PASS. destruct (Z.ltb_spec k 9); [apply Ls; unfold W, IN_PASS; lia |].
    destruct (Z.testbit b (k - 9)); [apply ONES_bit, Hj | apply Z.bits_0].
Qed.

(** ** The sweep *)

(** Whether the assignment with bit [k] of [x] for input [k] of the cone
    satisfies the assertions. *)
Definition sats (m : Aig.aig) (l : list Z) (s : aigsim) (x : Z) : bool := holds m l (env_of s (Z.testbit x)).

Record kept (m : Aig.aig) (l : list Z) (s : aigsim) : Prop := {
  kp_built : built m l s;
  kp_words : words_ok s (val s);
  kp_hit : hit_exh s = true -> has_hit s = true /\ sats m l s (hit_index s) = true }.

Lemma kept_val m l s v : kept m l s -> words_ok s v -> kept m l (set_val s v).
Proof. intros [[] Wo Hi] []. split; [constructor; assumption | constructor; assumption | exact Hi]. Qed.
Lemma kept_vectors m l s n : kept m l s -> kept m l (add_vectors s n).
Proof. intros [[] [] Hi]. split; [constructor; assumption | constructor; assumption | exact Hi]. Qed.
Lemma kept_hit m l s lane has exh index : kept m l s -> (exh = true -> has = true /\ sats m l s index = true) ->
  kept m l (set_hit s lane has exh index).
Proof. intros [[] [] _] Hi. split; [constructor; assumption | constructor; assumption | exact Hi]. Qed.
#[local] Hint Resolve kept_val kept_vectors kept_hit : core.

Lemma counts_nonneg m l s : built m l s -> 0 <= n_inputs s /\ 0 <= n_gates s.
Proof. intros B. rewrite (bt_ni _ _ _ B), (bt_ng _ _ _ B). lia. Qed.

Lemma pass_at m l s b : kept m l s -> lane_set s (val s) -> exists out v',
  run_pass (set_val s (pass_inputs (n_inputs s) b (val s))) = (out, set_val s v') /\ words_ok s v' /\ lane_set s v' /\
  lanes_are out (fun w j => sats m l s (b * 512 + (w * 64 + j))).
Proof.
  intros [B Wo _] Ls. destruct (counts_nonneg m l s B) as [Hi Hg].
  destruct (pass_inputs_ok s (val s) b Wo Ls Hg Hi) as (O & L1 & Bits). destruct (pass_spec m l s B _ O) as (out & v' & E & O' & Fr & La).
  exists out, v'. split; [exact E |]. split; [exact O' |]. split.
  - intros k w j Hk Hw Hj. unfold W in *. rewrite Fr by lia. apply L1; auto.
  - split; [apply La |]. intros w Hw. split; [apply La, Hw |]. intros j Hj. rewrite (proj2 (proj2 La w Hw) j Hj). unfold sats.
    apply (cone_holds_agree m l s B). intros k Hk. unfold lane_env. rewrite !(env_of_input m l s B) by exact Hk. apply Bits; auto.
Qed.

Lemma live_range n b x : 0 <= n -> 0 <= b < n_passes n -> 0 <= x < 512 -> (x < live_lanes n <-> b * 512 + x < 2 ^ n).
Proof.
  unfold n_passes, live_lanes, IN_PASS, LANES, W. intros Hn Hb Hx. rewrite Z.gtb_ltb in Hb. rewrite Z.geb_leb.
  destruct (Z.ltb_spec 9 n).
  - replace (9 <=? n) with true by lia. replace (2 ^ n) with (512 * 2 ^ (n - 9)); [lia |].
    change 512 with (2 ^ 9). rewrite <- Z.pow_add_r by lia. f_equal. lia.
  - replace b with 0 by lia. destruct (Z.leb_spec 9 n); [replace n with 9 by lia; change (2 ^ 9) with 512; lia | lia].
Qed.

Lemma live_bounds n : 0 <= n -> 0 <= live_lanes n <= 512.
Proof.
  intros H. unfold live_lanes, IN_PASS, LANES, W. rewrite Z.geb_leb. destruct (Z.leb_spec 9 n); [lia |].
  pose proof (Z.pow_nonneg 2 n). pose proof (Z.pow_le_mono_r 2 n 9). lia.
Qed.

Lemma lane_mask_bit live w j : 0 <= w < W -> 0 <= j < 64 -> Z.testbit (lane_mask live w) j = (w * 64 + j <? live).
Proof.
  intros Hw Hj. unfold lane_mask. rewrite Z.geb_leb, Z.gtb_ltb. destruct (Z.leb_spec (w * 64 + 64) live); [rewrite ONES_bit; lia |].
  destruct (Z.ltb_spec (w * 64) live); [| rewrite Z.bits_0; lia].
  replace (2 ^ (live - w * 64) - 1) with (Z.ones (live - w * 64)) by (rewrite Z.ones_equiv; lia). rewrite ones_spec; lia.
Qed.

Lemma masked_lanes out f live : lanes_are out f ->
  lanes_are (map (fun w => get out w &w lane_mask live w) (seqZ 0 W)) (fun w j => f w j && (w * 64 + j <? live)).
Proof.
  intros [HL HF]. split; [rewrite length_map, length_seqZ; reflexivity |]. intros w Hw. rewrite get_map_words by exact Hw.
  destruct (HF w Hw) as [F T]. split; [apply fits_land_l, F |]. intros j Hj. rewrite Z.land_spec, T, lane_mask_bit by auto. reflexivity.
Qed.

Definition none_upto (m : Aig.aig) (l : list Z) (s : aigsim) (n : Z) : Prop :=
  forall x, 0 <= x < n -> x < 2 ^ n_inputs s -> sats m l s x = false.

Lemma none_next m l s b : 0 <= b -> none_upto m l s (512 * b) ->
  (forall w j, 0 <= w < W -> 0 <= j < 64 -> b * 512 + (w * 64 + j) < 2 ^ n_inputs s -> sats m l s (b * 512 + (w * 64 + j)) = false) ->
  none_upto m l s (512 * (b + 1)).
Proof.
  intros Hb N0 N1 x Hx Rx. destruct (Z_lt_ge_dec x (512 * b)); [apply N0; [lia | exact Rx] |].
  set (y := x - 512 * b) in *. pose proof (Z.div_mod y 64 ltac:(lia)). pose proof (Z.mod_pos_bound y 64 ltac:(lia)).
  specialize (N1 (y / 64) (y mod 64) ltac:(unfold W; lia) ltac:(lia)). replace (b * 512 + _) with x in N1 by lia. apply N1, Rx.
Qed.

(** The index of a hit, as the code joins it. *)
Lemma hit_join w j b : 0 <= w < W -> 0 <= j < 64 -> 0 <= b < 2 ^ 23 -> Z.lor (w * 64 + j) (u64 (Z.shiftl b IN_PASS)) = b * 512 + (w * 64 + j).
Proof.
  unfold W, IN_PASS. intros Hw Hj Hb. rewrite u64_small; [rewrite Z.lor_comm, lor_concat by (unfold fits; lia); reflexivity |].
  unfold fits. rewrite Z.shiftl_mul_pow2 by lia. lia.
Qed.

Definition sweep_answer (m : Aig.aig) (l : list Z) (seed : Z) (stop : Z -> bool) (a : answer) (s : aigsim) : Prop :=
  match a with
  | SAT => hit_exh s = true /\ (seed = 0 -> none_upto m l s (hit_index s))
  | UNSAT => none_upto m l s (2 ^ n_inputs s)
  | UNDECIDED => exists b, stop b = true
  end.

Lemma n_passes_bounds n : 0 <= n <= 32 -> 1 <= n_passes n <= 2 ^ 23.
Proof.
  intros H. unfold n_passes, IN_PASS. rewrite Z.gtb_ltb. destruct (Z.ltb_spec 9 n); [| lia].
  pose proof (Z.pow_pos_nonneg 2 (n - 9)). pose proof (Z.pow_le_mono_r 2 (n - 9) 23). lia.
Qed.

Lemma sweep_spec m l stop seed passes : forall s b st seen,
  kept m l s -> lane_set s (val s) -> n_inputs s <= 32 -> 0 <= b -> b + Z.of_nat passes = n_passes (n_inputs s) ->
  0 <= seen <= 512 * b -> (seen = 0 -> none_upto m l s (512 * b)) -> (seen <> 0 -> hit_exh s = true /\ seed <> 0) ->
  let '(a, s') := sweep passes stop seed b st seen s in kept m l s' /\ sweep_answer m l seed stop a s'.
Proof.
  induction passes as [| passes IH]; intros s b st seen K Ls Hn Hb Ep Hs N0 N1; cbn [sweep].
  - split; [exact K |]. rewrite Z.add_0_r in Ep. subst b. destruct (Z.eqb_spec seen 0) as [E | Ne]; cbn.
    + intros x Hx Rx. apply (N0 E); [| exact Rx]. destruct (counts_nonneg m l s (kp_built _ _ _ K)) as [Hi _].
      split; [lia |]. clear - Rx Hi. unfold n_passes, IN_PASS. rewrite Z.gtb_ltb. destruct (Z.ltb_spec 9 (n_inputs s)).
      * change 512 with (2 ^ 9). rewrite <- Z.pow_add_r by lia. replace (9 + (n_inputs s - 9)) with (n_inputs s) by lia. exact Rx.
      * pose proof (Z.pow_le_mono_r 2 (n_inputs s) 9). lia.
    + destruct (N1 Ne) as [E Sd]. split; [exact E | intros ->; contradiction].
  - destruct (stop b) eqn:Es; [split; [exact K | exists b; exact Es] |].
    destruct (pass_at m l s b K Ls) as (out & v' & -> & Wo & Ls' & La).
    pose proof (counts_nonneg m l s (kp_built _ _ _ K)) as [Hi _].
    pose proof (n_passes_bounds (n_inputs s) ltac:(lia)) as Hp.
    set (s1 := add_vectors (set_val s v') (live_lanes (n_inputs (set_val s v')))) in *.
    assert (K1 : kept m l s1) by (unfold s1; auto). change (n_inputs (set_val s v')) with (n_inputs s) in *.
    assert (Ep1 : b + 1 + Z.of_nat passes = n_passes (n_inputs s)) by lia.
    assert (Next : none_upto m l s (512 * b) -> seen = 0 -> (forall w j, 0 <= w < W -> 0 <= j < 64 ->
      b * 512 + (w * 64 + j) < 2 ^ n_inputs s -> sats m l s (b * 512 + (w * 64 + j)) = false) ->
      let '(a, s') := sweep passes stop seed (b + 1) st seen s1 in kept m l s' /\ sweep_answer m l seed stop a s').
    { intros Nb E0 No. apply IH; [exact K1 | exact Ls' | exact Hn | lia | exact Ep1 | lia | intros _; apply none_next; auto | contradiction]. }
    assert (Keep : seen <> 0 -> let '(a, s') := sweep passes stop seed (b + 1) st seen s1 in kept m l s' /\ sweep_answer m l seed stop a s').
    { intros Ne. apply IH; [exact K1 | exact Ls' | exact Hn | lia | exact Ep1 | lia | contradiction | exact N1]. }
    destruct (any out) eqn:Ea; cbn [negb].
    2:{ destruct (Z.eq_dec seen 0) as [E0 | Ne]; [| exact (Keep Ne)]. apply Next; [auto | exact E0 |].
        intros w j Hw Hj _. apply (proj1 (any_lanes _ _ La) Ea); auto. }
    pose proof (masked_lanes out _ (live_lanes (n_inputs s)) La) as Lm. set (ok := map _ (seqZ 0 W)) in *.
    assert (Live : forall w j, 0 <= w < W -> 0 <= j < 64 -> (w * 64 + j <? live_lanes (n_inputs s)) = (b * 512 + (w * 64 + j) <? 2 ^ n_inputs s)).
    { intros w j Hw Hj. pose proof (live_range (n_inputs s) b (w * 64 + j) Hi ltac:(lia) ltac:(unfold W in *; lia)). lia. }
    destruct (any ok) eqn:Eo; cbn [negb].
    2:{ destruct (Z.eq_dec seen 0) as [E0 | Ne]; [| exact (Keep Ne)]. apply Next; [auto | exact E0 |]. intros w j Hw Hj R.
        pose proof (proj1 (any_lanes _ _ Lm) Eo w j Hw Hj) as X. cbn beta in X. rewrite Live in X by auto. lia. }
    destruct (Z.eqb_spec seed 0) as [S0 | S1].
    + assert (E0 : seen = 0) by (destruct (Z.eq_dec seen 0) as [| Ne]; [assumption | destruct (N1 Ne); contradiction]).
      destruct (record_hit_spec ok _ Lm s1 Eo) as (w & j & Hw & Hj & Hit & Low & ->). cbn [set_hit hit_lane has_hit hit_exh hit_index].
      rewrite hit_join by (auto; lia). apply andb_true_iff in Hit as [Hit Lv]. rewrite Live in Lv by auto. split.
      * apply (kept_hit m l s1); [exact K1 | intros _; split; [reflexivity | exact Hit]].
      * split; [reflexivity |]. intros _ x Hx Rx. cbn [set_hit hit_index n_inputs add_vectors set_val] in Hx, Rx.
        destruct (Z_lt_ge_dec x (512 * b)); [apply (N0 E0); [lia | exact Rx] |].
        set (y := x - 512 * b) in *. pose proof (Z.div_mod y 64 ltac:(lia)). pose proof (Z.mod_pos_bound y 64 ltac:(lia)).
        specialize (Low (y / 64) (y mod 64) ltac:(unfold W in *; lia) ltac:(lia) ltac:(lia)). cbn beta in Low.
        replace (b * 512 + _) with x in Low by lia. rewrite Live in Low by (unfold W in *; lia).
        replace (b * 512 + _) with x in Low by lia. change (sats m l s x = false). replace (x <? 2 ^ n_inputs s) with true in Low by lia.
        rewrite andb_true_r in Low. exact Low.
    + rewrite hits_fold, Z.add_0_l. pose proof (hits_positive ok _ Lm Eo) as Cp. pose proof (hits_bounds ok _ Lm _ words_in) as Cb.
      change (64 * Z.of_nat (length (seqZ 0 W))) with 512 in Cb. set (c := hits_of ok (seqZ 0 W)) in *.
      rewrite (u64_small (seen + c)) by (unfold fits; lia). destruct (rng st) as [r st'].
      pose proof (Z.mod_pos_bound r (seen + c) ltac:(lia)) as Hr. rewrite Z.geb_leb. destruct (Z.leb_spec c (r mod (seen + c))).
      * apply IH; [exact K1 | exact Ls' | exact Hn | lia | exact Ep1 | lia | lia |]. intros _. apply N1. lia.
      * destruct (kth_hit_spec ok _ Lm _ words_in (r mod (seen + c))) as (w & j & Hw & Hj & Hit & ->); [fold c; lia |].
        rewrite hit_join by (auto; lia). apply andb_true_iff in Hit as [Hit _].
        apply IH; [| exact Ls' | exact Hn | lia | exact Ep1 | lia | lia | auto].
        apply (kept_hit m l s1); [exact K1 | intros _; split; [reflexivity | exact Hit]].
Qed.

Lemma exhaustive_spec m l s stop seed : kept m l s ->
  let '(a, s') := exhaustive s stop seed in kept m l s' /\ (a = UNDECIDED /\ 32 < n_inputs s \/ n_inputs s <= 32 /\ sweep_answer m l seed stop a s').
Proof.
  intros K. unfold exhaustive. rewrite Z.gtb_ltb. destruct (Z.ltb_spec 32 (n_inputs s)) as [| Le]; [split; [exact K | auto] |].
  destruct (counts_nonneg m l s (kp_built _ _ _ K)) as [Hi Hg].
  destruct (lane_inputs_ok s (val s) (kp_words _ _ _ K) Hg Hi) as [Wo Ls]. pose proof (n_passes_bounds (n_inputs s) ltac:(lia)) as Hp.
  pose proof (sweep_spec m l stop seed (Z.to_nat (n_passes (n_inputs s))) (set_val s (lane_inputs (n_inputs s) (val s))) 0 seed 0) as S.
  destruct (sweep _ _ _ _ _ _ _) as [a s']. destruct S as [K' A]; [auto | exact Ls | exact Le | lia | cbn [set_val n_inputs]; lia | lia | | lia |].
  - intros _ x Hx. lia.
  - auto.
Qed.

(** Every assignment of the first [n] inputs has its index. *)
Lemma index_exists (f : Z -> bool) n : 0 <= n -> exists x, 0 <= x < 2 ^ n /\ forall k, 0 <= k < n -> Z.testbit x k = f k.
Proof.
  intros Hn. pattern n. apply natlike_ind; [exists 0; split; [cbn; lia | lia] | | exact Hn].
  intros k Hk (x & Hx & Bx). exists (Z.b2z (f k) * 2 ^ k + x). assert (F : fits k x) by exact Hx. split.
  - rewrite Z.pow_succ_r by exact Hk. destruct (f k); cbn [Z.b2z]; lia.
  - intros i Hi. rewrite concat_spec by (auto; lia). destruct (Z.ltb_spec i k); [apply Bx; lia |].
    replace i with k by lia. rewrite Z.sub_diag, Z.b2z_bit0. reflexivity.
Qed.

Lemma none_holds m l s : built m l s -> none_upto m l s (2 ^ n_inputs s) -> forall env, holds m l env = false.
Proof.
  intros B N env. destruct (counts_nonneg m l s B) as [Hi _].
  destruct (index_exists (fun k => env (get (inputs s) k)) (n_inputs s) Hi) as (x & Hx & Bx). rewrite <- (N x Hx (proj2 Hx)).
  apply (cone_holds_agree m l s B). intros k Hk. unfold env_of. fold (env_of s (Z.testbit x) (get (inputs s) k)).
  rewrite (env_of_input m l s B), Bx by exact Hk. reflexivity.
Qed.

(** ** Random passes *)

Lemma random_inputs_ok s v st : words_ok s v -> 0 <= n_inputs s -> 0 <= n_gates s -> words_ok s (fst (random_inputs (n_inputs s) v st)).
Proof.
  intros Ok Hi Hg. apply (fold_seqZ (fun _ vst => words_ok s (fst vst))); [exact Hi | exact Ok |]. intros k y Hk Oy.
  apply (fold_seqZ (fun _ vst => words_ok s (fst vst))); [unfold W; lia | exact Oy |]. intros w [u stu] Hw [Lu Tu]. cbn [random_word fst] in *.
  destruct (rng stu) as [x st']. cbn [fst]. unfold slots, W in *. split; [rewrite length_put; exact Lu |]. intros w' Hw'.
  unfold W in Hw'. rewrite get_put by lia. destruct (Z.eqb_spec w' ((1 + k) * 8 + w)); [lia | apply Tu; exact Hw'].
Qed.

Definition lane_hit (m : Aig.aig) (l : list Z) (s : aigsim) : Prop :=
  0 <= hit_lane s < LANES /\ holds m l (lane_env s (val s) (hit_lane s / 64) (hit_lane s mod 64)) = true.

Lemma random_passes_spec m l passes : forall st s, kept m l s ->
  let '(a, s') := random_passes passes st s in kept m l s' /\
  match a with SAT => has_hit s' = true /\ lane_hit m l s' | UNSAT => False | UNDECIDED => True end.
Proof.
  induction passes as [| passes IH]; intros st s K; cbn [random_passes]; [auto |].
  pose proof (kp_built _ _ _ K) as B. destruct (counts_nonneg m l s B) as [Hi Hg].
  pose proof (random_inputs_ok s (val s) st (kp_words _ _ _ K) Hi Hg) as Wo. destruct (random_inputs _ _ _) as [v st']. cbn [fst] in Wo.
  destruct (pass_spec m l s B v Wo) as (out & v' & -> & Wo' & Fr & La). set (s1 := add_vectors (set_val s v') LANES).
  assert (K1 : kept m l s1) by (unfold s1; auto). destruct (any out) eqn:Ea; [| apply IH; exact K1].
  destruct (record_hit_spec out _ La s1 Ea) as (w & j & Hw & Hj & Hit & _ & ->). split.
  - apply (kept_hit m l s1); [exact K1 |]. intros E. split; [reflexivity |]. apply (kp_hit _ _ _ K1), E.
  - split; [reflexivity |]. unfold lane_hit. cbn [set_hit hit_lane val]. split; [unfold LANES, W in *; lia |].
    replace ((w * 64 + j) / 64) with w by (rewrite Z.add_comm, Z.div_add, Z.div_small; lia).
    replace ((w * 64 + j) mod 64) with j by (rewrite Z.add_comm, Z.mod_add, Z.mod_small; lia). etransitivity; [| exact Hit].
    apply (cone_holds_agree m l s B). intros k Hk. unfold lane_env, W in *.
    change (env_of (set_hit s1 (w * 64 + j) true (hit_exh s1) (hit_index s1))) with (env_of s).
    rewrite !(env_of_input m l s B) by exact Hk. change (val s1) with v'. rewrite Fr by lia. reflexivity.
Qed.

(** ** The valuation *)

Lemma bit_at x k : 0 <= k -> Z.land (Z.shiftr x k) 1 = Z.b2z (Z.testbit x k).
Proof.
  intros Hk. rewrite <- (Z.add_0_l k) at 2. rewrite <- Z.shiftr_spec by lia.
  change 1 with (Z.ones 1). rewrite Z.land_ones by lia. change (2 ^ 1) with 2. rewrite <- Z.bit0_mod. reflexivity.
Qed.

Lemma bit_lit m env nv x : x <> 0 -> get nv (Z.abs x) = Z.b2z (Aig.eval m env (Z.abs x)) -> bit nv x = Z.b2z (Aig.eval m env x).
Proof.
  intros Nx E. unfold bit. rewrite (eval_lit m env x Nx), E. destruct (x <? 0), (Aig.eval m env (Z.abs x)); reflexivity.
Qed.

Definition hit_bits (s : aigsim) (k : Z) : bool :=
  if hit_exh s then Z.testbit (hit_index s) k else Z.testbit (get (val s) ((1 + k) * W + hit_lane s / 64)) (hit_lane s mod 64).

(** The loop over the inputs makes [nv] the assignment [env_of]. *)
Lemma inputs_valued m l s f (v : Z -> Z) nv : built m l s -> (forall k, 0 <= k < n_inputs s -> v k = Z.b2z (f k)) ->
  Z.of_nat (length nv) = nodes_n s + 1 -> (forall id, 2 <= id <= nodes_n s -> get nv id = 0) ->
  let nv' := fold_left (fun nv k => put nv (get (inputs s) k) (v k)) (seqZ 0 (n_inputs s)) nv in
  Z.of_nat (length nv') = nodes_n s + 1 /\ get nv' 1 = get nv 1 /\
  forall id, 2 <= id <= nodes_n s -> get nv' id = Z.b2z (env_of s f id).
Proof.
  intros B Hv HL H0. destruct (counts_nonneg m l s B) as [Hi _]. unfold env_of.
  apply (fold_seqZ (fun n nv' => Z.of_nat (length nv') = nodes_n s + 1 /\ get nv' 1 = get nv 1 /\ forall id, 2 <= id <= nodes_n s ->
    get nv' id = Z.b2z (existsb (fun k => (get (inputs s) k =? id) && f k) (seqZ 0 n)))); [exact Hi | |].
  - split; [exact HL |]. split; [reflexivity | exact H0].
  - intros k y Hk (Ly & Y1 & Y). destruct (bt_inputs _ _ _ B (get (inputs s) k)) as [R _].
    { apply list_elem_of_lookup_2 with (Z.to_nat k), get_elem. rewrite <- (bt_ni _ _ _ B). exact Hk. }
    split; [rewrite length_put; exact Ly |]. split; [rewrite get_put by lia; destruct (Z.eqb_spec 1 (get (inputs s) k)); [lia | exact Y1] |].
    intros id Hid. rewrite get_put by lia. rewrite seqZ_last, existsb_app by lia. cbn [existsb]. rewrite orb_false_r.
    rewrite Z.eqb_sym. destruct (Z.eqb_spec (get (inputs s) k) id) as [<- | Ne].
    + replace (existsb _ (seqZ 0 k)) with false; [rewrite Hv by exact Hk; reflexivity |]. symmetry.
      apply not_true_iff_false. rewrite existsb_exists. intros (i & Hi' & E). apply list_elem_of_In, elem_of_seqZ in Hi'.
      apply andb_true_iff in E as [E _]. apply Z.eqb_eq in E. rewrite (bt_ni _ _ _ B) in Hk.
      pose proof (get_elem (inputs s) i ltac:(lia)) as Ei. pose proof (get_elem (inputs s) k Hk) as Ek. rewrite E in Ei.
      apply (NoDup_lookup _ _ _ _ (bt_distinct _ _ _ B) Ei) in Ek. lia.
    + rewrite Y, orb_false_r by exact Hid. reflexivity.
Qed.

(** The loop over the gates makes it the graph's valuation. *)
Lemma gates_valued m l s env nv : built m l s -> Z.of_nat (length nv) = nodes_n s + 1 -> get nv 1 = 1 ->
  (forall id, 2 <= id <= nodes_n s -> get nv id = Z.b2z (env id)) ->
  let nv' := fold_left (fun nv id =>
      if get (lefts s) id =? 0 then nv else put nv id (bit nv (get (lefts s) id) &w bit nv (get (rights s) id)))
    (seqZ 2 (nodes_n s - 1)) nv in
  forall id, 1 <= id <= nodes_n s -> get nv' id = Z.b2z (Aig.eval m env id).
Proof.
  intros B HL H1 Hv nv' id Hid.
  assert (T : get nv 1 = Z.b2z (Aig.eval m env 1)).
  { change 1 with Aig.TRUE at 2. rewrite Aig.eval_true by apply B. exact H1. }
  enough (G : Z.of_nat (length nv') = nodes_n s + 1 /\ get nv' 1 = 1 /\
    (forall id, 2 <= id < 2 + (nodes_n s - 1) -> get nv' id = Z.b2z (Aig.eval m env id)) /\
    (forall id, 2 + (nodes_n s - 1) <= id <= nodes_n s -> get nv' id = Z.b2z (env id))).
  { destruct G as (_ & G1 & G & _). destruct (Z.eq_dec id 1) as [-> | Ne]; [congruence | apply G; lia]. }
  apply (fold_seqZ_from (fun n nv' => Z.of_nat (length nv') = nodes_n s + 1 /\ get nv' 1 = 1 /\
    (forall id, 2 <= id < n -> get nv' id = Z.b2z (Aig.eval m env id)) /\ (forall id, n <= id <= nodes_n s -> get nv' id = Z.b2z (env id))));
    [lia | split; [exact HL |]; split; [exact H1 |]; split; [intros i Hi; lia | exact Hv] |].
  intros k y Hk (Ly & Y1 & Yg & Ye). pose proof (bt_children _ _ _ B k ltac:(lia)) as C.
  pose proof (bt_n _ _ _ B) as En. destruct (Aig.is_and_id m k) eqn:Ea.
  - destruct (Aig.children_spec m k _ _ (bt_aig _ _ _ B) Ea (eq_sym C)) as (_ & Rl & Rr & Ev). rewrite (Z.abs_eq k) in Rl, Rr by lia.
    destruct (Z.eqb_spec (get (lefts s) k) 0) as [E0 | _]; [lia |].
    assert (L : forall x, 2 <= Z.abs x < k -> bit y x = Z.b2z (Aig.eval m env x)).
    { intros x Hx. apply bit_lit; [lia | apply Yg; lia]. }
    rewrite !L by assumption. split; [rewrite length_put; exact Ly |].
    split; [rewrite get_put by lia; destruct (Z.eqb_spec 1 k); [lia | exact Y1] |].
    split; intros i Hi; rewrite get_put by lia; destruct (Z.eqb_spec i k) as [-> | Ne]; [| apply Yg; lia | lia | apply Ye; lia].
    rewrite Ev. replace (k <? 0) with false by lia. rewrite xorb_false_l.
    destruct (Aig.eval m env (get (lefts s) k)), (Aig.eval m env (get (rights s) k)); reflexivity.
  - injection C as C _. rewrite C, Z.eqb_refl. split; [exact Ly |]. split; [exact Y1 |]. split; [| intros i Hi; apply Ye; lia].
    intros i Hi. destruct (Z.eq_dec i k) as [-> |]; [| apply Yg; lia]. rewrite Ye by lia.
    rewrite (eval_input m env k (bt_aig _ _ _ B)) by (auto; lia). reflexivity.
Qed.

Lemma model_spec granted m l s : kept m l s -> (forall n, granted n = true) -> has_hit s = true -> (hit_exh s = false -> lane_hit m l s) ->
  let env := env_of s (hit_bits s) in
  exists nv, aigsim_model granted s = Some nv /\ holds m l env = true /\
    forall id, 1 <= id <= nodes_n s -> get nv id = Z.b2z (Aig.eval m env id).
Proof.
  intros K G H L env. unfold env. clear env. pose proof (kp_built _ _ _ K) as B. exists (match aigsim_model granted s with Some nv => nv | None => [] end).
  assert (N1 : 1 <= nodes_n s). { rewrite (bt_n _ _ _ B). pose proof (Aig.valid_true m (bt_aig _ _ _ B)) as V. unfold Aig.valid, Aig.TRUE in V. lia. }
  assert (Hb : forall k, 0 <= k < n_inputs s -> input_bit s k = Z.b2z (hit_bits s k)).
  { intros k Hk. unfold input_bit, hit_bits. destruct (hit_exh s); apply bit_at; [lia | apply Z.mod_pos_bound; lia]. }
  assert (Hh : holds m l (env_of s (hit_bits s)) = true).
  { unfold hit_bits. destruct (hit_exh s) eqn:E; [apply (kp_hit _ _ _ K), E | apply L, eq_refl]. }
  unfold aigsim_model. rewrite H, G. cbn [negb]. rewrite Z.geb_leb. replace (1 <=? nodes_n s) with true by lia.
  set (nv0 := put (replicate _ 0) 1 1).
  assert (L0 : Z.of_nat (length nv0) = nodes_n s + 1) by (unfold nv0; rewrite length_put, length_replicate; lia).
  assert (Z0 : forall id, 0 <= id <= nodes_n s -> get nv0 id = if id =? 1 then 1 else 0).
  { intros id Hid. unfold nv0. rewrite get_put by (rewrite ?length_replicate; lia). destruct (id =? 1); [reflexivity |].
    apply Components.cells_replicate. lia. }
  destruct (inputs_valued m l s (hit_bits s) (input_bit s) nv0 B Hb L0) as (L1 & T1 & V1).
  { intros id Hid. rewrite Z0 by lia. replace (id =? 1) with false by lia. reflexivity. }
  set (nv1 := fold_left _ (seqZ 0 _) nv0) in *. rewrite Z0 in T1 by lia.
  pose proof (gates_valued m l s (env_of s (hit_bits s)) nv1 B L1 T1 V1) as V2. set (nv2 := fold_left _ (seqZ 2 _) nv1) in *. cbv zeta in V2.
  assert (E : forallb (fun a => negb (bit nv2 a =? 0)) (asserts s) = true).
  { rewrite (bt_asserts _ _ _ B). apply forallb_forall. intros x Hx. pose proof (proj1 (forallb_forall _ _) Hh x Hx) as Ex.
    apply list_elem_of_In in Hx. pose proof (proj1 (list.Forall_forall _ _) (bt_valid _ _ _ B) x Hx) as Vx. unfold Aig.valid in Vx.
    rewrite <- (bt_n _ _ _ B) in Vx. rewrite (bit_lit m (env_of s (hit_bits s)) nv2 x), Ex; [reflexivity | lia | apply V2; lia]. }
  rewrite E. split; [reflexivity |]. split; [exact Hh | exact V2].
Qed.

(** ** Building it *)

Lemma fill_children_spec m n : 1 <= n ->
  let '(lf, rt) := fill_children m n in
  forall id, 0 <= id <= n -> (get lf id, get rt id) = if (2 <=? id) && Aig.is_and_id m id then Aig.children_of m id else (0, 0).
Proof.
  intros Hn. unfold fill_children. match goal with |- context [fold_left ?g _ _] => set (f := g) end.
  enough (G : let '(lf, rt) := fold_left f (seqZ 2 (n - 1)) (replicate (Z.to_nat (n + 1)) 0, replicate (Z.to_nat (n + 1)) 0) in
    Z.of_nat (length lf) = n + 1 /\ Z.of_nat (length rt) = n + 1 /\ forall id, 0 <= id <= n ->
    (get lf id, get rt id) = if ((2 <=? id) && (id <? 2 + (n - 1))) && Aig.is_and_id m id then Aig.children_of m id else (0, 0)).
  { destruct (fold_left _ _ _) as [lf rt]. destruct G as (_ & _ & G). intros id Hid. rewrite G by exact Hid.
    replace (id <? 2 + (n - 1)) with true by lia. rewrite andb_true_r. reflexivity. }
  apply (fold_seqZ_from (fun b (st : list Z * list Z) => let '(lf, rt) := st in
    Z.of_nat (length lf) = n + 1 /\ Z.of_nat (length rt) = n + 1 /\ forall id, 0 <= id <= n ->
    (get lf id, get rt id) = if ((2 <=? id) && (id <? b)) && Aig.is_and_id m id then Aig.children_of m id else (0, 0))); [lia | |].
  - rewrite !length_replicate. split; [lia |]. split; [lia |]. intros id Hid. rewrite !Components.cells_replicate by lia.
    replace ((2 <=? id) && (id <? 2)) with false by lia. reflexivity.
  - intros b [lf rt] Hb (Ll & Lr & E). cbn [f]. destruct (Aig.is_and_id m b) eqn:Ea.
    + destruct (Aig.children_of m b) as [x y] eqn:C. rewrite !length_put. split; [exact Ll |]. split; [exact Lr |]. intros id Hid.
      rewrite !get_put by lia. destruct (Z.eqb_spec id b) as [-> | Ne].
      * replace ((2 <=? b) && (b <? b + 1)) with true by lia. rewrite Ea, C. reflexivity.
      * replace ((2 <=? id) && (id <? b + 1)) with ((2 <=? id) && (id <? b)) by lia. apply E, Hid.
    + split; [exact Ll |]. split; [exact Lr |]. intros id Hid. rewrite E by exact Hid. destruct (Z.eq_dec id b) as [-> | Ne].
      * rewrite Ea, !andb_false_r. reflexivity.
      * replace ((2 <=? id) && (id <? b + 1)) with ((2 <=? id) && (id <? b)) by lia. reflexivity.
Qed.

Section Cone.
Context (n : Z) (lf rt : list Z) (Hn : 1 <= n).
Definition is_gate (id : Z) : bool := negb (get lf id =? 0).
Context (Topo : forall id, 2 <= id <= n -> is_gate id = true -> 2 <= Z.abs (get lf id) < id /\ 2 <= Z.abs (get rt id) < id).

(** The marks: what was popped ([seen]) and what waits on the stack. *)
Record marked (slot seen stack : list Z) : Prop := {
  mk_length : Z.of_nat (length slot) = n + 1;
  mk_nodup : NoDup (seen ++ stack);
  mk_range : forall x, x ∈ seen ++ stack -> 2 <= x <= n;
  mk_iff : forall x, 0 <= x <= n -> (get slot x <> 0 <-> x ∈ seen ++ stack) }.
(** The children of what was popped are marked. *)
Definition closed (slot seen : list Z) : Prop := forall x, x ∈ seen -> 2 <= x <= n -> is_gate x = true ->
  get slot (Z.abs (get lf x)) <> 0 /\ get slot (Z.abs (get rt x)) <> 0.

(** What a push does to the marks. *)
Definition more_marks (slot slot' : list Z) : Prop := forall x, 0 <= x <= n -> get slot x <> 0 -> get slot' x <> 0.

Lemma closed_more slot slot' seen : more_marks slot slot' -> closed slot seen -> closed slot' seen.
Proof. intros Mo C x Hx R Gx. destruct (Topo x R Gx). destruct (C x Hx R Gx). split; apply Mo; auto; lia. Qed.

Lemma marks_trans a b c : more_marks a b -> more_marks b c -> more_marks a c.
Proof. intros H1 H2 x Hx Nx. apply H2, H1; auto. Qed.

Lemma marked_perm slot a b a' b' : a ++ b ≡ₚ a' ++ b' -> marked slot a b -> marked slot a' b'.
Proof. intros P [Ml Md Mr Mi]. split; [exact Ml | rewrite <- P; exact Md | intros x; rewrite <- P; apply Mr | intros x; rewrite <- P; apply Mi]. Qed.

Lemma push_mark_spec slot seen stack x : marked slot seen stack -> 1 <= Z.abs x <= n ->
  let '(slot', stack') := push_mark slot stack x in
  marked slot' seen stack' /\ more_marks slot slot' /\ (Z.abs x <> 1 -> get slot' (Z.abs x) <> 0).
Proof.
  intros [Ml Md Mr Mi] Hx. unfold push_mark. rewrite Z.gtb_ltb. destruct (Z.ltb_spec 1 (Z.abs x)) as [Gt | Le]; cbn [andb].
  2:{ split; [split; assumption |]. split; [intros y _; auto | lia]. }
  destruct (Z.eqb_spec (get slot (Z.abs x)) 0) as [E | Ne]; [| split; [split; assumption | split; [intros y _; auto | auto]]].
  assert (G : forall y, 0 <= y <= n -> get (put slot (Z.abs x) 1) y = if y =? Z.abs x then 1 else get slot y) by (intros; apply get_put; lia).
  assert (Mo : more_marks slot (put slot (Z.abs x) 1)) by (intros y Hy Ny; rewrite G by exact Hy; destruct (y =? Z.abs x); [lia | exact Ny]).
  assert (P : seen ++ Z.abs x :: stack ≡ₚ Z.abs x :: seen ++ stack) by (symmetry; apply Permutation_middle).
  split; [| split; [exact Mo |]; intros _; rewrite G, Z.eqb_refl by lia; lia]. split.
  - rewrite length_put. exact Ml.
  - rewrite P. constructor; [| exact Md]. rewrite <- Mi by lia. lia.
  - intros y. rewrite P, elem_of_cons. intros [-> | Hy]; [lia | auto].
  - intros y Hy. rewrite P, elem_of_cons, G by exact Hy. destruct (Z.eqb_spec y (Z.abs x)) as [-> | Ny]; [split; [auto | lia] |].
    rewrite Mi by exact Hy. tauto.
Qed.

Lemma seed_cone_spec l : Forall (fun x => 1 <= Z.abs x <= n) l -> forall slot stack, marked slot [] stack ->
  exists slot' stack', seed_cone n l slot stack = Some (slot', stack') /\ marked slot' [] stack' /\ more_marks slot slot' /\
    forall x, x ∈ l -> Z.abs x <> 1 -> get slot' (Z.abs x) <> 0.
Proof.
  induction 1 as [| x l Hx Hl IH]; intros slot stack M.
  - exists slot, stack. split; [reflexivity |]. split; [exact M |]. split; [intros y _; auto | intros x Hx; inversion Hx].
  - cbn [seed_cone]. replace (Z.abs x >? n) with false by lia. pose proof (push_mark_spec slot [] stack x M Hx) as S.
    destruct (push_mark slot stack x) as [slot1 stack1]. destruct S as (M1 & Mo & Mx). destruct (IH slot1 stack1 M1) as (slot' & stack' & E & M' & Mo' & Ml).
    exists slot', stack'. split; [exact E |]. split; [exact M' |]. split; [intros y Hy Ny; apply Mo', Mo; auto |].
    intros y Hy Ny. apply elem_of_cons in Hy as [-> | Hy]; [apply Mo'; [lia | auto] | auto].
Qed.

Lemma marked_few slot seen stack : marked slot seen stack -> Z.of_nat (length (seen ++ stack)) <= n - 1.
Proof.
  intros M. assert (S : (length (seen ++ stack) <= length (seqZ 2 (n - 1)))%nat).
  { apply submseteq_length, NoDup_submseteq; [apply (mk_nodup _ _ _ M) |]. intros x Hx. apply elem_of_seqZ. apply (mk_range _ _ _ M) in Hx. lia. }
  rewrite length_seqZ in S. lia.
Qed.

Definition count (p : Z -> bool) (l : list Z) : Z := Z.of_nat (length (filter (fun x => p x = true) l)).
Lemma count_cons p x l : count p (x :: l) = (if p x then 1 else 0) + count p l.
Proof. unfold count. rewrite filter_cons. destruct (decide (p x = true)) as [E | E]; [rewrite E; cbn [length]; lia | apply not_true_is_false in E; rewrite E; lia]. Qed.
Definition is_leaf (id : Z) : bool := get lf id =? 0.

Lemma mark_cone_spec fuel : forall slot seen stack, marked slot seen stack -> closed slot seen -> n <= Z.of_nat (length seen + fuel) ->
  exists slot' seen', mark_cone fuel lf rt slot stack (count is_leaf seen) (count is_gate seen) = Some (slot', count is_leaf seen', count is_gate seen') /\
    marked slot' seen' [] /\ closed slot' seen' /\ more_marks slot slot'.
Proof.
  induction fuel as [| fuel IH]; intros slot seen stack M C F; (destruct stack as [| id stack];
    [exists slot, seen; split; [reflexivity |]; split; [exact M |]; split; [exact C | intros y _; auto] |]).
  - pose proof (marked_few _ _ _ M) as Few. rewrite length_app in Few. cbn [length] in Few. lia.
  - cbn [mark_cone]. destruct (mk_range _ _ _ M id) as [R1 R2]; [apply elem_of_app; right; left |].
    apply (marked_perm _ _ _ (id :: seen) stack) in M; [| symmetry; apply Permutation_middle].
    pose proof (count_cons is_leaf id seen) as Cl. pose proof (count_cons is_gate id seen) as Cg. unfold is_leaf at 2 in Cl. unfold is_gate at 2 in Cg.
    destruct (Z.eqb_spec (get lf id) 0) as [E0 | N0]; cbn [negb] in Cg.
    + replace (count is_leaf seen + 1) with (count is_leaf (id :: seen)) by lia. replace (count is_gate seen) with (count is_gate (id :: seen)) by lia. apply IH; [exact M | | cbn [length]; lia].
      intros x Hx Rx Gx. apply elem_of_cons in Hx as [-> | Hx]; [unfold is_gate in Gx; lia | auto].
    + destruct (Topo id (conj R1 R2)) as [Hl Hr]; [unfold is_gate; lia |].
      pose proof (push_mark_spec slot (id :: seen) stack (get lf id) M ltac:(lia)) as S1. destruct (push_mark _ _ _) as [slot1 stack1].
      destruct S1 as (M1 & Mo1 & N1).
      pose proof (push_mark_spec slot1 (id :: seen) stack1 (get rt id) M1 ltac:(lia)) as S2. destruct (push_mark _ _ _) as [slot2 stack2].
      destruct S2 as (M2 & Mo2 & N2). pose proof (marks_trans _ _ _ Mo1 Mo2) as Mo.
      replace (count is_gate seen + 1) with (count is_gate (id :: seen)) by lia. replace (count is_leaf seen) with (count is_leaf (id :: seen)) by lia. destruct (IH slot2 (id :: seen) stack2 M2) as (slot' & seen' & E & M' & C' & Mo'); [| cbn [length]; lia |].
      * intros x Hx Rx Gx. apply elem_of_cons in Hx as [-> | Hx]; [| apply (closed_more slot slot2 seen Mo C x Hx Rx Gx)].
        split; [apply Mo2; [lia | apply N1; lia] | apply N2; lia].
      * exists slot', seen'. split; [exact E |]. split; [exact M' |]. split; [exact C' | exact (marks_trans _ _ _ Mo Mo')].
Qed.

(** The outcome of a numbering loop: the ids taken, ascending, and their slots. *)
Record numbered (base : Z) (take : Z -> bool) (slot0 slot : list Z) (ids : list Z) (bound : Z) : Prop := {
  nb_length : length slot = length slot0;
  nb_in : forall x, x ∈ ids <-> 2 <= x < bound /\ get slot0 x <> 0 /\ take x = true;
  nb_mono : forall i j a c, (i < j)%nat -> ids !! i = Some a -> ids !! j = Some c -> a < c;
  nb_slot : forall i a, ids !! i = Some a -> get slot a = base + Z.of_nat i;
  nb_other : forall x, 0 <= x <= n -> x ∉ ids -> get slot x = get slot0 x }.

Lemma number_spec base take slot0 : Z.of_nat (length slot0) = n + 1 ->
  let '(slot, ids) := fold_left (number base take) (seqZ 2 (n - 1)) (slot0, []) in numbered base take slot0 slot ids (n + 1).
Proof.
  intros HL.
  pose proof (fold_seqZ_from (fun b (st : list Z * list Z) => let '(slot, ids) := st in numbered base take slot0 slot ids b)
    (number base take) (slot0, []) 2 (n - 1)) as F. replace (2 + (n - 1)) with (n + 1) in F by lia. apply F; clear F; [lia | |].
  - split; [reflexivity | | intros i j a c _ E; discriminate | intros i a E; discriminate | reflexivity].
    intros x. split; [intros Hx; inversion Hx | lia].
  - intros b [slot ids] Hb [Nl Ni Nm Ns No]. unfold number.
    assert (Nb : b ∉ ids) by (rewrite Ni; lia). rewrite (No b) by (auto; lia).
    destruct (negb (get slot0 b =? 0) && take b) eqn:E.
    + assert (G : forall x, 0 <= x -> get (put slot b (base + Z.of_nat (length ids))) x = if x =? b then base + Z.of_nat (length ids) else get slot x)
        by (intros x Hx; apply get_put; lia).
      assert (Rg : forall x, x ∈ ids -> 2 <= x < b) by (intros x Hx; apply Ni in Hx; lia).
      split.
      * rewrite length_put. exact Nl.
      * intros x. rewrite elem_of_app, list_elem_of_singleton, Ni. split; [intros [? | ->]; lia |]. intros (R & A & T).
        destruct (Z.eq_dec x b); [auto | left; repeat split; auto; lia].
      * intros i j a c Lt Ea Ec. apply lookup_app_Some in Ec as [Ec | [Gj Ec]].
        { apply (Nm i j a c Lt); [| exact Ec]. rewrite lookup_app_l in Ea; [exact Ea |]. apply lookup_lt_Some in Ec. lia. }
        apply list_lookup_singleton_Some in Ec as [E0 <-]. rewrite lookup_app_l in Ea by lia. apply list_elem_of_lookup_2, Rg in Ea. lia.
      * intros i a Ea. apply lookup_app_Some in Ea as [Ea | [Gi Ea]].
        { pose proof (Rg a (list_elem_of_lookup_2 _ _ _ Ea)). rewrite G by lia. replace (a =? b) with false by lia. apply Ns, Ea. }
        apply list_lookup_singleton_Some in Ea as [E0 <-]. rewrite G, Z.eqb_refl by lia. lia.
      * intros x Hx Nx. rewrite elem_of_app, list_elem_of_singleton in Nx. rewrite G by lia. replace (x =? b) with false by lia. apply No; tauto.
    + split; [exact Nl | | exact Nm | exact Ns | exact No]. intros x. rewrite Ni. split; [lia |]. intros (R & A & T).
      destruct (Z.eq_dec x b) as [-> |]; [rewrite T, andb_true_r in E; lia | repeat split; auto; lia].
Qed.

Lemma numbered_nodup base take slot0 slot ids bound : numbered base take slot0 slot ids bound -> NoDup ids.
Proof.
  intros N. apply NoDup_alt. intros i j a Ei Ej. destruct (Nat.lt_trichotomy i j) as [Lt | [E | Lt]]; [| exact E |].
  - pose proof (nb_mono _ _ _ _ _ _ N i j a a Lt Ei Ej). lia.
  - pose proof (nb_mono _ _ _ _ _ _ N j i a a Lt Ej Ei). lia.
Qed.

(** As many ids as the marking counted. *)
Lemma numbered_count base take slot0 slot ids seen : numbered base take slot0 slot ids (n + 1) ->
  NoDup seen -> (forall x, x ∈ seen -> 2 <= x <= n) -> (forall x, 2 <= x <= n -> (get slot0 x <> 0 <-> x ∈ seen)) ->
  Z.of_nat (length ids) = count take seen.
Proof.
  intros N Sd Sr Si. unfold count. f_equal. apply Permutation_length, NoDup_Permutation; [eapply numbered_nodup; eauto | apply NoDup_filter, Sd |].
  intros x. rewrite (nb_in _ _ _ _ _ _ N), list_elem_of_filter. split.
  - intros (R & A & T). split; [exact T |]. apply Si; [lia | exact A].
  - intros [T S]. pose proof (Sr x S). split; [lia |]. split; [apply Si; auto | exact T].
Qed.

(** Where the two loops and the constant put every marked node. *)
Definition place (ins gs : list Z) (k : Z) : Z :=
  if k =? 0 then 1 else if k <=? Z.of_nat (length ins) then get ins (k - 1) else get gs (k - 1 - Z.of_nat (length ins)).
Record laid (slot0 slot ins gs seen : list Z) : Prop := {
  ly_ni : Z.of_nat (length ins) = count is_leaf seen;
  ly_ng : Z.of_nat (length gs) = count is_gate seen;
  ly_nodup : NoDup ins;
  ly_ins : forall x, x ∈ ins -> 2 <= x <= n /\ is_gate x = false;
  ly_slot : forall x, x = 1 \/ 2 <= x <= n /\ get slot0 x <> 0 ->
    0 <= get slot x < 1 + Z.of_nat (length ins) + Z.of_nat (length gs) /\ place ins gs (get slot x) = x;
  ly_gs : forall i g, gs !! i = Some g -> 2 <= g <= n /\ is_gate g = true /\ get slot0 g <> 0;
  ly_below : forall i g c, gs !! i = Some g -> 2 <= c < g -> get slot0 c <> 0 -> get slot c < 1 + Z.of_nat (length ins) + Z.of_nat i }.

Lemma layout slot0 seen : marked slot0 seen [] ->
  let '(slot1, ins) := fold_left (number 1 is_leaf) (seqZ 2 (n - 1)) (slot0, []) in
  let '(slot2, gs) := fold_left (number (1 + count is_leaf seen) is_gate) (seqZ 2 (n - 1)) (slot1, []) in
  laid slot0 (put slot2 1 0) ins gs seen.
Proof.
  intros [Ml Md Mr Mi]. rewrite app_nil_r in Md, Mr, Mi. pose proof (number_spec 1 is_leaf slot0 Ml) as N1.
  destruct (fold_left _ _ _) as [slot1 ins]. assert (Ml1 : Z.of_nat (length slot1) = n + 1) by (rewrite (nb_length _ _ _ _ _ _ N1); exact Ml).
  pose proof (number_spec (1 + count is_leaf seen) is_gate slot1 Ml1) as N2. destruct (fold_left _ _ _) as [slot2 gs].
  assert (Ni : Z.of_nat (length ins) = count is_leaf seen) by (apply (numbered_count _ _ _ _ _ _ N1 Md Mr); intros; apply Mi; lia).
  assert (S1 : forall x, 2 <= x <= n -> (get slot1 x <> 0 <-> get slot0 x <> 0)).
  { intros x Hx. destruct (decide (x ∈ ins)) as [I | O]; [| rewrite (nb_other _ _ _ _ _ _ N1 x) by (auto; lia); reflexivity].
    pose proof (proj1 (nb_in _ _ _ _ _ _ N1 x) I) as (_ & A & _). apply list_elem_of_lookup in I as (i & I). pose proof (nb_slot _ _ _ _ _ _ N1 i x I). lia. }
  assert (Ng : Z.of_nat (length gs) = count is_gate seen).
  { apply (numbered_count _ _ _ _ _ _ N2 Md Mr). intros x Hx. rewrite S1 by exact Hx. apply Mi. lia. }
  assert (Ins : forall x, x ∈ ins <-> 2 <= x <= n /\ get slot0 x <> 0 /\ is_gate x = false).
  { intros x. rewrite (nb_in _ _ _ _ _ _ N1). unfold is_leaf, is_gate. rewrite negb_false_iff. split; intros (A & C); (split; [lia | exact C]). }
  assert (Gs : forall x, x ∈ gs <-> 2 <= x <= n /\ get slot0 x <> 0 /\ is_gate x = true).
  { intros x. rewrite (nb_in _ _ _ _ _ _ N2). split; intros (A & C & D); (split; [lia |]; split; [apply S1; [lia | exact C] | exact D]). }
  assert (L2 : Z.of_nat (length slot2) = n + 1) by (rewrite (nb_length _ _ _ _ _ _ N2); exact Ml1).
  assert (P : forall x, 2 <= x -> get (put slot2 1 0) x = get slot2 x) by (intros x Hx; rewrite get_put by lia; destruct (Z.eqb_spec x 1); [lia | reflexivity]).
  assert (InAt : forall i x, ins !! i = Some x -> get (put slot2 1 0) x = 1 + Z.of_nat i).
  { intros i x E. pose proof (proj1 (Ins x) (list_elem_of_lookup_2 _ _ _ E)) as (R & _ & G). rewrite P, (nb_other _ _ _ _ _ _ N2); [| lia | | lia].
    - apply (nb_slot _ _ _ _ _ _ N1 i x E).
    - rewrite Gs, G. intros (_ & _ & X). discriminate. }
  assert (GsAt : forall i x, gs !! i = Some x -> get (put slot2 1 0) x = 1 + Z.of_nat (length ins) + Z.of_nat i).
  { intros i x E. pose proof (proj1 (Gs x) (list_elem_of_lookup_2 _ _ _ E)) as (R & _ & _). rewrite P, (nb_slot _ _ _ _ _ _ N2 i x E) by lia. lia. }
  split; [exact Ni | exact Ng | eapply numbered_nodup; exact N1 | intros x Hx; apply Ins in Hx; tauto | | |].
  - intros x [-> | [R A]].
    + rewrite get_put by lia. cbn [Z.eqb Pos.eqb]. split; [lia | reflexivity].
    + destruct (is_gate x) eqn:G.
      * assert (I : x ∈ gs) by (apply Gs; auto). apply list_elem_of_lookup in I as (i & E). pose proof (lookup_lt_Some _ _ _ E).
        rewrite (GsAt i x E). split; [lia |]. unfold place. rewrite (proj2 (Z.eqb_neq _ 0)), (proj2 (Z.leb_gt _ _)) by lia.
        unfold get. replace (Z.to_nat _) with i by lia. rewrite E. reflexivity.
      * assert (I : x ∈ ins) by (apply Ins; auto). apply list_elem_of_lookup in I as (i & E). pose proof (lookup_lt_Some _ _ _ E).
        rewrite (InAt i x E). split; [lia |]. unfold place. rewrite (proj2 (Z.eqb_neq _ 0)), (proj2 (Z.leb_le _ _)) by lia.
        unfold get. replace (Z.to_nat _) with i by lia. rewrite E. reflexivity.
  - intros i g E. pose proof (proj1 (Gs g) (list_elem_of_lookup_2 _ _ _ E)). tauto.
  - intros i g c E Hc A. pose proof (proj1 (Gs g) (list_elem_of_lookup_2 _ _ _ E)) as (R & _). destruct (is_gate c) eqn:G.
    + assert (I : c ∈ gs) by (apply Gs; repeat split; auto; lia). apply list_elem_of_lookup in I as (j & Ej). rewrite (GsAt j c Ej).
      destruct (Nat.lt_trichotomy j i) as [Lt | [-> | Lt]]; [lia | rewrite E in Ej; injection Ej; lia |].
      pose proof (nb_mono _ _ _ _ _ _ N2 i j g c Lt E Ej). lia.
    + assert (I : c ∈ ins) by (apply Ins; repeat split; auto; lia). apply list_elem_of_lookup in I as (j & Ej). rewrite (InAt j c Ej).
      apply lookup_lt_Some in Ej. lia.
Qed.
End Cone.

Lemma pack_sum slot x : pack slot x = 2 * get slot (Z.abs x) + (if x <? 0 then 1 else 0).
Proof. unfold pack. rewrite lor_concat by (try lia; unfold fits; destruct (x <? 0); lia). change (2 ^ 1) with 2. lia. Qed.

Lemma new_kept granted m l : Aig.inv m -> Forall (Aig.valid m) l -> Aig.nodes_size m <= 0x3FFFFFF0 -> (forall n, granted n = true) ->
  exists s, aigsim_new granted m l = Some s /\ kept m l s.
Proof.
  intros I V Nm G. set (n := Aig.nodes_size m) in *.
  assert (Hn : 1 <= n). { pose proof (Aig.valid_true m I) as T. unfold Aig.valid, Aig.TRUE in T. fold n in T. lia. }
  unfold aigsim_new. fold n. rewrite Z.gtb_ltb, (proj2 (Z.eqb_neq n 0)), (proj2 (Z.ltb_ge _ _)), !G by lia. cbn [orb negb andb].
  pose proof (fill_children_spec m n Hn) as Fc. destruct (fill_children m n) as [lf rt].
  assert (Ga : forall id, 2 <= id <= n -> is_gate lf id = Aig.is_and_id m id /\
    (Aig.is_and_id m id = true -> Aig.children_of m id = (get lf id, get rt id) /\ 2 <= Z.abs (get lf id) < id /\ 2 <= Z.abs (get rt id) < id)).
  { intros id Hid. pose proof (Fc id ltac:(lia)) as E. replace (2 <=? id) with true in E by lia. cbn [andb] in E. unfold is_gate.
    destruct (Aig.is_and_id m id) eqn:Ea; [| injection E as -> _; split; [reflexivity | discriminate]].
    destruct (Aig.children_spec m id _ _ I Ea (eq_sym E)) as (_ & R1 & R2 & _). rewrite (Z.abs_eq id) in R1, R2 by lia.
    split; [lia | intros _; split; [symmetry; exact E | auto]]. }
  assert (Topo : forall id, 2 <= id <= n -> is_gate lf id = true -> 2 <= Z.abs (get lf id) < id /\ 2 <= Z.abs (get rt id) < id).
  { intros id Hid Eg. destruct (Ga id Hid) as [E C]. apply C. congruence. }
  destruct (seed_cone_spec n l V (replicate (Z.to_nat (n + 1)) 0) []) as (slot0 & stack0 & -> & M0 & _ & Ml).
  { split; [rewrite length_replicate; lia | constructor | intros x Hx; inversion Hx |]. intros x Hx.
    rewrite Components.cells_replicate by lia. split; [contradiction | intros X; inversion X]. }
  destruct (mark_cone_spec n lf rt Hn Topo (Z.to_nat n) slot0 [] stack0 M0) as (slot & seen & E & M & Cl & Mo);
    [intros x Hx; inversion Hx | cbn [length]; lia |].
  change (count (is_leaf lf) []) with 0 in E. change (count (is_gate lf) []) with 0 in E. rewrite E, !G. cbn [negb andb].
  pose proof (layout n lf Hn slot seen M) as Ly. change (fun id => get lf id =? 0) with (is_leaf lf).
  change (fun id => negb (get lf id =? 0)) with (is_gate lf). destruct (fold_left _ _ (slot, [])) as [slot1 ins].
  destruct (fold_left _ _ (slot1, [])) as [slot2 gs]. set (sl := put slot2 1 0) in *. eexists. split; [reflexivity |].
  match goal with |- kept m l ?x => set (s := x) end. destruct Ly as [Li Lg Ld Lin Ls Lgs Lb].
  assert (Pl : forall k, slot_id s k = place ins gs k) by (intros k; unfold slot_id, place; cbn [n_inputs s]; rewrite <- Li; reflexivity).
  assert (Pk : forall bound x, x <> 0 -> Z.abs x = 1 \/ 2 <= Z.abs x <= n /\ get slot (Z.abs x) <> 0 -> get sl (Z.abs x) < bound ->
    packs s bound (pack sl x) x).
  { intros bound x Nx Hx Lt. split; [exact Nx |]. exists (get sl (Z.abs x)). destruct (Ls _ Hx) as [R Ep].
    split; [lia |]. split; [rewrite Pl; exact Ep | apply pack_sum]. }
  assert (At : forall k, 0 <= k < Z.of_nat (length gs) -> gs !! Z.to_nat k = Some (get gs k)) by (intros; apply get_elem; lia).
  assert (Bt : built m l s).
  { split; cbn [s nodes_n lefts rights inputs n_inputs gate_id ga gb n_gates asl asserts]; auto.
    - intros id Hid. rewrite Fc by lia. replace (2 <=? id) with true by lia. reflexivity.
    - intros x Hx. destruct (Lin x Hx) as [R Eg]. split; [exact R |]. rewrite <- (proj1 (Ga x R)). exact Eg.
    - intros k Hk. pose proof (At k ltac:(lia)) as Ek. destruct (Lgs _ _ Ek) as (R & Eg & Ms). destruct (Ga _ R) as [Ea C].
      rewrite Eg in Ea. destruct (C (eq_sym Ea)) as (Ec & R1 & R2). split; [exact R |]. split; [symmetry; exact Ea |]. rewrite Ec. cbn [fst snd].
      assert (Sg : get gs k ∈ seen). { pose proof (proj1 (mk_iff _ _ _ _ M (get gs k) ltac:(lia)) Ms) as X. rewrite app_nil_r in X. exact X. }
      destruct (Cl _ Sg R Eg) as [C1 C2].
      assert (Gm : forall f : Z -> Z, get (map f gs) k = f (get gs k)) by (intros f; unfold get at 1; rewrite list_lookup_fmap, Ek; reflexivity).
      rewrite !Gm. replace (1 + count (is_leaf lf) seen + k) with (1 + Z.of_nat (length ins) + Z.of_nat (Z.to_nat k)) by lia.
      split; apply Pk; try lia; apply (Lb _ _ _ Ek); auto.
    - apply Forall2_fmap_l. rewrite list.Forall_forall in V. apply Forall_Forall2_diag, list.Forall_forall. intros x Hx.
      pose proof (V x Hx) as Vx. unfold Aig.valid in Vx. fold n in Vx.
      assert (Hx1 : Z.abs x = 1 \/ 2 <= Z.abs x <= n /\ get slot (Z.abs x) <> 0).
      { destruct (Z.eq_dec (Z.abs x) 1) as [| N1]; [auto |]. right. split; [lia |]. apply Mo; [lia |]. apply Ml; auto. }
      apply Pk; [lia | exact Hx1 |]. destruct (Ls _ Hx1). lia. }
  split; [exact Bt | | intros X; discriminate]. unfold s. cbn [val]. split.
  - unfold slots. cbn [n_inputs n_gates]. rewrite length_app, !length_replicate. unfold W. lia.
  - intros w Hw. unfold get. rewrite lookup_app_l by (rewrite length_replicate; unfold W in *; lia). apply get_ones, Hw.
Qed.

(** * The simulator's contract *)

(** A use of the simulator: either kind of run, with any arguments. *)
Inductive use : aigsim -> aigsim -> Prop :=
| use_exhaustive s stop seed : use s (snd (exhaustive s stop seed))
| use_random s blocks seed : use s (snd (random s blocks seed)).

Lemma random_spec m l s blocks seed : kept m l s -> let '(a, s') := random s blocks seed in kept m l s' /\
  match a with SAT => has_hit s' = true /\ lane_hit m l s' | UNSAT => False | UNDECIDED => True end.
Proof. intros K. apply random_passes_spec, K. Qed.

Lemma use_kept m l s s' : kept m l s -> use s s' -> kept m l s'.
Proof.
  intros K U. destruct U as [s stop seed | s blocks seed].
  - pose proof (exhaustive_spec m l s stop seed K) as S. destruct (exhaustive s stop seed). apply S.
  - pose proof (random_spec m l s blocks seed K) as S. destruct (random s blocks seed). apply S.
Qed.

Lemma uses_kept m l s s' : kept m l s -> rtc use s s' -> kept m l s'.
Proof. intros K R. induction R as [| s s1 s2 U _ IH]; [exact K | apply IH, (use_kept m l s); assumption]. Qed.

(** The valuation returned is that of the whole graph under [env], which
    satisfies the assertions. *)
Definition valued (granted : Z -> bool) (m : Aig.aig) (l : list Z) (s : aigsim) (env : Z -> bool) : Prop :=
  Forall (fun a => Aig.eval m env a = true) l /\
  exists nv, aigsim_model granted s = Some nv /\ forall id, 1 <= id <= Aig.nodes_size m -> get nv id = Z.b2z (Aig.eval m env id).

Lemma holds_all m l env : holds m l env = true <-> Forall (fun a => Aig.eval m env a = true) l.
Proof. unfold holds. rewrite forallb_forall, list.Forall_forall. split; intros H x Hx; apply H, list_elem_of_In, Hx. Qed.

Lemma model_valued granted m l s : kept m l s -> (forall n, granted n = true) -> has_hit s = true -> (hit_exh s = false -> lane_hit m l s) ->
  valued granted m l s (env_of s (hit_bits s)).
Proof.
  intros K G H L. destruct (model_spec granted m l s K G H L) as (nv & E & Hh & V). split; [apply holds_all, Hh |].
  exists nv. rewrite <- (bt_n _ _ _ (kp_built _ _ _ K)). auto.
Qed.

(** C27: The simulation decides the assertions.  For a well-formed graph and valid
    assertions the simulator is built, and after any uses of it: a sweep answers
    SAT with the graph's valuation under an assignment that satisfies every
    assertion, the lowest one for seed 0; UNSAT only if no assignment of the
    graph's inputs does; and neither only if it was told to stop or the cone has
    more than 32 inputs.  A random run that answers SAT has such a valuation
    too, and never answers UNSAT. *)
Theorem aigsim_exact granted m l :
  Aig.inv m -> Forall (Aig.valid m) l -> Aig.nodes_size m <= 0x3FFFFFF0 -> (forall n, granted n = true) ->
  exists s0, aigsim_new granted m l = Some s0 /\ forall s, rtc use s0 s ->
    (forall stop seed, let '(a, s') := exhaustive s stop seed in
      match a with
      | SAT => let env x := env_of s' (Z.testbit x) in
          valued granted m l s' (env (hit_index s')) /\
          (seed = 0 -> forall x, 0 <= x < hit_index s' -> x < 2 ^ n_inputs s' -> ~ Forall (fun a => Aig.eval m (env x) a = true) l)
      | UNSAT => forall env, ~ Forall (fun a => Aig.eval m env a = true) l
      | UNDECIDED => 32 < n_inputs s \/ exists b, stop b = true
      end) /\
    (forall blocks seed, let '(a, s') := random s blocks seed in
      match a with SAT => exists env, valued granted m l s' env | UNSAT => False | UNDECIDED => True end).
Proof.
  intros I V Nm G. destruct (new_kept granted m l I V Nm G) as (s0 & E & K0). exists s0. split; [exact E |].
  intros s R. pose proof (uses_kept m l s0 s K0 R) as K. split.
  - intros stop seed. pose proof (exhaustive_spec m l s stop seed K) as S. destruct (exhaustive s stop seed) as [a s'].
    destruct S as [K' [[-> N32] | [_ A]]]; [left; exact N32 |]. destruct a; cbn [sweep_answer] in A; [right; exact A | |].
    + destruct A as [He Lo]. destruct (kp_hit _ _ _ K' He) as [Hh _]. split.
      * pose proof (model_valued granted m l s' K' G Hh ltac:(congruence)) as M. unfold hit_bits in M. rewrite He in M. exact M.
      * intros S0 x Hx Rx F. apply holds_all in F. pose proof (Lo S0 x Hx Rx) as X. unfold sats in X. congruence.
    + intros env F. apply holds_all in F. rewrite (none_holds m l s' (kp_built _ _ _ K') A env) in F. discriminate.
  - intros blocks seed. pose proof (random_spec m l s blocks seed K) as S. destruct (random s blocks seed) as [a s'].
    destruct S as [K' A]. destruct a; auto. destruct A as [Hh L]. exists (env_of s' (hit_bits s')). apply model_valued; auto.
Qed.

Lemma demo_inv : Aig.inv demo_aig.
Proof. unfold demo_aig. apply Aig.reachable_inv, Aig.reach_and; [apply Aig.two_inputs_reachable | apply Aig.two_inputs_valid; lia..]. Qed.
Lemma sim_demo_valid l : forallb (fun x => (1 <=? Z.abs x) && (Z.abs x <=? 4)) l = true -> Forall (Aig.valid demo_aig) l.
Proof.
  intros H. apply list.Forall_forall. intros x Hx. apply list_elem_of_In in Hx. rewrite forallb_forall in H. specialize (H x Hx).
  unfold Aig.valid. change (Aig.nodes_size demo_aig) with 4. lia.
Qed.

Lemma aigsim_exact_witness :
  (forall env, ~ Forall (fun a => Aig.eval demo_aig env a = true) [4; 3]) /\
  exists s, valued (fun _ => true) demo_aig [4] s (env_of s (Z.testbit 1)).
Proof.
  split.
  - destruct (aigsim_exact (fun _ => true) demo_aig [4; 3] demo_inv (sim_demo_valid [4; 3] eq_refl) ltac:(vm_compute; discriminate) (fun _ => eq_refl))
      as (s0 & E & H). destruct (H s0 (rtc_refl _ _)) as [X _]. specialize (X (fun _ => false) 0).
    assert (A : fst (exhaustive s0 (fun _ => false) 0) = UNSAT).
    { pose proof demo_unsat as D. unfold demo_run, demo_sim in D. rewrite E in D. destruct (exhaustive s0 (fun _ => false) 0) as [a s'].
      cbn [fst]. congruence. }
    destruct (exhaustive s0 (fun _ => false) 0) as [a s']. cbn [fst] in A. subst a. exact X.
  - destruct (aigsim_exact (fun _ => true) demo_aig [4] demo_inv (sim_demo_valid [4] eq_refl) ltac:(vm_compute; discriminate) (fun _ => eq_refl))
      as (s0 & E & H). destruct (H s0 (rtc_refl _ _)) as [X _]. specialize (X (fun _ => false) 0).
    pose proof demo_sat as D. unfold demo_run, demo_sim in D. rewrite E in D. destruct (exhaustive s0 (fun _ => false) 0) as [a s'].
    injection D as -> Hi _. cbv zeta in X. rewrite Hi in X. exists s'. exact (proj1 X).
Defined.
End Aigsim.
