(* ===== verification/Mul32.v ===== *)
(** * Mul32: the 32-bit product, quotient and remainder propagators
    (src/src/c/dvs_prop_templates.c)

    Products and quotients are computed on fixed factors only; the constraint is
    settled when the operands are fixed.  Signed division truncates and the
    remainder takes the dividend's sign, as in SystemVerilog. *)

From Stdlib Require Import ZArith Lia ZifyBool Bool Btauto.
From stdpp Require Import base list numbers.
From S2P Require Import Prelude Vars Ctx Store Wide Window.
Import Vars Ctx Store Wide Window.
Open Scope Z_scope.

Module Mul32.

(** ** SystemVerilog division on words *)

Definition i64_min (a b : Z) : Z := if a <? b then a else b.
Definition i64_max (a b : Z) : Z := if a >? b then a else b.
(** C's [/] and [%] truncate; [INT64_MIN / -1] wraps. *)
Definition sv_sdiv64 (a b : Z) : Z := if b =? -1 then s64 (u64 (- a)) else Z.quot a b.
Definition sv_smod64 (a b : Z) : Z := if b =? -1 then 0 else Z.rem a b.
Definition sv_wrap_signed (v w : Z) : Z :=
  if (w =? 0) || (w >=? 64) then v else
  let m := 2 ^ w - 1 in
  let u := Z.land (u64 v) m in
  let u := if Z.testbit u (w - 1) then Z.lor u (u64 (Z.lnot m)) else u in
  s64 u.
Definition sv_fits_signed (v w : Z) : bool :=
  if (w =? 0) || (w >=? 64) then true else
  (v >=? - 2 ^ (w - 1)) && (v <=? 2 ^ (w - 1) - 1).

Lemma s64_u64 z : int64 z -> s64 (u64 z) = z.
Proof.
  intros Hz. rewrite <- (s64_small z Hz) at 2. unfold s64, u64. rewrite Zplus_mod_idemp_l. reflexivity.
Qed.
Lemma sdiv_quot a b : b <> 0 -> int64 (Z.quot a b) -> sv_sdiv64 a b = Z.quot a b.
Proof.
  unfold sv_sdiv64. intros Hb. destruct (Z.eqb_spec b (-1)) as [-> | _]; [| reflexivity].
  replace (Z.quot a (-1)) with (- a); [apply s64_u64 |].
  change (-1) with (- (1)). rewrite Z.quot_opp_r, Z.quot_1_r by lia. reflexivity.
Qed.
Lemma smod_rem a b : b <> 0 -> sv_smod64 a b = Z.rem a b.
Proof.
  unfold sv_smod64. intros Hb. destruct (Z.eqb_spec b (-1)) as [-> | _]; [| reflexivity].
  change (-1) with (- (1)). rewrite Z.rem_opp_r, Z.rem_1_r by lia. reflexivity.
Qed.
(** A value of the width is itself. *)
Lemma wrap_small v w : 1 <= w <= 64 -> - 2 ^ (w - 1) <= v < 2 ^ (w - 1) -> sv_wrap_signed v w = v.
Proof.
  intros Hw Hv. unfold sv_wrap_signed. destruct (Z.eqb_spec w 0); [lia |]. destruct (Z.geb_spec w 64); [reflexivity |].
  cbn [orb]. replace (2 ^ w - 1) with (Z.ones w) by (rewrite Z.ones_equiv; lia).
  assert (Hb : forall i, w - 1 <= i -> Z.testbit v i = (v <? 0)).
  { intros i Hi. destruct (Z.ltb_spec v 0).
    - apply (testbit_neg_high v (w - 1) i); lia.
    - apply (fits_high (w - 1) v i); [unfold fits; lia | lia]. }
  assert (I : int64 v) by (unfold int64; pose proof (Z.pow_le_mono_r 2 (w - 1) 63); lia).
  transitivity (s64 (u64 v)); [f_equal | apply s64_u64, I].
  replace (Z.testbit (Z.land (u64 v) (Z.ones w)) (w - 1)) with (v <? 0)
    by (wordbits; rewrite <- (Hb (w - 1)) by lia; split_cmp; btauto).
  apply Z.bits_inj'. intros i Hi. pose proof (Hb i) as Hbi.
  destruct (v <? 0); wordbits; split_cmp; cbn [andb orb negb]; rewrite ?andb_false_r, ?andb_true_r, ?orb_false_r;
    try reflexivity; rewrite ?Hbi by lia; reflexivity.
Qed.

(** ** Bounds of quotients and remainders *)

Lemma quot_bound r k o l h : r = k * o -> l <= r <= h ->
  (0 < k -> Z.quot l k <= o <= Z.quot h k) /\ (k < 0 -> Z.quot h k <= o <= Z.quot l k).
Proof.
  intros -> Hr. split; intros Hk.
  - replace o with (Z.quot (k * o) k) by (rewrite Z.mul_comm; apply Z.quot_mul; lia).
    split; apply Z.quot_le_mono; lia.
  - replace o with (Z.quot (- (k * o)) (- k)) by (rewrite Z.mul_comm, Z.quot_opp_opp by lia; apply Z.quot_mul; lia).
    rewrite <- (Z.quot_opp_opp h), <- (Z.quot_opp_opp l) by lia. split; apply Z.quot_le_mono; lia.
Qed.
Lemma quot_small a k n : k <> 0 -> - n < a < n -> - n < Z.quot a k < n.
Proof.
  intros Hk Ha. pose proof (Z.quot_abs a k Hk) as E.
  assert (Z.quot (Z.abs a) (Z.abs k) <= Z.abs a) by (apply Z.quot_le_upper_bound; nia). lia.
Qed.
Lemma quot_int32 k a : k <> 0 -> - 2 ^ 31 < a < 2 ^ 31 -> int32 (Z.quot a k).
Proof. intros Hk Ha. pose proof (quot_small a k (2 ^ 31) Hk Ha). unfold int32. lia. Qed.
(** Quotients by a fixed divisor lie between those of the ends. *)
Lemma quot_fixed a l h k : l <= a <= h -> k <> 0 ->
  Z.min (Z.quot l k) (Z.quot h k) <= Z.quot a k <= Z.max (Z.quot l k) (Z.quot h k).
Proof.
  intros Ha Hk. destruct (Z.lt_total k 0) as [N | [? | P]]; [| lia |].
  - rewrite <- (Z.quot_opp_opp a), <- (Z.quot_opp_opp l), <- (Z.quot_opp_opp h) by lia.
    pose proof (Z.quot_le_mono (- a) (- l) (- k)). pose proof (Z.quot_le_mono (- h) (- a) (- k)). lia.
  - pose proof (Z.quot_le_mono l a k). pose proof (Z.quot_le_mono a h k). lia.
Qed.
(** A positive divisor: the larger, the closer to 0. *)
Lemma quot_positive a l h b bl bh : l <= a <= h -> 0 < bl -> bl <= b <= bh ->
  Z.quot l (if l <? 0 then bl else bh) <= Z.quot a b <= Z.quot h (if h >=? 0 then bl else bh).
Proof.
  intros Ha Hb Hr. pose proof (Z.quot_le_mono l a b ltac:(lia) ltac:(lia)). pose proof (Z.quot_le_mono a h b ltac:(lia) ltac:(lia)).
  split.
  - destruct (Z.ltb_spec l 0); [| pose proof (Z.quot_le_compat_l l b bh); lia].
    pose proof (Z.quot_le_compat_l (- l) bl b). rewrite !Z.quot_opp_l in * by lia. lia.
  - destruct (Z.geb_spec h 0); [pose proof (Z.quot_le_compat_l h bl b); lia |].
    pose proof (Z.quot_le_compat_l (- h) b bh). rewrite !Z.quot_opp_l in * by lia. lia.
Qed.
Lemma rem_sign a b : b <> 0 -> (0 <= a -> 0 <= Z.rem a b <= Z.abs b - 1) /\ (a <= 0 -> - (Z.abs b - 1) <= Z.rem a b <= 0).
Proof.
  intros Hb. pose proof (Z.rem_bound_abs a b Hb). split; intros Ha.
  - pose proof (Z.rem_nonneg a b Hb Ha). lia.
  - pose proof (Z.rem_nonpos a b Hb Ha). lia.
Qed.
(** The least number from [l] on, and the greatest up to [h], of a residue. *)
Lemma next_residue a l r b : 0 < b -> l <= a -> a mod b = r -> l + (r - l mod b + b) mod b <= a.
Proof.
  intros Hb Hl <-. replace ((a mod b - l mod b + b) mod b) with ((a - l) mod b).
  - pose proof (Z.mod_le (a - l) b). lia.
  - rewrite <- (Z.mul_1_l b) at 4. rewrite Z.mod_add, Zminus_mod by lia. reflexivity.
Qed.
Lemma prev_residue a h r b : 0 < b -> a <= h -> a mod b = r -> a <= h - (h mod b - r + b) mod b.
Proof.
  intros Hb Hl <-. replace ((h mod b - a mod b + b) mod b) with ((h - a) mod b).
  - pose proof (Z.mod_le (h - a) b). lia.
  - rewrite <- (Z.mul_1_l b) at 4. rewrite Z.mod_add, Zminus_mod by lia. reflexivity.
Qed.

Section Fire32.
Context {C : Type} `{StoreLaws C}.
Implicit Types c : C.

(** [b = r / k] for a fixed factor [k <> 0], the bounds of [r] as they are. *)
Definition mul_by_32 (rid oid : Z) (k : Z) : fire_t :=
  if k >? 0 then
    here (fun c => lb32 rid (s32 (k * vlo c oid))) >>?
    here (fun c => ub32 rid (s32 (k * vhi c oid))) >>?
    here (fun c => lb32 oid (Z.quot (vlo c rid) k)) >>?
    here (fun c => ub32 oid (Z.quot (vhi c rid) k))
  else if k <? 0 then
    here (fun c => lb32 rid (s32 (k * vhi c oid))) >>?
    here (fun c => ub32 rid (s32 (k * vlo c oid))) >>?
    here (fun c => lb32 oid (Z.quot (vhi c rid) k)) >>?
    here (fun c => ub32 oid (Z.quot (vlo c rid) k))
  else ret PROP_OK.

Definition fire_bounds_mul_32 (rid aid bid : Z) : fire_t :=
  here (fun c =>
    if ((vlo c aid =? 0) && (vhi c aid =? 0)) || ((vlo c bid =? 0) && (vhi c bid =? 0)) then
      lb32 rid 0 >>? ub32 rid 0
    else
      (if vlo c aid =? vhi c aid then mul_by_32 rid bid (vlo c aid) else ret PROP_OK) >>?
      here (fun c => if vlo c bid =? vhi c bid then mul_by_32 rid aid (vlo c bid) else ret PROP_OK)).

(** Every product of values in the domains is an [int32_t], and so is every
    quotient of [r]. *)
Definition mul_ready_32 (r a b : Z) c : Prop :=
  wf32 c [r; a; b] /\ - 2 ^ 31 < lo_at c r /\
  forall x y, lo_at c a <= x <= hi_at c a -> lo_at c b <= y <= hi_at c b -> int32 (x * y).
#[export] Instance mul_stable_32 r a b : Stable32 (mul_ready_32 r a b) [r; a; b].
Proof.
  constructor; [intros c W; apply W |]. intros c c' (W & L & P) Sb. split; [apply (wf32_sub c); assumption |].
  pose proof (sub_within c' c _ (wf32_plain _ _ W) Sb) as Wn. unfold within in Wn. split_ids Wn.
  split; [lia |]. intros x y Hx Hy. apply P; lia.
Qed.
(** The same for one fixed factor. *)
Definition by_ready_32 (k r o : Z) c : Prop :=
  wf32 c [r; o] /\ - 2 ^ 31 < lo_at c r /\ forall y, lo_at c o <= y <= hi_at c o -> int32 (k * y).
#[export] Instance by_stable_32 k r o : Stable32 (by_ready_32 k r o) [r; o].
Proof.
  constructor; [intros c W; apply W |]. intros c c' (W & L & P) Sb. split; [apply (wf32_sub c); assumption |].
  pose proof (sub_within c' c _ (wf32_plain _ _ W) Sb) as Wn. unfold within in Wn. split_ids Wn.
  split; [lia |]. intros y Hy. apply P; lia.
Qed.

(** A product with the fixed factor, cut to 32 bits. *)
Lemma by_product k r o c y : by_ready_32 k r o c -> lo_at c o <= y <= hi_at c o -> s32 (k * y) = k * y.
Proof. intros (_ & _ & P) Hy. apply s32_small, P, Hy. Qed.

Lemma mul_by_32_sound R r o k c : by_ready_32 k r o c -> (forall s, in_dom c s -> R s -> s r = k * s o) ->
  sound_from R (mul_by_32 r o k) c.
Proof.
  intros W E. unfold mul_by_32. enter W. destruct (Z.gtb_spec k 0); [| destruct (Z.ltb_spec k 0)].
  all: win_go W.
  all: repeat match goal with |- int32 (Z.quot _ _) => apply quot_int32; [lia |]; windows end.
  all: try match goal with W : by_ready_32 _ _ _ ?c |- - 2 ^ 31 < lo_at ?c _ < _ => destruct W as (_ & L & _); lia end.
  all: try match goal with W : by_ready_32 _ _ _ ?c |- - 2 ^ 31 < hi_at ?c _ < _ => destruct W as (_ & L & _); lia end.
  all: intros s D Rs; around_all; windows; pose proof (E s ltac:(assumption) Rs) as Es.
  all: try (rewrite (by_product _ _ _ _ _ ltac:(eassumption)) by lia; nia).
  all: match goal with |- context [Z.quot (_ ?c ?x) _] =>
    destruct (quot_bound _ _ _ (lo_at c x) (hi_at c x) Es) as [Qp Qn]; lia end.
Qed.

(** At fixed variables the factor's block checks the product. *)
Lemma mul_by_32_pinned wf ids (s : assignment) (P : Prop) r o k c `{!Stable32 wf ids} : pinned wf ids s c ->
  In r ids -> In o ids -> int32 (k * s o) -> - 2 ^ 31 < s r -> k <> 0 -> (s r = k * s o -> P) ->
  decided P (mul_by_32 r o k) c.
Proof.
  intros Pn Ir Io Ip Lr Hk HP. unfold mul_by_32.
  destruct (Z.gtb_spec k 0); [| destruct (Z.ltb_spec k 0); [| lia]].
  all: pin_open_all Pn; pin_go Pn; rewrite ?s32_small in * by exact Ip; try (apply HP; lia).
  all: apply quot_int32; [lia |]; pose proof (proj1 (all_ids_in _ _) (pin_open32 _ _ _ _ Pn) r Ir); cbv beta in *; lia.
Qed.

Lemma mul_32_fulfils r a b :
  fulfils (mul_ready_32 r a b) [r; a; b] (fun s => s r = s a * s b) (fire_bounds_mul_32 r a b).
Proof.
  intros c W. unfold fire_bounds_mul_32. split.
  - enter W. win_go W.
    1, 2: intros s D Rs; around_all; assert (s a = 0 \/ s b = 0) by lia; nia.
    + destruct W as (Nw & L & P). apply mul_by_32_sound.
      * split; [eapply narrow_incl; [exact Nw | cbn; tauto] |]. split; [exact L |]. intros y Hy. apply P; [lia | exact Hy].
      * intros s D Rs. around_all. replace (lo_at c a) with (s a) by lia. exact Rs.
    + destruct W0 as (Nw & L & P). apply mul_by_32_sound.
      * split; [eapply narrow_incl; [exact Nw | cbn; tauto] |]. split; [exact L |].
        intros y Hy. rewrite Z.mul_comm. apply P; [exact Hy | lia].
      * intros s D Rs. around_all. replace (lo_at c0 b) with (s b) by lia. rewrite Rs. apply Z.mul_comm.
  - intros F. apply (pin_start (mul_ready_32 r a b) [r; a; b] _ _ c W F). intros s Pn.
    destruct (pin_at _ _ _ c r Pn ltac:(here_in)), (pin_at _ _ _ c a Pn ltac:(here_in)), (pin_at _ _ _ c b Pn ltac:(here_in)).
    destruct W as (Nw & L & P). pin_open_all Pn. pin_go Pn. apply dec_first. 
    apply (mul_by_32_pinned _ _ s _ r b _ c Pn); try here_in; try lia. apply P; lia.
Qed.

(** ** Quotient *)

(** [((r->flags | a->flags | b->flags) & VAR_SIGNED) != 0] *)
Definition signed_op c (rid aid bid : Z) : bool :=
  negb (Z.land (Z.lor (Z.lor (flags (var_at c rid)) (flags (var_at c aid))) (flags (var_at c bid))) VAR_SIGNED =? 0).

Definition fire_bounds_div_32 (rid aid bid : Z) : fire_t :=
  here (fun c =>
    if signed_op c rid aid bid then
      let blo := lo64 c bid in let bhi := hi64 c bid in
      let alo := lo64 c aid in let ahi := hi64 c aid in
      if negb (blo =? bhi) && (blo >? 0) then
        let rhi := sv_sdiv64 ahi (if ahi >=? 0 then blo else bhi) in
        let rlo := sv_sdiv64 alo (if alo <? 0 then blo else bhi) in
        lb32 rid (s32 rlo) >>? ub32 rid (s32 rhi)
      else if (blo =? bhi) && negb (blo =? 0) then
        let w := width (var_at c rid) in
        if alo =? ahi then
          let q := sv_wrap_signed (sv_sdiv64 alo blo) w in
          lb32 rid (s32 q) >>? ub32 rid (s32 q)
        else
          let q0 := sv_sdiv64 alo blo in
          let q1 := sv_sdiv64 ahi blo in
          if sv_fits_signed q0 w && sv_fits_signed q1 w then
            lb32 rid (s32 (i64_min q0 q1)) >>? ub32 rid (s32 (i64_max q0 q1))
          else ret PROP_OK
      else ret PROP_OK
    else if (vlo c bid =? vhi c bid) && (vlo c bid >? 0) then
      let k := vlo c bid in
      let rlo := Z.quot (vlo c aid) k in
      let rhi := Z.quot (vhi c aid) k in
      let '(rlo, rhi) := if rlo >? rhi then (rhi, rlo) else (rlo, rhi) in
      lb32 rid rlo >>? ub32 rid rhi
    else ret PROP_OK).

(** Every quotient by a divisor other than 0 is a value of [r]'s width, and [r]
    is signed if an operand is. *)
Definition div_ready_32 (r a b : Z) c : Prop :=
  wf32 c [r; a; b] /\
  forall x y, lo_at c a <= x <= hi_at c a -> lo_at c b <= y <= hi_at c b -> y <> 0 ->
    int32 (Z.quot x y) /\
    (signed_op c r a b = true -> - 2 ^ (width (var_at c r) - 1) <= Z.quot x y < 2 ^ (width (var_at c r) - 1)).

Lemma sub_signed_op c c' r a b : sub c' c -> valid c r -> valid c a -> valid c b ->
  signed_op c' r a b = signed_op c r a b.
Proof.
  intros Sb Vr Va Vb. unfold signed_op. destruct (sb_type _ _ Sb r Vr) as [-> _].
  destruct (sb_type _ _ Sb a Va) as [-> _]. destruct (sb_type _ _ Sb b Vb) as [-> _]. reflexivity.
Qed.
Lemma narrow_valid c ids x : wf32 c ids -> In x ids -> valid c x.
Proof. intros W Ix. apply (narrow_at ids c x W Ix). Qed.
#[export] Instance div_stable_32 r a b : Stable32 (div_ready_32 r a b) [r; a; b].
Proof.
  constructor; [intros c W; apply W |]. intros c c' (W & P) Sb. split; [apply (wf32_sub c); assumption |].
  pose proof (sub_within c' c _ (wf32_plain _ _ W) Sb) as Wn. unfold within in Wn. split_ids Wn.
  pose proof (fun x => narrow_valid c _ x W) as V.
  destruct (sb_type _ _ Sb r (V r ltac:(here_in))) as [_ ->].
  rewrite (sub_signed_op c c' r a b Sb) by (apply V; here_in). intros x y Hx Hy. apply P; lia.
Qed.

Lemma width_ok c ids x : ordered false c ids -> In x ids -> 1 <= width (var_at c x) <= 64.
Proof.
  intros W Ix. pose proof (ordered_member false c ids x W Ix) as M. destruct W as [K _].
  apply (gd_width _ (K x (mb_valid _ _ _ M))).
Qed.
Lemma unsigned_nonneg c ids x : ordered false c ids -> In x ids -> is_signed (var_at c x) = false -> 0 <= lo_at c x.
Proof.
  intros W Ix U. pose proof (ordered_member false c ids x W Ix) as M.
  pose proof (gd_lo _ (proj1 W x (mb_valid _ _ _ M))) as L. unfold vmin in L. rewrite U in L. exact L.
Qed.
(** Nothing signed, nothing negative. *)
Lemma unsigned_op c r a b : ordered false c [r; a; b] -> signed_op c r a b = false ->
  0 <= lo_at c r /\ 0 <= lo_at c a /\ 0 <= lo_at c b.
Proof.
  intros W Sg. unfold signed_op in Sg. apply negb_false_iff, Z.eqb_eq in Sg.
  rewrite !Z.land_lor_distr_l, !Z.lor_eq_0_iff in Sg. destruct Sg as [[Sr Sa] Sb].
  repeat split; apply (unsigned_nonneg c _ _ W); try here_in; unfold is_signed; [rewrite Sr | rewrite Sa | rewrite Sb]; reflexivity.
Qed.
(** What the code computes for a quotient it may compute. *)
Lemma div_exact r a b c x y : div_ready_32 r a b c -> lo_at c a <= x <= hi_at c a -> lo_at c b <= y <= hi_at c b -> y <> 0 ->
  sv_sdiv64 x y = Z.quot x y /\ s32 (Z.quot x y) = Z.quot x y /\ int32 (Z.quot x y) /\
  (signed_op c r a b = true -> sv_wrap_signed (Z.quot x y) (width (var_at c r)) = Z.quot x y).
Proof.
  intros (W & P) Hx Hy Ny. destruct (P x y Hx Hy Ny) as [I Q]. split; [apply sdiv_quot, int32_64, I; exact Ny |].
  split; [apply s32_small, I |]. split; [exact I |]. intros Sg. apply wrap_small; [| apply Q, Sg].
  apply (width_ok c _ r (wf32_plain _ _ W)). here_in.
Qed.
Ltac div_exact_at W :=
  repeat match goal with
  | |- context [sv_sdiv64 ?x ?y] =>
      let E1 := fresh in let E2 := fresh in let I := fresh in let E3 := fresh in
      destruct (div_exact _ _ _ _ x y W ltac:(lia) ltac:(lia) ltac:(lia)) as (E1 & E2 & I & E3); rewrite !E1
  end.

Lemma div_32_fulfils r a b :
  fulfils (div_ready_32 r a b) [r; a; b] (fun s => s b = 0 \/ s r = Z.quot (s a) (s b)) (fire_bounds_div_32 r a b).
Proof.
  intros c W. unfold fire_bounds_div_32. split.
  - enter W. win_go W.
    1, 2: intros s D Rs; around_all; windows;
      pose proof (quot_positive (s a) (lo_at c a) (hi_at c a) (s b) (lo_at c b) (hi_at c b));
      destruct (Z.ltb_spec (lo_at c a) 0), (Z.geb_spec (hi_at c a) 0); div_exact_at W; lia.
    1, 2: intros s D Rs; around_all; windows; replace (lo_at c a) with (s a) by lia; replace (lo_at c b) with (s b) by lia;
      destruct (div_exact _ _ _ _ (s a) (s b) W) as (-> & E4 & I4 & E5); try lia; rewrite E5 by assumption; lia.
    1, 2: intros s D Rs; around_all; windows; pose proof (quot_fixed (s a) (lo_at c a) (hi_at c a) (s b));
      replace (lo_at c b) with (s b) by lia; unfold i64_min, i64_max; div_exact_at W;
      destruct (Z.ltb_spec (Z.quot (lo_at c a) (s b)) (Z.quot (hi_at c a) (s b))),
        (Z.gtb_spec (Z.quot (lo_at c a) (s b)) (Z.quot (hi_at c a) (s b))); lia.
    assert (Q : Z.quot (lo_at c a) (lo_at c b) <= Z.quot (hi_at c a) (lo_at c b)) by (windows; apply Z.quot_le_mono; lia).
    destruct (Z.gtb_spec (Z.quot (lo_at c a) (lo_at c b)) (Z.quot (hi_at c a) (lo_at c b))); [lia |].
    windows. destruct (div_exact _ _ _ _ (lo_at c a) (lo_at c b) W) as (_ & _ & I1 & _); try lia.
    destruct (div_exact _ _ _ _ (hi_at c a) (lo_at c b) W) as (_ & _ & I2 & _); try lia.
    win_go W; try assumption.
    all: intros s D Rs; around_all; pose proof (quot_fixed (s a) (lo_at c a) (hi_at c a) (s b));
      replace (lo_at c b) with (s b) in * by lia; lia.
  - intros F. apply (pin_start (div_ready_32 r a b) [r; a; b] _ _ c W F). intros s Pn.
    destruct (pin_at _ _ _ c r Pn ltac:(here_in)), (pin_at _ _ _ c a Pn ltac:(here_in)), (pin_at _ _ _ c b Pn ltac:(here_in)).
    destruct (Z.eq_dec (s b) 0) as [Zb | Nb]; [apply dec_true; left; exact Zb |].
    destruct (div_exact _ _ _ _ (s a) (s b) W ltac:(lia) ltac:(lia) Nb) as (E1 & E2 & I & E3).
    pose proof (unsigned_op c r a b (wf32_plain _ _ (proj1 W))) as Un.
    pin_go Pn.
    + rewrite E1, E3 in * by reflexivity. lia.
    + rewrite Z.gtb_ltb, Z.ltb_irrefl. cbv iota. pin_go Pn.
Qed.

(** ** Remainder *)

Definition fire_bounds_mod_32 (rid aid bid : Z) : fire_t :=
  here (fun c =>
    if signed_op c rid aid bid then
      let alo := lo64 c aid in let ahi := hi64 c aid in
      let blo := lo64 c bid in let bhi := hi64 c bid in
      (if (blo =? bhi) && negb (blo =? 0) then
         let absb := if blo <? 0 then - blo else blo in
         let r_lo := if alo >=? 0 then 0 else - (absb - 1) in
         let r_hi := if ahi <=? 0 then 0 else absb - 1 in
         lb32 rid (s32 r_lo) >>? ub32 rid (s32 r_hi)
       else ret PROP_OK) >>?
      (if (alo =? ahi) && (blo =? bhi) && negb (blo =? 0) then
         let val := s32 (sv_smod64 alo blo) in
         lb32 rid val >>? ub32 rid val
       else ret PROP_OK)
    else
      (if (vlo c bid =? vhi c bid) && (vlo c bid >? 0) then
         lb32 rid 0 >>? ub32 rid (s32 (vlo c bid - 1))
       else ret PROP_OK) >>?
      here (fun c =>
        if (vlo c aid =? vhi c aid) && (vlo c bid =? vhi c bid) && (vlo c bid >? 0) then
          let val := Z.rem (vlo c aid) (vlo c bid) in
          let val := if val <? 0 then s32 (val + vlo c bid) else val in
          lb32 rid val >>? ub32 rid val
        else ret PROP_OK) >>?
      here (fun c =>
        if (vlo c rid =? vhi c rid) && (vlo c bid =? vhi c bid) && (vlo c bid >? 0) then
          let r_val := vlo c rid in
          let b_val := vlo c bid in
          let cur_lo := vlo c aid in
          let cur_hi := vhi c aid in
          let rem := Z.rem cur_lo b_val in
          let rem := if rem <? 0 then s32 (rem + b_val) else rem in
          let new_lo := s32 (cur_lo + s32 (Z.rem (r_val - rem + b_val) b_val)) in
          if new_lo >? cur_hi then ret PROP_CONFLICT else
          lb32 aid new_lo >>?
          (let rem := Z.rem cur_hi b_val in
           let rem := if rem <? 0 then s32 (rem + b_val) else rem in
           let new_hi := s32 (cur_hi - s32 (Z.rem (rem - r_val + b_val) b_val)) in
           if new_hi <? new_lo then ret PROP_CONFLICT else ub32 aid new_hi)
        else ret PROP_OK)).

(** The next number of a residue class is still an [int32_t]. *)
Definition mod_ready_32 (r a b : Z) c : Prop :=
  wf32 c [r; a; b] /\ (signed_op c r a b = false -> hi_at c a + hi_at c b <= 2 ^ 31).
#[export] Instance mod_stable_32 r a b : Stable32 (mod_ready_32 r a b) [r; a; b].
Proof.
  constructor; [intros c W; apply W |]. intros c c' (W & P) Sb. split; [apply (wf32_sub c); assumption |].
  pose proof (sub_within c' c _ (wf32_plain _ _ W) Sb) as Wn. unfold within in Wn. split_ids Wn.
  pose proof (fun x => narrow_valid c _ x W) as V.
  rewrite (sub_signed_op c c' r a b Sb) by (apply V; here_in). lia.
Qed.

(** What the code computes on non-negative operands. *)
Lemma fix_rem l k : 0 <= l -> 0 < k -> (if Z.rem l k <? 0 then s32 (Z.rem l k + k) else Z.rem l k) = l mod k.
Proof.
  intros Hl Hk. rewrite Z.rem_mod_nonneg by lia. pose proof (Z.mod_pos_bound l k).
  destruct (Z.ltb_spec (l mod k) 0); [lia | reflexivity].
Qed.
Lemma step_residue x k : 0 < k < 2 ^ 31 -> 0 <= x -> s32 (Z.rem x k) = x mod k /\ 0 <= x mod k < k.
Proof.
  intros Hk Hx. rewrite Z.rem_mod_nonneg by lia. pose proof (Z.mod_pos_bound x k).
  rewrite s32_small by (unfold int32; lia). lia.
Qed.

Lemma mod_32_signed r a b c : mod_ready_32 r a b c -> signed_op c r a b = true ->
  sound_from (fun s => s b = 0 \/ s r = Z.rem (s a) (s b)) (fire_bounds_mod_32 r a b) c.
Proof.
  intros W E. unfold fire_bounds_mod_32. apply sound_here. rewrite E. enter W. cbv zeta. reads. win_go W.
  all: intros s D Rs; around_all; windows; pose proof (rem_sign (s a) (s b)).
  1, 2: destruct (Z.ltb_spec (lo_at c b) 0), (Z.geb_spec (lo_at c a) 0), (Z.leb_spec (hi_at c a) 0);
    rewrite s32_small by (unfold int32; lia); lia.
  1, 2: replace (lo_at c a) with (s a) by lia; replace (lo_at c b) with (s b) by lia;
    rewrite smod_rem, s32_small by (unfold int32; lia); lia.
Qed.
(** The bounds of a residue class. *)
Lemma class_bounds l h k v a : 0 <= l <= a -> a <= h < 2 ^ 31 -> 0 < k < 2 ^ 31 -> l + k <= 2 ^ 31 -> a mod k = v ->
  s32 (l + s32 (Z.rem (v - l mod k + k) k)) <= a <= s32 (h - s32 (Z.rem (h mod k - v + k) k)).
Proof.
  intros Hl Hh Hk Hlk Ev. pose proof (next_residue a l v k). pose proof (prev_residue a h v k).
  pose proof (Z.mod_pos_bound a k). pose proof (Z.mod_pos_bound l k). pose proof (Z.mod_pos_bound h k).
  destruct (step_residue (v - l mod k + k) k) as [-> ?]; try lia.
  destruct (step_residue (h mod k - v + k) k) as [-> ?]; try lia.
  rewrite !s32_small by (unfold int32; lia). lia.
Qed.

Lemma mod_32_unsigned r a b c : mod_ready_32 r a b c -> signed_op c r a b = false ->
  sound_from (fun s => s b = 0 \/ s r = Z.rem (s a) (s b)) (fire_bounds_mod_32 r a b) c.
Proof.
  intros W E. unfold fire_bounds_mod_32. apply sound_here. rewrite E. enter W.
  destruct (unsigned_op c r a b ltac:(assumption) E) as (Pr & Pa & Pb). pose proof (proj2 W E) as Rm. reads. win_go W.
  all: windows; withins; rewrite ?fix_rem in * by lia.
  all: try (unfold int32; pose proof (Z.mod_pos_bound (lo_at c0 a) (lo_at c0 b)); lia).
  all: intros s D; around_all; try (intros Rs);
    assert (Pb' : 0 < s b) by lia; rewrite (Z.rem_mod_nonneg (s a) (s b)) in * by lia;
    pose proof (Z.mod_pos_bound (s a) (s b) Pb').
  1: rewrite ?s32_small by (unfold int32; lia); lia.
  1, 2: replace (lo_at c0 a) with (s a) by lia; replace (lo_at c0 b) with (s b) by lia; lia.
  all: replace (lo_at c1 b) with (s b) in * by lia; replace (lo_at c1 r) with (s r) in * by lia;
    destruct (class_bounds (lo_at c1 a) (hi_at c1 a) (s b) (s r) (s a)); lia.
Qed.

Lemma mod_32_fulfils r a b :
  fulfils (mod_ready_32 r a b) [r; a; b] (fun s => s b = 0 \/ s r = Z.rem (s a) (s b)) (fire_bounds_mod_32 r a b).
Proof.
  intros c W. split.
  - destruct (signed_op c r a b) eqn:E; [apply mod_32_signed | apply mod_32_unsigned]; assumption.
  - intros F. apply (pin_start (mod_ready_32 r a b) [r; a; b] _ _ c W F). intros s Pn. pin_open_all Pn.
    destruct (pin_at _ _ _ c r Pn ltac:(here_in)), (pin_at _ _ _ c a Pn ltac:(here_in)), (pin_at _ _ _ c b Pn ltac:(here_in)).
    destruct (Z.eq_dec (s b) 0) as [Zb | Nb]; [apply dec_true; left; exact Zb |].
    pose proof (unsigned_op c r a b (wf32_plain _ _ (proj1 W))) as Un. pose proof (rem_sign (s a) (s b) Nb).
    unfold fire_bounds_mod_32. pin_go Pn.
    + rewrite smod_rem, s32_small in * by (unfold int32; lia). lia.
    + unfold int32. destruct (Z.ltb_spec (Z.rem (s a) (s b)) 0); lia.
    + unfold int32. destruct (Z.ltb_spec (Z.rem (s a) (s b)) 0); lia.
    + destruct (Z.ltb_spec (Z.rem (s a) (s b)) 0); lia.
Qed.
End Fire32.
End Mul32.
