(* ===== verification/Mul64.v ===== *)
(** * Mul64: the 64-bit product, quotient and remainder propagators
    (src/src/c/dvs_prop_templates.c)

    The 64-bit counterparts of [Mul32], over variables whose patterns are their
    values.  A product that leaves 64 bits is not applied as a bound; quotients
    and remainders also bound the result by a range of divisors. *)

From Stdlib Require Import ZArith Lia ZifyBool Bool.
From stdpp Require Import base list numbers.
From S2P Require Import Prelude Vars Ctx Store Wide Window Mul32.
Import Vars Ctx Store Wide Window Mul32.
Open Scope Z_scope.

Module Mul64.

(** [_mul64_overflow(a, b, &out)]: the answer and [out], which is read only
    where the answer is 0. *)
Definition mul64_overflow (a b : Z) : bool * Z :=
  if (a =? 0) || (b =? 0) then (false, 0)
  else (negb ((- 2 ^ 63 <=? a * b) && (a * b <? 2 ^ 63)), s64 (a * b)).

Lemma mul64_spec a b : if fst (mul64_overflow a b) then ~ int64 (a * b)
  else snd (mul64_overflow a b) = a * b /\ int64 (a * b).
Proof.
  unfold mul64_overflow. destruct (Z.eqb_spec a 0) as [-> | _]; [cbn; unfold int64; lia |].
  destruct (Z.eqb_spec b 0) as [-> | _]; [cbn; rewrite Z.mul_0_r; unfold int64; lia |]. cbn [orb fst snd].
  destruct (negb _) eqn:E; [unfold int64; lia |]. assert (int64 (a * b)) by (unfold int64; lia).
  split; [apply s64_small |]; assumption.
Qed.

Section Fire64.
Context {C : Type} `{StoreLaws C}.
Implicit Types c : C.

(** One fixed factor [k]; the other, [oid], was in [olo..ohi] at the start. *)
Definition mul_by_64 (rid oid k olo ohi : Z) : fire_t :=
  (if k >? 0 then
     (if fst (mul64_overflow k olo) then ret PROP_OK else lb64 rid (snd (mul64_overflow k olo))) >>?
     (if fst (mul64_overflow k ohi) then ret PROP_OK else ub64 rid (snd (mul64_overflow k ohi))) >>?
     here (fun c =>
       let rlo := lo64 c rid in let rhi := hi64 c rid in
       lb64 oid (Z.quot rlo k) >>? ub64 oid (Z.quot rhi k))
   else if k <? 0 then
     (if fst (mul64_overflow k ohi) then ret PROP_OK else lb64 rid (snd (mul64_overflow k ohi))) >>?
     (if fst (mul64_overflow k olo) then ret PROP_OK else ub64 rid (snd (mul64_overflow k olo))) >>?
     here (fun c =>
       let rlo := lo64 c rid in let rhi := hi64 c rid in
       lb64 oid (Z.quot rhi k) >>? ub64 oid (Z.quot rlo k))
   else ret PROP_OK) >>?
  (if k =? 0 then lb64 rid 0 >>? ub64 rid 0 else ret PROP_OK).

Definition fire_bounds_mul_64 (rid aid bid : Z) : fire_t :=
  here (fun c =>
    let alo := lo64 c aid in let ahi := hi64 c aid in
    let blo := lo64 c bid in let bhi := hi64 c bid in
    (if alo =? ahi then mul_by_64 rid bid alo blo bhi else ret PROP_OK) >>?
    (if blo =? bhi then mul_by_64 rid aid blo alo ahi else ret PROP_OK)).

(** No quotient of [r] by -1 overflows. *)
Definition mul_ready_64 (r a b : Z) c : Prop := ordered false c [r; a; b] /\ - 2 ^ 63 < lo_at c r.
#[export] Instance mul_stable_64 r a b : Stable (mul_ready_64 r a b) [r; a; b].
Proof.
  constructor; [intros c W; apply W |]. intros c c' (W & L) Sb. split; [apply (ordered_sub false c); assumption |].
  pose proof (sub_within c' c _ W Sb) as Wn. unfold within in Wn. split_ids Wn. lia.
Qed.

Lemma quot_int64 k a : k <> 0 -> - 2 ^ 63 < a < 2 ^ 63 -> int64 (Z.quot a k).
Proof. intros Hk Ha. pose proof (quot_small a k (2 ^ 63) Hk Ha). unfold int64. lia. Qed.
(** A quotient that gives the factor back leaves no room for a larger product. *)
Lemma quot_product n k o : k <> 0 -> Z.quot n k = o -> Z.abs (k * o) <= Z.abs n.
Proof.
  intros Hk <-. rewrite Z.abs_mul, <- Z.quot_abs by exact Hk.
  apply (Z.mul_quot_le (Z.abs n) (Z.abs k)); lia.
Qed.

Ltac products :=
  repeat match goal with
  | E : fst (mul64_overflow ?x ?y) = ?v |- _ =>
      let P := fresh "P" in pose proof (mul64_spec x y) as P; rewrite E in P; clear E;
      first [destruct P as [P ?]; rewrite P in * | idtac]
  end.
Lemma mul_ends k o l h : l <= o <= h ->
  (0 < k -> k * l <= k * o <= k * h) /\ (k < 0 -> k * h <= k * o <= k * l) /\ (k = 0 -> k * o = 0).
Proof. intros Ho. split; [| split]; intros Hk; nia. Qed.
Lemma mul_by_64_sound R r a b o k olo ohi c : mul_ready_64 r a b c -> In o [r; a; b] ->
  (forall s, in_dom c s -> R s -> s r = k * s o /\ olo <= s o <= ohi) ->
  sound_from R (mul_by_64 r o k olo ohi) c.
Proof.
  intros W Io E. unfold mul_by_64. enter W. win_go W.
  all: products; try assumption; windows.
  all: try (apply quot_int64; [lia |];
    repeat match goal with W : mul_ready_64 _ _ _ ?c |- _ => destruct W as (_ & ?) end; lia).
  all: intros s D Rs; around_all; destruct (E s ltac:(assumption) Rs) as [Es Eo];
    destruct (mul_ends k (s o) olo ohi Eo) as (Mp & Mn & M0); try lia.
  all: match goal with |- context [Z.quot (_ ?c ?x) _] =>
    destruct (quot_bound _ _ _ (lo_at c x) (hi_at c x) Es) as [Qp Qn]; lia end.
Qed.

Lemma mul_by_64_pinned wf ids (s : assignment) (P : Prop) r o k c `{!Stable wf ids} : pinned wf ids s c ->
  In r ids -> In o ids -> - 2 ^ 63 < s r < 2 ^ 63 -> (s r = k * s o -> P) ->
  decided P (mul_by_64 r o k (s o) (s o)) c.
Proof.
  intros Pn Ir Io Lr HP. unfold mul_by_64.
  assert (Q : k <> 0 -> fst (mul64_overflow k (s o)) = true -> Z.quot (s r) k <> s o).
  { intros Hk Ov E. apply quot_product in E; [| exact Hk]. pose proof (mul64_spec k (s o)) as M. rewrite Ov in M.
    unfold int64 in M. lia. }
  destruct (mul_ends k (s o) (s o) (s o) ltac:(lia)) as (_ & _ & M0).
  pin_go Pn; products; try assumption; try (apply quot_int64; lia); apply HP; lia.
Qed.

Lemma mul_64_fulfils r a b :
  fulfils (mul_ready_64 r a b) [r; a; b] (fun s => s r = s a * s b) (fire_bounds_mul_64 r a b).
Proof.
  intros c W. unfold fire_bounds_mul_64. split.
  - enter W. apply sound_here. cbv zeta. reads. win_go W.
    + apply (mul_by_64_sound _ r a b); [exact W | here_in |]. intros s D Rs. around_all.
      replace (lo_at c a) with (s a) by lia. lia.
    + apply (mul_by_64_sound _ r a b); [exact W0 | here_in |]. intros s D Rs. around_all.
      replace (lo_at c b) with (s b) by lia. lia.
  - intros F. apply (pin_start (mul_ready_64 r a b) [r; a; b] _ _ c W F). intros s Pn. pin_open_all Pn.
    destruct (pin_at _ _ _ c r Pn ltac:(here_in)). destruct W as [_ L].
    pin_go Pn. apply dec_first. apply (mul_by_64_pinned _ _ s _ r b _ c Pn); try here_in; try lia.
Qed.

(** ** Quotient *)

Definition fire_bounds_div_64 (rid aid bid : Z) : fire_t :=
  here (fun c =>
    let sg := signed_op c rid aid bid in
    let blo := lo64 c bid in let bhi := hi64 c bid in
    let alo := lo64 c aid in let ahi := hi64 c aid in
    if sg && (blo =? bhi) && negb (blo =? 0) then
      let w := width (var_at c rid) in
      if alo =? ahi then
        let q := sv_wrap_signed (sv_sdiv64 alo blo) w in
        lb64 rid q >>? ub64 rid q
      else
        let q0 := sv_sdiv64 alo blo in
        let q1 := sv_sdiv64 ahi blo in
        if sv_fits_signed q0 w && sv_fits_signed q1 w then
          lb64 rid (i64_min q0 q1) >>? ub64 rid (i64_max q0 q1)
        else ret PROP_OK
    else if sg && (blo >? 0) then
      let rhi := sv_sdiv64 ahi (if ahi >=? 0 then blo else bhi) in
      let rlo := sv_sdiv64 alo (if alo <? 0 then blo else bhi) in
      lb64 rid rlo >>? ub64 rid rhi
    else if negb sg && (blo =? bhi) && negb (blo =? 0) then
      let rlo := if blo >? 0 then Z.quot alo blo else Z.quot ahi blo in
      let rhi := if blo >? 0 then Z.quot ahi blo else Z.quot alo blo in
      if rlo >? rhi then lb64 rid rhi >>? ub64 rid rlo else lb64 rid rlo >>? ub64 rid rhi
    else if negb sg && (blo >? 0) then
      lb64 rid (Z.quot alo bhi) >>? ub64 rid (Z.quot ahi blo)
    else ret PROP_OK).

(** Every quotient by a divisor other than 0 is an [int64_t], and a value of
    [r]'s width if an operand is signed. *)
Definition div_ready_64 (r a b : Z) c : Prop :=
  ordered false c [r; a; b] /\
  forall x y, lo_at c a <= x <= hi_at c a -> lo_at c b <= y <= hi_at c b -> y <> 0 ->
    int64 (Z.quot x y) /\
    (signed_op c r a b = true -> - 2 ^ (width (var_at c r) - 1) <= Z.quot x y < 2 ^ (width (var_at c r) - 1)).
#[export] Instance div_stable_64 r a b : Stable (div_ready_64 r a b) [r; a; b].
Proof.
  constructor; [intros c W; apply W |]. intros c c' (W & P) Sb. split; [apply (ordered_sub false c); assumption |].
  pose proof (sub_within c' c _ W Sb) as Wn. unfold within in Wn. split_ids Wn.
  pose proof (fun x Hx => mb_valid _ _ _ (ordered_member false c _ x W Hx)) as V.
  destruct (sb_type _ _ Sb r (V r ltac:(here_in))) as [_ ->].
  rewrite (sub_signed_op c c' r a b Sb) by (apply V; here_in). intros x y Hx Hy. apply P; lia.
Qed.
(** What the code computes for a quotient it may compute. *)
Lemma div_exact_64 r a b c x y : div_ready_64 r a b c -> lo_at c a <= x <= hi_at c a -> lo_at c b <= y <= hi_at c b -> y <> 0 ->
  sv_sdiv64 x y = Z.quot x y /\ int64 (Z.quot x y) /\
  (signed_op c r a b = true -> sv_wrap_signed (Z.quot x y) (width (var_at c r)) = Z.quot x y).
Proof.
  intros (W & P) Hx Hy Ny. destruct (P x y Hx Hy Ny) as [I Q]. split; [apply sdiv_quot, I; exact Ny |].
  split; [exact I |]. intros Sg. apply wrap_small; [| apply Q, Sg].
  apply (width_ok c _ r W). here_in.
Qed.
Ltac div_exact_64_at W :=
  repeat match goal with
  | |- context [sv_sdiv64 ?x ?y] =>
      let E1 := fresh in let I := fresh in let E3 := fresh in
      destruct (div_exact_64 _ _ _ _ x y W ltac:(lia) ltac:(lia) ltac:(lia)) as (E1 & I & E3); rewrite !E1
  end.

(** The two branches over a fixed divisor and the two over a range. *)
Lemma div_64_signed r a b c : div_ready_64 r a b c -> signed_op c r a b = true ->
  sound_from (fun s => s b = 0 \/ s r = Z.quot (s a) (s b)) (fire_bounds_div_64 r a b) c.
Proof.
  intros W Sg. unfold fire_bounds_div_64. enter W. apply sound_here. cbv zeta. rewrite Sg. cbn [andb negb].
  reads. win_go W. all: windows.
  - destruct (div_exact_64 _ _ _ _ (lo_at c a) (lo_at c b) W) as (-> & I & E3); try lia. rewrite E3 by lia. exact I.
  - intros s D Rs. around_all. replace (lo_at c a) with (s a) by lia. replace (lo_at c b) with (s b) by lia.
    destruct (div_exact_64 _ _ _ _ (s a) (s b) W) as (-> & I & E3); lia.
  - destruct (div_exact_64 _ _ _ _ (lo_at c a) (lo_at c b) W) as (-> & I & E3); try lia. rewrite E3 by lia. exact I.
  - intros s D Rs. around_all. replace (lo_at c a) with (s a) by lia. replace (lo_at c b) with (s b) by lia.
    destruct (div_exact_64 _ _ _ _ (s a) (s b) W) as (-> & I & E3); lia.
  - unfold i64_min. div_exact_64_at W. destruct (_ <? _); assumption.
  - intros s D Rs. around_all. pose proof (quot_fixed (s a) (lo_at c a) (hi_at c a) (s b)).
    replace (lo_at c b) with (s b) by lia. unfold i64_min. div_exact_64_at W. destruct (Z.ltb_spec (Z.quot (lo_at c a) (s b)) (Z.quot (hi_at c a) (s b))); lia.
  - unfold i64_max. div_exact_64_at W. destruct (_ >? _); assumption.
  - intros s D Rs. around_all. pose proof (quot_fixed (s a) (lo_at c a) (hi_at c a) (s b)).
    replace (lo_at c b) with (s b) by lia. unfold i64_max. div_exact_64_at W. destruct (Z.gtb_spec (Z.quot (lo_at c a) (s b)) (Z.quot (hi_at c a) (s b))); lia.
  - destruct (Z.ltb_spec (lo_at c a) 0); div_exact_64_at W; assumption.
  - intros s D Rs. around_all. pose proof (quot_positive (s a) (lo_at c a) (hi_at c a) (s b) (lo_at c b) (hi_at c b)).
    destruct (Z.ltb_spec (lo_at c a) 0); div_exact_64_at W; lia.
  - destruct (Z.geb_spec (hi_at c a) 0); div_exact_64_at W; assumption.
  - intros s D Rs. around_all. pose proof (quot_positive (s a) (lo_at c a) (hi_at c a) (s b) (lo_at c b) (hi_at c b)).
    destruct (Z.geb_spec (hi_at c a) 0); div_exact_64_at W; lia.
Qed.
Lemma div_64_unsigned r a b c : div_ready_64 r a b c -> signed_op c r a b = false ->
  sound_from (fun s => s b = 0 \/ s r = Z.quot (s a) (s b)) (fire_bounds_div_64 r a b) c.
Proof.
  intros W Sg. destruct (unsigned_op c r a b (proj1 W) Sg) as (Pr & Pa & Pb).
  unfold fire_bounds_div_64. enter W. apply sound_here. cbv zeta. rewrite Sg. cbn [andb negb]. reads. windows.
  assert (Q : 0 < lo_at c b -> Z.quot (lo_at c a) (lo_at c b) <= Z.quot (hi_at c a) (lo_at c b)) by (intros; apply Z.quot_le_mono; lia).
  assert (Qi : forall x y, lo_at c a <= x <= hi_at c a -> lo_at c b <= y <= hi_at c b -> 0 < y -> int64 (Z.quot x y)).
  { intros x y Hx Hy Py. apply (div_exact_64 _ _ _ _ x y W); lia. }
  destruct (Z.gtb_spec (lo_at c b) 0) as [Pb' | Nb]; [| replace (lo_at c b) with 0 by lia; rewrite andb_false_r; win_go W].
  destruct (Z.gtb_spec (Z.quot (lo_at c a) (lo_at c b)) (Z.quot (hi_at c a) (lo_at c b))); [lia |].
  win_go W; try (apply Qi; lia).
  all: intros s D Rs; around_all; pose proof (quot_positive (s a) (lo_at c a) (hi_at c a) (s b) (lo_at c b) (hi_at c b));
    destruct (Z.ltb_spec (lo_at c a) 0), (Z.geb_spec (hi_at c a) 0); try lia.
  all: replace (hi_at c b) with (lo_at c b) in * by lia; lia.
Qed.

Lemma div_64_fulfils r a b :
  fulfils (div_ready_64 r a b) [r; a; b] (fun s => s b = 0 \/ s r = Z.quot (s a) (s b)) (fire_bounds_div_64 r a b).
Proof.
  intros c W. split.
  - destruct (signed_op c r a b) eqn:E; [apply div_64_signed | apply div_64_unsigned]; assumption.
  - intros F. apply (pin_start (div_ready_64 r a b) [r; a; b] _ _ c W F). intros s Pn.
    destruct (pin_at _ _ _ c r Pn ltac:(here_in)), (pin_at _ _ _ c a Pn ltac:(here_in)), (pin_at _ _ _ c b Pn ltac:(here_in)).
    destruct (Z.eq_dec (s b) 0) as [Zb | Nb]; [apply dec_true; left; exact Zb |].
    destruct (div_exact_64 _ _ _ _ (s a) (s b) W ltac:(lia) ltac:(lia) Nb) as (E1 & I & E3).
    pose proof (unsigned_op c r a b (proj1 W)) as Un. unfold fire_bounds_div_64. apply dec_here. cbv zeta. pin_reads Pn.
    destruct (signed_op c r a b); cbn [andb negb].
    + destruct (negb (s b =? 0)) eqn:E; [| lia]. rewrite E1, E3 by reflexivity. pin_go Pn.
    + destruct (Z.gtb_spec (s b) 0); [| lia]. destruct (negb (s b =? 0)) eqn:E; [| lia].
      rewrite Z.gtb_ltb, Z.ltb_irrefl. pin_go Pn.
Qed.

(** ** Remainder *)

Definition fire_bounds_mod_64 (rid aid bid : Z) : fire_t :=
  here (fun c =>
    let sg := signed_op c rid aid bid in
    let alo := lo64 c aid in let ahi := hi64 c aid in
    let blo := lo64 c bid in let bhi := hi64 c bid in
    if sg then
      let ablo := if blo <? 0 then s64 (- blo) else blo in
      let abhi := if bhi <? 0 then s64 (- bhi) else bhi in
      let maxb := if ablo >? abhi then ablo else abhi in
      (if maxb >=? 1 then
         let r_lo := if alo >=? 0 then 0 else - (maxb - 1) in
         let r_hi := if ahi <=? 0 then 0 else maxb - 1 in
         lb64 rid r_lo >>? ub64 rid r_hi
       else ret PROP_OK) >>?
      (if (alo =? ahi) && (blo =? bhi) && negb (blo =? 0) then
         let val := sv_smod64 alo blo in
         lb64 rid val >>? ub64 rid val
       else ret PROP_OK)
    else
      (if (blo =? bhi) && (blo >? 0) then lb64 rid 0 >>? ub64 rid (blo - 1)
       else if blo >? 0 then lb64 rid 0 >>? ub64 rid (bhi - 1)
       else ret PROP_OK) >>?
      (if (alo =? ahi) && (blo =? bhi) && (blo >? 0) then
         let val := Z.rem alo blo in
         let val := if val <? 0 then val + blo else val in
         lb64 rid val >>? ub64 rid val
       else ret PROP_OK) >>?
      here (fun c =>
        let rlo := lo64 c rid in let rhi := hi64 c rid in
        if (rlo =? rhi) && (blo =? bhi) && (blo >? 0) then
          let alo := lo64 c aid in let ahi := hi64 c aid in
          let rem := Z.rem alo blo in
          let rem := if rem <? 0 then rem + blo else rem in
          let new_alo := s64 (alo + Z.rem (s64 (s64 (rlo - rem) + blo)) blo) in
          if new_alo >? ahi then ret PROP_CONFLICT else
          lb64 aid new_alo >>?
          (let rem := Z.rem ahi blo in
           let rem := if rem <? 0 then rem + blo else rem in
           let new_ahi := s64 (ahi - Z.rem (s64 (s64 (rem - rlo) + blo)) blo) in
           if new_ahi <? new_alo then ret PROP_CONFLICT else ub64 aid new_ahi)
        else ret PROP_OK)).

(** The sums of the backward rule stay in 64 bits, and so does a negated divisor.
    A signed divisor is not 0, unless it is fixed: the range of the remainder is
    drawn from all divisors but 0. *)
Definition mod_ready_64 (r a b : Z) c : Prop :=
  ordered false c [r; a; b] /\ - 2 ^ 63 < lo_at c b /\
  if signed_op c r a b then 0 < lo_at c b \/ hi_at c b < 0 \/ lo_at c b = 0 /\ hi_at c b = 0
  else hi_at c a + hi_at c b <= 2 ^ 63 /\ hi_at c b <= 2 ^ 62.
#[export] Instance mod_stable_64 r a b : Stable (mod_ready_64 r a b) [r; a; b].
Proof.
  constructor; [intros c W; apply W |]. intros c c' (W & L & P) Sb. split; [apply (ordered_sub false c); assumption |].
  pose proof (sub_within c' c _ W Sb) as Wn. unfold within in Wn. split_ids Wn.
  pose proof (fun x Hx => mb_valid _ _ _ (ordered_member false c _ x W Hx)) as V.
  rewrite (sub_signed_op c c' r a b Sb) by (apply V; here_in). split; [lia |].
  pose proof (dom_ne c' b (sb_ok _ _ Sb) (proj2 (sb_valid _ _ Sb b) (V b ltac:(here_in)))).
  destruct (signed_op c r a b); lia.
Qed.

Lemma fix_rem_64 l k : 0 <= l -> 0 < k -> (if Z.rem l k <? 0 then Z.rem l k + k else Z.rem l k) = l mod k.
Proof.
  intros Hl Hk. rewrite Z.rem_mod_nonneg by lia. pose proof (Z.mod_pos_bound l k).
  destruct (Z.ltb_spec (l mod k) 0); [lia | reflexivity].
Qed.
(** The bounds of a residue class. *)
Lemma class_bounds_64 l h k v a : 0 <= l <= a -> a <= h < 2 ^ 63 -> 0 < k <= 2 ^ 62 -> l + k <= 2 ^ 63 -> a mod k = v ->
  s64 (l + Z.rem (s64 (s64 (v - l mod k) + k)) k) <= a <= s64 (h - Z.rem (s64 (s64 (h mod k - v) + k)) k).
Proof.
  intros Hl Hh Hk Hlk Ev. pose proof (next_residue a l v k). pose proof (prev_residue a h v k).
  pose proof (Z.mod_pos_bound a k). pose proof (Z.mod_pos_bound l k). pose proof (Z.mod_pos_bound h k).
  rewrite (s64_small (v - l mod k)), (s64_small (h mod k - v)), (s64_small (v - l mod k + k)),
    (s64_small (h mod k - v + k)) by (unfold int64; lia).
  rewrite !Z.rem_mod_nonneg by lia. pose proof (Z.mod_pos_bound (v - l mod k + k) k).
  pose proof (Z.mod_pos_bound (h mod k - v + k) k). rewrite !s64_small by (unfold int64; lia). lia.
Qed.

Lemma max_abs l h :
  (if (if l <? 0 then - l else l) >? (if h <? 0 then - h else h)
   then (if l <? 0 then - l else l) else (if h <? 0 then - h else h)) = Z.max (Z.abs l) (Z.abs h).
Proof.
  rewrite Z.gtb_ltb. destruct (Z.ltb_spec l 0), (Z.ltb_spec h 0); case Z.ltb_spec; lia.
Qed.
Lemma mod_64_signed r a b c : mod_ready_64 r a b c -> signed_op c r a b = true ->
  sound_from (fun s => s b = 0 \/ s r = Z.rem (s a) (s b)) (fire_bounds_mod_64 r a b) c.
Proof.
  intros W E. unfold fire_bounds_mod_64. apply sound_here. rewrite E. enter W. cbv zeta. reads. windows.
  pose proof (proj2 W) as [L Z0]. rewrite E in Z0.
  rewrite (s64_small (- lo_at c b)), (s64_small (- hi_at c b)) by (unfold int64; lia).
  rewrite max_abs. set (maxb := Z.max (Z.abs (lo_at c b)) (Z.abs (hi_at c b))).
  win_go W.
  all: unfold maxb; try (destruct (Z.geb_spec (lo_at c a) 0), (Z.leb_spec (hi_at c a) 0); unfold int64; lia).
  all: try (intros s D Rs; around_all; pose proof (rem_sign (s a) (s b)); 
    destruct (Z.geb_spec (lo_at c a) 0), (Z.leb_spec (hi_at c a) 0); lia).
  all: rewrite ?smod_rem by lia; pose proof (rem_sign (lo_at c a) (lo_at c b)); try (unfold int64; lia).
  all: intros s D Rs; around_all; replace (lo_at c a) with (s a) by lia; replace (lo_at c b) with (s b) by lia; lia.
Qed.
Lemma mod_64_unsigned r a b c : mod_ready_64 r a b c -> signed_op c r a b = false ->
  sound_from (fun s => s b = 0 \/ s r = Z.rem (s a) (s b)) (fire_bounds_mod_64 r a b) c.
Proof.
  intros W E. unfold fire_bounds_mod_64. apply sound_here. rewrite E. enter W.
  destruct (unsigned_op c r a b (proj1 W) E) as (Pr & Pa & Pb). pose proof (proj2 W) as [_ Rm]. rewrite E in Rm.
  cbv zeta. reads. windows. win_go W.
  all: windows; withins; rewrite ?fix_rem_64 in * by lia.
  all: try (unfold int64; pose proof (Z.mod_pos_bound (lo_at c a) (lo_at c b)); lia).
  all: intros s D; around_all; intros Rs; assert (Pb' : 0 < s b) by lia;
    rewrite (Z.rem_mod_nonneg (s a) (s b)) in * by lia; pose proof (Z.mod_pos_bound (s a) (s b) Pb'); try lia.
  1, 2: replace (lo_at c a) with (s a) by lia; replace (lo_at c b) with (s b) by lia; lia.
  all: replace (lo_at c b) with (s b) in * by lia; replace (lo_at c1 r) with (s r) in * by lia;
    destruct (class_bounds_64 (lo_at c1 a) (hi_at c1 a) (s b) (s r) (s a)); lia.
Qed.

Lemma mod_64_fulfils r a b :
  fulfils (mod_ready_64 r a b) [r; a; b] (fun s => s b = 0 \/ s r = Z.rem (s a) (s b)) (fire_bounds_mod_64 r a b).
Proof.
  intros c W. split.
  - destruct (signed_op c r a b) eqn:E; [apply mod_64_signed | apply mod_64_unsigned]; assumption.
  - intros F. apply (pin_start (mod_ready_64 r a b) [r; a; b] _ _ c W F). intros s Pn. pin_open_all Pn.
    destruct (pin_at _ _ _ c r Pn ltac:(here_in)), (pin_at _ _ _ c a Pn ltac:(here_in)), (pin_at _ _ _ c b Pn ltac:(here_in)).
    destruct (Z.eq_dec (s b) 0) as [Zb | Nb]; [apply dec_true; left; exact Zb |].
    pose proof (unsigned_op c r a b (proj1 W)) as Un. pose proof (rem_sign (s a) (s b) Nb). destruct W as (_ & Lb & _).
    unfold fire_bounds_mod_64. apply dec_here. cbv zeta. pin_reads Pn. destruct (signed_op c r a b).
    + rewrite (s64_small (- s b)) by (unfold int64; lia). rewrite max_abs, Z.max_id, smod_rem by exact Nb. pin_go Pn.
      * unfold int64. destruct (s a >=? 0); lia.
      * unfold int64. destruct (s a <=? 0); lia.
    + destruct (Z.gtb_spec (s b) 0); [| lia]. destruct (Un eq_refl) as (_ & Pa & _). rewrite fix_rem_64 by lia.
      assert (Rm : s a mod s b = Z.rem (s a) (s b)) by (symmetry; apply Z.rem_mod_nonneg; lia). rewrite Rm.
      pin_go Pn; unfold int64; lia.
Qed.
End Fire64.
End Mul64.
