(* ===== verification/Bits64.v ===== *)
(** * Bits64: the bitwise propagators, 64 bits
    (src/src/c/dvs_prop_templates.c)

    And, or, exclusive or and complement over variables whose patterns are their
    values, signed ones in two's complement. *)

From Stdlib Require Import ZArith Lia ZifyBool Bool Btauto.
From stdpp Require Import base list numbers.
From S2P Require Import Prelude Vars Ctx Store Wide Window Mul32 Masks.
Import Vars Ctx Store Wide Window Mul32 Masks.
Open Scope Z_scope.

Module Bits64.

Section Fire64.
Context {C : Type} `{StoreLaws C}.
Implicit Types c : C.

(** ** Conjunction *)

Definition fire_bounds_band_64 (rid aid bid : Z) : fire_t :=
  here (fun c =>
    let alo := lo64 c aid in let ahi := hi64 c aid in
    let blo := lo64 c bid in let bhi := hi64 c bid in
    if (alo =? ahi) && (blo =? bhi) then
      lb64 rid (Z.land alo blo) >>? ub64 rid (Z.land alo blo)
    else
      (if alo >=? 0 then lb64 rid 0 >>? ub64 rid ahi else ret PROP_OK) >>?
      (if blo >=? 0 then lb64 rid 0 >>? ub64 rid bhi else ret PROP_OK) >>?
      (if (ahi <? 0) && (bhi <? 0) then ub64 rid (i64_min ahi bhi) else ret PROP_OK)).

Lemma band_64_fulfils r a b :
  fulfils (plain [r; a; b]) [r; a; b] (fun s => s r = Z.land (s a) (s b)) (fire_bounds_band_64 r a b).
Proof.
  intros c W. unfold fire_bounds_band_64. split.
  - enter W. win_go W.
    all: try (windows; apply int64_land; unfold int64; lia).
    all: try (windows; unfold i64_min, int64; destruct (Z.ltb_spec (hi_at c a) (hi_at c b)); lia).
    all: intros s D Rs; around_all; pose proof (land_bounds (s a) (s b)).
    1, 2: replace (lo_at c a) with (s a) by lia; replace (lo_at c b) with (s b) by lia; lia.
    all: unfold i64_min; try destruct (Z.ltb_spec (hi_at c a) (hi_at c b)); lia.
  - intros F. apply (pin_start (plain [r; a; b]) [r; a; b] _ _ c W F). intros s Pn. pin_open_all Pn.
    unfold fire_bounds_band_64. pin_go Pn; apply int64_land; unfold int64; lia.
Qed.

(** ** Disjunction *)

(** The rule for one operand [x] of a fixed result: its bits are among the
    result's, and it has those of the result that a fixed [y] lacks. *)
Definition bor_operand (rlo x y : Z) : fire_t :=
  here (fun c =>
    let ylo := lo64 c y in
    let fixed := ylo =? hi64 c y in
    if fixed && negb (Z.land ylo (Z.lnot rlo) =? 0) then ret PROP_CONFLICT else
    let must := if fixed then Z.land (u64 rlo) (u64 (Z.lnot (u64 ylo))) else 0 in
    let xl := default (-1) (masked_ceil (u64 (lo64 c x)) must (u64 rlo)) in
    let xh := default (-1) (masked_floor (u64 (hi64 c x)) must (u64 rlo)) in
    if (xl <? 0) || (xh <? 0) || (xl >? xh) then ret PROP_CONFLICT else
    lb64 x xl >>? ub64 x xh).

Definition fire_bounds_bor_64 (rid aid bid : Z) : fire_t :=
  here (fun c =>
    let alo := lo64 c aid in let ahi := hi64 c aid in
    let blo := lo64 c bid in let bhi := hi64 c bid in
    if (alo =? ahi) && (blo =? bhi) then
      lb64 rid (Z.lor alo blo) >>? ub64 rid (Z.lor alo blo)
    else
      (if (alo >=? 0) && (blo >=? 0) then
         lb64 rid (if alo >? blo then alo else blo) >>?
         ub64 rid (s64 (smear (Z.lor (u64 ahi) (u64 bhi)))) >>?
         here (fun c =>
           let rhi := hi64 c rid in
           ub64 aid rhi >>?
           ub64 bid rhi >>?
           here (fun c =>
             let rlo := lo64 c rid in
             if rlo =? rhi then bor_operand rlo aid bid >>? bor_operand rlo bid aid else ret PROP_OK))
       else ret PROP_OK) >>?
      (if (alo =? ahi) && (alo >=? 0) && (blo >=? 0) then lb64 rid alo else ret PROP_OK) >>?
      (if (blo =? bhi) && (blo >=? 0) && (alo >=? 0) then lb64 rid blo else ret PROP_OK)).

(** What the operands of a disjunction satisfy. *)
Lemma lor_parts x y : 0 <= x -> 0 <= y ->
  x <= Z.lor x y /\ y <= Z.lor x y /\ Z.land x (Z.lor x y) = x /\ Z.land y (Z.lnot (Z.lor x y)) = 0 /\
  Z.land (Z.land (Z.lor x y) (u64 (Z.lnot y))) x = Z.land (Z.lor x y) (u64 (Z.lnot y)).
Proof.
  intros Hx Hy. assert (Ex : Z.land x (Z.lor x y) = x).
  { apply Z.bits_inj'. intros i Hi. rewrite Z.land_spec, Z.lor_spec. btauto. }
  assert (Ey : Z.land y (Z.lor x y) = y).
  { apply Z.bits_inj'. intros i Hi. rewrite Z.land_spec, Z.lor_spec. btauto. }
  pose proof (Z.lor_nonneg x y). split; [apply sub_le; lia |]. split; [apply sub_le; lia |]. split; [exact Ex |].
  split; apply Z.bits_inj'; intros i Hi; wordbits; split_cmp; btauto.
Qed.

Lemma bor_operand_sound R r a b x y rlo c :
  plain [r; a; b] c -> In x [r; a; b] -> In y [r; a; b] -> 0 <= rlo < 2 ^ 63 -> 0 <= lo_at c x -> 0 <= lo_at c y ->
  (forall s, in_dom c s -> R s -> rlo = Z.lor (s x) (s y)) -> sound_from R (bor_operand rlo x y) c.
Proof.
  intros W Ix Iy Hr Lx Ly E. unfold bor_operand. enter W.
  pose proof (proj1 (all_ids_in _ _) (plain_open c _ W) x Ix) as Ox. pose proof (proj1 (all_ids_in _ _) (plain_open c _ W) y Iy) as Oy.
  cbv beta in Ox, Oy. apply sound_here. cbv beta zeta.
  rewrite !(window_lo c _ y W Iy), !(window_hi c _ y W Iy), !(window_lo c _ x W Ix), !(window_hi c _ x W Ix).
  rewrite !(u64_small (lo_at c x)), !(u64_small (hi_at c x)), !(u64_small (lo_at c y)), !(u64_small rlo) by (unfold fits; lia).
  assert (Ar : forall s, in_dom c s -> lo_at c x <= s x <= hi_at c x /\ lo_at c y <= s y <= hi_at c y).
  { intros s D. pose proof (proj1 (all_ids_in _ _) (plain_around c _ s W D)) as A. cbv beta in A. split; apply A; assumption. }
  destruct (_ && _) eqn:Ec.
  { win_go W. intros s D Rs. specialize (E s D Rs). destruct (Ar s D). destruct (lor_parts (s x) (s y)) as (_ & _ & _ & Z0 & _); try lia.
    rewrite <- E in Z0. replace (lo_at c y) with (s y) in Ec by lia. rewrite Z0 in Ec. cbn in Ec. rewrite andb_false_r in Ec. discriminate. }
  clear Ec. set (must := if _ =? _ then _ else 0).
  assert (Hm : 0 <= must /\ Z.land must rlo = must).
  { unfold must. destruct (_ =? _); [| split; [lia | apply Z.land_0_l]]. split; [apply Z.land_nonneg; lia |].
    rewrite (Z.land_comm rlo), <- Z.land_assoc, Z.land_diag. reflexivity. }
  assert (Bt : forall s, in_dom c s -> R s -> between must rlo (s x)).
  { intros s D Rs. specialize (E s D Rs). destruct (Ar s D). destruct (lor_parts (s x) (s y)) as (_ & _ & Sx & _ & Mx); try lia.
    rewrite <- E in Sx, Mx. split; [lia |]. split; [| exact Sx]. unfold must.
    destruct (Z.eqb_spec (lo_at c y) (hi_at c y)); [| apply Z.land_0_l]. replace (lo_at c y) with (s y) by lia. exact Mx. }
  destruct Hm as [Hm Sub]. clearbody must.
  destruct (masked_ceil_spec must rlo Hm (proj1 Hr) (proj2 Hr) Sub (lo_at c x)) as (xl & -> & Il & Cl).
  destruct (masked_floor_spec must rlo Hm (proj1 Hr) (proj2 Hr) Sub (hi_at c x)) as (xh & -> & Ih & Ch).
  unfold default, id. win_go W; try assumption.
  all: intros s D Rs; around_all; destruct (Ar s) as [? ?]; [assumption |]; assert (Bs : between must rlo (s x)) by auto;
    specialize (Cl _ Bs); specialize (Ch _ Bs); lia.
Qed.

Lemma bor_64_fulfils r a b :
  fulfils (plain [r; a; b]) [r; a; b] (fun s => s r = Z.lor (s a) (s b)) (fire_bounds_bor_64 r a b).
Proof.
  intros c W. unfold fire_bounds_bor_64. split.
  - enter W. win_go W.
    all: try (windows; apply int64_lor; unfold int64; lia).
    all: try (windows; unfold int64; destruct (Z.gtb_spec (lo_at c a) (lo_at c b)); lia).
    7, 8: windows; withins; apply (bor_operand_sound _ r a b); try assumption; try here_in; try lia;
      intros s D Rs; around_all; rewrite <- ?(Z.lor_comm (s a)), <- Rs; lia.
    all: intros s D Rs; around_all; windows.
    1, 2: replace (lo_at c a) with (s a) by lia; replace (lo_at c b) with (s b) by lia; lia.
    2: { destruct (smear_bound (s a) (s b) (hi_at c a) (hi_at c b)) as (U & Bo & _ & Bs); try lia.
      rewrite !u64_small by (unfold fits; lia). rewrite s64_small by (unfold int64; lia). lia. }
    all: destruct (lor_parts (s a) (s b)) as (La & Lb & _); try lia; destruct (Z.gtb_spec (lo_at c a) (lo_at c b)); lia.
  - intros F. apply (pin_start (plain [r; a; b]) [r; a; b] _ _ c W F). intros s Pn. pin_open_all Pn.
    unfold fire_bounds_bor_64. pin_go Pn; apply int64_lor; unfold int64; lia.
Qed.

(** ** Exclusive disjunction *)

(** [x = y ^ kbit], [kbit] the bit [m]: a shift on a range of [y] whose values
    share the bits from [m] on. *)
Definition flip_bound (x y kbit m : Z) : fire_t :=
  here (fun c =>
    let lo := lo64 c y in let hi := hi64 c y in
    if (lo >=? 0) && (Z.shiftr lo m =? Z.shiftr hi m) then
      let e0 := Z.lxor lo kbit in let e1 := Z.lxor hi kbit in
      lb64 x (if e0 <? e1 then e0 else e1) >>? ub64 x (if e0 <? e1 then e1 else e0)
    else ret PROP_OK).
(** [m = __builtin_ctzll(kbit)]: the exponent of the power of two. *)
Definition bxor_single (rid yid kbit : Z) : fire_t :=
  let m := Z.log2 kbit in
  flip_bound rid yid kbit m >>? flip_bound yid rid kbit m.

(** The other operand of a fixed result and a fixed operand. *)
Definition bxor_other (rid oid k : Z) : fire_t :=
  here (fun c =>
    let rlo := lo64 c rid in
    if rlo =? hi64 c rid then lb64 oid (Z.lxor rlo k) >>? ub64 oid (Z.lxor rlo k) else ret PROP_OK).

Definition one_bit (k : Z) : bool := (k >? 0) && (Z.land k (k - 1) =? 0).

Definition fire_bounds_bxor_64 (rid aid bid : Z) : fire_t :=
  here (fun c =>
    let alo := lo64 c aid in let ahi := hi64 c aid in
    let blo := lo64 c bid in let bhi := hi64 c bid in
    if (alo =? ahi) && (blo =? bhi) then
      lb64 rid (Z.lxor alo blo) >>? ub64 rid (Z.lxor alo blo)
    else
      (if alo =? ahi then bxor_other rid bid alo
       else if blo =? bhi then bxor_other rid aid blo else ret PROP_OK) >>?
      (if (alo >=? 0) && (blo >=? 0) then
         lb64 rid 0 >>? ub64 rid (s64 (smear (Z.lor (u64 ahi) (u64 bhi))))
       else ret PROP_OK) >>?
      (if (blo =? bhi) && one_bit blo then bxor_single rid aid blo
       else if (alo =? ahi) && one_bit alo then bxor_single rid bid alo else ret PROP_OK)).

Lemma lxor_pow2 y m : 0 <= m -> Z.lxor y (2 ^ m) = if Z.testbit y m then y - 2 ^ m else y + 2 ^ m.
Proof.
  intros Hm. destruct (Z.testbit y m) eqn:T.
  - rewrite Z.sub_nocarry_ldiff.
    + apply Z.bits_inj'. intros i Hi. rewrite Z.ldiff_spec. wordbits. split_cmp; subst; rewrite ?T; btauto.
    + apply Z.bits_inj'. intros i Hi. rewrite Z.ldiff_spec. wordbits. split_cmp; subst; rewrite ?T; btauto.
  - symmetry. apply Z.add_nocarry_lxor. apply Z.bits_inj'. intros i Hi. wordbits. split_cmp; subst; rewrite ?T; btauto.
Qed.
Lemma one_bit_pow2 k : one_bit k = true -> exists m, 0 <= m /\ k = 2 ^ m /\ Z.log2 k = m.
Proof.
  unfold one_bit. intros E. apply andb_true_iff in E as [P E]. exists (Z.log2 k). pose proof (Z.log2_nonneg k).
  split; [assumption |]. split; [| reflexivity]. pose proof (Z.log2_spec k ltac:(lia)) as [L U].
  destruct (Z.eq_dec k (2 ^ Z.log2 k)) as [Ek | N]; [exact Ek | exfalso].
  assert (B : Z.testbit (Z.land k (k - 1)) (Z.log2 k) = true).
  { rewrite Z.land_spec, Z.bit_log2 by lia. replace (Z.log2 k) with (Z.log2 (k - 1)); [apply Z.bit_log2; lia |].
    apply Z.log2_unique; lia. }
  replace (Z.land k (k - 1)) with 0 in B by lia. rewrite Z.bits_0 in B. discriminate.
Qed.
(** Flipping one bit on a block. *)
Lemma flip_block l h z m : 0 <= m -> l <= z <= h -> Z.shiftr l m = Z.shiftr h m ->
  let r0 := Z.lxor l (2 ^ m) in let r1 := Z.lxor h (2 ^ m) in
  (if r0 <? r1 then r0 else r1) <= Z.lxor z (2 ^ m) <= (if r0 <? r1 then r1 else r0).
Proof.
  intros Hm Hz E. assert (Ez : Z.shiftr z m = Z.shiftr l m).
  { rewrite !Z.shiftr_div_pow2 in * by lia. pose proof (Z.div_le_mono l z (2 ^ m)). pose proof (Z.div_le_mono z h (2 ^ m)).
    pose proof (Z.pow_pos_nonneg 2 m). lia. }
  assert (T : forall x, Z.shiftr x m = Z.shiftr l m -> Z.testbit x m = Z.testbit l m).
  { intros x Ex. rewrite <- (Z.add_0_l m), <- !Z.shiftr_spec by lia. rewrite Ex. reflexivity. }
  cbv zeta. rewrite !lxor_pow2, (T z Ez), (T h (eq_sym E)) by lia.
  destruct (Z.testbit l m); destruct (Z.ltb_spec (l - 2 ^ m) (h - 2 ^ m)), (Z.ltb_spec (l + 2 ^ m) (h + 2 ^ m)); lia.
Qed.
Lemma lxor_swap r y k : r = Z.lxor y k -> y = Z.lxor r k.
Proof. intros ->. rewrite Z.lxor_assoc, Z.lxor_nilpotent, Z.lxor_0_r. reflexivity. Qed.

Lemma flip_bound_sound R r a b x y m c : plain [r; a; b] c -> In x [r; a; b] -> In y [r; a; b] -> 0 <= m < 63 ->
  (forall s, in_dom c s -> R s -> s x = Z.lxor (s y) (2 ^ m)) -> sound_from R (flip_bound x y (2 ^ m) m) c.
Proof.
  intros W Ix Iy Hm E. unfold flip_bound. enter W.
  assert (I2 : int64 (2 ^ m)). { unfold int64. pose proof (Z.pow_pos_nonneg 2 m). pose proof (Z.pow_lt_mono_r 2 m 63). lia. }
  pose proof (proj1 (all_ids_in _ _) (plain_open c _ W) y Iy) as Oy. cbv beta in Oy.
  assert (I0 : int64 (Z.lxor (lo_at c y) (2 ^ m))) by (apply int64_lxor; [unfold int64; lia | exact I2]).
  assert (I1 : int64 (Z.lxor (hi_at c y) (2 ^ m))) by (apply int64_lxor; [unfold int64; lia | exact I2]).
  win_go W.
  1, 3: destruct (_ <? _); assumption.
  all: intros s D Rs; around_all; pose proof (E s ltac:(assumption) Rs) as Es;
    assert (Ay : lo_at c y <= s y <= hi_at c y) by (apply (proj1 (all_ids_in _ _) (plain_around c _ s W ltac:(assumption)) y Iy));
    pose proof (flip_block _ _ _ m (proj1 Hm) Ay ltac:(lia)) as Fb; cbv zeta in Fb; rewrite <- Es in Fb; lia.
Qed.
Lemma bxor_single_sound R r a b y k c : plain [r; a; b] c -> In y [r; a; b] -> one_bit k = true -> int64 k ->
  (forall s, in_dom c s -> R s -> s r = Z.lxor (s y) k) -> sound_from R (bxor_single r y k) c.
Proof.
  intros W Iy K Ik E. destruct (one_bit_pow2 k K) as (m & Hm & -> & Lg). unfold bxor_single. rewrite Lg. enter W.
  assert (m < 63) by (apply (Z.pow_lt_mono_r_iff 2); unfold int64 in Ik; lia).
  win_go W; [apply (flip_bound_sound _ r a b) | apply (flip_bound_sound _ r a b)]; try assumption; try here_in; try lia.
  intros s D Rs. around_all. apply lxor_swap, E; assumption.
Qed.

Lemma bxor_64_fulfils r a b :
  fulfils (plain [r; a; b]) [r; a; b] (fun s => s r = Z.lxor (s a) (s b)) (fire_bounds_bxor_64 r a b).
Proof.
  intros c W. unfold fire_bounds_bxor_64. split.
  - enter W. win_go W.
    1, 3: windows; apply int64_lxor; unfold int64; lia.
    1, 2: intros s D Rs; around_all; replace (lo_at c a) with (s a) by lia; replace (lo_at c b) with (s b) by lia; lia.
    1, 2: unfold bxor_other; win_go W; try (windows; apply int64_lxor; unfold int64; lia).
    1, 2: intros s D Rs; around_all; rewrite (Z.lxor_comm (s a)) in Rs; apply lxor_swap in Rs;
      replace (lo_at c r) with (s r) by lia; replace (lo_at c a) with (s a) by lia; lia.
    1, 2: intros s D Rs; around_all; apply lxor_swap in Rs;
      replace (lo_at c r) with (s r) by lia; replace (lo_at c b) with (s b) by lia; lia.
    1, 2: intros s D Rs; around_all; windows; destruct (smear_bound (s a) (s b) (hi_at c a) (hi_at c b)) as (U & _ & Bx & Bs); try lia;
      rewrite !u64_small by (unfold fits; lia); rewrite ?s64_small by (unfold int64; lia); lia.
    + windows. apply (bxor_single_sound _ r a b); try assumption; try here_in; [lia | unfold int64; lia |].
      intros s D Rs. around_all. replace (lo_at c b) with (s b) by lia. exact Rs.
    + windows. apply (bxor_single_sound _ r a b); try assumption; try here_in; [lia | unfold int64; lia |].
      intros s D Rs. around_all. replace (lo_at c a) with (s a) by lia. rewrite Z.lxor_comm. exact Rs.
  - intros F. apply (pin_start (plain [r; a; b]) [r; a; b] _ _ c W F). intros s Pn. pin_open_all Pn.
    unfold fire_bounds_bxor_64. pin_go Pn; apply int64_lxor; unfold int64; lia.
Qed.

(** ** Complement *)

Definition bnot_bound (sg : bool) (mask b : Z) : Z :=
  if sg then s64 (- b - 1) else s64 (Z.land mask (u64 (Z.lnot b))).
Definition bnot_mask c (rid aid : Z) : Z :=
  let rv := var_at c rid in let av := var_at c aid in
  let w := if negb (width rv =? 0) then width rv else width av in
  if w >=? 64 then 2 ^ 64 - 1 else 2 ^ w - 1.
Definition fire_bounds_bnot_64 (rid aid : Z) : fire_t :=
  here (fun c =>
    let rv := var_at c rid in let av := var_at c aid in
    let mask := bnot_mask c rid aid in
    let sg := is_signed rv || is_signed av in
    lb64 rid (bnot_bound sg mask (hi64 c aid)) >>?
    ub64 rid (bnot_bound sg mask (lo64 c aid)) >>?
    here (fun c =>
      let rlo := lo64 c rid in let rhi := hi64 c rid in
      lb64 aid (bnot_bound sg mask rhi) >>? ub64 aid (bnot_bound sg mask rlo))).

(** A number and its complement add up to this. *)
Definition bnot_total c (r a : Z) : Z :=
  if is_signed (var_at c r) || is_signed (var_at c a) then -1 else 2 ^ width (var_at c r) - 1.
(** The operand is no wider than the result, and no bound overflows when negated. *)
Definition bnot_ready (total r a : Z) c : Prop :=
  ordered false c [r; a] /\ bnot_total c r a = total /\
  if is_signed (var_at c r) || is_signed (var_at c a) then - 2 ^ 63 < lo_at c r /\ - 2 ^ 63 < lo_at c a
  else hi_at c a <= total /\ hi_at c r <= total.
Lemma sub_signed c c' x : sub c' c -> valid c x -> is_signed (var_at c' x) = is_signed (var_at c x) /\
  width (var_at c' x) = width (var_at c x).
Proof. intros Sb V. destruct (sb_type _ _ Sb x V) as [E1 E2]. unfold is_signed. rewrite E1, E2. auto. Qed.
#[export] Instance bnot_stable total r a : Stable (bnot_ready total r a) [r; a].
Proof.
  constructor; [intros c W; apply W |]. intros c c' (W & T & P) Sb. split; [apply (ordered_sub false c); assumption |].
  pose proof (sub_within c' c _ W Sb) as Wn. unfold within in Wn. split_ids Wn.
  pose proof (fun x Hx => mb_valid _ _ _ (ordered_member false c _ x W Hx)) as V.
  unfold bnot_total in *. destruct (sub_signed c c' r Sb (V r ltac:(here_in))) as [-> ->].
  destruct (sub_signed c c' a Sb (V a ltac:(here_in))) as [-> _]. split; [exact T |]. destruct (_ || _); lia.
Qed.
Lemma bnot_exact total r a c b : bnot_ready total r a c ->
  (if is_signed (var_at c r) || is_signed (var_at c a) then - 2 ^ 63 < b < 2 ^ 63 else 0 <= b <= total) ->
  bnot_bound (is_signed (var_at c r) || is_signed (var_at c a)) (bnot_mask c r a) b = total - b /\
  int64 (total - b).
Proof.
  intros (W & T & P) Hb. pose proof (width_ok c _ r W ltac:(here_in)) as Wr. unfold bnot_total in T.
  pose proof (mb_order _ _ _ (ordered_member false c _ r W ltac:(here_in))) as Or. unfold beyond in Or.
  unfold bnot_mask. replace (width (var_at c r) =? 0) with false by lia. cbn [negb]. unfold bnot_bound.
  destruct (is_signed (var_at c r) || is_signed (var_at c a)) eqn:Sg.
  - subst total. rewrite s64_small by (unfold int64; lia). unfold int64. lia.
  - apply orb_false_iff in Sg as [Sr Sa]. rewrite Sr in Or. cbn [negb andb] in Or.
    destruct (Z.geb_spec (width (var_at c r)) 64); [lia |]. set (w := width (var_at c r)) in *.
    pose proof (Z.pow_lt_mono_r 2 w 64). assert (L : 2 ^ w <= 2 ^ 63) by (apply Z.pow_le_mono_r; lia). subst total.
    replace (Z.land (2 ^ w - 1) (u64 (Z.lnot b))) with (2 ^ w - 1 - b); [rewrite s64_small; unfold int64; lia |].
    replace (2 ^ w - 1) with (Z.ones w) at 2 by (rewrite Z.ones_equiv; lia). rewrite Z.land_comm, Z.land_ones by lia.
    unfold u64. rewrite Z.mod_mod_divide by (exists (2 ^ (64 - w)); rewrite <- Z.pow_add_r by lia; f_equal; lia).
    unfold Z.lnot. apply (Z.mod_unique _ _ (-1)); lia.
Qed.

(** The bounds the template reads later, complemented with the mask read at entry. *)
Lemma bnot_later total r a c c' x : bnot_ready total r a c -> sub c' c -> bnot_ready total r a c' -> In x [r; a] ->
  let comp := bnot_bound (is_signed (var_at c r) || is_signed (var_at c a)) (bnot_mask c r a) in
  comp (lo_at c' x) = total - lo_at c' x /\ comp (hi_at c' x) = total - hi_at c' x /\
  int64 (total - lo_at c' x) /\ int64 (total - hi_at c' x).
Proof.
  intros W Sb W' Ix. cbv zeta. unfold bnot_mask.
  assert (X : if is_signed (var_at c r) || is_signed (var_at c a)
    then - 2 ^ 63 < lo_at c' x <= hi_at c' x /\ hi_at c' x < 2 ^ 63
    else 0 <= lo_at c' x <= hi_at c' x /\ hi_at c' x <= total).
  { destruct W as (W & T & P), W' as (W' & T' & P').
    pose proof (fun x Hx => mb_valid _ _ _ (ordered_member false c _ x W Hx)) as V.
    pose proof (mb_rng _ _ _ (ordered_member false c' _ x W' Ix)) as Rx.
    unfold bot, top in Rx. destruct (sub_signed c c' r Sb (V r ltac:(here_in))) as [Er _].
    destruct (sub_signed c c' a Sb (V a ltac:(here_in))) as [Ea _]. rewrite Er, Ea in P'.
    destruct (is_signed (var_at c r) || is_signed (var_at c a)) eqn:Sg.
    - destruct Ix as [<- | [<- | []]]; lia.
    - apply orb_false_iff in Sg as [Sr Sa].
      assert (Ux : is_signed (var_at c' x) = false) by (destruct Ix as [<- | [<- | []]]; congruence).
      assert (0 <= lo_at c' x) by (apply (unsigned_nonneg c' [r; a]); assumption).
      destruct Ix as [<- | [<- | []]]; lia. }
  destruct (bnot_exact total r a c (lo_at c' x) W) as [El Il]; [destruct (_ || _); lia |].
  destruct (bnot_exact total r a c (hi_at c' x) W) as [Eh Ih]; [destruct (_ || _); lia |]. auto.
Qed.

Lemma bnot_64_fulfils total r a :
  fulfils (bnot_ready total r a) [r; a] (fun s => s r = total - s a) (fire_bounds_bnot_64 r a).
Proof.
  intros c W. pose proof (fun c' W' Sb x => bnot_later total r a c c' x W Sb W') as L. unfold fire_bounds_bnot_64. split.
  - enter W. apply sound_here. cbv beta zeta. reads.
    destruct (L c W ltac:(apply sub_refl, W) a ltac:(here_in)) as (-> & -> & I1 & I2).
    win_go W; match goal with |- context [bnot_bound _ _ (_ ?c2 r)] =>
      destruct (L c2 ltac:(assumption) ltac:(eauto using sub_trans) r ltac:(here_in)) as (El & Eh & Il & Ih) end;
      rewrite ?El, ?Eh; try assumption; win_arith.
  - intros F. apply (pin_start (bnot_ready total r a) [r; a] _ _ c W F). intros s Pn. pin_open_all Pn.
    apply dec_here. cbv beta zeta. pin_reads Pn.
    destruct (pin_at _ _ _ c a Pn) as [Ea _]; [here_in |]. destruct (pin_at _ _ _ c r Pn) as [Er _]; [here_in |].
    destruct (L c W ltac:(apply sub_refl, W) a ltac:(here_in)) as (Ha & _ & Ia & _). rewrite Ea in Ha, Ia.
    destruct (L c W ltac:(apply sub_refl, W) r ltac:(here_in)) as (Hr & _ & Ir & _). rewrite Er in Hr, Ir.
    rewrite Ha. pin_go Pn; rewrite Hr; exact Ir.
Qed.
End Fire64.
End Bits64.
