(* ===== verification/Shift64.v ===== *)
(** * Shift64: shifts and concatenation, 64 bits
    (src/src/c/dvs_prop_templates.c)

    Left shift, right shift and concatenation over variables whose patterns are
    their values.  A right shift is the quotient by a power of two, rounded down,
    of a signed operand as of an unsigned one. *)

From Stdlib Require Import ZArith Lia ZifyBool Bool.
From stdpp Require Import base list numbers.
From S2P Require Import Prelude I128 Vars Ctx Store Wide Window Mul32.
Import I128 Vars Ctx Store Wide Window Mul32.
Open Scope Z_scope.

Module Shift64.

(** [_ashr64(v, s)]. *)
Definition ashr64 (v s : Z) : Z :=
  if v >=? 0 then Z.shiftr v s else s64 (u64 (Z.lnot (Z.shiftr (u64 (Z.lnot (u64 v))) s))).
(** [_shl_checked(v, s, &ok)]: [ok] and the result. *)
Definition shl_checked (v s : Z) : bool * Z :=
  let '(ovf, r) := shl_i64_ovf v s in if ovf then (false, 0) else (true, r).

Lemma ashr_exact v s : int64 v -> 0 <= s <= 63 -> ashr64 v s = v / 2 ^ s.
Proof.
  intros Hv Hs. unfold ashr64, int64 in *. destruct (Z.geb_spec v 0); [apply Z.shiftr_div_pow2; lia |].
  assert (E : u64 (Z.lnot (u64 v)) = Z.lnot v).
  { replace (u64 v) with (v + 2 ^ 64) by (unfold u64; apply (Z.mod_unique _ _ (-1)); lia).
    unfold Z.lnot, u64. symmetry. apply (Z.mod_unique _ _ (-1)); lia. }
  rewrite E. assert (Sh : Z.lnot (Z.shiftr (Z.lnot v) s) = v / 2 ^ s).
  { rewrite <- Z.shiftr_div_pow2 by lia. rewrite Z.lnot_shiftr, Z.lnot_involutive by lia. reflexivity. }
  rewrite Sh, s64_mod. apply s64_small. unfold int64. pose proof (Z.pow_pos_nonneg 2 s).
  split; [apply Z.div_le_lower_bound; nia |]. apply Z.div_lt_upper_bound; nia.
Qed.
Lemma shl_checked_spec v s : int64 v -> 0 <= s <= 63 ->
  fst (shl_checked v s) = true -> snd (shl_checked v s) = v * 2 ^ s /\ int64 (v * 2 ^ s).
Proof.
  intros Hv Hs. pose proof (shl_i64_spec v s Hv Hs) as Sp. unfold shl_checked.
  destruct (shl_i64_ovf v s) as [[] r]; [discriminate | intros _; exact Sp].
Qed.

(** ** Powers of two *)

Lemma shift_mono x y s : 0 <= s -> x <= y -> x / 2 ^ s <= y / 2 ^ s.
Proof. intros Hs. apply Z.div_le_mono. apply Z.pow_pos_nonneg; lia. Qed.
(** A quotient moves towards 0 or -1 as the power grows. *)
Lemma shift_amount x s t : 0 <= s <= t -> (0 <= x -> 0 <= x / 2 ^ t <= x / 2 ^ s) /\ (x < 0 -> x / 2 ^ s <= x / 2 ^ t < 0).
Proof.
  intros Hs. replace (2 ^ t) with (2 ^ s * 2 ^ (t - s)) by (rewrite <- Z.pow_add_r by lia; f_equal; lia).
  pose proof (Z.pow_pos_nonneg 2 s). pose proof (Z.pow_pos_nonneg 2 (t - s)). rewrite <- Z.div_div by lia.
  split; intros Hx.
  - assert (0 <= x / 2 ^ s) by (apply Z.div_pos; lia). split; [apply Z.div_pos; lia |].
    apply Z.div_le_upper_bound; nia.
  - assert (x / 2 ^ s < 0) by (apply Z.div_lt_upper_bound; lia).
    split; [apply Z.div_le_lower_bound; nia | apply Z.div_lt_upper_bound; lia].
Qed.
(** What a quotient says of the number. *)
Lemma shift_back x s r : 0 <= s -> r = x / 2 ^ s -> r * 2 ^ s <= x /\ x <= (r + 1) * 2 ^ s - 1.
Proof.
  intros Hs ->. pose proof (Z.pow_pos_nonneg 2 s). pose proof (Z.div_mod x (2 ^ s)). pose proof (Z.mod_pos_bound x (2 ^ s)). nia.
Qed.
Lemma shift_int64 x s : int64 x -> 0 <= s -> int64 (x / 2 ^ s).
Proof.
  unfold int64. intros Hx Hs. destruct (shift_amount x 0 s) as [P N]; [lia |].
  change (2 ^ 0) with 1 in *. rewrite !Z.div_1_r in *. destruct (Z.le_gt_cases 0 x); lia.
Qed.
(** An amount of the width or more leaves nothing but the sign. *)
Lemma shift_all x w s : - 2 ^ w <= x < 2 ^ w -> 0 <= w <= s -> x / 2 ^ s = x / 2 ^ w.
Proof.
  intros Hx Hw. pose proof (Z.pow_le_mono_r 2 w s). pose proof (Z.pow_pos_nonneg 2 w).
  destruct (Z.le_gt_cases 0 x); [rewrite !Z.div_small by lia; reflexivity |].
  transitivity (-1); [symmetry |].
  - apply (Z.div_unique_pos _ _ _ (x + 2 ^ s)); lia.
  - apply (Z.div_unique_pos _ _ _ (x + 2 ^ w)); lia.
Qed.

Section Fire64.
Context {C : Type} `{StoreLaws C}.
Implicit Types c : C.

(** ** Left shift *)

Definition fire_bounds_shl_64 (rid aid bid : Z) : fire_t :=
  here (fun c =>
    let alo := lo64 c aid in let ahi := hi64 c aid in
    let blo := if lo64 c bid <? 0 then 0 else lo64 c bid in
    let bhi := if hi64 c bid >? 63 then 63 else hi64 c bid in
    if (alo =? ahi) && (blo =? bhi) then
      let exact := s64 (Z.shiftl alo blo) in
      lb64 rid exact >>? ub64 rid exact
    else if blo =? bhi then
      (if alo >=? 0 then
         lb64 rid (s64 (Z.shiftl alo blo)) >>? ub64 rid (s64 (Z.shiftl ahi blo))
       else ret PROP_OK) >>?
      here (fun c =>
        let rlo := lo64 c rid in let rhi := hi64 c rid in
        if (blo >? 0) && (rlo >=? 0) then
          lb64 aid (Z.shiftr rlo blo) >>? ub64 aid (Z.shiftr rhi blo)
        else ret PROP_OK)
    else if alo >=? 0 then lb64 rid (s64 (Z.shiftl alo blo)) else ret PROP_OK).

(** The amount is one of a 64-bit word, and no product leaves 64 bits. *)
Definition shl_ready_64 (r a b : Z) c : Prop :=
  ordered false c [r; a; b] /\ 0 <= lo_at c b /\ hi_at c b <= 63 /\
  int64 (lo_at c a * 2 ^ hi_at c b) /\ int64 (hi_at c a * 2 ^ hi_at c b).

Lemma shl_mono x y s t : x <= y -> 0 <= s <= t -> (0 <= y -> x * 2 ^ s <= y * 2 ^ t) /\ (x <= 0 -> x * 2 ^ t <= y * 2 ^ s).
Proof.
  intros Hx Hs. pose proof (Z.pow_le_mono_r 2 s t). pose proof (Z.pow_pos_nonneg 2 s). nia.
Qed.
Lemma shl_int64 l h x s t : l <= x <= h -> 0 <= s <= t -> int64 (l * 2 ^ t) -> int64 (h * 2 ^ t) -> int64 (x * 2 ^ s).
Proof.
  unfold int64. intros Hx Hs Il Ih. destruct (shl_mono x h s t) as [U _]; try lia. destruct (shl_mono l x s t) as [_ L]; try lia.
  pose proof (Z.pow_pos_nonneg 2 s). destruct (Z.le_gt_cases 0 x); nia.
Qed.
#[export] Instance shl_stable_64 r a b : Stable (shl_ready_64 r a b) [r; a; b].
Proof.
  constructor; [intros c W; apply W |]. intros c c' (W & L & U & Il & Ih) Sb.
  assert (W' : ordered false c' [r; a; b]) by (apply (ordered_sub false c); assumption).
  pose proof (sub_within c' c _ W Sb) as Wn. unfold within in Wn. split_ids Wn.
  pose proof (plain_open c' _ W') as O. unfold open_at in O. split_ids O.
  split; [exact W' |]. split; [lia |]. split; [lia |].
  split; apply (shl_int64 (lo_at c a) (hi_at c a) _ _ (hi_at c b)); try assumption; lia.
Qed.

Lemma shl_64_fulfils r a b :
  fulfils (shl_ready_64 r a b) [r; a; b] (fun s => s r = s a * 2 ^ s b) (fire_bounds_shl_64 r a b).
Proof.
  intros c W. unfold fire_bounds_shl_64.
  assert (Cl : forall z, 0 <= z -> (if z <? 0 then 0 else z) = z) by (intros z Hz; destruct (Z.ltb_spec z 0); lia).
  assert (Ch : forall z, z <= 63 -> (if z >? 63 then 63 else z) = z) by (intros z Hz; destruct (Z.gtb_spec z 63); lia).
  assert (Ex : forall x t, lo_at c a <= x <= hi_at c a -> lo_at c b <= t <= hi_at c b ->
    s64 (Z.shiftl x t) = x * 2 ^ t /\ int64 (x * 2 ^ t)).
  { intros x t Hx Ht. destruct W as (_ & L & _ & Il & Ih). rewrite Z.shiftl_mul_pow2 by lia.
    assert (I : int64 (x * 2 ^ t)) by (apply (shl_int64 (lo_at c a) (hi_at c a) _ _ (hi_at c b)); try assumption; lia).
    split; [apply s64_small |]; exact I. }
  pose proof W as (_ & Lb & Ub & _). split.
  - enter W. apply sound_here. cbv beta zeta. reads. rewrite (Cl _ Lb), (Ch _ Ub). windows.
    destruct (Ex (lo_at c a) (lo_at c b)) as [-> I1]; try lia. destruct (Ex (hi_at c a) (lo_at c b)) as [-> I2]; try lia.
    win_go W; rewrite ?Z.shiftr_div_pow2 by lia.
    5, 7: windows; apply shift_int64; unfold int64; lia.
    all: intros s D Rs; around_all.
    5, 6: replace (lo_at c b) with (s b) in * by lia; rewrite <- (Z.div_mul (s a) (2 ^ s b)), <- Rs
      by (pose proof (Z.pow_pos_nonneg 2 (s b)); lia); apply shift_mono; lia.
    1, 2: replace (lo_at c a) with (s a) by lia; replace (lo_at c b) with (s b) by lia; lia.
    all: destruct (shl_mono (lo_at c a) (s a) (lo_at c b) (s b)), (shl_mono (s a) (hi_at c a) (s b) (s b)); try lia.
    replace (lo_at c b) with (s b) by lia. lia.
  - intros F. apply (pin_start (shl_ready_64 r a b) [r; a; b] _ _ c W F). intros s Pn. pin_open_all Pn.
    destruct (pin_at _ _ _ c a Pn) as [Ea Eh]; [here_in |]. destruct (pin_at _ _ _ c b Pn) as [Eb Ebh]; [here_in |].
    apply dec_here. cbv beta zeta. pin_reads Pn.
    rewrite Cl, Ch, Z.eqb_refl by lia. cbv iota. destruct (Ex (s a) (s b)) as [-> I]; try lia. pin_go Pn.
Qed.

(** ** Right shift *)

(** The rule from the result to the operand, at the amount [k]. *)
Definition lshr_back (rid aid k : Z) : fire_t :=
  here (fun c =>
    let rlo := lo64 c rid in let rhi := hi64 c rid in
    let nlo := shl_checked rlo k in
    let nhi := if rhi <? INT64_MAX then shl_checked (rhi + 1) k else (true, 0) in
    (if fst nlo then lb64 aid (snd nlo) else ret PROP_OK) >>?
    (if (rhi <? INT64_MAX) && fst nhi && (snd nhi >? INT64_MIN) then ub64 aid (snd nhi - 1) else ret PROP_OK)).

Definition clamp (m v : Z) : Z := let v := if v <? 0 then 0 else v in if v >? m then m else v.
(** A pattern of an unsigned 64-bit amount above 2^63. *)
Definition amount (v : variable) (x : Z) : Z :=
  if negb (is_signed v) && (width v >=? 64) && (x <? 0) then INT64_MAX else x.

Definition fire_bounds_lshr_64 (rid aid bid : Z) : fire_t :=
  here (fun c =>
    let alo := lo64 c aid in let ahi := hi64 c aid in
    let b0 := amount (var_at c bid) (lo64 c bid) in
    let b1 := amount (var_at c bid) (hi64 c bid) in
    if is_signed (var_at c aid) then
      let blo := clamp 63 b0 in let bhi := clamp 63 b1 in
      let r_lo := if alo >=? 0 then ashr64 alo bhi else ashr64 alo blo in
      let r_hi := if ahi >=? 0 then ashr64 ahi blo else ashr64 ahi bhi in
      lb64 rid r_lo >>? ub64 rid r_hi >>?
      (if blo =? bhi then lshr_back rid aid blo else ret PROP_OK)
    else
      let aw := width (var_at c aid) in
      let maxsh := if negb (aw =? 0) && (aw <=? 63) then aw else 63 in
      let blo := clamp maxsh b0 in let bhi := clamp maxsh b1 in
      if (alo =? ahi) && (blo =? bhi) then
        let exact := if alo >=? 0 then Z.shiftr alo blo else s64 (Z.shiftr (u64 alo) blo) in
        lb64 rid exact >>? ub64 rid exact
      else if (blo =? bhi) && (alo >=? 0) then
        lb64 rid (Z.shiftr alo blo) >>? ub64 rid (Z.shiftr ahi blo) >>? lshr_back rid aid blo
      else if (alo >=? 0) && (bhi >? 0) then
        lb64 rid (Z.shiftr alo bhi) >>? ub64 rid (Z.shiftr ahi blo)
      else ret PROP_OK).

(** The amount is not negative. *)
Definition lshr_ready_64 (r a b : Z) c : Prop := ordered false c [r; a; b] /\ 0 <= lo_at c b.
#[export] Instance lshr_stable_64 r a b : Stable (lshr_ready_64 r a b) [r; a; b].
Proof.
  constructor; [intros c W; apply W |]. intros c c' (W & L) Sb. split; [apply (ordered_sub false c); assumption |].
  pose proof (sub_within c' c _ W Sb) as Wn. unfold within in Wn. split_ids Wn. lia.
Qed.

Lemma lshr_corners l h x p t q : l <= x <= h -> 0 <= p <= t -> t <= q ->
  (if l >=? 0 then l / 2 ^ q else l / 2 ^ p) <= x / 2 ^ t <= (if h >=? 0 then h / 2 ^ p else h / 2 ^ q).
Proof.
  intros Hx Hp Hq. pose proof (shift_mono l x t). pose proof (shift_mono x h t).
  destruct (shift_amount l p t), (shift_amount l t q), (shift_amount h p t), (shift_amount h t q); try lia.
  destruct (Z.geb_spec l 0), (Z.geb_spec h 0); lia.
Qed.

Lemma lshr_back_sound R r a b k c : lshr_ready_64 r a b c -> 0 <= k <= 63 ->
  (forall s, in_dom c s -> R s -> s r = s a / 2 ^ k) -> sound_from R (lshr_back r a k) c.
Proof.
  intros W Hk E. unfold lshr_back. enter W. apply sound_here. cbv beta zeta. reads. windows.
  assert (Sp : forall v, int64 v -> fst (shl_checked v k) = true ->
    snd (shl_checked v k) = v * 2 ^ k /\ int64 (v * 2 ^ k)) by (intros v Iv; apply shl_checked_spec; assumption).
  win_go W.
  1, 2: destruct (Sp (lo_at c r)) as [-> I]; [unfold int64; lia | assumption |]; try exact I.
  2, 3: unfold INT64_MAX, INT64_MIN in *; destruct (Z.ltb_spec (hi_at c r) (2 ^ 63 - 1)); [| discriminate];
    destruct (Sp (hi_at c r + 1)) as [Eh I]; [unfold int64; lia | lia | rewrite ?Eh in *].
  2: unfold int64 in *; lia.
  all: intros s D Rs; around_all; destruct (shift_back (s a) k (s r) (proj1 Hk) (E s ltac:(assumption) Rs)) as [L U];
    pose proof (Z.pow_pos_nonneg 2 k); nia.
Qed.

Lemma clamp_range m v : 0 <= m -> 0 <= clamp m v <= m.
Proof.
  unfold clamp. intros Hm. destruct (Z.ltb_spec v 0); cbv iota; [destruct (Z.gtb_spec 0 m) | destruct (Z.gtb_spec v m)]; lia.
Qed.
Lemma clamp_mono m u v : 0 <= m -> u <= v -> clamp m u <= clamp m v.
Proof.
  unfold clamp. intros Hm Hu. destruct (Z.ltb_spec u 0), (Z.ltb_spec v 0); cbv iota;
    repeat match goal with |- context [?x >? m] => destruct (Z.gtb_spec x m) end; lia.
Qed.
Lemma clamp_amount m x v : 0 <= m -> 0 <= v -> - 2 ^ m <= x < 2 ^ m -> x / 2 ^ clamp m v = x / 2 ^ v.
Proof.
  unfold clamp. intros Hm Hv Hx. destruct (Z.ltb_spec v 0); [lia |]. cbv iota. destruct (Z.gtb_spec v m); [| reflexivity].
  symmetry. apply shift_all; [exact Hx | lia].
Qed.
Lemma amount_plain c ids x v : ordered false c ids -> In x ids -> amount (var_at c x) v = v.
Proof.
  intros W Ix. pose proof (mb_order _ _ _ (ordered_member false c ids x W Ix)) as Ord. unfold beyond in Ord. unfold amount.
  destruct (is_signed (var_at c x)); [reflexivity |]. cbn [negb andb] in *.
  destruct (Z.geb_spec (width (var_at c x)) 64); [lia | reflexivity].
Qed.
(** The window of an operand, and the amount past which nothing is left of it. *)
Lemma operand_range c ids x : ordered false c ids -> In x ids ->
  if is_signed (var_at c x) then True else
  0 <= lo_at c x /\ hi_at c x < 2 ^ width (var_at c x) /\ 1 <= width (var_at c x) <= 63 /\
  (if negb (width (var_at c x) =? 0) && (width (var_at c x) <=? 63) then width (var_at c x) else 63) = width (var_at c x).
Proof.
  intros W Ix. destruct (is_signed (var_at c x)) eqn:Sg; [exact I |].
  pose proof (ordered_member false c ids x W Ix) as M. pose proof (mb_order _ _ _ M) as Ord. unfold beyond in Ord. rewrite Sg in Ord.
  cbn [negb andb] in Ord. pose proof (width_ok c ids x W Ix) as Ww.
  pose proof (gd_hi _ (proj1 W x (mb_valid _ _ _ M))) as U. unfold vmax in U. rewrite Sg in U. fold (hi_at c x) in U.
  split; [apply (unsigned_nonneg c ids); assumption |]. split; [lia |]. split; [lia |].
  destruct (Z.eqb_spec (width (var_at c x)) 0), (Z.leb_spec (width (var_at c x)) 63); cbn [negb andb]; lia.
Qed.

(** The bounds at an amount range [p..q] under the operand's limit [m], and back. *)
Lemma lshr_amounts r a b c m s : lshr_ready_64 r a b c -> 0 <= m <= 63 -> in_dom c s ->
  - 2 ^ m <= lo_at c a -> hi_at c a < 2 ^ m ->
  lo_at c a <= s a <= hi_at c a /\ 0 <= clamp m (lo_at c b) <= clamp m (s b) /\
  clamp m (s b) <= clamp m (hi_at c b) <= 63 /\ s a / 2 ^ clamp m (s b) = s a / 2 ^ s b.
Proof.
  intros (W & L) Hm D Rl Rh. around_all.
  pose proof (clamp_range m (lo_at c b)). pose proof (clamp_range m (hi_at c b)).
  pose proof (clamp_mono m (lo_at c b) (s b)). pose proof (clamp_mono m (s b) (hi_at c b)).
  rewrite clamp_amount by lia. lia.
Qed.

Lemma lshr_64_sound r a b c : lshr_ready_64 r a b c ->
  sound_from (fun s => s r = s a / 2 ^ s b) (fire_bounds_lshr_64 r a b) c.
Proof.
  intros W. unfold fire_bounds_lshr_64. enter W. apply sound_here. cbv beta zeta. reads.
  rewrite !(amount_plain c [r; a; b] b) by (assumption || here_in).
  pose proof (operand_range c [r; a; b] a ltac:(assumption) ltac:(here_in)) as Rg.
  pose proof (plain_open c _ ltac:(eassumption)) as O. unfold open_at in O. split_ids O.
  destruct (is_signed (var_at c a)).
  - pose proof (clamp_range 63 (lo_at c b) ltac:(lia)). pose proof (clamp_range 63 (hi_at c b) ltac:(lia)).
    rewrite !ashr_exact by (unfold int64; lia).
    pose proof (fun s D => lshr_amounts r a b c 63 s W ltac:(lia) D ltac:(lia) ltac:(lia)) as Am.
    win_go W.
    1, 3: match goal with |- context [?x >=? 0] => destruct (x >=? 0) end; apply shift_int64; unfold int64; lia.
    1, 2: intros s D Rs; around_all; destruct (Am s ltac:(assumption)) as (Ra & Rp & Rq & Re); rewrite Rs, <- Re;
      apply (lshr_corners (lo_at c a) (hi_at c a) (s a) (clamp 63 (lo_at c b)) (clamp 63 (s b)) (clamp 63 (hi_at c b))); lia.
    apply (lshr_back_sound _ r a b); [assumption | lia |]. intros s D Rs. around_all.
    destruct (Am s ltac:(assumption)) as (Ra & Rp & Rq & Re). rewrite Rs, <- Re. do 2 f_equal. lia.
  - destruct Rg as (L0 & U0 & Ww & ->). set (w := width (var_at c a)) in *.
    pose proof (clamp_range w (lo_at c b) ltac:(lia)). pose proof (clamp_range w (hi_at c b) ltac:(lia)).
    assert (P : 0 < 2 ^ w) by (apply Z.pow_pos_nonneg; lia).
    pose proof (fun s D => lshr_amounts r a b c w s W ltac:(lia) D ltac:(lia) ltac:(lia)) as Am.
    rewrite !Z.shiftr_div_pow2 by lia. replace (lo_at c a >=? 0) with true by lia. cbv iota. cbn [andb].
    win_go W; try (apply shift_int64; unfold int64; lia).
    5: { apply (lshr_back_sound _ r a b); [assumption | lia |]. intros s D Rs. around_all.
      destruct (Am s ltac:(assumption)) as (Ra & Rp & Rq & Re). rewrite Rs, <- Re. do 2 f_equal. lia. }
    all: intros s D Rs; around_all; destruct (Am s ltac:(assumption)) as (Ra & Rp & Rq & Re); rewrite Rs, <- Re;
      pose proof (lshr_corners (lo_at c a) (hi_at c a) (s a) (clamp w (lo_at c b)) (clamp w (s b)) (clamp w (hi_at c b)))
        as Co; replace (lo_at c a >=? 0) with true in Co by lia; replace (hi_at c a >=? 0) with true in Co by lia.
    1, 2: replace (lo_at c a) with (s a) by lia; replace (clamp w (lo_at c b)) with (clamp w (s b)) by lia; lia.
    1, 2: replace (clamp w (lo_at c b)) with (clamp w (hi_at c b)) in * by lia; lia.
    all: lia.
Qed.

Lemma lshr_64_fulfils r a b :
  fulfils (lshr_ready_64 r a b) [r; a; b] (fun s => s r = s a / 2 ^ s b) (fire_bounds_lshr_64 r a b).
Proof.
  intros c W. split; [apply lshr_64_sound, W |]. intros F.
  apply (pin_start (lshr_ready_64 r a b) [r; a; b] _ _ c W F). intros s Pn. pin_open_all Pn.
  unfold fire_bounds_lshr_64. apply dec_here. cbv beta zeta. pin_reads Pn.
  pose proof (st_plain c W) as Pl. rewrite !(amount_plain c [r; a; b] b) by (assumption || here_in).
  pose proof (operand_range c [r; a; b] a Pl ltac:(here_in)) as Rg. destruct W as [_ Lb].
  destruct (pin_at _ _ _ c a Pn) as [Ea Eh]; [here_in |]. destruct (pin_at _ _ _ c b Pn) as [Eb _]; [here_in |].
  rewrite ?Z.eqb_refl. cbn [andb]. rewrite Eb in Lb.
  destruct (is_signed (var_at c a)).
  - pose proof (clamp_range 63 (s b) ltac:(lia)).
    assert (E : (if s a >=? 0 then ashr64 (s a) (clamp 63 (s b)) else ashr64 (s a) (clamp 63 (s b))) = s a / 2 ^ s b)
      by (rewrite <- (clamp_amount 63 (s a) (s b)) by lia; destruct (s a >=? 0); apply ashr_exact; unfold int64; lia).
    rewrite E. apply (pin_exact _ _ s _ c r _ _ Pn); [here_in | apply shift_int64; unfold int64; lia | auto].
  - destruct Rg as (L0 & U0 & Ww & ->). set (w := width (var_at c a)) in *.
    pose proof (clamp_range w (s b) ltac:(lia)).
    replace (s a >=? 0) with true by lia. cbv iota. rewrite Z.shiftr_div_pow2, clamp_amount by lia.
    rewrite ?Z.eqb_refl. cbn [andb]. cbv iota.
    pin_go Pn; apply shift_int64; unfold int64; lia.
Qed.

(** ** Concatenation *)

(** From the second read of the result on; [lo_w] is the width of the low part. *)
Definition concat_back (rid hid lid lo_w : Z) : fire_t :=
  let lo_mask := if lo_w <? 64 then s64 (Z.shiftl 1 lo_w - 1) else -1 in
  here (fun c =>
    let rlo := lo64 c rid in let rhi := hi64 c rid in
    (if (rlo >=? 0) && (lo_w <? 64) then
       lb64 hid (Z.shiftr rlo lo_w) >>? ub64 hid (Z.shiftr rhi lo_w)
     else ret PROP_OK) >>?
    here (fun c =>
      let hlo := lo64 c hid in let hhi := hi64 c hid in
      (if (hlo =? hhi) && (rlo >=? 0) && (lo_w <? 64) then
         let base := s64 (Z.shiftl hlo lo_w) in
         if (rlo - base >=? 0) && (rhi - base >=? 0) then
           lb64 lid (rlo - base) >>? ub64 lid (rhi - base)
         else ret PROP_OK
       else ret PROP_OK) >>?
      (if lo_w <? 64 then lb64 lid 0 >>? ub64 lid lo_mask else ret PROP_OK) >>?
      here (fun c =>
        if (lo64 c rid =? hi64 c rid) && (lo64 c hid =? hi64 c hid) && (lo64 c lid =? hi64 c lid)
        then ret PROP_ENTAILED else ret PROP_OK))).
Definition fire_bounds_concat_64 (rid hid lid lo_w : Z) : fire_t :=
  here (fun c =>
    let hlo := lo64 c hid in let hhi := hi64 c hid in
    let llo := lo64 c lid in let lhi := hi64 c lid in
    (if (hlo >=? 0) && (llo >=? 0) && (lo_w <? 64) then
       lb64 rid (Z.lor (s64 (Z.shiftl hlo lo_w)) llo) >>? ub64 rid (Z.lor (s64 (Z.shiftl hhi lo_w)) lhi)
     else ret PROP_OK) >>?
    concat_back rid hid lid lo_w).

(** Three variables, with the patterns of an unsigned concatenation that stays
    below the sign bit. *)
Definition concat_ready_64 (w r h l : Z) c : Prop :=
  ordered false c [r; h; l] /\ (r <> h /\ r <> l) /\ 0 <= w <= 62 /\ 0 <= lo_at c r /\
  0 <= lo_at c h /\ hi_at c h < 2 ^ (63 - w) /\ 0 <= lo_at c l /\ hi_at c l < 2 ^ w.
#[export] Instance concat_stable_64 w r h l : Stable (concat_ready_64 w r h l) [r; h; l].
Proof.
  constructor; [intros c W; apply W |]. intros c c' (W & Rs) Sb.
  split; [apply (ordered_sub false c); assumption |].
  pose proof (sub_within c' c _ W Sb) as Wn. unfold within in Wn. split_ids Wn. lia.
Qed.

(** A number in [0..2^63) and its parts. *)
Lemma concat_int64 w h : 0 <= w <= 62 -> 0 <= h < 2 ^ (63 - w) ->
  s64 (Z.shiftl h w) = h * 2 ^ w /\ 0 <= h * 2 ^ w <= 2 ^ 63 - 2 ^ w.
Proof.
  intros Hw Hh. assert (E : 2 ^ 63 = 2 ^ (63 - w) * 2 ^ w) by (rewrite <- Z.pow_add_r by lia; f_equal; lia).
  pose proof (Z.pow_pos_nonneg 2 w). rewrite Z.shiftl_mul_pow2 by lia.
  split; [apply s64_small; unfold int64; nia | nia].
Qed.
Lemma concat_joined w h l : 0 <= w <= 62 -> 0 <= h < 2 ^ (63 - w) -> 0 <= l < 2 ^ w ->
  Z.lor (s64 (Z.shiftl h w)) l = h * 2 ^ w + l /\ 0 <= h * 2 ^ w + l < 2 ^ 63.
Proof.
  intros Hw Hh Hl. destruct (concat_int64 w h Hw Hh) as [E R]. split; [| lia].
  rewrite E, <- (Z.shiftl_mul_pow2 h w), lor_concat by (unfold fits; lia). rewrite Z.shiftl_mul_pow2 by lia. reflexivity.
Qed.
Lemma concat_parts w r h l : 0 <= w -> 0 <= l < 2 ^ w -> r = h * 2 ^ w + l -> h = r / 2 ^ w.
Proof. intros Hw Hl E. apply (Z.div_unique_pos _ _ _ l); lia. Qed.

Lemma concat_back_sound w r h l c : concat_ready_64 w r h l c ->
  sound_from (fun s => s r = s h * 2 ^ w + s l) (concat_back r h l w) c.
Proof.
  intros W. pose proof W as (_ & [Nh Nl] & Hw & Rr & Rh & Uh & Rl & Ul). unfold concat_back.
  assert (P : 0 < 2 ^ w < 2 ^ 63) by (split; [apply Z.pow_pos_nonneg | apply Z.pow_lt_mono_r]; lia).
  assert (M : s64 (Z.shiftl 1 w - 1) = 2 ^ w - 1)
    by (rewrite Z.shiftl_mul_pow2, Z.mul_1_l by lia; apply s64_small; unfold int64; lia).
  rewrite M. enter W. apply sound_here. cbv beta zeta. reads. windows.
  replace (w <? 64) with true by lia. replace (lo_at c r >=? 0) with true by lia. cbn [andb]. cbv iota.
  rewrite !Z.shiftr_div_pow2 by lia.
  assert (Pt : forall s, in_dom c s -> s r = s h * 2 ^ w + s l -> s h = s r / 2 ^ w)
    by (intros s D Rs; around_all; apply (concat_parts w (s r) (s h) (s l)); lia).
  win_frame r W; [apply shift_int64; unfold int64; lia |
    intros s D Rs; rewrite (Pt s D Rs); around_all; apply shift_mono; lia |].
  win_frame r W0; [apply shift_int64; unfold int64; lia |
    intros s D Rs; around_all; rewrite (Pt s) by assumption; apply shift_mono; lia |].
  apply sound_seq_here. cbv beta zeta. reads. rewrite !andb_true_r. withins. unfold kept in *.
  destruct (Z.eqb_spec (lo_at c1 h) (hi_at c1 h)) as [Eh | Nf].
  - destruct (concat_int64 w (lo_at c1 h)) as [-> Rb]; [lia | lia |]. set (base := lo_at c1 h * 2 ^ w) in *.
    assert (Es : forall s, in_dom c1 s -> s r = s h * 2 ^ w + s l -> s l = s r - base).
    { intros s D Rs. around_all. subst base. replace (lo_at c1 h) with (s h) by lia. lia. }
    destruct ((lo_at c r - base >=? 0) && (hi_at c r - base >=? 0)) eqn:Eb.
    + win_frame r W1; [intros s D Rs; rewrite (Es s D Rs); around_all; lia |].
      win_frame r W2; [intros s D Rs; around_all; rewrite (Es s) by assumption; lia |].
      win_frame r W3. win_frame r W4.
      win_go W5. intros s D. withins. unfold kept in *. around_all. subst base.
      replace (lo_at c1 h) with (s h) in * by lia. lia.
    + win_frame r W1. win_frame r W2. win_go W3. exfalso. withins. unfold kept in *. windows.
      destruct (shift_back (lo_at c r) w (lo_at c1 h)) as [Sl _]; [lia | | lia].
      replace (hi_at c r) with (lo_at c r) in * by lia. lia.
  - win_frame r W1. win_frame r W2. win_go W3. exfalso. withins. unfold kept in *. windows.
    replace (hi_at c r) with (lo_at c r) in * by lia. lia.
Qed.

Lemma concat_64_fulfils w r h l :
  fulfils (concat_ready_64 w r h l) [r; h; l] (fun s => s r = s h * 2 ^ w + s l) (fire_bounds_concat_64 r h l w).
Proof.
  intros c W. pose proof W as (_ & _ & Hw & Rr & Rh & Uh & Rl & Ul). unfold fire_bounds_concat_64.
  assert (J : forall x y, lo_at c h <= x <= hi_at c h -> lo_at c l <= y <= hi_at c l ->
    Z.lor (s64 (Z.shiftl x w)) y = x * 2 ^ w + y /\ int64 (x * 2 ^ w + y)).
  { intros x y Hx Hy. destruct (concat_joined w x y) as [E I]; [lia | lia | lia |]. split; [exact E | unfold int64; lia]. }
  assert (P : 0 < 2 ^ w) by (apply Z.pow_pos_nonneg; lia). split.
  - enter W. apply sound_here. cbv beta zeta. reads. windows.
    destruct (J (lo_at c h) (lo_at c l)) as [-> I1]; [lia | lia |].
    destruct (J (hi_at c h) (hi_at c l)) as [-> I2]; [lia | lia |]. win_go W.
    + intros s D Rs. around_all. nia.
    + intros s D Rs. around_all. nia.
    + apply concat_back_sound. assumption.
  - intros F. apply (pin_start (concat_ready_64 w r h l) [r; h; l] _ _ c W F). intros s Pn. pin_open_all Pn.
    destruct (pin_at _ _ _ c h Pn) as [Eh Eh']; [here_in |]. destruct (pin_at _ _ _ c l Pn) as [El El']; [here_in |].
    apply dec_here. cbv beta zeta. pin_reads Pn. destruct (J (s h) (s l)) as [-> I]; [lia | lia |].
    replace (s h >=? 0) with true by lia. replace (s l >=? 0) with true by lia. replace (w <? 64) with true by lia.
    cbn [andb]. cbv iota. apply dec_assoc. apply (pin_exact _ _ s _ c r _ _ Pn); [here_in | exact I | auto].
Qed.
End Fire64.
End Shift64.
