(* ===== verification/Templates.v ===== *)
(** * Templates: the family of propagators
    (src/src/c/dvs_prop_templates.c)

    Which [fire] function a propagator carries and its constants, the
    constraint each stands for, the states it may be fired in, and the proof
    that the family keeps the contract the propagation loop relies on. *)

From Stdlib Require Import ZArith Lia ZifyBool Bool.
From stdpp Require Import base list numbers.
From S2P Require Import Prelude Vars Ctx Store Wide Propagate.
From S2P Require Import Compare32 Arith32 Reify32 Compare64 Arith64 Reify64 Choice64.
From S2P Require Import Window Mul32 Mul64 Bits64 Shift64.
Import Vars Ctx Store Wide Propagate.
Import Compare32 Arith32 Reify32 Compare64 Arith64 Reify64 Choice64.
Import Window Mul32 Mul64 Bits64 Shift64.
Open Scope Z_scope.

Module Templates.

Inductive templ :=
| BoundsLE_32 | BoundsLT_32 | BoundsEQ_32 | BoundsNE_32 | BoundsAdd_32 | UnaryNeg_32
| InSet_32 (elems : list Z) | Implication_32 (bound : Z) (is_ub : bool)
| Reification_32 | ReificationEq_32
| BoundsLE_64 | BoundsLT_64 | BoundsEQ_64 | BoundsNE_64 | BoundsAdd_64 | UnaryNeg_64
| InSet_64 (elems : list Z) | InRanges_64 (ranges : list (Z * Z))
| Implication_64 (bound : Z) (is_ub : bool)
| Reification_64 | ReificationEq_64 | ITEValue_64
| BoundsMul_32 | BoundsDiv_32 | BoundsMod_32 | BoundsMul_64 | BoundsDiv_64 | BoundsMod_64
| BoundsBAND_64 | BoundsBOR_64 | BoundsBXOR_64 | BoundsSHL_64 | BoundsLSHR_64
| BoundsConcat_64 (lo_width : Z).

Section Family.
Context {C : Type} `{StoreLaws C}.
Implicit Types c : C.

(** [p->fire(p, ctx)] with [ws->var_ids\[\]] as [ids]. *)
Definition fire_template (t : templ) (ids : list Z) : fire_t (C := C) :=
  match t, ids with
  | BoundsLE_32, [x; y] => fire_bounds_le_32 x y
  | BoundsLT_32, [x; y] => fire_bounds_lt_32 x y
  | BoundsEQ_32, [x; y] => fire_bounds_eq_32 x y
  | BoundsNE_32, [x; y] => fire_bounds_ne_32 x y
  | BoundsAdd_32, [r; a; b] => fire_bounds_add_32 r a b
  | UnaryNeg_32, [r; a] => fire_unary_neg_32 r a
  | InSet_32 elems, [x] => fire_in_set_32 x elems
  | Implication_32 bound is_ub, [g; v] => fire_implication_32 g v bound is_ub
  | Reification_32, [g; x; y] => fire_reification_32 g x y
  | ReificationEq_32, [g; x; y] => fire_reification_eq_32 g x y
  | BoundsLE_64, [x; y] => fire_bounds_le_64 x y
  | BoundsLT_64, [x; y] => fire_bounds_lt_64 x y
  | BoundsEQ_64, [x; y] => fire_bounds_eq_64 x y
  | BoundsNE_64, [x; y] => fire_bounds_ne_64 x y
  | BoundsAdd_64, [r; a; b] => fire_bounds_add_64 r a b
  | UnaryNeg_64, [r; a] => fire_unary_neg_64 r a
  | InSet_64 elems, [x] => fire_in_set_64 x elems
  | InRanges_64 ranges, [x] => fire_in_ranges_64 x ranges
  | Implication_64 bound is_ub, [g; v] => fire_implication_64 g v bound is_ub
  | Reification_64, [g; x; y] => fire_reification_64 g x y
  | ReificationEq_64, [g; x; y] => fire_reification_eq_64 g x y
  | ITEValue_64, [r; cond; a; b] => fire_ite_value_64 r cond a b
  | BoundsMul_32, [r; a; b] => fire_bounds_mul_32 r a b
  | BoundsDiv_32, [r; a; b] => fire_bounds_div_32 r a b
  | BoundsMod_32, [r; a; b] => fire_bounds_mod_32 r a b
  | BoundsMul_64, [r; a; b] => fire_bounds_mul_64 r a b
  | BoundsDiv_64, [r; a; b] => fire_bounds_div_64 r a b
  | BoundsMod_64, [r; a; b] => fire_bounds_mod_64 r a b
  | BoundsBAND_64, [r; a; b] => fire_bounds_band_64 r a b
  | BoundsBOR_64, [r; a; b] => fire_bounds_bor_64 r a b
  | BoundsBXOR_64, [r; a; b] => fire_bounds_bxor_64 r a b
  | BoundsSHL_64, [r; a; b] => fire_bounds_shl_64 r a b
  | BoundsLSHR_64, [r; a; b] => fire_bounds_lshr_64 r a b
  | BoundsConcat_64 lo_width, [r; hi; lo] => fire_bounds_concat_64 r hi lo lo_width
  | _, _ => ret PROP_OK
  end.

(** A constant bound of a guarded 64-bit propagator is read in its variable's
    order, so the constraint depends on it: [order] is that order. *)
Definition template_sem (order : Z -> bool) (t : templ) (ids : list Z) (s : assignment) : Prop :=
  match t, ids with
  | (BoundsLE_32 | BoundsLE_64), [x; y] => s x <= s y
  | (BoundsLT_32 | BoundsLT_64), [x; y] => s x < s y
  | (BoundsEQ_32 | BoundsEQ_64), [x; y] => s x = s y
  | (BoundsNE_32 | BoundsNE_64), [x; y] => s x <> s y
  | (BoundsAdd_32 | BoundsAdd_64), [r; a; b] => s r = s a + s b
  | (UnaryNeg_32 | UnaryNeg_64), [r; a] => s r = - s a
  | (InSet_32 elems | InSet_64 elems), [x] => In (s x) elems
  | InRanges_64 ranges, [x] => exists r, In r ranges /\ in_range (order x) (s x) r
  | Implication_32 b ub, [g; v] => s g = 1 -> if ub then s v <= b else b <= s v
  | Implication_64 b ub, [g; v] =>
      s g = 1 -> if ub then s v <= bv (order v) b else bv (order v) b <= s v
  | (Reification_32 | Reification_64), [g; x; y] => s g = 1 <-> s x <= s y
  | (ReificationEq_32 | ReificationEq_64), [g; x; y] => s g = 1 <-> s x = s y
  | ITEValue_64, [r; cond; a; b] => ite_sem r cond a b s
  | (BoundsMul_32 | BoundsMul_64), [r; a; b] => s r = s a * s b
  | (BoundsDiv_32 | BoundsDiv_64), [r; a; b] => s b = 0 \/ s r = Z.quot (s a) (s b)
  | (BoundsMod_32 | BoundsMod_64), [r; a; b] => s b = 0 \/ s r = Z.rem (s a) (s b)
  | BoundsBAND_64, [r; a; b] => s r = Z.land (s a) (s b)
  | BoundsBOR_64, [r; a; b] => s r = Z.lor (s a) (s b)
  | BoundsBXOR_64, [r; a; b] => s r = Z.lxor (s a) (s b)
  | BoundsSHL_64, [r; a; b] => s r = s a * 2 ^ s b
  | BoundsLSHR_64, [r; a; b] => s r = s a / 2 ^ s b
  | BoundsConcat_64 w, [r; hi; lo] => s r = s hi * 2 ^ w + s lo
  | _, _ => True
  end.

#[export] Instance template_fires : Fires templ C := { fire := fire_template }.

(** The states a propagator may be fired in: its variables exist, have the
    tiers its fire function reads, one order where it compares patterns, a 0/1
    guard, and stay off the ends at which its arithmetic overflows. *)
Definition template_ready (order : Z -> bool) c (t : templ) (ids : list Z) : Prop :=
  match t, ids with
  | (BoundsLE_32 | BoundsLT_32 | BoundsEQ_32 | BoundsNE_32), [x; y] => wf32 c ids
  | BoundsAdd_32, [r; a; b] => wf32 c ids /\ r <> a /\ r <> b
  | UnaryNeg_32, [r; a] => wf32 c ids /\ INT32_MIN < lo_at c a /\ INT32_MIN < lo_at c r
  | InSet_32 elems, [x] => wf32 c ids /\ Forall int32 elems /\ ~ In INT32_MAX elems
  | Implication_32 b _, [g; v] => wf32 c ids /\ guard_at g c /\ int32 b
  | Reification_32, [g; x; y] => wf32 c ids /\ guard_at g c /\ vmax_at c x <= INT32_MAX
  | ReificationEq_32, [g; x; y] => wf32 c ids /\ guard_at g c
  | (BoundsLE_64 | BoundsLT_64 | BoundsEQ_64 | BoundsNE_64), [x; y] => exists B, ordered B c ids
  | BoundsAdd_64, [r; a; b] => wf64 c ids
  | UnaryNeg_64, [r; a] => ordered false c ids /\ - 2 ^ 63 < lo_at c r /\ - 2 ^ 63 < lo_at c a
  | InSet_64 elems, [x] => ordered false c ids /\ Forall int64 elems /\ ~ In INT64_MAX elems
  | InRanges_64 ranges, [x] =>
      ordered (order x) c ids /\ Forall (fun r => int64 (fst r) /\ int64 (snd r)) ranges
  | Implication_64 b _, [g; v] => guarded (order v) g c [v] /\ int64 b
  | (Reification_64 | ReificationEq_64), [g; x; y] => exists B, guarded B g c [x; y]
  | ITEValue_64, [r; cond; a; b] => exists B, ordered B c [r; a; b] /\ guard_ok c cond
  | BoundsMul_32, [r; a; b] => mul_ready_32 r a b c
  | BoundsDiv_32, [r; a; b] => div_ready_32 r a b c
  | BoundsMod_32, [r; a; b] => mod_ready_32 r a b c
  | BoundsMul_64, [r; a; b] => mul_ready_64 r a b c
  | BoundsDiv_64, [r; a; b] => div_ready_64 r a b c
  | BoundsMod_64, [r; a; b] => mod_ready_64 r a b c
  | (BoundsBAND_64 | BoundsBOR_64 | BoundsBXOR_64), [r; a; b] => plain [r; a; b] c
  | BoundsSHL_64, [r; a; b] => shl_ready_64 r a b c
  | BoundsLSHR_64, [r; a; b] => lshr_ready_64 r a b c
  | BoundsConcat_64 w, [r; hi; lo] => concat_ready_64 w r hi lo c
  | _, _ => False
  end.

Definition template_props (order : Z -> bool) : Propagators templ C := {|
  sem := template_sem order;
  ready := template_ready order |}.

(** Every propagator of the family implements its constraint. *)
Lemma template_implements order t ids c : template_ready order c t ids ->
  sound_from (template_sem order t ids) (fire_template t ids) c /\
  (all_ids (fixed c) ids -> decided (forall s, in_dom c s -> template_sem order t ids s) (fire_template t ids) c).
Proof.
  destruct t; destruct ids as [| i1 [| i2 [| i3 [| i4 [| i5 ids]]]]]; cbn [template_ready]; try contradiction;
    intros R; cbn [template_sem fire_template].
  - apply le_32_implements, R.
  - apply lt_32_implements, R.
  - apply eq_32_implements, R.
  - apply ne_32_implements, R.
  - destruct R as (W & N1 & N2). apply add_32_implements; assumption.
  - destruct R as [W P]. apply neg_32_implements; assumption.
  - destruct R as (W & F & N). apply in_set_32_implements; assumption.
  - destruct R as (W & G & I). apply implication_32_implements; assumption.
  - destruct R as (W & G). apply reif_32_implements; assumption.
  - destruct R as (W & G). apply reif_eq_32_implements; assumption.
  - destruct R as [B W]. apply (le_64_implements B), W.
  - destruct R as [B W]. apply (lt_64_implements B), W.
  - destruct R as [B W]. apply (eq_64_implements B), W.
  - destruct R as [B W]. apply (ne_64_implements B), W.
  - apply add_64_implements, R.
  - destruct R as [W P]. apply neg_64_implements; assumption.
  - destruct R as (W & F & N). apply in_set_64_implements; assumption.
  - destruct R as [W F]. apply in_ranges_64_implements; assumption.
  - destruct R as [G I]. apply implication_64_implements; assumption.
  - destruct R as [B W]. apply (reif_64_implements B), W.
  - destruct R as [B W]. apply (reif_eq_64_implements B), W.
  - destruct R as [B W]. apply (ite_64_implements B), W.
  - apply (mul_32_fulfils i1 i2 i3), R.
  - apply (div_32_fulfils i1 i2 i3), R.
  - apply (mod_32_fulfils i1 i2 i3), R.
  - apply (mul_64_fulfils i1 i2 i3), R.
  - apply (div_64_fulfils i1 i2 i3), R.
  - apply (mod_64_fulfils i1 i2 i3), R.
  - apply (band_64_fulfils i1 i2 i3), R.
  - apply (bor_64_fulfils i1 i2 i3), R.
  - apply (bxor_64_fulfils i1 i2 i3), R.
  - apply (shl_64_fulfils i1 i2 i3), R.
  - apply (lshr_64_fulfils i1 i2 i3), R.
  - apply (concat_64_fulfils lo_width i1 i2 i3), R.
Qed.

Lemma lo_sub c c' ids x n : wf64 c ids -> In x ids -> sub c' c -> n < lo_at c x -> n < lo_at c' x.
Proof.
  intros W Hx Sb L. pose proof (sb_dom _ _ Sb x (wf64_valid c ids x W Hx)). lia.
Qed.
Lemma wf32_wf64 c ids : wf32 c ids -> wf64 c ids.
Proof. intros [K W]. split; [exact K |]. revert W. apply all_ids_mono. tauto. Qed.
Lemma ordered_wf64 B c ids : ordered B c ids -> wf64 c ids.
Proof. intros [K W]. split; [exact K |]. revert W. apply all_ids_mono. tauto. Qed.

Lemma template_ready_sub order c c' t ids :
  template_ready order c t ids -> sub c' c -> template_ready order c' t ids.
Proof.
  intros R Sb.
  destruct t; destruct ids as [| i1 [| i2 [| i3 [| i4 [| i5 ids]]]]]; cbn [template_ready] in *; try contradiction.
  1-4: apply (wf32_sub c); assumption.
  - destruct R as [W R]. split; [apply (wf32_sub c) |]; assumption.
  - destruct R as (W & L1 & L2). pose proof (wf32_wf64 _ _ W) as W'.
    split; [apply (wf32_sub c); assumption |].
    split; eapply lo_sub; eauto; cbn; auto.
  - destruct R as [W R]. split; [apply (wf32_sub c) |]; assumption.
  - destruct R as (W & G & R). split; [apply (wf32_sub c); assumption |].
    split; [eapply guard_sub; eauto; cbn; auto | exact R].
  - destruct R as (W & G & R). split; [apply (wf32_sub c); assumption |].
    split; [eapply guard_sub; eauto; cbn; auto |].
    destruct (sub_vmax c' c i2 Sb) as [_ ->]; [| exact R]. destruct W as (_ & _ & [V _] & _). exact V.
  - destruct R as (W & G). split; [apply (wf32_sub c); assumption |]. eapply guard_sub; eauto; cbn; auto.
  - destruct R as [B W]. exists B. apply (ordered_sub B c); assumption.
  - destruct R as [B W]. exists B. apply (ordered_sub B c); assumption.
  - destruct R as [B W]. exists B. apply (ordered_sub B c); assumption.
  - destruct R as [B W]. exists B. apply (ordered_sub B c); assumption.
  - apply (wf64_sub c); assumption.
  - destruct R as (W & L1 & L2). pose proof (ordered_wf64 _ _ _ W) as W'.
    split; [apply (ordered_sub false c); assumption |]. split; eapply lo_sub; eauto; cbn; auto.
  - destruct R as [W R]. split; [apply (ordered_sub false c) |]; assumption.
  - destruct R as [W R]. split; [apply (ordered_sub (order i1) c) |]; assumption.
  - destruct R as [W R]. split; [apply (guarded_sub _ _ c) |]; assumption.
  - destruct R as [B W]. exists B. apply (guarded_sub B i1 c); assumption.
  - destruct R as [B W]. exists B. apply (guarded_sub B i1 c); assumption.
  - destruct R as (B & W & G). exists B. split; [apply (ordered_sub B c) | apply (guard_ok_sub c)]; assumption.
  - apply (st_sub32 (wf := mul_ready_32 i1 i2 i3) (ids := [i1; i2; i3]) c); assumption.
  - apply (st_sub32 (wf := div_ready_32 i1 i2 i3) (ids := [i1; i2; i3]) c); assumption.
  - apply (st_sub32 (wf := mod_ready_32 i1 i2 i3) (ids := [i1; i2; i3]) c); assumption.
  - apply (st_sub (wf := mul_ready_64 i1 i2 i3) (ids := [i1; i2; i3]) c); assumption.
  - apply (st_sub (wf := div_ready_64 i1 i2 i3) (ids := [i1; i2; i3]) c); assumption.
  - apply (st_sub (wf := mod_ready_64 i1 i2 i3) (ids := [i1; i2; i3]) c); assumption.
  - apply (ordered_sub false c); assumption.
  - apply (ordered_sub false c); assumption.
  - apply (ordered_sub false c); assumption.
  - apply (st_sub (wf := shl_ready_64 i1 i2 i3) (ids := [i1; i2; i3]) c); assumption.
  - apply (st_sub (wf := lshr_ready_64 i1 i2 i3) (ids := [i1; i2; i3]) c); assumption.
  - apply (st_sub (wf := concat_ready_64 lo_width i1 i2 i3) (ids := [i1; i2; i3]) c); assumption.
Qed.

#[export] Instance template_laws order : PropagatorLaws templ C (Propagators0 := template_props order).
Proof.
  constructor.
  - intros c c' t ids. apply template_ready_sub.
  - intros c t ids _ R. apply (template_implements order t ids c R).
  - intros c t ids _ R. apply (template_implements order t ids c R).
Qed.
End Family.
End Templates.
