(* ===== verification/Constructors.v ===== *)
(** * Constructors: the [prop_add_*] functions
    (src/src/c/dvs_prop_templates.c)

    Each allocates the block of its template with the variables in the order
    the [fire] function reads them.  Some pick the 64-bit template when a
    variable is not tier 0, where the 32-bit one would read the wrong fields.
    The constants a constructor stores into the block right after the
    allocation are part of the template here. *)

From Stdlib Require Import ZArith Lia ZifyBool Bool.
From stdpp Require Import base gmap list numbers.
From S2P Require Import Prelude Vars Ctx Queue DynStack Trail GuardIx Wake Store Wide Tighten Propagate Build.
From S2P Require Import Reify64 Templates.
Import Vars Ctx Queue DynStack Trail GuardIx Wake Store Wide Tighten Propagate Build.
Import Reify64 Templates.
Open Scope Z_scope.

Module Constructors.

Section Ops.
Context {M S : Type} `{BuildEnv templ}.
Implicit Types c : ctx templ M S.

(** [sizeof] of the plain block: header, watch section, padding. *)
Definition PROP_SIZE : Z := 64.
Definition promoted c (id : Z) : bool := negb (var_is_tier0 (flags (var c id))).

Definition prop_add_bounds_le_32 c x_id y_id prio := alloc_prop c BoundsLE_32 prio [x_id; y_id] PROP_SIZE.
Definition prop_add_bounds_lt_32 c x_id y_id prio := alloc_prop c BoundsLT_32 prio [x_id; y_id] PROP_SIZE.
Definition prop_add_bounds_eq_32 c x_id y_id prio := alloc_prop c BoundsEQ_32 prio [x_id; y_id] PROP_SIZE.
Definition prop_add_bounds_add_32 c r_id a_id b_id prio :=
  alloc_prop c BoundsAdd_32 prio [r_id; a_id; b_id] PROP_SIZE.
Definition prop_add_unary_neg_32 c r_id a_id prio := alloc_prop c UnaryNeg_32 prio [r_id; a_id] PROP_SIZE.
Definition prop_add_in_set_32 c x_id (elems : list Z) prio :=
  alloc_prop c (InSet_32 elems) prio [x_id] (u32 (72 + u32 (Z.of_nat (length elems) * 4))).

Definition prop_add_bounds_le_64 c x_id y_id prio := alloc_prop c BoundsLE_64 prio [x_id; y_id] PROP_SIZE.
Definition prop_add_bounds_lt_64 c x_id y_id prio := alloc_prop c BoundsLT_64 prio [x_id; y_id] PROP_SIZE.
Definition prop_add_bounds_eq_64 c x_id y_id prio := alloc_prop c BoundsEQ_64 prio [x_id; y_id] PROP_SIZE.
Definition prop_add_bounds_ne_64 c x_id y_id prio := alloc_prop c BoundsNE_64 prio [x_id; y_id] PROP_SIZE.
Definition prop_add_bounds_add_64 c r_id a_id b_id prio :=
  alloc_prop c BoundsAdd_64 prio [r_id; a_id; b_id] PROP_SIZE.
Definition prop_add_unary_neg_64 c r_id a_id prio := alloc_prop c UnaryNeg_64 prio [r_id; a_id] PROP_SIZE.
Definition prop_add_ite_value_64 c r_id cond_id a_id b_id prio :=
  alloc_prop c ITEValue_64 prio [r_id; cond_id; a_id; b_id] PROP_SIZE.
Definition prop_add_in_set_64 c x_id (elems : list Z) prio :=
  alloc_prop c (InSet_64 elems) prio [x_id] (u32 (72 + u32 (Z.of_nat (length elems) * 8))).
Definition prop_add_in_ranges_64 c x_id (ranges : list (Z * Z)) prio :=
  alloc_prop c (InRanges_64 ranges) prio [x_id] (u32 (72 + u32 (u32 (2 * Z.of_nat (length ranges)) * 8))).
Definition prop_add_implication_64 c guard_id var_id bound (is_ub : bool) prio :=
  alloc_prop c (Implication_64 bound is_ub) prio [guard_id; var_id] 80.
Definition prop_add_reification_64 c guard_id x_id y_id prio :=
  alloc_prop c Reification_64 prio [guard_id; x_id; y_id] PROP_SIZE.
Definition prop_add_reification_eq_64 c guard_id x_id y_id prio :=
  alloc_prop c ReificationEq_64 prio [guard_id; x_id; y_id] PROP_SIZE.

Definition prop_add_bounds_mul_32 c r_id a_id b_id prio := alloc_prop c BoundsMul_32 prio [r_id; a_id; b_id] PROP_SIZE.
Definition prop_add_bounds_div_32 c r_id a_id b_id prio := alloc_prop c BoundsDiv_32 prio [r_id; a_id; b_id] PROP_SIZE.
Definition prop_add_bounds_mul_64 c r_id a_id b_id prio := alloc_prop c BoundsMul_64 prio [r_id; a_id; b_id] PROP_SIZE.
Definition prop_add_bounds_div_64 c r_id a_id b_id prio := alloc_prop c BoundsDiv_64 prio [r_id; a_id; b_id] PROP_SIZE.
Definition prop_add_bounds_band_64 c r_id a_id b_id prio := alloc_prop c BoundsBAND_64 prio [r_id; a_id; b_id] PROP_SIZE.
Definition prop_add_bounds_bor_64 c r_id a_id b_id prio := alloc_prop c BoundsBOR_64 prio [r_id; a_id; b_id] PROP_SIZE.
Definition prop_add_bounds_bxor_64 c r_id a_id b_id prio := alloc_prop c BoundsBXOR_64 prio [r_id; a_id; b_id] PROP_SIZE.
Definition prop_add_bounds_shl_64 c r_id a_id b_id prio := alloc_prop c BoundsSHL_64 prio [r_id; a_id; b_id] PROP_SIZE.
Definition prop_add_bounds_lshr_64 c r_id a_id b_id prio := alloc_prop c BoundsLSHR_64 prio [r_id; a_id; b_id] PROP_SIZE.
Definition prop_add_bounds_concat_64 c r_id hi_id lo_id lo_width prio :=
  alloc_prop c (BoundsConcat_64 lo_width) prio [r_id; hi_id; lo_id] PROP_SIZE.

(** The ones that promote. *)
Definition prop_add_bounds_ne_32 c x_id y_id prio :=
  if promoted c x_id || promoted c y_id then prop_add_bounds_ne_64 c x_id y_id prio
  else alloc_prop c BoundsNE_32 prio [x_id; y_id] PROP_SIZE.
Definition prop_add_implication_32 c guard_id var_id bound (is_ub : bool) prio :=
  if promoted c var_id then prop_add_implication_64 c guard_id var_id bound is_ub prio
  else alloc_prop c (Implication_32 bound is_ub) prio [guard_id; var_id] 72.
Definition prop_add_reification_32 c guard_id x_id y_id prio :=
  if promoted c x_id || promoted c y_id then prop_add_reification_64 c guard_id x_id y_id prio
  else alloc_prop c Reification_32 prio [guard_id; x_id; y_id] PROP_SIZE.
Definition prop_add_reification_eq_32 c guard_id x_id y_id prio :=
  if promoted c x_id || promoted c y_id then prop_add_reification_eq_64 c guard_id x_id y_id prio
  else alloc_prop c ReificationEq_32 prio [guard_id; x_id; y_id] PROP_SIZE.
End Ops.

(** ** Posting a constraint *)

Section Post.
Context {M S : Type} `{DynStack M S} `{Env} `{BuildEnv templ} `{!BuildEnvLaws templ}.
Context (order : Z -> bool).
Implicit Types c : ctx templ M S.
#[local] Instance family : Propagators templ (ctx templ M S) := template_props order.

(** The result of a constructor: no room, and nothing but the tables changed,
    or the constraint [R] is posted, ready to be propagated. *)
Definition posted c (R : assignment -> Prop) (r : Z * ctx templ M S) : Prop :=
  let '(ref, c') := r in
  if ref =? EXPR_NULL then roomy c c'
  else built c' /\ pinv None c' /\
    forall s, solves c' s <->
      solves c s /\ R s.

Lemma alloc_posted c t prio ids bytes : built c -> pinv None c ->
  (forall v, v ∈ ids -> 0 <= v < n_vars c) -> 0 <= prio < 16 -> template_ready order c t ids ->
  posted c (template_sem order t ids) (alloc_prop c t prio ids bytes).
Proof.
  intros B I Hv Pr Rd. pose proof (alloc_added c t prio ids bytes B Hv Pr) as A. unfold posted.
  destruct (alloc_prop c t prio ids bytes) as [ref c']. destruct (_ =? _); [exact A |].
  split; [apply (ad_built _ _ _ _ _ _ A) |].
  split; [apply (added_pinv c t prio ids ref c' A I Rd) |].
  intros s. pose proof (added_solves (Propagators0 := family) c t prio ids ref c' s A) as E. exact E.
Qed.
End Post.

(** ** The constructors that promote *)

Section Promotion.
Context {M S : Type} `{DynStack M S} `{Env} `{BuildEnv templ} `{!BuildEnvLaws templ}.
Context (order : Z -> bool).
Implicit Types c : ctx templ M S.
#[local] Instance family2 : Propagators templ (ctx templ M S) := template_props order.

Lemma not_promoted c x : promoted c x = false -> tier0 c x.
Proof. unfold promoted, tier0. apply negb_false_iff. Qed.

Lemma both_tier0 c x y : promoted c x || promoted c y = false -> tier0 c x /\ tier0 c y.
Proof. intros E. apply orb_false_iff in E as [E1 E2]. split; apply not_promoted; assumption. Qed.

(** Either template posts the same constraint. *)
Lemma promotes c R (b : bool) p q : (b = true -> posted order c R p) -> (b = false -> posted order c R q) ->
  posted order c R (if b then p else q).
Proof. destruct b; auto. Qed.

Lemma posted_iff c (R R' : assignment -> Prop) r :
  (forall s, R s <-> R' s) -> posted order c R r -> posted order c R' r.
Proof.
  intros E. destruct r as [ref c']. unfold posted. destruct (_ =? _); [auto |].
  intros (B & I & P). split; [exact B |]. split; [exact I |]. intros s. rewrite P, E. reflexivity.
Qed.

Lemma ordered_two B c x y : ordered B c [x; y] ->
  st_ok c /\ (0 <= x < n_vars c) /\ (0 <= y < n_vars c) /\ beyond (var c x) = B.
Proof. intros (K & [Vx Bx] & [Vy _] & _). cbn in *. auto. Qed.

Lemma tier0_order B c x : ordered B c [x] -> tier0 c x -> B = false.
Proof.
  intros (K & [V E] & _) T. rewrite <- E. unfold beyond.
  destruct (good_tier0 (var_at c x) (K x V) T) as (_ & _ & _ & _ & W).
  replace (64 <=? width (var_at c x)) with false by lia. apply andb_false_r.
Qed.

Lemma ids_in c x y : 0 <= x < n_vars c -> 0 <= y < n_vars c -> forall v, v ∈ [x; y] -> 0 <= v < n_vars c.
Proof. intros Hx Hy v Hv. rewrite !elem_of_cons in Hv. destruct Hv as [-> | [-> | Hv]]; auto. inversion Hv. Qed.
Lemma ids_in3 c x y z : 0 <= x < n_vars c -> 0 <= y < n_vars c -> 0 <= z < n_vars c ->
  forall v, v ∈ [x; y; z] -> 0 <= v < n_vars c.
Proof.
  intros Hx Hy Hz v Hv. rewrite !elem_of_cons in Hv. destruct Hv as [-> | [-> | [-> | Hv]]]; auto. inversion Hv.
Qed.

Lemma post_ne_32 B c x y prio : built c -> pinv None c -> 0 <= prio < 16 -> ordered B c [x; y] ->
  posted order c (fun s => s x <> s y) (prop_add_bounds_ne_32 c x y prio).
Proof.
  intros Bt I Pr O. destruct (ordered_two B c x y O) as (K & Vx & Vy & _). apply promotes; intros E.
  - apply (alloc_posted order c BoundsNE_64); [exact Bt | exact I | apply ids_in; assumption | exact Pr | exists B; exact O].
  - destruct (both_tier0 c x y E). apply (alloc_posted order c BoundsNE_32); [exact Bt | exact I | apply ids_in; assumption | exact Pr |].
    split; [exact K |]. cbn. auto.
Qed.

Lemma post_implication_32 c g v b (ub : bool) prio : built c -> pinv None c -> 0 <= prio < 16 ->
  guarded (order v) g c [v] -> int32 b ->
  posted order c (fun s => s g = 1 -> if ub then s v <= bv (order v) b else bv (order v) b <= s v)
    (prop_add_implication_32 c g v b ub prio).
Proof.
  intros Bt I Pr [O G] Ib. pose proof O as (K & [V _] & _). pose proof (gk_valid _ _ G) as Vg. apply promotes; intros E.
  - apply (alloc_posted order c (Implication_64 b ub)); [exact Bt | exact I | apply ids_in; assumption | exact Pr |].
    split; [split; assumption | apply int32_64, Ib].
  - apply not_promoted in E. pose proof (tier0_order _ c v O E) as Eo. rewrite Eo. cbn [bv].
    apply (alloc_posted order c (Implication_32 b ub)); [exact Bt | exact I | apply ids_in; assumption | exact Pr |].
    split; [split; [exact K |]; cbn; split; [split; [exact Vg | apply G] | auto] |].
    split; [| exact Ib]. split; apply (gk_rng _ _ G).
Qed.

Lemma post_reification_32 B c g x y prio : built c -> pinv None c -> 0 <= prio < 16 ->
  guarded B g c [x; y] -> (tier0 c x -> vmax (var c x) <= INT32_MAX) ->
  posted order c (fun s => s g = 1 <-> s x <= s y) (prop_add_reification_32 c g x y prio).
Proof.
  intros Bt I Pr [O G] Mx. destruct (ordered_two B c x y O) as (K & Vx & Vy & _).
  pose proof (gk_valid _ _ G) as Vg. apply promotes; intros E.
  - apply (alloc_posted order c Reification_64); [exact Bt | exact I | apply ids_in3; assumption | exact Pr |]. exists B. split; assumption.
  - destruct (both_tier0 c x y E) as [Tx Ty]. apply (alloc_posted order c Reification_32); [exact Bt | exact I | apply ids_in3; assumption | exact Pr |].
    split; [split; [exact K |]; cbn; split; [split; [exact Vg | apply G] | auto] |].
    split; [split; apply (gk_rng _ _ G) | apply Mx, Tx].
Qed.

Lemma post_reification_eq_32 B c g x y prio : built c -> pinv None c -> 0 <= prio < 16 ->
  guarded B g c [x; y] ->
  posted order c (fun s => s g = 1 <-> s x = s y) (prop_add_reification_eq_32 c g x y prio).
Proof.
  intros Bt I Pr [O G]. destruct (ordered_two B c x y O) as (K & Vx & Vy & _).
  pose proof (gk_valid _ _ G) as Vg. apply promotes; intros E.
  - apply (alloc_posted order c ReificationEq_64); [exact Bt | exact I | apply ids_in3; assumption | exact Pr |]. exists B. split; assumption.
  - destruct (both_tier0 c x y E) as [Tx Ty]. apply (alloc_posted order c ReificationEq_32); [exact Bt | exact I | apply ids_in3; assumption | exact Pr |].
    split; [split; [exact K |]; cbn; split; [split; [exact Vg | apply G] | auto] |].
    split; apply (gk_rng _ _ G).
Qed.
End Promotion.
End Constructors.
