(* ===== verification/Solver.v ===== *)
(** * Solver: the propagation engine over its templates

    The pieces together: contexts as the constructors build them, the 34
    templates, the tightenings, the wake-ups and the propagation loop.  The
    theorems here are what a client of [dvs_solver_propagate] relies on. *)

From Stdlib Require Import ZArith Lia ZifyBool Bool.
From stdpp Require Import base gmap list numbers.
From S2P Require Import Prelude Vars Ctx Queue Alloc DynStack Trail GuardIx Wake Store Wide Tighten.
From S2P Require Import Propagate Build Reify64 Templates Constructors.
Import Vars Ctx Queue DynStack Trail GuardIx Wake Store Wide Tighten.
Import Propagate Build Reify64 Templates Constructors.
Open Scope Z_scope.

Module Solver.

(** ** A context without propagators *)

Section Fresh.
Context {T M S : Type} `{DynStack M S} `{Env} `{BuildEnv T}.

(** A context with variables and no propagator. *)
Definition bare (vs : list variable) (s : S) : ctx T M S :=
  fresh_ctx vs ∅ (Some (replicate (length vs) EXPR_NULL)) s.

Lemma bare_heads vs s v : chain_head (bare vs s) v = EXPR_NULL.
Proof.
  unfold chain_head, bare. cbn. destruct (replicate _ _ !! _) as [x |] eqn:E; [| reflexivity].
  apply lookup_replicate in E as [-> _]. reflexivity.
Qed.

Lemma bare_queue vs s : qrep (bare vs s) (fun _ => []).
Proof.
  assert (R : forall l, default EXPR_NULL (replicate 16 EXPR_NULL !! Z.to_nat l) = EXPR_NULL).
  { intros l. destruct (replicate _ _ !! _) as [x |] eqn:E; [| reflexivity].
    apply lookup_replicate in E as [-> _]. reflexivity. }
  constructor; unfold head_at, tail_at; cbn -[replicate].
  - intros r p Hp. rewrite lookup_empty in Hp. discriminate.
  - rewrite length_replicate. auto.
  - intros l _. apply R.
  - intros l _. apply R.
  - split; [unfold fits; lia |]. intros l _. apply Z.bits_0.
  - intros. constructor.
  - intros l r _ X. inversion X.
  - intros r p Hp. rewrite lookup_empty in Hp. discriminate.
Qed.

Lemma bare_built vs s : Z.of_nat (length vs) <= EXPR_NULL -> built (bare vs s).
Proof.
  intros L. constructor; try (cbn; lia); try reflexivity.
  - constructor; try (intros r p; cbn; rewrite lookup_empty; discriminate).
    + exists (fun _ => []). apply bare_queue.
    + intros v _. exists []. rewrite bare_heads. split; [reflexivity |]. split; [constructor |].
      intros r p Hp. cbn in Hp. rewrite lookup_empty in Hp. discriminate.
    + discriminate.
    + intros i. unfold guard_var. cbn. rewrite lookup_nil. cbn. unfold EXPR_NULL. lia.
    + intros ix E. discriminate E.
    + exact L.
    + cbn. lia.
  - unfold DVS_MAX_PROPS. cbn. lia.
  - intros r p Hp. cbn in Hp. rewrite lookup_empty in Hp. discriminate.
  - intros i _. unfold ref_at, guard_var. cbn. rewrite !lookup_nil. auto.
  - cbn. rewrite length_replicate. reflexivity.
Qed.
End Fresh.

(** ** Posting and guarding *)

Section Guards.
Context {T M S : Type} `{DynStack M S} `{Env} `{BuildEnv T} `{!BuildEnvLaws T}
  `{!Fires T (ctx T M S)} `{!Propagators T (ctx T M S)}.
Implicit Types c : ctx T M S.

(** [c'] is [c] with propagator [ref] guarded by [g]. *)
Record newly_guarded c (ref g : Z) c' : Prop := {
  ng_frame : vars c' = vars c /\ pool c' = pool c /\ queue c' = queue c /\
    watcher_heads c' = watcher_heads c /\ prop_refs c' = prop_refs c /\ n_props c' = n_props c /\
    n_prop_refs_capacity c' = n_prop_refs_capacity c;
  ng_len : length (guards c') = length (guards c) /\ prop_guard_vars c' <> None;
  ng_dirty : gix_dirty (guard_ix c') = true;
  ng_far : forall i, n_props c <= i -> guard_var (guards c') i = guard_var (guards c) i;
  ng_pos : forall i, 0 <= guard_var (guards c') i;
  ng_id : forall r p, pool c !! r = Some p ->
    guard_id c' p = if r =? ref then g else guard_id c p }.

Lemma guard_var_insert l i j g : 0 <= i < Z.of_nat (length l) -> 0 <= j ->
  guard_var (<[Z.to_nat i := g]> l) j = if j =? i then g else guard_var l j.
Proof.
  intros Hi Hj. unfold guard_var. destruct (Z.eqb_spec j i) as [-> | Ne].
  - rewrite list_lookup_insert_eq by lia. reflexivity.
  - rewrite list_lookup_insert_ne by lia. reflexivity.
Qed.

Lemma set_guard_spec c ref p g : built c -> pool c !! ref = Some p -> 0 <= g < n_vars c ->
  newly_guarded c ref g (prop_set_guard c ref g).
Proof.
  intros B Hp Hg. destruct (bt_ids c B ref p Hp) as [Hi Hr]. destruct (bt_cap c B) as [Hn _].
  destruct (bt_some c B ltac:(lia)) as [_ Ng]. pose proof (bt_guards c B) as Lg.
  unfold prop_set_guard. rewrite Hp. destruct (prop_guard_vars c) as [gs |] eqn:Eg; [| congruence].
  replace (prop_id p <? n_prop_refs_capacity c) with true by lia.
  unfold guards in Lg. rewrite Eg in Lg. cbn in Lg.
  assert (Gi : forall j, 0 <= j -> guard_var (<[Z.to_nat (prop_id p) := g]> gs) j =
    if j =? prop_id p then g else guard_var gs j) by (intros; apply guard_var_insert; lia).
  pose proof (wi_pos c (bt_wired c B)) as Pos. unfold guards in Pos. rewrite Eg in Pos. cbn in Pos.
  constructor; cbn; auto 10.
  - unfold guards. cbn. rewrite Eg. cbn. rewrite length_insert. split; [reflexivity | discriminate].
  - intros i Hi'. unfold guards. cbn. rewrite Eg. cbn. rewrite Gi by lia.
    destruct (Z.eqb_spec i (prop_id p)); [lia | reflexivity].
  - intros i. unfold guards. cbn. destruct (Z.leb_spec 0 i) as [L | L].
    + rewrite Gi by exact L. specialize (Pos i). destruct (_ =? _); lia.
    + unfold guard_var. replace (Z.to_nat i) with (Z.to_nat 0) by lia.
      change (default EXPR_NULL (<[Z.to_nat (prop_id p):=g]> gs !! Z.to_nat 0))
        with (guard_var (<[Z.to_nat (prop_id p):=g]> gs) 0).
      rewrite Gi by lia. specialize (Pos 0). destruct (_ =? _); lia.
  - intros r q Hq. destruct (bt_ids c B r q Hq) as [Hiq Hrq]. unfold guard_id. cbn. rewrite Eg.
    replace (prop_id q <? n_prop_refs_capacity c) with true by lia. rewrite Gi by lia.
    destruct (Z.eqb_spec r ref) as [-> | Ne].
    + rewrite Hp in Hq. injection Hq as <-. rewrite Z.eqb_refl. reflexivity.
    + destruct (Z.eqb_spec (prop_id q) (prop_id p)) as [E |]; [| reflexivity]. congruence.
Qed.

Lemma guarded_built c ref p g c' : built c -> pool c !! ref = Some p -> ref <> EXPR_NULL ->
  0 <= g < n_vars c -> newly_guarded c ref g c' -> built c'.
Proof.
  intros B Hp Nr Hg [(Ev & Ep & Eq & Ew & Er & En & Ec) [Lg Ng] Dt Fr Pos Gi].
  assert (Nv : n_vars c' = n_vars c) by (unfold n_vars; rewrite Ev; reflexivity).
  assert (Ch : forall v, chain_head c' v = chain_head c v) by (intros; unfold chain_head; rewrite Ew; reflexivity).
  assert (Rf : forall i, ref_at c' i = ref_at c i) by (intros; unfold ref_at; rewrite Er; reflexivity).
  constructor; rewrite ?En, ?Ec, ?Nv, ?Ew, ?Er, ?Ep; try apply B.
  - pose proof (bt_wired c B) as W. constructor; rewrite ?En, ?Ec, ?Nv, ?Ew, ?Er, ?Ep; try apply W; auto.
    + destruct (wi_queue c W) as [qs Q]. exists qs. apply (qrep_links c); auto. rewrite Ep. reflexivity.
    + intros v Hv. rewrite Ch. apply (wi_chain c W v Hv).
    + intros r q Hq Ne. rewrite (Gi r q Hq) in Ne |- *. destruct (bt_ids c B r q Hq) as [Hi Hr].
      rewrite Rf. destruct (Z.eqb_spec r ref) as [-> | _]; [| apply (wi_guard c W r q Hq Ne)].
      split; [exact Hg |]. split; [exact Hi |]. destruct (bt_cap c B).
      split; [apply (bt_some c B); lia |]. auto.
    + intros ix _ E. congruence.
  - rewrite Lg. apply B.
  - intros Hc. split; [apply (bt_some c B Hc) | exact Ng].
  - intros r q Hq. rewrite Rf. apply (bt_ids c B r q Hq).
  - intros i Hi. rewrite Rf, Fr by exact Hi. apply (bt_free c B i Hi).
Qed.

Lemma guarded_solves c ref p g c' s : newly_guarded c ref g c' -> pool c !! ref = Some p ->
  0 <= g < n_vars c -> n_vars c <= EXPR_NULL -> guard_id c p = EXPR_NULL ->
  solves c' s <-> in_dom c s /\ (s g = 0 \/ sem (template p) (watched p) s) /\
    forall r q, r <> ref -> pool c !! r = Some q -> holds c s q.
Proof.
  intros [(Ev & Ep & _) _ _ _ _ Gi] Hp Hg Hn Gp. unfold solves. rewrite Ep, (vars_in_dom c' c s (eq_sym Ev)).
  assert (Hh : forall r q, r <> ref -> pool c !! r = Some q -> holds c' s q <-> holds c s q).
  { intros r q Ne Hq. unfold holds. rewrite (Gi r q Hq). destruct (Z.eqb_spec r ref); [contradiction | tauto]. }
  split; intros (D & A).
  - split; [exact D |]. split.
    + destruct (A ref p Hp) as [[_ X] | X]; [left | right; exact X].
      rewrite (Gi ref p Hp), Z.eqb_refl in X. exact X.
    + intros r q Ne Hq. apply (Hh r q Ne Hq), (A r q Hq).
  - destruct A as [X A]. split; [exact D |]. intros r q Hq.
    destruct (Z.eq_dec r ref) as [-> | Ne]; [| apply (Hh r q Ne Hq), (A r q Ne Hq)].
    rewrite Hp in Hq. injection Hq as <-. unfold holds. rewrite (Gi ref p Hp), Z.eqb_refl.
    destruct X as [X | X]; [left | right; exact X]. split; [unfold EXPR_NULL in *; lia | exact X].
Qed.

Lemma guarded_pinv `{!PropagatorLaws T (ctx T M S)} c ref p g c' : newly_guarded c ref g c' ->
  built c' -> pinv None c -> pool c !! ref = Some p -> 0 <= g < n_vars c -> guard_id c p = EXPR_NULL ->
  pinv None c'.
Proof.
  intros [(Ev & Ep & _) _ _ _ _ Gi] B I Hp Hg Gp.
  pose proof (wi_size c (pi_wired _ _ I)) as Sz.
  destruct (var_of_vars c c' Ev) as [Vs Nv].
  assert (Sb : sub c' c) by (apply vars_sub; [apply I | exact Ev]).
  assert (Hw : forall r q s, pool c !! r = Some q -> holds c s q -> holds c' s q).
  { intros r q s Hq Hs. unfold holds in *. rewrite (Gi r q Hq). destruct (Z.eqb_spec r ref) as [-> | _]; [| exact Hs].
    rewrite Hp in Hq. injection Hq as <-. destruct Hs as [[X _] | X]; [contradiction | auto]. }
  constructor; rewrite ?Ep.
  - apply B.
  - apply (sb_ok _ _ Sb).
  - intros r q Hq. apply (ready_sub c c'); [apply (pi_ready _ _ I r q Hq) | exact Sb].
  - intros r q Hq Eq s D. apply (Hw r q s Hq), (pi_entailed _ _ I r q Hq Eq s), (vars_in_dom c c' s Ev), D.
  - intros r q Hq _. destruct (pi_settled _ _ I r q Hq ltac:(discriminate)) as [Q | [En | Dc]]; auto.
    right; right. intros F s D. apply (Hw r q s Hq), (Dc); [| apply (vars_in_dom c c' s Ev), D].
    intros x Cx. specialize (F x). unfold fixed, lo_at, hi_at in *. cbn in *. rewrite Vs in F. apply F.
    unfold concerns in *. rewrite (Gi r q Hq). destruct Cx as [Cx | [Cx Cn]]; [auto |].
    destruct (Z.eqb_spec r ref) as [-> | _]; [| auto].
    rewrite Hp in Hq. injection Hq as <-. congruence.
Qed.
End Guards.

(** ** Contexts made by posting constraints *)

Section Posting.
Context {M S : Type} `{DynStack M S} `{Env} `{BuildEnv templ} `{!BuildEnvLaws templ}.
Context (order : Z -> bool).
Implicit Types c : ctx templ M S.
#[local] Instance templates : Propagators templ (ctx templ M S) := template_props order.

(** [posting vs s l c]: from the variables [vs], the constructors have made [c],
    whose constraints are [l]; a refused constructor posts nothing. *)
Inductive posting (vs : list variable) (s : S) : list (assignment -> Prop) -> ctx templ M S -> Prop :=
| post_none : posting vs s [] (bare vs s)
| post_refused l c t prio ids bytes c' : posting vs s l c ->
    (forall v, v ∈ ids -> 0 <= v < n_vars c) -> 0 <= prio < 16 -> template_ready order c t ids ->
    alloc_prop c t prio ids bytes = (EXPR_NULL, c') -> posting vs s l c'
| post_plain l c t prio ids bytes ref c' : posting vs s l c ->
    (forall v, v ∈ ids -> 0 <= v < n_vars c) -> 0 <= prio < 16 -> template_ready order c t ids ->
    alloc_prop c t prio ids bytes = (ref, c') -> ref <> EXPR_NULL ->
    posting vs s (template_sem order t ids :: l) c'
| post_guarded l c t prio ids bytes ref c' g : posting vs s l c ->
    (forall v, v ∈ ids -> 0 <= v < n_vars c) -> 0 <= prio < 16 -> template_ready order c t ids ->
    alloc_prop c t prio ids bytes = (ref, c') -> ref <> EXPR_NULL -> 0 <= g < n_vars c ->
    posting vs s ((fun a => a g = 0 \/ template_sem order t ids a) :: l) (prop_set_guard c' ref g).

Record posted_all (vs : list variable) (s : S) (l : list (assignment -> Prop)) c : Prop := {
  pa_built : built c;
  pa_pinv : pinv None c;
  pa_vars : vars c = vs;
  pa_running : prop_aborted c = false;
  pa_solves : forall a, solves c a <-> in_dom (bare vs s : ctx templ M S) a /\ Forall (fun R => R a) l }.

Lemma roomy_solves c c' a : built c -> roomy c c' -> solves c' a <-> solves c a.
Proof.
  intros B R. destruct (roomy_fields c c' R) as (Ev & Ep & _).
  unfold solves. rewrite Ep, (vars_in_dom c c' a Ev).
  assert (Hh : forall r q, pool c !! r = Some q -> holds c' a q <-> holds c a q).
  { intros r q Hq. unfold holds. rewrite (roomy_guard c c' q B R); [tauto |]. apply (bt_ids c B r q Hq). }
  split; intros [D A]; (split; [exact D |]); intros r q Hq; apply (Hh r q Hq), (A r q Hq).
Qed.

Lemma roomy_pinv c c' : built c -> roomy c c' -> pinv None c -> pinv None c'.
Proof.
  intros B R I. destruct (roomy_fields c c' R) as (Ev & Ep & _). destruct (var_of_vars c c' Ev) as [Vs _].
  assert (Gq : forall r q, pool c !! r = Some q -> guard_id c' q = guard_id c q).
  { intros r q Hq. apply (roomy_guard c c' q B R), (bt_ids c B r q Hq). }
  assert (Hh : forall r q a, pool c !! r = Some q -> holds c' a q <-> holds c a q).
  { intros r q a Hq. unfold holds. rewrite (Gq r q Hq). tauto. }
  assert (Sb : sub c' c) by (apply vars_sub; [apply I | exact Ev]).
  constructor; rewrite ?Ep.
  - apply (roomy_built c c' B R).
  - apply (sb_ok _ _ Sb).
  - intros r q Hq. apply (template_ready_sub order c c'); [apply (pi_ready _ _ I r q Hq) | exact Sb].
  - intros r q Hq Eq a D. apply (Hh r q a Hq), (pi_entailed _ _ I r q Hq Eq a), (vars_in_dom c c' a Ev), D.
  - intros r q Hq _. destruct (pi_settled _ _ I r q Hq ltac:(discriminate)) as [Q | [En | Dc]]; auto.
    right; right. intros F a D. apply (Hh r q a Hq), Dc; [| apply (vars_in_dom c c' a Ev), D].
    intros x Cx. specialize (F x). unfold fixed, lo_at, hi_at in *. cbn in *. rewrite Vs in F. apply F.
    unfold concerns in *. rewrite (Gq r q Hq). exact Cx.
Qed.

Lemma bare_pinv vs s : Z.of_nat (length vs) <= EXPR_NULL -> Forall good vs -> pinv None (bare vs s : ctx templ M S).
Proof.
  intros L G. apply fresh_pinv.
  - apply (bare_built vs s L).
  - intros x Hx. cbn in *. unfold n_vars in Hx. cbn in Hx. unfold var. cbn.
    destruct (vs !! Z.to_nat x) as [v |] eqn:E.
    + cbn. rewrite Forall_lookup in G. apply (G _ _ E).
    + apply lookup_ge_None in E. lia.
  - intros r p Hp. cbn in Hp. rewrite lookup_empty in Hp. discriminate.
  - intros r p Hp. cbn in Hp. rewrite lookup_empty in Hp. discriminate.
Qed.

Lemma added_posted vs s l c t prio ids ref c' : posted_all vs s l c -> template_ready order c t ids ->
  added c t prio ids ref c' -> posted_all vs s (template_sem order t ids :: l) c'.
Proof.
  intros [B I Ev Ab Sv] Rd A. destruct (ad_vars _ _ _ _ _ _ A) as (Ev' & _ & _ & _ & Ab').
  constructor; try congruence.
  - apply A.
  - apply (added_pinv c t prio ids ref c' A I Rd).
  - intros a. rewrite (added_solves c t prio ids ref c' a A), Sv, list.Forall_cons. cbn [sem]. tauto.
Qed.

Lemma guarding_posted vs s l R c t ids ref p g : posted_all vs s l c -> 
  (forall a, solves c a <-> in_dom (bare vs s : ctx templ M S) a /\ template_sem order t ids a /\ Forall (fun R => R a) R) ->
  pool c !! ref = Some p -> template p = t -> watched p = ids -> guard_id c p = EXPR_NULL -> ref <> EXPR_NULL ->
  (forall a, in_dom c a -> Forall (fun R => R a) R <-> forall r q, r <> ref -> pool c !! r = Some q -> holds c a q) ->
  0 <= g < n_vars c ->
  posted_all vs s ((fun a => a g = 0 \/ template_sem order t ids a) :: R) (prop_set_guard c ref g).
Proof.
  intros [B I Ev Ab Sv] Sv' Hp Et Ei Gp Nr Rest Hg.
  pose proof (set_guard_spec c ref p g B Hp Hg) as N.
  pose proof (guarded_built c ref p g _ B Hp Nr Hg N) as B'.
  constructor.
  - exact B'.
  - apply (guarded_pinv c ref p g); assumption.
  - rewrite (proj1 (ng_frame _ _ _ _ N)). exact Ev.
  - unfold prop_set_guard. destruct (pool c !! ref), (prop_guard_vars c); try exact Ab.
    destruct (_ <? _); exact Ab.
  - intros a. pose proof (wi_size c (bt_wired c B)) as Sz.
    rewrite (guarded_solves c ref p g _ a N Hp Hg Sz Gp), list.Forall_cons.
    assert (D : in_dom c a <-> in_dom (bare vs s : ctx templ M S) a) by (apply vars_in_dom; symmetry; exact Ev).
    rewrite <- D. cbn [sem]. rewrite Et, Ei. pose proof (Rest a). tauto.
Qed.

(** Before it is guarded, the new propagator is the only one that is not of the
    old context. *)
Lemma added_rest c t prio ids ref c' l a : added c t prio ids ref c' -> in_dom c a ->
  (solves c a <-> Forall (fun R => R a) l) ->
  Forall (fun R : assignment -> Prop => R a) l <->
  forall r q, r <> ref -> pool c' !! r = Some q -> holds c' a q.
Proof.
  intros A D E. rewrite <- E. unfold solves. destruct (ad_fresh _ _ _ _ _ _ A) as [_ Fr]. split.
  - intros [_ Hs] r q' Ne Hq'. destruct (ad_old _ _ _ _ _ _ A r q' Ne Hq') as (q & Hq & Cq & _ & Gq).
    specialize (Hs r q Hq). unfold holds in *. rewrite Gq.
    destruct (core_fields q q' Cq) as (-> & _ & -> & _). exact Hs.
  - intros Hs. split; [exact D |]. intros r q Hq. destruct (ad_keep _ _ _ _ _ _ A r q Hq) as [q' Hq'].
    assert (Ne : r <> ref) by congruence. destruct (ad_old _ _ _ _ _ _ A r q' Ne Hq') as (q0 & Hq0 & Cq & _ & Gq).
    rewrite Hq in Hq0. injection Hq0 as <-. specialize (Hs r q' Ne Hq'). unfold holds in *. rewrite Gq in Hs.
    destruct (core_fields q q' Cq) as (E1 & _ & E2 & _). rewrite E1, E2 in Hs. exact Hs.
Qed.

Lemma posting_all vs s l c : Z.of_nat (length vs) <= EXPR_NULL -> Forall good vs ->
  posting vs s l c -> posted_all vs s l c.
Proof.
  intros L G P. induction P as [| l c t prio ids bytes c' P IH Hv Pr Rd E
    | l c t prio ids bytes ref c' P IH Hv Pr Rd E Nr | l c t prio ids bytes ref c' g P IH Hv Pr Rd E Nr Hg].
  - constructor; try reflexivity; [apply (bare_built vs s L) | apply (bare_pinv vs s L G) |].
    intros a. unfold solves. cbn [pool bare fresh_ctx]. rewrite list.Forall_nil. split; [tauto |].
    intros [D _]. split; [exact D |]. intros r p Hp. cbn in Hp. rewrite lookup_empty in Hp. discriminate.
  - pose proof (alloc_added c t prio ids bytes (pa_built _ _ _ _ IH) Hv Pr) as A. rewrite E in A.
    rewrite Z.eqb_refl in A. destruct (roomy_fields c c' A) as (Ev & _). destruct IH as [B I Ev' Ab Sv].
    constructor.
    + apply (roomy_built c c' B A).
    + apply (roomy_pinv c c' B A I).
    + congruence.
    + rewrite (rm_frame _ _ A). exact Ab.
    + intros a. rewrite (roomy_solves c c' a B A). apply Sv.
  - pose proof (alloc_added c t prio ids bytes (pa_built _ _ _ _ IH) Hv Pr) as A. rewrite E in A.
    destruct (Z.eqb_spec ref EXPR_NULL); [contradiction |].
    apply (added_posted vs s l c t prio ids ref c' IH Rd A).
  - pose proof (alloc_added c t prio ids bytes (pa_built _ _ _ _ IH) Hv Pr) as A. rewrite E in A.
    destruct (Z.eqb_spec ref EXPR_NULL); [contradiction |].
    destruct (ad_vars _ _ _ _ _ _ A) as (Ev' & _). destruct (var_of_vars c c' Ev') as [_ Nv].
    destruct (ad_new _ _ _ _ _ _ A) as (p & Hp & Et & Ei & _ & _ & _ & Gp).
    pose proof (added_posted vs s l c t prio ids ref c' IH Rd A) as IH'.
    apply (guarding_posted vs s (template_sem order t ids :: l) l c' t ids ref p g IH'); auto.
    + intros a. rewrite (pa_solves _ _ _ _ IH'), list.Forall_cons. tauto.
    + intros a D. apply (added_rest c t prio ids ref c' l a A).
      * apply (vars_in_dom c c' a Ev'), D.
      * rewrite (pa_solves _ _ _ _ IH). split; [tauto |]. intros F. split; [| exact F].
        apply (vars_in_dom (bare vs s) c' a); [rewrite Ev'; apply IH | exact D].
    + lia.
Qed.
End Posting.

(** ** What a call of [dvs_solver_propagate] gives *)

Section Outcome.
Context {M S : Type} `{DynStack M S} `{Env} `{BuildEnv templ} `{!BuildEnvLaws templ}.
Context (order : Z -> bool).
Implicit Types c : ctx templ M S.
#[local] Instance templates2 : Propagators templ (ctx templ M S) := template_props order.

Lemma fuel_mono c r c' n k : solver_propagate n c = Some (r, c') -> solver_propagate (n + k) c = Some (r, c').
Proof.
  unfold solver_propagate. destruct (prop_aborted c); [intros [= <- <-]; destruct k; reflexivity |]. apply loop_mono.
Qed.

Lemma rank_fuel c : pinv None c ->
  exists r c', forall fuel, (rank c < fuel)%nat -> solver_propagate fuel c = Some (r, c').
Proof.
  intros I. assert (X : exists r c', solver_propagate (Datatypes.S (rank c)) c = Some (r, c')).
  { destruct (prop_aborted c) eqn:Ab.
    - exists PROP_CONFLICT, c. unfold solver_propagate. rewrite Ab. reflexivity.
    - apply (solver_propagate_spec _ c I Ab). lia. }
  destruct X as (r & c' & E). exists r, c'. intros fuel Hf.
  replace fuel with (Datatypes.S (rank c) + (fuel - Datatypes.S (rank c)))%nat by lia. apply fuel_mono, E.
Qed.

Lemma kept_same c c' : kept c c' -> forall s, solves c s <-> solves c' s.
Proof. intros K s. apply kept_solves, K. Qed.

(** The values of a context whose variables are all fixed. *)
Definition values c : assignment := fun x => lo_at c x.
Definition all_fixed c : Prop := forall x, 0 <= x < n_vars c -> fixed c x.

Lemma fixed_solution c c' : pinv None c' -> kept c c' -> dequeue c' = None -> all_fixed c' -> solves c (values c').
Proof.
  intros I K D F. apply (kept_same c c' K). apply quiet_solution; auto.
  intros x Hx. unfold values. pose proof (dom_ne c' x (pi_ok _ _ I) Hx). lia.
Qed.

(** C3: Soundness of propagation.  Whatever the call returns, from a context in
    the loop's invariant: OK means the queue is empty, the invariant holds and
    the new context has exactly the solutions of the old one; a conflict means
    that there is no solution, or that a budget ran out and then no solution
    was lost; ENTAILED is never returned. *)
Theorem propagate_sound fuel c r c' :
  pinv None c -> prop_aborted c = false -> solver_propagate fuel c = Some (r, c') ->
  match r with
  | PROP_OK => pinv None c' /\ dequeue c' = None /\ forall s, solves c s <-> solves c' s
  | PROP_CONFLICT => (forall s, ~ solves c s) \/
      (prop_aborted c' = true /\ pinv None c' /\ forall s, solves c s <-> solves c' s)
  | PROP_ENTAILED => False
  end.
Proof.
  intros I Ab E. destruct (solver_propagate_spec fuel c I Ab) as [P _]. specialize (P r c' E).
  destruct r; cbn in P.
  - destruct P as (I' & K & D). split; [exact I' |]. split; [exact D | apply kept_same, K].
  - destruct P as [(A & I' & K) | N]; [right | left; exact N].
    split; [exact A |]. split; [exact I' | apply kept_same, K].
  - exact P.
Qed.

(** C4: Propagation ends.  The call takes at most [rank c] turns, the sum of the
    domain sizes times one more than the number of propagators, plus the queue
    length; more fuel gives the same result. *)
Theorem propagate_total c : pinv None c ->
  exists r c', forall fuel, (Z.to_nat (spans (vars c)) * Datatypes.S (size (pool c)) + size (queued_set c) < fuel)%nat ->
    solver_propagate fuel c = Some (r, c').
Proof. apply rank_fuel. Qed.

(** C5: A leaf is a solution.  If propagation returns OK and every variable is
    fixed, the values satisfy every constraint, guards included. *)
Theorem propagate_complete fuel c c' :
  pinv None c -> prop_aborted c = false -> solver_propagate fuel c = Some (PROP_OK, c') ->
  all_fixed c' -> solves c (values c').
Proof.
  intros I Ab E F. destruct (solver_propagate_spec fuel c I Ab) as [P _]. destruct (P _ _ E) as (I' & K & D).
  apply fixed_solution; assumption.
Qed.

(** C8: Propagation is well typed.  After OK the variables are the same, each
    still one the engine can search, of the same width, signedness and tier, and
    its bounds lie within the old ones. *)
Theorem propagate_types fuel c c' :
  pinv None c -> prop_aborted c = false -> solver_propagate fuel c = Some (PROP_OK, c') ->
  n_vars c' = n_vars c /\ forall x, 0 <= x < n_vars c ->
    good (var c' x) /\ flags (var c' x) = flags (var c x) /\ width (var c' x) = width (var c x) /\
    lo_of (var c x) <= lo_of (var c' x) <= hi_of (var c' x) /\ hi_of (var c' x) <= hi_of (var c x).
Proof.
  intros I Ab E. destruct (solver_propagate_spec fuel c I Ab) as [P _]. destruct (P _ _ E) as (I' & [_ Sb _] & _).
  assert (N : n_vars c' = n_vars c).
  { pose proof (sb_valid _ _ Sb) as V. cbn in V. destruct (Z.lt_trichotomy (n_vars c') (n_vars c)) as [L | [L | L]]; auto.
    - specialize (V (n_vars c')). unfold n_vars in *. lia.
    - specialize (V (n_vars c)). unfold n_vars in *. lia. }
  split; [exact N |]. intros x Hx. pose proof (pi_ok _ _ I' x ltac:(cbn; lia)) as G. cbn in G.
  destruct (sb_type _ _ Sb x Hx) as [E1 E2]. pose proof (sb_dom _ _ Sb x Hx) as Bd.
  pose proof (gd_ne _ G). unfold lo_at, hi_at in Bd. cbn in *. repeat (split; [assumption |]). lia.
Qed.

(** C9: A satisfiable problem is answered.  If the context has a solution, the
    call returns either OK with a context that still has it, or the budget's
    abort; when OK leaves every variable fixed, their values are that solution. *)
Theorem propagate_answers c s : pinv None c -> prop_aborted c = false -> solves c s ->
  exists r c', solver_propagate (Datatypes.S (rank c)) c = Some (r, c') /\ solves c' s /\
    (r = PROP_OK /\ all_fixed c' -> forall x, 0 <= x < n_vars c' -> values c' x = s x) /\
    (r = PROP_OK \/ r = PROP_CONFLICT /\ prop_aborted c' = true).
Proof.
  intros I Ab Sv. destruct (rank_fuel c I) as (r & c' & E). specialize (E (Datatypes.S (rank c)) ltac:(lia)).
  destruct (solver_propagate_spec (Datatypes.S (rank c)) c I Ab) as [P _]. specialize (P r c' E).
  exists r, c'. split; [exact E |].
  assert (X : solves c' s /\ (r = PROP_OK \/ r = PROP_CONFLICT /\ prop_aborted c' = true)).
  { destruct r; cbn in P.
    - destruct P as (_ & K & _). split; [apply (kept_same c c' K), Sv | auto].
    - destruct P as [(A & _ & K) | N]; [| elim (N s Sv)]. split; [apply (kept_same c c' K), Sv | auto].
    - contradiction. }
  destruct X as [S' R]. split; [exact S' |]. split; [| exact R]. intros [_ F] x Hx.
  pose proof (F x Hx) as Fx. destruct S' as [D _]. specialize (D x Hx). unfold fixed in Fx. unfold values. lia.
Qed.
End Outcome.

(** ** The parts, as theorems *)

Section Parts.
Context {M S : Type} `{DynStack M S} `{Env} `{BuildEnv templ} `{!BuildEnvLaws templ}.
Context (order : Z -> bool).
Implicit Types c : ctx templ M S.
#[local] Instance templates3 : Propagators templ (ctx templ M S) := template_props order.

(** C1: From constraints to answers.  Take any variables the engine can search
    and any sequence of constructor calls, guarded or not, each ready for its
    variables ([template_ready], see C6): in the context they make, propagation ends; a conflict means that
    no values of the variables satisfy all the posted constraints (unless a
    budget ran out); OK leaves every satisfying assignment in the new domains;
    and if OK leaves every variable fixed, their values satisfy every posted
    constraint. *)
Theorem session_correct vs s l c : Z.of_nat (length vs) <= EXPR_NULL -> Forall good vs ->
  posting order vs s l c ->
  let satisfies a := in_dom (bare vs s : ctx templ M S) a /\ Forall (fun R => R a) l in
  exists r c', (forall fuel, (rank c < fuel)%nat -> solver_propagate fuel c = Some (r, c')) /\
  match r with
  | PROP_OK => (forall a, satisfies a -> in_dom c' a) /\ (all_fixed c' -> satisfies (values c'))
  | PROP_CONFLICT => (forall a, ~ satisfies a) \/ prop_aborted c' = true
  | PROP_ENTAILED => False
  end.
Proof.
  intros L G P satisfies. destruct (posting_all order vs s l c L G P) as [B I _ Ab Sv].
  destruct (rank_fuel order c I) as (r & c' & E). exists r, c'. split; [exact E |].
  specialize (E (Datatypes.S (rank c)) ltac:(lia)).
  destruct (solver_propagate_spec (Datatypes.S (rank c)) c I Ab) as [X _]. specialize (X r c' E).
  destruct r; cbn in X.
  - destruct X as (I' & K & D). split.
    + intros a Sa. apply (kp_dom _ _ K), Sv, Sa.
    + intros F. apply Sv, (fixed_solution order c c'); assumption.
  - destruct X as [(A & _) | N]; [right; exact A | left]. intros a Sa. apply (N a), Sv, Sa.
  - contradiction.
Qed.

(** C6: Each of the 34 templates implements its constraint.  In any state where it is
    ready ([template_ready]: its variables have the widths it reads, a guard is 0
    or 1, no set holds the largest number of the width, and no bound it computes
    overflows), firing loses no assignment that satisfies the constraint,
    reports a conflict only if none does and entailment only if every assignment
    left does; if its variables are fixed and it does not report a conflict,
    their values satisfy the constraint. *)
Theorem templates_implement c t ids : template_ready order c t ids ->
  let '(r, c') := fire_template t ids c in
  match r with
  | PROP_OK => sub c' c /\ forall s, in_dom c s -> template_sem order t ids s -> in_dom c' s
  | PROP_CONFLICT => forall s, in_dom c s -> ~ template_sem order t ids s
  | PROP_ENTAILED => sub c' c /\ (forall s, in_dom c s -> template_sem order t ids s -> in_dom c' s) /\
      forall s, in_dom c' s -> template_sem order t ids s
  end /\
  (all_ids (fixed c) ids -> r <> PROP_CONFLICT -> forall s, in_dom c s -> template_sem order t ids s).
Proof.
  intros R. destruct (template_implements order t ids c R) as [Sd Dc]. unfold sound_from in Sd.
  unfold decided in Dc. destruct (fire_template t ids c) as [r c']. split; [| exact Dc].
  destruct r; [tauto | apply Sd | tauto].
Qed.

(** C7: Tightening is exact.  On a context whose variables the engine can search,
    each of the four functions intersects the domain of the variable with the
    half-line of the bound's number (read unsigned for a 64-bit unsigned
    variable) and changes no other domain, or reports a conflict exactly when
    that intersection is empty. *)
Theorem tighten_exact c x b : st_ok c -> 0 <= x < n_vars c -> int64 b ->
  raises_lb c x (bval (var c x) b) (ctx_tighten_lb64 c x b) /\
  lowers_ub c x (bval (var c x) b) (ctx_tighten_ub64 c x b) /\
  (var_is_tier0 (flags (var c x)) = true -> int32 b ->
    raises_lb c x b (ctx_tighten_lb32 c x b) /\ lowers_ub c x b (ctx_tighten_ub32 c x b)).
Proof.
  intros K Hx Ib. split; [exact (law_lb64 c x b K Hx Ib) |]. split; [exact (law_ub64 c x b K Hx Ib) |].
  intros T I32. split; [exact (law_lb32 c x b K Hx T I32) | exact (law_ub32 c x b K Hx T I32)].
Qed.


(** C11: A constructor adds exactly one propagator.  From a context in the
    constructors' invariant, [_alloc_prop] returns EXPR_NULL and changes nothing
    but the tables' room, or the new propagator, queued, unguarded and on the
    chains of all its variables, is added; the others keep their place on the
    chains, their guards and marks; the invariant holds again. *)
Theorem alloc_prop_exact c t prio ids bytes :
  built c -> (forall v, v ∈ ids -> 0 <= v < n_vars c) -> 0 <= prio < 16 ->
  let '(ref, c') := alloc_prop c t prio ids bytes in
  if ref =? EXPR_NULL then roomy c c' /\ built c' else
  built c' /\ vars c' = vars c /\ pool c !! ref = None /\
  (exists p, pool c' !! ref = Some p /\ template p = t /\ watched p = ids /\ priority p = prio /\
    queued p /\ ~ entailed p /\ guard_id c' p = EXPR_NULL) /\
  (forall r q', r <> ref -> pool c' !! r = Some q' -> exists q, pool c !! r = Some q /\
    core q' = core q /\ (queued q -> queued q') /\ guard_id c' q' = guard_id c q) /\
  (forall r q, pool c !! r = Some q -> is_Some (pool c' !! r)).
Proof.
  intros B Hv Pr. pose proof (alloc_added c t prio ids bytes B Hv Pr) as A.
  destruct (alloc_prop c t prio ids bytes) as [ref c']. destruct (_ =? _).
  - split; [exact A | apply (roomy_built c c' B A)].
  - split; [apply A |]. split; [apply A |]. split; [apply A |]. split; [apply A |]. split; apply A.
Qed.

(** C12: Guarding a propagator weakens its constraint.  [prop_set_guard] on an
    unguarded propagator keeps both invariants, and the solutions become those
    that satisfy the other constraints and either the constraint or the guard
    being 0. *)
Theorem set_guard_exact c ref p g : built c -> pinv None c -> pool c !! ref = Some p -> ref <> EXPR_NULL ->
  0 <= g < n_vars c -> guard_id c p = EXPR_NULL ->
  let c' := prop_set_guard c ref g in
  built c' /\ pinv None c' /\ guard_id c' p = g /\
  forall s, solves c' s <-> in_dom c s /\ (s g = 0 \/ template_sem order (template p) (watched p) s) /\
    forall r q, r <> ref -> pool c !! r = Some q -> holds c s q.
Proof.
  intros B I Hp Nr Hg Gp c'. pose proof (set_guard_spec c ref p g B Hp Hg) as N.
  pose proof (guarded_built c ref p g c' B Hp Nr Hg N) as B'.
  split; [exact B' |]. split; [apply (guarded_pinv c ref p g); assumption |].
  split; [pose proof (ng_id _ _ _ _ N ref p Hp) as E; rewrite Z.eqb_refl in E; exact E |].
  intros s. pose proof (wi_size c (bt_wired c B)) as Sz.
  exact (guarded_solves (Propagators0 := templates3) c ref p g c' s N Hp Hg Sz Gp).
Qed.
End Parts.

(** ** A session

    A bump stack over the allocator, a pool that hands out increasing offsets,
    and five variables: two 8-bit ones, two 64-bit unsigned ones at the top of
    their range, and a 0/1 guard. *)

#[local] Instance demo_stack : DynStack Mem.mark Mem.stack := bump_stack Mem.bump_malloc.
#[local] Instance demo_memory : Env := { growable := true; gix_alloc _ := true; past_deadline _ := false }.

Definition next_offset {T} (m : gmap Z (propagator T)) : Z := map_fold (fun r _ a => Z.max (r + 1) a) 16 m.
#[local] Instance demo_pool : BuildEnv templ := {
  tbl_alloc _ := true;
  spool_alloc m _ := if next_offset m <? EXPR_NULL then next_offset m else EXPR_NULL }.

Lemma next_offset_spec {T} (m : gmap Z (propagator T)) :
  16 <= next_offset m /\ forall r, is_Some (m !! r) -> r < next_offset m.
Proof.
  unfold next_offset. apply (map_fold_weak_ind (fun b m => 16 <= b /\ forall r, is_Some (m !! r) -> r < b)).
  - split; [lia |]. intros r [p Hp]. rewrite lookup_empty in Hp. discriminate.
  - intros i p m' b Hi [L IH]. split; [lia |]. intros r [q Hq]. destruct (Z.eq_dec r i) as [-> | Ne]; [lia |].
    rewrite lookup_insert_ne in Hq by congruence. specialize (IH r ltac:(eauto)). lia.
Qed.

#[local] Instance demo_pool_laws : BuildEnvLaws templ.
Proof.
  constructor. intros m bytes. cbn. destruct (next_offset_spec m) as [L F].
  destruct (Z.ltb_spec (next_offset m) EXPR_NULL) as [Lt | Ge]; [| contradiction].
  intros _. split; [lia |]. destruct (m !! next_offset m) as [p |] eqn:E; [| reflexivity].
  specialize (F (next_offset m) ltac:(eauto)). lia.
Qed.

Definition top_var l h : variable := mk_var 0 0 (s64 l) (s64 h) 64 VAR_TIER1.
Definition demo_vars : list variable :=
  [mk_var 8 9 0 0 8 0; mk_var 0 9 0 0 8 0; top_var (2 ^ 64 - 2) (2 ^ 64 - 1); top_var 0 (2 ^ 64 - 2);
   mk_var 0 1 0 0 1 0].
Definition demo_order (x : Z) : bool := (x =? 2) || (x =? 3).
Definition demo_mem : Mem.stack := Mem.stack_create (Mem.mk_ba 16 [(16, 48)] 4096 [] 0 0 []).
#[local] Instance demo_props : Propagators templ (ctx templ Mem.mark Mem.stack) := template_props demo_order.

Lemma demo_good : Forall good demo_vars.
Proof.
  repeat (apply list.Forall_cons; split); [.. | apply list.Forall_nil; exact Logic.I];
    (constructor; [vm_compute; split; congruence | | vm_compute; congruence ..]).
  1, 2, 5: left; vm_compute; repeat split; congruence.
  1, 2: right; vm_compute; repeat split; congruence.
Qed.

Lemma demo_ok (c : ctx templ Mem.mark Mem.stack) : vars c = demo_vars -> st_ok c.
Proof.
  intros E x Hx. cbn in *. unfold n_vars in Hx. unfold var. rewrite E in *.
  destruct (demo_vars !! Z.to_nat x) as [v |] eqn:L.
  - pose proof demo_good as G. rewrite Forall_lookup in G. exact (G _ _ L).
  - apply lookup_ge_None in L. lia.
Qed.

Definition demo0 : ctx templ Mem.mark Mem.stack := bare demo_vars demo_mem.
Definition demo1 : ctx templ Mem.mark Mem.stack := snd (prop_add_bounds_lt_32 demo0 0 1 2).
Definition demo2 : ctx templ Mem.mark Mem.stack := snd (prop_add_bounds_le_64 demo1 2 3 2).
Definition demo3 : ctx templ Mem.mark Mem.stack := snd (prop_add_reification_32 demo2 4 2 3 1).

Lemma demo_valid (n : Z) ids : n = 5 -> forallb (fun v => (0 <=? v) && (v <? 5)) ids = true ->
  forall v, v ∈ ids -> 0 <= v < n.
Proof.
  intros -> F v Hv. rewrite forallb_forall in F. specialize (F v). rewrite list_elem_of_In in Hv. specialize (F Hv). lia.
Qed.

Lemma demo_promotes : prop_add_reification_32 demo2 4 2 3 1 = alloc_prop demo2 Reification_64 1 [4; 2; 3] PROP_SIZE.
Proof.
  unfold prop_add_reification_32.
  replace (promoted demo2 2 || promoted demo2 3) with true by (vm_compute; reflexivity). reflexivity.
Qed.

Lemma demo_two B (c : ctx templ Mem.mark Mem.stack) : vars c = demo_vars -> B = true -> ordered B c [2; 3].
Proof.
  intros E ->. split; [apply demo_ok, E |]. cbn. unfold n_vars, var. rewrite E.
  repeat split; vm_compute; congruence.
Qed.

Lemma demo_guard_ok (c : ctx templ Mem.mark Mem.stack) : vars c = demo_vars -> guard_ok c 4.
Proof.
  intros E. apply guard_ok_intro; [apply demo_ok, E | ..]; cbn; unfold tier0, guard_at, lo_at, hi_at; cbn;
    unfold n_vars, var; rewrite E; repeat split; vm_compute; congruence.
Qed.

Definition demo_constraints : list (assignment -> Prop) :=
  [template_sem demo_order Reification_64 [4; 2; 3]; template_sem demo_order BoundsLE_64 [2; 3];
   template_sem demo_order BoundsLT_32 [0; 1]].

Lemma demo_vars1 : vars demo1 = demo_vars. Proof. vm_compute. reflexivity. Qed.
Lemma demo_vars2 : vars demo2 = demo_vars. Proof. vm_compute. reflexivity. Qed.

Lemma demo_posting : posting demo_order demo_vars demo_mem demo_constraints demo3.
Proof.
  assert (P1 : posting demo_order demo_vars demo_mem [template_sem demo_order BoundsLT_32 [0; 1]] demo1).
  { apply (post_plain demo_order _ _ [] demo0 BoundsLT_32 2 [0; 1] PROP_SIZE
      (fst (prop_add_bounds_lt_32 demo0 0 1 2)) demo1);
      [constructor | apply demo_valid; reflexivity | lia | | apply surjective_pairing | vm_compute; discriminate].
    split; [apply demo_ok; reflexivity |]. vm_compute. repeat split; congruence. }
  assert (P2 : posting demo_order demo_vars demo_mem
    [template_sem demo_order BoundsLE_64 [2; 3]; template_sem demo_order BoundsLT_32 [0; 1]] demo2).
  { apply (post_plain demo_order _ _ _ demo1 BoundsLE_64 2 [2; 3] PROP_SIZE
      (fst (prop_add_bounds_le_64 demo1 2 3 2)) demo2);
      [exact P1 | apply demo_valid; [unfold n_vars; rewrite demo_vars1 |]; reflexivity | lia |
      | apply surjective_pairing | vm_compute; discriminate].
    exists true. apply demo_two; [apply demo_vars1 | reflexivity]. }
  apply (post_plain demo_order _ _ _ demo2 Reification_64 1 [4; 2; 3] PROP_SIZE
    (fst (prop_add_reification_32 demo2 4 2 3 1)) demo3);
    [exact P2 | apply demo_valid; [unfold n_vars; rewrite demo_vars2 |]; reflexivity | lia |
    | rewrite <- demo_promotes; apply surjective_pairing | vm_compute; discriminate].
  exists true. split; [apply demo_two; [apply demo_vars2 | reflexivity] | apply demo_guard_ok, demo_vars2].
Qed.

Lemma demo_posted : posted_all demo_order demo_vars demo_mem demo_constraints demo3.
Proof. apply (posting_all demo_order); [cbn; unfold EXPR_NULL; lia | apply demo_good | apply demo_posting]. Qed.

(** What the call computes: every variable is fixed. *)
Definition ranges (vs : list variable) : list (Z * Z) := map (fun v => (lo_of v, hi_of v)) vs.
Definition demo_answer : list (Z * Z) :=
  [(8, 8); (9, 9); (2 ^ 64 - 2, 2 ^ 64 - 2); (2 ^ 64 - 2, 2 ^ 64 - 2); (1, 1)].

Lemma demo_runs : option_map (fun a => (fst a, ranges (vars (snd a)))) (solver_propagate 20 demo3) = Some (PROP_OK, demo_answer).
Proof. vm_compute. reflexivity. Qed.

Lemma demo_result : exists c', solver_propagate 20 demo3 = Some (PROP_OK, c') /\ ranges (vars c') = demo_answer.
Proof.
  pose proof demo_runs as R. destruct (solver_propagate 20 demo3) as [[r c'] |]; [| discriminate].
  injection R as -> R. exists c'. auto.
Qed.

Lemma answer_at (c : ctx templ Mem.mark Mem.stack) x : ranges (vars c) = demo_answer -> 0 <= x < n_vars c ->
  exists l, demo_answer !! Z.to_nat x = Some (l, l) /\ lo_at c x = l /\ hi_at c x = l.
Proof.
  intros E Hx. unfold n_vars in Hx. unfold lo_at, hi_at. cbn. unfold var.
  destruct (vars c !! Z.to_nat x) as [v |] eqn:L; [| apply lookup_ge_None in L; lia].
  assert (F : demo_answer !! Z.to_nat x = Some (lo_of v, hi_of v)).
  { rewrite <- E. unfold ranges. rewrite list_lookup_fmap, L. reflexivity. }
  assert (A : Forall (fun p => fst p = snd p) demo_answer) by (repeat constructor).
  rewrite Forall_lookup in A. specialize (A _ _ F). cbn in A. exists (lo_of v). rewrite F, A. auto.
Qed.

Lemma answer_fixed (c : ctx templ Mem.mark Mem.stack) : ranges (vars c) = demo_answer -> all_fixed c.
Proof. intros E x Hx. destruct (answer_at c x E Hx) as (l & _ & L & R). exact (eq_trans L (eq_sym R)). Qed.

Lemma propagate_sound_witness :
  exists c', solver_propagate 20 demo3 = Some (PROP_OK, c') /\ ranges (vars c') = demo_answer /\
    forall s, solves demo3 s <-> solves c' s.
Proof.
  destruct demo_result as (c' & E & R). exists c'. split; [exact E |]. split; [exact R |].
  pose proof (propagate_sound demo_order 20 demo3 PROP_OK c' (pa_pinv _ _ _ _ _ demo_posted)
    (pa_running _ _ _ _ _ demo_posted) E) as (_ & _ & X). exact X.
Defined.

(** A context small enough to count its turns. *)
Definition small0 : ctx templ Mem.mark Mem.stack := bare [mk_var 8 9 0 0 8 0; mk_var 0 9 0 0 8 0] demo_mem.
Definition small1 : ctx templ Mem.mark Mem.stack := snd (prop_add_bounds_lt_32 small0 0 1 2).

Lemma small_posted : posted_all demo_order (vars small0) demo_mem [template_sem demo_order BoundsLT_32 [0; 1]] small1.
Proof.
  assert (G : Forall good (vars small0)) 
    by exact (Forall_take good 2 demo_vars demo_good).
  apply (posting_all demo_order); [cbn; unfold EXPR_NULL; lia | exact G |].
  apply (post_plain demo_order _ _ [] small0 BoundsLT_32 2 [0; 1] PROP_SIZE
    (fst (prop_add_bounds_lt_32 small0 0 1 2)) small1);
    [constructor | | lia | | apply surjective_pairing | vm_compute; discriminate].
  - intros v Hv. rewrite !elem_of_cons in Hv. unfold n_vars. cbn. destruct Hv as [-> | [-> | Hv]]; [lia | lia | inversion Hv].
  - split; [| vm_compute; repeat split; congruence].
    intros x Hx. cbn in *. unfold n_vars in Hx. unfold var.
    destruct (vars small0 !! Z.to_nat x) as [v |] eqn:L; [| apply lookup_ge_None in L; lia].
    rewrite Forall_lookup in G. exact (G _ _ L).
Qed.

Lemma propagate_total_witness :
  option_map (fun a => (fst a, ranges (vars (snd a)))) (solver_propagate 30 small1) = Some (PROP_OK, [(8, 8); (9, 9)]).
Proof.
  destruct (propagate_total demo_order small1 (pa_pinv _ _ _ _ _ small_posted)) as (r & c' & E).
  specialize (E 30%nat ltac:(vm_compute; lia)).
  assert (R : option_map (fun a => (fst a, ranges (vars (snd a)))) (solver_propagate 30 small1) =
    Some (PROP_OK, [(8, 8); (9, 9)])) by (vm_compute; reflexivity).
  rewrite E in R |- *. exact R.
Defined.

Lemma propagate_complete_witness : exists c', solver_propagate 20 demo3 = Some (PROP_OK, c') /\
  ranges (vars c') = demo_answer /\ solves demo3 (values c').
Proof.
  destruct demo_result as (c' & E & R). exists c'. split; [exact E |]. split; [exact R |].
  apply (propagate_complete demo_order 20 demo3 c' (pa_pinv _ _ _ _ _ demo_posted)
    (pa_running _ _ _ _ _ demo_posted) E), answer_fixed, R.
Defined.

Lemma propagate_types_witness : exists c', solver_propagate 20 demo3 = Some (PROP_OK, c') /\
  width (var c' 2) = 64 /\ lo_of (var c' 2) = 2 ^ 64 - 2.
Proof.
  destruct demo_result as (c' & E & R). exists c'. split; [exact E |].
  pose proof (propagate_types demo_order 20 demo3 c' (pa_pinv _ _ _ _ _ demo_posted)
    (pa_running _ _ _ _ _ demo_posted) E) as [N X].
  assert (N3 : n_vars demo3 = 5) by (vm_compute; reflexivity).
  destruct (X 2 ltac:(lia)) as (_ & _ & W & _). split; [rewrite W; vm_compute; reflexivity |].
  destruct (answer_at c' 2 R ltac:(lia)) as (l & [= <-] & L & _). exact L.
Defined.

Lemma demo_solution : solves demo3 (fun x => if x =? 0 then 8 else if x =? 1 then 9 else if x =? 4 then 1 else 2 ^ 64 - 2).
Proof.
  apply (pa_solves _ _ _ _ _ demo_posted). split.
  - intros x Hx. cbn in Hx. unfold n_vars in Hx. cbn in Hx. unfold lo_at, hi_at. cbn.
    assert (C : x = 0 \/ x = 1 \/ x = 2 \/ x = 3 \/ x = 4) by lia.
    destruct C as [-> | [-> | [-> | [-> | ->]]]]; vm_compute; split; congruence.
  - repeat constructor; cbn; try lia; intros _; lia.
Qed.

Lemma propagate_answers_witness : exists r c', solver_propagate (Datatypes.S (rank demo3)) demo3 = Some (r, c') /\
  in_dom c' (fun x => if x =? 0 then 8 else if x =? 1 then 9 else if x =? 4 then 1 else 2 ^ 64 - 2).
Proof.
  destruct (propagate_answers demo_order demo3 _ (pa_pinv _ _ _ _ _ demo_posted)
    (pa_running _ _ _ _ _ demo_posted) demo_solution) as (r & c' & E & [D _] & _).
  exists r, c'. split; [exact E | exact D].
Defined.

Lemma session_correct_witness : exists c', solver_propagate 20 demo3 = Some (PROP_OK, c') /\
  Forall (fun R => R (values c')) demo_constraints.
Proof.
  destruct demo_result as (c0 & E0 & R0).
  destruct (session_correct demo_order demo_vars demo_mem demo_constraints demo3
    ltac:(cbn; unfold EXPR_NULL; lia) demo_good demo_posting) as (r & c' & E & X).
  assert (F : solver_propagate (20 + rank demo3) demo3 = Some (PROP_OK, c0)) by (apply fuel_mono, E0).
  rewrite (E (20 + rank demo3)%nat ltac:(lia)) in F. injection F as -> ->. exists c0. split; [exact E0 |].
  destruct X as [_ X]. apply X, answer_fixed, R0.
Defined.

(** [z <= w] on 64-bit unsigned variables narrows both to one pattern, which
    reads as a negative [int64_t]; [y = x >> g] for [x] in 8..9 and a bit [g]
    leaves 4..9. *)
Lemma templates_implement_witness :
  (let '(r, c') := fire_template BoundsLE_64 [2; 3] demo0 in
   r = PROP_OK /\ sub c' demo0 /\
   ranges (vars c') = [(8, 9); (0, 9); (2 ^ 64 - 2, 2 ^ 64 - 2); (2 ^ 64 - 2, 2 ^ 64 - 2); (0, 1)]) /\
  let '(r, c') := fire_template BoundsLSHR_64 [1; 0; 4] demo0 in
  r = PROP_OK /\ sub c' demo0 /\ head (tail (ranges (vars c'))) = Some (4, 9).
Proof.
  split.
  - assert (R : template_ready demo_order demo0 BoundsLE_64 [2; 3])
      by exact (ex_intro _ true (demo_two true demo0 eq_refl eq_refl)).
    pose proof (templates_implement demo_order demo0 BoundsLE_64 [2; 3] R) as X.
    assert (F : (fst (fire_template BoundsLE_64 [2; 3] demo0), ranges (vars (snd (fire_template BoundsLE_64 [2; 3] demo0)))) =
      (PROP_OK, [(8, 9); (0, 9); (2 ^ 64 - 2, 2 ^ 64 - 2); (2 ^ 64 - 2, 2 ^ 64 - 2); (0, 1)]))
      by (vm_compute; reflexivity).
    destruct (fire_template BoundsLE_64 [2; 3] demo0) as [r c']. cbn [fst snd] in F. injection F as -> F.
    destruct X as [[X _] _]. split; [reflexivity |]. split; [exact X | exact F].
  - assert (R : template_ready demo_order demo0 BoundsLSHR_64 [1; 0; 4])
      by (split; [split; [apply demo_ok; reflexivity |] |]; vm_compute; repeat split; congruence).
    pose proof (templates_implement demo_order demo0 BoundsLSHR_64 [1; 0; 4] R) as X.
    assert (F : (fst (fire_template BoundsLSHR_64 [1; 0; 4] demo0),
      head (tail (ranges (vars (snd (fire_template BoundsLSHR_64 [1; 0; 4] demo0)))))) = (PROP_OK, Some (4, 9)))
      by (vm_compute; reflexivity).
    destruct (fire_template BoundsLSHR_64 [1; 0; 4] demo0) as [r c']. cbn [fst snd] in F. injection F as -> F.
    destruct X as [[X _] _]. split; [reflexivity |]. split; [exact X | exact F].
Defined.

Lemma tighten_exact_witness : lowers_ub demo0 2 (2 ^ 64 - 2) (ctx_tighten_ub64 demo0 2 (- 2)) /\
  fst (ctx_tighten_ub64 demo0 2 5) = PROP_CONFLICT /\ raises_lb demo0 1 4 (ctx_tighten_lb32 demo0 1 4).
Proof.
  pose proof (demo_ok demo0 eq_refl) as K.
  destruct (tighten_exact demo0 2 (- 2) K) as (_ & U & _); [vm_compute; split; congruence | unfold int64; lia |].
  destruct (tighten_exact demo0 1 4 K) as (_ & _ & T); [vm_compute; split; congruence | unfold int64; lia |].
  split; [exact U |]. split; [vm_compute; reflexivity |].
  destruct T as [T _]; [vm_compute; reflexivity | unfold int32; lia | exact T].
Defined.

Lemma demo0_invariants : built demo0 /\ pinv None demo0.
Proof.
  split; [apply bare_built | apply (bare_pinv demo_order)]; try apply demo_good; cbn; unfold EXPR_NULL; lia.
Qed.


Lemma alloc_prop_exact_witness :
  fst (prop_add_bounds_lt_32 demo0 0 1 2) = 16 /\ built demo1 /\
  exists p, pool demo1 !! 16 = Some p /\ watched p = [0; 1] /\ priority p = 2 /\ queued p.
Proof.
  assert (F : fst (prop_add_bounds_lt_32 demo0 0 1 2) = 16) by (vm_compute; reflexivity).
  split; [exact F |].
  pose proof (alloc_prop_exact demo0 BoundsLT_32 2 [0; 1] PROP_SIZE (proj1 demo0_invariants)
    (demo_valid 5 [0; 1] eq_refl eq_refl) ltac:(lia)) as X.
  unfold demo1, prop_add_bounds_lt_32 in *. destruct (alloc_prop _ _ _ _ _) as [ref c']. cbn [fst snd] in *. subst ref.
  destruct X as (B & _ & _ & (p & Hp & _ & W & Pr & Q & _) & _).
  split; [exact B |]. exists p. auto.
Defined.

Definition demo_lt : propagator templ := default (new_prop ITEValue_64 0 0 []) (pool demo1 !! 16).

Lemma demo1_invariants : built demo1 /\ pinv None demo1.
Proof.
  pose proof (alloc_posted demo_order demo0 BoundsLT_32 2 [0; 1] PROP_SIZE (proj1 demo0_invariants)
    (proj2 demo0_invariants) (demo_valid 5 [0; 1] eq_refl eq_refl) ltac:(lia)) as X.
  assert (R : template_ready demo_order demo0 BoundsLT_32 [0; 1]).
  { split; [apply demo_ok; reflexivity |]. vm_compute. repeat split; congruence. }
  specialize (X R). unfold demo1, prop_add_bounds_lt_32.
  assert (F : fst (alloc_prop demo0 BoundsLT_32 2 [0; 1] PROP_SIZE) = 16) by (vm_compute; reflexivity).
  destruct (alloc_prop demo0 BoundsLT_32 2 [0; 1] PROP_SIZE) as [ref c']. cbn [fst] in F. subst ref.
  destruct X as (B & I & _). split; [exact B | exact I].
Qed.

Lemma demo_lt_at : pool demo1 !! 16 = Some demo_lt.
Proof.
  unfold demo_lt. assert (X : is_Some (pool demo1 !! 16)) by (vm_compute; eauto).
  destruct X as [p ->]. reflexivity.
Qed.

Lemma set_guard_exact_witness :
  pinv None (prop_set_guard demo1 16 4) /\ guard_id (prop_set_guard demo1 16 4) demo_lt = 4.
Proof.
  destruct demo1_invariants as [B I].
  destruct (set_guard_exact demo_order demo1 16 demo_lt 4 B I demo_lt_at) as (_ & I' & G & _);
    [unfold EXPR_NULL; lia | vm_compute; split; congruence | vm_compute; reflexivity |].
  split; [exact I' | exact G].
Defined.

Lemma wake_exact_witness : exists l, chained (pool demo1) 0 (chain_head demo1 0) l /\ NoDup l /\ awake (wake_var demo1 0) 16.
Proof.
  destruct (wake_exact demo1 0 (bt_wired _ (proj1 demo1_invariants))) as (l & x & Ch & N & _ & _ & A);
    [vm_compute; split; congruence |].
  exists l. split; [exact Ch |]. split; [exact N |]. apply (A 16 demo_lt demo_lt_at). left.
  vm_compute. constructor.
Defined.

(** Where the templates go wrong: a set whose only member is the largest value is
    reported as a conflict, in both widths. *)
Definition max32 : ctx templ Mem.mark Mem.stack := bare [mk_var 0 INT32_MAX 0 0 32 VAR_SIGNED] demo_mem.
Definition max64 : ctx templ Mem.mark Mem.stack :=
  bare [mk_var 0 0 0 INT64_MAX 64 (Z.lor VAR_SIGNED VAR_TIER1)] demo_mem.

Lemma in_set_32_loses_max :
  fst (fire_template (InSet_32 [INT32_MAX]) [0] max32) = PROP_CONFLICT /\
  in_dom max32 (fun _ => INT32_MAX) /\ template_sem demo_order (InSet_32 [INT32_MAX]) [0] (fun _ => INT32_MAX).
Proof.
  split; [vm_compute; reflexivity |]. split; [| left; reflexivity].
  intros x Hx. cbn in Hx. unfold n_vars in Hx. cbn in Hx. replace x with 0 by lia. vm_compute. split; congruence.
Qed.

Lemma in_set_64_loses_max :
  fst (fire_template (InSet_64 [INT64_MAX]) [0] max64) = PROP_CONFLICT /\
  in_dom max64 (fun _ => INT64_MAX) /\ template_sem demo_order (InSet_64 [INT64_MAX]) [0] (fun _ => INT64_MAX).
Proof.
  split; [vm_compute; reflexivity |]. split; [| left; reflexivity].
  intros x Hx. cbn in Hx. unfold n_vars in Hx. cbn in Hx. replace x with 0 by lia. vm_compute. split; congruence.
Qed.
End Solver.
