(* ===== verification/Session.v ===== *)
(** * Session: from constraints to shaved bounds

    What [dvs_solver_solve] does before its search: the constraints are posted,
    propagated, and the bounds shaved (src/src/c/dvs_search.c calls
    [bounds_shave] so).  The file shows that a context the constructors have
    made is one the trail, the queue and the loop may run on, and states what
    the three steps together promise, on the bump stack and the block allocator
    of the repository. *)

From Stdlib Require Import ZArith Lia ZifyBool Bool.
From stdpp Require Import base gmap list numbers relations.
From S2P Require Import Prelude Vars Ctx Queue Alloc DynStack Trail GuardIx Wake Store Wide Tighten.
From S2P Require Import Propagate Probe Shave Build Reify64 Templates Constructors Solver.
Import Vars Ctx Queue DynStack Trail GuardIx Wake Store Wide Tighten.
Import Propagate Probe Shave Build Reify64 Templates Constructors Solver.
Open Scope Z_scope.

Module Session.

Section Posted.
Context {M S : Type} `{DynStackLaws M S} `{Env} `{BuildEnv templ} `{!BuildEnvLaws templ}.
Context (order : Z -> bool).
Implicit Types c : ctx templ M S.
#[local] Instance templates4 : Propagators templ (ctx templ M S) := template_props order.

(** The fields of the trail, and the mask. *)
Definition log c := (decision_level c, trail c, trail_count c, entail c, dynamic c, unassigned_mask c).

Lemma register_log ids : forall c ref slot, log (register_watchers c ref slot ids) = log c.
Proof.
  induction ids as [| v ids IH]; intros c ref slot; [reflexivity |]. cbn [register_watchers]. rewrite IH.
  unfold register_watcher, update_prop. case_match; reflexivity.
Qed.

Lemma enqueue_log c r : log (prop_enqueue c r) = log c.
Proof. unfold prop_enqueue, update_prop. repeat case_match; reflexivity. Qed.

Lemma alloc_log c t prio ids bytes : log (snd (alloc_prop c t prio ids bytes)) = log c.
Proof.
  unfold alloc_prop. assert (R : log (snd (room_prop c)) = log c) by (unfold room_prop, reserve_props; repeat case_match; reflexivity).
  destruct (room_prop c) as [ok c1]. cbn in R. rewrite <- R. destruct ok; [| reflexivity]. cbn [negb].
  destruct (_ =? _); [reflexivity |]. cbn [snd].
  set (c2 := set_n_props _ _). set (c3 := prop_enqueue _ _).
  assert (E : log c3 = log c1).
  { unfold c3. rewrite enqueue_log, register_log. reflexivity. }
  rewrite <- E. repeat case_match; reflexivity.
Qed.

Lemma guard_log c ref g : log (prop_set_guard c ref g) = log c /\ pool (prop_set_guard c ref g) = pool c.
Proof. unfold prop_set_guard. repeat case_match; split; reflexivity. Qed.

(** Posting writes no record and entails nobody. *)
Lemma posting_log vs s l c : Z.of_nat (length vs) <= EXPR_NULL -> Forall good vs -> posting order vs s l c ->
  log c = (0, [], 0, [], s, 0) /\ forall r p, pool c !! r = Some p -> ~ entailed p.
Proof.
  intros L G P.
  assert (Step : forall l c t prio ids bytes ref c', posting order vs s l c ->
    (forall v, v ∈ ids -> 0 <= v < n_vars c) -> 0 <= prio < 16 -> alloc_prop c t prio ids bytes = (ref, c') ->
    log c = (0, [], 0, [], s, 0) /\ (forall r p, pool c !! r = Some p -> ~ entailed p) ->
    log c' = (0, [], 0, [], s, 0) /\ forall r p, pool c' !! r = Some p -> ~ entailed p).
  { clear l c P. intros l c t prio ids bytes ref c' P Hv Pr E [Lg Ne].
    split; [rewrite <- Lg, <- (alloc_log c t prio ids bytes), E; reflexivity |]. intros r p Hp.
    pose proof (alloc_added c t prio ids bytes (pa_built _ _ _ _ _ (posting_all order vs s l c L G P)) Hv Pr) as A.
    rewrite E in A. destruct (Z.eqb_spec ref EXPR_NULL).
    - apply (Ne r). rewrite <- Hp. destruct (roomy_fields c c' A) as (_ & -> & _). reflexivity.
    - destruct (decide (r = ref)) as [-> | N].
      + destruct (ad_new _ _ _ _ _ _ A) as (q & Hq & _ & _ & _ & _ & Nq & _). congruence.
      + destruct (ad_old _ _ _ _ _ _ A r p N Hp) as (q & Hq & Co & _).
        intros X. apply (Ne r q Hq), (core_entailed q p Co), X. }
  induction P; [split; [reflexivity | intros r p Hp; cbn in Hp; rewrite lookup_empty in Hp; discriminate] | eauto | eauto |].
  destruct (guard_log c' ref g) as [-> ->]. eauto.
Qed.

Lemma built_alive c : built c -> alive c.
Proof.
  intros B r p Hp. unfold is_live. destruct (bt_ids c B r p Hp) as [_ E]. unfold ref_at in E.
  destruct (prop_refs c) as [refs |]; [| reflexivity]. destruct (_ <? _); [| reflexivity]. cbn in E.
  rewrite E. apply Z.eqb_refl.
Qed.

(** A posted context is one the engine may run on. *)
Lemma posting_running vs s l c : Z.of_nat (length vs) <= EXPR_NULL -> Forall good vs -> Forall stored vs ->
  ds_live s [] -> posting order vs s l c -> running c.
Proof.
  intros L G St Ds P. destruct (posting_log vs s l c L G P) as [Lg Ne].
  pose proof (posting_all order vs s l c L G P) as A. injection Lg as E1 E2 E3 E4 E5 _.
  constructor; [| apply (pa_built _ _ _ _ _ A) | apply built_alive, A].
  exists (fun _ => c). apply untouched_inv. constructor; auto.
  - rewrite E5. exact Ds.
  - rewrite (pa_vars _ _ _ _ _ A). exact St.
  - apply (bt_wired c (pa_built _ _ _ _ _ A)).
  - intros r p Hp _. destruct (has_flag p PROP_FLAG_ENTAILED) eqn:F; [elim (Ne r p Hp F) | reflexivity].
Qed.

(** C16: Posted, propagated, shaved.  Take any variables the engine can search,
    any sequence of constructor calls, each ready for its variables
    ([template_ready]), and a stack that serves every record: if
    propagation returns OK, shaving ends; a conflict means that no values of the
    variables satisfy all the posted constraints, unless a budget ran out; OK
    leaves every satisfying assignment in the new domains, none outside the old
    ones, and when every variable is fixed, their values satisfy every posted
    constraint. *)
Theorem shaved_session `{!DynStackServes M S} vs s l c c1 turns n max_iters :
  Z.of_nat (length vs) <= EXPR_NULL -> Forall good vs -> Forall stored vs -> ds_live s [] ->
  posting order vs s l c -> solver_propagate turns c = Some (PROP_OK, c1) ->
  (effort c < turns)%nat -> spans (vars c) + 1 < Z.of_nat n ->
  let satisfies a := in_dom (bare vs s : ctx templ M S) a /\ Forall (fun R => R a) l in
  exists r c', bounds_shave turns 0 n c1 max_iters = Some (r, c') /\
  match r with
  | PROP_OK => (forall a, satisfies a -> in_dom c' a) /\ (forall a, in_dom c' a -> in_dom c1 a) /\
      (all_fixed c' -> satisfies (values c'))
  | PROP_CONFLICT => (forall a, ~ satisfies a) \/ prop_aborted c' = true
  | PROP_ENTAILED => False
  end.
Proof.
  intros L G St Ds P E1 Lt Hn satisfies. pose proof (posting_all order vs s l c L G P) as A.
  pose proof (posting_running vs s l c L G St Ds P) as Rn. destruct (posting_log vs s l c L G P) as [Lg _].
  injection Lg as L0 _ _ _ _ _.
  destruct (propagate_rests turns c c1 Rn (pa_pinv _ _ _ _ _ A) ltac:(rewrite L0; lia) E1) as (R1 & K1 & L1).
  pose proof (sub_spans c c1 (n_vars_sub _ _ (kp_sub _ _ K1)) (kp_sub _ _ K1)) as Sp.
  pose proof (effort_mono c c1 (kp_props _ _ K1) Sp).
  destruct (rounds_spec turns max_iters n c1 0 R1 ltac:(lia) ltac:(lia) ltac:(lia)) as (r & c' & E & Sh).
  rewrite L1, L0 in E. exists r, c'. split; [exact E |]. destruct r; [| | exact Sh].
  - destruct Sh as (k & rem & Go & _). pose proof (go_kept _ _ _ _ _ _ _ Go) as K2.
    pose proof (kept_trans _ _ _ K1 K2) as K. split; [| split].
    + intros a Sa. apply (kp_dom _ _ K), (pa_solves _ _ _ _ _ A), Sa.
    + intros a. apply sub_in_dom, K2.
    + intros F. apply (pa_solves _ _ _ _ _ A). pose proof (go_resting _ _ _ _ _ _ _ Go) as R2.
      apply (fixed_solution order c c'); [apply R2 | exact K | apply R2 | exact F].
  - destruct Sh as [N | [Ab _]]; [left | right; exact Ab]. intros a Sa.
    apply (kept_no_solution c c1 K1 N a), (pa_solves _ _ _ _ _ A), Sa.
Qed.
End Posted.

(** ** A session

    One 8-bit variable and two bits that differ, which say whether it is at most
    5 and at most 7.  Propagation learns nothing: that the variable is 6 or 7
    takes a probe of each bound. *)

#[local] Existing Instance demo_stack.
#[local] Existing Instance demo_memory.
#[local] Existing Instance demo_pool.
#[local] Existing Instance demo_pool_laws.
#[local] Existing Instance demo_props.
#[local] Instance demo_wide : DynStackLaws Mem.mark Mem.stack := wide_laws Mem.bump_malloc Mem.bump_malloc_ok.
#[local] Instance demo_serves : DynStackServes Mem.mark Mem.stack.
Proof. intros s cs bytes L B. apply (wide_served Mem.bump_malloc ltac:(discriminate) s cs bytes L B). Qed.

Definition probe_vars : list variable := 
  [mk_var 0 9 0 0 8 0; mk_var 0 1 0 0 1 0; mk_var 0 1 0 0 1 0; mk_var 5 5 0 0 8 0; mk_var 7 7 0 0 8 0].
Definition probe0 : ctx templ Mem.mark Mem.stack := bare probe_vars demo_mem.
Definition probe1 : ctx templ Mem.mark Mem.stack := snd (alloc_prop probe0 BoundsNE_32 2 [1; 2] PROP_SIZE).
Definition probe2 : ctx templ Mem.mark Mem.stack := snd (alloc_prop probe1 Reification_32 1 [1; 0; 3] PROP_SIZE).
Definition probe3 : ctx templ Mem.mark Mem.stack := snd (alloc_prop probe2 Reification_32 1 [2; 0; 4] PROP_SIZE).
Definition probe_constraints : list (assignment -> Prop) :=
  [fun s => s 2 = 1 <-> s 0 <= s 4; fun s => s 1 = 1 <-> s 0 <= s 3; fun s => s 1 <> s 2].

Lemma probe_good : Forall good probe_vars.
Proof.
  repeat (apply list.Forall_cons; split); [.. | apply list.Forall_nil; exact Logic.I];
    (constructor; [vm_compute; split; congruence | left; vm_compute; repeat split; congruence | vm_compute; congruence ..]).
Qed.

Lemma probe_ok (c : ctx templ Mem.mark Mem.stack) : vars c = probe_vars -> st_ok c.
Proof.
  intros E x Hx. cbn in *. unfold n_vars in Hx. unfold var. rewrite E in *.
  destruct (probe_vars !! Z.to_nat x) as [v |] eqn:L; [| apply lookup_ge_None in L; lia].
  pose proof probe_good as G. rewrite Forall_lookup in G. exact (G _ _ L).
Qed.

Lemma probe_vars_of : vars probe1 = probe_vars /\ vars probe2 = probe_vars /\ vars probe3 = probe_vars.
Proof. vm_compute. auto. Qed.

Lemma probe_ids (c : ctx templ Mem.mark Mem.stack) ids : vars c = probe_vars -> forallb (fun v => (0 <=? v) && (v <? 5)) ids = true ->
  forall v, v ∈ ids -> 0 <= v < n_vars c.
Proof.
  intros E F v Hv. unfold n_vars. rewrite E. rewrite forallb_forall in F. specialize (F v). rewrite list_elem_of_In in Hv.
  specialize (F Hv). cbn. lia.
Qed.

Lemma probe_ready (c : ctx templ Mem.mark Mem.stack) g y : vars c = probe_vars -> (g = 1 /\ y = 3 \/ g = 2 /\ y = 4) ->
  template_ready demo_order c Reification_32 [g; 0; y].
Proof.
  intros E Hg. split; [split; [apply probe_ok, E |] |]; cbn; unfold tier0, guard_at, vmax_at, lo_at, hi_at; cbn;
    unfold n_vars, var; rewrite E; destruct Hg as [[-> ->] | [-> ->]]; repeat split; vm_compute; congruence.
Qed.

Lemma probe_posting : posting demo_order probe_vars demo_mem probe_constraints probe3.
Proof.
  destruct probe_vars_of as (E1 & E2 & _).
  assert (P1 : posting demo_order probe_vars demo_mem [fun s => s 1 <> s 2] probe1).
  { apply (post_plain demo_order _ _ [] probe0 BoundsNE_32 2 [1; 2] PROP_SIZE (fst (alloc_prop probe0 BoundsNE_32 2 [1; 2] PROP_SIZE)) probe1);
      [constructor | apply probe_ids; reflexivity | lia | | apply surjective_pairing | vm_compute; discriminate].
    split; [apply probe_ok; reflexivity |]. vm_compute. repeat split; congruence. }
  assert (P2 : posting demo_order probe_vars demo_mem [fun s => s 1 = 1 <-> s 0 <= s 3; fun s => s 1 <> s 2] probe2).
  { apply (post_plain demo_order _ _ _ probe1 Reification_32 1 [1; 0; 3] PROP_SIZE
      (fst (alloc_prop probe1 Reification_32 1 [1; 0; 3] PROP_SIZE)) probe2);
      [exact P1 | apply probe_ids; auto | lia | apply probe_ready; [exact E1 | auto]
      | apply surjective_pairing | vm_compute; discriminate]. }
  apply (post_plain demo_order _ _ _ probe2 Reification_32 1 [2; 0; 4] PROP_SIZE
    (fst (alloc_prop probe2 Reification_32 1 [2; 0; 4] PROP_SIZE)) probe3);
    [exact P2 | apply probe_ids; auto | lia | apply probe_ready; [exact E2 | auto]
    | apply surjective_pairing | vm_compute; discriminate].
Qed.

(** What the steps compute.  The limit is one removal; eight values and a bit
    go, since only the outer loops look at it. *)
Lemma probe_runs : option_map (fun a => (fst a, ranges (vars (snd a)))) (solver_propagate 200 probe3) =
  Some (PROP_OK, [(0, 9); (0, 1); (0, 1); (5, 5); (7, 7)]).
Proof. vm_compute. reflexivity. Qed.
Lemma probe_shaves : option_map (fun a => (fst a, ranges (vars (snd a))))
    (match solver_propagate 200 probe3 with Some (_, c) => bounds_shave 200 0 20 c 1 | None => None end) =
  Some (PROP_OK, [(6, 7); (0, 0); (1, 1); (5, 5); (7, 7)]).
Proof. vm_compute. reflexivity. Qed.

Lemma probe_result : exists c1 c2, solver_propagate 200 probe3 = Some (PROP_OK, c1) /\
  bounds_shave 200 0 20 c1 1 = Some (PROP_OK, c2) /\ ranges (vars c2) = [(6, 7); (0, 0); (1, 1); (5, 5); (7, 7)].
Proof.
  pose proof probe_runs as R. pose proof probe_shaves as Sh.
  destruct (solver_propagate 200 probe3) as [[r c1] |]; [| discriminate]. injection R as -> _.
  destruct (bounds_shave 200 0 20 c1 1) as [[r c2] |] eqn:E; [| discriminate]. injection Sh as -> Sh. eauto 6.
Qed.

Lemma probe_live : ds_live demo_mem [].
Proof.
  split; [| vm_compute; congruence]. exists [], [], []. split; [| split; [constructor | reflexivity]].
  apply (Mem.stack_create_inv Mem.bump_malloc [] 4096 (Mem.block_alloc demo_mem) Mem.bump_malloc_ok Mem.regions_ok_nil);
    [reflexivity | lia].
Qed.

Lemma probe_stored : Forall stored probe_vars.
Proof. repeat constructor; vm_compute; congruence. Qed.

Lemma probe_size : (effort probe3 < 200)%nat /\ spans (vars probe3) + 1 < Z.of_nat 20.
Proof. vm_compute. split; [lia | reflexivity]. Qed.

Lemma shaved_session_witness : exists c1 c2, solver_propagate 200 probe3 = Some (PROP_OK, c1) /\
  bounds_shave 200 0 20 c1 1 = Some (PROP_OK, c2) /\ ranges (vars c2) = [(6, 7); (0, 0); (1, 1); (5, 5); (7, 7)] /\
  (forall a, in_dom c2 a -> in_dom c1 a).
Proof.
  destruct probe_result as (c1 & c2 & E1 & E2 & R). exists c1, c2. split; [exact E1 |]. split; [exact E2 |]. split; [exact R |].
  destruct probe_size as [Ef Sp].
  destruct (shaved_session demo_order probe_vars demo_mem probe_constraints probe3 c1 200 20 1
    ltac:(cbn; unfold EXPR_NULL; lia) probe_good probe_stored probe_live probe_posting E1 Ef Sp) as (r & c' & E & X).
  rewrite E2 in E. injection E as <- <-. destruct X as (_ & X & _). exact X.
Defined.

End Session.
