(* ===== verification/Answers.v ===== *)
(** * Answers: from constraints to an answer

    [dvs_solver_solve] on a context the constructors have made
    (src/src/c/dvs_search.c, [_solver_solve_core]): the constraints are posted,
    and the search, with its own choices of variables and values, ends, and its
    answer is right for the constraints posted.  Two small problems are solved, a
    satisfiable one through decisions and a conflict, and one that takes
    conflicts to refute. *)

From Stdlib Require Import ZArith Lia ZifyBool Bool.
From stdpp Require Import base gmap list numbers relations.
From S2P Require Import Prelude Vars Ctx Queue Alloc DynStack Trail GuardIx Wake Store Wide Tighten.
From S2P Require Import Propagate Probe Unassigned Shave Divisors Search Explore Solve Holes Choose.
From S2P Require Import Build Templates Constructors Solver Session.
Import Vars Ctx Queue DynStack Trail GuardIx Wake Store Wide Tighten.
Import Propagate Probe Unassigned Shave Search Explore Solve Holes Choose.
Import Build Templates Constructors Solver Session.
Open Scope Z_scope.

Module Answers.

Section Posted.
Context {M S : Type} `{DynStackLaws M S} `{Env} `{BuildEnv templ} `{!BuildEnvLaws templ}.
Context (order : Z -> bool).
#[local] Instance templates5 : Propagators templ (ctx templ M S) := template_props order.

(** The mask of a posted context is not made yet. *)
Lemma posting_mask vs s l (c : ctx templ M S) : Z.of_nat (length vs) <= EXPR_NULL -> Forall good vs ->
  posting order vs s l c -> mask_right c.
Proof.
  intros L G P _. destruct (posting_log order vs s l c L G P) as [Lg _]. injection Lg as _ _ _ _ _ Em.
  constructor; rewrite Em; [| congruence]. intros x Hx. rewrite Z.bits_0. discriminate.
Qed.

(** C2: The search answers right.  Take any variables the engine can search, any
    sequence of constructor calls, each ready for its variables
    ([template_ready]), a stack that serves every record, and the search without
    clause learning, with fewer than 2^31 - 1 restarts, in a solve that does not
    sample ([unsampled]), on well-formed tables and saved choices ([tables_ok],
    [choices_ok]), whatever the deadline, the budget and the growth of the level
    arrays: there is a number of steps from which on every run of
    [_solver_solve_core] gives the same answer.  OK comes with all variables
    fixed, at values that satisfy every posted constraint; UNSAT means that no
    values do; only a timeout leaves the question open. *)
Theorem search_answers `{!DynStackServes M S} vs s l c turns rounds late opts tb factoring room sr h limited growable granted cap :
  Z.of_nat (length vs) < 2 ^ 31 -> Forall good vs -> Forall stored vs -> ds_live s [] -> posting order vs s l c ->
  (effort c < turns)%nat -> spans (vars c) + 1 < Z.of_nat rounds -> restarts_of opts < 2 ^ 31 - 1 ->
  2 <= cap <= 0xFFFF -> unsampled tb opts -> tables_ok tb -> choices_ok h ->
  let satisfies a := in_dom (bare vs s : ctx templ M S) a /\ Forall (fun R => R a) l in
  exists n r why st,
    (forall fuel, (n <= fuel)%nat ->
      solver_solve_core (Chooser0 := seeded_chooser tb factoring room sr opts)
        turns rounds late opts fuel limited growable granted cap h c = Some (r, why, st)) /\
    match r with
    | DVS_SOLVE_OK => all_fixed (state st) /\ satisfies (values (state st))
    | DVS_SOLVE_UNSAT => forall a, ~ satisfies a
    | DVS_SOLVE_TIMEOUT => True
    end.
Proof.
  intros L G St Ds P Lt Hr Few Hc _ Tk Ck satisfies.
  assert (Le : Z.of_nat (length vs) <= EXPR_NULL) by (unfold EXPR_NULL; lia).
  pose proof (posting_all order vs s l c Le G P) as A. pose proof (posting_running order vs s l c Le G St Ds P) as Rn.
  destruct (posting_log order vs s l c Le G P) as [Lg _]. injection Lg as L0 _ _ _ _ _.
  assert (Nv : n_vars c = Z.of_nat (length vs)) by (unfold n_vars; rewrite (pa_vars _ _ _ _ _ A); reflexivity).
  destruct (solve_core_right (ChooserLaws0 := seeded_laws tb Tk factoring room sr opts) turns rounds late opts Few c h limited growable granted cap Ck Rn (pa_pinv _ _ _ _ _ A)
    (posting_mask vs s l c Le G P) ltac:(lia) ltac:(unfold MAX_DECISION_DEPTH; lia) Lt Hr) as (n & r & why & st & R & F).
  exists n, r, why, st. split; [exact F |]. destruct r; cbn in R; [| | exact Logic.I].
  - destruct R as [Fx Sv]. split; [exact Fx | apply (pa_solves _ _ _ _ _ A), Sv].
  - intros a Sa. apply (R a), (pa_solves _ _ _ _ _ A), Sa.
Qed.
End Posted.

(** ** Two problems *)

#[local] Existing Instance demo_stack.
#[local] Existing Instance demo_memory.
#[local] Existing Instance demo_pool.
#[local] Existing Instance demo_pool_laws.
#[local] Existing Instance demo_props.
#[local] Existing Instance demo_wide.
#[local] Existing Instance demo_serves.

Definition no_tables : tables := mk_tables 0 None None None None ∅ ∅ [] [] [] None.
Definition fresh_choices : choices := mk_choices 0 false 0 ∅ ∅ None false 0 ∅ (Divisors.mk_divisors 0 [] 0).

(** The search with a seed, without shaving. *)
Definition demo_solve_for (fuel : nat) (seed : Z) (c : ctx templ Mem.mark Mem.stack) :=
  let o := Some (mk_opts seed 0 0 false false false false 0) in
  solver_solve_core (Chooser0 := seeded_chooser no_tables 1 (fun _ => true) true o) 200 20 (fun _ => false) o
    fuel false true true 64 (begin_choices o true (fun _ => true) fresh_choices c) c.

(** Three bits that all differ. *)
Definition bit : variable := mk_var 0 1 0 0 1 0.
Definition bits0 : ctx templ Mem.mark Mem.stack := bare [bit; bit; bit] demo_mem.
Definition bits1 : ctx templ Mem.mark Mem.stack := snd (alloc_prop bits0 BoundsNE_32 2 [0; 1] PROP_SIZE).
Definition bits2 : ctx templ Mem.mark Mem.stack := snd (alloc_prop bits1 BoundsNE_32 2 [1; 2] PROP_SIZE).
Definition bits3 : ctx templ Mem.mark Mem.stack := snd (alloc_prop bits2 BoundsNE_32 2 [0; 2] PROP_SIZE).

Lemma demo_tables : tables_ok no_tables.
Proof. constructor; cbn; try exact Logic.I; intros x l E; rewrite lookup_empty in E; discriminate. Qed.
Lemma demo_unsampled seed : unsampled no_tables (Some (mk_opts seed 0 0 false false false false 0)).
Proof. split; cbv [samples seeded fair Search.fair_pick]; rewrite andb_false_r; [reflexivity | discriminate]. Qed.
Lemma demo_choices o (c : ctx templ Mem.mark Mem.stack) :
  choices_ok (begin_choices (Some (mk_opts o 0 0 false false false false 0)) true (fun _ => true) fresh_choices c).
Proof.
  constructor; cbn; [intros x; rewrite lookup_empty; unfold int64; cbn; lia | discriminate | constructor].
Qed.

(** With seed 2 the first draw conflicts, and 7 is found. *)
Lemma demo_finds : option_map (fun a => (fst a, ranges (vars (state (snd a))), conflict_count (budget (state (snd a)))))
    (demo_solve_for 60 2 probe3) =
  Some (DVS_SOLVE_OK, DVS_BAIL_NONE, [(7, 7); (0, 0); (1, 1); (5, 5); (7, 7)], 1).
Proof. vm_compute. reflexivity. Qed.
Lemma demo_more f k sd c x : demo_solve_for f sd c = Some x -> demo_solve_for (f + k) sd c = Some x.
Proof. apply solve_core_more. Qed.

Lemma demo_finds_more : exists x, (forall k, demo_solve_for (60 + k) 2 probe3 = Some x) /\ fst (fst x) = DVS_SOLVE_OK /\
  ranges (vars (state (snd x))) = [(7, 7); (0, 0); (1, 1); (5, 5); (7, 7)].
Proof.
  generalize demo_finds, (fun k => demo_more 60 k 2 probe3). generalize (demo_solve_for 60 2 probe3).
  intros [x |] D More; [| discriminate D]. exists x. split; [intros k; apply More; reflexivity |].
  injection D as Dr Dv _. rewrite Dr. auto.
Qed.
Lemma same_answer {X} (f : nat -> option X) n a b : (forall k, (n <= k)%nat -> f k = Some a) ->
  (forall k, f (60 + k)%nat = Some b) -> a = b.
Proof. intros F E. specialize (F (60 + n)%nat ltac:(lia)). rewrite E in F. congruence. Qed.
(** Two conflicts refute the bits. *)
Lemma demo_refutes : option_map (fun a => (fst a, conflict_count (budget (state (snd a))))) (demo_solve_for 60 3 bits3) =
  Some (DVS_SOLVE_UNSAT, DVS_BAIL_NONE, 2).
Proof. vm_compute. reflexivity. Qed.

Lemma search_answers_witness : exists n r why st,
  (forall fuel, (n <= fuel)%nat -> demo_solve_for fuel 2 probe3 = Some (r, why, st)) /\ r = DVS_SOLVE_OK /\
  ranges (vars (state st)) = [(7, 7); (0, 0); (1, 1); (5, 5); (7, 7)] /\ all_fixed (state st).
Proof.
  destruct probe_size as [Ef Sp].
  destruct (search_answers demo_order probe_vars demo_mem probe_constraints probe3 200 20 (fun _ => false)
    (Some (mk_opts 2 0 0 false false false false 0)) no_tables 1 (fun _ => true) true
    (begin_choices (Some (mk_opts 2 0 0 false false false false 0)) true (fun _ => true) fresh_choices probe3) false true true 64
    ltac:(cbn; lia) probe_good probe_stored probe_live probe_posting Ef Sp ltac:(vm_compute; reflexivity) ltac:(lia)
    (demo_unsampled 2) demo_tables (demo_choices 2 probe3)) as (n & r & why & st & F & R).
  exists n, r, why, st. split; [exact F |]. destruct demo_finds_more as (x & E & Er & Es).
  pose proof (same_answer (fun k => demo_solve_for k 2 probe3) n (r, why, st) x F E) as <-. cbn [fst snd] in Er, Es.
  split; [exact Er |]. split; [exact Es |]. subst r. apply R.
Defined.

(** ** The choices on the posted context *)

Lemma mrv_exact_witness : fst (mrv_select no_tables true 7 probe3) = 1 /\ 0 <= 1 < n_vars probe3 /\ ~ fixed probe3 1 /\
  forall y, now_var no_tables 0 probe3 y -> no_better no_tables probe3 1 y.
Proof.
  destruct probe_vars_of as (_ & _ & E3).
  assert (Ex : fst (mrv_select no_tables true 7 probe3) = 1) by (vm_compute; reflexivity).
  assert (L : Z.of_nat (length probe_vars) <= EXPR_NULL) by (cbn; unfold EXPR_NULL; lia).
  destruct (mrv_exact no_tables demo_tables true 7 probe3 (probe_ok probe3 E3) ltac:(vm_compute; congruence)
    (posting_mask demo_order _ _ _ _ L probe_good probe_posting)) as [[X _] | (Hx & Nf & [[_ O] | [[_ X] _]])];
    rewrite Ex in *; [discriminate X | auto | vm_compute in X; discriminate X].
Defined.

(** 8 is a hole of the first variable, whose domain is 0 to 9; 9 goes too. *)
Lemma exclude_exact_witness : exists c, solver_exclude_value true None [8] probe3 0 9 = (0, [8; 9], c) /\
  hi_at c 0 = 7 /\ trimmed probe3 c 0 [8; 9] /\ (hole_list [8; 9]).
Proof.
  destruct probe_vars_of as (_ & _ & E3).
  assert (Hl : hole_list [8]) by (repeat constructor; vm_compute; congruence).
  assert (G : good (var probe3 0)) by exact (probe_ok probe3 E3 0 ltac:(vm_compute; split; congruence)).
  pose proof (exclude_exact true None [8] probe3 0 9 Hl ltac:(cbn; lia) (probe_ok probe3 E3) ltac:(vm_compute; split; congruence)
    ltac:(unfold int64; lia) ltac:(vm_compute; reflexivity) ltac:(vm_compute; reflexivity) ltac:(vm_compute; reflexivity)
    G ltac:(vm_compute; reflexivity) ltac:(vm_compute; reflexivity)) as X.
  assert (Er : fst (solver_exclude_value true None [8] probe3 0 9) = (0, [8; 9])) by (vm_compute; reflexivity).
  assert (Eh : hi_at (snd (solver_exclude_value true None [8] probe3 0 9)) 0 = 7) by (vm_compute; reflexivity).
  destruct (solver_exclude_value true None [8] probe3 0 9) as [[r l] c]. cbn [fst snd] in Er, Eh. injection Er as -> ->.
  exists c. split; [reflexivity |]. split; [exact Eh |]. destruct X as [[X _] | (_ & Hl' & _ & Tr & _)]; [discriminate X | auto].
Defined.
End Answers.
